(* ===== verification/_CoqProject ===== *)
-Q . S2P
Prelude.v
Protocol.v
Register.v
Cluster.v
Proposer.v
Agreement.v
Consensus.v
Safety.v
Values.v
SlotSpec.v
FastPath.v
Bytes.v
Entry.v
Manifest.v
Segment.v
Wal.v
WalSafety.v
WalLog.v
Compaction.v
CompactionProofs.v
Ledger.v
LedgerSafety.v
FencingProofs.v
Anchor.v
AnchorSafety.v
AnchorProofs.v
Schedule.v
ScheduleProofs.v
Node.v
NodeSafety.v
NodeProofs.v
NodeExamples.v
Reads.v
ReadsProofs.v
ReadsExamples.v
LiveValues.v
LiveValuesProofs.v
GroupCommit.v
GroupCommitProofs.v
Membership.v
MembershipProofs.v
History.v
HistoryProofs.v
SqlResult.v
SqlResultProofs.v
Materializer.v
MaterializerKV.v
MaterializerProofs.v
MaterializerRun.v
MaterializerDemo.v
Restore.v
RestoreProofs.v
Admission.v
AdmissionProofs.v
Batcher.v
BatcherProofs.v
BatcherLiveness.v
BatcherExamples.v
Proposals.v
ProposalsProofs.v
Programs.v
Publish.v
PublishLogic.v
PublishClaims.v
PublishSteps.v
PublishProofs.v
PublishRoots.v
PublishRuns.v
ArchiveCodec.v
ArchiveCodecProofs.v
Archive.v
ArchiveChains.v
ArchiveLogic.v
ArchiveReads.v
ArchiveWrites.v
ArchiveSync.v
ArchiveCollect.v
ArchiveProofs.v
ArchiveRuns.v
AutoPolicy.v
