(* ===== verification/Prelude.v ===== *)
(** * Rhiza: a verification development for the replication core

    Rhiza is an embedded, leaderless replicated database.  A write becomes a
    value proposed for a slot of a log; the QuePaxa protocol decides one value
    per slot on a quorum of voters; every voter keeps receipts, values and
    decisions in a write-ahead log (WAL) and applies decided values to its
    databases.  Voters change through two control values in the same log, an
    external anchor record and a fencing ledger decide which cluster
    generation may run, and an operator policy decides when a lost cluster is
    recovered.

    ** Parts and files

    Consensus of one slot (src/pkg/quepaxa/protocol.go, core.go).
    [Protocol] has proposals, their order and the interval summary register
    ([ISR.Record]); [Register] characterises the register by the requests it
    recorded.  [Cluster] has voters and quorums.  [Proposer] is an iteration of
    [runSlot]; [Consensus] composes proposers, recorders, their WALs, crashes
    and accepted decisions into a transition system of a slot.  [Agreement] is
    the protocol argument on histories, [Safety] and [Values] tie it to the
    reachable states, [SlotSpec] states the contract: a write-once register of
    a proposed value, which the slot refines.  [FastPath] is a run of the same
    system in which a restarted leader breaks agreement; the agreement
    theorem therefore says which leaders it covers.

    One replica over its life (src/pkg/quepaxa/core.go, certificate.go,
    value_guard.go).  [Node] has the tables of [Core] and its operations:
    staging values, the handler [record], accepting, logging and serving
    decisions, reserving slots, recovery by replay.  [NodeSafety] has the
    invariant, relative to the history the cluster decided; [NodeProofs] what
    survives restarts of the process and power failures; [NodeExamples] concrete runs.  [Reads] composes replicas
    into a cluster that acknowledges writes and serves linearizable reads
    (server.go, transport.go, peer_server.go), [ReadsProofs] and
    [ReadsExamples] show what reads see.  [LiveValues] is the
    compaction of a replica beside its recorder (compaction.go),
    [LiveValuesProofs] which values it keeps.  [Schedule] and [ScheduleProofs]
    model the leader schedule.

    Membership (src/pkg/quepaxa/reconfiguration.go, core.go,
    membership_history.go, membership_validation.go,
    checkpoint_membership.go).  [Membership] has freeze, terminal and abort
    and the guards of [record] under them, [MembershipProofs] the chain of
    configurations.  [History] has the certified record of that chain which
    checkpoints carry, and its validation; [HistoryProofs] what an accepted
    record certifies.

    Durable log (src/pkg/qlog, src/pkg/quepaxa/group_commit.go).  [Bytes],
    [Entry], [Manifest] and [Segment] are the formats and the scan of a
    segment; [Wal] the operations on a directory whose I/O can fail and lose
    power; [WalSafety] the invariant, [WalLog] the log a client sees.
    [Compaction] is the rewrite of a prefix of the log beside appends,
    [CompactionProofs] what the log holds after it.
    [GroupCommit] is the batching of syncs over an interface [DurableLog];
    [GroupCommitProofs] makes the WAL an instance of it.

    Applying the log (src/pkg/materializer/materializer.go,
    result_retention.go).  [SqlResult] is the stored form of a SQL result with
    its budgets, [SqlResultProofs] when it can be read back.  [Materializer]
    applies pages of decided values to tables: receipts that make requests
    idempotent, the Bloom filter in front of them, the retention budget,
    key-value rows with expiry, commit and reopening.  [MaterializerKV]
    specifies key-value commands by what readers see; [MaterializerProofs]
    relates a page to a reference that applies one value at a time,
    [MaterializerRun] runs of pages, failures and restarts to a prefix of the
    log; [MaterializerDemo] has concrete runs.  [Restore] is the installation
    of a checkpoint and its recovery over a directory that fails and loses
    power; [RestoreProofs] shows it atomic.  SQLite executes commands as a
    parameter; the managed protocols and the graph engine are left out.

    Checkpoints on the object store (src/pkg/checkpoint/checkpoint.go,
    auto.go).  [Publish] has claims, candidates, CURRENT, recovery pins and
    garbage collection as programs that ask the store one request at a time,
    and runs of interleaved processes.  [PublishLogic] is a rely-guarantee
    logic for them, [PublishClaims] and [PublishSteps] apply it to the
    operations, [PublishProofs] states what every run keeps, [PublishRoots]
    that published roots pass the checks of their readers, [PublishRuns]
    concrete runs.  Clocks are one clock; where a theorem asks for a timely
    run, a request that moves CURRENT, deletes or pins takes effect before the
    lease its process last saw expires.

    Archive of the log on the object store (src/pkg/recovery/archive.go,
    archive_codec.go, seal.go).  [ArchiveCodec] has the formats of extents and
    heads, [ArchiveCodecProofs] their round trips.  [Archive] has managers that
    load, read, sync, trim, initialise, seal and collect, as programs over
    requests to the store ([Programs], shared with [Publish]), and runs of
    interleaved sessions whose requests fail with or without effect.
    [ArchiveChains] relates references to extents of the decided log,
    [ArchiveLogic] is a rely-guarantee logic with triples of actions and what
    a process knows, [ArchiveReads], [ArchiveWrites], [ArchiveSync] and
    [ArchiveCollect] apply it to the operations; [ArchiveProofs] states what every run keeps, [ArchiveRuns] has
    a run.  Runs assume that no two uploads have the same hash and that
    checkpoints and sources are those of the decided log.  The theorems are
    about tenured runs, in which what a collection deletes or publishes takes
    effect while it holds GC_LOCK: the code takes the lock first and does not
    check it again.  Syncs, trims and seals may be delayed arbitrarily.

    Control of cluster generations.  [Ledger], [LedgerSafety] and
    [FencingProofs]: src/pkg/fencing/ledger.go.  [Anchor], [AnchorSafety] and
    [AnchorProofs]: src/pkg/recoveryanchor over the interface [Backend].
    [AutoPolicy]: src/pkg/operator/automatic_policy.go.

    Serving requests.  [Admission] and [AdmissionProofs]:
    src/pkg/network/mutation_admission.go.  [Batcher]: the batching of requests
    into slot values, src/pkg/network/batcher.go; [BatcherProofs] and
    [BatcherLiveness] what its callers are told, [BatcherExamples] a run.  [Proposals] and
    [ProposalsProofs]: admission of proposals, quiescence and lifecycle of
    src/pkg/network/server.go.

    This file holds bytes, machine words, results, quorums and the tactics the
    others share.

    ** How the code is modelled

    A handler is a function from its request, the outcomes of its I/O calls
    and the state to a result and the next state; goroutines, crashes and
    messages are steps of inductive relations, in every interleaving.  Byte
    strings are [list byte]; uint64 and uint32 values are [Z] with [u64] and
    [u32] written where the code can wrap; slots are unbounded except where the
    code guards the end of the range.  Maps are [gmap]; where the order of a Go
    map range can be observed it is an argument.  SHA-256, JSON payloads, the
    random source, the clock, the anchor's store and the installed validators
    are arguments, with what the code relies on as hypotheses or class laws;
    CRC-32C is computed.

    A process that restarts finds all its files hold, synced or not; a power
    failure keeps what was synced and any prefix of the rest.  A WAL handle
    that was just opened counts as clean, so its next [Sync] writes nothing, and
    a replica takes every decision it replays for durable.  What the theorems
    on durability promise across a power failure therefore depends on whether
    the entries a process found at its start are on disk ([settled] for a
    replica, the flag of [log_run] for a WAL), and runs in which they are not
    lose acknowledged decisions ([acknowledged_decision_lost],
    [power_failure_hides_write], [reopened_tail_unsynced]).

    ** Bounds and fuel

    [advance_tip] and [advance_loop] take one round per decided slot, the size
    of the map; the WAL scan recurses on the remaining bytes; the retry loop of
    [Activate] has the code's own bound of attempts; the walk over the chain of
    an archive head takes at most one round per slot between base and tip, the
    loop of a sync one per slot it adds, and the retries of the archive are the
    code's; the others are structural.
    Theorems that an operation returns are stated as such
    ([restart_recovers], [Activate_completes], [sync_answered],
    [fencing_completes], [recovery_completes], [archive_readable]).

    ** What the theorems show

    Clients: [linearizable_read], [acknowledged_write_held],
    [batch_answers_sound], [batcher_settles], [batcher_bounded],
    [quiesce_excludes], [single_flight], [no_lost_wakeup].  Safety of
    decisions: [agreement], [validity], [slot_refines],
    [accept_never_conflicts].  Durability: [synced_log_survives],
    [restart_opens], [power_loss_recovery], [compaction_exact], [estimate_exact],
    [group_sync_durable], [acknowledged_record_survives],
    [durable_decision_survives], [restart_recovers].  Membership:
    [recorded_configuration_final], [neighbour_quorums_intersect],
    [removed_voters_never_return], [validated_history_chain],
    [history_reconstructs].  Generations: [fencing_final],
    [single_live_incarnation], [superseded_owner_rejected],
    [reservation_freezes], [Activate_refines_writes].  Checkpoints:
    [checkpoints_restorable], [claim_exclusive], [current_monotone],
    [stored_roots_open].  Archive: [archive_readable], [sync_durable],
    [archive_advances], [extent_codec_exact], [head_codec_roundtrip].
    Applying the log: [ApplyBatch_exact], [materialized_prefix],
    [replicas_agree], [receipt_served], [kv_command_visible],
    [stored_result_readable]; [restore_atomic], [restore_durable] and
    [recovery_completes] for checkpoints.  The commands of the log are assumed
    to leave storable receipts where they run: the stored result decodes and
    SQLite counts 1 to 64 characters in the request ID.  Restores assume that
    the close folds SQLite's log, or that it is empty, and that opening the
    snapshot commits nothing.
    Where the code falls short of what it says, a theorem exhibits the run:
    [restarted_leader_disagreement], [reopened_tail_unsynced],
    [acknowledged_decision_lost], [power_failure_hides_write],
    [unfolded_log_lost], [stale_log_left],
    [stored_value_lost], [compaction_loses_value], [stale_deletion_loses_current], [own_history_rejected], [long_grace_wraps],
    [unreadable_result_stops_replica], [nul_request_blocks_reopen].

    ** Not modelled

    SQL and graph execution (third-party engines), snapshots of the
    materializer and its managed protocols, object-store clients, recovery pins and snapshots of the archive, QUIC and HTTP transports, FlatBuffers and JSON codecs, the
    Kubernetes controller and process assembly: they are I/O, generated code or
    calls of libraries.  Of the core, waiting and retry loops appear only
    through the steps they take; signatures are part of the peer transport. *)

From stdpp Require Import gmap list strings sorting.
From Stdlib Require Import ZArith Lia.
From Stdlib Require Export Strings.Byte.

#[global] Open Scope Z_scope.

(** ** Bytes

    A Go byte is [Byte.byte]; a byte slice, a Go string (node IDs, request
    IDs) and a fixed [N]byte array are all [list byte]; an array's length is
    stated where a property depends on it. *)

#[global] Instance byte_eq_dec : EqDecision byte := Byte.byte_eq_dec.

#[global] Program Instance byte_countable : Countable byte :=
  inj_countable Byte.to_N Byte.of_N _.
Next Obligation. intros b. apply Byte.of_to_N. Qed.

Abbreviation bytes := (list byte).

Definition byteZ (b : byte) : Z := Z.of_N (Byte.to_N b).

Definition Zbyte (z : Z) : byte :=
  match Byte.of_N (Z.to_N (z mod 256)) with Some b => b | None => x00 end.

Lemma byteZ_range b : 0 <= byteZ b < 256.
Proof. unfold byteZ. pose proof (Byte.to_N_bounded b). lia. Qed.

Lemma byteZ_inj a b : byteZ a = byteZ b → a = b.
Proof.
  unfold byteZ. intros H%N2Z.inj.
  pose proof (Byte.of_to_N a) as Ha. pose proof (Byte.of_to_N b) as Hb.
  rewrite H in Ha. congruence.
Qed.

Lemma byteZ_Zbyte z : byteZ (Zbyte z) = z mod 256.
Proof.
  unfold Zbyte, byteZ.
  pose proof (Z.mod_pos_bound z 256 eq_refl) as Hr.
  destruct (Byte.of_N (Z.to_N (z mod 256))) as [b|] eqn:E.
  - apply Byte.to_of_N in E. rewrite E. lia.
  - apply Byte.of_N_None_iff in E. lia.
Qed.

Lemma Zbyte_byteZ b : Zbyte (byteZ b) = b.
Proof.
  apply byteZ_inj. rewrite byteZ_Zbyte. pose proof (byteZ_range b).
  apply Z.mod_small. lia.
Qed.

(** ** Machine integers: a Go uint64 is a [Z] kept in range by [u64]. *)

Definition u64 (z : Z) : Z := z mod 2 ^ 64.
Definition u32 (z : Z) : Z := z mod 2 ^ 32.

Lemma u64_range z : 0 <= u64 z < 2 ^ 64.
Proof. apply Z.mod_pos_bound. lia. Qed.

Lemma u64_small z : 0 <= z < 2 ^ 64 → u64 z = z.
Proof. apply Z.mod_small. Qed.

Lemma u32_range z : 0 <= u32 z < 2 ^ 32.
Proof. apply Z.mod_pos_bound. lia. Qed.

Lemma u32_small z : 0 <= z < 2 ^ 32 → u32 z = z.
Proof. apply Z.mod_small. Qed.

(** ** Three-way comparisons

    The consensus code orders everything with comparison functions that return
    a negative, zero or positive number.  [Comparison] is what it relies on: a
    total preorder whose [Eq] class may be coarser than equality. *)

Class Comparison {A} (cmp : A → A → comparison) := {
  cmp_refl x : cmp x x = Eq;
  cmp_opp x y : cmp y x = CompOpp (cmp x y);
  cmp_le_trans x y z : cmp x y ≠ Gt → cmp y z ≠ Gt → cmp x z ≠ Gt;
}.

Definition lex_cmp (c d : comparison) : comparison :=
  match c with Eq => d | _ => c end.

Section comparison.
Context {A} (cmp : A → A → comparison) `{!Comparison cmp}.

Lemma cmp_eq_sym x y : cmp x y = Eq → cmp y x = Eq.
Proof. rewrite (cmp_opp (cmp := cmp) x y). by intros ->. Qed.

Lemma cmp_gt_lt x y : cmp x y = Gt → cmp y x = Lt.
Proof. rewrite (cmp_opp (cmp := cmp) x y). by intros ->. Qed.

Lemma cmp_total x y : cmp x y ≠ Gt ∨ cmp y x ≠ Gt.
Proof. rewrite (cmp_opp (cmp := cmp) x y). destruct (cmp x y); simpl; auto; by left. Qed.

Lemma cmp_antisym x y : cmp x y ≠ Gt → cmp y x ≠ Gt → cmp x y = Eq.
Proof. rewrite (cmp_opp (cmp := cmp) x y). by destruct (cmp x y). Qed.

Lemma cmp_eq_trans x y z : cmp x y = Eq → cmp y z = Eq → cmp x z = Eq.
Proof.
  intros Hxy Hyz. apply cmp_antisym.
  - by apply (cmp_le_trans (cmp := cmp) x y z); rewrite ?Hxy, ?Hyz.
  - apply cmp_eq_sym in Hxy. apply cmp_eq_sym in Hyz.
    by apply (cmp_le_trans (cmp := cmp) z y x); rewrite ?Hxy, ?Hyz.
Qed.

Lemma cmp_eq_l x y z : cmp x y = Eq → cmp x z = cmp y z.
Proof.
  intros Hxy. assert (cmp y x = Eq) as Hyx by by apply cmp_eq_sym.
  destruct (cmp x z) eqn:E1, (cmp y z) eqn:E2; try done; exfalso.
  all: pose proof (cmp_le_trans (cmp := cmp) x y z) as H1;
       pose proof (cmp_le_trans (cmp := cmp) y x z) as H2;
       pose proof (cmp_le_trans (cmp := cmp) z x y) as H3;
       pose proof (cmp_le_trans (cmp := cmp) z y x) as H4.
  all: rewrite ?(cmp_opp (cmp := cmp) x z), ?(cmp_opp (cmp := cmp) y z) in H3, H4;
       rewrite ?E1, ?E2, ?Hxy, ?Hyx in H1, H2, H3, H4; simpl in *;
       first [apply H1; congruence|apply H2; congruence|apply H3; congruence|apply H4; congruence].
Qed.

Lemma cmp_eq_r x y z : cmp x y = Eq → cmp z x = cmp z y.
Proof. intros H. rewrite (cmp_opp (cmp := cmp) x z), (cmp_opp (cmp := cmp) y z). f_equal. by apply cmp_eq_l. Qed.

Lemma cmp_lt_irrefl x : cmp x x = Lt → False.
Proof. by rewrite (cmp_refl (cmp := cmp)). Qed.
End comparison.

(** Comparing through a projection, lexicographically, and with [nil] lowest. *)

#[global] Instance comparison_on {A B} (f : A → B) cmp `{!Comparison cmp} :
  Comparison (λ x y, cmp (f x) (f y)).
Proof.
  split.
  - intros x. apply (cmp_refl (cmp := cmp)).
  - intros x y. apply (cmp_opp (cmp := cmp)).
  - intros x y z. apply (cmp_le_trans (cmp := cmp)).
Qed.

#[global] Instance comparison_lex {A} (c d : A → A → comparison)
    `{!Comparison c} `{!Comparison d} :
  Comparison (λ x y, lex_cmp (c x y) (d x y)).
Proof.
  split.
  - intros x. by rewrite (cmp_refl (cmp := c)), (cmp_refl (cmp := d)).
  - intros x y. rewrite (cmp_opp (cmp := c) x y), (cmp_opp (cmp := d) x y).
    by destruct (c x y).
  - intros x y z Hxy Hyz. unfold lex_cmp in *.
    pose proof (cmp_le_trans (cmp := c) x y z) as Ht.
    pose proof (cmp_le_trans (cmp := c) z x y) as Ht1.
    pose proof (cmp_le_trans (cmp := c) y z x) as Ht2.
    rewrite (cmp_opp (cmp := c) x z), (cmp_opp (cmp := c) y z) in Ht1.
    rewrite (cmp_opp (cmp := c) x z), (cmp_opp (cmp := c) x y) in Ht2.
    pose proof (cmp_le_trans (cmp := d) x y z) as Hd.
    destruct (c x y), (c y z), (c x z); simpl in *;
      first [done|by apply Hd|by apply Ht|by exfalso; apply Ht|by exfalso; apply Ht1
            |by exfalso; apply Ht2].
Qed.

Definition option_cmp {A} (cmp : A → A → comparison) (x y : option A) : comparison :=
  match x, y with
  | None, None => Eq
  | None, Some _ => Lt
  | Some _, None => Gt
  | Some a, Some b => cmp a b
  end.

#[global] Instance comparison_option {A} (cmp : A → A → comparison) `{!Comparison cmp} :
  Comparison (option_cmp cmp).
Proof.
  split.
  - intros [x|]; [apply (cmp_refl (cmp := cmp))|done].
  - intros [x|] [y|]; simpl; try done. apply (cmp_opp (cmp := cmp)).
  - intros [x|] [y|] [z|]; simpl; try done. apply (cmp_le_trans (cmp := cmp)).
Qed.

(** [bytes.Compare]: lexicographic on unsigned bytes, a proper prefix is less. *)
Fixpoint bytes_compare (x y : bytes) : comparison :=
  match x, y with
  | [], [] => Eq
  | [], _ :: _ => Lt
  | _ :: _, [] => Gt
  | a :: x', b :: y' => lex_cmp (byteZ a ?= byteZ b) (bytes_compare x' y')
  end.

#[global] Instance Z_comparison : Comparison Z.compare.
Proof.
  split.
  - apply Z.compare_refl.
  - intros x y. apply Z.compare_antisym.
  - intros x y z. rewrite !Z.compare_le_iff. lia.
Qed.

Lemma bytes_compare_eq x y : bytes_compare x y = Eq ↔ x = y.
Proof.
  split; [|intros <-; induction x as [|a x IH]; simpl; [done|by rewrite Z.compare_refl]].
  revert y. induction x as [|a x IH]; intros [|b y]; simpl; try done.
  unfold lex_cmp. destruct (byteZ a ?= byteZ b) eqn:E; try done.
  intros H. apply Z.compare_eq in E. apply byteZ_inj in E. f_equal; auto.
Qed.

#[global] Instance bytes_comparison : Comparison bytes_compare.
Proof.
  split.
  - intros x. by apply bytes_compare_eq.
  - intros x. induction x as [|a x IH]; intros [|b y]; simpl; try done.
    rewrite (Z.compare_antisym (byteZ a) (byteZ b)), IH.
    by destruct (byteZ a ?= byteZ b).
  - intros x. induction x as [|a x IH]; intros [|b y] [|c z]; simpl; try done.
    pose proof (IH y z) as IH'. unfold lex_cmp.
    destruct (Z.compare_spec (byteZ a) (byteZ b)), (Z.compare_spec (byteZ b) (byteZ c)),
      (Z.compare_spec (byteZ a) (byteZ c)); intros; try done; try lia.
    by apply IH'.
Qed.

(** A block of [0xff] bytes is the greatest string of its length. *)
Lemma bytes_compare_ff_max n x :
  length x = n → bytes_compare x (repeat xff n) ≠ Gt.
Proof.
  revert x. induction n as [|n IH]; intros [|a x]; simpl; try done.
  intros [= Hx]. unfold lex_cmp.
  destruct (Z.compare_spec (byteZ a) (byteZ xff)) as [E|E|E]; try done.
  - by apply IH.
  - pose proof (byteZ_range a). change (byteZ xff) with 255 in E. lia.
Qed.

(** ** Quorums: two majorities of one duplicate-free list of IDs intersect. *)

Lemma NoDup_subset_length {A} `{EqDecision A} (l k : list A) :
  NoDup l → l ⊆ k → (length l <= length k)%nat.
Proof. intros. by apply submseteq_length, NoDup_submseteq. Qed.

Lemma majority_intersect {A} `{EqDecision A} (u l k : list A) :
  NoDup l → NoDup k → l ⊆ u → k ⊆ u →
  (length u < length l + length k)%nat → ∃ x, x ∈ l ∧ x ∈ k.
Proof.
  intros Hl Hk Hlu Hku Hlen.
  destruct (decide (Exists (λ x, x ∈ k) l)) as [Hex|Hno].
  { apply Exists_exists in Hex as (x & ? & ?). eauto. }
  exfalso. assert (NoDup (l ++ k)) as Hnd.
  { apply NoDup_app. split_and!; [done| |done].
    intros x Hx Hx'. apply Hno, Exists_exists. eauto. }
  apply (NoDup_subset_length (l ++ k) u) in Hnd.
  - rewrite length_app in Hnd. lia.
  - intros x [?|?]%elem_of_app; auto.
Qed.

(** ** Results of fallible operations *)

Inductive result (E A : Type) : Type :=
| Ok (a : A)
| Err (e : E).
Arguments Ok {E A} a.
Arguments Err {E A} e.

Lemma Ok_inj {E A} (a b : A) : @Ok E A a = Ok b → a = b.
Proof. congruence. Qed.

Definition rbind {E A B} (r : result E A) (k : A → result E B) : result E B :=
  match r with Ok a => k a | Err e => Err e end.

Lemma rbind_Ok {E A B} (r : result E A) (k : A → result E B) b :
  rbind r k = Ok b → ∃ a, r = Ok a ∧ k a = Ok b.
Proof. destruct r as [a|]; [|done]. intros H. by exists a. Qed.

Declare Scope rhiza_scope.
Delimit Scope rhiza_scope with rhiza.
Notation "'let!' x := r 'in' k" := (rbind r (λ x, k))
  (at level 10, x binder, r at level 100, k at level 200) : rhiza_scope.
Notation "'guard' b 'else' e 'in' k" := (if b : bool then k else Err e)
  (at level 10, b at level 100, e at level 100, k at level 200) : rhiza_scope.
#[global] Open Scope rhiza_scope.

(** ** Automation *)

Create HintDb rhiza.

(** Case analysis on the boolean tests and matches of a definition. *)
Ltac case_all :=
  repeat match goal with
  | H : context [match ?x with _ => _ end] |- _ => destruct x eqn:?; simplify_eq/=
  | |- context [match ?x with _ => _ end] => destruct x eqn:?; simplify_eq/=
  end.

(** Boolean hypotheses as propositions. *)
Ltac bool_hyps :=
  repeat match goal with
  | H : (_ && _) = true |- _ => apply andb_true_iff in H as [??]
  | H : (_ || _) = false |- _ => apply orb_false_iff in H as [??]
  | H : negb _ = true |- _ => apply negb_true_iff in H
  | H : negb _ = false |- _ => apply negb_false_iff in H
  | H : (_ =? _) = true |- _ => apply Z.eqb_eq in H
  | H : (_ =? _) = false |- _ => apply Z.eqb_neq in H
  | H : (_ <? _) = true |- _ => apply Z.ltb_lt in H
  | H : (_ <? _) = false |- _ => apply Z.ltb_ge in H
  | H : (_ <=? _) = true |- _ => apply Z.leb_le in H
  | H : (_ <=? _) = false |- _ => apply Z.leb_gt in H
  | H : bool_decide _ = true |- _ => apply bool_decide_eq_true in H
  | H : bool_decide _ = false |- _ => apply bool_decide_eq_false in H
  end.

(** ** Sizes and sums of lists *)

(** Go's len. *)
Definition len {A} (l : list A) : Z := Z.of_nat (length l).

Lemma len_nonneg {A} (l : list A) : 0 <= len l.
Proof. unfold len. lia. Qed.

Lemma len_app {A} (l k : list A) : len (l ++ k) = len l + len k.
Proof. unfold len. rewrite length_app. lia. Qed.

Definition total {A} (f : A → Z) (l : list A) : Z := foldr (λ x n, f x + n) 0 l.

Lemma total_app {A} (f : A → Z) l k : total f (l ++ k) = total f l + total f k.
Proof. induction l as [|x l IH]; [done|]. change (f x + total f (l ++ k) = f x + total f l + total f k). lia. Qed.

#[global] Instance total_perm {A} (f : A → Z) : Proper ((≡ₚ) ==> eq) (total f).
Proof.
  induction 1 as [|x l k _ IH|x y l|l k m _ IH1 _ IH2]; [done| | |congruence].
  - change (f x + total f l = f x + total f k). lia.
  - change (f y + (f x + total f l) = f x + (f y + total f l)). lia.
Qed.

Lemma total_insert {A} (f : A → Z) (l : list A) i x y : l !! i = Some x → total f (<[i := y]> l) = total f l - f x + f y.
Proof.
  revert i. induction l as [|z l IH]; intros [|i] Hi; simplify_eq/=; [unfold total; simpl; lia|].
  change (f z + total f (<[i := y]> l) = f z + total f l - f x + f y). rewrite (IH i Hi). lia.
Qed.

Lemma total_snoc {A} (f : A → Z) (l : list A) x : total f (l ++ [x]) = total f l + f x.
Proof. rewrite total_app. unfold total at 2. simpl. lia. Qed.

Lemma total_nonneg {A} (f : A → Z) (l : list A) : (∀ x, 0 <= f x) → 0 <= total f l.
Proof. intros Hf. induction l as [|x l IH]; [done|]. change (0 <= f x + total f l). specialize (Hf x). lia. Qed.

Lemma total_member {A} (f : A → Z) (l : list A) i x : (∀ x, 0 <= f x) → l !! i = Some x → f x <= total f l.
Proof.
  intros Hf. revert i. induction l as [|y l IH]; intros [|i] Hi; simplify_eq/=.
  - change (f x <= f x + total f l). pose proof (total_nonneg f l Hf). lia.
  - change (f x <= f y + total f l). specialize (IH i Hi). specialize (Hf y). lia.
Qed.
