(* ===== verification/Protocol.v ===== *)
(** * The QuePaxa interval summary register (pkg/quepaxa/protocol.go)

    Proposals and their total preorder, the constant-space recorder register of
    Algorithm 3, and the characterisation of its state by the history of
    requests recorded so far. *)

From stdpp Require Import gmap list sorting.
From S2P Require Import Prelude.

(** ** Data of protocol.go and types.go *)

Abbreviation NodeID := bytes (only parsing).
Abbreviation ValueHash := bytes (only parsing).
Abbreviation Priority := bytes (only parsing).
Abbreviation Slot := Z (only parsing).
Abbreviation Step := Z (only parsing).

(** A pointer [*Proposal] is an [option Proposal].  [cloneProposal] copies the
    struct and its byte slice; on immutable values it is the identity. *)
Record Proposal := mkProposal {
  Priority_ : Priority;
  ProposerID : NodeID;
  Hash : ValueHash;
  Value : bytes;
}.

#[global] Instance Proposal_eq_dec : EqDecision Proposal.
Proof. solve_decision. Defined.

Definition highestPriority : Priority := repeat xff 32.
Definition zeroHash : ValueHash := repeat x00 32.

Definition newProposal (sha256 : bytes → ValueHash) (priority : Priority)
    (proposerID : NodeID) (value : bytes) : Proposal :=
  mkProposal priority proposerID (sha256 value) value.

(** [randomPriority]: [draw] is what rand.Read filled the array with. *)
Definition randomPriority (draw : Priority) : Priority :=
  if bool_decide (draw = repeat x00 32) || bool_decide (draw = highestPriority)
  then <[31%nat := x01]> draw
  else draw.

Definition compareProposal (left right : option Proposal) : comparison :=
  match left with
  | None => match right with None => Eq | Some _ => Lt end
  | Some l =>
      match right with
      | None => Gt
      | Some r =>
          match bytes_compare (Priority_ l) (Priority_ r) with
          | Eq =>
              match bytes_compare (ProposerID l) (ProposerID r) with
              | Eq => bytes_compare (Hash l) (Hash r)
              | c => c
              end
          | c => c
          end
      end
  end.

Definition maxProposal (values : list (option Proposal)) : option Proposal :=
  fold_left (λ best value,
    match compareProposal value best with Gt => value | _ => best end) values None.

Definition sameProposal (left right : option Proposal) : bool :=
  match compareProposal left right with Eq => true | _ => false end.

Record ISR := mkISR {
  Step_ : Step;
  FirstCurrent : option Proposal;
  AggregateCurrent : option Proposal;
  AggregatePrior : option Proposal;
}.

(** The zero value of the struct: what a map lookup of an absent slot yields. *)
Definition emptyISR : ISR := mkISR 0 None None None.

Record Summary := mkSummary {
  RecorderID : NodeID;
  SReconfigurationID : ValueHash;
  SStep : Step;
  SFirstCurrent : option Proposal;
  SAggregatePrior : option Proposal;
}.

Record RecordRequest := mkRecordRequest {
  RSlot : Slot;
  RStep : Step;
  RConfigID : Z;
  RReconfigurationID : ValueHash;
  RProposal : Proposal;
}.

Record Decision := mkDecision {
  DConfigID : Z;
  DSlot : Slot;
  DStep : Step;
  DProposal : Proposal;
  DSummaries : list Summary;
}.

#[global] Instance Summary_eq_dec : EqDecision Summary.
Proof. solve_decision. Defined.
#[global] Instance ISR_eq_dec : EqDecision ISR.
Proof. solve_decision. Defined.
#[global] Instance Decision_eq_dec : EqDecision Decision.
Proof. solve_decision. Defined.

(** Algorithm 3.  The summary's recorder ID is filled in by the caller. *)
Definition Record_ (state : ISR) (step : Step) (proposal : Proposal) : ISR * Summary :=
  let next :=
    if step =? Step_ state then
      mkISR (Step_ state) (FirstCurrent state)
        (maxProposal [AggregateCurrent state; Some proposal]) (AggregatePrior state)
    else if step >? Step_ state then
      mkISR step (Some proposal) (Some proposal)
        (if step =? u64 (Step_ state + 1) then AggregateCurrent state else None)
    else state in
  (next, mkSummary [] zeroHash (Step_ next) (FirstCurrent next) (AggregatePrior next)).

(** ** The proposal order *)

Definition proposal_cmp (l r : Proposal) : comparison :=
  lex_cmp (bytes_compare (Priority_ l) (Priority_ r))
    (lex_cmp (bytes_compare (ProposerID l) (ProposerID r)) (bytes_compare (Hash l) (Hash r))).

Lemma compareProposal_option l r : compareProposal l r = option_cmp proposal_cmp l r.
Proof.
  destruct l as [l|], r as [r|]; try done. simpl. unfold proposal_cmp, lex_cmp.
  by destruct (bytes_compare (Priority_ l) (Priority_ r)),
    (bytes_compare (ProposerID l) (ProposerID r)).
Qed.

#[global] Instance compareProposal_comparison : Comparison compareProposal.
Proof.
  assert (Comparison (option_cmp proposal_cmp)) as H by (unfold proposal_cmp; apply _).
  split; intros; rewrite ?compareProposal_option in *.
  - apply (cmp_refl (Comparison := H)).
  - apply (cmp_opp (Comparison := H)).
  - by eapply (cmp_le_trans (Comparison := H)).
Qed.

(** [p ⊑ q]: [q] is at least [p].  [p ≈ q]: the code's [sameProposal]. *)
Definition ple (p q : option Proposal) : Prop := compareProposal p q ≠ Gt.
Definition peq (p q : option Proposal) : Prop := compareProposal p q = Eq.
Infix "⊑p" := ple (at level 70) : rhiza_scope.
Infix "≈p" := peq (at level 70) : rhiza_scope.

#[global] Instance ple_preorder : PreOrder ple.
Proof.
  split.
  - intros p. unfold ple. by rewrite (cmp_refl (cmp := compareProposal)).
  - intros p q r. apply (cmp_le_trans (cmp := compareProposal)).
Qed.

#[global] Instance peq_equiv : Equivalence peq.
Proof.
  split.
  - intros p. apply (cmp_refl (cmp := compareProposal)).
  - intros p q. apply (cmp_eq_sym compareProposal).
  - intros p q r. apply (cmp_eq_trans compareProposal).
Qed.

#[global] Instance compareProposal_proper :
  Proper (peq ==> peq ==> eq) compareProposal.
Proof.
  intros p p' Hp q q' Hq.
  rewrite (cmp_eq_l compareProposal p p' q) by done.
  by apply (cmp_eq_r compareProposal).
Qed.

#[global] Instance ple_proper : Proper (peq ==> peq ==> iff) ple.
Proof. intros p p' Hp q q' Hq. unfold ple. by rewrite Hp, Hq. Qed.

Lemma ple_antisym p q : p ⊑p q → q ⊑p p → p ≈p q.
Proof. apply (cmp_antisym compareProposal). Qed.

Lemma ple_total p q : p ⊑p q ∨ q ⊑p p.
Proof. apply (cmp_total compareProposal). Qed.

Lemma peq_ple p q : p ≈p q → p ⊑p q.
Proof. unfold peq, ple. by intros ->. Qed.

Lemma ple_None p : None ⊑p p.
Proof. by destruct p. Qed.

Lemma peq_Some_None p : ¬ Some p ≈p None.
Proof. by unfold peq. Qed.

Lemma ple_Some_None p : ¬ Some p ⊑p None.
Proof. unfold ple. simpl. auto. Qed.

(** Two proposals compare equal exactly when they agree on everything but the
    value bytes. *)
Lemma peq_fields p q :
  Some p ≈p Some q ↔
  Priority_ p = Priority_ q ∧ ProposerID p = ProposerID q ∧ Hash p = Hash q.
Proof.
  unfold peq. rewrite compareProposal_option. simpl. unfold proposal_cmp, lex_cmp.
  rewrite <-!bytes_compare_eq.
  destruct (bytes_compare (Priority_ p) (Priority_ q)),
    (bytes_compare (ProposerID p) (ProposerID q)); naive_solver.
Qed.

Lemma sameProposal_spec p q : sameProposal p q = true ↔ p ≈p q.
Proof. unfold sameProposal, peq. by destruct (compareProposal p q). Qed.

Lemma peq_Some_inv o q : o ≈p Some q → ∃ p, o = Some p ∧ Some p ≈p Some q.
Proof. destruct o as [p|]; [eauto|done]. Qed.

#[export] Hint Resolve ple_None peq_ple : rhiza.

(** Dominance of the highest priority, which the leader fast path relies on. *)
Lemma ple_highest p q :
  length (Priority_ p) = 32%nat → Priority_ q = highestPriority →
  Priority_ p ≠ highestPriority → Some p ⊑p Some q ∧ ¬ Some q ⊑p Some p.
Proof.
  intros Hlen Hq Hp. unfold ple. rewrite !compareProposal_option. simpl.
  unfold proposal_cmp. rewrite Hq.
  pose proof (bytes_compare_ff_max 32 (Priority_ p) Hlen) as Hmax.
  rewrite (cmp_opp (cmp := bytes_compare) (Priority_ p) highestPriority).
  unfold highestPriority in *.
  destruct (bytes_compare (Priority_ p) (repeat xff 32)) eqn:E; simpl; try done.
  - by apply bytes_compare_eq in E.
  - split; [done|]. auto.
Qed.

Lemma randomPriority_cases draw :
  (randomPriority draw = draw ∧ draw ≠ highestPriority) ∨
  randomPriority draw = <[31%nat := x01]> draw.
Proof.
  unfold randomPriority. destruct (bool_decide_reflect (draw = repeat x00 32)); [by right|].
  destruct (bool_decide_reflect (draw = highestPriority)); [by right|by left].
Qed.

Lemma randomPriority_ne draw : length draw = 32%nat → randomPriority draw ≠ highestPriority.
Proof.
  intros Hlen. destruct (randomPriority_cases draw) as [[-> ?]| ->]; [done|]. intros Heq.
  assert (<[31%nat := x01]> draw !! 31%nat = highestPriority !! 31%nat) as E31 by by rewrite Heq.
  rewrite list_lookup_insert_eq in E31 by lia. done.
Qed.

Lemma randomPriority_length draw : length (randomPriority draw) = length draw.
Proof.
  destruct (randomPriority_cases draw) as [[-> _]| ->]; [done|]. apply length_insert.
Qed.

(** ** [maxProposal] is a least upper bound *)

Lemma fold_max_spec values best :
  let m := fold_left (λ best value,
    match compareProposal value best with Gt => value | _ => best end) values best in
  (m = best ∨ m ∈ values) ∧ best ⊑p m ∧ ∀ v, v ∈ values → v ⊑p m.
Proof.
  revert best. induction values as [|v values IH]; intros best; simpl.
  { split_and!; [by left|done|]. intros v Hv. by apply elem_of_nil in Hv. }
  set (b' := match compareProposal v best with Gt => v | _ => best end).
  assert (best ⊑p b' ∧ v ⊑p b' ∧ (b' = best ∨ b' = v)) as (Hb & Hv & Hor).
  { subst b'. destruct (compareProposal v best) eqn:E.
    - split_and!; [done|by apply peq_ple|by left].
    - split_and!; [done|unfold ple; by rewrite E|by left].
    - apply (cmp_gt_lt compareProposal) in E.
      split_and!; [unfold ple; by rewrite E|done|by right]. }
  destruct (IH b') as (IH1 & IH2 & IH3). split_and!.
  - destruct IH1 as [->|?]; [|right; by right].
    destruct Hor as [->| ->]; [by left|right; by left].
  - by trans b'.
  - intros w [->|Hw]%elem_of_cons; [by trans b'|auto].
Qed.

Lemma maxProposal_ub values v : v ∈ values → v ⊑p maxProposal values.
Proof. apply (fold_max_spec values None). Qed.

Lemma maxProposal_elem values : maxProposal values = None ∨ maxProposal values ∈ values.
Proof. apply (fold_max_spec values None). Qed.

Lemma maxProposal_lub values u : (∀ v, v ∈ values → v ⊑p u) → maxProposal values ⊑p u.
Proof. intros H. destruct (maxProposal_elem values) as [->|?]; auto with rhiza. Qed.

Lemma maxProposal_unique values u :
  u ∈ values → (∀ v, v ∈ values → v ⊑p u) → maxProposal values ≈p u.
Proof.
  intros Hu Hub. apply ple_antisym; [by apply maxProposal_lub|by apply maxProposal_ub].
Qed.

Lemma maxProposal_app l k :
  maxProposal (l ++ k) ≈p maxProposal [maxProposal l; maxProposal k].
Proof.
  apply ple_antisym.
  - apply maxProposal_lub. intros v [Hv|Hv]%elem_of_app.
    + trans (maxProposal l); [by apply maxProposal_ub|]. apply maxProposal_ub. set_solver.
    + trans (maxProposal k); [by apply maxProposal_ub|]. apply maxProposal_ub. set_solver.
  - apply maxProposal_lub. intros v Hv.
    assert (v = maxProposal l ∨ v = maxProposal k) as [-> | ->] by set_solver.
    + apply maxProposal_lub. intros w Hw. apply maxProposal_ub. set_solver.
    + apply maxProposal_lub. intros w Hw. apply maxProposal_ub. set_solver.
Qed.

#[global] Instance maxProposal_pair_proper :
  Proper (peq ==> peq ==> peq) (λ p q, maxProposal [p; q]).
Proof.
  intros p p' Hp q q' Hq. apply ple_antisym.
  - apply maxProposal_lub. intros v Hv.
    assert (v = p ∨ v = q) as [-> | ->] by set_solver.
    + rewrite Hp. apply maxProposal_ub. set_solver.
    + rewrite Hq. apply maxProposal_ub. set_solver.
  - apply maxProposal_lub. intros v Hv.
    assert (v = p' ∨ v = q') as [-> | ->] by set_solver.
    + rewrite <-Hp. apply maxProposal_ub. set_solver.
    + rewrite <-Hq. apply maxProposal_ub. set_solver.
Qed.
