(* ===== verification/Register.v ===== *)
(** * The history of a recorder register

    A recorder appends every request it processes for a slot to its WAL as a
    receipt, so its register is a fold of [Record_] over a log.  This file
    characterises that fold: which proposals were recorded at a step, what the
    register then holds, and which of it can no longer change. *)

From stdpp Require Import gmap list sorting.
From S2P Require Import Prelude Protocol.

Abbreviation rlog := (list (Step * Proposal)).

Definition register (log : rlog) : ISR :=
  fold_left (λ st '(t, q), (Record_ st t q).1) log emptyISR.

Definition last_step (log : rlog) : Step := fold_left (λ cur '(s, _), Z.max cur s) log 0.

(** The proposals recorded at step [t]: stale requests leave no trace. *)
Fixpoint recorded_from (cur t : Step) (log : rlog) : list Proposal :=
  match log with
  | [] => []
  | (s, q) :: log' =>
      if s <? cur then recorded_from cur t log'
      else (if s =? t then [q] else []) ++ recorded_from s t log'
  end.
Definition recorded (t : Step) (log : rlog) : list Proposal := recorded_from 0 t log.

Definition first_at (t : Step) (log : rlog) : option Proposal := head (recorded t log).
Definition aggregate_at (t : Step) (log : rlog) : option Proposal :=
  maxProposal (Some <$> recorded t log).

(** What [Core.record] checks of a request before it reaches the register. *)
Definition valid_step (t : Step) : Prop := 4 <= t < 2 ^ 64.
Definition valid_log (log : rlog) : Prop := Forall (λ r, valid_step r.1) log.

Lemma last_step_snoc log s q : last_step (log ++ [(s, q)]) = Z.max (last_step log) s.
Proof. unfold last_step. by rewrite fold_left_app. Qed.

Lemma register_snoc log s q : register (log ++ [(s, q)]) = (Record_ (register log) s q).1.
Proof. unfold register. by rewrite fold_left_app. Qed.

Lemma recorded_from_snoc cur t log s q :
  recorded_from cur t (log ++ [(s, q)]) =
  recorded_from cur t log ++
  (if (fold_left (λ cur '(s, _), Z.max cur s) log cur <=? s) && (s =? t) then [q] else []).
Proof.
  revert cur. induction log as [|[s' q'] log IH]; intros cur; simpl.
  - destruct (Z.ltb_spec s cur), (Z.leb_spec cur s); simpl; try lia; try done.
    by rewrite app_nil_r.
  - destruct (Z.ltb_spec s' cur).
    + rewrite IH. by rewrite Z.max_l by lia.
    + rewrite IH, Z.max_r by lia. by rewrite app_assoc.
Qed.

Lemma recorded_snoc t log s q :
  recorded t (log ++ [(s, q)]) =
  recorded t log ++ (if (last_step log <=? s) && (s =? t) then [q] else []).
Proof. apply recorded_from_snoc. Qed.

Lemma recorded_beyond t log : last_step log < t → recorded t log = [].
Proof.
  induction log as [|[s q] log IH] using rev_ind; [done|].
  rewrite last_step_snoc, recorded_snoc. intros Ht.
  rewrite IH by lia. by destruct (Z.eqb_spec s t); [lia|]; rewrite andb_false_r.
Qed.

Lemma last_step_nonneg log : 0 <= last_step log.
Proof.
  induction log as [|[s q] log IH] using rev_ind; [done|]. rewrite last_step_snoc. lia.
Qed.

Lemma last_step_valid log : valid_log log → last_step log < 2 ^ 64.
Proof.
  induction log as [|[s q] log IH] using rev_ind; [done|].
  unfold valid_log. rewrite Forall_app, Forall_singleton, last_step_snoc.
  unfold valid_step. simpl. intros [? ?]. specialize (IH H). lia.
Qed.

Lemma recorded_last_nonempty log :
  valid_log log → log ≠ [] → recorded (last_step log) log ≠ [].
Proof.
  induction log as [|[s q] log IH] using rev_ind; [done|]. intros Hv _.
  unfold valid_log in Hv. rewrite Forall_app, Forall_singleton in Hv.
  destruct Hv as [Hv Hs]. simpl in Hs. unfold valid_step in Hs.
  rewrite last_step_snoc, recorded_snoc. destruct (Z.leb_spec (last_step log) s).
  - rewrite Z.max_r by lia. rewrite Z.eqb_refl. intros Hnil. simpl in Hnil. by apply app_nil in Hnil as [_ ?].
  - rewrite Z.max_l by lia. simpl. rewrite app_nil_r. apply IH; [done|].
    intros ->. unfold last_step in *. simpl in *. lia.
Qed.

Lemma recorded_elem t log q : q ∈ recorded t log → (t, q) ∈ log.
Proof.
  induction log as [|[s p] log IH] using rev_ind; [by intros ?%elem_of_nil|].
  rewrite recorded_snoc. rewrite !elem_of_app. intros [?|Hq]; [auto|].
  destruct (Z.eqb_spec s t) as [->|]; [|rewrite andb_false_r in Hq; set_solver].
  destruct (last_step log <=? t); set_solver.
Qed.

Lemma maxProposal_snoc l q :
  maxProposal (l ++ [q]) = maxProposal [maxProposal l; q].
Proof.
  unfold maxProposal. rewrite fold_left_app. simpl.
  set (m := fold_left _ l None). by destruct m.
Qed.

(** The register is exactly the summary of the recorded history. *)
Lemma register_spec log :
  valid_log log →
  register log = mkISR (last_step log) (first_at (last_step log) log)
    (aggregate_at (last_step log) log) (aggregate_at (last_step log - 1) log).
Proof.
  induction log as [|[s q] log IH] using rev_ind; [done|].
  unfold valid_log. rewrite Forall_app, Forall_singleton. intros [Hv Hs].
  rewrite register_snoc, IH by done. unfold valid_step in Hs. simpl in Hs.
  pose proof (last_step_valid log Hv). pose proof (last_step_nonneg log).
  unfold Record_, first_at, aggregate_at. rewrite last_step_snoc, !recorded_snoc. simpl.
  destruct (Z.eqb_spec s (last_step log)) as [->|Hne]; simpl.
  - rewrite Z.max_id, Z.leb_refl, Z.eqb_refl. simpl.
    destruct (Z.eqb_spec (last_step log) (last_step log - 1)); [lia|].
    rewrite app_nil_r, fmap_app. simpl. rewrite maxProposal_snoc.
    f_equal. destruct (recorded (last_step log) log) eqn:E; [|done].
    exfalso. apply recorded_last_nonempty in E; [done|done|].
    intros ->. unfold last_step in Hs. simpl in Hs. lia.
  - rewrite Z.gtb_ltb. destruct (Z.ltb_spec (last_step log) s).
    + rewrite Z.max_r by lia. rewrite Z.eqb_refl.
      destruct (Z.leb_spec (last_step log) s); [|lia]. simpl.
      rewrite (recorded_beyond s) by lia. simpl.
      destruct (Z.eqb_spec s (s - 1)); [lia|]. rewrite app_nil_r.
      rewrite u64_small by lia.
      destruct (Z.eqb_spec s (last_step log + 1)) as [->|].
      * by rewrite Z.add_simpl_r.
      * rewrite (recorded_beyond (s - 1)) by lia. done.
    + rewrite Z.max_l by lia. destruct (Z.leb_spec (last_step log) s); [lia|].
      simpl. by rewrite !app_nil_r.
Qed.

(** ** Stability: later receipts only extend what is recorded *)

Lemma last_step_app log ext : last_step log <= last_step (log ++ ext).
Proof.
  induction ext as [|[s q] ext IH] using rev_ind.
  - rewrite app_nil_r. lia.
  - rewrite app_assoc, last_step_snoc. lia.
Qed.

Lemma recorded_app_prefix t log ext : recorded t log `prefix_of` recorded t (log ++ ext).
Proof.
  induction ext as [|[s q] ext IH] using rev_ind; [by rewrite app_nil_r|].
  rewrite app_assoc, recorded_snoc. etrans; [done|]. by eexists.
Qed.

Lemma recorded_frozen t log ext :
  t < last_step log → recorded t (log ++ ext) = recorded t log.
Proof.
  intros Ht. induction ext as [|[s q] ext IH] using rev_ind; [by rewrite app_nil_r|].
  rewrite app_assoc, recorded_snoc, IH. pose proof (last_step_app log ext).
  destruct (Z.eqb_spec s t); [|by rewrite andb_false_r, app_nil_r].
  destruct (Z.leb_spec (last_step (log ++ ext)) s); [lia|]. apply app_nil_r.
Qed.

Lemma aggregate_frozen t log ext :
  t < last_step log → aggregate_at t (log ++ ext) = aggregate_at t log.
Proof. intros. unfold aggregate_at. by rewrite recorded_frozen. Qed.

Lemma first_at_stable t log ext p :
  first_at t log = Some p → first_at t (log ++ ext) = Some p.
Proof.
  unfold first_at. destruct (recorded_app_prefix t log ext) as [k ->].
  by destruct (recorded t log).
Qed.

Lemma recorded_stable t log ext q : q ∈ recorded t log → q ∈ recorded t (log ++ ext).
Proof. destruct (recorded_app_prefix t log ext) as [k ->]. set_solver. Qed.

Lemma first_at_elem t log p : first_at t log = Some p → (t, p) ∈ log.
Proof.
  unfold first_at. intros H. apply recorded_elem.
  destruct (recorded t log); simplify_eq/=. set_solver.
Qed.

Lemma aggregate_ub t log q : q ∈ recorded t log → Some q ⊑p aggregate_at t log.
Proof. intros Hq. apply maxProposal_ub. by apply list_elem_of_fmap_2. Qed.

Lemma aggregate_elem t log p : aggregate_at t log = Some p → p ∈ recorded t log.
Proof.
  unfold aggregate_at. intros H.
  destruct (maxProposal_elem (Some <$> recorded t log)) as [E|E]; [congruence|].
  rewrite H in E. apply list_elem_of_fmap in E as (? & [= ->] & ?). done.
Qed.

Lemma first_at_last_Some log :
  valid_log log → log ≠ [] → ∃ p, first_at (last_step log) log = Some p.
Proof.
  intros Hv Hn. apply recorded_last_nonempty in Hn; [|done].
  unfold first_at. destruct (recorded (last_step log) log); [done|]. eauto.
Qed.

(** ** Properties of one [Record_] call *)

(** The reply to a request [(s, q)] processed on top of [log]. *)
Lemma Record_reply log s q :
  valid_log log → valid_step s →
  let log' := log ++ [(s, q)] in
  (Record_ (register log) s q).2 =
  mkSummary [] zeroHash (last_step log') (first_at (last_step log') log')
    (aggregate_at (last_step log' - 1) log').
Proof.
  intros Hv Hs log'.
  assert (valid_log log') as Hv' by (apply Forall_app; auto).
  pose proof (register_spec log' Hv') as Hr. subst log'. rewrite register_snoc in Hr.
  unfold Record_ in *. simpl in *. rewrite Hr. done.
Qed.

(** A request answered at its own step was recorded there. *)
Lemma Record_current log s q :
  valid_log log → last_step (log ++ [(s, q)]) = s → q ∈ recorded s (log ++ [(s, q)]).
Proof.
  rewrite last_step_snoc, recorded_snoc. intros _ Hs.
  destruct (Z.leb_spec (last_step log) s); [|lia]. rewrite Z.eqb_refl. set_solver.
Qed.
