(* ===== verification/Cluster.v ===== *)
(** * Voter configurations and quorums (pkg/quepaxa/types.go, reconfiguration.go) *)

From stdpp Require Import gmap list sorting.
From S2P Require Import Prelude Protocol.

Record Member := mkMember {
  ID : NodeID;
  URL : bytes;
  PeerURL : bytes;
  LogURL : bytes;
  PublicKey : bytes;
  WALIdentity : bytes;
}.

#[global] Instance Member_eq_dec : EqDecision Member.
Proof. solve_decision. Defined.

Record Cluster := mkCluster { ConfigID : Z; Members : list Member }.

#[global] Instance Cluster_eq_dec : EqDecision Cluster.
Proof. solve_decision. Defined.

Definition QuorumSize (c : Cluster) : Z := Z.of_nat (length (Members c)) / 2 + 1.

(** Later entries of a duplicated ID overwrite earlier ones, as in the Go map. *)
Definition MemberSet (c : Cluster) : gmap NodeID Member :=
  fold_left (λ m member, <[ID member := member]> m) (Members c) ∅.

Definition sameCluster (left right : Cluster) : bool :=
  if negb (ConfigID left =? ConfigID right) || negb (Nat.eqb (length (Members left)) (length (Members right)))
  then false
  else forallb (λ p, bool_decide (p.1 = p.2)) (zip (Members left) (Members right)).

(** [validateLeaderSchedule]: a duplicate-free list of members of the right
    length; the loop accumulates the IDs it has seen. *)
Definition validateLeaderSchedule (cluster : Cluster) (order : list NodeID) : bool :=
  if negb (Nat.eqb (length order) (length (Members cluster))) then false
  else
    let members := MemberSet cluster in
    (fix go (seen : gset NodeID) (l : list NodeID) : bool :=
      match l with
      | [] => true
      | id :: l' =>
          if negb (bool_decide (is_Some (members !! id))) then false
          else if bool_decide (id ∈ seen) then false
          else go ({[id]} ∪ seen) l'
      end) ∅ order.

(** [IsQuorum]: accepted receipts from distinct members. *)
Record Receipt := mkReceipt { RcSlot : Slot; RcHash : ValueHash; RcNodeID : NodeID; Accepted : bool }.

Definition IsQuorum (cluster : Cluster) (receipts : list Receipt) : bool :=
  let members := MemberSet cluster in
  let seen := fold_left (λ (seen : gset NodeID) r,
    if Accepted r && bool_decide (is_Some (members !! RcNodeID r)) then {[RcNodeID r]} ∪ seen else seen)
    receipts ∅ in
  QuorumSize cluster <=? Z.of_nat (size seen).

(** ** Membership lookups *)

Definition member_ids (c : Cluster) : list NodeID := ID <$> Members c.

Definition wf_cluster (c : Cluster) : Prop := NoDup (member_ids c) ∧ Members c ≠ [].

Lemma MemberSet_fold_lookup (l : list Member) (m : gmap NodeID Member) (id : NodeID) :
  is_Some (fold_left (λ m member, <[ID member := member]> m) l m !! id) ↔
  id ∈ (ID <$> l) ∨ is_Some (m !! id).
Proof.
  revert m. induction l as [|x l IH]; intros m; simpl.
  - rewrite elem_of_nil. naive_solver.
  - rewrite IH, lookup_insert_is_Some, elem_of_cons.
    destruct (decide (ID x = id)); naive_solver.
Qed.

Lemma MemberSet_lookup c id : is_Some (MemberSet c !! id) ↔ id ∈ member_ids c.
Proof.
  unfold MemberSet, member_ids. rewrite MemberSet_fold_lookup, lookup_empty.
  split; [intros [?|[??]]; done|by left].
Qed.

Lemma sameCluster_spec l r : sameCluster l r = true ↔ l = r.
Proof.
  unfold sameCluster. destruct l as [cl ml], r as [cr mr]; simpl.
  destruct (Z.eqb_spec cl cr) as [->|]; simpl; [|naive_solver].
  destruct (Nat.eqb_spec (length ml) (length mr)) as [E|E]; simpl; [|naive_solver].
  transitivity (ml = mr); [|naive_solver].
  revert mr E. induction ml as [|a ml IH]; intros [|b mr]; simpl; try done.
  intros [= E]. rewrite andb_true_iff, bool_decide_eq_true, (IH mr E). naive_solver.
Qed.

(** Two quorums of a duplicate-free configuration share a recorder. *)
Lemma quorum_intersect c (l k : list NodeID) :
  NoDup l → NoDup k → l ⊆ member_ids c → k ⊆ member_ids c →
  QuorumSize c <= Z.of_nat (length l) → QuorumSize c <= Z.of_nat (length k) →
  ∃ r, r ∈ l ∧ r ∈ k.
Proof.
  intros Hl Hk Hlc Hkc Hlq Hkq.
  apply (majority_intersect (member_ids c)); [done..|].
  unfold QuorumSize, member_ids in *. rewrite length_fmap.
  pose proof (Z.div_mod (Z.of_nat (length (Members c))) 2).
  pose proof (Z.mod_pos_bound (Z.of_nat (length (Members c))) 2). lia.
Qed.

(** ** The schedule validator accepts exactly the permutations of the members *)

Lemma validate_loop_spec (members : gmap NodeID Member) (seen : gset NodeID) (l : list NodeID) :
  (fix go (seen : gset NodeID) (l : list NodeID) : bool :=
      match l with
      | [] => true
      | id :: l' =>
          if negb (bool_decide (is_Some (members !! id))) then false
          else if bool_decide (id ∈ seen) then false
          else go ({[id]} ∪ seen) l'
      end) seen l = true ↔
  NoDup l ∧ (∀ id, id ∈ l → is_Some (members !! id) ∧ id ∉ seen).
Proof.
  revert seen. induction l as [|id l IH]; intros seen.
  - split; [intros _; split; [constructor|set_solver]|done].
  - rewrite NoDup_cons. case_bool_decide as Hm; simpl; [|split; [done|]].
    2:{ intros [_ H]. destruct Hm. apply H. set_solver. }
    case_bool_decide as Hs; [split; [done|]|].
    { intros [_ H]. destruct (H id); [set_solver|done]. }
    rewrite IH. split.
    + intros [Hnd Hall]. split_and!; [|done|].
      * intros Hin. apply Hall in Hin as [_ ?]. set_solver.
      * intros i [->|Hi]%elem_of_cons; [done|]. apply Hall in Hi. set_solver.
    + intros [[Hni Hnd] Hall]. split; [done|]. intros i Hi.
      destruct (Hall i) as [? ?]; [set_solver|]. split; [done|]. set_solver.
Qed.

Lemma validateLeaderSchedule_spec c order :
  NoDup (member_ids c) →
  validateLeaderSchedule c order = true ↔ order ≡ₚ member_ids c.
Proof.
  intros Hnd. unfold validateLeaderSchedule.
  destruct (Nat.eqb_spec (length order) (length (Members c))) as [E|E]; simpl.
  - rewrite validate_loop_spec. split.
    + intros [Ho Hall]. assert (order ⊆+ member_ids c) as Hsub.
      { apply NoDup_submseteq; [done|]. intros id Hid. by apply MemberSet_lookup, Hall. }
      apply submseteq_length_Permutation; [done|].
      unfold member_ids. rewrite length_fmap. lia.
    + intros Hp. split; [by rewrite Hp|]. intros id Hid. split; [|set_solver].
      apply MemberSet_lookup. by rewrite <-Hp.
  - split; [done|]. intros Hp. destruct E.
    rewrite Hp. unfold member_ids. by rewrite length_fmap.
Qed.
