(* ===== verification/Proposer.v ===== *)
(** * The QuePaxa proposer (Core.runSlot in pkg/quepaxa/core.go)

    One iteration of the proposer loop as pure functions: the candidate sent to
    the recorders, and what a quorum of summaries makes of the proposer's step
    and proposal.  The fixed-membership, clustered configuration is modelled
    ([reconfigEnabled] and [localMode] false). *)

From stdpp Require Import gmap list sorting.
From S2P Require Import Prelude Protocol Register.

Inductive runError :=
| ErrInvalidCatchUp
| ErrMultipleHighest
| ErrEmptyProposalSet
| ErrEmptyCommonSet
| ErrValueUnavailable
| ErrStepOverflow.

Inductive outcome :=
| Continue (step : Step) (proposal : Proposal)
| Decided (d : Decision)
| Failed (e : runError).

Definition with_priority (p : Proposal) (priority : Priority) : Proposal :=
  mkProposal priority (ProposerID p) (Hash p) (Value p).
Definition with_value (p : Proposal) (value : bytes) : Proposal :=
  mkProposal (Priority_ p) (ProposerID p) (Hash p) value.

(** The proposal offered at [step]: phase 0 draws a fresh priority, except for
    the leader's first offer on the fast path. *)
Definition candidate (nodeID leader : NodeID) (allowLeaderFastPath : bool)
    (step : Step) (proposal : Proposal) (draw : Priority) : Proposal :=
  if (step mod 4 =? 0) &&
     ((step >? 4) || negb (bool_decide (nodeID = leader)) || negb allowLeaderFastPath)
  then with_priority proposal (randomPriority draw)
  else proposal.

Definition maxFirst (summaries : list Summary) : option Proposal :=
  fold_left (λ best s, maxProposal [best; SFirstCurrent s]) summaries None.

Definition maxPrior (summaries : list Summary) : option Proposal :=
  fold_left (λ best s, maxProposal [best; SAggregatePrior s]) summaries None.

Definition summarySources (summaries : list Summary) : list NodeID := RecorderID <$> summaries.

(** [hydrateProposal]: the value of a proposal that lacks one comes from the
    staged values or a peer among [sources]; [fetch] is the outcome of that
    lookup, [None] when no source has it. *)
Definition hydrateProposal (fetch : ValueHash → list NodeID → option bytes)
    (p : Proposal) (sources : list NodeID) : option Proposal :=
  if bool_decide (Value p = []) then with_value p <$> fetch (Hash p) sources else Some p.

Definition hydrate_then (fetch : ValueHash → list NodeID → option bytes)
    (p : Proposal) (sources : list NodeID) (k : Proposal → outcome) : outcome :=
  match hydrateProposal fetch p sources with
  | Some q => k q
  | None => Failed ErrValueUnavailable
  end.

Definition recorder_le (a b : Summary) : Prop :=
  bytes_compare (RecorderID a) (RecorderID b) ≠ Gt.
#[global] Instance recorder_le_dec : RelDecision recorder_le.
Proof. unfold RelDecision, recorder_le. intros. apply _. Defined.

Definition sortSummaries (l : list Summary) : list Summary := merge_sort recorder_le l.

(** The summary that is furthest ahead of [step]; the first one on a tie. *)
Definition caughtUp (step : Step) (summaries : list Summary) : option Summary :=
  fold_left (λ caught s,
    if (SStep s >? step) &&
       (match caught with None => true | Some c => SStep s >? SStep c end)
    then Some s else caught) summaries None.

(** The phase-0 loop: [None] is the error "multiple highest-priority
    proposals", otherwise whether the fast path applies and the first proposal. *)
Fixpoint fastScan (fast : bool) (first : option Proposal) (l : list Summary)
    : option (bool * option Proposal) :=
  match l with
  | [] => Some (fast, first)
  | s :: l' =>
      let fast := fast &&
        match SFirstCurrent s with
        | Some p => bool_decide (Priority_ p = highestPriority)
        | None => false
        end in
      match first with
      | None => fastScan fast (SFirstCurrent s) l'
      | Some _ =>
          if fast && negb (sameProposal first (SFirstCurrent s)) then None
          else fastScan fast first l'
      end
  end.

Definition advance (step : Step) (proposal : Proposal) : outcome :=
  let step' := u64 (step + 1) in
  if step' <? 4 then Failed ErrStepOverflow else Continue step' proposal.

(** The loop body after [recordQuorum] returned [replies]. *)
Definition processSummaries (fetch : ValueHash → list NodeID → option bytes)
    (slot : Slot) (step : Step) (proposal : Proposal) (replies : list Summary) : outcome :=
  let summaries := sortSummaries replies in
  let sources := summarySources summaries in
  if negb (forallb (λ s, SStep s =? step) summaries) then
    match caughtUp step summaries with
    | None => Failed ErrInvalidCatchUp
    | Some caught =>
        match SFirstCurrent caught with
        | None => Failed ErrInvalidCatchUp
        | Some first =>
            hydrate_then fetch first [RecorderID caught] (λ q, Continue (SStep caught) q)
        end
    end
  else if step mod 4 =? 0 then
    match fastScan (step =? 4) None summaries with
    | None => Failed ErrMultipleHighest
    | Some (true, Some first) =>
        hydrate_then fetch first sources (λ q, Decided (mkDecision 0 slot step q summaries))
    | Some _ =>
        match maxFirst summaries with
        | None => Failed ErrEmptyProposalSet
        | Some best => hydrate_then fetch best sources (advance step)
        end
    end
  else if step mod 4 =? 1 then advance step proposal
  else if step mod 4 =? 2 then
    if sameProposal (Some proposal) (maxPrior summaries)
    then Decided (mkDecision 0 slot step proposal summaries)
    else advance step proposal
  else
    match maxPrior summaries with
    | None => Failed ErrEmptyCommonSet
    | Some best => hydrate_then fetch best sources (advance step)
    end.

(** ** The folds are maxima *)

Lemma maxFirst_spec l : maxFirst l = maxProposal (SFirstCurrent <$> l).
Proof.
  induction l as [|s l IH] using rev_ind; [done|].
  unfold maxFirst in *. rewrite fold_left_app, fmap_app. simpl.
  by rewrite IH, maxProposal_snoc.
Qed.

Lemma maxPrior_spec l : maxPrior l = maxProposal (SAggregatePrior <$> l).
Proof.
  induction l as [|s l IH] using rev_ind; [done|].
  unfold maxPrior in *. rewrite fold_left_app, fmap_app. simpl.
  by rewrite IH, maxProposal_snoc.
Qed.

Lemma sortSummaries_perm l : sortSummaries l ≡ₚ l.
Proof. apply merge_sort_Permutation. Qed.

Lemma sortSummaries_elem l s : s ∈ sortSummaries l ↔ s ∈ l.
Proof. by rewrite sortSummaries_perm. Qed.

Lemma forallb_step step l :
  forallb (λ s, SStep s =? step) (sortSummaries l) = true ↔ ∀ s, s ∈ l → SStep s = step.
Proof.
  rewrite forallb_forall. split.
  - intros H s Hs. apply Z.eqb_eq, H, list_elem_of_In. by apply sortSummaries_elem.
  - intros H s Hs. apply Z.eqb_eq, (H s), (sortSummaries_elem l s). by apply list_elem_of_In.
Qed.

Lemma caughtUp_fold step l acc c :
  fold_left (λ caught s,
    if (SStep s >? step) &&
       (match caught with None => true | Some c => SStep s >? SStep c end)
    then Some s else caught) l acc = Some c →
  (acc = Some c) ∨ (c ∈ l ∧ step < SStep c).
Proof.
  revert acc. induction l as [|s l IH]; intros acc; simpl; [by left|].
  intros H. apply IH in H as [H|[??]]; [|right; set_solver].
  destruct (Z.gtb_spec (SStep s) step); simpl in H; [|by left].
  destruct acc as [a|]; [|right; simplify_eq; set_solver].
  destruct (SStep s >? SStep a); [|by left]. right. simplify_eq. set_solver.
Qed.

Lemma caughtUp_Some step l c : caughtUp step l = Some c → c ∈ l ∧ step < SStep c.
Proof. intros H. apply caughtUp_fold in H as [|]; done. Qed.

Lemma hydrateProposal_same fetch p sources q :
  hydrateProposal fetch p sources = Some q →
  Priority_ q = Priority_ p ∧ ProposerID q = ProposerID p ∧ Hash q = Hash p.
Proof.
  unfold hydrateProposal. case_bool_decide; [|naive_solver].
  destruct (fetch _ _); simpl; naive_solver.
Qed.

Lemma hydrateProposal_peq fetch p sources q :
  hydrateProposal fetch p sources = Some q → Some q ≈p Some p.
Proof. intros (?&?&?)%hydrateProposal_same. by apply peq_fields. Qed.

(** A successful scan with [fast] set means every summary carries the same
    highest-priority proposal. *)
Lemma fastScan_fast fast first l p :
  fastScan fast first l = Some (true, Some p) →
  fast = true ∧
  (∀ s, s ∈ l → ∃ q, SFirstCurrent s = Some q ∧ Priority_ q = highestPriority ∧
     Some q ≈p Some p) ∧
  (first = None ∨ first = Some p).
Proof.
  revert fast first. induction l as [|s l IH]; intros fast first; simpl.
  { intros [= -> ->]. split_and!; [done|set_solver|by right]. }
  destruct first as [f|].
  - destruct (SFirstCurrent s) as [q|] eqn:Eq; simpl.
    + case_bool_decide as Hq; [rewrite andb_true_r|rewrite andb_false_r; simpl].
      2:{ intros H. apply IH in H as [? _]. done. }
      destruct fast; simpl; [|intros H; by apply IH in H as [? _]].
      destruct (sameProposal (Some f) (Some q)) eqn:Es; [|done]. simpl.
      intros H. apply IH in H as (_ & Hall & [?|[= ->]]); [done|].
      split_and!; [done| |by right].
      intros s' [->|?]%elem_of_cons; [|auto].
      exists q. split_and!; [done|done|]. apply sameProposal_spec in Es. by symmetry.
    + rewrite andb_false_r. simpl. intros H. by apply IH in H as [? _].
  - intros H. apply IH in H as (Hf & Hall & Hor). apply andb_true_iff in Hf as [-> Hf].
    split_and!; [done| |by left]. intros s' [->|?]%elem_of_cons; [|auto].
    destruct (SFirstCurrent s) as [q|]; [|done]. bool_hyps.
    destruct Hor as [?|[= ->]]; [done|]. exists p. split_and!; [done..|reflexivity].
Qed.

Lemma advance_Continue step p s' p' :
  0 <= step < 2 ^ 64 →
  advance step p = Continue s' p' → s' = step + 1 ∧ p' = p ∧ s' < 2 ^ 64.
Proof.
  unfold advance. intros Hs. pose proof (u64_range (step + 1)).
  destruct (Z.ltb_spec (u64 (step + 1)) 4); [done|]. intros [= <- <-].
  destruct (decide (step + 1 < 2 ^ 64)).
  - rewrite u64_small by lia. split_and!; [done..|lia].
  - assert (step + 1 = 2 ^ 64) as E by lia. unfold u64 in *. rewrite E in *.
    rewrite Z.mod_same in * by lia. lia.
Qed.

Lemma advance_not_Decided step p d : advance step p ≠ Decided d.
Proof. unfold advance. by destruct (u64 (step + 1) <? 4). Qed.

(** ** What one iteration establishes

    [step_up] collects the ways a proposer can hold a proposal at a higher
    step, [decided_by] the ways it can decide; both only mention the replies. *)

Inductive step_up (replies : list Summary) (step : Step) (proposal : Proposal)
    : Step → Proposal → Prop :=
| up_catch s p q :
    s ∈ replies → step < SStep s → SFirstCurrent s = Some p → Some q ≈p Some p →
    step_up replies step proposal (SStep s) q
| up_first q :
    (∀ s, s ∈ replies → SStep s = step) → step mod 4 = 0 →
    Some q ≈p maxProposal (SFirstCurrent <$> replies) →
    step_up replies step proposal (step + 1) q
| up_carry :
    (∀ s, s ∈ replies → SStep s = step) → step mod 4 = 1 ∨ step mod 4 = 2 →
    step_up replies step proposal (step + 1) proposal
| up_prior q :
    (∀ s, s ∈ replies → SStep s = step) → step mod 4 = 3 →
    Some q ≈p maxProposal (SAggregatePrior <$> replies) →
    step_up replies step proposal (step + 1) q.

Inductive decided_by (replies : list Summary) (step : Step) (proposal : Proposal)
    : Proposal → Prop :=
| by_fast q :
    step = 4 → (∀ s, s ∈ replies → SStep s = step) →
    (∀ s, s ∈ replies → ∃ f, SFirstCurrent s = Some f ∧
       Priority_ f = highestPriority ∧ Some f ≈p Some q) →
    decided_by replies step proposal q
| by_prior :
    step mod 4 = 2 → (∀ s, s ∈ replies → SStep s = step) →
    Some proposal ≈p maxProposal (SAggregatePrior <$> replies) →
    decided_by replies step proposal proposal.

Lemma maxProposal_perm l k : l ≡ₚ k → maxProposal l ≈p maxProposal k.
Proof.
  intros Hp. apply ple_antisym; apply maxProposal_lub; intros v Hv; apply maxProposal_ub.
  - by rewrite <-Hp.
  - by rewrite Hp.
Qed.

Lemma sorted_first l : maxFirst (sortSummaries l) ≈p maxProposal (SFirstCurrent <$> l).
Proof. rewrite maxFirst_spec. apply maxProposal_perm. by rewrite sortSummaries_perm. Qed.

Lemma sorted_prior l : maxPrior (sortSummaries l) ≈p maxProposal (SAggregatePrior <$> l).
Proof. rewrite maxPrior_spec. apply maxProposal_perm. by rewrite sortSummaries_perm. Qed.

Lemma hydrate_advance fetch p sources step s' q :
  0 <= step < 2 ^ 64 →
  hydrate_then fetch p sources (advance step) = Continue s' q →
  s' = step + 1 ∧ Some q ≈p Some p ∧ s' < 2 ^ 64.
Proof.
  intros Hs. unfold hydrate_then. destruct (hydrateProposal _ _ _) as [h|] eqn:E; [|done].
  intros H. apply advance_Continue in H as (-> & -> & ?); [|done].
  apply hydrateProposal_peq in E. done.
Qed.

Lemma processSummaries_Continue fetch slot step proposal replies s' q :
  0 <= step < 2 ^ 64 → (∀ s, s ∈ replies → SStep s < 2 ^ 64) →
  processSummaries fetch slot step proposal replies = Continue s' q →
  step_up replies step proposal s' q ∧ s' < 2 ^ 64.
Proof.
  intros Hs Hr. unfold processSummaries.
  destruct (forallb _ _) eqn:Hall; simpl.
  2:{ destruct (caughtUp _ _) as [c|] eqn:Ec; [|done].
      apply caughtUp_Some in Ec as [Hc Hlt]. apply (sortSummaries_elem replies c) in Hc.
      destruct (SFirstCurrent c) as [f|] eqn:Ef; [|done]. unfold hydrate_then.
      destruct (hydrateProposal _ _ _) as [h|] eqn:Eh; [|done]. intros [= <- <-].
      split; [|by apply Hr]. apply (up_catch _ _ _ c f h); [done..|].
      by apply hydrateProposal_peq in Eh. }
  rewrite forallb_step in Hall.
  destruct (Z.eqb_spec (step mod 4) 0) as [E0|E0].
  { intros H.
    assert (match maxFirst (sortSummaries replies) with
      | None => Failed ErrEmptyProposalSet
      | Some best => hydrate_then fetch best (summarySources (sortSummaries replies)) (advance step)
      end = Continue s' q) as H'.
    { destruct (fastScan _ _ _) as [[[|] [f|]]|]; try done.
      unfold hydrate_then in H. by destruct (hydrateProposal _ _ _). }
    clear H. pose proof (sorted_first replies) as Hm.
    destruct (maxFirst _) as [best|]; [|done].
    apply hydrate_advance in H' as (-> & Hq & ?); [|done].
    split; [|done]. apply up_first; [done..|]. by rewrite Hq, Hm. }
  destruct (Z.eqb_spec (step mod 4) 1) as [E1|E1].
  { intros H. apply advance_Continue in H as (-> & -> & ?); [|done].
    split; [|done]. apply up_carry; auto. }
  destruct (Z.eqb_spec (step mod 4) 2) as [E2|E2].
  { destruct (sameProposal _ _); [done|]. intros H.
    apply advance_Continue in H as (-> & -> & ?); [|done]. split; [|done].
    apply up_carry; auto. }
  pose proof (sorted_prior replies) as Hm. destruct (maxPrior _) as [best|]; [|done].
  intros H. apply hydrate_advance in H as (-> & Hq & ?); [|done].
  split; [|done]. apply up_prior; [done| |by rewrite Hq, Hm].
  pose proof (Z.mod_pos_bound step 4). lia.
Qed.

Lemma processSummaries_Decided fetch slot step proposal replies d :
  processSummaries fetch slot step proposal replies = Decided d →
  decided_by replies step proposal (DProposal d) ∧ DStep d = step ∧ DSlot d = slot ∧
  DSummaries d = sortSummaries replies.
Proof.
  unfold processSummaries. destruct (forallb _ _) eqn:Hall; simpl.
  2:{ destruct (caughtUp _ _) as [c|]; [|done]. destruct (SFirstCurrent c); [|done].
      unfold hydrate_then. by destruct (hydrateProposal _ _ _). }
  rewrite forallb_step in Hall. unfold hydrate_then.
  destruct (Z.eqb_spec (step mod 4) 0) as [E0|E0].
  { destruct (fastScan _ _ _) as [[[|] [f|]]|] eqn:Ef; try done.
    2-4: destruct (maxFirst _); [|done]; destruct (hydrateProposal _ _ _); [|done];
         by intros ?%advance_not_Decided.
    destruct (hydrateProposal _ _ _) as [h|] eqn:Eh; [|done]. intros [= <-]. simpl.
    split; [|done]. apply fastScan_fast in Ef as (E4 & Hf & _).
    apply by_fast; [lia|done|]. intros s Hs.
    destruct (Hf s) as (p & ? & ? & ?); [by apply sortSummaries_elem|].
    exists p. split_and!; [done..|]. apply hydrateProposal_peq in Eh. by rewrite Eh. }
  destruct (Z.eqb_spec (step mod 4) 1) as [E1|E1]; [by intros ?%advance_not_Decided|].
  destruct (Z.eqb_spec (step mod 4) 2) as [E2|E2].
  { destruct (sameProposal _ _) eqn:Es; [|by intros ?%advance_not_Decided].
    intros [= <-]. simpl. split; [|done]. apply by_prior; [done..|].
    apply sameProposal_spec in Es. by rewrite Es, sorted_prior. }
  destruct (maxPrior _); [|done]. destruct (hydrateProposal _ _ _); [|done].
  by intros ?%advance_not_Decided.
Qed.
