(* ===== verification/Agreement.v ===== *)
(** * Agreement of QuePaxa decisions from their evidence

    A history lists the observable events of one slot, newest first: values
    proposed, requests sent, decisions reached.  [chain] says that every event
    is justified by the earlier ones through the code's own rules
    ([Proposer.step_up], [Proposer.decided_by]) and through replies that are
    prefixes of the recorders' durable logs.  Any two decisions of such a
    history carry the same hash, provided the slot saw one highest-priority
    offer. *)

From stdpp Require Import gmap list sorting.
From S2P Require Import Prelude Protocol Register Cluster Proposer.

Ltac Zify.zify_post_hook ::= Z.to_euclidean_division_equations.

Inductive event :=
| EStart (node : NodeID) (value : bytes)
| ESend (t : Step) (c : Proposal)
| EDecide (d : Decision).

Definition cand (t : Step) (p c : Proposal) : Prop :=
  (c = p ∧ (t mod 4 ≠ 0 ∨ t = 4)) ∨
  (t mod 4 = 0 ∧ ∃ pr, pr ≠ highestPriority ∧ length pr = 32%nat ∧ c = with_priority p pr).

Section evidence.
Context (cluster : Cluster) (sha256 : bytes → ValueHash) (D : NodeID → rlog).

Definition sent_before (h : list event) (log : rlog) : Prop :=
  ∀ t q, (t, q) ∈ log → ∃ c, ESend t c ∈ h ∧ Some q ≈p Some c.

(** A reply of recorder [r] to request [(t, c)]: either the register after
    the receipt, or the decision the recorder already knows. *)
Definition real_reply (h : list event) (r : NodeID) (t : Step) (c : Proposal) (s : Summary) : Prop :=
  ∃ log p, let log' := log ++ [(t, p)] in
    log' `prefix_of` D r ∧ valid_log log' ∧ Some p ≈p Some c ∧ sent_before h log' ∧
    SStep s = last_step log' ∧ SFirstCurrent s = first_at (last_step log') log' ∧
    SAggregatePrior s = aggregate_at (last_step log' - 1) log'.

Definition decided_reply (h : list event) (t : Step) (s : Summary) : Prop :=
  ∃ d, EDecide d ∈ h ∧ SStep s = Z.max (DStep d) t ∧
    SFirstCurrent s = Some (DProposal d) ∧ SAggregatePrior s = Some (DProposal d).

Definition reply_ok h r t c s : Prop := real_reply h r t c s ∨ decided_reply h t s.

Definition is_quorum (Q : list NodeID) : Prop :=
  NoDup Q ∧ Q ⊆ member_ids cluster ∧ QuorumSize cluster <= Z.of_nat (length Q).

Definition quorum_replies (h : list event) (t : Step) (c : Proposal) (rs : list Summary) : Prop :=
  is_quorum (RecorderID <$> rs) ∧ ∀ s, s ∈ rs → reply_ok h (RecorderID s) t c s.

(** The proposals a proposer can hold at a step. *)
Inductive holds (h : list event) : Step → Proposal → Prop :=
| holds_start node v :
    EStart node v ∈ h → holds h 4 (newProposal sha256 highestPriority node v)
| holds_up t p c rs t' p' :
    holds h t p → cand t p c → ESend t c ∈ h → quorum_replies h t c rs →
    step_up rs t p t' p' → t' < 2 ^ 64 → holds h t' p'.

Definition justified (h : list event) (e : event) : Prop :=
  match e with
  | EStart _ _ => True
  | ESend t c => ∃ p, holds h t p ∧ cand t p c
  | EDecide d => ∃ p c rs, holds h (DStep d) p ∧ cand (DStep d) p c ∧
      ESend (DStep d) c ∈ h ∧ quorum_replies h (DStep d) c rs ∧
      decided_by rs (DStep d) p (DProposal d)
  end.

Fixpoint chain (h : list event) : Prop :=
  match h with [] => True | e :: h' => justified h' e ∧ chain h' end.

(** ** Elementary facts *)

Lemma step_up_lt rs t p t' p' : step_up rs t p t' p' → t < t'.
Proof. destruct 1; lia. Qed.

Lemma holds_valid h t p : holds h t p → valid_step t.
Proof.
  induction 1 as [|?????? _ IH _ _ _ Hup Hlt]; unfold valid_step in *; [lia|].
  apply step_up_lt in Hup. lia.
Qed.

Lemma decided_by_step rs t p q : decided_by rs t p q → t = 4 ∨ t mod 4 = 2.
Proof. destruct 1; auto. Qed.

Lemma decided_by_phase2 rs t p q :
  decided_by rs t p q → t mod 4 = 2 →
  q = p ∧ (∀ s, s ∈ rs → SStep s = t) ∧ Some p ≈p maxProposal (SAggregatePrior <$> rs).
Proof. destruct 1; [lia|done]. Qed.

Lemma is_quorum_intersect Q Q' : is_quorum Q → is_quorum Q' → ∃ r, r ∈ Q ∧ r ∈ Q'.
Proof. intros (?&?&?) (?&?&?). by apply (quorum_intersect cluster). Qed.

Lemma quorum_common h t c rs Q :
  quorum_replies h t c rs → is_quorum Q → ∃ s, s ∈ rs ∧ RecorderID s ∈ Q.
Proof.
  intros [Hq _] HQ. destruct (is_quorum_intersect _ _ Hq HQ) as (r & Hr & ?).
  apply list_elem_of_fmap in Hr as (s & -> & ?). eauto.
Qed.

Lemma quorum_nonempty h t c rs : quorum_replies h t c rs → ∃ s, s ∈ rs.
Proof. intros H. destruct (quorum_common h t c rs _ H (proj1 H)) as (s & ? & _). eauto. Qed.

Lemma peq_hash p q : Some p ≈p Some q → Hash p = Hash q.
Proof. intros (_&_&?)%peq_fields. done. Qed.

(** ** Monotonicity in the history *)

Lemma reply_ok_mono h h' r t c s : h ⊆ h' → reply_ok h r t c s → reply_ok h' r t c s.
Proof.
  intros Hh [(log & p & ? & ? & ? & Hs & ?)|(d & ? & ?)].
  - left. exists log, p. split_and!; try done. all: try naive_solver.
    intros t' q Hq. destruct (Hs t' q Hq) as (c' & ? & ?). eauto.
  - right. exists d. auto.
Qed.

Lemma quorum_replies_mono h h' t c rs :
  h ⊆ h' → quorum_replies h t c rs → quorum_replies h' t c rs.
Proof. intros Hh [? Hr]. split; [done|]. eauto using reply_ok_mono. Qed.

Lemma holds_mono h h' t p : h ⊆ h' → holds h t p → holds h' t p.
Proof.
  intros Hh. induction 1; [apply holds_start; auto|].
  eapply holds_up; eauto using quorum_replies_mono.
Qed.

(** ** What a receipt-backed reply says about the durable log *)

Lemma real_first h r t c s f :
  real_reply h r t c s → SFirstCurrent s = Some f →
  ∃ c', ESend (SStep s) c' ∈ h ∧ Some f ≈p Some c'.
Proof.
  intros (log & p & _ & _ & _ & Hs & -> & -> & _) Hf.
  apply Hs. by apply first_at_elem.
Qed.

Lemma real_first_at h r t c s :
  real_reply h r t c s → SFirstCurrent s = first_at (SStep s) (D r).
Proof.
  intros (log & p & [ext ->] & Hv & _ & _ & -> & -> & _).
  destruct (first_at_last_Some _ Hv) as [f Hf]; [by destruct log|].
  by rewrite (first_at_stable _ (log ++ [(t, p)]) ext f), Hf.
Qed.

Lemma real_prior h r t c s :
  real_reply h r t c s → SAggregatePrior s = aggregate_at (SStep s - 1) (D r).
Proof.
  intros (log & p & [ext ->] & _ & _ & _ & -> & _ & ->).
  by rewrite (aggregate_frozen _ (log ++ [(t, p)])) by lia.
Qed.

Lemma real_prior_sent h r t c s q :
  real_reply h r t c s → q ∈ recorded (SStep s - 1) (D r) →
  ∃ c', ESend (SStep s - 1) c' ∈ h ∧ Some q ≈p Some c'.
Proof.
  intros (log & p & [ext ->] & _ & _ & Hs & -> & _ & _).
  rewrite (recorded_frozen _ (log ++ [(t, p)])) by lia. intros Hq. apply Hs. by apply recorded_elem.
Qed.

Lemma real_recorded h r t c s :
  real_reply h r t c s → SStep s = t → ∃ p, p ∈ recorded t (D r) ∧ Some p ≈p Some c.
Proof.
  intros (log & p & [ext ->] & Hv & Hp & _ & -> & _ & _) Ht. exists p. split; [|done].
  apply recorded_stable, Record_current; [|done].
  by apply Forall_app in Hv as [? _].
Qed.

(** Without a decision at or below its step, a current reply is a receipt. *)
Lemma current_real h r t c s :
  (∀ d, EDecide d ∈ h → t < DStep d) → reply_ok h r t c s → SStep s = t →
  real_reply h r t c s.
Proof. intros Hd [?|(d & Hin & Hs & _)] Ht; [done|]. apply Hd in Hin. lia. Qed.

Lemma justified_chain h e : chain h → e ∈ h → ∃ h1 h2, h = h1 ++ e :: h2 ∧ justified h2 e ∧ chain h2.
Proof.
  induction h as [|e' h IH]; [by intros _ ?%elem_of_nil|].
  intros [Hj Hc] [->|Hin]%elem_of_cons; [by exists [], h|].
  destruct (IH Hc Hin) as (h1 & h2 & -> & ?). by exists (e' :: h1), h2.
Qed.

Lemma chain_decision_step h d : chain h → EDecide d ∈ h → DStep d = 4 ∨ DStep d mod 4 = 2.
Proof.
  intros Hc Hd. apply justified_chain in Hd as (h1 & h2 & _ & (p & c & rs & Hj) & _); [|done].
  destruct_and!. eauto using decided_by_step.
Qed.

(** ** What every entry into step [T] satisfies, everything above satisfies

    [P] may only look at a proposal's author and hash. *)

Definition settled (T : Step) (P : Proposal → Prop) (g : list event) : Prop :=
  (∀ t c, ESend t c ∈ g → T <= t → P c) ∧ (∀ d, EDecide d ∈ g → P (DProposal d)).

Section tail.
Context (h : list event) (T : Step) (P : Proposal → Prop).
Hypothesis HP : ∀ p q, ProposerID p = ProposerID q → Hash p = Hash q → P p → P q.
Hypothesis Hstart : ∀ node v, EStart node v ∈ h → T <= 4 →
  P (newProposal sha256 highestPriority node v).
Hypothesis Hphase : T mod 4 = 0 ∨ T mod 4 = 1.
Hypothesis Hlow : ∀ d, EDecide d ∈ h → DStep d < T → P (DProposal d).
Hypothesis Hentry : ∀ t c rs q,
  4 <= t → t + 1 = T → quorum_replies h t c rs → (∀ s, s ∈ rs → SStep s = t) →
  (t mod 4 = 0 ∧ Some q ≈p maxProposal (SFirstCurrent <$> rs)) ∨
  (t mod 4 = 3 ∧ Some q ≈p maxProposal (SAggregatePrior <$> rs)) → P q.

Lemma settled_peq p q : Some p ≈p Some q → P p → P q.
Proof. intros (_&?&?)%peq_fields. by apply HP. Qed.

Lemma settled_max q l :
  Some q ≈p maxProposal l → (∀ x, Some x ∈ l → P x) → P q.
Proof.
  intros Hq Hl. destruct (maxProposal_elem l) as [E|E].
  - rewrite E in Hq. by apply peq_Some_None in Hq.
  - destruct (maxProposal l) as [m|]; [|by apply peq_Some_None in Hq].
    apply (settled_peq m); [by symmetry|auto].
Qed.

Lemma reply_first_settled g r t c s f :
  settled T P g → reply_ok g r t c s → T <= SStep s → SFirstCurrent s = Some f → P f.
Proof.
  intros [Hs Hd] [Hr|(d & ? & _ & Hf & _)] HT E.
  - destruct (real_first _ _ _ _ _ _ Hr E) as (c' & Hc' & Hp).
    apply (settled_peq c'); [by symmetry|eauto].
  - rewrite Hf in E. simplify_eq. auto.
Qed.

Lemma reply_prior_settled g r t c s f :
  settled T P g → reply_ok g r t c s → T <= SStep s - 1 → SAggregatePrior s = Some f → P f.
Proof.
  intros [Hs Hd] [Hr|(d & ? & _ & _ & Hf)] HT E.
  - rewrite (real_prior _ _ _ _ _ Hr) in E. apply aggregate_elem in E.
    destruct (real_prior_sent _ _ _ _ _ _ Hr E) as (c' & Hc' & Hp).
    apply (settled_peq c'); [by symmetry|eauto].
  - rewrite Hf in E. simplify_eq. auto.
Qed.

Lemma holds_settled g t p : g ⊆ h → settled T P g → holds g t p → T <= t → P p.
Proof.
  intros Hg Hs. induction 1 as [|t p c rs t' p' Hh IH Hc Hsend Hq Hup Hlt]; intros HT; [auto|].
  pose proof (quorum_replies_mono g h t c rs Hg Hq) as Hqh. destruct Hq as [_ Hr].
  pose proof (holds_valid _ _ _ Hh) as Hv. unfold valid_step in Hv.
  destruct Hup as [s f q Hin Hlt' Hf Hpq|q Hcur Hmod Hmax|Hcur Hmod|q Hcur Hmod Hmax].
  - apply (settled_peq f); [by symmetry|]. eapply (reply_first_settled g); eauto.
  - destruct (decide (t + 1 = T)); [by eapply Hentry; eauto; lia|].
    eapply settled_max; [done|]. intros x (s & Hx & Hin)%list_elem_of_fmap.
    eapply (reply_first_settled g); [done|by apply Hr| |done]. rewrite Hcur by done. lia.
  - apply IH. lia.
  - destruct (decide (t + 1 = T)); [by eapply Hentry; eauto; lia|].
    eapply settled_max; [done|]. intros x (s & Hx & Hin)%list_elem_of_fmap.
    eapply (reply_prior_settled g); [done|by apply Hr| |done]. rewrite Hcur by done. lia.
Qed.

Lemma cand_settled t p c : cand t p c → P p → P c.
Proof. intros [[-> _]|(_ & pr & _ & _ & ->)]; [done|]. by apply HP. Qed.

Lemma justified_settled g e :
  g ⊆ h → e ∈ h → settled T P g → justified g e → settled T P (e :: g).
Proof.
  intros Hg He [Hs1 Hs2] Hj. split.
  - intros t c [<-|?]%elem_of_cons HT; [|eauto]. destruct Hj as (p & Hh & Hc).
    apply (cand_settled _ _ _ Hc). eapply (holds_settled g); eauto. by split.
  - intros d [<-|?]%elem_of_cons; [|eauto]. destruct Hj as (p & c & rs & Hh & Hc & Hsend & Hq & Hd).
    destruct (decide (DStep d < T)); [auto|]. destruct Hd as [q Hst Hcur Hf|].
    + destruct (quorum_nonempty _ _ _ _ Hq) as (s & Hin).
      destruct (Hf s Hin) as (f & Ef & _ & Hfq). apply (settled_peq f); [done|].
      eapply (reply_first_settled g); [by split|by apply (proj2 Hq)| |done].
      rewrite Hcur by done. lia.
    + eapply (holds_settled g); eauto; [by split|lia].
Qed.

Lemma chain_settled : chain h → settled T P h.
Proof.
  intros Hc. assert (∀ g, g ⊆ h → chain g → settled T P g) as H; [|by apply H].
  induction g as [|e g IH]; [intros _ _; split; [by intros ?? ?%elem_of_nil|by intros ? ?%elem_of_nil]|].
  intros Hg [Hj Hch]. apply justified_settled; [set_solver..| |done]. apply IH; [set_solver|done].
Qed.
End tail.

(** ** The lowest decision is at a phase-2 step *)

Section phase2.
Context (h : list event) (s0 : Step) (Hchain : chain h).
Hypothesis Hs0 : s0 mod 4 = 2.
Hypothesis Hmin : ∀ d, EDecide d ∈ h → s0 <= DStep d.

(** [q] was recorded at the step below by a whole quorum. *)
Definition spread (q : Proposal) : Prop :=
  ∃ Q, is_quorum Q ∧ ∀ r, r ∈ Q → ∃ q', q' ∈ recorded (s0 - 1) (D r) ∧ Some q' ≈p Some q.

Lemma spread_peq p q : Some p ≈p Some q → spread p → spread q.
Proof.
  intros Hpq (Q & HQ & H). exists Q. split; [done|]. intros r Hr.
  destruct (H r Hr) as (q' & ? & ?). exists q'. split; [done|]. by rewrite <-Hpq.
Qed.

Definition all_spread (g : list event) : Prop :=
  (∀ c, ESend s0 c ∈ g → spread c) ∧
  (∀ d, EDecide d ∈ g → DStep d = s0 → spread (DProposal d)).

Lemma holds_spread g t q : g ⊆ h → all_spread g → holds g t q → t = s0 → spread q.
Proof.
  intros Hg [Ha1 Ha2] Hh Ht. destruct Hh as [|t p c rs t' p' Hh Hc Hsend [HQ Hr] Hup Hlt].
  { by rewrite <-Ht in Hs0. }
  destruct Hup as [s f q Hin Hlt' Hf Hpq|q Hcur Hmod Hmax|Hcur Hmod|q Hcur Hmod Hmax].
  - destruct (Hr s Hin) as [Hreal|(d & Hd & Hstep & HF & _)].
    + destruct (real_first _ _ _ _ _ _ Hreal Hf) as (c' & Hc' & Hp').
      rewrite Ht in Hc'. apply (spread_peq c'); [|auto]. by rewrite <-Hp', Hpq.
    + rewrite HF in Hf. simplify_eq. apply (spread_peq (DProposal d)); [by symmetry|].
      apply Ha2; [done|lia].
  - pose proof (Z.div_mod t 4). pose proof (Z.div_mod s0 4). lia.
  - assert (t = s0 - 1) as -> by lia. exists (RecorderID <$> rs). split; [done|].
    intros r (s & -> & Hs)%list_elem_of_fmap.
    assert (p = c) as ->.
    { destruct Hc as [[-> _]|[Hz _]]; [done|]. pose proof (Z.div_mod s0 4).
      pose proof (Z.div_mod (s0 - 1) 4). lia. }
    apply (real_recorded g (RecorderID s) (s0 - 1) c s); [|auto].
    apply current_real; [|auto..]. intros d Hd. pose proof (Hmin d (Hg _ Hd)). lia.
  - pose proof (Z.div_mod t 4). pose proof (Z.div_mod s0 4). lia.
Qed.

Lemma chain_spread g : g ⊆ h → chain g → all_spread g.
Proof.
  induction g as [|e g IH].
  { intros _ _. split; [by intros ? ?%elem_of_nil|by intros ? ?%elem_of_nil]. }
  intros Hg [Hj Hc]. assert (g ⊆ h) as Hg' by set_solver.
  pose proof (IH Hg' Hc) as [Ha1 Ha2]. split.
  - intros c [<-|?]%elem_of_cons; [|auto]. destruct Hj as (p & Hp & Hcand).
    assert (c = p) as -> by (destruct Hcand as [[-> _]|[? _]]; [done|lia]).
    by eapply (holds_spread g).
  - intros d [<-|?]%elem_of_cons Hd; [|auto]. destruct Hj as (p & c & rs & Hp & _ & _ & _ & Hby).
    destruct Hby as [|]; [lia|]. by eapply (holds_spread g).
Qed.

(** The earliest decision [d0] at [s0] and the receipts behind it. *)
Context (d0 : Decision) (g0 : list event) (p0 c0 : Proposal) (rs0 : list Summary).
Hypothesis Hd0 : EDecide d0 ∈ h.
Hypothesis Hstep0 : DStep d0 = s0.
Hypothesis Hg0 : ∀ d, EDecide d ∈ g0 → s0 < DStep d.
Hypothesis Hsub0 : g0 ⊆ h.
Hypothesis Hc0 : cand s0 p0 c0.
Hypothesis Hq0 : quorum_replies g0 s0 c0 rs0.
Hypothesis Hby0 : decided_by rs0 s0 p0 (DProposal d0).

Lemma first_decision : ∃ x, Some x ≈p Some (DProposal d0) ∧
  (∀ s, s ∈ rs0 → SStep s = s0 ∧ real_reply g0 (RecorderID s) s0 x s) ∧
  Some x ≈p maxProposal (SAggregatePrior <$> rs0).
Proof.
  destruct (decided_by_phase2 _ _ _ _ Hby0 Hs0) as (Heq & Hcur & Hmax).
  assert (c0 = p0) as E by (destruct Hc0 as [[-> _]|[? _]]; [done|lia]).
  exists p0. split; [by rewrite Heq|]. split; [|done].
  intros s Hs. split; [auto|]. rewrite <-E. apply current_real; [done| |auto].
  by apply (proj2 Hq0).
Qed.

Lemma spread_le q : spread q → Some q ⊑p Some (DProposal d0).
Proof.
  intros (Q & HQ & Hrec). destruct first_decision as (x & Hx & Hreal & Hmax).
  destruct (quorum_common _ _ _ _ _ Hq0 HQ) as (s & Hs & Hin).
  destruct (Hrec _ Hin) as (q' & Hq' & <-). destruct (Hreal s Hs) as [Hst Hr].
  rewrite <-Hx, Hmax. trans (SAggregatePrior s).
  - rewrite (real_prior _ _ _ _ _ Hr), Hst. by apply aggregate_ub.
  - apply maxProposal_ub. by apply list_elem_of_fmap_2.
Qed.

Lemma spread_d0 : spread (DProposal d0).
Proof. by apply (chain_spread h). Qed.

Lemma decisions_at_s0 g d :
  g ⊆ h → chain g → EDecide d ∈ g → DStep d = s0 → Some (DProposal d) ≈p Some (DProposal d0).
Proof.
  revert d. induction g as [|e g IH]; intros d; [by intros _ _ ?%elem_of_nil|].
  intros Hg Hcg Hin Hd. assert (g ⊆ h) as Hg' by set_solver.
  pose proof (proj2 (chain_spread _ Hg Hcg) d Hin Hd) as Hsp.
  apply elem_of_cons in Hin as [<-|Hin]; [|by apply IH; destruct Hcg].
  destruct Hcg as [(p & c & rs & Hp & Hc & Hsend & Hq & Hby) Hcg]. rewrite Hd in *.
  apply ple_antisym; [by apply spread_le|].
  destruct (decided_by_phase2 _ _ _ _ Hby Hs0) as (-> & Hcur & ->).
  destruct spread_d0 as (Q & HQ & Hrec).
  destruct (quorum_common _ _ _ _ _ Hq HQ) as (s & Hs & HsQ).
  trans (SAggregatePrior s); [|apply maxProposal_ub; by apply list_elem_of_fmap_2].
  destruct (proj2 Hq s Hs) as [Hr|(d' & Hd' & Hst & _ & ->)].
  - rewrite (real_prior _ _ _ _ _ Hr), Hcur by done.
    destruct (Hrec _ HsQ) as (q' & ? & <-). by apply aggregate_ub.
  - apply peq_ple. symmetry. apply IH; [done..|].
    pose proof (Hmin d' (Hg' _ Hd')). rewrite Hcur in Hst by done. lia.
Qed.

Lemma entry_after_s0 c rs q :
  quorum_replies h (s0 + 1) c rs → (∀ s, s ∈ rs → SStep s = s0 + 1) →
  Some q ≈p maxProposal (SAggregatePrior <$> rs) → Some q ≈p Some (DProposal d0).
Proof.
  intros Hq Hcur ->.
  assert (∀ s, s ∈ rs → decided_reply h (s0 + 1) s → SAggregatePrior s ≈p Some (DProposal d0)) as Hsyn.
  { intros s Hs (d & Hd & Hst & _ & ->). rewrite Hcur in Hst by done.
    apply (decisions_at_s0 h); [done..|]. pose proof (Hmin d Hd).
    destruct (chain_decision_step h d Hchain Hd) as [E|E]; [|pose proof (Z.div_mod (DStep d) 4);
      pose proof (Z.div_mod s0 4); lia].
    pose proof (Z.div_mod s0 4). lia. }
  destruct Hq as [HQ Hr]. apply ple_antisym.
  - apply maxProposal_lub. intros x (s & -> & Hs)%list_elem_of_fmap.
    destruct (Hr s Hs) as [Hreal|?]; [|by apply peq_ple, Hsyn].
    rewrite (real_prior _ _ _ _ _ Hreal). apply maxProposal_lub.
    intros x (y & -> & Hy)%list_elem_of_fmap.
    destruct (real_prior_sent _ _ _ _ _ _ Hreal Hy) as (c' & Hc' & ->).
    rewrite Hcur in Hc' by done. replace (s0 + 1 - 1) with s0 in Hc' by lia.
    apply spread_le. by apply (chain_spread h).
  - destruct (quorum_common _ _ _ _ _ Hq0 HQ) as (s & Hs & Hin).
    apply list_elem_of_fmap in Hin as (s' & E & Hs').
    trans (SAggregatePrior s'); [|apply maxProposal_ub; by apply list_elem_of_fmap_2].
    destruct (Hr s' Hs') as [Hreal|?]; [|by apply peq_ple; symmetry; apply Hsyn].
    destruct first_decision as (x & Hx & Hreal0 & _). destruct (Hreal0 s Hs) as [Hst Hr0].
    destruct (real_recorded _ _ _ _ _ Hr0 Hst) as (y & Hy & Hyx).
    rewrite (real_prior _ _ _ _ _ Hreal), (Hcur s') by done.
    replace (s0 + 1 - 1) with s0 by lia. rewrite <-Hx, <-Hyx. apply aggregate_ub. by rewrite <-E.
Qed.

Lemma phase2_settled : settled (s0 + 2) (λ p, Hash p = Hash (DProposal d0)) h.
Proof.
  assert (s0 + 2 > 4 ∧ (s0 + 2) mod 4 = 0) as [??].
  { destruct (justified_chain h _ Hchain Hd0) as (? & g & _ & (p & _ & _ & Hp & _) & _).
    apply holds_valid in Hp. unfold valid_step in Hp.
    pose proof (Z.div_mod s0 4). split; [lia|].
    rewrite <-Zplus_mod_idemp_l, Hs0. done. }
  apply chain_settled; [congruence|lia|by left| | |done].
  - intros d Hd Hlt. apply peq_hash, (decisions_at_s0 h); [done..|].
    pose proof (Hmin d Hd). destruct (chain_decision_step h d Hchain Hd) as [E|E];
      pose proof (Z.div_mod (DStep d) 4); pose proof (Z.div_mod s0 4); lia.
  - intros t c rs q _ Ht Hq Hcur Hor. assert (t = s0 + 1) as -> by lia. apply peq_hash.
    eapply entry_after_s0; [done..|]. destruct Hor as [[E _]|[_ E]]; [|done].
    pose proof (Z.div_mod (s0 + 1) 4). pose proof (Z.div_mod s0 4). lia.
Qed.
End phase2.

(** ** The lowest decision is a fast-path decision at step 4 *)

Definition unique_high (h : list event) : Prop :=
  ∀ c c', ESend 4 c ∈ h → ESend 4 c' ∈ h →
    Priority_ c = highestPriority → Priority_ c' = highestPriority → Some c ≈p Some c'.

Section fast.
Context (h : list event) (Hchain : chain h) (Hhigh : unique_high h).
Context (d0 : Decision) (g0 : list event) (p0 c0 : Proposal) (rs0 : list Summary).
Hypothesis Hg0 : ∀ d, EDecide d ∈ g0 → 4 < DStep d.
Hypothesis Hsub0 : g0 ⊆ h.
Hypothesis Hq0 : quorum_replies g0 4 c0 rs0.
Hypothesis Hby0 : decided_by rs0 4 p0 (DProposal d0).

Lemma decided_by_fast rs p q :
  decided_by rs 4 p q → ∀ s, s ∈ rs → SStep s = 4 ∧
    ∃ f, SFirstCurrent s = Some f ∧ Priority_ f = highestPriority ∧ Some f ≈p Some q.
Proof. inversion 1; simplify_eq. intros s Hs. auto. Qed.

Lemma fast_real s : s ∈ rs0 → real_reply g0 (RecorderID s) 4 c0 s.
Proof.
  intros Hs. apply current_real; [done|by apply (proj2 Hq0)|].
  by apply (decided_by_fast _ _ _ Hby0).
Qed.

Lemma high_sent f c : ESend 4 c ∈ h → Some f ≈p Some c → Priority_ f = highestPriority →
  Some f ≈p Some (DProposal d0) ∧ Priority_ (DProposal d0) = highestPriority.
Proof.
  intros Hc Hfc Hf. destruct (quorum_nonempty _ _ _ _ Hq0) as (s & Hs).
  destruct (decided_by_fast _ _ _ Hby0 s Hs) as (Hst & f0 & Hf0 & Hh0 & He0).
  destruct (real_first _ _ _ _ _ _ (fast_real s Hs) Hf0) as (c1 & Hc1 & Hfc1).
  rewrite Hst in Hc1.
  assert (Priority_ c = highestPriority) by (apply peq_fields in Hfc as [<- _]; done).
  assert (Priority_ c1 = highestPriority) by (apply peq_fields in Hfc1 as [<- _]; done).
  split; [|by apply peq_fields in He0 as [<- _]].
  rewrite Hfc, <-He0, Hfc1. apply Hhigh; auto.
Qed.

Lemma fast_priority : Priority_ (DProposal d0) = highestPriority.
Proof.
  destruct (quorum_nonempty _ _ _ _ Hq0) as (s & Hs).
  destruct (decided_by_fast _ _ _ Hby0 s Hs) as (_ & f0 & _ & Hh0 & He0).
  by apply peq_fields in He0 as [<- _].
Qed.

Lemma holds_4 g t p : holds g t p → t = 4 → Priority_ p = highestPriority.
Proof.
  destruct 1 as [|t p c rs t' p' Hh _ _ _ Hup _]; [done|].
  apply holds_valid in Hh. apply step_up_lt in Hup. unfold valid_step in Hh. lia.
Qed.

Lemma sends_4_le c : ESend 4 c ∈ h → Some c ⊑p Some (DProposal d0).
Proof.
  intros Hc. destruct (decide (Priority_ c = highestPriority)) as [Hp|Hp].
  { apply peq_ple. by destruct (high_sent c c Hc) as [? _]. }
  apply ple_highest; [|by apply fast_priority|done].
  destruct (justified_chain h _ Hchain Hc) as (_ & g & _ & (p & Hh & Hcand) & _).
  apply holds_4 in Hh; [|done].
  destruct Hcand as [[-> _]|(_ & pr & _ & ? & ->)]; done.
Qed.

Lemma decisions_at_4 g d :
  g ⊆ h → chain g → EDecide d ∈ g → DStep d = 4 → Some (DProposal d) ≈p Some (DProposal d0).
Proof.
  revert d. induction g as [|e g IH]; intros d; [by intros _ _ ?%elem_of_nil|].
  intros Hg Hcg [<-|Hin]%elem_of_cons Hd; [|apply IH; [set_solver|by destruct Hcg|done..]].
  destruct Hcg as [(p & c & rs & Hp & Hc & Hsend & Hq & Hby) Hcg].
  destruct (quorum_nonempty _ _ _ _ Hq) as (s & Hs). rewrite Hd in *.
  destruct (decided_by_fast _ _ _ Hby s Hs) as (Hst & f & Hf & Hh & <-).
  destruct (proj2 Hq s Hs) as [Hr|(d' & Hd' & Hst' & HF & _)].
  - destruct (real_first _ _ _ _ _ _ Hr Hf) as (c' & Hc' & Hfc). rewrite Hst in Hc'.
    eapply high_sent; [|done..]. apply Hg. by right.
  - rewrite HF in Hf. simplify_eq. apply IH; [set_solver|done..|].
    destruct (justified_chain g _ Hcg Hd') as (_ & g' & _ & (p' & _ & _ & Hh' & _) & _).
    apply holds_valid in Hh'. unfold valid_step in Hh'. lia.
Qed.

Lemma decision_ge_4 d : EDecide d ∈ h → 4 <= DStep d.
Proof.
  intros Hd. destruct (justified_chain h _ Hchain Hd) as (_ & g & _ & (p & _ & _ & Hp & _) & _).
  apply holds_valid in Hp. unfold valid_step in Hp. lia.
Qed.

Lemma entry_after_4 c rs q :
  quorum_replies h 4 c rs → (∀ s, s ∈ rs → SStep s = 4) →
  Some q ≈p maxProposal (SFirstCurrent <$> rs) → Some q ≈p Some (DProposal d0).
Proof.
  intros [HQ Hr] Hcur ->.
  assert (∀ s, s ∈ rs → decided_reply h 4 s → SFirstCurrent s ≈p Some (DProposal d0)) as Hsyn.
  { intros s Hs (d & Hd & Hst & -> & _). rewrite Hcur in Hst by done.
    apply (decisions_at_4 h); [done..|]. pose proof (decision_ge_4 d Hd). lia. }
  apply ple_antisym.
  - apply maxProposal_lub. intros x (s & -> & Hs)%list_elem_of_fmap.
    destruct (Hr s Hs) as [Hreal|?]; [|by apply peq_ple, Hsyn].
    destruct (SFirstCurrent s) as [f|] eqn:Ef; [|apply ple_None].
    destruct (real_first _ _ _ _ _ _ Hreal Ef) as (c' & Hc' & ->).
    rewrite Hcur in Hc' by done. by apply sends_4_le.
  - destruct (quorum_common _ _ _ _ _ Hq0 HQ) as (s & Hs & Hin).
    apply list_elem_of_fmap in Hin as (s' & E & Hs').
    trans (SFirstCurrent s'); [|apply maxProposal_ub; by apply list_elem_of_fmap_2].
    destruct (Hr s' Hs') as [Hreal|?]; [|by apply peq_ple; symmetry; apply Hsyn].
    destruct (decided_by_fast _ _ _ Hby0 s Hs) as (Hst & f0 & Hf0 & _ & <-).
    rewrite (real_first_at _ _ _ _ _ Hreal), (Hcur s') by done.
    rewrite <-E, <-Hst, <-(real_first_at _ _ _ _ _ (fast_real s Hs)), Hf0. done.
Qed.

Lemma fast_settled : settled 5 (λ p, Hash p = Hash (DProposal d0)) h.
Proof.
  apply chain_settled; [congruence|lia|by right| | |done].
  - intros d Hd Hlt. apply peq_hash, (decisions_at_4 h); [done..|].
    pose proof (decision_ge_4 d Hd). lia.
  - intros t c rs q _ Ht Hq Hcur Hor. assert (t = 4) as -> by lia. apply peq_hash.
    destruct Hor as [[_ E]|[E _]]; [|done]. by eapply entry_after_4.
Qed.
End fast.

(** ** Validity: every decided proposal was started by its author *)

Lemma chain_validity h d :
  chain h → EDecide d ∈ h →
  ∃ v, EStart (ProposerID (DProposal d)) v ∈ h ∧ Hash (DProposal d) = sha256 v.
Proof.
  intros Hc Hd.
  assert (settled 4 (λ p, ∃ v, EStart (ProposerID p) v ∈ h ∧ Hash p = sha256 v) h) as [_ H];
    [|by apply H].
  apply chain_settled; [|by eauto|by left| |intros; lia|done].
  - intros p q -> ->. done.
  - intros d' Hd' Hlt. exfalso. pose proof (decision_ge_4 h Hc d' Hd'). lia.
Qed.

(** ** Agreement *)

Definition is_decide (e : event) : bool :=
  match e with EDecide _ => true | _ => false end.

Lemma lowest_decision h d :
  EDecide d ∈ h → ∃ h1 d0 g0, h = h1 ++ EDecide d0 :: g0 ∧
    (∀ d, EDecide d ∈ h → DStep d0 <= DStep d) ∧ (∀ d, EDecide d ∈ g0 → DStep d0 < DStep d).
Proof.
  revert d. induction h as [|e h IH]; intros d Hd; [by apply elem_of_nil in Hd|].
  destruct (decide (Exists (λ e, is_decide e = true) h)) as [Hex|Hno].
  - apply Exists_exists in Hex as ([| |d1] & Hd1 & ?); try done.
    destruct (IH d1 Hd1) as (h1 & d0 & g0 & -> & Hle & Hlt).
    destruct e as [| |d']; [by exists (EStart node value :: h1), d0, g0; set_solver
      |by exists (ESend t c :: h1), d0, g0; set_solver|].
    destruct (decide (DStep d' < DStep d0)).
    + exists [], d', (h1 ++ EDecide d0 :: g0). split; [done|]. split.
      * intros x [[= ->]|Hx]%elem_of_cons; [lia|]. apply Hle in Hx. lia.
      * intros x Hx%Hle. lia.
    + exists (EDecide d' :: h1), d0, g0. split; [done|]. split; [|done].
      intros x [[= ->]|Hx]%elem_of_cons; [lia|auto].
  - assert (∀ x, EDecide x ∉ h) as Hnone.
    { intros x Hx. apply Hno, Exists_exists. by exists (EDecide x). }
    apply elem_of_cons in Hd as [<-|Hd]; [|by apply Hnone in Hd].
    exists [], d, h. split; [done|]. split.
    + intros x [[= ->]|Hx]%elem_of_cons; [lia|by apply Hnone in Hx].
    + intros x Hx. by apply Hnone in Hx.
Qed.

Lemma chain_app_r h1 h2 : chain (h1 ++ h2) → chain h2.
Proof. induction h1; [done|]. intros [_ ?]. auto. Qed.

Theorem chain_agreement h d d' :
  chain h → unique_high h → EDecide d ∈ h → EDecide d' ∈ h →
  Hash (DProposal d) = Hash (DProposal d').
Proof.
  intros Hc Hu Hd Hd'. destruct (lowest_decision h d Hd) as (h1 & d0 & g0 & E & Hle & Hlt).
  assert (EDecide d0 ∈ h) as Hd0 by (rewrite E; set_solver).
  assert (g0 ⊆ h) as Hg0 by (rewrite E; set_solver).
  assert (justified g0 (EDecide d0)) as (p & c & rs & Hh & Hcand & Hs & Hq & Hby).
  { rewrite E in Hc. by apply chain_app_r in Hc as [? _]. }
  assert (∃ T, settled T (λ p, Hash p = Hash (DProposal d0)) h) as (T & _ & Hset).
  { destruct (chain_decision_step h d0 Hc Hd0) as [E4|E2].
    - rewrite E4 in *. eexists. by eapply (fast_settled h Hc Hu d0 g0).
    - eexists. by eapply (phase2_settled h (DStep d0) Hc E2 Hle d0 g0). }
  by rewrite (Hset d Hd), (Hset d' Hd').
Qed.
End evidence.

(** ** Evidence survives growth of the history and of the durable logs *)

Section growth.
Context (cluster : Cluster) (sha256 : bytes → ValueHash) (D D' : NodeID → rlog).
Hypothesis HD : ∀ r, D r `prefix_of` D' r.

Lemma reply_ok_grow h h' r t c s :
  h ⊆ h' → reply_ok D h r t c s → reply_ok D' h' r t c s.
Proof.
  intros Hh H. apply (reply_ok_mono D' h h'); [done|]. destruct H as [(log & p & Hp & ?)|?]; [|by right].
  left. exists log, p. split; [|done]. by trans (D r).
Qed.

Lemma quorum_replies_grow h h' t c rs :
  h ⊆ h' → quorum_replies cluster D h t c rs → quorum_replies cluster D' h' t c rs.
Proof. intros Hh [? Hr]. split; [done|]. eauto using reply_ok_grow. Qed.

Lemma holds_grow h h' t p :
  h ⊆ h' → holds cluster sha256 D h t p → holds cluster sha256 D' h' t p.
Proof.
  intros Hh. induction 1; [apply holds_start; auto|].
  eapply holds_up; eauto using quorum_replies_grow.
Qed.

Lemma justified_grow h e :
  justified cluster sha256 D h e → justified cluster sha256 D' h e.
Proof.
  destruct e as [|t c|d]; simpl; [done| |].
  - intros (p & ? & ?). eauto using holds_grow.
  - intros (p & c & rs & ? & ? & ? & ? & ?). exists p, c, rs.
    split_and!; try done; [by eapply holds_grow|by eapply quorum_replies_grow].
Qed.

Lemma chain_grow h : chain cluster sha256 D h → chain cluster sha256 D' h.
Proof. induction h as [|e h IH]; simpl; [done|]. intros [??]. eauto using justified_grow. Qed.
End growth.

Lemma reply_ok_peq D h r t c c' s :
  Some c ≈p Some c' → reply_ok D h r t c s → reply_ok D h r t c' s.
Proof.
  intros Hc [(log & p & ? & ? & Hp & ?)|?]; [|by right]. left. exists log, p.
  split; [done|]. split; [done|]. split; [by rewrite Hp|done].
Qed.
