(* ===== verification/Consensus.v ===== *)
(** * One consensus slot as a transition system (pkg/quepaxa/core.go)

    The distributed execution of a slot: proposers run the loop of [runSlot],
    recorders run [record] with an append, a group-committed sync and a reply,
    nodes crash and recover from their WAL, and decisions are accepted and
    served back to late proposers.  [apply] is executable; [run] folds it. *)

From stdpp Require Import gmap list sorting.
From S2P Require Import Prelude Protocol Register Cluster Proposer Agreement.

#[global] Instance event_eq_dec : EqDecision event.
Proof. solve_decision. Defined.

(** A recorder's share of the slot: its WAL receipts in memory order, how many
    of them are synced, and the decision it knows with its durability. *)
Record recorder := mkRecorder {
  mem : rlog;
  durableLen : nat;
  decided : option Decision;
  durable : bool;
}.
Definition emptyRecorder : recorder := mkRecorder [] 0 None false.

(** A goroutine inside [runSlot]. *)
Record proposer := mkProposer {
  pnode : NodeID;
  pfast : bool;
  pstep : Step;
  pproposal : Proposal;
  pwait : option Proposal;
}.

(** A reply in flight, with the request it answers. *)
Record reply := mkReply { repStep : Step; repProposal : Proposal; repSummary : Summary }.
#[global] Instance reply_eq_dec : EqDecision reply.
Proof. solve_decision. Defined.

Record state := mkState {
  recs : gmap NodeID recorder;
  procs : gmap nat proposer;
  reserved : gset NodeID;
  hist : list event;
  pool : list reply;
}.
Definition init : state := mkState ∅ ∅ ∅ [] [].

Definition rec_of (s : state) (r : NodeID) : recorder := default emptyRecorder (recs s !! r).
Definition set_rec (s : state) (r : NodeID) (x : recorder) : state :=
  mkState (<[r := x]> (recs s)) (procs s) (reserved s) (hist s) (pool s).
Definition set_proc (s : state) (pid : nat) (p : proposer) : state :=
  mkState (recs s) (<[pid := p]> (procs s)) (reserved s) (hist s) (pool s).
Definition del_proc (s : state) (pid : nat) : state :=
  mkState (recs s) (delete pid (procs s)) (reserved s) (hist s) (pool s).
Definition add_event (s : state) (e : event) : state :=
  mkState (recs s) (procs s) (reserved s) (e :: hist s) (pool s).
Definition add_reply (s : state) (x : reply) : state :=
  mkState (recs s) (procs s) (reserved s) (hist s) (x :: pool s).

(** The recorder stores proposals without their value bytes. *)
Definition strip (p : Proposal) : Proposal := with_value p [].

Definition from_recorder (r : NodeID) (s : Summary) : Summary :=
  mkSummary r (SReconfigurationID s) (SStep s) (SFirstCurrent s) (SAggregatePrior s).

Inductive action :=
| AStart (pid : nat) (node : NodeID) (value : bytes) (recovery : bool)
| AIssue (pid : nat) (draw : Priority)
| ARecord (r : NodeID) (t : Step) (c : Proposal)
| ASync (r : NodeID)
| ASyncDecision (r : NodeID)
| AReply (r : NodeID) (k : nat)
| AReplyDecided (r : NodeID) (t : Step) (c : Proposal)
| ACollect (pid : nat) (summaries : list Summary) (fetched : option bytes)
| AAccept (r : NodeID) (d : Decision)
| AStop (pid : nat)
| ACrash (r : NodeID) (keep : nat) (keepDecision : bool).

Section slot.
Context (cluster : Cluster) (leader : NodeID) (slot : Slot) (sha256 : bytes → ValueHash).

Definition when (b : bool) {A} (x : option A) : option A := if b then x else None.

(** [reserveSlot] hands a slot out as fresh once per process lifetime;
    [recoverThrough] and released slots run without the fast path. *)
Definition do_start (pid : nat) (node : NodeID) (value : bytes) (recovery : bool) (s : state) : option state :=
  when (bool_decide (procs s !! pid = None) && bool_decide (node ∈ member_ids cluster)) (
    let allow := negb recovery && negb (bool_decide (node ∈ reserved s)) in
    let p := mkProposer node allow 4 (newProposal sha256 highestPriority node value) None in
    let s := add_event (set_proc s pid p) (EStart node value) in
    Some (if recovery then s
          else mkState (recs s) (procs s) ({[node]} ∪ reserved s) (hist s) (pool s))).

Definition do_issue (pid : nat) (draw : Priority) (s : state) : option state :=
  match procs s !! pid with
  | None => None
  | Some p =>
      when (bool_decide (pwait p = None) && bool_decide (decided (rec_of s (pnode p)) = None) &&
            Nat.eqb (length draw) 32) (
        let c := candidate (pnode p) leader (pfast p) (pstep p) (pproposal p) draw in
        let p := mkProposer (pnode p) (pfast p) (pstep p) (pproposal p) (Some c) in
        Some (add_event (set_proc s pid p) (ESend (pstep p) c)))
  end.

(** [record] up to the WAL append, for a slot the recorder has not decided. *)
Definition do_record (r : NodeID) (t : Step) (c : Proposal) (s : state) : option state :=
  let x := rec_of s r in
  when (bool_decide (ESend t c ∈ hist s) && bool_decide (r ∈ member_ids cluster) &&
        bool_decide (decided x = None) && (4 <=? t)) (
    Some (set_rec s r (mkRecorder (mem x ++ [(t, strip c)]) (durableLen x) (decided x) (durable x)))).

Definition do_sync (r : NodeID) (s : state) : option state :=
  let x := rec_of s r in
  Some (set_rec s r (mkRecorder (mem x) (length (mem x)) (decided x) (durable x))).

Definition do_sync_decision (r : NodeID) (s : state) : option state :=
  let x := rec_of s r in
  when (negb (bool_decide (decided x = None))) (
    Some (set_rec s r (mkRecorder (mem x) (length (mem x)) (decided x) true))).

(** The reply to receipt [k], sent once the receipt is synced. *)
Definition do_reply (r : NodeID) (k : nat) (s : state) : option state :=
  let x := rec_of s r in
  when (Nat.ltb k (durableLen x) && bool_decide (r ∈ member_ids cluster)) (
    match mem x !! k with
    | None => None
    | Some (t, q) =>
        Some (add_reply s (mkReply t q
          (from_recorder r (Record_ (register (take k (mem x))) t q).2)))
    end).

(** [record] on a decided slot: the decision is made durable first. *)
Definition do_reply_decided (r : NodeID) (t : Step) (c : Proposal) (s : state) : option state :=
  let x := rec_of s r in
  when (bool_decide (ESend t c ∈ hist s) && durable x && bool_decide (r ∈ member_ids cluster)) (
    match decided x with
    | None => None
    | Some d =>
        Some (add_reply s (mkReply t (strip c)
          (mkSummary r zeroHash (Z.max (DStep d) t) (Some (DProposal d)) (Some (DProposal d)))))
    end).

Definition verified_fetch (fetched : option bytes) (h : ValueHash) (_ : list NodeID) : option bytes :=
  match fetched with
  | Some v => if bool_decide (sha256 v = h) then Some v else None
  | None => None
  end.

Definition collectable (s : state) (t : Step) (c : Proposal) (summaries : list Summary) : bool :=
  forallb (λ x, bool_decide (mkReply t (strip c) x ∈ pool s)) summaries &&
  bool_decide (NoDup (RecorderID <$> summaries)) &&
  forallb (λ x, bool_decide (RecorderID x ∈ member_ids cluster)) summaries &&
  (Z.of_nat (length summaries) =? QuorumSize cluster).

(** [recordQuorum] returned [summaries]; the rest of the loop body runs. *)
Definition do_collect (pid : nat) (summaries : list Summary) (fetched : option bytes) (s : state) : option state :=
  match procs s !! pid with
  | None => None
  | Some p =>
      match pwait p with
      | None => None
      | Some c =>
          when (collectable s (pstep p) c summaries) (
            match processSummaries (verified_fetch fetched) slot (pstep p) (pproposal p) summaries with
            | Continue t q => Some (set_proc s pid (mkProposer (pnode p) (pfast p) t q None))
            | Decided d => Some (add_event (del_proc s pid) (EDecide d))
            | Failed _ => Some (del_proc s pid)
            end)
      end
  end.

(** [acceptDecision] of a slot not yet decided locally. *)
Definition do_accept (r : NodeID) (d : Decision) (s : state) : option state :=
  let x := rec_of s r in
  when (bool_decide (EDecide d ∈ hist s) && bool_decide (decided x = None)) (
    Some (set_rec s r (mkRecorder (mem x) (durableLen x) (Some d) false))).

(** A crash loses a suffix of the unsynced receipts and every goroutine, and it
    may lose the decision, also one the replica takes for durable: recovery
    marks every decision it replays, synced or not, and a later power failure
    can still take an unsynced one.
    Startup recovery re-drives the slots its own WAL mentions, without the
    fast path, before new proposals; other slots are fresh again. *)
Definition do_crash (r : NodeID) (keep : nat) (keepDecision : bool) (s : state) : option state :=
  let x := rec_of s r in
  when (Nat.leb (durableLen x) keep && Nat.leb keep (length (mem x))) (
    let d := if keepDecision then decided x else None in
    let x' := mkRecorder (take keep (mem x)) (durableLen x) d (negb (bool_decide (d = None))) in
    let known := negb (Nat.eqb keep 0) || durable x' in
    Some (mkState (<[r := x']> (recs s)) (filter (λ '(_, p), pnode p ≠ r) (procs s))
      (if known then {[r]} ∪ reserved s else reserved s ∖ {[r]}) (hist s) (pool s))).

Definition apply (a : action) (s : state) : option state :=
  match a with
  | AStart pid node value recovery => do_start pid node value recovery s
  | AIssue pid draw => do_issue pid draw s
  | ARecord r t c => do_record r t c s
  | ASync r => do_sync r s
  | ASyncDecision r => do_sync_decision r s
  | AReply r k => do_reply r k s
  | AReplyDecided r t c => do_reply_decided r t c s
  | ACollect pid summaries fetched => do_collect pid summaries fetched s
  | AAccept r d => do_accept r d s
  | AStop pid => Some (del_proc s pid)
  | ACrash r keep keepDecision => do_crash r keep keepDecision s
  end.

Fixpoint run (acts : list action) (s : state) : option state :=
  match acts with
  | [] => Some s
  | a :: acts' => match apply a s with None => None | Some s' => run acts' s' end
  end.

Inductive reachable : state → Prop :=
| reach_init : reachable init
| reach_step s a s' : reachable s → apply a s = Some s' → reachable s'.

Lemma run_reachable acts s s' : reachable s → run acts s = Some s' → reachable s'.
Proof.
  revert s. induction acts as [|a acts IH]; intros s Hs; simpl; [by intros [= ->]|].
  destruct (apply a s) as [s1|] eqn:E; [|done]. apply IH. by eapply reach_step.
Qed.
End slot.

Lemma rec_of_set s r x r' :
  rec_of (set_rec s r x) r' = if decide (r = r') then x else rec_of s r'.
Proof.
  unfold rec_of, set_rec. simpl. case_decide; subst.
  - by rewrite lookup_insert_eq.
  - by rewrite lookup_insert_ne.
Qed.

(** The decisions reached so far by any proposer of the slot. *)
Definition decisions (s : state) : list Decision :=
  omap (λ e, match e with EDecide d => Some d | _ => None end) (hist s).

Lemma decisions_spec s d : d ∈ decisions s ↔ EDecide d ∈ hist s.
Proof.
  unfold decisions. rewrite list_elem_of_omap. split.
  - intros ([| |d'] & ? & ?); by simplify_eq.
  - intros ?. by exists (EDecide d).
Qed.
