(* ===== verification/Safety.v ===== *)
(** * Safety of a consensus slot

    The invariant that links the transition system of [Consensus] to the
    evidence argument of [Agreement], and the theorems about reachable
    states: agreement, validity, and when the fast path is safe. *)

From stdpp Require Import gmap list sorting.
From S2P Require Import Prelude Protocol Register Cluster Proposer Agreement Consensus.

Definition durable_log (s : state) (r : NodeID) : rlog :=
  take (durableLen (rec_of s r)) (mem (rec_of s r)).

Section invariant.
Context (cluster : Cluster) (leader : NodeID) (slot : Slot) (sha256 : bytes → ValueHash).
Implicit Types (D : NodeID → rlog) (h : list event).

Definition proc_ok D h (p : proposer) : Prop :=
  holds cluster sha256 D h (pstep p) (pproposal p) ∧
  ∀ c, pwait p = Some c → cand (pstep p) (pproposal p) c ∧ ESend (pstep p) c ∈ h.

Definition rec_ok h (x : recorder) : Prop :=
  sent_before h (mem x) ∧ valid_log (mem x) ∧ (durableLen x <= length (mem x))%nat ∧
  ∀ d, decided x = Some d → EDecide d ∈ h.

Definition reply_valid D h (x : reply) : Prop :=
  reply_ok D h (RecorderID (repSummary x)) (repStep x) (repProposal x) (repSummary x) ∧
  SStep (repSummary x) < 2 ^ 64.

Record Inv (s : state) : Prop := {
  inv_chain : chain cluster sha256 (durable_log s) (hist s);
  inv_procs : ∀ pid p, procs s !! pid = Some p → proc_ok (durable_log s) (hist s) p;
  inv_recs : ∀ r, rec_ok (hist s) (rec_of s r);
  inv_pool : ∀ x, x ∈ pool s → reply_valid (durable_log s) (hist s) x;
}.

Lemma proc_ok_grow D D' h h' p :
  (∀ r, D r `prefix_of` D' r) → h ⊆ h' → proc_ok D h p → proc_ok D' h' p.
Proof.
  intros HD Hh [Hp Hw]. split; [by eapply holds_grow|].
  intros c Hc. destruct (Hw c Hc). auto.
Qed.

Lemma rec_ok_grow h h' x : h ⊆ h' → rec_ok h x → rec_ok h' x.
Proof.
  intros Hh (Hs & ? & ? & Hd). split_and!; auto.
  intros t q Hq. destruct (Hs t q Hq) as (c & ? & ?). eauto.
Qed.

Lemma reply_valid_grow D D' h h' x :
  (∀ r, D r `prefix_of` D' r) → h ⊆ h' → reply_valid D h x → reply_valid D' h' x.
Proof. intros HD Hh [??]. split; [by eapply reply_ok_grow|done]. Qed.

(** Durable logs and history grow, proposers and replies are old ones. *)
Lemma Inv_frame s s' :
  Inv s → hist s' = hist s →
  (∀ r, durable_log s r `prefix_of` durable_log s' r) →
  procs s' ⊆ procs s → pool s' ⊆ pool s → (∀ r, rec_ok (hist s) (rec_of s' r)) → Inv s'.
Proof.
  intros [Hc Hp Hr Hpool] Hh HD Hps Hpl Hrec. split; rewrite ?Hh.
  - by eapply chain_grow.
  - intros pid p E. eapply proc_ok_grow; [done..|]. eapply Hp. by eapply lookup_weaken.
  - done.
  - intros x Hx. eapply reply_valid_grow; [done..|]. auto.
Qed.

Lemma Inv_event s e :
  Inv s → justified cluster sha256 (durable_log s) (hist s) e → Inv (add_event s e).
Proof.
  intros [Hc Hp Hr Hpool] He. assert (hist s ⊆ e :: hist s) by set_solver.
  split; simpl.
  - done.
  - intros pid p E. eapply proc_ok_grow; [reflexivity|done|]. eauto.
  - intros r. eapply rec_ok_grow; [done|]. apply Hr.
  - intros x Hx. eapply reply_valid_grow; [reflexivity|done|]. auto.
Qed.

Lemma Inv_proc s pid p :
  Inv s → proc_ok (durable_log s) (hist s) p → Inv (set_proc s pid p).
Proof.
  intros [Hc Hp Hr Hpool] Hok. split; simpl; try done.
  intros pid' p' [[<- <-]|[_ ?]]%lookup_insert_Some; [done|]. eauto.
Qed.

Lemma Inv_del s pid : Inv s → Inv (del_proc s pid).
Proof.
  intros HI. apply (Inv_frame s); try done; [apply delete_subseteq|]. intros r. apply HI.
Qed.

Lemma Inv_reply s x :
  Inv s → reply_valid (durable_log s) (hist s) x → Inv (add_reply s x).
Proof.
  intros [Hc Hp Hr Hpool] Hok. split; simpl; try done.
  intros y [->|?]%elem_of_cons; auto.
Qed.

Lemma Inv_init : Inv init.
Proof.
  constructor; simpl.
  - done.
  - intros pid p E. by rewrite lookup_empty in E.
  - intros r. unfold rec_of. simpl. rewrite lookup_empty.
    split; [by intros t q ?%elem_of_nil|]. split; [constructor|done].
  - by intros x ?%elem_of_nil.
Qed.

(** Replacing one recorder keeps the invariant when its durable prefix grows. *)
Lemma Inv_rec s r x :
  Inv s → rec_ok (hist s) x →
  take (durableLen (rec_of s r)) (mem (rec_of s r)) `prefix_of` take (durableLen x) (mem x) →
  Inv (set_rec s r x).
Proof.
  intros HI Hok Hpre. apply (Inv_frame s); try done.
  - intros r'. unfold durable_log. rewrite rec_of_set. by case_decide; subst.
  - intros r'. rewrite rec_of_set. case_decide; [done|]. apply HI.
Qed.

(** ** The actions preserve the invariant *)

Lemma candidate_cand node fast t p draw :
  length draw = 32%nat → 4 <= t →
  cand t p (candidate node leader fast t p draw).
Proof.
  intros Hlen Ht. unfold candidate, cand.
  destruct (Z.eqb_spec (t mod 4) 0) as [E|E]; simpl; [|by left; auto].
  destruct ((t >? 4) || _ || _) eqn:Hb.
  - right. split; [done|]. exists (randomPriority draw). split_and!; [| |done].
    + by apply randomPriority_ne.
    + by rewrite randomPriority_length.
  - left. split; [done|]. right. bool_hyps. rewrite Z.gtb_ltb in *. bool_hyps. lia.
Qed.

Lemma do_start_Inv pid node value recovery s s' :
  Inv s → do_start cluster sha256 pid node value recovery s = Some s' → Inv s'.
Proof.
  unfold do_start, when. intros HI. destruct (_ && _); [|done]. intros [= <-].
  set (p := mkProposer _ _ _ _ _).
  assert (Inv (set_proc (add_event s (EStart node value)) pid p)) as H.
  { apply Inv_proc; [by apply Inv_event|]. split; [|done]. apply holds_start. simpl. by left. }
  destruct recovery; [done|]. destruct H as [Hc Hp Hr Hpl]. by split.
Qed.

Lemma do_issue_Inv pid draw s s' :
  Inv s → do_issue leader pid draw s = Some s' → Inv s'.
Proof.
  unfold do_issue, when. intros HI. destruct (procs s !! pid) as [p|] eqn:Ep; [|done].
  destruct (_ && _) eqn:Hg; [|done]. intros [= <-]. bool_hyps. apply Nat.eqb_eq in H0.
  destruct (inv_procs _ HI _ _ Ep) as [Hh Hw].
  set (c := candidate _ _ _ _ _ _).
  assert (cand (pstep p) (pproposal p) c) as Hc.
  { apply candidate_cand; [done|]. apply holds_valid in Hh. unfold valid_step in Hh. lia. }
  change (Inv (set_proc (add_event s (ESend (pstep p) c)) pid
    (mkProposer (pnode p) (pfast p) (pstep p) (pproposal p) (Some c)))).
  apply Inv_proc.
  - apply Inv_event; [done|]. by exists (pproposal p).
  - split; simpl.
    + eapply holds_mono; [|done]. set_solver.
    + intros c' [= <-]. split; [done|]. by left.
Qed.

Lemma strip_peq p : Some (strip p) ≈p Some p.
Proof. by apply peq_fields. Qed.

Lemma do_record_Inv r t c s s' :
  Inv s → do_record cluster r t c s = Some s' → Inv s'.
Proof.
  unfold do_record, when. intros HI. destruct (_ && _) eqn:Hg; [|done]. intros [= <-]. bool_hyps.
  destruct (inv_recs _ HI r) as (Hs & Hv & Hlen & Hd).
  assert (valid_step t) as Ht.
  { destruct (justified_chain _ _ _ _ _ (inv_chain _ HI) H) as (_ & g & _ & (p & Hp & _) & _).
    by apply holds_valid in Hp. }
  apply Inv_rec; [done| |].
  - split_and!; simpl; [|by apply Forall_app; auto| |done].
    + intros t' q [?|Hq]%elem_of_app; [auto|]. apply list_elem_of_singleton in Hq as [= -> ->].
      exists c. split; [done|]. apply strip_peq.
    + rewrite length_app. lia.
  - simpl. by rewrite take_app_le by lia.
Qed.

Lemma sync_prefix n (l : rlog) : take n l `prefix_of` take (length l) l.
Proof. rewrite (firstn_all l). exists (drop n l). by rewrite take_drop. Qed.

Lemma do_sync_Inv r s s' : Inv s → do_sync r s = Some s' → Inv s'.
Proof.
  intros HI [= <-]. destruct (inv_recs _ HI r) as (? & ? & ? & ?).
  apply Inv_rec; [done| |apply sync_prefix]. by split_and!.
Qed.

Lemma do_sync_decision_Inv r s s' : Inv s → do_sync_decision r s = Some s' → Inv s'.
Proof.
  intros HI. unfold do_sync_decision, when. destruct (negb _); [|done]. intros [= <-].
  destruct (inv_recs _ HI r) as (? & ? & ? & ?).
  apply Inv_rec; [done| |apply sync_prefix]. by split_and!.
Qed.

Lemma do_accept_Inv r d s s' : Inv s → do_accept r d s = Some s' → Inv s'.
Proof.
  intros HI. unfold do_accept, when. destruct (_ && _) eqn:Hg; [|done]. intros [= <-]. bool_hyps.
  destruct (inv_recs _ HI r) as (? & ? & ? & ?).
  apply Inv_rec; [done| |done]. split_and!; try done. simpl. by intros d' [= <-].
Qed.

Lemma do_crash_Inv r keep keepD s s' : Inv s → do_crash r keep keepD s = Some s' → Inv s'.
Proof.
  intros HI. unfold do_crash, when. destruct (_ && _) eqn:Hg; [|done]. intros [= <-]. bool_hyps.
  apply Nat.leb_le in H, H0. destruct (inv_recs _ HI r) as (Hs & Hv & Hlen & Hd).
  set (x := mkRecorder _ _ _ _).
  assert (Inv (set_rec s r x)) as HI'.
  { apply Inv_rec; [done| |].
    - split_and!; simpl.
      + intros t q Hq. apply Hs. by eapply subseteq_take.
      + by apply Forall_take.
      + rewrite length_take. lia.
      + intros d. destruct keepD; [apply Hd|done].
    - simpl. rewrite take_take. by rewrite Nat.min_l by lia. }
  apply (Inv_frame (set_rec s r x)); try done; [apply map_filter_subseteq|].
  intros r'. apply HI'.
Qed.

Lemma do_reply_Inv r k s s' : Inv s → do_reply cluster r k s = Some s' → Inv s'.
Proof.
  intros HI. unfold do_reply, when. destruct (_ && _) eqn:Hg; [|done]. bool_hyps.
  apply Nat.ltb_lt in H. destruct (inv_recs _ HI r) as (Hs & Hv & Hlen & _).
  destruct (mem (rec_of s r) !! k) as [[t q]|] eqn:Ek; [|done]. intros <-%Some_inj.
  set (m := mem (rec_of s r)) in *.
  assert (take (S k) m = take k m ++ [(t, q)]) as Etake by by apply take_S_r.
  assert (valid_log (take k m) ∧ valid_step t) as [Hv1 Hv2].
  { split; [by apply Forall_take|]. by apply (Forall_lookup_1 _ _ _ _ Hv Ek). }
  assert (valid_log (take k m ++ [(t, q)])) as Hv3 by (apply Forall_app; auto).
  apply Inv_reply; [done|]. pose proof (Record_reply (take k m) t q Hv1 Hv2) as Hrep.
  rewrite Hrep. split; simpl.
  - left. exists (take k m), q. split_and!; try done.
    + rewrite <-Etake. unfold durable_log. fold m.
      replace (take (S k) m) with (take (S k) (take (durableLen (rec_of s r)) m)).
      * by eexists; rewrite take_drop.
      * rewrite take_take. f_equal. lia.
    + rewrite <-Etake. intros t' q' Hq. apply Hs. by eapply subseteq_take.
  - by apply last_step_valid.
Qed.

Lemma do_reply_decided_Inv r t c s s' :
  Inv s → do_reply_decided cluster r t c s = Some s' → Inv s'.
Proof.
  intros HI. unfold do_reply_decided, when. destruct (_ && _) eqn:Hg; [|done]. bool_hyps.
  destruct (inv_recs _ HI r) as (_ & _ & _ & Hd).
  destruct (decided (rec_of s r)) as [d|] eqn:Ed; [|done]. intros [= <-].
  apply Inv_reply; [done|]. split; simpl.
  - right. exists d. auto.
  - destruct (justified_chain _ _ _ _ _ (inv_chain _ HI) (Hd d eq_refl)) as (_ & g & _ & (p & ? & ? & Hp & _) & _).
    destruct (justified_chain _ _ _ _ _ (inv_chain _ HI) H) as (_ & g' & _ & (p' & Hp' & _) & _).
    apply holds_valid in Hp, Hp'. unfold valid_step in *. lia.
Qed.

Lemma collectable_quorum s t c summaries :
  Inv s → collectable cluster s t c summaries = true →
  quorum_replies cluster (durable_log s) (hist s) t c summaries ∧
  ∀ x, x ∈ summaries → SStep x < 2 ^ 64.
Proof.
  intros HI H. unfold collectable in H. bool_hyps.
  rewrite forallb_forall in *.
  assert (∀ x, x ∈ summaries → reply_valid (durable_log s) (hist s) (mkReply t (strip c) x)) as Hx.
  { intros x Hx. apply (inv_pool _ HI). eapply bool_decide_eq_true, H. by apply list_elem_of_In. }
  split; [|intros x ?; by apply Hx]. split.
  - split_and!; [done| |rewrite length_fmap; lia].
    intros r (x & -> & Hin)%list_elem_of_fmap. eapply bool_decide_eq_true, H1. by apply list_elem_of_In.
  - intros x Hin. eapply reply_ok_peq; [apply strip_peq|]. by apply Hx.
Qed.

Lemma do_collect_Inv pid summaries fetched s s' :
  Inv s → do_collect cluster slot sha256 pid summaries fetched s = Some s' → Inv s'.
Proof.
  intros HI. unfold do_collect, when. destruct (procs s !! pid) as [p|] eqn:Ep; [|done].
  destruct (pwait p) as [c|] eqn:Ew; [|done].
  destruct (collectable _ _ _ _ _) eqn:Hcol; [|done].
  destruct (inv_procs _ HI _ _ Ep) as [Hh Hw]. destruct (Hw c Ew) as [Hcand Hsent].
  destruct (collectable_quorum _ _ _ _ HI Hcol) as [Hq Hlt].
  pose proof (holds_valid _ _ _ _ _ _ Hh) as Hv. unfold valid_step in Hv.
  destruct (processSummaries _ _ _ _ _) as [t q|d|e] eqn:Eo; intros [= <-].
  - apply processSummaries_Continue in Eo as [Hup ?]; [|lia|done].
    apply Inv_proc; [done|]. split; [|done]. simpl. by eapply holds_up.
  - apply processSummaries_Decided in Eo as (Hby & Hst & _).
    apply Inv_event; [by apply Inv_del|]. exists (pproposal p), c, summaries. by rewrite Hst.
  - by apply Inv_del.
Qed.

Theorem apply_Inv a s s' : Inv s → apply cluster leader slot sha256 a s = Some s' → Inv s'.
Proof.
  intros HI. destruct a; simpl.
  - by apply do_start_Inv.
  - by apply do_issue_Inv.
  - by apply do_record_Inv.
  - by apply do_sync_Inv.
  - by apply do_sync_decision_Inv.
  - by apply do_reply_Inv.
  - by apply do_reply_decided_Inv.
  - by apply do_collect_Inv.
  - by apply do_accept_Inv.
  - intros [= <-]. by apply Inv_del.
  - by apply do_crash_Inv.
Qed.

Lemma reachable_Inv s : reachable cluster leader slot sha256 s → Inv s.
Proof. induction 1; [apply Inv_init|]. by eapply apply_Inv. Qed.
End invariant.

(** ** Agreement *)

Section agreement.
Context (cluster : Cluster) (leader : NodeID) (slot : Slot) (sha256 : bytes → ValueHash).

Lemma reachable_agreement s d d' :
  reachable cluster leader slot sha256 s → unique_high (hist s) →
  d ∈ decisions s → d' ∈ decisions s → Hash (DProposal d) = Hash (DProposal d').
Proof.
  rewrite !decisions_spec. intros Hr Hu Hd Hd'. apply reachable_Inv in Hr.
  eapply chain_agreement; eauto. apply Hr.
Qed.

(** Executions in which the leader never forgets that it already offered a
    value for the slot. *)
Inductive steady : state → Prop :=
| steady_init : steady init
| steady_step s a s' :
    steady s → apply cluster leader slot sha256 a s = Some s' →
    (leader ∈ reserved s → leader ∈ reserved s') → steady s'.

Lemma steady_reachable s : steady s → reachable cluster leader slot sha256 s.
Proof. induction 1; [constructor|]. by eapply reach_step. Qed.

(** At most one highest-priority offer, remembered in [o]. *)
Definition one_offer (s : state) (o : option Proposal) : Prop :=
  (leader ∉ reserved s → o = None) ∧
  (∀ pid p, procs s !! pid = Some p → pfast p = true → pnode p = leader → pstep p = 4 →
     o = Some (pproposal p)) ∧
  (∀ c, ESend 4 c ∈ hist s → Priority_ c = highestPriority → o = Some c).

Lemma one_offer_frame s s' o :
  one_offer s o → (leader ∈ reserved s → leader ∈ reserved s') →
  hist s' = hist s → procs s' ⊆ procs s → one_offer s' o.
Proof.
  intros (H1 & H2 & H3) Hres Hh Hp. split_and!; [auto| |by rewrite Hh].
  intros pid p E. apply (H2 pid). by eapply lookup_weaken.
Qed.

Lemma do_start_offer pid node value recovery s s' o :
  one_offer s o → do_start cluster sha256 pid node value recovery s = Some s' →
  ∃ o', one_offer s' o'.
Proof.
  intros (H1 & H2 & H3). unfold do_start, when. destruct (_ && _) eqn:Hg; [|done]. bool_hyps.
  set (new := newProposal sha256 highestPriority node value).
  destruct (decide (node = leader ∧ recovery = false ∧ leader ∉ reserved s)) as [(-> & -> & Hnot)|Hno];
    intros [= <-].
  - exists (Some new). specialize (H1 Hnot) as ->. split_and!; simpl.
    + set_solver.
    + intros pid' p [[<- <-]|[_ E]]%lookup_insert_Some; [done|]. intros Hf Hn Hs.
      by specialize (H2 _ _ E Hf Hn Hs).
    + intros c [?|Hc]%elem_of_cons Hp; [done|]. by specialize (H3 _ Hc Hp).
  - exists o. assert (∀ pid' p, (<[pid := mkProposer node (negb recovery && negb (bool_decide (node ∈ reserved s)))
       4 new None]> (procs s)) !! pid' = Some p → pfast p = true → pnode p = leader → pstep p = 4 →
       o = Some (pproposal p)) as Hp.
    { intros pid' p [[<- <-]|[_ E]]%lookup_insert_Some; [|eauto]. simpl. intros Hf -> _. bool_hyps.
      destruct Hno. destruct recovery; [done|]. auto. }
    destruct recovery; split_and!; simpl; try done.
    + intros c [?|Hc]%elem_of_cons Hh; [done|]. auto.
    + intros Hn. apply H1. set_solver.
    + intros c [?|Hc]%elem_of_cons Hh; [done|]. auto.
Qed.

Lemma do_issue_offer pid draw s s' o :
  one_offer s o → do_issue leader pid draw s = Some s' → ∃ o', one_offer s' o'.
Proof.
  intros (H1 & H2 & H3). unfold do_issue, when. destruct (procs s !! pid) as [p|] eqn:Ep; [|done].
  destruct (_ && _) eqn:Hg; [|done]. bool_hyps. apply Nat.eqb_eq in H0. intros [= <-].
  exists o. split_and!; simpl; [done| |].
  - intros pid' p' [[<- <-]|[_ E]]%lookup_insert_Some; simpl; eauto.
  - intros c [[= Hst ->]|Hc]%elem_of_cons Hp; [|auto]. rewrite <-Hst in *.
    revert Hp. unfold candidate.
    destruct (bool_decide_reflect (pnode p = leader)) as [El|]; simpl;
      [destruct (pfast p) eqn:Ef; simpl|].
    2-3: intros []%randomPriority_ne; done.
    intros _. by apply (H2 pid).
Qed.

Lemma do_collect_offer pid summaries fetched s s' o :
  Inv cluster sha256 s → one_offer s o →
  do_collect cluster slot sha256 pid summaries fetched s = Some s' → ∃ o', one_offer s' o'.
Proof.
  intros HI Ho. pose proof Ho as (H1 & H2 & H3). unfold do_collect, when.
  destruct (procs s !! pid) as [p|] eqn:Ep; [|done]. destruct (pwait p) as [c|] eqn:Ew; [|done].
  destruct (collectable _ _ _ _ _) eqn:Hcol; [|done].
  destruct (inv_procs _ _ _ HI _ _ Ep) as [Hh _].
  destruct (collectable_quorum _ _ _ _ _ _ HI Hcol) as [Hq Hlt].
  pose proof (holds_valid _ _ _ _ _ _ Hh) as Hv. unfold valid_step in Hv.
  destruct (processSummaries _ _ _ _ _) as [t q|d|e] eqn:Eo; intros [= <-]; exists o.
  - apply processSummaries_Continue in Eo as [Hup ?]; [|lia|done]. apply step_up_lt in Hup.
    split_and!; simpl; [done| |done].
    intros pid' p' [[<- <-]|[_ E]]%lookup_insert_Some; simpl; [lia|eauto].
  - split_and!; simpl; [done| |].
    + intros pid' p' [_ E]%lookup_delete_Some. eauto.
    + intros c' [?|?]%elem_of_cons; [done|]. auto.
  - apply (one_offer_frame s); [done|done|done|apply delete_subseteq].
Qed.

Lemma steady_offer s : steady s → ∃ o, one_offer s o.
Proof.
  induction 1 as [|s a s' Hs [o Ho] Ha Hres].
  { exists None. split_and!; [done| |by intros c ?%elem_of_nil]. intros pid p E. simpl in E. by rewrite lookup_empty in E. }
  pose proof (reachable_Inv _ _ _ _ _ (steady_reachable _ Hs)) as HI.
  assert (hist s' = hist s → procs s' ⊆ procs s → ∃ o, one_offer s' o) as Hframe.
  { intros. exists o. by apply (one_offer_frame s). }
  destruct a; simpl in Ha; [by eapply do_start_offer|by eapply do_issue_offer| | | | | |
    by eapply do_collect_offer| | |].
  all: unfold do_record, do_sync, do_sync_decision, do_reply, do_reply_decided, do_accept,
    do_crash, when in Ha; case_all; simplify_eq/=; apply Hframe;
    first [done|apply delete_subseteq|apply map_filter_subseteq].
Qed.

Lemma steady_unique_high s : steady s → unique_high (hist s).
Proof.
  intros [o (_ & _ & Ho)]%steady_offer c c' Hc Hc' Hp Hp'.
  pose proof (Ho c Hc Hp). pose proof (Ho c' Hc' Hp'). simplify_eq. done.
Qed.
End agreement.
