(* ===== verification/Values.v ===== *)
(** * Values behind the hashes

    Recorders exchange proposals without their value bytes; [hydrateProposal]
    puts bytes back after checking their hash.  In every reachable state the
    value carried by a held, sent or decided proposal hashes to its hash. *)

From stdpp Require Import gmap list sorting.
From S2P Require Import Prelude Protocol Register Cluster Proposer Agreement Consensus.

Section values.
Context (cluster : Cluster) (leader : NodeID) (slot : Slot) (sha256 : bytes → ValueHash).

Definition hashed (p : Proposal) : Prop := sha256 (Value p) = Hash p.
Definition value_ok (o : option Proposal) : Prop := ∀ p, o = Some p → Value p = [] ∨ hashed p.

Lemma hydrate_hashed fetched p sources q :
  value_ok (Some p) → hydrateProposal (verified_fetch sha256 fetched) p sources = Some q → hashed q.
Proof.
  intros Hp. unfold hydrateProposal. case_bool_decide as Hv.
  - unfold verified_fetch. destruct fetched as [v|]; [|done]. case_bool_decide; [|done].
    by intros [= <-].
  - intros [= <-]. by destruct (Hp p eq_refl).
Qed.

Lemma hydrate_then_hashed fetched p sources k (P : outcome → Prop) :
  value_ok (Some p) → P (Failed ErrValueUnavailable) → (∀ q, hashed q → P (k q)) →
  P (hydrate_then (verified_fetch sha256 fetched) p sources k).
Proof.
  intros Hp HF Hk. unfold hydrate_then. destruct (hydrateProposal _ _ _) eqn:E; [|done].
  eauto using hydrate_hashed.
Qed.

Lemma fastScan_first fast first l b p :
  fastScan fast first l = Some (b, Some p) → first = Some p ∨ Some p ∈ SFirstCurrent <$> l.
Proof.
  revert fast first. induction l as [|s l IH]; intros fast first; simpl; [by intros [= -> ->]; left|].
  destruct first as [f|].
  - destruct (_ && negb _); [done|]. intros [?|?]%IH; [by left|right; set_solver].
  - intros [?|?]%IH; right; set_solver.
Qed.

Definition outcome_hashed (o : outcome) : Prop :=
  match o with Continue _ q => hashed q | Decided d => hashed (DProposal d) | Failed _ => True end.

Lemma advance_hashed t q : hashed q → outcome_hashed (advance t q).
Proof. intros. unfold advance. by destruct (_ <? _). Qed.

Lemma max_value_ok l : (∀ o, o ∈ l → value_ok o) → value_ok (maxProposal l).
Proof. intros Hl. destruct (maxProposal_elem l) as [->|?]; [done|auto]. Qed.

Lemma processSummaries_hashed fetched t p replies :
  hashed p →
  (∀ s, s ∈ replies → value_ok (SFirstCurrent s) ∧ value_ok (SAggregatePrior s)) →
  outcome_hashed (processSummaries (verified_fetch sha256 fetched) slot t p replies).
Proof.
  intros Hp Hr. unfold processSummaries.
  assert (∀ s, s ∈ sortSummaries replies → value_ok (SFirstCurrent s) ∧ value_ok (SAggregatePrior s)) as Hsort.
  { intros s Hs. apply Hr. by apply (sortSummaries_elem replies s). }
  assert (∀ o, o ∈ SFirstCurrent <$> sortSummaries replies → value_ok o) as HF.
  { intros o (s & -> & ?)%list_elem_of_fmap. by apply Hsort. }
  assert (∀ o, o ∈ SAggregatePrior <$> sortSummaries replies → value_ok o) as HA.
  { intros o (s & -> & ?)%list_elem_of_fmap. by apply Hsort. }
  pose proof (max_value_ok _ HF) as Hmf. rewrite <-maxFirst_spec in Hmf.
  pose proof (max_value_ok _ HA) as Hmp. rewrite <-maxPrior_spec in Hmp.
  destruct (negb _).
  { destruct (caughtUp _ _) as [c|] eqn:Ec; [|done]. apply caughtUp_Some in Ec as [Hc _].
    destruct (SFirstCurrent c) as [f|] eqn:Ef; [|done].
    apply hydrate_then_hashed; [|done..]. rewrite <-Ef. by apply Hsort. }
  destruct (_ =? 0).
  { assert (outcome_hashed (match maxFirst (sortSummaries replies) with
      | None => Failed ErrEmptyProposalSet
      | Some best => hydrate_then (verified_fetch sha256 fetched) best
          (summarySources (sortSummaries replies)) (advance t) end)) as Hslow.
    { destruct (maxFirst _); [|done]. apply hydrate_then_hashed; [done..|]. apply advance_hashed. }
    destruct (fastScan _ _ _) as [[[|] [f|]]|] eqn:Ef; try done.
    apply hydrate_then_hashed; [|done..].
    apply fastScan_first in Ef as [?|?]; [done|]. auto. }
  destruct (_ =? 1); [by apply advance_hashed|].
  destruct (_ =? 2); [destruct (sameProposal _ _); [done|by apply advance_hashed]|].
  destruct (maxPrior _); [|done]. apply hydrate_then_hashed; [done..|]. apply advance_hashed.
Qed.

Lemma candidate_hashed node fast t p draw :
  hashed p → hashed (candidate node leader fast t p draw).
Proof. unfold candidate. by destruct (_ && _). Qed.

(** ** Registers only hold stripped proposals *)

Definition stripped_log (log : rlog) : Prop := Forall (λ r, Value r.2 = []) log.

Definition stripped_isr (st : ISR) : Prop :=
  ∀ p, p ∈ [FirstCurrent st; AggregateCurrent st; AggregatePrior st] →
    ∀ q, p = Some q → Value q = [].

Lemma Record_stripped st t q :
  stripped_isr st → Value q = [] → stripped_isr (Record_ st t q).1.
Proof.
  intros Hst Hq. unfold Record_. simpl.
  assert (∀ x y, maxProposal [x; Some y] = Some y ∨ maxProposal [x; Some y] = x) as Hmax.
  { intros x y. destruct (maxProposal_elem [x; Some y]) as [E|E]; [|set_solver].
    exfalso. apply (ple_Some_None y). rewrite <-E. apply maxProposal_ub. set_solver. }
  unfold stripped_isr in *. destruct (_ =? _); simpl.
  - intros p Hp x ->. destruct (Hmax (AggregateCurrent st) q) as [E|E]; rewrite E in Hp.
    + apply elem_of_cons in Hp as [Hp|[[= ->]|Hp]%elem_of_cons]; [|done|];
        apply (Hst (Some x)); set_solver.
    + apply (Hst (Some x)); set_solver.
  - destruct (_ >? _); [|done]. intros p Hp x ->. simpl in Hp.
    destruct (_ =? _); apply elem_of_cons in Hp as [[= ->]|[[= ->]|Hp]%elem_of_cons]; try done.
    + apply list_elem_of_singleton in Hp. apply (Hst (Some x)); set_solver.
    + by apply list_elem_of_singleton in Hp.
Qed.

Lemma register_stripped log : stripped_log log → stripped_isr (register log).
Proof.
  induction log as [|[t q] log IH] using rev_ind.
  { intros _ p Hp x ->. simpl in Hp. set_solver. }
  unfold stripped_log. rewrite Forall_app, Forall_singleton. intros [? ?].
  rewrite register_snoc. apply Record_stripped; auto.
Qed.

Lemma Record_value_ok log t q :
  stripped_log log → Value q = [] →
  value_ok (SFirstCurrent (Record_ (register log) t q).2) ∧
  value_ok (SAggregatePrior (Record_ (register log) t q).2).
Proof.
  intros Hl Hq. pose proof (Record_stripped _ t q (register_stripped _ Hl) Hq) as H.
  change (SFirstCurrent (Record_ (register log) t q).2) with (FirstCurrent (Record_ (register log) t q).1).
  change (SAggregatePrior (Record_ (register log) t q).2) with (AggregatePrior (Record_ (register log) t q).1).
  split; intros p Hp; left; eapply H; [|done| |done]; set_solver.
Qed.

(** ** The invariant *)

Record VInv (s : state) : Prop := {
  v_procs : ∀ pid p, procs s !! pid = Some p → hashed (pproposal p);
  v_decided : ∀ d, EDecide d ∈ hist s → hashed (DProposal d);
  v_known : ∀ r d, decided (rec_of s r) = Some d → hashed (DProposal d);
  v_recs : ∀ r, stripped_log (mem (rec_of s r));
  v_pool : ∀ x, x ∈ pool s →
    value_ok (SFirstCurrent (repSummary x)) ∧ value_ok (SAggregatePrior (repSummary x));
}.

Lemma VInv_frame s s' :
  VInv s → procs s' ⊆ procs s → (∀ d, EDecide d ∈ hist s' → EDecide d ∈ hist s) →
  (∀ r, stripped_log (mem (rec_of s' r)) ∧
    ∀ d, decided (rec_of s' r) = Some d → hashed (DProposal d)) →
  pool s' ⊆ pool s → VInv s'.
Proof.
  intros [] Hp Hh Hr Hpl. split; auto; [intros pid p E; by eapply v_procs0, lookup_weaken| |];
    intros r; apply Hr.
Qed.

Lemma VInv_rec s r x :
  VInv s → stripped_log (mem x) → (∀ d, decided x = Some d → hashed (DProposal d)) →
  VInv (set_rec s r x).
Proof.
  intros HV Hm Hd. apply (VInv_frame s); try done. intros r'. rewrite rec_of_set.
  case_decide; [done|]. split; [apply HV|]. intros d. by apply (v_known _ HV).
Qed.

Lemma VInv_proc s pid p : VInv s → hashed (pproposal p) → VInv (set_proc s pid p).
Proof.
  intros [] Hp. split; simpl; try done. intros pid' p' [[<- <-]|[_ ?]]%lookup_insert_Some; eauto.
Qed.

Lemma VInv_event s e :
  VInv s → (∀ d, e = EDecide d → hashed (DProposal d)) → VInv (add_event s e).
Proof. intros [] He. split; simpl; try done. intros d [?|?]%elem_of_cons; eauto. Qed.

Lemma VInv_reply s x :
  VInv s → value_ok (SFirstCurrent (repSummary x)) ∧ value_ok (SAggregatePrior (repSummary x)) →
  VInv (add_reply s x).
Proof. intros [] Hx. split; simpl; try done. intros y [->|?]%elem_of_cons; auto. Qed.

Lemma VInv_del s pid : VInv s → VInv (del_proc s pid).
Proof.
  intros HV. apply (VInv_frame s); try done; [apply delete_subseteq|].
  intros r. split; [apply HV|]. intros d. by apply (v_known _ HV).
Qed.

Lemma do_collect_VInv pid summaries fetched s s' :
  VInv s → do_collect cluster slot sha256 pid summaries fetched s = Some s' → VInv s'.
Proof.
  intros HV. unfold do_collect, when. destruct (procs s !! pid) as [p|] eqn:Ep; [|done].
  destruct (pwait p) as [c|]; [|done]. destruct (collectable _ _ _ _ _) eqn:Hcol; [|done].
  unfold collectable in Hcol. bool_hyps. rewrite forallb_forall in H.
  assert (outcome_hashed (processSummaries (verified_fetch sha256 fetched) slot (pstep p) (pproposal p) summaries)) as Ho.
  { apply processSummaries_hashed; [by eapply v_procs|]. intros x Hx.
    apply (v_pool _ HV (mkReply (pstep p) (strip c) x)). eapply bool_decide_eq_true, H.
    by apply list_elem_of_In. }
  destruct (processSummaries _ _ _ _ _); intros [= <-].
  - by apply VInv_proc.
  - apply VInv_event; [by apply VInv_del|]. intros d' [= ->]. done.
  - by apply VInv_del.
Qed.

Lemma do_reply_VInv r k s s' : VInv s → do_reply cluster r k s = Some s' → VInv s'.
Proof.
  intros HV. unfold do_reply, when. destruct (_ && _); [|done].
  destruct (mem (rec_of s r) !! k) as [[t q]|] eqn:Ek; [|done]. intros <-%Some_inj.
  pose proof (v_recs _ HV r) as Hs. apply VInv_reply; [done|].
  apply Record_value_ok; [by apply Forall_take|]. apply (Forall_lookup_1 _ _ _ _ Hs Ek).
Qed.

Lemma apply_VInv a s s' : VInv s → apply cluster leader slot sha256 a s = Some s' → VInv s'.
Proof.
  intros HV. destruct a as [pid node value recovery|pid draw|r t c|r|r|r k|r t c|pid sums f|r d|pid|r keep kd];
    simpl; unfold do_start, do_issue, do_record, do_sync, do_sync_decision, do_reply_decided,
      do_accept, do_crash, when.
  - destruct (_ && _); [|done]. intros [= <-].
    assert (VInv (set_proc (add_event s (EStart node value)) pid (mkProposer node
      (negb recovery && negb (bool_decide (node ∈ reserved s))) 4
      (newProposal sha256 highestPriority node value) None))) as H.
    { apply VInv_proc; [|done]. by apply VInv_event. }
    destruct recovery; [done|]. destruct H as [H1 H2 H3 H4 H5]. by split.
  - destruct (procs s !! pid) as [p|] eqn:Ep; [|done]. destruct (_ && _); [|done]. intros [= <-].
    apply VInv_event; [|done]. apply VInv_proc; [done|]. by apply (v_procs _ HV pid p).
  - destruct (_ && _); [|done]. intros [= <-]. apply VInv_rec; [done| |apply (v_known _ HV)].
    simpl. apply Forall_app. split; [apply HV|]. by apply Forall_singleton.
  - intros [= <-]. apply VInv_rec; [done|apply HV|apply (v_known _ HV)].
  - destruct (negb _); [|done]. intros [= <-]. apply VInv_rec; [done|apply HV|apply (v_known _ HV)].
  - by apply do_reply_VInv.
  - destruct (_ && _); [|done]. destruct (decided (rec_of s r)) as [d|] eqn:Ed; [|done]. intros [= <-].
    apply VInv_reply; [done|]. simpl. apply (v_known _ HV) in Ed. split; intros p [= <-]; by right.
  - by apply do_collect_VInv.
  - destruct (_ && _) eqn:Hg; [|done]. intros [= <-]. bool_hyps. apply VInv_rec; [done|apply HV|].
    simpl. intros d' [= <-]. by apply (v_decided _ HV).
  - intros [= <-]. by apply VInv_del.
  - destruct (_ && _); [|done]. intros [= <-].
    set (x := mkRecorder _ _ _ _). assert (VInv (set_rec s r x)) as HV'.
    { apply VInv_rec; [done|apply Forall_take, HV|]. simpl. intros d.
      destruct kd; [apply (v_known _ HV)|done]. }
    apply (VInv_frame (set_rec s r x)); try done; [apply map_filter_subseteq|].
    intros r'. split; [apply HV'|]. intros d. by apply (v_known _ HV').
Qed.

Lemma reachable_VInv s : reachable cluster leader slot sha256 s → VInv s.
Proof.
  induction 1; [|by eapply apply_VInv]. split; simpl.
  - intros pid p E. by rewrite lookup_empty in E.
  - by intros d ?%elem_of_nil.
  - intros r d. unfold rec_of. simpl. by rewrite lookup_empty.
  - intros r. unfold rec_of. simpl. rewrite lookup_empty. constructor.
  - by intros x ?%elem_of_nil.
Qed.
End values.
