(* ===== verification/SlotSpec.v ===== *)
(** * What a consensus slot promises

    The abstract object is a write-once register whose content was proposed.
    The transition system of [Consensus] refines it along every execution in
    which the leader remembers its own offer; the headline theorems of the
    slot are stated here. *)

From stdpp Require Import gmap list sorting.
From S2P Require Import Prelude Protocol Register Cluster Proposer Agreement Consensus Safety Values.

(** ** The abstract slot *)

Record spec := mkSpec { proposed : list (NodeID * ValueHash); chosen : option ValueHash }.

Inductive spec_step : spec → spec → Prop :=
| spec_stutter S : spec_step S S
| spec_propose P c node h : spec_step (mkSpec P c) (mkSpec ((node, h) :: P) c)
| spec_choose P c node h :
    (node, h) ∈ P → c = None ∨ c = Some h → spec_step (mkSpec P c) (mkSpec P (Some h)).

Section slot_spec.
Context (cluster : Cluster) (leader : NodeID) (slot : Slot) (sha256 : bytes → ValueHash).

Abbreviation apply := (apply cluster leader slot sha256).
Abbreviation steady := (steady cluster leader slot sha256).
Abbreviation reachable := (reachable cluster leader slot sha256).

Definition starts (h : list event) : list (NodeID * ValueHash) :=
  omap (λ e, match e with EStart n v => Some (n, sha256 v) | _ => None end) h.

Definition abs (s : state) : spec :=
  mkSpec (starts (hist s)) ((λ d, Hash (DProposal d)) <$> head (decisions s)).

(** Executable executions: [keepsOffer] checks the steadiness condition. *)
Definition keepsOffer (s s' : state) : bool :=
  negb (bool_decide (leader ∈ reserved s)) || bool_decide (leader ∈ reserved s').

Fixpoint run_steady (acts : list action) (s : state) : option state :=
  match acts with
  | [] => Some s
  | a :: acts' =>
      match apply a s with
      | None => None
      | Some s' => if keepsOffer s s' then run_steady acts' s' else None
      end
  end.

Lemma keepsOffer_spec s s' : keepsOffer s s' = true → leader ∈ reserved s → leader ∈ reserved s'.
Proof. unfold keepsOffer. repeat case_bool_decide; done. Qed.

Lemma run_steady_sound acts s s' : steady s → run_steady acts s = Some s' → steady s'.
Proof.
  revert s. induction acts as [|a acts IH]; intros s Hs; simpl; [by intros [= ->]|].
  destruct (apply a s) as [s1|] eqn:E; [|done]. destruct (keepsOffer s s1) eqn:Ek; [|done].
  apply IH. eapply steady_step; eauto using keepsOffer_spec.
Qed.

Lemma apply_hist a s s' : apply a s = Some s' → hist s' = hist s ∨ ∃ e, hist s' = e :: hist s.
Proof.
  destruct a; simpl; unfold do_start, do_issue, do_record, do_sync, do_sync_decision, do_reply,
    do_reply_decided, do_collect, do_accept, do_crash, when; intros H; case_all; simplify_eq/=; eauto.
Qed.

Lemma starts_elem h n v : EStart n v ∈ h → (n, sha256 v) ∈ starts h.
Proof. intros. apply list_elem_of_omap. by exists (EStart n v). Qed.

Lemma steady_validity s d :
  steady s → d ∈ decisions s → (ProposerID (DProposal d), Hash (DProposal d)) ∈ starts (hist s).
Proof.
  intros Hs%steady_reachable%reachable_Inv Hd%decisions_spec.
  destruct (chain_validity _ _ _ _ d (inv_chain _ _ _ Hs) Hd) as (v & Hv & ->).
  by apply starts_elem.
Qed.

Lemma steady_agree s d d' :
  steady s → d ∈ decisions s → d' ∈ decisions s → Hash (DProposal d) = Hash (DProposal d').
Proof.
  intros Hs. eapply reachable_agreement; [by apply steady_reachable|].
  by eapply steady_unique_high.
Qed.

(** All decisions reached so far carry one hash. *)
Definition agree (s : state) : Prop :=
  ∀ d d', d ∈ decisions s → d' ∈ decisions s → Hash (DProposal d) = Hash (DProposal d').

(** C1: agreement.  Along any execution of a slot (any number of proposers,
    message loss, duplication and reordering, crashes that lose unsynced WAL
    records) in which the leader does not forget its own offer, all
    decisions carry the same value hash. *)
Theorem agreement s : steady s → agree s.
Proof. intros Hs d d'. by apply steady_agree. Qed.

(** Agreement also holds in every reachable state, forgetful leaders
    included, as long as the requests sent at step 4 carry at most one
    highest-priority proposal. *)
Theorem agreement_unique_offer s : reachable s → unique_high (hist s) → agree s.
Proof. intros Hr Hu d d'. by eapply reachable_agreement. Qed.

Lemma apply_reserved a s s' :
  apply a s = Some s' → (∀ keep kd, a ≠ ACrash leader keep kd) →
  leader ∈ reserved s → leader ∈ reserved s'.
Proof.
  destruct a as [| | | | | | | | | |r keep kd]; simpl; unfold do_start, do_issue, do_record, do_sync,
    do_sync_decision, do_reply, do_reply_decided, do_collect, do_accept, do_crash, when;
    intros H Hc Hin; case_all; simplify_eq/=; try done; try set_solver.
Qed.

Lemma run_without_leader_crash acts s s' :
  steady s → run cluster leader slot sha256 acts s = Some s' →
  (∀ keep kd, ACrash leader keep kd ∉ acts) → steady s'.
Proof.
  revert s. induction acts as [|a acts IH]; intros s Hs; simpl; [by intros [= ->]|].
  destruct (apply a s) as [s1|] eqn:E; [|done]. intros Hrun Hc.
  apply (IH s1); [|done|set_solver].
  apply (steady_step _ _ _ _ s a); [done..|]. apply (apply_reserved a s s1 E). set_solver.
Qed.

(** Whatever else fails, a slot whose leader does not crash agrees: every
    run of the slot from its initial state without a crash of the leader. *)
Theorem agreement_without_leader_crash acts s :
  run cluster leader slot sha256 acts init = Some s →
  (∀ keep kd, ACrash leader keep kd ∉ acts) → agree s.
Proof.
  intros Hrun Hc d d'. apply steady_agree.
  by apply (run_without_leader_crash acts init); [constructor| |].
Qed.

(** C8: validity and integrity.  In every reachable state a decided proposal
    was offered by the node it names, and the value it carries hashes to the
    hash that was agreed on. *)
Theorem validity s d :
  reachable s → d ∈ decisions s →
  (ProposerID (DProposal d), Hash (DProposal d)) ∈ starts (hist s) ∧
  sha256 (Value (DProposal d)) = Hash (DProposal d).
Proof.
  intros Hr Hd%decisions_spec. split.
  - apply reachable_Inv in Hr.
    destruct (chain_validity _ _ _ _ d (inv_chain _ _ _ Hr) Hd) as (v & Hv & ->).
    by apply starts_elem.
  - by apply reachable_VInv in Hr as [_ H _ _ _]; apply H.
Qed.

(** C7: refinement.  Every step of a steady execution is a step (or a
    stutter) of the abstract write-once register. *)
Theorem slot_refines a s s' :
  steady s → apply a s = Some s' → (leader ∈ reserved s → leader ∈ reserved s') →
  spec_step (abs s) (abs s').
Proof.
  intros Hs Ha Hkeep. pose proof (steady_step _ _ _ _ _ _ _ Hs Ha Hkeep) as Hs'.
  destruct (apply_hist _ _ _ Ha) as [E|[[n v|t c|d] E]];
    [unfold abs, decisions; rewrite E; constructor..|].
  assert (decisions s' = d :: decisions s) as Ed by (unfold decisions; by rewrite E).
  assert (starts (hist s') = starts (hist s)) as Es by by rewrite E.
  assert (d ∈ decisions s') as Hd by (rewrite Ed; by left).
  unfold abs. rewrite Ed, Es. eapply (spec_choose _ _ (ProposerID (DProposal d))).
  - rewrite <-Es. by apply steady_validity.
  - destruct (decisions s) as [|d' l]; [by left|]. right. simpl. f_equal.
    apply (steady_agree s'); [done| |done]. rewrite Ed. right. by left.
Qed.

(** The check [acceptDecision] makes against a decision it already holds. *)
Definition conflicting (existing decision : Decision) : bool :=
  negb (bool_decide (Hash (DProposal existing) = Hash (DProposal decision))) ||
  negb (bool_decide (Value (DProposal existing) = Value (DProposal decision))).

(** With a collision-free hash no node ever reports a conflicting
    decision.  The "already decided with another value" error of
    [acceptDecision] is unreachable: what a node knows as decided agrees, in
    hash and bytes, with every decision offered to it. *)
Theorem accept_never_conflicts s r d known :
  (∀ x y, sha256 x = sha256 y → x = y) →
  steady s → EDecide d ∈ hist s → decided (rec_of s r) = Some known →
  conflicting known d = false.
Proof.
  intros Hinj Hs Hd Hk. pose proof (steady_reachable _ _ _ _ _ Hs) as Hr.
  pose proof (reachable_Inv _ _ _ _ _ Hr) as HI. pose proof (reachable_VInv _ _ _ _ _ Hr) as HV.
  assert (EDecide known ∈ hist s) as Hkn by by apply (inv_recs _ _ _ HI r).
  assert (Hash (DProposal known) = Hash (DProposal d)) as E.
  { apply (steady_agree s); [done|by apply decisions_spec..]. }
  unfold conflicting. rewrite bool_decide_eq_true_2 by done. rewrite bool_decide_eq_true_2; [done|].
  apply Hinj. rewrite (v_decided _ _ HV _ Hkn), (v_decided _ _ HV _ Hd). done.
Qed.
End slot_spec.

(** ** A three-node execution *)

Definition node (n : Z) : NodeID := [Zbyte n].
Definition member (n : Z) : Member := mkMember (node n) [] [] [] [] [].
Definition cluster_of (ids : list Z) : Cluster := mkCluster 1 (member <$> ids).
Definition identity_hash (v : bytes) : ValueHash := v.
Definition draw_of (n : Z) : Priority := Zbyte n :: repeat x00 31.

(** Scripted executions: [CAsk] issues a proposer's request and lets the named
    recorders process, sync and answer it; [CCollect] hands it their answers. *)
Inductive cmd :=
| CDo (a : action)
| CAsk (pid : nat) (draw : Priority) (nodes : list NodeID)
| CCollect (pid : nat) (nodes : list NodeID) (fetched : option bytes).

Section script.
Context (cluster : Cluster) (leader : NodeID) (slot : Slot) (sha256 : bytes → ValueHash).

Definition ask_node (s : state) (t : Step) (c : Proposal) (n : NodeID) : list action :=
  match decided (rec_of s n) with
  | Some _ => [ASyncDecision n; AReplyDecided n t c]
  | None => [ARecord n t c; ASync n; AReply n (length (mem (rec_of s n)))]
  end.

Definition answer (s : state) (t : Step) (c : Proposal) (n : NodeID) : option Summary :=
  repSummary <$> head (filter (λ x, repStep x = t ∧ repProposal x = strip c ∧
    RecorderID (repSummary x) = n) (pool s)).

Definition expand (x : cmd) (s : state) : list action :=
  match x with
  | CDo a => [a]
  | CAsk pid draw nodes =>
      match procs s !! pid with
      | None => []
      | Some p =>
          let c := candidate (pnode p) leader (pfast p) (pstep p) (pproposal p) draw in
          AIssue pid draw :: (nodes ≫= ask_node s (pstep p) c)
      end
  | CCollect pid nodes fetched =>
      match procs s !! pid with
      | None => []
      | Some p => [ACollect pid (omap (λ n, pwait p ≫= λ c, answer s (pstep p) c n) nodes) fetched]
      end
  end.

Fixpoint script (exec : list action → state → option state) (l : list cmd) (s : state) : option state :=
  match l with
  | [] => Some s
  | x :: l' => match exec (expand x s) s with None => None | Some s' => script exec l' s' end
  end.

Lemma script_reachable l s s' :
  reachable cluster leader slot sha256 s →
  script (run cluster leader slot sha256) l s = Some s' → reachable cluster leader slot sha256 s'.
Proof.
  revert s. induction l as [|x l IH]; intros s Hs; simpl; [by intros [= ->]|].
  destruct (run _ _ _ _ _ _) as [s1|] eqn:E; [|done]. apply IH. by eapply run_reachable.
Qed.

Lemma script_steady l s s' :
  steady cluster leader slot sha256 s →
  script (run_steady cluster leader slot sha256) l s = Some s' → steady cluster leader slot sha256 s'.
Proof.
  revert s. induction l as [|x l IH]; intros s Hs; simpl; [by intros [= ->]|].
  destruct (run_steady _ _ _ _ _ _) as [s1|] eqn:E; [|done]. apply IH. by eapply run_steady_sound.
Qed.
End script.

Definition state_of (o : option state) : state := default init o.

(** Leader [1] decides on the fast path; the decision reaches node [2], which
    then answers proposer [3] with it, so both proposers decide alike. *)
Definition demo_cluster : Cluster := cluster_of [1; 2; 3].
Definition demo_fast : list cmd :=
  [CDo (AStart 0 (node 1) [x0a] false); CAsk 0 (draw_of 1) [node 1; node 2];
   CCollect 0 [node 1; node 2] (Some [x0a])].
Definition demo_decision : Decision :=
  default (mkDecision 0 0 0 (mkProposal [] [] [] []) [])
    (head (decisions (state_of (script (node 1) (run demo_cluster (node 1) 1 identity_hash) demo_fast init)))).
Definition demo_script : list cmd :=
  demo_fast ++
  [CDo (AAccept (node 2) demo_decision); CDo (ACrash (node 3) 0 false); CDo (AStart 1 (node 3) [x0b] false);
   CAsk 1 (draw_of 7) [node 2; node 3]; CCollect 1 [node 2; node 3] (Some [x0a]);
   CAsk 1 (draw_of 7) [node 2; node 3]; CCollect 1 [node 2; node 3] (Some [x0a]);
   CAsk 1 (draw_of 7) [node 2; node 3]; CCollect 1 [node 2; node 3] (Some [x0a])].
Definition demo_state : state :=
  state_of (script (node 1) (run_steady demo_cluster (node 1) 1 identity_hash) demo_script init).

Definition demo_second : Decision := default demo_decision (head (decisions demo_state)).

Ltac decide_by_compute := refine (bool_decide_eq_true_1 _ _); vm_compute; reflexivity.

Lemma demo_steady : steady demo_cluster (node 1) 1 identity_hash demo_state.
Proof.
  apply (script_steady demo_cluster (node 1) 1 identity_hash demo_script init); [constructor|].
  vm_compute. reflexivity.
Qed.

Lemma demo_first_in : demo_decision ∈ decisions demo_state.
Proof. decide_by_compute. Qed.

Lemma demo_second_in : demo_second ∈ decisions demo_state.
Proof. decide_by_compute. Qed.

Lemma agreement_witness :
  DStep demo_decision = 4 ∧ DStep demo_second = 6 ∧ agree demo_state.
Proof.
  split; [vm_compute; reflexivity|]. split; [vm_compute; reflexivity|].
  apply (agreement demo_cluster (node 1) 1 identity_hash demo_state). exact demo_steady.
Defined.

Lemma agreement_unique_offer_witness : agree demo_state.
Proof.
  apply (agreement_unique_offer demo_cluster (node 1) 1 identity_hash demo_state).
  - exact (steady_reachable _ _ _ _ _ demo_steady).
  - exact (steady_unique_high _ _ _ _ _ demo_steady).
Defined.

Lemma agreement_without_leader_crash_witness :
  agree (state_of (run demo_cluster (node 1) 1 identity_hash
    [AStart 0 (node 1) [x0a] false; ACrash (node 2) 0 false; AIssue 0 (draw_of 1)] init)).
Proof.
  apply (agreement_without_leader_crash demo_cluster (node 1) 1 identity_hash
    [AStart 0 (node 1) [x0a] false; ACrash (node 2) 0 false; AIssue 0 (draw_of 1)]).
  - vm_compute. reflexivity.
  - intros keep kd H. rewrite !elem_of_cons, elem_of_nil in H. by destruct H as [?|[?|[?|[]]]].
Defined.

Lemma validity_witness :
  (ProposerID (DProposal demo_second), Hash (DProposal demo_second)) ∈ starts identity_hash (hist demo_state) ∧
  identity_hash (Value (DProposal demo_second)) = Hash (DProposal demo_second).
Proof.
  apply (validity demo_cluster (node 1) 1 identity_hash demo_state).
  - exact (steady_reachable _ _ _ _ _ demo_steady).
  - exact demo_second_in.
Defined.

Lemma slot_refines_witness :
  spec_step (abs identity_hash init)
    (abs identity_hash (state_of (apply demo_cluster (node 1) 1 identity_hash (AStart 0 (node 1) [x0a] false) init))).
Proof.
  apply (slot_refines demo_cluster (node 1) 1 identity_hash (AStart 0 (node 1) [x0a] false)).
  - constructor.
  - vm_compute. reflexivity.
  - intros H. exfalso. revert H. apply not_elem_of_empty.
Defined.

Lemma accept_never_conflicts_witness : conflicting demo_decision demo_second = false.
Proof.
  apply (accept_never_conflicts demo_cluster (node 1) 1 identity_hash demo_state (node 2)).
  - intros x y H. exact H.
  - exact demo_steady.
  - exact (proj1 (decisions_spec _ _) demo_second_in).
  - vm_compute. reflexivity.
Defined.
