(* ===== verification/FastPath.v ===== *)
(** * A restarted leader can break agreement

    [RecoverThrough] disables the fast path for the slots a restarted node
    finds in its own WAL, so that it cannot offer a second highest-priority
    value.  A leader whose first offer reached another recorder, but not its
    own WAL, restarts without a trace of the slot and takes the fast path
    again.  The execution below decides two values in a five-node cluster. *)

From stdpp Require Import gmap list sorting.
From S2P Require Import Prelude Protocol Register Cluster Proposer Agreement Consensus Safety SlotSpec.

Definition restart_cluster : Cluster := cluster_of [1; 2; 3; 4; 5].

Definition restart_script : list cmd :=
  (* leader 5 offers 0x09; only recorder 2 processes it before 5 crashes *)
  [CDo (AStart 0 (node 5) [x09] false); CAsk 0 (draw_of 1) [node 2];
   CDo (ACrash (node 5) 0 false);
   (* the restarted leader offers 0x08 and decides it with 3, 4, 5 *)
   CDo (AStart 1 (node 5) [x08] false); CAsk 1 (draw_of 1) [node 3; node 4; node 5];
   CCollect 1 [node 3; node 4; node 5] (Some [x08]);
   (* proposer 1 meets both offers with 1, 2, 3 and carries the larger hash *)
   CDo (AStart 2 (node 1) [x01] false); CAsk 2 (draw_of 7) [node 1; node 2; node 3];
   CCollect 2 [node 1; node 2; node 3] (Some [x09]);
   CAsk 2 (draw_of 7) [node 1; node 2; node 3]; CCollect 2 [node 1; node 2; node 3] None;
   CAsk 2 (draw_of 7) [node 1; node 2; node 3]; CCollect 2 [node 1; node 2; node 3] None].

Definition restart_state : state :=
  state_of (script (node 5) (run restart_cluster (node 5) 1 identity_hash) restart_script init).

(** C30: a reachable execution with one leader crash and restart decides two
    different values for one slot; the leader's WAL held no receipt for the
    slot when it restarted. *)
Theorem restarted_leader_disagreement :
  reachable restart_cluster (node 5) 1 identity_hash restart_state ∧
  ((λ d, Hash (DProposal d)) <$> decisions restart_state) = [[x09]; [x08]] ∧
  wf_cluster restart_cluster.
Proof.
  split; [|split].
  - apply (script_reachable restart_cluster (node 5) 1 identity_hash restart_script init).
    + constructor.
    + vm_compute. reflexivity.
  - vm_compute. reflexivity.
  - split; [|done]. decide_by_compute.
Qed.
