(* ===== verification/Bytes.v ===== *)
(** * Fixed-width integers on the wire and CRC-32C

    encoding/binary's little- and big-endian words, and hash/crc32 with the
    Castagnoli table, as the WAL formats of pkg/qlog use them. *)

From stdpp Require Import gmap list.
From S2P Require Import Prelude.

(** ** binary.LittleEndian and binary.BigEndian *)

Fixpoint le_encode (n : nat) (z : Z) : bytes :=
  match n with
  | O => []
  | S n' => Zbyte z :: le_encode n' (Z.shiftr z 8)
  end.

Fixpoint le_decode (b : bytes) : Z :=
  match b with
  | [] => 0
  | x :: b' => byteZ x + 256 * le_decode b'
  end.

Definition be_encode (n : nat) (z : Z) : bytes := reverse (le_encode n z).
Definition be_decode (b : bytes) : Z := le_decode (reverse b).

Lemma le_encode_length n z : length (le_encode n z) = n.
Proof. revert z. induction n as [|n IH]; intros z; simpl; [done|]. by rewrite IH. Qed.

Lemma le_decode_encode n z : 0 <= z < 2 ^ (8 * Z.of_nat n) → le_decode (le_encode n z) = z.
Proof.
  revert z. induction n as [|n IH]; intros z Hz.
  - change (2 ^ (8 * Z.of_nat 0)) with 1 in Hz. simpl. lia.
  - cbn [le_encode le_decode]. rewrite byteZ_Zbyte, Z.shiftr_div_pow2 by lia. change (2 ^ 8) with 256.
    rewrite IH.
    + pose proof (Z.div_mod z 256). lia.
    + split; [apply Z.div_pos; lia|]. apply Z.div_lt_upper_bound; [lia|].
      replace (8 * Z.of_nat (S n)) with (8 + 8 * Z.of_nat n) in Hz by lia.
      rewrite Z.pow_add_r in Hz by lia. change (2 ^ 8) with 256 in Hz. lia.
Qed.

Lemma le_decode_range b : 0 <= le_decode b < 2 ^ (8 * Z.of_nat (length b)).
Proof.
  induction b as [|x b IH]; [done|]. cbn [le_decode length].
  replace (8 * Z.of_nat (S (length b))) with (8 + 8 * Z.of_nat (length b)) by lia.
  rewrite Z.pow_add_r by lia. change (2 ^ 8) with 256. pose proof (byteZ_range x). lia.
Qed.

Lemma le_encode_decode b : le_encode (length b) (le_decode b) = b.
Proof.
  induction b as [|x b IH]; [done|]. cbn [length le_encode le_decode].
  pose proof (byteZ_range x). f_equal.
  - apply byteZ_inj. rewrite byteZ_Zbyte. rewrite (Z.mul_comm 256), Z.mod_add by lia.
    apply Z.mod_small. lia.
  - rewrite Z.shiftr_div_pow2 by lia. change (2 ^ 8) with 256.
    rewrite (Z.mul_comm 256), Z.div_add, (Z.div_small (byteZ x)) by lia. by rewrite Z.add_0_l.
Qed.

Lemma be_encode_length n z : length (be_encode n z) = n.
Proof. unfold be_encode. by rewrite length_reverse, le_encode_length. Qed.

Lemma be_decode_encode n z : 0 <= z < 2 ^ (8 * Z.of_nat n) → be_decode (be_encode n z) = z.
Proof. unfold be_decode, be_encode. rewrite reverse_involutive. apply le_decode_encode. Qed.

Lemma be_decode_range b : 0 <= be_decode b < 2 ^ (8 * Z.of_nat (length b)).
Proof. unfold be_decode. rewrite <-(length_reverse b). apply le_decode_range. Qed.

Lemma be_encode_decode b : be_encode (length b) (be_decode b) = b.
Proof.
  unfold be_encode, be_decode. rewrite <-(length_reverse b), le_encode_decode.
  apply reverse_involutive.
Qed.

(** ** hash/crc32 with crc32.MakeTable(crc32.Castagnoli) *)

Definition castagnoli : Z := 0x82f63b78.

Definition crc_shift (crc : Z) : Z :=
  if Z.testbit crc 0 then Z.lxor (Z.shiftr crc 1) castagnoli else Z.shiftr crc 1.

Definition table_entry (i : Z) : Z := Nat.iter 8 crc_shift i.

Definition crc_complement (crc : Z) : Z := Z.lxor crc 0xffffffff.

Definition crc_step (crc : Z) (b : byte) : Z :=
  Z.lxor (table_entry (Z.lxor (Z.land crc 0xff) (byteZ b))) (Z.shiftr crc 8).

Definition crc_update (crc : Z) (p : bytes) : Z :=
  crc_complement (fold_left crc_step p (crc_complement crc)).

Definition crc_checksum (p : bytes) : Z := crc_update 0 p.

Lemma lxor_range n a b : 0 <= n → 0 <= a < 2 ^ n → 0 <= b < 2 ^ n → 0 <= Z.lxor a b < 2 ^ n.
Proof.
  intros Hn Ha Hb. split; [apply Z.lxor_nonneg; lia|].
  destruct (Z.eq_dec (Z.lxor a b) 0) as [E|E]; [rewrite E; lia|].
  assert (0 <= Z.lxor a b) by (apply Z.lxor_nonneg; lia).
  apply Z.log2_lt_pow2; [lia|].
  eapply Z.le_lt_trans; [apply Z.log2_lxor; lia|].
  destruct (Z.eq_dec a 0) as [->|], (Z.eq_dec b 0) as [->|]; try done.
  - rewrite Z.max_r by apply Z.log2_nonneg. apply Z.log2_lt_pow2; lia.
  - rewrite Z.max_l by apply Z.log2_nonneg. apply Z.log2_lt_pow2; lia.
  - apply Z.max_lub_lt; apply Z.log2_lt_pow2; lia.
Qed.

Lemma shiftr_range n a k : 0 <= k → 0 <= a < 2 ^ n → 0 <= Z.shiftr a k < 2 ^ n.
Proof.
  intros Hk Ha. rewrite Z.shiftr_div_pow2 by lia.
  assert (0 < 2 ^ k) by (apply Z.pow_pos_nonneg; lia).
  split; [apply Z.div_pos; lia|]. apply Z.div_lt_upper_bound; [lia|]. nia.
Qed.

Lemma crc_shift_range crc : 0 <= crc < 2 ^ 32 → 0 <= crc_shift crc < 2 ^ 32.
Proof.
  intros H. unfold crc_shift. pose proof (shiftr_range 32 crc 1 ltac:(lia) H).
  destruct (Z.testbit crc 0); [|done]. apply lxor_range; [lia|done|]. unfold castagnoli. lia.
Qed.

Lemma table_entry_range i : 0 <= i < 2 ^ 32 → 0 <= table_entry i < 2 ^ 32.
Proof.
  intros H. unfold table_entry. generalize 8%nat. intros n.
  induction n as [|n IH]; [done|]. by apply crc_shift_range.
Qed.

Lemma crc_step_range crc b : 0 <= crc < 2 ^ 32 → 0 <= crc_step crc b < 2 ^ 32.
Proof.
  intros H. unfold crc_step. apply lxor_range; [lia| |by apply shiftr_range].
  apply table_entry_range. change 0xff with (Z.ones 8). rewrite Z.land_ones by lia.
  pose proof (Z.mod_pos_bound crc (2 ^ 8)). pose proof (byteZ_range b).
  pose proof (lxor_range 8 (crc mod 2 ^ 8) (byteZ b) ltac:(lia) ltac:(lia) ltac:(lia)). lia.
Qed.

Lemma crc_complement_range crc : 0 <= crc < 2 ^ 32 → 0 <= crc_complement crc < 2 ^ 32.
Proof. intros H. apply lxor_range; [lia|done|lia]. Qed.

Lemma crc_update_range crc p : 0 <= crc < 2 ^ 32 → 0 <= crc_update crc p < 2 ^ 32.
Proof.
  intros H. unfold crc_update. apply crc_complement_range.
  assert (∀ c, 0 <= c < 2 ^ 32 → 0 <= fold_left crc_step p c < 2 ^ 32) as Hf.
  { induction p as [|b p IH]; intros c Hc; simpl; [done|]. by apply IH, crc_step_range. }
  by apply Hf, crc_complement_range.
Qed.

Lemma crc_checksum_range p : 0 <= crc_checksum p < 2 ^ 32.
Proof. apply crc_update_range. lia. Qed.

Lemma crc_complement_involutive crc : crc_complement (crc_complement crc) = crc.
Proof. unfold crc_complement. by rewrite Z.lxor_assoc, Z.lxor_nilpotent, Z.lxor_0_r. Qed.

(** Incremental checksums: the encoder checksums header and payload apart. *)
Lemma crc_update_app crc p q : crc_update (crc_update crc p) q = crc_update crc (p ++ q).
Proof. unfold crc_update. by rewrite crc_complement_involutive, fold_left_app. Qed.

(** The check value of CRC-32C. *)
Example crc_check_value :
  crc_checksum [x31; x32; x33; x34; x35; x36; x37; x38; x39] = 0xe3069283.
Proof. vm_compute. reflexivity. Qed.

(** ** Cutting byte strings *)

Definition slice (a b : nat) (data : bytes) : bytes := take (b - a) (drop a data).

Lemma slice_app_at a b (x y z : bytes) :
  length x = a → length y = (b - a)%nat → slice a b (x ++ y ++ z) = y.
Proof.
  intros Hx Hy. unfold slice. rewrite drop_app_length' by done. by rewrite take_app_length' by done.
Qed.

Lemma slice_length a b data : (b <= length data)%nat → length (slice a b data) = (b - a)%nat.
Proof. intros H. unfold slice. rewrite length_take, length_drop. lia. Qed.

Lemma take_slice a b data : (a <= b)%nat → take b data = take a data ++ slice a b data.
Proof.
  intros H. unfold slice. rewrite <-(take_drop a (take b data)), take_take, skipn_firstn_comm.
  by rewrite Nat.min_l by lia.
Qed.

Lemma slice_take a b n data : (b <= n)%nat → slice a b (take n data) = slice a b data.
Proof.
  intros H. unfold slice. rewrite skipn_firstn_comm, take_take. f_equal. lia.
Qed.

Lemma slice_one (a : nat) data x : data !! a = Some x → slice a (S a) data = [x].
Proof.
  intros H. unfold slice. replace (S a - a)%nat with 1%nat by lia.
  rewrite (drop_S _ _ _ H). done.
Qed.
