(* ===== verification/Entry.v ===== *)
(** * WAL entries (pkg/qlog/entry.go)

    The framed entry with its two CRC-32C checksums: encoder, decoder, the
    round trip in both directions, and what a cut or damaged entry decodes to. *)

From stdpp Require Import gmap list.
From S2P Require Import Prelude Bytes.

Definition entryHeaderSize : nat := 53.
Definition entryRecordCRCOffset : nat := 45.
Definition entryHeaderCRCOffset : nat := 49.
Definition entryFormatMask : Z := Z.shiftl 3 30.
Definition entryLengthMarker : Z := Z.shiftl 2 30.
Definition entryLengthMask : Z := Z.shiftl 1 30 - 1.

(** The constants of EntryType; any byte is a value of the type. *)
Definition EntryProposal : byte := x00.
Definition EntryReceipt : byte := x01.
Definition EntryDecide : byte := x02.
Definition EntryCheckpoint : byte := x03.
Definition EntryCheckpointVerified : byte := x04.

Record Entry := mkEntry { ESlot : Z; EHash : bytes; EType : byte; EPayload : bytes }.

#[global] Instance Entry_eq_dec : EqDecision Entry.
Proof. solve_decision. Defined.

Inductive entryError :=
| UnexpectedEOF
| UnsupportedFormat
| HeaderCRCMismatch
| CRCMismatch.

Definition entryPayloadLength (encoded : Z) : Z * bool :=
  (Z.land encoded entryLengthMask, Z.land encoded entryFormatMask =? entryLengthMarker).

(** The header up to the record checksum, and up to the header checksum. *)
Definition entryPrefix (e : Entry) : bytes :=
  le_encode 8 (ESlot e) ++ EHash e ++ [EType e] ++
  le_encode 4 (Z.lor (u32 (Z.of_nat (length (EPayload e)))) entryLengthMarker).

Definition Encode (e : Entry) : bytes :=
  let prefix := entryPrefix e in
  let crc := crc_update (crc_checksum prefix) (EPayload e) in
  let header := prefix ++ le_encode 4 crc in
  header ++ le_encode 4 (crc_checksum header) ++ EPayload e.

#[global] Arguments Encode : simpl never.

Definition decodeEntryHeader (data : bytes) : result entryError (Z * Z) :=
  if Nat.leb entryRecordCRCOffset (length data) &&
     negb (entryPayloadLength (le_decode (slice 41 45 data))).2
  then Err UnsupportedFormat
  else guard Nat.leb entryHeaderSize (length data) else UnexpectedEOF in
  let stored := le_decode (slice entryHeaderCRCOffset entryHeaderSize data) in
  guard (stored =? crc_checksum (take entryHeaderCRCOffset data)) else HeaderCRCMismatch in
  Ok ((entryPayloadLength (le_decode (slice 41 45 data))).1,
      le_decode (slice entryRecordCRCOffset entryHeaderCRCOffset data)).

Definition DecodeEntry (data : bytes) : result entryError (Entry * nat) :=
  let! h := decodeEntryHeader data in
  let '(payloadLen, storedCRC) := h in
  let totalLen := (entryHeaderSize + Z.to_nat payloadLen)%nat in
  guard Nat.leb totalLen (length data) else UnexpectedEOF in
  let payload := slice entryHeaderSize totalLen data in
  guard (storedCRC =? crc_update (crc_checksum (take entryRecordCRCOffset data)) payload)
    else CRCMismatch in
  Ok (mkEntry (le_decode (slice 0 8 data)) (slice 8 40 data) (default x00 (data !! 40%nat)) payload,
      totalLen).

(** What fits the wire format: a uint64 slot, a [32]byte hash and a payload
    below the 30-bit length field. *)
Definition wf_entry (e : Entry) : Prop :=
  0 <= ESlot e < 2 ^ 64 ∧ length (EHash e) = 32%nat ∧ Z.of_nat (length (EPayload e)) < 2 ^ 30.

(** ** The length word *)

Lemma length_word n : 0 <= n < 2 ^ 30 →
  entryPayloadLength (Z.lor n entryLengthMarker) = (n, true) ∧ 0 <= Z.lor n entryLengthMarker < 2 ^ 32.
Proof.
  intros Hn. assert (Z.land n (Z.ones 30) = n) as E.
  { rewrite Z.land_ones by lia. by apply Z.mod_small. }
  unfold entryPayloadLength. rewrite !Z.land_lor_distr_l. split.
  - change entryLengthMask with (Z.ones 30). rewrite E.
    change (Z.land entryLengthMarker (Z.ones 30)) with 0. rewrite Z.lor_0_r. f_equal.
    rewrite <-E, <-Z.land_assoc. change (Z.land (Z.ones 30) entryFormatMask) with 0.
    rewrite Z.land_0_r. done.
  - assert (Z.lor n entryLengthMarker = n + 2 ^ 31) as ->; [|lia].
    change entryLengthMarker with (2 ^ 31).
    assert (Z.land n (2 ^ 31) = 0) as E0.
    { rewrite <-E, <-Z.land_assoc. change (Z.land (Z.ones 30) (2 ^ 31)) with 0. apply Z.land_0_r. }
    by rewrite Z.add_nocarry_lxor, Z.lxor_lor by done.
Qed.

Lemma length_word_inv w : 0 <= w < 2 ^ 32 → (entryPayloadLength w).2 = true →
  w = Z.lor (entryPayloadLength w).1 entryLengthMarker ∧ 0 <= (entryPayloadLength w).1 < 2 ^ 30.
Proof.
  unfold entryPayloadLength. simpl. intros Hw Hm. apply Z.eqb_eq in Hm. split.
  - rewrite <-Hm, <-Z.land_lor_distr_r.
    change (Z.lor entryLengthMask entryFormatMask) with (Z.ones 32).
    rewrite Z.land_ones by lia. symmetry. by apply Z.mod_small.
  - change entryLengthMask with (Z.ones 30). rewrite Z.land_ones by lia. apply Z.mod_pos_bound. lia.
Qed.

Lemma entryPrefix_length e : length (EHash e) = 32%nat → length (entryPrefix e) = 45%nat.
Proof. intros H. unfold entryPrefix. rewrite !length_app, !le_encode_length, H. done. Qed.

Lemma Encode_length e : length (EHash e) = 32%nat → length (Encode e) = (53 + length (EPayload e))%nat.
Proof.
  intros H. unfold Encode. rewrite !length_app, !le_encode_length, entryPrefix_length by done. lia.
Qed.

(** The encoding as consecutive fields, for slicing. *)
Lemma Encode_fields e rest :
  let crc := crc_update (crc_checksum (entryPrefix e)) (EPayload e) in
  Encode e ++ rest =
  le_encode 8 (ESlot e) ++ EHash e ++ [EType e] ++
  le_encode 4 (Z.lor (u32 (Z.of_nat (length (EPayload e)))) entryLengthMarker) ++
  le_encode 4 crc ++ le_encode 4 (crc_checksum (entryPrefix e ++ le_encode 4 crc)) ++ EPayload e ++ rest.
Proof. unfold Encode, entryPrefix. simpl. by rewrite <-!app_assoc. Qed.

Lemma slice_prefix a b (x rest : bytes) :
  (b <= length x)%nat → slice a b (x ++ rest) = slice a b x.
Proof.
  intros H. unfold slice. destruct (decide (a <= length x)%nat).
  - rewrite drop_app_le by lia. rewrite take_app_le; [done|]. rewrite length_drop. lia.
  - replace (b - a)%nat with 0%nat by lia. done.
Qed.

Section encoded.
Context (e : Entry) (rest : bytes) (Hwf : wf_entry e).

Abbreviation crc := (crc_update (crc_checksum (entryPrefix e)) (EPayload e)).
Abbreviation header := (entryPrefix e ++ le_encode 4 crc).

Lemma enc_slot : slice 0 8 (Encode e ++ rest) = le_encode 8 (ESlot e).
Proof.
  rewrite Encode_fields. apply (slice_app_at 0 8 []); [done|]. by rewrite le_encode_length.
Qed.

Lemma enc_hash : slice 8 40 (Encode e ++ rest) = EHash e.
Proof.
  destruct Hwf as (_ & Hh & _). rewrite Encode_fields.
  apply (slice_app_at 8 40); [by rewrite le_encode_length|done].
Qed.

Lemma enc_type : (Encode e ++ rest) !! 40%nat = Some (EType e).
Proof.
  destruct Hwf as (_ & Hh & _). rewrite Encode_fields.
  rewrite lookup_app_r by (rewrite le_encode_length; lia). rewrite le_encode_length.
  rewrite lookup_app_r by lia. by rewrite Hh.
Qed.

Lemma enc_length :
  slice 41 45 (Encode e ++ rest) =
  le_encode 4 (Z.lor (u32 (Z.of_nat (length (EPayload e)))) entryLengthMarker).
Proof.
  destruct Hwf as (_ & Hh & _). rewrite Encode_fields.
  rewrite (app_assoc (EHash e)), (app_assoc (le_encode 8 _)).
  apply slice_app_at; [|by rewrite le_encode_length].
  rewrite !length_app, le_encode_length, Hh. done.
Qed.

Lemma enc_crc : slice 45 49 (Encode e ++ rest) = le_encode 4 crc.
Proof.
  destruct Hwf as (_ & Hh & _). unfold Encode. rewrite <-!app_assoc.
  apply slice_app_at; [by apply entryPrefix_length|by rewrite le_encode_length].
Qed.

Lemma header_length : length header = 49%nat.
Proof.
  destruct Hwf as (_ & Hh & _). by rewrite length_app, le_encode_length, entryPrefix_length.
Qed.

Lemma enc_header_crc : slice 49 53 (Encode e ++ rest) = le_encode 4 (crc_checksum header).
Proof.
  unfold Encode. rewrite <-(app_assoc header), <-(app_assoc (le_encode 4 (crc_checksum header))).
  apply slice_app_at; [apply header_length|by rewrite le_encode_length].
Qed.

Lemma enc_take_header : take 49 (Encode e ++ rest) = header.
Proof. unfold Encode. rewrite <-app_assoc. apply take_app_length'. by rewrite header_length. Qed.

Lemma enc_take_prefix : take 45 (Encode e ++ rest) = entryPrefix e.
Proof.
  destruct Hwf as (_ & Hh & _). unfold Encode. rewrite <-!app_assoc.
  apply take_app_length'. by rewrite entryPrefix_length.
Qed.

Lemma enc_payload : slice 53 (53 + length (EPayload e)) (Encode e ++ rest) = EPayload e.
Proof.
  replace (Encode e ++ rest) with ((header ++ le_encode 4 (crc_checksum header)) ++ EPayload e ++ rest)
    by (unfold Encode; by rewrite <-!app_assoc).
  apply slice_app_at; [|lia]. rewrite length_app, header_length, le_encode_length. done.
Qed.

Lemma enc_payload_word :
  entryPayloadLength (le_decode (slice 41 45 (Encode e ++ rest))) = (Z.of_nat (length (EPayload e)), true).
Proof.
  destruct Hwf as (_ & _ & Hp). rewrite enc_length, u32_small by lia.
  destruct (length_word (Z.of_nat (length (EPayload e)))) as [E ?]; [lia|].
  rewrite le_decode_encode by lia. done.
Qed.
End encoded.

Lemma decodeEntryHeader_encoded e rest :
  wf_entry e →
  decodeEntryHeader (Encode e ++ rest) =
  Ok (Z.of_nat (length (EPayload e)), crc_update (crc_checksum (entryPrefix e)) (EPayload e)).
Proof.
  intros Hwf. pose proof Hwf as (_ & Hh & _).
  unfold decodeEntryHeader, entryRecordCRCOffset, entryHeaderSize, entryHeaderCRCOffset.
  rewrite enc_payload_word by done. rewrite length_app, Encode_length by done.
  rewrite andb_false_r. destruct (Nat.leb_spec 53 (53 + length (EPayload e) + length rest)); [|lia].
  rewrite enc_header_crc, enc_take_header by done. rewrite le_decode_encode by apply crc_checksum_range.
  rewrite Z.eqb_refl, enc_crc by done.
  rewrite le_decode_encode; [done|]. apply crc_update_range, crc_checksum_range.
Qed.

Lemma decode_encoded e rest :
  wf_entry e → DecodeEntry (Encode e ++ rest) = Ok (e, length (Encode e)).
Proof.
  intros Hwf. pose proof Hwf as (Hs & Hh & Hp). unfold DecodeEntry.
  rewrite decodeEntryHeader_encoded by done. cbn [rbind]. rewrite Nat2Z.id.
  unfold entryHeaderSize, entryRecordCRCOffset. rewrite length_app, Encode_length by done.
  destruct (Nat.leb_spec (53 + length (EPayload e)) (53 + length (EPayload e) + length rest)); [|lia].
  rewrite enc_payload, enc_take_prefix, Z.eqb_refl by done.
  rewrite enc_slot, enc_hash, enc_type by done. rewrite le_decode_encode by done. by destruct e.
Qed.

(** Encoding then decoding an entry returns the entry and its exact
    length, whatever bytes follow it in the segment. *)
Theorem DecodeEntry_Encode e rest :
  wf_entry e → DecodeEntry (Encode e ++ rest) = Ok (e, length (Encode e)).
Proof. apply decode_encoded. Qed.

Lemma DecodeEntry_Encode_witness :
  DecodeEntry (Encode (mkEntry 7 (repeat x05 32) EntryReceipt [x01; x02]) ++ [xff]) =
  Ok (mkEntry 7 (repeat x05 32) EntryReceipt [x01; x02], 55%nat).
Proof.
  apply (DecodeEntry_Encode (mkEntry 7 (repeat x05 32) EntryReceipt [x01; x02]) [xff]).
  split; [simpl; lia|]. split; [reflexivity|simpl; lia].
Defined.

(** ** Decoding is canonical *)

Lemma le_slice a b n data :
  (b <= length data)%nat → n = (b - a)%nat → le_encode n (le_decode (slice a b data)) = slice a b data.
Proof. intros H ->. rewrite <-(slice_length a b data) by lia. apply le_encode_decode. Qed.

Lemma le_slice_range a b data :
  (a <= b <= length data)%nat → 0 <= le_decode (slice a b data) < 2 ^ (8 * Z.of_nat (b - a)).
Proof. intros H. rewrite <-(slice_length a b data) by lia. apply le_decode_range. Qed.

Lemma decodeEntryHeader_Ok data len crc :
  decodeEntryHeader data = Ok (len, crc) →
  (53 <= length data)%nat ∧ entryPayloadLength (le_decode (slice 41 45 data)) = (len, true) ∧
  le_decode (slice 49 53 data) = crc_checksum (take 49 data) ∧ crc = le_decode (slice 45 49 data).
Proof.
  unfold decodeEntryHeader, entryRecordCRCOffset, entryHeaderSize, entryHeaderCRCOffset.
  destruct (_ && _) eqn:Hf; [done|]. destruct (Nat.leb_spec 53 (length data)); [|done].
  destruct (Z.eqb_spec (le_decode (slice 49 53 data)) (crc_checksum (take 49 data))); [|done].
  intros [= <- <-]. split_and!; [done| |done|done].
  destruct (Nat.leb_spec 45 (length data)); [|lia]. rewrite andb_true_l, negb_false_iff in Hf.
  by rewrite (surjective_pairing (entryPayloadLength _)), Hf.
Qed.

Lemma decode_canonical data e n :
  DecodeEntry data = Ok (e, n) →
  (n <= length data)%nat ∧ take n data = Encode e ∧ wf_entry e.
Proof.
  unfold DecodeEntry. destruct (decodeEntryHeader data) as [[len crc]|] eqn:Eh; [|done].
  apply decodeEntryHeader_Ok in Eh as (Hlen & Hword & Hcrc & ->). cbn [rbind].
  unfold entryHeaderSize, entryRecordCRCOffset.
  remember (53 + Z.to_nat len)%nat as total eqn:Et.
  destruct (Nat.leb_spec total (length data)); [|done].
  destruct (Z.eqb_spec (le_decode (slice 45 49 data))
    (crc_update (crc_checksum (take 45 data)) (slice 53 total data))) as [Hrec|]; [|done].
  intros [= <- <-]. split; [done|].
  assert (0 <= le_decode (slice 41 45 data) < 2 ^ 32) as Hr by (apply (le_slice_range 41 45); lia).
  destruct (length_word_inv _ Hr) as [Hw Hl]; [by rewrite Hword|]. rewrite Hword in Hw, Hl. simpl in Hw, Hl.
  assert (length (slice 53 total data) = Z.to_nat len) as Hpl.
  { rewrite slice_length by lia. lia. }
  destruct (data !! 40%nat) as [ty|] eqn:Ety; [|apply lookup_ge_None in Ety; lia].
  set (e := mkEntry _ _ _ _).
  assert (entryPrefix e = take 45 data) as Hpre.
  { unfold entryPrefix, e. cbn [ESlot EHash EType EPayload]. rewrite Hpl, u32_small, Z2Nat.id, <-Hw by lia.
    rewrite (take_slice 41 45), (take_slice 40 41), (take_slice 8 40), (take_slice 0 8) by lia.
    rewrite (slice_one 40 data ty Ety), (le_slice 0 8), (le_slice 41 45) by lia.
    by rewrite <-!app_assoc. }
  split.
  - unfold Encode. rewrite Hpre. unfold e. cbn [EPayload]. rewrite <-Hrec, (le_slice 45 49) by lia.
    rewrite <-(take_slice 45 49), <-Hcrc, (le_slice 49 53), app_assoc, <-(take_slice 49 53) by lia.
    by rewrite <-take_slice by lia.
  - unfold wf_entry, e. cbn [ESlot EHash EType EPayload].
    split; [apply (le_slice_range 0 8); lia|].
    split; [apply (slice_length 8 40); lia|]. rewrite Hpl. lia.
Qed.

(** Decoding is canonical.  Whenever a byte string decodes, the bytes
    consumed are exactly the encoding of the entry returned: no two byte
    strings decode to one entry, and no entry outside the format is returned. *)
Theorem DecodeEntry_canonical data e n :
  DecodeEntry data = Ok (e, n) →
  (n <= length data)%nat ∧ take n data = Encode e ∧ wf_entry e.
Proof. apply decode_canonical. Qed.

Definition canonical_entry : Entry := mkEntry 7 (repeat x05 32) EntryReceipt [x01; x02].

Lemma DecodeEntry_canonical_witness :
  (55 <= length (Encode canonical_entry))%nat ∧ take 55 (Encode canonical_entry) = Encode canonical_entry ∧
  wf_entry canonical_entry.
Proof. apply (DecodeEntry_canonical (Encode canonical_entry)). vm_compute. reflexivity. Defined.

(** ** Torn entries *)

Lemma decode_torn e n :
  wf_entry e → (n < length (Encode e))%nat → DecodeEntry (take n (Encode e)) = Err UnexpectedEOF.
Proof.
  intros Hwf Hn. pose proof Hwf as (_ & Hh & _). rewrite Encode_length in Hn by done.
  pose proof (decodeEntryHeader_encoded e [] Hwf) as Hdec. rewrite app_nil_r in Hdec.
  assert (length (take n (Encode e)) = n) as Hl.
  { rewrite length_take, Encode_length by done. lia. }
  pose proof (enc_payload_word e [] Hwf) as Hword. rewrite app_nil_r in Hword.
  assert ((45 <= n)%nat → slice 41 45 (take n (Encode e)) = slice 41 45 (Encode e)) as Hs
    by (intros; apply slice_take; lia).
  destruct (decide (n < 53)%nat).
  - unfold DecodeEntry, decodeEntryHeader, entryRecordCRCOffset, entryHeaderSize. rewrite Hl.
    replace (_ && _) with false.
    + destruct (Nat.leb_spec 53 n); [lia|done].
    + destruct (Nat.leb_spec 45 n); [|done]. by rewrite Hs, Hword.
  - unfold DecodeEntry.
    assert (decodeEntryHeader (take n (Encode e)) = decodeEntryHeader (Encode e)) as ->.
    { unfold decodeEntryHeader, entryRecordCRCOffset, entryHeaderSize, entryHeaderCRCOffset.
      rewrite Hl, Hs, !slice_take, take_take, Nat.min_l, Encode_length by (done || lia).
      destruct (Nat.leb_spec 45 n), (Nat.leb_spec 45 (53 + length (EPayload e))),
        (Nat.leb_spec 53 n), (Nat.leb_spec 53 (53 + length (EPayload e))); try lia. done. }
    rewrite Hdec. cbn [rbind]. unfold entryHeaderSize. rewrite Nat2Z.id, Hl.
    destruct (Nat.leb_spec (53 + length (EPayload e)) n); [lia|done].
Qed.

(** Every proper prefix of an encoded entry is reported as an unexpected
    end of file: never as another error, and never as an entry. *)
Theorem DecodeEntry_torn e n :
  wf_entry e → (n < length (Encode e))%nat → DecodeEntry (take n (Encode e)) = Err UnexpectedEOF.
Proof. apply decode_torn. Qed.

Lemma DecodeEntry_torn_witness :
  DecodeEntry (take 54 (Encode (mkEntry 7 (repeat x05 32) EntryReceipt [x01; x02]))) = Err UnexpectedEOF.
Proof.
  apply (DecodeEntry_torn (mkEntry 7 (repeat x05 32) EntryReceipt [x01; x02]) 54).
  - split; [simpl; lia|]. split; [reflexivity|simpl; lia].
  - vm_compute. lia.
Defined.
