(* ===== verification/Manifest.v ===== *)
(** * WAL manifests (pkg/qlog/manifest.go)

    The checksummed list of segment references that makes a WAL generation
    authoritative: encoder, decoder and their round trip in both directions. *)

From stdpp Require Import gmap list.
From S2P Require Import Prelude Bytes.

(** "RHZAWAL2" *)
Definition manifestMagic : bytes := [x52; x48; x5a; x41; x57; x41; x4c; x32].
Definition manifestHeaderSize : nat := 20.
Definition manifestRefSize : nat := 16.
Definition manifestIdentityLen : nat := 2.
Definition manifestCRCSize : nat := 4.
Definition manifestActive : Z := 1.
Definition manifestSealed : Z := 2.
Definition maxIdentitySize : nat := 64.

Record manifestRef := mkRef { refIndex : Z; refLength : Z; refActive : bool }.

#[global] Instance manifestRef_eq_dec : EqDecision manifestRef.
Proof. solve_decision. Defined.

Inductive manifestError :=
| InvalidManifest
| IdentityTooLarge
| InvalidReference
| InvalidCount
| InvalidLength
| InvalidIdentity
| ManifestChecksum
| DuplicateSegment (index : Z)
| SegmentsNotOrdered.

Definition encodeRef (r : manifestRef) : bytes :=
  be_encode 4 (refIndex r) ++ be_encode 8 (refLength r) ++
  be_encode 4 (if refActive r then manifestActive else manifestSealed).

(** The loop over the references: only the last one may be active. *)
Fixpoint encodeRefs (refs : list manifestRef) : result manifestError bytes :=
  match refs with
  | [] => Ok []
  | r :: refs' =>
      if (refIndex r =? 0) || negb (Bool.eqb (bool_decide (refs' = [])) (refActive r)) ||
         (refActive r && negb (refLength r =? 0))
      then Err InvalidReference
      else let! rest := encodeRefs refs' in Ok (encodeRef r ++ rest)
  end.

Definition encodeIdentity (identity : bytes) : bytes :=
  if bool_decide (identity = []) then []
  else be_encode 2 (Z.of_nat (length identity) mod 2 ^ 16) ++ identity.

Definition encodeManifest (generation : Z) (refs : list manifestRef) (identity : bytes)
    : result manifestError bytes :=
  if (generation =? 0) || bool_decide (refs = []) then Err InvalidManifest
  else guard Nat.leb (length identity) maxIdentitySize else IdentityTooLarge in
  let! body := encodeRefs refs in
  let buf := manifestMagic ++ be_encode 8 generation ++
    be_encode 4 (u32 (Z.of_nat (length refs))) ++ body ++ encodeIdentity identity in
  Ok (buf ++ be_encode 4 (crc_checksum buf)).

#[global] Arguments encodeManifest : simpl never.

(** The decoding loop; [data] starts at the reference to read. *)
Fixpoint decodeRefs (count : nat) (data : bytes) (seen : gset Z) (refs : list manifestRef)
    : result manifestError (list manifestRef) :=
  match count with
  | O => Ok refs
  | S count' =>
      let index := be_decode (slice 0 4 data) in
      let len := be_decode (slice 4 12 data) in
      let flag := be_decode (slice 12 16 data) in
      let active := flag =? manifestActive in
      if (index =? 0) || (negb (flag =? manifestActive) && negb (flag =? manifestSealed)) ||
         negb (Bool.eqb active (Nat.eqb count' 0)) || (active && negb (len =? 0))
      then Err InvalidReference
      else if bool_decide (index ∈ seen) then Err (DuplicateSegment index)
      else if (match last refs with Some r => index <=? refIndex r | None => false end)
      then Err SegmentsNotOrdered
      else decodeRefs count' (drop manifestRefSize data) ({[index]} ∪ seen) (refs ++ [mkRef index len active])
  end.

Definition decodeManifest (data : bytes) : result manifestError (Z * list manifestRef * bytes) :=
  if Nat.ltb (length data) (manifestHeaderSize + manifestRefSize + manifestCRCSize) ||
     negb (bool_decide (take 8 data = manifestMagic))
  then Err InvalidManifest
  else
  let generation := be_decode (slice 8 16 data) in
  let count := be_decode (slice 16 20 data) in
  guard (count <=? u32 (Z.of_nat ((length data - manifestHeaderSize - manifestCRCSize) / manifestRefSize)))
    else InvalidCount in
  let refsEnd := (manifestHeaderSize + Z.to_nat count * manifestRefSize)%nat in
  if (generation =? 0) || (count =? 0) || Nat.ltb (length data) (refsEnd + manifestCRCSize)
  then Err InvalidLength
  else
  let! id :=
    if Nat.eqb (length data) (refsEnd + manifestCRCSize) then Ok ([], refsEnd)
    else if Nat.ltb (length data) (refsEnd + manifestIdentityLen + manifestCRCSize) then Err InvalidIdentity
    else
      let identityLen := Z.to_nat (be_decode (slice refsEnd (refsEnd + manifestIdentityLen) data)) in
      let checksumOffset := (refsEnd + manifestIdentityLen + identityLen)%nat in
      if Nat.eqb identityLen 0 || Nat.ltb maxIdentitySize identityLen ||
         negb (Nat.eqb (checksumOffset + manifestCRCSize) (length data))
      then Err InvalidIdentity
      else Ok (slice (refsEnd + manifestIdentityLen) checksumOffset data, checksumOffset) in
  let '(identity, checksumOffset) := id in
  let stored := be_decode (slice checksumOffset (checksumOffset + 4) data) in
  guard (stored =? crc_checksum (take checksumOffset data)) else ManifestChecksum in
  let! refs := decodeRefs (Z.to_nat count) (drop manifestHeaderSize data) ∅ [] in
  Ok (generation, refs, identity).

(** ** Well-formed manifests: what [publishManifestLocked] passes in *)

Fixpoint increasing (prev : Z) (refs : list manifestRef) : Prop :=
  match refs with
  | [] => True
  | r :: refs' => prev < refIndex r ∧ increasing (refIndex r) refs'
  end.

Definition wf_ref (r : manifestRef) : Prop := 0 <= refIndex r < 2 ^ 32 ∧ 0 <= refLength r < 2 ^ 64.

Definition wf_manifest (generation : Z) (refs : list manifestRef) (identity : bytes) : Prop :=
  0 <= generation < 2 ^ 64 ∧ Z.of_nat (length refs) < 2 ^ 27 ∧ Forall wf_ref refs ∧ increasing 0 refs ∧
  (length identity <= 64)%nat.

Lemma encodeRef_length r : length (encodeRef r) = 16%nat.
Proof. unfold encodeRef. by rewrite !length_app, !be_encode_length. Qed.

Lemma encodeRefs_length refs body : encodeRefs refs = Ok body → length body = (length refs * 16)%nat.
Proof.
  revert body. induction refs as [|r refs IH]; intros body; cbn [encodeRefs]; [by intros [= <-]|].
  destruct (_ || _); [done|]. destruct (encodeRefs refs) as [b|] eqn:E; [|done].
  cbn [rbind]. intros <-%Ok_inj. rewrite length_app, encodeRef_length, (IH b eq_refl). cbn [length]. lia.
Qed.

Lemma slice_0 n (x rest : bytes) : length x = n → slice 0 n (x ++ rest) = x.
Proof. intros H. apply (slice_app_at 0 n []); [done|]. rewrite H. lia. Qed.

Lemma encodeRef_slices r rest : wf_ref r →
  be_decode (slice 0 4 (encodeRef r ++ rest)) = refIndex r ∧
  be_decode (slice 4 12 (encodeRef r ++ rest)) = refLength r ∧
  be_decode (slice 12 16 (encodeRef r ++ rest)) = (if refActive r then manifestActive else manifestSealed).
Proof.
  intros [Hi Hl]. unfold encodeRef. rewrite <-!app_assoc. split_and!.
  - rewrite slice_0 by apply be_encode_length. by apply be_decode_encode.
  - rewrite (slice_app_at 4 12) by apply be_encode_length. by apply be_decode_encode.
  - rewrite (app_assoc (be_encode 4 (refIndex r))), (slice_app_at 12 16).
    + apply be_decode_encode. by destruct (refActive r).
    + by rewrite length_app, !be_encode_length.
    + by rewrite be_encode_length.
Qed.

(** The decoding loop inverts the encoding loop. *)
Lemma decodeRefs_encodeRefs refs body rest seen acc prev :
  encodeRefs refs = Ok body → Forall wf_ref refs → increasing prev refs →
  (∀ i, i ∈ seen → i <= prev) → (∀ r, last acc = Some r → refIndex r <= prev) →
  decodeRefs (length refs) (body ++ rest) seen acc = Ok (acc ++ refs).
Proof.
  revert body seen acc prev. induction refs as [|r refs IH]; intros body seen acc prev;
    cbn [encodeRefs decodeRefs length]; [intros _ _ _ _ _; by rewrite app_nil_r|].
  destruct (_ || _) eqn:Hbad; [done|]. destruct (encodeRefs refs) as [b|] eqn:E; [|done].
  cbn [rbind]. intros <-%Ok_inj [Hr Hrefs]%Forall_cons [Hlt Hinc] Hseen Hacc. bool_hyps.
  rewrite <-app_assoc. destruct (encodeRef_slices r (b ++ rest) Hr) as (-> & -> & ->).
  assert (bool_decide (refs = []) = Nat.eqb (length refs) 0) as Hnil by (destruct refs; done).
  rewrite Hnil in H1. apply Bool.eqb_prop in H1.
  replace (_ || _) with false; [|rewrite H1; destruct (Z.eqb_spec (refIndex r) 0); [done|];
    by destruct (refActive r); simpl in *; rewrite ?H0].
  rewrite bool_decide_eq_false_2 by (intros ?%Hseen; lia).
  replace (match last acc with Some r' => refIndex r <=? refIndex r' | None => false end) with false.
  2:{ destruct (last acc) as [r'|] eqn:El; [|done]. pose proof (Hacc r' eq_refl).
      destruct (Z.leb_spec (refIndex r) (refIndex r')); [lia|done]. }
  rewrite drop_app_length' by (by rewrite encodeRef_length).
  rewrite (IH b _ _ (refIndex r)); [|done..| |].
  - rewrite <-app_assoc. do 2 f_equal. destruct r as [i l a]. simpl. by destruct a.
  - intros i Hi. apply elem_of_union in Hi as [->%elem_of_singleton|Hi]; [lia|]. apply Hseen in Hi. lia.
  - intros r'. rewrite last_snoc. intros [= <-]. simpl. lia.
Qed.

(** ** Round trip *)

Section manifest_bytes.
Context (g : Z) (refs : list manifestRef) (identity body : bytes).
Hypothesis Hwf : wf_manifest g refs identity.
Hypothesis Hbody : encodeRefs refs = Ok body.
Hypothesis Hg : g ≠ 0.
Hypothesis Hrefs : refs ≠ [].

Abbreviation n := (length refs).
Definition manifest_buf : bytes :=
  manifestMagic ++ be_encode 8 g ++ be_encode 4 (u32 (Z.of_nat n)) ++ body ++ encodeIdentity identity.
Definition manifest_data : bytes := manifest_buf ++ be_encode 4 (crc_checksum manifest_buf).

Lemma encodeIdentity_length :
  length (encodeIdentity identity) =
  (if bool_decide (identity = []) then 0 else 2 + length identity)%nat.
Proof. unfold encodeIdentity. case_bool_decide; [done|]. by rewrite length_app, be_encode_length. Qed.

Lemma manifest_buf_length : length manifest_buf = (20 + n * 16 + length (encodeIdentity identity))%nat.
Proof.
  unfold manifest_buf. rewrite !length_app, !be_encode_length, (encodeRefs_length _ _ Hbody).
  change (length manifestMagic) with 8%nat. lia.
Qed.

Lemma manifest_data_length : length manifest_data = (24 + n * 16 + length (encodeIdentity identity))%nat.
Proof. unfold manifest_data. rewrite length_app, be_encode_length, manifest_buf_length. lia. Qed.

Lemma refs_positive : (1 <= n)%nat.
Proof. destruct refs; [done|]. simpl. lia. Qed.

Lemma manifest_magic : take 8 manifest_data = manifestMagic.
Proof. done. Qed.

Lemma manifest_generation : be_decode (slice 8 16 manifest_data) = g.
Proof.
  destruct Hwf as (Hgr & _). unfold manifest_data, manifest_buf. rewrite <-!app_assoc.
  rewrite slice_app_at; [by apply be_decode_encode|done|by rewrite be_encode_length].
Qed.

Lemma manifest_count : be_decode (slice 16 20 manifest_data) = Z.of_nat n.
Proof.
  destruct Hwf as (_ & Hn & _). unfold manifest_data, manifest_buf. rewrite <-!app_assoc.
  rewrite (app_assoc manifestMagic), slice_app_at.
  - rewrite u32_small by lia. apply be_decode_encode. lia.
  - by rewrite length_app, be_encode_length.
  - by rewrite be_encode_length.
Qed.

Lemma manifest_body :
  drop 20 manifest_data = body ++ encodeIdentity identity ++ be_encode 4 (crc_checksum manifest_buf).
Proof.
  unfold manifest_data. unfold manifest_buf at 1. rewrite <-!app_assoc.
  rewrite (app_assoc (be_encode 8 g)), (app_assoc manifestMagic). apply drop_app_length'.
  by rewrite !length_app, !be_encode_length.
Qed.

Lemma manifest_identity_word : identity ≠ [] →
  be_decode (slice (20 + n * 16) (20 + n * 16 + 2) manifest_data) = Z.of_nat (length identity) ∧
  slice (20 + n * 16 + 2) (20 + n * 16 + 2 + length identity) manifest_data = identity.
Proof.
  intros Hid. destruct Hwf as (_ & _ & _ & _ & Hlen).
  assert (manifest_data = (manifestMagic ++ be_encode 8 g ++ be_encode 4 (u32 (Z.of_nat n)) ++ body) ++
    be_encode 2 (Z.of_nat (length identity) mod 2 ^ 16) ++ identity ++ be_encode 4 (crc_checksum manifest_buf)) as ->.
  { unfold manifest_data. unfold manifest_buf at 1, encodeIdentity.
    rewrite bool_decide_eq_false_2 by done. by rewrite <-!app_assoc. }
  assert (length (manifestMagic ++ be_encode 8 g ++ be_encode 4 (u32 (Z.of_nat n)) ++ body) = (20 + n * 16)%nat) as Hl.
  { rewrite !length_app, !be_encode_length, (encodeRefs_length _ _ Hbody). simpl. lia. }
  split.
  - rewrite slice_app_at; [|done|rewrite be_encode_length; lia].
    rewrite Z.mod_small by lia. apply be_decode_encode. lia.
  - rewrite app_assoc, slice_app_at; [done| |lia].
    rewrite length_app, Hl, be_encode_length. lia.
Qed.

Lemma manifest_checksum :
  be_decode (slice (length manifest_buf) (length manifest_buf + 4) manifest_data) = crc_checksum manifest_buf ∧
  take (length manifest_buf) manifest_data = manifest_buf.
Proof.
  unfold manifest_data. split; [|by apply take_app_length'].
  rewrite <-(app_nil_r (be_encode 4 _)), slice_app_at; [|done|rewrite be_encode_length; lia].
  apply be_decode_encode, crc_checksum_range.
Qed.

Lemma decodeManifest_data : decodeManifest manifest_data = Ok (g, refs, identity).
Proof.
  pose proof refs_positive as Hn. pose proof Hwf as (Hgr & Hcount & Hr & Hinc & Hid).
  pose proof manifest_data_length as Hdl. pose proof manifest_buf_length as Hbl.
  pose proof encodeIdentity_length as Hil.
  unfold decodeManifest, manifestHeaderSize, manifestRefSize, manifestCRCSize, manifestIdentityLen, maxIdentitySize.
  rewrite manifest_magic, manifest_generation, manifest_count, Nat2Z.id.
  destruct (Nat.ltb_spec (length manifest_data) (20 + 16 + 4)); [lia|].
  rewrite bool_decide_eq_true_2 by done. cbn [orb negb].
  assert ((Z.of_nat n <=? u32 (Z.of_nat ((length manifest_data - 20 - 4) / 16))) = true) as ->.
  { apply Z.leb_le. rewrite Hdl.
    replace (24 + n * 16 + length (encodeIdentity identity) - 20 - 4)%nat
      with (length (encodeIdentity identity) + n * 16)%nat by lia.
    rewrite Nat.div_add by lia. rewrite u32_small; [lia|].
    pose proof (Nat.Div0.div_le_upper_bound (length (encodeIdentity identity)) 16 5).
    revert Hil. case_bool_decide; lia. }
  destruct (Z.eqb_spec g 0) as [?|_]; [done|]. destruct (Z.eqb_spec (Z.of_nat n) 0) as [?|_]; [lia|].
  destruct (Nat.ltb_spec (length manifest_data) (20 + n * 16 + 4)); [lia|]. cbn [orb].
  assert (∀ id off, id = identity → off = length manifest_buf →
    (let '(identity, checksumOffset) := (id, off) in
     (guard (be_decode (slice checksumOffset (checksumOffset + 4) manifest_data) =?
       crc_checksum (take checksumOffset manifest_data)) else ManifestChecksum in
     (let! refs := decodeRefs n (drop 20 manifest_data) ∅ [] in Ok (g, refs, identity)))) =
    Ok (g, refs, identity)) as Hfinish.
  { intros id off -> ->. destruct manifest_checksum as [-> ->]. rewrite Z.eqb_refl, manifest_body.
    rewrite (decodeRefs_encodeRefs refs body _ ∅ [] 0); [done..|set_solver|done]. }
  revert Hil. case_bool_decide as Enil; intros Hil; rewrite Hil in *.
  - destruct (Nat.eqb_spec (length manifest_data) (20 + n * 16 + 4)) as [_|?]; [|lia]. apply Hfinish; [done|lia].
  - destruct (Nat.eqb_spec (length manifest_data) (20 + n * 16 + 4)) as [?|_]; [lia|].
    destruct (Nat.ltb_spec (length manifest_data) (20 + n * 16 + 2 + 4)) as [?|_]; [lia|].
    destruct (manifest_identity_word Enil) as [-> Hsl]. rewrite Nat2Z.id, Hsl.
    assert (length identity ≠ 0%nat) by (by destruct identity).
    destruct (Nat.eqb_spec (length identity) 0) as [?|_]; [done|].
    destruct (Nat.ltb_spec 64 (length identity)) as [?|_]; [lia|].
    destruct (Nat.eqb_spec (20 + n * 16 + 2 + length identity + 4) (length manifest_data)) as [_|?]; [|lia].
    apply Hfinish; [done|lia].
Qed.
End manifest_bytes.

(** A manifest written by [publishManifestLocked] reads back as the same
    generation, segment references and identity. *)
Theorem decodeManifest_encodeManifest g refs identity data :
  wf_manifest g refs identity → encodeManifest g refs identity = Ok data →
  decodeManifest data = Ok (g, refs, identity).
Proof.
  intros Hwf. unfold encodeManifest. destruct (_ || _) eqn:Hz; [done|]. bool_hyps.
  destruct (Nat.leb _ _); [|done]. destruct (encodeRefs refs) as [body|] eqn:Hb; [|done].
  cbn [rbind]. intros <-%Ok_inj. by apply (decodeManifest_data g refs identity body).
Qed.

Definition example_refs : list manifestRef := [mkRef 1 512 false; mkRef 3 0 true].

Lemma decodeManifest_encodeManifest_witness :
  ∃ data, encodeManifest 9 example_refs [x61; x62] = Ok data ∧
    decodeManifest data = Ok (9, example_refs, [x61; x62]).
Proof.
  eexists. split; [vm_compute; reflexivity|].
  apply (decodeManifest_encodeManifest 9 example_refs [x61; x62]); [|vm_compute; reflexivity].
  unfold wf_manifest, wf_ref, example_refs, increasing. simpl.
  split; [lia|]. split; [lia|]. split; [|split; lia].
  repeat constructor; simpl; lia.
Defined.
