(* ===== verification/Segment.v ===== *)
(** * Scanning a WAL segment (pkg/qlog/wal.go, scanEntries)

    The scan of a segment file as a function of its bytes, for sealed segments
    (strict), the active segment at startup (torn tail repaired) and read-only
    inspection (torn tail ignored). *)

From stdpp Require Import gmap list.
From S2P Require Import Prelude Bytes Entry.

Inductive scanMode := Strict | Repair | ReadOnlyTail.

(** One iteration per entry; [data] is the file from [offset] on.  The result
    is the entries visited and the segment offset at the end, to which the
    file is truncated in [Repair] mode. *)
Fixpoint scanLoop (fuel : nat) (mode : scanMode) (data : bytes) (offset : nat) (acc : list Entry)
    : result entryError (list Entry * nat) :=
  match fuel with
  | O => Ok (acc, offset)
  | S fuel' =>
      if bool_decide (data = []) then Ok (acc, offset)
      else
        let remaining := length data in
        let stop e :=
          match mode, e with
          | Strict, _ => Err e
          | _, UnexpectedEOF => Ok (acc, offset)
          | _, _ => Err e
          end in
        if Nat.ltb remaining entryHeaderSize && (match mode with ReadOnlyTail => true | _ => false end)
        then Ok (acc, offset)
        else
          match decodeEntryHeader (take entryHeaderSize data) with
          | Err e => stop e
          | Ok (payloadLen, _) =>
              let totalLen := (entryHeaderSize + Z.to_nat payloadLen)%nat in
              if Nat.ltb remaining totalLen then stop UnexpectedEOF
              else
                match DecodeEntry (take totalLen data) with
                | Err e => Err e
                | Ok (entry, _) =>
                    scanLoop fuel' mode (drop totalLen data) (offset + totalLen) (acc ++ [entry])
                end
          end
  end.

(** Every iteration consumes at least a header, so the length bounds them. *)
Definition scanEntries (mode : scanMode) (data : bytes) : result entryError (list Entry * nat) :=
  scanLoop (S (length data)) mode data 0 [].

Definition encodeAll (es : list Entry) : bytes := mjoin (Encode <$> es).

#[global] Arguments encodeAll : simpl never.

Lemma encodeAll_cons e es : encodeAll (e :: es) = Encode e ++ encodeAll es.
Proof. done. Qed.

Lemma encodeAll_app es es' : encodeAll (es ++ es') = encodeAll es ++ encodeAll es'.
Proof. unfold encodeAll. by rewrite fmap_app, join_app. Qed.

Definition wf_entries (es : list Entry) : Prop := Forall wf_entry es.

(** What a crash can leave behind the last whole entry. *)
Definition torn_tail (tail : bytes) : Prop :=
  tail = [] ∨ ∃ e n, wf_entry e ∧ (n < length (Encode e))%nat ∧ tail = take n (Encode e).

Lemma Encode_ge e : wf_entry e → (53 <= length (Encode e))%nat.
Proof. intros (_ & Hh & _). rewrite Encode_length by done. lia. Qed.

(** The header decoder only looks at the header. *)
Lemma decodeEntryHeader_take data :
  (53 <= length data)%nat → decodeEntryHeader (take 53 data) = decodeEntryHeader data.
Proof.
  intros H. unfold decodeEntryHeader, entryRecordCRCOffset, entryHeaderSize, entryHeaderCRCOffset.
  rewrite !slice_take, take_take, length_take by lia. rewrite (Nat.min_l 53 (length data)) by lia.
  destruct (Nat.leb_spec 45 (length data)); [|lia].
  destruct (Nat.leb_spec 53 (length data)); [|lia]. done.
Qed.

Lemma decodeHeader_of_encoded e rest :
  wf_entry e →
  decodeEntryHeader (take 53 (Encode e ++ rest)) =
  Ok (Z.of_nat (length (EPayload e)), crc_update (crc_checksum (entryPrefix e)) (EPayload e)).
Proof.
  intros Hwf. rewrite <-(decodeEntryHeader_encoded e rest Hwf). apply decodeEntryHeader_take.
  pose proof (Encode_ge e Hwf). rewrite length_app. lia.
Qed.

Lemma DecodeEntry_used data len crc e used :
  decodeEntryHeader (take 53 data) = Ok (len, crc) →
  (53 + Z.to_nat len <= length data)%nat →
  DecodeEntry (take (53 + Z.to_nat len) data) = Ok (e, used) → used = (53 + Z.to_nat len)%nat.
Proof.
  intros Hh Hlen. unfold DecodeEntry.
  rewrite <-decodeEntryHeader_take by (rewrite length_take; lia).
  rewrite take_take, Nat.min_l, Hh by lia. cbn [rbind]. unfold entryHeaderSize.
  destruct (Nat.leb _ _); [|done]. destruct (_ =? _); [|done]. by intros [= _ <-].
Qed.

Lemma scanLoop_entry fuel mode e rest offset acc :
  wf_entry e →
  scanLoop (S fuel) mode (Encode e ++ rest) offset acc =
  scanLoop fuel mode rest (offset + length (Encode e)) (acc ++ [e]).
Proof.
  intros Hwf. pose proof (Encode_ge e Hwf) as Hge. pose proof Hwf as (_ & Hh & _). cbn [scanLoop].
  rewrite bool_decide_eq_false_2 by (intros [E _]%app_nil; rewrite E in Hge; simpl in Hge; lia).
  unfold entryHeaderSize. rewrite decodeHeader_of_encoded by done.
  destruct (Nat.ltb_spec (length (Encode e ++ rest)) 53) as [Hlt|_]; [rewrite length_app in Hlt; lia|].
  cbn [andb]. rewrite Nat2Z.id, <-(Encode_length e) by done.
  destruct (Nat.ltb_spec (length (Encode e ++ rest)) (length (Encode e))) as [Hlt|_]; [rewrite length_app in Hlt; lia|].
  rewrite take_app_length, drop_app_length.
  pose proof (decode_encoded e [] Hwf) as Hd. rewrite app_nil_r in Hd. by rewrite Hd.
Qed.

Lemma torn_stop fuel mode tail offset acc :
  torn_tail tail → mode ≠ Strict → scanLoop (S fuel) mode tail offset acc = Ok (acc, offset).
Proof.
  intros Htorn Hmode. cbn [scanLoop]. case_bool_decide as Hnil; [done|].
  destruct Htorn as [?|(e & n & Hwf & Hn & ->)]; [done|].
  pose proof (Encode_ge e Hwf) as Hge. pose proof Hwf as (_ & Hh & _).
  assert (length (take n (Encode e)) = n) as Hl by (rewrite length_take; lia). rewrite Hl.
  unfold entryHeaderSize. rewrite take_take. destruct (Nat.ltb_spec n 53) as [Hlt|Hge'].
  - rewrite Nat.min_r by lia. pose proof (decode_torn e n Hwf Hn) as Ht.
    unfold DecodeEntry in Ht.
    destruct (decodeEntryHeader (take n (Encode e))) as [[len crc]|err] eqn:Eh.
    + apply decodeEntryHeader_Ok in Eh as [? _]. lia.
    + cbn [rbind] in Ht. injection Ht as ->. by destruct mode.
  - cbn [andb]. rewrite Nat.min_l by lia.
    pose proof (decodeHeader_of_encoded e [] Hwf) as Hd. rewrite app_nil_r in Hd. rewrite Hd, Nat2Z.id.
    rewrite Encode_length in Hn by done. destruct (Nat.ltb_spec n (53 + length (EPayload e))); [|lia].
    by destruct mode.
Qed.

Lemma scanLoop_encoded fuel mode es tail offset acc :
  wf_entries es → (length es < fuel)%nat → (mode = Strict → tail = []) → torn_tail tail →
  scanLoop fuel mode (encodeAll es ++ tail) offset acc = Ok (acc ++ es, (offset + length (encodeAll es))%nat).
Proof.
  intros Hwf. revert fuel offset acc. induction Hwf as [|e es He Hes IH]; intros fuel offset acc Hf Hs Ht.
  - simpl. rewrite Nat.add_0_r, app_nil_r. destruct fuel as [|fuel]; [simpl in Hf; lia|].
    destruct mode; [rewrite Hs by done; done|by apply torn_stop..].
  - destruct fuel as [|fuel]; [simpl in Hf; lia|]. rewrite encodeAll_cons, <-app_assoc.
    rewrite scanLoop_entry by done. simpl in Hf. rewrite IH by (done || lia).
    rewrite <-app_assoc, length_app. do 2 f_equal. lia.
Qed.

Lemma encodeAll_length_ge es : wf_entries es → (length es <= length (encodeAll es))%nat.
Proof.
  induction 1 as [|e es He Hes IH]; [done|]. rewrite encodeAll_cons, length_app.
  pose proof (Encode_ge e He). simpl. lia.
Qed.

Lemma scan_encoded mode es tail :
  wf_entries es → (mode = Strict → tail = []) → torn_tail tail →
  scanEntries mode (encodeAll es ++ tail) = Ok (es, length (encodeAll es)).
Proof.
  intros Hwf Hs Ht. unfold scanEntries.
  rewrite scanLoop_encoded; [done|done| |done|done].
  pose proof (encodeAll_length_ge es Hwf). rewrite length_app. lia.
Qed.

(** A scan recovers exactly the entries written before the cut.  The bytes
    of a segment after a crash are the entries that were written and a torn
    prefix of the next one: scanning them for repair returns those entries and
    the offset to truncate to. *)
Theorem scan_recovers es e n :
  wf_entries es → wf_entry e → (n < length (Encode e))%nat →
  scanEntries Repair (encodeAll es ++ take n (Encode e)) = Ok (es, length (encodeAll es)).
Proof.
  intros Hes He Hn. apply scan_encoded; [done|done|]. right. by exists e, n.
Qed.

Definition sample_entry (slot : Z) (payload : bytes) : Entry :=
  mkEntry slot (repeat x05 32) EntryReceipt payload.

Lemma scan_recovers_witness :
  scanEntries Repair (encodeAll [sample_entry 1 [x01]; sample_entry 2 []] ++
    take 50 (Encode (sample_entry 3 [x02; x03]))) =
  Ok ([sample_entry 1 [x01]; sample_entry 2 []], 107%nat).
Proof.
  apply (scan_recovers [sample_entry 1 [x01]; sample_entry 2 []] (sample_entry 3 [x02; x03]) 50).
  - repeat constructor; simpl; lia.
  - repeat constructor; simpl; lia.
  - vm_compute. lia.
Defined.

(** ** Soundness: whatever a scan returns is on disk *)

Lemma scanLoop_sound fuel mode data offset acc es off :
  scanLoop fuel mode data offset acc = Ok (es, off) →
  ∃ new, es = acc ++ new ∧ off = (offset + length (encodeAll new))%nat ∧
    wf_entries new ∧ encodeAll new `prefix_of` data ∧
    (mode = Strict → (length data < fuel)%nat → encodeAll new = data).
Proof.
  revert data offset acc. induction fuel as [|fuel IH]; intros data offset acc; cbn [scanLoop].
  { intros [= <- <-]. exists []. rewrite app_nil_r, Nat.add_0_r. split_and!; try done.
    - constructor.
    - apply prefix_nil.
    - intros _ H. lia. }
  case_bool_decide as Hnil.
  { intros [= <- <-]. exists []. subst. rewrite app_nil_r, Nat.add_0_r. split_and!; try done. constructor. }
  assert (mode ≠ Strict → Ok (acc, offset) = Ok (E := entryError) (es, off) →
    ∃ new, es = acc ++ new ∧ off = (offset + length (encodeAll new))%nat ∧
    wf_entries new ∧ encodeAll new `prefix_of` data ∧
    (mode = Strict → (length data < S fuel)%nat → encodeAll new = data)) as Hstop.
  { intros Hm [= <- <-]. exists []. rewrite app_nil_r, Nat.add_0_r. split_and!; try done.
    - constructor.
    - apply prefix_nil. }
  destruct (_ && _) eqn:Hro.
  { destruct mode; try (by rewrite andb_false_r in Hro). by apply Hstop. }
  unfold entryHeaderSize. destruct (decodeEntryHeader _) as [[len crc]|err] eqn:Hh.
  2:{ destruct mode, err; try done; by apply Hstop. }
  destruct (Nat.ltb_spec (length data) (53 + Z.to_nat len)) as [Hlt|Hge].
  { destruct mode; try done; by apply Hstop. }
  destruct (DecodeEntry _) as [[entry used]|] eqn:Hd; [|done].
  pose proof (DecodeEntry_used _ _ _ _ _ Hh Hge Hd) as ->.
  apply decode_canonical in Hd as (_ & Hdata & Hwf). rewrite take_take, Nat.min_id in Hdata.
  intros (new & -> & -> & Hnew & [rest Hrest] & Hstrict)%IH.
  exists (entry :: new). rewrite encodeAll_cons, <-Hdata, length_app, length_take, Nat.min_l by lia.
  rewrite <-app_assoc. split_and!; [done|lia|by apply Forall_cons| |].
  - exists rest. by rewrite <-app_assoc, <-Hrest, take_drop.
  - intros Hm Hf. rewrite Hstrict; [by rewrite take_drop|done|]. rewrite length_drop. lia.
Qed.

Lemma scan_sound mode data es off :
  scanEntries mode data = Ok (es, off) →
  wf_entries es ∧ take off data = encodeAll es ∧ off = length (encodeAll es) ∧
  (off <= length data)%nat ∧ (mode = Strict → encodeAll es = data).
Proof.
  intros (new & -> & -> & Hwf & [rest ->] & Hstrict)%scanLoop_sound. simpl.
  split_and!; [done|by apply take_app_length|done|rewrite length_app; lia|].
  intros Hm. apply Hstrict; [done|lia].
Qed.

(** A scan never invents entries.  In every mode the entries returned are
    exactly those encoded in the first [off] bytes of the file, and a strict
    scan that succeeds accounts for every byte of a sealed segment. *)
Theorem scan_faithful mode data es off :
  scanEntries mode data = Ok (es, off) →
  take off data = encodeAll es ∧ wf_entries es ∧ (mode = Strict → data = encodeAll es).
Proof. intros (? & ? & _ & _ & Hs)%scan_sound. split_and!; [done..|]. intros. symmetry. auto. Qed.

Lemma scan_faithful_witness :
  take 54 (encodeAll [sample_entry 1 [x01]]) = encodeAll [sample_entry 1 [x01]] ∧ wf_entries [sample_entry 1 [x01]] ∧
  (Strict = Strict → encodeAll [sample_entry 1 [x01]] = encodeAll [sample_entry 1 [x01]]).
Proof.
  apply (scan_faithful Strict (encodeAll [sample_entry 1 [x01]]) [sample_entry 1 [x01]] 54).
  vm_compute. reflexivity.
Defined.
