(* ===== verification/Wal.v ===== *)
(** * The write-ahead log (pkg/qlog/wal.go)

    The directory of segment and manifest files, and the operations of the WAL
    on it: [Open], [Append] with rollover, [Sync], [Read].  Every I/O call can
    fail, the outcomes are arguments; a power failure cuts unsynced bytes. *)

From stdpp Require Import gmap list.
From S2P Require Import Prelude Bytes Entry Manifest Segment.

(** ** Files *)

(** A segment file: its bytes, and how many of them reached the platter. *)
Record file := mkFile { content : bytes; synced : nat }.

#[global] Instance file_eq_dec : EqDecision file.
Proof. solve_decision. Defined.

(** A manifest appears atomically (written to a temporary file, synced,
    renamed); [pendingManifest] is one whose directory entry is not synced. *)
Record disk := mkDisk {
  segFiles : gmap Z file;
  manifests : gmap Z bytes;
  pendingManifest : option Z;
}.

Definition emptyDisk : disk := mkDisk ∅ ∅ None.

Definition set_file (d : disk) (i : Z) (f : file) : disk :=
  mkDisk (<[i := f]> (segFiles d)) (manifests d) (pendingManifest d).
Definition del_file (d : disk) (i : Z) : disk :=
  mkDisk (delete i (segFiles d)) (manifests d) (pendingManifest d).

(** Power failure: an unsynced suffix of each file is lost from any byte on,
    and a manifest whose directory entry is unsynced may be. *)
Definition power_loss (cut : Z → nat) (dropPending : bool) (d : disk) : disk :=
  mkDisk
    (map_imap (λ i f, let kept := take (Nat.max (synced f) (cut i)) (content f) in
       Some (mkFile kept (length kept))) (segFiles d))
    (match pendingManifest d with
     | Some g => if dropPending then delete g (manifests d) else manifests d
     | None => manifests d
     end) None.

(** ** The WAL handle

    A writable handle, as [Open] returns it: the read-only inspection mode and
    the deferred cleanup of a local bootstrap are left out.  A segment is its
    index and the offset of its end. *)

Record WAL := mkWAL {
  segments : list (Z * nat);
  generation : Z;
  maxSize : Z;
  maxBytes : Z;
  totalBytes : Z;
  identity : bytes;
  dirty : bool;
  fatal : bool;
}.

Definition defaultMaxSize : Z := 64 * 1024 * 1024.

Definition newWAL : WAL := mkWAL [] 0 defaultMaxSize 0 0 [] false false.

Inductive walError :=
| ErrFatal
| ErrCapacity
| ErrIO
| ErrExist
| ErrShortWrite
| ErrNotExist
| ErrSealedLength
| ErrManifestGeneration
| ErrLayout
| ErrManifest (e : manifestError)
| ErrEntry (e : entryError).

(** An operation returns its error (if any) with the handle and the disk. *)
Definition outcome_of (A : Type) : Type := result walError A * WAL * disk.

Definition with_segments (w : WAL) (s : list (Z * nat)) : WAL :=
  mkWAL s (generation w) (maxSize w) (maxBytes w) (totalBytes w) (identity w) (dirty w) (fatal w).
Definition with_generation (w : WAL) (g : Z) : WAL :=
  mkWAL (segments w) g (maxSize w) (maxBytes w) (totalBytes w) (identity w) (dirty w) (fatal w).
Definition with_dirty (w : WAL) (b : bool) : WAL :=
  mkWAL (segments w) (generation w) (maxSize w) (maxBytes w) (totalBytes w) (identity w) b (fatal w).
Definition with_fatal (w : WAL) : WAL :=
  mkWAL (segments w) (generation w) (maxSize w) (maxBytes w) (totalBytes w) (identity w) (dirty w) true.

Definition current (w : WAL) : option (Z * nat) := last (segments w).

Definition hasSegment (w : WAL) (index : Z) : bool :=
  existsb (λ s, s.1 =? index) (segments w).

(** ** Manifest publication *)

Inductive publishOutcome := PubFails | PubDone (cleanup : bool) | PubUncertain.

Fixpoint refs_of (segs : list (Z * nat)) : list manifestRef :=
  match segs with
  | [] => []
  | [(i, _)] => [mkRef i 0 true]
  | (i, off) :: segs' => mkRef i (Z.of_nat off) false :: refs_of segs'
  end.

Definition publishManifestLocked (io : publishOutcome) (segs : list (Z * nat)) (w : WAL) (d : disk)
    : outcome_of unit :=
  let g := u64 (generation w + 1) in
  match encodeManifest g (refs_of segs) (identity w) with
  | Err e => (Err (ErrManifest e), w, d)
  | Ok data =>
      match io with
      | PubFails => (Err ErrIO, w, d)
      | PubUncertain =>
          (Err ErrIO, with_fatal (with_generation w g),
           mkDisk (segFiles d) (<[g := data]> (manifests d)) (Some g))
      | PubDone cleanup =>
          (Ok tt, with_generation w g,
           mkDisk (segFiles d) (if cleanup then {[g := data]} else <[g := data]> (manifests d)) None)
      end
  end.

(** ** Segment creation *)

Record createIO := mkCreateIO {
  ioSync : bool;
  ioCreate : bool;
  ioDirSync : bool;
  ioPublish : publishOutcome;
}.

Definition sync_file (d : disk) (i : Z) : disk :=
  match segFiles d !! i with
  | Some f => set_file d i (mkFile (content f) (length (content f)))
  | None => d
  end.

(** The active segment is synced before it is sealed. *)
Definition seal_current (io : createIO) (w : WAL) (d : disk) : option (WAL * disk) :=
  match current w with
  | None => Some (w, d)
  | Some (i, _) => if ioSync io then Some (with_dirty w false, sync_file d i) else None
  end.

Definition createSegment (io : createIO) (index : Z) (w : WAL) (d : disk) : outcome_of unit :=
  match seal_current io w d with
  | None => (Err ErrIO, w, d)
  | Some (w1, d1) =>
      if bool_decide (is_Some (segFiles d1 !! index)) && hasSegment w1 index then (Err ErrExist, w1, d1)
      else if negb (ioCreate io) then (Err ErrIO, w1, d1)
      else if negb (ioDirSync io) then (Err ErrIO, w1, del_file d1 index)
      else
        let w2 := with_segments w1 (segments w1 ++ [(index, 0%nat)]) in
        let d2 := set_file d1 index (mkFile [] 0) in
        match publishManifestLocked (ioPublish io) (segments w2) w2 d2 with
        | (Ok _, w3, d3) => (Ok tt, w3, d3)
        | (Err e, w3, d3) =>
            if negb (generation w3 =? generation w1) then (Err e, w3, d3)
            else (Err e, with_segments w3 (segments w1), del_file d3 index)
        end
  end.

(** ** Append and Sync *)

(** [WriteAt] either stores everything or an initial part. *)
Inductive writeOutcome := WriteDone | WriteShort (n : nat).

Definition write_at (off : nat) (data file : bytes) : bytes :=
  take off file ++ data ++ drop (off + length data) file.

Record appendIO := mkAppendIO { ioRoll : createIO; ioWrite : writeOutcome }.

Definition store (io : appendIO) (data : bytes) (w : WAL) (d : disk) : outcome_of unit :=
  match current w with
  | None => (Err ErrNotExist, w, d)
  | Some (i, off) =>
      match segFiles d !! i with
      | None => (Err ErrNotExist, w, d)
      | Some f =>
          match ioWrite io with
          | WriteShort n =>
              (Err ErrFatal, with_fatal w,
               set_file d i (mkFile (write_at off (take n data) (content f)) (synced f)))
          | WriteDone =>
              let segs := removelast (segments w) ++ [(i, (off + length data)%nat)] in
              (Ok tt,
               mkWAL segs (generation w) (maxSize w) (maxBytes w)
                 (totalBytes w + Z.of_nat (length data)) (identity w) true (fatal w),
               set_file d i (mkFile (write_at off data (content f)) (synced f)))
          end
      end
  end.

Definition Append (io : appendIO) (entry : Entry) (w : WAL) (d : disk) : outcome_of unit :=
  if fatal w then (Err ErrFatal, w, d)
  else
    let data := Encode entry in
    if (0 <? maxBytes w) && (maxBytes w - totalBytes w <? Z.of_nat (length data))
    then (Err ErrCapacity, w, d)
    else
      let rolled :=
        match current w with
        | Some (i, off) =>
            if maxSize w <? Z.of_nat (off + length data) then createSegment (ioRoll io) (u32 (i + 1)) w d
            else (Ok tt, w, d)
        | None => createSegment (ioRoll io) 1 w d
        end in
      match rolled with
      | (Err e, w1, d1) => (Err e, w1, d1)
      | (Ok _, w1, d1) => store io data w1 d1
      end.

Definition Sync (ioOk : bool) (w : WAL) (d : disk) : outcome_of unit :=
  if fatal w then (Err ErrFatal, w, d)
  else
    match current w with
    | None => (Ok tt, w, d)
    | Some (i, _) =>
        if negb (dirty w) then (Ok tt, w, d)
        else if ioOk then (Ok tt, with_dirty w false, sync_file d i)
        else (Err ErrIO, w, d)
    end.

(** ** Read and Open *)

Fixpoint readSegments (segs : list (Z * nat)) (d : disk) : result walError (list Entry) :=
  match segs with
  | [] => Ok []
  | (i, _) :: segs' =>
      match segFiles d !! i with
      | None => Err ErrNotExist
      | Some f =>
          match scanEntries Strict (content f) with
          | Err e => Err (ErrEntry e)
          | Ok (es, _) => let! rest := readSegments segs' d in Ok (es ++ rest)
          end
      end
  end.

Definition Read (w : WAL) (d : disk) : result walError (list Entry) := readSegments (segments w) d.

(** The loop of [loadSegments]: only the last segment may have a torn tail. *)
Fixpoint loadRefs (refs : list manifestRef) (segs : list (Z * nat)) (total : Z) (d : disk)
    : result walError (list (Z * nat) * Z * disk) :=
  match refs with
  | [] => Ok (segs, total, d)
  | r :: refs' =>
      match segFiles d !! refIndex r with
      | None => Err ErrNotExist
      | Some f =>
          if negb (refActive r) && negb (Z.of_nat (length (content f)) =? refLength r) then Err ErrSealedLength
          else
            match scanEntries (if bool_decide (refs' = []) then Repair else Strict) (content f) with
            | Err e => Err (ErrEntry e)
            | Ok (_, off) =>
                let d' := if Nat.ltb off (length (content f))
                  then set_file d (refIndex r) (mkFile (take off (content f)) off) else d in
                loadRefs refs' (segs ++ [(refIndex r, off)]) (total + Z.of_nat off) d'
            end
      end
  end.

(** The name order of the zero-padded manifest files is the numeric order. *)
Definition latestManifest (d : disk) : option (Z * bytes) :=
  map_fold (λ g data best,
    match best with
    | Some (g', _) => if g' <? g then Some (g, data) else best
    | None => Some (g, data)
    end) None (manifests d).

Definition createAll : createIO := mkCreateIO true true true (PubDone true).

(** Leftovers without a manifest: at most one empty first segment. *)
Definition reconcileManifestlessFiles (d : disk) : result walError disk :=
  if bool_decide (segFiles d = ∅) then Ok d
  else if bool_decide (map_Forall (λ i f, i = 1 ∧ content f = []) (segFiles d))
  then Ok (mkDisk ∅ (manifests d) (pendingManifest d))
  else Err ErrLayout.

(** Leftovers of an interrupted publication: the directory is synced when
    anything was removed.  A cleanup that fails is only logged; here it
    succeeds. *)
Definition reconcileCommittedFiles (latest : Z) (refs : list manifestRef) (d : disk) : disk :=
  let segs := filter (λ '(i, _), i ∈ refIndex <$> refs) (segFiles d) in
  let mans := filter (λ '(g, _), g = latest) (manifests d) in
  let changed := negb (bool_decide (segs = segFiles d)) || negb (bool_decide (mans = manifests d)) in
  mkDisk segs mans (if changed then None else pendingManifest d).

Definition Open (io : createIO) (d : disk) : result walError (WAL * disk) :=
  match latestManifest d with
  | None =>
      let! d1 := reconcileManifestlessFiles d in
      match createSegment io 1 newWAL d1 with
      | (Ok _, w, d2) => Ok (w, d2)
      | (Err e, _, _) => Err e
      end
  | Some (name, data) =>
      match decodeManifest data with
      | Err e => Err (ErrManifest e)
      | Ok (g, refs, id) =>
          if negb (name =? g) then Err ErrManifestGeneration
          else
            let! r := loadRefs refs [] 0 d in
            let '(segs, total, d1) := r in
            Ok (mkWAL segs g defaultMaxSize 0 total id false false, reconcileCommittedFiles name refs d1)
      end
  end.
