(* ===== verification/WalSafety.v ===== *)
(** * Crash safety of the write-ahead log

    The invariant of a live WAL handle, its preservation by every outcome of
    [Append], [Sync] and rollover, and recovery: after a power failure [Open]
    succeeds and [Read] returns a prefix of what was appended that contains
    everything synced. *)

From stdpp Require Import gmap list.
From S2P Require Import Prelude Bytes Entry Manifest Segment Wal.

(** ** Entries stored in segments *)

(** [stored d segs ess tail]: segment by segment the files hold the entries
    [ess]; all but the last are sealed and synced, the last may end in [tail]. *)
Inductive stored (d : disk) : list (Z * nat) → list (list Entry) → bytes → Prop :=
| stored_last i es f tail :
    segFiles d !! i = Some f → content f = encodeAll es ++ tail → wf_entries es → torn_tail tail →
    (synced f <= length (content f))%nat →
    stored d [(i, length (encodeAll es))] [es] tail
| stored_cons i es f segs ess tail :
    segFiles d !! i = Some f → content f = encodeAll es → wf_entries es →
    synced f = length (content f) → stored d segs ess tail →
    stored d ((i, length (encodeAll es)) :: segs) (es :: ess) tail.

Lemma torn_nil : torn_tail [].
Proof. by left. Qed.
#[export] Hint Resolve torn_nil : rhiza.

Lemma stored_nonempty d segs ess tail : stored d segs ess tail → segs ≠ [].
Proof. by destruct 1. Qed.

Lemma stored_frame d d' segs ess tail :
  (∀ s, s ∈ segs → segFiles d' !! s.1 = segFiles d !! s.1) →
  stored d segs ess tail → stored d' segs ess tail.
Proof.
  intros H Hs. induction Hs as [i es f tail Hf Hc Hwf Ht Hsy|i es f segs ess tail Hf Hc Hwf Hsy Hs IH].
  - apply (stored_last d' i es f); try done.
    rewrite <-Hf. apply (H (i, length (encodeAll es))). by left.
  - apply (stored_cons d' i es f); try done.
    + rewrite <-Hf. apply (H (i, length (encodeAll es))). by left.
    + apply IH. intros s ?. apply H. by right.
Qed.

Lemma refs_of_cons i off segs : segs ≠ [] →
  refs_of ((i, off) :: segs) = mkRef i (Z.of_nat off) false :: refs_of segs.
Proof. by destruct segs as [|[??] ?]. Qed.

Lemma refs_of_nil segs : refs_of segs = [] ↔ segs = [].
Proof. destruct segs as [|[??] [|? ?]]; simpl; naive_solver. Qed.

Lemma refs_of_index segs : refIndex <$> refs_of segs = segs.*1.
Proof.
  induction segs as [|[i off] segs IH]; [done|]. destruct segs as [|s segs]; [done|].
  rewrite refs_of_cons by done. by rewrite !fmap_cons, IH.
Qed.

Lemma increasing_lt p refs i : increasing p refs → i ∈ refIndex <$> refs → p < i.
Proof.
  revert p. induction refs as [|r refs IH]; intros p; [by intros _ ?%elem_of_nil|].
  intros [Hr Hi] [->|Hin]%elem_of_cons; [done|]. apply (IH (refIndex r)) in Hin; [lia|done].
Qed.

Lemma increasing_segs p segs s : increasing p (refs_of segs) → s ∈ segs → p < s.1.
Proof.
  intros Hi Hs. apply (increasing_lt _ _ _ Hi). rewrite refs_of_index. by apply list_elem_of_fmap_2.
Qed.

(** The strict scan of a sealed segment and the whole log. *)
Lemma readSegments_stored d segs ess :
  stored d segs ess [] → readSegments segs d = Ok (mjoin ess).
Proof.
  intros H. remember [] as tail eqn:Et. induction H as [i es f tail Hf Hc Hwf Ht Hsy|i es f segs ess tail Hf Hc Hwf Hsy Hs IH]; subst; cbn [readSegments].
  - rewrite Hf, Hc, (scan_encoded Strict es []) by auto with rhiza. simpl. by rewrite !app_nil_r.
  - rewrite Hf, Hc. rewrite <-(app_nil_r (encodeAll es)), (scan_encoded Strict es []) by auto with rhiza.
    by rewrite IH.
Qed.

(** Nothing on disk is waiting for a sync, as after a power failure. *)
Definition fully_synced (d : disk) : Prop :=
  ∀ i f, segFiles d !! i = Some f → synced f = length (content f).

Definition sizes (segs : list (Z * nat)) : Z := foldr (λ s n, Z.of_nat s.2 + n) 0 segs.

(** Loading repairs the tail and keeps everything else. *)
Lemma loadRefs_stored d segs ess tail p acc total :
  stored d segs ess tail → increasing p (refs_of segs) →
  ∃ d', loadRefs (refs_of segs) acc total d = Ok (acc ++ segs, total + sizes segs, d') ∧
    stored d' segs ess [] ∧ manifests d' = manifests d ∧ pendingManifest d' = pendingManifest d ∧
    (∀ i, i ∉ segs.*1 → segFiles d' !! i = segFiles d !! i) ∧ (tail = [] → d' = d) ∧
    (fully_synced d → fully_synced d').
Proof.
  intros H. revert p acc total.
  induction H as [i es f tail Hf Hc Hwf Ht Hsy|i es f segs ess tail Hf Hc Hwf Hsy Hs IH];
    intros p acc total Hinc.
  - cbn [refs_of loadRefs refIndex refActive negb andb]. rewrite Hf, bool_decide_eq_true_2 by done.
    rewrite Hc, (scan_encoded Repair es tail) by done. cbn [sizes foldr].
    destruct (Nat.ltb_spec (length (encodeAll es)) (length (encodeAll es ++ tail))) as [Hlt|Hge].
    + eexists. split; [by rewrite Z.add_0_r|]. split_and!; [|done|done| | |].
      * eapply stored_last; [apply lookup_insert_eq| |done|apply torn_nil|]; simpl;
          [by rewrite take_app_length, app_nil_r|rewrite length_take, length_app; lia].
      * intros j Hj. apply lookup_insert_ne. set_solver.
      * intros ->. rewrite app_nil_r in Hlt. lia.
      * intros Hfull j fj Hj. simpl in Hj. apply lookup_insert_Some in Hj as [[<- <-]|[_ Hj]]; [|by apply (Hfull j)]. simpl.
        rewrite length_take, length_app. lia.
    + eexists. split; [by rewrite Z.add_0_r|]. split_and!; try done.
      assert (tail = []) as ->. { rewrite length_app in Hge. destruct tail; [done|]. simpl in Hge. lia. }
      by eapply stored_last.
  - assert (segs ≠ []) as Hne by by eapply stored_nonempty.
    rewrite refs_of_cons in Hinc |- * by done. destruct Hinc as [Hp Hinc]. simpl in Hp, Hinc.
    cbn [loadRefs refIndex refActive refLength negb andb]. rewrite Hf, Hc.
    rewrite Z.eqb_refl. cbn [negb]. rewrite bool_decide_eq_false_2 by (by rewrite refs_of_nil).
    assert (scanEntries Strict (encodeAll es) = Ok (es, length (encodeAll es))) as ->.
    { rewrite <-(app_nil_r (encodeAll es)) at 1. apply scan_encoded; auto with rhiza. }
    rewrite Nat.ltb_irrefl.
    destruct (IH i (acc ++ [(i, length (encodeAll es))]) (total + Z.of_nat (length (encodeAll es))) Hinc)
      as (d' & -> & Hst & Hm & Hpd & Hfr & Hnil & Hfull).
    exists d'. split; [cbn [sizes foldr snd]; rewrite <-app_assoc; do 2 f_equal; unfold sizes; f_equal; lia|].
    split_and!; [|done|done| |done|done].
    + eapply stored_cons; [|done..]. rewrite Hfr; [done|].
      intros (s & -> & Hin)%list_elem_of_fmap. pose proof (increasing_segs _ _ _ Hinc Hin). lia.
    + intros j Hj. apply Hfr. set_solver.
Qed.

(** ** Manifests *)

Record published (d : disk) (g : Z) (segs : list (Z * nat)) (id : bytes) : Prop := {
  pub_data : ∃ data, manifests d !! g = Some data ∧ encodeManifest g (refs_of segs) id = Ok data;
  pub_wf : wf_manifest g (refs_of segs) id;
  pub_latest : ∀ g', is_Some (manifests d !! g') → g' <= g;
}.

Lemma latestManifest_spec d g data :
  manifests d !! g = Some data → (∀ g', is_Some (manifests d !! g') → g' <= g) →
  latestManifest d = Some (g, data).
Proof.
  unfold latestManifest. generalize (manifests d). intros m Hg Hmax.
  assert (∀ (r : option (Z * bytes)) (m' : gmap Z bytes), r = map_fold (λ g data best, match best with
      | Some (g', _) => if g' <? g then Some (g, data) else best
      | None => Some (g, data) end) None m' →
    match r with
    | None => m' = ∅
    | Some (g1, x) => m' !! g1 = Some x ∧ ∀ g', is_Some (m' !! g') → g' <= g1
    end) as Hspec.
  { intros r m' ->. revert m'. apply (map_fold_weak_ind (λ (r : option (Z * bytes)) (m' : gmap Z bytes), match r with
      | None => m' = ∅
      | Some (g1, x) => m' !! g1 = Some x ∧ ∀ g', is_Some (m' !! g') → g' <= g1 end)); [done|].
    intros k y m1 [[g1 x]|] Hk; simpl.
    - intros [H1 H2]. destruct (Z.ltb_spec g1 k).
      + split; [apply lookup_insert_eq|]. intros g' [<-|[_ Hs]]%lookup_insert_is_Some; [lia|].
        apply H2 in Hs. lia.
      + split; [rewrite lookup_insert_ne; [done|congruence]|].
        intros g' [<-|[_ Hs]]%lookup_insert_is_Some; [lia|]. auto.
    - intros ->. split; [apply lookup_insert_eq|]. intros g' [<-|[_ Hs]]%lookup_insert_is_Some; [lia|].
      rewrite lookup_empty in Hs. by destruct Hs. }
  specialize (Hspec _ m eq_refl). destruct (map_fold _ _ m) as [[g1 x]|].
  - destruct Hspec as [H1 H2]. assert (g1 = g) as ->.
    { pose proof (Hmax g1 (mk_is_Some _ _ H1)). pose proof (H2 g (mk_is_Some _ _ Hg)). lia. }
    congruence.
  - subst. by rewrite lookup_empty in Hg.
Qed.

(** [Open] on a disk with a published manifest and its segments. *)
Lemma Open_published io d g segs id ess tail :
  stored d segs ess tail → published d g segs id →
  ∃ w d', Open io d = Ok (w, d') ∧ segments w = segs ∧ generation w = g ∧ identity w = id ∧
    fatal w = false ∧ dirty w = false ∧ stored d' segs ess [] ∧ published d' g segs id ∧
    (pendingManifest d = None ∨ (∃ g0, g0 ≠ g ∧ is_Some (manifests d !! g0)) → pendingManifest d' = None) ∧
    Read w d' = Ok (mjoin ess) ∧ (fully_synced d → fully_synced d').
Proof.
  intros Hst Hpub. pose proof Hpub as [(data & Hdata & Henc) Hwf Hmax].
  unfold Open. rewrite (latestManifest_spec d g data Hdata Hmax).
  assert (decodeManifest data = Ok (g, refs_of segs, id)) as ->.
  { unfold encodeManifest in Henc. destruct (_ || _) eqn:Hz; [done|]. bool_hyps.
    destruct (Nat.leb _ _); [|done]. destruct (encodeRefs (refs_of segs)) as [body|] eqn:Hb; [|done].
    cbn [rbind] in Henc. apply Ok_inj in Henc as <-.
    by apply (decodeManifest_data g (refs_of segs) id body). }
  rewrite Z.eqb_refl. cbn [negb].
  destruct (loadRefs_stored d segs ess tail 0 [] 0 Hst) as (d' & -> & Hst' & Hm & Hp & Hfr & Hnil & Hfull);
    [apply Hwf|]. cbn [rbind].
  assert (∀ s, s ∈ segs → segFiles (reconcileCommittedFiles g (refs_of segs) d') !! s.1 = segFiles d' !! s.1) as Hkeep.
  { intros s Hs. simpl. apply option_eq. intros f. rewrite map_lookup_filter_Some, refs_of_index.
    split; [by intros [? _]|]. intros ?. split; [done|]. by apply list_elem_of_fmap_2. }
  eexists _, _. split; [done|]. cbn [segments generation identity fatal dirty].
  split_and!; try done.
  - by apply (stored_frame d').
  - split; [|done|].
    + exists data. split; [|done]. simpl. apply map_lookup_filter_Some. by rewrite Hm.
    + intros g' [x Hx]. simpl in Hx. apply map_lookup_filter_Some in Hx as [_ ->]. done.
  - intros Hold. cbn [reconcileCommittedFiles pendingManifest]. case_match eqn:Hch; [done|]. rewrite Hp.
    destruct Hold as [?|(g0 & Hne & [x Hx])]; [done|]. exfalso. apply orb_false_iff in Hch as [_ Hch]. bool_hyps.
    rewrite Hm in Hch. rewrite <-Hch in Hx. by apply map_lookup_filter_Some in Hx as [_ ->].
  - apply readSegments_stored. by apply (stored_frame d').
  - intros Hf i f Hi. simpl in Hi. apply map_lookup_filter_Some in Hi as [Hi _]. by apply (Hfull Hf i).
Qed.

(** ** Power failure *)

(** Cutting a segment anywhere leaves whole entries and a torn tail. *)
Lemma cut_entries es tail n :
  wf_entries es → torn_tail tail →
  ∃ m tail', take n (encodeAll es ++ tail) = encodeAll (take m es) ++ tail' ∧ torn_tail tail' ∧
    ∀ j, (j <= length es)%nat → (length (encodeAll (take j es)) <= n)%nat → (j <= m)%nat.
Proof.
  intros Hwf Ht. revert n. induction Hwf as [|e es He Hes IH]; intros n.
  - exists 0%nat, (take n tail). split; [done|]. split; [|intros j Hj; simpl in Hj; lia].
    destruct Ht as [->|(e & k & He & Hk & ->)]; [left; by rewrite take_nil|].
    right. exists e, (Nat.min n k). split_and!; [done|lia|]. by rewrite take_take.
  - rewrite encodeAll_cons, <-app_assoc. destruct (decide (n < length (Encode e))%nat) as [Hlt|Hge].
    + exists 0%nat, (take n (Encode e)). split; [by rewrite take_app_le by lia|].
      split; [right; by exists e, n|]. intros [|j] Hj; [lia|].
      rewrite firstn_cons, encodeAll_cons, length_app. lia.
    + destruct (IH (n - length (Encode e))%nat) as (m & tail' & E & Ht' & Hj).
      exists (S m), tail'. split_and!; [|done|].
      * rewrite take_app_ge, E by lia. by rewrite firstn_cons, encodeAll_cons, app_assoc.
      * intros [|j] Hjl Hn; [lia|]. simpl in Hjl. rewrite firstn_cons, encodeAll_cons, length_app in Hn.
        specialize (Hj j). lia.
Qed.

(** The synced bytes of the active segment. *)
Definition synced_tail (d : disk) (segs : list (Z * nat)) : nat :=
  match last segs with
  | Some (i, _) => match segFiles d !! i with Some f => synced f | None => 0 end
  | None => 0
  end.

Lemma stored_power_loss d segs ess tail cut drop :
  stored d segs ess tail →
  ∃ segs' pre es m tail', ess = pre ++ [es] ∧ refs_of segs' = refs_of segs ∧
    stored (power_loss cut drop d) segs' (pre ++ [take m es]) tail' ∧
    ∀ j, (j <= length es)%nat → (length (encodeAll (take j es)) <= synced_tail d segs)%nat → (j <= m)%nat.
Proof.
  intros H. induction H as [i es f tail Hf Hc Hwf Ht Hsy|i es f segs ess tail Hf Hc Hwf Hsy Hs IH].
  - destruct (cut_entries es tail (Nat.max (synced f) (cut i)) Hwf Ht) as (m & tail' & E & Ht' & Hj).
    exists [(i, length (encodeAll (take m es)))], [], es, m, tail'. split; [done|]. split; [done|]. split.
    + eapply stored_last; [|..].
      * simpl. rewrite map_lookup_imap, Hf. simpl. done.
      * simpl. by rewrite Hc, E.
      * by apply Forall_take.
      * done.
      * simpl. done.
    + intros j Hjl Hle. apply Hj; [done|]. unfold synced_tail in Hle. simpl in Hle. rewrite Hf in Hle. lia.
  - destruct IH as (segs' & pre & es' & m & tail' & -> & Hrefs & Hst & Hj).
    assert (segs' ≠ [] ∧ segs ≠ []) as [? ?] by (split; by eapply stored_nonempty).
    exists ((i, length (encodeAll es)) :: segs'), (es :: pre), es', m, tail'.
    split; [done|]. split; [by rewrite !refs_of_cons, Hrefs by done|]. split.
    + eapply stored_cons; [|..|done].
      * simpl. rewrite map_lookup_imap, Hf. done.
      * simpl. rewrite Hsy, take_ge by lia. done.
      * done.
      * done.
    + intros j Hjl. unfold synced_tail. destruct segs as [|s segs]; [done|]. rewrite last_cons_cons. by apply Hj.
Qed.

(** What the disk guarantees between operations.  [es] are the entries
    appended, [base] those of them that must survive.  The published
    generation is the stored one; after an uncertain publication both the new
    and the previous generation lead to the same entries. *)
Inductive recoverable (d : disk) (es base : list Entry) : Prop :=
| rec_published g segs id pre active j tail :
    stored d segs (pre ++ [active]) tail → published d g segs id → pendingManifest d = None →
    (j <= length active)%nat → (length (encodeAll (take j active)) <= synced_tail d segs)%nat →
    es = mjoin pre ++ active → base = mjoin pre ++ take j active → recoverable d es base
| rec_pending g segs id ess i :
    stored d segs ess [] → (length (encodeAll (default [] (last ess))) <= synced_tail d segs)%nat →
    segFiles d !! i = Some (mkFile [] 0) →
    pendingManifest d = Some (g + 1) →
    published d (g + 1) (segs ++ [(i, 0%nat)]) id →
    published (mkDisk (segFiles d) (delete (g + 1) (manifests d)) None) g segs id →
    es = mjoin ess → base = es → recoverable d es base.

Lemma power_loss_published cut drop d g segs id :
  published d g segs id → pendingManifest d = None → published (power_loss cut drop d) g segs id.
Proof. intros [H1 H2 H3] Hp. unfold power_loss. rewrite Hp. by split. Qed.

Lemma published_refs d g segs segs' id :
  refs_of segs' = refs_of segs → published d g segs id → published d g segs' id.
Proof. intros E [H1 H2 H3]. split; rewrite ?E; done. Qed.

Lemma last_snoc_default {A} (l : list (list A)) x : default [] (last (l ++ [x])) = x.
Proof. by rewrite last_snoc. Qed.

Lemma stored_snoc d segs ess i f :
  stored d segs ess [] → (length (encodeAll (default [] (last ess))) <= synced_tail d segs)%nat →
  segFiles d !! i = Some f → content f = [] → (synced f <= 0)%nat →
  stored d (segs ++ [(i, 0%nat)]) (ess ++ [[]]) [].
Proof.
  intros H. remember [] as tail eqn:Et. induction H as [j es g tail Hf Hc Hwf Ht Hsy|j es g segs ess tail Hf Hc Hwf Hsy Hs IH]; subst.
  - unfold synced_tail. simpl. rewrite Hf. intros Hsync Hi Hci Hsi. apply (stored_cons d j es g).
    + done.
    + by rewrite Hc, app_nil_r.
    + done.
    + rewrite Hc, app_nil_r in *. lia.
    + apply (stored_last d i [] f); [done..|constructor|apply torn_nil|rewrite Hci; simpl; lia].
  - intros Hsync Hi Hci Hsi. apply (stored_cons d j es g); [done..|]. apply IH; try done.
    destruct segs as [|s segs]; [by inversion Hs|]. destruct ess as [|x ess]; [by inversion Hs|].
    unfold synced_tail in *. by rewrite !last_cons_cons in Hsync.
Qed.

Lemma stored_snoc_inv d segs ess tail :
  stored d segs ess tail → ∃ pre active, ess = pre ++ [active].
Proof.
  induction 1 as [i es f tail|i es f segs ess tail ? ? ? ? Hs (pre & active & ->)]; [by exists [], es|].
  by exists (es :: pre), active.
Qed.

Lemma mjoin_snoc {A} (l : list (list A)) x : mjoin (l ++ [x]) = mjoin l ++ x.
Proof. rewrite join_app. simpl. by rewrite app_nil_r. Qed.

(** ** The active segment apart from the sealed ones *)

Definition sealed (d : disk) (s : Z * nat) (es : list Entry) : Prop :=
  ∃ f, segFiles d !! s.1 = Some f ∧ content f = encodeAll es ∧ s.2 = length (encodeAll es) ∧
    wf_entries es ∧ synced f = length (content f).

Lemma stored_split d segs pre active tail :
  stored d segs (pre ++ [active]) tail ↔
  ∃ psegs i f, segs = psegs ++ [(i, length (encodeAll active))] ∧ Forall2 (sealed d) psegs pre ∧
    segFiles d !! i = Some f ∧ content f = encodeAll active ++ tail ∧ wf_entries active ∧
    torn_tail tail ∧ (synced f <= length (content f))%nat.
Proof.
  split.
  - remember (pre ++ [active]) as ess eqn:Ee. intros H. revert pre Ee.
    induction H as [i es f tail Hf Hc Hwf Ht Hsy|i es f segs ess tail Hf Hc Hwf Hsy Hs IH]; intros pre Ee.
    + destruct pre as [|p [|??]]; simplify_eq/=. exists [], i, f. by split_and!.
    + destruct pre as [|p pre]; simplify_eq/=; [by inversion Hs|].
      destruct (IH pre eq_refl) as (psegs & k & f' & -> & Hall & ?).
      exists ((i, length (encodeAll p)) :: psegs), k, f'. split; [done|]. split; [|done].
      constructor; [|done]. exists f. by split_and!.
  - intros (psegs & i & f & -> & Hall & Hf & Hc & Hwf & Ht & Hsy).
    induction Hall as [|[k off] es psegs pre (f' & Hf' & Hc' & Hoff & Hwf' & Hs') Hall IH]; simpl.
    + by apply (stored_last d i active f).
    + simpl in Hoff. subst off. by apply (stored_cons d k es f').
Qed.

Lemma sealed_frame d d' psegs pre :
  (∀ s, s ∈ psegs → segFiles d' !! s.1 = segFiles d !! s.1) →
  Forall2 (sealed d) psegs pre → Forall2 (sealed d') psegs pre.
Proof.
  intros Hfr Hall. induction Hall as [|s es psegs pre (f & Hf & ?) Hall IH]; constructor.
  - exists f. rewrite Hfr; [done|]. by left.
  - apply IH. intros. apply Hfr. by right.
Qed.

Record live (w : WAL) (d : disk) (ess : list (list Entry)) : Prop := {
  lv_fatal : fatal w = false;
  lv_stored : stored d (segments w) ess [];
  lv_pub : published d (generation w) (segments w) (identity w);
  lv_pend : pendingManifest d = None;
}.

(** The counters of the format are not exhausted. *)
Definition roomy (w : WAL) : Prop :=
  generation w + 1 < 2 ^ 64 ∧ Z.of_nat (length (segments w)) + 1 < 2 ^ 27 ∧
  ∀ s, s ∈ segments w → s.1 + 1 < 2 ^ 32 ∧ Z.of_nat s.2 < 2 ^ 64.

Lemma live_recoverable w d pre active j :
  live w d (pre ++ [active]) → (j <= length active)%nat →
  (length (encodeAll (take j active)) <= synced_tail d (segments w))%nat →
  recoverable d (mjoin pre ++ active) (mjoin pre ++ take j active).
Proof.
  intros [Hf Hst Hpub Hpend] Hj Hs.
  by apply (rec_published d _ _ (generation w) (segments w) (identity w) pre active j []).
Qed.

(** ** Sealing the active segment *)

Lemma sync_file_lookup d i k f :
  segFiles d !! k = Some f →
  ∃ f', segFiles (sync_file d i) !! k = Some f' ∧ content f' = content f ∧
    (synced f <= length (content f) → synced f <= synced f' <= length (content f))%nat ∧
    (k = i → synced f' = length (content f)).
Proof.
  intros Hk. unfold sync_file. destruct (segFiles d !! i) as [fi|] eqn:Hi.
  - simpl. destruct (decide (i = k)) as [->|Hne].
    + simplify_eq. eexists. rewrite lookup_insert_eq. by split_and!.
    + rewrite lookup_insert_ne by done. exists f. split_and!; try done.
  - exists f. split_and!; try done. intros ->. congruence.
Qed.

Lemma sync_file_manifests d i :
  manifests (sync_file d i) = manifests d ∧ pendingManifest (sync_file d i) = pendingManifest d.
Proof. unfold sync_file. by destruct (segFiles d !! i). Qed.

Lemma sealed_sync d i psegs pre :
  Forall2 (sealed d) psegs pre → Forall2 (sealed (sync_file d i)) psegs pre.
Proof.
  intros Hall. eapply Forall2_impl; [done|]. intros s es (f & Hf & Hc & Ho & Hwf & Hs).
  destruct (sync_file_lookup d i s.1 f Hf) as (f' & Hf' & Hc' & Hsy & _).
  exists f'. rewrite Hc'. split_and!; try done. lia.
Qed.

Lemma stored_sync d segs pre active i off :
  stored d segs (pre ++ [active]) [] → last segs = Some (i, off) →
  stored (sync_file d i) segs (pre ++ [active]) [] ∧
  synced_tail (sync_file d i) segs = length (encodeAll active).
Proof.
  intros (psegs & k & f & -> & Hall & Hf & Hc & Hwf & Ht & Hsy)%stored_split. rewrite last_snoc.
  intros [= -> <-]. rewrite app_nil_r in Hc.
  destruct (sync_file_lookup d i i f Hf) as (f' & Hf' & Hc' & Hsy' & Hfull). specialize (Hfull eq_refl).
  split.
  - apply stored_split. exists psegs, i, f'. rewrite app_nil_r, Hc', Hfull. split_and!; try done.
    by apply sealed_sync.
  - unfold synced_tail. by rewrite last_snoc, Hf', Hfull, Hc.
Qed.

(** ** Rollover *)

Lemma refs_of_snoc segs i o :
  refs_of (segs ++ [(i, o)]) = ((λ s, mkRef s.1 (Z.of_nat s.2) false) <$> segs) ++ [mkRef i 0 true].
Proof.
  induction segs as [|[k off] segs IH]; [done|]. simpl app.
  rewrite refs_of_cons by (by destruct segs). by rewrite IH.
Qed.

Lemma increasing_snoc p segs i o k :
  increasing p (refs_of (segs ++ [(i, o)])) → i < k →
  increasing p (refs_of ((segs ++ [(i, o)]) ++ [(k, 0%nat)])).
Proof.
  rewrite !refs_of_snoc, fmap_app. revert p.
  induction segs as [|[j off] segs IH]; intros p; simpl; [naive_solver lia|].
  intros [??] ?. split; [done|]. by apply IH.
Qed.

Lemma wf_manifest_snoc w k i off :
  wf_manifest (generation w) (refs_of (segments w)) (identity w) → roomy w →
  current w = Some (i, off) → i < k → k < 2 ^ 32 →
  wf_manifest (generation w + 1) (refs_of (segments w ++ [(k, 0%nat)])) (identity w).
Proof.
  intros (Hg & Hn & Hr & Hinc & Hid) (Hg' & Hn' & Hs) Hcur Hik Hk.
  unfold current in Hcur. apply last_Some in Hcur as [segs E]. rewrite E in *.
  assert (0 < i) as Hi. { apply (increasing_segs _ _ (i, off) Hinc). set_solver. }
  split_and!; [lia|lia| | |by apply increasing_snoc|done].
  - rewrite refs_of_snoc, !length_app, length_fmap, length_app. rewrite length_app in Hn'. simpl in *. lia.
  - rewrite refs_of_snoc. apply Forall_app. split; [|constructor; [|constructor]; split; simpl; lia].
    apply Forall_fmap, Forall_forall. intros s Hin. simpl.
    pose proof (increasing_segs _ _ s Hinc Hin). destruct (Hs s Hin). split; simpl; lia.
Qed.

Definition append_failed (w : WAL) (d : disk) (es : list Entry) : Prop :=
  fatal w = true ∧ recoverable d es es.

(** [dirty] unset means that the active segment is synced. *)
Definition clean (w : WAL) (d : disk) : Prop :=
  dirty w = false → ∀ i off, current w = Some (i, off) → (off <= synced_tail d (segments w))%nat.

Lemma live_sealed io w d pre active i off w1 d1 :
  live w d (pre ++ [active]) → current w = Some (i, off) →
  seal_current io w d = Some (w1, d1) →
  live w1 d1 (pre ++ [active]) ∧ w1 = with_dirty w false ∧
  synced_tail d1 (segments w) = length (encodeAll active).
Proof.
  intros [Hf Hst Hpub Hpend] Hcur. unfold seal_current. rewrite Hcur. destruct (ioSync io); [|done].
  intros [= <- <-]. destruct (stored_sync d _ _ _ _ _ Hst Hcur) as [Hst' Hsy].
  destruct (sync_file_manifests d i) as [Hm Hp]. split_and!; [|done|done].
  split; simpl; [done|done| |by rewrite Hp].
  destruct Hpub as [H1 H2 H3]. by split; rewrite ?Hm.
Qed.

Lemma live_without_file w d ess k :
  live w d ess → (∀ s, s ∈ segments w → s.1 ≠ k) → live w (del_file d k) ess.
Proof.
  intros [Hf Hst Hpub Hpend] Hk. split; try done.
  - apply (stored_frame d); [|done]. intros s Hs. simpl. apply lookup_delete_ne. naive_solver.
  - destruct Hpub as [H1 H2 H3]. by split.
Qed.

Lemma synced_tail_frame d d' segs :
  (∀ s, s ∈ segs → segFiles d' !! s.1 = segFiles d !! s.1) → synced_tail d' segs = synced_tail d segs.
Proof.
  intros H. unfold synced_tail. destruct (last segs) as [[i off]|] eqn:E; [|done].
  apply last_Some in E as [l ->]. pose proof (H (i, off)) as Hi. simpl in Hi. rewrite Hi; [done|set_solver].
Qed.

(** Segment indices increase along a published manifest. *)
Lemma fresh_before d g segs psegs id s0 :
  published d g segs id → segs = psegs ++ [s0] → ∀ s, s ∈ psegs → s.1 < s0.1.
Proof.
  intros [_ (_ & _ & _ & Hinc & _) _] -> s Hs. destruct s0 as [i off]. rewrite refs_of_snoc in Hinc.
  revert Hinc. generalize 0 at 1. induction psegs as [|x psegs IH]; intros p; [by apply elem_of_nil in Hs|].
  intros [_ Hinc]. apply elem_of_cons in Hs as [->|Hs]; [|exact (IH Hs _ Hinc)].
  apply (increasing_lt _ _ _ Hinc). rewrite fmap_app. simpl. set_solver.
Qed.

Lemma fresh_after d g segs id i off k :
  published d g segs id → last segs = Some (i, off) → i < k → ∀ s, s ∈ segs → s.1 ≠ k.
Proof.
  intros Hpub Hlast Hk s Hs. apply last_Some in Hlast as [psegs E]. pose proof (fresh_before _ _ _ _ _ _ Hpub E) as Hlt.
  rewrite E in Hs. apply elem_of_app in Hs as [Hs|Hs%list_elem_of_singleton].
  - specialize (Hlt s Hs). simpl in Hlt. lia.
  - subst s. simpl. lia.
Qed.

(** ** Segment creation *)

(** [w] is the handle after its active segment was synced. *)
Section rollover.
Context (w : WAL) (d : disk) (pre : list (list Entry)) (active : list Entry) (i : Z) (off : nat) (k : Z).
Hypothesis Hlive : live w d (pre ++ [active]).
Hypothesis Hcur : current w = Some (i, off).
Hypothesis Hsy : synced_tail d (segments w) = length (encodeAll active).
Hypothesis Hk : i < k < 2 ^ 32.

Let w2 := with_segments w (segments w ++ [(k, 0%nat)]).
Let d2 := set_file d k (mkFile [] 0).

Lemma rollover_fresh s : s ∈ segments w → s.1 ≠ k.
Proof using All.
  apply (fresh_after d (generation w) _ (identity w) i off); [apply (lv_pub _ _ _ Hlive)|done|lia].
Qed.

Lemma rollover_hasSegment : hasSegment w k = false.
Proof using All.
  apply not_true_iff_false. intros (s & Hs & E%Z.eqb_eq)%existsb_exists.
  apply list_elem_of_In in Hs. by apply (rollover_fresh s Hs).
Qed.

Lemma rollover_clean : clean w d.
Proof using All.
  intros _ j o Hj. rewrite Hcur in Hj. simplify_eq. rewrite Hsy.
  pose proof (lv_stored _ _ _ Hlive) as (psegs & j' & f & E & _)%stored_split.
  unfold current in Hcur. rewrite E, last_snoc in Hcur. by simplify_eq.
Qed.

Lemma rollover_reverted : live w (del_file d k) (pre ++ [active]) ∧ clean w (del_file d k).
Proof using All.
  split; [apply live_without_file; [done|apply rollover_fresh]|].
  intros Hd j o Hj. rewrite (synced_tail_frame d); [by apply (rollover_clean Hd j o)|].
  intros s Hs. simpl. apply lookup_delete_ne. intros E. by apply (rollover_fresh s Hs).
Qed.

Lemma rollover_frame s : s ∈ segments w → segFiles d2 !! s.1 = segFiles d !! s.1.
Proof using All. intros Hs. apply lookup_insert_ne. intros E. by apply (rollover_fresh s Hs). Qed.

Lemma rollover_stored_before d' :
  segFiles d' = segFiles d2 →
  stored d' (segments w) (pre ++ [active]) [] ∧
  (length (encodeAll (default [] (last (pre ++ [active])))) <= synced_tail d' (segments w))%nat.
Proof using All.
  intros Hd'. assert (∀ s, s ∈ segments w → segFiles d' !! s.1 = segFiles d !! s.1) as Hfr.
  { intros s Hs. rewrite Hd'. by apply rollover_frame. }
  rewrite last_snoc, (synced_tail_frame d), Hsy by done. split; [|done].
  apply (stored_frame d); [done|apply (lv_stored _ _ _ Hlive)].
Qed.

Lemma rollover_manifest : roomy w → wf_manifest (generation w + 1) (refs_of (segments w2)) (identity w).
Proof using All.
  intros Hroom. apply (wf_manifest_snoc w k i off); [apply (lv_pub _ _ _ Hlive)|done|done|lia|lia].
Qed.

(** Any set of manifests with the new one, and none newer than the old one
    otherwise, publishes the new segment list. *)
Lemma rollover_published d' data :
  roomy w → encodeManifest (generation w + 1) (refs_of (segments w2)) (identity w) = Ok data →
  manifests d' !! (generation w + 1) = Some data →
  (∀ g, is_Some (manifests d' !! g) → g = generation w + 1 ∨ is_Some (manifests d !! g)) →
  published d' (generation w + 1) (segments w2) (identity w).
Proof using All.
  intros Hroom Henc Hm Hold. split; [by exists data|by apply rollover_manifest|].
  intros g [->|Hg]%Hold; [lia|]. apply (pub_latest _ _ _ _ (lv_pub _ _ _ Hlive)) in Hg. lia.
Qed.

Lemma rollover_done cleanup data :
  roomy w → encodeManifest (generation w + 1) (refs_of (segments w2)) (identity w) = Ok data →
  let m := if cleanup : bool then {[generation w + 1 := data]} else <[generation w + 1 := data]> (manifests d) in
  let d3 := mkDisk (segFiles d2) m None in
  live (with_generation w2 (generation w + 1)) d3 ((pre ++ [active]) ++ [[]]) ∧
  clean (with_generation w2 (generation w + 1)) d3.
Proof using All.
  intros Hroom Henc m d3. destruct (rollover_stored_before d3 eq_refl) as [Hst Htail]. split.
  - split; simpl; [apply (lv_fatal _ _ _ Hlive)| | |done].
    + apply (stored_snoc d3 (segments w) _ k (mkFile [] 0)); [done|done|apply lookup_insert_eq|done|done].
    + apply (rollover_published d3 data); [done|done| |]; subst d3 m; simpl; destruct cleanup.
      * apply lookup_singleton_eq.
      * apply lookup_insert_eq.
      * intros g [x [<- _]%lookup_singleton_Some]. by left.
      * intros g [<-|[_ Hg]]%lookup_insert_is_Some; [by left|by right].
  - intros _ j o Hj. unfold current in Hj. simpl in Hj. rewrite last_snoc in Hj. simplify_eq. lia.
Qed.

Lemma rollover_uncertain data :
  roomy w → encodeManifest (generation w + 1) (refs_of (segments w2)) (identity w) = Ok data →
  recoverable (mkDisk (segFiles d2) (<[generation w + 1 := data]> (manifests d)) (Some (generation w + 1)))
    (mjoin pre ++ active) (mjoin pre ++ active).
Proof using All.
  intros Hroom Henc. set (d3 := mkDisk _ _ _). destruct (rollover_stored_before d3 eq_refl) as [Hst Htail].
  apply (rec_pending _ _ _ (generation w) (segments w) (identity w) (pre ++ [active]) k);
    [done|done|apply lookup_insert_eq|done| | |by rewrite mjoin_snoc|done].
  - apply (rollover_published d3 data); [done|done|apply lookup_insert_eq|].
    simpl. intros g [<-|[_ Hg]]%lookup_insert_is_Some; [by left|by right].
  - destruct (lv_pub _ _ _ Hlive) as [H1 H2 H3].
    assert (manifests d !! (generation w + 1) = None) as Hnone.
    { apply eq_None_not_Some. intros Hs%H3. lia. }
    split; simpl; rewrite ?delete_insert_id by done; done.
Qed.
End rollover.

(** What a segment creation, successful or not, leaves behind. *)
Lemma createSegment_live io w d pre active i off k r w' d' :
  live w d (pre ++ [active]) → roomy w → current w = Some (i, off) → i < k < 2 ^ 32 →
  createSegment io k w d = (r, w', d') →
  match r with
  | Ok _ => live w' d' ((pre ++ [active]) ++ [[]]) ∧ clean w' d'
  | Err _ => live w' d' (pre ++ [active]) ∧ (w' = w ∧ d' = d ∨ clean w' d' ∧ dirty w' = false) ∨
      append_failed w' d' (mjoin pre ++ active)
  end.
Proof.
  intros Hlive Hroom Hcur Hk. unfold createSegment.
  destruct (seal_current io w d) as [[w1 d1]|] eqn:Hseal; [|intros [= <- <- <-]; left; by auto].
  destruct (live_sealed _ _ _ _ _ _ _ _ _ Hlive Hcur Hseal) as (Hlive1 & -> & Hsy1).
  set (w1 := with_dirty w false) in *.
  assert (roomy w1) as Hroom1 by exact Hroom. assert (current w1 = Some (i, off)) as Hcur1 by exact Hcur.
  assert (dirty w1 = false) as Hd1 by done.
  change (segments w) with (segments w1) in Hsy1. clearbody w1.
  rewrite (rollover_hasSegment w1 d1 pre active i off k), andb_false_r by done.
  pose proof (rollover_clean w1 d1 pre active i off k Hlive1 Hcur1 Hsy1 Hk) as Hclean1.
  destruct (rollover_reverted w1 d1 pre active i off k Hlive1 Hcur1 Hsy1 Hk) as [Hdel Hcdel].
  destruct (ioCreate io); simpl negb; cbv iota; [|intros [= <- <- <-]; left; by auto].
  destruct (ioDirSync io); simpl negb; cbv iota; [|intros [= <- <- <-]; left; by auto].
  pose proof (rollover_manifest w1 d1 pre active i off k Hlive1 Hcur1 Hsy1 Hk Hroom1) as (Hg & _).
  unfold publishManifestLocked. cbn [generation identity segments with_segments].
  rewrite u64_small by lia.
  assert (with_segments (with_segments w1 (segments w1 ++ [(k, 0%nat)])) (segments w1) = w1 ∧
    del_file (set_file d1 k (mkFile [] 0)) k = del_file d1 k) as [Hrw Hrd].
  { unfold del_file. simpl. rewrite delete_insert_eq. by destruct w1. }
  destruct (encodeManifest _ _ _) as [data|e] eqn:Henc.
  2:{ cbn [generation with_segments]. rewrite Z.eqb_refl. simpl negb. cbv iota. rewrite Hrd, Hrw.
      intros [= <- <- <-]. left; by auto. }
  destruct (ioPublish io) as [|cleanup|].
  - cbn [generation with_segments]. rewrite Z.eqb_refl. simpl negb. cbv iota. rewrite Hrd, Hrw.
    intros [= <- <- <-]. left; by auto.
  - intros [= <- <- <-]. by apply (rollover_done w1 d1 pre active i off k).
  - cbn [generation with_fatal with_generation]. destruct (Z.eqb_spec (generation w1 + 1) (generation w1)); [lia|].
    intros [= <- <- <-]. right. split; [done|]. by apply (rollover_uncertain w1 d1 pre active i off k).
Qed.

(** ** Append *)

Lemma write_at_end data f : write_at (length f) data f = f ++ data.
Proof. unfold write_at. rewrite firstn_all, drop_ge by lia. by rewrite app_nil_r. Qed.

Lemma synced_tail_snoc d segs i off f :
  segFiles d !! i = Some f → synced_tail d (segs ++ [(i, off)]) = synced f.
Proof. intros H. unfold synced_tail. by rewrite last_snoc, H. Qed.

Lemma published_segs d d' g segs segs' id :
  manifests d' = manifests d → refs_of segs' = refs_of segs → published d g segs id → published d' g segs' id.
Proof. intros Hm E [H1 H2 H3]. split; rewrite ?E, ?Hm; done. Qed.

Lemma wf_entries_snoc es e : wf_entries es → wf_entry e → wf_entries (es ++ [e]).
Proof. intros. apply Forall_app. split; [done|]. by apply Forall_singleton. Qed.

Lemma encodeAll_snoc es e : encodeAll (es ++ [e]) = encodeAll es ++ Encode e.
Proof. rewrite encodeAll_app. unfold encodeAll at 2. simpl. by rewrite app_nil_r. Qed.

(** Writing at the end of the active file of a live WAL. *)
Lemma stored_write d segs pre active x tail i f psegs :
  segs = psegs ++ [(i, length (encodeAll active))] → (∀ s, s ∈ psegs → s.1 ≠ i) →
  Forall2 (sealed d) psegs pre → segFiles d !! i = Some f → content f = encodeAll active →
  (synced f <= length (content f))%nat → wf_entries x → torn_tail tail →
  ∀ data, encodeAll active ++ data = encodeAll x ++ tail →
  stored (set_file d i (mkFile (content f ++ data) (synced f)))
    (psegs ++ [(i, length (encodeAll x))]) (pre ++ [x]) tail.
Proof.
  intros -> Hne Hall Hfi Hc Hsy Hwf Ht data Hdata. apply stored_split. eexists psegs, i, _.
  split; [done|]. split; [|split; [apply lookup_insert_eq|]].
  - apply (sealed_frame d); [|done]. intros s Hs. apply lookup_insert_ne. intros E'. by apply (Hne s Hs).
  - simpl. split_and!; [by rewrite Hc|done|done|]. rewrite length_app. lia.
Qed.

(** The entry is stored, or its write failed part way and the handle is dead;
    what was durable stays durable. *)
Lemma store_live io e w d pre active r w' d' :
  live w d (pre ++ [active]) → wf_entry e → store io (Encode e) w d = (r, w', d') →
  match r with
  | Ok _ => live w' d' (pre ++ [active ++ [e]]) ∧ dirty w' = true ∧
      synced_tail d' (segments w') = synced_tail d (segments w)
  | Err _ => fatal w' = true ∧ ∃ es', (es' = mjoin pre ++ active ∨ es' = mjoin pre ++ active ++ [e]) ∧
      ∀ j, (j <= length active)%nat →
        (length (encodeAll (take j active)) <= synced_tail d (segments w))%nat →
        recoverable d' es' (mjoin pre ++ take j active)
  end.
Proof.
  intros [Hf Hst Hpub Hpend] He. pose proof Hst as (psegs & i & f & E & Hall & Hfi & Hc & Hwf & _ & Hsy)%stored_split.
  assert (∀ s, s ∈ psegs → s.1 ≠ i) as Hne.
  { intros s Hs. pose proof (fresh_before _ _ _ _ _ _ Hpub E s Hs) as H. simpl in H. lia. }
  assert (∀ o, refs_of (psegs ++ [(i, o)]) = refs_of (segments w)) as Hrefs by (intros; by rewrite E, !refs_of_snoc).
  rewrite app_nil_r in Hc.
  assert (∀ x tail data, wf_entries x → torn_tail tail → encodeAll active ++ data = encodeAll x ++ tail →
    stored (set_file d i (mkFile (content f ++ data) (synced f))) (psegs ++ [(i, length (encodeAll x))])
      (pre ++ [x]) tail) as Hwrite by (intros; by eapply stored_write).
  assert (∀ x, synced_tail (set_file d i (mkFile x (synced f))) (psegs ++ [(i, length (encodeAll active))]) =
    synced_tail d (psegs ++ [(i, length (encodeAll active))])) as Htail.
  { intros x. rewrite (synced_tail_snoc d psegs i _ f Hfi). by erewrite synced_tail_snoc by apply lookup_insert_eq. }
  pose proof (wf_entries_snoc _ _ Hwf He) as Hwf'.
  unfold store, current. rewrite E, last_snoc, Hfi, <-Hc.
  destruct (ioWrite io) as [|n]; intros [[<- <-]%pair_equal_spec <-]%pair_equal_spec; rewrite write_at_end.
  - rewrite removelast_last, <-length_app, Hc, <-encodeAll_snoc. split_and!; [split|done|].
    + done.
    + specialize (Hwrite (active ++ [e]) [] (Encode e)). rewrite Hc, <-encodeAll_snoc, app_nil_r in Hwrite.
      apply Hwrite; [done|apply torn_nil|done].
    + apply (published_segs d _ _ (segments w)); [done|apply Hrefs|done].
    + done.
    + cbn [segments]. rewrite (synced_tail_snoc d psegs i _ f Hfi). by erewrite synced_tail_snoc by apply lookup_insert_eq.
  - split; [done|]. rewrite Hc. destruct (decide (n < length (Encode e))%nat) as [Hn|Hn].
    + exists (mjoin pre ++ active). split; [by left|]. intros j Hj Hsync. rewrite <-Hc.
      apply (rec_published _ _ _ (generation w) (psegs ++ [(i, length (encodeAll active))]) (identity w)
        pre active j (take n (Encode e))); try done; [|by apply (published_segs d _ _ (segments w))|by rewrite Htail].
      apply Hwrite; [done|right; by exists e, n|done].
    + exists (mjoin pre ++ active ++ [e]). split; [by right|]. intros j Hj Hsync.
      rewrite take_ge, <-Hc by lia.
      apply (rec_published _ _ _ (generation w) (psegs ++ [(i, length (encodeAll (active ++ [e])))]) (identity w)
        pre (active ++ [e]) j []); rewrite ?take_app_le by lia; try done.
      * apply Hwrite; [done|by left|by rewrite app_nil_r, encodeAll_snoc].
      * by apply (published_segs d _ _ (segments w)).
      * rewrite length_app. lia.
      * erewrite synced_tail_snoc by apply lookup_insert_eq. by rewrite (synced_tail_snoc d psegs i _ f Hfi) in Hsync.
Qed.

(** ** The contract of the log *)

Lemma power_loss_fully_synced cut drop d : fully_synced (power_loss cut drop d).
Proof.
  intros i f Hi. simpl in Hi. rewrite map_lookup_imap in Hi.
  destruct (segFiles d !! i); simplify_eq/=. done.
Qed.

(** A handle opened on a fully synced disk is live and clean. *)
Lemma Open_live io d g segs id ess tail :
  stored d segs ess tail → published d g segs id → pendingManifest d = None → fully_synced d →
  ∃ w d', Open io d = Ok (w, d') ∧ live w d' ess ∧ clean w d'.
Proof.
  intros Hst Hpub Hpend Hfull.
  destruct (Open_published io _ _ _ _ _ _ Hst Hpub)
    as (w & d' & Ho & Hs & Hg & Hid & Hf & Hd & Hst' & Hpub' & Hp & _ & Hfs).
  exists w, d'. split; [done|]. split.
  - split; [done|by rewrite Hs|by rewrite Hs, Hg, Hid|by apply Hp; left].
  - intros _ i off Hcur. unfold current in Hcur. rewrite Hs in *.
    destruct (stored_snoc_inv _ _ _ _ Hst') as (pre & active & ->).
    apply stored_split in Hst' as (psegs & i' & f & E & _ & Hfi & Hc & _). rewrite E, last_snoc in Hcur. rewrite E. simplify_eq.
    unfold synced_tail. rewrite last_snoc, Hfi, (Hfs Hfull _ f Hfi), Hc, app_nil_r. done.
Qed.

(** Whatever a power failure does to [d], the log reopens live with a prefix of
    [es] that contains [base]. *)
Definition survives (d : disk) (es base : list Entry) : Prop :=
  ∀ io cut drop, ∃ w d' ess', Open io (power_loss cut drop d) = Ok (w, d') ∧ live w d' ess' ∧
    clean w d' ∧ base `prefix_of` mjoin ess' ∧ mjoin ess' `prefix_of` es.

Lemma recoverable_survives d es base : recoverable d es base → survives d es base.
Proof.
  intros Hrec io cut drop. pose proof (power_loss_fully_synced cut drop d) as Hfs. revert Hrec.
  intros [g segs id pre active j tail Hst Hpub Hpend Hj Hsync -> ->|g segs id ess i Hst Hsync Hi Hpend Hpub Hold -> ->].
  - destruct (stored_power_loss d segs _ tail cut drop Hst) as (segs' & pre' & es' & m & tail' & E & Hrefs & Hst' & Hm).
    apply app_inj_tail in E as [<- <-].
    apply (power_loss_published cut drop) in Hpub; [|done]. apply (published_refs _ _ _ segs') in Hpub; [|done].
    destruct (Open_live io _ g segs' id _ _ Hst' Hpub) as (w & d' & Ho & Hl & Hcl);
      [unfold power_loss; by rewrite Hpend|done|].
    exists w, d', (pre ++ [take m active]). rewrite mjoin_snoc. split_and!; try done.
    + apply prefix_app. assert (j <= m)%nat by auto. replace j with (Nat.min j m) by lia.
      rewrite <-take_take. by eexists; rewrite take_drop.
    + apply prefix_app. by eexists; rewrite take_drop.
  - destruct (stored_snoc_inv _ _ _ _ Hst) as (pre & active & ->). rewrite last_snoc in Hsync. simpl in Hsync.
    destruct drop.
    + destruct (stored_power_loss d segs _ [] cut true Hst) as (segs' & pre' & es' & m & tail' & E & Hrefs & Hst' & Hm).
      apply app_inj_tail in E as [<- <-].
      assert (published (power_loss cut true d) g segs' id) as Hp.
      { apply (published_refs _ _ segs); [done|]. unfold power_loss. rewrite Hpend. destruct Hold as [H1 H2 H3]. by split. }
      destruct (Open_live io _ g segs' id _ _ Hst' Hp) as (w & d' & Ho & Hl & Hcl); [done..|].
      assert (length active <= m)%nat as Hlen by (apply Hm; [done|by rewrite take_ge by lia]).
      rewrite take_ge in Hl by done. by exists w, d', (pre ++ [active]).
    + assert (stored d (segs ++ [(i, 0%nat)]) ((pre ++ [active]) ++ [[]]) []) as Hst2.
      { apply (stored_snoc d segs _ i (mkFile [] 0)); try done. by rewrite last_snoc. }
      destruct (stored_power_loss d _ _ [] cut false Hst2) as (segs' & pre' & es' & m & tail' & E & Hrefs & Hst' & Hm).
      apply app_inj_tail in E as [<- <-]. rewrite take_nil in Hst'.
      assert (published (power_loss cut false d) (g + 1) segs' id) as Hp.
      { apply (published_refs _ _ (segs ++ [(i, 0%nat)])); [done|]. unfold power_loss. rewrite Hpend.
        destruct Hpub as [H1 H2 H3]. by split. }
      destruct (Open_live io _ (g + 1) segs' id _ _ Hst' Hp) as (w & d' & Ho & Hl & Hcl); [done..|].
      exists w, d', ((pre ++ [active]) ++ [[]]). rewrite (mjoin_snoc _ []), app_nil_r. by split_and!.
Qed.

(** The process restarts: [Open] finds all of [es]. *)
Definition reopens (d : disk) (es : list Entry) : Prop :=
  ∀ io, ∃ w d' ess', Open io d = Ok (w, d') ∧ live w d' ess' ∧ mjoin ess' = es.

Lemma Open_reopens d g segs id ess tail :
  stored d segs ess tail → published d g segs id →
  pendingManifest d = None ∨ (∃ g0, g0 ≠ g ∧ is_Some (manifests d !! g0)) → reopens d (mjoin ess).
Proof.
  intros Hst Hpub Hpend io.
  destruct (Open_published io _ _ _ _ _ _ Hst Hpub) as (w & d' & Ho & Hs & Hg & Hid & Hf & _ & Hst' & Hpub' & Hp & _).
  exists w, d', ess. split; [done|]. split; [|done]. split; [done|by rewrite Hs|by rewrite Hs, Hg, Hid|by apply Hp].
Qed.

Lemma recoverable_reopens d es base : recoverable d es base → reopens d es.
Proof.
  intros [g segs id pre active j tail Hst Hpub Hpend _ _ -> _|g segs id ess i Hst Hsync Hi Hpend Hpub Hold -> _].
  - rewrite <-mjoin_snoc. eapply Open_reopens; [done|done|by left].
  - replace (mjoin ess) with (mjoin (ess ++ [[]])) by (rewrite mjoin_snoc; by rewrite app_nil_r).
    apply (Open_reopens d (g + 1) (segs ++ [(i, 0%nat)]) id _ []); [by apply (stored_snoc d segs _ i (mkFile [] 0))|done|]. right. exists g. split; [lia|].
    destruct (pub_data _ _ _ _ Hold) as (data & Hd & _). simpl in Hd. apply lookup_delete_Some in Hd as [_ ?]. by eexists.
Qed.

Lemma live_reopens w d ess : live w d ess → reopens d (mjoin ess).
Proof. intros [_ Hst Hpub Hpend]. eapply Open_reopens; [done|done|by left]. Qed.

Lemma survives_weaken d es base base' : base' `prefix_of` base → survives d es base → survives d es base'.
Proof.
  intros Hb H io cut drop. destruct (H io cut drop) as (w & d' & ess' & ? & ? & ? & ? & ?).
  exists w, d', ess'. split_and!; try done. by trans base.
Qed.

(** The entries of a segment whose bytes lie within its first [n] bytes. *)
Fixpoint whole_entries (n : nat) (es : list Entry) : list Entry :=
  match es with
  | [] => []
  | e :: es' => if Nat.leb (length (Encode e)) n then e :: whole_entries (n - length (Encode e)) es' else []
  end.

Lemma whole_entries_take n es :
  ∃ j, whole_entries n es = take j es ∧ (j <= length es)%nat ∧ (length (encodeAll (take j es)) <= n)%nat.
Proof.
  revert n. induction es as [|e es IH]; intros n; [exists 0%nat; split_and!; [done..|]; apply Nat.le_0_l|].
  cbn [whole_entries]. destruct (Nat.leb_spec (length (Encode e)) n).
  - destruct (IH (n - length (Encode e))%nat) as (j & -> & ? & ?). exists (S j).
    rewrite firstn_cons, encodeAll_cons, length_app. split_and!; [done|simpl; lia|lia].
  - exists 0%nat. split_and!; [done|lia|]. apply Nat.le_0_l.
Qed.

Lemma whole_entries_all n es : (length (encodeAll es) <= n)%nat → whole_entries n es = es.
Proof.
  revert n. induction es as [|e es IH]; intros n; [done|]. rewrite encodeAll_cons, length_app. intros H.
  cbn [whole_entries]. destruct (Nat.leb_spec (length (Encode e)) n); [|lia]. rewrite IH; [done|lia].
Qed.

Lemma whole_entries_snoc n es e : whole_entries n es `prefix_of` whole_entries n (es ++ [e]).
Proof.
  revert n. induction es as [|x es IH]; intros n; [apply prefix_nil|].
  cbn [whole_entries app]. destruct (Nat.leb_spec (length (Encode x)) n); [by apply prefix_cons|done].
Qed.

(** The entries that are on the platter: the sealed segments, and what the
    synced bytes of the active one hold. *)
Definition durable_entries (w : WAL) (d : disk) (ess : list (list Entry)) : list Entry :=
  mjoin (removelast ess) ++ whole_entries (synced_tail d (segments w)) (default [] (last ess)).

Lemma durable_entries_snoc w d pre active :
  durable_entries w d (pre ++ [active]) = mjoin pre ++ whole_entries (synced_tail d (segments w)) active.
Proof. unfold durable_entries. by rewrite removelast_last, last_snoc. Qed.

Lemma durable_prefix w d pre active : durable_entries w d (pre ++ [active]) `prefix_of` mjoin pre ++ active.
Proof.
  rewrite durable_entries_snoc. destruct (whole_entries_take (synced_tail d (segments w)) active) as (j & -> & _).
  apply prefix_app. by eexists; rewrite take_drop.
Qed.

Lemma live_survives w d ess : live w d ess → survives d (mjoin ess) (durable_entries w d ess).
Proof.
  intros H. destruct (stored_snoc_inv _ _ _ _ (lv_stored _ _ _ H)) as (pre & active & ->).
  rewrite durable_entries_snoc, mjoin_snoc. apply recoverable_survives.
  destruct (whole_entries_take (synced_tail d (segments w)) active) as (j & -> & ? & ?).
  by eapply live_recoverable.
Qed.

Lemma current_live w d pre active :
  live w d (pre ++ [active]) → ∃ i, current w = Some (i, length (encodeAll active)) ∧ 0 < i.
Proof.
  intros [_ Hst Hpub _]. apply stored_split in Hst as (psegs & i & f & E & _). exists i. unfold current.
  rewrite E, last_snoc. split; [done|]. destruct Hpub as [_ (_ & _ & _ & Hinc & _) _].
  apply (increasing_segs _ _ (i, length (encodeAll active)) Hinc). rewrite E. set_solver.
Qed.

Lemma durable_entries_rolled w d ess : mjoin ess `prefix_of` durable_entries w d (ess ++ [[]]).
Proof. rewrite durable_entries_snoc. by eexists. Qed.

(** On a clean handle with nothing unsynced every entry is durable. *)
Lemma durable_entries_clean w d pre active :
  live w d (pre ++ [active]) → clean w d → dirty w = false →
  durable_entries w d (pre ++ [active]) = mjoin (pre ++ [active]).
Proof.
  intros Hl Hc Hd. destruct (current_live _ _ _ _ Hl) as (i & Hcur & _).
  rewrite durable_entries_snoc, whole_entries_all, <-mjoin_snoc; [done|]. by apply (Hc Hd i).
Qed.

Definition append_outcome (w : WAL) (d : disk) (ess : list (list Entry)) (e : Entry)
    (r : result walError unit) (w' : WAL) (d' : disk) : Prop :=
  match r with
  | Ok _ => ∃ ess', live w' d' ess' ∧ clean w' d' ∧ mjoin ess' = mjoin ess ++ [e] ∧
      durable_entries w d ess `prefix_of` durable_entries w' d' ess'
  | Err _ => live w' d' ess ∧ (clean w d → clean w' d') ∧
        durable_entries w d ess `prefix_of` durable_entries w' d' ess ∨
      fatal w' = true ∧ ∃ es', (es' = mjoin ess ∨ es' = mjoin ess ++ [e]) ∧
        survives d' es' (durable_entries w d ess) ∧ reopens d' es'
  end.

(** Storing into the active segment of a handle [w1] that already holds the
    entries of [w], whose durable entries [base] are durable there too. *)
Lemma store_outcome io e w d ess w1 d1 ess1 r w' d' :
  live w1 d1 ess1 → mjoin ess1 = mjoin ess →
  durable_entries w d ess `prefix_of` durable_entries w1 d1 ess1 →
  wf_entry e → store io (Encode e) w1 d1 = (r, w', d') → append_outcome w d ess e r w' d'.
Proof.
  intros Hlive Hj Hbase He Hstore.
  destruct (stored_snoc_inv _ _ _ _ (lv_stored _ _ _ Hlive)) as (pre & active & ->).
  pose proof (store_live _ _ _ _ _ _ _ _ _ Hlive He Hstore) as Hout. rewrite mjoin_snoc in Hj. destruct r as [u|err].
  - destruct Hout as (Hlive' & Hd & Hsy). exists (pre ++ [active ++ [e]]). split; [done|].
    split; [by intros ?; congruence|].
    split; [by rewrite mjoin_snoc, app_assoc, Hj|]. etrans; [done|].
    rewrite !durable_entries_snoc, Hsy. apply prefix_app, whole_entries_snoc.
  - destruct Hout as (Hf & es' & Hes & Hrec). right. split; [done|]. exists es'.
    split; [rewrite <-Hj, <-app_assoc; done|]. rewrite durable_entries_snoc in Hbase.
    destruct (whole_entries_take (synced_tail d1 (segments w1)) active) as (j & E & Hj1 & Hj2). rewrite E in Hbase. clear E.
    pose proof (Hrec j Hj1 Hj2) as Hr. split; [|by eapply recoverable_reopens].
    eapply survives_weaken; [done|]. by apply recoverable_survives.
Qed.

Lemma append_cases io e w d ess r w' d' :
  live w d ess → roomy w → wf_entry e → Append io e w d = (r, w', d') →
  append_outcome w d ess e r w' d'.
Proof.
  intros Hlive Hroom He. destruct (stored_snoc_inv _ _ _ _ (lv_stored _ _ _ Hlive)) as (pre & active & ->).
  unfold Append. rewrite (lv_fatal _ _ _ Hlive).
  destruct (_ && _); [intros [[<- <-]%pair_equal_spec <-]%pair_equal_spec; by left|].
  destruct (current_live _ _ _ _ Hlive) as (i & Hcur & Hi). rewrite Hcur.
  destruct (_ <? _).
  2:{ by apply (store_outcome io e w d (pre ++ [active]) w d (pre ++ [active])). }
  assert (u32 (i + 1) = i + 1 ∧ i + 1 < 2 ^ 32) as [-> Hb].
  { destruct Hroom as (_ & _ & Hs). unfold current in Hcur. apply last_Some in Hcur as [l E].
    destruct (Hs (i, length (encodeAll active))) as [H1 _]; [rewrite E; set_solver|]. simpl in H1.
    split; [apply u32_small; lia|lia]. }
  destruct (createSegment _ _ _ _) as [[r1 w1] d1] eqn:Hcreate.
  pose proof (createSegment_live _ _ _ _ _ _ _ _ _ _ _ Hlive Hroom Hcur (conj (Z.lt_succ_diag_r i) Hb) Hcreate) as Hout.
  destruct r1 as [u|err].
  - destruct Hout as [Hlive1 _]. apply (store_outcome io e w d (pre ++ [active]) w1 d1 ((pre ++ [active]) ++ [[]])); try done.
    + rewrite (mjoin_snoc _ []). by rewrite app_nil_r.
    + etrans; [apply durable_prefix|]. rewrite <-mjoin_snoc. apply durable_entries_rolled.
  - intros [[<- <-]%pair_equal_spec <-]%pair_equal_spec.
    destruct Hout as [(Hl1 & [[-> ->]|[Hc1 Hd1]])|[Hf Hrec]]; [by left| |].
    { left. split_and!; [done..|]. rewrite (durable_entries_clean w1 d1) by done. rewrite mjoin_snoc. apply durable_prefix. }
    right. split; [done|].
    exists (mjoin (pre ++ [active])). split; [by left|]. rewrite mjoin_snoc.
    split; [|by eapply recoverable_reopens]. eapply survives_weaken; [apply durable_prefix|]. by apply recoverable_survives.
Qed.

Lemma sync_cases ioOk w d ess w' d' :
  live w d ess → clean w d → Sync ioOk w d = (Ok tt, w', d') →
  live w' d' ess ∧ clean w' d' ∧ survives d' (mjoin ess) (mjoin ess).
Proof.
  intros Hlive Hclean. destruct (stored_snoc_inv _ _ _ _ (lv_stored _ _ _ Hlive)) as (pre & active & ->).
  destruct (current_live _ _ _ _ Hlive) as (i & Hcur & Hi). unfold Sync. rewrite (lv_fatal _ _ _ Hlive), Hcur.
  assert (∀ w d, live w d (pre ++ [active]) → (length (encodeAll active) <= synced_tail d (segments w))%nat →
    survives d (mjoin (pre ++ [active])) (mjoin (pre ++ [active]))) as Hall.
  { intros w2 d2 Hl Hs. pose proof (live_survives _ _ _ Hl) as H.
    rewrite durable_entries_snoc, whole_entries_all, <-mjoin_snoc in H by done. done. }
  destruct (dirty w) eqn:Hd; simpl.
  - destruct ioOk; [|done]. intros [[_ <-]%pair_equal_spec <-]%pair_equal_spec.
    destruct (live_sealed (mkCreateIO true true true PubFails) w d pre active i _ (with_dirty w false) (sync_file d i) Hlive Hcur)
      as (Hl & _ & Hs); [unfold seal_current; by rewrite Hcur|].
    split_and!; [done| |apply (Hall _ _ Hl); simpl; lia].
    intros _ j off Hj. unfold current in Hj. simpl in Hj. unfold current in Hcur. rewrite Hcur in Hj. simplify_eq. simpl. lia.
  - intros [[_ <-]%pair_equal_spec <-]%pair_equal_spec. split_and!; [done..|]. apply (Hall _ _ Hlive). by apply (Hclean Hd i).
Qed.
