(* ===== verification/WalLog.v ===== *)
(** * The log a WAL presents over its lifetime

    Runs of a WAL from an empty directory through appends, syncs, restarts of
    the process and power failures; the entries it then reads; the byte ceiling;
    and the one durability gap the flag-driven [Sync] leaves after a process
    restart. *)

From stdpp Require Import gmap list.
From S2P Require Import Prelude Bytes Entry Manifest Segment Wal WalSafety.

(** ** A fresh directory *)

Lemma Open_fresh io w d : Open io emptyDisk = Ok (w, d) → live w d [[]] ∧ clean w d.
Proof.
  unfold Open, latestManifest, reconcileManifestlessFiles. simpl. rewrite map_fold_empty.
  rewrite bool_decide_eq_true_2 by done. cbn [rbind]. unfold createSegment. simpl.
  rewrite bool_decide_eq_false_2 by (rewrite lookup_empty; by intros [? ?]). simpl.
  destruct (ioCreate io); [|done]. destruct (ioDirSync io); [|done]. simpl.
  unfold publishManifestLocked. cbn [generation with_segments segments identity newWAL refs_of app].
  destruct (encodeManifest (u64 (0 + 1)) [mkRef 1 0 true] []) as [data|] eqn:E; [|done].
  destruct (ioPublish io) as [|cleanup|]; [done| |done]. intros [= <- <-]. split.
  - split; simpl; [done| | |done].
    + apply (stored_last _ 1 [] (mkFile [] 0)); [apply lookup_insert_eq|done|constructor|by left|done].
    + split; simpl.
      * exists data. split; [|done]. destruct cleanup; [apply lookup_singleton_eq|apply lookup_insert_eq].
      * change (u64 (0 + 1)) with 1. split; [lia|]. split; [simpl; lia|].
        split; [repeat constructor; simpl; lia|]. split; [simpl; split; [lia|done]|simpl; lia].
      * intros g' Hg'. destruct cleanup.
        -- by destruct Hg' as [x [<- _]%lookup_singleton_Some].
        -- apply lookup_insert_is_Some in Hg' as [<-|[_ [x Hx]]]; [done|]. by rewrite lookup_empty in Hx.
  - intros _ i off Hc. unfold current in Hc. simpl in Hc. simplify_eq. lia.
Qed.

(** ** One operation *)

(** C12: recovery after a power failure.  Wherever the unsynced bytes are cut
    and whether or not an unsynced manifest survives, [Open] succeeds and
    [Read] returns a prefix of the appended entries that contains every entry
    of a sealed segment and every entry within the synced bytes of the active
    one. *)
Theorem power_loss_recovery w d ess :
  live w d ess → survives d (mjoin ess) (durable_entries w d ess).
Proof. apply live_survives. Qed.

(** The effect of [Append] under every I/O outcome.  On success the log
    has grown by the entry; on an error the handle either stays live with the
    same entries or is fatal, and then a restart of the process finds the old
    entries, possibly followed by the failed one, and one after a power failure
    a part of them.  Nothing durable is lost. *)
Theorem Append_spec io e w d ess r w' d' :
  live w d ess → roomy w → wf_entry e → Append io e w d = (r, w', d') →
  match r with
  | Ok _ => ∃ ess', live w' d' ess' ∧ clean w' d' ∧ mjoin ess' = mjoin ess ++ [e] ∧
      durable_entries w d ess `prefix_of` durable_entries w' d' ess'
  | Err _ => live w' d' ess ∧ (clean w d → clean w' d') ∧
        durable_entries w d ess `prefix_of` durable_entries w' d' ess ∨
      fatal w' = true ∧ ∃ es', (es' = mjoin ess ∨ es' = mjoin ess ++ [e]) ∧
        survives d' es' (durable_entries w d ess) ∧ reopens d' es'
  end.
Proof. apply append_cases. Qed.

(** ** Runs *)

Definition is_ok {X : Type} (r : result walError X) : bool := match r with Ok _ => true | Err _ => false end.

(** The directory when the process stops: between two operations, or after an
    [Append] that failed. *)
Definition stops (w : WAL) (d d1 : disk) : Prop :=
  d1 = d ∨ ∃ io e err w1, roomy w ∧ wf_entry e ∧ Append io e w d = (Err err, w1, d1).

(** [log_run w d es reopened]: a history of the WAL after which it holds [es].
    Failed appends leave them unchanged, or end the handle until the next
    restart.  [reopened] says that the process has restarted, on a machine that
    kept its power, and not appended since. *)
Inductive log_run : WAL → disk → list Entry → bool → Prop :=
| run_open io w d : Open io emptyDisk = Ok (w, d) → log_run w d [] false
| run_append io e w d es b w' d' :
    log_run w d es b → roomy w → wf_entry e → Append io e w d = (Ok tt, w', d') → log_run w' d' (es ++ [e]) false
| run_append_error io e w d es b err w' d' :
    log_run w d es b → roomy w → wf_entry e → Append io e w d = (Err err, w', d') →
    fatal w' = false → log_run w' d' es b
| run_sync ioOk w d es b r w' d' :
    log_run w d es b → Sync ioOk w d = (r, w', d') → log_run w' d' es b
| run_restart io w d es b d1 w' d' es' :
    log_run w d es b → stops w d d1 → Open io d1 = Ok (w', d') → Read w' d' = Ok es' → log_run w' d' es' true
| run_power io cut drop w d es b d1 w' d' es' :
    log_run w d es b → stops w d d1 → Open io (power_loss cut drop d1) = Ok (w', d') → Read w' d' = Ok es' →
    log_run w' d' es' false.

Lemma live_read w d ess : live w d ess → Read w d = Ok (mjoin ess).
Proof. intros [_ Hst _ _]. by apply readSegments_stored. Qed.

Lemma Sync_live ioOk w d ess r w' d' :
  live w d ess → Sync ioOk w d = (r, w', d') → live w' d' ess ∧ (clean w d → clean w' d').
Proof.
  intros Hl Hs. destruct r as [[]|err].
  - destruct (dirty w) eqn:Hd.
    + assert (clean w d) as Hc by (intros E; congruence). by destruct (sync_cases _ _ _ _ _ _ Hl Hc Hs) as (? & ? & _).
    + assert (w' = w ∧ d' = d) as [-> ->] by (unfold Sync in Hs; rewrite Hd in Hs; repeat case_match; by simplify_eq/=). done.
  - assert (w' = w ∧ d' = d) as [-> ->] by (unfold Sync in Hs; repeat case_match; by simplify_eq/=). done.
Qed.

(** What either kind of restart finds when the process stopped. *)
Lemma stops_spec w d ess d1 : live w d ess → stops w d d1 → ∃ es base, survives d1 es base ∧ reopens d1 es.
Proof.
  intros Hl [->|(io & e & err & w1 & Hroom & He & Ha)].
  - exists (mjoin ess), (durable_entries w d ess). split; [by apply live_survives|by eapply live_reopens].
  - destruct (append_cases _ _ _ _ _ _ _ _ Hl Hroom He Ha) as [(Hl1 & _)|(_ & es' & _ & ? & ?)].
    + exists (mjoin ess), (durable_entries w1 d1 ess). split; [by apply live_survives|by eapply live_reopens].
    + by exists es', (durable_entries w d ess).
Qed.

Lemma log_run_live w d es b : log_run w d es b → ∃ ess, live w d ess ∧ es = mjoin ess ∧ (b = false → clean w d).
Proof.
  induction 1 as [io w d Ho|io e w d es b w' d' _ (ess & Hl & -> & Hc) Hroom He Ha|
    io e w d es b err w' d' _ (ess & Hl & -> & Hc) Hroom He Ha Hf|ioOk w d es b r w' d' _ (ess & Hl & -> & Hc) Hs|
    io w d es b d1 w' d' es' _ (ess & Hl & -> & _) Hst Ho Hr|io cut drop w d es b d1 w' d' es' _ (ess & Hl & -> & _) Hst Ho Hr].
  - apply Open_fresh in Ho as [Hl Hc]. by exists [[]].
  - destruct (append_cases _ _ _ _ _ _ _ _ Hl Hroom He Ha) as (ess' & ? & ? & ? & _). by exists ess'.
  - destruct (append_cases _ _ _ _ _ _ _ _ Hl Hroom He Ha) as [(? & ? & _)|[? _]]; [|congruence].
    exists ess. auto.
  - destruct (Sync_live _ _ _ _ _ _ _ Hl Hs). exists ess. auto.
  - destruct (stops_spec _ _ _ _ Hl Hst) as (es0 & base & _ & Hre). destruct (Hre io) as (w2 & d2 & ess' & Ho' & Hl' & _).
    rewrite Ho in Ho'. simplify_eq. exists ess'. apply live_read in Hl' as Hr'. split; [done|]. split; [congruence|done].
  - destruct (stops_spec _ _ _ _ Hl Hst) as (es0 & base & Hsv & _). destruct (Hsv io cut drop) as (w2 & d2 & ess' & Ho' & Hl' & Hc' & _).
    rewrite Ho in Ho'. simplify_eq. exists ess'. apply live_read in Hl' as Hr'. split; [done|]. split; [congruence|done].
Qed.

(** The WAL is a log.  After any history of appends, failed appends, syncs,
    restarts and power failures, [Read] returns exactly the entries appended
    since, and including, those the last restart recovered. *)
Theorem Read_log w d es b : log_run w d es b → Read w d = Ok es.
Proof. intros (ess & Hl & -> & _)%log_run_live. by apply live_read. Qed.

(** A restart never fails: wherever the process stops, with or without a power
    failure, [Open] accepts what it left. *)
Theorem restart_opens w d es b d1 io cut drop :
  log_run w d es b → stops w d d1 → is_ok (Open io d1) = true ∧ is_ok (Open io (power_loss cut drop d1)) = true.
Proof.
  intros (ess & Hl & _)%log_run_live Hst. destruct (stops_spec _ _ _ _ Hl Hst) as (es0 & base & Hsv & Hre).
  destruct (Hre io) as (w1 & d2 & ess1 & -> & _). by destruct (Hsv io cut drop) as (w2 & d3 & ess2 & -> & _).
Qed.


(** ** The byte ceiling *)

(** The counter is the sum of the segment sizes and respects the ceiling. *)
Definition accounted (w : WAL) : Prop :=
  totalBytes w = sizes (segments w) ∧ (0 < maxBytes w → totalBytes w <= maxBytes w).

Lemma sizes_app l k : sizes (l ++ k) = sizes l + sizes k.
Proof. induction l as [|s l IH]; [done|]. simpl. rewrite IH. unfold sizes. lia. Qed.

Lemma createSegment_accounted io k w d r w' d' :
  createSegment io k w d = (r, w', d') →
  totalBytes w' = totalBytes w ∧ maxBytes w' = maxBytes w ∧ sizes (segments w') = sizes (segments w).
Proof.
  unfold createSegment. destruct (seal_current io w d) as [[w1 d1]|] eqn:Hs; [|by intros [= <- <- <-]].
  assert (totalBytes w1 = totalBytes w ∧ maxBytes w1 = maxBytes w ∧ segments w1 = segments w) as (H1 & H2 & H3).
  { unfold seal_current in Hs. destruct (current w) as [[i off]|]; [destruct (ioSync io)|]; by simplify_eq/=. }
  rewrite <-H1, <-H2, <-H3. destruct (_ && _); [by intros [= <- <- <-]|].
  destruct (negb _); [by intros [= <- <- <-]|]. destruct (negb _); [by intros [= <- <- <-]|].
  unfold publishManifestLocked. cbn [segments generation identity with_segments].
  assert (sizes (segments w1 ++ [(k, 0%nat)]) = sizes (segments w1)) as Hz by (rewrite sizes_app; simpl; lia).
  destruct (encodeManifest _ _ _) as [data|e].
  - destruct (ioPublish io); cbn [segments generation identity with_segments with_generation with_fatal];
      [destruct (negb _)| |destruct (negb _)]; intros [[<- <-]%pair_equal_spec <-]%pair_equal_spec; done.
  - cbn [segments generation identity with_segments]. destruct (negb _);
      intros [[<- <-]%pair_equal_spec <-]%pair_equal_spec; done.
Qed.

Lemma store_accounted io data w d r w' d' :
  store io data w d = (r, w', d') →
  maxBytes w' = maxBytes w ∧ totalBytes w' - totalBytes w = sizes (segments w') - sizes (segments w) ∧
  (totalBytes w' = totalBytes w ∨ totalBytes w' = totalBytes w + Z.of_nat (length data)).
Proof.
  unfold store. destruct (current w) as [[i off]|] eqn:Hc.
  2:{ intros [[<- <-]%pair_equal_spec <-]%pair_equal_spec. split_and!; [done|lia|by left]. }
  destruct (segFiles d !! i) as [f|].
  2:{ intros [[<- <-]%pair_equal_spec <-]%pair_equal_spec. split_and!; [done|lia|by left]. }
  destruct (ioWrite io); intros [[<- <-]%pair_equal_spec <-]%pair_equal_spec.
  - unfold current in Hc. apply last_Some in Hc as [l E]. cbn [segments totalBytes maxBytes].
    rewrite E, removelast_last, !sizes_app. split_and!; [done| |by right].
    unfold sizes. simpl. lia.
  - cbn [segments totalBytes maxBytes with_fatal]. split_and!; [done|lia|by left].
Qed.

(** Capacity.  Under every I/O outcome [Append] keeps the byte counter
    equal to the sum of the segment sizes and never lets it pass the
    configured ceiling. *)
Theorem Append_capacity io e w d r w' d' :
  accounted w → Append io e w d = (r, w', d') → accounted w' ∧ maxBytes w' = maxBytes w.
Proof.
  intros [Ht Hm]. unfold Append.
  destruct (fatal w); [intros [[<- <-]%pair_equal_spec <-]%pair_equal_spec; by (split; [split|])|].
  destruct (_ && _) eqn:Hcap; [intros [[<- <-]%pair_equal_spec <-]%pair_equal_spec; by (split; [split|])|].
  set (rolled := match current w with Some _ => _ | None => _ end).
  destruct rolled as [[r1 w1] d1] eqn:Er. subst rolled.
  assert (totalBytes w1 = totalBytes w ∧ maxBytes w1 = maxBytes w ∧ sizes (segments w1) = sizes (segments w)) as (H1 & H2 & H3).
  { revert Er. destruct (current w) as [[i off]|]; [|by apply createSegment_accounted].
    destruct (maxSize w <? _); [by apply createSegment_accounted|].
    by intros [[_ <-]%pair_equal_spec _]%pair_equal_spec. }
  destruct r1 as [u|err].
  - intros Hst. destruct (store_accounted _ _ _ _ _ _ _ Hst) as (H4 & H5 & H6).
    split; [|congruence]. split; [lia|]. rewrite H4, H2. intros Hpos. specialize (Hm Hpos).
    apply andb_false_iff in Hcap as [Hcap|Hcap]; bool_hyps; lia.
  - intros [[<- <-]%pair_equal_spec <-]%pair_equal_spec. split; [|done]. split; [lia|]. rewrite H1, H2. done.
Qed.

(** ** A process restart leaves a tail that [Sync] does not sync *)

Definition ioFine : appendIO := mkAppendIO createAll WriteDone.
Definition demo_entry : Entry := sample_entry 1 [x01; x02].

(** C31: an entry that was appended but not synced when the process (not the
    machine) restarts is read back by [Open] with the [dirty] flag unset, so
    the next [Sync] succeeds without syncing it and a power failure after
    that successful [Sync] loses it. *)
Theorem reopened_tail_unsynced :
  ∃ w0 d0 w1 d1 w2 d2 w3 d3 w4 d4,
    Open createAll emptyDisk = Ok (w0, d0) ∧ Append ioFine demo_entry w0 d0 = (Ok tt, w1, d1) ∧
    Open createAll d1 = Ok (w2, d2) ∧ Read w2 d2 = Ok [demo_entry] ∧
    Sync true w2 d2 = (Ok tt, w3, d3) ∧
    Open createAll (power_loss (λ _, 0%nat) false d3) = Ok (w4, d4) ∧ Read w4 d4 = Ok [].
Proof.
  do 10 eexists. repeat (split; [vm_compute; reflexivity|]). vm_compute. reflexivity.
Qed.

(** ** Concrete runs *)

Definition opened : WAL * disk :=
  match Open createAll emptyDisk with Ok x => x | Err _ => (newWAL, emptyDisk) end.
Definition appended : WAL * disk := let '(_, w, d) := Append ioFine demo_entry opened.1 opened.2 in (w, d).

Lemma opened_run : log_run opened.1 opened.2 [] false.
Proof. apply (run_open createAll). vm_compute. reflexivity. Qed.

Lemma demo_wf : wf_entry demo_entry.
Proof. split; [simpl; lia|]. split; [reflexivity|simpl; lia]. Qed.

Lemma opened_roomy : roomy opened.1.
Proof.
  split; [vm_compute; reflexivity|]. split; [vm_compute; reflexivity|].
  intros s Hs. vm_compute in Hs. apply list_elem_of_singleton in Hs as ->. simpl. lia.
Qed.

Lemma appended_run : log_run appended.1 appended.2 [demo_entry] false.
Proof.
  apply (run_append ioFine demo_entry opened.1 opened.2 [] false);
    [exact opened_run|exact opened_roomy|exact demo_wf|vm_compute; reflexivity].
Qed.

Lemma Read_log_witness : Read appended.1 appended.2 = Ok [demo_entry].
Proof. apply (Read_log appended.1 appended.2 [demo_entry] false). exact appended_run. Defined.


Lemma Append_capacity_witness :
  accounted appended.1 ∧ maxBytes appended.1 = maxBytes opened.1.
Proof.
  apply (Append_capacity ioFine demo_entry opened.1 opened.2 (Ok tt) appended.1 appended.2).
  - split; vm_compute; [reflexivity|discriminate].
  - vm_compute. reflexivity.
Defined.

Lemma opened_live : live opened.1 opened.2 [[]].
Proof. apply (Open_fresh createAll). vm_compute. reflexivity. Qed.

Lemma power_loss_recovery_witness :
  survives opened.2 (mjoin [[]]) (durable_entries opened.1 opened.2 [[]]).
Proof. apply (power_loss_recovery opened.1 opened.2 [[]]). exact opened_live. Defined.

Lemma Append_spec_witness :
  ∃ ess', live appended.1 appended.2 ess' ∧ clean appended.1 appended.2 ∧ mjoin ess' = mjoin [[]] ++ [demo_entry] ∧
    durable_entries opened.1 opened.2 [[]] `prefix_of` durable_entries appended.1 appended.2 ess'.
Proof.
  apply (Append_spec ioFine demo_entry opened.1 opened.2 [[]] (Ok tt) appended.1 appended.2).
  - exact opened_live.
  - exact opened_roomy.
  - exact demo_wf.
  - vm_compute. reflexivity.
Defined.
