(* ===== verification/Compaction.v ===== *)
(** * WAL compaction (pkg/qlog/wal.go)

    A compaction fences the segments written so far, rewrites them into one
    segment that starts with a checkpoint and keeps what the checkpoint does
    not cover, and switches the manifest to the rewrite and the segments
    appended since.  Appends and syncs go on between its three steps.  The
    read-only mode, the deferred cleanup of a local bootstrap and the closing
    of file handles are left out. *)

From stdpp Require Import gmap list sorting.
From S2P Require Import Prelude Bytes Entry Manifest Segment Wal.

Record Compaction := mkCompaction {
  cBase : Entry;
  cRetained : gmap bytes bytes;
  cPrefix : list (Z * nat);
  cTarget : Z;
  cTail : Z;
  cMaxBytes : Z;
  cOffset : nat;
  cBuilt : bool;
  cDone : bool;
}.

Inductive compactError :=
| CompactBase
| CompactProposal
| CompactState
| CompactNoSegment
| CompactExhausted
| CompactTail
| CompactOverflow
| CompactWal (e : walError).

(** ** The entries of the rewrite *)

Definition bytes_le (x y : bytes) : Prop := bytes_compare x y ≠ Gt.
#[global] Instance bytes_le_dec x y : Decision (bytes_le x y).
Proof. unfold bytes_le. solve_decision. Defined.

Definition sortedHashes (retained : gmap bytes bytes) : list bytes := merge_sort bytes_le (elements (dom retained)).

Definition proposal_entry (retained : gmap bytes bytes) (hash : bytes) : Entry :=
  mkEntry 0 hash EntryProposal (default [] (retained !! hash)).

(** What the scan of an old entry passes on. *)
Definition kept (base e : Entry) : Prop := EType e ≠ EntryProposal ∧ ESlot base < ESlot e.
#[global] Instance kept_dec base e : Decision (kept base e).
Proof. unfold kept. solve_decision. Defined.

(** The entries in the order they are visited; the visitors' own failures are
    checked on the list. *)
Definition visitCompactedEntries (base : Entry) (retained : gmap bytes bytes) (prefix : list (Z * nat)) (d : disk)
    : result walError (list Entry) :=
  let! old := readSegments prefix d in
  Ok (base :: (proposal_entry retained <$> sortedHashes retained) ++ filter (kept base) old).

Section compaction.
Context (sha256 : bytes → bytes).

Definition retained_ok (retained : gmap bytes bytes) : bool :=
  bool_decide (map_Forall (λ hash value, value ≠ [] ∧ sha256 value = hash) retained).

Definition EstimateCompactedBytes (base : Entry) (retained : gmap bytes bytes) (w : WAL) (d : disk) : result compactError Z :=
  if negb (bool_decide (EType base = EntryCheckpoint)) || (ESlot base =? 0) then Err CompactBase
  else if negb (retained_ok retained) then Err CompactProposal
  else
    match visitCompactedEntries base retained (segments w) d with
    | Err e => Err (CompactWal e)
    | Ok es =>
        let size := Z.of_nat (length (encodeAll es)) in
        if 2 ^ 64 - 1 <? size then Err CompactOverflow else Ok size
    end.

(** ** Fencing *)

Definition BeginCompaction (io : createIO) (base : Entry) (retained : gmap bytes bytes) (w : WAL) (d : disk)
    : result compactError Compaction * WAL * disk :=
  if negb (bool_decide (EType base = EntryCheckpoint)) || (ESlot base =? 0) then (Err CompactBase, w, d)
  else if negb (retained_ok retained) then (Err CompactProposal, w, d)
  else if fatal w then (Err (CompactWal ErrFatal), w, d)
  else
    match current w with
    | None => (Err CompactNoSegment, w, d)
    | Some (i, _) =>
        if 2 ^ 32 - 1 - 2 <? i then (Err CompactExhausted, w, d)
        else
          match createSegment io (i + 2) w d with
          | (Err e, w', d') => (Err (CompactWal e), w', d')
          | (Ok _, w', d') =>
              (Ok (mkCompaction base retained (segments w) (i + 1) (i + 2) (maxBytes w) 0 false false), w', d')
          end
    end.
End compaction.

(** ** Writing the rewrite *)

(** The temporary file is written and synced, renamed, and the directory synced. *)
Inductive buildOutcome := BuildFails | BuildRenamed | BuildDone.

(** The ceiling is checked entry by entry. *)
Fixpoint within_ceiling (maxBytes_ : Z) (offset : nat) (es : list Entry) : bool :=
  match es with
  | [] => true
  | e :: rest =>
      negb ((0 <? maxBytes_) && (maxBytes_ <? Z.of_nat (offset + length (Encode e)))) &&
      within_ceiling maxBytes_ (offset + length (Encode e)) rest
  end.

Definition Build (io : buildOutcome) (c : Compaction) (d : disk) : result compactError unit * Compaction * disk :=
  if cDone c || cBuilt c then (Err CompactState, c, d)
  else
    match visitCompactedEntries (cBase c) (cRetained c) (cPrefix c) d with
    | Err e => (Err (CompactWal e), c, d)
    | Ok es =>
        if negb (within_ceiling (cMaxBytes c) 0 es) then (Err (CompactWal ErrCapacity), c, d)
        else
          let data := encodeAll es in
          let d' := set_file d (cTarget c) (mkFile data (length data)) in
          match io with
          | BuildFails => (Err (CompactWal ErrIO), c, d)
          | BuildRenamed => (Err (CompactWal ErrIO), c, d')
          | BuildDone =>
              (Ok tt, mkCompaction (cBase c) (cRetained c) (cPrefix c) (cTarget c) (cTail c) (cMaxBytes c)
                        (length data) true false, d')
          end
    end.

(** ** Switching the manifest *)

Record commitIO := mkCommitIO { ioOpen : bool; ioSyncTail : bool; ioSwitch : publishOutcome; ioRemoved : Z → bool }.

Definition sum_offsets (segs : list (Z * nat)) : Z := foldr (λ s n, Z.of_nat s.2 + n) 0 segs.

(** Old segment files whose removal succeeds are gone. *)
Definition remove_old (removed : Z → bool) (old : list (Z * nat)) (d : disk) : disk :=
  foldr (λ s d, if removed s.1 then del_file d s.1 else d) d old.

Definition finish (c : Compaction) : Compaction :=
  mkCompaction (cBase c) (cRetained c) (cPrefix c) (cTarget c) (cTail c) (cMaxBytes c) (cOffset c) (cBuilt c) true.

Definition switched (segs : list (Z * nat)) (w : WAL) : WAL :=
  mkWAL segs (generation w) (maxSize w) (maxBytes w) (sum_offsets segs) (identity w) false (fatal w).

Definition Commit (io : commitIO) (c : Compaction) (w : WAL) (d : disk) : result compactError unit * Compaction * WAL * disk :=
  if cDone c || negb (cBuilt c) then (Err CompactState, c, w, d)
  else if negb (ioOpen io) then (Err (CompactWal ErrIO), c, w, d)
  else if fatal w then (Err (CompactWal ErrFatal), c, w, d)
  else
    match current w with
    | None => (Err CompactNoSegment, c, w, d)
    | Some (i, off) =>
        if negb (ioSyncTail io) then (Err (CompactWal ErrIO), c, w, d)
        else
          let d1 := sync_file d i in
          let w1 := with_dirty w false in
          let tail := filter (λ s, cTail c <= s.1) (segments w1) in
          if negb (bool_decide (last tail = Some (i, off))) then (Err CompactTail, c, w1, d1)
          else
            let next := (cTarget c, cOffset c) :: tail in
            if (0 <? maxBytes w1) && (maxBytes w1 <? sum_offsets next) then (Err (CompactWal ErrCapacity), c, w1, d1)
            else
              match publishManifestLocked (ioSwitch io) next w1 d1 with
              | (Err e, w2, d2) =>
                  if generation w2 =? generation w1 then (Err (CompactWal e), c, w2, d2)
                  else (Err (CompactWal e), finish c, switched next w2, d2)
              | (Ok _, w2, d2) => (Ok tt, finish c, switched next w2, remove_old (ioRemoved io) (cPrefix c) d2)
              end
    end.

(** [Abort] drops an uncommitted rewrite. *)
Definition Abort (removed : bool) (c : Compaction) (d : disk) : Compaction * disk :=
  if cDone c then (c, d) else (finish c, if removed then del_file d (cTarget c) else d).


(** [Compact] runs the three steps with nothing in between. *)
Definition Compact (sha256 : bytes → bytes) (create : createIO) (build : buildOutcome) (commit : commitIO) (removed : bool)
    (base : Entry) (retained : gmap bytes bytes) (w : WAL) (d : disk) : result compactError unit * WAL * disk :=
  match BeginCompaction sha256 create base retained w d with
  | (Err e, w1, d1) => (Err e, w1, d1)
  | (Ok c, w1, d1) =>
      match Build build c d1 with
      | (Err e, c1, d2) => (Err e, w1, (Abort removed c1 d2).2)
      | (Ok _, c1, d2) => let '(r, c2, w2, d3) := Commit commit c1 w1 d2 in (r, w2, (Abort removed c2 d3).2)
      end
  end.
