(* ===== verification/CompactionProofs.v ===== *)
(** * Compaction keeps the log

    Through every interleaving of appends and syncs with a compaction, and
    wherever it fails or power is lost, the log is the one before the switch or
    the rewrite followed by what was appended since the fence. *)

From stdpp Require Import gmap list sorting.
From S2P Require Import Prelude Bytes Entry Manifest Segment Wal WalSafety WalLog Compaction.

(** ** Segment lists in two parts *)

Lemma encodeAll_inj es es' : wf_entries es → wf_entries es' → encodeAll es = encodeAll es' → es = es'.
Proof.
  intros H1 H2 E. pose proof (scan_encoded Strict es [] H1 (λ _, eq_refl) torn_nil) as S1.
  pose proof (scan_encoded Strict es' [] H2 (λ _, eq_refl) torn_nil) as S2. rewrite E in S1. congruence.
Qed.

Lemma stored_app d P pess T tess tail :
  Forall2 (sealed d) P pess → stored d T tess tail → stored d (P ++ T) (pess ++ tess) tail.
Proof.
  intros HP HT. induction HP as [|[k off] es P pess (f & Hf & Hc & Ho & Hwf & Hs) HP IH]; [done|]. cbn [fst snd] in *. subst off.
  by apply (stored_cons d k es f).
Qed.

Lemma stored_drop d P pess T ess tail :
  T ≠ [] → Forall2 (sealed d) P pess → stored d (P ++ T) ess tail → ∃ tess, ess = pess ++ tess ∧ stored d T tess tail.
Proof.
  intros HT HP. revert ess. induction HP as [|[k off] es P pess (f & Hf & Hc & Ho & Hwf & Hs) HP IH]; intros ess H; [by exists ess|].
  cbn [fst snd app] in *. assert (P ++ T ≠ []) as Hne by (by destruct P).
  remember (P ++ T) as Q eqn:EQ. inversion H as [|i es0 f0 segs0 ess0 tl Hf0 Hc0 Hwf0 Hsy Hst]; subst; [done|].
  destruct (IH _ Hst) as (tess & -> & HT'). exists tess. split; [|done]. cbn. f_equal. rewrite Hf in Hf0. simplify_eq.
  apply encodeAll_inj; [done..|congruence].
Qed.

Lemma readSegments_sealed d P pess : Forall2 (sealed d) P pess → readSegments P d = Ok (mjoin pess).
Proof.
  induction 1 as [|[k off] es P pess (f & Hf & Hc & Ho & Hwf & Hs) HP IH]; [done|]. cbn [readSegments fst] in *.
  rewrite Hf, Hc. rewrite <-(app_nil_r (encodeAll es)), (scan_encoded Strict es []); auto with rhiza. by rewrite IH.
Qed.

Lemma wf_sealed d P pess : Forall2 (sealed d) P pess → wf_entries (mjoin pess).
Proof.
  induction 1 as [|s es P pess (f & _ & _ & _ & Hwf & _) _ IH]; [constructor|]. cbn. by apply Forall_app.
Qed.

(** ** Frames of the operations on the active segments *)

Lemma sync_file_other d i k : k ≠ i → segFiles (sync_file d i) !! k = segFiles d !! k.
Proof. intros H. unfold sync_file. destruct (segFiles d !! i); [|done]. cbn. by rewrite lookup_insert_ne. Qed.

Lemma publish_files io segs w d r w' d' :
  publishManifestLocked io segs w d = (r, w', d') → segFiles d' = segFiles d ∧ segments w' = segments w.
Proof. unfold publishManifestLocked. destruct (encodeManifest _ _ _); [destruct io|]; by intros [= <- <- <-]. Qed.

Lemma createSegment_frame io k w d i off r w' d' :
  current w = Some (i, off) → createSegment io k w d = (r, w', d') →
  (segments w' = segments w ∨ segments w' = segments w ++ [(k, 0%nat)]) ∧ (r = Ok tt → segments w' = segments w ++ [(k, 0%nat)]) ∧
  ∀ j, j ≠ i → j ≠ k → segFiles d' !! j = segFiles d !! j.
Proof.
  intros Hcur. unfold createSegment, seal_current. rewrite Hcur. destruct (ioSync io).
  2:{ intros [= <- <- <-]. split_and!; [by left|done|done]. }
  assert (∀ j, j ≠ i → segFiles (sync_file d i) !! j = segFiles d !! j) as Hsy by (intros; by apply sync_file_other).
  destruct (_ && _); [intros [= <- <- <-]; split_and!; [by left|done|by auto]|].
  destruct (ioCreate io); cbn [negb]; [|intros [= <- <- <-]; split_and!; [by left|done|by auto]].
  destruct (ioDirSync io); cbn [negb].
  2:{ intros [= <- <- <-]. split_and!; [by left|done|]. intros j H1 H2. cbn. rewrite lookup_delete_ne by done. auto. }
  destruct (publishManifestLocked _ _ _ _) as [[r1 w3] d3] eqn:Hp. apply publish_files in Hp as [Hf Hs].
  assert (∀ j, j ≠ i → j ≠ k → segFiles d3 !! j = segFiles d !! j) as Hj.
  { intros j H1 H2. rewrite Hf. cbn. rewrite lookup_insert_ne by done. auto. }
  destruct r1 as [[]|e]; [intros [= <- <- <-]; split_and!; [by right|done|done]|].
  destruct (negb _); intros [= <- <- <-]; (split_and!; [|done|]); cbn in *; [by right|done|by left|].
  intros j H1 H2. rewrite lookup_delete_ne by done. auto.
Qed.

(** [Append] changes the active segment and those after it only. *)
Lemma Append_frame io e w d P T i off r w' d' :
  segments w = P ++ T → last T = Some (i, off) → Append io e w d = (r, w', d') →
  ∃ T', segments w' = P ++ T' ∧ T' ≠ [] ∧ (∀ s, s ∈ T' → s.1 ∈ T.*1 ∨ s.1 = u32 (i + 1)) ∧
    ∀ j, j ≠ i → j ≠ u32 (i + 1) → segFiles d' !! j = segFiles d !! j.
Proof.
  intros Hseg Hlast. assert (T ≠ []) as HT by (by destruct T).
  assert (current w = Some (i, off)) as Hcur by (unfold current; rewrite Hseg, last_app, Hlast; done).
  assert (∀ s, s ∈ T → s.1 ∈ T.*1 ∨ s.1 = u32 (i + 1)) as Hin by (intros s Hs; left; by apply list_elem_of_fmap_2).
  unfold Append. destruct (fatal w); [intros [= <- <- <-]; by exists T|].
  destruct (_ && _); [intros [= <- <- <-]; by exists T|]. rewrite Hcur.
  assert (∀ w1 d1 T1 i1 off1, segments w1 = P ++ T1 → last T1 = Some (i1, off1) → i1 = i ∨ i1 = u32 (i + 1) →
    (∀ s, s ∈ T1 → s.1 ∈ T.*1 ∨ s.1 = u32 (i + 1)) → (∀ j, j ≠ i → j ≠ u32 (i + 1) → segFiles d1 !! j = segFiles d !! j) →
    store io (Encode e) w1 d1 = (r, w', d') →
    ∃ T', segments w' = P ++ T' ∧ T' ≠ [] ∧ (∀ s, s ∈ T' → s.1 ∈ T.*1 ∨ s.1 = u32 (i + 1)) ∧
      ∀ j, j ≠ i → j ≠ u32 (i + 1) → segFiles d' !! j = segFiles d !! j) as Hstore.
  { intros w1 d1 T1 i1 off1 Hs1 Hl1 Hi1 Hin1 Hf1. apply last_Some in Hl1 as [T0 ->]. unfold store, current.
    rewrite Hs1, app_assoc, last_snoc. destruct (segFiles d1 !! i1) as [f|].
    2:{ intros [= <- <- <-]. exists (T0 ++ [(i1, off1)]). rewrite Hs1, app_assoc. split_and!; [done|by destruct T0|done|done]. }
    destruct (ioWrite io) as [|n]; intros [= <- <- <-].
    - exists (T0 ++ [(i1, (off1 + length (Encode e))%nat)]). cbn [segments]. rewrite removelast_last, <-app_assoc. split_and!.
      + done.
      + by destruct T0.
      + intros s [Hs| ->%list_elem_of_singleton]%elem_of_app; [apply Hin1; set_solver|]. apply (Hin1 (i1, off1)). set_solver.
      + intros j H1 H2. cbn. rewrite lookup_insert_ne by (destruct Hi1; congruence). auto.
    - exists (T0 ++ [(i1, off1)]). cbn [segments with_fatal]. rewrite Hs1. split_and!; [done|by destruct T0|done|].
      intros j H1 H2. cbn. rewrite lookup_insert_ne by (destruct Hi1; congruence). auto. }
  destruct (_ <? _); [|by apply (Hstore w d T i off); auto].
  destruct (createSegment _ _ _ _) as [[r1 w1] d1] eqn:Hc. destruct (createSegment_frame _ _ _ _ _ _ _ _ _ Hcur Hc) as (Hs & Hok & Hf).
  destruct r1 as [[]|err].
  - apply (Hstore w1 d1 (T ++ [(u32 (i + 1), 0%nat)]) (u32 (i + 1)) 0%nat).
    + rewrite (Hok eq_refl), Hseg. by rewrite app_assoc.
    + apply last_snoc.
    + by right.
    + intros s [Hs'| ->%list_elem_of_singleton]%elem_of_app; [by apply Hin|by right].
    + done.
  - intros [= <- <- <-]. destruct Hs as [Hs|Hs].
    + exists T. rewrite Hs. by split_and!.
    + exists (T ++ [(u32 (i + 1), 0%nat)]). rewrite Hs, Hseg, <-app_assoc. split_and!; [done|by destruct T| |done].
      intros s [Hs'| ->%list_elem_of_singleton]%elem_of_app; [by apply Hin|by right].
Qed.

(** ** The state of a running compaction *)

(** The rewrite of the fenced entries: nothing the checkpoint covers, and no
    proposal but the retained ones. *)
Definition compacted (c : Compaction) (old : list Entry) : list Entry :=
  cBase c :: (proposal_entry (cRetained c) <$> sortedHashes (cRetained c)) ++
    filter (λ e, ¬ (EType e = EntryProposal ∨ ESlot e <= ESlot (cBase c))) old.

Lemma filter_kept (base : Entry) (es : list Entry) : filter (kept base) es = filter (λ e, ¬ (EType e = EntryProposal ∨ ESlot e <= ESlot base)) es.
Proof.
  apply list_filter_iff. intros e. unfold kept.
  split; [intros [? ?] [?|?]; [done|lia]|intros Hn; split; [auto|destruct (Z.lt_ge_cases (ESlot base) (ESlot e)); tauto]].
Qed.

Lemma visit_compacted c d pess :
  Forall2 (sealed d) (cPrefix c) pess → visitCompactedEntries (cBase c) (cRetained c) (cPrefix c) d = Ok (compacted c (mjoin pess)).
Proof.
  intros H. unfold visitCompactedEntries, compacted. rewrite (readSegments_sealed _ _ _ H). cbn [rbind]. by rewrite filter_kept.
Qed.

Definition request_ok (c : Compaction) : Prop :=
  wf_entry (cBase c) ∧ Forall (λ h, wf_entry (proposal_entry (cRetained c) h)) (sortedHashes (cRetained c)).

Lemma compacted_wf c old : request_ok c → wf_entries old → wf_entries (compacted c old).
Proof.
  intros [Hb Hr] Hold. constructor; [done|]. apply Forall_app. split; [by apply Forall_fmap|].
  apply Forall_forall. intros e [_ He]%list_elem_of_filter. by eapply Forall_forall in Hold.
Qed.

Record fence (c : Compaction) (w : WAL) (d : disk) (pess tess : list (list Entry)) : Prop := {
  fe_live : live w d (pess ++ tess);
  fe_clean : clean w d;
  fe_segs : ∃ T, segments w = cPrefix c ++ T ∧ T ≠ [] ∧ ∀ s, s ∈ T → cTail c <= s.1;
  fe_sealed : Forall2 (sealed d) (cPrefix c) pess;
  fe_index : cTail c = cTarget c + 1 ∧ 0 < cTarget c ∧ ∀ s, s ∈ cPrefix c → s.1 < cTarget c;
  fe_done : cDone c = false;
  fe_built : cBuilt c = true →
    segFiles d !! cTarget c = Some (mkFile (encodeAll (compacted c (mjoin pess))) (length (encodeAll (compacted c (mjoin pess))))) ∧
    cOffset c = length (encodeAll (compacted c (mjoin pess)));
}.

Section begin.
Context (sha256 : bytes → bytes).

Lemma begin_fence io base retained w d ess c w' d' :
  live w d ess → roomy w → BeginCompaction sha256 io base retained w d = (Ok c, w', d') → fence c w' d' ess [[]] ∧ cBase c = base ∧ cRetained c = retained.
Proof.
  intros Hl Hroom. unfold BeginCompaction. destruct (_ || _); [done|]. destruct (negb _); [done|]. rewrite (lv_fatal _ _ _ Hl).
  destruct (stored_snoc_inv _ _ _ _ (lv_stored _ _ _ Hl)) as (pre & active & ->).
  destruct (current_live _ _ _ _ Hl) as (i & Hcur & Hi). rewrite Hcur. destruct (Z.ltb_spec (2 ^ 32 - 1 - 2) i) as [|Hle]; [done|].
  destruct (createSegment io (i + 2) w d) as [[r w1] d1] eqn:Hc.
  assert (i < i + 2 < 2 ^ 32) as Hk by lia.
  pose proof (createSegment_live _ _ _ _ _ _ _ _ _ _ _ Hl Hroom Hcur Hk Hc) as Hout.
  destruct (createSegment_frame _ _ _ _ _ _ _ _ _ Hcur Hc) as (_ & Hseg & _).
  destruct r as [[]|e]; intros [= <- <- <-]. specialize (Hseg eq_refl). destruct Hout as [Hl1 Hc1]. split; [|done].
  pose proof (lv_stored _ _ _ Hl1) as (psegs & k & f & E & Hsealed & _)%stored_split. rewrite Hseg in E.
  apply app_inj_tail in E as [<- _]. split; cbn; try done.
  - exists [(i + 2, 0%nat)]. split_and!; [exact Hseg|done|]. intros s ->%list_elem_of_singleton. cbn. lia.
  - split_and!; [lia|lia|]. pose proof (current_live _ _ _ _ Hl) as (i' & Hcur' & _). rewrite Hcur in Hcur'. simplify_eq.
    unfold current in Hcur. apply last_Some in Hcur as [l El]. pose proof (fresh_before _ _ _ _ _ _ (lv_pub _ _ _ Hl) El) as Hlt.
    intros s Hs. rewrite El in Hs. apply elem_of_app in Hs as [Hs| ->%list_elem_of_singleton]; [specialize (Hlt s Hs); cbn in Hlt; lia|cbn; lia].
Qed.
End begin.

(** The indices of the tail are beyond the target. *)
Lemma fence_target c w d pess tess s : fence c w d pess tess → s ∈ segments w → s.1 ≠ cTarget c.
Proof.
  intros [_ _ (T & E & _ & HT) _ (H1 & _ & H2) _ _] Hs. rewrite E in Hs. apply elem_of_app in Hs as [Hs|Hs].
  - specialize (H2 s Hs). lia.
  - specialize (HT s Hs). lia.
Qed.

Lemma build_fence io c w d pess tess c' d' r :
  fence c w d pess tess → request_ok c → Build io c d = (r, c', d') → fence c' w d' pess tess ∧ (r = Ok tt → cBuilt c' = true) ∧
    cBase c' = cBase c ∧ cRetained c' = cRetained c.
Proof.
  intros Hf Hreq. pose proof Hf as [Hl Hcl Hsegs Hsealed Hix Hd Hb]. unfold Build. rewrite Hd.
  destruct (cBuilt c) eqn:Eb; cbn [orb]; [by intros [= <- <- <-]|].
  rewrite (visit_compacted _ _ _ Hsealed).
  destruct (negb _); [by intros [= <- <- <-]|]. set (data := encodeAll _). set (d1 := set_file _ _ _).
  assert (∀ s, s ∈ segments w → segFiles d1 !! s.1 = segFiles d !! s.1) as Hfr.
  { intros s Hs. cbn. rewrite lookup_insert_ne; [done|]. intros E. by apply (fence_target _ _ _ _ _ s Hf Hs). }
  assert (live w d1 (pess ++ tess) ∧ clean w d1 ∧ Forall2 (sealed d1) (cPrefix c) pess) as (Hl1 & Hc1 & Hs1).
  { split_and!.
    - destruct Hl as [L1 L2 L3 L4]. split; [done|by apply (stored_frame d)| |done]. destruct L3 as [P1 P2 P3]. by split.
    - intros H i off Hcur. rewrite (synced_tail_frame d) by done. by apply (Hcl H i).
    - apply (sealed_frame d); [|done]. intros s Hs. apply Hfr. destruct Hsegs as (T & -> & _). set_solver. }
  destruct io; intros [= <- <- <-]; [done| |].
  - split; [|done]. by split; try done; rewrite Eb.
  - split; [|done]. split; try done. cbn. intros _. split; [apply lookup_insert_eq|done].
Qed.

(** Operations that leave the fenced segments and the target alone. *)
Lemma fence_step c w d pess tess w' d' ess' T' :
  fence c w d pess tess → live w' d' ess' → clean w' d' → segments w' = cPrefix c ++ T' → T' ≠ [] → (∀ s, s ∈ T' → cTail c <= s.1) →
  (∀ j, j <= cTarget c → segFiles d' !! j = segFiles d !! j) → ∃ tess', ess' = pess ++ tess' ∧ fence c w' d' pess tess'.
Proof.
  intros [Hl Hcl Hsegs Hsealed Hix Hd Hb] Hl' Hc' HS HT Hge Hfr.
  assert (Forall2 (sealed d') (cPrefix c) pess) as Hs'.
  { apply (sealed_frame d); [|done]. intros s Hs. apply Hfr. destruct Hix as (_ & _ & H). specialize (H s Hs). lia. }
  destruct (stored_drop d' (cPrefix c) pess T' ess' []) as (tess' & -> & _); [done|done|rewrite <-HS; apply (lv_stored _ _ _ Hl')|].
  exists tess'. split; [done|]. split; try done.
  - by exists T'.
  - intros H. rewrite Hfr by lia. auto.
Qed.

Lemma fence_current c w d pess tess T :
  fence c w d pess tess → segments w = cPrefix c ++ T → T ≠ [] → ∃ i off, last T = Some (i, off) ∧ (i, off) ∈ T.
Proof.
  intros Hf E HT. destruct (last T) as [[i off]|] eqn:El; [|by apply last_None in El]. exists i, off. split; [done|].
  apply last_Some in El as [l ->]. set_solver.
Qed.

Lemma append_fence io e c w d pess tess r w' d' :
  fence c w d pess tess → roomy w → wf_entry e → Append io e w d = (r, w', d') → fatal w' = false →
  ∃ tess', fence c w' d' pess tess' ∧ mjoin tess' = mjoin tess ++ (match r with Ok _ => [e] | Err _ => [] end).
Proof.
  intros Hf Hroom He Ha Hnf. pose proof Hf as [Hl Hcl (T & E & HT & Hge) Hsealed (Hix1 & Hix2 & Hix3) Hd Hb].
  destruct (fence_current _ _ _ _ _ _ Hf E HT) as (i & off & Hlast & Hin).
  assert (u32 (i + 1) = i + 1) as Hu.
  { destruct Hroom as (_ & _ & Hs). destruct (Hs (i, off)) as [H1 _]; [rewrite E; set_solver|]. cbn in H1.
    specialize (Hge (i, off) Hin). cbn in Hge. apply u32_small. lia. }
  destruct (Append_frame _ _ _ _ _ _ _ _ _ _ _ E Hlast Ha) as (T' & HS & HT' & Hin' & Hfr). rewrite Hu in *.
  assert (∀ s, s ∈ T' → cTail c <= s.1) as Hge'.
  { intros s Hs. destruct (Hin' s Hs) as [(s0 & -> & Hs0)%list_elem_of_fmap| ->]; [by apply Hge|].
    specialize (Hge (i, off) Hin). cbn in Hge. lia. }
  assert (∀ j, j <= cTarget c → segFiles d' !! j = segFiles d !! j) as Hfr'.
  { intros j Hj. specialize (Hge (i, off) Hin). cbn in Hge. apply Hfr; lia. }
  pose proof (append_cases _ _ _ _ _ _ _ _ Hl Hroom He Ha) as Hout. destruct r as [[]|err].
  - destruct Hout as (ess' & Hl' & Hc' & Hj & _). destruct (fence_step _ _ _ _ _ _ _ _ _ Hf Hl' Hc' HS HT' Hge' Hfr') as (tess' & -> & Hf').
    exists tess'. split; [done|]. rewrite !join_app, <-app_assoc in Hj. by apply app_inv_head in Hj.
  - destruct Hout as [(Hl' & Hc' & _)|[? _]]; [|congruence].
    destruct (fence_step _ _ _ _ _ _ _ _ _ Hf Hl' (Hc' Hcl) HS HT' Hge' Hfr') as (tess' & E' & Hf'). apply app_inv_head in E' as <-.
    exists tess. by rewrite app_nil_r.
Qed.

Lemma sync_fence ioOk c w d pess tess w' d' :
  fence c w d pess tess → Sync ioOk w d = (Ok tt, w', d') → fence c w' d' pess tess.
Proof.
  intros Hf Hs. pose proof Hf as [Hl Hcl (T & E & HT & Hge) Hsealed Hix Hd Hb].
  destruct (sync_cases _ _ _ _ _ _ Hl Hcl Hs) as (Hl' & Hc' & _). destruct (fence_current _ _ _ _ _ _ Hf E HT) as (i & off & Hlast & Hin).
  assert (segments w' = segments w ∧ ∀ j, j <= cTarget c → segFiles d' !! j = segFiles d !! j) as [Hseg Hfr].
  { unfold Sync in Hs. rewrite (lv_fatal _ _ _ Hl) in Hs. unfold current in Hs. rewrite E, last_app, Hlast in Hs.
    destruct (negb _); [by injection Hs as <- <-|]. destruct ioOk; [|done]. injection Hs as <- <-. split; [done|].
    intros j Hj. apply sync_file_other. specialize (Hge (i, off) Hin). cbn in Hge. lia. }
  rewrite E in Hseg. destruct (fence_step _ _ _ _ _ _ _ _ _ Hf Hl' Hc' Hseg HT Hge Hfr) as (tess' & E' & Hf').
  by apply app_inv_head in E' as <-.
Qed.

(** ** The switch *)

Lemma refs_of_app P T : T ≠ [] → refs_of (P ++ T) = ((λ s, mkRef s.1 (Z.of_nat s.2) false) <$> P) ++ refs_of T.
Proof.
  intros HT. induction P as [|[i off] P IH]; [done|]. cbn [app]. rewrite refs_of_cons by (by destruct P). by rewrite IH.
Qed.

Lemma refs_of_length segs : length (refs_of segs) = length segs.
Proof. rewrite <-(length_fmap refIndex), refs_of_index. apply length_fmap. Qed.

Lemma increasing_after p q l k : increasing p (l ++ k) → (∀ r, r ∈ k → q < refIndex r) → increasing q k.
Proof.
  revert p. induction l as [|x l IH]; intros p; cbn [app increasing].
  - destruct k as [|r k]; [done|]. intros [_ H] Hq. split; [apply Hq; left|done].
  - intros [_ H] Hq. by apply (IH _ H).
Qed.

Lemma live_synced_survives w d pre active :
  live w d (pre ++ [active]) → (length (encodeAll active) <= synced_tail d (segments w))%nat →
  survives d (mjoin (pre ++ [active])) (mjoin (pre ++ [active])).
Proof.
  intros Hl Hs. pose proof (live_survives _ _ _ Hl) as H. by rewrite durable_entries_snoc, whole_entries_all, <-mjoin_snoc in H by done.
Qed.

Lemma remove_old_other removed old d k : k ∉ old.*1 → segFiles (remove_old removed old d) !! k = segFiles d !! k.
Proof.
  intros Hk. induction old as [|[i off] old IH]; [done|]. cbn [remove_old foldr fst]. cbn in Hk.
  fold (remove_old removed old d). destruct (removed i); [|apply IH; set_solver]. cbn. rewrite lookup_delete_ne by set_solver. apply IH. set_solver.
Qed.

Lemma remove_old_manifests removed old d :
  manifests (remove_old removed old d) = manifests d ∧ pendingManifest (remove_old removed old d) = pendingManifest d.
Proof. induction old as [|[i off] old IH]; [done|]. cbn [remove_old foldr fst]. fold (remove_old removed old d). by destruct (removed i). Qed.

Lemma filter_two {A} (P : A → Prop) `{!∀ x, Decision (P x)} (l k : list A) :
  (∀ x, x ∈ l → ¬ P x) → (∀ x, x ∈ k → P x) → filter P (l ++ k) = k.
Proof.
  intros Hl Hk. induction l as [|x l IH]; cbn [app].
  - induction k as [|y k IH]; [done|]. rewrite filter_cons_True by (apply Hk; left). f_equal. apply IH. intros; apply Hk; by right.
  - rewrite filter_cons_False by (apply Hl; left). apply IH. intros; apply Hl; by right.
Qed.

Section commit.
Context (c : Compaction) (w : WAL) (d : disk) (pess tess : list (list Entry)) (T : list (Z * nat)).
Context (Hf : fence c w d pess tess) (Hbuilt : cBuilt c = true) (Hreq : request_ok c).
Context (Hroom : roomy w) (Hsize : Z.of_nat (cOffset c) < 2 ^ 64).
Context (HS : segments w = cPrefix c ++ T) (HT : T ≠ []).

Let next := (cTarget c, cOffset c) :: T.
Let all := compacted c (mjoin pess).

Lemma fence_ge s : s ∈ T → cTail c <= s.1.
Proof using All.
  destruct (fe_segs _ _ _ _ _ Hf) as (T' & E & _ & H). rewrite HS in E. apply app_inv_head in E as <-. apply H.
Qed.

Lemma next_wf : wf_manifest (generation w + 1) (refs_of next) (identity w).
Proof using All.
  destruct (fe_index _ _ _ _ _ Hf) as (Hi1 & Hi2 & Hi3). destruct (lv_pub _ _ _ (fe_live _ _ _ _ _ Hf)) as [_ (Hg & Hn & Hr & Hinc & Hid) _].
  destruct Hroom as (Hg' & Hn' & Hs). rewrite HS, refs_of_app in Hr, Hinc by done. unfold next. rewrite refs_of_cons by done.
  assert (∀ r, r ∈ refs_of T → cTarget c < refIndex r) as Hgt.
  { intros r Hr'. assert (refIndex r ∈ T.*1) as (s & -> & Hin)%list_elem_of_fmap by (rewrite <-refs_of_index; by apply list_elem_of_fmap_2).
    pose proof (fence_ge s Hin). lia. }
  split_and!; [lia|lia| | | |done].
  - cbn [length]. rewrite refs_of_length. rewrite HS, length_app in Hn'. lia.
  - constructor; [|by apply Forall_app in Hr as [_ ?]]. split; cbn; [|lia].
    assert (∃ s, s ∈ T) as [s Hin] by (destruct T as [|s ?]; [done|exists s; left]).
    destruct (Hs s) as [H1 _]; [rewrite HS; set_solver|]. pose proof (fence_ge s Hin). lia.
  - split; [done|]. cbn. by apply (increasing_after _ _ _ _ Hinc).
Qed.

(** The rewrite followed by the tail, on a disk with the same files. *)
Lemma next_stored d2 :
  stored d2 T tess [] → segFiles d2 !! cTarget c = segFiles d !! cTarget c → stored d2 next (all :: tess) [].
Proof using All.
  intros Hst Htarget. destruct (fe_built _ _ _ _ _ Hf Hbuilt) as [Hfile Hoff]. unfold next. rewrite Hoff.
  apply (stored_cons d2 _ _ (mkFile (encodeAll all) (length (encodeAll all)))); try done.
  - by rewrite Htarget.
  - apply compacted_wf; [done|]. by eapply wf_sealed, fe_sealed.
Qed.

Lemma filter_tail : filter (λ s : Z * nat, cTail c <= s.1) (segments w) = T.
Proof using All.
  destruct (fe_index _ _ _ _ _ Hf) as (Hi1 & _ & Hi3). rewrite HS. apply filter_two.
  - intros s Hs. specialize (Hi3 s Hs). lia.
  - apply fence_ge.
Qed.

(** Any disk with the synced files and the new manifest is the new log. *)
Lemma next_live d1 d2 data wg :
  live (with_dirty w false) d1 (pess ++ tess) → stored d1 T tess [] → segFiles d1 !! cTarget c = segFiles d !! cTarget c →
  (∀ s, s ∈ next → segFiles d2 !! s.1 = segFiles d1 !! s.1) → pendingManifest d2 = None →
  encodeManifest (generation w + 1) (refs_of next) (identity w) = Ok data → manifests d2 !! (generation w + 1) = Some data →
  (∀ g, is_Some (manifests d2 !! g) → g = generation w + 1 ∨ is_Some (manifests d1 !! g)) →
  segments wg = next → generation wg = generation w + 1 → identity wg = identity w → fatal wg = false →
  live wg d2 (all :: tess).
Proof using All.
  intros Hl Hst Ht Hfr Hp He Hm Hold E1 E2 E3 E4. split; [done| | |done]; rewrite E1, ?E2, ?E3.
  - apply (stored_frame d1); [done|]. by apply next_stored.
  - split; [by exists data|apply next_wf|]. intros g [->|Hg]%Hold; [lia|].
    apply (pub_latest _ _ _ _ (lv_pub _ _ _ Hl)) in Hg. cbn in Hg. lia.
Qed.
End commit.

(** The old log or the new one, whole. *)
Definition either_log (d : disk) (old new : list Entry) : Prop :=
  ∀ io cut drop, ∃ w' d' ess, Open io (power_loss cut drop d) = Ok (w', d') ∧ live w' d' ess ∧ clean w' d' ∧
    (mjoin ess = old ∨ mjoin ess = new).

Lemma survives_open d es io cut drop : survives d es es →
  ∃ w' d' ess, Open io (power_loss cut drop d) = Ok (w', d') ∧ live w' d' ess ∧ clean w' d' ∧ mjoin ess = es.
Proof.
  intros H. destruct (H io cut drop) as (w' & d' & ess & Ho & Hl & Hc & H1 & H2). exists w', d', ess. split_and!; try done.
  by apply (anti_symm prefix).
Qed.

Lemma synced_clean w d pre active :
  live w d (pre ++ [active]) → (length (encodeAll active) <= synced_tail d (segments w))%nat → clean w d.
Proof.
  intros Hl Hs _ i off Hcur. destruct (current_live _ _ _ _ Hl) as (i' & Hcur' & _). rewrite Hcur in Hcur'. by simplify_eq.
Qed.

Definition commit_outcome (c : Compaction) (pess tess : list (list Entry)) (r : result compactError unit) (w' : WAL) (d' : disk) : Prop :=
  match r with
  | Ok _ => live w' d' (compacted c (mjoin pess) :: tess) ∧ clean w' d' ∧
      survives d' (compacted c (mjoin pess) ++ mjoin tess) (compacted c (mjoin pess) ++ mjoin tess)
  | Err _ => live w' d' (pess ++ tess) ∧ clean w' d' ∨
      fatal w' = true ∧ either_log d' (mjoin (pess ++ tess)) (compacted c (mjoin pess) ++ mjoin tess)
  end.

(** The switch on a disk whose active segment was just synced. *)
Section switch.
Context (c : Compaction) (w : WAL) (d d1 : disk) (pess tpre : list (list Entry)) (active : list Entry) (T : list (Z * nat)).
Context (i : Z) (off : nat) (data : bytes).
Context (Hf : fence c w d pess (tpre ++ [active])) (Hb : cBuilt c = true) (Hreq : request_ok c).
Context (Hroom : roomy w) (Hsize : Z.of_nat (cOffset c) < 2 ^ 64).
Context (HS : segments w = cPrefix c ++ T) (HT : T ≠ []) (Hlast : last T = Some (i, off)).
Context (Hl1 : live (with_dirty w false) d1 (pess ++ tpre ++ [active])) (Hst1 : stored d1 T (tpre ++ [active]) []).
Context (Hsy : synced_tail d1 (segments w) = length (encodeAll active)).
Context (Ht1 : segFiles d1 !! cTarget c = segFiles d !! cTarget c).
Context (He : encodeManifest (generation w + 1) (refs_of ((cTarget c, cOffset c) :: T)) (identity w) = Ok data).

Let next := (cTarget c, cOffset c) :: T.
Let w2 := with_generation (with_dirty w false) (generation w + 1).
Let new := compacted c (mjoin pess) :: tpre ++ [active].

Lemma switch_disjoint s : s ∈ next → s.1 ∉ (cPrefix c).*1.
Proof using All.
  destruct (fe_index _ _ _ _ _ Hf) as (Hi1 & _ & Hi3). intros Hs (s0 & E0 & Hs0)%list_elem_of_fmap. specialize (Hi3 s0 Hs0). rewrite <-E0 in Hi3.
  apply elem_of_cons in Hs as [->|Hs]; [cbn in Hi3; lia|]. pose proof (fence_ge c w d pess (tpre ++ [active]) T Hf Hb Hreq Hroom Hsize HS HT s Hs). lia.
Qed.

(** A disk with the files of the new log and its manifest. *)
Lemma switch_live d2 :
  (∀ s, s ∈ next → segFiles d2 !! s.1 = segFiles d1 !! s.1) → pendingManifest d2 = None →
  manifests d2 !! (generation w + 1) = Some data →
  (∀ g, is_Some (manifests d2 !! g) → g = generation w + 1 ∨ is_Some (manifests d1 !! g)) →
  live (switched next w2) d2 new ∧ clean (switched next w2) d2 ∧ survives d2 (mjoin new) (mjoin new).
Proof using All.
  intros Hfr Hp Hm Hold.
  assert (live (switched next w2) d2 new) as Hl2.
  { apply (next_live c w d pess (tpre ++ [active]) T Hf Hb Hreq Hroom Hsize HS HT d1 d2 data); try done. apply (lv_fatal _ _ _ Hl1). }
  assert (length (encodeAll active) <= synced_tail d2 next)%nat as Hs2.
  { rewrite <-Hsy. unfold synced_tail, next. rewrite HS, last_app, Hlast. destruct T as [|t0 T0] eqn:ET; [done|].
    rewrite last_cons_cons, Hlast. pose proof (Hfr (i, off)) as E. cbn [fst] in E. rewrite E; [done|]. right.
    apply last_Some in Hlast as [l ->]. set_solver. }
  split_and!; [done|by apply (synced_clean _ _ (compacted c (mjoin pess) :: tpre) active)|].
  by apply (live_synced_survives _ _ (compacted c (mjoin pess) :: tpre) active Hl2).
Qed.

Lemma switch_done cleanup removed :
  let d2 := mkDisk (segFiles d1) (if cleanup : bool then {[generation w + 1 := data]} else <[generation w + 1 := data]> (manifests d1)) None in
  commit_outcome c pess (tpre ++ [active]) (Ok tt) (switched next w2) (remove_old removed (cPrefix c) d2).
Proof using All.
  intros d2. destruct (remove_old_manifests removed (cPrefix c) d2) as [Hm Hp]. apply switch_live; rewrite ?Hm, ?Hp; try done.
  - intros s Hs. by rewrite remove_old_other by (by apply switch_disjoint).
  - cbn. destruct cleanup; [apply lookup_singleton_eq|apply lookup_insert_eq].
  - cbn. destruct cleanup; intros g.
    + intros [x [<- _]%lookup_singleton_Some]. by left.
    + intros [<-|[_ Hg1]]%lookup_insert_is_Some; [by left|by right].
Qed.

Lemma switch_uncertain :
  either_log (mkDisk (segFiles d1) (<[generation w + 1 := data]> (manifests d1)) (Some (generation w + 1)))
    (mjoin (pess ++ tpre ++ [active])) (mjoin new).
Proof using All.
  intros io cut drop. destruct drop.
  - assert (survives d1 (mjoin (pess ++ tpre ++ [active])) (mjoin (pess ++ tpre ++ [active]))) as Hsv.
    { rewrite app_assoc in *. apply (live_synced_survives _ _ _ _ Hl1). by rewrite <-Hsy. }
    destruct (survives_open _ _ io cut true Hsv) as (w' & d' & ess & Ho & Hl' & Hc' & E').
    exists w', d', ess. split_and!; [|done|done|by left]. rewrite <-Ho. f_equal. unfold power_loss. cbn.
    rewrite (lv_pend _ _ _ Hl1), delete_insert_id; [done|]. apply eq_None_not_Some. intros Hs'.
    apply (pub_latest _ _ _ _ (lv_pub _ _ _ Hl1)) in Hs'. cbn in Hs'. lia.
  - destruct (switch_live (mkDisk (segFiles d1) (<[generation w + 1 := data]> (manifests d1)) None)) as (_ & _ & Hsv); try done.
    + apply lookup_insert_eq.
    + intros g. cbn [manifests]. intros [<-|[_ Hg1]]%lookup_insert_is_Some; [by left|by right].
    + destruct (survives_open _ _ io cut false Hsv) as (w' & d' & ess & Ho & Hl' & Hc' & E').
      exists w', d', ess. split_and!; [|done|done|by right]. by rewrite <-Ho.
Qed.
End switch.

Lemma commit_cases io c w d pess tess r c' w' d' :
  fence c w d pess tess → request_ok c → roomy w → Z.of_nat (cOffset c) < 2 ^ 64 →
  Commit io c w d = (r, c', w', d') → commit_outcome c pess tess r w' d'.
Proof.
  intros Hf Hreq Hroom Hsize. pose proof Hf as [Hl Hcl (T & HS & HT & Hge) Hsealed (Hi1 & Hi2 & Hi3) Hd _].
  unfold Commit. rewrite Hd. destruct (cBuilt c) eqn:Hb; cbn [orb negb]; [|intros [= <- _ <- <-]; by left].
  destruct (ioOpen io); cbn [negb]; [|intros [= <- _ <- <-]; by left]. rewrite (lv_fatal _ _ _ Hl).
  destruct (fence_current _ _ _ _ _ _ Hf HS HT) as (i & off & Hlast & Hin).
  assert (current w = Some (i, off)) as Hcur by (unfold current; rewrite HS, last_app, Hlast; done).
  rewrite Hcur. destruct (ioSyncTail io); cbn [negb]; [|intros [= <- _ <- <-]; by left].
  destruct (stored_drop d _ _ _ _ [] HT Hsealed ltac:(rewrite <-HS; apply (lv_stored _ _ _ Hl))) as (tess' & E & HstT).
  apply app_inv_head in E as <-. destruct (stored_snoc_inv _ _ _ _ HstT) as (tpre & active & ->).
  rewrite app_assoc in Hl. destruct (live_sealed createAll w d (pess ++ tpre) active i off (with_dirty w false) (sync_file d i) Hl Hcur)
    as (Hl1 & _ & Hsy); [unfold seal_current; by rewrite Hcur|].
  assert (∀ j, j <= cTarget c → segFiles (sync_file d i) !! j = segFiles d !! j) as Hd1.
  { intros j Hj. apply sync_file_other. specialize (Hge (i, off) Hin). cbn in Hge. lia. }
  assert (clean (with_dirty w false) (sync_file d i)) as Hclean1 by (by eapply synced_clean; [|cbn [segments with_dirty]; rewrite Hsy]).
  rewrite <-app_assoc in Hl1. assert (stored (sync_file d i) T (tpre ++ [active]) []) as HstT1.
  { destruct (stored_drop (sync_file d i) (cPrefix c) pess T (pess ++ tpre ++ [active]) []) as (tess' & E & ?);
      [done| |rewrite <-HS; apply (lv_stored _ _ _ Hl1)|by apply app_inv_head in E as <-].
    apply (sealed_frame d); [|done]. intros s Hs. apply Hd1. specialize (Hi3 s Hs). lia. }
  cbn [segments with_dirty]. rewrite (filter_tail c w d pess (tpre ++ [active]) T Hf Hb Hreq Hroom Hsize HS HT), Hlast.
  rewrite bool_decide_eq_true_2 by done. cbn [negb].
  destruct (_ && _); [intros [= <- _ <- <-]; by left|].
  unfold publishManifestLocked. destruct (lv_pub _ _ _ Hl) as [_ (Hg0 & _) _]. pose proof Hroom as (Hg & _).
  cbn [generation identity with_dirty]. rewrite u64_small by lia.
  destruct (encodeManifest _ _ _) as [data|e] eqn:He; [|cbn [generation with_dirty]; rewrite Z.eqb_refl; intros [= <- _ <- <-]; by left].
  destruct (ioSwitch io) as [|cleanup|].
  - cbn [generation with_dirty]. rewrite Z.eqb_refl. intros [= <- _ <- <-]. by left.
  - intros [= <- _ <- <-]. apply (switch_done c w d (sync_file d i) pess tpre active T i off data); auto using Z.le_refl.
  - cbn [generation with_fatal with_generation]. destruct (Z.eqb_spec (generation w + 1) (generation w)); [lia|].
    intros [= <- _ <- <-]. right. split; [done|]. apply (switch_uncertain c w d (sync_file d i) pess tpre active T i off data); auto using Z.le_refl.
Qed.

(** A refused switch leaves the compaction where it was. *)
Lemma commit_refused io c w d e c' w' d' :
  Commit io c w d = (Err e, c', w', d') → fatal w' = false →
  c' = c ∧ segments w' = segments w ∧ (d' = d ∨ ∃ i off, current w = Some (i, off) ∧ segFiles d' = segFiles (sync_file d i)).
Proof.
  unfold Commit. destruct (_ || _); [intros [= _ <- <- <-]; by auto|]. destruct (negb _); [intros [= _ <- <- <-]; by auto|].
  destruct (fatal w) eqn:Ef; [intros [= _ <- <- <-]; by auto|]. destruct (current w) as [[i off]|]; [|intros [= _ <- <- <-]; by auto].
  destruct (negb _); [intros [= _ <- <- <-]; by auto|].
  destruct (negb _); [intros [= _ <- <- <-] _; split_and!; try done; right; by exists i, off|].
  destruct (_ && _); [intros [= _ <- <- <-] _; split_and!; try done; right; by exists i, off|].
  unfold publishManifestLocked. destruct (encodeManifest _ _ _) as [data|e'].
  - destruct (ioSwitch io); [|done|].
    + cbn [generation with_dirty]. rewrite Z.eqb_refl. intros [= _ <- <- <-] _. split_and!; try done. right. by exists i, off.
    + by destruct (_ =? _); intros [= _ <- <- <-].
  - cbn [generation with_dirty]. rewrite Z.eqb_refl. intros [= _ <- <- <-] _. split_and!; try done. right. by exists i, off.
Qed.

Lemma commit_fence io c w d pess tess e c' w' d' :
  fence c w d pess tess → request_ok c → roomy w → Z.of_nat (cOffset c) < 2 ^ 64 →
  Commit io c w d = (Err e, c', w', d') → fatal w' = false → fence c' w' d' pess tess.
Proof.
  intros Hf Hreq Hroom Hsize Hc Hnf. pose proof (commit_cases _ _ _ _ _ _ _ _ _ _ Hf Hreq Hroom Hsize Hc) as Hout.
  destruct (commit_refused _ _ _ _ _ _ _ _ Hc Hnf) as (-> & Hseg & Hd). destruct Hout as [[Hl' Hc']|[? _]]; [|congruence].
  pose proof Hf as [_ _ (T & E & HT & Hge) _ (Hi1 & _) _ _]. rewrite E in Hseg.
  destruct (fence_step _ _ _ _ _ _ _ _ _ Hf Hl' Hc' Hseg HT Hge) as (tess' & E' & Hf'); [|by apply app_inv_head in E' as <-].
  intros j Hj. destruct Hd as [->|(i & off & Hcur & ->)]; [done|]. apply sync_file_other.
  destruct (fence_current _ _ _ _ _ _ Hf E HT) as (i' & off' & Hlast & Hin). unfold current in Hcur. rewrite E, last_app, Hlast in Hcur.
  simplify_eq. specialize (Hge (i, off) Hin). cbn in Hge. lia.
Qed.

(** An abandoned rewrite takes nothing of the log with it. *)
Lemma abort_live removed c w d pess tess : fence c w d pess tess → live w (Abort removed c d).2 (pess ++ tess) ∧ clean w (Abort removed c d).2.
Proof.
  intros Hf. pose proof Hf as [Hl Hcl _ _ _ Hd _]. unfold Abort. rewrite Hd. destruct removed; [|done]. cbn [snd].
  assert (∀ s, s ∈ segments w → segFiles (del_file d (cTarget c)) !! s.1 = segFiles d !! s.1) as Hfr.
  { intros s Hs. cbn. rewrite lookup_delete_ne; [done|]. intros E. by apply (fence_target _ _ _ _ _ s Hf Hs). }
  destruct Hl as [L1 L2 L3 L4]. split.
  - split; [done|by apply (stored_frame d)| |done]. by destruct L3; split.
  - intros H i off Hcur. rewrite (synced_tail_frame d) by done. by apply (Hcl H i).
Qed.

(** ** Compactions among appends and syncs *)

Section run.
Context (sha256 : bytes → bytes) (base : Entry) (retained : gmap bytes bytes).

(** [compacting c w d old new]: the compaction [c] fenced the entries [old], and
    [new] were appended since. *)
Inductive compacting : Compaction → WAL → disk → list Entry → list Entry → Prop :=
| compacting_begin io w d old reopened c w' d' :
    log_run w d old reopened → roomy w → BeginCompaction sha256 io base retained w d = (Ok c, w', d') → compacting c w' d' old []
| compacting_append io e c w d old new r w' d' :
    compacting c w d old new → roomy w → wf_entry e → Append io e w d = (r, w', d') → fatal w' = false →
    compacting c w' d' old (new ++ match r with Ok _ => [e] | Err _ => [] end)
| compacting_sync ioOk c w d old new w' d' :
    compacting c w d old new → Sync ioOk w d = (Ok tt, w', d') → compacting c w' d' old new
| compacting_build io c w d old new r c' d' :
    compacting c w d old new → Build io c d = (r, c', d') → compacting c' w d' old new
| compacting_commit io c w d old new e c' w' d' :
    compacting c w d old new → roomy w → Z.of_nat (cOffset c) < 2 ^ 64 →
    Commit io c w d = (Err e, c', w', d') → fatal w' = false → compacting c' w' d' old new.

Lemma compacting_fence c w d old new :
  request_ok (mkCompaction base retained [] 0 0 0 0 false false) → compacting c w d old new →
  request_ok c ∧ ∃ pess tess, fence c w d pess tess ∧ old = mjoin pess ∧ new = mjoin tess.
Proof using All.
  intros Hreq. induction 1 as [io w d old b c w' d' Hrun Hroom Hb|io e c w d old new r w' d' _ (Hq & pess & tess & Hf & -> & ->) Hroom He Ha Hnf|
    ioOk c w d old new w' d' _ (Hq & pess & tess & Hf & -> & ->) Hs|io c w d old new r c' d' _ (Hq & pess & tess & Hf & -> & ->) Hb|
    io c w d old new e c' w' d' _ (Hq & pess & tess & Hf & -> & ->) Hroom Hsize Hc Hnf].
  - apply log_run_live in Hrun as (ess & Hl & -> & _). destruct (begin_fence sha256 io base retained w d ess c w' d' Hl Hroom Hb) as (Hf & E1 & E2).
    split; [unfold request_ok in *; by rewrite E1, E2|]. by exists ess, [[]].
  - destruct (append_fence _ _ _ _ _ _ _ _ _ _ Hf Hroom He Ha Hnf) as (tess' & Hf' & E). split; [done|]. by exists pess, tess'.
  - split; [done|]. exists pess, tess. split; [|done]. by eapply sync_fence.
  - destruct (build_fence _ _ _ _ _ _ _ _ _ Hf Hq Hb) as (Hf' & _ & E1 & E2). split; [unfold request_ok in *; by rewrite E1, E2|].
    by exists pess, tess.
  - pose proof (commit_fence _ _ _ _ _ _ _ _ _ _ Hf Hq Hroom Hsize Hc Hnf) as Hf'. split; [|by exists pess, tess].
    by destruct (commit_refused _ _ _ _ _ _ _ _ Hc Hnf) as [-> _].
Qed.
End run.

(** What the log holds after the switch returned. *)
Definition switch_result (c : Compaction) (old new : list Entry) (r : result compactError unit) (w : WAL) (d : disk) : Prop :=
  match r with
  | Ok _ => Read w d = Ok (compacted c old ++ new) ∧
      ∀ io cut drop, ∃ w' d', Open io (power_loss cut drop d) = Ok (w', d') ∧ Read w' d' = Ok (compacted c old ++ new)
  | Err _ => fatal w = false ∧ Read w d = Ok (old ++ new) ∨
      fatal w = true ∧ ∀ io cut drop, ∃ w' d', Open io (power_loss cut drop d) = Ok (w', d') ∧
        (Read w' d' = Ok (old ++ new) ∨ Read w' d' = Ok (compacted c old ++ new))
  end.

Lemma commit_switch_result c pess tess r w d : commit_outcome c pess tess r w d → switch_result c (mjoin pess) (mjoin tess) r w d.
Proof.
  destruct r as [[]|e]; cbn.
  - intros (Hl & _ & Hs). split; [by rewrite (live_read _ _ _ Hl)|]. intros io cut drop.
    destruct (survives_open _ _ io cut drop Hs) as (w' & d' & ess & Ho & Hl' & _ & <-). exists w', d'. split; [done|by apply live_read].
  - intros [[Hl _]|[Hf He]]; [left|right]; (split; [first [done|apply (lv_fatal _ _ _ Hl)]|]).
    + by rewrite (live_read _ _ _ Hl), join_app.
    + intros io cut drop. destruct (He io cut drop) as (w' & d' & ess & Ho & Hl' & _ & E). exists w', d'. split; [done|].
      rewrite (live_read _ _ _ Hl'), <-join_app. destruct E as [->| ->]; auto.
Qed.

(** C13: [Commit] of a compaction that ran among appends, syncs and refused
    switches replaces the fenced entries by the checkpoint, the retained values
    in order of their hashes and the entries after the checkpoint, keeps every
    entry appended since the fence, and the result survives a power failure.
    When it fails, the log still reads as before, or the handle is dead and
    every power failure leaves the old log or the new one, whole. *)
Theorem compaction_exact sha256 base retained io c w d old new r c' w' d' :
  request_ok (mkCompaction base retained [] 0 0 0 0 false false) → compacting sha256 base retained c w d old new →
  roomy w → Z.of_nat (cOffset c) < 2 ^ 64 → Commit io c w d = (r, c', w', d') → switch_result c old new r w' d'.
Proof.
  intros Hreq Hrun Hroom Hsize Hc. destruct (compacting_fence _ _ _ _ _ _ _ _ Hreq Hrun) as (Hq & pess & tess & Hf & -> & ->).
  by eapply commit_switch_result, commit_cases.
Qed.

Lemma compacting_request sha256 base retained c w d old new :
  compacting sha256 base retained c w d old new → cBase c = base ∧ cRetained c = retained.
Proof.
  induction 1 as [io w d old b c w' d' _ _ Hb| | |io c w d old new r c' d' _ IH Hb|io c w d old new e c' w' d' _ IH _ _ Hc Hnf]; try done.
  - revert Hb. unfold BeginCompaction. repeat case_match; by intros [= <- _ _].
  - revert Hb. unfold Build. repeat case_match; by intros [= _ <- _].
  - by destruct (commit_refused _ _ _ _ _ _ _ _ Hc Hnf) as [-> _].
Qed.

(** [EstimateCompactedBytes] on a log is the exact size of the segment
    [Build] writes for it, whatever is appended in between. *)
Theorem estimate_exact sha256 base retained w d old reopened n c w' d' new :
  request_ok (mkCompaction base retained [] 0 0 0 0 false false) → log_run w d old reopened →
  EstimateCompactedBytes sha256 base retained w d = Ok n →
  compacting sha256 base retained c w' d' old new → cBuilt c = true → Z.of_nat (cOffset c) = n.
Proof.
  intros Hreq Hrun He Hc Hb. destruct (compacting_request _ _ _ _ _ _ _ _ Hc) as [<- <-].
  destruct (compacting_fence _ _ _ _ _ _ _ _ Hreq Hc) as (_ & pess & tess & Hf & -> & _).
  destruct (fe_built _ _ _ _ _ Hf Hb) as [_ ->]. apply log_run_live in Hrun as (ess & Hl%live_read & E & _). rewrite <-E in Hl.
  revert He. unfold EstimateCompactedBytes. destruct (_ || _); [done|]. destruct (negb _); [done|].
  replace (visitCompactedEntries _ _ _ _) with (Ok (E := walError) (compacted c (mjoin pess))); [by destruct (_ <? _); intros [= <-]|].
  symmetry. unfold visitCompactedEntries, Read in *. rewrite Hl. cbn [rbind]. by rewrite filter_kept.
Qed.

(** ** A concrete compaction *)

Definition demo_sha (_ : bytes) : bytes := repeat x07 32.
Definition demo_base : Entry := mkEntry 1 (repeat x05 32) EntryCheckpoint [].
Definition demo_retained : gmap bytes bytes := {[ repeat x07 32 := [x09] ]}.
Definition demo_late : Entry := sample_entry 2 [x03].

Definition demo_begun : Compaction * WAL * disk :=
  match BeginCompaction demo_sha createAll demo_base demo_retained appended.1 appended.2 with
  | (Ok c, w, d) => (c, w, d)
  | (Err _, w, d) => (mkCompaction demo_base demo_retained [] 0 0 0 0 false false, w, d)
  end.
Definition demo_appended : WAL * disk := let '(_, w, d) := Append ioFine demo_late demo_begun.1.2 demo_begun.2 in (w, d).
Definition demo_built : Compaction * disk := let '(_, c, d) := Build BuildDone demo_begun.1.1 demo_appended.2 in (c, d).
Definition demo_commit : commitIO := mkCommitIO true true (PubDone true) (λ _, true).
Definition demo_switched : Compaction * WAL * disk :=
  let '(_, c, w, d) := Commit demo_commit demo_built.1 demo_appended.1 demo_built.2 in (c, w, d).

Lemma two_roomy w s1 s2 : segments w = [s1; s2] → generation w + 1 < 2 ^ 64 →
  s1.1 + 1 < 2 ^ 32 → Z.of_nat s1.2 < 2 ^ 64 → s2.1 + 1 < 2 ^ 32 → Z.of_nat s2.2 < 2 ^ 64 → roomy w.
Proof.
  intros E Hg H1 H2 H3 H4. split; [done|]. rewrite E. split; [done|]. intros s Hs.
  apply elem_of_cons in Hs as [->|[->|Hs%elem_of_nil]%elem_of_cons]; done.
Qed.

Lemma demo_request : request_ok (mkCompaction demo_base demo_retained [] 0 0 0 0 false false).
Proof.
  split; [by split_and!; vm_compute|]. rewrite Forall_forall. intros h Hh. vm_compute in Hh.
  apply list_elem_of_singleton in Hh as ->. by split_and!; vm_compute.
Qed.

Lemma appended_roomy : roomy appended.1.
Proof.
  split; [vm_compute; reflexivity|]. split; [vm_compute; reflexivity|].
  intros s Hs. vm_compute in Hs. apply list_elem_of_singleton in Hs as ->. split; vm_compute; reflexivity.
Qed.

Lemma demo_compacting : compacting demo_sha demo_base demo_retained demo_built.1 demo_appended.1 demo_built.2 [demo_entry] [demo_late].
Proof.
  apply (compacting_build _ _ _ BuildDone demo_begun.1.1 _ demo_appended.2 _ _ (Ok tt)); [|vm_compute; reflexivity].
  apply (compacting_append _ _ _ ioFine demo_late _ demo_begun.1.2 demo_begun.2 [demo_entry] [] (Ok tt)); [| | |vm_compute; reflexivity..].
  - apply (compacting_begin _ _ _ createAll appended.1 appended.2 [demo_entry] false); [exact appended_run|exact appended_roomy|vm_compute; reflexivity].
  - apply (two_roomy _ (1, 55%nat) (3, 0%nat)); vm_compute; reflexivity.
  - by split_and!; vm_compute.
Qed.

(** The compacted log: checkpoint, retained value, late entry. *)
Lemma compaction_exact_witness :
  switch_result demo_built.1 [demo_entry] [demo_late] (Ok tt) demo_switched.1.2 demo_switched.2 ∧
  compacted demo_built.1 [demo_entry] ++ [demo_late] = [demo_base; proposal_entry demo_retained (repeat x07 32); demo_late].
Proof.
  split; [|vm_compute; reflexivity].
  apply (compaction_exact demo_sha demo_base demo_retained demo_commit demo_built.1 demo_appended.1 demo_built.2
    [demo_entry] [demo_late] (Ok tt) demo_switched.1.1 demo_switched.1.2 demo_switched.2).
  - exact demo_request.
  - exact demo_compacting.
  - apply (two_roomy _ (1, 55%nat) (3, 54%nat)); vm_compute; reflexivity.
  - vm_compute. reflexivity.
  - vm_compute. reflexivity.
Defined.

Lemma estimate_exact_witness : Z.of_nat (cOffset demo_built.1) = 107.
Proof.
  apply (estimate_exact demo_sha demo_base demo_retained appended.1 appended.2 [demo_entry] false 107
    demo_built.1 demo_appended.1 demo_built.2 [demo_late]).
  - exact demo_request.
  - exact appended_run.
  - vm_compute. reflexivity.
  - exact demo_compacting.
  - vm_compute. reflexivity.
Defined.

(** [Compact] on the same log. *)
Lemma Compact_demo :
  let '(r, w, d) := Compact demo_sha createAll BuildDone demo_commit true demo_base demo_retained appended.1 appended.2 in
  r = Ok tt ∧ Read w d = Ok [demo_base; proposal_entry demo_retained (repeat x07 32)].
Proof. vm_compute. by split. Qed.
