(* ===== verification/Ledger.v ===== *)
(** * The fencing ledger (pkg/fencing/ledger.go, pkg/fencing/protocol.go)

    One source generation's durable value: which process incarnations were
    registered, which WAL each was bound to, and the evidence that it stopped.
    A nil Go map and an empty one are the same [gmap]; iteration order over a
    map does not reach any result, so a loop over [Runs] is a [map_Forall] test
    or a map update. *)

From stdpp Require Import gmap list strings.
From S2P Require Import Prelude.

(** ** Data *)

Record Identity := mkIdentity {
  SourceClusterID : string;
  NodeID : string;
  PodUID : string;
  RunID : string;
  WALIdentity : string;
}.

Record StopRequest := mkStop { OperationID : string; RequestHash : string; StopIdentity : Identity }.

Record DrainReceipt := mkDrain {
  Request : StopRequest;
  WritersJoined : bool;
  PendingMutations : Z;
  UnknownMutations : Z;
}.

Record Run := mkRun {
  RunIdentity : Identity;
  Stop : option StopRequest;
  Drain : option DrainReceipt;
  Exited : bool;
  NeverBoundExit : option StopRequest;
}.

Record Ledger := mkLedger {
  LedgerCluster : string;
  ClosedBy : string;
  ClosedHash : string;
  ClosedNodes : gmap string StopRequest;
  Runs : gmap string Run;
}.

#[global] Instance Identity_eq_dec : EqDecision Identity.
Proof. solve_decision. Defined.
#[global] Instance StopRequest_eq_dec : EqDecision StopRequest.
Proof. solve_decision. Defined.
#[global] Instance DrainReceipt_eq_dec : EqDecision DrainReceipt.
Proof. solve_decision. Defined.
#[global] Instance Run_eq_dec : EqDecision Run.
Proof. solve_decision. Defined.

Inductive ledgerError :=
| ErrPending
| ErrClosed
| ErrInvalidRegistration
| ErrRunRegistered
| ErrEarlierIncarnation
| ErrUnknownRegistration
| ErrBindingChanged
| ErrHistoricalWAL
| ErrEmptySlot
| ErrHashChanged
| ErrEmptyOperation
| ErrUnmatchedDrain
| ErrNeverBoundDrain
| ErrDrainChanged
| ErrNotProven.

Definition emptyIdentity : Identity := mkIdentity "" "" "" "" "".

Definition Clean (r : DrainReceipt) : bool :=
  WritersJoined r && (PendingMutations r =? 0) && (UnknownMutations r =? 0).

Definition empty (s : string) : bool := bool_decide (s = ""%string).

Definition with_wal (i : Identity) (wal : string) : Identity :=
  mkIdentity (SourceClusterID i) (NodeID i) (PodUID i) (RunID i) wal.
Definition with_runs (l : Ledger) (runs : gmap string Run) : Ledger :=
  mkLedger (LedgerCluster l) (ClosedBy l) (ClosedHash l) (ClosedNodes l) runs.
Definition set_run (l : Ledger) (id : string) (run : Run) : Ledger := with_runs l (<[id := run]> (Runs l)).

(** ** Registration and binding *)

Definition cleanly_exited (run : Run) : bool :=
  Exited run && match Drain run with Some r => Clean r | None => false end.

Definition Register (identity : Identity) (l : Ledger) : result ledgerError Ledger :=
  if negb (bool_decide (SourceClusterID identity = LedgerCluster l)) || empty (NodeID identity) ||
     empty (PodUID identity) || empty (RunID identity) || negb (empty (WALIdentity identity))
  then Err ErrInvalidRegistration
  else if negb (empty (ClosedBy l)) then Err ErrClosed
  else if bool_decide (is_Some (ClosedNodes l !! NodeID identity)) then Err ErrClosed
  else
    match Runs l !! RunID identity with
    | Some old =>
        if bool_decide (RunIdentity old = identity) && bool_decide (Stop old = None) then Ok l
        else Err ErrRunRegistered
    | None =>
        if bool_decide (map_Exists (λ _ old,
             NodeID (RunIdentity old) = NodeID identity ∧ PodUID (RunIdentity old) ≠ PodUID identity ∧
             cleanly_exited old = false) (Runs l))
        then Err ErrEarlierIncarnation
        else Ok (set_run l (RunID identity) (mkRun identity None None false None))
    end.

Definition Bind (identity : Identity) (l : Ledger) : result ledgerError Ledger :=
  match Runs l !! RunID identity with
  | None => Err ErrUnknownRegistration
  | Some run =>
      let bound := WALIdentity (RunIdentity run) in
      if empty (WALIdentity identity) then Err ErrUnknownRegistration
      else if negb (bool_decide (with_wal identity bound = RunIdentity run)) ||
              (negb (empty bound) && negb (bool_decide (bound = WALIdentity identity)))
      then Err ErrBindingChanged
      else if negb (empty (ClosedBy l)) || bool_decide (is_Some (Stop run)) then Err ErrClosed
      else if bool_decide (map_Exists (λ _ old,
             RunID (RunIdentity old) ≠ RunID identity ∧ NodeID (RunIdentity old) = NodeID identity ∧
             WALIdentity (RunIdentity old) ≠ ""%string ∧
             WALIdentity (RunIdentity old) ≠ WALIdentity identity) (Runs l))
      then Err ErrHistoricalWAL
      else Ok (set_run l (RunID identity)
                 (mkRun identity (Stop run) (Drain run) (Exited run) (NeverBoundExit run)))
  end.

(** ** Closure *)

(** The stop request a closure attaches to a run that has none. *)
Definition stop_run (operationID requestHash : string) (run : Run) : Run :=
  match Stop run with
  | Some _ => run
  | None => mkRun (RunIdentity run) (Some (mkStop operationID requestHash (RunIdentity run)))
              (Drain run) (Exited run) (NeverBoundExit run)
  end.

Definition Close (operationID requestHash : string) (l : Ledger) : result ledgerError Ledger :=
  if empty operationID || empty requestHash then Err ErrEmptyOperation
  else if negb (empty (ClosedBy l)) && negb (bool_decide (ClosedBy l = operationID)) then Err ErrClosed
  else if bool_decide (ClosedBy l = operationID) && negb (bool_decide (ClosedHash l = requestHash))
  then Err ErrHashChanged
  else Ok (mkLedger (LedgerCluster l) operationID requestHash (ClosedNodes l)
             (stop_run operationID requestHash <$> Runs l)).

Definition same_request (operationID requestHash : string) (r : StopRequest) : bool :=
  bool_decide (OperationID r = operationID) && bool_decide (RequestHash r = requestHash).

(** The checks of the first loop, in list order. *)
Fixpoint check_slots (operationID requestHash : string) (nodeIDs : list string) (l : Ledger)
    : option ledgerError :=
  match nodeIDs with
  | [] => None
  | nodeID :: rest =>
      if empty nodeID then Some ErrEmptySlot
      else
        match ClosedNodes l !! nodeID with
        | Some old =>
            if bool_decide (OperationID old = operationID) && negb (bool_decide (RequestHash old = requestHash))
            then Some ErrHashChanged
            else check_slots operationID requestHash rest l
        | None => check_slots operationID requestHash rest l
        end
  end.

Definition close_node (operationID requestHash : string) (l : Ledger) (nodeID : string) : Ledger :=
  mkLedger (LedgerCluster l) (ClosedBy l) (ClosedHash l)
    (<[nodeID := mkStop operationID requestHash emptyIdentity]> (ClosedNodes l))
    ((λ run, if bool_decide (NodeID (RunIdentity run) = nodeID)
             then stop_run operationID requestHash run else run) <$> Runs l).

Definition CloseNodes (operationID requestHash : string) (nodeIDs : list string) (l : Ledger)
    : result ledgerError Ledger :=
  match nodeIDs with
  | [] => Close operationID requestHash l
  | _ :: _ =>
      if empty operationID || empty requestHash then Err ErrClosed
      else if negb (empty (ClosedBy l)) then
        if forallb (λ nodeID, match ClosedNodes l !! nodeID with
                              | Some old => same_request operationID requestHash old
                              | None => false
                              end) nodeIDs
        then Ok l else Err ErrClosed
      else
        match check_slots operationID requestHash nodeIDs l with
        | Some e => Err e
        | None => Ok (foldl (close_node operationID requestHash) l nodeIDs)
        end
  end.

(** ** Evidence *)

Definition RecordDrain (receipt : DrainReceipt) (l : Ledger) : result ledgerError Ledger :=
  match Runs l !! RunID (StopIdentity (Request receipt)) with
  | None => Err ErrUnmatchedDrain
  | Some run =>
      if negb (bool_decide (Stop run = Some (Request receipt))) then Err ErrUnmatchedDrain
      else if bool_decide (is_Some (NeverBoundExit run)) then Err ErrNeverBoundDrain
      else if bool_decide (is_Some (Drain run)) && negb (bool_decide (Drain run = Some receipt))
      then Err ErrDrainChanged
      else Ok (set_run l (RunID (RunIdentity run))
                 (mkRun (RunIdentity run) (Stop run) (Some receipt) (Exited run) (NeverBoundExit run)))
  end.

Definition RecordExit (request : StopRequest) (l : Ledger) : result ledgerError Ledger :=
  match Runs l !! RunID (StopIdentity request) with
  | None => Err ErrPending
  | Some run =>
      if empty (WALIdentity (RunIdentity run)) || negb (bool_decide (Stop run = Some request)) ||
         match Drain run with None => true | Some r => negb (Clean r) end
      then Err ErrPending
      else Ok (set_run l (RunID (StopIdentity request))
                 (mkRun (RunIdentity run) (Stop run) (Drain run) true (NeverBoundExit run)))
  end.

Definition RecordNeverBoundExit (request : StopRequest) (l : Ledger) : result ledgerError Ledger :=
  match Runs l !! RunID (StopIdentity request) with
  | None => Err ErrNotProven
  | Some run =>
      if negb (empty (WALIdentity (RunIdentity run))) || bool_decide (is_Some (Drain run)) ||
         negb (bool_decide (StopIdentity request = RunIdentity run)) ||
         negb (bool_decide (Stop run = Some request))
      then Err ErrNotProven
      else if empty (ClosedBy l) && negb (bool_decide (is_Some (ClosedNodes l !! NodeID (RunIdentity run))))
      then Err ErrPending
      else Ok (set_run l (RunID (StopIdentity request))
                 (mkRun (RunIdentity run) (Stop run) (Drain run) true (Some request)))
  end.

(** ** Completion *)

(** The evidence the loop of [CompleteNodes] asks of one run. *)
Definition run_complete (run : Run) : bool :=
  match Stop run with
  | None => false
  | Some stop =>
      bool_decide (StopIdentity stop = RunIdentity run) && negb (empty (OperationID stop)) &&
      negb (empty (RequestHash stop)) && Exited run &&
      match NeverBoundExit run with
      | Some never =>
          empty (WALIdentity (RunIdentity run)) && bool_decide (Drain run = None) && bool_decide (never = stop)
      | None =>
          negb (empty (WALIdentity (RunIdentity run))) &&
          match Drain run with
          | None => false
          | Some drain => bool_decide (Request drain = stop) && Clean drain
          end
      end
  end.

Definition in_scope (nodeIDs : list string) (run : Run) : bool :=
  bool_decide (nodeIDs = []) || bool_decide (NodeID (RunIdentity run) ∈ nodeIDs).

Definition CompleteNodes (operationID requestHash : string) (nodeIDs currentPodUIDs : list string)
    (l : Ledger) : bool :=
  if empty operationID || empty requestHash || bool_decide (Runs l = ∅) then false
  else if negb (forallb (λ id, match ClosedNodes l !! id with
                               | Some closure => same_request operationID requestHash closure
                               | None => false
                               end) nodeIDs)
  then false
  else if bool_decide (nodeIDs = []) &&
          (negb (bool_decide (ClosedBy l = operationID)) || negb (bool_decide (ClosedHash l = requestHash)))
  then false
  else
    bool_decide (map_Forall (λ _ run, in_scope nodeIDs run = true → run_complete run = true) (Runs l)) &&
    forallb (λ id, bool_decide (map_Exists (λ _ run,
      in_scope nodeIDs run = true ∧ NodeID (RunIdentity run) = id) (Runs l))) nodeIDs &&
    forallb (λ uid, bool_decide (map_Exists (λ _ run,
      in_scope nodeIDs run = true ∧ PodUID (RunIdentity run) = uid) (Runs l))) currentPodUIDs.

Definition Complete (operationID requestHash : string) (currentPodUIDs : list string) (l : Ledger) : bool :=
  CompleteNodes operationID requestHash [] currentPodUIDs l.

(** ** The ledger as a state machine *)

Inductive op :=
| OpRegister (identity : Identity)
| OpBind (identity : Identity)
| OpCloseNodes (operationID requestHash : string) (nodeIDs : list string)
| OpClose (operationID requestHash : string)
| OpRecordDrain (receipt : DrainReceipt)
| OpRecordExit (request : StopRequest)
| OpRecordNeverBoundExit (request : StopRequest).

Definition run_op (o : op) (l : Ledger) : result ledgerError Ledger :=
  match o with
  | OpRegister i => Register i l
  | OpBind i => Bind i l
  | OpCloseNodes o h ns => CloseNodes o h ns l
  | OpClose o h => Close o h l
  | OpRecordDrain r => RecordDrain r l
  | OpRecordExit r => RecordExit r l
  | OpRecordNeverBoundExit r => RecordNeverBoundExit r l
  end.

Definition new_ledger (cluster : string) : Ledger := mkLedger cluster "" "" ∅ ∅.

(** A failed operation leaves the ledger unchanged. *)
Inductive step : Ledger → Ledger → Prop :=
| step_op o l l' : run_op o l = Ok l' → step l l'.

Definition ledger_reachable (l : Ledger) : Prop := ∃ cluster, rtc step (new_ledger cluster) l.
