(* ===== verification/LedgerSafety.v ===== *)
(** * Safety of the fencing ledger

    The invariant of the ledger under every sequence of operations, how a
    single run may evolve, and what closure and completion then guarantee. *)

From stdpp Require Import gmap list strings.
From S2P Require Import Prelude Ledger.

(** ** Invariant *)

Record run_ok (cluster key : string) (run : Run) : Prop := {
  ro_key : RunID (RunIdentity run) = key;
  ro_cluster : SourceClusterID (RunIdentity run) = cluster;
  ro_stop s : Stop run = Some s →
    StopIdentity s = RunIdentity run ∧ OperationID s ≠ ""%string ∧ RequestHash s ≠ ""%string;
  ro_drain d : Drain run = Some d → Stop run = Some (Request d) ∧ NeverBoundExit run = None;
  ro_never n : NeverBoundExit run = Some n →
    Stop run = Some n ∧ Drain run = None ∧ WALIdentity (RunIdentity run) = ""%string ∧ Exited run = true;
  ro_exit : Exited run = true →
    is_Some (NeverBoundExit run) ∨
    WALIdentity (RunIdentity run) ≠ ""%string ∧ ∃ d, Drain run = Some d ∧ Clean d = true;
}.

(** Two runs of one voter: they never hold two WALs, and of two Pods at most
    one has not provably terminated. *)
Definition compatible (r1 r2 : Run) : Prop :=
  NodeID (RunIdentity r1) = NodeID (RunIdentity r2) →
  (WALIdentity (RunIdentity r1) ≠ ""%string → WALIdentity (RunIdentity r2) ≠ ""%string →
   WALIdentity (RunIdentity r1) = WALIdentity (RunIdentity r2)) ∧
  (PodUID (RunIdentity r1) ≠ PodUID (RunIdentity r2) →
   cleanly_exited r1 = true ∨ cleanly_exited r2 = true).

Definition closed_for (l : Ledger) (node : string) : Prop :=
  ClosedBy l ≠ ""%string ∨ is_Some (ClosedNodes l !! node).

Record ledger_inv (l : Ledger) : Prop := {
  li_run id run : Runs l !! id = Some run → run_ok (LedgerCluster l) id run;
  li_pair i1 r1 i2 r2 : Runs l !! i1 = Some r1 → Runs l !! i2 = Some r2 → i1 ≠ i2 → compatible r1 r2;
  li_closed id run : Runs l !! id = Some run → closed_for l (NodeID (RunIdentity run)) → is_Some (Stop run);
  li_hash : ClosedBy l = ""%string ↔ ClosedHash l = ""%string;
}.

Lemma compatible_sym r1 r2 : compatible r1 r2 → compatible r2 r1.
Proof. intros H E. destruct (H (eq_sym E)) as [H1 H2]. split; [naive_solver|]. intros ?. naive_solver. Qed.

(** ** How one run evolves *)

Record evolves (r r' : Run) : Prop := {
  ev_ident : RunIdentity r' = RunIdentity r ∨
    Stop r = None ∧ WALIdentity (RunIdentity r) = ""%string ∧
    RunIdentity r' = with_wal (RunIdentity r) (WALIdentity (RunIdentity r'));
  ev_stop s : Stop r = Some s → Stop r' = Some s;
  ev_drain d : Drain r = Some d → Drain r' = Some d;
  ev_exit : Exited r = true → Exited r' = true;
  ev_never n : NeverBoundExit r = Some n → NeverBoundExit r' = Some n;
}.

#[global] Instance evolves_preorder : PreOrder evolves.
Proof.
  split.
  - intros r. split; auto.
  - intros r1 r2 r3 [H1 ?? ??] [H2 ?? ??]. split; auto.
    destruct H2 as [->|(Hs & Hw & E)]; [done|].
    destruct H1 as [E1|(Hs1 & Hw1 & E1)]; [rewrite <-E1|]; right.
    + split_and!; [|done|done]. destruct (Stop r1) eqn:Es; [|done]. by erewrite ev_stop0 in Hs.
    + split_and!; [done|done|]. rewrite E, E1. done.
Qed.

Lemma evolves_node r r' : evolves r r' →
  NodeID (RunIdentity r') = NodeID (RunIdentity r) ∧ PodUID (RunIdentity r') = PodUID (RunIdentity r) ∧
  RunID (RunIdentity r') = RunID (RunIdentity r) ∧
  SourceClusterID (RunIdentity r') = SourceClusterID (RunIdentity r).
Proof. intros [[->|(_ & _ & ->)] _ _ _ _]; done. Qed.

Lemma evolves_stopped r r' : evolves r r' → is_Some (Stop r) → RunIdentity r' = RunIdentity r.
Proof. intros [[?|(Hs & _)] _ _ _ _] [s Hs']; congruence. Qed.

Lemma evolves_clean r r' : evolves r r' → cleanly_exited r = true → cleanly_exited r' = true.
Proof.
  unfold cleanly_exited. intros [_ _ Hd He _] [He' Hc]%andb_true_iff. rewrite (He He').
  destruct (Drain r) as [d|]; [|done]. by rewrite (Hd d eq_refl).
Qed.

(** Runs that evolve without a change of identity stay compatible. *)
Lemma compatible_evolves r1 r1' r2 r2' :
  compatible r1 r2 → evolves r1 r1' → evolves r2 r2' →
  RunIdentity r1' = RunIdentity r1 → RunIdentity r2' = RunIdentity r2 → compatible r1' r2'.
Proof.
  intros Hc H1 H2 E1 E2 Hn. rewrite E1, E2 in *. destruct (Hc Hn) as [Hw Hp]. split; [done|].
  intros Hne. destruct (Hp Hne); [left|right]; by eapply evolves_clean.
Qed.

(** ** Updates *)

(** A map update that keeps identities and adds evidence. *)
Lemma inv_map l l' (f : Run → Run) :
  ledger_inv l → LedgerCluster l' = LedgerCluster l → Runs l' = f <$> Runs l →
  (ClosedBy l' = ""%string ↔ ClosedHash l' = ""%string) →
  (∀ id run, Runs l !! id = Some run → run_ok (LedgerCluster l) id (f run) ∧ evolves run (f run) ∧
     RunIdentity (f run) = RunIdentity run) →
  (∀ id run, Runs l !! id = Some run → closed_for l' (NodeID (RunIdentity run)) → is_Some (Stop (f run))) →
  ledger_inv l'.
Proof.
  intros [Hrun Hpair Hcl Hh] Ec Er Hh' Hf Hstop. split; rewrite ?Ec; [| | |done].
  - intros id run. rewrite Er, lookup_fmap. intros (r & Hr & ->)%fmap_Some. by apply Hf.
  - intros i1 r1 i2 r2. rewrite Er, !lookup_fmap. intros (x1 & Hx1 & ->)%fmap_Some (x2 & Hx2 & ->)%fmap_Some Hne.
    destruct (Hf _ _ Hx1) as (_ & ? & ?), (Hf _ _ Hx2) as (_ & ? & ?).
    by apply (compatible_evolves x1 _ x2 _ (Hpair _ _ _ _ Hx1 Hx2 Hne)).
  - intros id run. rewrite Er, lookup_fmap. intros (r & Hr & ->)%fmap_Some.
    destruct (Hf _ _ Hr) as (_ & _ & ->). by apply (Hstop id r).
Qed.

(** A run replaced by a compatible successor. *)
Lemma inv_update l id run run' :
  ledger_inv l → Runs l !! id = Some run → run_ok (LedgerCluster l) id run' →
  (is_Some (Stop run) → is_Some (Stop run')) →
  NodeID (RunIdentity run') = NodeID (RunIdentity run) →
  (∀ i r, Runs l !! i = Some r → i ≠ id → compatible run' r) →
  ledger_inv (set_run l id run').
Proof.
  intros [Hrun Hpair Hcl Hh] Hid Hok Hstop Hn Hcompat. split; simpl; [| | |done].
  - intros i r [[<- <-]|[_ Hr]]%lookup_insert_Some; [done|by apply Hrun].
  - intros i1 r1 i2 r2 [[<- <-]|[? H1]]%lookup_insert_Some [[<- <-]|[? H2]]%lookup_insert_Some Hne; [done| | |].
    + by apply (Hcompat i2).
    + apply compatible_sym. by apply (Hcompat i1).
    + by apply (Hpair i1 _ i2).
  - intros i r [[<- <-]|[_ Hr]]%lookup_insert_Some Hc.
    + rewrite Hn in Hc. apply Hstop. by apply (Hcl id run).
    + by apply (Hcl i r).
Qed.

(** Evidence recorded on a run. *)
Lemma inv_record l id run run' :
  ledger_inv l → Runs l !! id = Some run → run_ok (LedgerCluster l) id run' → evolves run run' →
  RunIdentity run' = RunIdentity run → ledger_inv (set_run l id run').
Proof.
  intros Hinv Hid Hok Hev Hi. apply (inv_update l id run); [done|done|done| |by rewrite Hi|].
  - intros [s Hs]. exists s. by apply (ev_stop _ _ Hev).
  - intros i r Hr Hne. apply (compatible_evolves run run' r r);
      [by apply (li_pair _ Hinv id run i r)|done|done|done|done].
Qed.

(** ** Every operation preserves the invariant *)

Ltac ledger_bools := bool_hyps; unfold empty in *; bool_hyps.

Lemma stop_run_evolves o h run : evolves run (stop_run o h run) ∧ RunIdentity (stop_run o h run) = RunIdentity run.
Proof.
  unfold stop_run. destruct (Stop run) as [s|] eqn:E; [done|]. split; [|done]. split; simpl; auto. congruence.
Qed.

Lemma stop_run_ok o h c id run :
  o ≠ ""%string → h ≠ ""%string → run_ok c id run → run_ok c id (stop_run o h run) ∧ is_Some (Stop (stop_run o h run)).
Proof.
  intros Ho Hh Hok. unfold stop_run. destruct (Stop run) as [s|] eqn:E; [split; [done|by rewrite E]|].
  destruct Hok as [H1 H2 H3 H4 H5 H6]. split; [|by eexists]. split; simpl; try done.
  - intros s [= <-]. done.
  - intros d Hd%H4. destruct Hd. congruence.
  - intros n Hn%H5. destruct Hn. congruence.
Qed.

Lemma Register_inv identity l l' : ledger_inv l → Register identity l = Ok l' → ledger_inv l'.
Proof.
  intros Hinv. unfold Register. destruct (_ || negb (empty (WALIdentity identity))) eqn:Hbad; [done|].
  destruct (negb (empty (ClosedBy l))) eqn:Hclosed; [done|].
  rewrite !orb_false_iff in Hbad. destruct Hbad as [[[[Hc _] _] _] Hw]. ledger_bools.
  case_bool_decide as Hnode; [done|].
  destruct (Runs l !! RunID identity) as [old|] eqn:Hold.
  { destruct (_ && _); [|done]. by intros <-%Ok_inj. }
  case_bool_decide as Hex; [done|]. intros <-%Ok_inj.
  assert (∀ i r, Runs l !! i = Some r → compatible (mkRun identity None None false None) r) as Hnew.
  { intros i r Hr Hn. simpl in *. split; [congruence|]. intros Hp. right. apply not_false_iff_true. intros Hf.
    apply Hex. exists i, r. split_and!; [done|by rewrite Hn|by apply not_eq_sym|done]. }
  destruct Hinv as [Hrun Hpair Hcl Hh]. split; simpl; [| | |done].
  - intros i r [[<- <-]|[_ Hr]]%lookup_insert_Some; [by split|by apply Hrun].
  - intros i1 r1 i2 r2 [[<- <-]|[? H1]]%lookup_insert_Some [[<- <-]|[? H2]]%lookup_insert_Some Hne; [done| | |].
    + by apply (Hnew i2).
    + apply compatible_sym. by apply (Hnew i1).
    + by apply (Hpair i1 _ i2).
  - intros i r [[<- <-]|[_ Hr]]%lookup_insert_Some Hc'; [|by apply (Hcl i r)].
    destruct Hc' as [?|?]; simpl in *; by exfalso.
Qed.

(** What a successful [Bind] stores. *)
Lemma Bind_run identity l l' :
  ledger_inv l → Bind identity l = Ok l' →
  ∃ run, Runs l !! RunID identity = Some run ∧ Stop run = None ∧ ClosedBy l = ""%string ∧
    WALIdentity identity ≠ ""%string ∧ evolves run (mkRun identity None (Drain run) (Exited run) (NeverBoundExit run)) ∧
    run_ok (LedgerCluster l) (RunID identity) (mkRun identity None (Drain run) (Exited run) (NeverBoundExit run)) ∧
    (∀ i r, Runs l !! i = Some r → i ≠ RunID identity → NodeID (RunIdentity r) = NodeID identity →
       WALIdentity (RunIdentity r) ≠ ""%string → WALIdentity (RunIdentity r) = WALIdentity identity) ∧
    l' = set_run l (RunID identity) (mkRun identity None (Drain run) (Exited run) (NeverBoundExit run)).
Proof.
  intros Hinv. unfold Bind. destruct (Runs l !! RunID identity) as [run|] eqn:Hr; [|done].
  destruct (empty (WALIdentity identity)) eqn:Hw; [done|].
  destruct (_ || (_ && _)) eqn:Hch; [done|].
  destruct (negb (empty (ClosedBy l)) || _) eqn:Hcl; [done|].
  apply orb_false_iff in Hch as [Hsame Hre]. apply andb_false_iff in Hre. ledger_bools.
  destruct (bool_decide (map_Exists _ _)) eqn:Hex; [done|]. apply bool_decide_eq_false in Hex.
  intros <-%Ok_inj. exists run.
  assert (Stop run = None) as Hstop by by apply eq_None_not_Some. rewrite Hstop.
  pose proof (li_run _ Hinv _ _ Hr) as [H1 H2 H3 H4 H5 H6].
  assert (RunIdentity run = identity ∨ WALIdentity (RunIdentity run) = ""%string) as Hid.
  { destruct Hre as [Hre|Hre]; ledger_bools; [by right|left]. rewrite <-Hsame.
    rewrite Hre. by destruct identity. }
  assert (Drain run = None) as Hd.
  { destruct (Drain run) as [d|]; [|done]. destruct (H4 d eq_refl). congruence. }
  assert (NeverBoundExit run = None) as Hnv.
  { destruct (NeverBoundExit run) as [n|]; [|done]. destruct (H5 n eq_refl). congruence. }
  split_and!; [done|done|done|done| | | |done].
  - split; simpl; [|congruence|done|done|done]. destruct Hid as [->|Hid]; [by left|right].
    split_and!; [done|done|]. rewrite <-Hsame. by destruct identity.
  - split; simpl; [done|by rewrite <-H2, <-Hsame|done|by rewrite Hd|by rewrite Hnv|].
    intros He. destruct (H6 He) as [[n Hn]|[_ (d & ? & ?)]]; congruence.
  - intros i r Hri Hne Hnode Hwal. destruct (decide (WALIdentity (RunIdentity r) = WALIdentity identity)); [done|].
    exfalso. apply Hex. exists i, r. split_and!; [done| |done|done|done].
    pose proof (ro_key _ _ _ (li_run _ Hinv _ _ Hri)). congruence.
Qed.

Lemma Bind_inv identity l l' : ledger_inv l → Bind identity l = Ok l' → ledger_inv l'.
Proof.
  intros Hinv Hb. destruct (Bind_run _ _ _ Hinv Hb) as (run & Hr & Hs & _ & Hw & Hev & Hok & Hcomp & ->).
  destruct (evolves_node _ _ Hev) as (Hn & Hp & _). simpl in Hn, Hp.
  apply (inv_update l _ run); [done|done|done|by rewrite Hs|done|].
  intros i r Hri Hne E. simpl in E. simpl. split.
  - intros _ Hwr. symmetry. by apply (Hcomp i r).
  - intros Hpod. rewrite Hp in Hpod. rewrite Hn in E.
    assert (RunID identity ≠ i) as Hne' by congruence.
    destruct (li_pair _ Hinv _ _ _ _ Hr Hri Hne' E) as [_ Hx]. destruct (Hx Hpod); [left; by eapply evolves_clean|by right].
Qed.

Lemma Close_inv o h l l' : ledger_inv l → Close o h l = Ok l' → ledger_inv l'.
Proof.
  intros Hinv. unfold Close. destruct (_ || _) eqn:Hemp; [done|]. destruct (_ && _); [done|].
  destruct (_ && _); [done|]. intros <-%Ok_inj. ledger_bools.
  apply (inv_map l _ (stop_run o h)); [done|done|done|simpl; split; by intros ->| |].
  - intros id run Hr. destruct (stop_run_evolves o h run). split_and!; [|done|done].
    apply stop_run_ok; [done|done|by apply (li_run _ Hinv)].
  - intros id run Hr _. by apply (stop_run_ok o h (LedgerCluster l) id), (li_run _ Hinv).
Qed.

Lemma close_node_inv o h node l :
  o ≠ ""%string → h ≠ ""%string → ClosedBy l = ""%string → ledger_inv l → ledger_inv (close_node o h l node).
Proof.
  intros Ho Hh Hc Hinv. eapply (inv_map l _ _ Hinv); [done|done|apply (li_hash _ Hinv)| |].
  - intros id run Hr. pose proof (li_run _ Hinv _ _ Hr). destruct (stop_run_evolves o h run).
    case_bool_decide; [|done]. split_and!; [by apply stop_run_ok|done|done].
  - intros id run Hr Hcl. simpl. pose proof (li_run _ Hinv _ _ Hr) as Hok. case_bool_decide as Hn.
    + by apply (stop_run_ok o h (LedgerCluster l) id).
    + apply (li_closed _ Hinv id run Hr). destruct Hcl as [?|Hcl]; [by left|right].
      simpl in Hcl. by rewrite lookup_insert_ne in Hcl by congruence.
Qed.

Lemma CloseNodes_inv o h ns l l' : ledger_inv l → CloseNodes o h ns l = Ok l' → ledger_inv l'.
Proof.
  intros Hinv. unfold CloseNodes. destruct ns as [|n ns]; [by apply Close_inv|]. generalize (n :: ns) as nodes. intros nodes.
  destruct (_ || _) eqn:Hemp; [done|]. destruct (negb (empty (ClosedBy l))) eqn:Hc.
  { destruct (forallb _ _); [|done]. by intros <-%Ok_inj. }
  destruct (check_slots _ _ _ _); [done|]. intros <-%Ok_inj. ledger_bools.
  clear n ns. revert l Hinv Hc. induction nodes as [|n nodes IH]; intros l Hinv Hc; [done|].
  simpl. apply IH; [by apply close_node_inv|done].
Qed.

(** An operation that records evidence on one run. *)
Definition records (l l' : Ledger) : Prop :=
  ∃ id run run', Runs l !! id = Some run ∧ l' = set_run l id run' ∧
    run_ok (LedgerCluster l) id run' ∧ evolves run run' ∧ RunIdentity run' = RunIdentity run.

Lemma RecordDrain_records receipt l l' : ledger_inv l → RecordDrain receipt l = Ok l' → records l l'.
Proof.
  intros Hinv. unfold RecordDrain. destruct (Runs l !! _) as [run|] eqn:Hr; [|done].
  destruct (negb _) eqn:Hs; [done|]. destruct (bool_decide (is_Some (NeverBoundExit run))) eqn:Hn; [done|].
  destruct (_ && _) eqn:Hd; [done|]. intros <-%Ok_inj. apply andb_false_iff in Hd. bool_hyps.
  pose proof (li_run _ Hinv _ _ Hr) as [K1 K2 K3 K4 K5 K6].
  assert (NeverBoundExit run = None) as Hnever by by apply eq_None_not_Some.
  assert (Drain run = None ∨ Drain run = Some receipt) as Hdr.
  { destruct Hd as [Hd|Hd]; bool_hyps; [left; by apply eq_None_not_Some|by right]. }
  eexists _, run, _. split; [exact Hr|]. split; [by rewrite K1|]. split; [|split; [|done]].
  - split; simpl; [done|done|done| |rewrite Hnever; done|].
    + intros d [= <-]. done.
    + intros He. destruct (K6 He) as [?|(Hw & d & Hd' & Hc)]; [by left|right]. split; [done|].
      exists receipt. split; [done|]. destruct Hdr; congruence.
  - split; simpl; auto. destruct Hdr; congruence.
Qed.

Lemma RecordExit_records request l l' : ledger_inv l → RecordExit request l = Ok l' → records l l'.
Proof.
  intros Hinv. unfold RecordExit. destruct (Runs l !! _) as [run|] eqn:Hr; [|done].
  destruct (_ || _) eqn:Hb; [done|]. intros <-%Ok_inj. ledger_bools.
  destruct (Drain run) as [d|] eqn:Hd; [|done]. bool_hyps.
  pose proof (li_run _ Hinv _ _ Hr) as [K1 K2 K3 K4 K5 K6].
  eexists _, run, _. split; [exact Hr|]. split; [done|]. split; [|split; [|done]].
  - split; simpl; try done; [by rewrite <-Hd| |].
    + intros n Hn. rewrite <-Hd. destruct (K5 n Hn) as (? & ? & ? & ?). done.
    + intros _. right. split; [done|]. by exists d.
  - split; simpl; auto. congruence.
Qed.

Lemma RecordNeverBoundExit_records request l l' :
  ledger_inv l → RecordNeverBoundExit request l = Ok l' → records l l'.
Proof.
  intros Hinv. unfold RecordNeverBoundExit. destruct (Runs l !! _) as [run|] eqn:Hr; [|done].
  destruct (_ || _) eqn:Hb; [done|]. destruct (_ && _); [done|]. intros <-%Ok_inj. ledger_bools.
  pose proof (li_run _ Hinv _ _ Hr) as [K1 K2 K3 K4 K5 K6].
  assert (Drain run = None) as Hd by by apply eq_None_not_Some.
  eexists _, run, _. split; [exact Hr|]. split; [done|]. split; [|split; [|done]].
  - split; simpl; [done|done|done|by rewrite Hd| |].
    + intros n [= <-]. done.
    + intros _. left. by eexists.
  - split; simpl; auto. intros n Hn. destruct (K5 n Hn). congruence.
Qed.

Lemma records_inv l l' : ledger_inv l → records l l' → ledger_inv l'.
Proof. intros Hinv (id & run & run' & Hr & -> & Hok & Hev & Hi). by apply (inv_record l id run). Qed.

Lemma step_inv l l' : ledger_inv l → step l l' → ledger_inv l'.
Proof.
  intros Hinv Hs. inversion Hs as [o ? ? Ho]; subst. destruct o; simpl in Ho.
  - by eapply Register_inv.
  - by eapply Bind_inv.
  - by eapply CloseNodes_inv.
  - by eapply Close_inv.
  - by eapply records_inv, RecordDrain_records.
  - by eapply records_inv, RecordExit_records.
  - by eapply records_inv, RecordNeverBoundExit_records.
Qed.

Lemma new_ledger_inv cluster : ledger_inv (new_ledger cluster).
Proof. split; simpl; try done. Qed.

Lemma rtc_inv l l' : ledger_inv l → rtc step l l' → ledger_inv l'.
Proof. intros Hinv H. induction H as [|l1 l2 l3 Hs _ IH]; [done|]. apply IH. by apply (step_inv l1). Qed.

Lemma reachable_inv l : ledger_reachable l → ledger_inv l.
Proof. intros [c H]. apply (rtc_inv (new_ledger c)); [apply new_ledger_inv|done]. Qed.

(** ** What one step can do *)

(** Runs are never removed and only gain evidence; a new run only appears
    while its voter is open; closures are never withdrawn. *)
Record advances (l l' : Ledger) : Prop := {
  ad_run id run : Runs l !! id = Some run → ∃ run', Runs l' !! id = Some run' ∧ evolves run run';
  ad_new id run' : Runs l' !! id = Some run' → Runs l !! id = None → ¬ closed_for l (NodeID (RunIdentity run'));
  ad_closed : ClosedBy l ≠ ""%string →
    ClosedBy l' = ClosedBy l ∧ ClosedHash l' = ClosedHash l ∧ ClosedNodes l' = ClosedNodes l;
  ad_nodes n : is_Some (ClosedNodes l !! n) → is_Some (ClosedNodes l' !! n);
  ad_cluster : LedgerCluster l' = LedgerCluster l;
}.

#[global] Instance advances_preorder : PreOrder advances.
Proof.
  split.
  - intros l. split; try done; [|congruence]. intros id run Hr. by exists run.
  - intros l1 l2 l3 [H1 H2 H3 H4 H5] [K1 K2 K3 K4 K5]. split.
    + intros id run (r2 & Hr2 & He)%H1. apply K1 in Hr2 as (r3 & ? & ?). exists r3. split; [done|]. by etrans.
    + intros id run' Hr' Hn Hc. destruct (Runs l2 !! id) as [r2|] eqn:E.
      * destruct (K1 _ _ E) as (r3 & Hr3 & Hev). rewrite Hr' in Hr3. simplify_eq.
        apply (H2 id r2 E Hn). by destruct (evolves_node _ _ Hev) as (<- & _).
      * apply (K2 id run' Hr' E). destruct Hc as [Hc|Hc]; [left|right; by apply H4].
        by destruct (H3 Hc) as (-> & _).
    + intros Hc. destruct (H3 Hc) as (E1 & E2 & E3). rewrite <-E1 in Hc. destruct (K3 Hc) as (F1 & F2 & F3). by rewrite F1, F2, F3.
    + auto.
    + congruence.
Qed.

Lemma records_advances l l' : records l l' → advances l l'.
Proof.
  intros (id & run & run' & Hr & -> & _ & Hev & _). split; simpl; try done.
  - intros i r Hi. destruct (decide (i = id)) as [->|Hne]; [rewrite lookup_insert_eq|rewrite lookup_insert_ne by done]; simplify_eq; eauto.
    by exists r.
  - intros i r [[<- <-]|[_ Hi]]%lookup_insert_Some; congruence.
Qed.

Lemma map_advances l l' f :
  Runs l' = f <$> Runs l → (∀ r, evolves r (f r)) →
  (ClosedBy l ≠ ""%string → ClosedBy l' = ClosedBy l ∧ ClosedHash l' = ClosedHash l ∧ ClosedNodes l' = ClosedNodes l) →
  (∀ n, is_Some (ClosedNodes l !! n) → is_Some (ClosedNodes l' !! n)) →
  LedgerCluster l' = LedgerCluster l → advances l l'.
Proof.
  intros Er Hf Hc Hn Hl. split; [| |done|done|done].
  - intros id run Hr. exists (f run). by rewrite Er, lookup_fmap, Hr.
  - intros id run' Hr' Hnone. by rewrite Er, lookup_fmap, Hnone in Hr'.
Qed.

Lemma Close_advances o h l l' : ledger_inv l → Close o h l = Ok l' → advances l l'.
Proof.
  intros Hinv. unfold Close. destruct (_ || _) eqn:Hemp; [done|]. destruct (_ && _) eqn:Ho; [done|].
  destruct (bool_decide (ClosedBy l = o) && _) eqn:Hh; [done|]. intros <-%Ok_inj.
  apply (map_advances l _ (stop_run o h)); [done|apply stop_run_evolves| |done|done].
  intros Hc. simpl. rewrite andb_false_iff in Ho, Hh.
  destruct Ho as [Ho|Ho]; ledger_bools; [done|]. subst o.
  destruct Hh as [Hh|Hh]; ledger_bools; done.
Qed.

Lemma CloseNodes_advances o h ns l l' : ledger_inv l → CloseNodes o h ns l = Ok l' → advances l l'.
Proof.
  intros Hinv. unfold CloseNodes. destruct ns as [|n ns]; [by apply Close_advances|]. generalize (n :: ns) as nodes. intros nodes.
  destruct (_ || _) eqn:Hemp; [done|]. destruct (negb (empty (ClosedBy l))) eqn:Hc.
  { destruct (forallb _ _); [|done]. by intros <-%Ok_inj. }
  destruct (check_slots _ _ _ _); [done|]. intros <-%Ok_inj. ledger_bools.
  clear n ns Hinv. revert l Hc. induction nodes as [|n nodes IH]; intros l Hc; [done|].
  simpl. etrans; [|by apply IH]. eapply map_advances; [done| |done| |done].
  - intros r. simpl. case_bool_decide; [apply stop_run_evolves|done].
  - intros m Hm. simpl. apply lookup_insert_is_Some. destruct (decide (n = m)); auto.
Qed.

Lemma Register_advances identity l l' : Register identity l = Ok l' → advances l l'.
Proof.
  unfold Register. destruct (_ || negb (empty (WALIdentity identity))); [done|].
  destruct (negb (empty (ClosedBy l))) eqn:Hc; [done|]. case_bool_decide as Hn; [done|].
  destruct (Runs l !! RunID identity) as [old|] eqn:Hr.
  { destruct (_ && _); [|done]. by intros <-%Ok_inj. }
  case_bool_decide; [done|]. intros <-%Ok_inj. ledger_bools. split; simpl; try done.
  - intros id run Hi. exists run. rewrite lookup_insert_ne by congruence. done.
  - intros id run [[<- <-]|[_ Hi]]%lookup_insert_Some Hnone; [|congruence]. by intros [?|?].
Qed.

Lemma Bind_advances identity l l' : ledger_inv l → Bind identity l = Ok l' → advances l l'.
Proof.
  intros Hinv Hb. destruct (Bind_run _ _ _ Hinv Hb) as (run & Hr & _ & Hc & _ & Hev & _ & _ & ->).
  split; simpl; try done.
  - intros i r Hi. destruct (decide (i = RunID identity)) as [->|Hne];
      [rewrite lookup_insert_eq|rewrite lookup_insert_ne by done]; simplify_eq; eauto. by exists r.
  - intros i r [[<- <-]|[_ Hi]]%lookup_insert_Some; congruence.
Qed.

Lemma step_advances l l' : ledger_inv l → step l l' → advances l l'.
Proof.
  intros Hinv Hs. inversion Hs as [o ? ? Ho]; subst. destruct o; simpl in Ho.
  - by eapply Register_advances.
  - by eapply Bind_advances.
  - by eapply CloseNodes_advances.
  - by eapply Close_advances.
  - by eapply records_advances, RecordDrain_records.
  - by eapply records_advances, RecordExit_records.
  - by eapply records_advances, RecordNeverBoundExit_records.
Qed.

Lemma rtc_advances l l' : ledger_inv l → rtc step l l' → advances l l'.
Proof.
  intros Hinv H. induction H as [|l1 l2 l3 Hs _ IH]; [done|]. etrans; [by apply step_advances|].
  apply IH. by apply (step_inv l1).
Qed.
