(* ===== verification/FencingProofs.v ===== *)
(** * What the fencing ledger guarantees

    The claims an operator relies on before it builds a successor cluster:
    one live incarnation and one WAL per voter, immutable evidence, and
    completion that cannot be undone. *)

From stdpp Require Import gmap list strings.
From S2P Require Import Prelude Ledger LedgerSafety.

(** ** A concrete history: two voters are registered, the first is bound; the
    generation is closed; the first drains and exits, the second never bound. *)

Definition voter1 : Identity := mkIdentity "source" "n1" "pod1" "run1" "".
Definition voter2 : Identity := mkIdentity "source" "n2" "pod2" "run2" "".
Definition bound1 : Identity := with_wal voter1 "wal1".
Definition stop1 : StopRequest := mkStop "op" "hash" bound1.
Definition stop2 : StopRequest := mkStop "op" "hash" voter2.
Definition drain1 : DrainReceipt := mkDrain stop1 true 0 0.

Definition history : list op :=
  [OpRegister voter1; OpBind bound1; OpRegister voter2; OpClose "op" "hash"; OpRecordDrain drain1;
   OpRecordExit stop1; OpRecordNeverBoundExit stop2].

Fixpoint replay (ops : list op) (l : Ledger) : Ledger :=
  match ops with
  | [] => l
  | o :: ops' => match run_op o l with Ok l' => replay ops' l' | Err _ => replay ops' l end
  end.

Lemma replay_steps ops l : rtc step l (replay ops l).
Proof.
  revert l. induction ops as [|o ops IH]; intros l; simpl; [done|].
  destruct (run_op o l) as [l'|e] eqn:E; [|apply IH]. eapply rtc_l; [by eapply step_op|apply IH].
Qed.

Definition open_ledger : Ledger := replay (take 3 history) (new_ledger "source").
Definition fenced_ledger : Ledger := replay history (new_ledger "source").

Lemma replay_reachable ops : ledger_reachable (replay ops (new_ledger "source")).
Proof. exists "source"%string. apply replay_steps. Qed.

(** ** Incarnations *)

(** One live incarnation per voter.  In every reachable ledger, of two
    runs of a voter in different Pods at least one has exited after a clean
    drain, so all runs of a voter without that proof share one Pod. *)
Theorem single_live_incarnation l i1 r1 i2 r2 :
  ledger_reachable l → Runs l !! i1 = Some r1 → Runs l !! i2 = Some r2 →
  NodeID (RunIdentity r1) = NodeID (RunIdentity r2) →
  cleanly_exited r1 = false → cleanly_exited r2 = false →
  PodUID (RunIdentity r1) = PodUID (RunIdentity r2).
Proof.
  intros Hinv%reachable_inv H1 H2 Hn E1 E2. destruct (decide (i1 = i2)) as [->|Hne]; [congruence|].
  destruct (decide (PodUID (RunIdentity r1) = PodUID (RunIdentity r2))) as [|Hp]; [done|].
  destruct (li_pair _ Hinv _ _ _ _ H1 H2 Hne Hn) as [_ H]. destruct (H Hp); congruence.
Qed.

(** A voter keeps its WAL.  In every reachable ledger the runs of one voter
    that were bound to a WAL were all bound to the same one. *)
Theorem voter_keeps_wal l i1 r1 i2 r2 :
  ledger_reachable l → Runs l !! i1 = Some r1 → Runs l !! i2 = Some r2 →
  NodeID (RunIdentity r1) = NodeID (RunIdentity r2) →
  WALIdentity (RunIdentity r1) ≠ ""%string → WALIdentity (RunIdentity r2) ≠ ""%string →
  WALIdentity (RunIdentity r1) = WALIdentity (RunIdentity r2).
Proof.
  intros Hinv%reachable_inv H1 H2 Hn W1 W2. destruct (decide (i1 = i2)) as [->|Hne]; [congruence|].
  destruct (li_pair _ Hinv _ _ _ _ H1 H2 Hne Hn) as [H _]. auto.
Qed.

(** ** Evidence *)

(** Evidence is immutable.  Whatever operations follow, a registered run
    keeps its cluster, voter, Pod and run ID, its stop request, its drain
    receipt and its exit, and keeps its WAL once it is bound or stopped. *)
Theorem evidence_immutable l l' id run :
  ledger_reachable l → rtc step l l' → Runs l !! id = Some run →
  ∃ run', Runs l' !! id = Some run' ∧ evolves run run'.
Proof. intros Hinv%reachable_inv Hr. by apply (ad_run _ _ (rtc_advances _ _ Hinv Hr)). Qed.

Lemma exited_complete c id run : run_ok c id run → run_complete run = Exited run.
Proof.
  intros [H1 H2 H3 H4 H5 H6]. unfold run_complete. destruct (Exited run) eqn:He.
  2:{ destruct (Stop run); [|done]. by rewrite andb_false_r. }
  destruct (H6 eq_refl) as [[n Hn]|(Hw & d & Hd & Hc)].
  - rewrite Hn. destruct (H5 n Hn) as (Hs & -> & -> & _). rewrite Hs. destruct (H3 n Hs) as (-> & ? & ?).
    unfold empty. by rewrite ?andb_true_iff, ?negb_true_iff, ?bool_decide_eq_true, ?bool_decide_eq_false.
  - destruct (H4 d Hd) as [Hs Hn]. rewrite Hs, Hn, Hd, Hc. destruct (H3 _ Hs) as (-> & ? & ?).
    unfold empty. by rewrite ?andb_true_iff, ?negb_true_iff, ?bool_decide_eq_true, ?bool_decide_eq_false.
Qed.

(** The exit flag is exact.  In every reachable ledger a run is marked
    exited if and only if it carries the full evidence [CompleteNodes] asks
    for: a stop request for this very identity, and either a clean drain of
    that request by a bound run or a never-bound exit of an unbound one. *)
Theorem exit_flag_exact l id run :
  ledger_reachable l → Runs l !! id = Some run → run_complete run = Exited run.
Proof. intros Hinv%reachable_inv Hr. by eapply exited_complete, (li_run _ Hinv). Qed.

(** ** Closure *)

(** Closure is permanent.  After a generation is closed no sequence of
    operations changes who closed it, re-opens a voter, registers a run or
    binds one: the runs are the same ones with the same identities, each with
    a stop request. *)
Theorem closure_permanent l l' :
  ledger_reachable l → ClosedBy l ≠ ""%string → rtc step l l' →
  ClosedBy l' = ClosedBy l ∧ ClosedHash l' = ClosedHash l ∧ ClosedNodes l' = ClosedNodes l ∧
  RunIdentity <$> Runs l' = RunIdentity <$> Runs l ∧ (∀ id run, Runs l' !! id = Some run → is_Some (Stop run)).
Proof.
  intros Hinv%reachable_inv Hc Hr. destruct (rtc_advances _ _ Hinv Hr) as [Hrun Hnew Hcl _ _].
  destruct (Hcl Hc) as (E1 & E2 & E3). split_and!; [done|done|done| |].
  - apply map_eq. intros id. rewrite !lookup_fmap. destruct (Runs l !! id) as [r|] eqn:E.
    + destruct (Hrun _ _ E) as (r' & -> & Hev). simpl. f_equal. apply (evolves_stopped _ _ Hev).
      apply (li_closed _ Hinv _ _ E). by left.
    + destruct (Runs l' !! id) as [r'|] eqn:E'; [|done]. exfalso. apply (Hnew _ _ E' E). by left.
  - intros id run Hl. apply (li_closed _ (rtc_inv _ _ Hinv Hr) _ _ Hl). left. by rewrite E1.
Qed.

(** A run with complete evidence no longer changes. *)
Lemma complete_frozen c id r r' :
  run_ok c id r → run_ok c id r' → run_complete r = true → evolves r r' → r' = r.
Proof.
  intros Hok Hok' Hc Hev. rewrite (exited_complete _ _ _ Hok) in Hc.
  assert (is_Some (Stop r)) as Hs.
  { destruct (ro_exit _ _ _ Hok Hc) as [[n Hn]|(_ & d & Hd & _)].
    - destruct (ro_never _ _ _ Hok n Hn) as [-> _]. by eexists.
    - destruct (ro_drain _ _ _ Hok d Hd) as [-> _]. by eexists. }
  pose proof (evolves_stopped _ _ Hev Hs) as Hi. destruct Hs as [s Hs]. destruct Hev as [_ H2 H3 H4 H5].
  destruct r' as [i' s' d' e' n'], r as [i0 s0 d0 e0 n0]; simpl in *; subst. rewrite (H2 s eq_refl), (H4 eq_refl).
  destruct (ro_exit _ _ _ Hok eq_refl) as [[n Hn]|(Hw & d & Hd & _)]; simpl in *; subst.
  - pose proof (H5 n eq_refl). subst. destruct (ro_never _ _ _ Hok n eq_refl) as (_ & E1 & _).
    destruct (ro_never _ _ _ Hok' n eq_refl) as (_ & E2 & _). simpl in *. by subst.
  - pose proof (H3 d eq_refl). subst. destruct (ro_drain _ _ _ Hok d eq_refl) as [_ E1].
    destruct (ro_drain _ _ _ Hok' d eq_refl) as [_ E2]. simpl in *. by subst.
Qed.

Lemma CompleteNodes_true o h ns pods l :
  CompleteNodes o h ns pods l = true →
  (∀ id run, Runs l !! id = Some run → in_scope ns run = true → run_complete run = true) ∧
  (∀ n, n ∈ ns → is_Some (ClosedNodes l !! n)) ∧ (ns = [] → ClosedBy l = o ∧ o ≠ ""%string).
Proof.
  unfold CompleteNodes. destruct (_ || _) eqn:He; [done|]. destruct (negb _) eqn:Hc; [done|].
  destruct (bool_decide (ns = []) && _) eqn:Hn; [done|]. unfold empty in He. rewrite andb_false_iff in Hn. bool_hyps.
  intros [[Hall _]%andb_true_iff _]%andb_true_iff. apply bool_decide_eq_true in Hall. split_and!; [done| |].
  - intros n Hin. rewrite forallb_forall in Hc. apply list_elem_of_In in Hin. specialize (Hc n Hin).
    by destruct (ClosedNodes l !! n).
  - intros ->. destruct Hn as [Hn|Hn]; [by rewrite bool_decide_eq_true_2 in Hn|]. bool_hyps. done.
Qed.

Lemma in_scope_closed o h ns pods l run :
  CompleteNodes o h ns pods l = true → in_scope ns run = true → closed_for l (NodeID (RunIdentity run)).
Proof.
  intros (_ & Hc & Ho)%CompleteNodes_true Hs. unfold in_scope in Hs. apply orb_true_iff in Hs as [Hs|Hs]; bool_hyps.
  - destruct (Ho Hs) as [<- ?]. by left.
  - right. by apply Hc.
Qed.

(** The runs of a fenced scope never change again. *)
Lemma fenced_runs_frozen o h ns pods l l' :
  ledger_inv l → CompleteNodes o h ns pods l = true → rtc step l l' →
  ∀ id run, in_scope ns run = true → Runs l' !! id = Some run ↔ Runs l !! id = Some run.
Proof.
  intros Hinv Hcomp Hr. pose proof (rtc_advances _ _ Hinv Hr) as [Hrun Hnew _ _ Ec].
  pose proof (rtc_inv _ _ Hinv Hr) as Hinv'. destruct (CompleteNodes_true _ _ _ _ _ Hcomp) as (Hall & _ & _).
  assert (∀ id r, Runs l !! id = Some r → in_scope ns r = true → Runs l' !! id = Some r) as Hkeep.
  { intros id r H Hs. destruct (Hrun _ _ H) as (r' & Hr' & Hev). rewrite Hr'. f_equal.
    apply (complete_frozen (LedgerCluster l) id); [by apply (li_run _ Hinv)|rewrite <-Ec; by apply (li_run _ Hinv')|by apply (Hall id)|done]. }
  intros id run Hs. split; [|by intros; apply Hkeep].
  intros H. destruct (Runs l !! id) as [r|] eqn:E.
  - destruct (Hrun _ _ E) as (r' & Hr' & Hev). rewrite H in Hr'. simplify_eq.
    assert (in_scope ns r = true) as Hs'. { unfold in_scope in *. by destruct (evolves_node _ _ Hev) as (<- & _). }
    pose proof (Hkeep _ _ E Hs'). congruence.
  - exfalso. apply (Hnew _ _ H E). by eapply in_scope_closed.
Qed.

(** C27: fencing is final.  Once [CompleteNodes] holds, no sequence of
    operations adds, removes or changes a run of the fenced voters (of any
    voter for a generation-wide closure): every one of them stays exited. *)
Theorem fencing_final o h ns pods l l' :
  ledger_reachable l → CompleteNodes o h ns pods l = true → rtc step l l' →
  ∀ id run, in_scope ns run = true →
    (Runs l' !! id = Some run ↔ Runs l !! id = Some run) ∧ (Runs l' !! id = Some run → Exited run = true).
Proof.
  intros Hinv%reachable_inv Hcomp Hr id run Hs.
  pose proof (fenced_runs_frozen _ _ _ _ _ _ Hinv Hcomp Hr id run Hs) as H. split; [done|]. intros Hl%H.
  destruct (CompleteNodes_true _ _ _ _ _ Hcomp) as (Hall & _ & _).
  rewrite <-(exited_complete _ _ _ (li_run _ Hinv _ _ Hl)). by apply (Hall id).
Qed.

(** ** Completion *)

(** Every drain recorded so far is a clean drain of a bound run, which is what
    the supervisor submits. *)
Definition drains_clean (l : Ledger) : Prop :=
  ∀ id run d, Runs l !! id = Some run → Drain run = Some d →
    Clean d = true ∧ WALIdentity (RunIdentity run) ≠ ""%string.

Lemma finish_bound l id run s :
  Runs l !! id = Some run → RunID (StopIdentity s) = id → RunID (RunIdentity run) = id →
  Stop run = Some s → NeverBoundExit run = None → WALIdentity (RunIdentity run) ≠ ""%string →
  (∀ d, Drain run = Some d → Clean d = true ∧ Request d = s) →
  ∃ d, Clean d = true ∧ rtc step l (set_run l id (mkRun (RunIdentity run) (Some s) (Some d) true None)).
Proof.
  intros Hr Hkey Hrk Hs Hn Hw Hcl.
  set (d := default (mkDrain s true 0 0) (Drain run)). exists d.
  assert (Clean d = true ∧ Request d = s) as [Hcd Hrd].
  { subst d. destruct (Drain run) as [d|]; simpl; [by apply Hcl|done]. }
  split; [done|]. set (r1 := mkRun (RunIdentity run) (Some s) (Some d) (Exited run) None).
  assert (RecordDrain d l = Ok (set_run l id r1)) as H1.
  { unfold RecordDrain. rewrite Hrd, Hkey, Hr, Hs, Hn, Hrk. rewrite bool_decide_eq_true_2 by done. simpl.
    subst d r1. destruct (Drain run); [|done]. simpl. by rewrite bool_decide_eq_true_2. }
  assert (RecordExit s (set_run l id r1) = Ok (set_run l id (mkRun (RunIdentity run) (Some s) (Some d) true None))) as H2.
  { unfold RecordExit. cbn [Runs set_run with_runs]. rewrite Hkey, lookup_insert_eq. cbn [Drain Stop RunIdentity r1].
    unfold empty. rewrite bool_decide_eq_false_2, bool_decide_eq_true_2, Hcd by done. simpl.
    unfold set_run, with_runs. simpl. by rewrite insert_insert_eq. }
  eapply rtc_l; [by apply (step_op (OpRecordDrain d))|]. by eapply rtc_once, (step_op (OpRecordExit s)).
Qed.

(** A stopped run whose drain, if any, was clean can be brought to its exit. *)
Lemma finish_run l id run :
  ledger_inv l → ClosedBy l ≠ ""%string → drains_clean l → Runs l !! id = Some run →
  ∃ run', rtc step l (set_run l id run') ∧ Exited run' = true ∧ RunIdentity run' = RunIdentity run ∧
    (∀ d, Drain run' = Some d → Clean d = true ∧ WALIdentity (RunIdentity run') ≠ ""%string).
Proof.
  intros Hinv Hc Hcl Hr. destruct (li_closed _ Hinv _ _ Hr) as [s Hs]; [by left|].
  pose proof (li_run _ Hinv _ _ Hr) as Hok. destruct (ro_stop _ _ _ Hok s Hs) as (Hi & _).
  pose proof (ro_key _ _ _ Hok) as Hrk. assert (RunID (StopIdentity s) = id) as Hkey by by rewrite Hi.
  destruct (decide (WALIdentity (RunIdentity run) = ""%string)) as [Hw|Hw].
  - assert (Drain run = None) as Hd.
    { destruct (Drain run) as [d|] eqn:Hd; [|done]. by destruct (Hcl _ _ _ Hr Hd). }
    exists (mkRun (RunIdentity run) (Some s) None true (Some s)). split_and!; [|done|done|done].
    apply rtc_once, (step_op (OpRecordNeverBoundExit s)). simpl. unfold RecordNeverBoundExit.
    rewrite Hkey, Hr, Hw, Hd, Hs, Hi.
    rewrite (bool_decide_eq_true_2 (Some s = Some s)), (bool_decide_eq_true_2 (RunIdentity run = RunIdentity run)) by done.
    simpl. unfold empty. by rewrite (bool_decide_eq_false_2 (ClosedBy l = _)).
  - destruct (finish_bound l id run s) as (d & Hd & Hst); try done.
    + destruct (NeverBoundExit run) as [n|] eqn:Hn; [|done]. by destruct (ro_never _ _ _ Hok n Hn) as (_ & _ & ? & _).
    + intros d Hd. destruct (Hcl _ _ _ Hr Hd) as [? _]. destruct (ro_drain _ _ _ Hok d Hd). split; congruence.
    + eexists. split; [exact Hst|]. split_and!; [done|done|]. by intros d' [= <-].
Qed.

Lemma finish_runs (ks : list string) l :
  ledger_inv l → ClosedBy l ≠ ""%string → drains_clean l → (∀ k, k ∈ ks → is_Some (Runs l !! k)) →
  ∃ l', rtc step l l' ∧ RunIdentity <$> Runs l' = RunIdentity <$> Runs l ∧ drains_clean l' ∧
    ∀ k, k ∈ ks → ∃ run, Runs l' !! k = Some run ∧ Exited run = true.
Proof.
  revert l. induction ks as [|k ks IH]; intros l Hinv Hc Hcl Hks.
  { exists l. split_and!; [done|done|done|]. by intros k ?%elem_of_nil. }
  destruct (Hks k) as [run Hr]; [by left|].
  destruct (finish_run l k run Hinv Hc Hcl Hr) as (run' & Hst & He & Hi & Hcl').
  destruct (IH (set_run l k run')) as (l' & Hst' & Hids & Hd & Hdone); [by apply (rtc_inv l)|done| | |].
  - intros i r d. simpl. intros [[<- <-]|[_ H]]%lookup_insert_Some Hd; [by apply Hcl'|by apply (Hcl i)].
  - intros i Hin. simpl. apply lookup_insert_is_Some. destruct (decide (k = i)); [by left|right; split; [done|]]. apply Hks. by right.
  - exists l'. split; [by etrans|]. split_and!; [|done|].
    + rewrite Hids. simpl. rewrite fmap_insert, insert_id; [done|]. by rewrite lookup_fmap, Hr, Hi.
    + intros i [->|Hin]%elem_of_cons; [|by apply Hdone].
      assert (Runs (set_run l k run') !! k = Some run') as Hk by apply lookup_insert_eq.
      destruct (ad_run _ _ (rtc_advances _ _ (rtc_inv _ _ Hinv Hst) Hst') _ _ Hk) as (r2 & ? & Hev).
      exists r2. split; [done|]. by apply (ev_exit _ _ Hev).
Qed.

(** A closed generation can be fenced.  If every drain recorded so far is
    a clean drain of a bound run and the current Pods are registered, then
    some sequence of drains and exits makes [Complete] hold for the closing
    operation: fencing never deadlocks. *)
Theorem fencing_completes l (pods : list string) :
  ledger_reachable l → ClosedBy l ≠ ""%string → drains_clean l → Runs l ≠ ∅ →
  (∀ uid, uid ∈ pods → ∃ id run, Runs l !! id = Some run ∧ PodUID (RunIdentity run) = uid) →
  ∃ l', rtc step l l' ∧ Complete (ClosedBy l) (ClosedHash l) pods l' = true.
Proof.
  intros Hinv%reachable_inv Hc Hcl Hne Hpods.
  destruct (finish_runs (map_to_list (Runs l)).*1 l Hinv Hc Hcl) as (l' & Hst & Hids & _ & Hdone).
  { intros k (p & -> & Hp)%list_elem_of_fmap. destruct p as [i r]. apply elem_of_map_to_list in Hp. by eexists. }
  exists l'. split; [done|]. pose proof (rtc_inv _ _ Hinv Hst) as Hinv'.
  destruct (ad_closed _ _ (rtc_advances _ _ Hinv Hst) Hc) as (E1 & E2 & _).
  assert (∀ id run, Runs l' !! id = Some run → ∃ r, Runs l !! id = Some r ∧ RunIdentity run = RunIdentity r) as Hback.
  { intros id run H. apply (f_equal (lookup id)) in Hids. rewrite !lookup_fmap, H in Hids.
    destruct (Runs l !! id) as [r|]; simplify_eq/=. eauto. }
  assert (∀ id r, Runs l !! id = Some r → ∃ run, Runs l' !! id = Some run ∧ RunIdentity run = RunIdentity r) as Hfwd.
  { intros id r H. apply (f_equal (lookup id)) in Hids. rewrite !lookup_fmap, H in Hids.
    destruct (Runs l' !! id) as [run|]; simplify_eq/=. eauto. }
  unfold Complete, CompleteNodes. unfold empty.
  rewrite (bool_decide_eq_false_2 (ClosedBy l = _)) by done.
  rewrite (bool_decide_eq_false_2 (ClosedHash l = _)) by by rewrite <-(li_hash _ Hinv).
  rewrite (bool_decide_eq_false_2 (Runs l' = ∅)).
  2:{ intros E. apply Hne, map_eq. intros id. rewrite lookup_empty. destruct (Runs l !! id) as [r|] eqn:Er; [|done].
      destruct (Hfwd _ _ Er) as (run & Hrun & _). by rewrite E in Hrun. }
  simpl. rewrite E1, E2, (bool_decide_eq_true_2 (ClosedBy l = _)), (bool_decide_eq_true_2 (ClosedHash l = _)) by done.
  simpl. rewrite (bool_decide_eq_true_2 (map_Forall _ _)).
  - simpl. apply forallb_forall. intros uid Hin%list_elem_of_In. apply bool_decide_eq_true.
    destruct (Hpods uid Hin) as (id & r & Hr & Hu). destruct (Hfwd _ _ Hr) as (run & Hrun & Hi).
    exists id, run. split_and!; [done|done|]. by rewrite Hi.
  - intros id run Hrun _. destruct (Hback _ _ Hrun) as (r & Hr & _). rewrite (exited_complete _ _ _ (li_run _ Hinv' _ _ Hrun)).
    destruct (Hdone id) as (x & Hx & He); [|congruence]. apply list_elem_of_fmap. exists (id, r). by rewrite elem_of_map_to_list.
Qed.

(** ** Instances of the claims on the concrete history *)

(** A container restart inside one Pod: two runs on the same WAL. *)
Definition restart1 : Identity := mkIdentity "source" "n1" "pod1" "run3" "".
Definition restart_ledger : Ledger :=
  replay [OpRegister voter1; OpBind bound1; OpRegister restart1; OpBind (with_wal restart1 "wal1")]
    (new_ledger "source").

Lemma single_live_incarnation_witness :
  PodUID (RunIdentity (mkRun bound1 None None false None)) =
  PodUID (RunIdentity (mkRun (with_wal restart1 "wal1") None None false None)).
Proof.
  apply (single_live_incarnation restart_ledger "run1" (mkRun bound1 None None false None)
    "run3" (mkRun (with_wal restart1 "wal1") None None false None));
    [apply replay_reachable|vm_compute; reflexivity..].
Defined.

Lemma voter_keeps_wal_witness : WALIdentity bound1 = WALIdentity (with_wal restart1 "wal1").
Proof.
  apply (voter_keeps_wal restart_ledger "run1" (mkRun bound1 None None false None)
    "run3" (mkRun (with_wal restart1 "wal1") None None false None));
    [apply replay_reachable|vm_compute; reflexivity|vm_compute; reflexivity|reflexivity|discriminate|discriminate].
Defined.

Lemma evidence_immutable_witness :
  ∃ run', Runs fenced_ledger !! "run1"%string = Some run' ∧ evolves (mkRun bound1 None None false None) run'.
Proof.
  apply (evidence_immutable open_ledger fenced_ledger);
    [apply replay_reachable|apply (replay_steps (drop 3 history) open_ledger)|vm_compute; reflexivity].
Defined.

Lemma exit_flag_exact_witness :
  run_complete (mkRun bound1 (Some stop1) (Some drain1) true None) =
  Exited (mkRun bound1 (Some stop1) (Some drain1) true None).
Proof.
  apply (exit_flag_exact fenced_ledger "run1"); [apply replay_reachable|vm_compute; reflexivity].
Defined.

Definition closed_ledger : Ledger := replay (take 4 history) (new_ledger "source").

Lemma closure_permanent_witness :
  ClosedBy fenced_ledger = ClosedBy closed_ledger ∧ ClosedHash fenced_ledger = ClosedHash closed_ledger ∧
  ClosedNodes fenced_ledger = ClosedNodes closed_ledger ∧
  RunIdentity <$> Runs fenced_ledger = RunIdentity <$> Runs closed_ledger ∧
  (∀ id run, Runs fenced_ledger !! id = Some run → is_Some (Stop run)).
Proof.
  apply (closure_permanent closed_ledger fenced_ledger);
    [apply replay_reachable|vm_compute; discriminate|apply (replay_steps (drop 4 history) closed_ledger)].
Defined.

Definition later_ledger : Ledger := replay [OpRegister restart1; OpClose "op" "hash"] fenced_ledger.
Definition final_run : Run := mkRun bound1 (Some stop1) (Some drain1) true None.

Lemma fencing_final_witness :
  (Runs later_ledger !! "run1"%string = Some final_run ↔ Runs fenced_ledger !! "run1"%string = Some final_run) ∧
  (Runs later_ledger !! "run1"%string = Some final_run → Exited final_run = true).
Proof.
  apply (fencing_final "op" "hash" [] ["pod1"; "pod2"]%string fenced_ledger later_ledger);
    [apply replay_reachable|vm_compute; reflexivity|apply replay_steps|reflexivity].
Defined.

Lemma fencing_completes_witness :
  ∃ l', rtc step closed_ledger l' ∧ Complete (ClosedBy closed_ledger) (ClosedHash closed_ledger) ["pod1"; "pod2"]%string l' = true.
Proof.
  apply (fencing_completes closed_ledger ["pod1"; "pod2"]%string).
  - apply replay_reachable.
  - vm_compute. discriminate.
  - assert (map_Forall (λ _ run, Drain run = None) (Runs closed_ledger)) as H by (by apply (bool_decide_eq_true_1 _); vm_compute).
    intros id run d Hr Hd. rewrite (H id run Hr) in Hd. discriminate.
  - vm_compute. discriminate.
  - intros uid Hin. apply elem_of_cons in Hin as [->|Hin].
    + exists "run1"%string, (mkRun bound1 (Some stop1) None false None). split; vm_compute; reflexivity.
    + apply list_elem_of_singleton in Hin as ->. exists "run2"%string, (mkRun voter2 (Some stop2) None false None).
      split; vm_compute; reflexivity.
Defined.
