(* ===== verification/Anchor.v ===== *)
(** * The recovery anchor (pkg/recoveryanchor/coordinator.go, types.go)

    A versioned record in an external store says which cluster generation
    owns an application.  [Activate] moves it from a source to a target cluster
    with two compare-and-swap writes, a reservation that freezes the record
    and a commit; [UpdateApplication] is the application's own write.

    The store is the Go interface [Backend]; it is a class here, with what the
    code relies on as its laws.  The verifier callback and the request hash
    (SHA-256 of the request's JSON) are parameters. *)

From stdpp Require Import gmap list strings.
From S2P Require Import Prelude.

(** ** Data *)

Definition Version1 : Z := 1.
Definition MembershipRecordVersion : Z := 2.

Record Binding := mkBinding { ClusterID : string; StorageID : string }.

Record ForkResult := mkFork { Tip : Z; PrefixHash : string; ManifestHash : string }.

Record MembershipRecord := mkMembership {
  mrVersion : Z;
  mrCluster : string;
  mrMembership : string;
  mrDurability : string;
}.

Record Request := mkRequest {
  AnchorID : string;
  OperationID : string;
  StatefulSetUID : string;
  SourceClusterID : string;
  TargetClusterID : string;
  SourcePrefix : string;
  TargetPrefix : string;
  SourceMembership : string;
  FenceHash : string;
  TargetAnchorHash : string;
  Fork : ForkResult;
  TargetMembership : MembershipRecord;
}.

Record Receipt := mkReceipt {
  rcAnchorID : string;
  rcOperationID : string;
  rcRequestHash : string;
  Target : Binding;
  rcGeneration : Z;
}.

Record Transition := mkTransition {
  trRequest : Request;
  Source : Binding;
  trGeneration : Z;
  trEvidence : bytes;
}.

Record AnchorRecord := mkRecord {
  Version : Z;
  EvidenceFormat : string;
  rBinding : Binding;
  Evidence : bytes;
  PendingWrite : bool;
  Generation : Z;
  rTransition : option Transition;
  LastTransition : option Receipt;
}.

#[global] Instance Binding_eq_dec : EqDecision Binding.
Proof. solve_decision. Defined.
#[global] Instance Receipt_eq_dec : EqDecision Receipt.
Proof. solve_decision. Defined.

Inductive anchorError :=
| ErrRequired
| ErrSameCluster
| ErrTraversal
| ErrNotCanonical
| ErrOverlap
| ErrForkTip
| ErrHex
| ErrMembership
| ErrCancelled
| ErrRead
| ErrRecordVersion
| ErrEvidenceFormat
| ErrEmptyBinding
| ErrStaleSource
| ErrPendingWrite
| ErrGenerationOverflow
| ErrFrozenHash
| ErrFrozenBinding
| ErrFrozenGeneration
| ErrFrozenEvidence
| ErrVerifier
| ErrTargetBinding
| ErrProofMismatch
| ErrCAS
| ErrAttempts
| ErrNotCommitted
| ErrReceipt
| ErrTransition
| ErrBindingMismatch
| ErrGenerationMismatch
| ErrVersionMismatch.

Definition is_empty (s : string) : bool := bool_decide (s = ""%string).

(** ** Go strings: path.Clean, hex.DecodeString, strings.HasPrefix *)

(** The byte 0x2f. *)
Definition slash : Ascii.ascii := Ascii.Ascii true true true true false true false false.

(** The elements between slashes; [""] has one, empty, element. *)
Fixpoint split_slash (s : string) : list string :=
  match s with
  | EmptyString => [""%string]
  | String c s' =>
      if bool_decide (c = slash) then ""%string :: split_slash s'
      else match split_slash s' with
           | [] => [String c EmptyString]
           | x :: xs => String c x :: xs
           end
  end.

Fixpoint join_slash (l : list string) : string :=
  match l with
  | [] => ""%string
  | [x] => x
  | x :: xs => (x +:+ String slash (join_slash xs))%string
  end.

Definition is_rooted (s : string) : bool :=
  match s with String c _ => bool_decide (c = slash) | EmptyString => false end.

(** One element against the elements kept so far, the last one first. *)
Definition clean_step (rooted : bool) (out : list string) (x : string) : list string :=
  if bool_decide (x = "") || bool_decide (x = ".") then out
  else if bool_decide (x = "..") then
    match out with
    | y :: out' => if bool_decide (y = "..") then ".." :: out else out'
    | [] => if rooted then [] else [".."]
    end
  else x :: out.

Definition path_Clean (p : string) : string :=
  if is_empty p then "."
  else
    let out := rev (foldl (clean_step (is_rooted p)) [] (split_slash p)) in
    if is_rooted p then String slash (join_slash out)
    else match out with [] => "." | _ => join_slash out end.

Definition is_hex (c : Ascii.ascii) : bool :=
  let n := Ascii.nat_of_ascii c in
  ((48 <=? n) && (n <=? 57) || (97 <=? n) && (n <=? 102) || (65 <=? n) && (n <=? 70))%nat.

Fixpoint all_chars (f : Ascii.ascii → bool) (s : string) : bool :=
  match s with EmptyString => true | String c s' => f c && all_chars f s' end.

Definition validateHex64 (s : string) : bool := all_chars is_hex s && (String.length s =? 64)%nat.

(** ** Request validation *)

Definition traversal (p : string) : bool :=
  bool_decide (p = ".") || bool_decide (p = "..") || String.prefix "../" p.

Definition canonical (p : string) : bool := bool_decide (p = path_Clean p) && negb (is_rooted p).

Definition overlap (a b : string) : bool :=
  bool_decide (a = b) || String.prefix (b +:+ "/") a || String.prefix (a +:+ "/") b.

(** The backend and the verifier are always present here. *)
Definition validateRequest (format : string) (req : Request) : option anchorError :=
  if is_empty format then Some ErrRequired
  else if is_empty (AnchorID req) || is_empty (OperationID req) || is_empty (StatefulSetUID req)
  then Some ErrRequired
  else if is_empty (SourceClusterID req) || is_empty (TargetClusterID req) then Some ErrRequired
  else if bool_decide (SourceClusterID req = TargetClusterID req) then Some ErrSameCluster
  else if is_empty (SourcePrefix req) || is_empty (TargetPrefix req) then Some ErrRequired
  else if traversal (SourcePrefix req) then Some ErrTraversal
  else if traversal (TargetPrefix req) then Some ErrTraversal
  else if negb (canonical (SourcePrefix req)) then Some ErrNotCanonical
  else if negb (canonical (TargetPrefix req)) then Some ErrNotCanonical
  else if overlap (SourcePrefix req) (TargetPrefix req) then Some ErrOverlap
  else if is_empty (SourceMembership req) then Some ErrRequired
  else if Tip (Fork req) =? 0 then Some ErrForkTip
  else if negb (validateHex64 (ManifestHash (Fork req))) then Some ErrHex
  else if negb (validateHex64 (PrefixHash (Fork req))) then Some ErrHex
  else if negb (mrVersion (TargetMembership req) =? MembershipRecordVersion) then Some ErrMembership
  else if negb (bool_decide (mrCluster (TargetMembership req) = TargetClusterID req)) then Some ErrMembership
  else if negb (validateHex64 (FenceHash req)) then Some ErrHex
  else if negb (validateHex64 (TargetAnchorHash req)) then Some ErrHex
  else None.

(** ** The store *)

(** [Read] and [CAS] on a store.  A failed [CAS] may have written the record
    all the same: its response may have been lost. *)
Class Backend (S : Type) := {
  bread : S → string → option (AnchorRecord * string);
  bcas : S → string → string → AnchorRecord → bool * S;
  bstamp : string → Z;
}.

(** The write of a [CAS]: it found the expected version and stored the record
    under a new one, touching no other anchor.  Versions are never reused:
    [bstamp] is the order in which they are issued. *)
Definition wrote {S} `{Backend S} (s : S) (id v : string) (r : AnchorRecord) (s' : S) : Prop :=
  (∃ old, bread s id = Some (old, v)) ∧ (∃ v', bread s' id = Some (r, v') ∧ v' ≠ ""%string ∧ bstamp v < bstamp v') ∧
  (∀ id', id' ≠ id → bread s' id' = bread s id').

(** What the code relies on. *)
Class LawfulBackend (S : Type) `{Backend S} := {
  bcas_ok s id v r s' : bcas s id v r = (true, s') → wrote s id v r s';
  bcas_error s id v r s' : bcas s id v r = (false, s') → s' = s ∨ wrote s id v r s';
}.

(** A store that is also available: the expected version is never refused. *)
Class ReliableBackend (S : Type) `{Backend S} :=
  bcas_reliable s id v r old : bread s id = Some (old, v) → (bcas s id v r).1 = true.

Section coordinator.
Context (RequestHash : Request → string).
Context (Verifier : Request → AnchorRecord → result anchorError (Binding * bytes)).
Context (format : string).

Definition committed (record : AnchorRecord) (req : Request) (rhash : string) : bool :=
  match LastTransition record, rTransition record with
  | Some lt, None =>
      (Version record =? Version1) &&
      bool_decide (rcRequestHash lt = rhash) && bool_decide (rcAnchorID lt = AnchorID req) &&
      bool_decide (rcOperationID lt = OperationID req) &&
      bool_decide (ClusterID (Target lt) = TargetClusterID req) &&
      (rcGeneration lt =? Generation record) && bool_decide (rBinding record = Target lt)
  | _, _ => false
  end.

Definition validateFrozen (record : AnchorRecord) (t : Transition) (rhash : string) : option anchorError :=
  if negb (bool_decide (RequestHash (trRequest t) = rhash)) then Some ErrFrozenHash
  else if negb (bool_decide (rBinding record = Source t)) then Some ErrFrozenBinding
  else if negb (Generation record =? trGeneration t) then Some ErrFrozenGeneration
  else if negb (bool_decide (Evidence record = trEvidence t)) then Some ErrFrozenEvidence
  else None.

(** What one iteration of the loop in [Activate] does with the record read. *)
Inductive decision :=
| Done (r : Receipt)
| Fail (e : anchorError)
| Reserve (pending : AnchorRecord)
| Commit (record : AnchorRecord).

Definition reservation (existing : AnchorRecord) (req : Request) : AnchorRecord :=
  mkRecord Version1 format (rBinding existing) (Evidence existing) false (Generation existing)
    (Some (mkTransition req (rBinding existing) (Generation existing) (Evidence existing)))
    (LastTransition existing).

Definition commit_record (existing : AnchorRecord) (t : Transition) (req : Request) (rhash : string)
    (target : Binding) : AnchorRecord :=
  let receipt := mkReceipt (AnchorID req) (OperationID req) rhash target (u64 (Generation existing + 1)) in
  mkRecord Version1 format target (trEvidence t) false (u64 (Generation existing + 1)) None (Some receipt).

Definition attempt (req : Request) (rhash : string) (existing : AnchorRecord) (v : string) : decision :=
  if negb (Version existing =? Version1) then Fail ErrRecordVersion
  else if negb (bool_decide (EvidenceFormat existing = format)) then Fail ErrEvidenceFormat
  else if is_empty (ClusterID (rBinding existing)) || is_empty (StorageID (rBinding existing)) || is_empty v
  then Fail ErrEmptyBinding
  else
    match committed existing req rhash, LastTransition existing with
    | true, Some lt => Done lt
    | _, _ =>
        if negb (bool_decide (ClusterID (rBinding existing) = SourceClusterID req)) then Fail ErrStaleSource
        else if PendingWrite existing then Fail ErrPendingWrite
        else if Generation existing =? 2 ^ 64 - 1 then Fail ErrGenerationOverflow
        else
          match rTransition existing with
          | None => Reserve (reservation existing req)
          | Some t =>
              match validateFrozen existing t rhash with
              | Some e => Fail e
              | None =>
                  match Verifier req existing with
                  | Err _ => Fail ErrVerifier
                  | Ok (target, proof) =>
                      if negb (bool_decide (ClusterID target = TargetClusterID req)) ||
                         is_empty (StorageID target)
                      then Fail ErrTargetBinding
                      else if negb (bool_decide (proof = trEvidence t)) then Fail ErrProofMismatch
                      else Commit (commit_record existing t req rhash target)
                  end
              end
          end
    end.

Section store.
Context {S : Type} `{Backend S}.

(** [others] is what the rest of the world does to the store before an
    iteration and [meanwhile] what it does between the read and the write of
    one; [cancelled] says whether the context was cancelled before one. *)
Fixpoint activate_loop (others meanwhile : nat → S → S) (cancelled : nat → bool) (req : Request) (rhash : string)
    (attempts : nat) (i : nat) (lastErr : option anchorError) (s : S) : result anchorError Receipt * S :=
  match attempts with
  | O => (Err (default ErrAttempts lastErr), s)
  | Datatypes.S attempts' =>
      let s := others i s in
      if cancelled i then (Err ErrCancelled, s)
      else
        match bread s (AnchorID req) with
        | None => (Err ErrRead, s)
        | Some (existing, v) =>
            match attempt req rhash existing v with
            | Done r => (Ok r, s)
            | Fail e => (Err e, s)
            | Reserve rec | Commit rec =>
                let '(ok, s') := bcas (meanwhile i s) (AnchorID req) v rec in
                activate_loop others meanwhile cancelled req rhash attempts' (Datatypes.S i)
                  (if ok : bool then lastErr else Some ErrCAS) s'
            end
        end
  end.

Definition maxActivateAttempts : nat := 8.

Definition Activate (others meanwhile : nat → S → S) (cancelled : nat → bool) (req : Request) (s : S)
    : result anchorError Receipt * S :=
  match validateRequest format req with
  | Some e => (Err e, s)
  | None => activate_loop others meanwhile cancelled req (RequestHash req) maxActivateAttempts 0 None s
  end.

Definition Verify (req : Request) (receipt : Receipt) (s : S) : result anchorError unit :=
  match bread s (AnchorID req) with
  | None => Err ErrRead
  | Some (record, _) =>
      if negb (Version record =? Version1) || negb (bool_decide (EvidenceFormat record = format))
      then Err ErrEvidenceFormat
      else if negb (committed record req (RequestHash req)) then Err ErrNotCommitted
      else if negb (bool_decide (Some receipt = LastTransition record)) then Err ErrReceipt
      else Ok tt
  end.
End store.
End coordinator.

Definition CheckBinding (record : AnchorRecord) (expected : Binding) (expectedGeneration : Z)
    : result anchorError unit :=
  if negb (Version record =? Version1) then Err ErrRecordVersion
  else if PendingWrite record then Err ErrPendingWrite
  else if match rTransition record with Some _ => true | None => false end then Err ErrTransition
  else if negb (bool_decide (rBinding record = expected)) then Err ErrBindingMismatch
  else if negb (Generation record =? expectedGeneration) then Err ErrGenerationMismatch
  else Ok tt.

(** The record an application write stores, given the one it read. *)
Definition app_record (expectedVersion : string) (expectedBinding : Binding) (expectedGeneration : Z)
    (evidence : bytes) (pendingWrite : bool) (record : AnchorRecord) (v : string)
    : result anchorError AnchorRecord :=
  if negb (Version record =? Version1) then Err ErrRecordVersion
  else if negb (bool_decide (v = expectedVersion)) then Err ErrVersionMismatch
  else if negb (bool_decide (rBinding record = expectedBinding)) then Err ErrBindingMismatch
  else if negb (Generation record =? expectedGeneration) then Err ErrGenerationMismatch
  else match rTransition record with
       | Some _ => Err ErrTransition
       | None =>
           Ok (mkRecord (Version record) (EvidenceFormat record) (rBinding record) evidence pendingWrite
                 (Generation record) None (LastTransition record))
       end.

Definition UpdateApplication {S} `{Backend S} (id expectedVersion : string) (expectedBinding : Binding)
    (expectedGeneration : Z) (evidence : bytes) (pendingWrite : bool) (meanwhile : S → S) (s : S)
    : result anchorError unit * S :=
  if is_empty expectedVersion || is_empty (ClusterID expectedBinding) then (Err ErrRequired, s)
  else
    match bread s id with
    | None => (Err ErrRead, s)
    | Some (record, v) =>
        match app_record expectedVersion expectedBinding expectedGeneration evidence pendingWrite record v with
        | Err e => (Err e, s)
        | Ok record' =>
            let '(ok, s') := bcas (meanwhile s) id v record' in
            if ok : bool then (Ok tt, s') else (Err ErrCAS, s')
        end
    end.
