(* ===== verification/AnchorSafety.v ===== *)
(** * Safety of the recovery anchor

    Atomic writes of one anchor record, the invariant and the order they
    induce, and the refinement of [Activate] and [UpdateApplication], run
    against any lawful store and any interference, to those writes. *)

From stdpp Require Import gmap list strings.
From S2P Require Import Prelude Anchor.

Section anchor.
Context (RequestHash : Request → string).

(** ** Atomic writes *)

Inductive anchor_write : AnchorRecord → AnchorRecord → Prop :=
| aw_reserve verifier format req v old new :
    attempt RequestHash verifier format req (RequestHash req) old v = Reserve new → anchor_write old new
| aw_commit verifier format req v old new :
    attempt RequestHash verifier format req (RequestHash req) old v = Commit new → anchor_write old new
| aw_update ev b g evidence pw v old new :
    app_record ev b g evidence pw old v = Ok new → anchor_write old new.

(** A record as the writes leave it. *)
Record record_ok (r : AnchorRecord) : Prop := {
  ao_generation : 0 <= Generation r < 2 ^ 64;
  ao_transition t : rTransition r = Some t →
    Source t = rBinding r ∧ trGeneration t = Generation r ∧ trEvidence t = Evidence r ∧
    SourceClusterID (trRequest t) = ClusterID (rBinding r) ∧ PendingWrite r = false;
  ao_last lt : LastTransition r = Some lt → Target lt = rBinding r ∧ rcGeneration lt = Generation r;
}.

(** ** The three writes in detail *)

Lemma attempt_reserve verifier format req rhash old v new :
  attempt RequestHash verifier format req rhash old v = Reserve new →
  rTransition old = None ∧ PendingWrite old = false ∧ Version old = Version1 ∧ EvidenceFormat old = format ∧
  ClusterID (rBinding old) = SourceClusterID req ∧ Generation old ≠ 2 ^ 64 - 1 ∧ new = reservation format old req.
Proof.
  unfold attempt. intros H. case_all; bool_hyps; done.
Qed.

Lemma attempt_commit verifier format req rhash old v new :
  attempt RequestHash verifier format req rhash old v = Commit new →
  ∃ t target, rTransition old = Some t ∧ PendingWrite old = false ∧ Version old = Version1 ∧
    EvidenceFormat old = format ∧ ClusterID (rBinding old) = SourceClusterID req ∧
    Generation old ≠ 2 ^ 64 - 1 ∧ validateFrozen RequestHash old t rhash = None ∧
    verifier req old = Ok (target, trEvidence t) ∧ ClusterID target = TargetClusterID req ∧
    StorageID target ≠ ""%string ∧ new = commit_record format old t req rhash target.
Proof.
  unfold attempt. intros H. case_all; unfold is_empty in *; bool_hyps; subst; eauto 20.
Qed.

Lemma app_record_ok ev b g evidence pw old v new :
  app_record ev b g evidence pw old v = Ok new →
  rTransition old = None ∧ rBinding old = b ∧ Generation old = g ∧ v = ev ∧ Version old = Version1 ∧
  new = mkRecord Version1 (EvidenceFormat old) b evidence pw g None (LastTransition old).
Proof. unfold app_record. intros H. case_all; bool_hyps; subst. split_and!; congruence. Qed.

Lemma write_ok old new : record_ok old → anchor_write old new → record_ok new.
Proof.
  intros [Hg Ht Hl]. destruct 1 as [vf f req v old new H|vf f req v old new H|ev b g evidence pw v old new H].
  - apply attempt_reserve in H as (Hn & Hp & _ & _ & Hc & _ & ->). split; simpl; [done| |done].
    intros t [= <-]. simpl. split_and!; [done|done|done|congruence|done].
  - apply attempt_commit in H as (t & target & Hs & _ & _ & _ & _ & Hmax & _ & _ & _ & _ & ->).
    split; simpl; [apply u64_range|done|]. intros lt [= <-]. done.
  - apply app_record_ok in H as (Hn & <- & <- & _ & _ & ->). split; simpl; [done|done|]. intros lt Hlt. by apply Hl.
Qed.

Lemma writes_ok old new : record_ok old → rtc anchor_write old new → record_ok new.
Proof. intros Hok H. induction H as [|a b c Hw _ IH]; [done|]. apply IH. by apply (write_ok a). Qed.

(** Each write either keeps the owner and generation or is a commit, which
    moves the record to the next generation. *)
Lemma write_generation old new :
  record_ok old → anchor_write old new →
  Generation new = Generation old ∧ rBinding new = rBinding old ∨
  Generation new = Generation old + 1 ∧ is_Some (rTransition old).
Proof.
  intros [Hg _ _]. destruct 1 as [vf f req v old new H|vf f req v old new H|ev b g evidence pw v old new H].
  - apply attempt_reserve in H as (_ & _ & _ & _ & _ & _ & ->). by left.
  - apply attempt_commit in H as (t & target & Hs & _ & _ & _ & _ & Hmax & _ & _ & _ & _ & ->). right. simpl.
    rewrite u64_small by lia. by rewrite Hs.
  - apply app_record_ok in H as (_ & <- & <- & _ & _ & ->). by left.
Qed.

Lemma writes_generation old new :
  record_ok old → rtc anchor_write old new →
  Generation new = Generation old ∧ rBinding new = rBinding old ∨ Generation old < Generation new.
Proof.
  intros Hok H. induction H as [|a b c Hw Hr IH]; [by left|].
  pose proof (write_generation _ _ Hok Hw) as Hab. specialize (IH (write_ok _ _ Hok Hw)).
  destruct Hab as [[E1 E2]|[E1 _]], IH as [[E3 E4]|E3]; [left; split; congruence|right; lia..].
Qed.

(** ** Stores *)

Context {S : Type} `{LawfulBackend S}.

(** The store changes by atomic writes of single anchors. *)
Definition store_step (s s' : S) : Prop :=
  ∃ id old v new v', bread s id = Some (old, v) ∧ bread s' id = Some (new, v') ∧ bstamp v < bstamp v' ∧
    anchor_write old new ∧ ∀ id', id' ≠ id → bread s' id' = bread s id'.

Lemma wrote_step s id v r s' old :
  bread s id = Some (old, v) → anchor_write old r → wrote s id v r s' → store_step s s'.
Proof. intros Hr Hw (_ & (v' & Hr' & _ & Hst) & Ho). by exists id, old, v, r, v'. Qed.

(** The writes to one anchor; an unchanged version means none. *)
Lemma store_steps_anchor s s' id old v :
  rtc store_step s s' → bread s id = Some (old, v) →
  ∃ new v', bread s' id = Some (new, v') ∧ rtc anchor_write old new ∧
    (new = old ∧ v' = v ∨ bstamp v < bstamp v').
Proof.
  intros Hs. revert old v.
  induction Hs as [s|s1 s2 s3 (i & o & vo & n & vn & Ho & Hn & Hst & Hw & Hother) _ IH]; intros old v Hr.
  - exists old, v. split_and!; [done|done|by left].
  - destruct (decide (id = i)) as [->|Hne].
    + rewrite Hr in Ho. simplify_eq. destruct (IH _ _ Hn) as (new & v' & ? & ? & Hv). exists new, v'.
      split_and!; [done|by eapply rtc_l|]. right. destruct Hv as [[_ ->]|?]; lia.
    + rewrite <-(Hother id Hne) in Hr. by apply (IH old v).
Qed.

Lemma same_version_same_record s s' id old v new :
  rtc store_step s s' → bread s id = Some (old, v) → bread s' id = Some (new, v) → new = old.
Proof.
  intros Hs Hr Hr'. destruct (store_steps_anchor _ _ _ _ _ Hs Hr) as (n & v' & Hn & _ & [[-> _]|Hv]); simplify_eq; [done|lia].
Qed.

(** A compare-and-swap with a version read earlier. *)
Lemma bcas_steps s sm id v r s' ok old :
  bread s id = Some (old, v) → rtc store_step s sm → anchor_write old r → bcas sm id v r = (ok, s') →
  rtc store_step s s'.
Proof.
  intros Hr Hm Hw Hc. etrans; [exact Hm|].
  assert (wrote sm id v r s' → rtc store_step sm s') as Hwrote.
  { intros Hwr. pose proof Hwr as ((cur & Hcur) & _). rewrite <-(same_version_same_record _ _ _ _ _ _ Hm Hr Hcur) in Hw.
    by eapply rtc_once, wrote_step. }
  destruct ok; [by apply Hwrote, bcas_ok|]. apply bcas_error in Hc as [->|Hc]; [done|by apply Hwrote].
Qed.

Section activate.
Context (Verifier : Request → AnchorRecord → result anchorError (Binding * bytes)) (format : string).
Context (others meanwhile : nat → S → S) (cancelled : nat → bool).
(** The rest of the world also writes only through the code above. *)
Hypothesis others_write : ∀ i s, rtc store_step s (others i s).
Hypothesis meanwhile_write : ∀ i s, rtc store_step s (meanwhile i s).

Lemma activate_loop_steps req n i lastErr s r s' :
  activate_loop RequestHash Verifier format others meanwhile cancelled req (RequestHash req) n i lastErr s = (r, s') →
  rtc store_step s s'.
Proof using H H0 others_write meanwhile_write.
  revert i lastErr s. induction n as [|n IH]; intros i lastErr s; simpl; [by intros [= _ <-]|].
  destruct (cancelled i); [intros [= _ <-]; apply others_write|].
  destruct (bread (others i s) (AnchorID req)) as [[existing v]|] eqn:Hr; [|intros [= _ <-]; apply others_write].
  assert (∀ rec, anchor_write existing rec →
    (let '(ok, s1) := bcas (meanwhile i (others i s)) (AnchorID req) v rec in
     activate_loop RequestHash Verifier format others meanwhile cancelled req (RequestHash req) n (Datatypes.S i)
       (if ok : bool then lastErr else Some ErrCAS) s1) = (r, s') → rtc store_step s s') as Hcas.
  { intros rec Hw. destruct (bcas _ _ _ _) as [ok s1] eqn:Hc. intros Hl%IH.
    etrans; [apply others_write|]. etrans; [|exact Hl]. by eapply bcas_steps; [|apply meanwhile_write| |]. }
  destruct (attempt _ _ _ _ _ _ _) as [rc|e|rec|rec] eqn:Ha.
  - intros [= _ <-]. apply others_write.
  - intros [= _ <-]. apply others_write.
  - apply Hcas. by eapply aw_reserve.
  - apply Hcas. by eapply aw_commit.
Qed.

Lemma activate_steps req s r s' :
  Activate RequestHash Verifier format others meanwhile cancelled req s = (r, s') → rtc store_step s s'.
Proof using H H0 others_write meanwhile_write.
  unfold Activate. destruct (validateRequest _ _); [by intros [= _ <-]|]. apply activate_loop_steps.
Qed.

Lemma activate_loop_done req n i lastErr s rc s' :
  activate_loop RequestHash Verifier format others meanwhile cancelled req (RequestHash req) n i lastErr s = (Ok rc, s') →
  ∃ rec v, bread s' (AnchorID req) = Some (rec, v) ∧ committed rec req (RequestHash req) = true ∧
    LastTransition rec = Some rc ∧ EvidenceFormat rec = format.
Proof using others_write.
  revert i lastErr s. induction n as [|n IH]; intros i lastErr s; simpl; [done|].
  destruct (cancelled i); [done|]. destruct (bread (others i s) (AnchorID req)) as [[existing v]|] eqn:Hr; [|done].
  destruct (attempt _ _ _ _ _ _ _) as [r|e|rec|rec] eqn:Ha; [|done| |]; try (destruct (bcas _ _ _ _); apply IH).
  intros [= -> <-]. exists existing, v. split; [done|].
  unfold attempt in Ha. case_all; bool_hyps; try done.
Qed.
End activate.

Lemma update_steps id ev b g evidence pw meanwhile s r s' :
  (∀ s, rtc store_step s (meanwhile s)) →
  UpdateApplication id ev b g evidence pw meanwhile s = (r, s') → rtc store_step s s'.
Proof using H H0.
  intros Hm. unfold UpdateApplication. destruct (_ || _); [by intros [= _ <-]|].
  destruct (bread s id) as [[record v]|] eqn:Hr; [|by intros [= _ <-]].
  destruct (app_record _ _ _ _ _ _ _) as [new|e] eqn:Ha; [|by intros [= _ <-]].
  destruct (bcas _ _ _ _) as [ok s1] eqn:Hc. intros E. assert (s' = s1) as -> by (destruct ok; by simplify_eq).
  eapply bcas_steps; [done|apply Hm| |done]. by eapply aw_update.
Qed.
End anchor.
