(* ===== verification/AnchorProofs.v ===== *)
(** * What the recovery anchor guarantees

    [Activate] as a sequence of atomic writes, the freeze between reservation
    and commit, the permanent rejection of a superseded owner, completion and
    idempotence; and the separation of the two storage prefixes. *)

From stdpp Require Import gmap list strings.
From S2P Require Import Prelude Anchor AnchorSafety.

(** ** Handover *)

Section handover.
Context (RequestHash : Request → string).

(** A reservation freezes the record.  While a transition is reserved the
    only write any coordinator or application can make is the commit of a
    request with the reserved request's hash, from the cluster that owned the
    record at the reservation; it stores the evidence frozen there, the next
    generation and a matching receipt. *)
Theorem reservation_freezes old t new :
  record_ok old → rTransition old = Some t → anchor_write RequestHash old new →
  ∃ req, RequestHash req = RequestHash (trRequest t) ∧ SourceClusterID req = ClusterID (rBinding old) ∧
    ClusterID (rBinding new) = TargetClusterID req ∧ StorageID (rBinding new) ≠ ""%string ∧
    Evidence new = Evidence old ∧ PendingWrite new = false ∧ rTransition new = None ∧
    Generation new = Generation old + 1 ∧
    LastTransition new = Some (mkReceipt (AnchorID req) (OperationID req) (RequestHash req) (rBinding new) (Generation new)) ∧
    committed new req (RequestHash req) = true.
Proof.
  intros [Hg Ht _] Htr Hw. destruct Hw as [vf f req v old new H|vf f req v old new H|ev b g evidence pw v old new H].
  - apply attempt_reserve in H as (Hn & _). congruence.
  - apply attempt_commit in H as (t' & target & Hs & _ & _ & _ & Hc & Hmax & Hf & _ & Htc & Hsid & ->).
    rewrite Htr in Hs. simplify_eq. destruct (Ht t' Htr) as (_ & _ & He & _).
    exists req. unfold commit_record, committed. simpl. rewrite u64_small by lia.
    unfold validateFrozen in Hf. case_all; bool_hyps. split_and!; try done.
    by rewrite Htc, !bool_decide_eq_true_2, Z.eqb_refl by done.
  - apply app_record_ok in H as (Hn & _). congruence.
Qed.

(** C28: a superseded owner is rejected for ever.  Once the generation has
    moved on, [CheckBinding] and the application write with the old binding
    and generation fail after every further sequence of writes, also if the
    binding itself comes back. *)
Theorem superseded_owner_rejected old mid new :
  record_ok old → rtc (anchor_write RequestHash) old mid → Generation mid ≠ Generation old →
  rtc (anchor_write RequestHash) mid new →
  (∃ e, CheckBinding new (rBinding old) (Generation old) = Err e) ∧
  (∀ ev v evidence pw, ∃ e, app_record ev (rBinding old) (Generation old) evidence pw new v = Err e).
Proof.
  intros Hok Hom Hne Hmn. assert (Generation old < Generation new) as Hlt.
  { destruct (writes_generation _ _ _ Hok Hom) as [[? _]|?]; [done|].
    destruct (writes_generation _ _ _ (writes_ok _ _ _ Hok Hom) Hmn) as [[-> _]|?]; lia. }
  split.
  - unfold CheckBinding. assert ((Generation new =? Generation old) = false) as -> by (apply Z.eqb_neq; lia). simpl.
    case_all; eauto.
  - intros ev v evidence pw. unfold app_record.
    assert ((Generation new =? Generation old) = false) as -> by (apply Z.eqb_neq; lia). simpl. case_all; eauto.
Qed.
End handover.

(** ** Activate against a store *)

Section activate.
Context {S : Type} `{LawfulBackend S}.
Context (RequestHash : Request → string).
Context (Verifier : Request → AnchorRecord → result anchorError (Binding * bytes)) (format : string).

(** [Activate] refines the atomic writes.  Whatever legal writes others
    interleave, whichever compare-and-swap responses are lost and however the
    call ends, every anchor's record changes by a sequence of atomic writes,
    so its well-formedness is preserved; and a returned receipt is the one
    stored in a record committed for this request. *)
Theorem Activate_refines_writes others meanwhile cancelled req s r s' :
  (∀ i s, rtc (store_step RequestHash) s (others i s)) → (∀ i s, rtc (store_step RequestHash) s (meanwhile i s)) →
  Activate RequestHash Verifier format others meanwhile cancelled req s = (r, s') →
  (∀ id old v, bread s id = Some (old, v) →
     ∃ new v', bread s' id = Some (new, v') ∧ rtc (anchor_write RequestHash) old new ∧
       (record_ok old → record_ok new)) ∧
  (∀ rc, r = Ok rc → ∃ rec v, bread s' (AnchorID req) = Some (rec, v) ∧
     committed rec req (RequestHash req) = true ∧ LastTransition rec = Some rc).
Proof.
  intros Hothers Hmean Ha. split.
  - intros id old v Hr. destruct (store_steps_anchor _ _ _ _ _ _ (activate_steps _ _ _ _ _ _ Hothers Hmean _ _ _ _ Ha) Hr)
      as (new & v' & Hr' & Hw & _). exists new, v'. split_and!; [done|done|]. intros Hok. by eapply writes_ok.
  - intros rc ->. unfold Activate in Ha. destruct (validateRequest _ _); [done|].
    destruct (activate_loop_done _ _ _ _ _ _ Hothers _ _ _ _ _ _ _ Ha) as (rec & v & ? & ? & ? & _). eauto.
Qed.

(** ** Completion *)

Definition idle (_ : nat) (s : S) : S := s.
Definition never (_ : nat) : bool := false.

(** The record is one that the request may take over: complete binding, owned
    by the source, no application write pending, not reserved by another
    request. *)
Definition activatable (req : Request) (rec : AnchorRecord) : Prop :=
  record_ok rec ∧ Version rec = Version1 ∧ EvidenceFormat rec = format ∧
  ClusterID (rBinding rec) = SourceClusterID req ∧ StorageID (rBinding rec) ≠ ""%string ∧
  PendingWrite rec = false ∧ Generation rec < 2 ^ 64 - 1 ∧
  ∀ t, rTransition rec = Some t → trRequest t = req.

(** The record the verifier is asked about: a reserved one itself, an unreserved
    one once the request has reserved it. *)
Definition frozen (req : Request) (rec : AnchorRecord) : AnchorRecord :=
  match rTransition rec with Some _ => rec | None => reservation format rec req end.

(** The verifier accepts it and reproduces its evidence. *)
Definition accepts (req : Request) (rec : AnchorRecord) (target : Binding) : Prop :=
  ClusterID target = TargetClusterID req ∧ StorageID target ≠ ""%string ∧
  Verifier req (frozen req rec) = Ok (target, Evidence rec).

Lemma attempt_committed req rec v rc :
  committed rec req (RequestHash req) = true → LastTransition rec = Some rc → EvidenceFormat rec = format →
  TargetClusterID req ≠ ""%string → StorageID (rBinding rec) ≠ ""%string → v ≠ ""%string →
  attempt RequestHash Verifier format req (RequestHash req) rec v = Done rc.
Proof.
  intros Hc Hl He Ht Hs Hv. unfold attempt. rewrite Hc, Hl. unfold committed in Hc. rewrite Hl in Hc.
  destruct (rTransition rec); [done|]. bool_hyps. rewrite He. unfold is_empty.
  rewrite !(bool_decide_eq_false_2 (_ = ""%string)) by congruence.
  rewrite bool_decide_eq_true_2 by done.
  match goal with H : Version rec = Version1 |- _ => rewrite H end. done.
Qed.

Lemma attempt_reserved req rec v t target :
  activatable req rec → rTransition rec = Some t → accepts req rec target → v ≠ ""%string → SourceClusterID req ≠ ""%string →
  attempt RequestHash Verifier format req (RequestHash req) rec v = Commit (commit_record format rec t req (RequestHash req) target).
Proof.
  intros (Hok & Hver & Hf & Hc & Hsid & Hp & Hg & Ht) Htr (Htc & Hts & Hacc) Hv Hsc. unfold attempt.
  assert (committed rec req (RequestHash req) = false) as ->.
  { unfold committed. rewrite Htr. by destruct (LastTransition rec). }
  destruct (ao_transition _ Hok t Htr) as (E1 & E2 & E3 & _).
  assert (validateFrozen RequestHash rec t (RequestHash req) = None) as Hfrozen.
  { unfold validateFrozen. rewrite (Ht t Htr), E1, E2, E3, Z.eqb_refl, !bool_decide_eq_true_2 by done. done. }
  unfold frozen in Hacc. rewrite Htr in Hacc. rewrite Hver, Hf, Htr, Hp, Hfrozen, Hacc, E3. unfold is_empty. rewrite Hc, Htc.
  rewrite !(bool_decide_eq_false_2 (_ = ""%string)) by congruence.
  destruct (Z.eqb_spec (Generation rec) (2 ^ 64 - 1)); [lia|]. simpl negb. cbv iota.
  by rewrite !bool_decide_eq_true_2 by done.
Qed.

Lemma attempt_unreserved req rec v :
  activatable req rec → rTransition rec = None → committed rec req (RequestHash req) = false →
  v ≠ ""%string → SourceClusterID req ≠ ""%string →
  attempt RequestHash Verifier format req (RequestHash req) rec v = Reserve (reservation format rec req).
Proof.
  intros (Hok & Hver & Hf & Hc & Hsid & Hp & Hg & Ht) Htr Hcom Hv Hsc. unfold attempt.
  rewrite Hcom, Hver, Hf, Htr, Hp. unfold is_empty. rewrite Hc.
  rewrite !(bool_decide_eq_false_2 (_ = ""%string)) by congruence.
  destruct (Z.eqb_spec (Generation rec) (2 ^ 64 - 1)); [lia|]. simpl negb. cbv iota.
  by rewrite !bool_decide_eq_true_2 by done.
Qed.

Lemma reservation_activatable req rec : activatable req rec → activatable req (reservation format rec req).
Proof.
  intros (Hok & Hver & Hf & Hc & Hsid & Hp & Hg & Ht). unfold activatable, reservation. simpl.
  split_and!; try done; [|by intros t [= <-]]. destruct Hok as [H1 H2 H3]. split; simpl; [done| |done].
  intros t [= <-]. simpl. by split_and!.
Qed.

Lemma validateRequest_clusters req :
  validateRequest format req = None →
  SourceClusterID req ≠ ""%string ∧ TargetClusterID req ≠ ""%string ∧ SourceClusterID req ≠ TargetClusterID req.
Proof. unfold validateRequest. intros H1. case_all; unfold is_empty in *; bool_hyps; done. Qed.

Context `{!ReliableBackend S}.

Lemma bcas_reliably s id v r old :
  bread s id = Some (old, v) → ∃ s' v', bcas s id v r = (true, s') ∧ bread s' id = Some (r, v') ∧ v' ≠ ""%string.
Proof.
  intros Hr. pose proof (bcas_reliable s id v r old Hr) as Hok. destruct (bcas s id v r) as [ok s'] eqn:E.
  simpl in Hok. subst ok. exists s'. apply bcas_ok in E as (_ & (v' & ? & ? & _) & _). eauto.
Qed.

(** One undisturbed iteration. *)
Lemma loop_write req s rec v new n i e s1 :
  bread s (AnchorID req) = Some (rec, v) →
  attempt RequestHash Verifier format req (RequestHash req) rec v = Reserve new ∨
  attempt RequestHash Verifier format req (RequestHash req) rec v = Commit new →
  bcas s (AnchorID req) v new = (true, s1) →
  activate_loop RequestHash Verifier format idle idle never req (RequestHash req) (Datatypes.S n) i e s =
  activate_loop RequestHash Verifier format idle idle never req (RequestHash req) n (Datatypes.S i) e s1.
Proof.
  intros Hr Ha Hc. cbn [activate_loop]. change (idle i s) with s. change (idle i s) with s. change (never i) with false. cbv iota. rewrite Hr.
  destruct Ha as [->| ->]; cbv iota; by rewrite Hc.
Qed.

Lemma loop_done req s rec v rc n i e :
  bread s (AnchorID req) = Some (rec, v) →
  attempt RequestHash Verifier format req (RequestHash req) rec v = Done rc →
  activate_loop RequestHash Verifier format idle idle never req (RequestHash req) (Datatypes.S n) i e s = (Ok rc, s).
Proof. intros Hr Ha. simpl. unfold idle, never. by rewrite Hr, Ha. Qed.

(** From a reserved record the loop commits and returns its receipt. *)
Lemma loop_from_reserved req s rec v t target n i e :
  validateRequest format req = None → bread s (AnchorID req) = Some (rec, v) → v ≠ ""%string →
  activatable req rec → rTransition rec = Some t → accepts req rec target → (2 <= n)%nat →
  ∃ s', activate_loop RequestHash Verifier format idle idle never req (RequestHash req) n i e s =
    (Ok (mkReceipt (AnchorID req) (OperationID req) (RequestHash req) target (Generation rec + 1)), s').
Proof.
  intros (Hsrc & Htgt & _)%validateRequest_clusters Hr Hv Hact Htr Hacc Hn.
  destruct n as [|[|n]]; [lia|lia|]. set (new := commit_record format rec t req (RequestHash req) target).
  destruct (bcas_reliably s (AnchorID req) v new rec Hr) as (s1 & v1 & Hc1 & Hr1 & Hv1).
  exists s1. rewrite (loop_write req s rec v new _ _ _ s1 Hr) by (try done; right; by apply attempt_reserved).
  destruct Hacc as (Htc & Hts & _).
  assert (u64 (Generation rec + 1) = Generation rec + 1) as Hg.
  { destruct Hact as ([? _ _] & _ & _ & _ & _ & _ & ? & _). apply u64_small. lia. }
  apply (loop_done req s1 new v1); [done|]. apply attempt_committed; [| |done..].
  - unfold committed, new, commit_record. simpl. by rewrite Htc, !bool_decide_eq_true_2, Z.eqb_refl by done.
  - unfold new, commit_record. simpl. by rewrite Hg.
Qed.

(** C29: [Activate] completes.  Let the request be valid and the store available
    and undisturbed.  From a record that the source cluster owns, with no pending
    write, a generation to spare and no reservation but the request's own, and
    with a verifier that accepts the record as the request froze it, [Activate]
    returns the receipt of the next generation: from the start, and when it
    resumes after a crash that left the request's reservation.  When the commit
    had already been written and its reply was lost, it returns the receipt that
    was written and writes nothing. *)
Theorem Activate_completes req s rec v :
  validateRequest format req = None → bread s (AnchorID req) = Some (rec, v) → v ≠ ""%string →
  (∀ target, activatable req rec → accepts req rec target →
   ∃ s', Activate RequestHash Verifier format idle idle never req s =
     (Ok (mkReceipt (AnchorID req) (OperationID req) (RequestHash req) target (Generation rec + 1)), s')) ∧
  (∀ rc, committed rec req (RequestHash req) = true → LastTransition rec = Some rc →
   EvidenceFormat rec = format → StorageID (rBinding rec) ≠ ""%string →
   Activate RequestHash Verifier format idle idle never req s = (Ok rc, s)).
Proof.
  intros Hvr Hr Hv. unfold Activate. rewrite Hvr. pose proof (validateRequest_clusters _ Hvr) as (Hsrc & Htgt & Hdiff). split.
  2:{ intros rc Hc Hl Hf Hs. apply (loop_done req s rec v); [done|]. by apply attempt_committed. }
  intros target Hact Hacc. pose proof Hact as (_ & _ & _ & Hc & _).
  destruct (rTransition rec) as [t|] eqn:Htr; [by eapply loop_from_reserved; eauto; unfold maxActivateAttempts; lia|].
  assert (committed rec req (RequestHash req) = false) as Hcom.
  { unfold committed. rewrite Htr. destruct (LastTransition rec) as [lt|]; [|done].
    apply not_true_iff_false. intros ?. bool_hyps. congruence. }
  destruct (bcas_reliably s (AnchorID req) v (reservation format rec req) rec Hr) as (s1 & v1 & Hc1 & Hr1 & Hv1).
  unfold maxActivateAttempts. rewrite (loop_write req s rec v _ _ _ _ s1 Hr (or_introl (attempt_unreserved _ _ _ Hact Htr Hcom Hv Hsrc)) Hc1).
  change (Generation rec) with (Generation (reservation format rec req)).
  eapply loop_from_reserved; [done|done|done|by apply reservation_activatable|done| |lia].
  destruct Hacc as (? & ? & Hver). split_and!; [done|done|]. unfold frozen in Hver. by rewrite Htr in Hver.
Qed.

(** [Activate] is idempotent.  Once it has returned a receipt, an
    undisturbed second call returns the same receipt without writing, and
    [Verify] accepts the receipt and no other. *)
Theorem Activate_idempotent others meanwhile cancelled req s rc s' :
  (∀ i s, rtc (store_step RequestHash) s (others i s)) → (∀ i s, rtc (store_step RequestHash) s (meanwhile i s)) →
  (∀ rec v, bread s' (AnchorID req) = Some (rec, v) → v ≠ ""%string ∧ StorageID (rBinding rec) ≠ ""%string) →
  Activate RequestHash Verifier format others meanwhile cancelled req s = (Ok rc, s') →
  Activate RequestHash Verifier format idle idle never req s' = (Ok rc, s') ∧
  (∀ rc', Verify RequestHash format req rc' s' = Ok tt ↔ rc' = rc).
Proof.
  intros Hoth Hmean Hne Ha. unfold Activate in *. destruct (validateRequest format req) eqn:Hv; [done|].
  pose proof (validateRequest_clusters _ Hv) as (_ & Htgt & _).
  destruct (activate_loop_done _ _ _ _ _ _ Hoth _ _ _ _ _ _ _ Ha) as (rec & v & Hr & Hc & Hl & Hf).
  destruct (Hne rec v Hr) as [Hv' Hsid]. split.
  - apply (loop_done req s' rec v); [done|]. by apply attempt_committed.
  - intros rc'. unfold Verify. rewrite Hr, Hc, Hl, Hf. unfold committed in Hc. rewrite Hl in Hc.
    destruct (rTransition rec); [done|]. bool_hyps.
    match goal with H : Version rec = Version1 |- _ => rewrite H end. rewrite bool_decide_eq_true_2 by done. simpl.
    case_bool_decide; simpl; split; congruence.
Qed.
End activate.

(** ** Storage prefixes *)

Lemma append_cons c a t : (String c a +:+ t)%string = String c (a +:+ t)%string.
Proof. done. Qed.

Lemma append_nil t : ("" +:+ t)%string = t.
Proof. done. Qed.

Lemma prefix_spec a s : String.prefix a s = true ↔ ∃ t, s = (a +:+ t)%string.
Proof.
  revert a. induction s as [|c s IH]; intros [|d a]; cbn [String.prefix].
  - split; [by exists ""%string|done].
  - split; [done|]. intros [t ?]. by rewrite append_cons in *.
  - split; [by eexists|done].
  - destruct (Ascii.ascii_dec d c) as [->|Hne].
    + rewrite IH. split; intros [t Ht]; exists t; [by rewrite append_cons, Ht|rewrite append_cons in Ht; congruence].
    + split; [done|]. intros [t Ht]. rewrite append_cons in Ht. congruence.
Qed.

Lemma keys_overlap x y a b :
  (x +:+ "/" +:+ a)%string = (y +:+ "/" +:+ b)%string → overlap x y = true.
Proof.
  intros E. unfold overlap. rewrite !orb_true_iff, bool_decide_eq_true, !prefix_spec.
  revert y E. induction x as [|c x IH]; intros [|d y] E; rewrite ?append_nil, ?append_cons in E.
  - by left; left.
  - injection E as <- _. right. by exists y.
  - injection E as -> _. left. right. by exists x.
  - injection E as <- E. destruct (IH _ E) as [[->|[t ->]]|[t ->]]; [by left; left| |].
    + left. right. by exists t.
    + right. by exists t.
Qed.

Definition no_slash (s : string) : Prop := split_slash s = [s].

Lemma no_slash_cons c s : no_slash (String c s) ↔ c ≠ slash ∧ no_slash s.
Proof.
  unfold no_slash. simpl. case_bool_decide as Hc.
  - split; [|by intros []]. intros E. simplify_eq.
  - destruct (split_slash s) as [|x xs] eqn:E; [by destruct s as [|? ?]; simpl in E; case_all|].
    split; [intros [= -> ->]; done|]. intros [_ [= -> ->]]. done.
Qed.

Lemma split_slash_parts s : Forall no_slash (split_slash s).
Proof.
  induction s as [|c s IH]; simpl; [by constructor|]. case_bool_decide; [by constructor|].
  destruct (split_slash s) as [|x xs]; [by constructor; [apply no_slash_cons|]|].
  inversion IH; subst. constructor; [by apply no_slash_cons|done].
Qed.

Lemma split_join_cons x s : no_slash x → split_slash (x +:+ String slash s)%string = x :: split_slash s.
Proof.
  induction x as [|c x IH]; intros Hx.
  - done.
  - apply no_slash_cons in Hx as [Hc Hx]. rewrite append_cons. simpl.
    by rewrite bool_decide_eq_false_2, IH by done.
Qed.

Lemma split_join l : l ≠ [] → Forall no_slash l → split_slash (join_slash l) = l.
Proof.
  induction l as [|x l IH]; [done|]. intros _ Hall. inversion Hall; subst.
  destruct l as [|y l]; [done|]. simpl. rewrite split_join_cons by done. f_equal. by apply IH.
Qed.

(** What [path.Clean] keeps of an unrooted path: ordinary elements above a
    block of parent references. *)
Definition kept (x : string) : Prop := no_slash x ∧ x ≠ ""%string ∧ x ≠ "."%string.
Definition cleaned (out : list string) : Prop :=
  Forall kept out ∧ ∀ l r, out = l ++ ".."%string :: r → Forall (λ x, x = ".."%string) r.

Lemma clean_step_cleaned out x : no_slash x → cleaned out → cleaned (clean_step false out x).
Proof.
  intros Hx [Hk Hd]. unfold clean_step. destruct (_ || _) eqn:E; [done|]. bool_hyps.
  case_bool_decide as Hdd; [subst x|].
  - destruct out as [|y out'].
    + split; [by repeat constructor|]. intros [|? [|??]] r [= <-]; constructor.
    + case_bool_decide as Hy.
      * subst y. split; [by constructor|]. intros [|z l] r; simpl; [|intros [= <- E]; by apply (Hd l)].
        intros [= <-]. constructor; [done|]. by apply (Hd []).
      * inversion Hk; subst. split; [done|]. intros l r ->. by apply (Hd (y :: l)).
  - split; [by constructor|]. intros [|z l] r; simpl; [congruence|]. intros [= -> E]. by apply (Hd l).
Qed.

Lemma foldl_cleaned xs out : Forall no_slash xs → cleaned out → cleaned (foldl (clean_step false) out xs).
Proof.
  revert out. induction xs as [|x xs IH]; intros out Hxs Hout; [done|]. inversion Hxs; subst. simpl.
  apply IH; [done|]. by apply clean_step_cleaned.
Qed.

Lemma canonical_parts p x :
  canonical p = true → traversal p = false → x ∈ split_slash p → x ≠ ""%string ∧ x ≠ "."%string ∧ x ≠ ".."%string.
Proof.
  unfold canonical, traversal. intros Hc Ht Hx. bool_hyps.
  match goal with H : p = path_Clean p, R : is_rooted p = false |- _ => rename H into Hp; unfold path_Clean in Hp; rewrite R in Hp end.
  destruct (is_empty p); [done|].
  destruct (foldl_cleaned (split_slash p) [] (split_slash_parts p)) as [Hk Hd].
  { split; [constructor|]. intros [|??] ?; done. }
  set (out := foldl (clean_step false) [] (split_slash p)) in *.
  destruct (rev out) as [|y l] eqn:Er; [done|].
  assert (Forall kept (rev out)) as Hkr by by apply Forall_rev. rewrite Er in Hkr.
  assert (x ∈ y :: l) as Hin.
  { rewrite Hp, split_join in Hx; [done|done|]. eapply Forall_impl; [exact Hkr|]. by intros ? [? _]. }
  rewrite Forall_forall in Hkr. destruct (Hkr x Hin) as (_ & ? & ?). split_and!; [done|done|]. intros ->.
  assert (y = ".."%string) as ->.
  { rewrite <-Er in Hin. apply list_elem_of_In, in_rev, list_elem_of_In, list_elem_of_split in Hin as (l1 & l2 & E).
    rewrite E, rev_app_distr in Er. simpl in Er. pose proof (Hd _ _ E) as Hall. apply Forall_rev in Hall.
    destruct (rev l2) as [|z l2']; simpl in Er; [congruence|]. inversion Hall. congruence. }
  destruct l as [|z l]; [done|].
  match goal with H : String.prefix _ p = false |- _ => rewrite Hp in H; cbn in H end.
  assert (String.prefix "../" (".." +:+ String slash (join_slash (z :: l))) = true) as Hpre.
  { apply prefix_spec. by exists (join_slash (z :: l)). }
  cbn in Hpre. congruence.
Qed.

(** A valid request separates the two clusters' storage.  No object key
    under the source prefix is a key under the target prefix, neither prefix
    contains an empty, current or parent directory element, and the clusters
    differ. *)
Theorem valid_request_separates format req :
  validateRequest format req = None →
  SourceClusterID req ≠ TargetClusterID req ∧
  (∀ a b, (SourcePrefix req +:+ "/" +:+ a)%string ≠ (TargetPrefix req +:+ "/" +:+ b)%string) ∧
  (∀ x, x ∈ split_slash (SourcePrefix req) ++ split_slash (TargetPrefix req) →
     x ≠ ""%string ∧ x ≠ "."%string ∧ x ≠ ".."%string).
Proof.
  unfold validateRequest. intros H. do 10 (case_match; [done|]). bool_hyps. split_and!; [done| |].
  - intros a b E. apply keys_overlap in E. congruence.
  - intros x [Hx|Hx]%elem_of_app; (eapply canonical_parts; [| |exact Hx]; done).
Qed.

(** ** A store in memory *)

Record mem := mkMem { cells : gmap string (AnchorRecord * string) }.

#[global] Instance mem_backend : Backend mem := {
  bread s id := cells s !! id;
  bcas s id v r :=
    match cells s !! id with
    | Some (_, v0) => if bool_decide (v0 = v) then (true, mkMem (<[id := (r, v +:+ "+")]> (cells s))) else (false, s)
    | None => (false, s)
    end;
  bstamp v := Z.of_nat (String.length v);
}.

Lemma length_append_plus v : String.length (v +:+ "+") = Datatypes.S (String.length v).
Proof. induction v as [|c v IH]; [done|]. rewrite append_cons. simpl. by rewrite IH. Qed.

#[global] Instance mem_lawful : LawfulBackend mem.
Proof.
  split; intros s id v r s'; simpl; destruct (cells s !! id) as [[old v0]|] eqn:E; [case_bool_decide; [|done]|done|case_bool_decide; [done|]|].
  - intros [= <-]. subst v0. split_and!; [by exists old| |].
    + exists (v +:+ "+")%string. simpl. rewrite lookup_insert_eq. split_and!; [done|by destruct v|].
      rewrite length_append_plus. lia.
    + intros id' Hne. simpl. by rewrite lookup_insert_ne.
  - intros [= <-]. by left.
  - intros [= <-]. by left.
Qed.

#[global] Instance mem_reliable : ReliableBackend mem.
Proof. intros s id v r old. simpl. intros ->. by rewrite bool_decide_eq_true_2. Qed.

(** ** A concrete handover *)

Definition hex64 : string := "00112233445566778899aabbccddeeff00112233445566778899aabbccddeeff".

Definition demo_request : Request :=
  mkRequest "anchor" "op-1" "uid" "blue" "green" "data/blue" "data/green" "members" hex64 hex64
    (mkFork 7 hex64 hex64) (mkMembership MembershipRecordVersion "green" "m" "async").

(** The identifying part of the request stands in for its digest. *)
Definition demo_hash (r : Request) : string := OperationID r +:+ "/" +:+ TargetClusterID r.
Definition demo_verifier (r : Request) (rec : AnchorRecord) : result anchorError (Binding * bytes) :=
  Ok (mkBinding (TargetClusterID r) "storage-green", match rTransition rec with Some t => trEvidence t | None => [] end).

Definition demo_record : AnchorRecord :=
  mkRecord Version1 "test/v1" (mkBinding "blue" "storage-blue") [x01; x02] false 4 None None.
Definition demo_store : mem := mkMem {["anchor"%string := (demo_record, "v"%string)]}.

Definition demo_target : Binding := mkBinding "green" "storage-green".
Definition demo_receipt : Receipt := mkReceipt "anchor" "op-1" "op-1/green" demo_target 5.
Definition demo_final : mem := (Activate demo_hash demo_verifier "test/v1" idle idle never demo_request demo_store).2.

Definition demo_reserved : AnchorRecord := reservation "test/v1" demo_record demo_request.
Definition demo_transition : Transition := mkTransition demo_request (mkBinding "blue" "storage-blue") 4 [x01; x02].
Definition demo_committed : AnchorRecord :=
  commit_record "test/v1" demo_reserved demo_transition demo_request "op-1/green" demo_target.

Lemma demo_record_ok : record_ok demo_record.
Proof. split; simpl; [lia|discriminate|discriminate]. Qed.

Lemma demo_reserves : anchor_write demo_hash demo_record demo_reserved.
Proof. apply (aw_reserve demo_hash demo_verifier "test/v1" demo_request "v"). vm_compute. reflexivity. Qed.

Lemma demo_commits : anchor_write demo_hash demo_reserved demo_committed.
Proof. apply (aw_commit demo_hash demo_verifier "test/v1" demo_request "v"). vm_compute. reflexivity. Qed.

Lemma reservation_freezes_witness :
  ∃ req, demo_hash req = demo_hash demo_request ∧ SourceClusterID req = "blue"%string ∧
    ClusterID (rBinding demo_committed) = TargetClusterID req ∧ StorageID (rBinding demo_committed) ≠ ""%string ∧
    Evidence demo_committed = Evidence demo_reserved ∧ PendingWrite demo_committed = false ∧
    rTransition demo_committed = None ∧ Generation demo_committed = Generation demo_reserved + 1 ∧
    LastTransition demo_committed = Some (mkReceipt (AnchorID req) (OperationID req) (demo_hash req)
      (rBinding demo_committed) (Generation demo_committed)) ∧
    committed demo_committed req (demo_hash req) = true.
Proof.
  apply (reservation_freezes demo_hash demo_reserved demo_transition demo_committed).
  - apply (write_ok demo_hash demo_record); [exact demo_record_ok|exact demo_reserves].
  - vm_compute. reflexivity.
  - exact demo_commits.
Defined.

Lemma superseded_owner_rejected_witness :
  (∃ e, CheckBinding demo_committed (rBinding demo_record) (Generation demo_record) = Err e) ∧
  (∀ ev v evidence pw, ∃ e, app_record ev (rBinding demo_record) (Generation demo_record) evidence pw demo_committed v = Err e).
Proof.
  apply (superseded_owner_rejected demo_hash demo_record demo_committed demo_committed).
  - exact demo_record_ok.
  - eapply rtc_l; [exact demo_reserves|]. apply rtc_once. exact demo_commits.
  - vm_compute. discriminate.
  - apply rtc_refl.
Defined.

Lemma idle_writes i (s : mem) : rtc (store_step demo_hash) s (idle i s).
Proof. apply rtc_refl. Qed.

Lemma Activate_refines_writes_witness :
  (∀ id old v, bread demo_store id = Some (old, v) →
     ∃ new v', bread demo_final id = Some (new, v') ∧ rtc (anchor_write demo_hash) old new ∧
       (record_ok old → record_ok new)) ∧
  (∀ rc, Ok demo_receipt = @Ok anchorError _ rc → ∃ rec v, bread demo_final "anchor" = Some (rec, v) ∧
     committed rec demo_request (demo_hash demo_request) = true ∧ LastTransition rec = Some rc).
Proof.
  apply (Activate_refines_writes demo_hash demo_verifier "test/v1" idle idle never demo_request demo_store
    (Ok demo_receipt) demo_final).
  - exact idle_writes.
  - exact idle_writes.
  - vm_compute. reflexivity.
Defined.

Definition demo_lost_reply : mem := mkMem {["anchor"%string := (demo_committed, "v"%string)]}.

Lemma Activate_completes_witness :
  (∃ s', Activate demo_hash demo_verifier "test/v1" idle idle never demo_request demo_store = (Ok demo_receipt, s')) ∧
  Activate demo_hash demo_verifier "test/v1" idle idle never demo_request demo_lost_reply = (Ok demo_receipt, demo_lost_reply).
Proof.
  split.
  - apply (Activate_completes demo_hash demo_verifier "test/v1" demo_request demo_store demo_record "v").
    + vm_compute. reflexivity.
    + vm_compute. reflexivity.
    + discriminate.
    + split; [exact demo_record_ok|]. repeat split; try reflexivity; discriminate.
    + split; [reflexivity|]. split; [discriminate|reflexivity].
  - apply (Activate_completes demo_hash demo_verifier "test/v1" demo_request demo_lost_reply demo_committed "v").
    + vm_compute. reflexivity.
    + vm_compute. reflexivity.
    + discriminate.
    + vm_compute. reflexivity.
    + vm_compute. reflexivity.
    + vm_compute. reflexivity.
    + discriminate.
Defined.

Lemma Activate_idempotent_witness :
  Activate demo_hash demo_verifier "test/v1" idle idle never demo_request demo_final = (Ok demo_receipt, demo_final) ∧
  (∀ rc', Verify demo_hash "test/v1" demo_request rc' demo_final = Ok tt ↔ rc' = demo_receipt).
Proof.
  apply (Activate_idempotent demo_hash demo_verifier "test/v1" idle idle never demo_request demo_store demo_receipt demo_final).
  - exact idle_writes.
  - exact idle_writes.
  - intros rec v Hr. vm_compute in Hr. injection Hr as <- <-. split; discriminate.
  - vm_compute. reflexivity.
Defined.

Lemma valid_request_separates_witness :
  SourceClusterID demo_request ≠ TargetClusterID demo_request ∧
  (∀ a b, (SourcePrefix demo_request +:+ "/" +:+ a)%string ≠ (TargetPrefix demo_request +:+ "/" +:+ b)%string) ∧
  (∀ x, x ∈ split_slash (SourcePrefix demo_request) ++ split_slash (TargetPrefix demo_request) →
     x ≠ ""%string ∧ x ≠ "."%string ∧ x ≠ ".."%string).
Proof. apply (valid_request_separates "test/v1" demo_request). vm_compute. reflexivity. Defined.
