(* ===== verification/Schedule.v ===== *)
(** * Configurations and the leader schedule (pkg/quepaxa/core.go)

    Which voter configuration certifies a slot, and in which order its members
    lead: a fixed rotation during the exploration epochs, then the order
    decided in a control slot one epoch earlier.  Both modes of the code, the
    fixed configuration and the configuration history, are modelled.

    The JSON payload of a schedule value is read by a parameter
    [decodeSchedule]; [sort.SliceStable] is Go's insertion sort, which is what
    it runs on up to 20 elements. *)

From stdpp Require Import gmap list sorting.
From S2P Require Import Prelude Protocol Cluster.

Definition leaderEpochSize : Z := 16.

Record configEpoch := mkEpoch { start : Slot; cluster : Cluster }.

Record leaderTiming := mkTiming { average : Z; samples : Z }.

(** What the schedule functions read of [Core]. *)
Record schedule := mkSchedule {
  config : Cluster;
  reconfigEnabled : bool;
  configHistory : list configEpoch;
  sfloor : Slot;
  sdecided : gmap Slot bytes;
  baseLeaderEpoch : Z;
  baseLeaderOrder : list NodeID;
  baseFollowingEpoch : Z;
  baseFollowingOrder : list NodeID;
}.

(** ** Configurations *)

(** The loop stops at the first epoch that starts after the slot. *)
Fixpoint cluster_at (history : list configEpoch) (slot : Slot) (current : Cluster) : Cluster :=
  match history with
  | [] => current
  | e :: rest => if slot <? start e then current else cluster_at rest slot (cluster e)
  end.

Definition clusterForSlot (s : schedule) (slot : Slot) : Cluster :=
  cluster_at (configHistory s) slot (config s).

Fixpoint epoch_start_at (history : list configEpoch) (slot : Slot) (current : Slot) : Slot :=
  match history with
  | [] => current
  | e :: rest => if slot <? start e then current else epoch_start_at rest slot (start e)
  end.

Definition configEpochStart (s : schedule) (slot : Slot) : Slot := epoch_start_at (configHistory s) slot 1.

(** ** Epochs *)

Definition leaderEpoch (slot : Slot) : Z := if slot =? 0 then 0 else (slot - 1) / leaderEpochSize.
Definition leaderEpochFirst (epoch : Z) : Slot := epoch * leaderEpochSize + 1.

Definition exploration (c : Cluster) : Z := 2 * Z.of_nat (length (Members c)) + 1.
Definition explorationEpochs (s : schedule) : Z := exploration (config s).

Definition isLeaderScheduleSlot (s : schedule) (slot : Slot) : bool :=
  if reconfigEnabled s then
    let first := configEpochStart s slot in
    let epoch := (slot - first) / leaderEpochSize in
    (exploration (clusterForSlot s slot) <=? epoch + 1) && (slot =? first + epoch * leaderEpochSize)
  else
    let epoch := leaderEpoch slot in
    (explorationEpochs s <=? epoch + 1) && (slot =? leaderEpochFirst epoch).

Definition leaderEpochKey (s : schedule) (slot : Slot) : Z :=
  if reconfigEnabled s then
    let first := configEpochStart s slot in
    first + (slot - first) / leaderEpochSize * leaderEpochSize
  else leaderEpoch slot.

(** ** Orders *)

Definition rotateMembers (members : list Member) (first : Z) : list NodeID :=
  (λ offset, match members !! Z.to_nat ((first + Z.of_nat offset) mod Z.of_nat (length members)) with
             | Some m => ID m
             | None => []
             end) <$> seq 0 (length members).

Inductive scheduleError := ErrScheduleUnavailable | ErrScheduleInvalid.

Definition leaderScheduleMagic : bytes := [x51; x4c; x44; x52; x00].

Definition HasPrefix (value magic : bytes) : bool := bool_decide (take (length magic) value = magic).

Section schedule.
(** The JSON array of node IDs after the magic. *)
Context (decodeSchedule : bytes → option (list NodeID)).

(** [None]: not a schedule; [Some (Err _)]: a malformed one. *)
Definition DecodeLeaderSchedule (value : bytes) : option (result scheduleError (list NodeID)) :=
  if negb (HasPrefix value leaderScheduleMagic) then None
  else
    match decodeSchedule (drop (length leaderScheduleMagic) value) with
    | Some [] | None => Some (Err ErrScheduleInvalid)
    | Some members => Some (Ok members)
    end.

Definition decided_order (c : Cluster) (value : bytes) : result scheduleError (list NodeID) :=
  match DecodeLeaderSchedule value with
  | Some (Ok order) => if validateLeaderSchedule c order then Ok order else Err ErrScheduleInvalid
  | _ => Err ErrScheduleInvalid
  end.

Definition leaderOrder (s : schedule) (slot : Slot) : result scheduleError (list NodeID) :=
  if reconfigEnabled s then
    let c := clusterForSlot s slot in
    let first := configEpochStart s slot in
    let epoch := (slot - first) / leaderEpochSize in
    if epoch <? exploration c then Ok (rotateMembers (Members c) (epoch mod Z.of_nat (length (Members c))))
    else
      let controlSlot := first + (epoch - 1) * leaderEpochSize in
      match sdecided s !! controlSlot with
      | None =>
          let key := leaderEpochKey s slot in
          if (controlSlot <=? sfloor s) && (key =? baseLeaderEpoch s) && validateLeaderSchedule c (baseLeaderOrder s)
          then Ok (baseLeaderOrder s)
          else if (controlSlot <=? sfloor s) && (key =? baseFollowingEpoch s) &&
                  validateLeaderSchedule c (baseFollowingOrder s)
          then Ok (baseFollowingOrder s)
          else Err ErrScheduleUnavailable
      | Some value => decided_order c value
      end
  else
    let epoch := leaderEpoch slot in
    if epoch <? explorationEpochs s
    then Ok (rotateMembers (Members (config s)) (epoch mod Z.of_nat (length (Members (config s)))))
    else
      let controlSlot := leaderEpochFirst (epoch - 1) in
      match sdecided s !! controlSlot with
      | None =>
          if (epoch =? baseLeaderEpoch s) && negb (bool_decide (baseLeaderOrder s = [])) then Ok (baseLeaderOrder s)
          else if (epoch =? baseFollowingEpoch s) && negb (bool_decide (baseFollowingOrder s = []))
          then Ok (baseFollowingOrder s)
          else Err ErrScheduleUnavailable
      | Some value => decided_order (config s) value
      end.

(** Go's insertion sort: each element sinks from the end of the sorted prefix
    while it is less than its left neighbour. *)
Fixpoint sink {A} (less : A → A → bool) (x : A) (prefix : list A) : list A :=
  match prefix with
  | [] => [x]
  | y :: rest => if less x y then y :: sink less x rest else x :: prefix
  end.
Definition SliceStable {A} (less : A → A → bool) (l : list A) : list A :=
  rev (foldl (λ acc x, sink less x acc) [] l).

Definition position (order : list NodeID) (id : NodeID) : nat :=
  match list_find (λ x, x = id) (rev order) with
  | Some (i, _) => length order - 1 - i
  | None => 0
  end%nat.

Definition less_timing (timings : gmap NodeID leaderTiming) (order : list NodeID) (a b : NodeID) : bool :=
  let by_position := Nat.ltb (position order a) (position order b) in
  match timings !! a, timings !! b with
  | Some l, Some r =>
      if (samples l =? 0) || (samples r =? 0) then by_position
      else if average l =? average r then by_position
      else average l <? average r
  | _, _ => by_position
  end.

Definition calculateLeaderSchedule (s : schedule) (timings : gmap NodeID leaderTiming) (slot : Slot)
    : result scheduleError (list NodeID) :=
  match leaderOrder s slot with
  | Err e => Err e
  | Ok order => Ok (SliceStable (less_timing timings order) order)
  end.

(** The slot up to which a proposer waits before it needs the order. *)
Definition scheduleWait (s : schedule) (slot : Slot) : option Slot :=
  if reconfigEnabled s then
    let first := configEpochStart s slot in
    let epoch := (slot - first) / leaderEpochSize in
    if epoch <? exploration (clusterForSlot s slot) then None
    else Some (first + (epoch - 1) * leaderEpochSize)
  else
    let epoch := leaderEpoch slot in
    if epoch <? explorationEpochs s then None else Some (leaderEpochFirst (epoch - 1)).

Definition checkpointEpoch (s : schedule) (index : Slot) : Z * Slot * Z :=
  let first := if reconfigEnabled s then configEpochStart s (index + 1) else 1 in
  let c := if reconfigEnabled s then clusterForSlot s (index + 1) else config s in
  ((index + 1 - first) / leaderEpochSize, first, exploration c).

Definition validateCheckpointLeaderOrders (s : schedule) (index : Slot) (next following : list NodeID) : bool :=
  let c := clusterForSlot s (index + 1) in
  if negb (validateLeaderSchedule c next) then false
  else
    let '(epoch, first, expl) := checkpointEpoch s index in
    if (expl <=? epoch + 1) && (first + epoch * leaderEpochSize <=? index)
    then validateLeaderSchedule c following
    else bool_decide (following = []).

Definition checkpointLeaderOrders (s : schedule) (index : Slot)
    : result scheduleError (list NodeID * list NodeID) :=
  let! next := leaderOrder s (index + 1) in
  let '(epoch, first, expl) := checkpointEpoch s index in
  if (epoch + 1 <? expl) || (index <? first + epoch * leaderEpochSize) then Ok (next, [])
  else
    let! following := leaderOrder s (first + (epoch + 1) * leaderEpochSize) in
    Ok (next, following).
End schedule.
