(* ===== verification/ScheduleProofs.v ===== *)
(** * Properties of the leader schedule

    Every order the schedule yields is a permutation of the voters in charge;
    the exploration epochs give every voter its turns; the order of a slot is
    fixed by a control slot at least one pipeline length earlier. *)

From stdpp Require Import gmap list sorting.
From S2P Require Import Prelude Protocol Cluster Schedule.

(** ** Rotation and sorting permute *)

Lemma rotate_spec members k :
  (k < length members)%nat →
  rotateMembers members (Z.of_nat k) = ID <$> (drop k members ++ take k members).
Proof.
  intros Hk. unfold rotateMembers. apply list_eq. intros j. rewrite !list_lookup_fmap.
  destruct (decide (j < length members)%nat) as [Hj|Hj].
  - rewrite lookup_seq_lt by done. simpl.
    destruct (decide (j < length members - k)%nat) as [Hjk|Hjk].
    + rewrite lookup_app_l by (rewrite length_drop; lia). rewrite lookup_drop.
      rewrite Z.mod_small by lia. replace (Z.to_nat (Z.of_nat k + Z.of_nat j)) with (k + j)%nat by lia.
      destruct (members !! (k + j)%nat) eqn:E; [done|]. apply lookup_ge_None in E. lia.
    + rewrite lookup_app_r by (rewrite length_drop; lia). rewrite length_drop.
      rewrite lookup_take_lt by lia.
      replace (Z.to_nat ((Z.of_nat k + Z.of_nat j) mod Z.of_nat (length members)))
        with (j - (length members - k))%nat.
      * destruct (members !! (j - (length members - k))%nat) eqn:E; [done|]. apply lookup_ge_None in E. lia.
      * rewrite <-(Z.mod_unique_pos (Z.of_nat k + Z.of_nat j) (Z.of_nat (length members)) 1
          (Z.of_nat k + Z.of_nat j - Z.of_nat (length members))); lia.
  - rewrite lookup_seq_ge by lia. simpl. symmetry. apply fmap_None, lookup_ge_None.
    rewrite length_app, length_drop, length_take. lia.
Qed.

Lemma rotate_permutes members k :
  members ≠ [] → rotateMembers members (k mod Z.of_nat (length members)) ≡ₚ ID <$> members.
Proof.
  intros Hne. assert (0 < Z.of_nat (length members)) as Hn by (destruct members; simpl; [done|lia]).
  pose proof (Z.mod_pos_bound k _ Hn) as Hk.
  rewrite <-(Z2Nat.id (k mod _)), rotate_spec by lia. apply fmap_Permutation.
  rewrite (Permutation_app_comm (drop _ _)). by rewrite take_drop.
Qed.

Lemma sink_permutes {A} (less : A → A → bool) x l : sink less x l ≡ₚ x :: l.
Proof.
  induction l as [|y l IH]; simpl; [done|]. destruct (less x y); [|done].
  rewrite IH. constructor.
Qed.

Lemma SliceStable_permutes {A} (less : A → A → bool) l : SliceStable less l ≡ₚ l.
Proof.
  unfold SliceStable. rewrite <-Permutation_rev.
  assert (∀ acc, foldl (λ acc x, sink less x acc) acc l ≡ₚ acc ++ l) as H; [|by rewrite H].
  induction l as [|x l IH]; intros acc; simpl; [by rewrite app_nil_r|].
  rewrite IH, sink_permutes. by rewrite <-Permutation_middle.
Qed.

(** ** Configuration lookups *)

Fixpoint ascending (prev : Slot) (history : list configEpoch) : Prop :=
  match history with
  | [] => True
  | e :: rest => prev <= start e ∧ ascending (start e) rest
  end.

Lemma epoch_start_ge history slot cur : ascending cur history → cur <= epoch_start_at history slot cur.
Proof.
  revert cur. induction history as [|e rest IH]; intros cur; simpl; [lia|].
  intros [Hlt Hasc]. destruct (slot <? start e); [lia|]. specialize (IH _ Hasc). lia.
Qed.

Lemma epoch_start_le history slot cur : cur <= slot → epoch_start_at history slot cur <= slot.
Proof.
  revert cur. induction history as [|e rest IH]; intros cur Hcur; simpl; [done|].
  destruct (Z.ltb_spec slot (start e)); [done|]. by apply IH.
Qed.

(** Slots of one configuration epoch share its start and its cluster. *)
Lemma same_epoch history slot slot' cur c :
  ascending cur history → epoch_start_at history slot cur <= slot' <= slot →
  epoch_start_at history slot' cur = epoch_start_at history slot cur ∧
  cluster_at history slot' c = cluster_at history slot c.
Proof.
  revert cur c. induction history as [|e rest IH]; intros cur c; simpl; [done|].
  intros [_ Hasc]. destruct (Z.ltb_spec slot (start e)) as [Hs|Hs].
  - intros H. destruct (Z.ltb_spec slot' (start e)); [done|lia].
  - intros H. pose proof (epoch_start_ge rest slot _ Hasc).
    destruct (Z.ltb_spec slot' (start e)); [lia|]. by apply IH.
Qed.

(** ** Well-formed schedules *)

Definition wf_clusters (s : schedule) : Prop :=
  wf_cluster (config s) ∧ Forall (λ e, wf_cluster (cluster e)) (configHistory s).

(** What [NewCore] and the installation of a base guarantee. *)
Record wf_schedule (s : schedule) : Prop := {
  ws_clusters : wf_clusters s;
  ws_history : ascending 1 (configHistory s);
  ws_base : reconfigEnabled s = false →
    Forall (λ o, o = [] ∨ validateLeaderSchedule (config s) o = true) [baseLeaderOrder s; baseFollowingOrder s];
}.

(** The configuration in charge of a slot, and where its epochs start. *)
Definition charge (s : schedule) (slot : Slot) : Cluster :=
  if reconfigEnabled s then clusterForSlot s slot else config s.
Definition origin (s : schedule) (slot : Slot) : Slot :=
  if reconfigEnabled s then configEpochStart s slot else 1.

Lemma cluster_at_wf history slot c :
  wf_cluster c → Forall (λ e, wf_cluster (cluster e)) history → wf_cluster (cluster_at history slot c).
Proof.
  revert c. induction history as [|e rest IH]; intros c Hc Hall; simpl; [done|].
  inversion Hall; subst. destruct (slot <? start e); [done|]. by apply IH.
Qed.

Lemma charge_wf s slot : wf_clusters s → wf_cluster (charge s slot).
Proof. intros [Hc Hh]. unfold charge. destruct (reconfigEnabled s); [|done]. by apply cluster_at_wf. Qed.

Section proofs.
Context (decodeSchedule : bytes → option (list NodeID)).

Lemma decided_order_valid c value order :
  decided_order decodeSchedule c value = Ok order → validateLeaderSchedule c order = true.
Proof. unfold decided_order. intros H. case_all; done. Qed.

Lemma leaderOrder_permutes s slot order :
  wf_schedule s → 0 < slot → leaderOrder decodeSchedule s slot = Ok order →
  order ≡ₚ member_ids (charge s slot).
Proof.
  intros [Hcl Hh Hb] Hslot. pose proof (charge_wf s slot Hcl) as [Hnd Hne].
  assert (∀ o, validateLeaderSchedule (charge s slot) o = true → o ≡ₚ member_ids (charge s slot)) as Hv
    by (intros; by apply validateLeaderSchedule_spec).
  unfold leaderOrder. unfold charge in *. destruct (reconfigEnabled s).
  - destruct (_ <? _); [intros [= <-]; by apply rotate_permutes|].
    destruct (sdecided s !! _) as [b|]; [intros H; by apply Hv, (decided_order_valid _ b)|].
    destruct (_ && _) eqn:E1; [intros [= <-]; bool_hyps; by apply Hv|].
    destruct (_ && _ && validateLeaderSchedule _ (baseFollowingOrder s)) eqn:E2; [|done].
    intros [= <-]; bool_hyps; by apply Hv.
  - destruct (_ <? _); [intros [= <-]; by apply rotate_permutes|].
    destruct (sdecided s !! _) as [b|]; [intros H; by apply Hv, (decided_order_valid _ b)|].
    specialize (Hb eq_refl). apply Forall_cons in Hb as [Hb1 [Hb2 _]%Forall_cons].
    destruct (_ && _) eqn:E1; [intros [= <-]; bool_hyps; destruct Hb1; [done|by apply Hv]|].
    destruct ((_ =? baseFollowingEpoch s) && _) eqn:E2; [|done].
    intros [= <-]; bool_hyps; destruct Hb2; [done|by apply Hv].
Qed.

(** Every leader order is a permutation of the voters in charge of the
    slot, and so is the reordering by measured epoch times that a proposer
    offers in a control slot, which every replica therefore accepts as a valid
    schedule. *)
Theorem leader_orders_valid s timings slot order :
  wf_schedule s → 0 < slot → leaderOrder decodeSchedule s slot = Ok order →
  validateLeaderSchedule (charge s slot) order = true ∧
  ∃ next, calculateLeaderSchedule decodeSchedule s timings slot = Ok next ∧
    validateLeaderSchedule (charge s slot) next = true.
Proof.
  intros Hwf Hslot Ho. pose proof (leaderOrder_permutes _ _ _ Hwf Hslot Ho) as Hp.
  destruct (charge_wf s slot (ws_clusters _ Hwf)) as [Hnd _]. split; [by apply validateLeaderSchedule_spec|].
  unfold calculateLeaderSchedule. rewrite Ho. eexists. split; [done|]. apply validateLeaderSchedule_spec; [done|].
  by rewrite SliceStable_permutes.
Qed.

(** ** Exploration *)

Lemma head_rotate members k m :
  members !! k = Some m → head (rotateMembers members (Z.of_nat k)) = Some (ID m).
Proof.
  intros Hm. pose proof (lookup_lt_Some _ _ _ Hm). rewrite rotate_spec by done.
  by rewrite (drop_S _ m) by done.
Qed.

(** Exploration is fair.  In a fixed configuration of [n] voters, voter
    number [i] leads every slot of epochs [i] and [i + n], so each voter leads
    two whole epochs before the first measured schedule takes effect. *)
Theorem exploration_fair s i m e slot :
  reconfigEnabled s = false → Members (config s) !! i = Some m →
  e = Z.of_nat i ∨ e = Z.of_nat i + Z.of_nat (length (Members (config s))) →
  leaderEpochFirst e <= slot < leaderEpochFirst (e + 1) →
  ∃ order, leaderOrder decodeSchedule s slot = Ok order ∧ head order = Some (ID m) ∧ e < explorationEpochs s.
Proof.
  intros Hr Hm He Hslot. pose proof (lookup_lt_Some _ _ _ Hm) as Hi.
  unfold leaderEpochFirst, leaderEpochSize in Hslot. unfold leaderOrder. rewrite Hr.
  assert (leaderEpoch slot = e) as Hep.
  { unfold leaderEpoch, leaderEpochSize. destruct (Z.eqb_spec slot 0); [lia|]. symmetry.
    apply (Z.div_unique_pos _ _ _ (slot - 1 - 16 * e)); lia. }
  rewrite Hep. assert (e < explorationEpochs s) as Hlt by (unfold explorationEpochs, exploration; lia).
  destruct (Z.ltb_spec e (explorationEpochs s)); [|lia]. eexists. split; [done|]. split; [|done].
  assert (e mod Z.of_nat (length (Members (config s))) = Z.of_nat i) as ->.
  { destruct He as [->| ->]; [apply Z.mod_small; lia|].
    rewrite <-(Z.mod_unique_pos (Z.of_nat i + Z.of_nat (length (Members (config s)))) (Z.of_nat (length (Members (config s)))) 1
      (Z.of_nat i)); lia. }
  by apply head_rotate.
Qed.

(** ** Control slots *)

Lemma leaderEpoch_origin slot : 0 < slot → leaderEpoch slot = (slot - 1) / leaderEpochSize.
Proof. intros H. unfold leaderEpoch. destruct (Z.eqb_spec slot 0); [lia|done]. Qed.

(** The order of a slot is fixed in time.  Once exploration is over, the
    slot a proposer waits for is a control slot of the same configuration, at
    least sixteen and fewer than thirty-two slots back, so outside the pipeline
    of sixteen undecided slots; when it is decided, its value alone
    determines the order. *)
Theorem control_slot_in_time s slot w :
  wf_schedule s → 0 < slot → scheduleWait s slot = Some w →
  isLeaderScheduleSlot s w = true ∧ charge s w = charge s slot ∧ w + 16 <= slot < w + 32 ∧
  (∀ value, sdecided s !! w = Some value →
     leaderOrder decodeSchedule s slot = decided_order decodeSchedule (charge s slot) value).
Proof.
  intros [_ Hh _] Hslot. unfold scheduleWait, leaderOrder, isLeaderScheduleSlot, charge.
  destruct (reconfigEnabled s).
  - set (first := configEpochStart s slot). set (epoch := (slot - first) / leaderEpochSize).
    destruct (Z.ltb_spec epoch (exploration (clusterForSlot s slot))) as [|He]; [done|]. intros [= <-].
    assert (1 <= epoch) as He1 by (unfold exploration in He; lia).
    pose proof (Z.div_mod (slot - first) leaderEpochSize) as Hdm.
    pose proof (Z.mod_pos_bound (slot - first) leaderEpochSize) as Hmod.
    fold epoch in Hdm. unfold leaderEpochSize in *. set (w := first + (epoch - 1) * 16).
    destruct (same_epoch (configHistory s) slot w 1 (config s) Hh) as [Hs Hc].
    { change (epoch_start_at (configHistory s) slot 1) with first. subst w. lia. }
    unfold configEpochStart, clusterForSlot in *. rewrite Hs, Hc. fold first.
    assert ((w - first) / 16 = epoch - 1) as Hwe.
    { subst w. replace (first + (epoch - 1) * 16 - first) with ((epoch - 1) * 16) by lia. by apply Z.div_mul. }
    rewrite Hwe. split_and!; [|done|subst w; lia|subst w; lia|by intros value ->].
    subst w. apply andb_true_iff. split; [apply Z.leb_le; lia|apply Z.eqb_refl].
  - rewrite !leaderEpoch_origin by done. set (epoch := (slot - 1) / leaderEpochSize).
    destruct (Z.ltb_spec epoch (explorationEpochs s)) as [|He]; [done|]. intros [= <-].
    assert (1 <= epoch) as He1 by (unfold explorationEpochs, exploration in He; lia).
    pose proof (Z.div_mod (slot - 1) leaderEpochSize) as Hdm.
    pose proof (Z.mod_pos_bound (slot - 1) leaderEpochSize) as Hmod. fold epoch in Hdm.
    unfold leaderEpochFirst in *. rewrite leaderEpoch_origin by (unfold leaderEpochSize; lia).
    unfold leaderEpochSize in *.
    replace ((epoch - 1) * 16 + 1 - 1) with ((epoch - 1) * 16) by lia. rewrite Z.div_mul by lia.
    split_and!; [|done|lia|lia|by intros value ->].
    apply andb_true_iff. split; [apply Z.leb_le; lia|apply Z.eqb_refl].
Qed.

(** ** Checkpoint orders *)

(** Checkpoints carry valid orders.  When the slots up to the next leader
    epoch belong to one configuration, the pair of orders a node computes for
    a checkpoint passes the validation every other node applies to it. *)
Theorem checkpoint_orders_valid s index next following :
  wf_schedule s → 0 <= index →
  (∀ slot, index < slot <= index + 16 → charge s slot = clusterForSlot s (index + 1)) →
  checkpointLeaderOrders decodeSchedule s index = Ok (next, following) →
  validateCheckpointLeaderOrders s index next following = true.
Proof.
  intros Hwf Hi Hsame. unfold checkpointLeaderOrders, validateCheckpointLeaderOrders.
  assert (∀ slot o, index < slot <= index + 16 → leaderOrder decodeSchedule s slot = Ok o →
    validateLeaderSchedule (clusterForSlot s (index + 1)) o = true) as Hvalid.
  { intros slot o Hs Ho. rewrite <-(Hsame slot Hs). apply validateLeaderSchedule_spec.
    - apply (charge_wf s slot (ws_clusters _ Hwf)).
    - apply leaderOrder_permutes; [done|lia|done]. }
  destruct (leaderOrder decodeSchedule s (index + 1)) as [o|e] eqn:Ho; [|done]. cbn [rbind].
  assert (validateLeaderSchedule (clusterForSlot s (index + 1)) o = true) as Hnext by (apply (Hvalid (index + 1)); [lia|done]).
  destruct (checkpointEpoch s index) as [[epoch first] expl] eqn:Hep.
  destruct (_ || _) eqn:Hb.
  - intros [= <- <-]. rewrite Hnext. simpl negb. cbv iota.
        assert ((expl <=? epoch + 1) && (first + epoch * leaderEpochSize <=? index) = false) as ->; [|done].
    apply andb_false_iff. apply orb_true_iff in Hb as [?|?]; bool_hyps; [left|right]; apply Z.leb_gt; lia.
  - bool_hyps. destruct (leaderOrder _ s (first + _)) as [f|e] eqn:Hf; [|done]. intros [= <- <-]. rewrite Hnext. simpl negb. cbv iota.
    assert ((expl <=? epoch + 1) && (first + epoch * leaderEpochSize <=? index) = true) as ->.
    { apply andb_true_iff. split; apply Z.leb_le; lia. }
    apply (Hvalid (first + (epoch + 1) * leaderEpochSize)); [|done].
    unfold checkpointEpoch in Hep. injection Hep as Hdiv Hfirst _. rewrite Hfirst in Hdiv.
    pose proof (Z.div_mod (index + 1 - first) leaderEpochSize) as Hdm.
    pose proof (Z.mod_pos_bound (index + 1 - first) leaderEpochSize) as Hmod. rewrite Hdiv in Hdm.
    unfold leaderEpochSize in *. lia.
Qed.
End proofs.

(** ** A concrete schedule: three voters, the order decided in slot 97 *)

Definition voter (b : byte) : Member := mkMember [b] [] [] [] [] [].
Definition three : Cluster := mkCluster 1 [voter x01; voter x02; voter x03].
Definition one_byte_ids (v : bytes) : option (list NodeID) := Some ((λ b, [b]) <$> v).
Definition demo_schedule : schedule :=
  mkSchedule three false [mkEpoch 1 three] 0 {[97 := leaderScheduleMagic ++ [x02; x01; x03]]} 0 [] 0 [].
Definition demo_timings : gmap NodeID leaderTiming :=
  {[ [x01] := mkTiming 9 2; [x02] := mkTiming 7 2; [x03] := mkTiming 5 2 ]}.

Lemma three_wf : wf_cluster three.
Proof. split; [|done]. by apply (bool_decide_eq_true_1 (NoDup (member_ids three))). Qed.

Lemma demo_schedule_wf : wf_schedule demo_schedule.
Proof.
  split; [split; [exact three_wf|apply Forall_singleton; exact three_wf]|split; [simpl; lia|done]|].
  intros _. repeat constructor; by left.
Qed.

Lemma leader_orders_valid_witness :
  validateLeaderSchedule three [[x02]; [x01]; [x03]] = true ∧
  ∃ next, calculateLeaderSchedule one_byte_ids demo_schedule demo_timings 113 = Ok next ∧
    validateLeaderSchedule three next = true.
Proof.
  apply (leader_orders_valid one_byte_ids demo_schedule demo_timings 113 [[x02]; [x01]; [x03]]).
  - exact demo_schedule_wf.
  - lia.
  - vm_compute. reflexivity.
Defined.

Lemma exploration_fair_witness :
  ∃ order, leaderOrder one_byte_ids demo_schedule 70 = Ok order ∧ head order = Some [x02] ∧
    4 < explorationEpochs demo_schedule.
Proof.
  apply (exploration_fair one_byte_ids demo_schedule 1 (voter x02) 4 70).
  - reflexivity.
  - reflexivity.
  - right. reflexivity.
  - vm_compute. split; congruence.
Defined.

Lemma control_slot_in_time_witness :
  isLeaderScheduleSlot demo_schedule 97 = true ∧ charge demo_schedule 97 = charge demo_schedule 113 ∧
  97 + 16 <= 113 < 97 + 32 ∧
  (∀ value, sdecided demo_schedule !! 97 = Some value →
     leaderOrder one_byte_ids demo_schedule 113 = decided_order one_byte_ids (charge demo_schedule 113) value).
Proof.
  apply (control_slot_in_time one_byte_ids demo_schedule 113 97).
  - exact demo_schedule_wf.
  - lia.
  - vm_compute. reflexivity.
Defined.

Lemma checkpoint_orders_valid_witness :
  validateCheckpointLeaderOrders demo_schedule 100 [[x01]; [x02]; [x03]] [[x02]; [x01]; [x03]] = true.
Proof.
  apply (checkpoint_orders_valid one_byte_ids demo_schedule 100 [[x01]; [x02]; [x03]] [[x02]; [x01]; [x03]]).
  - exact demo_schedule_wf.
  - lia.
  - reflexivity.
  - vm_compute. reflexivity.
Defined.
