(* ===== verification/Node.v ===== *)
(** * One replica of the consensus core (pkg/quepaxa/core.go)

    The durable and volatile state a replica keeps for its slots, and the
    operations on it: staging values, recording proposals, accepting and
    logging decisions, advancing the contiguous prefix, serving pages of
    decisions, reserving slots, and rebuilding the state from the WAL.

    This is a voter in a fixed configuration (reconfigEnabled, localMode,
    learner and observer off, no managed profile, no recovery base installed
    while it runs).  The WAL is the list of its entries with a synced prefix
    and the flag that decides whether [Sync] reaches the disk, which is what the
    files Wal and WalLog establish for pkg/qlog; entries carry their data,
    because the FlatBuffers and JSON payload codecs are other packages.  Appends
    and syncs can fail; outcomes are arguments. *)

From stdpp Require Import gmap list sorting.
From S2P Require Import Prelude Bytes Protocol Cluster Proposer Schedule.

(** ** Data *)

(** A certificate is the decision without its value bytes. *)
Record DecidedValue := mkDecided {
  dvSlot : Slot;
  dvHash : ValueHash;
  dvValue : bytes;
  dvCertificate : Decision;
}.

#[global] Instance DecidedValue_eq_dec : EqDecision DecidedValue.
Proof. solve_decision. Defined.

Inductive walEntry :=
| WProposal (hash : ValueHash) (value : bytes)
| WReceipt (slot : Slot) (state : ISR)
| WDecide (value : DecidedValue).

(** [wal] is what the files hold, [synced] how many entries of it are on disk,
    [walDirty] the flag of the WAL handle.  [found] is how many entries the
    process read when it opened the WAL: it takes them for durable. *)
Record node := mkNode {
  tip : Slot;
  floor : Slot;
  nextSlot : Slot;
  vacant : list Slot;
  decided : gmap Slot DecidedValue;
  durable : gset Slot;
  logged : gset Slot;
  durableThrough : Slot;
  byHash : gmap ValueHash Slot;
  values : gmap ValueHash bytes;
  valueDurable : gset ValueHash;
  prefixes : gmap Slot bytes;
  recorders : gmap Slot ISR;
  wal : list walEntry;
  synced : nat;
  walDirty : bool;
  found : nat;
}.

Inductive nodeError :=
| ErrInvalidSlot
| ErrReconfiguration
| ErrCompacted
| ErrValue
| ErrCollision
| ErrUnavailable
| ErrHashMismatch
| ErrCheckpoint
| ErrAppend
| ErrSync
| ErrNotDecided
| ErrConflict
| ErrConfigID
| ErrNonMember
| ErrDuplicateRecorder
| ErrMixedSteps
| ErrQuorumUnavailable
| ErrSchedule
| ErrReadBarrier
| ErrLeaderOrder (e : scheduleError)
| ErrFastPath
| ErrPhase2
| ErrPhase
| ErrGap
| ErrPageLimit.

(** An operation that can fail part way returns the state it leaves. *)
Definition outcome_of (A : Type) : Type := result nodeError A * node.

Definition emptyNode : node := mkNode 0 0 1 [] ∅ ∅ ∅ 0 ∅ ∅ ∅ ∅ ∅ [] 0 false 0.

(** ** Field updates *)

Definition set_slots (n : node) (next : Slot) (v : list Slot) : node :=
  mkNode (tip n) (floor n) next v (decided n) (durable n) (logged n) (durableThrough n) (byHash n)
    (values n) (valueDurable n) (prefixes n) (recorders n) (wal n) (synced n) (walDirty n) (found n).
Definition set_tip (n : node) (t : Slot) (p : gmap Slot bytes) : node :=
  mkNode t (floor n) (nextSlot n) (vacant n) (decided n) (durable n) (logged n) (durableThrough n) (byHash n)
    (values n) (valueDurable n) p (recorders n) (wal n) (synced n) (walDirty n) (found n).
Definition set_values (n : node) (v : gmap ValueHash bytes) : node :=
  mkNode (tip n) (floor n) (nextSlot n) (vacant n) (decided n) (durable n) (logged n) (durableThrough n)
    (byHash n) v (valueDurable n) (prefixes n) (recorders n) (wal n) (synced n) (walDirty n) (found n).
Definition set_valueDurable (n : node) (v : gset ValueHash) : node :=
  mkNode (tip n) (floor n) (nextSlot n) (vacant n) (decided n) (durable n) (logged n) (durableThrough n)
    (byHash n) (values n) v (prefixes n) (recorders n) (wal n) (synced n) (walDirty n) (found n).
Definition set_marks (n : node) (dur lg : gset Slot) (through : Slot) : node :=
  mkNode (tip n) (floor n) (nextSlot n) (vacant n) (decided n) dur lg through (byHash n)
    (values n) (valueDurable n) (prefixes n) (recorders n) (wal n) (synced n) (walDirty n) (found n).
Definition set_recorders (n : node) (r : gmap Slot ISR) : node :=
  mkNode (tip n) (floor n) (nextSlot n) (vacant n) (decided n) (durable n) (logged n) (durableThrough n)
    (byHash n) (values n) (valueDurable n) (prefixes n) r (wal n) (synced n) (walDirty n) (found n).
Definition set_wal (n : node) (w : list walEntry) (k : nat) (dirty : bool) (n0 : nat) : node :=
  mkNode (tip n) (floor n) (nextSlot n) (vacant n) (decided n) (durable n) (logged n) (durableThrough n)
    (byHash n) (values n) (valueDurable n) (prefixes n) (recorders n) w k dirty n0.

(** [WAL.Append] sets the flag; [WAL.Sync] flushes the file when it is set and
    otherwise returns at once. *)
Definition append (n : node) (e : walEntry) : node := set_wal n (wal n ++ [e]) (synced n) true (found n).
Definition sync (n : node) : node :=
  set_wal n (wal n) (if walDirty n then length (wal n) else synced n) false (found n).

(** [durable[slot] = true; valueDurable[hash] = true] after a sync. *)
Definition mark_durable (n : node) (slot : Slot) (hash : ValueHash) : node :=
  set_valueDurable (set_marks n ({[slot]} ∪ durable n) (logged n) (durableThrough n)) ({[hash]} ∪ valueDurable n).

Definition reconfigurationMagic : bytes := [x51; x52; x43; x46; x00].
Definition checkpointSealMagic : bytes := [x51; x43; x4b; x50; x00].
Definition readBarrierMagic : bytes := [x51; x52; x44; x42; x00].
Definition ReadBarrierNonceSize : nat := 16.
Definition MaxReplicatedValueBytes : Z := Z.shiftl 128 10.

(** ** Slot reservation *)

(** Drops vacant slots that were compacted or decided meanwhile. *)
Fixpoint take_vacant (n : node) (v : list Slot) : option (Slot * list Slot) :=
  match v with
  | [] => None
  | slot :: rest =>
      if (floor n <? slot) && bool_decide (decided n !! slot = None) then Some (slot, rest)
      else take_vacant n rest
  end.

Definition reserveSlot (n : node) : Slot * bool * node :=
  match take_vacant n (vacant n) with
  | Some (slot, rest) => (slot, true, set_slots n (nextSlot n) rest)
  | None =>
      let next := Z.max (nextSlot n) (Z.max (tip n + 1) (floor n + 1)) in
      (next, false, set_slots n (next + 1) [])
  end.

(** [sort.Search] finds the insertion point in the ascending list. *)
Fixpoint insert_slot (slot : Slot) (v : list Slot) : list Slot :=
  match v with
  | [] => [slot]
  | x :: rest => if x <? slot then x :: insert_slot slot rest else if x =? slot then v else slot :: v
  end.

Definition releaseSlot (slot : Slot) (n : node) : node :=
  if slot =? 0 then n
  else if (slot <=? floor n) || negb (bool_decide (decided n !! slot = None)) then n
  else set_slots n (nextSlot n) (insert_slot slot (vacant n)).

(** ** Tips *)

Definition highest {A} (m : gmap Slot A) (from : Slot) : Slot := map_fold (λ slot _ best, Z.max slot best) from m.

Definition RecorderTip (n : node) : Slot :=
  highest (recorders n) (highest (decided n) (Z.max (floor n) (tip n))).

Section node.
Context (nodeID : NodeID) (config_ : Cluster) (sha256 : bytes → ValueHash).
(** The owner's value validator; a schedule's JSON payload; whether a
    checkpoint seal is prepared and eligible. *)
Context (validateValue : option (bytes → bool)) (decodeSchedule : bytes → option (list NodeID)).
Context (sealEligible : bytes → bool).

(** [sha256] of the domain string, the previous hash, the slot and the value. *)
Definition prefixDomain : bytes :=
  [x72; x68; x69; x7a; x61; x2f; x64; x65; x63; x69; x73; x69; x6f; x6e; x2d;
   x70; x72; x65; x66; x69; x78; x00].
Definition AdvancePrefixHash (previous : bytes) (slot : Slot) (value : ValueHash) : bytes :=
  sha256 (prefixDomain ++ previous ++ be_encode 8 slot ++ value).

(** The loop of [advanceTipLocked]; one round per decided slot is enough. *)
Fixpoint advance_loop (fuel : nat) (n : node) : node :=
  match fuel with
  | O => n
  | S fuel' =>
      match decided n !! (tip n + 1) with
      | None => n
      | Some d =>
          advance_loop fuel' (set_tip n (tip n + 1)
            (<[tip n + 1 := AdvancePrefixHash (default zeroHash (prefixes n !! tip n)) (tip n + 1) (dvHash d)]> (prefixes n)))
      end
  end.
Definition advanceTipLocked (n : node) : node := advance_loop (size (decided n)) n.

(** ** Values *)

Definition checkValue (value : bytes) : bool :=
  match validateValue with
  | Some f => (Z.of_nat (length value) <=? Z.shiftl 256 10) && f value
  | None => Z.of_nat (length value) <=? MaxReplicatedValueBytes
  end.

Definition stageValueLocked (appendOk : bool) (hash : ValueHash) (value : bytes) (n : node) : outcome_of unit :=
  match values n !! hash with
  | Some existing => if bool_decide (existing = value) then (Ok tt, n) else (Err ErrCollision, n)
  | None =>
      if appendOk then (Ok tt, set_values (append n (WProposal hash value)) (<[hash := value]> (values n)))
      else (Err ErrAppend, n)
  end.

Definition stageValue (appendOk : bool) (hash : ValueHash) (value : bytes) (n : node) : outcome_of unit :=
  if bool_decide (value = []) || negb (checkValue value) || negb (bool_decide (sha256 value = hash))
  then (Err ErrValue, n)
  else stageValueLocked appendOk hash value n.

Definition storeValue (appendOk syncOk : bool) (hash : ValueHash) (value : bytes) (n : node) : outcome_of unit :=
  match stageValue appendOk hash value n with
  | (Err e, n1) => (Err e, n1)
  | (Ok _, n1) =>
      if bool_decide (hash ∈ valueDurable n1) then (Ok tt, n1)
      else if syncOk then (Ok tt, set_valueDurable (sync n1) ({[hash]} ∪ valueDurable n1))
      else (Err ErrSync, n1)
  end.

(** The value served to peers: staged and durable. *)
Definition ValueOf (hash : ValueHash) (n : node) : option bytes :=
  match values n !! hash with
  | Some v => if bool_decide (hash ∈ valueDurable n) then Some v else None
  | None => None
  end.

(** ** Decision validation *)

Definition schedule_of (n : node) : schedule :=
  mkSchedule config_ false [mkEpoch 1 config_] (floor n) (dvValue <$> decided n) 0 [] 0 [].

Definition readBarrierOk (value : bytes) : bool :=
  negb (HasPrefix value readBarrierMagic) ||
  Nat.eqb (length value) (length readBarrierMagic + ReadBarrierNonceSize).

Fixpoint check_summaries (members : gmap NodeID Member) (step : Step) (seen : gset NodeID)
    (summaries : list Summary) : result nodeError (gset NodeID) :=
  match summaries with
  | [] => Ok seen
  | s :: rest =>
      if bool_decide (members !! RecorderID s = None) then Err ErrNonMember
      else if bool_decide (RecorderID s ∈ seen) then Err ErrDuplicateRecorder
      else if negb (SStep s =? step) then Err ErrMixedSteps
      else check_summaries members step ({[RecorderID s]} ∪ seen) rest
  end.

Definition fast_quorum (p : Proposal) (summaries : list Summary) : bool :=
  forallb (λ s, match SFirstCurrent s with
                | None => false
                | Some f => bool_decide (Priority_ f = highestPriority) && sameProposal (Some f) (Some p)
                end) summaries.

(** The switch on the decision's phase. *)
Definition check_phase (s : schedule) (allowMissingLeader : bool) (d : Decision) : option nodeError :=
  if DStep d mod 4 =? 0 then
    let order := leaderOrder decodeSchedule s (DSlot d) in
    let '(epoch, start, expl) := checkpointEpoch s (DSlot d - 1) in
    let controlSlot := if 0 <? epoch then start + (epoch - 1) * leaderEpochSize else start in
    let missingControl := (expl <=? epoch) && bool_decide (sdecided s !! controlSlot = None) in
    match order with
    | Err e => if negb allowMissingLeader || negb missingControl then Some (ErrLeaderOrder e)
               else if negb (DStep d =? 4) || negb (bool_decide (Priority_ (DProposal d) = highestPriority))
               then Some ErrFastPath
               else if fast_quorum (DProposal d) (DSummaries d) then None else Some ErrFastPath
    | Ok ids =>
        if negb (DStep d =? 4) ||
           match ids with [] => false | leader :: _ => negb (bool_decide (ProposerID (DProposal d) = leader)) end ||
           negb (bool_decide (Priority_ (DProposal d) = highestPriority))
        then Some ErrFastPath
        else if fast_quorum (DProposal d) (DSummaries d) then None else Some ErrFastPath
    end
  else if DStep d mod 4 =? 2 then
    if sameProposal (maxPrior (DSummaries d)) (Some (DProposal d)) then None else Some ErrPhase2
  else Some ErrPhase.

Definition check_schedule_value (s : schedule) (c : Cluster) (slot : Slot) (value : bytes) : bool :=
  match DecodeLeaderSchedule decodeSchedule value with
  | None => true
  | Some (Err _) => false
  | Some (Ok order) => isLeaderScheduleSlot s slot && validateLeaderSchedule c order
  end.

Definition validateDecisionForRecovery (n : node) (allowMissingLeader : bool) (d : Decision) : option nodeError :=
  let value := Value (DProposal d) in
  if negb (checkValue value) then Some ErrValue
  else if (DSlot d =? 0) || negb (bool_decide (sha256 value = Hash (DProposal d))) then Some ErrValue
  else if negb (check_schedule_value (schedule_of n) config_ (DSlot d) value) then Some ErrSchedule
  else if negb (readBarrierOk value) then Some ErrReadBarrier
  else if negb (DConfigID d =? 0) && negb (DConfigID d =? ConfigID config_) then Some ErrConfigID
  else
    match check_summaries (MemberSet config_) (DStep d) ∅ (DSummaries d) with
    | Err e => Some e
    | Ok seen =>
        if Z.of_nat (size seen) <? QuorumSize config_ then Some ErrQuorumUnavailable
        else if HasPrefix value reconfigurationMagic then Some ErrReconfiguration
        else check_phase (schedule_of n) allowMissingLeader d
    end.

Definition validateDecisionAtFloor (n : node) (d : Decision) : option nodeError :=
  validateDecisionForRecovery n (DSlot d <=? floor n) d.

(** ** Certificates *)

Definition strip_proposal (p : Proposal) : Proposal := with_value p [].
Definition strip_summary (s : Summary) : Summary :=
  mkSummary (RecorderID s) (SReconfigurationID s) (SStep s) (strip_proposal <$> SFirstCurrent s)
    (strip_proposal <$> SAggregatePrior s).
Definition encodeCertificate (configID : Z) (d : Decision) : Decision :=
  mkDecision configID (DSlot d) (DStep d) (strip_proposal (DProposal d)) (strip_summary <$> DSummaries d).

(** The decision a certificate stands for, with its value bytes restored. *)
Definition certificate_decision (v : DecidedValue) : Decision :=
  let d := dvCertificate v in
  mkDecision (DConfigID d) (DSlot d) (DStep d) (with_value (DProposal d) (dvValue v)) (DSummaries d).

Definition certifiedDecision (v : DecidedValue) : result nodeError Decision :=
  let d := certificate_decision v in
  if negb (DConfigID d =? ConfigID config_) || negb (DSlot d =? dvSlot v) ||
     negb (bool_decide (Hash (DProposal d) = dvHash v)) || negb (bool_decide (sha256 (dvValue v) = dvHash v))
  then Err ErrHashMismatch
  else Ok d.

(** ** Accepting decisions *)

Definition updateHashIndex (m : gmap ValueHash Slot) (hash : ValueHash) (slot : Slot) : gmap ValueHash Slot :=
  match m !! hash with
  | Some current => if slot <? current then <[hash := slot]> m else m
  | None => <[hash := slot]> m
  end.

(** The decision becomes known: neither logged nor durable yet. *)
Definition install (d : Decision) (n : node) : node :=
  let p := DProposal d in
  let v := mkDecided (DSlot d) (Hash p) (Value p) (encodeCertificate (ConfigID config_) d) in
  mkNode (tip n) (floor n) (nextSlot n) (vacant n) (<[DSlot d := v]> (decided n))
    (durable n ∖ {[DSlot d]}) (logged n ∖ {[DSlot d]}) (durableThrough n)
    (updateHashIndex (byHash n) (Hash p) (DSlot d)) (<[Hash p := Value p]> (values n))
    (valueDurable n) (prefixes n) (delete (DSlot d) (recorders n)) (wal n) (synced n) (walDirty n) (found n).

Definition acceptDecision (d : Decision) (n : node) : outcome_of unit :=
  match validateDecisionAtFloor n d with
  | Some e => (Err e, n)
  | None =>
      if negb (DConfigID d =? 0) && negb (DConfigID d =? ConfigID config_) then (Err ErrConfigID, n)
      else if DSlot d <=? floor n then (Ok tt, n)
      else
        match decided n !! DSlot d with
        | Some existing =>
            if negb (bool_decide (dvHash existing = Hash (DProposal d))) ||
               negb (bool_decide (dvValue existing = Value (DProposal d)))
            then (Err ErrConflict, n)
            else (Ok tt, n)
        | None => (Ok tt, advanceTipLocked (install d n))
        end
  end.

(** [appendDecision] and [markDecisionLoggedLocked], unless already logged. *)
Definition log_decision (appendOk : bool) (slot : Slot) (v : DecidedValue) (n : node) : outcome_of unit :=
  if bool_decide (slot ∈ logged n) then (Ok tt, n)
  else if appendOk
  then (Ok tt, set_marks (append n (WDecide v)) (durable n) ({[slot]} ∪ logged n) (durableThrough n))
  else (Err ErrAppend, n).

Definition ensureDurableLocked (appendOk syncOk : bool) (slot : Slot) (n : node) : outcome_of unit :=
  if slot =? 0 then (Err ErrInvalidSlot, n)
  else if slot <=? floor n then (Ok tt, n)
  else
    match decided n !! slot with
    | None => (Err ErrNotDecided, n)
    | Some v =>
        if bool_decide (slot ∈ durable n) then (Ok tt, n)
        else if HasPrefix (dvValue v) reconfigurationMagic then (Err ErrReconfiguration, n)
        else
          match log_decision appendOk slot v n with
          | (Err e, n1) => (Err e, n1)
          | (Ok _, n1) =>
              if syncOk then (Ok tt, mark_durable (sync n1) slot (dvHash v)) else (Err ErrSync, n1)
          end
    end.

(** The loop of [appendUndurablePrefix]: [fuel] slots from [slot] on; the
    result lists the logged decisions that are not durable yet. *)
Fixpoint append_prefix (appendOk : Slot → bool) (fuel : nat) (slot : Slot) (pending : list (Slot * ValueHash)) (n : node)
    : outcome_of (list (Slot * ValueHash)) :=
  match fuel with
  | O => (Ok pending, n)
  | S fuel' =>
      match decided n !! slot with
      | None => (Err ErrNotDecided, n)
      | Some v =>
          match log_decision (appendOk slot) slot v n with
          | (Err e, n1) => (Err e, n1)
          | (Ok _, n1) =>
              append_prefix appendOk fuel' (slot + 1)
                (if bool_decide (slot ∈ durable n1) then pending else pending ++ [(slot, dvHash v)]) n1
          end
      end
  end.

Definition appendUndurablePrefix (appendOk : Slot → bool) (through : Slot) (n : node) : outcome_of (list (Slot * ValueHash)) :=
  let floor_ := Z.max (floor n) (durableThrough n) in
  append_prefix appendOk (Z.to_nat (through - floor_)) (floor_ + 1) [] n.

Definition mark_pending (pending : list (Slot * ValueHash)) (n : node) : node :=
  foldl (λ n p, match decided n !! p.1 with
                | Some v => if bool_decide (dvHash v = p.2) then mark_durable n p.1 p.2 else n
                | None => n
                end) n pending.

(** The frontier moves over decided, logged and durable slots. *)
Fixpoint advance_frontier (fuel : nat) (n : node) : node :=
  match fuel with
  | O => n
  | S fuel' =>
      let next := durableThrough n + 1 in
      if bool_decide (is_Some (decided n !! next)) && bool_decide (next ∈ logged n) && bool_decide (next ∈ durable n)
      then advance_frontier fuel' (set_marks n (durable n) (logged n) next)
      else n
  end.

Definition ensureDurableThrough (appendOk : Slot → bool) (syncOk : bool) (through : Slot) (n : node) : outcome_of unit :=
  match appendUndurablePrefix appendOk through n with
  | (Err e, n1) => (Err e, n1)
  | (Ok pending, n1) =>
      let finish_ n2 := (Ok tt, advance_frontier (Z.to_nat (through - durableThrough n2)) n2) in
      if bool_decide (pending = []) then finish_ n1
      else if syncOk then finish_ (mark_pending pending (sync n1)) else (Err ErrSync, n1)
  end.

(** Pages of certified decisions from another replica. *)
Fixpoint accept_page (appendOk : bool) (durably : bool) (page : list (DecidedValue * Decision)) (n : node)
    : outcome_of unit :=
  match page with
  | [] => (Ok tt, n)
  | (v, d) :: rest =>
      match acceptDecision d n with
      | (Err e, n1) => (Err e, n1)
      | (Ok _, n1) =>
          if durably then
            if DSlot d <=? floor n1 then (Err ErrCompacted, n1)
            else
              match log_decision appendOk (DSlot d) v n1 with
              | (Err e, n2) => (Err e, n2)
              | (Ok _, n2) => accept_page appendOk durably rest n2
              end
          else accept_page appendOk durably rest n1
      end
  end.

Fixpoint certify_page (vs : list DecidedValue) : result nodeError (list (DecidedValue * Decision)) :=
  match vs with
  | [] => Ok []
  | v :: rest =>
      let! d := certifiedDecision v in
      let! ds := certify_page rest in
      Ok ((v, d) :: ds)
  end.

Definition mark_page (page : list (DecidedValue * Decision)) (n : node) : node :=
  foldl (λ n p, match decided n !! DSlot p.2 with
                | Some v => mark_durable n (DSlot p.2) (dvHash v)
                | None => set_marks n ({[DSlot p.2]} ∪ durable n) (logged n) (durableThrough n)
                end) n page.

Definition acceptCertifiedValues (appendOk syncOk : bool) (vs : list DecidedValue) (durably : bool) (n : node)
    : outcome_of unit :=
  match certify_page vs with
  | Err e => (Err e, n)
  | Ok page =>
      if negb (forallb (λ p, floor n <? DSlot p.2) page) then (Err ErrCompacted, n)
      else
        match accept_page appendOk durably page n with
        | (Err e, n1) => (Err e, n1)
        | (Ok _, n1) =>
            if negb durably || bool_decide (page = []) then (Ok tt, n1)
            else if syncOk then (Ok tt, mark_page page (sync n1)) else (Err ErrSync, n1)
        end
  end.

(** ** Recording *)

Record recordIO := mkRecordIO { ioStage : bool; ioAppend : bool; ioSync : bool }.

(** A checkpoint seal must be prepared and eligible; other values pass. *)
Definition checkpoint_gate (n : node) (hash : ValueHash) : option nodeError :=
  match values n !! hash with
  | None => Some ErrUnavailable
  | Some value => if negb (HasPrefix value checkpointSealMagic) || sealEligible value then None else Some ErrCheckpoint
  end.

Definition known_proposal (state : ISR) (p : Proposal) : bool :=
  sameProposal (FirstCurrent state) (Some p) || sameProposal (AggregateCurrent state) (Some p) ||
  sameProposal (AggregatePrior state) (Some p).

(** The reply for a slot this replica knows to be decided. *)
Definition record_decided (io : recordIO) (req : RecordRequest) (v : DecidedValue) (n : node)
    : outcome_of Summary :=
  let needsSync := negb (bool_decide (RSlot req ∈ durable n)) in
  let logged1 := if needsSync then log_decision (ioAppend io) (RSlot req) v n else (Ok tt, n) in
  match logged1 with
  | (Err e, n1) => (Err e, n1)
  | (Ok _, n1) =>
      let d := certificate_decision v in
      let summary := mkSummary nodeID zeroHash (Z.max (DStep d) (RStep req)) (Some (DProposal d)) (Some (DProposal d)) in
      if needsSync then
        if ioSync io then (Ok summary, mark_durable (sync n1) (RSlot req) (dvHash v)) else (Err ErrSync, n1)
      else (Ok summary, n1)
  end.

(** The register update, its receipt, and the reply once it is synced. *)
Definition record_undecided (io : recordIO) (req : RecordRequest) (n : node) : outcome_of Summary :=
  let p := RProposal req in
  let state := default emptyISR (recorders n !! RSlot req) in
  let '(next, summary) := Record_ state (RStep req) (strip_proposal p) in
  if negb (ioAppend io) then (Err ErrAppend, n)
  else
    let n1 := set_recorders (append n (WReceipt (RSlot req) next)) (<[RSlot req := next]> (recorders n)) in
    if negb (ioSync io) then (Err ErrSync, n1)
    else
      (Ok (mkSummary nodeID zeroHash (SStep summary) (SFirstCurrent summary) (SAggregatePrior summary)),
       set_valueDurable (sync n1) ({[Hash p]} ∪ valueDurable n1)).

(** The part of [record] under the slot's lock. *)
Definition record_locked (io : recordIO) (req : RecordRequest) (n : node) : outcome_of Summary :=
  let p := RProposal req in
  if RSlot req <=? floor n then (Err ErrCompacted, n)
  else
    let exactCertified :=
      match decided n !! RSlot req with
      | Some v => negb (bool_decide (Value p = [])) && bool_decide (dvHash v = Hash p) &&
                  bool_decide (dvValue v = Value p)
      | None => false
      end in
    match (if exactCertified then None else checkpoint_gate n (Hash p)) with
    | Some e => (Err e, n)
    | None =>
        match decided n !! RSlot req with
        | Some v => record_decided io req v n
        | None =>
            let state := default emptyISR (recorders n !! RSlot req) in
            match values n !! Hash p with
            | None => if known_proposal state p then record_undecided io req n else (Err ErrUnavailable, n)
            | Some value =>
                if negb (bool_decide (Value p = [])) && negb (bool_decide (Value p = value))
                then (Err ErrHashMismatch, n)
                else record_undecided io req n
            end
        end
    end.

Definition record (io : recordIO) (req : RecordRequest) (n : node) : outcome_of Summary :=
  let p := RProposal req in
  if (RSlot req =? 0) || (RStep req <? 4) then (Err ErrInvalidSlot, n)
  else if HasPrefix (Value p) reconfigurationMagic then (Err ErrReconfiguration, n)
  else if RSlot req <=? floor n then (Err ErrCompacted, n)
  else
    let staged :=
      if bool_decide (Value p = []) then (Ok tt, n)
      else if negb (checkValue (Value p)) then (Err ErrValue, n)
      else stageValue (ioStage io) (Hash p) (Value p) n in
    match staged with
    | (Err e, n1) => (Err e, n1)
    | (Ok _, n1) =>
        if bool_decide (Value p = []) && HasPrefix (default [] (values n1 !! Hash p)) reconfigurationMagic
        then (Err ErrReconfiguration, n1)
        else record_locked io req n1
    end.

(** ** Serving decisions *)

Fixpoint page_loop (fuel : nat) (n : node) (slot : Slot) (itemLimit payloadByteLimit : Z) (certBytes : DecidedValue → Z)
    (page : list DecidedValue) (used : Z) : result nodeError (list DecidedValue) :=
  match fuel with
  | O => Ok page
  | S fuel' =>
      if (tip n <? slot) || (itemLimit <=? Z.of_nat (length page)) then Ok page
      else
        match decided n !! slot with
        | None => Err ErrGap
        | Some v =>
            let remaining := payloadByteLimit - used in
            let size := Z.of_nat (length (dvValue v)) in
            if (remaining <? size) || (remaining - size <? certBytes v) then
              if bool_decide (page = []) then Err ErrPageLimit else Ok page
            else
              page_loop fuel' n (slot + 1) itemLimit payloadByteLimit certBytes (page ++ [v]) (used + size + certBytes v)
        end
  end.

Definition decisionsFromBounded (from : Slot) (itemLimit payloadByteLimit : Z) (certBytes : DecidedValue → Z) (n : node)
    : result nodeError (list DecidedValue * Slot) :=
  if from <=? floor n then Err ErrCompacted
  else
    let! page := page_loop (Z.to_nat itemLimit) n from itemLimit payloadByteLimit certBytes [] 0 in
    Ok (page, tip n).

Definition decisionByValue (hash : ValueHash) (value : bytes) (n : node) : option Decision :=
  match byHash n !! hash with
  | None => None
  | Some slot =>
      match decided n !! slot with
      | Some v => if bool_decide (dvValue v = value) then Some (certificate_decision v) else None
      | None => None
      end
  end.

(** ** Recovery *)

(** The effect of an entry that passes the checks. *)
Definition replay_entry (e : walEntry) (n : node) : node :=
  match e with
  | WProposal hash value => set_valueDurable (set_values n (<[hash := value]> (values n))) ({[hash]} ∪ valueDurable n)
  | WReceipt slot state =>
      if slot =? 0 then n
      else if bool_decide (decided n !! slot = None) then set_recorders n (<[slot := state]> (recorders n))
      else n
  | WDecide v =>
      let d := certificate_decision v in
      let p := DProposal d in
      mkNode (tip n) (floor n) (nextSlot n) (vacant n)
        (<[DSlot d := mkDecided (DSlot d) (Hash p) (dvValue v) (dvCertificate v)]> (decided n))
        ({[DSlot d]} ∪ durable n) ({[DSlot d]} ∪ logged n) (durableThrough n)
        (updateHashIndex (byHash n) (Hash p) (DSlot d)) (<[Hash p := dvValue v]> (values n))
        ({[Hash p]} ∪ valueDurable n) (prefixes n) (delete (DSlot d) (recorders n)) (wal n) (synced n) (walDirty n) (found n)
  end.

(** One entry of the scan. *)
Definition recover_entry (e : walEntry) (n : node) : result nodeError node :=
  match e with
  | WProposal hash value =>
      if negb (checkValue value) then Err ErrValue
      else if bool_decide (value = []) || negb (bool_decide (sha256 value = hash)) then Err ErrValue
      else Ok (replay_entry e n)
  | WReceipt slot state => Ok (replay_entry e n)
  | WDecide v =>
      let d := certificate_decision v in
      if negb (DConfigID d =? ConfigID config_) || negb (bool_decide (sha256 (dvValue v) = Hash (DProposal d)))
      then Err ErrHashMismatch
      else
        match validateDecisionForRecovery n true d with
        | Some err => Err err
        | None =>
            if match decided n !! DSlot d with
               | Some existing => negb (bool_decide (dvHash existing = Hash (DProposal d)))
               | None => false
               end
            then Err ErrConflict
            else Ok (replay_entry e n)
        end
  end.

Fixpoint recover_scan (es : list walEntry) (n : node) : result nodeError node :=
  match es with
  | [] => Ok n
  | e :: rest => let! n1 := recover_entry e n in recover_scan rest n1
  end.

(** [Open] leaves the flag of the handle unset and syncs nothing: of the entries
    [es] it finds, the first [k] are on disk.  Every recovered decision is
    validated again against the whole history. *)
Definition recover (es : list walEntry) (k : nat) : result nodeError node :=
  let! n := recover_scan es (set_wal emptyNode es k false (length es)) in
  match map_fold (λ _ v acc, match acc with
                             | Some e => Some e
                             | None => validateDecisionForRecovery n true (certificate_decision v)
                             end) None (decided n) with
  | Some e => Err e
  | None => Ok (advanceTipLocked n)
  end.

(** ** Stopping *)

(** What the files hold when the process stops: an append that failed may have
    stored its entry all the same. *)
Definition with_torn (torn : option walEntry) (n : node) : node :=
  match torn with Some e => append n e | None => n end.

(** The process stops and starts again: the files keep everything, synced or
    not. *)
Definition restart_process (torn : option walEntry) (n : node) : result nodeError node :=
  recover (wal (with_torn torn n)) (synced n).

(** The machine loses power: the synced entries survive and any prefix of the
    rest. *)
Definition power_cut (keep : nat) (n : node) : list walEntry := take (Nat.max (synced n) keep) (wal n).
Definition restart_machine (torn : option walEntry) (keep : nat) (n : node) : result nodeError node :=
  recover (power_cut keep (with_torn torn n)) (length (power_cut keep (with_torn torn n))).
End node.
