(* ===== verification/NodeSafety.v ===== *)
(** * The invariant of a replica

    What ties a replica's tables to each other, to its WAL and to the history
    the cluster decided, and that every operation preserves it, whatever
    appends and syncs fail.  The history is a parameter: by the agreement
    theorem of the file Safety no two valid certificates of a slot carry
    different values, so there is one.  A replica holds part of it. *)

From stdpp Require Import gmap list sorting.
From S2P Require Import Prelude Bytes Protocol Register Cluster Proposer Schedule ScheduleProofs Node.

(** ** The log of receipts *)

(** The state in the last receipt for a slot. *)
Definition last_receipt (w : list walEntry) (s : Slot) : option ISR :=
  foldl (λ acc e, match e with WReceipt s' st => if s' =? s then Some st else acc | _ => acc end) None w.

Lemma last_receipt_snoc w e s :
  last_receipt (w ++ [e]) s =
  match e with WReceipt s' st => if s' =? s then Some st else last_receipt w s | _ => last_receipt w s end.
Proof. unfold last_receipt. by rewrite foldl_app. Qed.

(** A register state reached from another by recorded requests. *)
Inductive isr_step : ISR → ISR → Prop :=
| isr_record st t p : 4 <= t → isr_step st (Record_ st t p).1.

(** ** The entries a process takes for durable *)

(** The synced ones, and those it found when it started. *)
Definition trusted (n : node) : nat := Nat.max (synced n) (found n).

(** What the process found when it started is on disk. *)
Definition settled (n : node) : Prop := (found n <= synced n)%nat.

(** ** Validation does not depend on values or certificates' stripped bytes *)

Section node.
Context (config_ : Cluster) (sha256 : bytes → ValueHash).
Context (validateValue : option (bytes → bool)) (decodeSchedule : bytes → option (list NodeID)).

Abbreviation validate n b d := (validateDecisionForRecovery config_ sha256 validateValue decodeSchedule n b d).
Abbreviation order_of n s := (leaderOrder decodeSchedule (schedule_of config_ n) s).

Definition strip_opt (o : option Proposal) : option Proposal := strip_proposal <$> o.

Lemma compare_strip p q : compareProposal (strip_opt p) (strip_opt q) = compareProposal p q.
Proof. by destruct p, q. Qed.

Lemma maxProposal_strip (l : list (option Proposal)) : maxProposal (strip_opt <$> l) = strip_opt (maxProposal l).
Proof.
  unfold maxProposal. set (pick := λ best value, match compareProposal value best with Gt => value | _ => best end).
  assert (∀ best, fold_left pick (strip_opt <$> l) (strip_opt best) = strip_opt (fold_left pick l best)) as H.
  { induction l as [|o l IH]; intros best; simpl; [done|]. unfold pick at 2 4. rewrite compare_strip.
    destruct (compareProposal o best); apply IH. }
  apply (H None).
Qed.

Lemma maxPrior_strip (l : list Summary) : maxPrior (strip_summary <$> l) = strip_opt (maxPrior l).
Proof.
  rewrite !maxPrior_spec, <-maxProposal_strip, <-!list_fmap_compose. done.
Qed.

Lemma fast_quorum_strip p v (l : list Summary) : fast_quorum (with_value p v) (strip_summary <$> l) = fast_quorum p l.
Proof.
  unfold fast_quorum. induction l as [|s l IH]; [done|]. rewrite fmap_cons. cbn [forallb].
  f_equal; [by destruct s as [? ? ? [f|] ?]|exact IH].
Qed.

Lemma check_summaries_strip members step seen (l : list Summary) :
  check_summaries members step seen (strip_summary <$> l) = check_summaries members step seen l.
Proof.
  revert seen. induction l as [|s l IH]; intros seen; simpl; [done|]. repeat case_match; try done.
Qed.

Definition certificate_of (d : Decision) : Decision :=
  certificate_decision (mkDecided (DSlot d) (Hash (DProposal d)) (Value (DProposal d))
    (encodeCertificate (ConfigID config_) d)).

Lemma check_phase_certificate n b d :
  check_phase decodeSchedule (schedule_of config_ n) b (certificate_of d) = check_phase decodeSchedule (schedule_of config_ n) b d.
Proof.
  unfold check_phase, certificate_of, certificate_decision, encodeCertificate.
  cbn [DStep DSlot DProposal DSummaries dvCertificate dvValue]. rewrite !fast_quorum_strip, maxPrior_strip.
  assert (∀ x, sameProposal (strip_opt x) (Some (with_value (strip_proposal (DProposal d)) (Value (DProposal d)))) =
    sameProposal x (Some (DProposal d))) as -> by (intros [x|]; done).
  done.
Qed.

(** The certificate of a decision validates exactly when the decision does. *)
Lemma validate_certificate n b d :
  (DConfigID d = 0 ∨ DConfigID d = ConfigID config_) → validate n b (certificate_of d) = validate n b d.
Proof.
  intros Hc. unfold validateDecisionForRecovery. rewrite check_phase_certificate.
  unfold certificate_of, certificate_decision, encodeCertificate.
  cbn [DConfigID DStep DSlot DProposal DSummaries dvCertificate dvValue].
  rewrite Z.eqb_refl, check_summaries_strip, andb_false_r.
  assert (negb (DConfigID d =? 0) && negb (DConfigID d =? ConfigID config_) = false) as ->.
  { destruct Hc as [-> | ->]; rewrite ?Z.eqb_refl, ?andb_false_r; done. }
  done.
Qed.

(** ** Validation under a growing history *)

(** The strict validation of a decision survives in every larger history, and
    in every smaller one as the lenient validation of recovery. *)
Definition values_in (n n' : node) : Prop := (dvValue <$> decided n) ⊆ (dvValue <$> decided n').

Lemma schedule_mono n n' s order :
  values_in n n' → order_of n s = Ok order → order_of n' s = Ok order.
Proof.
  intros Hsub. unfold leaderOrder, schedule_of. cbn [reconfigEnabled config sdecided baseLeaderOrder baseFollowingOrder].
  unfold explorationEpochs. cbn [config]. case_match; [done|].
  destruct ((dvValue <$> decided n) !! _) as [v|] eqn:E.
  - rewrite (lookup_weaken _ _ _ _ E Hsub). done.
  - simpl. rewrite !andb_false_r. done.
Qed.

Lemma schedule_sub n n' s order :
  values_in n' n → order_of n s = Ok order →
  order_of n' s = Ok order ∨
  ∃ e, order_of n' s = Err e ∧ explorationEpochs (schedule_of config_ n') <= leaderEpoch s ∧
    sdecided (schedule_of config_ n') !! leaderEpochFirst (leaderEpoch s - 1) = None.
Proof.
  intros Hsub. unfold leaderOrder, schedule_of. cbn [reconfigEnabled config sdecided baseLeaderOrder baseFollowingOrder].
  unfold explorationEpochs. cbn [config]. destruct (Z.ltb_spec (leaderEpoch s) (exploration config_)); [by left|].
  destruct ((dvValue <$> decided n') !! _) as [v|] eqn:E'.
  - rewrite (lookup_weaken _ _ _ _ E' Hsub). by left.
  - intros _. right. simpl. rewrite !andb_false_r. eexists. by split_and!.
Qed.

(** Only the phase check reads the history. *)
Lemma validate_phase n b d : validate n b d = None → check_phase decodeSchedule (schedule_of config_ n) b d = None.
Proof.
  unfold validateDecisionForRecovery. intros H.
  repeat match type of H with (if ?c then _ else _) = _ => destruct c; [done|] end.
  destruct (check_summaries _ _ _ _); [|done].
  by repeat match type of H with (if ?c then _ else _) = _ => destruct c; [done|] end.
Qed.

Lemma validate_change n n' b b' d :
  validate n b d = None → check_phase decodeSchedule (schedule_of config_ n') b' d = None → validate n' b' d = None.
Proof.
  unfold validateDecisionForRecovery. intros H Hp. rewrite Hp. clear Hp.
  change (check_schedule_value decodeSchedule (schedule_of config_ n') config_ (DSlot d) (Value (DProposal d)))
    with (check_schedule_value decodeSchedule (schedule_of config_ n) config_ (DSlot d) (Value (DProposal d))).
  repeat match type of H with (if ?c then _ else _) = _ => destruct c; [done|] end.
  destruct (check_summaries _ _ _ _); [|done].
  by repeat match type of H with (if ?c then _ else _) = _ => destruct c; [done|] end.
Qed.

Lemma validate_mono n n' d :
  values_in n n' → validate n false d = None → validate n' false d = None.
Proof.
  intros Hsub Hv. apply (validate_change n n' false); [done|]. apply validate_phase in Hv. revert Hv.
  unfold check_phase. destruct (DStep d mod 4 =? 0); [|done].
  destruct (checkpointEpoch (schedule_of config_ n) _) as [[? ?] ?], (checkpointEpoch (schedule_of config_ n') _) as [[? ?] ?].
  destruct (order_of n (DSlot d)) as [order|e] eqn:Eo; [|done]. by rewrite (schedule_mono n n' _ _ Hsub Eo).
Qed.

Lemma validate_lenient n n' d :
  0 < DSlot d → values_in n' n → validate n false d = None → validate n' true d = None.
Proof.
  intros Hs Hsub Hv. apply (validate_change n n' false); [done|]. apply validate_phase in Hv. revert Hv.
  unfold check_phase. destruct (DStep d mod 4 =? 0); [|done].
  destruct (checkpointEpoch (schedule_of config_ n) _) as [[? ?] ?]. unfold checkpointEpoch.
  cbn [reconfigEnabled schedule_of config sdecided].
  destruct (order_of n (DSlot d)) as [order|e] eqn:Eo; [|done].
  destruct (schedule_sub n n' _ _ Hsub Eo) as [->|(e & -> & He & Hn)]; [done|]. simpl negb.
  unfold explorationEpochs, schedule_of in He. cbn [config] in He. rewrite leaderEpoch_origin in He, Hn by done.
  replace (DSlot d - 1 + 1 - 1) with (DSlot d - 1) by lia.
  assert (0 < (DSlot d - 1) / leaderEpochSize) as Hpos by (unfold exploration in He; lia).
  apply Z.ltb_lt in Hpos. rewrite Hpos. unfold leaderEpochFirst in Hn.
  replace (1 + ((DSlot d - 1) / leaderEpochSize - 1) * leaderEpochSize)
    with (((DSlot d - 1) / leaderEpochSize - 1) * leaderEpochSize + 1) by lia.
  cbn [sdecided schedule_of] in Hn. rewrite Hn. apply Z.leb_le in He. rewrite He. simpl.
  destruct (DStep d =? 4); simpl; [|done]. case_bool_decide; simpl; [|destruct order; simpl; rewrite ?orb_true_r; done].
  destruct (fast_quorum _ _); [done|]. by destruct (_ || _).
Qed.

(** ** The invariant *)

(** The history the cluster decided. *)
Context (history : gmap Slot DecidedValue).

Definition cluster_history : node := mkNode 0 0 1 [] history ∅ ∅ 0 ∅ ∅ ∅ ∅ ∅ [] 0 false 0.

Definition agrees (slot : Slot) (value : bytes) : Prop := dvValue <$> history !! slot = Some value.

(** A certificate of the history: it validates against all of it. *)
Record cert_ok (v : DecidedValue) : Prop := {
  co_hash : sha256 (dvValue v) = dvHash v;
  co_config : DConfigID (dvCertificate v) = ConfigID config_;
  co_slot : DSlot (dvCertificate v) = dvSlot v;
  co_proposal : Hash (DProposal (dvCertificate v)) = dvHash v;
  co_valid : validate cluster_history false (certificate_decision v) = None;
  co_agrees : agrees (dvSlot v) (dvValue v);
}.

(** The contiguous decided prefix and its hash chain. *)
Record prefix_ok (n : node) : Prop := {
  pf_tip : 0 <= tip n;
  pf_decided s : 0 < s <= tip n → is_Some (decided n !! s);
  pf_hash s v : 0 < s <= tip n → decided n !! s = Some v →
    prefixes n !! s = Some (AdvancePrefixHash sha256 (default zeroHash (prefixes n !! (s - 1))) s (dvHash v));
  pf_zero : prefixes n !! 0 = None;
}.

(** Everything but the position of the tip. *)
Record tables_ok (n : node) : Prop := {
  tk_floor : floor n = 0;
  tk_decided s v : decided n !! s = Some v → 0 < s ∧ dvSlot v = s ∧ cert_ok v;
  tk_logged s : s ∈ logged n → ∃ v, WDecide v ∈ wal n ∧ dvSlot v = s;
  tk_wal_decide v : WDecide v ∈ wal n → dvSlot v ∈ logged n ∧ cert_ok v ∧
    ∃ v0, decided n !! dvSlot v = Some v0 ∧ dvHash v0 = dvHash v ∧ dvValue v0 = dvValue v;
  tk_wal_proposal h v : WProposal h v ∈ wal n → v ≠ [] ∧ checkValue validateValue v = true ∧ sha256 v = h;
  tk_wal_receipt s st : WReceipt s st ∈ wal n → 0 < s;
  tk_receipts s : decided n !! s = None → recorders n !! s = last_receipt (wal n) s;
  tk_recorders s : is_Some (decided n !! s) → recorders n !! s = None;
  tk_chain k s st : wal n !! k = Some (WReceipt s st) →
    isr_step (default emptyISR (last_receipt (take k (wal n)) s)) st;
  tk_synced : (trusted n <= length (wal n))%nat;
  tk_clean : walDirty n = false → trusted n = length (wal n);
  tk_durable s : s ∈ durable n → ∃ v, WDecide v ∈ take (trusted n) (wal n) ∧ dvSlot v = s;
  tk_values h v : values n !! h = Some v → sha256 v = h;
}.

Definition inv (n : node) : Prop := tables_ok n ∧ prefix_ok n ∧ decided n !! (tip n + 1) = None.

Lemma validate_basic n b d :
  validate n b d = None →
  sha256 (Value (DProposal d)) = Hash (DProposal d) ∧ DSlot d ≠ 0 ∧
  (DConfigID d = 0 ∨ DConfigID d = ConfigID config_) ∧ checkValue validateValue (Value (DProposal d)) = true.
Proof.
  unfold validateDecisionForRecovery. intros H.
  destruct (negb (checkValue _ _)) eqn:E1; [done|]. destruct (_ || _) eqn:E2; [done|].
  destruct (negb (check_schedule_value _ _ _ _ _)); [done|]. destruct (negb (readBarrierOk _)); [done|].
  destruct (negb (DConfigID d =? 0) && _) eqn:E3; [done|]. bool_hyps. split_and!; [done|done| |done].
  apply andb_false_iff in E3 as [?|?]; bool_hyps; auto.
Qed.

(** ** Advancing the tip *)

Lemma advance_loop_spec fuel n :
  prefix_ok n →
  let n' := advance_loop sha256 fuel n in
  prefix_ok n' ∧ n' = set_tip n (tip n') (prefixes n') ∧
  tip n <= tip n' <= tip n + Z.of_nat fuel ∧
  (decided n !! (tip n' + 1) = None ∨ tip n' = tip n + Z.of_nat fuel).
Proof.
  revert n. induction fuel as [|fuel IH]; intros n Hp; simpl.
  { split_and!; [done|by destruct n|lia|lia|right; lia]. }
  destruct (decided n !! (tip n + 1)) as [d|] eqn:Hd.
  2:{ split_and!; [done|by destruct n|lia|lia|by left]. }
  set (n1 := set_tip n _ _). destruct (IH n1) as (Hp' & Heq & Hle & Hend).
  - destruct Hp as [H0 H1 H2 H3]. split; subst n1; simpl; [lia| | |].
    + intros s Hs. destruct (decide (s = tip n + 1)) as [->|]; [by eexists|]. apply H1. lia.
    + intros s v Hs Hv. destruct (decide (s = tip n + 1)) as [->|Hne].
      * rewrite lookup_insert_eq, lookup_insert_ne by lia. simplify_eq. by replace (tip n + 1 - 1) with (tip n) by lia.
      * rewrite !lookup_insert_ne by lia. apply H2; [lia|done].
    + by rewrite lookup_insert_ne by lia.
  - subst n1. simpl in *. split_and!; [done| |lia|lia|destruct Hend; [by left|right; lia]].
    rewrite Heq at 1. by destruct n.
Qed.

Lemma run_of_keys {A} (m : gmap Slot A) (a : Slot) (k : nat) :
  (∀ i, (i < k)%nat → is_Some (m !! (a + Z.of_nat i))) → (k <= size m)%nat.
Proof.
  intros H. rewrite <-size_dom.
  transitivity (size (list_to_set ((λ i, a + Z.of_nat i) <$> seq 0 k) : gset Z)).
  - rewrite size_list_to_set; [by rewrite length_fmap, length_seq|].
    apply NoDup_fmap_2; [intros ???; lia|apply NoDup_seq].
  - apply subseteq_size. intros x (i & -> & Hi%elem_of_seq)%elem_of_list_to_set%list_elem_of_fmap.
    apply elem_of_dom, H. lia.
Qed.

Lemma advanceTip_spec n :
  prefix_ok n → let n' := advanceTipLocked sha256 n in
  prefix_ok n' ∧ n' = set_tip n (tip n') (prefixes n') ∧ tip n <= tip n' ∧ decided n !! (tip n' + 1) = None.
Proof.
  intros Hp. destruct (advance_loop_spec (size (decided n)) n Hp) as (Hp' & Heq & Hle & Hend).
  unfold advanceTipLocked. split_and!; [done|done|lia|]. destruct Hend as [Hend|Hend]; [done|].
  apply eq_None_not_Some. intros Hs. set (n' := advance_loop sha256 (size (decided n)) n) in *.
  assert (S (size (decided n)) <= size (decided n))%nat; [|lia].
  apply (run_of_keys (decided n) (tip n + 1)). intros i Hi.
  destruct (decide (i = size (decided n))) as [->|Hne].
  - replace (tip n + 1 + Z.of_nat (size (decided n))) with (tip n' + 1) by lia. done.
  - assert (decided n' = decided n) as Hdec by (rewrite Heq; done). rewrite <-Hdec.
    apply (pf_decided _ Hp'). destruct Hp. lia.
Qed.

(** ** Elementary changes of the tables *)

(** Fields the tables do not constrain: tip, reservations, the hash index,
    the prefix hashes, the durable frontier and the value marks. *)
Definition same_tables (n n' : node) : Prop :=
  floor n' = floor n ∧ decided n' = decided n ∧ logged n' = logged n ∧ durable n' = durable n ∧
  recorders n' = recorders n ∧ wal n' = wal n ∧ synced n' = synced n ∧
  walDirty n' = walDirty n ∧ found n' = found n ∧ values n' = values n.

Lemma tables_frame n n' : same_tables n n' → tables_ok n → tables_ok n'.
Proof.
  intros (E1 & E2 & E3 & E4 & E5 & E6 & E7 & E8 & E9 & E10) [H1 H2 H3 H4 H5 H6 H7 H8 H9 H10 Hcl H11 H12]. unfold trusted in *.
  split; unfold trusted; rewrite ?E1, ?E2, ?E3, ?E4, ?E5, ?E6, ?E7, ?E8, ?E9, ?E10; done.
Qed.

(** An entry that an operation of the replica would append.  It stays one as
    long as the log does not grow. *)
Definition fits (n : node) (e : walEntry) : Prop :=
  match e with
  | WProposal h v => v ≠ [] ∧ checkValue validateValue v = true ∧ sha256 v = h
  | WReceipt s st => 0 < s ∧ isr_step (default emptyISR (last_receipt (wal n) s)) st
  | WDecide v => cert_ok v ∧ ∃ v0, decided n !! dvSlot v = Some v0 ∧ dvHash v0 = dvHash v ∧ dvValue v0 = dvValue v
  end.

(** The registers after a receipt of an undecided slot. *)
Definition receipt_recorders (n : node) (e : walEntry) : gmap Slot ISR :=
  match e with
  | WReceipt s st => if bool_decide (decided n !! s = None) then <[s := st]> (recorders n) else recorders n
  | _ => recorders n
  end.

(** An entry appended to the WAL that is not a decision. *)
Lemma tables_append n e vals :
  tables_ok n → (∀ v, e ≠ WDecide v) → fits n e → (∀ h v, vals !! h = Some v → sha256 v = h) →
  tables_ok (set_recorders (set_values (append n e) vals) (receipt_recorders n e)).
Proof.
  intros [H1 H2 H3 H4 H5 H6 H7 H8 H9 H10 Hcl H11 H12] Hd Hf Hv.
  split; simpl; try done.
  - intros s (v & ? & ?)%H3. exists v. set_solver.
  - intros v [Hin|Hin%list_elem_of_singleton]%elem_of_app; [|by destruct (Hd v)].
    destruct (H4 v Hin) as (? & ? & ?). auto.
  - intros h v [Hin|Hin%list_elem_of_singleton]%elem_of_app; [by apply H5|by subst e].
  - intros s st [Hin|Hin%list_elem_of_singleton]%elem_of_app; [by apply (H6 _ st)|]. subst e. by destruct Hf.
  - intros s Hs. rewrite last_receipt_snoc. destruct e as [h v|s' st|v]; [by apply H7| |by destruct (Hd v)]. simpl.
    destruct (Z.eqb_spec s' s) as [->|Hne]; [by rewrite bool_decide_eq_true_2, lookup_insert_eq|].
    case_bool_decide; [rewrite lookup_insert_ne by done|]; by apply H7.
  - intros s Hs. destruct e as [h v|s' st|v]; [by apply H8| |by apply H8]. simpl. case_bool_decide as Hn; [|by apply H8].
    destruct (decide (s' = s)) as [->|]; [|rewrite lookup_insert_ne by done; by apply H8].
    rewrite Hn in Hs. by destruct Hs.
  - intros k s st Hk. destruct (decide (k < length (wal n))%nat) as [Hlt|Hge].
    + rewrite lookup_app_l in Hk by done. rewrite take_app_le by lia. by apply H9.
    + rewrite lookup_app_r in Hk by lia. apply list_lookup_singleton_Some in Hk as [Hk He].
      rewrite take_app_le, take_ge by lia. subst e. apply Hf.
  - rewrite length_app. unfold trusted in *. simpl. lia.
  - intros s (v & Hv' & ?)%H11. exists v. unfold trusted in *. simpl. rewrite take_app_le by lia. done.
Qed.

(** After [Sync] the process takes the whole log for durable, whether or not the
    call reached the disk. *)
Lemma trusted_sync n : tables_ok n → trusted (sync n) = length (wal (sync n)).
Proof.
  intros Ht. pose proof (tk_synced _ Ht). pose proof (tk_clean _ Ht). unfold trusted in *. simpl.
  destruct (walDirty n); [lia|auto].
Qed.

Lemma tables_sync n : tables_ok n → tables_ok (sync n).
Proof.
  intros Ht. pose proof (trusted_sync n Ht) as Hs. destruct Ht as [H1 H2 H3 H4 H5 H6 H7 H8 H9 H10 Hcl H11 H12].
  split; rewrite ?Hs; simpl; try done.
  - intros s (v & Hv & ?)%H11. exists v. split; [|done]. rewrite firstn_all. by apply subseteq_take in Hv.
Qed.

(** A decision entry for a slot already decided with the same value. *)
Lemma tables_log n v v0 :
  tables_ok n → decided n !! dvSlot v = Some v0 → dvHash v0 = dvHash v → dvValue v0 = dvValue v → cert_ok v →
  tables_ok (set_marks (append n (WDecide v)) (durable n) ({[dvSlot v]} ∪ logged n) (durableThrough n)).
Proof.
  intros [H1 H2 H3 H4 H5 H6 H7 H8 H9 H10 Hcl H11 H12] Hd Eh Ev Hcert.
  set (n' := set_marks _ _ _ _).
  split; subst n'; simpl; try done.
  - intros s [->%elem_of_singleton|(x & ? & ?)%H3]%elem_of_union; [exists v; set_solver|exists x; set_solver].
  - intros x [Hin|Hin%list_elem_of_singleton]%elem_of_app.
    + destruct (H4 x Hin) as (? & ? & ?). split_and!; [set_solver|auto|done].
    + simplify_eq. split_and!; [set_solver|auto|by exists v0].
  - intros h x [Hin|Hin%list_elem_of_singleton]%elem_of_app; [by apply H5|done].
  - intros s st [Hin|Hin%list_elem_of_singleton]%elem_of_app; [by apply (H6 _ st)|done].
  - intros s Hs. rewrite last_receipt_snoc. by apply H7.
  - intros k s st Hk. destruct (decide (k < length (wal n))%nat) as [Hlt|Hge].
    + rewrite lookup_app_l in Hk by done. rewrite take_app_le by lia. by apply H9.
    + rewrite lookup_app_r in Hk by lia. by apply list_lookup_singleton_Some in Hk as [_ ?].
  - rewrite length_app. unfold trusted in *. simpl. lia.
  - intros s (x & Hx & ?)%H11. exists x. unfold trusted in *. simpl. rewrite take_app_le by lia. done.
Qed.

(** A logged slot becomes durable after a sync. *)
Lemma tables_mark n slot hash :
  tables_ok n → slot ∈ logged n → trusted n = length (wal n) → tables_ok (mark_durable n slot hash).
Proof.
  intros [H1 H2 H3 H4 H5 H6 H7 H8 H9 H10 Hcl H11 H12] Hl Hs. set (n' := mark_durable _ _ _).
  assert (trusted n' = trusted n) as Et by done.
  split; rewrite ?Et; subst n'; simpl; try done.
  - intros s [->%elem_of_singleton|Hd]%elem_of_union; [|by apply H11].
    destruct (H3 _ Hl) as (v & ? & ?). exists v. rewrite Hs, firstn_all. done.
Qed.

(** ** Operations *)

(** The invariant after a change that keeps decided slots and the tip. *)
Lemma inv_tables n n' :
  inv n → tables_ok n' → decided n' = decided n → tip n' = tip n → prefixes n' = prefixes n → inv n'.
Proof.
  intros (_ & [P1 P2 P3 P4] & Hend) Ht Ed Et Ep. split_and!; [done| |by rewrite Ed, Et].
  split; rewrite ?Et, ?Ed, ?Ep; done.
Qed.

Lemma inv_frame n n' :
  inv n → same_tables n n' → tip n' = tip n → prefixes n' = prefixes n → inv n'.
Proof.
  intros Hinv Hs Ht Hp. apply (inv_tables n); [done|by apply (tables_frame n), Hinv| |done|done]. apply Hs.
Qed.

Lemma stageValueLocked_inv ok hash value n r n' :
  inv n → value ≠ [] → checkValue validateValue value = true → sha256 value = hash →
  stageValueLocked ok hash value n = (r, n') →
  inv n' ∧ decided n' = decided n ∧ recorders n' = recorders n ∧ logged n' = logged n ∧ durable n' = durable n ∧
  (r = Ok tt → values n' !! hash = Some value).
Proof.
  intros Hinv Hne Hck Hsha. unfold stageValueLocked. destruct (values n !! hash) as [ex|] eqn:Ev.
  - case_bool_decide; intros [= <- <-]; subst; done.
  - destruct ok; intros [= <- <-]; [|done]. split_and!; try done; [|by intros _; apply lookup_insert_eq].
    apply (inv_tables n); [done| |done|done|done].
    apply (tables_frame (set_recorders (set_values (append n (WProposal hash value)) (<[hash:=value]> (values n))) (recorders n))).
    { by split_and!. }
    apply (tables_append n (WProposal hash value)); [apply Hinv|done|done|].
    + intros h v [[<- <-]|[_ Hh]]%lookup_insert_Some; [done|]. by apply (tk_values _ (proj1 Hinv)).
Qed.

Lemma stageValue_inv ok hash value n r n' :
  inv n → stageValue sha256 validateValue ok hash value n = (r, n') →
  inv n' ∧ decided n' = decided n ∧ recorders n' = recorders n ∧ logged n' = logged n ∧ durable n' = durable n ∧
  (r = Ok tt → values n' !! hash = Some value).
Proof.
  intros Hinv. unfold stageValue. destruct (_ || _) eqn:E; [by intros [= <- <-]|]. bool_hyps.
  by apply stageValueLocked_inv.
Qed.

Lemma storeValue_inv ok syncOk hash value n r n' :
  inv n → storeValue sha256 validateValue ok syncOk hash value n = (r, n') → inv n'.
Proof.
  intros Hinv. unfold storeValue. destruct (stageValue _ _ _ _ _ _) as [[u|e] n1] eqn:Es;
    destruct (stageValue_inv _ _ _ _ _ _ Hinv Es) as (Hinv1 & _); [|by intros [= <- <-]].
  case_bool_decide; [by intros [= <- <-]|]. destruct syncOk; intros [= <- <-]; [|done].
  apply (inv_frame (sync n1)); [|by split_and!|done|done].
  apply (inv_tables n1); [done|by apply tables_sync, Hinv1|done|done|done].
Qed.

Lemma log_decision_inv ok v v0 n r n' :
  inv n → decided n !! dvSlot v = Some v0 → dvHash v0 = dvHash v → dvValue v0 = dvValue v → cert_ok v →
  log_decision ok (dvSlot v) v n = (r, n') →
  inv n' ∧ decided n' = decided n ∧ durable n' = durable n ∧ logged n ⊆ logged n' ∧
  (r = Ok tt → dvSlot v ∈ logged n') ∧ floor n' = floor n.
Proof.
  intros Hinv Hd Eh Ev Hc. unfold log_decision. case_bool_decide; [by intros [= <- <-]|].
  destruct ok; intros [= <- <-]; [|done]. split_and!; [|done|done|simpl; set_solver|simpl; set_solver|done].
  apply (inv_tables n); [done| |done|done|done]. apply (tables_log n v v0); [apply Hinv|done..].
Qed.

Lemma sync_mark_inv n slot hash : inv n → slot ∈ logged n → inv (mark_durable (sync n) slot hash).
Proof.
  intros Hinv Hl. apply (inv_tables n); [done| |done|done|done].
  apply tables_mark; [by apply tables_sync, Hinv|done|apply trusted_sync, Hinv].
Qed.

Lemma ensureDurableLocked_inv ok syncOk slot n r n' :
  inv n → ensureDurableLocked ok syncOk slot n = (r, n') →
  inv n' ∧ (r = Ok tt → floor n < slot → slot ∈ durable n').
Proof.
  intros Hinv. unfold ensureDurableLocked. destruct (slot =? 0); [by intros [= <- <-]|].
  destruct (Z.leb_spec slot (floor n)); [intros [= <- <-]; split; [done|lia]|].
  destruct (decided n !! slot) as [v|] eqn:Hd; [|by intros [= <- <-]].
  case_bool_decide; [by intros [= <- <-]|]. destruct (HasPrefix _ _); [by intros [= <- <-]|].
  destruct (tk_decided _ (proj1 Hinv) _ _ Hd) as (_ & <- & Hc).
  destruct (log_decision _ _ _ _) as [[u|e] n1] eqn:Hl;
    destruct (log_decision_inv _ _ _ _ _ _ Hinv Hd eq_refl eq_refl Hc Hl) as (Hinv1 & Ed & Edur & _ & Hlog & _);
    [|by intros [= <- <-]].
  destruct syncOk; intros [= <- <-]; [|done]. split; [|simpl; set_solver]. apply sync_mark_inv; [done|]. destruct u. auto.
Qed.

(** ** Persisting a prefix *)

(** What the appends and marks of [ensureDurableThrough] leave alone. *)
Definition same_prefix (n n' : node) : Prop :=
  decided n' = decided n ∧ tip n' = tip n ∧ floor n' = floor n ∧ logged n ⊆ logged n' ∧ durable n ⊆ durable n'.

Lemma append_prefix_inv ok fuel slot pending n r n' :
  inv n → append_prefix ok fuel slot pending n = (r, n') →
  inv n' ∧ same_prefix n n' ∧ durable n' = durable n ∧ durableThrough n' = durableThrough n ∧
  ∀ out, r = Ok out →
    (∀ p, p ∈ pending → p ∈ out) ∧
    (∀ p, p ∈ out → p ∈ pending ∨ (p.1 ∈ logged n' ∧ dvHash <$> decided n !! p.1 = Some p.2)) ∧
    ∀ s, slot <= s < slot + Z.of_nat fuel →
      s ∈ logged n' ∧ (s ∈ durable n ∨ ∃ v, decided n !! s = Some v ∧ (s, dvHash v) ∈ out).
Proof.
  revert slot pending n. induction fuel as [|fuel IH]; intros slot pending n Hinv; cbn [append_prefix].
  { intros [= <- <-]. split_and!; [done|done|done|done|]. intros out <-%Ok_inj. split_and!; [done|auto|intros; lia]. }
  destruct (decided n !! slot) as [v|] eqn:Hd; [|intros [= <- <-]; by split_and!].
  destruct (tk_decided _ (proj1 Hinv) _ _ Hd) as (_ & Hslot & Hc). rewrite <-Hslot in Hd |- *.
  destruct (log_decision _ _ _ _) as [[u|e] n1] eqn:Hl; pose proof Hl as Hl';
    destruct (log_decision_inv _ _ _ _ _ _ Hinv Hd eq_refl eq_refl Hc Hl) as (Hinv1 & Ed & Edur & Hlog & Hin & Ef);
    (assert (tip n1 = tip n ∧ durableThrough n1 = durableThrough n) as [Et Eth] by (revert Hl'; unfold log_decision; repeat case_match; by intros [= <- <-]));
    [|intros [= <- <-]; split_and!; [done|unfold same_prefix; by rewrite Ed, Et, Ef, Edur|done..]].
  destruct u. specialize (Hin eq_refl). intros H. destruct (IH _ _ _ Hinv1 H) as (Hinv' & (E1 & E2 & E3 & E4 & E5) & E6 & E7 & Hout).
  split_and!; [done|split_and!; [congruence|congruence|congruence|by etrans|by rewrite E6, Edur]|congruence|congruence|].
  intros out Hr. destruct (Hout out Hr) as (Hout1 & Hout2 & Hout3). rewrite Ed, Edur in *. split_and!.
  - intros p Hp. apply Hout1. case_bool_decide; [done|]. rewrite elem_of_app. by left.
  - intros p [Hp|Hp]%Hout2; [|by right]. case_bool_decide; [by left|]. apply elem_of_app in Hp as [?| ->%list_elem_of_singleton]; [by left|].
    right. cbn. rewrite Hd. split; [by apply E4|done].
  - intros s Hs. destruct (decide (s = dvSlot v)) as [->|]; [|apply Hout3; lia]. split; [by apply E4|].
    case_bool_decide; [by left|right]. exists v. split; [done|]. apply Hout1, elem_of_app. right. by apply list_elem_of_singleton.
Qed.

Lemma mark_pending_inv pending n :
  inv n → trusted n = length (wal n) → (∀ p, p ∈ pending → p.1 ∈ logged n ∧ dvHash <$> decided n !! p.1 = Some p.2) →
  let n' := mark_pending pending n in
  inv n' ∧ same_prefix n n' ∧ durableThrough n' = durableThrough n ∧ ∀ p, p ∈ pending → p.1 ∈ durable n'.
Proof.
  unfold mark_pending. revert n. induction pending as [|p pending IH]; intros n Hinv Hs Hp; cbn [foldl].
  { split_and!; try done. by intros p Hp'%elem_of_nil. }
  destruct (Hp p) as [Hl Hh]; [by left|]. destruct (decided n !! p.1) as [v|] eqn:Hd; [|done]. injection Hh as Hh.
  rewrite bool_decide_true by done.
  destruct (IH (mark_durable n p.1 p.2)) as (I1 & (E1 & E2 & E3 & E4 & E5) & E6 & I2).
  - apply (inv_tables n); [done| |done|done|done]. by apply tables_mark; [apply Hinv|..].
  - done.
  - intros q Hq. apply Hp. by right.
  - split_and!; [done|split_and!; [done..|etrans; [|exact E5]; simpl; set_solver]|done|].
    intros q [->|Hq]%elem_of_cons; [|by apply I2]. apply E5. simpl. set_solver.
Qed.

Lemma advance_frontier_inv fuel n :
  inv n → let n' := advance_frontier fuel n in
  inv n' ∧ same_prefix n n' ∧ durable n' = durable n ∧ ((∀ s, 0 < s <= durableThrough n → s ∈ durable n) → ∀ s, 0 < s <= durableThrough n' → s ∈ durable n').
Proof.
  revert n. induction fuel as [|fuel IH]; intros n Hinv; cbn [advance_frontier]; [by split_and!|].
  destruct (_ && _) eqn:E; [|by split_and!]. bool_hyps.
  destruct (IH (set_marks n (durable n) (logged n) (durableThrough n + 1))) as (I1 & I2 & I3 & I4).
  { by apply (inv_frame n). }
  split_and!; [done|done|done|]. intros Hn. apply I4. intros s Hs. cbn in Hs |- *.
  destruct (decide (s = durableThrough n + 1)) as [->|]; [done|]. apply Hn. lia.
Qed.

(** The durable frontier is within the durable slots. *)
Definition frontier_ok (n : node) : Prop := ∀ s, 0 < s <= durableThrough n → s ∈ durable n.

Lemma ensureDurableThrough_inv ok syncOk through n r n' :
  inv n → ensureDurableThrough ok syncOk through n = (r, n') →
  inv n' ∧ same_prefix n n' ∧ (frontier_ok n → frontier_ok n' ∧ (r = Ok tt → ∀ s, 0 < s <= through → s ∈ durable n')).
Proof.
  intros Hinv. unfold ensureDurableThrough, appendUndurablePrefix.
  assert (floor n = 0) as Hf by apply (tk_floor _ (proj1 Hinv)).
  destruct (append_prefix _ _ _ _ _) as [[pending|e] n1] eqn:Ha;
    destruct (append_prefix_inv _ _ _ _ _ _ _ Hinv Ha) as (Hinv1 & Hsame & Edur & Eth & Hout);
    [|intros [= <- <-]; split_and!; [done|done|]; intros Hth; split; [unfold frontier_ok; by rewrite Eth, Edur|done]].
  destruct (Hout pending eq_refl) as (_ & Hpend & Hall). clear Hout. set (lo := Z.max (floor n) (durableThrough n)) in *.
  assert (frontier_ok n → frontier_ok n1) as Hth1 by (unfold frontier_ok; by rewrite Eth, Edur).
  assert (frontier_ok n → ∀ s, 0 < s <= through → s ∈ durable n ∨ ∃ v, decided n !! s = Some v ∧ (s, dvHash v) ∈ pending) as Hcover.
  { intros Hth s Hs. destruct (decide (s <= durableThrough n)); [left; apply Hth; lia|]. apply Hall. lia. }
  destruct Hsame as (E1 & E2 & E3 & E4 & E5). case_bool_decide as Hp.
  - intros [= <- <-]. destruct (advance_frontier_inv (Z.to_nat (through - durableThrough n1)) n1 Hinv1) as (I1 & (F1 & F2 & F3 & F4 & F5) & I3 & I4).
    split_and!; [done|split_and!; [congruence|congruence|congruence|by etrans|by etrans]|]. intros Hth. split; [exact (I4 (Hth1 Hth))|].
    intros _ s Hs. rewrite I3, Edur. destruct (Hcover Hth s Hs) as [?|(v & _ & Hv)]; [done|]. subst pending. by apply elem_of_nil in Hv.
  - destruct syncOk; [|intros [= <- <-]; split; [done|]; split; [by split_and!|]; intros Hth; split; [by apply Hth1|done]]. intros [= <- <-].
    assert (inv (sync n1)) as Hinvs by (apply (inv_tables n1); [done|apply tables_sync, Hinv1|done|done|done]).
    destruct (mark_pending_inv pending (sync n1) Hinvs (trusted_sync _ (proj1 Hinv1))) as (I1 & (G1 & G2 & G3 & G4 & G5) & Gth & Gall).
    { intros p Hp'. destruct (Hpend p Hp') as [Hn|[? ?]]; [by apply elem_of_nil in Hn|]. simpl. by rewrite E1. }
    set (n2 := mark_pending pending (sync n1)) in *.
    destruct (advance_frontier_inv (Z.to_nat (through - durableThrough n2)) n2 I1) as (J1 & (F1 & F2 & F3 & F4 & F5) & J3 & J4).
    simpl in *. split_and!; [done| |].
    { split_and!; [congruence|congruence|congruence|by do 2 (etrans; [eassumption|])|by do 2 (etrans; [eassumption|])]. }
    intros Hth. split.
    + refine (J4 _). intros s Hs. apply G5, (Hth1 Hth). rewrite <-Gth. lia.
    + intros _ s Hs. rewrite J3. destruct (Hcover Hth s Hs) as [Hd|(v & _ & Hv)]; [|by apply (Gall (s, dvHash v))].
      apply G5. by rewrite Edur.
Qed.

(** ** Accepting a decision *)

(** A delivered decision is sound when it agrees with the history if it is
    valid against it; this is what agreement gives. *)
Definition sound (d : Decision) : Prop :=
  validate cluster_history false d = None → agrees (DSlot d) (Value (DProposal d)).

Lemma inv_history n : tables_ok n → values_in n cluster_history.
Proof.
  intros Ht. apply map_subseteq_spec. intros s b. rewrite !lookup_fmap. simpl. intros (v & Hv & ->)%fmap_Some.
  destruct (tk_decided _ Ht _ _ Hv) as (_ & <- & Hc). apply (co_agrees _ Hc).
Qed.

Lemma install_tables d n :
  inv n → 0 < DSlot d → sound d → validate n false d = None → decided n !! DSlot d = None →
  tables_ok (install config_ d n).
Proof.
  intros Hinv Hs Hsound Hv Hnone. pose proof (validate_mono _ _ _ (inv_history _ (proj1 Hinv)) Hv) as Hg.
  destruct Hinv as [[H1 H2 H3 H4 H5 H6 H7 H8 H9 H10 Hcl H11 H12] _]. set (n' := install config_ d n).
  destruct (validate_basic _ _ _ Hv) as (Hsha & _ & Hcfg & _).
  assert (DSlot d ∉ logged n) as Hnl.
  { intros (v & Hin & Hvs)%H3. destruct (H4 v Hin) as (_ & _ & v0 & Hv0 & _). congruence. }
  assert (DSlot d ∉ durable n) as Hnd.
  { intros (v & Hin%subseteq_take & Hvs)%H11. destruct (H4 v Hin) as (_ & _ & v0 & Hv0 & _). congruence. }
  split; subst n'; simpl; try done.
  - intros s v [[<- <-]|[_ Hv']]%lookup_insert_Some; [|destruct (H2 _ _ Hv') as (? & ? & ?); auto].
    split_and!; [done|done|]. split; simpl; try done; [|by apply Hsound].
    exact (eq_trans (validate_certificate _ false d Hcfg) Hg).
  - intros s [Hl _]%elem_of_difference. by apply H3.
  - intros v Hin. destruct (H4 v Hin) as (? & ? & v0 & Hv0 & ?). split_and!; [|auto|].
    { apply elem_of_difference. split; [done|]. apply not_elem_of_singleton. congruence. }
    exists v0. rewrite lookup_insert_ne by congruence. done.
  - intros s [Hs1 Hs2]%lookup_insert_None. rewrite lookup_delete_ne by done. by apply H7.
  - intros s Hs'. destruct (decide (DSlot d = s)) as [->|Hne]; [by rewrite lookup_delete_eq|].
    rewrite lookup_insert_ne in Hs' by done. rewrite lookup_delete_ne by done. by apply H8.
  - intros s [Hd' _]%elem_of_difference. by apply H11.
  - intros h v [[<- <-]|[_ Hh]]%lookup_insert_Some; [done|by apply H12].
Qed.

Lemma acceptDecision_inv d n r n' :
  inv n → 0 <= DSlot d → sound d → acceptDecision config_ sha256 validateValue decodeSchedule d n = (r, n') →
  inv n' ∧ floor n' = floor n ∧ decided n ⊆ decided n' ∧ logged n ⊆ logged n' ∧ tip n <= tip n' ∧
  (r = Ok tt → 0 < DSlot d ∧ validate cluster_history false d = None ∧
     ∃ v0, decided n' !! DSlot d = Some v0 ∧ dvHash v0 = Hash (DProposal d) ∧ dvValue v0 = Value (DProposal d)).
Proof.
  intros Hinv Hs Hsound. unfold acceptDecision, validateDecisionAtFloor.
  assert (floor n = 0) as Hf by apply (tk_floor _ (proj1 Hinv)). rewrite Hf.
  destruct (validate n (DSlot d <=? 0) d) eqn:Hv; [intros [= <- <-]; split_and!; try done; lia|].
  destruct (validate_basic _ _ _ Hv) as (Hsha & Hs0 & Hcfg & _).
  assert ((DSlot d <=? 0) = false) as Hpos by (apply Z.leb_gt; lia). rewrite Hpos in Hv |- *.
  pose proof (validate_mono _ _ _ (inv_history _ (proj1 Hinv)) Hv) as Hg.
  destruct (_ && _); [intros [= <- <-]; split_and!; try done; lia|].
  destruct (decided n !! DSlot d) as [ex|] eqn:Hd.
  - destruct (_ || _) eqn:E; intros [= <- <-]; split_and!; try done. intros _. bool_hyps. split_and!; [lia|done|by exists ex].
  - intros [= <- <-]. pose proof (install_tables d n Hinv ltac:(lia) Hsound Hv Hd) as Ht.
    assert (prefix_ok (install config_ d n)) as Hp.
    { destruct Hinv as (_ & [P1 P2 P3 P4] & Hend). split; simpl; [done| | |done].
      - intros s Hs'. apply lookup_insert_is_Some. destruct (decide (DSlot d = s)); [by left|right; split; [done|by apply P2]].
      - intros s v Hs' [[<- <-]|[_ Hv']]%lookup_insert_Some; [|by apply P3]. destruct (P2 _ Hs'). congruence. }
    destruct (advanceTip_spec _ Hp) as (Hp' & Heq & Hle & Hend). set (n2 := advanceTipLocked sha256 _) in *.
    assert (same_tables (install config_ d n) n2) as Hsame by (rewrite Heq; by split_and!).
    assert (decided n2 = decided (install config_ d n)) as Ed by apply Hsame.
    assert (logged n2 = logged (install config_ d n)) as El by apply Hsame.
    assert (DSlot d ∉ logged n) as Hnl.
    { intros (v & Hin & Hvs)%(tk_logged _ (proj1 Hinv)).
      destruct (tk_wal_decide _ (proj1 Hinv) v Hin) as (_ & _ & v0 & Hv0 & _). congruence. }
    split_and!.
    + split_and!; [by apply (tables_frame _ _ Hsame)|done|by rewrite Ed].
    + rewrite Heq. exact Hf.
    + rewrite Ed. simpl. by apply insert_subseteq.
    + rewrite El. simpl. clear -Hnl. set_solver.
    + done.
    + intros _. split_and!; [lia|done|]. rewrite Ed. simpl. eexists. rewrite lookup_insert_eq. done.
Qed.

(** ** Pages of certified values *)

Definition page_ok (page : list (DecidedValue * Decision)) : Prop :=
  Forall (λ p, certifiedDecision config_ sha256 p.1 = Ok p.2 ∧ 0 <= DSlot p.2 ∧ sound p.2) page.

Lemma certifiedDecision_spec v d :
  certifiedDecision config_ sha256 v = Ok d →
  d = certificate_decision v ∧ DConfigID (dvCertificate v) = ConfigID config_ ∧ DSlot (dvCertificate v) = dvSlot v ∧
  Hash (DProposal (dvCertificate v)) = dvHash v ∧ sha256 (dvValue v) = dvHash v.
Proof. unfold certifiedDecision. destruct (_ || _) eqn:E; [done|]. intros <-%Ok_inj. simpl in E. bool_hyps. done. Qed.

(** What a peer may send: the slot is unsigned, and if the certificate is
    valid it is one of the history. *)
Definition delivered (v : DecidedValue) : Prop := 0 <= dvSlot v ∧ sound (certificate_decision v).

Lemma certify_page_ok vs page :
  Forall delivered vs → certify_page config_ sha256 vs = Ok page → page_ok page.
Proof.
  revert page. induction vs as [|v vs IH]; intros page Hvs; simpl; [intros <-%Ok_inj; constructor|].
  inversion Hvs; subst. destruct (certifiedDecision _ _ v) as [d|] eqn:Hd; [|done]. simpl.
  destruct (certify_page _ _ vs) as [ds|]; [|done]. simpl. intros <-%Ok_inj. constructor; [|by apply IH].
  simpl. split; [done|]. destruct (certifiedDecision_spec _ _ Hd) as (-> & _ & E & _). simpl. rewrite E. done.
Qed.

(** Accepting and logging one certified value. *)
Lemma accept_log_inv ok v d n n1 r n2 :
  inv n → certifiedDecision config_ sha256 v = Ok d → 0 <= DSlot d → sound d →
  acceptDecision config_ sha256 validateValue decodeSchedule d n = (Ok tt, n1) →
  log_decision ok (DSlot d) v n1 = (r, n2) →
  inv n2 ∧ logged n1 ⊆ logged n2 ∧ decided n2 = decided n1 ∧ (r = Ok tt → DSlot d ∈ logged n2).
Proof.
  intros Hinv Hc Hs Hsound Ha Hl. destruct (certifiedDecision_spec _ _ Hc) as (-> & Hcfg & Hslot & Hh & Hsha).
  destruct (acceptDecision_inv _ _ _ _ Hinv Hs Hsound Ha) as (Hinv1 & _ & _ & _ & _ & Hok).
  destruct (Hok eq_refl) as (Hpos & Hv & v0 & Hd0 & Hh0 & Hv0). simpl in *. rewrite Hslot in *.
  assert (cert_ok v) as Hcert.
  { split; try done. rewrite <-Hslot. by apply Hsound. }
  destruct (log_decision_inv _ _ _ _ _ _ Hinv1 Hd0 ltac:(congruence) ltac:(congruence) Hcert Hl) as (? & ? & _ & ? & ? & _).
  done.
Qed.

Lemma accept_page_inv ok durably page n r n' :
  inv n → page_ok page →
  accept_page config_ sha256 validateValue decodeSchedule ok durably page n = (r, n') →
  inv n' ∧ logged n ⊆ logged n' ∧
  (r = Ok tt → durably = true → ∀ p, p ∈ page → DSlot p.2 ∈ logged n').
Proof.
  revert n. induction page as [|[v d] page IH]; intros n Hinv Hp; simpl.
  { intros [= <- <-]. split_and!; [done|done|]. by intros _ _ p ?%elem_of_nil. }
  apply Forall_cons in Hp as [(Hc & Hs & Hsd) Hp]. simpl in Hc, Hs, Hsd.
  destruct (acceptDecision _ _ _ _ d n) as [[u|e] n1] eqn:Ha;
    destruct (acceptDecision_inv _ _ _ _ Hinv Hs Hsd Ha) as (Hinv1 & _ & _ & Hl1 & _ & Hok);
    [|intros [= <- <-]; split_and!; done].
  destruct durably; [|intros H; destruct (IH n1 Hinv1 Hp H) as (? & ? & ?); split_and!; [done|by etrans|done]].
  destruct (DSlot d <=? floor n1); [intros [= <- <-]; split_and!; done|]. destruct u.
  destruct (log_decision _ _ _ _) as [[u|e] n2] eqn:Hl;
    destruct (accept_log_inv _ _ _ _ _ _ _ Hinv Hc Hs Hsd Ha Hl) as (Hinv2 & Hl2 & _ & Hin);
    [|intros [= <- <-]; split_and!; [done|by etrans|done]].
  intros H. destruct (IH n2 Hinv2 Hp H) as (? & Hl3 & Hall). split_and!; [done|by do 2 (etrans; [eassumption|])|].
  intros Hr Hdur p [->|Hp']%elem_of_cons; [|by apply Hall]. simpl. apply Hl3, Hin. by destruct u.
Qed.

Lemma mark_page_inv page n :
  inv n → trusted n = length (wal n) → (∀ p, p ∈ page → DSlot p.2 ∈ logged n) → inv (mark_page page n).
Proof.
  unfold mark_page. revert n. induction page as [|p page IH]; intros n Hinv Hs Hl; simpl; [done|].
  assert (DSlot p.2 ∈ logged n) as Hp by (apply Hl; by left).
  destruct (tk_logged _ (proj1 Hinv) _ Hp) as (v & Hin & Hvs).
  destruct (tk_wal_decide _ (proj1 Hinv) v Hin) as (_ & _ & v0 & Hd & _). rewrite Hvs in Hd. rewrite Hd.
  apply IH; [|done|intros; apply Hl; by right].
  apply (inv_tables n); [done| |done|done|done]. by apply tables_mark; [apply Hinv|..].
Qed.

Lemma acceptCertifiedValues_inv ok syncOk vs durably n r n' :
  inv n → Forall delivered vs →
  acceptCertifiedValues config_ sha256 validateValue decodeSchedule ok syncOk vs durably n = (r, n') → inv n'.
Proof.
  intros Hinv Hvs. unfold acceptCertifiedValues. destruct (certify_page _ _ vs) as [page|] eqn:Hc; [|by intros [= <- <-]].
  destruct (negb _); [by intros [= <- <-]|]. pose proof (certify_page_ok _ _ Hvs Hc) as Hp.
  destruct (accept_page _ _ _ _ _ _ _ _) as [[u|e] n1] eqn:Ha;
    destruct (accept_page_inv _ _ _ _ _ _ Hinv Hp Ha) as (Hinv1 & _ & Hl); [|by intros [= <- <-]].
  destruct (_ || _) eqn:E; [by intros [= <- <-]|]. bool_hyps. destruct syncOk; intros [= <- <-]; [|done].
  apply mark_page_inv; [|by apply trusted_sync, Hinv1|destruct u; by apply Hl].
  apply (inv_tables n1); [done|by apply tables_sync, Hinv1|done|done|done].
Qed.

(** ** Recording *)

Context (nodeID : NodeID) (sealEligible : bytes → bool).

Lemma record_undecided_inv io req n r n' :
  inv n → 0 < RSlot req → 4 <= RStep req → decided n !! RSlot req = None →
  record_undecided nodeID io req n = (r, n') → inv n'.
Proof.
  intros Hinv Hs Ht Hd. unfold record_undecided.
  destruct (Record_ _ _ _) as [next summary] eqn:Hr. destruct (negb (ioAppend io)); [by intros [= <- <-]|].
  set (n1 := set_recorders _ _).
  assert (inv n1) as Hinv1.
  { apply (inv_tables n); [done| |done|done|done].
    apply (tables_frame (set_recorders (set_values (append n (WReceipt (RSlot req) next)) (values n)) (receipt_recorders n (WReceipt (RSlot req) next)))).
    { split_and!; try done. simpl. by rewrite bool_decide_eq_true_2. }
    apply tables_append; [apply Hinv|done| |apply (tk_values _ (proj1 Hinv))].
    split; [done|]. rewrite <-(tk_receipts _ (proj1 Hinv)) by done. apply (f_equal fst) in Hr. simpl in Hr. rewrite <-Hr. by constructor. }
  destruct (negb (ioSync io)); intros [= <- <-]; [done|].
  apply (inv_frame (sync n1)); [|by split_and!|done|done].
  apply (inv_tables n1); [done|by apply tables_sync, Hinv1|done|done|done].
Qed.

Lemma record_decided_inv io req v n r n' :
  inv n → decided n !! RSlot req = Some v → record_decided nodeID io req v n = (r, n') → inv n'.
Proof.
  intros Hinv Hd. unfold record_decided. destruct (tk_decided _ (proj1 Hinv) _ _ Hd) as (_ & Hvs & Hc).
  rewrite <-Hvs in *. case_bool_decide; simpl negb; cbv iota; [by intros [= <- <-]|].
  destruct (log_decision _ _ _ _) as [[u|e] n1] eqn:Hl;
    destruct (log_decision_inv _ _ _ _ _ _ Hinv Hd eq_refl eq_refl Hc Hl) as (Hinv1 & _ & _ & _ & Hin & _);
    [|by intros [= <- <-]].
  destruct (ioSync io); intros [= <- <-]; [|done]. apply sync_mark_inv; [done|]. destruct u. auto.
Qed.

Lemma record_inv io req n r n' :
  inv n → 0 <= RSlot req →
  record nodeID sha256 validateValue sealEligible io req n = (r, n') → inv n'.
Proof.
  intros Hinv Hs. unfold record. destruct (_ || _) eqn:E0; [by intros [= <- <-]|]. bool_hyps.
  destruct (HasPrefix _ _); [by intros [= <- <-]|]. destruct (RSlot req <=? floor n); [by intros [= <- <-]|].
  set (staged := if bool_decide _ then _ else _). destruct staged as [[u|e] n1] eqn:Est; subst staged.
  all: assert (inv n1) as Hinv1 by (revert Est; repeat case_match; intros Est; simplify_eq; try done;
    by destruct (stageValue_inv _ _ _ _ _ _ Hinv Est)).
  2:{ by intros [= <- <-]. }
  destruct (_ && _); [by intros [= <- <-]|]. unfold record_locked. destruct (RSlot req <=? floor n1); [by intros [= <- <-]|].
  match goal with |- match ?gate with _ => _ end = _ → _ => destruct gate; [by intros [= <- <-]|] end.
  destruct (decided n1 !! RSlot req) as [v|] eqn:Hd; [by apply record_decided_inv|].
  repeat case_match; try (by intros [= <- <-]); apply record_undecided_inv; try done; lia.
Qed.
End node.
