(* ===== verification/NodeProofs.v ===== *)
(** * A replica across its life

    The replica as a transition system whose steps are the operations of the
    file Node, restarts of the process and power failures.  What was
    acknowledged survives, a restart never refuses the replica's own WAL, and
    outstanding reservations never share a slot.  A process takes the entries it
    found at its start for durable although [Open] syncs nothing; the theorems
    say where that matters, and NodeExamples has a run in which it does. *)

From stdpp Require Import gmap list sorting relations.
From S2P Require Import Prelude Bytes Protocol Register Cluster Proposer Schedule ScheduleProofs Node NodeSafety.

(** ** The log only grows *)

(** What every operation of a running process keeps: entries are appended,
    the synced prefix grows, reservations are the callers' business. *)
Record extends (n n' : node) : Prop := {
  ex_wal : wal n `prefix_of` wal n';
  ex_synced : (synced n <= synced n')%nat;
  ex_found : found n' = found n;
  ex_next : nextSlot n' = nextSlot n;
  ex_vacant : vacant n' = vacant n;
}.

#[global] Instance extends_preorder : PreOrder extends.
Proof.
  split; [by intros n; split|]. intros x y z [] []. split; [by etrans|lia|congruence..].
Qed.

Lemma append_extends n e : extends n (append n e).
Proof. split; [by apply prefix_app_r|done..]. Qed.

Lemma sync_extends n : (synced n <= length (wal n))%nat → extends n (sync n).
Proof. intros H. split; simpl; [done| |done..]. destruct (walDirty n); lia. Qed.

(** Changes of other tables. *)
Lemma frame_extends n n' :
  wal n' = wal n → synced n' = synced n → found n' = found n → nextSlot n' = nextSlot n → vacant n' = vacant n → extends n n'.
Proof. intros E ????. split; [by rewrite E|lia|done..]. Qed.

Create HintDb node.
#[export] Hint Resolve append_extends sync_extends : node.
#[export] Hint Extern 2 (extends _ _) => (apply frame_extends; reflexivity) : node.

Lemma log_decision_extends ok slot v n r n' : log_decision ok slot v n = (r, n') → extends n n'.
Proof.
  unfold log_decision. repeat case_match; intros [= <- <-]; [done| |done].
  transitivity (append n (WDecide v)); eauto with node.
Qed.

Lemma advance_loop_frame sha256 fuel n :
  ∃ t p, advance_loop sha256 fuel n = set_tip n t p.
Proof.
  revert n. induction fuel as [|fuel IH]; intros n; simpl; [exists (tip n), (prefixes n); by destruct n|].
  destruct (decided n !! _); [|exists (tip n), (prefixes n); by destruct n].
  destruct (IH (set_tip n (tip n + 1)
    (<[tip n + 1 := AdvancePrefixHash sha256 (default zeroHash (prefixes n !! tip n)) (tip n + 1) (dvHash d)]> (prefixes n))))
    as (t & p & ->). by exists t, p.
Qed.

Section node.
Context (config_ : Cluster) (sha256 : bytes → ValueHash).
Context (validateValue : option (bytes → bool)) (decodeSchedule : bytes → option (list NodeID)).
Context (history : gmap Slot DecidedValue).

Abbreviation accept := (acceptDecision config_ sha256 validateValue decodeSchedule).
Abbreviation restart := (recover config_ sha256 validateValue decodeSchedule).
Abbreviation inv := (NodeSafety.inv config_ sha256 validateValue decodeSchedule history).
Abbreviation tables_ok := (NodeSafety.tables_ok config_ sha256 validateValue decodeSchedule history).
Abbreviation cert_ok := (NodeSafety.cert_ok config_ sha256 validateValue decodeSchedule history).
Abbreviation sound := (NodeSafety.sound config_ sha256 validateValue decodeSchedule history).
Abbreviation delivered := (NodeSafety.delivered config_ sha256 validateValue decodeSchedule history).

Lemma stageValue_extends ok hash value n r n' :
  stageValue sha256 validateValue ok hash value n = (r, n') → extends n n'.
Proof.
  unfold stageValue, stageValueLocked. repeat case_match; intros [= <- <-]; try done.
  transitivity (append n (WProposal hash value)); eauto with node.
Qed.

Lemma acceptDecision_extends d n r n' : accept d n = (r, n') → extends n n'.
Proof.
  unfold acceptDecision. repeat case_match; intros [= <- <-]; try done.
  unfold advanceTipLocked. destruct (advance_loop_frame sha256 (size (decided (install config_ d n))) (install config_ d n))
    as (t & p & ->). by apply frame_extends.
Qed.

Lemma accept_page_extends ok durably page n r n' :
  accept_page config_ sha256 validateValue decodeSchedule ok durably page n = (r, n') → extends n n'.
Proof.
  revert n. induction page as [|[v d] page IH]; intros n; simpl; [by intros [= <- <-]|].
  destruct (accept d n) as [[u|e] n1] eqn:Ha; apply acceptDecision_extends in Ha; [|by intros [= <- <-]].
  destruct durably; [|intros H; etrans; [done|by apply IH]].
  destruct (_ <=? _); [by intros [= <- <-]|].
  destruct (log_decision _ _ _ _) as [[u'|e] n2] eqn:Hl; apply log_decision_extends in Hl.
  - intros H. do 2 (etrans; [eassumption|]). by apply IH.
  - intros [= <- <-]. by etrans.
Qed.

Lemma mark_page_extends page n : extends n (mark_page page n).
Proof.
  unfold mark_page. revert n. induction page as [|p page IH]; intros n; simpl; [done|].
  etrans; [|apply IH]. destruct (decided n !! _); by apply frame_extends.
Qed.

(** An operation that syncs does it in a state with the invariant. *)
Lemma inv_sync_extends n : inv n → extends n (sync n).
Proof. intros Hinv. apply sync_extends. pose proof (tk_synced _ _ _ _ _ _ (proj1 Hinv)). unfold trusted in *. lia. Qed.

Lemma log_sync_extends ok slot v n r n' :
  inv n → decided n !! slot = Some v → log_decision ok slot v n = (r, n') →
  inv n' ∧ extends n n' ∧ extends n (sync n') ∧ (r = Ok tt → slot ∈ logged n').
Proof.
  intros Hinv Hd Hl. destruct (tk_decided _ _ _ _ _ _ (proj1 Hinv) _ _ Hd) as (_ & <- & Hc).
  destruct (log_decision_inv _ _ _ _ _ _ _ _ _ _ _ Hinv Hd eq_refl eq_refl Hc Hl) as (Hinv1 & _ & _ & _ & Hin & _).
  apply log_decision_extends in Hl. split_and!; [done|done| |done]. etrans; [done|by apply inv_sync_extends].
Qed.

Lemma storeValue_extends ok syncOk hash value n r n' :
  inv n → storeValue sha256 validateValue ok syncOk hash value n = (r, n') → extends n n'.
Proof.
  intros Hinv. unfold storeValue. destruct (stageValue _ _ _ _ _ _) as [[u|e] n1] eqn:Es;
    destruct (stageValue_inv _ _ _ _ _ _ _ _ _ _ _ Hinv Es) as (Hinv1 & _); apply stageValue_extends in Es.
  - case_bool_decide; [by intros [= <- <-]|]. destruct syncOk; intros [= <- <-]; [|done].
    etrans; [done|]. etrans; [by apply inv_sync_extends|]. by apply frame_extends.
  - by intros [= <- <-].
Qed.

Lemma ensureDurableLocked_extends ok syncOk slot n r n' :
  inv n → ensureDurableLocked ok syncOk slot n = (r, n') → extends n n'.
Proof.
  intros Hinv. unfold ensureDurableLocked. destruct (slot =? 0); [by intros [= <- <-]|].
  destruct (slot <=? floor n); [by intros [= <- <-]|]. destruct (decided n !! slot) as [v|] eqn:Hd; [|by intros [= <- <-]].
  case_bool_decide; [by intros [= <- <-]|]. destruct (HasPrefix _ _); [by intros [= <- <-]|].
  destruct (log_decision _ _ _ _) as [[u|e] n1] eqn:Hl;
    destruct (log_sync_extends _ _ _ _ _ _ Hinv Hd Hl) as (_ & ? & ? & _); [|by intros [= <- <-]].
  destruct syncOk; intros [= <- <-]; [|done]. etrans; [done|by apply frame_extends].
Qed.

Lemma append_prefix_extends ok fuel slot pending n r n' : append_prefix ok fuel slot pending n = (r, n') → extends n n'.
Proof.
  revert slot pending n. induction fuel as [|fuel IH]; intros slot pending n; simpl; [by intros [= <- <-]|].
  destruct (decided n !! slot) as [v|]; [|by intros [= <- <-]].
  destruct (log_decision _ _ _ _) as [[u|e] n1] eqn:Hl; apply log_decision_extends in Hl; [|by intros [= <- <-]].
  intros H. etrans; [exact Hl|by eapply IH].
Qed.

Lemma mark_pending_extends pending n : extends n (mark_pending pending n).
Proof.
  unfold mark_pending. revert n. induction pending as [|p pending IH]; intros n; simpl; [done|].
  etrans; [|apply IH]. repeat case_match; by apply frame_extends.
Qed.

Lemma advance_frontier_extends fuel n : extends n (advance_frontier fuel n).
Proof.
  revert n. induction fuel as [|fuel IH]; intros n; simpl; [done|]. case_match; [|done]. etrans; [|apply IH]. by apply frame_extends.
Qed.

Lemma ensureDurableThrough_extends ok syncOk through n r n' :
  inv n → ensureDurableThrough ok syncOk through n = (r, n') → extends n n'.
Proof.
  intros Hinv. unfold ensureDurableThrough, appendUndurablePrefix.
  destruct (append_prefix _ _ _ _ _) as [[pending|e] n1] eqn:Ha;
    destruct (append_prefix_inv _ _ _ _ _ _ _ _ _ _ _ _ Hinv Ha) as (Hinv1 & _); apply append_prefix_extends in Ha; [|by intros [= <- <-]].
  case_bool_decide; [intros [= <- <-]; etrans; [exact Ha|apply advance_frontier_extends]|].
  destruct syncOk; intros [= <- <-]; [|done]. etrans; [exact Ha|]. etrans; [by apply inv_sync_extends|].
  etrans; [apply mark_pending_extends|apply advance_frontier_extends].
Qed.

Lemma acceptCertifiedValues_extends ok syncOk vs durably n r n' :
  inv n → Forall delivered vs →
  acceptCertifiedValues config_ sha256 validateValue decodeSchedule ok syncOk vs durably n = (r, n') → extends n n'.
Proof.
  intros Hinv Hvs. unfold acceptCertifiedValues. destruct (certify_page _ _ vs) as [page|] eqn:Hc; [|by intros [= <- <-]].
  destruct (negb _); [by intros [= <- <-]|]. pose proof (certify_page_ok _ _ _ _ _ _ _ Hvs Hc) as Hp.
  destruct (accept_page _ _ _ _ _ _ _ _) as [[u|e] n1] eqn:Ha;
    destruct (accept_page_inv _ _ _ _ _ _ _ _ _ _ _ Hinv Hp Ha) as (Hinv1 & _); apply accept_page_extends in Ha;
    [|by intros [= <- <-]].
  destruct (_ || _); [by intros [= <- <-]|]. destruct syncOk; intros [= <- <-]; [|done].
  etrans; [done|]. etrans; [by apply inv_sync_extends|]. apply mark_page_extends.
Qed.

Context (nodeID : NodeID) (sealEligible : bytes → bool).
Abbreviation record_ := (record nodeID sha256 validateValue sealEligible).

(** What a reply describes: a decision, or a state of the slot's register. *)
Definition reports_decision (req : RecordRequest) (v : DecidedValue) (summary : Summary) : Prop :=
  SFirstCurrent summary = Some (DProposal (certificate_decision v)) ∧ SAggregatePrior summary = Some (DProposal (certificate_decision v)).
Definition reports_register (st : ISR) (summary : Summary) : Prop :=
  summary = mkSummary nodeID zeroHash (Step_ st) (FirstCurrent st) (AggregatePrior st).

(** The outcome of a recording: a refusal leaves a grown log; a reply means
    the decision of the slot is marked durable, or the register state it
    describes is the last receipt of a log that is on disk. *)
Definition recorded (req : RecordRequest) (summary : Summary) (n' : node) : Prop :=
  (RSlot req ∈ durable n' ∧ ∃ v, decided n' !! RSlot req = Some v ∧ reports_decision req v summary) ∨
  ∃ st, recorders n' !! RSlot req = Some st ∧ synced n' = length (wal n') ∧ decided n' !! RSlot req = None ∧
    reports_register st summary.

Lemma record_undecided_spec io req n r n' :
  inv n → 0 < RSlot req → 4 <= RStep req → decided n !! RSlot req = None →
  record_undecided nodeID io req n = (r, n') →
  extends n n' ∧ (∀ sm, r = Ok sm → recorded req sm n').
Proof.
  intros Hinv Hs Ht Hd. pose proof (tk_synced _ _ _ _ _ _ (proj1 Hinv)) as Hsy. unfold trusted in Hsy. unfold record_undecided.
  destruct (Record_ _ _ _) as [next summary] eqn:Hr. destruct (negb (ioAppend io)); [by intros [= <- <-]|].
  assert (∀ n1, wal n1 = wal n ++ [WReceipt (RSlot req) next] → synced n1 = synced n ∨ synced n1 = length (wal n1) →
    found n1 = found n → nextSlot n1 = nextSlot n → vacant n1 = vacant n → extends n n1) as Hext.
  { intros n1 Hw Hsn ???. split; [rewrite Hw; by apply prefix_app_r| |done..]. rewrite Hw, length_app in Hsn. lia. }
  destruct (negb (ioSync io)); intros [= <- <-]; (split; [apply Hext; auto|]); [done|].
  intros sm <-%Ok_inj. right. exists next. simpl. split_and!; [by rewrite lookup_insert_eq|done|done|]. unfold reports_register.
  apply (f_equal snd) in Hr as Hr2. apply (f_equal fst) in Hr. simpl in Hr, Hr2. by subst.
Qed.

Lemma record_decided_spec io req v n r n' :
  inv n → decided n !! RSlot req = Some v → record_decided nodeID io req v n = (r, n') →
  extends n n' ∧ (∀ sm, r = Ok sm → recorded req sm n').
Proof.
  intros Hinv Hd. unfold record_decided. case_bool_decide; simpl negb; cbv iota.
  { intros [= <- <-]. split; [done|]. intros sm <-%Ok_inj. left. split; [done|by exists v]. }
  destruct (log_decision _ _ _ _) as [[u|e] n1] eqn:Hl;
    destruct (log_sync_extends _ _ _ _ _ _ Hinv Hd Hl) as (_ & ? & ? & _); [|by intros [= <- <-]].
  assert (decided n1 = decided n) as Ed by (revert Hl; unfold log_decision; repeat case_match; by intros [= <- <-]).
  destruct (ioSync io); intros [= <- <-]; [|done]. split; [etrans; [done|by apply frame_extends]|].
  intros sm <-%Ok_inj. left. split; [apply elem_of_union_l, elem_of_singleton; done|]. exists v. split; [|done]. simpl. by rewrite Ed.
Qed.

Lemma record_spec io req n r n' :
  inv n → 0 <= RSlot req → record_ io req n = (r, n') →
  extends n n' ∧ (∀ sm, r = Ok sm → recorded req sm n').
Proof.
  intros Hinv Hs. unfold record. destruct (_ || _) eqn:E0; [by intros [= <- <-]|]. bool_hyps.
  destruct (HasPrefix _ _); [by intros [= <- <-]|]. destruct (RSlot req <=? floor n); [by intros [= <- <-]|].
  set (staged := if bool_decide _ then _ else _). destruct staged as [[u|e] n1] eqn:Est; subst staged.
  all: assert (inv n1 ∧ extends n n1) as [Hinv1 Hext] by (revert Est; repeat case_match; intros Est; simplify_eq; try done;
    destruct (stageValue_inv _ _ _ _ _ _ _ _ _ _ _ Hinv Est); by apply stageValue_extends in Est).
  2:{ by intros [= <- <-]. }
  destruct (_ && _); [by intros [= <- <-]|]. unfold record_locked. destruct (RSlot req <=? floor n1); [by intros [= <- <-]|].
  match goal with |- match ?gate with _ => _ end = _ → _ => destruct gate; [by intros [= <- <-]|] end.
  destruct (decided n1 !! RSlot req) as [v|] eqn:Hd.
  { intros [? ?]%record_decided_spec; [|done|done]. split; [by etrans|done]. }
  repeat case_match; try (by intros [= <- <-]);
    (intros [? ?]%record_undecided_spec; [split; [by etrans|done]|done|lia|done|done]).
Qed.

(** ** Recovery *)

(** Replay does not touch the log. *)
Definition same_log (m m' : node) : Prop := wal m' = wal m ∧ synced m' = synced m ∧ walDirty m' = walDirty m ∧ found m' = found m.

(** What the scan of a list of entries has built. *)
Record scanned (es : list walEntry) (m : node) : Prop := {
  sc_start : floor m = 0 ∧ tip m = 0 ∧ prefixes m = ∅ ∧ vacant m = [] ∧ nextSlot m = 1;
  sc_decided s v : decided m !! s = Some v → WDecide v ∈ es ∧ dvSlot v = s;
  sc_logged v : WDecide v ∈ es → is_Some (decided m !! dvSlot v);
  sc_marks : logged m = dom (decided m) ∧ durable m = dom (decided m);
  sc_receipts s : decided m !! s = None → recorders m !! s = last_receipt es s;
  sc_recorders s : is_Some (decided m !! s) → recorders m !! s = None;
  sc_values h v : values m !! h = Some v → sha256 v = h;
  sc_kept h v : WProposal h v ∈ es → is_Some (values m !! h);
}.

Lemma recover_scan_app es1 es2 n :
  recover_scan config_ sha256 validateValue decodeSchedule (es1 ++ es2) n =
  (let! m := recover_scan config_ sha256 validateValue decodeSchedule es1 n in
   recover_scan config_ sha256 validateValue decodeSchedule es2 m).
Proof.
  revert n. induction es1 as [|e es1 IH]; intros n; [done|]. simpl. destruct (recover_entry _ _ _ _ e n); [apply IH|done].
Qed.

Lemma certificate_decision_store v :
  cert_ok v → mkDecided (DSlot (certificate_decision v)) (Hash (DProposal (certificate_decision v))) (dvValue v) (dvCertificate v) = v.
Proof. intros [_ _ H3 H4 _ _]. simpl. rewrite H3, H4. by destruct v. Qed.

(** The entries of a log with the invariant: what a prefix of it holds. *)
Record entries_ok (es : list walEntry) : Prop := {
  eo_decide v : WDecide v ∈ es → 0 < dvSlot v ∧ cert_ok v;
  eo_same v v' : WDecide v ∈ es → WDecide v' ∈ es → dvSlot v = dvSlot v' → dvHash v = dvHash v' ∧ dvValue v = dvValue v';
  eo_proposal h v : WProposal h v ∈ es → v ≠ [] ∧ checkValue validateValue v = true ∧ sha256 v = h;
  eo_receipt s st : WReceipt s st ∈ es → 0 < s;
}.

Lemma entries_ok_app es1 es2 : entries_ok (es1 ++ es2) → entries_ok es1.
Proof.
  assert (∀ e, e ∈ es1 → e ∈ es1 ++ es2) as Hin by (intros e He; apply elem_of_app; by left).
  intros [E1 E2 E3 E4]. split; eauto.
Qed.

Lemma inv_entries n k : tables_ok n → entries_ok (take k (wal n)).
Proof.
  intros Ht. split.
  - intros v (_ & Hc & v0 & Hd & _)%subseteq_take%(tk_wal_decide _ _ _ _ _ _ Ht). split; [|done].
    by destruct (tk_decided _ _ _ _ _ _ Ht _ _ Hd).
  - intros v v' (_ & _ & v0 & Hd & ? & ?)%subseteq_take%(tk_wal_decide _ _ _ _ _ _ Ht)
      (_ & _ & v1 & Hd' & ? & ?)%subseteq_take%(tk_wal_decide _ _ _ _ _ _ Ht) E. rewrite E in Hd. split; congruence.
  - intros h v ?%subseteq_take. by apply (tk_wal_proposal _ _ _ _ _ _ Ht).
  - intros s st ?%subseteq_take. by apply (tk_wal_receipt _ _ _ _ _ _ Ht _ st).
Qed.

Lemma scanned_history es m : entries_ok es → scanned es m → values_in m (cluster_history history).
Proof.
  intros He Hm. apply map_subseteq_spec. intros s b. rewrite !lookup_fmap. simpl. intros (v & Hv & ->)%fmap_Some.
  destruct (sc_decided _ _ Hm _ _ Hv) as [Hin <-]. apply (co_agrees _ _ _ _ _ _ (proj2 (eo_decide _ He _ Hin))).
Qed.

(** A decided slot's certificate passes the lenient validation of recovery. *)
Lemma scanned_validates es m v :
  entries_ok es → values_in m (cluster_history history) → WDecide v ∈ es →
  validateDecisionForRecovery config_ sha256 validateValue decodeSchedule m true (certificate_decision v) = None.
Proof.
  intros He Hin Hv. destruct (eo_decide _ He _ Hv) as [Hs Hc].
  apply (validate_lenient _ _ _ _ (cluster_history history)); [|done|apply Hc].
  simpl. by rewrite (co_slot _ _ _ _ _ _ Hc).
Qed.

Lemma scan_proposal pre h v m :
  scanned pre m → v ≠ [] → checkValue validateValue v = true → sha256 v = h →
  ∃ m', recover_entry config_ sha256 validateValue decodeSchedule (WProposal h v) m = Ok m' ∧
    scanned (pre ++ [WProposal h v]) m' ∧ same_log m m'.
Proof.
  intros [H1 H2 H3 H4 H5 H6 H7 H8] Hne Hck Hsha. eexists. split.
  { simpl. rewrite Hck, (bool_decide_eq_false_2 _ Hne), (bool_decide_eq_true_2 _ Hsha). reflexivity. }
  split; [|done]. split; simpl; try done.
  - intros s x Hx. destruct (H2 _ _ Hx). split; [|done]. by apply elem_of_app; left.
  - intros x [Hx|Hx%list_elem_of_singleton]%elem_of_app; [by apply H3|done].
  - intros s Hs. rewrite last_receipt_snoc. by apply H5.
  - intros h' x [[<- <-]|[_ Hx]]%lookup_insert_Some; [done|by apply H7].
  - intros h' x Hx. apply lookup_insert_is_Some'.
    apply elem_of_app in Hx as [Hx|Hx%list_elem_of_singleton]; [right; by apply (H8 _ x)|left; congruence].
Qed.

Lemma scan_receipt pre s0 st m :
  scanned pre m → 0 < s0 →
  ∃ m', recover_entry config_ sha256 validateValue decodeSchedule (WReceipt s0 st) m = Ok m' ∧
    scanned (pre ++ [WReceipt s0 st]) m' ∧ same_log m m'.
Proof.
  intros [H1 H2 H3 H4 H5 H6 H7 H8] Hs0. simpl. destruct (Z.eqb_spec s0 0); [lia|].
  assert (∀ r, (∀ s, decided m !! s = None → r !! s = last_receipt (pre ++ [WReceipt s0 st]) s) →
    (∀ s, is_Some (decided m !! s) → r !! s = None) → scanned (pre ++ [WReceipt s0 st]) (set_recorders m r)) as Hset.
  { intros r Hr1 Hr2. split; simpl; try done.
    - intros s x Hx. destruct (H2 _ _ Hx). split; [|done]. by apply elem_of_app; left.
    - intros x [Hx|Hx%list_elem_of_singleton]%elem_of_app; [by apply H3|done].
    - intros h' x [Hx|Hx%list_elem_of_singleton]%elem_of_app; [by apply (H8 _ x)|done]. }
  case_bool_decide as Hd; eexists; (split; [done|]); (split; [|done]).
  - apply Hset; intros s Hs.
    + rewrite last_receipt_snoc. destruct (Z.eqb_spec s0 s) as [->|]; [by rewrite lookup_insert_eq|].
      rewrite lookup_insert_ne by done. by apply H5.
    + rewrite lookup_insert_ne; [by apply H6|]. intros ->. rewrite Hd in Hs. by destruct Hs.
  - replace m with (set_recorders m (recorders m)) by (by destruct m). apply Hset; [|done].
    intros s Hs. rewrite last_receipt_snoc. destruct (Z.eqb_spec s0 s) as [->|]; [done|by apply H5].
Qed.

Lemma scan_decide pre v m :
  entries_ok (pre ++ [WDecide v]) → scanned pre m →
  ∃ m', recover_entry config_ sha256 validateValue decodeSchedule (WDecide v) m = Ok m' ∧
    scanned (pre ++ [WDecide v]) m' ∧ same_log m m'.
Proof.
  intros He Hm. assert (WDecide v ∈ pre ++ [WDecide v]) as Hin by (apply elem_of_app; right; by left).
  assert (values_in m (cluster_history history)) as Hh.
  { apply (scanned_history pre); [|done]. by apply entries_ok_app in He. }
  pose proof (scanned_validates _ _ _ He Hh Hin) as Hv. destruct (eo_decide _ He _ Hin) as [Hs Hc].
  pose proof (certificate_decision_store _ Hc) as Hst. destruct Hc as [C1 C2 C3 C4 C5 C6].
  assert (match decided m !! dvSlot v with
          | Some ex => negb (bool_decide (dvHash ex = dvHash v)) | None => false end = false) as Hconf.
  { destruct (decided m !! dvSlot v) as [ex|] eqn:Hd; [|done]. destruct (sc_decided _ _ Hm _ _ Hd) as [Hex Heq].
    apply negb_false_iff, bool_decide_eq_true_2. apply (eo_same _ He ex v); [by apply elem_of_app; left|done|done]. }
  eexists. split.
  { unfold recover_entry, replay_entry. rewrite Hv, Hst. simpl. rewrite C2, C3, C4, Hconf, C1, Z.eqb_refl, (bool_decide_eq_true_2 _ eq_refl).
    simpl. reflexivity. }
  split; [|done]. destruct Hm as [H1 H2 H3 H4 H5 H6 H7 H8]. split; simpl; try done.
  - intros s x [[<- <-]|[_ Hx]]%lookup_insert_Some; [done|]. destruct (H2 _ _ Hx). split; [|done]. by apply elem_of_app; left.
  - intros x Hx. apply lookup_insert_is_Some'.
    apply elem_of_app in Hx as [Hx|Hx%list_elem_of_singleton]; [right; by apply H3|left; congruence].
  - rewrite dom_insert_L. destruct H4 as [-> ->]. done.
  - intros s [Hs1 Hs2]%lookup_insert_None. rewrite lookup_delete_ne, last_receipt_snoc by done. by apply H5.
  - intros s Hs'. destruct (decide (dvSlot v = s)) as [->|Hne]; [by rewrite lookup_delete_eq|].
    rewrite lookup_insert_ne in Hs' by done. rewrite lookup_delete_ne by done. by apply H6.
  - intros h' x [[<- <-]|[_ Hx]]%lookup_insert_Some; [done|by apply H7].
  - intros h' x Hx. apply lookup_insert_is_Some'. right.
    apply elem_of_app in Hx as [Hx|Hx%list_elem_of_singleton]; [by apply (H8 _ x)|done].
Qed.

Lemma scan_all es w k f :
  entries_ok es →
  ∃ m, recover_scan config_ sha256 validateValue decodeSchedule es (set_wal emptyNode w k false f) = Ok m ∧
    scanned es m ∧ same_log (set_wal emptyNode w k false f) m.
Proof.
  induction es as [|e es IH] using rev_ind; intros He.
  { eexists. split; [done|]. split; [|done]. split; simpl; try done; by intros ? ?%elem_of_nil || (intros ? ? ?%elem_of_nil). }
  destruct (IH (entries_ok_app _ _ He)) as (m & Hm & Hsc & Hlog). rewrite recover_scan_app, Hm. cbn [rbind recover_scan].
  assert (e ∈ es ++ [e]) as Hin by (apply elem_of_app; right; by left).
  assert (∃ m', recover_entry config_ sha256 validateValue decodeSchedule e m = Ok m' ∧
    scanned (es ++ [e]) m' ∧ same_log m m') as (m' & -> & ? & Hlog').
  { destruct e as [h v|s st|v].
    - destruct (eo_proposal _ He _ _ Hin) as (? & ? & ?). by apply scan_proposal.
    - apply scan_receipt; [done|]. by apply (eo_receipt _ He _ st).
    - by apply scan_decide. }
  exists m'. split; [done|]. split; [done|]. unfold same_log in *. destruct Hlog as (? & ? & ? & ?), Hlog' as (? & ? & ? & ?). split_and!; congruence.
Qed.

Lemma last_error_none (f : DecidedValue → option nodeError) (m : gmap Slot DecidedValue) :
  (∀ s v, m !! s = Some v → f v = None) →
  map_fold (λ _ v acc, match acc with Some e => Some e | None => f v end) None m = None.
Proof.
  intros H. apply (map_fold_weak_ind (λ acc m, (∀ s v, m !! s = Some v → f v = None) → acc = None)); [done| |done].
  intros s v m' acc Hs IH Hall. rewrite IH; [by apply (Hall s), lookup_insert_eq|].
  intros s' v' Hv'. apply (Hall s'). by apply lookup_insert_Some; right; split; [intros ->; congruence|].
Qed.

(** The tables of a scanned prefix of a log with the invariant. *)
Lemma scanned_tables n k m :
  tables_ok n → scanned (take k (wal n)) m → wal m = take k (wal n) → found m = length (take k (wal n)) →
  (synced m <= found m)%nat → tables_ok m.
Proof.
  intros Ht Hm Hw Hfound Hk. pose proof (inv_entries _ k Ht) as He. set (es := take k (wal n)) in *.
  assert (trusted m = length es) as Htr by (unfold trusted; lia).
  destruct Hm as [(H1 & _) H2 H3 [H4 H4'] H5 H6 H7 H8]. split; rewrite ?Hw, ?Htr; try done.
  - intros s v Hv. destruct (H2 _ _ Hv) as [Hin <-]. by destruct (eo_decide _ He _ Hin).
  - intros s. rewrite H4. intros (v & Hv)%elem_of_dom. exists v. by apply H2.
  - intros v Hin. destruct (H3 v Hin) as [v0 Hv0]. destruct (H2 _ _ Hv0) as [Hin0 Hs0]. split_and!.
    + rewrite H4. by apply elem_of_dom.
    + by apply (eo_decide _ He).
    + exists v0. destruct (eo_same _ He v0 v); done.
  - apply (eo_proposal _ He).
  - apply (eo_receipt _ He).
  - intros j s st Hj. subst es. apply lookup_take_Some in Hj as [Hj Hlt]. rewrite take_take, Nat.min_l by lia.
    by apply (tk_chain _ _ _ _ _ _ Ht).
  - intros s. rewrite H4', firstn_all. intros (v & Hv)%elem_of_dom. exists v. by apply H2.
Qed.

(** What a start from the entries [es], [j] of them on disk, gives. *)
Record started (es : list walEntry) (j : nat) (n' : node) : Prop := {
  st_inv : inv n';
  st_wal : wal n' = es;
  st_synced : synced n' = j;
  st_found : found n' = length es;
  st_all v : WDecide v ∈ es → is_Some (decided n' !! dvSlot v);
  st_only s v : decided n' !! s = Some v → WDecide v ∈ es;
  st_values h v : WProposal h v ∈ es → is_Some (values n' !! h);
  st_durable : durable n' = dom (decided n');
}.

Lemma recover_spec n k j :
  tables_ok n → (j <= length (take k (wal n)))%nat → ∃ n', restart (take k (wal n)) j = Ok n' ∧ started (take k (wal n)) j n'.
Proof.
  intros Ht Hj. pose proof (inv_entries _ k Ht) as He.
  destruct (scan_all _ (take k (wal n)) j (length (take k (wal n))) He) as (m & Hm & Hsc & Hw & Hk & Hdirty & Hf).
  simpl in Hw, Hk, Hdirty, Hf.
  pose proof (scanned_tables _ _ _ Ht Hsc Hw Hf ltac:(lia)) as Htm. destruct Hsc as [(S1 & S2 & S3 & _) S4 S5 [_ S6] _ _ _ S7].
  assert (prefix_ok sha256 m) as Hp.
  { split; rewrite ?S2, ?S3; [lia|intros; lia|intros; lia|done]. }
  destruct (advanceTip_spec _ _ Hp) as (Hp' & Heq & Hle & Hend).
  exists (advanceTipLocked sha256 m). unfold recover. rewrite Hm. cbn [rbind]. rewrite last_error_none.
  - split; [done|]. assert (same_tables m (advanceTipLocked sha256 m)) as Hsame by (rewrite Heq; by split_and!).
    pose proof Hsame as (_ & Ed & _ & Edur & _ & Ew & Es & _ & Ef & Ev). set (n' := advanceTipLocked sha256 m) in *.
    split; rewrite ?Ed, ?Edur, ?Ew, ?Es, ?Ef, ?Ev; try done; [|intros s v Hv; by apply (S4 s)].
    split_and!; [by apply (tables_frame _ _ _ _ _ m)|done|by rewrite Ed].
  - intros s v Hv. apply (scanned_validates (take k (wal n))); [done| |by apply (S4 s)].
    exact (inv_history _ _ _ _ _ m Htm).
Qed.

(** ** What the files hold when the process stops *)

(** The entry of a failed append is one that the replica would append. *)
Definition torn_ok (n : node) (torn : option walEntry) : Prop :=
  match torn with Some e => NodeSafety.fits config_ sha256 validateValue decodeSchedule history n e | None => True end.

Lemma torn_tables n torn :
  tables_ok n → torn_ok n torn →
  ∃ n1, tables_ok n1 ∧ wal n1 = wal (with_torn torn n) ∧ synced n1 = synced n ∧ decided n1 = decided n.
Proof.
  intros Ht Hf. destruct torn as [e|]; [|by exists n]. simpl in Hf. destruct e as [h v|s st|v].
  1: pose proof (tables_append _ _ _ _ _ n (WProposal h v) (values n) Ht ltac:(done) Hf (tk_values _ _ _ _ _ _ Ht)) as H; by eexists; split; [exact H|].
  1: pose proof (tables_append _ _ _ _ _ n (WReceipt s st) (values n) Ht ltac:(done) Hf (tk_values _ _ _ _ _ _ Ht)) as H; by eexists; split; [exact H|].
  destruct Hf as (Hc & v0 & Hd & Eh & Ev). eexists. by split; [apply (tables_log _ _ _ _ _ n v v0)|].
Qed.

Lemma with_torn_wal torn n : wal n `prefix_of` wal (with_torn torn n).
Proof. destruct torn; simpl; [by apply prefix_app_r|done]. Qed.

Lemma with_torn_synced torn n : synced (with_torn torn n) = synced n.
Proof. by destruct torn. Qed.

Lemma process_spec n torn :
  inv n → torn_ok n torn →
  ∃ n', restart_process config_ sha256 validateValue decodeSchedule torn n = Ok n' ∧ started (wal (with_torn torn n)) (synced n) n'.
Proof.
  intros [Ht _] Hf. destruct (torn_tables n torn Ht Hf) as (n1 & Ht1 & Hw & Hs & _).
  destruct (recover_spec n1 (length (wal n1)) (synced n) Ht1) as (n' & Hr & Hst).
  { rewrite firstn_all, <-Hs. pose proof (tk_synced _ _ _ _ _ _ Ht1). unfold trusted in *. lia. }
  rewrite firstn_all, Hw in Hr, Hst. by exists n'.
Qed.

Lemma machine_spec n torn keep :
  inv n → torn_ok n torn →
  ∃ n', restart_machine config_ sha256 validateValue decodeSchedule torn keep n = Ok n' ∧
    started (power_cut keep (with_torn torn n)) (length (power_cut keep (with_torn torn n))) n'.
Proof.
  intros [Ht _] Hf. destruct (torn_tables n torn Ht Hf) as (n1 & Ht1 & Hw & _).
  unfold restart_machine, power_cut. rewrite <-Hw. by apply recover_spec.
Qed.

(** ** The transition system *)

(** The operations of a running process.  Slots are unsigned; delivered
    decisions are sound. *)
Inductive op_step (n : node) : node → Prop :=
| step_reserve : op_step n (reserveSlot n).2
| step_release slot : op_step n (releaseSlot slot n)
| step_stage ok hash value : op_step n (stageValue sha256 validateValue ok hash value n).2
| step_store ok syncOk hash value : op_step n (storeValue sha256 validateValue ok syncOk hash value n).2
| step_record io req : 0 <= RSlot req → op_step n (record_ io req n).2
| step_accept d : 0 <= DSlot d → sound d → op_step n (accept d n).2
| step_log ok slot v : decided n !! slot = Some v → op_step n (log_decision ok slot v n).2
| step_durable ok syncOk slot : op_step n (ensureDurableLocked ok syncOk slot n).2
| step_through ok syncOk through : op_step n (ensureDurableThrough ok syncOk through n).2
| step_page ok syncOk vs durably :
    Forall delivered vs →
    op_step n (acceptCertifiedValues config_ sha256 validateValue decodeSchedule ok syncOk vs durably n).2.

(** The life of a replica while its machine has power: its operations, and
    restarts of the process, which find the whole log and possibly the entry of
    an append that failed. *)
Inductive live_step (n : node) : node → Prop :=
| step_op n' : op_step n n' → live_step n n'
| step_process torn n' :
    torn_ok n torn → restart_process config_ sha256 validateValue decodeSchedule torn n = Ok n' → live_step n n'.

(** With power failures, which leave the synced entries and a prefix of the
    others. *)
Inductive node_step (n : node) : node → Prop :=
| step_live n' : live_step n n' → node_step n n'
| step_power torn keep n' :
    torn_ok n torn → restart_machine config_ sha256 validateValue decodeSchedule torn keep n = Ok n' → node_step n n'.

Lemma reserve_frame n : same_tables n (reserveSlot n).2 ∧ tip (reserveSlot n).2 = tip n ∧ prefixes (reserveSlot n).2 = prefixes n.
Proof. unfold reserveSlot. destruct (take_vacant _ _) as [[slot rest]|]; by split_and!. Qed.

Lemma release_frame slot n : same_tables n (releaseSlot slot n) ∧ tip (releaseSlot slot n) = tip n ∧ prefixes (releaseSlot slot n) = prefixes n.
Proof. unfold releaseSlot. repeat case_match; by split_and!. Qed.

Lemma op_step_inv n n' : inv n → op_step n n' → inv n'.
Proof.
  intros Hinv Hstep.
  inversion Hstep as [|slot|ok h v|ok sy h v|io req Hs|d Hs Hd|ok slot v Hd|ok sy slot|ok sy through|ok sy vs dur Hvs]; subst n'.
  - destruct (reserve_frame n) as (? & ? & ?). by apply (inv_frame _ _ _ _ _ n).
  - destruct (release_frame slot n) as (? & ? & ?). by apply (inv_frame _ _ _ _ _ n).
  - destruct (stageValue _ _ _ _ _ _) eqn:E. by destruct (stageValue_inv _ _ _ _ _ _ _ _ _ _ _ Hinv E).
  - destruct (storeValue _ _ _ _ _ _ _) eqn:E. by apply (storeValue_inv _ _ _ _ _ _ _ _ _ _ _ _ Hinv) in E.
  - destruct (record _ _ _ _ _ _ _) eqn:E. by apply (record_inv _ _ _ _ _ _ _ _ _ _ _ _ Hinv Hs) in E.
  - destruct (acceptDecision _ _ _ _ _ _) eqn:E. by destruct (acceptDecision_inv _ _ _ _ _ _ _ _ _ Hinv Hs Hd E).
  - destruct (log_decision _ _ _ _) eqn:E. by destruct (log_sync_extends _ _ _ _ _ _ Hinv Hd E).
  - destruct (ensureDurableLocked _ _ _ _) eqn:E. by destruct (ensureDurableLocked_inv _ _ _ _ _ _ _ _ _ _ _ Hinv E).
  - destruct (ensureDurableThrough _ _ _ _) eqn:E. by destruct (ensureDurableThrough_inv _ _ _ _ _ _ _ _ _ _ _ Hinv E).
  - destruct (acceptCertifiedValues _ _ _ _ _ _ _ _ _) eqn:E.
    by apply (acceptCertifiedValues_inv _ _ _ _ _ _ _ _ _ _ _ _ Hinv Hvs) in E.
Qed.

Lemma process_started n torn n' :
  inv n → torn_ok n torn → restart_process config_ sha256 validateValue decodeSchedule torn n = Ok n' →
  started (wal (with_torn torn n)) (synced n) n'.
Proof. intros Hinv Hf Hr. destruct (process_spec n torn Hinv Hf) as (n2 & Hr2 & Hst). rewrite Hr2 in Hr. by apply Ok_inj in Hr as <-. Qed.

Lemma machine_started n torn keep n' :
  inv n → torn_ok n torn → restart_machine config_ sha256 validateValue decodeSchedule torn keep n = Ok n' →
  started (power_cut keep (with_torn torn n)) (length (power_cut keep (with_torn torn n))) n'.
Proof. intros Hinv Hf Hr. destruct (machine_spec n torn keep Hinv Hf) as (n2 & Hr2 & Hst). rewrite Hr2 in Hr. by apply Ok_inj in Hr as <-. Qed.

Lemma node_step_inv n n' : inv n → node_step n n' → inv n'.
Proof.
  intros Hinv [n1 [n2 Hop|torn n2 Hf Hr]|torn keep n1 Hf Hr]; [by apply (op_step_inv n)| |].
  - apply (st_inv _ _ _ (process_started _ _ _ Hinv Hf Hr)).
  - apply (st_inv _ _ _ (machine_started _ _ _ _ Hinv Hf Hr)).
Qed.

Lemma emptyNode_inv : inv emptyNode.
Proof.
  split_and!; [|split; simpl; [lia|intros; lia|intros; lia|done]|done].
  split; simpl; try done; intros *; rewrite ?elem_of_nil, ?lookup_nil; try done; by intros [? ?].
Qed.

Definition reachable (n : node) : Prop := rtc node_step emptyNode n.

Lemma steps_inv n n' : inv n → rtc node_step n n' → inv n'.
Proof. intros Hinv H. induction H as [|x y z Hxy _ IH]; [done|]. apply IH. by apply (node_step_inv x). Qed.

Lemma node_reachable_inv n : reachable n → inv n.
Proof. apply steps_inv, emptyNode_inv. Qed.

(** The synced part of the log. *)
Definition stable (n : node) : list walEntry := take (synced n) (wal n).

(** The part the process takes for durable. *)
Definition trusted_log (n : node) : list walEntry := take (trusted n) (wal n).

Lemma take_grow {A} (l l' : list A) i j : l `prefix_of` l' → (i <= length l)%nat → (i <= j)%nat → take i l `prefix_of` take j l'.
Proof.
  intros [suf ->] Hi Hj. replace j with (i + (j - i))%nat by lia. rewrite <-take_take_drop, take_app_le by lia. by apply prefix_app_r.
Qed.

Lemma settled_log n : settled n → trusted_log n = stable n.
Proof. unfold settled, trusted_log, stable, trusted. intros H. by rewrite Nat.max_l. Qed.

Lemma inv_synced n : inv n → (synced n <= trusted n)%nat ∧ (trusted n <= length (wal n))%nat.
Proof. intros [Ht _]. split; [unfold trusted; lia|apply (tk_synced _ _ _ _ _ _ Ht)]. Qed.

(** The log of a process grows, and what is synced or trusted of it. *)
Record log_grows (n n' : node) : Prop := {
  lg_wal : wal n `prefix_of` wal n';
  lg_synced : (synced n <= synced n')%nat;
  lg_trusted : (trusted n <= trusted n')%nat;
}.

Lemma log_grows_same n n' : same_tables n n' → log_grows n n'.
Proof. intros (_ & _ & _ & _ & _ & E1 & E2 & _ & E3 & _). unfold trusted. split; unfold trusted; rewrite ?E1, ?E2, ?E3; done. Qed.

Lemma extends_log n n' : extends n n' → log_grows n n'.
Proof. intros [Hw Hs Hf _ _]. split; [done|done|]. unfold trusted. lia. Qed.

Lemma log_grows_stable n n' : inv n → log_grows n n' → stable n `prefix_of` stable n'.
Proof. intros Hinv [? ? _]. destruct (inv_synced n Hinv). apply take_grow; [done|lia|done]. Qed.

Lemma log_grows_trusted n n' : inv n → log_grows n n' → trusted_log n `prefix_of` trusted_log n'.
Proof. intros Hinv [? _ ?]. destruct (inv_synced n Hinv). by apply take_grow. Qed.

Lemma op_step_log n n' : inv n → op_step n n' → log_grows n n'.
Proof.
  intros Hinv Hstep.
  inversion Hstep as [|slot|ok h v|ok sy h v|io req Hs|d Hs Hd|ok slot v Hd|ok sy slot|ok sy through|ok sy vs dur Hvs]; subst n'.
  1: apply log_grows_same, (reserve_frame n).
  1: apply log_grows_same, (release_frame slot n).
  all: apply extends_log.
  - destruct (stageValue _ _ _ _ _ _) eqn:E. by apply stageValue_extends in E.
  - destruct (storeValue _ _ _ _ _ _ _) eqn:E. by apply storeValue_extends in E.
  - destruct (record _ _ _ _ _ _ _) eqn:E. by apply record_spec in E as [? _].
  - destruct (acceptDecision _ _ _ _ _ _) eqn:E. by apply acceptDecision_extends in E.
  - destruct (log_decision _ _ _ _) eqn:E. by apply log_decision_extends in E.
  - destruct (ensureDurableLocked _ _ _ _) eqn:E. by apply ensureDurableLocked_extends in E.
  - destruct (ensureDurableThrough _ _ _ _) eqn:E. by apply ensureDurableThrough_extends in E.
  - destruct (acceptCertifiedValues _ _ _ _ _ _ _ _ _) eqn:E. by apply acceptCertifiedValues_extends in E.
Qed.

(** A start of the process keeps its log; so does a power failure when the
    trusted entries are synced. *)
Lemma process_log n torn n' : inv n → started (wal (with_torn torn n)) (synced n) n' → log_grows n n'.
Proof.
  intros Hinv [Hi Hw Hs Hf _ _ _ _]. destruct (inv_synced n Hinv). pose proof (with_torn_wal torn n) as Hp.
  split; [by rewrite Hw|lia|]. apply prefix_length in Hp. unfold trusted in *. lia.
Qed.

Lemma power_cut_stable torn keep n : inv n → stable n `prefix_of` power_cut keep (with_torn torn n).
Proof.
  intros Hinv. destruct (inv_synced n Hinv). unfold power_cut. rewrite with_torn_synced. apply take_grow; [apply with_torn_wal|lia|lia].
Qed.

Lemma started_stable es n' : started es (length es) n' → stable n' = es ∧ trusted_log n' = es.
Proof. intros [_ Hw Hs Hf _ _ _ _]. unfold stable, trusted_log, trusted. by rewrite Hw, Hs, Hf, Nat.max_id, firstn_all. Qed.

Lemma live_step_log n n' : inv n → live_step n n' → log_grows n n'.
Proof.
  intros Hinv [n1 Hop|torn n1 Hf Hr]; [by apply op_step_log|]. eapply process_log; [done|]. by apply process_started.
Qed.

Lemma node_step_stable n n' : inv n → node_step n n' → stable n `prefix_of` stable n'.
Proof.
  intros Hinv [n1 Hl|torn keep n1 Hf Hr]; [apply log_grows_stable; [done|by apply live_step_log]|].
  destruct (started_stable _ _ (machine_started _ _ _ _ Hinv Hf Hr)) as [-> _]. by apply power_cut_stable.
Qed.

Lemma steps_stable n n' : inv n → rtc node_step n n' → stable n `prefix_of` stable n'.
Proof.
  intros Hinv H. induction H as [|x y z Hxy _ IH]; [done|].
  etrans; [by apply node_step_stable|]. apply IH. by apply (node_step_inv x).
Qed.

Lemma live_steps_trusted n n' : inv n → rtc live_step n n' → trusted_log n `prefix_of` trusted_log n'.
Proof.
  intros Hinv H. induction H as [|x y z Hxy _ IH]; [done|].
  etrans; [apply log_grows_trusted; [done|by apply live_step_log]|]. apply IH. by apply (node_step_inv x), step_live.
Qed.

(** What is trusted survives while the machine has power, and after a process
    whose start is settled in any case. *)
Lemma trusted_survives n n' :
  inv n → rtc node_step n n' → settled n ∨ rtc live_step n n' → trusted_log n `prefix_of` wal n'.
Proof.
  intros Hinv Hsteps [Hs|Hl].
  - rewrite settled_log by done. etrans; [by apply steps_stable|apply prefix_take].
  - etrans; [by apply live_steps_trusted|apply prefix_take].
Qed.

Lemma stable_prefix n : stable n `prefix_of` wal n.
Proof. apply prefix_take. Qed.

(** Later receipts of a slot are reached from earlier ones. *)
Lemma receipts_chain n pre s st :
  tables_ok n → pre `prefix_of` wal n → last_receipt pre s = Some st →
  ∃ st', last_receipt (wal n) s = Some st' ∧ rtc isr_step st st'.
Proof.
  intros Ht [suf Hw] Hl. assert (∀ j, (j <= length suf)%nat →
    ∃ st', last_receipt (take (length pre + j) (wal n)) s = Some st' ∧ rtc isr_step st st') as H.
  { induction j as [|j IH]; intros Hj.
    - exists st. split; [|done]. rewrite Hw, Nat.add_0_r, take_app_length. done.
    - destruct IH as (st' & Hst' & Hrtc); [lia|].
      destruct (lookup_lt_is_Some_2 (wal n) (length pre + j)) as [e He]; [rewrite Hw, length_app; lia|].
      replace (length pre + S j)%nat with (S (length pre + j)) by lia.
      rewrite (take_S_r _ _ _ He), last_receipt_snoc. destruct e as [h v|s' st2|v]; try (by exists st').
      destruct (Z.eqb_spec s' s) as [->|]; [|by exists st']. exists st2. split; [done|].
      apply rtc_r with st'; [done|]. pose proof (tk_chain _ _ _ _ _ _ Ht _ _ _ He) as Hc. by rewrite Hst' in Hc. }
  destruct (H (length suf)) as (st' & Hst' & ?); [done|]. exists st'. split; [|done].
  rewrite <-Hst', take_ge; [done|]. rewrite Hw, length_app. lia.
Qed.

(** A decision whose entry is still in the log is known. *)
Lemma logged_decided n' es v :
  inv n' → es `prefix_of` wal n' → WDecide v ∈ es →
  ∃ v', decided n' !! dvSlot v = Some v' ∧ dvHash v' = dvHash v ∧ dvValue v' = dvValue v.
Proof.
  intros [Ht' _] [suf Hw] Hin. assert (WDecide v ∈ wal n') as Hv by (rewrite Hw, elem_of_app; auto).
  destruct (tk_wal_decide _ _ _ _ _ _ Ht' _ Hv) as (_ & _ & v' & ? & ? & ?). by exists v'.
Qed.

(** A slot marked durable whose trusted entries survive stays decided. *)
Lemma durable_survives n n' s v :
  inv n → inv n' → trusted_log n `prefix_of` wal n' → s ∈ durable n → decided n !! s = Some v →
  ∃ v', decided n' !! s = Some v' ∧ dvHash v' = dvHash v ∧ dvValue v' = dvValue v.
Proof.
  intros Hinv Hinv' Hp Hd Hv. destruct (tk_durable _ _ _ _ _ _ (proj1 Hinv) _ Hd) as (x & Hx & <-).
  destruct (logged_decided n' _ x Hinv' Hp Hx) as (v' & Hv' & Eh' & Ev').
  destruct (tk_wal_decide _ _ _ _ _ _ (proj1 Hinv) x (subseteq_take _ _ _ Hx)) as (_ & _ & v0 & Hv0 & Eh & Ev).
  exists v'. split; [done|]. split; congruence.
Qed.

(** ** Theorems *)

(** The tables after a restart: part of what was decided, with the tip at the
    end of the contiguous prefix. *)
Definition recovered_from (n n' : node) : Prop :=
  (∀ s v, decided n' !! s = Some v → ∃ v0, decided n !! s = Some v0 ∧ dvHash v0 = dvHash v ∧ dvValue v0 = dvValue v) ∧
  (∀ s, 0 < s <= tip n' → is_Some (decided n' !! s)) ∧ decided n' !! (tip n' + 1) = None.

Lemma started_recovered n torn es j n' :
  inv n → torn_ok n torn → es `prefix_of` wal (with_torn torn n) → started es j n' → recovered_from n n'.
Proof.
  intros Hinv Hf [suf Hw] [(Ht' & Hp' & Hend) _ _ _ _ Honly _ _]. destruct (torn_tables n torn (proj1 Hinv) Hf) as (n1 & Ht1 & Hw1 & _ & Ed).
  split_and!; [|apply (pf_decided _ _ Hp')|done]. intros s v Hv. destruct (tk_decided _ _ _ _ _ _ Ht' _ _ Hv) as (_ & <- & _). rewrite <-Ed.
  assert (WDecide v ∈ wal n1) as Hin by (rewrite Hw1, Hw, elem_of_app; left; by eapply Honly).
  by destruct (tk_wal_decide _ _ _ _ _ _ Ht1 v Hin) as (_ & _ & ?).
Qed.

(** C9: a replica always recovers from its own log.  In any reachable state the
    process can stop, its last append possibly failed and stored all the same.
    A restart of the process accepts the log and every logged decision is
    there.  After a power failure the restart accepts what is left, every
    decision that was on disk is there, and so is every slot marked durable
    provided what the process had found at its own start was on disk.  What is
    recovered is part of what was decided, and the tip is the end of the
    contiguous prefix. *)
Theorem restart_recovers n torn keep :
  reachable n → torn_ok n torn →
  (∃ n', restart_process config_ sha256 validateValue decodeSchedule torn n = Ok n' ∧ recovered_from n n' ∧
     ∀ s, s ∈ logged n → is_Some (decided n' !! s)) ∧
  (∃ n', restart_machine config_ sha256 validateValue decodeSchedule torn keep n = Ok n' ∧ recovered_from n n' ∧
     (∀ v, WDecide v ∈ stable n → is_Some (decided n' !! dvSlot v)) ∧
     (settled n → ∀ s, s ∈ durable n → is_Some (decided n' !! s))).
Proof.
  intros Hinv%node_reachable_inv Hf. split.
  - destruct (process_spec n torn Hinv Hf) as (n' & Hr & Hst). exists n'. split; [done|]. split; [by eapply started_recovered|].
    intros s (v & Hv & <-)%(tk_logged _ _ _ _ _ _ (proj1 Hinv)). apply (st_all _ _ _ Hst). destruct (with_torn_wal torn n) as [suf ->].
    apply elem_of_app. by left.
  - destruct (machine_spec n torn keep Hinv Hf) as (n' & Hr & Hst). exists n'. split; [done|].
    assert (∀ v, WDecide v ∈ stable n → is_Some (decided n' !! dvSlot v)) as Hdisk.
    { intros v Hv. apply (st_all _ _ _ Hst). destruct (power_cut_stable torn keep n Hinv) as [suf ->]. apply elem_of_app. by left. }
    split; [eapply started_recovered; [done|done|apply prefix_take|done]|]. split; [done|].
    intros Hs s (v & Hv & <-)%(tk_durable _ _ _ _ _ _ (proj1 Hinv)). apply Hdisk. fold (trusted_log n) in Hv. by rewrite settled_log in Hv.
Qed.

(** C2: what a recorder acknowledged survives.  When [record] replied with a
    state of the slot's register, then in every later state, across process
    restarts and power failures, the slot is decided or its register has only
    moved forward from that state.  When it replied with a decision, the slot
    stays decided with that value as long as the machine has power, and for
    ever if what the process had found at its start was on disk by then. *)
Theorem acknowledged_record_survives io req summary n n1 n2 :
  reachable n → 0 <= RSlot req → record_ io req n = (Ok summary, n1) → rtc node_step n1 n2 →
  (∃ st, reports_register st summary ∧
     (is_Some (decided n2 !! RSlot req) ∨ ∃ st', recorders n2 !! RSlot req = Some st' ∧ rtc isr_step st st')) ∨
  (∃ v, decided n1 !! RSlot req = Some v ∧ reports_decision req v summary ∧
     (settled n1 ∨ rtc live_step n1 n2 →
      ∃ v', decided n2 !! RSlot req = Some v' ∧ dvHash v' = dvHash v ∧ dvValue v' = dvValue v)).
Proof.
  intros Hinv%node_reachable_inv Hs Hr Hsteps.
  pose proof (record_inv _ _ _ _ _ _ _ _ _ _ _ _ Hinv Hs Hr) as Hinv1. pose proof (steps_inv _ _ Hinv1 Hsteps) as Hinv2.
  destruct (record_spec _ _ _ _ _ Hinv Hs Hr) as [_ Hok]. destruct (Hok _ eq_refl) as [[Hd (v & Hv & Hrep)]|(st & Hst & Hsy & Hnone & Hrep)].
  - right. exists v. split; [done|]. split; [done|]. intros Hc. apply (durable_survives n1); try done. by apply trusted_survives.
  - left. exists st. split; [done|]. destruct (decided n2 !! RSlot req) eqn:Hd2; [left; by eexists|]. right.
    rewrite (tk_receipts _ _ _ _ _ _ (proj1 Hinv1) _ Hnone) in Hst.
    destruct (receipts_chain n2 (stable n1) (RSlot req) st (proj1 Hinv2)) as (st' & Hst' & Hrtc).
    + etrans; [by apply steps_stable|]. apply stable_prefix.
    + unfold stable. by rewrite Hsy, firstn_all.
    + exists st'. by rewrite (tk_receipts _ _ _ _ _ _ (proj1 Hinv2)).
Qed.

(** A decision reported durable is not lost or changed: after
    [ensureDurableLocked] succeeds for a slot, every later state has the slot
    decided with the same value while the machine has power, and for ever if
    what the process had found at its start was on disk. *)
Theorem durable_decision_survives ok syncOk slot n n1 n2 :
  reachable n → 0 < slot → ensureDurableLocked ok syncOk slot n = (Ok tt, n1) → rtc node_step n1 n2 →
  settled n1 ∨ rtc live_step n1 n2 →
  ∃ v v', decided n1 !! slot = Some v ∧ decided n2 !! slot = Some v' ∧ dvHash v' = dvHash v ∧ dvValue v' = dvValue v.
Proof.
  intros Hinv%node_reachable_inv Hs Hd Hsteps Hc. destruct (ensureDurableLocked_inv _ _ _ _ _ _ _ _ _ _ _ Hinv Hd) as [Hinv1 Hdur].
  assert (floor n = 0) as Hf by apply (tk_floor _ _ _ _ _ _ (proj1 Hinv)).
  assert (slot ∈ durable n1) as Hin by (apply Hdur; [done|lia]).
  destruct (tk_durable _ _ _ _ _ _ (proj1 Hinv1) _ Hin) as (x & Hx%subseteq_take & <-).
  destruct (tk_wal_decide _ _ _ _ _ _ (proj1 Hinv1) x Hx) as (_ & _ & v & Hv & _).
  destruct (durable_survives n1 n2 (dvSlot x) v Hinv1 (steps_inv _ _ Hinv1 Hsteps) (trusted_survives _ _ Hinv1 Hsteps Hc) Hin Hv) as (v' & ? & ? & ?).
  by exists v, v'.
Qed.

(** The decision prefix hash identifies the prefix: two replicas of one
    history that both know a prefix of slots have the same hash for it. *)
Theorem prefix_hashes_agree n1 n2 s :
  reachable n1 → reachable n2 → 0 < s → s <= tip n1 → s <= tip n2 → prefixes n1 !! s = prefixes n2 !! s.
Proof.
  intros H1%node_reachable_inv H2%node_reachable_inv. destruct H1 as (T1 & P1 & _), H2 as (T2 & P2 & _).
  intros Hs. replace s with (Z.of_nat (Z.to_nat s)) by lia. assert (0 < Z.to_nat s)%nat as Hs' by lia. revert Hs'.
  generalize (Z.to_nat s). clear s Hs. induction n as [|k IH]; [lia|]. intros _ Hs1 Hs2.
  destruct (pf_decided _ _ P1 (Z.of_nat (S k))) as [v1 E1], (pf_decided _ _ P2 (Z.of_nat (S k))) as [v2 E2]; [lia..|].
  rewrite (pf_hash _ _ P1 (Z.of_nat (S k)) v1), (pf_hash _ _ P2 (Z.of_nat (S k)) v2) by (done || lia).
  assert (dvHash v1 = dvHash v2) as ->.
  { destruct (tk_decided _ _ _ _ _ _ T1 _ _ E1) as (_ & Es1 & C1), (tk_decided _ _ _ _ _ _ T2 _ _ E2) as (_ & Es2 & C2).
    pose proof (co_agrees _ _ _ _ _ _ C1) as A1. pose proof (co_agrees _ _ _ _ _ _ C2) as A2. unfold agrees in A1, A2.
    rewrite <-(co_hash _ _ _ _ _ _ C1), <-(co_hash _ _ _ _ _ _ C2). congruence. }
  replace (Z.of_nat (S k) - 1) with (Z.of_nat k) by lia. destruct k as [|k].
  - change (Z.of_nat 0) with 0. by rewrite (pf_zero _ _ P1), (pf_zero _ _ P2).
  - by rewrite IH by lia.
Qed.
End node.

(** ** Reservations *)

(** The proposers of one process with the slots they hold: reserving adds a
    slot, a proposer that ends returns its slot or drops it, and everything
    else the process does extends its log. *)
Inductive session_step : node * list Slot → node * list Slot → Prop :=
| session_reserve n held : session_step (n, held) ((reserveSlot n).2, (reserveSlot n).1.1 :: held)
| session_release n slot held1 held2 : session_step (n, held1 ++ slot :: held2) (releaseSlot slot n, held1 ++ held2)
| session_drop n slot held1 held2 : session_step (n, held1 ++ slot :: held2) (n, held1 ++ held2)
| session_other n n' held : extends n n' → session_step (n, held) (n', held).

Definition session_ok (c : node * list Slot) : Prop :=
  NoDup (vacant c.1 ++ c.2) ∧ ∀ s, s ∈ (vacant c.1 ++ c.2) → s < nextSlot c.1.

Lemma take_vacant_spec n v slot rest :
  take_vacant n v = Some (slot, rest) →
  (∃ skipped, v = skipped ++ slot :: rest) ∧ floor n < slot ∧ decided n !! slot = None.
Proof.
  induction v as [|x v IH]; simpl; [done|]. destruct (_ && _) eqn:E.
  - intros [= -> ->]. bool_hyps. split_and!; [by exists []|lia|done].
  - intros H. destruct (IH H) as ((skipped & ->) & ? & ?). split_and!; [|done|done]. by exists (x :: skipped).
Qed.

Lemma insert_slot_perm slot v : slot ∉ v → insert_slot slot v ≡ₚ slot :: v.
Proof.
  induction v as [|x v IH]; simpl; [done|]. rewrite not_elem_of_cons. intros [Hne Hni].
  destruct (x <? slot); [rewrite IH by done; apply Permutation_swap|]. by destruct (Z.eqb_spec x slot).
Qed.

Lemma session_step_ok c c' : session_ok c → session_step c c' → session_ok c'.
Proof.
  intros [Hnd Hlt] Hstep. inversion Hstep as [n held|n slot held1 held2|n slot held1 held2|n n' held He]; subst; simpl in *.
  - unfold reserveSlot. destruct (take_vacant n (vacant n)) as [[slot rest]|] eqn:Ht; split; simpl.
    + destruct (take_vacant_spec _ _ _ _ Ht) as ((skipped & E) & _). rewrite E, <-app_assoc, NoDup_app in Hnd.
      destruct Hnd as (_ & _ & Hnd). by rewrite <-Permutation_middle.
    + destruct (take_vacant_spec _ _ _ _ Ht) as ((skipped & E) & _). intros s Hs. apply Hlt. rewrite E. set_solver.
    + apply NoDup_app in Hnd as (_ & _ & Hnd). constructor; [|done]. intros Hin.
      specialize (Hlt _ (proj2 (elem_of_app _ _ _) (or_intror Hin))). lia.
    + intros s [->|Hs]%elem_of_cons; [lia|]. specialize (Hlt _ (proj2 (elem_of_app _ _ _) (or_intror Hs))). lia.
  - rewrite app_assoc, <-Permutation_middle, <-app_assoc in Hnd. apply NoDup_cons in Hnd as [Hni Hnd].
    unfold releaseSlot. assert (session_ok (n, held1 ++ held2)) as Hsame.
    { split; [done|]. intros s Hs. apply Hlt. simpl in *. set_solver. }
    repeat (case_match; [done|]).
    assert (insert_slot slot (vacant n) ++ held1 ++ held2 ≡ₚ slot :: vacant n ++ held1 ++ held2) as Hperm.
    { rewrite insert_slot_perm; [done|]. intros ?. apply Hni, elem_of_app. by left. }
    split; simpl; [rewrite Hperm; by apply NoDup_cons|]. intros s. rewrite Hperm. intros Hs. apply Hlt. set_solver.
  - rewrite app_assoc, <-Permutation_middle, <-app_assoc in Hnd. apply NoDup_cons in Hnd as [Hni Hnd].
    split; [done|]. intros s Hs. apply Hlt. simpl in *. set_solver.
  - destruct He as [_ _ _ E1 E2]. split; simpl; by rewrite ?E1, ?E2.
Qed.

(** Outstanding slot reservations never collide.  Whatever a process
    reserves, returns, drops and does in between, two proposers never hold
    the same slot, and no held slot is in the vacant list. *)
Theorem reservations_distinct n n' held :
  vacant n = [] → rtc session_step (n, []) (n', held) →
  NoDup held ∧ (∀ s, s ∈ held → (s ∉ vacant n') ∧ s < nextSlot n').
Proof.
  intros Hv Hsteps. assert (session_ok (n, [])) as Hok by (split; simpl; rewrite Hv; [constructor|intros s Hs; by apply elem_of_nil in Hs]).
  assert (session_ok (n', held)) as [Hnd Hlt].
  { revert Hok. generalize (n, @nil Slot), (n', held), Hsteps. clear. intros c c' H.
    induction H as [|x y z Hxy _ IH]; [done|]. intros Hok. apply IH. by apply (session_step_ok x). }
  simpl in *. apply NoDup_app in Hnd as (_ & Hdisj & ?). split; [done|].
  intros s Hs. split; [intros Hin; by apply (Hdisj s)|]. apply Hlt. set_solver.
Qed.

(** ** Pages *)

Definition page_bytes (certBytes : DecidedValue → Z) (page : list DecidedValue) : Z :=
  foldr (λ v acc, Z.of_nat (length (dvValue v)) + certBytes v + acc) 0 page.

Lemma page_bytes_snoc certBytes page v :
  page_bytes certBytes (page ++ [v]) = page_bytes certBytes page + (Z.of_nat (length (dvValue v)) + certBytes v).
Proof. unfold page_bytes. induction page as [|x page IH]; simpl; lia. Qed.

(** A page under construction holds the decisions from [from] on. *)
Definition page_from (n : node) (from : Slot) (page : list DecidedValue) : Prop :=
  ∀ i v, page !! i = Some v → decided n !! (from + Z.of_nat i) = Some v.

Lemma page_loop_spec fuel n from slot items limit certBytes page used out :
  page_loop fuel n slot items limit certBytes page used = Ok out →
  page_from n from page → slot = from + Z.of_nat (length page) → used = page_bytes certBytes page →
  used <= limit → Z.of_nat (length page) <= Z.max 0 items →
  page_from n from out ∧ page_bytes certBytes out <= limit ∧ Z.of_nat (length out) <= Z.max 0 items.
Proof.
  revert slot page used. induction fuel as [|fuel IH]; intros slot page used; simpl; [intros <-%Ok_inj ? -> -> ? ?; by split_and!|].
  destruct (_ || _) eqn:E; [intros <-%Ok_inj ? -> -> ? ?; by split_and!|]. bool_hyps. destruct (decided n !! slot) as [v|] eqn:Hd; [|done].
  destruct ((limit - used <? _) || _) eqn:E2.
  { bool_hyps. case_bool_decide; [done|]. intros <-%Ok_inj ? -> -> ? ?; by split_and!. }
  bool_hyps. intros Hloop Hp -> -> Hu Hl. destruct (IH _ _ _ Hloop) as (? & ? & ?); clear IH Hloop.
  - intros i x [[_ Hi]|[-> <-]]%lookup_snoc_Some; [by apply Hp|done].
  - rewrite length_app. simpl. lia.
  - rewrite page_bytes_snoc. lia.
  - lia.
  - rewrite length_app. simpl. lia.
  - by split_and!.
Qed.

Lemma page_loop_prefix fuel n slot items limit certBytes page used out :
  page_loop fuel n slot items limit certBytes page used = Ok out → page `prefix_of` out.
Proof.
  revert slot page used. induction fuel as [|fuel IH]; intros slot page used; simpl; [by intros <-%Ok_inj|].
  destruct (_ || _); [by intros <-%Ok_inj|]. destruct (decided n !! slot) as [v|]; [|done].
  destruct (_ || _); [case_bool_decide; [done|by intros <-%Ok_inj]|].
  intros Hloop%IH. etrans; [|done]. by apply prefix_app_r.
Qed.

(** Inside the contiguous prefix the loop meets no gap. *)
Lemma page_loop_no_gap fuel n slot items limit certBytes page used e :
  (∀ s, 0 < s <= tip n → is_Some (decided n !! s)) → 0 < slot →
  page_loop fuel n slot items limit certBytes page used = Err e → e = ErrPageLimit ∧ page = [].
Proof.
  intros Hp. revert slot page used. induction fuel as [|fuel IH]; intros slot page used Hs; simpl; [done|].
  destruct (_ || _) eqn:E; [done|]. bool_hyps. destruct (Hp slot) as [v ->]; [lia|].
  destruct ((limit - used <? _) || _); [case_bool_decide; [by intros [= <-]|done]|].
  intros Hloop. apply IH in Hloop as [? Hp']; [|lia]. by apply app_nil in Hp' as [_ ?].
Qed.

Section pages.
Context (config_ : Cluster) (sha256 : bytes → ValueHash).
Context (validateValue : option (bytes → bool)) (decodeSchedule : bytes → option (list NodeID)).
Context (history : gmap Slot DecidedValue) (nodeID : NodeID) (sealEligible : bytes → bool).

(** A page of decisions served to a peer starts at the requested slot, is
    contiguous, within both limits, and makes progress.  Inside the decided
    prefix the only refusal is a first decision that alone exceeds the byte
    limit. *)
Theorem decision_page_exact n from items limit certBytes :
  reachable config_ sha256 validateValue decodeSchedule history nodeID sealEligible n →
  0 < from → 0 < items → 0 <= limit → (∀ v, 0 <= certBytes v) →
  match decisionsFromBounded from items limit certBytes n with
  | Ok (page, t) =>
      t = tip n ∧ page_from n from page ∧ page_bytes certBytes page <= limit ∧
      Z.of_nat (length page) <= items ∧ (from <= tip n → page ≠ [])
  | Err e => e = ErrPageLimit ∧ ∃ v, decided n !! from = Some v ∧ limit < Z.of_nat (length (dvValue v)) + certBytes v
  end.
Proof.
  intros (Ht & Hp & _)%node_reachable_inv Hfrom Hitems Hlimit Hcert. unfold decisionsFromBounded.
  rewrite (tk_floor _ _ _ _ _ _ Ht). destruct (Z.leb_spec from 0); [lia|].
  pose proof (pf_decided _ _ Hp) as Hdec.
  destruct (page_loop (Z.to_nat items) n from items limit certBytes [] 0) as [page|e] eqn:Hl; simpl.
  - destruct (page_loop_spec _ _ from _ _ _ _ _ _ _ Hl) as (? & ? & ?);
      [by intros i v ?|simpl; lia|done|done|simpl; lia|]. split_and!; [done|done|done|lia|].
    intros Htip ->. revert Hl. destruct (Z.to_nat items) as [|fuel] eqn:E; [lia|]. simpl.
    destruct (_ || _) eqn:E1; [apply orb_true_iff in E1 as [?|?]; bool_hyps; lia|].
    clear E1. destruct (Hdec from) as [v ->]; [lia|]. destruct (_ || _); [done|].
    intros Hloop. by destruct (page_loop_prefix _ _ _ _ _ _ _ _ _ Hloop).
  - destruct (page_loop_no_gap _ _ _ _ _ _ _ _ _ Hdec Hfrom Hl) as [-> _]. split; [done|]. revert Hl.
    destruct (Z.to_nat items) as [|fuel] eqn:E; simpl; [done|]. destruct (_ || _) eqn:E1; [done|]. bool_hyps.
    destruct (Hdec from) as [v Hv]; [lia|]. rewrite Hv. destruct (_ || _) eqn:E2.
    + intros _. exists v. split; [done|]. specialize (Hcert v). apply orb_true_iff in E2 as [?|?]; bool_hyps; lia.
    + intros Hloop. by destruct (page_loop_no_gap _ _ _ _ _ _ _ _ _ Hdec (ltac:(lia) : 0 < from + 1) Hloop).
Qed.
End pages.
