(* ===== verification/NodeExamples.v ===== *)
(** * Concrete runs of a replica

    The theorems of NodeProofs at a concrete history, a run in which a value
    reported as stored is gone after a restart, and one in which a decision
    acknowledged after a restart is gone after a power failure. *)

From stdpp Require Import gmap list sorting relations.
From S2P Require Import Prelude Bytes Protocol Register Cluster Proposer Schedule ScheduleProofs Node NodeSafety NodeProofs.

Definition tag_hash (value : bytes) : ValueHash := x07 :: value.
Definition demo_value : bytes := [x2a].
Definition demo_fast_proposal : Proposal := newProposal tag_hash highestPriority [x01] demo_value.
Definition demo_summary (id : NodeID) : Summary := mkSummary id zeroHash 4 (Some demo_fast_proposal) None.
(** The leader's fast-path decision of slot 1, from two of three recorders. *)
Definition demo_decided : Decision := mkDecision 1 1 4 demo_fast_proposal [demo_summary [x01]; demo_summary [x02]].
Definition demo_history : gmap Slot DecidedValue :=
  {[1 := mkDecided 1 (tag_hash demo_value) demo_value (encodeCertificate 1 demo_decided)]}.

Abbreviation demo_accept n := (acceptDecision three tag_hash None one_byte_ids demo_decided n).2.
Abbreviation demo_step := (node_step three tag_hash None one_byte_ids demo_history [x01] (λ _, true)).
Abbreviation demo_reachable := (reachable three tag_hash None one_byte_ids demo_history [x01] (λ _, true)).

Definition demo_durable : node := (ensureDurableLocked true true 1 (demo_accept emptyNode)).2.

Lemma demo_accept_step n : demo_step n (demo_accept n).
Proof. apply step_live, step_op. constructor; [done|]. intros _. reflexivity. Qed.

Lemma demo_accept_reachable : demo_reachable (demo_accept emptyNode).
Proof. apply rtc_once, demo_accept_step. Qed.

Lemma demo_durable_reachable : demo_reachable demo_durable.
Proof. eapply rtc_r; [apply demo_accept_reachable|]. apply step_live, step_op, step_durable. Qed.

Definition demo_request : RecordRequest := mkRecordRequest 1 4 1 zeroHash demo_fast_proposal.
Definition all_ok : recordIO := mkRecordIO true true true.
Definition demo_recorded : outcome_of Summary := record [x01] tag_hash None (λ _, true) all_ok demo_request emptyNode.

Abbreviation demo_process := (restart_process three tag_hash None one_byte_ids).
Abbreviation demo_machine := (restart_machine three tag_hash None one_byte_ids).

(** The process stops with slot 1 durable, while an append of a proposal failed. *)
Definition demo_torn : option walEntry := Some (WProposal (tag_hash [x2b]) [x2b]).

Lemma restart_recovers_witness :
  (∃ n', demo_process demo_torn demo_durable = Ok n' ∧ recovered_from demo_durable n' ∧
     ∀ s, s ∈ logged demo_durable → is_Some (decided n' !! s)) ∧
  (∃ n', demo_machine demo_torn 0 demo_durable = Ok n' ∧ recovered_from demo_durable n' ∧
     (∀ v, WDecide v ∈ stable demo_durable → is_Some (decided n' !! dvSlot v)) ∧
     (settled demo_durable → ∀ s, s ∈ durable demo_durable → is_Some (decided n' !! s))).
Proof.
  apply (restart_recovers three tag_hash None one_byte_ids demo_history [x01] (λ _, true) demo_durable demo_torn 0).
  - exact demo_durable_reachable.
  - split; [discriminate|]. split; reflexivity.
Defined.

Lemma acknowledged_record_survives_witness :
  (∃ st, reports_register [x01] st (strip_summary (demo_summary [x01])) ∧
     (is_Some (decided (demo_accept demo_recorded.2) !! 1) ∨
      ∃ st', recorders (demo_accept demo_recorded.2) !! 1 = Some st' ∧ rtc isr_step st st')) ∨
  (∃ v, decided demo_recorded.2 !! 1 = Some v ∧ reports_decision demo_request v (strip_summary (demo_summary [x01])) ∧
     (settled demo_recorded.2 ∨ rtc (live_step three tag_hash None one_byte_ids demo_history [x01] (λ _, true)) demo_recorded.2 (demo_accept demo_recorded.2) →
      ∃ v', decided (demo_accept demo_recorded.2) !! 1 = Some v' ∧ dvHash v' = dvHash v ∧ dvValue v' = dvValue v)).
Proof.
  apply (acknowledged_record_survives three tag_hash None one_byte_ids demo_history [x01] (λ _, true)
    all_ok demo_request (strip_summary (demo_summary [x01])) emptyNode demo_recorded.2 (demo_accept demo_recorded.2)).
  - apply rtc_refl.
  - simpl. lia.
  - vm_compute. reflexivity.
  - apply rtc_once, demo_accept_step.
Defined.

Lemma durable_decision_survives_witness :
  ∃ v v', decided demo_durable !! 1 = Some v ∧ decided demo_durable !! 1 = Some v' ∧
    dvHash v' = dvHash v ∧ dvValue v' = dvValue v.
Proof.
  apply (durable_decision_survives three tag_hash None one_byte_ids demo_history [x01] (λ _, true)
    true true 1 (demo_accept emptyNode) demo_durable demo_durable).
  - exact demo_accept_reachable.
  - lia.
  - vm_compute. reflexivity.
  - apply rtc_refl.
  - right. apply rtc_refl.
Defined.

Lemma prefix_hashes_agree_witness : prefixes demo_durable !! 1 = prefixes (demo_accept emptyNode) !! 1.
Proof.
  apply (prefix_hashes_agree three tag_hash None one_byte_ids demo_history [x01] (λ _, true)
    demo_durable (demo_accept emptyNode) 1).
  - exact demo_durable_reachable.
  - exact demo_accept_reachable.
  - lia.
  - vm_compute. congruence.
  - vm_compute. congruence.
Defined.

Lemma reservations_distinct_witness :
  NoDup [2; 1] ∧ (∀ s, s ∈ [2; 1] → (s ∉ vacant (set_slots emptyNode 3 [])) ∧ s < nextSlot (set_slots emptyNode 3 [])).
Proof.
  apply (reservations_distinct emptyNode (set_slots emptyNode 3 []) [2; 1]).
  - reflexivity.
  - apply rtc_l with (set_slots emptyNode 2 [], [1]); [exact (session_reserve emptyNode [])|].
    apply rtc_once. exact (session_reserve (set_slots emptyNode 2 []) [1]).
Defined.

Lemma decision_page_exact_witness :
  match decisionsFromBounded 1 10 100 (λ _, 0) demo_durable with
  | Ok (page, t) =>
      t = tip demo_durable ∧ page_from demo_durable 1 page ∧ page_bytes (λ _, 0) page <= 100 ∧
      Z.of_nat (length page) <= 10 ∧ (1 <= tip demo_durable → page ≠ [])
  | Err e => e = ErrPageLimit ∧ ∃ v, decided demo_durable !! 1 = Some v ∧ 100 < Z.of_nat (length (dvValue v)) + 0
  end.
Proof.
  apply (decision_page_exact three tag_hash None one_byte_ids demo_history [x01] (λ _, true) demo_durable 1 10 100 (λ _, 0)).
  - exact demo_durable_reachable.
  - lia.
  - lia.
  - lia.
  - lia.
Defined.

(** The value learned through the unlogged decision, then stored. *)
Definition demo_stored : outcome_of unit :=
  storeValue tag_hash None true true (tag_hash demo_value) demo_value (demo_accept emptyNode).

(** C32: a value reported as durably stored can be lost.  When the value was
    first learned through a decision that is not logged yet, [storeValue]
    finds it in memory, appends nothing, syncs, and marks it durable; a restart
    of the process, which loses nothing of the WAL, then recovers a replica
    without the value. *)
Theorem stored_value_lost :
  demo_stored.1 = Ok tt ∧ ValueOf (tag_hash demo_value) demo_stored.2 = Some demo_value ∧
  match demo_process None demo_stored.2 with
  | Ok n' => ValueOf (tag_hash demo_value) n' = None ∧ values n' !! tag_hash demo_value = None
  | Err _ => False
  end.
Proof. split; [by vm_compute|]. split; [by vm_compute|]. vm_compute. split; reflexivity. Qed.

(** ** A decision acknowledged after a restart *)

(** The decision is in the log, not synced, when the process restarts. *)
Definition demo_logged : node := (log_decision true 1 (default (mkDecided 0 [] [] demo_decided) (demo_history !! 1)) (demo_accept emptyNode)).2.
Definition demo_restarted : node := match demo_process None demo_logged with Ok n => n | Err _ => demo_logged end.
(** It is then reported durable, and a recorder answers with it. *)
Definition demo_trusted : outcome_of unit := ensureDurableLocked true true 1 demo_restarted.
Definition demo_answered : outcome_of Summary := record [x01] tag_hash None (λ _, true) all_ok demo_request demo_trusted.2.

Lemma demo_logged_reachable : demo_reachable demo_logged.
Proof. eapply rtc_r; [apply demo_accept_reachable|]. apply step_live, step_op, step_log. vm_compute. reflexivity. Qed.

Lemma demo_answered_reachable : demo_reachable demo_answered.2.
Proof.
  eapply rtc_r; [eapply rtc_r; [eapply rtc_r; [apply demo_logged_reachable|]|]|].
  - apply step_live, (step_process _ _ _ _ _ _ _ _ None); [exact I|]. vm_compute. reflexivity.
  - apply step_live, step_op, (step_durable _ _ _ _ _ _ _ _ true true 1).
  - apply step_live, step_op. apply (step_record _ _ _ _ _ _ _ _ all_ok demo_request). simpl. lia.
Qed.

(** A decision that a process found at its start and never synced is reported
    durable and acknowledged to proposers without a sync, and a power failure
    loses it: the condition of [acknowledged_record_survives] on such decisions
    is needed. *)
Theorem acknowledged_decision_lost :
  demo_reachable demo_answered.2 ∧ demo_trusted.1 = Ok tt ∧ (∃ summary, demo_answered.1 = Ok summary) ∧ synced demo_answered.2 = 0%nat ∧
  match demo_machine None 0 demo_answered.2 with
  | Ok n' => decided n' !! 1 = None ∧ recorders n' !! 1 = None
  | Err _ => False
  end.
Proof.
  split; [exact demo_answered_reachable|]. split; [vm_compute; reflexivity|]. split; [eexists; vm_compute; reflexivity|].
  split; [vm_compute; reflexivity|]. vm_compute. split; reflexivity.
Qed.
