(* ===== verification/Reads.v ===== *)
(** * Acknowledged writes and linearizable reads

    A write is acknowledged when a quorum of learners holds its decision
    ([completeDecision], [SendDecision], the learned operation of peers) and the
    proposing server has applied it ([applyDecisions]).  A linearizable read asks a quorum for
    its tips ([readIndexExcluding]), catches up to the highest and applies
    through it ([readBarrier]).  src/pkg/quepaxa/core.go,
    src/pkg/network/server.go, transport.go and peer_server.go.

    The voters are replicas of the file Node, whose operations run between any
    two steps here.  A server loses its threads when its process restarts or its
    machine loses power; a power failure also takes what its WAL had not synced
    and transactions that SQLite had not synced.  Decisions that other
    replicas send are sound, as in Node.  The execution policy of received
    values and the readiness of learners only refuse more. *)

From stdpp Require Import gmap list relations.
From S2P Require Import Prelude Bytes Protocol Cluster Proposer Schedule Node NodeSafety NodeProofs.

(** [applied]: the materializer's tip. *)
Record voter := mkVoter { core : node; applied : Slot; ready : bool }.

Inductive writePhase :=
| PTip
| PLearn
| PApply.

(** A proposal whose slot was decided, in [completeDecision] and after it:
    [wLearning] are learners whose handler accepted the decision, [wAcks] the
    successes that [SendDecision] counts. *)
Record write := mkWrite {
  wNode : NodeID;
  wDecided : DecidedValue;
  wPhase : writePhase;
  wLearning : list NodeID;
  wAcks : list NodeID;
}.

(** A linearizable read: the writes acknowledged before it began, the replies
    counted, the best of them, the read index, the position it was served at. *)
Record read := mkRead {
  rNode : NodeID;
  rBefore : list Slot;
  rSeen : list NodeID;
  rBest : Slot;
  rSource : NodeID;
  rIndex : option Slot;
  rServed : option Slot;
}.

Record system := mkSystem {
  voters : NodeID → voter;
  writes : list write;
  reads : list read;
  acked : list Slot;
}.

Definition newVoter : voter := mkVoter emptyNode 0 false.
Definition newSystem : system := mkSystem (λ _, newVoter) [] [] [].

Definition set_voter (q : NodeID) (v : voter) (s : system) : system :=
  mkSystem (λ q', if bool_decide (q' = q) then v else voters s q') (writes s) (reads s) (acked s).
Definition set_core (q : NodeID) (n : node) (s : system) : system :=
  set_voter q (mkVoter n (applied (voters s q)) (ready (voters s q))) s.
Definition set_writes (w : list write) (s : system) : system := mkSystem (voters s) w (reads s) (acked s).
Definition set_reads (r : list read) (s : system) : system := mkSystem (voters s) (writes s) r (acked s).

Definition with_phase (w : write) (p : writePhase) : write := mkWrite (wNode w) (wDecided w) p (wLearning w) (wAcks w).

Section reads.
Context (config_ : Cluster) (sha256 : bytes → ValueHash).
Context (validateValue : option (bytes → bool)) (decodeSchedule : bytes → option (list NodeID)).
Context (history : gmap Slot DecidedValue) (sealEligible : bytes → bool).
(** The encoded length of a certificate. *)
Context (certBytes : DecidedValue → Z).
(** In which states of a replica its machine may lose power. *)
Context (mayLosePower : node → Prop).

Abbreviation delivered := (NodeSafety.delivered config_ sha256 validateValue decodeSchedule history).
Abbreviation op_step q := (NodeProofs.op_step config_ sha256 validateValue decodeSchedule history q sealEligible).
Abbreviation accept_values := (acceptCertifiedValues config_ sha256 validateValue decodeSchedule).

(** ** Learners *)

(** The handler of a learned decision up to the application: a voter named by
    the certificate has a durable receipt and does not log the decision yet. *)
Definition learn_decision (nodeID : NodeID) (appendOk syncOk : bool) (d : Decision) (n : node) : outcome_of unit :=
  match acceptDecision config_ sha256 validateValue decodeSchedule d n with
  | (Err e, n1) => (Err e, n1)
  | (Ok _, n1) =>
      if existsb (λ summary, bool_decide (RecorderID summary = nodeID)) (DSummaries d) then (Ok tt, n1)
      else ensureDurableLocked appendOk syncOk (DSlot d) n1
  end.

(** One page of [catchUpFromTip]. *)
Definition catch_up_page (appendOk syncOk : bool) (page : list DecidedValue) (n : node) : outcome_of unit :=
  match page with
  | [] => (Err ErrGap, n)
  | v :: _ => if negb (dvSlot v =? tip n + 1) then (Err ErrGap, n) else accept_values appendOk syncOk page true n
  end.

(** ** Application *)

Record applyIO := mkApplyIO { aAppend : Slot → bool; aSync : bool; aApply : bool }.

(** [decisions[:end]]. *)
Fixpoint page_through (through : Slot) (page : list DecidedValue) : list DecidedValue :=
  match page with
  | [] => []
  | d :: rest => if through <? dvSlot d then [] else d :: page_through through rest
  end.

(** One round of [applyDecisions]: the page through [through] is persisted and
    applied; the result says whether the loop returns. *)
Definition apply_round (io : applyIO) (through : Slot) (v : voter) : result nodeError bool * voter :=
  match decisionsFromBounded (applied v + 1) 256 (2 ^ 63 - 1) certBytes (core v) with
  | Err e => (Err e, v)
  | Ok (page, _) =>
      let batch := page_through through page in
      match last batch with
      | None => (Err ErrGap, v)
      | Some d =>
          match ensureDurableThrough (aAppend io) (aSync io) (dvSlot d) (core v) with
          | (Err e, n1) => (Err e, mkVoter n1 (applied v) (ready v))
          | (Ok _, n1) =>
              if aApply io then (Ok (Nat.ltb (length batch) (length page)), mkVoter n1 (dvSlot d) (ready v))
              else (Err ErrUnavailable, mkVoter n1 (applied v) (ready v))
          end
      end
  end.

(** ** Completion *)

(** The part of [completeDecision] under the slot's lock. *)
Definition complete_locally (syncLocal appendOk syncOk : bool) (v : DecidedValue) (n : node) : outcome_of unit :=
  if syncLocal then ensureDurableLocked appendOk syncOk (dvSlot v) n else log_decision appendOk (dvSlot v) v n.

(** ** Read index *)

(** A reply of [q] with its tip; the read index is fixed by the reply that
    completes the quorum. *)
Definition count_tip (q : NodeID) (t : Slot) (r : read) : read :=
  let '(best, source) := if (rBest r <? t) || bool_decide (rSeen r = []) then (t, q) else (rBest r, rSource r) in
  let seen := q :: rSeen r in
  mkRead (rNode r) (rBefore r) seen best source
    (if Z.of_nat (length seen) =? QuorumSize config_ then Some best else None) (rServed r).

(** ** Restarts *)

Definition forget (q : NodeID) (s : system) : system :=
  mkSystem (voters s)
    ((λ w, mkWrite (wNode w) (wDecided w) (wPhase w) (filter (λ x, x ≠ q) (wLearning w)) (wAcks w)) <$> filter (λ w, wNode w ≠ q) (writes s))
    (filter (λ r, rNode r ≠ q) (reads s)) (acked s).

(** ** Steps *)

Inductive sys_step (s : system) : system → Prop :=
| op_ q n' : op_step q (core (voters s q)) n' → sys_step s (set_core q n' s)
| restart_ q torn n' :
    torn_ok config_ sha256 validateValue decodeSchedule history (core (voters s q)) torn →
    restart_process config_ sha256 validateValue decodeSchedule torn (core (voters s q)) = Ok n' →
    sys_step s (forget q (set_voter q (mkVoter n' (applied (voters s q)) false) s))
| power_ q torn keep n' a' :
    mayLosePower (core (voters s q)) → torn_ok config_ sha256 validateValue decodeSchedule history (core (voters s q)) torn →
    restart_machine config_ sha256 validateValue decodeSchedule torn keep (core (voters s q)) = Ok n' →
    a' <= applied (voters s q) →
    sys_step s (forget q (set_voter q (mkVoter n' a' false) s))
| ready_ q : sys_step s (set_voter q (mkVoter (core (voters s q)) (applied (voters s q)) true) s)
| catch_up_ q ok sy page :
    Forall delivered page → sys_step s (set_core q (catch_up_page ok sy page (core (voters s q))).2 s)
| apply_ q io through : applied (voters s q) < through → sys_step s (set_voter q (apply_round io through (voters s q)).2 s)
| complete_ q syncLocal ok sy v n' :
    q ∈ member_ids config_ → decided (core (voters s q)) !! dvSlot v = Some v →
    complete_locally syncLocal ok sy v (core (voters s q)) = (Ok tt, n') →
    sys_step s (set_writes (mkWrite q v PTip [] [q] :: writes s) (set_core q n' s))
| tip_ pre w post :
    writes s = pre ++ w :: post → wPhase w = PTip → dvSlot (wDecided w) <= tip (core (voters s (wNode w))) →
    sys_step s (set_writes (pre ++ with_phase w PLearn :: post) s)
| learn_ pre w post q ok sy n' :
    writes s = pre ++ w :: post → wPhase w = PLearn → q ∈ member_ids config_ → q ∉ wLearning w → q ∉ wAcks w →
    learn_decision q ok sy (certificate_decision (wDecided w)) (core (voters s q)) = (Ok tt, n') →
    sys_step s (set_writes (pre ++ mkWrite (wNode w) (wDecided w) PLearn (q :: wLearning w) (wAcks w) :: post) (set_core q n' s))
| learned_ pre w post q :
    writes s = pre ++ w :: post → wPhase w = PLearn → q ∈ wLearning w → dvSlot (wDecided w) <= applied (voters s q) →
    sys_step s (set_writes (pre ++ mkWrite (wNode w) (wDecided w) PLearn (filter (λ x, x ≠ q) (wLearning w)) (q :: wAcks w) :: post) s)
| quorum_ pre w post :
    writes s = pre ++ w :: post → wPhase w = PLearn → QuorumSize config_ <= Z.of_nat (length (wAcks w)) →
    sys_step s (set_writes (pre ++ with_phase w PApply :: post) s)
| ack_ pre w post :
    writes s = pre ++ w :: post → wPhase w = PApply → dvSlot (wDecided w) <= applied (voters s (wNode w)) →
    sys_step s (mkSystem (voters s) (pre ++ post) (reads s) (dvSlot (wDecided w) :: acked s))
| read_ q : q ∈ member_ids config_ → sys_step s (set_reads (mkRead q (acked s) [] 0 [] None None :: reads s) s)
| tip_reply_ pre r post q :
    reads s = pre ++ r :: post → rIndex r = None → q ∈ member_ids config_ → q ∉ rSeen r →
    (q = rNode r ∨ ready (voters s q) = true) →
    sys_step s (set_reads (pre ++ count_tip q (tip (core (voters s q))) r :: post) s)
| serve_ pre r post i :
    reads s = pre ++ r :: post → rIndex r = Some i → i <= applied (voters s (rNode r)) →
    sys_step s (set_reads (pre ++ mkRead (rNode r) (rBefore r) (rSeen r) (rBest r) (rSource r) (rIndex r) (Some (applied (voters s (rNode r)))) :: post) s).

Definition sys_reachable : system → Prop := rtc sys_step newSystem.
End reads.
