(* ===== verification/ReadsProofs.v ===== *)
(** * Reads see every acknowledged write

    A voter that acknowledged a decision holds the whole prefix through it in
    the part of its log that it takes for durable, so its tip covers the slot in
    every later state, across restarts of its process and across power failures
    that find this part synced.  Quorums of learners and of read replies
    intersect. *)

From stdpp Require Import gmap list relations.
From S2P Require Import Prelude Bytes Protocol Cluster Proposer Schedule Node NodeSafety NodeProofs Reads.

(** ** The durable frontier of a running process *)

Record grows (n n' : node) : Prop := {
  gr_through : durableThrough n' = durableThrough n;
  gr_durable : durable n ⊆ durable n';
}.

#[global] Instance grows_preorder : PreOrder grows.
Proof. split; [by intros n; split|]. intros x y z [] []. split; [congruence|by etrans]. Qed.

Lemma grows_frame n n' : durableThrough n' = durableThrough n → durable n' = durable n → grows n n'.
Proof. intros ? E. split; [done|by rewrite E]. Qed.

Lemma grows_mark n slot hash : grows n (mark_durable n slot hash).
Proof. split; [done|]. simpl. set_solver. Qed.

Lemma grows_frontier n n' : grows n n' → frontier_ok n → frontier_ok n'.
Proof. intros [E Hd] H s Hs. apply Hd, H. by rewrite <-E. Qed.

#[export] Hint Extern 1 (grows _ _) => (apply grows_frame; reflexivity) : node.
#[export] Hint Resolve grows_mark : node.

Lemma log_decision_marks ok slot v n : grows n (log_decision ok slot v n).2.
Proof. unfold log_decision. repeat case_match; simpl; eauto with node. Qed.

Lemma stageValue_marks sha validate ok hash value n : grows n (stageValue sha validate ok hash value n).2.
Proof. unfold stageValue, stageValueLocked. repeat case_match; simpl; eauto with node. Qed.

Lemma ensureDurableLocked_marks ok sy slot n : grows n (ensureDurableLocked ok sy slot n).2.
Proof.
  unfold ensureDurableLocked. repeat case_match; simpl; eauto with node;
    match goal with H : log_decision ?o ?x ?y ?z = _ |- _ => pose proof (log_decision_marks o x y z) as Hg; rewrite H in Hg end; [|done|done].
  etrans; [exact Hg|]. etrans; [|apply grows_mark]. by apply grows_frame.
Qed.

Lemma mark_page_marks page n : grows n (mark_page page n).
Proof.
  unfold mark_page. revert n. induction page as [|p page IH]; intros n; simpl; [done|]. etrans; [|apply IH].
  case_match; [apply grows_mark|]. split; [done|]. simpl. set_solver.
Qed.

Section reads.
Context (config_ : Cluster) (sha256 : bytes → ValueHash).
Context (validateValue : option (bytes → bool)) (decodeSchedule : bytes → option (list NodeID)).
Context (history : gmap Slot DecidedValue) (sealEligible : bytes → bool) (certBytes : DecidedValue → Z).

Abbreviation inv := (NodeSafety.inv config_ sha256 validateValue decodeSchedule history).
Abbreviation cert_ok := (NodeSafety.cert_ok config_ sha256 validateValue decodeSchedule history).
Abbreviation delivered := (NodeSafety.delivered config_ sha256 validateValue decodeSchedule history).
Abbreviation op_step q := (NodeProofs.op_step config_ sha256 validateValue decodeSchedule history q sealEligible).
Abbreviation accept := (acceptDecision config_ sha256 validateValue decodeSchedule).

(** A new decision was not durable. *)
Lemma acceptDecision_marks d n : inv n → grows n (accept d n).2.
Proof.
  intros Hinv. unfold acceptDecision. repeat case_match; simpl; try done.
  unfold advanceTipLocked. destruct (advance_loop_frame sha256 (size (decided (install config_ d n))) (install config_ d n)) as (t & p & ->).
  split; [done|]. simpl. intros s Hs. apply elem_of_difference. split; [done|]. intros ->%elem_of_singleton.
  destruct (tk_durable _ _ _ _ _ _ (proj1 Hinv) _ Hs) as (v & Hv%subseteq_take & E).
  destruct (tk_wal_decide _ _ _ _ _ _ (proj1 Hinv) v Hv) as (_ & _ & v0 & Hv0 & _). congruence.
Qed.

Lemma accept_page_marks ok durably page n :
  inv n → page_ok config_ sha256 validateValue decodeSchedule history page →
  grows n (accept_page config_ sha256 validateValue decodeSchedule ok durably page n).2.
Proof.
  revert n. induction page as [|[v d] page IH]; intros n Hinv Hp; simpl; [done|].
  apply Forall_cons in Hp as [(Hc & Hs & Hsd) Hp]. simpl in Hc, Hs, Hsd. pose proof (acceptDecision_marks d n Hinv) as Hg.
  destruct (accept d n) as [[u|e] n1] eqn:Ha; [|done]. destruct (acceptDecision_inv _ _ _ _ _ _ _ _ _ Hinv Hs Hsd Ha) as (Hinv1 & _).
  destruct durably; [|etrans; [exact Hg|by apply IH]]. destruct (_ <=? _); [done|].
  pose proof (log_decision_marks ok (DSlot d) v n1) as Hl. destruct (log_decision _ _ _ _) as [[u'|e] n2] eqn:El; [|by etrans].
  destruct u. destruct (accept_log_inv _ _ _ _ _ _ _ _ _ _ _ _ Hinv Hc Hs Hsd Ha El) as (Hinv2 & _).
  etrans; [exact Hg|]. etrans; [exact Hl|]. by apply IH.
Qed.

Lemma acceptCertifiedValues_marks ok sy vs durably n :
  inv n → Forall delivered vs → grows n (acceptCertifiedValues config_ sha256 validateValue decodeSchedule ok sy vs durably n).2.
Proof.
  intros Hinv Hvs. unfold acceptCertifiedValues. destruct (certify_page _ _ vs) as [page|] eqn:Hc; [|done].
  destruct (negb _); [done|]. pose proof (accept_page_marks ok durably page n Hinv (certify_page_ok _ _ _ _ _ _ _ Hvs Hc)) as Hg.
  destruct (accept_page _ _ _ _ _ _ _ _) as [[u|e] n1]; [|done]. destruct (_ || _); [done|]. destruct sy; [|done].
  etrans; [exact Hg|]. etrans; [|apply mark_page_marks]. by apply grows_frame.
Qed.

Lemma record_decided_marks q io req v n : grows n (record_decided q io req v n).2.
Proof.
  unfold record_decided. destruct (negb _); [|done]. pose proof (log_decision_marks (ioAppend io) (RSlot req) v n) as Hg.
  destruct (log_decision _ _ _ _) as [[u|e] n1]; [|done]. destruct (ioSync io); [|done].
  etrans; [exact Hg|]. etrans; [|apply grows_mark]. by apply grows_frame.
Qed.

Lemma record_undecided_marks q io req n : grows n (record_undecided q io req n).2.
Proof. unfold record_undecided. destruct (Record_ _ _ _) as [next summary]. repeat case_match; by apply grows_frame. Qed.

Lemma record_locked_marks q io req n : grows n (record_locked q sealEligible io req n).2.
Proof.
  unfold record_locked. destruct (_ <=? _); [done|].
  repeat case_match; first [done|apply record_decided_marks|apply record_undecided_marks].
Qed.

Lemma record_marks q io req n : grows n (record q sha256 validateValue sealEligible io req n).2.
Proof.
  unfold record. destruct (_ || _); [done|]. destruct (HasPrefix _ _); [done|]. destruct (_ <=? _); [done|].
  destruct (bool_decide (Value (RProposal req) = [])) eqn:E.
  { destruct (_ && _); [done|apply record_locked_marks]. }
  destruct (negb _); [done|]. pose proof (stageValue_marks sha256 validateValue (ioStage io) (Hash (RProposal req)) (Value (RProposal req)) n) as Hg.
  destruct (stageValue _ _ _ _ _ _) as [[u|e] n1]; [|done]. etrans; [exact Hg|]. apply record_locked_marks.
Qed.

Lemma storeValue_marks ok sy hash value n : grows n (storeValue sha256 validateValue ok sy hash value n).2.
Proof.
  unfold storeValue. pose proof (stageValue_marks sha256 validateValue ok hash value n) as Hg.
  destruct (stageValue _ _ _ _ _ _) as [[u|e] n1]; [|done]. case_bool_decide; [done|]. destruct sy; [|done].
  etrans; [exact Hg|]. by apply grows_frame.
Qed.

Lemma op_step_frontier q n n' : inv n → frontier_ok n → op_step q n n' → frontier_ok n'.
Proof.
  intros Hinv Hf Hstep. enough (grows n n' ∨ frontier_ok n') as [Hg|?] by eauto using grows_frontier.
  inversion Hstep as [|slot|ok h v|ok sy h v|io req Hs|d Hs Hd|ok slot v Hd|ok sy slot|ok sy through|ok sy vs dur Hvs]; subst n'.
  - left. unfold reserveSlot. case_match; [case_match|]; by apply grows_frame.
  - left. unfold releaseSlot. repeat case_match; by apply grows_frame.
  - left. apply stageValue_marks.
  - left. apply storeValue_marks.
  - left. apply record_marks.
  - left. by apply acceptDecision_marks.
  - left. apply log_decision_marks.
  - left. apply ensureDurableLocked_marks.
  - right. destruct (ensureDurableThrough _ _ _ _) eqn:E. by destruct (ensureDurableThrough_inv _ _ _ _ _ _ _ _ _ _ _ Hinv E) as (_ & _ & [? _]).
  - left. by apply acceptCertifiedValues_marks.
Qed.

Lemma recover_frontier es k n' : recover config_ sha256 validateValue decodeSchedule es k = Ok n' → frontier_ok n'.
Proof.
  unfold recover. destruct (recover_scan _ _ _ _ _ _) as [m|] eqn:Hm; [|done]. cbn [rbind].
  destruct (map_fold _ _ _); [done|]. intros <-%Ok_inj.
  assert (∀ l x y, recover_scan config_ sha256 validateValue decodeSchedule l x = Ok y → durableThrough y = durableThrough x) as Hscan.
  { induction l as [|e l IH]; intros x y; simpl; [by intros <-%Ok_inj|]. destruct (recover_entry _ _ _ _ e x) as [z|] eqn:He; [|done].
    cbn [rbind]. intros ->%IH. revert He. unfold recover_entry. destruct e; simpl; repeat case_match; try done; by intros <-%Ok_inj. }
  unfold advanceTipLocked. destruct (advance_loop_frame sha256 (size (decided m)) m) as (t & p & ->).
  intros s. simpl. rewrite (Hscan _ _ _ Hm). simpl. lia.
Qed.

(** ** Pinned prefixes *)

(** The whole prefix through a slot is in the trusted part of the log. *)
Definition pinned (n : node) (t : Slot) : Prop := ∀ i, 0 < i <= t → ∃ v, WDecide v ∈ trusted_log n ∧ dvSlot v = i.

Lemma trusted_wal n e : e ∈ trusted_log n → e ∈ wal n.
Proof. apply subseteq_take. Qed.

Lemma pinned_tip n t : inv n → pinned n t → t <= tip n.
Proof.
  intros (Ht & Hp & Hend) Hpin. destruct (decide (t <= tip n)); [done|]. exfalso.
  destruct (Hpin (tip n + 1)) as (v & Hv%trusted_wal & E); [pose proof (pf_tip _ _ Hp); lia|].
  destruct (tk_wal_decide _ _ _ _ _ _ Ht v Hv) as (_ & _ & v0 & Hv0 & _). congruence.
Qed.

(** The contiguous prefix of decisions covers a slot. *)
Definition covers (n : node) (t : Slot) : Prop := t <= tip n ∧ ∀ i, 0 < i <= t → is_Some (decided n !! i).

Lemma pinned_covers n t : inv n → pinned n t → covers n t.
Proof.
  intros Hi Hp. pose proof (pinned_tip n t Hi Hp) as Hle. split; [done|]. intros i Hi2. apply (pf_decided _ _ (proj1 (proj2 Hi))). lia.
Qed.

Lemma durable_pinned n t : inv n → (∀ i, 0 < i <= t → i ∈ durable n) → pinned n t.
Proof. intros Hinv Hd i Hi. apply (tk_durable _ _ _ _ _ _ (proj1 Hinv)). auto. Qed.

Lemma pinned_grows n n' t : trusted_log n `prefix_of` trusted_log n' → pinned n t → pinned n' t.
Proof. intros [suf E] H i Hi. destruct (H i Hi) as (v & ? & ?). exists v. rewrite E, elem_of_app. auto. Qed.

Lemma pinned_le n t t' : t' <= t → pinned n t → pinned n t'.
Proof. intros Hle H i Hi. apply H. lia. Qed.

(** ** Voters *)

Record voter_ok (v : voter) : Prop := {
  vo_inv : inv (core v);
  vo_frontier : frontier_ok (core v);
  vo_applied : pinned (core v) (applied v);
}.

Lemma op_voter q v n' : voter_ok v → op_step q (core v) n' → voter_ok (mkVoter n' (applied v) (ready v)) ∧ trusted_log (core v) `prefix_of` trusted_log n'.
Proof.
  intros [Hi Hf Ha] Hop. pose proof (log_grows_trusted _ _ _ _ _ _ _ Hi (op_step_log _ _ _ _ _ _ _ _ _ Hi Hop)) as Hs.
  split; [|done]. split; simpl; [by eapply op_step_inv|by eapply op_step_frontier|by eapply pinned_grows].
Qed.

Lemma through_voter ok sy t v r n' :
  voter_ok v → ensureDurableThrough ok sy t (core v) = (r, n') →
  inv n' ∧ frontier_ok n' ∧ trusted_log (core v) `prefix_of` trusted_log n' ∧ (r = Ok tt → pinned n' t).
Proof.
  intros [Hi Hf Ha] E. destruct (ensureDurableThrough_inv _ _ _ _ _ _ _ _ _ _ _ Hi E) as (Hi' & _ & Hd).
  destruct (Hd Hf) as [Hf' Hok]. split_and!; [done|done| |].
  - eapply log_grows_trusted; [exact Hi|]. eapply extends_log. by eapply ensureDurableThrough_extends.
  - intros Hr. apply durable_pinned; auto.
Qed.

Lemma apply_round_voter io t v r v' :
  voter_ok v → apply_round certBytes io t v = (r, v') → voter_ok v' ∧ trusted_log (core v) `prefix_of` trusted_log (core v').
Proof.
  intros Hv. unfold apply_round. destruct (decisionsFromBounded _ _ _ _ _) as [[page tp]|e]; [|by intros [= <- <-]].
  destruct (last _) as [d|]; [|by intros [= <- <-]].
  destruct (ensureDurableThrough _ _ _ _) as [[u|e] n1] eqn:E; destruct (through_voter _ _ _ _ _ _ Hv E) as (Hi & Hf & Hs & Hp).
  - destruct u. destruct (aApply io); intros [= <- <-]; (split; [|done]); split; try done; [by apply Hp|].
    eapply pinned_grows; [exact Hs|apply Hv].
  - intros [= <- <-]. split; [|done]. split; try done. eapply pinned_grows; [exact Hs|apply Hv].
Qed.

(** ** The system *)

Definition quorum (Q : list NodeID) : Prop := NoDup Q ∧ Q ⊆ member_ids config_ ∧ QuorumSize config_ <= Z.of_nat (length Q).

Lemma quorum_meets Q Q' : quorum Q → quorum Q' → ∃ q, q ∈ Q ∧ q ∈ Q'.
Proof. intros (? & ? & ?) (? & ? & ?). by apply (quorum_intersect config_). Qed.

(** [P q t]: voter [q] holds the prefix through [t]. *)
Definition held_by_quorum (P : NodeID → Slot → Prop) (t : Slot) : Prop := ∃ Q, quorum Q ∧ ∀ q, q ∈ Q → P q t.

Record write_ok (P : NodeID → Slot → Prop) (w : write) : Prop := {
  wo_cert : cert_ok (wDecided w);
  wo_slot : 0 < dvSlot (wDecided w);
  wo_nodup : NoDup (wAcks w);
  wo_acks : wAcks w ⊆ member_ids config_;
  wo_learning : wLearning w ⊆ member_ids config_ ∧ ∀ q, q ∈ wLearning w → q ∉ wAcks w;
  wo_held q : q ∈ wAcks w → q = wNode w ∨ P q (dvSlot (wDecided w));
  wo_apply : wPhase w = PApply → QuorumSize config_ <= Z.of_nat (length (wAcks w));
}.

Record read_ok (P : NodeID → Slot → Prop) (r : read) : Prop := {
  ro_nodup : NoDup (rSeen r);
  ro_seen : rSeen r ⊆ member_ids config_;
  ro_before t : t ∈ rBefore r → ∃ Q, quorum Q ∧ (∀ q, q ∈ Q → P q t) ∧ ∀ q, q ∈ Q → q ∈ rSeen r → t <= rBest r;
  ro_index i t : rIndex r = Some i → t ∈ rBefore r → t <= i;
  ro_served a t : rServed r = Some a → t ∈ rBefore r → t <= a;
}.

Lemma write_ok_mono (P P' : NodeID → Slot → Prop) w : (∀ q t, P q t → P' q t) → write_ok P w → write_ok P' w.
Proof. intros HP [H1 H2 H3 H4 H5 H6 H7]. split; try done. intros q [?|?]%H6; auto. Qed.

Lemma read_ok_mono (P P' : NodeID → Slot → Prop) r : (∀ q t, P q t → P' q t) → read_ok P r → read_ok P' r.
Proof.
  intros HP [H1 H2 H3 H4 H5]. split; try done. intros t Ht. destruct (H3 t Ht) as (Q & ? & ? & ?). exists Q. eauto.
Qed.

Definition holds (s : system) (q : NodeID) (t : Slot) : Prop := pinned (core (voters s q)) t.

Record sys_inv (s : system) : Prop := {
  sy_voter q : voter_ok (voters s q);
  sy_write w : w ∈ writes s → write_ok (holds s) w;
  sy_acked t : t ∈ acked s → held_by_quorum (holds s) t;
  sy_read r : r ∈ reads s → read_ok (holds s) r;
}.

Lemma voters_set q v s q' : voters (set_voter q v s) q' = if bool_decide (q' = q) then v else voters s q'.
Proof. done. Qed.

(** A voter moves on. *)
Lemma sys_inv_voter q v s :
  sys_inv s → voter_ok v → trusted_log (core (voters s q)) `prefix_of` trusted_log (core v) →
  sys_inv (set_voter q v s) ∧ ∀ q' t, holds s q' t → holds (set_voter q v s) q' t.
Proof.
  intros [H1 H2 H3 H4] Hv Hs.
  assert (∀ q' t, holds s q' t → holds (set_voter q v s) q' t) as Hm.
  { intros q' t. unfold holds. rewrite voters_set. case_bool_decide as E; [|done]. subst q'. by apply pinned_grows. }
  split; [|done]. split.
  - intros q'. rewrite voters_set. by case_bool_decide.
  - intros w Hw%H2. by eapply write_ok_mono.
  - intros t Ht. destruct (H3 t Ht) as (Q & HQ & Hall). exists Q. auto.
  - intros r Hr%H4. by eapply read_ok_mono.
Qed.

Lemma sys_inv_op q n' s : sys_inv s → op_step q (core (voters s q)) n' → sys_inv (set_core q n' s) ∧ ∀ q' t, holds s q' t → holds (set_core q n' s) q' t.
Proof.
  intros Hinv Hop. destruct (op_voter q (voters s q) n' (sy_voter _ Hinv q) Hop) as [Hv Hs]. by apply sys_inv_voter.
Qed.

(** One write is replaced. *)
Lemma sys_inv_write pre w w' post s :
  sys_inv s → writes s = pre ++ w :: post → write_ok (holds s) w' → sys_inv (set_writes (pre ++ w' :: post) s).
Proof.
  intros [H1 H2 H3 H4] Hs Hw. split; try done. intros x Hx. simpl in Hx. rewrite elem_of_app, elem_of_cons in Hx.
  destruct Hx as [?|[->|?]]; [|done|]; apply H2; rewrite Hs, elem_of_app, elem_of_cons; auto.
Qed.

Lemma sys_inv_read pre r r' post s :
  sys_inv s → reads s = pre ++ r :: post → read_ok (holds s) r' → sys_inv (set_reads (pre ++ r' :: post) s).
Proof.
  intros [H1 H2 H3 H4] Hs Hw. split; try done. intros x Hx. simpl in Hx. rewrite elem_of_app, elem_of_cons in Hx.
  destruct Hx as [?|[->|?]]; [|done|]; apply H4; rewrite Hs, elem_of_app, elem_of_cons; auto.
Qed.

Lemma sys_inv_forget q s : sys_inv s → sys_inv (forget q s).
Proof.
  intros [H1 H2 H3 H4]. split; try done.
  - intros x (w & -> & [_ Hw]%list_elem_of_filter)%list_elem_of_fmap. destruct (H2 w Hw) as [W1 W2 W3 W4 [W5 W5'] W6 W7]. split; try done.
    simpl. split; [intros y [_ Hy]%list_elem_of_filter; by apply W5|intros y [_ Hy]%list_elem_of_filter; by apply W5'].
  - intros x [_ Hx]%list_elem_of_filter. by apply H4.
Qed.

(** A voter starts again with what it had trusted. *)
Lemma sys_inv_restart q n' a' s :
  sys_inv s → inv n' → frontier_ok n' → trusted_log (core (voters s q)) `prefix_of` trusted_log n' → a' <= applied (voters s q) →
  sys_inv (forget q (set_voter q (mkVoter n' a' false) s)).
Proof.
  intros Hinv Hi Hf Hst Ha. apply sys_inv_forget, sys_inv_voter; [done| |done]. split; simpl; [done|done|].
  eapply pinned_le; [exact Ha|]. eapply pinned_grows; [done|]. apply (vo_applied _ (sy_voter _ Hinv q)).
Qed.

Lemma machine_trusted n torn keep n' :
  inv n → settled n →
  started config_ sha256 validateValue decodeSchedule history (power_cut keep (with_torn torn n)) (length (power_cut keep (with_torn torn n))) n' →
  trusted_log n `prefix_of` trusted_log n'.
Proof.
  intros Hi Hs Hst. destruct (started_stable _ _ _ _ _ _ _ Hst) as [_ ->]. rewrite settled_log by done. by eapply power_cut_stable.
Qed.

Lemma cert_delivered v : cert_ok v → 0 < dvSlot v → delivered v.
Proof. intros [H1 H2 H3 H4 H5 H6] Hs. split; [lia|]. intros _. simpl. by rewrite H3. Qed.

Lemma complete_op q syncLocal ok sy v n r n' :
  decided n !! dvSlot v = Some v → complete_locally syncLocal ok sy v n = (r, n') → op_step q n n'.
Proof.
  unfold complete_locally. intros Hd E. destruct syncLocal.
  - replace n' with (ensureDurableLocked ok sy (dvSlot v) n).2 by (by rewrite E). apply step_durable.
  - replace n' with (log_decision ok (dvSlot v) v n).2 by (by rewrite E). by apply step_log.
Qed.

Lemma learn_voter q ok sy v x n' :
  voter_ok x → delivered v → dvSlot v = DSlot (dvCertificate v) →
  learn_decision config_ sha256 validateValue decodeSchedule q ok sy (certificate_decision v) (core x) = (Ok tt, n') →
  voter_ok (mkVoter n' (applied x) (ready x)) ∧ trusted_log (core x) `prefix_of` trusted_log n'.
Proof.
  intros Hx [Hs Hv] Hslot. unfold learn_decision. destruct (accept _ _) as [[u|e] n1] eqn:E; [|done].
  destruct (op_voter q x n1 Hx) as [Hx1 Hst].
  { replace n1 with (accept (certificate_decision v) (core x)).2 by (by rewrite E). apply step_accept; [simpl; lia|done]. }
  destruct (existsb _ _); [by intros [= <-]|]. intros E2. destruct (op_voter q _ n' Hx1) as [Hx2 Hst2].
  { replace n' with (ensureDurableLocked ok sy (DSlot (certificate_decision v)) n1).2 by (by rewrite E2). apply step_durable. }
  split; [done|by etrans].
Qed.

Lemma count_tip_ok s r q :
  sys_inv s → read_ok (holds s) r → q ∈ member_ids config_ → q ∉ rSeen r →
  read_ok (holds s) (count_tip config_ q (tip (core (voters s q))) r).
Proof.
  intros Hinv [R1 R2 R3 R4 R5] Hq Hn. set (tq := tip (core (voters s q))).
  assert (NoDup (q :: rSeen r) ∧ q :: rSeen r ⊆ member_ids config_) as [Hnd Hsub].
  { split; [by constructor|]. intros x [->|?]%elem_of_cons; [done|by apply R2]. }
  unfold count_tip. destruct (if (rBest r <? tq) || _ then _ else _) as [best source] eqn:Hb.
  assert (tq <= best ∧ (rSeen r ≠ [] → rBest r <= best)) as [Hle Hle'].
  { revert Hb. destruct (Z.ltb_spec (rBest r) tq); simpl; [intros [= <- <-]; split; lia|]. case_bool_decide; intros [= <- <-]; split; try lia; done. }
  assert (∀ t, t ∈ rBefore r → ∃ Q, quorum Q ∧ (∀ x, x ∈ Q → holds s x t) ∧ ∀ x, x ∈ Q → x ∈ q :: rSeen r → t <= best) as Hbefore.
  { intros t (Q & HQ & Hall & Hseen)%R3. exists Q. split_and!; [done|done|]. intros x Hx [->|Hx']%elem_of_cons.
    - transitivity tq; [|done]. apply pinned_tip; [apply (sy_voter _ Hinv)|by apply Hall].
    - transitivity (rBest r); [by eapply Hseen|]. apply Hle'. intros E. rewrite E in Hx'. by apply elem_of_nil in Hx'. }
  split; [done|done|done| |done]. cbn [rIndex rBefore].
  intros i t Hi Ht. revert Hi. destruct (_ =? QuorumSize config_) eqn:Hlen; [|done]. apply Z.eqb_eq in Hlen. intros [= <-].
  destruct (Hbefore t Ht) as (Q & HQ & _ & Hseen). destruct (quorum_meets Q (q :: rSeen r)) as (x & Hx & Hx'); [done| |by eapply Hseen].
  split_and!; [done|done|]. by rewrite Hlen.
Qed.

Lemma ack_held s pre w post :
  sys_inv s → writes s = pre ++ w :: post → wPhase w = PApply → dvSlot (wDecided w) <= applied (voters s (wNode w)) →
  held_by_quorum (holds s) (dvSlot (wDecided w)).
Proof.
  intros Hinv Hs Hp Ha. destruct (sy_write _ Hinv w) as [W1 W2 W3 W4 W5 W6 W7]; [rewrite Hs, elem_of_app, elem_of_cons; auto|].
  exists (wAcks w). split; [split_and!; auto|]. intros q [->|?]%W6; [|done].
  eapply pinned_le; [exact Ha|]. apply (vo_applied _ (sy_voter _ Hinv _)).
Qed.

Lemma sys_step_inv s s' : sys_inv s → sys_step config_ sha256 validateValue decodeSchedule history sealEligible certBytes settled s s' → sys_inv s'.
Proof.
  intros Hinv Hstep. destruct Hstep as [q n' Hop|q torn n' Hf Hr|q torn keep n' a' Hm Hf Hr Ha|q|q ok sy page Hp|q io through Ht|q syncLocal ok sy v n' Hq Hd Hc|
    pre w post Hs Hph Ht|pre w post q ok sy n' Hs Hph Hq Hl Hk Hacc|pre w post q Hs Hph Hl Hap|pre w post Hs Hph Hle|
    pre w post Hs Hph Ha|q Hq|pre r post q Hs Hi Hq Hn Hrd|pre r post i Hs Hi Ha].
  - by apply sys_inv_op.
  - pose proof (process_log _ _ _ _ _ _ _ _ (vo_inv _ (sy_voter _ Hinv q)) (process_started _ _ _ _ _ _ _ _ (vo_inv _ (sy_voter _ Hinv q)) Hf Hr)) as Hg.
    apply sys_inv_restart; [done| |by eapply recover_frontier|by eapply log_grows_trusted; [apply (sy_voter _ Hinv q)|]|done].
    eapply st_inv, process_started; [apply (sy_voter _ Hinv q)|done|done].
  - pose proof (machine_started _ _ _ _ _ _ _ _ _ (vo_inv _ (sy_voter _ Hinv q)) Hf Hr) as Hst.
    apply sys_inv_restart; [done|by eapply st_inv|by eapply recover_frontier| |done].
    eapply machine_trusted; [apply (sy_voter _ Hinv q)|done|done].
  - apply sys_inv_voter; [done| |done]. by destruct (sy_voter _ Hinv q).
  - unfold catch_up_page. destruct page as [|v page]; [|destruct (negb _)]; simpl.
    1,2: apply sys_inv_voter; [done| |done]; by destruct (sy_voter _ Hinv q).
    by apply sys_inv_op, step_page.
  - destruct (apply_round _ _ _ _) as [r v'] eqn:E. destruct (apply_round_voter _ _ _ _ _ (sy_voter _ Hinv q) E). by apply sys_inv_voter.
  - destruct (sys_inv_op q n' s Hinv (complete_op q _ _ _ _ _ _ _ Hd Hc)) as [[I1 I2 I3 I4] _].
    destruct (tk_decided _ _ _ _ _ _ (proj1 (vo_inv _ (sy_voter _ Hinv q))) _ _ Hd) as (Hpos & _ & Hcert).
    split; try done. intros w [->|Hw]%elem_of_cons; [|by apply I2]. split; simpl; try done.
    + apply NoDup_singleton.
    + intros x ->%list_elem_of_singleton. done.
    + split; [by intros x Hx%elem_of_nil|by intros x Hx%elem_of_nil].
    + intros x ->%list_elem_of_singleton. by left.
  - apply (sys_inv_write pre w); [done..|]. destruct (sy_write _ Hinv w) as [W1 W2 W3 W4 W5 W6 W7]; [rewrite Hs, elem_of_app, elem_of_cons; auto|]. by split.
  - destruct (sy_write _ Hinv w) as [W1 W2 W3 W4 [W5 W5'] W6 W7]; [rewrite Hs, elem_of_app, elem_of_cons; auto|].
    destruct (learn_voter q _ _ _ _ _ (sy_voter _ Hinv q) (cert_delivered _ W1 W2) (eq_sym (co_slot _ _ _ _ _ _ W1)) Hacc) as [Hv Hst].
    destruct (sys_inv_voter q _ s Hinv Hv Hst) as [Hinv' Hm].
    apply (sys_inv_write pre w); [done|done|]. split; simpl; try done; [|intros x [?|?]%W6; auto].
    split; intros x [->|?]%elem_of_cons; auto.
  - destruct (sy_write _ Hinv w) as [W1 W2 W3 W4 [W5 W5'] W6 W7]; [rewrite Hs, elem_of_app, elem_of_cons; auto|].
    apply (sys_inv_write pre w); [done|done|]. split; simpl; try done.
    + constructor; [by apply W5'|done].
    + intros x [->|?]%elem_of_cons; auto.
    + split; [intros x [_ ?]%list_elem_of_filter; auto|]. intros x [? ?]%list_elem_of_filter. rewrite elem_of_cons. intros [?|?]; [done|]. by eapply W5'.
    + intros x [->|?%W6]%elem_of_cons; [|done]. right. eapply pinned_le; [exact Hap|]. apply (vo_applied _ (sy_voter _ Hinv q)).
  - apply (sys_inv_write pre w); [done..|]. destruct (sy_write _ Hinv w) as [W1 W2 W3 W4 W5 W6 W7]; [rewrite Hs, elem_of_app, elem_of_cons; auto|]. by split.
  - pose proof (ack_held _ _ _ _ Hinv Hs Hph Ha) as Hack. destruct Hinv as [I1 I2 I3 I4]. split; simpl; try done.
    + intros x Hx. apply I2. rewrite Hs, elem_of_app, elem_of_cons. rewrite elem_of_app in Hx. tauto.
    + intros t [->|?]%elem_of_cons; auto.
  - pose proof Hinv as [I1 I2 I3 I4]. split; simpl; try done. intros r [->|?]%elem_of_cons; [|auto]. split; simpl; try done.
    + apply NoDup_nil_2.
    + by intros x Hx%elem_of_nil.
    + intros t (Q & HQ & Hall)%I3. exists Q. split_and!; [done|done|]. by intros x _ Hx%elem_of_nil.
  - apply (sys_inv_read pre r); [done..|]. apply count_tip_ok; try done. apply (sy_read _ Hinv). rewrite Hs, elem_of_app, elem_of_cons. auto.
  - apply (sys_inv_read pre r); [done..|]. destruct (sy_read _ Hinv r) as [R1 R2 R3 R4 R5]; [rewrite Hs, elem_of_app, elem_of_cons; auto|].
    split; simpl; try done. intros a t [= <-] Ht. etrans; [by eapply R4|done].
Qed.

Lemma newSystem_inv : sys_inv newSystem.
Proof.
  split; simpl; try (by intros ? Hx%elem_of_nil). intros q. split; simpl; [apply emptyNode_inv|intros s; simpl; lia|intros i; lia].
Qed.

Lemma system_inv s : sys_reachable config_ sha256 validateValue decodeSchedule history sealEligible certBytes settled s → sys_inv s.
Proof.
  intros H. assert (∀ x y, rtc (sys_step config_ sha256 validateValue decodeSchedule history sealEligible certBytes settled) x y → sys_inv x → sys_inv y) as Hrun.
  { induction 1 as [|x y z Hs _ IH]; [done|]. intros Hx. by eapply IH, sys_step_inv. }
  eapply Hrun; [exact H|apply newSystem_inv].
Qed.

(** C3: reads are linearizable.  In every interleaving of proposers, learners,
    readers, restarts of processes, and power failures of machines on which what
    the running process had found in its log at its start is on disk, a
    linearizable read is served at a position that covers every write
    acknowledged before the read began. *)
Theorem linearizable_read s r a t :
  sys_reachable config_ sha256 validateValue decodeSchedule history sealEligible certBytes settled s →
  r ∈ reads s → rServed r = Some a → t ∈ rBefore r → t <= a.
Proof. intros H%system_inv Hr Ha Ht. by apply (ro_served _ _ (sy_read _ H r Hr) a). Qed.

(** C4: an acknowledged write is held by a quorum.  In the same runs, each of
    them recovers a contiguous prefix that covers the slot when its process
    stops at any point and starts again, whatever append failed; and when its
    machine loses power, whatever part of the unsynced log is left, provided
    what its process had found at its start is on disk. *)
Theorem acknowledged_write_held s t :
  sys_reachable config_ sha256 validateValue decodeSchedule history sealEligible certBytes settled s → t ∈ acked s →
  ∃ Q, NoDup Q ∧ Q ⊆ member_ids config_ ∧ QuorumSize config_ <= Z.of_nat (length Q) ∧
    ∀ q torn, q ∈ Q → torn_ok config_ sha256 validateValue decodeSchedule history (core (voters s q)) torn →
      (∃ n', restart_process config_ sha256 validateValue decodeSchedule torn (core (voters s q)) = Ok n' ∧ covers n' t) ∧
      (settled (core (voters s q)) → ∀ keep,
       ∃ n', restart_machine config_ sha256 validateValue decodeSchedule torn keep (core (voters s q)) = Ok n' ∧ covers n' t).
Proof.
  intros H%system_inv Ht. destruct (sy_acked _ H t Ht) as (Q & (HQ1 & HQ2 & HQ3) & Hall). exists Q. split_and!; [done..|].
  intros q torn Hq Hf. pose proof (vo_inv _ (sy_voter _ H q)) as Hi. split.
  - destruct (process_spec _ _ _ _ _ _ torn Hi Hf) as (n' & Hr & Hst). exists n'. split; [done|].
    apply pinned_covers; [by eapply st_inv|]. eapply pinned_grows; [|by apply Hall]. eapply log_grows_trusted, process_log; done.
  - intros Hs keep. destruct (machine_spec _ _ _ _ _ _ torn keep Hi Hf) as (n' & Hr & Hst). exists n'. split; [done|].
    apply pinned_covers; [by eapply st_inv|]. eapply pinned_grows; [|by apply Hall]. by eapply machine_trusted.
Qed.
End reads.
