(* ===== verification/ReadsExamples.v ===== *)
(** * A write and a read

    Voter 1 completes slot 1 with voter 2 as learner, applies it and
    acknowledges it; a read at voter 3, which has not learned the slot, asks
    voter 1, catches up and is served at slot 1.  The same write and read when
    voters 1 and 2 had restarted over a log with the decision that was not on
    disk, and lose power after the acknowledgement: the read misses the write. *)

From stdpp Require Import gmap list relations.
From S2P Require Import Prelude Bytes Protocol Register Cluster Proposer Schedule ScheduleProofs Node NodeSafety NodeProofs NodeExamples Reads ReadsProofs.

Abbreviation demo_sys_step P := (sys_step three tag_hash None one_byte_ids demo_history (λ _, true) (λ _, 0) P).
Abbreviation demo_runs P := (rtc (demo_sys_step P)).

Definition demo_slot_value : DecidedValue := mkDecided 1 (tag_hash demo_value) demo_value (encodeCertificate 1 demo_decided).
Definition apply_ok : applyIO := mkApplyIO (λ _, true) true true.

Definition after_core (f : node → node) (q : NodeID) (s : system) : system := set_core q (f (core (voters s q))) s.
Definition after_apply (q : NodeID) (s : system) : system := set_voter q (apply_round (λ _, 0) apply_ok 1 (voters s q)).2 s.

(** ** The write, from a state in which voter 1 has decided slot 1 *)

Definition demo_write (phase : writePhase) (learning acks : list NodeID) : write := mkWrite [x01] demo_slot_value phase learning acks.
Definition completed_sys (s : system) : system :=
  set_writes [demo_write PTip [] [[x01]]] (after_core (λ n, (complete_locally false true true demo_slot_value n).2) [x01] s).
Definition sending_sys (s : system) : system := set_writes [demo_write PLearn [] [[x01]]] (completed_sys s).
Definition demo_learn (n : node) : outcome_of unit :=
  learn_decision three tag_hash None one_byte_ids [x02] true true (certificate_decision demo_slot_value) n.
Definition learning_sys (s : system) : system :=
  set_writes [demo_write PLearn [[x02]] [[x01]]] (after_core (λ n, (demo_learn n).2) [x02] (sending_sys s)).
Definition learner_applied_sys (s : system) : system := after_apply [x02] (learning_sys s).
Definition learned_sys (s : system) : system := set_writes [demo_write PLearn [] [[x02]; [x01]]] (learner_applied_sys s).
Definition quorum_sys (s : system) : system := set_writes [demo_write PApply [] [[x02]; [x01]]] (learned_sys s).
Definition applied_sys (s : system) : system := after_apply [x01] (quorum_sys s).
Definition acked_sys (s : system) : system := mkSystem (voters (applied_sys s)) [] (reads s) (1 :: acked s).

Lemma ok_pair {A} (x : outcome_of A) a : x.1 = Ok a → x = (Ok a, x.2).
Proof. destruct x. simpl. congruence. Qed.

(** What the steps of the write need of the state it starts from. *)
Record write_runs (s : system) : Prop := {
  wr_idle : writes s = [];
  wr_decided : decided (core (voters s [x01])) !! 1 = Some demo_slot_value;
  wr_complete : (complete_locally false true true demo_slot_value (core (voters s [x01]))).1 = Ok tt;
  wr_tip : 1 <= tip (core (voters (completed_sys s) [x01]));
  wr_learn : (demo_learn (core (voters (sending_sys s) [x02]))).1 = Ok tt;
  wr_behind : applied (voters (learning_sys s) [x02]) < 1;
  wr_learned : 1 <= applied (voters (learner_applied_sys s) [x02]);
  wr_behind' : applied (voters (quorum_sys s) [x01]) < 1;
  wr_applied : 1 <= applied (voters (applied_sys s) [x01]);
}.

Lemma acked_runs P s : write_runs s → demo_runs P s (acked_sys s).
Proof.
  intros [W1 W2 W3 W4 W5 W6 W7 W8 W9]. transitivity (completed_sys s).
  { apply rtc_once. unfold completed_sys. rewrite <-W1. eapply (complete_ _ _ _ _ _ _ _ _ s [x01] false true true demo_slot_value).
    - by left.
    - exact W2.
    - by apply ok_pair. }
  transitivity (sending_sys s); [apply rtc_once, (tip_ _ _ _ _ _ _ _ _ (completed_sys s) [] (demo_write PTip [] [[x01]]) []); done|].
  transitivity (learning_sys s).
  { apply rtc_once, (learn_ _ _ _ _ _ _ _ _ (sending_sys s) [] (demo_write PLearn [] [[x01]]) [] [x02] true true).
    - done.
    - done.
    - right; by left.
    - by apply not_elem_of_nil.
    - by intros ?%list_elem_of_singleton.
    - by apply ok_pair. }
  transitivity (learner_applied_sys s); [by apply rtc_once, apply_|].
  transitivity (learned_sys s).
  { apply rtc_once, (learned_ _ _ _ _ _ _ _ _ (learner_applied_sys s) [] (demo_write PLearn [[x02]] [[x01]]) [] [x02]); [done|done|by left|done]. }
  transitivity (quorum_sys s).
  { apply rtc_once, (quorum_ _ _ _ _ _ _ _ _ (learned_sys s) [] (demo_write PLearn [] [[x02]; [x01]]) []); [done|done|by vm_compute]. }
  transitivity (applied_sys s); [by apply rtc_once, apply_|].
  apply rtc_once. exact (ack_ _ _ _ _ _ _ _ _ (applied_sys s) [] (demo_write PApply [] [[x02]; [x01]]) [] eq_refl eq_refl W9).
Qed.

(** ** The read at voter 3, which asks voter 1 *)

Definition ready_sys (s : system) : system := set_voter [x01] (mkVoter (core (voters s [x01])) (applied (voters s [x01])) true) s.
Definition new_read (s : system) : read := mkRead [x03] (acked s) [] 0 [] None None.
Definition reading_sys (s : system) : system := set_reads [new_read s] (ready_sys s).
Definition self_read (s : system) : read := count_tip three [x03] (tip (core (voters (reading_sys s) [x03]))) (new_read s).
Definition self_read_sys (s : system) : system := set_reads [self_read s] (reading_sys s).
Definition indexed_read (s : system) : read := count_tip three [x01] (tip (core (voters (self_read_sys s) [x01]))) (self_read s).
Definition indexed_sys (s : system) : system := set_reads [indexed_read s] (self_read_sys s).

Lemma indexed_runs P s :
  reads s = [] → rIndex (self_read s) = None → rSeen (self_read s) = [[x03]] → demo_runs P s (indexed_sys s).
Proof.
  intros R1 R2 R3. transitivity (ready_sys s); [apply rtc_once, ready_|].
  transitivity (reading_sys s).
  { apply rtc_once. unfold reading_sys. assert ([new_read s] = new_read s :: reads (ready_sys s)) as -> by (simpl; by rewrite R1).
    apply (read_ _ _ _ _ _ _ _ _ (ready_sys s) [x03]). right; right; by left. }
  transitivity (self_read_sys s).
  { apply rtc_once, (tip_reply_ _ _ _ _ _ _ _ _ (reading_sys s) [] (new_read s) [] [x03]).
    - done.
    - done.
    - right; right; by left.
    - by apply not_elem_of_nil.
    - by left. }
  apply rtc_once, (tip_reply_ _ _ _ _ _ _ _ _ (self_read_sys s) [] (self_read s) [] [x01]).
  - done.
  - done.
  - by left.
  - rewrite R3. by intros ?%list_elem_of_singleton.
  - by right.
Qed.

Definition serve (s : system) (r : read) : system :=
  set_reads [mkRead (rNode r) (rBefore r) (rSeen r) (rBest r) (rSource r) (rIndex r) (Some (applied (voters s (rNode r))))] s.

Lemma serve_runs P s r i : reads s = [r] → rIndex r = Some i → i <= applied (voters s (rNode r)) → demo_runs P s (serve s r).
Proof. intros H1 H2 H3. apply rtc_once. exact (serve_ _ _ _ _ _ _ _ _ s [] r [] i H1 H2 H3). Qed.

(** ** A run without failures *)

Definition decided_sys : system := after_core (λ n, demo_accept n) [x01] newSystem.
Definition written_sys : system := acked_sys decided_sys.
Definition asked_sys : system := indexed_sys written_sys.
Definition caught_up_sys : system :=
  after_core (λ n, (catch_up_page three tag_hash None one_byte_ids true true [demo_slot_value] n).2) [x03] asked_sys.
Definition read_applied_sys : system := after_apply [x03] caught_up_sys.
Definition served_sys : system := serve read_applied_sys (indexed_read written_sys).

Lemma demo_delivered : delivered three tag_hash None one_byte_ids demo_history demo_slot_value.
Proof. split; [done|]. intros _. reflexivity. Qed.

Lemma written_runs : demo_runs settled newSystem written_sys.
Proof.
  transitivity decided_sys; [apply rtc_once, op_; apply step_accept; [done|]; intros _; reflexivity|].
  apply acked_runs. split; first [done|vm_compute; reflexivity|by vm_compute].
Qed.

Abbreviation demo_sys_reachable P := (sys_reachable three tag_hash None one_byte_ids demo_history (λ _, true) (λ _, 0) P).

Lemma served_reachable : demo_sys_reachable settled served_sys.
Proof.
  unfold sys_reachable. transitivity written_sys; [apply written_runs|].
  transitivity asked_sys; [apply indexed_runs; vm_compute; reflexivity|].
  transitivity caught_up_sys; [apply rtc_once, catch_up_; constructor; [apply demo_delivered|constructor]|].
  transitivity read_applied_sys; [apply rtc_once, apply_; by vm_compute|].
  apply serve_runs with 1; [done|by vm_compute|by vm_compute].
Qed.

Definition served_read : read := default (new_read newSystem) (head (reads served_sys)).

Lemma linearizable_read_witness : served_read ∈ reads served_sys ∧ rServed served_read = Some 1 ∧ 1 ∈ rBefore served_read ∧ 1 <= 1.
Proof.
  assert (served_read ∈ reads served_sys) as Hr by (by left). assert (1 ∈ rBefore served_read) as Hb by (by left).
  assert (rServed served_read = Some 1) as Hs by (vm_compute; reflexivity).
  split; [exact Hr|]. split; [exact Hs|]. split; [exact Hb|].
  exact (linearizable_read three tag_hash None one_byte_ids demo_history (λ _, true) (λ _, 0) served_sys served_read 1 1 served_reachable Hr Hs Hb).
Defined.

Lemma acknowledged_write_held_witness :
  1 ∈ acked written_sys ∧ ∃ Q, NoDup Q ∧ Q ⊆ member_ids three ∧ QuorumSize three <= Z.of_nat (length Q) ∧
    ∀ q torn, q ∈ Q → torn_ok three tag_hash None one_byte_ids demo_history (core (voters written_sys q)) torn →
      (∃ n', restart_process three tag_hash None one_byte_ids torn (core (voters written_sys q)) = Ok n' ∧ covers n' 1) ∧
      (settled (core (voters written_sys q)) → ∀ keep,
       ∃ n', restart_machine three tag_hash None one_byte_ids torn keep (core (voters written_sys q)) = Ok n' ∧ covers n' 1).
Proof.
  assert (1 ∈ acked written_sys) as Ht by (by left). split; [exact Ht|].
  exact (acknowledged_write_held three tag_hash None one_byte_ids demo_history (λ _, true) (λ _, 0) written_sys 1 written_runs Ht).
Defined.

(** ** A run with unsettled power failures *)

(** A voter learns slot 1, logs it without a sync, and its process restarts. *)
Definition restarted (q : NodeID) (s : system) : system :=
  forget q (set_voter q (mkVoter (match demo_process None demo_logged with Ok n => n | Err _ => demo_logged end) 0 false)
    (set_core q demo_logged (set_core q (demo_accept emptyNode) s))).

Lemma restarted_runs P q s : voters s q = newVoter → demo_runs P s (restarted q s).
Proof.
  intros Hq. set (s1 := set_core q (demo_accept emptyNode) s). set (s2 := set_core q demo_logged s1).
  assert (voters s1 q = mkVoter (demo_accept emptyNode) 0 false) as E1.
  { unfold s1, set_core. rewrite voters_set, bool_decide_eq_true_2, Hq by done. done. }
  assert (voters s2 q = mkVoter demo_logged 0 false) as E2.
  { unfold s2, set_core. rewrite voters_set, bool_decide_eq_true_2, E1 by done. done. }
  transitivity s1; [apply rtc_once, op_; rewrite Hq; apply step_accept; [done|]; intros _; reflexivity|].
  transitivity s2; [apply rtc_once, op_; rewrite E1; apply step_log; vm_compute; reflexivity|].
  apply rtc_once. unfold restarted. fold s1. fold s2.
  replace 0 with (applied (voters s2 q)) at 1 by (by rewrite E2). apply (restart_ _ _ _ _ _ _ _ _ s2 q None); [done|].
  rewrite E2. vm_compute. reflexivity.
Qed.

(** A voter loses power and everything that was not synced. *)
Definition powerless (q : NodeID) (s : system) : system := forget q (set_voter q (mkVoter emptyNode 0 false) s).

Definition unsettled_sys : system := restarted [x02] (restarted [x01] newSystem).
Definition acknowledged_sys : system := acked_sys unsettled_sys.
Definition lost_sys : system := powerless [x02] (powerless [x01] acknowledged_sys).
Definition missed_sys : system := serve (indexed_sys lost_sys) (indexed_read lost_sys).

Lemma powerless_runs q s :
  restart_machine three tag_hash None one_byte_ids None 0 (core (voters s q)) = Ok emptyNode → 0 <= applied (voters s q) →
  demo_runs (λ _, True) s (powerless q s).
Proof. intros Hr Ha. by apply rtc_once, (power_ _ _ _ _ _ _ _ _ s q None 0). Qed.

(** Reads need the condition on power failures: a run of the code in which
    voters 1 and 2 restarted with the decision of slot 1 in an unsynced log,
    acknowledge the write without a sync and lose power, ends with a read that
    began after the acknowledgement and is served before the write. *)
Theorem power_failure_hides_write :
  demo_sys_reachable (λ _, True) missed_sys ∧ acked acknowledged_sys = [1] ∧
  ∃ r, r ∈ reads missed_sys ∧ 1 ∈ rBefore r ∧ rServed r = Some 0.
Proof.
  split; [|split; [done|]].
  - unfold sys_reachable. transitivity (restarted [x01] newSystem); [by apply restarted_runs|].
    transitivity unsettled_sys; [by apply restarted_runs|].
    transitivity acknowledged_sys; [apply acked_runs; split; first [done|vm_compute; reflexivity|by vm_compute]|].
    transitivity (powerless [x01] acknowledged_sys); [apply powerless_runs; [vm_compute; reflexivity|by vm_compute]|].
    transitivity lost_sys; [apply powerless_runs; [vm_compute; reflexivity|by vm_compute]|].
    transitivity (indexed_sys lost_sys); [apply indexed_runs; vm_compute; reflexivity|].
    apply serve_runs with 0; [done|by vm_compute|by vm_compute].
  - exists (default (new_read newSystem) (head (reads missed_sys))). split; [by left|]. split; [by left|]. vm_compute. reflexivity.
Qed.
