(* ===== verification/LiveValues.v ===== *)
(** * Compaction of a replica and the values it keeps (pkg/quepaxa/compaction.go)

    [CompactThrough] rewrites the WAL of a running replica up to a sealed
    slot.  The rewrite drops the proposal values logged so far and keeps those
    the tables still need; a value staged while it runs is logged behind the
    fence.  The handlers of the file Node run between its two halves, and
    [record] stages its value before it takes the slot's lock.

    A fixed configuration, as in the file Node.  Whether the root is sealed and
    prepared, the leader orders are known and the retained decisions validate on
    the new base are outcomes given as arguments.  An append that fails stores
    nothing here.  Replay has the effects of
    recovery: its checks were passed when the entries were logged.  The log is
    the base and the entries behind it (file Compaction). *)

From stdpp Require Import gmap list sorting.
From S2P Require Import Prelude Bytes Protocol Cluster Proposer Schedule Compaction Node.

(** A rewrite that runs: its slot, the prefix hash there, the values it keeps
    and the length of the log at the fence. *)
Record rewriting := mkRewriting {
  rwThrough : Slot;
  rwPrefix : bytes;
  rwRetained : gmap ValueHash bytes;
  rwFence : nat;
}.

Record replica := mkReplica {
  core : node;
  compactionValues : option (gset ValueHash);
  running : option rewriting;
  base : option (Slot * bytes);
}.

Definition emptyReplica : replica := mkReplica emptyNode None None None.

Definition with_core (r : replica) (n : node) : replica := mkReplica n (compactionValues r) (running r) (base r).
Definition with_compaction (r : replica) (cv : option (gset ValueHash)) : replica := mkReplica (core r) cv (running r) (base r).

(** [finishCompaction] and [Abort]. *)
Definition finishCompaction (r : replica) : replica := mkReplica (core r) None None (base r).

(** ** Staging *)

Definition stageValueLocked (appendOk : bool) (hash : ValueHash) (value : bytes) (r : replica) : result nodeError unit * replica :=
  let n := core r in
  match values n !! hash with
  | Some existing =>
      if negb (bool_decide (existing = value)) then (Err ErrCollision, r)
      else
        match compactionValues r with
        | None => (Ok tt, r)
        | Some cv =>
            if bool_decide (hash ∈ cv) then (Ok tt, r)
            else if negb appendOk then (Err ErrAppend, r)
            else (Ok tt, with_compaction (with_core r (append n (WProposal hash value))) (Some ({[hash]} ∪ cv)))
        end
  | None =>
      if negb appendOk then (Err ErrAppend, r)
      else (Ok tt, with_compaction (with_core r (set_values (append n (WProposal hash value)) (<[hash := value]> (values n))))
                     ((λ cv, {[hash]} ∪ cv) <$> compactionValues r))
  end.

(** ** The values a rewrite keeps *)

Definition proposals_of (st : ISR) : list Proposal := omap id [FirstCurrent st; AggregateCurrent st; AggregatePrior st].

(** Decisions above the slot, split by whether the log has them. *)
Definition decided_above (through : Slot) (n : node) (is_logged : bool) : list DecidedValue :=
  snd <$> filter (λ kv, through < kv.1 ∧ bool_decide (kv.1 ∈ logged n) = is_logged) (map_to_list (decided n)).

Definition logged_hashes (through : Slot) (n : node) : gset ValueHash := list_to_set (dvHash <$> decided_above through n true).

Definition recorded_above (through : Slot) (n : node) : list Proposal :=
  mjoin ((λ kv, proposals_of kv.2) <$> filter (λ kv, through < kv.1) (map_to_list (recorders n))).

Definition needed_values (through : Slot) (n : node) : list (ValueHash * bytes) :=
  ((λ v, (dvHash v, dvValue v)) <$> decided_above through n false) ++
  ((λ p, (Hash p, default [] (values n !! Hash p))) <$>
     filter (λ p, Hash p ∉ logged_hashes through n) (recorded_above through n)).

(** ** Installing a base *)

Definition used_hashes (decided_ : gmap Slot DecidedValue) (recorders_ : gmap Slot ISR) : gset ValueHash :=
  list_to_set ((λ kv, dvHash kv.2) <$> map_to_list decided_) ∪
  list_to_set (Hash <$> mjoin ((λ kv, proposals_of kv.2) <$> map_to_list recorders_)).

Definition installBaseLocked (through : Slot) (prefix : bytes) (n : node) : node :=
  let dec := filter (λ kv, through < kv.1) (decided n) in
  let rec := filter (λ kv, through < kv.1) (recorders n) in
  let closed := dom (filter (λ kv, kv.1 <= through) (decided n)) in
  let used := used_hashes dec rec in
  mkNode through through (nextSlot n) (vacant n) dec (durable n ∖ closed) (logged n ∖ closed) through
    (map_fold (λ slot v m, updateHashIndex m (dvHash v) slot) ∅ dec)
    (filter (λ kv, kv.1 ∈ used) (values n)) (valueDurable n ∖ (dom (values n) ∖ used)) {[through := prefix]} rec (wal n) (synced n)
    (walDirty n) (found n).

Definition pruneSlotAllocatorLocked (n : node) : node :=
  set_slots n (Z.max (nextSlot n) (Z.max (tip n + 1) (floor n + 1))) (filter (λ s, floor n < s) (vacant n)).

(** ** The log after the switch *)

Definition kept_entry (through : Slot) (e : walEntry) : Prop :=
  match e with
  | WProposal _ _ => False
  | WReceipt slot _ => through < slot
  | WDecide v => through < dvSlot v
  end.
#[global] Instance kept_entry_dec through e : base.Decision (kept_entry through e).
Proof. unfold kept_entry. destruct e; solve_decision. Defined.

Definition rewritten (rw : rewriting) (w : list walEntry) : list walEntry :=
  ((λ h, WProposal h (default [] (rwRetained rw !! h))) <$> sortedHashes (rwRetained rw)) ++
  filter (kept_entry (rwThrough rw)) (take (rwFence rw) w) ++ drop (rwFence rw) w.

(** ** Stopping *)

(** The process stops, or its machine loses power: the entries the files hold
    afterwards, and how many of them are on disk. *)
Inductive stop :=
| ProcessStop
| PowerLoss (keep : nat).

Definition left_by (how : stop) (n : node) : list walEntry * nat :=
  match how with
  | ProcessStop => (wal n, synced n)
  | PowerLoss keep => (power_cut keep n, length (power_cut keep n))
  end.

Section replica.
Context (sha256 : bytes → ValueHash).

Definition liveProposalValuesAboveLocked (through : Slot) (n : node) : result nodeError (gmap ValueHash bytes) :=
  let needed := needed_values through n in
  if forallb (λ x, negb (bool_decide (x.2 = [])) && bool_decide (sha256 x.2 = x.1)) needed
  then Ok (list_to_map needed) else Err ErrUnavailable.

(** The replay of the retained decisions on the base; [valid] is whether each
    of them validates there. *)
Definition verifyBaseSuffixLocked (valid : bool) (through : Slot) (prefix : bytes) (n : node) : result nodeError node :=
  let v := advanceTipLocked sha256 (installBaseLocked through prefix n) in
  if negb valid then Err ErrSchedule
  else if negb (tip v =? tip n) || negb (bool_decide (prefixes v !! tip v = prefixes n !! tip n)) then Err ErrConflict
  else Ok v.

Definition beginCompactionLocked (through : Slot) (prefix : bytes) (retained : gmap ValueHash bytes) (r : replica) : replica :=
  mkReplica (core r) (Some (dom retained ∪ logged_hashes through (core r)))
    (Some (mkRewriting through prefix retained (length (wal (core r))))) (base r).

Record compactIO := mkCompactIO { ioSealed : bool; ioOrders : bool; ioValid : bool; ioFence : bool; ioValidAgain : bool; ioCommitted : bool }.

(** [compactThroughOwned] until the fence. *)
Definition compactThroughBegin (io : compactIO) (through : Slot) (r : replica) : result nodeError unit * replica :=
  let n := core r in
  if through =? 0 then (Err ErrInvalidSlot, r)
  else if (through <=? floor n) || (tip n <? through) then (Err ErrCompacted, r)
  else if negb (ioSealed io) then (Err ErrCheckpoint, r)
  else
    match prefixes n !! through with
    | None => (Err ErrGap, r)
    | Some prefix =>
        if negb (ioOrders io) then (Err ErrSchedule, r)
        else
          match liveProposalValuesAboveLocked through n with
          | Err e => (Err e, r)
          | Ok retained =>
              match verifyBaseSuffixLocked (ioValid io) through prefix n with
              | Err e => (Err e, r)
              | Ok _ => if ioFence io then (Ok tt, beginCompactionLocked through prefix retained r) else (Err ErrAppend, r)
              end
          end
    end.

(** The rest, once the rewrite is built.  A switch that fails leaves the log. *)
Definition compactThroughCommit (io : compactIO) (rw : rewriting) (r : replica) : result nodeError unit * replica :=
  let n := core r in
  if rwThrough rw <=? floor n then (Err ErrCompacted, finishCompaction r)
  else
    match verifyBaseSuffixLocked (ioValidAgain io) (rwThrough rw) (rwPrefix rw) n with
    | Err e => (Err e, finishCompaction r)
    | Ok v =>
        if negb (ioCommitted io) then (Err ErrAppend, finishCompaction r)
        else
          let log := rewritten rw (wal n) in
          (Ok tt, mkReplica (pruneSlotAllocatorLocked (set_wal v log (length log) false 0)) None None (Some (rwThrough rw, rwPrefix rw)))
    end.

(** ** Restart *)

(** Of the entries [es] the first [k] are on disk. *)
Definition replay (b : option (Slot * bytes)) (es : list walEntry) (k : nat) : node :=
  let start := match b with Some (through, prefix) => installBaseLocked through prefix emptyNode | None => emptyNode end in
  advanceTipLocked sha256 (foldl (λ n e, replay_entry e n) (set_wal start es k false (length es)) es).

Definition restart_replica (how : stop) (r : replica) : replica :=
  mkReplica (replay (base r) (left_by how (core r)).1 (left_by how (core r)).2) None None (base r).
End replica.
