(* ===== verification/LiveValuesProofs.v ===== *)
(** * What a compaction keeps

    The log and the tables of a replica agree above its floor through every
    interleaving of its handlers with compactions and restarts.  A rewrite
    keeps every value a recorder refers to when values are staged behind the
    fence before they are recorded; [record] does not ensure that. *)

From stdpp Require Import gmap list sorting relations.
From S2P Require Import Prelude Bytes Protocol Cluster Proposer Schedule ScheduleProofs Compaction Node NodeSafety NodeProofs NodeExamples LiveValues.

(** ** Entries that carry a value *)

Definition carries (h : ValueHash) (e : walEntry) : Prop :=
  match e with WProposal h' _ => h' = h | WReceipt _ _ => False | WDecide v => dvHash v = h end.

Lemma rewritten_snoc rw w l : (rwFence rw <= length w)%nat → rewritten rw (w ++ l) = rewritten rw w ++ l.
Proof. intros H. unfold rewritten. rewrite take_app_le, drop_app_le by done. by rewrite !app_assoc. Qed.

Lemma rewritten_sub rw w e : e ∈ rewritten rw w → (∃ h v, rwRetained rw !! h = Some v ∧ e = WProposal h v) ∨ e ∈ w.
Proof.
  intros [(h & -> & Hh)%list_elem_of_fmap|[[_ H]%list_elem_of_filter|H]%elem_of_app]%elem_of_app.
  - left. unfold sortedHashes in Hh. rewrite merge_sort_Permutation in Hh. apply elem_of_elements, elem_of_dom in Hh as [v Hv].
    exists h, v. by rewrite Hv.
  - right. by eapply subseteq_take.
  - right. by eapply subseteq_drop.
Qed.

Lemma rewritten_keeps rw w e : e ∈ w → kept_entry (rwThrough rw) e → e ∈ rewritten rw w.
Proof.
  intros H Hk. unfold rewritten. rewrite <-(take_drop (rwFence rw) w), elem_of_app in H. rewrite !elem_of_app. right.
  destruct H as [H|H]; [left|by right]. by apply list_elem_of_filter.
Qed.

Lemma rewritten_retained rw w h v : rwRetained rw !! h = Some v → WProposal h v ∈ rewritten rw w.
Proof.
  intros Hv. unfold rewritten. apply elem_of_app. left. apply list_elem_of_fmap. exists h. rewrite Hv. split; [done|].
  unfold sortedHashes. rewrite merge_sort_Permutation. by apply elem_of_elements, elem_of_dom.
Qed.

(** ** Receipts through a rewrite *)

Definition receipt_fold (s : Slot) (acc : option ISR) (w : list walEntry) : option ISR :=
  foldl (λ acc e, match e with WReceipt s' st => if s' =? s then Some st else acc | _ => acc end) acc w.

Lemma receipt_fold_filter through s acc w : through < s → receipt_fold s acc (filter (kept_entry through) w) = receipt_fold s acc w.
Proof.
  intros Hs. revert acc. induction w as [|e w IH]; intros acc; [done|]. rewrite filter_cons. case_decide as Hk; cbn; [apply IH|].
  rewrite IH. destruct e as [h v|s' st|v]; try done. cbn in Hk. destruct (Z.eqb_spec s' s); [lia|done].
Qed.

Lemma receipt_fold_app s acc w l : receipt_fold s acc (w ++ l) = receipt_fold s (receipt_fold s acc w) l.
Proof. apply foldl_app. Qed.

Lemma receipt_fold_proposals s acc (f : ValueHash → bytes) (l : list ValueHash) :
  receipt_fold s acc ((λ h, WProposal h (f h)) <$> l) = acc.
Proof. by induction l. Qed.

Lemma last_receipt_rewritten rw w s : rwThrough rw < s → last_receipt (rewritten rw w) s = last_receipt w s.
Proof.
  intros Hs. change (receipt_fold s None (rewritten rw w) = receipt_fold s None w). unfold rewritten.
  rewrite !receipt_fold_app, receipt_fold_proposals, receipt_fold_filter by done.
  by rewrite <-receipt_fold_app, take_drop.
Qed.

Lemma advance_tables sha256 n : ∃ t p, advanceTipLocked sha256 n = set_tip n t p.
Proof.
  unfold advanceTipLocked. generalize (size (decided n)). intros fuel. revert n.
  induction fuel as [|fuel IH]; intros n; cbn; [exists (tip n), (prefixes n); by destruct n|].
  destruct (decided n !! (tip n + 1)); [|exists (tip n), (prefixes n); by destruct n].
  match goal with |- context [advance_loop sha256 fuel ?x] => destruct (IH x) as (t & p & ->) end. by exists t, p.
Qed.

(** ** The log and the tables *)

Section proofs.
Context (nodeID : NodeID) (config_ : Cluster) (sha256 : bytes → ValueHash) (sealEligible : bytes → bool).

Record dv_ok (v : DecidedValue) : Prop := {
  dv_hash : sha256 (dvValue v) = dvHash v;
  dv_slot : DSlot (dvCertificate v) = dvSlot v;
  dv_proposal : Hash (DProposal (dvCertificate v)) = dvHash v;
}.

Definition same_value (v v' : DecidedValue) : Prop := dvHash v' = dvHash v ∧ dvValue v' = dvValue v.

Record log_ok (n : node) : Prop := {
  lo_floor : 0 <= floor n;
  lo_decided s v : decided n !! s = Some v → dvSlot v = s ∧ dv_ok v;
  lo_entry v : WDecide v ∈ wal n → dv_ok v;
  lo_proposal h v : WProposal h v ∈ wal n → sha256 v = h;
  lo_logged s : s ∈ logged n → floor n < s → ∃ v, WDecide v ∈ wal n ∧ dvSlot v = s;
  lo_known v : WDecide v ∈ wal n → floor n < dvSlot v → ∃ v0, decided n !! dvSlot v = Some v0 ∧ same_value v v0;
  lo_receipts s : floor n < s → decided n !! s = None → recorders n !! s = last_receipt (wal n) s;
  lo_recorders s : is_Some (decided n !! s) → recorders n !! s = None;
}.

(** Fields the invariant does not read. *)
Lemma log_ok_same n n' :
  floor n' = floor n → decided n' = decided n → logged n' = logged n → recorders n' = recorders n → wal n' = wal n →
  log_ok n → log_ok n'.
Proof. intros E1 E2 E3 E4 E5 [H1 H2 H3 H4 H5 H6 H7 H8]. split; rewrite ?E1, ?E2, ?E3, ?E4, ?E5; done. Qed.

Lemma log_ok_tip n t p : log_ok n → log_ok (set_tip n t p).
Proof. by apply log_ok_same. Qed.

(** Appending a proposal, a receipt, a decision. *)
Lemma log_ok_proposal n h v : log_ok n → sha256 v = h → log_ok (append n (WProposal h v)).
Proof.
  intros [H1 H2 H3 H4 H5 H6 H7 H8] Hv. split; simpl; try done.
  - intros x [Hx|Hx%list_elem_of_singleton]%elem_of_app; [by apply H3|done].
  - intros h' x [Hx|[= -> ->]%list_elem_of_singleton]%elem_of_app; [by apply H4|done].
  - intros s Hs Hf. destruct (H5 s Hs Hf) as (x & Hx & ?). exists x. split; [|done]. by apply elem_of_app; left.
  - intros x [Hx|Hx%list_elem_of_singleton]%elem_of_app; [by apply H6|done].
  - intros s Hs Hd. rewrite last_receipt_snoc. by apply H7.
Qed.

Lemma log_ok_receipt n s st :
  log_ok n → decided n !! s = None → log_ok (set_recorders (append n (WReceipt s st)) (<[s := st]> (recorders n))).
Proof.
  intros [H1 H2 H3 H4 H5 H6 H7 H8] Hd. split; simpl; try done.
  - intros x [Hx|Hx%list_elem_of_singleton]%elem_of_app; [by apply H3|done].
  - intros h' x [Hx|Hx%list_elem_of_singleton]%elem_of_app; [by apply H4|done].
  - intros s' Hs Hf. destruct (H5 s' Hs Hf) as (x & Hx & ?). exists x. split; [|done]. by apply elem_of_app; left.
  - intros x [Hx|Hx%list_elem_of_singleton]%elem_of_app; [by apply H6|done].
  - intros s' Hs Hd'. rewrite last_receipt_snoc. destruct (Z.eqb_spec s s') as [->|]; [apply lookup_insert_eq|].
    rewrite lookup_insert_ne by done. by apply H7.
  - intros s' Hs. rewrite lookup_insert_ne; [by apply H8|]. intros ->. rewrite Hd in Hs. by destruct Hs.
Qed.

Lemma log_ok_decide n s v dur through :
  log_ok n → decided n !! s = Some v → log_ok (set_marks (append n (WDecide v)) dur ({[s]} ∪ logged n) through).
Proof.
  intros [H1 H2 H3 H4 H5 H6 H7 H8] Hd. destruct (H2 _ _ Hd) as [Es Hv]. split; simpl; try done.
  - intros x [Hx|[= ->]%list_elem_of_singleton]%elem_of_app; [by apply H3|done].
  - intros h' x [Hx|Hx%list_elem_of_singleton]%elem_of_app; [by apply H4|done].
  - intros s' [ ->%elem_of_singleton|Hs]%elem_of_union Hf; [exists v; split; [apply elem_of_app; right; by left|done]|].
    destruct (H5 s' Hs Hf) as (x & Hx & ?). exists x. split; [|done]. by apply elem_of_app; left.
  - intros x [Hx|[= ->]%list_elem_of_singleton]%elem_of_app; [by apply H6|]. intros _. rewrite Es. by exists v.
  - intros s' Hs Hd'. rewrite last_receipt_snoc. by apply H7.
Qed.

(** ** Replay *)

Record replayed (es : list walEntry) (n : node) : Prop := {
  rp_decided s v : decided n !! s = Some v → dvSlot v = s ∧ dv_ok v ∧ ∃ v', WDecide v' ∈ es ∧ dvSlot v' = s ∧ same_value v' v;
  rp_all v : WDecide v ∈ es → is_Some (decided n !! dvSlot v) ∧ dvSlot v ∈ logged n;
  rp_logged s : s ∈ logged n → ∃ v, WDecide v ∈ es ∧ dvSlot v = s;
  rp_receipts s : 0 < s → decided n !! s = None → recorders n !! s = last_receipt es s;
  rp_recorders s : is_Some (decided n !! s) → recorders n !! s = None;
  rp_values h v : values n !! h = Some v → sha256 v = h;
  rp_carried h e : e ∈ es → carries h e → is_Some (values n !! h) ∧ h ∈ valueDurable n;
}.

Definition entries_fine (es : list walEntry) : Prop :=
  (∀ v, WDecide v ∈ es → dv_ok v) ∧ (∀ h v, WProposal h v ∈ es → sha256 v = h).

Lemma entries_fine_snoc es e : entries_fine (es ++ [e]) → entries_fine es.
Proof. intros [H1 H2]. split; intros; [apply H1|apply H2]; apply elem_of_app; by left. Qed.

Lemma replay_decide es v n : entries_fine (es ++ [WDecide v]) → replayed es n → replayed (es ++ [WDecide v]) (replay_entry (WDecide v) n).
Proof.
  intros [Hf _] [H1 H2 H3 H4 H5 H6 H7]. assert (WDecide v ∈ es ++ [WDecide v]) as Hin by (apply elem_of_app; right; by left).
  pose proof (Hf _ Hin) as [E1 E2 E3]. unfold replay_entry, certificate_decision.
  cbn [DSlot DProposal DConfigID with_value Hash]. rewrite E2, E3. split; simpl.
  - intros s x [[<- <-]|[Hne Hx]]%lookup_insert_Some; [split_and!; [done|by split|by exists v]|].
    destruct (H1 _ _ Hx) as (? & ? & v' & ? & ?). split_and!; [done..|]. exists v'. split; [by apply elem_of_app; left|done].
  - intros x Hx. rewrite lookup_insert_is_Some'. apply elem_of_app in Hx as [Hx|[= ->]%list_elem_of_singleton]; [destruct (H2 _ Hx)|]; set_solver.
  - intros s [ ->%elem_of_singleton|(x & Hx & ?)%H3]%elem_of_union; [by exists v|]. exists x. split; [by apply elem_of_app; left|done].
  - intros s Hs [Hd Hne]%lookup_insert_None. rewrite lookup_delete_ne, last_receipt_snoc by done. by apply H4.
  - intros s Hs. destruct (decide (dvSlot v = s)) as [->|Hne]; [apply lookup_delete_eq|].
    rewrite lookup_insert_ne in Hs by done. rewrite lookup_delete_ne by done. by apply H5.
  - intros h x [[<- <-]|[_ Hx]]%lookup_insert_Some; [done|by apply H6].
  - intros h e [He| ->%list_elem_of_singleton]%elem_of_app Hc; rewrite lookup_insert_is_Some'; [destruct (H7 _ _ He Hc)|simpl in Hc]; set_solver.
Qed.

Lemma replay_step es e n : entries_fine (es ++ [e]) → replayed es n → replayed (es ++ [e]) (replay_entry e n).
Proof.
  intros Hf Hr. destruct e as [h v|s st|v]; [| |by apply replay_decide].
  - destruct Hf as [_ Hf]. pose proof (Hf h v ltac:(apply elem_of_app; right; by left)) as Hv. destruct Hr as [H1 H2 H3 H4 H5 H6 H7].
    split; simpl.
    + intros s x Hx. destruct (H1 _ _ Hx) as (? & ? & v' & ? & ?). split_and!; [done..|]. exists v'. split; [by apply elem_of_app; left|done].
    + intros x [Hx|Hx%list_elem_of_singleton]%elem_of_app; [by apply H2|done].
    + intros s (x & Hx & ?)%H3. exists x. split; [by apply elem_of_app; left|done].
    + intros s Hs Hd. rewrite last_receipt_snoc. by apply H4.
    + done.
    + intros h' x [[<- <-]|[_ Hx]]%lookup_insert_Some; [done|by apply H6].
    + intros h' e [He| ->%list_elem_of_singleton]%elem_of_app Hc; rewrite lookup_insert_is_Some'; [destruct (H7 _ _ He Hc)|simpl in Hc]; set_solver.
  - assert (∀ r, (∀ s', 0 < s' → decided n !! s' = None → r !! s' = last_receipt (es ++ [WReceipt s st]) s') →
      (∀ s', is_Some (decided n !! s') → r !! s' = None) → replayed (es ++ [WReceipt s st]) (set_recorders n r)) as Hset.
    { destruct Hr as [H1 H2 H3 H4 H5 H6 H7]. intros r Hr1 Hr2. split; simpl; try done.
      - intros s' x Hx. destruct (H1 _ _ Hx) as (? & ? & v' & ? & ?). split_and!; [done..|]. exists v'. split; [by apply elem_of_app; left|done].
      - intros x [Hx|Hx%list_elem_of_singleton]%elem_of_app; [by apply H2|done].
      - intros s' (x & Hx & ?)%H3. exists x. split; [by apply elem_of_app; left|done].
      - intros h e [He| ->%list_elem_of_singleton]%elem_of_app Hc; [by apply (H7 h e)|done]. }
    destruct Hr as [H1 H2 H3 H4 H5 H6 H7]. cbn [replay_entry]. destruct (Z.eqb_spec s 0) as [->|Hs0].
    + replace n with (set_recorders n (recorders n)) by (by destruct n). apply Hset; [|done]. intros s' Hs' Hd.
      rewrite last_receipt_snoc. destruct (Z.eqb_spec 0 s'); [lia|by apply H4].
    + case_bool_decide as Hd.
      * apply Hset; intros s' Hs'.
        -- intros Hd'. rewrite last_receipt_snoc. destruct (Z.eqb_spec s s') as [->|]; [apply lookup_insert_eq|]. rewrite lookup_insert_ne by done. by apply H4.
        -- rewrite lookup_insert_ne; [by apply H5|]. intros ->. rewrite Hd in Hs'. by destruct Hs'.
      * replace n with (set_recorders n (recorders n)) by (by destruct n). apply Hset; [|done]. intros s' Hs' Hd'.
        rewrite last_receipt_snoc. destruct (Z.eqb_spec s s') as [->|]; [done|by apply H4].
Qed.

Lemma replay_entry_frame e n : floor (replay_entry e n) = floor n ∧ wal (replay_entry e n) = wal n.
Proof. destruct e; simpl; repeat case_match; done. Qed.

Lemma replay_fold es n : entries_fine es → replayed [] n →
  let n' := foldl (λ n e, replay_entry e n) n es in replayed es n' ∧ floor n' = floor n ∧ wal n' = wal n.
Proof.
  intros Hf Hn. induction es as [|e es IH] using rev_ind; [done|]. rewrite foldl_app. cbn [foldl].
  destruct (IH (entries_fine_snoc _ _ Hf)) as (IH1 & IH2 & IH3). set (m := foldl _ n es) in *.
  destruct (replay_entry_frame e m) as [-> ->]. split_and!; [by apply replay_step|done|done].
Qed.

Definition base_floor (b : option (Slot * bytes)) : Slot := match b with Some (through, _) => through | None => 0 end.

Lemma replay_spec b es k : entries_fine es →
  replayed es (replay sha256 b es k) ∧ floor (replay sha256 b es k) = base_floor b ∧ wal (replay sha256 b es k) = es.
Proof.
  intros Hf. unfold replay. set (start := match b with Some _ => _ | None => _ end).
  assert (decided start = ∅ ∧ logged start = ∅ ∧ recorders start = ∅ ∧ values start = ∅ ∧ floor start = base_floor b) as (E1 & E2 & E3 & E4 & E5).
  { unfold start. destruct b as [[t p]|]; [|done]. unfold installBaseLocked. simpl.
    by rewrite !map_filter_empty. }
  destruct (replay_fold es (set_wal start es k false (length es)) Hf) as (Hr & Hfl & Hw).
  { split; simpl; rewrite ?E1, ?E2, ?E3, ?E4; intros *; rewrite ?lookup_empty; try set_solver; done. }
  destruct (advance_tables sha256 (foldl (λ n e, replay_entry e n) (set_wal start es k false (length es)) es)) as (t & p & ->).
  split_and!; [|by simpl; rewrite Hfl|by simpl; rewrite Hw]. destruct Hr as [H1 H2 H3 H4 H5 H6 H7]. by split.
Qed.

Lemma log_ok_entries n es : log_ok n → (∀ e, e ∈ es → e ∈ wal n) → entries_fine es.
Proof. intros Hn Hs. split; intros; [by eapply lo_entry, Hs|by eapply lo_proposal, Hs]. Qed.

Lemma replay_ok n b es k : log_ok n → floor n = base_floor b → (∀ e, e ∈ es → e ∈ wal n) → log_ok (replay sha256 b es k).
Proof.
  intros Hn Hb Hs. destruct (replay_spec b es k (log_ok_entries _ _ Hn Hs)) as ([H1 H2 H3 H4 H5 H6 H7] & Ef & Ew).
  split; rewrite ?Ew, ?Ef, <-?Hb.
  - apply (lo_floor _ Hn).
  - intros s v Hv. by destruct (H1 _ _ Hv) as (? & ? & _).
  - intros v Hv. by apply (lo_entry _ Hn), Hs.
  - intros h v Hv. by apply (lo_proposal _ Hn), Hs.
  - intros s Hl _. by apply H3.
  - intros v Hv Hfl. destruct (H2 _ Hv) as [[v0 Hv0] _]. exists v0. split; [done|].
    destruct (H1 _ _ Hv0) as (_ & _ & v' & Hv' & Es & [E1 E2]).
    destruct (lo_known _ Hn v (Hs _ Hv) Hfl) as (x & Hx & [X1 X2]), (lo_known _ Hn v' (Hs _ Hv')) as (x' & Hx' & [X3 X4]); [by rewrite Es|].
    rewrite Es, Hx in Hx'. simplify_eq. split; congruence.
  - intros s Hfl Hd. apply H4; [|done]. pose proof (lo_floor _ Hn). lia.
  - done.
Qed.

(** ** Values that survive a running rewrite *)

Record covered (rw : rewriting) (cv : gset ValueHash) (n : node) : Prop := {
  cr_fence : (rwFence rw <= length (wal n))%nat;
  cr_values h : h ∈ cv → ∃ e, e ∈ rewritten rw (wal n) ∧ carries h e;
  cr_recorders s st p : rwThrough rw < s → recorders n !! s = Some st → p ∈ proposals_of st → Hash p ∈ cv;
  cr_retained h v : rwRetained rw !! h = Some v → sha256 v = h;
}.

(** Appending to the log, staging more, recording covered values. *)
Lemma covered_step rw cv cv' n n' l :
  covered rw cv n → wal n' = wal n ++ l → cv ⊆ cv' → (∀ h, h ∈ cv' → h ∈ cv ∨ ∃ e, e ∈ l ∧ carries h e) →
  (∀ s st p, recorders n' !! s = Some st → p ∈ proposals_of st →
     Hash p ∈ cv' ∨ ∃ st0 p0, recorders n !! s = Some st0 ∧ p0 ∈ proposals_of st0 ∧ Hash p0 = Hash p) →
  covered rw cv' n'.
Proof.
  intros [H1 H2 H3 H4] Hw Hsub Hcv Hrec. split; rewrite ?Hw.
  - rewrite length_app. lia.
  - rewrite rewritten_snoc by done. intros h [(e & He & Hc)%H2|(e & He & Hc)]%Hcv; exists e; rewrite elem_of_app; auto.
  - intros s st p Hs Hst Hp. destruct (Hrec s st p Hst Hp) as [?|(st0 & p0 & Hst0 & Hp0 & <-)]; [done|]. by eapply Hsub, H3.
  - done.
Qed.

Lemma covered_frame rw cv n n' l : covered rw cv n → wal n' = wal n ++ l → recorders n' ⊆ recorders n → covered rw cv n'.
Proof.
  intros H Hw Hr. eapply covered_step; [done|done|done|by left|]. intros s st p Hst Hp. right. exists st, p. split_and!; [|done|done].
  by eapply lookup_weaken.
Qed.

Lemma Record_proposals st t p q : q ∈ proposals_of (Record_ st t p).1 → q = p ∨ q ∈ proposals_of st.
Proof.
  unfold Record_, proposals_of. cbn [fst]. rewrite !list_elem_of_omap. intros (o & Ho & Hq). cbn in Hq. subst o.
  assert (∀ a, maxProposal [a; Some p] = a ∨ maxProposal [a; Some p] = Some p) as Hmax.
  { intros a. unfold maxProposal. cbn. destruct a as [a|]; cbn; repeat case_match; auto. }
  destruct (_ =? _); [|destruct (_ >? _)].
  - simpl in Ho. rewrite !elem_of_cons, elem_of_nil in Ho. destruct (Hmax (AggregateCurrent st)) as [E|E]; rewrite E in Ho.
    + right. exists (Some q). split; [|done]. set_solver.
    + destruct Ho as [Ho|[Ho|[Ho|[]]]]; [right|left; congruence|right]; exists (Some q); (split; [|done]); set_solver.
  - simpl in Ho. rewrite !elem_of_cons, elem_of_nil in Ho. destruct Ho as [Ho|[Ho|[Ho|[]]]]; [left; congruence..|].
    destruct (_ =? _); [|done]. right. exists (Some q). split; [|done]. set_solver.
  - right. by exists (Some q).
Qed.

(** ** The handlers *)

(** The log grows and recorders refer to nothing new but values in [new]. *)
Record grows (new : ValueHash → Prop) (n n' : node) : Prop := {
  gr_ok : log_ok n';
  gr_floor : floor n' = floor n;
  gr_wal : ∃ l, wal n' = wal n ++ l;
  gr_recorders s st p : recorders n' !! s = Some st → p ∈ proposals_of st →
    new (Hash p) ∨ ∃ st0 p0, recorders n !! s = Some st0 ∧ p0 ∈ proposals_of st0 ∧ Hash p0 = Hash p;
}.

Lemma grows_same new n n' : log_ok n' → floor n' = floor n → (∃ l, wal n' = wal n ++ l) → recorders n' ⊆ recorders n → grows new n n'.
Proof.
  intros H1 H2 H3 H4. split; [done..|]. intros s st p Hst Hp. right. exists st, p. split_and!; [|done|done]. by eapply lookup_weaken.
Qed.

Lemma grows_refl new n : log_ok n → grows new n n.
Proof. intros H. apply grows_same; [done|done| |done]. exists []. by rewrite app_nil_r. Qed.

Lemma log_decision_grows new ok s v n r n' :
  log_ok n → decided n !! s = Some v → log_decision ok s v n = (r, n') → grows new n n' ∧ decided n' = decided n.
Proof.
  intros Hn Hd. unfold log_decision. case_bool_decide; [intros [= <- <-]; split; [by apply grows_refl|done]|].
  destruct ok; intros [= <- <-]; (split; [|done]); [|by apply grows_refl].
  apply grows_same; [by apply log_ok_decide|done|by eexists|done].
Qed.

(** Syncing and marking changes none of this. *)
Lemma grows_marks new n n1 n2 :
  grows new n n1 → floor n2 = floor n1 → decided n2 = decided n1 → logged n2 = logged n1 → recorders n2 = recorders n1 →
  wal n2 = wal n1 → grows new n n2.
Proof.
  intros [H1 H2 H3 H4] E1 E2 E3 E4 E5. split; rewrite ?E1, ?E4, ?E5; try done. by apply (log_ok_same n1).
Qed.

Lemma record_decided_grows new io req v n r n' :
  log_ok n → decided n !! RSlot req = Some v → record_decided nodeID io req v n = (r, n') → grows new n n'.
Proof.
  intros Hn Hd. unfold record_decided. destruct (negb _).
  - destruct (log_decision _ _ _ _) as [[u|e] n1] eqn:El; destruct (log_decision_grows new _ _ _ _ _ _ Hn Hd El) as [Hg _].
    + destruct (ioSync io); intros [= <- <-]; [by apply (grows_marks _ n n1)|done].
    + by intros [= <- <-].
  - intros [= <- <-]. by apply grows_refl.
Qed.

Lemma record_undecided_grows io req n r n' :
  log_ok n → decided n !! RSlot req = None → record_undecided nodeID io req n = (r, n') → grows (eq (Hash (RProposal req))) n n'.
Proof.
  intros Hn Hd. unfold record_undecided. set (st := default emptyISR (recorders n !! RSlot req)).
  destruct (Record_ st (RStep req) (strip_proposal (RProposal req))) as [next sm] eqn:Er.
  destruct (negb (ioAppend io)); [intros [= <- <-]; by apply grows_refl|].
  set (n1 := set_recorders _ _). assert (grows (eq (Hash (RProposal req))) n n1) as Hg.
  { split; [by apply log_ok_receipt|done|by eexists|]. unfold n1. simpl. intros s st' p [[<- <-]|[Hne Hs]]%lookup_insert_Some Hp.
    - assert (next = (Record_ st (RStep req) (strip_proposal (RProposal req))).1) as E by (by rewrite Er). rewrite E in Hp.
      apply Record_proposals in Hp as [->|Hp]; [by left|]. right. unfold st in Hp.
      destruct (recorders n !! RSlot req) as [st0|] eqn:E0; [by exists st0, p|]. simpl in Hp. by apply elem_of_nil in Hp.
    - right. by exists st', p. }
  destruct (negb (ioSync io)); intros [= <- <-]; [done|by apply (grows_marks _ n n1)].
Qed.

Lemma record_locked_grows io req n r n' :
  log_ok n → record_locked nodeID sealEligible io req n = (r, n') → grows (eq (Hash (RProposal req))) n n'.
Proof.
  intros Hn. unfold record_locked. destruct (RSlot req <=? floor n); [intros [= <- <-]; by apply grows_refl|].
  match goal with |- match ?gate with _ => _ end = _ → _ => destruct gate; [intros [= <- <-]; by apply grows_refl|] end.
  destruct (decided n !! RSlot req) as [v|] eqn:Hd; [by apply record_decided_grows|].
  repeat case_match; try (intros [= <- <-]; by apply grows_refl); by apply record_undecided_grows.
Qed.

Lemma ensureDurable_grows new ok syncOk slot n r n' : log_ok n → ensureDurableLocked ok syncOk slot n = (r, n') → grows new n n'.
Proof.
  intros Hn. unfold ensureDurableLocked. destruct (_ =? _); [intros [= <- <-]; by apply grows_refl|].
  destruct (_ <=? _); [intros [= <- <-]; by apply grows_refl|]. destruct (decided n !! slot) as [v|] eqn:Hd; [|intros [= <- <-]; by apply grows_refl].
  case_bool_decide; [intros [= <- <-]; by apply grows_refl|]. destruct (HasPrefix _ _); [intros [= <- <-]; by apply grows_refl|].
  destruct (log_decision _ _ _ _) as [[u|e] n1] eqn:El; destruct (log_decision_grows new _ _ _ _ _ _ Hn Hd El) as [Hg _].
  - destruct syncOk; intros [= <- <-]; [by apply (grows_marks _ n n1)|done].
  - by intros [= <- <-].
Qed.

(** A certified decision of an open slot becomes known. *)
Lemma install_grows new d n :
  log_ok n → sha256 (Value (DProposal d)) = Hash (DProposal d) → floor n < DSlot d → decided n !! DSlot d = None →
  grows new n (advanceTipLocked sha256 (install config_ d n)).
Proof.
  intros Hn Hs Hf Hd. destruct (advance_tables sha256 (install config_ d n)) as (t & p & ->).
  apply grows_same; [|done|exists []; by rewrite app_nil_r|apply delete_subseteq].
  apply log_ok_tip. destruct Hn as [H1 H2 H3 H4 H5 H6 H7 H8]. split; simpl; try done.
  - intros s v [[<- <-]|[_ Hv]]%lookup_insert_Some; [|by apply H2]. split; [done|by split].
  - intros s Hl Hf'. apply H5; [set_solver|done].
  - intros v Hv Hf'. destruct (H6 v Hv Hf') as (v0 & Hv0 & Hsame). exists v0. split; [|done]. rewrite lookup_insert_ne; [done|]. congruence.
  - intros s Hf' [Hd' Hne]%lookup_insert_None. rewrite lookup_delete_ne by done. by apply H7.
  - intros s Hs'. destruct (decide (DSlot d = s)) as [->|Hne]; [apply lookup_delete_eq|]. rewrite lookup_insert_ne in Hs' by done.
    rewrite lookup_delete_ne by done. by apply H8.
Qed.

(** ** Runs *)

(** A value recorded while a rewrite runs was staged or kept by it. *)
Definition protected (r : replica) (h : ValueHash) : Prop := ∀ cv, compactionValues r = Some cv → h ∈ cv.

Inductive replica_step : replica → replica → Prop :=
| rs_stage appendOk h v res r r' : sha256 v = h → stageValueLocked appendOk h v r = (res, r') → replica_step r r'
| rs_record io req res n' r :
    protected r (Hash (RProposal req)) → record_locked nodeID sealEligible io req (core r) = (res, n') → replica_step r (with_core r n')
| rs_accept d r :
    sha256 (Value (DProposal d)) = Hash (DProposal d) → floor (core r) < DSlot d → decided (core r) !! DSlot d = None →
    replica_step r (with_core r (advanceTipLocked sha256 (install config_ d (core r))))
| rs_durable appendOk syncOk slot res n' r :
    ensureDurableLocked appendOk syncOk slot (core r) = (res, n') → replica_step r (with_core r n')
| rs_begin io through res r r' : running r = None → compactThroughBegin sha256 io through r = (res, r') → replica_step r r'
| rs_commit io rw res r r' : running r = Some rw → compactThroughCommit sha256 io rw r = (res, r') → replica_step r r'
| rs_restart how r : replica_step r (restart_replica sha256 how r).

Record rinv (r : replica) : Prop := {
  ri_log : log_ok (core r);
  ri_base : floor (core r) = base_floor (base r);
  ri_running rw : running r = Some rw → ∃ cv, compactionValues r = Some cv ∧ covered rw cv (core r);
  ri_idle : running r = None → compactionValues r = None;
}.

Lemma rinv_grows new r n' :
  rinv r → grows new (core r) n' → (∀ h cv, new h → compactionValues r = Some cv → h ∈ cv) → rinv (with_core r n').
Proof.
  intros [H1 H2 H3 H4] [G1 G2 (l & G3) G4] Hnew. split; simpl; [done|congruence| |done].
  intros rw Hrw. destruct (H3 rw Hrw) as (cv & Hcv & Hcov). exists cv. split; [done|].
  apply (covered_step rw cv cv (core r) n' l Hcov G3); [done|by left|]. intros s st p Hst Hp.
  destruct (G4 s st p Hst Hp) as [Hn|?]; [left; by eapply Hnew|by right].
Qed.

Lemma rinv_finish r : rinv r → rinv (finishCompaction r).
Proof. intros [H1 H2 _ _]. by split. Qed.

Lemma stage_inv appendOk h v res r r' : rinv r → sha256 v = h → stageValueLocked appendOk h v r = (res, r') → rinv r'.
Proof.
  intros Hr Hv. pose proof Hr as [H1 H2 H3 H4]. unfold stageValueLocked.
  assert (∀ n', log_ok n' → floor n' = floor (core r) → wal n' = wal (core r) ++ [WProposal h v] → recorders n' = recorders (core r) →
    rinv (with_compaction (with_core r n') ((λ cv, {[h]} ∪ cv) <$> compactionValues r))) as Hstage.
  { intros n' Hn' Hf Hw Hrec. split; simpl; [done|congruence| |by intros ->%H4].
    intros rw Hrw. destruct (H3 rw Hrw) as (cv & -> & Hcov). exists ({[h]} ∪ cv). split; [done|].
    apply (covered_step rw cv _ (core r) n' [WProposal h v] Hcov Hw); [set_solver| |].
    - intros h' [ ->%elem_of_singleton|?]%elem_of_union; [right|by left]. exists (WProposal h v). split; [by left|done].
    - rewrite Hrec. intros s st p Hst Hp. right. by exists st, p. }
  destruct (values (core r) !! h) as [x|].
  - destruct (negb _); [by intros [= <- <-]|]. destruct (compactionValues r) as [cv|] eqn:Ec; [|by intros [= <- <-]].
    case_bool_decide; [by intros [= <- <-]|]. destruct (negb _); intros [= <- <-]; [done|].
    apply (Hstage (append (core r) (WProposal h v))); try done. by apply log_ok_proposal.
  - destruct (negb _); intros [= <- <-]; [done|]. apply Hstage; try done.
    apply (log_ok_same (append (core r) (WProposal h v))); try done. by apply log_ok_proposal.
Qed.

(** ** Fencing *)

Lemma elem_of_decided_above through n b v :
  v ∈ decided_above through n b → ∃ s, through < s ∧ decided n !! s = Some v ∧ bool_decide (s ∈ logged n) = b.
Proof.
  intros ([s x] & -> & [[Hs Hb] Hx%elem_of_map_to_list]%list_elem_of_filter)%list_elem_of_fmap. by exists s.
Qed.

Lemma decided_above_elem through n b s v :
  through < s → decided n !! s = Some v → bool_decide (s ∈ logged n) = b → v ∈ decided_above through n b.
Proof.
  intros Hs Hd Hb. apply list_elem_of_fmap. exists (s, v). split; [done|]. apply list_elem_of_filter. split; [done|]. by apply elem_of_map_to_list.
Qed.

Lemma elem_of_recorded_above through n s st p :
  through < s → recorders n !! s = Some st → p ∈ proposals_of st → p ∈ recorded_above through n.
Proof.
  intros Hs Hst Hp. apply list_elem_of_join. exists (proposals_of st). split; [done|]. apply list_elem_of_fmap.
  exists (s, st). split; [done|]. apply list_elem_of_filter. split; [done|]. by apply elem_of_map_to_list.
Qed.

Lemma live_values through n retained :
  liveProposalValuesAboveLocked sha256 through n = Ok retained →
  (∀ h v, retained !! h = Some v → sha256 v = h) ∧
  (∀ s st p, through < s → recorders n !! s = Some st → p ∈ proposals_of st → Hash p ∈ dom retained ∪ logged_hashes through n) ∧
  ∀ s v, through < s → decided n !! s = Some v → dvHash v ∈ dom retained ∪ logged_hashes through n.
Proof.
  unfold liveProposalValuesAboveLocked. destruct (forallb _ _) eqn:Ef; [|done]. intros [= <-]. split_and!.
  - intros h v Hv%elem_of_list_to_map_2. rewrite forallb_True, Forall_forall in Ef || rewrite forallb_forall in Ef.
    specialize (Ef (h, v)). rewrite <-list_elem_of_In in Ef. specialize (Ef Hv). simpl in Ef. bool_hyps. done.
  - intros s st p Hs Hst Hp. destruct (decide (Hash p ∈ logged_hashes through n)); [set_solver|]. apply elem_of_union. left.
    rewrite dom_list_to_map_L. apply elem_of_list_to_set. unfold needed_values. rewrite fmap_app. apply elem_of_app. right.
    rewrite <-list_fmap_compose. apply list_elem_of_fmap. exists p. split; [done|]. apply list_elem_of_filter. split; [done|].
    by eapply elem_of_recorded_above.
  - intros s v Hs Hd. apply elem_of_union. destruct (bool_decide (s ∈ logged n)) eqn:El.
    + right. apply elem_of_list_to_set, list_elem_of_fmap. exists v. split; [done|]. by eapply decided_above_elem.
    + left. rewrite dom_list_to_map_L. apply elem_of_list_to_set. unfold needed_values. rewrite fmap_app. apply elem_of_app. left.
      rewrite <-list_fmap_compose. apply list_elem_of_fmap. exists v. split; [done|]. by eapply decided_above_elem.
Qed.

Lemma begin_inv through prefix retained r :
  rinv r → floor (core r) < through → liveProposalValuesAboveLocked sha256 through (core r) = Ok retained →
  rinv (beginCompactionLocked through prefix retained r).
Proof.
  intros [H1 H2 _ _] Hf (Hsha & Hrec & _)%live_values. split; simpl; [done|done| |done]. intros rw [= <-].
  eexists. split; [done|]. split; simpl; [done| |done|done].
  intros h [[v Hv]%elem_of_dom|Hh]%elem_of_union.
  - exists (WProposal h v). split; [by apply rewritten_retained|done].
  - apply elem_of_list_to_set, list_elem_of_fmap in Hh as (v & -> & (s & Hs & Hd & Hl%bool_decide_eq_true)%elem_of_decided_above).
    destruct (lo_logged _ H1 s Hl) as (x & Hx & <-); [lia|]. destruct (lo_known _ H1 x Hx) as (v0 & Hv0 & [E _]); [lia|]. simplify_eq.
    exists (WDecide x). split; [by apply rewritten_keeps|done].
Qed.

(** ** The switch *)

Lemma installBase_ok rw n :
  log_ok n → floor n < rwThrough rw → (∀ h v, rwRetained rw !! h = Some v → sha256 v = h) →
  log_ok (set_wal (installBaseLocked (rwThrough rw) (rwPrefix rw) n) (rewritten rw (wal n)) (length (rewritten rw (wal n))) false 0).
Proof.
  intros [H1 H2 H3 H4 H5 H6 H7 H8] Hf Hsha. split; simpl.
  - lia.
  - intros s v [Hv _]%map_lookup_filter_Some. by apply H2.
  - intros v [(h & x & _ & ?)|Hv]%rewritten_sub; [done|by apply H3].
  - intros h v [(h' & x & Hx & [= -> ->])|Hv]%rewritten_sub; [by apply Hsha|by apply H4].
  - intros s [Hl _]%elem_of_difference Hs. destruct (H5 s Hl) as (v & Hv & <-); [lia|]. exists v. split; [|done]. by apply rewritten_keeps.
  - intros v [(h & x & _ & ?)|Hv]%rewritten_sub Hs; [done|]. destruct (H6 v Hv) as (v0 & Hv0 & Hsame); [lia|]. exists v0. split; [|done].
    by apply map_lookup_filter_Some.
  - intros s Hs Hd. rewrite last_receipt_rewritten by done. rewrite <-H7; [|lia|].
    + destruct (recorders n !! s) as [st|] eqn:E; [by apply map_lookup_filter_Some|]. apply map_lookup_filter_None. by left.
    + apply map_lookup_filter_None in Hd as [Hd|Hd]; [done|]. apply eq_None_not_Some. intros [v Hv]. by apply (Hd v Hv).
  - intros s [v [Hv Hs]%map_lookup_filter_Some]. apply map_lookup_filter_None. left. apply H8. by exists v.
Qed.

Lemma commit_inv io rw res r r' : rinv r → running r = Some rw → compactThroughCommit sha256 io rw r = (res, r') → rinv r'.
Proof.
  intros Hr Hrw. pose proof Hr as [H1 H2 H3 _]. unfold compactThroughCommit. destruct (Z.leb_spec (rwThrough rw) (floor (core r)));
    [intros [= <- <-]; by apply rinv_finish|].
  unfold verifyBaseSuffixLocked. destruct (negb _); [intros [= <- <-]; by apply rinv_finish|].
  destruct (_ || _); [intros [= <- <-]; by apply rinv_finish|]. destruct (negb _); [intros [= <- <-]; by apply rinv_finish|].
  destruct (advance_tables sha256 (installBaseLocked (rwThrough rw) (rwPrefix rw) (core r))) as (t & p & ->). intros [= <- <-].
  destruct (H3 rw Hrw) as (cv & _ & Hcov). split; simpl; try done.
  eapply log_ok_same; [..|by apply (installBase_ok rw (core r) H1); [|apply (cr_retained _ _ _ Hcov)]]; done.
Qed.

Lemma left_by_sub how n e : e ∈ (left_by how n).1 → e ∈ wal n.
Proof. destruct how; [done|apply subseteq_take]. Qed.

Lemma restart_inv how r : rinv r → rinv (restart_replica sha256 how r).
Proof.
  intros [H1 H2 _ _]. unfold restart_replica. pose proof (left_by_sub how (core r)) as Hsub.
  split; simpl; [by apply (replay_ok (core r))| |done|done]. by apply replay_spec, (log_ok_entries (core r)).
Qed.

Lemma replica_step_inv r r' : rinv r → replica_step r r' → rinv r'.
Proof.
  intros Hr Hstep. revert Hr. destruct Hstep as [ok h v res r0 r1 Hv Hs|io req res n' r0 Hp Hrec|d r0 Hv Hf Hd|ok ok' slot res n' r0 He|io t res r0 r1 Hrun Hb|io rw res r0 r1 Hrw Hc|how r0]; intros Hr.
  - by eapply stage_inv.
  - eapply rinv_grows; [done|by eapply record_locked_grows, Hrec; apply ri_log|]. by intros h cv <- ?%Hp.
  - apply (rinv_grows (λ _, False)); [done| |done]. apply install_grows; try done. apply (ri_log _ Hr).
  - apply (rinv_grows (λ _, False)); [done| |done]. by eapply ensureDurable_grows, He; apply ri_log.
  - revert Hb. unfold compactThroughBegin. destruct (_ =? _); [by intros [= <- <-]|].
    destruct (_ || _) eqn:Er; [by intros [= <- <-]|]. bool_hyps. destruct (negb _); [by intros [= <- <-]|].
    destruct (prefixes _ !! t) as [pre|]; [|by intros [= <- <-]]. destruct (negb _); [by intros [= <- <-]|].
    destruct (liveProposalValuesAboveLocked _ _ _) as [retained|] eqn:El; [|by intros [= <- <-]].
    destruct (verifyBaseSuffixLocked _ _ _ _ _); [|by intros [= <- <-]]. destruct (ioFence io); intros [= <- <-]; [|done].
    apply begin_inv; [done|lia|done].
  - by eapply commit_inv.
  - by apply restart_inv.
Qed.

Lemma emptyReplica_inv : rinv emptyReplica.
Proof.
  split; simpl; try done. split; simpl; try done; intros *; rewrite ?lookup_empty; try done; try set_solver.
Qed.

Lemma replica_run_inv r : rtc replica_step emptyReplica r → rinv r.
Proof.
  intros H. assert (∀ a b, rtc replica_step a b → rinv a → rinv b) as Hrun.
  { induction 1 as [|x y z Hs _ IH]; [done|]. intros Hx. by eapply IH, replica_step_inv. }
  by eapply Hrun, emptyReplica_inv.
Qed.

(** What a successful switch leaves. *)
Lemma commit_ok io rw r r' :
  compactThroughCommit sha256 io rw r = (Ok tt, r') →
  floor (core r') = rwThrough rw ∧ wal (core r') = rewritten rw (wal (core r)) ∧ synced (core r') = length (wal (core r')) ∧
  base r' = Some (rwThrough rw, rwPrefix rw) ∧
  (∀ s st, recorders (core r') !! s = Some st → recorders (core r) !! s = Some st) ∧
  (∀ s, s ∈ logged (core r') → is_Some (decided (core r') !! s) → floor (core r') < s).
Proof.
  unfold compactThroughCommit. destruct (_ <=? _); [done|]. unfold verifyBaseSuffixLocked. destruct (negb _); [done|].
  destruct (_ || _); [done|]. destruct (negb _); [done|].
  destruct (advance_tables sha256 (installBaseLocked (rwThrough rw) (rwPrefix rw) (core r))) as (t & p & ->). intros [= <-].
  split_and!; try done; simpl.
  - by intros s st [? _]%map_lookup_filter_Some.
  - by intros s _ [v [_ ?]%map_lookup_filter_Some].
Qed.

(** Replay decides no open slot the tables do not have decided. *)
Lemma replay_undecided r k s :
  log_ok (core r) → floor (core r) < s → decided (core r) !! s = None →
  decided (replay sha256 (base r) (wal (core r)) k) !! s = None.
Proof.
  intros Hlok Hs Hd. destruct (replay_spec (base r) (wal (core r)) k) as (Hrp & _); [by apply (log_ok_entries (core r))|].
  apply eq_None_not_Some. intros [v Hv]. destruct (rp_decided _ _ Hrp _ _ Hv) as (_ & _ & x & Hx & <- & _).
  destruct (lo_known _ Hlok x Hx Hs) as (y & Hy & _). congruence.
Qed.

(** While a rewrite runs: the steps that do not end it. *)
Definition during (rw : rewriting) (x y : replica) : Prop := replica_step x y ∧ running y = Some rw.

Lemma during_step rw x y cv :
  running x = Some rw → compactionValues x = Some cv → replica_step x y → ∀ rw', running y = Some rw' →
  rw' = rw ∧ ∃ cv', compactionValues y = Some cv' ∧ cv ⊆ cv'.
Proof.
  intros Hrw Hcv Hstep. destruct Hstep as [ok h v res r0 r1 Hv Hs|io req res n' r0 Hp Hrec|d r0 Hv Hf Hd|ok ok' slot res n' r0 He|io t res r0 r1 Hrun Hb|io rw0 res r0 r1 Hrw0 Hc|how r0]; intros rw' Hrw'.
  - revert Hs. unfold stageValueLocked. rewrite Hcv.
    repeat case_match; intros [= <- <-]; simpl in Hrw'; (split; [congruence|]); simpl; rewrite ?Hcv; eexists; (split; [done|]); set_solver.
  - simpl in *. split; [congruence|]. by exists cv.
  - simpl in *. split; [congruence|]. by exists cv.
  - simpl in *. split; [congruence|]. by exists cv.
  - congruence.
  - exfalso. revert Hc. unfold compactThroughCommit. repeat case_match; intros [= <- <-]; done.
  - done.
Qed.

Lemma during_steps rw0 rw x y cv :
  running x = Some rw0 → compactionValues x = Some cv → rtc (during rw) x y → running y = Some rw →
  rw = rw0 ∧ ∃ cv', compactionValues y = Some cv' ∧ cv ⊆ cv'.
Proof.
  intros Hrw Hcv H. revert rw0 cv Hrw Hcv. induction H as [x|x y z [Hs Hy] _ IH]; intros rw0 cv Hrw Hcv Hz; [split; [congruence|by exists cv]|].
  destruct (during_step _ _ _ _ Hrw Hcv Hs _ Hy) as (-> & cv1 & Hcv1 & ?). destruct (IH _ _ Hy Hcv1 Hz) as (_ & cv2 & ? & ?).
  split; [done|]. exists cv2. split; [done|by etrans].
Qed.

Lemma begin_ok io through r r1 :
  compactThroughBegin sha256 io through r = (Ok tt, r1) →
  ∃ prefix retained, liveProposalValuesAboveLocked sha256 through (core r) = Ok retained ∧ r1 = beginCompactionLocked through prefix retained r.
Proof.
  unfold compactThroughBegin. destruct (_ =? _); [done|]. destruct (_ || _); [done|]. destruct (negb _); [done|].
  destruct (prefixes _ !! through) as [pre|]; [|done]. destruct (negb _); [done|].
  destruct (liveProposalValuesAboveLocked _ _ _) as [retained|]; [|done]. destruct (verifyBaseSuffixLocked _ _ _ _ _); [|done].
  destruct (ioFence io); [|done]. intros [= <-]. by exists pre, retained.
Qed.

(** A log that is wholly on disk is left by either kind of stop. *)
Lemma left_by_all how n : synced n = length (wal n) → (left_by how n).1 = wal n.
Proof. intros E. destruct how as [|keep]; [done|]. simpl. unfold power_cut. apply take_ge. lia. Qed.

(** A value that an entry of the replayed log carries is served. *)
Lemma carried_served es n h e : replayed es n → e ∈ es → carries h e → ∃ v, ValueOf h n = Some v ∧ sha256 v = h.
Proof.
  intros Hrp He Hc. destruct (rp_carried _ _ Hrp _ _ He Hc) as [[v Hv] Hdur]. exists v.
  unfold ValueOf. rewrite Hv, bool_decide_eq_true_2 by done. split; [done|by apply (rp_values _ _ Hrp)].
Qed.

Lemma replay_logged r k s v :
  log_ok (core r) → floor (core r) < s → s ∈ logged (core r) → decided (core r) !! s = Some v →
  ∃ v', decided (replay sha256 (base r) (wal (core r)) k) !! s = Some v' ∧ same_value v v'.
Proof.
  intros Hlok Hs Hl Hv. destruct (replay_spec (base r) (wal (core r)) k) as (Hrp & _); [by apply (log_ok_entries (core r))|].
  destruct (lo_logged _ Hlok s Hl Hs) as (x & Hx & <-). destruct (lo_known _ Hlok x Hx Hs) as (v0 & Hv0 & [E1 E2]).
  destruct (rp_all _ _ Hrp x Hx) as [[v' Hv'] _]. exists v'. split; [done|].
  destruct (rp_decided _ _ Hrp _ _ Hv') as (_ & _ & y & Hy & Ey & [E3 E4]).
  destruct (lo_known _ Hlok y Hy) as (v1 & Hv1 & [E5 E6]); [by rewrite Ey|]. rewrite Ey in Hv1. simplify_eq. split; congruence.
Qed.

(** C14: a compaction that is switched in loses no value the replica needs above
    the new floor.  Whatever the handlers do between the fence and the switch,
    provided the values recorded in between were staged behind the fence or kept
    by it, the replica that starts again after the switch, because its process
    stopped or its machine lost power, has every register above the floor as it
    was and serves the bytes of every value it refers to; it serves the bytes of
    every decision above the floor that was known when the rewrite began, logged
    or not; and it has every logged decision. *)
Theorem compaction_keeps_values io io' through rw r0 r1 r r' how :
  rtc replica_step emptyReplica r0 → running r0 = None → compactThroughBegin sha256 io through r0 = (Ok tt, r1) →
  rtc (during rw) r1 r → running r = Some rw → compactThroughCommit sha256 io' rw r = (Ok tt, r') →
  let n := core (restart_replica sha256 how r') in
  floor n = through ∧
  (∀ s st, through < s → recorders (core r') !! s = Some st →
     recorders n !! s = Some st ∧ ∀ p, p ∈ proposals_of st → ∃ v, ValueOf (Hash p) n = Some v ∧ sha256 v = Hash p) ∧
  (∀ s v, through < s → decided (core r0) !! s = Some v → ∃ v', ValueOf (dvHash v) n = Some v' ∧ sha256 v' = dvHash v) ∧
  (∀ s v, s ∈ logged (core r') → decided (core r') !! s = Some v → ∃ v', decided n !! s = Some v' ∧ same_value v v').
Proof.
  intros Hr0%replica_run_inv Hidle Hb Hd Hrw Hc n.
  assert (rinv r) as Hr.
  { assert (rinv r1) as Hr1 by (by eapply replica_step_inv; [exact Hr0|eapply rs_begin]). clear -Hr1 Hd.
    revert Hr1. induction Hd as [|x y z [Hs _] _ IH]; [done|]. intros Hx. by eapply IH, replica_step_inv. }
  destruct (begin_ok _ _ _ _ Hb) as (prefix & retained & Hlive & ->). destruct (live_values _ _ _ Hlive) as (_ & _ & Hneed).
  destruct (during_steps _ rw (beginCompactionLocked through prefix retained r0) r _ eq_refl eq_refl Hd Hrw) as (Erw & cv & Hcv & Hsub).
  assert (rwThrough rw = through) as Et by (by rewrite Erw). clear Erw.
  pose proof (commit_inv _ _ _ _ _ Hr Hrw Hc) as Hr'.
  destruct (ri_running _ Hr rw Hrw) as (cv' & Hcv' & Hcov). rewrite Hcv in Hcv'. apply (inj Some) in Hcv' as <-.
  destruct (commit_ok _ _ _ _ Hc) as (Hf & Hw & Hs & Hbase' & Hrec & Hlog). rewrite Et in Hf.
  pose proof (ri_log _ Hr') as Hlok. pose proof (ri_base _ Hr') as Hbase. set (k := (left_by how (core r')).2).
  destruct (replay_spec (base r') (wal (core r')) k) as (Hrp & Efl & _); [by apply (log_ok_entries (core r'))|].
  assert (n = replay sha256 (base r') (wal (core r')) k) as -> by (unfold n, restart_replica; simpl; by rewrite left_by_all).
  assert (∀ h, h ∈ cv → ∃ v, ValueOf h (replay sha256 (base r') (wal (core r')) k) = Some v ∧ sha256 v = h) as Hserved.
  { intros h Hh. destruct (cr_values _ _ _ Hcov h Hh) as (e & He & Hce). rewrite <-Hw in He. by eapply carried_served. }
  split_and!; [by rewrite Efl, <-Hbase| | |].
  - intros s st Hs' Hst. assert (decided (core r') !! s = None) as Hd0.
    { apply eq_None_not_Some. intros Hd0. by rewrite (lo_recorders _ Hlok s Hd0) in Hst. }
    split; [|intros p Hp; apply Hserved; apply (cr_recorders _ _ _ Hcov s st); [lia|by apply Hrec|done]].
    pose proof (lo_floor _ Hlok). rewrite (rp_receipts _ _ Hrp s); [|lia|by apply replay_undecided; [|lia|]].
    rewrite <-(lo_receipts _ Hlok); [done|lia|done].
  - intros s v Hs' Hv. apply Hserved, Hsub. by eapply Hneed.
  - intros s v Hl Hv. apply replay_logged; [done|by apply Hlog; [|by eexists]|done|done].
Qed.
End proofs.

(** ** Concrete runs *)

Definition compact_ok : compactIO := mkCompactIO true true true true true true.
Definition late_value : bytes := [x2b].
Definition late_request : RecordRequest := mkRecordRequest 2 4 1 zeroHash (newProposal tag_hash highestPriority [x01] late_value).
Abbreviation demo_run := (replica_step [x01] three tag_hash (λ _, true)).

Definition accepted_replica : replica :=
  with_core emptyReplica (advanceTipLocked tag_hash (install three demo_decided (core emptyReplica))).
(** Slot 1 is decided and logged. *)
Definition sealed_replica : replica := with_core emptyReplica demo_durable.
Definition stage_late (r : replica) : replica := (stageValueLocked true (tag_hash late_value) late_value r).2.
Definition fence_one (r : replica) : replica := (compactThroughBegin tag_hash compact_ok 1 r).2.
Definition record_late (r : replica) : result nodeError Summary * replica :=
  let '(res, n) := record_locked [x01] (λ _, true) all_ok late_request (core r) in (res, with_core r n).
Definition no_rewriting : rewriting := mkRewriting 0 [] ∅ 0.
Definition switch_one (r : replica) : replica := (compactThroughCommit tag_hash compact_ok (default no_rewriting (running r)) r).2.

(** C33: a value acknowledged during a compaction can be lost.  [record] stages
    the value before it takes the slot's lock; when the fence falls in between,
    the rewrite drops the staged bytes and the receipt follows the fence, so
    after a restart the register names a value that no entry of the log has. *)
Theorem compaction_loses_value :
  let staged := stage_late sealed_replica in
  let fenced := fence_one staged in
  let recorded := record_late fenced in
  let n := core (restart_replica tag_hash ProcessStop (switch_one recorded.2)) in
  (∃ summary, recorded.1 = Ok summary) ∧ (ValueOf (tag_hash late_value) (core recorded.2) = Some late_value) ∧
  (∃ st p, recorders n !! 2 = Some st ∧ p ∈ proposals_of st ∧ Hash p = tag_hash late_value) ∧
  values n !! tag_hash late_value = None.
Proof.
  split_and!; [eexists; vm_compute; reflexivity|vm_compute; reflexivity| |vm_compute; reflexivity].
  eexists _, _. split; [vm_compute; reflexivity|]. split; [left|vm_compute; reflexivity].
Qed.

(** Slot 3 is decided and not logged when the rewrite begins; slot 2 is recorded
    behind the fence. *)
Definition sparse_decision : Decision := mkDecision 1 3 4 (newProposal tag_hash highestPriority [x01] [x2c]) [].
Definition sparse_replica : replica := with_core sealed_replica (advanceTipLocked tag_hash (install three sparse_decision (core sealed_replica))).
Definition fenced_run : replica := fence_one sparse_replica.
Definition staged_run : replica := stage_late fenced_run.
Definition covered_run : replica := (record_late staged_run).2.
Definition demo_rewriting : rewriting := default no_rewriting (running fenced_run).

Lemma sparse_reachable : rtc demo_run emptyReplica sparse_replica.
Proof.
  transitivity ((with_core emptyReplica (demo_accept emptyNode))); [apply rtc_once|].
  { apply (rs_accept _ _ _ _ demo_decided emptyReplica); vm_compute; done. }
  transitivity sealed_replica; [apply rtc_once|].
  { apply (rs_durable _ _ _ _ true true 1 (Ok tt) demo_durable accepted_replica). vm_compute. reflexivity. }
  apply rtc_once. exact (rs_accept [x01] three tag_hash (λ _, true) sparse_decision sealed_replica eq_refl eq_refl eq_refl).
Qed.

Lemma covered_run_during : rtc (during [x01] three tag_hash (λ _, true) demo_rewriting) fenced_run covered_run.
Proof.
  transitivity staged_run; apply rtc_once.
  { split; [|vm_compute; reflexivity]. eapply (rs_stage _ _ _ _ true (tag_hash late_value) late_value); [reflexivity|apply surjective_pairing]. }
  split; [|vm_compute; reflexivity]. unfold covered_run, record_late.
  destruct (record_locked [x01] (λ _, true) all_ok late_request (core staged_run)) as [res n] eqn:E.
  assert (match compactionValues staged_run with
          | Some cv => bool_decide (tag_hash late_value ∈ cv) | None => true end = true) as H by (vm_compute; reflexivity).
  apply (rs_record _ _ _ _ all_ok late_request res); [|done]. intros cv Hcv. rewrite Hcv in H. by apply bool_decide_eq_true_1 in H.
Qed.

Lemma compaction_keeps_values_witness :
  let r' := switch_one covered_run in let n := core (restart_replica tag_hash (PowerLoss 0) r') in
  floor n = 1 ∧
  (∀ s st, 1 < s → recorders (core r') !! s = Some st →
     recorders n !! s = Some st ∧ ∀ p, p ∈ proposals_of st → ∃ v, ValueOf (Hash p) n = Some v ∧ tag_hash v = Hash p) ∧
  (∀ s v, 1 < s → decided (core sparse_replica) !! s = Some v → ∃ v', ValueOf (dvHash v) n = Some v' ∧ tag_hash v' = dvHash v) ∧
  (∀ s v, s ∈ logged (core r') → decided (core r') !! s = Some v → ∃ v', decided n !! s = Some v' ∧ same_value v v').
Proof.
  apply (compaction_keeps_values [x01] three tag_hash (λ _, true) compact_ok compact_ok 1 demo_rewriting
    sparse_replica fenced_run covered_run (switch_one covered_run) (PowerLoss 0)).
  - exact sparse_reachable.
  - reflexivity.
  - vm_compute. reflexivity.
  - exact covered_run_during.
  - vm_compute. reflexivity.
  - vm_compute. reflexivity.
Defined.
