(* ===== verification/GroupCommit.v ===== *)
(** * Group commit of log syncs (pkg/quepaxa/group_commit.go)

    Callers that need the log on disk join a pending batch; one flusher
    goroutine takes the batch, syncs the log once and wakes all of its
    callers.  The state below has the fields of [groupCommit], the callers and
    the flushers that exist, and the log that [g.sync] writes; every step is
    one critical section of [g.mu], one call of the log, or one channel
    operation, and the steps interleave freely. *)

From stdpp Require Import gmap list.
From S2P Require Import Prelude.

(** ** The log a group commit serves

    [log_append] and [log_sync] answer [true] on success. *)
Class DurableLog (L E AIO : Type) := {
  log_append : AIO → E → L → bool * L;
  log_sync : bool → L → bool * L;
  log_ready : L → E → Prop;
}.

(** What the log promises.  [log_holds l es ds] says that the log was handed the
    entries [es] and that a sync has vouched for those of [ds]; [log_survives l
    ds] is what that is worth after a power failure. *)
Class DurableLogLaws (L E AIO : Type) `{!DurableLog L E AIO} := {
  log_holds : L → list E → list E → Prop;
  log_survives : L → list E → Prop;
  log_append_ok io e l es ds l' :
    log_holds l es ds → log_ready l e → log_append io e l = (true, l') → log_holds l' (es ++ [e]) ds;
  log_append_error io e l es ds l' :
    log_holds l es ds → log_ready l e → log_append io e l = (false, l') → log_holds l' es ds;
  log_sync_ok io l es ds l' :
    log_holds l es ds → log_sync io l = (true, l') → log_holds l' es es;
  log_sync_error io l es ds l' :
    log_holds l es ds → log_sync io l = (false, l') → log_holds l' es ds;
  log_durable l es ds : log_holds l es ds → log_survives l ds;
  log_survives_prefix l ds ds' : ds `prefix_of` ds' → log_survives l ds' → log_survives l ds;
}.

(** ** State *)

Definition recorderCommitMax : nat := 64.

(** Where a flusher is in its loop: waiting for the timer or the wake channel;
    about to take the pending batch; about to sync for the batch it took; about
    to close that batch; about to look for more work; gone; crashed on a nil
    batch or on a channel closed twice. *)
Inductive flusher :=
| FTimer
| FTake
| FSync (batch : option nat)
| FClose (batch : nat) (err : bool)
| FCheck
| FDone
| FPanic.

(** A caller of [Sync] that joined a batch, with the entries the log had been
    handed by then; and the same caller after it returned, [true] for a nil
    error. *)
Inductive caller (E : Type) :=
| Waiting (batch : nat) (mark : list E)
| Returned (ok : bool) (mark : list E).
Arguments Waiting {E} _ _.
Arguments Returned {E} _ _.

#[global] Instance flusher_eq_dec : EqDecision flusher.
Proof. solve_decision. Defined.

(** Batches are numbered in the order of their creation. *)
Record groupCommit (L E : Type) := mkGroup {
  pending : option nat;
  running : bool;
  wake : bool;
  waiters : gmap nat nat;
  doneErr : gmap nat bool;
  nextBatch : nat;
  flushers : list flusher;
  callers : list (caller E);
  theLog : L;
  handed : list E;
}.
Arguments mkGroup {L E} _ _ _ _ _ _ _ _ _ _.
Arguments pending {L E} _.
Arguments running {L E} _.
Arguments wake {L E} _.
Arguments waiters {L E} _.
Arguments doneErr {L E} _.
Arguments nextBatch {L E} _.
Arguments flushers {L E} _.
Arguments callers {L E} _.
Arguments theLog {L E} _.
Arguments handed {L E} _.

Section ops.
  Context {L E AIO : Type} `{!DurableLog L E AIO}.

  Abbreviation group := (groupCommit L E).

Definition newGroupCommit (l : L) (es : list E) : group :=
  mkGroup None false false ∅ ∅ 0 [] [] l es.

(** The locked part of [syncBatch]: join, start the flusher if there is none,
    and nudge it when the batch is full or the caller is in a hurry. *)
Definition syncBatch (immediate : bool) (g : group) : group :=
  let fresh := match pending g with None => true | Some _ => false end in
  let batch := default (nextBatch g) (pending g) in
  let n := S (default 0%nat (waiters g !! batch)) in
  mkGroup (Some batch) true
    (wake g || immediate || (recorderCommitMax <=? n)%nat)
    (<[batch := n]> (waiters g)) (doneErr g)
    (if fresh then S (nextBatch g) else nextBatch g)
    (if running g then flushers g else flushers g ++ [FTimer])
    (callers g ++ [Waiting batch (handed g)]) (theLog g) (handed g).

Definition set_flusher (i : nat) (f : flusher) (g : group) : group :=
  mkGroup (pending g) (running g) (wake g) (waiters g) (doneErr g) (nextBatch g)
    (<[i := f]> (flushers g)) (callers g) (theLog g) (handed g).

Definition set_caller (i : nat) (c : caller E) (g : group) : group :=
  mkGroup (pending g) (running g) (wake g) (waiters g) (doneErr g) (nextBatch g)
    (flushers g) (<[i := c]> (callers g)) (theLog g) (handed g).

(** The choices a flusher's environment makes: whether the wake channel or the
    timer ends its wait, and whether the disk accepts the sync. *)
Record luck := mkLuck { byWake : bool; syncOk : bool }.

(** One step of flusher [i]. *)
Definition flush (i : nat) (k : luck) (g : group) : group :=
  match flushers g !! i with
  | Some FTimer =>
      mkGroup (pending g) (running g) (if byWake k then false else wake g) (waiters g) (doneErr g)
        (nextBatch g) (<[i := FTake]> (flushers g)) (callers g) (theLog g) (handed g)
  | Some FTake =>
      mkGroup None (running g) (wake g) (waiters g) (doneErr g) (nextBatch g)
        (<[i := FSync (pending g)]> (flushers g)) (callers g) (theLog g) (handed g)
  | Some (FSync batch) =>
      let '(ok, l') := log_sync (syncOk k) (theLog g) in
      mkGroup (pending g) (running g) (wake g) (waiters g) (doneErr g) (nextBatch g)
        (<[i := match batch with Some b => FClose b ok | None => FPanic end]> (flushers g))
        (callers g) l' (handed g)
  | Some (FClose b ok) =>
      match doneErr g !! b with
      | Some _ => set_flusher i FPanic g
      | None =>
          mkGroup (pending g) (running g) (wake g) (waiters g) (<[b := ok]> (doneErr g)) (nextBatch g)
            (<[i := FCheck]> (flushers g)) (callers g) (theLog g) (handed g)
      end
  | Some FCheck =>
      match pending g with
      | None =>
          mkGroup None false (wake g) (waiters g) (doneErr g) (nextBatch g)
            (<[i := FDone]> (flushers g)) (callers g) (theLog g) (handed g)
      | Some _ => set_flusher i FTimer g
      end
  | Some FDone | Some FPanic | None => g
  end.

(** A waiting caller whose batch is done, or whose context was cancelled. *)
Definition return_done (i : nat) (g : group) : option group :=
  match callers g !! i with
  | Some (Waiting b m) =>
      match doneErr g !! b with
      | Some ok => Some (set_caller i (Returned ok m) g)
      | None => None
      end
  | _ => None
  end.

Definition return_cancelled (i : nat) (g : group) : option group :=
  match callers g !! i with
  | Some (Waiting _ m) => Some (set_caller i (Returned false m) g)
  | _ => None
  end.

(** Anyone may append to the log meanwhile. *)
Definition append (io : AIO) (e : E) (g : group) : group :=
  let '(ok, l') := log_append io e (theLog g) in
  mkGroup (pending g) (running g) (wake g) (waiters g) (doneErr g) (nextBatch g)
    (flushers g) (callers g) l' (if ok then handed g ++ [e] else handed g).

(** ** The steps *)

Inductive group_step : group → group → Prop :=
| step_join immediate g : group_step g (syncBatch immediate g)
| step_flush i k g : (flushers g !! i = Some FTimer → byWake k = true → wake g = true) → group_step g (flush i k g)
| step_return i g g' : return_done i g = Some g' → group_step g g'
| step_cancel i g g' : return_cancelled i g = Some g' → group_step g g'
| step_append io e g : log_ready (theLog g) e → group_step g (append io e g).

Inductive reached (g0 : group) : group → Prop :=
| reached_start : reached g0 g0
| reached_step g g' : reached g0 g → group_step g g' → reached g0 g'.

(** The steps a single flusher takes alone, one for each element of [ks]. *)
Definition flush_run (i : nat) (ks : list luck) (g : group) : group :=
  foldl (λ g k, flush i k g) g ks.
End ops.
