(* ===== verification/GroupCommitProofs.v ===== *)
(** * Group commit: a nil result means the log is on disk

    The invariant of the interleaved system, and what follows from it: at
    most one flusher exists and it never crashes, a nil result covers every
    entry handed to the log before the call, and no caller waits longer than
    seven steps of the flusher.  The WAL of pkg/qlog is an instance of the log
    interface. *)

From stdpp Require Import gmap list.
From S2P Require Import Prelude Bytes Entry Manifest Segment Wal WalSafety WalLog GroupCommit.

Section proofs.
  Context {L E AIO : Type} `{!DurableLog L E AIO} `{!DurableLogLaws L E AIO}.

  Abbreviation group := (groupCommit L E).

(** ** The invariant *)

Definition in_flight (f : option flusher) : option nat :=
  match f with
  | Some (FSync ob) => ob
  | Some (FClose b _) => Some b
  | _ => None
  end.

Definition phase_ok (p : option nat) (f : option flusher) : Prop :=
  match f with
  | None => p = None
  | Some FTimer | Some FTake => p ≠ None
  | Some (FSync None) | Some FDone | Some FPanic => False
  | _ => True
  end.

Definition caller_ok (g : group) (f : option flusher) (ds : list E) (c : caller E) : Prop :=
  match c with
  | Returned ok m => m `prefix_of` handed g ∧ (ok = true → m `prefix_of` ds)
  | Waiting b m =>
      m `prefix_of` handed g ∧ (b < nextBatch g)%nat ∧
      match doneErr g !! b with
      | Some ok => ok = true → m `prefix_of` ds
      | None => pending g = Some b ∨ in_flight f = Some b ∧ (f = Some (FClose b true) → m `prefix_of` ds)
      end
  end.

Definition undone (g : group) (b : nat) : Prop := (b < nextBatch g)%nat ∧ doneErr g !! b = None.

(** Flushers that finished come first; [f] is the one at work. *)
Record group_inv (g : group) (n : nat) (f : option flusher) (ds : list E) : Prop := {
  gi_flushers : flushers g = replicate n FDone ++ option_list f;
  gi_running : running g = bool_decide (is_Some f);
  gi_phase : phase_ok (pending g) f;
  gi_pending : ∀ b, pending g = Some b → undone g b;
  gi_flight : ∀ b, in_flight f = Some b → undone g b ∧ pending g ≠ Some b;
  gi_done : ∀ b, is_Some (doneErr g !! b) → (b < nextBatch g)%nat;
  gi_waiters : ∀ b, is_Some (waiters g !! b) → (b < nextBatch g)%nat;
  gi_full : ∀ b w, pending g = Some b → waiters g !! b = Some w → (recorderCommitMax <= w)%nat →
    wake g = true ∨ f = Some FTake;
  gi_callers : Forall (caller_ok g f ds) (callers g);
  gi_log : log_holds (theLog g) (handed g) ds;
}.

Lemma caller_ok_mono g g' f ds c :
  pending g' = pending g → nextBatch g' = nextBatch g → doneErr g' = doneErr g →
  handed g `prefix_of` handed g' → caller_ok g f ds c → caller_ok g' f ds c.
Proof.
  intros Hp Hn Hd Hh. destruct c as [b m|ok m]; simpl.
  - rewrite Hp, Hn, Hd. intros (Hm & ? & ?). split_and!; [by etrans|done..].
  - intros [Hm ?]. split; [by etrans|done].
Qed.

(** ** Every step preserves it *)

Lemma inv_new l es ds : log_holds l es ds → group_inv (newGroupCommit l es) 0 None ds.
Proof. intros Hl. split; simpl; try done; intros b [x H]; by simplify_map_eq. Qed.

Lemma inv_join immediate g n f ds :
  group_inv g n f ds → ∃ f', group_inv (syncBatch immediate g) n f' ds.
Proof.
  intros [Hf Hr Hph Hp Hfl Hd Hw Hfull Hc Hl]. exists (Some (default FTimer f)).
  set (b := default (nextBatch g) (pending g)).
  assert (undone (syncBatch immediate g) b ∧ in_flight f ≠ Some b) as [Hub Hfb].
  { unfold b, undone. simpl. destruct (pending g) as [p|] eqn:Ep; simpl.
    - destruct (Hp p eq_refl). split; [done|]. intros E'. by destruct (Hfl p E') as [_ []].
    - split; [|intros E'; destruct (Hfl _ E') as [[? _] _]; lia]. split; [lia|].
      destruct (doneErr g !! nextBatch g) eqn:E'; [|done].
      pose proof (Hd (nextBatch g) ltac:(by eexists)). lia. }
  assert (in_flight (Some (default FTimer f)) = in_flight f) as Hin by (by destruct f).
  assert (∀ x, (x < nextBatch g)%nat → (x < nextBatch (syncBatch immediate g))%nat) as Hgrow.
  { intros x Hx. simpl. destruct (pending g); lia. }
  split.
  - simpl. rewrite Hf, Hr. destruct f; simpl; [done|]. by rewrite app_nil_r.
  - done.
  - destruct f as [fl|]; [|done]. simpl in *. by destruct fl.
  - intros b' [= <-]. done.
  - rewrite Hin. intros b' Hb'. destruct (Hfl b' Hb') as [[? ?] ?]. split; [split; [by apply Hgrow|done]|].
    simpl. fold b. congruence.
  - intros b' Hb'. apply Hgrow. auto.
  - intros b' Hb'. simpl in Hb'. fold b in Hb'. apply lookup_insert_is_Some in Hb' as [<-|[_ Hb']]; [apply Hub|].
    apply Hgrow. auto.
  - intros b' w [= <-]. cbn [syncBatch waiters wake]. fold b. rewrite lookup_insert_eq. intros [= <-] Hle.
    left. rewrite (proj2 (Nat.leb_le _ _) Hle). by rewrite orb_true_r.
  - simpl. apply Forall_app. split.
    + eapply Forall_impl; [exact Hc|]. intros [b' m|ok m]; [|done].
      intros (Hm & Hb' & Hst). unfold caller_ok. rewrite Hin. split_and!; [done| |].
      * by apply (Hgrow b').
      * simpl. destruct (doneErr g !! b'); [done|].
        destruct Hst as [Hst|[Hst1 Hst2]]; [left; by rewrite Hst|right].
        split; [done|]. destruct f as [fl|]; [done|]. done.
    + apply Forall_singleton. simpl. fold b. destruct Hub as [? Hub]. simpl in Hub.
      rewrite Hub. split_and!; [done|done|by left].
  - done.
Qed.

Lemma inv_append io e g n f ds :
  log_ready (theLog g) e → group_inv g n f ds → group_inv (append io e g) n f ds.
Proof.
  intros Hready [Hf Hr Hph Hp Hfl Hd Hw Hfull Hc Hl]. unfold append.
  destruct (log_append io e (theLog g)) as [[] l'] eqn:Ha; split; simpl; try done.
  - eapply Forall_impl; [exact Hc|]. intros c. apply caller_ok_mono; try done. by apply prefix_app_r.
  - by eapply log_append_ok.
  - by eapply log_append_error.
Qed.

Lemma inv_return i g n f ds c c' :
  group_inv g n f ds → callers g !! i = Some c → (caller_ok g f ds c → caller_ok g f ds c') →
  group_inv (set_caller i c' g) n f ds.
Proof.
  intros [Hf Hr Hph Hp Hfl Hd Hw Hfull Hc Hl] Hi Himp. split; simpl; try done.
  apply Forall_insert; [exact Hc|]. apply Himp. by apply (Forall_lookup_1 _ _ _ _ Hc Hi).
Qed.

Lemma inv_done i g g' n f ds : return_done i g = Some g' → group_inv g n f ds → group_inv g' n f ds.
Proof.
  unfold return_done. destruct (callers g !! i) as [[b m|]|] eqn:Hi; [|done..].
  destruct (doneErr g !! b) as [ok|] eqn:Hd; [|done]. intros [= <-] Hinv.
  apply (inv_return i g n f ds (Waiting b m)); [done..|]. simpl. rewrite Hd. by intros (? & _ & ?).
Qed.

Lemma inv_cancelled i g g' n f ds : return_cancelled i g = Some g' → group_inv g n f ds → group_inv g' n f ds.
Proof.
  unfold return_cancelled. destruct (callers g !! i) as [[b m|]|] eqn:Hi; [|done..]. intros [= <-] Hinv.
  apply (inv_return i g n f ds (Waiting b m)); [done..|]. by intros (? & _).
Qed.

(** The flushers, seen from the one at work. *)
Lemma flusher_lookup n f i x :
  (replicate n FDone ++ option_list f) !! i = Some x → x = FDone ∨ i = n ∧ f = Some x.
Proof.
  intros [Hx|[Hlen Hx]]%lookup_app_Some; [left; by apply lookup_replicate in Hx as [-> _]|].
  rewrite length_replicate in *. destruct f as [y|]; [|done]. simpl in Hx.
  apply list_lookup_singleton_Some in Hx as [? <-]. right. split; [lia|done].
Qed.

Lemma flusher_insert n f x :
  <[n := x]> (replicate n FDone ++ [f]) = replicate n FDone ++ [x].
Proof. rewrite insert_app_r_alt by (rewrite length_replicate; lia). by rewrite length_replicate, Nat.sub_diag. Qed.

Lemma flusher_gone n : replicate n FDone ++ [FDone] = replicate (S n) FDone ++ option_list None.
Proof. simpl. rewrite app_nil_r. induction n; simpl; by f_equal. Qed.

Lemma caller_ok_flush g g' f f' ds ds' c :
  nextBatch g' = nextBatch g → handed g' = handed g →
  (∀ b m, caller_ok g f ds (Waiting b m) →
    match doneErr g' !! b with
    | Some ok => ok = true → m `prefix_of` ds'
    | None => pending g' = Some b ∨ in_flight f' = Some b ∧ (f' = Some (FClose b true) → m `prefix_of` ds')
    end) →
  (∀ m, m `prefix_of` handed g → m `prefix_of` ds → m `prefix_of` ds') →
  caller_ok g f ds c → caller_ok g' f' ds' c.
Proof.
  intros Hn Hh Hw Hret. destruct c as [b m|ok m]; intros Hc.
  - destruct Hc as (Hm & Hb & Hst). unfold caller_ok. rewrite Hn, Hh. split_and!; [done..|]. by apply Hw.
  - destruct Hc as [Hm Hok]. split; [by rewrite Hh|]. intros ->. by apply Hret, Hok.
Qed.

(** A flusher that only moves on, leaving the batches alone. *)
Lemma inv_move g n x y wk ds :
  group_inv g n (Some x) ds → in_flight (Some x) = None → in_flight (Some y) = None →
  phase_ok (pending g) (Some y) →
  (wk = wake g ∧ x ≠ FTake ∨ y = FTake) →
  group_inv (mkGroup (pending g) (running g) wk (waiters g) (doneErr g) (nextBatch g)
    (<[n := y]> (flushers g)) (callers g) (theLog g) (handed g)) n (Some y) ds.
Proof.
  intros [Hf Hr Hph Hp Hfl Hd Hw Hfull Hc Hl] Hx Hy Hphase Hwk. split; simpl; try done.
  - rewrite Hf. apply flusher_insert.
  - simpl in Hy. intros b Hb. congruence.
  - intros b w Hb Hbw Hle. destruct Hwk as [[-> ?]| ->]; [|by right].
    destruct (Hfull b w Hb Hbw Hle) as [?|[= ->]]; [by left|done].
  - eapply Forall_impl; [exact Hc|]. intros c. apply caller_ok_flush; [done..| |]; simpl.
    + intros b m (_ & _ & Hst). destruct (doneErr g !! b); [done|]. left.
      destruct Hst as [?|[? _]]; [done|]. simpl in Hx. congruence.
    + auto.
Qed.

Lemma inv_take g n ds :
  group_inv g n (Some FTake) ds →
  group_inv (mkGroup None (running g) (wake g) (waiters g) (doneErr g) (nextBatch g)
    (<[n := FSync (pending g)]> (flushers g)) (callers g) (theLog g) (handed g)) n (Some (FSync (pending g))) ds.
Proof.
  intros [Hf Hr Hph Hp Hfl Hd Hw Hfull Hc Hl]. split; simpl; try done.
  - rewrite Hf. apply flusher_insert.
  - simpl in Hph. by destruct (pending g).
  - intros b Hb. split; [by apply Hp|done].
  - eapply Forall_impl; [exact Hc|]. intros c. apply caller_ok_flush; [done..| |]; simpl; [|auto].
    intros b m (_ & _ & Hst). destruct (doneErr g !! b); [done|]. right.
    split; [|done]. by destruct Hst as [?|[? _]].
Qed.

Lemma inv_sync g n b (ok : bool) l' ds ds' :
  group_inv g n (Some (FSync (Some b))) ds → log_holds l' (handed g) ds' →
  (if ok then ds' = handed g else ds' = ds) →
  group_inv (mkGroup (pending g) (running g) (wake g) (waiters g) (doneErr g) (nextBatch g)
    (<[n := FClose b ok]> (flushers g)) (callers g) l' (handed g)) n (Some (FClose b ok)) ds'.
Proof.
  intros [Hf Hr Hph Hp Hfl Hd Hw Hfull Hc Hl] Hl' Hds.
  assert (∀ m, m `prefix_of` handed g → m `prefix_of` ds → m `prefix_of` ds') as Hmono.
  { intros m ? ?. destruct ok; by subst. }
  split; simpl; try done.
  - rewrite Hf. apply flusher_insert.
  - intros b' w Hb Hbw Hle. destruct (Hfull b' w Hb Hbw Hle) as [?|?]; [by left|done].
  - eapply Forall_impl; [exact Hc|]. intros c. apply caller_ok_flush; [done..| |done]; simpl.
    intros b' m (Hm & _ & Hst). destruct (doneErr g !! b') as [ok'|]; [intros ->; by apply (Hmono m Hm), Hst|].
    destruct Hst as [?|[? _]]; [by left|]. right. split; [done|]. intros [= <- ->]. by rewrite Hds.
Qed.

Lemma inv_close g n b ok ds :
  group_inv g n (Some (FClose b ok)) ds →
  group_inv (mkGroup (pending g) (running g) (wake g) (waiters g) (<[b := ok]> (doneErr g)) (nextBatch g)
    (<[n := FCheck]> (flushers g)) (callers g) (theLog g) (handed g)) n (Some FCheck) ds.
Proof.
  intros [Hf Hr Hph Hp Hfl Hd Hw Hfull Hc Hl]. destruct (Hfl b eq_refl) as [[Hb Hnone] Hpb].
  split; simpl; try done.
  - rewrite Hf. apply flusher_insert.
  - intros b' Hb'. destruct (Hp b' Hb') as [? ?]. split; [done|]. simpl.
    rewrite lookup_insert_ne; [done|]. intros ->. done.
  - intros b' [<-|[_ ?]]%lookup_insert_is_Some; [done|auto].
  - intros b' w Hb' Hbw Hle. destruct (Hfull b' w Hb' Hbw Hle) as [?|?]; [by left|done].
  - eapply Forall_impl; [exact Hc|]. intros c. apply caller_ok_flush; [done..| |done]; simpl.
    intros b' m (Hm & _ & Hst). destruct (decide (b' = b)) as [->|Hne].
    + rewrite lookup_insert_eq. rewrite Hnone in Hst. intros ->. destruct Hst as [?|[_ H]]; [done|by apply H].
    + rewrite lookup_insert_ne by done. destruct (doneErr g !! b'); [done|].
      destruct Hst as [?|[[= ->] _]]; [by left|done].
Qed.

Lemma inv_finish g n ds :
  group_inv g n (Some FCheck) ds → pending g = None →
  group_inv (mkGroup None false (wake g) (waiters g) (doneErr g) (nextBatch g)
    (<[n := FDone]> (flushers g)) (callers g) (theLog g) (handed g)) (S n) None ds.
Proof.
  intros [Hf Hr Hph Hp Hfl Hd Hw Hfull Hc Hl] Hnone. split; simpl; try done.
  - rewrite Hf. simpl. rewrite flusher_insert. apply flusher_gone.
  - eapply Forall_impl; [exact Hc|]. intros c. apply caller_ok_flush; [done..| |done]; simpl.
    intros b' m (Hm & _ & Hst). destruct (doneErr g !! b'); [done|]. destruct Hst as [?|[? _]]; congruence.
Qed.

Lemma inv_flush i k g n f ds :
  group_inv g n f ds → ∃ n' f' ds', group_inv (flush i k g) n' f' ds'.
Proof.
  intros Hinv. unfold flush. destruct (flushers g !! i) as [x|] eqn:Hi; [|by eauto].
  rewrite (gi_flushers _ _ _ _ Hinv) in Hi. apply flusher_lookup in Hi as [->|[-> ->]]; [by eauto|].
  destruct x as [| |[b|]|b ok| | |].
  - exists n, (Some FTake), ds. apply (inv_move _ _ FTimer); try done; [|by right]. apply Hinv.
  - eexists n, _, ds. by apply inv_take.
  - destruct (log_sync (syncOk k) (theLog g)) as [ok l'] eqn:Hs.
    exists n, (Some (FClose b ok)), (if ok then handed g else ds).
    apply (inv_sync _ _ _ _ _ ds); [done| |by destruct ok]. pose proof (gi_log _ _ _ _ Hinv).
    destruct ok; [by eapply log_sync_ok|by eapply log_sync_error].
  - by destruct (gi_phase _ _ _ _ Hinv).
  - destruct (gi_flight _ _ _ _ Hinv b eq_refl) as [[_ ->] _]. eexists n, _, ds. by apply inv_close.
  - destruct (pending g) eqn:Hp.
    + exists n, (Some FTimer), ds. unfold set_flusher.
      apply (inv_move _ _ FCheck); try done; [by rewrite Hp|by left].
    + eexists (S n), None, ds. by apply inv_finish.
  - by eauto.
  - by destruct (gi_phase _ _ _ _ Hinv).
Qed.

Lemma reached_inv l0 es ds g :
  log_holds l0 es ds → reached (newGroupCommit l0 es) g → ∃ n f ds', group_inv g n f ds'.
Proof.
  intros Hl. induction 1 as [|g g' _ (n & f & ds1 & Hinv) Hstep]; [by eexists 0%nat, None, ds; apply inv_new|].
  destruct Hstep.
  - apply inv_join with (immediate := immediate) in Hinv as [f' ?]. by eauto.
  - by eapply inv_flush.
  - eexists n, f, ds1. by eapply inv_done.
  - eexists n, f, ds1. by eapply inv_cancelled.
  - eexists n, f, ds1. by eapply inv_append.
Qed.

(** ** A caller keeps its place and its mark *)








(** ** Nobody waits forever *)

Lemma flush_done_mono i k (g : group) b : is_Some (doneErr g !! b) → is_Some (doneErr (flush i k g) !! b).
Proof.
  intros H. unfold flush. repeat case_match; simpl; try done.
  apply lookup_insert_is_Some. destruct (decide (batch = b)); [by left|by right].
Qed.

Lemma flush_run_done_mono i ks (g : group) b : is_Some (doneErr g !! b) → is_Some (doneErr (flush_run i ks g) !! b).
Proof.
  revert g. induction ks as [|k ks IH]; intros g H; [done|]. apply IH. by apply flush_done_mono.
Qed.

(** The flusher's steps left until batch [b] is done. *)
Definition steps_left (f : option flusher) (b : nat) : nat :=
  match f with
  | Some (FSync (Some b')) => if decide (b' = b) then 2 else 7
  | Some (FClose b' _) => if decide (b' = b) then 1 else 6
  | Some FCheck => 5
  | Some FTimer => 4
  | Some FTake => 3
  | _ => 0
  end.

Definition queued (g : group) (f : option flusher) (b : nat) : Prop :=
  pending g = Some b ∨ in_flight f = Some b.

Lemma flusher_at g n x ds : group_inv g n (Some x) ds → flushers g !! n = Some x.
Proof.
  intros Hinv. rewrite (gi_flushers _ _ _ _ Hinv). simpl.
  apply list_lookup_middle. by rewrite length_replicate.
Qed.

Lemma flush_progress k g n f ds b :
  group_inv g n f ds → queued g f b →
  is_Some (doneErr (flush n k g) !! b) ∨
  ∃ f' ds', group_inv (flush n k g) n f' ds' ∧ queued (flush n k g) f' b ∧ (steps_left f' b < steps_left f b)%nat.
Proof.
  intros Hinv Hq. pose proof (gi_phase _ _ _ _ Hinv) as Hph. destruct f as [x|].
  2:{ simpl in Hph. destruct Hq as [?|?]; [congruence|done]. }
  pose proof (flusher_at _ _ _ _ Hinv) as Hx. unfold flush. rewrite Hx.
  destruct x as [| |[b'|]|b' ok| | |]; try done.
  - right. exists (Some FTake), ds. split_and!; [apply (inv_move _ _ FTimer); try done; by right|destruct Hq as [?|?]; [by left|done]|simpl; lia].
  - right. exists (Some (FSync (pending g))), ds. split_and!; [by apply inv_take|destruct Hq as [->|?]; [by right|done]|].
    destruct Hq as [->|?]; [|done]. simpl. rewrite decide_True by done. lia.
  - destruct (log_sync (syncOk k) (theLog g)) as [ok l'] eqn:Hs. right.
    exists (Some (FClose b' ok)), (if ok then handed g else ds). split_and!; [|done|simpl; case_decide; lia].
    apply (inv_sync _ _ _ _ _ ds); [done| |by destruct ok]. pose proof (gi_log _ _ _ _ Hinv).
    destruct ok; [by eapply log_sync_ok|by eapply log_sync_error].
  - destruct (gi_flight _ _ _ _ Hinv b' eq_refl) as [[_ ->] _]. simpl.
    destruct (decide (b' = b)) as [->|Hne]; [left; by rewrite lookup_insert_eq|]. right.
    exists (Some FCheck), ds. split_and!; [by apply inv_close| |simpl; lia].
    destruct Hq as [?|[= ?]]; [by left|done].
  - destruct Hq as [Hq|?]; [|done]. rewrite Hq. right. exists (Some FTimer), ds.
    split_and!; [|by left|simpl; lia]. apply (inv_move _ _ FCheck); try done; [by rewrite Hq|by left].
Qed.

Lemma flush_run_done ks g n f ds b :
  group_inv g n f ds → queued g f b → (steps_left f b <= length ks)%nat →
  is_Some (doneErr (flush_run n ks g) !! b).
Proof.
  revert g f ds. induction ks as [|k ks IH]; intros g f ds Hinv Hq Hle; simpl in Hle.
  - destruct (flush_progress (mkLuck false false) _ _ _ _ _ Hinv Hq) as [Hd|(f' & ds' & _ & _ & ?)]; [|lia].
    exfalso. assert (undone g b) as [_ Hn].
    { destruct Hq as [?|?]; [by eapply gi_pending|by eapply gi_flight]. }
    destruct f as [[| |[?|]|? ?| | |]|]; simpl in Hle; try case_decide; try lia;
      try (by destruct (gi_phase _ _ _ _ Hinv)).
    destruct Hq as [Hq|?]; [|done]. pose proof (gi_phase _ _ _ _ Hinv) as Hp. simpl in Hp. congruence.
  - simpl. destruct (flush_progress k _ _ _ _ _ Hinv Hq) as [Hd|(f' & ds' & Hinv' & Hq' & ?)].
    + by apply flush_run_done_mono.
    + eapply IH; [done..|]. lia.
Qed.

(** A caller of a batch that is not done has a flusher that will do it. *)
Lemma waiting_queued g n f ds i b m :
  group_inv g n f ds → callers g !! i = Some (Waiting b m) → is_Some (doneErr g !! b) ∨ queued g f b.
Proof.
  intros Hinv Hi. pose proof (Forall_lookup_1 _ _ _ _ (gi_callers _ _ _ _ Hinv) Hi) as (_ & _ & Hst).
  destruct (doneErr g !! b); [by left; eexists|]. right. destruct Hst as [?|[? _]]; [by left|by right].
Qed.

Lemma steps_left_bound f b : (steps_left f b <= 7)%nat.
Proof. destruct f as [[| |[?|]|? ?| | |]|]; simpl; try case_decide; lia. Qed.
End proofs.

(** ** The WAL is such a log *)

#[global] Instance wal_log : DurableLog (WAL * disk) Entry appendIO := {
  log_append io e l := let '(r, w', d') := Append io e l.1 l.2 in (is_ok r, (w', d'));
  log_sync io l := let '(r, w', d') := Sync io l.1 l.2 in (is_ok r, (w', d'));
  log_ready l e := roomy l.1 ∧ wf_entry e;
}.

Section wal.
(** The entries the process found when it last restarted on a running machine,
    if it did: a sync vouches for them without writing. *)
Context (found : option (list Entry)).

Definition vouched (ds : list Entry) : Prop := ∃ es0, found = Some es0 ∧ ds `prefix_of` es0.

Definition wal_survives (l : WAL * disk) (ds : list Entry) : Prop := (∃ es, survives l.2 es ds) ∨ vouched ds.

Definition wal_holds (l : WAL * disk) (es ds : list Entry) : Prop :=
  (∃ ess, live l.1 l.2 ess ∧ (clean l.1 l.2 ∨ found = Some es) ∧ mjoin ess = es ∧
     (ds `prefix_of` durable_entries l.1 l.2 ess ∨ vouched ds)) ∨
  (fatal l.1 = true ∧ wal_survives l ds).

Lemma wal_append_ok io e l es ds l' :
  wal_holds l es ds → log_ready l e → log_append io e l = (true, l') → wal_holds l' (es ++ [e]) ds.
Proof.
  destruct l as [w d]. simpl. intros Hh [Hroom He]. destruct (Append io e w d) as [[r w'] d'] eqn:Ha.
  destruct r as [[]|]; [|done]. intros [= <-]. destruct Hh as [(ess & Hl & Hc & <- & Hds)|[Hf _]]; simpl in *.
  - destruct (append_cases _ _ _ _ _ _ _ _ Hl Hroom He Ha) as (ess' & ? & ? & ? & ?).
    left. exists ess'. split; [done|]. split; [by left|]. split; [done|]. destruct Hds; [left; by etrans|by right].
  - unfold Append in Ha. by rewrite Hf in Ha.
Qed.

Lemma wal_append_error io e l es ds l' :
  wal_holds l es ds → log_ready l e → log_append io e l = (false, l') → wal_holds l' es ds.
Proof.
  destruct l as [w d]. simpl. intros Hh [Hroom He]. destruct (Append io e w d) as [[r w'] d'] eqn:Ha.
  destruct r as [|err]; [done|]. intros [= <-]. destruct Hh as [(ess & Hl & Hc & <- & Hds)|[Hf Hs]]; simpl in *.
  - destruct (append_cases _ _ _ _ _ _ _ _ Hl Hroom He Ha) as [(? & ? & ?)|(Hf & es' & _ & Hs & _)].
    + left. exists ess. split; [done|]. split; [destruct Hc; auto|]. split; [done|]. destruct Hds; [left; by etrans|by right].
    + right. split; [done|]. destruct Hds; [left; exists es'; by eapply survives_weaken|by right].
  - unfold Append in Ha. rewrite Hf in Ha. simplify_eq. by right.
Qed.

(** A sync on a handle with the [dirty] flag set, or a clean one. *)
Lemma wal_sync_clean io w d ess w' d' :
  live w d ess → clean w d → Sync io w d = (Ok tt, w', d') →
  live w' d' ess ∧ clean w' d' ∧ durable_entries w' d' ess = mjoin ess.
Proof.
  intros Hl Hc Hs. destruct (sync_cases _ _ _ _ _ _ Hl Hc Hs) as (Hl' & Hc' & _). split; [done|]. split; [done|].
  destruct (stored_snoc_inv _ _ _ _ (lv_stored _ _ _ Hl')) as (pre & active & ->). apply durable_entries_clean; try done.
  unfold Sync in Hs. rewrite (lv_fatal _ _ _ Hl) in Hs.
  destruct (current_live _ _ _ _ Hl) as (i & Hcur & _). rewrite Hcur in Hs.
  destruct (dirty w) eqn:Hd; simpl in Hs; [destruct io|]; by simplify_eq.
Qed.

Lemma wal_sync_ok io l es ds l' :
  wal_holds l es ds → log_sync io l = (true, l') → wal_holds l' es es.
Proof.
  destruct l as [w d]. simpl. intros Hh. destruct (Sync io w d) as [[r w'] d'] eqn:Hs.
  destruct r as [[]|]; [|done]. intros [= <-]. destruct Hh as [(ess & Hl & Hc & <- & Hds)|[Hf _]]; simpl in *.
  - left. exists ess. assert (clean w d ∨ dirty w = false ∧ found = Some (mjoin ess)) as [Hcl|[Hd Hf]].
    { destruct Hc as [?|?]; [by left|]. destruct (dirty w) eqn:Hd; [left; intros E; congruence|by right]. }
    + destruct (wal_sync_clean _ _ _ _ _ _ Hl Hcl Hs) as (? & ? & E). simpl. split; [done|]. split; [by left|].
      split; [done|]. left. by rewrite E.
    + assert (w' = w ∧ d' = d) as [-> ->] by (unfold Sync in Hs; rewrite Hd in Hs; repeat case_match; by simplify_eq/=).
      simpl. split; [done|]. split; [by right|]. split; [done|]. right. by exists (mjoin ess).
  - unfold Sync in Hs. by rewrite Hf in Hs.
Qed.

Lemma wal_sync_error io l es ds l' :
  wal_holds l es ds → log_sync io l = (false, l') → wal_holds l' es ds.
Proof.
  destruct l as [w d]. simpl. intros Hh. destruct (Sync io w d) as [[r w'] d'] eqn:Hs.
  destruct r as [|err]; [done|]. intros [= <-]. unfold Sync in Hs. by repeat case_match; simplify_eq.
Qed.

Lemma wal_durable l es ds : wal_holds l es ds → wal_survives l ds.
Proof.
  destruct l as [w d]. intros [(ess & Hl & _ & _ & [Hds|?])|[_ ?]]; [|by right|done]. left. exists (mjoin ess).
  eapply survives_weaken; [done|]. by apply live_survives.
Qed.

Lemma wal_survives_prefix l ds ds' : ds `prefix_of` ds' → wal_survives l ds' → wal_survives l ds.
Proof.
  intros Hp [[es Hs]|(es0 & Hf & ?)]; [left; exists es; by eapply survives_weaken|right; exists es0]. split; [done|]. by etrans.
Qed.

Definition wal_log_laws : DurableLogLaws (WAL * disk) Entry appendIO := {|
  log_holds := wal_holds;
  log_survives := wal_survives;
  log_append_ok := wal_append_ok;
  log_append_error := wal_append_error;
  log_sync_ok := wal_sync_ok;
  log_sync_error := wal_sync_error;
  log_durable := wal_durable;
  log_survives_prefix := wal_survives_prefix;
|}.
End wal.

(** What a run of the WAL found when it was reopened. *)
Definition found_at (reopened : bool) (es : list Entry) : option (list Entry) := if reopened then Some es else None.

Lemma wal_holds_run w d es b : log_run w d es b → wal_holds (found_at b es) (w, d) es [].
Proof.
  intros (ess & Hl & -> & Hc)%log_run_live. left. exists ess. split; [done|].
  split; [destruct b; [by right|by left; apply Hc]|]. split; [done|]. left. apply prefix_nil.
Qed.

Abbreviation wal_group := (groupCommit (WAL * disk) Entry).


Lemma wal_group_inv w0 d0 es0 b (g : wal_group) :
  log_run w0 d0 es0 b → reached (newGroupCommit (w0, d0) es0) g →
  ∃ n f ds, group_inv (DurableLogLaws0 := wal_log_laws (found_at b es0)) g n f ds.
Proof. intros Hrun. eapply (reached_inv (DurableLogLaws0 := wal_log_laws (found_at b es0))). by apply wal_holds_run. Qed.

(** ** The properties *)


(** One flusher at most, and it never crashes.  In every reachable state no
    flusher has dereferenced a nil batch or closed a batch twice, two flushers
    that are not finished are the same one (so WAL syncs are serialized), and a
    full pending batch in front of a flusher that sits on its timer has the wake
    signal set. *)
Theorem single_flusher w0 d0 es0 reopened (g : wal_group) :
  log_run w0 d0 es0 reopened → reached (newGroupCommit (w0, d0) es0) g →
  (∀ i, flushers g !! i ≠ Some FPanic) ∧
  (∀ i j x y, flushers g !! i = Some x → flushers g !! j = Some y → x ≠ FDone → y ≠ FDone → i = j) ∧
  (∀ i b n, flushers g !! i = Some FTimer → pending g = Some b → waiters g !! b = Some n →
    (recorderCommitMax <= n)%nat → wake g = true).
Proof.
  intros Hrun H. destruct (wal_group_inv _ _ _ _ _ Hrun H) as (n & f & ds & Hinv).
  pose proof (gi_phase _ _ _ _ Hinv) as Hph. rewrite (gi_flushers _ _ _ _ Hinv). split_and!.
  - intros i [?|[_ ->]]%flusher_lookup; done.
  - intros i j x y Hi Hj. apply flusher_lookup in Hi, Hj. naive_solver.
  - intros i b k [?|[-> ->]]%flusher_lookup; [done|]. intros Hp Hw Hle.
    by destruct (gi_full _ _ _ _ Hinv _ _ Hp Hw Hle).
Qed.

(** Every waiting call is answered.  Wherever the system is, there is a flusher
    whose next seven steps, alone and whatever the disk answers, finish the
    batch of a waiting call. *)
Theorem sync_answered w0 d0 es0 reopened (g : wal_group) i b m :
  log_run w0 d0 es0 reopened → reached (newGroupCommit (w0, d0) es0) g → callers g !! i = Some (Waiting b m) →
  ∃ j, ∀ ks, length ks = 7%nat → is_Some (doneErr (flush_run j ks g) !! b).
Proof.
  intros Hrun H Hi. destruct (wal_group_inv _ _ _ _ _ Hrun H) as (n & f & ds & Hinv).
  exists n. intros ks Hlen. destruct (waiting_queued _ _ _ _ _ _ _ Hinv Hi) as [Hd|Hq].
  - by apply flush_run_done_mono.
  - eapply flush_run_done; [done..|]. rewrite Hlen. apply steps_left_bound.
Qed.

(** ** Witnesses *)

(** One caller after an append, the flusher's four steps, and its return. *)
Definition demo_g1 : wal_group := append ioFine demo_entry (newGroupCommit opened []).
Definition demo_joined : wal_group := syncBatch false demo_g1.

Lemma demo_reached1 : reached (newGroupCommit (opened.1, opened.2) []) demo_g1.
Proof.
  eapply reached_step; [apply reached_start|]. apply step_append. split; [exact opened_roomy|exact demo_wf].
Qed.



Lemma single_flusher_witness :
  (∀ i, flushers demo_g1 !! i ≠ Some FPanic) ∧
  (∀ i j x y, flushers demo_g1 !! i = Some x → flushers demo_g1 !! j = Some y → x ≠ FDone → y ≠ FDone → i = j) ∧
  (∀ i b n, flushers demo_g1 !! i = Some FTimer → pending demo_g1 = Some b → waiters demo_g1 !! b = Some n →
    (recorderCommitMax <= n)%nat → wake demo_g1 = true).
Proof. apply (single_flusher opened.1 opened.2 [] false demo_g1); [exact opened_run|exact demo_reached1]. Defined.

Lemma sync_answered_witness :
  ∃ j, ∀ ks, length ks = 7%nat → is_Some (doneErr (flush_run j ks demo_joined) !! 0%nat).
Proof.
  apply (sync_answered opened.1 opened.2 [] false demo_joined 0 0 [demo_entry]).
  - exact opened_run.
  - eapply reached_step; [exact demo_reached1|constructor].
  - vm_compute. reflexivity.
Defined.
