(* ===== verification/Membership.v ===== *)
(** * Changing the voters (pkg/quepaxa/reconfiguration.go, core.go)

    A membership change is two control values in the decided log: a freeze,
    and sixteen slots later a terminal that activates the target or aborts.
    The file models the membership state of a replica with reconfiguration
    enabled, the validation of controls, their application as the contiguous
    prefix advances, and the admission guards of [record].

    The JSON payload of a control is read by a parameter.  The maps a Go loop
    ranges over have no order; where iterations can fail differently the model
    reports one error for the loop.  Slots are unbounded here except where the
    code itself guards the end of the range. *)

From stdpp Require Import gmap list sorting.
From S2P Require Import Prelude Bytes Protocol Cluster Proposer Schedule Node.

Record reconfigurationValue := mkControl {
  Terminal : bool;
  Abort_ : bool;
  Freeze : Slot;
  TerminalSlot : Slot;
  Target : Cluster;
  PrefixHash_ : bytes;
}.

Record reconfigurationState := mkReconfiguration {
  freeze : Slot;
  terminal : Slot;
  reconfigurationID : ValueHash;
  freezePrefix : bytes;
  target : Cluster;
  safe : gset NodeID;
}.

Record ConfigTransition := mkTransition { tFreeze : DecidedValue; tTerminal : DecidedValue }.

#[global] Instance ConfigTransition_eq_dec : EqDecision ConfigTransition.
Proof. solve_decision. Defined.

(** The certified transitions a verified recovery base retains. *)
Record MembershipRecord := mkMembership { Genesis : Cluster; Transitions : list ConfigTransition; baseAbort : option ConfigTransition }.

(** The leader orders a recovery base carries. *)
Record leaderBase := mkLeaderBase { lEpoch : Z; lOrder : list NodeID; lFollowingEpoch : Z; lFollowing : list NodeID }.

Record membership := mkMembershipState {
  mconfig : Cluster;
  menabled : bool;
  mhistory : list configEpoch;
  mfloor : Slot;
  mleaders : leaderBase;
  mtip : Slot;
  mdecided : gmap Slot DecidedValue;
  mprefixes : gmap Slot bytes;
  mdurable : gset Slot;
  mrecorders : gmap Slot ISR;
  mvalues : gmap ValueHash bytes;
  retiredIDs : gset NodeID;
  baseMembership : option MembershipRecord;
  membershipVersion : Z;
  lastAbort : option ConfigTransition;
  reconfiguration : option reconfigurationState;
  epochStart : gmap Z Z;
  timings : gmap NodeID leaderTiming;
}.

Inductive membershipError :=
| ErrTarget
| ErrDuplicateMember
| ErrMemberID
| ErrRetainedMember
| ErrAddedMember
| ErrVoterCount
| ErrControl
| ErrBoundary
| ErrFreeze
| ErrTerminal
| ErrBinding
| ErrAbort
| ErrScheduleHistory
| ErrAbortRevision
| ErrRecordConfig
| ErrNotVoter
| ErrPipeline
| ErrDrain
| ErrAdmission
| ErrPromise
| ErrPriorState.

(** ** Field updates *)

Definition set_history (m : membership) (h : list configEpoch) : membership :=
  mkMembershipState (mconfig m) (menabled m) h (mfloor m) (mleaders m) (mtip m) (mdecided m) (mprefixes m) (mdurable m)
    (mrecorders m) (mvalues m) (retiredIDs m) (baseMembership m) (membershipVersion m) (lastAbort m)
    (reconfiguration m) (epochStart m) (timings m).
Definition set_reconfiguration (m : membership) (r : option reconfigurationState) (a : option ConfigTransition) : membership :=
  mkMembershipState (mconfig m) (menabled m) (mhistory m) (mfloor m) (mleaders m) (mtip m) (mdecided m) (mprefixes m) (mdurable m) (mrecorders m) (mvalues m) (retiredIDs m)
    (baseMembership m) (membershipVersion m) a r (epochStart m) (timings m).
Definition set_retired (m : membership) (r : gset NodeID) : membership :=
  mkMembershipState (mconfig m) (menabled m) (mhistory m) (mfloor m) (mleaders m) (mtip m) (mdecided m) (mprefixes m) (mdurable m) (mrecorders m) (mvalues m) r
    (baseMembership m) (membershipVersion m) (lastAbort m) (reconfiguration m) (epochStart m) (timings m).
Definition set_clocks (m : membership) (e : gmap Z Z) (t : gmap NodeID leaderTiming) : membership :=
  mkMembershipState (mconfig m) (menabled m) (mhistory m) (mfloor m) (mleaders m) (mtip m) (mdecided m) (mprefixes m) (mdurable m) (mrecorders m) (mvalues m) (retiredIDs m)
    (baseMembership m) (membershipVersion m) (lastAbort m) (reconfiguration m) e t.
Definition set_version (m : membership) (v : Z) : membership :=
  mkMembershipState (mconfig m) (menabled m) (mhistory m) (mfloor m) (mleaders m) (mtip m) (mdecided m) (mprefixes m) (mdurable m) (mrecorders m) (mvalues m) (retiredIDs m)
    (baseMembership m) v (lastAbort m) (reconfiguration m) (epochStart m) (timings m).
Definition set_mtip (m : membership) (t : Slot) (p : gmap Slot bytes) : membership :=
  mkMembershipState (mconfig m) (menabled m) (mhistory m) (mfloor m) (mleaders m) t (mdecided m) p (mdurable m) (mrecorders m) (mvalues m) (retiredIDs m)
    (baseMembership m) (membershipVersion m) (lastAbort m) (reconfiguration m) (epochStart m) (timings m).

(** What the schedule functions read. *)
Definition sched (m : membership) : schedule :=
  mkSchedule (mconfig m) (menabled m) (mhistory m) (mfloor m) (dvValue <$> mdecided m)
    (lEpoch (mleaders m)) (lOrder (mleaders m)) (lFollowingEpoch (mleaders m)) (lFollowing (mleaders m)).

(** ** Targets *)

Definition is_hex (b : byte) : bool :=
  let n := byteZ b in ((48 <=? n) && (n <=? 57)) || ((97 <=? n) && (n <=? 102)).

(** Decodes to 32 bytes and re-encodes to itself: 64 lower-case digits. *)
Definition valid_wal_identity (w : bytes) : bool := Nat.eqb (length w) 64 && forallb is_hex w.

Definition validateReconfigurationTarget (current target : Cluster) (retired : gset NodeID)
    : option membershipError :=
  if negb (ConfigID target =? ConfigID current + 1) || bool_decide (Members target = []) then Some ErrTarget
  else
    let old := MemberSet current in
    let next := MemberSet target in
    if negb (Nat.eqb (size next) (length (Members target))) then Some ErrDuplicateMember
    else if existsb (λ m, bool_decide (ID m = [])) (Members target) then Some ErrMemberID
    else if bool_decide (map_Exists (λ id m, next !! id ≠ None ∧ next !! id ≠ Some m) old) then Some ErrRetainedMember
    else
      let added := filter (λ p, old !! p.1 = None) next in
      let removed := filter (λ p, next !! p.1 = None) old in
      if bool_decide (map_Exists (λ id m, id ∈ retired ∨ valid_wal_identity (WALIdentity m) = false) added)
      then Some ErrAddedMember
      else if negb (Nat.eqb (size added + size removed) 1) then Some ErrVoterCount
      else None.

Definition maxSlot : Slot := 2 ^ 64 - 1.

Definition validateReconfigurationSlots (s : schedule) (freeze terminal : Slot) : bool :=
  negb ((freeze =? 0) || (maxSlot - 17 <? freeze) || negb (terminal =? freeze + 16) ||
        isLeaderScheduleSlot s freeze || isLeaderScheduleSlot s terminal).

Definition reconfigurationAdds (current target : Cluster) : bool :=
  existsb (λ m, bool_decide (MemberSet current !! ID m = None)) (Members target).

(** The zero certificate a missing map entry yields. *)
Definition emptyCertificate : Decision := mkDecision 0 0 0 (mkProposal [] [] [] []) [].

Section membership.
(** The JSON object of a control after the magic; a schedule's JSON payload. *)
Context (decodeControl : bytes → option reconfigurationValue).
Context (decodeSchedule : bytes → option (list NodeID)) (sha256 : bytes → ValueHash).

(** [None]: not a control; [Some (Err _)]: a malformed one. *)
Definition decodeReconfiguration (value : bytes) : option (result membershipError reconfigurationValue) :=
  if negb (HasPrefix value reconfigurationMagic) then None
  else
    match decodeControl (drop (length reconfigurationMagic) value) with
    | None => Some (Err ErrControl)
    | Some c =>
        if Abort_ c && negb (Terminal c) then Some (Err ErrControl)
        else if (Freeze c =? 0) || negb (TerminalSlot c =? u64 (Freeze c + 16)) ||
                (ConfigID (Target c) =? 0) || bool_decide (Members (Target c) = [])
        then Some (Err ErrControl)
        else Some (Ok c)
    end.

(** ** Applying controls *)

Definition validateScheduledValue (m : membership) (slot : Slot) (value : bytes) : bool :=
  if isLeaderScheduleSlot (sched m) slot then
    match DecodeLeaderSchedule decodeSchedule value with
    | Some (Ok order) => validateLeaderSchedule (clusterForSlot (sched m) slot) order
    | _ => false
    end
  else true.

(** Every summary of a freeze's quorum names the freeze, or, inside a drain,
    the reconfiguration that is draining. *)
Definition validateFreezeBinding (m : membership) (d : Decision) : option membershipError :=
  match decodeReconfiguration (Value (DProposal d)) with
  | None => None
  | Some (Err e) => Some e
  | Some (Ok control) =>
      if Terminal control then None
      else
        let active := match reconfiguration m with
                      | Some st => if (freeze st <? DSlot d) && (DSlot d <? terminal st) then Some (reconfigurationID st) else None
                      | None => None
                      end in
        if forallb (λ s, bool_decide (SReconfigurationID s = Hash (DProposal d)) ||
                         bool_decide (active = Some (SReconfigurationID s))) (DSummaries d)
        then None else Some ErrBinding
  end.

Definition prefix_at (m : membership) (slot : Slot) : bytes := default zeroHash (mprefixes m !! slot).

Definition apply_freeze (m : membership) (d : Decision) (control : reconfigurationValue) : result membershipError membership :=
  let drain_noop := match reconfiguration m with
                    | Some st => (freeze st <? DSlot d) && (DSlot d <? terminal st)
                    | None => false
                    end in
  if drain_noop then Ok m
  else if negb (validateReconfigurationSlots (sched m) (Freeze control) (TerminalSlot control)) then Err ErrBoundary
  else if match reconfiguration m with Some _ => true | None => false end || negb (DSlot d =? Freeze control) ||
          negb (mtip m + 1 =? DSlot d) || negb (bool_decide (prefix_at m (mtip m) = PrefixHash_ control))
  then Err ErrFreeze
  else
    match validateReconfigurationTarget (clusterForSlot (sched m) (DSlot d)) (Target control) (retiredIDs m) with
    | Some e => Err e
    | None =>
        Ok (set_reconfiguration m
              (Some (mkReconfiguration (Freeze control) (TerminalSlot control) (Hash (DProposal d)) (PrefixHash_ control)
                 (Target control) (list_to_set (RecorderID <$> DSummaries d)))) (lastAbort m))
    end.

(** The IDs that leave with a transition. *)
Definition leaving (old target : Cluster) : gset NodeID :=
  dom (filter (λ p, MemberSet target !! p.1 = None) (MemberSet old)).

Definition apply_terminal (m : membership) (d : Decision) (control : reconfigurationValue) : result membershipError membership :=
  match reconfiguration m with
  | None => Err ErrTerminal
  | Some st =>
      if negb (DSlot d =? terminal st) || negb (Freeze control =? freeze st) ||
         negb (TerminalSlot control =? terminal st) || negb (bool_decide (PrefixHash_ control = prefix_at m (mtip m))) ||
         negb (sameCluster (Target control) (target st)) || negb (mtip m + 1 =? DSlot d)
      then Err ErrTerminal
      else if negb (forallb (λ s, bool_decide (SReconfigurationID s = reconfigurationID st)) (DSummaries d)) then Err ErrBinding
      else
        let old := clusterForSlot (sched m) (DSlot d) in
        if Abort_ control then
          if negb (reconfigurationAdds old (target st)) then Err ErrAbort
          else
            match mdecided m !! freeze st with
            | None => Err ErrAbort
            | Some f =>
                let certificate := match mdecided m !! DSlot d with Some v => dvCertificate v | None => emptyCertificate end in
                Ok (set_reconfiguration m None
                      (Some (mkTransition f (mkDecided (DSlot d) (Hash (DProposal d)) (Value (DProposal d)) certificate))))
            end
        else
          let m1 := set_retired m (retiredIDs m ∪ leaving old (target st)) in
          let m2 := set_history m1 (mhistory m1 ++ [mkEpoch (terminal st + 1) (target st)]) in
          Ok (set_clocks (set_reconfiguration m2 None None) ∅ ∅)
  end.

Definition applyReconfiguration (m : membership) (d : Decision) : result membershipError membership :=
  match decodeReconfiguration (Value (DProposal d)) with
  | None => Ok m
  | Some (Err e) => Err e
  | Some (Ok control) =>
      if negb (menabled m) then Err ErrControl
      else if Terminal control then apply_terminal m d control else apply_freeze m d control
  end.

(** ** Advancing the contiguous prefix *)

Definition observeLeaderEpoch (now : Z) (m : membership) (slot : Slot) : membership :=
  let position := if menabled m then slot - configEpochStart (sched m) slot + 1 else slot in
  if negb (position mod leaderEpochSize =? 0) then m
  else
    let epoch := leaderEpochKey (sched m) slot in
    match epochStart m !! epoch with
    | None => m
    | Some started =>
        let timings' :=
          match leaderOrder decodeSchedule (sched m) slot with
          | Ok (leader :: _) =>
              let timing := default (mkTiming 0 0) (timings m !! leader) in
              let duration := now - started in
              let avg := if samples timing =? 0 then duration else Z.quot (average timing + duration) 2 in
              <[leader := mkTiming avg (samples timing + 1)]> (timings m)
          | _ => timings m
          end in
        set_clocks m (delete epoch (epochStart m)) timings'
    end.

(** One round of the loop: the control is applied, then the tip moves. *)
Definition advance_once (now : Z) (m : membership) (v : DecidedValue) : result membershipError membership :=
  let slot := mtip m + 1 in
  if negb (validateScheduledValue m slot (dvValue v)) then Err ErrScheduleHistory
  else
    let applied :=
      if HasPrefix (dvValue v) reconfigurationMagic then
        let d := certificate_decision v in
        match validateFreezeBinding m d with
        | Some e => Err e
        | None =>
            let! m1 := applyReconfiguration m d in
            match decodeReconfiguration (dvValue v) with
            | Some (Ok control) => Ok (if Terminal control then set_version m1 (membershipVersion m1 + 1) else m1)
            | _ => Ok m1
            end
        end
      else Ok m in
    let! m1 := applied in
    let m2 := set_mtip m1 slot (<[slot := AdvancePrefixHash sha256 (prefix_at m1 (mtip m1)) slot (dvHash v)]> (mprefixes m1)) in
    Ok (observeLeaderEpoch now m2 slot).

(** An error leaves the prefix advanced so far. *)
Fixpoint advance_tip (fuel : nat) (now : Z) (m : membership) : option membershipError * membership :=
  match fuel with
  | O => (None, m)
  | S fuel' =>
      match mdecided m !! (mtip m + 1) with
      | None => (None, m)
      | Some v =>
          match advance_once now m v with
          | Err e => (Some e, m)
          | Ok m1 => advance_tip fuel' now m1
          end
      end
  end.
Definition advanceReconfigurationTip (now : Z) (m : membership) : option membershipError * membership :=
  advance_tip (size (mdecided m)) now m.

(** ** Queries *)

Definition highestKnownSlot (m : membership) : Slot :=
  highest (mrecorders m) (highest (mdecided m) (Z.max (mfloor m) (mtip m))).

Definition epochTerminalDurable (m : membership) (e : configEpoch) : bool :=
  let t := start e - 1 in
  bool_decide (t ∈ mdurable m) ||
  ((t <=? mfloor m) &&
   match baseMembership m with
   | Some base => existsb (λ tr, dvSlot (tTerminal tr) =? t) (Transitions base)
   | None => false
   end).

(** The identity of this process: its ID, WAL identity and mode. *)
Record processIdentity := mkProcess { pNodeID : NodeID; pWalIdentity : bytes; pLearner : bool; pObserver : bool }.

Definition voterForCluster (me : processIdentity) (m : membership) (c : Cluster) : bool :=
  if pObserver me then false
  else if existsb (λ e, sameCluster (cluster e) c && (1 <? start e) && negb (epochTerminalDurable m e))
            (mhistory m) then false
  else
    match list_find (λ x, ID x = pNodeID me) (Members c) with
    | Some (_, x) =>
        if negb (bool_decide (WALIdentity x = [])) then bool_decide (WALIdentity x = pWalIdentity me)
        else negb (pLearner me)
    | None => false
    end.

Definition CanParticipateReadIndex (me : processIdentity) (m : membership) : bool :=
  voterForCluster me m (clusterForSlot (sched m) (mtip m + 1)) &&
  match reconfiguration m with None => true | Some _ => false end.

Definition reconfigurationRequest (m : membership) (slot : Slot) (c : Cluster) : Z * ValueHash :=
  match reconfiguration m with
  | Some st => if (freeze st <? slot) && (slot <=? terminal st) then (ConfigID c, reconfigurationID st)
               else (ConfigID c, zeroHash)
  | None => (ConfigID c, zeroHash)
  end.

Definition abortRevision (m : membership) : result membershipError Slot :=
  match lastAbort m with
  | None => Ok 0
  | Some a =>
      let t := dvSlot (tTerminal a) in
      if t <=? mfloor m then
        match baseMembership m with
        | Some base => if bool_decide (baseAbort base = Some a) then Ok t else Err ErrAbortRevision
        | None => Err ErrAbortRevision
        end
      else if bool_decide (dvSlot (tFreeze a) ∈ mdurable m) && bool_decide (t ∈ mdurable m) then Ok t
      else Err ErrAbortRevision
  end.

Definition request_value (m : membership) (req : RecordRequest) : bytes :=
  if bool_decide (Value (RProposal req) = []) then default [] (mvalues m !! Hash (RProposal req))
  else Value (RProposal req).

Definition RecordCatchUpThrough (m : membership) (req : RecordRequest) : Slot :=
  if negb (menabled m) || (RSlot req =? 0) then 0
  else
    let at_terminal := match reconfiguration m with Some st => RSlot req =? terminal st | None => false end in
    let control_terminal := match decodeReconfiguration (request_value m req) with
                            | Some (Ok control) => Terminal control
                            | _ => false
                            end in
    if at_terminal || control_terminal then RSlot req - 1
    else if 16 <? RSlot req then RSlot req - 16 else 0.

(** ** The guards of [record] *)

Section guards.
Context (me : processIdentity).
(** The owner's admission check of an added learner, if it installed one. *)
Context (admission : option (Cluster → Slot → bytes → bool)).

(** The control matches the pending reconfiguration at the end of its drain. *)
Definition terminal_matches (m : membership) (slot : Slot) (control : reconfigurationValue) : bool :=
  match reconfiguration m with
  | None => false
  | Some st =>
      (slot =? terminal st) && (mtip m =? terminal st - 1) && (Freeze control =? freeze st) &&
      (TerminalSlot control =? terminal st) && bool_decide (PrefixHash_ control = prefix_at m (mtip m)) &&
      sameCluster (Target control) (target st)
  end.

Definition outside_drain (m : membership) (req : RecordRequest) : bool :=
  match reconfiguration m with
  | None => false
  | Some st => (terminal st <? RSlot req) ||
               ((freeze st <? RSlot req) && negb (bool_decide (RReconfigurationID req = reconfigurationID st)))
  end.

Definition at_terminal (m : membership) (slot : Slot) : bool :=
  match reconfiguration m with Some st => slot =? terminal st | None => false end.

(** The check of an undecided terminal control, before anything is staged. *)
Definition admit_terminal (m : membership) (req : RecordRequest) (control : reconfigurationValue) : option membershipError :=
  match reconfiguration m with
  | None => Some ErrTerminal
  | Some st =>
      let c := clusterForSlot (sched m) (RSlot req) in
      if negb (terminal_matches m (RSlot req) control) then Some ErrTerminal
      else if Abort_ control && negb (reconfigurationAdds c (target st)) then Some ErrAbort
      else if negb (Abort_ control) && reconfigurationAdds c (target st) then
        match admission with
        | None => Some ErrAdmission
        | Some admit_ => if admit_ (target st) (terminal st - 1) (prefix_at m (mtip m)) then None else Some ErrAdmission
        end
      else None
  end.

Definition admit_record (m : membership) (req : RecordRequest) : option membershipError :=
  let c := clusterForSlot (sched m) (RSlot req) in
  if negb (RConfigID req =? ConfigID c) then Some ErrRecordConfig
  else if negb (voterForCluster me m c) then Some ErrNotVoter
  else if mtip m + 16 <? RSlot req then Some ErrPipeline
  else if outside_drain m req then Some ErrDrain
  else
    let undecided := bool_decide (mdecided m !! RSlot req = None) in
    match decodeReconfiguration (request_value m req) with
    | Some (Err e) => Some e
    | Some (Ok control) =>
        if Terminal control && undecided then admit_terminal m req control
        else if at_terminal m (RSlot req) then Some ErrDrain else None
    | None => if at_terminal m (RSlot req) then Some ErrDrain else None
    end.

(** This recorder's own summary in the certificate binds it to the freeze. *)
Definition promised (m : membership) (req : RecordRequest) : bool :=
  match mdecided m !! RSlot req with
  | Some v =>
      bool_decide (dvHash v = Hash (RProposal req)) &&
      existsb (λ s, bool_decide (RecorderID s = pNodeID me) && bool_decide (SReconfigurationID s = dvHash v))
        (DSummaries (dvCertificate v))
  | None => false
  end.

Definition recheck_freeze (m : membership) (req : RecordRequest) (control : reconfigurationValue) : option membershipError :=
  let at_freeze := match reconfiguration m with Some st => RSlot req =? freeze st | None => true end in
  if at_freeze && (TerminalSlot control <=? highestKnownSlot m) && negb (promised m req) then Some ErrPromise
  else
    match reconfiguration m with
    | Some _ => None
    | None =>
        if negb (validateReconfigurationSlots (sched m) (Freeze control) (TerminalSlot control)) && (RSlot req =? mtip m + 1)
        then Some ErrBoundary
        else if negb (Freeze control =? RSlot req) then Some ErrFreeze
        else
          match validateReconfigurationTarget (clusterForSlot (sched m) (RSlot req)) (Target control) (retiredIDs m) with
          | Some e => Some e
          | None =>
              if (RSlot req - 1 <=? mtip m) && negb (bool_decide (prefix_at m (RSlot req - 1) = PrefixHash_ control))
              then Some ErrFreeze else None
          end
    end.

Definition recheck_terminal (m : membership) (req : RecordRequest) (control : reconfigurationValue) : option membershipError :=
  match reconfiguration m with
  | None => None
  | Some _ =>
      let prior := default emptyISR (mrecorders m !! RSlot req) in
      let other := λ p : option Proposal, match p with
                                          | Some q => negb (bool_decide (Hash q = Hash (RProposal req)))
                                          | None => false
                                          end in
      if other (FirstCurrent prior) || other (AggregateCurrent prior) || other (AggregatePrior prior) then Some ErrPriorState
      else if negb (terminal_matches m (RSlot req) control) then Some ErrTerminal
      else None
  end.

(** The checks repeated under the slot's lock, before the register moves. *)
Definition recheck_record (m : membership) (req : RecordRequest) : option membershipError :=
  let c := clusterForSlot (sched m) (RSlot req) in
  if negb (RConfigID req =? ConfigID c) then Some ErrRecordConfig
  else if negb (voterForCluster me m c) then Some ErrNotVoter
  else if mtip m + 16 <? RSlot req then Some ErrPipeline
  else
    let undecided := bool_decide (mdecided m !! RSlot req = None) in
    let controls :=
      match decodeReconfiguration (default [] (mvalues m !! Hash (RProposal req))) with
      | Some (Err e) => Some e
      | Some (Ok control) =>
          if negb (Terminal control) then recheck_freeze m req control
          else if undecided then recheck_terminal m req control else None
      | None => None
      end in
    match controls with
    | Some e => Some e
    | None =>
        match reconfiguration m with
        | None => None
        | Some st =>
            if outside_drain m req then Some ErrDrain
            else
              match decodeReconfiguration (request_value m req) with
              | Some (Err e) => Some e
              | Some (Ok control) => if at_terminal m (RSlot req) && negb (Terminal control) then Some ErrDrain else None
              | None => if at_terminal m (RSlot req) then Some ErrDrain else None
              end
        end
    end.
End guards.
End membership.
