(* ===== verification/MembershipProofs.v ===== *)
(** * Safety of membership changes

    The configurations a replica activates form a chain of single-voter
    changes: quorums of neighbours intersect, a voter that left never returns,
    and a recorder only votes under the configuration that stays in charge of
    the slot. *)

From stdpp Require Import gmap list sorting relations.
From S2P Require Import Prelude Bytes Protocol Cluster Proposer Schedule ScheduleProofs Node Membership.

(** ** Single-voter changes *)

Definition voters (c : Cluster) : gset NodeID := dom (MemberSet c).

Lemma elem_of_voters c id : id ∈ voters c ↔ id ∈ member_ids c.
Proof. unfold voters. by rewrite elem_of_dom, MemberSet_lookup. Qed.

Lemma size_voters c : NoDup (member_ids c) → size (voters c) = length (Members c).
Proof.
  intros Hnd. assert (voters c = list_to_set (member_ids c)) as ->.
  { apply set_eq. intros id. by rewrite elem_of_voters, elem_of_list_to_set. }
  rewrite size_list_to_set by done. unfold member_ids. by rewrite length_fmap.
Qed.

Record voter_change (a b : Cluster) : Prop := {
  vc_id : ConfigID b = ConfigID a + 1;
  vc_wf : wf_cluster b;
  vc_one : (size (voters b ∖ voters a) + size (voters a ∖ voters b) = 1)%nat;
}.

Lemma size_set_le (l : list NodeID) : (size (list_to_set l : gset NodeID) <= length l)%nat.
Proof.
  induction l as [|x l IH]; simpl; [done|].
  pose proof (size_union_alt {[x]} (list_to_set l : gset NodeID)) as H. rewrite size_singleton in H.
  pose proof (subseteq_size (list_to_set l ∖ {[x]}) (list_to_set l : gset NodeID) (subseteq_difference_l _ _ _ (reflexivity _))). lia.
Qed.

Lemma union_split (x y : gset NodeID) : x ∪ y = x ∪ y ∖ x.
Proof.
  apply set_eq. intros z. rewrite !elem_of_union, elem_of_difference. destruct (decide (z ∈ x)); naive_solver.
Qed.

Lemma MemberSet_size_NoDup c : size (MemberSet c) = length (Members c) → NoDup (member_ids c).
Proof.
  intros Hsz. assert (size (list_to_set (member_ids c) : gset NodeID) = length (member_ids c)) as Hlen.
  { unfold member_ids at 2. rewrite length_fmap, <-Hsz, <-size_dom. f_equal. apply set_eq. intros id.
    by rewrite elem_of_list_to_set, elem_of_dom, MemberSet_lookup. }
  revert Hlen. generalize (member_ids c). clear. induction l as [|x l IH]; intros Hlen; [constructor|].
  simpl in Hlen. pose proof (size_set_le l) as Hle. destruct (decide (x ∈ l)) as [Hin|Hni].
  - exfalso. rewrite subseteq_union_1_L in Hlen; [|set_solver]. lia.
  - constructor; [done|]. apply IH. rewrite size_union in Hlen by set_solver. rewrite size_singleton in Hlen. lia.
Qed.

Lemma dom_filter_missing (m1 m2 : gmap NodeID Member) :
  dom (filter (λ p, m2 !! p.1 = None) m1) = dom m1 ∖ dom m2.
Proof.
  apply set_eq. intros id. rewrite elem_of_difference, not_elem_of_dom, !elem_of_dom. split.
  - intros [x [Hx Hn]%map_lookup_filter_Some]. simpl in Hn. split; [by exists x|done].
  - intros [[x Hx] Hn]. exists x. by apply map_lookup_filter_Some.
Qed.

Lemma target_change current target retired :
  validateReconfigurationTarget current target retired = None →
  voter_change current target ∧ (voters target ∖ voters current) ## retired.
Proof.
  unfold validateReconfigurationTarget. destruct (_ || _) eqn:E1; [done|]. bool_hyps.
  destruct (negb (Nat.eqb _ _)) eqn:E2; [done|]. apply negb_false_iff, Nat.eqb_eq in E2.
  destruct (existsb _ _); [done|]. case_bool_decide as E3; [done|]. case_bool_decide as E4; [done|].
  destruct (negb (Nat.eqb _ _)) eqn:E5; [done|]. intros _. apply negb_false_iff, Nat.eqb_eq in E5.
  rewrite <-!size_dom, !dom_filter_missing in E5. split; [split; [done| |done]|].
  - split; [by apply MemberSet_size_NoDup|done].
  - intros id Hid Hr. apply E4. unfold voters in Hid. rewrite <-dom_filter_missing, elem_of_dom in Hid. destruct Hid as [x Hx].
    exists id, x. auto.
Qed.

(** Quorums of neighbouring configurations share a voter. *)
Lemma adjacent_quorum_intersect a b (l k : list NodeID) :
  wf_cluster a → voter_change a b → NoDup l → NoDup k → l ⊆ member_ids a → k ⊆ member_ids b →
  QuorumSize a <= Z.of_nat (length l) → QuorumSize b <= Z.of_nat (length k) → ∃ r, r ∈ l ∧ r ∈ k.
Proof.
  intros [Ha _] [_ [Hb _] Hone] Hl Hk Hla Hkb Hql Hqk.
  apply (majority_intersect (elements (voters a ∪ voters b))); [done|done| | |].
  - intros x Hx. apply elem_of_elements, elem_of_union_l, elem_of_voters. by apply Hla.
  - intros x Hx. apply elem_of_elements, elem_of_union_r, elem_of_voters. by apply Hkb.
  - change (length (elements ?X)) with (size X).
    assert (size (voters a ∪ voters b) = size (voters a) + size (voters b ∖ voters a))%nat as E1
      by (rewrite <-size_union, <-union_split by set_solver; done).
    assert (size (voters a ∪ voters b) = size (voters b) + size (voters a ∖ voters b))%nat as E2
      by (rewrite (union_comm_L (voters a)), <-size_union, <-union_split by set_solver; done).
    rewrite size_voters in E1, E2 by done. unfold QuorumSize in *.
    pose proof (Z.div_mod (Z.of_nat (length (Members a))) 2). pose proof (Z.mod_pos_bound (Z.of_nat (length (Members a))) 2).
    pose proof (Z.div_mod (Z.of_nat (length (Members b))) 2). pose proof (Z.mod_pos_bound (Z.of_nat (length (Members b))) 2).
    lia.
Qed.

(** ** The chain of configurations *)

Record history_ok (h : list configEpoch) (retired : gset NodeID) : Prop := {
  ho_wf i e : h !! i = Some e → wf_cluster (cluster e);
  ho_link i e e' : h !! i = Some e → h !! S i = Some e' → start e + 17 <= start e' ∧ voter_change (cluster e) (cluster e');
  ho_retired e id : last h = Some e → id ∈ retired → id ∉ voters (cluster e);
  ho_left i j e e' id : (i < j)%nat → h !! i = Some e → h !! j = Some e' →
    id ∈ voters (cluster e) → id ∉ voters (cluster e') → id ∈ retired;
  ho_return i j k e e' e'' id : (i < j)%nat → (j < k)%nat → h !! i = Some e → h !! j = Some e' → h !! k = Some e'' →
    id ∈ voters (cluster e) → id ∉ voters (cluster e') → id ∉ voters (cluster e'');
}.

Lemma last_snoc_lookup (h : list configEpoch) e : last h = Some e → ∃ h0, h = h0 ++ [e].
Proof. intros H. apply last_Some in H. done. Qed.

Lemma leaving_voters old target : leaving old target = voters old ∖ voters target.
Proof. unfold leaving, voters. apply dom_filter_missing. Qed.

Lemma history_snoc h r e s c :
  history_ok h r → last h = Some e → voter_change (cluster e) c → (voters c ∖ voters (cluster e)) ## r →
  start e + 17 <= s → history_ok (h ++ [mkEpoch s c]) (r ∪ leaving (cluster e) c).
Proof.
  intros [H1 H2 H3 H4 H5] Hl Hc Hr Hs. destruct (last_snoc_lookup _ _ Hl) as [h0 Hh].
  assert (h !! length h0 = Some e) as He by (rewrite Hh; by apply list_lookup_middle).
  assert (∀ i x, (h ++ [mkEpoch s c]) !! i = Some x → h !! i = Some x ∨ (i = length h ∧ x = mkEpoch s c)) as Hcase.
  { intros i x [[_ Hx]|[-> <-]]%lookup_snoc_Some; [by left|by right]. }
  assert (∀ i x, h !! i = Some x → (i < length h)%nat) as Hlt by (intros i x Hx; by apply lookup_lt_Some in Hx).
  assert (length h = S (length h0)) as Hlen by (rewrite Hh, length_app; simpl; lia).
  assert (∀ id, id ∈ r → id ∉ voters c) as Hrc.
  { intros id Hid Hin. apply (Hr id); [|done]. apply elem_of_difference. split; [done|]. by apply (H3 e). }
  rewrite leaving_voters. split.
  - intros i x [Hx|[_ ->]]%Hcase; [by apply (H1 i)|apply Hc].
  - intros i x x' [Hx|[-> _]]%Hcase [Hx'|[Hi ->]]%Hcase; [by apply (H2 i)| |apply Hlt in Hx'; lia|lia].
    assert (i = length h0) as -> by lia. rewrite He in Hx. by injection Hx as <-.
  - intros x id Hx. rewrite last_snoc in Hx. injection Hx as <-. simpl. set_solver.
  - intros i j x x' id Hij [Hx|[-> _]]%Hcase [Hx'|[-> ->]]%Hcase Hin Hni; [| |apply Hlt in Hx'; lia|lia].
    + apply elem_of_union_l. by apply (H4 i j x x').
    + destruct (decide (id ∈ voters (cluster e))); [by apply elem_of_union_r, elem_of_difference|].
      apply elem_of_union_l. destruct (decide (i = length h0)) as [->|]; [congruence|].
      apply (H4 i (length h0) x e); [apply Hlt in Hx; lia|done..].
  - intros i j k x x' x'' id Hij Hjk Hx Hx' Hx'' Hin Hni.
    assert (k < S (length h))%nat as Hk by (apply lookup_lt_Some in Hx''; rewrite length_app in Hx''; simpl in Hx''; lia).
    rewrite lookup_app_l in Hx by lia. rewrite lookup_app_l in Hx' by lia.
    apply Hcase in Hx'' as [Hx''|[-> ->]]; [by apply (H5 i j k x x' x'')|]. by apply Hrc, (H4 i j x x').
Qed.

(** Starts ascend along the chain. *)
Lemma history_starts h r i j e e' :
  history_ok h r → (i <= j)%nat → h !! i = Some e → h !! j = Some e' → start e <= start e'.
Proof.
  intros Hok Hij Hi. revert e'. induction Hij as [|j Hij IH]; intros e' Hj; [rewrite Hi in Hj; injection Hj as <-; lia|].
  destruct (lookup_lt_is_Some_2 h j) as [x Hx]; [apply lookup_lt_Some in Hj; lia|].
  specialize (IH _ Hx). destruct (ho_link _ _ Hok _ _ _ Hx Hj) as [? _]. lia.
Qed.

Lemma cluster_at_all h slot c e : Forall (λ x, start x <= slot) h → last h = Some e → cluster_at h slot c = cluster e.
Proof.
  intros Hall. revert c. induction Hall as [|x h Hx Hall IH]; intros c Hl; [done|]. simpl.
  destruct (Z.ltb_spec slot (start x)); [lia|]. destruct h as [|y h]; [by injection Hl as <-|]. by apply IH.
Qed.

Lemma cluster_at_last h r slot c e : history_ok h r → last h = Some e → start e <= slot → cluster_at h slot c = cluster e.
Proof.
  intros Hok Hl Hs. apply cluster_at_all; [|done]. destruct (last_snoc_lookup _ _ Hl) as [h0 Hh].
  apply Forall_lookup. intros i x Hx. transitivity (start e); [|done].
  apply (history_starts h r i (length h0)); [done| |done|rewrite Hh; by apply list_lookup_middle].
  apply lookup_lt_Some in Hx. rewrite Hh, length_app in Hx. simpl in Hx. lia.
Qed.

Lemma cluster_at_before h es slot c : Forall (λ x, slot < start x) es → cluster_at (h ++ es) slot c = cluster_at h slot c.
Proof.
  intros Hall. revert c. induction h as [|x h IH]; intros c; simpl; [|destruct (slot <? start x); [done|apply IH]].
  destruct Hall as [|x es Hx]; [done|]. simpl. by destruct (Z.ltb_spec slot (start x)); [|lia].
Qed.

(** ** The invariant of the membership state *)

Definition last_epoch (m : membership) (e : configEpoch) : Prop := last (mhistory m) = Some e ∧ start e <= mtip m + 1.

Record pending_ok (m : membership) (st : reconfigurationState) : Prop := {
  po_drain : terminal st = freeze st + 16;
  po_frozen : freeze st <= mtip m;
  po_target e : last_epoch m e →
    start e <= freeze st ∧ voter_change (cluster e) (target st) ∧ (voters (target st) ∖ voters (cluster e)) ## retiredIDs m;
}.

Record memb_ok (m : membership) : Prop := {
  mo_history : history_ok (mhistory m) (retiredIDs m);
  mo_last : ∃ e, last_epoch m e;
  mo_pending st : reconfiguration m = Some st → pending_ok m st;
}.

(** The slots whose configuration can no longer change. *)
Definition settled (m : membership) : Slot :=
  match reconfiguration m with Some st => terminal st | None => mtip m + 17 end.

(** What the chain of configurations depends on. *)
Definition same_core (m m' : membership) : Prop :=
  mconfig m' = mconfig m ∧ mhistory m' = mhistory m ∧ mtip m' = mtip m ∧ retiredIDs m' = retiredIDs m ∧
  reconfiguration m' = reconfiguration m.

Lemma core_ok m m' : same_core m m' → memb_ok m → memb_ok m'.
Proof.
  intros (_ & E1 & E2 & E3 & E4) [H1 H2 H3]. assert (∀ e, last_epoch m' e ↔ last_epoch m e) as He
    by (intros e; unfold last_epoch; by rewrite E1, E2).
  split; rewrite ?E1, ?E3, ?E4; [done| |].
  - destruct H2 as [e ?]. exists e. by apply He.
  - intros st [P1 P2 P3]%H3. split; [done|by rewrite E2|]. intros e ?%He. rewrite E3. by apply P3.
Qed.

Lemma cluster_tip m e slot : memb_ok m → last_epoch m e → start e <= slot → clusterForSlot (sched m) slot = cluster e.
Proof. intros Hok [Hl _] Hs. apply (cluster_at_last _ (retiredIDs m)); [apply Hok|done|done]. Qed.

(** The effect of applying a decided value at the next slot. *)
Inductive applied (m : membership) : membership → Prop :=
| applied_none m' : same_core m m' → applied m m'
| applied_freeze m' st :
    reconfiguration m = None → freeze st = mtip m + 1 → terminal st = freeze st + 16 →
    validateReconfigurationTarget (clusterForSlot (sched m) (mtip m + 1)) (target st) (retiredIDs m) = None →
    same_core (set_reconfiguration m (Some st) (lastAbort m)) m' → applied m m'
| applied_abort m' st :
    reconfiguration m = Some st → mtip m + 1 = terminal st →
    same_core (set_reconfiguration m None None) m' → applied m m'
| applied_activate m' st :
    reconfiguration m = Some st → mtip m + 1 = terminal st →
    same_core (set_reconfiguration (set_retired (set_history m (mhistory m ++ [mkEpoch (terminal st + 1) (target st)]))
      (retiredIDs m ∪ leaving (clusterForSlot (sched m) (terminal st)) (target st))) None None) m' → applied m m'.

(** The history grows only beyond the settled slots. *)
Record grows (m m' : membership) : Prop := {
  gr_config : mconfig m' = mconfig m;
  gr_settled : settled m <= settled m';
  gr_history : ∃ es, mhistory m' = mhistory m ++ es ∧ Forall (λ e, settled m < start e) es;
}.

#[global] Instance grows_preorder : PreOrder grows.
Proof.
  split.
  - intros m. split; [done|done|]. exists []. by rewrite app_nil_r.
  - intros x y z [C1 S1 (e1 & E1 & F1)] [C2 S2 (e2 & E2 & F2)]. split; [congruence|lia|].
    exists (e1 ++ e2). split; [by rewrite E2, E1, app_assoc|]. apply Forall_app. split; [done|].
    eapply Forall_impl; [exact F2|]. simpl. lia.
Qed.

Lemma grows_cluster m m' slot : grows m m' → slot <= settled m → clusterForSlot (sched m') slot = clusterForSlot (sched m) slot.
Proof.
  intros [C _ (es & E & F)] Hs. unfold clusterForSlot. simpl. rewrite C, E. apply cluster_at_before.
  eapply Forall_impl; [exact F|]. simpl. lia.
Qed.

Section membership.
Context (decodeControl : bytes → option reconfigurationValue).
Context (decodeSchedule : bytes → option (list NodeID)) (sha256 : bytes → ValueHash).

Lemma apply_freeze_applied m d control m' : apply_freeze m d control = Ok m' → applied m m'.
Proof.
  unfold apply_freeze. destruct (reconfiguration m) as [st|] eqn:Hr.
  - destruct (_ && _); [intros <-%Ok_inj; by apply applied_none|]. by destruct (negb _).
  - destruct (negb (validateReconfigurationSlots _ _ _)) eqn:E1; [done|]. destruct (_ || _) eqn:E2; [done|].
    destruct (validateReconfigurationTarget _ _ _) eqn:Hv; [done|]. intros <-%Ok_inj.
    unfold validateReconfigurationSlots in E1. bool_hyps.
    apply (applied_freeze _ _ (mkReconfiguration (Freeze control) (TerminalSlot control) (Hash (DProposal d))
      (PrefixHash_ control) (Target control) (list_to_set (RecorderID <$> DSummaries d)))); simpl; [done|lia|lia| |by split_and!].
    by replace (mtip m + 1) with (DSlot d) by lia.
Qed.

Lemma apply_terminal_applied m d control m' : apply_terminal m d control = Ok m' → applied m m'.
Proof.
  unfold apply_terminal. destruct (reconfiguration m) as [st|] eqn:Hr; [|done]. destruct (_ || _) eqn:E1; [done|].
  destruct (negb (forallb _ _)); [done|]. bool_hyps. destruct (Abort_ control).
  - destruct (negb _); [done|]. destruct (mdecided m !! freeze st); [|done]. intros <-%Ok_inj.
    eapply applied_abort; [done|lia|by split_and!].
  - intros <-%Ok_inj. eapply applied_activate; [done|lia|]. replace (terminal st) with (DSlot d) by lia. by split_and!.
Qed.

Lemma applyReconfiguration_applied m d m' : applyReconfiguration decodeControl m d = Ok m' → applied m m'.
Proof.
  unfold applyReconfiguration. destruct (decodeReconfiguration _ _) as [[control|e]|]; [|done|].
  - destruct (negb _); [done|]. destruct (Terminal control); [apply apply_terminal_applied|apply apply_freeze_applied].
  - intros <-%Ok_inj. by apply applied_none.
Qed.

Lemma applied_core m m1 m2 : applied m m1 → same_core m1 m2 → applied m m2.
Proof.
  assert (∀ a b c, same_core a b → same_core b c → same_core a c) as Htrans.
  { intros a b c (? & ? & ? & ? & ?) (? & ? & ? & ? & ?). split_and!; congruence. }
  destruct 1; intros; [eapply applied_none|eapply applied_freeze|eapply applied_abort|eapply applied_activate]; eauto.
Qed.

(** A round of the loop applies the control, then moves the tip by one. *)
Lemma advance_once_applied now m v m' :
  advance_once decodeControl decodeSchedule sha256 now m v = Ok m' →
  ∃ m1, applied m m1 ∧ mconfig m' = mconfig m1 ∧ mhistory m' = mhistory m1 ∧ retiredIDs m' = retiredIDs m1 ∧
    reconfiguration m' = reconfiguration m1 ∧ mtip m' = mtip m + 1.
Proof.
  unfold advance_once. destruct (negb _); [done|].
  assert (∀ m2 slot, same_core m2 (observeLeaderEpoch decodeSchedule now m2 slot)) as Hobs.
  { intros m2 slot. unfold observeLeaderEpoch. repeat case_match; by split_and!. }
  destruct (HasPrefix _ _).
  - destruct (validateFreezeBinding _ _ _); [done|].
    destruct (applyReconfiguration _ m _) as [m1|] eqn:Ha; [|done]. cbn [rbind]. apply applyReconfiguration_applied in Ha.
    assert (∃ m2, match decodeReconfiguration decodeControl (dvValue v) with
      | Some (Ok control) => Ok (if Terminal control then set_version m1 (membershipVersion m1 + 1) else m1)
      | _ => Ok m1 end = @Ok membershipError _ m2 ∧ applied m m2) as (m2 & -> & Ha2).
    { destruct (decodeReconfiguration _ _) as [[control|]|]; [|by exists m1..]. eexists. split; [done|].
      destruct (Terminal control); [|done]. apply (applied_core _ _ _ Ha). by split_and!. }
    cbn [rbind]. intros <-%Ok_inj. exists m2.
    destruct (Hobs (set_mtip m2 (mtip m + 1)
      (<[mtip m + 1:=AdvancePrefixHash sha256 (prefix_at m2 (mtip m2)) (mtip m + 1) (dvHash v)]> (mprefixes m2))) (mtip m + 1))
      as (? & ? & ? & ? & ?). by split_and!.
  - cbn [rbind]. intros <-%Ok_inj. exists m. 
    destruct (Hobs (set_mtip m (mtip m + 1)
      (<[mtip m + 1:=AdvancePrefixHash sha256 (prefix_at m (mtip m)) (mtip m + 1) (dvHash v)]> (mprefixes m))) (mtip m + 1))
      as (? & ? & ? & ? & ?). split_and!; try done. by apply applied_none.
Qed.

(** The tip moved over a slot that changed nothing of the configurations. *)
Lemma advance_plain m m' :
  memb_ok m → mconfig m' = mconfig m → mhistory m' = mhistory m → retiredIDs m' = retiredIDs m → mtip m' = mtip m + 1 →
  reconfiguration m' = reconfiguration m ∨ reconfiguration m' = None → settled m <= settled m' →
  memb_ok m' ∧ grows m m'.
Proof.
  intros [H1 (e & Hl & Hs) H3] Ec Eh Er Et Ep Hset. split.
  - split; rewrite ?Eh, ?Er; [done|exists e; split; [by rewrite Eh|lia]|].
    intros st Hst. destruct Ep as [Ep|Ep]; [|congruence]. rewrite Ep in Hst. destruct (H3 st Hst) as [P1 P2 P3].
    split; [done|lia|]. intros e' [He' _]. rewrite Eh, Hl in He'. injection He' as <-. rewrite Er. by apply P3.
  - split; [done|done|]. exists []. by rewrite Eh, app_nil_r.
Qed.

Lemma settled_pending m st : memb_ok m → reconfiguration m = Some st → settled m = freeze st + 16 ∧ freeze st <= mtip m.
Proof. intros Hok Hr. destruct (mo_pending _ Hok _ Hr) as [P1 P2 _]. unfold settled. by rewrite Hr. Qed.

Lemma advance_ok m m1 m' :
  memb_ok m → applied m m1 → mconfig m' = mconfig m1 → mhistory m' = mhistory m1 → retiredIDs m' = retiredIDs m1 →
  reconfiguration m' = reconfiguration m1 → mtip m' = mtip m + 1 → memb_ok m' ∧ grows m m'.
Proof.
  intros Hok Ha E1 E2 E3 E4 E5. destruct (mo_last _ Hok) as (e & Hl).
  destruct Ha as [m1 (C1 & C2 & C3 & C4 & C5)|m1 st Hr Hf Ht Hv (C1 & C2 & C3 & C4 & C5)|
    m1 st Hr Ht (C1 & C2 & C3 & C4 & C5)|m1 st Hr Ht (C1 & C2 & C3 & C4 & C5)]; simpl in *.
  - apply advance_plain; try congruence; [by left; congruence|]. unfold settled. rewrite E4, C5, E5. case_match; lia.
  - assert (memb_ok m' ∧ grows m m') as [Hok' Hg]; [|done]. split.
    + split; rewrite ?E2, ?E3, ?E4, ?C2, ?C4, ?C5; [apply Hok|exists e; split; [by rewrite E2, C2; apply Hl|destruct Hl; lia]|].
      intros st' [= <-]. split; [done|lia|]. intros e' [He' _]. rewrite E2, C2 in He'.
      assert (e' = e) as -> by (destruct Hl; congruence). rewrite E3, C4. destruct Hl as [Hl Hs].
      rewrite (cluster_tip m e) in Hv; [|done|done|lia]. destruct (target_change _ _ _ Hv). split; [lia|done].
    + split; [congruence|unfold settled; rewrite Hr, E4, C5; lia|]. exists []. rewrite app_nil_r. split; [congruence|done].
  - destruct (settled_pending _ _ Hok Hr) as [Hset _].
    apply advance_plain; try congruence; [by right; congruence|].
    unfold settled at 2. rewrite E4, C5. destruct (mo_pending _ Hok _ Hr). lia.
  - destruct (settled_pending _ _ Hok Hr) as [Hset Hle]. destruct (mo_pending _ Hok _ Hr) as [P1 P2 P3].
    destruct (P3 e Hl) as (Hse & Hc & Hdis). rewrite (cluster_tip m e) in C4; [|done|done|lia].
    split.
    + split.
      * rewrite E2, E3, C2, C4. apply history_snoc; [apply Hok|apply Hl|done|done|lia].
      * exists (mkEpoch (terminal st + 1) (target st)). split; [by rewrite E2, C2, last_snoc|simpl; lia].
      * intros st'. by rewrite E4, C5.
    + split; [congruence|unfold settled at 2; rewrite E4, C5; lia|].
      eexists. split; [by rewrite E2, C2|]. apply Forall_singleton. simpl. lia.
Qed.

(** ** The transition system *)

(** The prefix advances over a decided slot, or the replica learns decisions,
    receipts, values and marks, which leave the membership as it is. *)
Inductive membership_step (m : membership) : membership → Prop :=
| membership_advance now v m' :
    mdecided m !! (mtip m + 1) = Some v → advance_once decodeControl decodeSchedule sha256 now m v = Ok m' →
    membership_step m m'
| membership_learn m' : same_core m m' → membership_step m m'.

Definition initial_membership (m : membership) : Prop :=
  mhistory m = [mkEpoch 1 (mconfig m)] ∧ wf_cluster (mconfig m) ∧ mtip m = 0 ∧ retiredIDs m = ∅ ∧ reconfiguration m = None.

Lemma membership_step_ok m m' : memb_ok m → membership_step m m' → memb_ok m' ∧ grows m m'.
Proof.
  intros Hok [now v m2 _ Ha|m2 Hc].
  - apply advance_once_applied in Ha as (m1 & Ha & E1 & E2 & E3 & E4 & E5). by apply (advance_ok m m1).
  - split; [by apply (core_ok m)|]. destruct Hc as (C1 & C2 & C3 & C4 & C5).
    split; [done|unfold settled; rewrite C3, C5; lia|]. exists []. by rewrite C2, app_nil_r.
Qed.

Lemma initial_ok m : initial_membership m → memb_ok m.
Proof.
  intros (Eh & Hwf & Et & Er & Ep). split; rewrite ?Eh, ?Er, ?Ep.
  - split.
    + intros i e [-> <-]%list_lookup_singleton_Some. done.
    + intros i e e' _ [? _]%list_lookup_singleton_Some. lia.
    + intros e id _ []%elem_of_empty.
    + intros i j e e' id Hij _ [? _]%list_lookup_singleton_Some. lia.
    + intros i j k e e' e'' id Hij Hjk _ _ [? _]%list_lookup_singleton_Some. lia.
  - exists (mkEpoch 1 (mconfig m)). split; [by rewrite Eh|simpl; lia].
  - done.
Qed.

Lemma steps_ok m m' : memb_ok m → rtc membership_step m m' → memb_ok m' ∧ grows m m'.
Proof.
  intros Hok H. revert Hok. induction H as [|x y z Hxy _ IH]; intros Hok; [done|].
  destruct (membership_step_ok _ _ Hok Hxy) as [Hok1 Hg]. destruct (IH Hok1) as [Hok2 Hg2]. split; [done|by etrans].
Qed.

Lemma advance_tip_steps fuel now m r m' :
  advance_tip decodeControl decodeSchedule sha256 fuel now m = (r, m') → rtc membership_step m m'.
Proof.
  revert m. induction fuel as [|fuel IH]; intros m; simpl; [by intros [= <- <-]|].
  destruct (mdecided m !! _) as [v|] eqn:Hd; [|by intros [= <- <-]].
  destruct (advance_once _ _ _ _ _ _) as [m1|e] eqn:Ha; [|by intros [= <- <-]].
  intros H. eapply rtc_l; [by eapply membership_advance|]. by apply IH.
Qed.

(** A guard that passes bounds the slot by the settled ones. *)
Lemma guard_settled me admission m req :
  memb_ok m → admit_record decodeControl me admission m req = None ∨ recheck_record decodeControl me m req = None →
  RSlot req <= settled m ∧ RConfigID req = ConfigID (clusterForSlot (sched m) (RSlot req)).
Proof.
  intros Hok Hg. assert (RConfigID req = ConfigID (clusterForSlot (sched m) (RSlot req)) ∧ RSlot req <= mtip m + 16 ∧
    (reconfiguration m = None ∨ outside_drain m req = false)) as (Hc & Hs & Ho).
  { destruct Hg as [Hg|Hg]; revert Hg; unfold admit_record, recheck_record.
    - destruct (negb (_ =? _)) eqn:E1; [done|]. destruct (negb (voterForCluster _ _ _)); [done|].
      destruct (Z.ltb_spec (mtip m + 16) (RSlot req)); [done|]. destruct (outside_drain m req); [done|]. bool_hyps. auto.
    - destruct (negb (_ =? _)) eqn:E1; [done|]. destruct (negb (voterForCluster _ _ _)); [done|].
      destruct (Z.ltb_spec (mtip m + 16) (RSlot req)); [done|].
      match goal with |- match ?x with _ => _ end = _ → _ => destruct x; [done|] end.
      destruct (reconfiguration m); [|bool_hyps; auto]. destruct (outside_drain m req); [done|]. bool_hyps. auto. }
  split; [|done]. unfold settled. destruct (reconfiguration m) as [st|] eqn:Hr; [|lia].
  destruct Ho as [|Ho]; [done|]. unfold outside_drain in Ho. rewrite Hr in Ho. bool_hyps. lia.
Qed.

(** C5: a recorder votes only under the configuration that is finally in
    charge of the slot: when the guards of [record] admit a request, no later
    freeze, terminal or abort changes the configuration of its slot, and the
    request names that configuration. *)
Theorem recorded_configuration_final me admission m0 m m' req :
  initial_membership m0 → rtc membership_step m0 m →
  admit_record decodeControl me admission m req = None ∨ recheck_record decodeControl me m req = None →
  rtc membership_step m m' →
  clusterForSlot (sched m') (RSlot req) = clusterForSlot (sched m) (RSlot req) ∧
  RConfigID req = ConfigID (clusterForSlot (sched m') (RSlot req)).
Proof.
  intros Hi H1 Hg H2. destruct (steps_ok _ _ (initial_ok _ Hi) H1) as [Hok _].
  destruct (guard_settled _ _ _ _ Hok Hg) as [Hs Hc]. destruct (steps_ok _ _ Hok H2) as [_ Hgr].
  rewrite (grows_cluster _ _ _ Hgr Hs). done.
Qed.

(** C11: successive configurations of a replica differ by one voter, so every
    quorum of one shares a voter with every quorum of the next; the next one
    starts at least 17 slots later. *)
Theorem neighbour_quorums_intersect m0 m i e e' (l k : list NodeID) :
  initial_membership m0 → rtc membership_step m0 m → mhistory m !! i = Some e → mhistory m !! S i = Some e' →
  NoDup l → NoDup k → l ⊆ member_ids (cluster e) → k ⊆ member_ids (cluster e') →
  QuorumSize (cluster e) <= Z.of_nat (length l) → QuorumSize (cluster e') <= Z.of_nat (length k) →
  start e + 17 <= start e' ∧ ∃ r, r ∈ l ∧ r ∈ k.
Proof.
  intros Hi H1 He He'. intros. destruct (steps_ok _ _ (initial_ok _ Hi) H1) as [[Hh _ _] _].
  destruct (ho_link _ _ Hh _ _ _ He He') as [? Hc]. split; [done|].
  apply (adjacent_quorum_intersect (cluster e) (cluster e')); try done. by apply (ho_wf _ _ Hh i).
Qed.

(** A voter that was removed never votes again: in the sequence of
    configurations of a replica no ID reappears after it left. *)
Theorem removed_voters_never_return m0 m i j k e e' e'' id :
  initial_membership m0 → rtc membership_step m0 m → (i < j)%nat → (j < k)%nat →
  mhistory m !! i = Some e → mhistory m !! j = Some e' → mhistory m !! k = Some e'' →
  id ∈ member_ids (cluster e) → id ∉ member_ids (cluster e') → id ∉ member_ids (cluster e'').
Proof.
  intros Hi H1 Hij Hjk He He' He''. rewrite <-!elem_of_voters. destruct (steps_ok _ _ (initial_ok _ Hi) H1) as [[Hh _ _] _].
  by apply (ho_return _ _ Hh i j k).
Qed.
End membership.

(** ** A concrete run: three voters, the second leaves, a fourth joins *)

Definition joiner : Member := mkMember [x04] [] [] [] [] (repeat x61 64).
Definition demo_two : Cluster := mkCluster 2 [voter x01; voter x03].
Definition demo_next : Cluster := mkCluster 3 [voter x01; voter x03; joiner].
Definition demo_control (payload : bytes) : option reconfigurationValue :=
  match payload with
  | [x00] => Some (mkControl false false 1 17 demo_two zeroHash)
  | [x01] => Some (mkControl true false 1 17 demo_two zeroHash)
  | [x02] => Some (mkControl false false 18 34 demo_next zeroHash)
  | [x03] => Some (mkControl true false 18 34 demo_next zeroHash)
  | _ => None
  end.
Definition demo_slot (slot : Slot) (value : bytes) : DecidedValue :=
  mkDecided slot zeroHash value (mkDecision 1 slot 6 (mkProposal [] [] zeroHash []) []).
Definition demo_log : gmap Slot DecidedValue :=
  <[1 := demo_slot 1 (reconfigurationMagic ++ [x00])]> (<[17 := demo_slot 17 (reconfigurationMagic ++ [x01])]>
  (<[18 := demo_slot 18 (reconfigurationMagic ++ [x02])]> (<[34 := demo_slot 34 (reconfigurationMagic ++ [x03])]>
  (list_to_map ((λ i, (Z.of_nat i, demo_slot (Z.of_nat i) [x2a])) <$> seq 1 34))))).
Definition demo_members : membership :=
  mkMembershipState three true [mkEpoch 1 three] 0 (mkLeaderBase 0 [] 0 []) 0 demo_log ∅ ∅ ∅ ∅ ∅ None 0 None None ∅ ∅.
Definition no_hash (_ : bytes) : ValueHash := zeroHash.
Definition demo_changed : membership := (advanceReconfigurationTip demo_control one_byte_ids no_hash 0 demo_members).2.
Definition demo_me : processIdentity := mkProcess [x01] [] false false.
Definition demo_vote : RecordRequest := mkRecordRequest 16 4 1 zeroHash (mkProposal [] [x01] zeroHash [x2a]).

Abbreviation demo_member_steps := (rtc (membership_step demo_control one_byte_ids no_hash)).

Lemma demo_initial : initial_membership demo_members.
Proof. split_and!; try done. apply three_wf. Qed.

Lemma demo_changed_steps : demo_member_steps demo_members demo_changed.
Proof.
  apply (advance_tip_steps _ _ _ (size (mdecided demo_members)) 0 _ (advanceReconfigurationTip demo_control one_byte_ids no_hash 0 demo_members).1).
  unfold demo_changed, advanceReconfigurationTip. by destruct (advance_tip _ _ _ _ _ _).
Qed.

Lemma recorded_configuration_final_witness :
  clusterForSlot (sched demo_changed) 16 = clusterForSlot (sched demo_members) 16 ∧
  1 = ConfigID (clusterForSlot (sched demo_changed) 16).
Proof.
  apply (recorded_configuration_final demo_control one_byte_ids no_hash demo_me None demo_members demo_members demo_changed demo_vote).
  - exact demo_initial.
  - apply rtc_refl.
  - left. vm_compute. reflexivity.
  - exact demo_changed_steps.
Defined.

Lemma neighbour_quorums_intersect_witness : 1 + 17 <= 18 ∧ ∃ r, r ∈ [[x01]; [x02]] ∧ r ∈ [[x01]; [x03]].
Proof.
  apply (neighbour_quorums_intersect demo_control one_byte_ids no_hash demo_members demo_changed 0
    (mkEpoch 1 three) (mkEpoch 18 demo_two) [[x01]; [x02]] [[x01]; [x03]]).
  - exact demo_initial.
  - exact demo_changed_steps.
  - vm_compute. reflexivity.
  - vm_compute. reflexivity.
  - apply (bool_decide_eq_true_1 (NoDup [[x01]; [x02]])). vm_compute. reflexivity.
  - apply (bool_decide_eq_true_1 (NoDup [[x01]; [x03]])). vm_compute. reflexivity.
  - intros x [->|[->|[]%elem_of_nil]%elem_of_cons]%elem_of_cons; [left|right; left].
  - intros x [->|[->|[]%elem_of_nil]%elem_of_cons]%elem_of_cons; [left|right; left].
  - vm_compute. congruence.
  - vm_compute. congruence.
Defined.

Lemma removed_voters_never_return_witness : [x02] ∉ member_ids demo_next.
Proof.
  apply (removed_voters_never_return demo_control one_byte_ids no_hash demo_members demo_changed 0 1 2
    (mkEpoch 1 three) (mkEpoch 18 demo_two) (mkEpoch 35 demo_next) [x02]).
  - exact demo_initial.
  - exact demo_changed_steps.
  - lia.
  - lia.
  - vm_compute. reflexivity.
  - vm_compute. reflexivity.
  - vm_compute. reflexivity.
  - right. left.
  - apply (bool_decide_eq_false_1 ([x02] ∈ member_ids demo_two)). vm_compute. reflexivity.
Defined.
