(* ===== verification/History.v ===== *)
(** * Certified membership histories (pkg/quepaxa/membership_history.go,
      membership_validation.go, checkpoint_membership.go)

    A checkpoint carries the genesis configuration and the certified
    freeze/terminal pair of every completed change, so that a node that starts
    from it can rebuild the chain of configurations.  The file models how a
    replica extracts that record from its state and how a reader validates it
    against the bootstrap configuration.

    A certificate is the decision its bytes decode to, as in [Node]; the JSON
    payloads of controls and schedules and the hash are parameters.  The
    verifier is a membership state whose log holds only the controls seen. *)

From stdpp Require Import gmap list sorting.
From S2P Require Import Prelude Bytes Protocol Cluster Proposer Schedule Node Membership.

Inductive historyError :=
| HErrNoHistory
| HErrStart
| HErrCheckpointBoundary
| HErrUnstable
| HErrNotDecided
| HErrNotDurable
| HErrTerminalControl
| HErrTerminalSlots
| HErrHash
| HErrTarget
| HErrBootstrap
| HErrMember
| HErrValueLength
| HErrIdentity
| HErrFreezeBoundary
| HErrInvalidTarget (e : membershipError)
| HErrSlots
| HErrQuorum (e : nodeError)
| HErrFreezeBinding (e : membershipError)
| HErrTerminalBinding
| HErrOutsideFreezeQuorum
| HErrNotAddition
| HErrSealMembership
| HErrSealEpoch
| HErrSealBoundary.

Definition guard_ (b : bool) (e : historyError) : result historyError unit := if b then Ok tt else Err e.
Definition demand {A} (o : option A) (e : historyError) : result historyError A :=
  match o with Some x => Ok x | None => Err e end.
Definition reject {A} (o : option A) (e : A → historyError) : result historyError unit :=
  match o with Some x => Err (e x) | None => Ok tt end.

Section history.
Context (decodeControl : bytes → option reconfigurationValue).
Context (decodeSchedule : bytes → option (list NodeID)) (sha256 : bytes → ValueHash).

Definition control_of (value : bytes) : option reconfigurationValue :=
  match decodeReconfiguration decodeControl value with Some (Ok c) => Some c | _ => None end.

(** ** Extracting the record *)

(** The loop body: the transition that produced a configuration epoch. *)
Definition epoch_transition (through : Slot) (m : membership) (e : configEpoch) : result historyError ConfigTransition :=
  let! _ := guard_ (18 <=? start e) HErrStart in
  let freezeSlot := start e - 17 in
  let terminalSlot := start e - 1 in
  let! _ := guard_ ((through =? 0) || (terminalSlot <? through)) HErrCheckpointBoundary in
  let! f := demand (mdecided m !! freezeSlot) HErrNotDecided in
  let! _ := guard_ (bool_decide (freezeSlot ∈ mdurable m)) HErrNotDurable in
  let! t := demand (mdecided m !! terminalSlot) HErrNotDecided in
  let! _ := guard_ (bool_decide (terminalSlot ∈ mdurable m)) HErrNotDurable in
  let! control := demand (control_of (dvValue t)) HErrTerminalControl in
  let! _ := guard_ (Terminal control) HErrTerminalControl in
  let! _ := guard_ ((Freeze control =? freezeSlot) && (TerminalSlot control =? terminalSlot)) HErrTerminalSlots in
  let! _ := guard_ (bool_decide (sha256 (dvValue t) = dvHash t) && bool_decide (sha256 (dvValue f) = dvHash f)) HErrHash in
  let! _ := guard_ (sameCluster (Target control) (cluster e)) HErrTarget in
  Ok (mkTransition f t).

Fixpoint epoch_transitions (through : Slot) (m : membership) (es : list configEpoch)
    : result historyError (list ConfigTransition) :=
  match es with
  | [] => Ok []
  | e :: es' =>
      let! t := epoch_transition through m e in
      let! ts := epoch_transitions through m es' in
      Ok (t :: ts)
  end.

Definition membershipHistoryLocked (through : Slot) (m : membership) : result historyError MembershipRecord :=
  match mhistory m with
  | [] => Err HErrNoHistory
  | e0 :: rest =>
      let genesis := match baseMembership m with Some b => Genesis b | None => cluster e0 end in
      let base := match baseMembership m with Some b => Transitions b | None => [] end in
      let! added := epoch_transitions through m (drop (length base) rest) in
      let abort :=
        match lastAbort m, baseMembership m with
        | Some a, _ => Some a
        | None, Some b => if Nat.eqb (length rest) (length base) then baseAbort b else None
        | None, None => None
        end in
      Ok (mkMembership genesis (base ++ added) abort)
  end.

Definition MembershipHistory (m : membership) : result historyError MembershipRecord := membershipHistoryLocked 0 m.

Definition CheckpointMembership (m : membership) (index : Slot) : result historyError MembershipRecord :=
  if (index =? 0) || (mtip m <? index) || match reconfiguration m with Some _ => true | None => false end
  then Err HErrUnstable
  else membershipHistoryLocked index m.

(** ** Validating a decision of the record

    [validateDecisionForRecovery] of a verifier: reconfiguration is enabled
    and the owner's value validator is absent. *)
Definition verify_decision (m : membership) (allowMissingLeader : bool) (d : Decision) : option nodeError :=
  let value := Value (DProposal d) in
  let c := clusterForSlot (sched m) (DSlot d) in
  if MaxReplicatedValueBytes <? Z.of_nat (length value) then Some ErrValue
  else if (DSlot d =? 0) || negb (bool_decide (sha256 value = Hash (DProposal d))) then Some ErrValue
  else if negb (check_schedule_value decodeSchedule (sched m) c (DSlot d) value) then Some ErrSchedule
  else if negb (readBarrierOk value) then Some ErrReadBarrier
  else if negb (DConfigID d =? 0) && negb (DConfigID d =? ConfigID c) then Some ErrConfigID
  else
    match check_summaries (MemberSet c) (DStep d) ∅ (DSummaries d) with
    | Err e => Some e
    | Ok seen =>
        if Z.of_nat (size seen) <? QuorumSize c then Some ErrQuorumUnavailable
        else
          let controlOk :=
            match decodeReconfiguration decodeControl value with
            | None => true
            | Some (Err _) => false
            | Some (Ok control) =>
                menabled m &&
                if Terminal control then
                  match mdecided m !! Freeze control with
                  | Some f => forallb (λ s, bool_decide (SReconfigurationID s = dvHash f)) (DSummaries d)
                  | None => true
                  end
                else
                  negb (DSlot d =? mtip m + 1) ||
                  match validateFreezeBinding decodeControl m d with None => true | Some _ => false end
            end in
          if negb controlOk then Some ErrReconfiguration
          else check_phase decodeSchedule (sched m) allowMissingLeader d
    end.

Definition historyDecision (configID : Z) (v : DecidedValue) : result historyError Decision :=
  if bool_decide (dvValue v = []) || (MaxReplicatedValueBytes <? Z.of_nat (length (dvValue v))) then Err HErrValueLength
  else
    let d := certificate_decision v in
    if negb (DConfigID d =? configID) || negb (DSlot d =? dvSlot v) ||
       negb (bool_decide (Hash (DProposal d) = dvHash v)) || negb (bool_decide (sha256 (dvValue v) = dvHash v))
    then Err HErrIdentity
    else Ok d.

(** ** Validating the chain *)

Definition newVerifier (initial : Cluster) : membership :=
  mkMembershipState initial true [mkEpoch 1 initial] 0 (mkLeaderBase 0 [] 0 []) 0 ∅ ∅ ∅ ∅ ∅ ∅ None 0 None None ∅ ∅.

Definition set_verified (m : membership) (d : gmap Slot DecidedValue) : membership :=
  mkMembershipState (mconfig m) (menabled m) (mhistory m) (mfloor m) (mleaders m) (mtip m) d (mprefixes m) (mdurable m)
    (mrecorders m) (mvalues m) (retiredIDs m) (baseMembership m) (membershipVersion m) (lastAbort m)
    (reconfiguration m) (epochStart m) (timings m).

(** The freeze control and the boundary it names. *)
Definition freeze_control (previousTerminal : Slot) (d : Decision) : result historyError reconfigurationValue :=
  let! f := demand (control_of (Value (DProposal d))) HErrFreezeBoundary in
  let! _ := guard_ (negb (Terminal f) && (DSlot d =? Freeze f) && (previousTerminal <? Freeze f) &&
                    (Freeze f <? TerminalSlot f)) HErrFreezeBoundary in
  Ok f.

(** The terminal must be recorded by members of the freeze's quorum, each
    bound to the freeze. *)
Definition inside_freeze_quorum (fd td : Decision) : bool :=
  let safe := list_to_set (RecorderID <$> DSummaries fd) : gset NodeID in
  forallb (λ s, bool_decide (RecorderID s ∈ safe) && bool_decide (SReconfigurationID s = Hash (DProposal fd))) (DSummaries td).

Definition terminal_control (abort : bool) (td : Decision) (f : reconfigurationValue) : result historyError unit :=
  let! term := demand (control_of (Value (DProposal td))) HErrTerminalBinding in
  guard_ (Terminal term && Bool.eqb (Abort_ term) abort && (DSlot td =? TerminalSlot f) && (Freeze term =? Freeze f) &&
          (TerminalSlot term =? TerminalSlot f) && sameCluster (Target term) (Target f)) HErrTerminalBinding.

(** The shared tail of both loops: the terminal of a freeze already verified. *)
Definition verify_terminal (abort : bool) (v : membership) (current : Cluster) (fd : Decision) (f : reconfigurationValue)
    (t : DecidedValue) : result historyError Decision :=
  let! td := historyDecision (ConfigID current) t in
  let! _ := terminal_control abort td f in
  let! _ := reject (verify_decision v true td) HErrQuorum in
  let! _ := guard_ (inside_freeze_quorum fd td) HErrOutsideFreezeQuorum in
  Ok td.

(** One transition: the verifier, the current configuration and the terminal
    slot it leaves. *)
Definition verify_transition (v : membership) (current : Cluster) (previousTerminal : Slot) (tr : ConfigTransition)
    : result historyError (membership * Cluster * Slot) :=
  let! fd := historyDecision (ConfigID current) (tFreeze tr) in
  let! f := freeze_control previousTerminal fd in
  let! _ := reject (validateReconfigurationTarget current (Target f) (retiredIDs v)) HErrInvalidTarget in
  let! _ := guard_ (validateReconfigurationSlots (sched v) (Freeze f) (TerminalSlot f)) HErrSlots in
  let! _ := reject (verify_decision v true fd) HErrQuorum in
  let! _ := reject (validateFreezeBinding decodeControl v fd) HErrFreezeBinding in
  let v1 := set_verified v (<[DSlot fd := tFreeze tr]> (mdecided v)) in
  let! td := verify_terminal false v1 current fd f (tTerminal tr) in
  let v2 := set_retired v1 (retiredIDs v1 ∪ leaving current (Target f)) in
  let v3 := set_history v2 (mhistory v2 ++ [mkEpoch (DSlot td + 1) (Target f)]) in
  Ok (set_verified v3 (<[DSlot td := tTerminal tr]> (mdecided v3)), Target f, DSlot td).

Fixpoint verify_transitions (v : membership) (current : Cluster) (previousTerminal : Slot) (trs : list ConfigTransition)
    : result historyError (membership * Cluster * Slot) :=
  match trs with
  | [] => Ok (v, current, previousTerminal)
  | tr :: rest =>
      let! st := verify_transition v current previousTerminal tr in
      verify_transitions st.1.1 st.1.2 st.2 rest
  end.

Definition verify_abort (v : membership) (current : Cluster) (previousTerminal : Slot) (tr : ConfigTransition)
    : result historyError membership :=
  let! fd := historyDecision (ConfigID current) (tFreeze tr) in
  let! f := freeze_control previousTerminal fd in
  let! _ := reject (validateReconfigurationTarget current (Target f) (retiredIDs v)) HErrInvalidTarget in
  let! _ := guard_ (reconfigurationAdds current (Target f)) HErrNotAddition in
  let! _ := reject (verify_decision v true fd) HErrQuorum in
  let! _ := reject (validateFreezeBinding decodeControl v fd) HErrFreezeBinding in
  let! _ := guard_ (validateReconfigurationSlots (sched v) (Freeze f) (TerminalSlot f)) HErrSlots in
  let v1 := set_verified v (<[DSlot fd := tFreeze tr]> (mdecided v)) in
  let! td := verify_terminal true v1 current fd f (tTerminal tr) in
  let v2 := set_verified v1 (<[DSlot td := tTerminal tr]> (mdecided v1)) in
  Ok (set_reconfiguration v2 (reconfiguration v2) (Some tr)).

Definition validateMembershipHistory (initial : Cluster) (history : MembershipRecord) : result historyError membership :=
  if negb (sameCluster initial (Genesis history)) || bool_decide (Members initial = []) then Err HErrBootstrap
  else if negb (Nat.eqb (size (MemberSet initial)) (length (Members initial))) then Err HErrMember
  else if existsb (λ m, bool_decide (ID m = [])) (Members initial) then Err HErrMember
  else
    let! st := verify_transitions (newVerifier initial) initial 0 (Transitions history) in
    match baseAbort history with
    | None => Ok st.1.1
    | Some a => verify_abort st.1.1 st.1.2 st.2 a
    end.

(** ** The checkpoint's epoch *)

(** What a seal says of the membership. *)
Record sealMembership := mkSeal {
  sealIndex : Slot;
  sealConfigID : Z;
  sealNext : list NodeID;
  sealFollowing : list NodeID;
  sealRecord : option MembershipRecord;
}.

Definition checkpointMembershipForSeal (m : membership) (s : sealMembership) : result historyError (option membership) :=
  if negb (menabled m) then
    match sealRecord s with Some _ => Err HErrSealMembership | None => Ok None end
  else
    let! record := demand (sealRecord s) HErrSealMembership in
    let! v := validateMembershipHistory (mconfig m) record in
    let! _ := guard_ (match reconfiguration v with Some _ => false | None => true end &&
                      (ConfigID (clusterForSlot (sched v) (sealIndex s + 1)) =? sealConfigID s) &&
                      validateCheckpointLeaderOrders (sched v) (sealIndex s) (sealNext s) (sealFollowing s)) HErrSealEpoch in
    let! _ := guard_ (forallb (λ tr, dvSlot (tTerminal tr) <? sealIndex s) (Transitions record)) HErrSealBoundary in
    Ok (Some v).

(** ** The record at an older cut *)

Fixpoint transitions_before (through : Slot) (trs : list ConfigTransition) : list ConfigTransition :=
  match trs with
  | [] => []
  | tr :: rest => if dvSlot (tTerminal tr) <? through then tr :: transitions_before through rest else []
  end.

(** An abort decided in the log at [slot], with its freeze; an error when the
    freeze is not durable. *)
Definition abort_at (m : membership) (lastSuccess through slot : Slot) (t : DecidedValue)
    : result historyError (option ConfigTransition) :=
  if (slot <=? lastSuccess) || (through <? slot) || negb (bool_decide (slot ∈ mdurable m)) then Ok None
  else
    match control_of (dvValue t) with
    | Some control =>
        if negb (Terminal control) || negb (Abort_ control) then Ok None
        else
          match mdecided m !! Freeze control with
          | Some f => if bool_decide (Freeze control ∈ mdurable m) then Ok (Some (mkTransition f t)) else Err HErrNotDurable
          | None => Err HErrNotDurable
          end
    | None => Ok None
    end.

Definition later_abort (best : option ConfigTransition) (slot : Slot) (found : option ConfigTransition) : option ConfigTransition :=
  match found with
  | None => best
  | Some a => match best with
              | Some b => if dvSlot (tTerminal b) <? slot then Some a else best
              | None => Some a
              end
  end.

(** The loop ranges over the map of decisions: any order of its entries. *)
Fixpoint scan_aborts (m : membership) (lastSuccess through : Slot) (entries : list (Slot * DecidedValue))
    (best : option ConfigTransition) : result historyError (option ConfigTransition) :=
  match entries with
  | [] => Ok best
  | (slot, t) :: rest =>
      let! found := abort_at m lastSuccess through slot t in
      scan_aborts m lastSuccess through rest (later_abort best slot found)
  end.

Definition checkpointMembershipAtLocked (through : Slot) (m : membership) (entries : list (Slot * DecidedValue))
    : result historyError MembershipRecord :=
  if through =? 0 then Err HErrUnstable
  else
    let! record := membershipHistoryLocked 0 m in
    let trs := transitions_before through (Transitions record) in
    let lastSuccess := match last trs with Some tr => dvSlot (tTerminal tr) | None => 0 end in
    let abort := match baseAbort record with
                 | Some a => if (dvSlot (tTerminal a) <=? through) && (lastSuccess <? dvSlot (tTerminal a)) then Some a else None
                 | None => None
                 end in
    let! abort' := scan_aborts m lastSuccess through entries abort in
    Ok (mkMembership (Genesis record) trs abort').

(** ** Comparing records *)

Definition sameDecided (l r : DecidedValue) : bool :=
  (dvSlot l =? dvSlot r) && bool_decide (dvHash l = dvHash r) && bool_decide (dvValue l = dvValue r) &&
  bool_decide (dvCertificate l = dvCertificate r).
Definition sameMembershipTransition (l r : ConfigTransition) : bool :=
  sameDecided (tFreeze l) (tFreeze r) && sameDecided (tTerminal l) (tTerminal r).
Definition sameMembershipRecord (l r : MembershipRecord) : bool :=
  sameCluster (Genesis l) (Genesis r) && Nat.eqb (length (Transitions l)) (length (Transitions r)) &&
  forallb (λ p, sameMembershipTransition p.1 p.2) (zip (Transitions l) (Transitions r)) &&
  match baseAbort l, baseAbort r with
  | Some a, Some b => sameMembershipTransition a b
  | None, None => true
  | _, _ => false
  end.
End history.
