(* ===== verification/HistoryProofs.v ===== *)
(** * What a validated membership history certifies

    A record that [validateMembershipHistory] accepts describes a chain of
    single-voter changes, each certified by quorums of the configuration it
    leaves; and when the record was extracted from a replica, the verifier
    rebuilds exactly that replica's chain. *)

From stdpp Require Import gmap list sorting relations.
From S2P Require Import Prelude Bytes Protocol Cluster Proposer Schedule ScheduleProofs Node Membership MembershipProofs History.

(** ** Inversion of the checks *)

Lemma guard_Ok b e u : guard_ b e = Ok u → b = true.
Proof. by destruct b. Qed.

Lemma demand_Ok {A} (o : option A) e x : demand o e = Ok x → o = Some x.
Proof. destruct o; [|done]. by intros [= ->]. Qed.

Lemma reject_Ok {A} (o : option A) e u : reject o e = Ok u → o = None.
Proof. by destruct o. Qed.

(** The IDs a check of summaries collected are distinct members. *)
Lemma check_summaries_spec members step seen l seen' :
  check_summaries members step seen l = Ok seen' →
  NoDup (RecorderID <$> l) ∧ (∀ id, id ∈ RecorderID <$> l → is_Some (members !! id) ∧ id ∉ seen) ∧
  size seen' = (size seen + length l)%nat.
Proof.
  revert seen. induction l as [|s l IH]; intros seen; simpl.
  { intros [= <-]. split_and!; [constructor|by intros id ?%elem_of_nil|lia]. }
  case_bool_decide as Hm; [done|]. case_bool_decide as Hs; [done|]. destruct (negb _); [done|].
  intros (Hnd & Hin & Hsz)%IH. split_and!.
  - constructor; [|done]. intros H. apply Hin in H as [_ H]. set_solver.
  - intros id [->|Hid]%elem_of_cons; [split; [by apply not_eq_None_Some|done]|].
    apply Hin in Hid as [? ?]. set_solver.
  - rewrite Hsz, size_union, size_singleton by set_solver. lia.
Qed.

(** A decision's recorders are a quorum of a configuration. *)
Definition recorders_of (d : Decision) : list NodeID := RecorderID <$> DSummaries d.

Record certified (c : Cluster) (d : Decision) : Prop := {
  ce_nodup : NoDup (recorders_of d);
  ce_members : recorders_of d ⊆ member_ids c;
  ce_quorum : QuorumSize c <= Z.of_nat (length (recorders_of d));
}.

(** A transition certified out of configuration [c] into [target]: quorums of
    [c] recorded the freeze and the terminal, the terminal's recorders had
    recorded the freeze, and all of them were bound to it. *)
Record certified_transition (c target : Cluster) (terminalSlot : Slot) (tr : ConfigTransition) : Prop := {
  ct_freeze : certified c (dvCertificate (tFreeze tr));
  ct_terminal : certified c (dvCertificate (tTerminal tr));
  ct_inside : recorders_of (dvCertificate (tTerminal tr)) ⊆ recorders_of (dvCertificate (tFreeze tr));
  ct_bound s : s ∈ DSummaries (dvCertificate (tFreeze tr)) ++ DSummaries (dvCertificate (tTerminal tr)) →
    SReconfigurationID s = dvHash (tFreeze tr);
  ct_slots : dvSlot (tTerminal tr) = terminalSlot ∧ dvSlot (tFreeze tr) = terminalSlot - 16;
}.

Lemma certified_certificate c v : certified c (certificate_decision v) → certified c (dvCertificate v).
Proof. intros [H1 H2 H3]. by split. Qed.

Section history.
Context (decodeControl : bytes → option reconfigurationValue).
Context (decodeSchedule : bytes → option (list NodeID)) (sha256 : bytes → ValueHash).

Abbreviation verify m b d := (verify_decision decodeControl decodeSchedule sha256 m b d).
Abbreviation validate_history c h := (validateMembershipHistory decodeControl decodeSchedule sha256 c h).
Abbreviation transition v c p tr := (verify_transition decodeControl decodeSchedule sha256 v c p tr).

Lemma verify_certified m b d : verify m b d = None → certified (clusterForSlot (sched m) (DSlot d)) d.
Proof.
  unfold verify_decision. intros H.
  repeat match type of H with (if ?c then _ else _) = _ => destruct c; [done|] end.
  destruct (check_summaries _ _ _ _) as [seen|] eqn:Hc; [|done].
  destruct (Z.ltb_spec (Z.of_nat (size seen)) (QuorumSize (clusterForSlot (sched m) (DSlot d)))); [done|].
  apply check_summaries_spec in Hc as (Hnd & Hin & Hsz). rewrite size_empty in Hsz. simpl in Hsz. split.
  - done.
  - intros id Hid. apply MemberSet_lookup. by apply Hin.
  - unfold recorders_of. rewrite length_fmap. lia.
Qed.

Lemma historyDecision_Ok configID v d :
  historyDecision sha256 configID v = Ok d →
  d = certificate_decision v ∧ DConfigID d = configID ∧ DSlot d = dvSlot v ∧ Hash (DProposal d) = dvHash v ∧
  sha256 (dvValue v) = dvHash v.
Proof.
  unfold historyDecision. destruct (bool_decide _ || _); [done|]. destruct (_ || _) eqn:E; [done|]. intros <-%Ok_inj.
  bool_hyps. done.
Qed.

Lemma freeze_control_Ok prev d f :
  freeze_control decodeControl prev d = Ok f →
  control_of decodeControl (Value (DProposal d)) = Some f ∧ Terminal f = false ∧ DSlot d = Freeze f ∧ prev < Freeze f.
Proof.
  unfold freeze_control. intros (f' & Hf & H)%rbind_Ok. apply rbind_Ok in H as (u & Hg & H). injection H as <-.
  apply demand_Ok in Hf. apply guard_Ok in Hg. bool_hyps. done.
Qed.

Lemma validateReconfigurationSlots_Ok s f t : validateReconfigurationSlots s f t = true → t = f + 16.
Proof. unfold validateReconfigurationSlots. intros H. bool_hyps. done. Qed.

(** What the verification of a terminal establishes. *)
Lemma verify_terminal_Ok abort v c fd f t td :
  verify_terminal decodeControl decodeSchedule sha256 abort v c fd f t = Ok td →
  td = certificate_decision t ∧ DSlot td = dvSlot t ∧ DSlot td = TerminalSlot f ∧
  certified (clusterForSlot (sched v) (DSlot td)) td ∧ recorders_of td ⊆ recorders_of fd ∧
  (∀ s, s ∈ DSummaries td → SReconfigurationID s = Hash (DProposal fd)) ∧
  ∃ term, control_of decodeControl (dvValue t) = Some term ∧ Terminal term = true ∧ Target term = Target f ∧
    TerminalSlot term = TerminalSlot f.
Proof.
  unfold verify_terminal. intros (td' & Hd & H)%rbind_Ok. apply rbind_Ok in H as (u1 & Ht & H).
  apply rbind_Ok in H as (u2 & Hv & H). apply rbind_Ok in H as (u3 & Hq & H). injection H as <-.
  apply historyDecision_Ok in Hd as (-> & _ & Hs & _). apply reject_Ok, verify_certified in Hv. apply guard_Ok in Hq.
  unfold terminal_control in Ht. apply rbind_Ok in Ht as (term & Hterm & Ht). apply demand_Ok in Hterm.
  apply guard_Ok in Ht. bool_hyps. unfold inside_freeze_quorum in Hq. rewrite forallb_forall in Hq.
  assert (∀ s, s ∈ DSummaries (certificate_decision t) →
    RecorderID s ∈ recorders_of fd ∧ SReconfigurationID s = Hash (DProposal fd)) as Hin.
  { intros s Hs'. apply list_elem_of_In, Hq in Hs'. bool_hyps. by rewrite elem_of_list_to_set in *. }
  split_and!; try done.
  - intros id (s & -> & Hs')%list_elem_of_fmap. by apply Hin.
  - intros s ?. by apply Hin.
  - exists term. split_and!; try done. by apply sameCluster_spec.
Qed.

(** ** The verifier's state *)

Record verified (v : membership) (c : Cluster) (p : Slot) : Prop := {
  vf_history : history_ok (mhistory v) (retiredIDs v);
  vf_last : last (mhistory v) = Some (mkEpoch (p + 1) c);
  vf_pending : reconfiguration v = None;
}.

Lemma verified_cluster v c p slot : verified v c p → p < slot → clusterForSlot (sched v) slot = c.
Proof.
  intros [Hh Hl _] Hs. unfold clusterForSlot. simpl.
  rewrite (cluster_at_last _ _ _ _ _ Hh Hl); [done|simpl; lia].
Qed.

Lemma freeze_bound v d f :
  reconfiguration v = None → control_of decodeControl (Value (DProposal d)) = Some f → Terminal f = false →
  validateFreezeBinding decodeControl v d = None → ∀ s, s ∈ DSummaries d → SReconfigurationID s = Hash (DProposal d).
Proof.
  intros Hr Hc Ht. unfold control_of in Hc. unfold validateFreezeBinding.
  destruct (decodeReconfiguration _ _) as [[c|]|]; [|done..]. injection Hc as ->. rewrite Ht, Hr.
  destruct (forallb _ _) eqn:E; [|done]. intros _ s Hs. rewrite forallb_forall in E.
  apply list_elem_of_In, E, orb_true_iff in Hs as [Hs|Hs]; by bool_hyps.
Qed.

(** A verified transition extends the chain by its target. *)
Lemma transition_Ok v c p tr v' c' p' :
  verified v c p → transition v c p tr = Ok (v', c', p') →
  verified v' c' p' ∧ mhistory v' = mhistory v ++ [mkEpoch (p' + 1) c'] ∧
  retiredIDs v' = retiredIDs v ∪ leaving c c' ∧ p + 17 <= p' ∧ voter_change c c' ∧
  certified_transition c c' p' tr ∧
  ∃ term, control_of decodeControl (dvValue (tTerminal tr)) = Some term ∧ Target term = c' ∧ TerminalSlot term = p'.
Proof.
  intros Hv. unfold verify_transition. intros (fd & Hfd & H)%rbind_Ok. apply rbind_Ok in H as (f & Hf & H).
  apply rbind_Ok in H as (u1 & Htarget & H). apply rbind_Ok in H as (u2 & Hslots & H).
  apply rbind_Ok in H as (u3 & Hfq & H). apply rbind_Ok in H as (u4 & Hbind & H).
  apply rbind_Ok in H as (td & Htd & H). apply Ok_inj in H. simplify_eq.
  apply historyDecision_Ok in Hfd as (-> & _ & Hfs & Hfh & _). apply freeze_control_Ok in Hf as (Hfc & Hft & Hff & Hprev).
  apply reject_Ok in Htarget. apply guard_Ok, validateReconfigurationSlots_Ok in Hslots.
  apply reject_Ok, verify_certified in Hfq. apply reject_Ok in Hbind.
  pose proof (freeze_bound _ _ _ (vf_pending _ _ _ Hv) Hfc Hft Hbind) as Hb.
  apply verify_terminal_Ok in Htd as (-> & Hts & Htt & Htq & Hin & Htb & term & Hterm & _ & Htar & Hterms).
  rewrite (verified_cluster _ _ _ _ Hv) in Hfq by lia.
  change (clusterForSlot (sched (set_verified ?a ?b)) ?x) with (clusterForSlot (sched a) x) in Htq.
  rewrite (verified_cluster _ _ _ _ Hv) in Htq by lia.
  destruct (target_change _ _ _ Htarget) as [Hvc Hdis].
  split_and!; try done; [|lia| |exists term; split_and!; [done|done|congruence]].
  - split; [|by simpl; rewrite last_snoc|apply Hv]. cbn [mhistory retiredIDs set_verified set_history set_retired].
    apply (history_snoc _ _ (mkEpoch (p + 1) c)); [apply Hv|apply Hv|done|done|cbn [start]; lia].
  - split; [by apply certified_certificate|by apply certified_certificate|exact Hin| |split; lia].
    intros s [Hs|Hs]%elem_of_app; [rewrite <-Hfh; by apply Hb|rewrite <-Hfh; by apply Htb].
Qed.

(** ** The chain *)

(** The configurations that follow [c], and the slots they end at. *)
Inductive chain : Cluster → Slot → list ConfigTransition → list configEpoch → Cluster → Slot → Prop :=
| chain_nil c p : chain c p [] [] c p
| chain_cons c p tr c1 p1 trs es c' p' :
    p + 17 <= p1 → voter_change c c1 → certified_transition c c1 p1 tr →
    chain c1 p1 trs es c' p' → chain c p (tr :: trs) (mkEpoch (p1 + 1) c1 :: es) c' p'.

Lemma transitions_chain trs v c p v' c' p' :
  verified v c p → verify_transitions decodeControl decodeSchedule sha256 v c p trs = Ok (v', c', p') →
  verified v' c' p' ∧ ∃ es, mhistory v' = mhistory v ++ es ∧ chain c p trs es c' p'.
Proof.
  revert v c p. induction trs as [|tr trs IH]; intros v c p Hv; simpl.
  { intros [= <- <- <-]. split; [done|]. exists []. rewrite app_nil_r. split; [done|constructor]. }
  intros ([[v1 c1] p1] & Ht & H)%rbind_Ok. apply (transition_Ok _ _ _ _ _ _ _ Hv) in Ht as (Hv1 & Hh & _ & Hp & Hc & Hct & _).
  destruct (IH _ _ _ Hv1 H) as (Hv' & es & Hes & Hch). split; [done|].
  exists (mkEpoch (p1 + 1) c1 :: es). split; [|by constructor]. simpl in Hes. by rewrite Hes, Hh, <-app_assoc.
Qed.

Lemma newVerifier_verified c : wf_cluster c → verified (newVerifier c) c 0.
Proof.
  intros Hwf. pose proof (initial_ok (newVerifier c)) as H. destruct H as [Hh _ _]; [by split_and!|]. by split.
Qed.

Lemma verify_abort_history v c p a v' :
  verify_abort decodeControl decodeSchedule sha256 v c p a = Ok v' →
  mhistory v' = mhistory v ∧ retiredIDs v' = retiredIDs v.
Proof.
  unfold verify_abort. intros (fd & _ & H)%rbind_Ok. do 6 apply rbind_Ok in H as (? & _ & H).
  apply rbind_Ok in H as (td & _ & H). by apply Ok_inj in H as <-.
Qed.

(** What an accepted record establishes. *)
Lemma validated initial h v :
  validate_history initial h = Ok v →
  wf_cluster initial ∧ Genesis h = initial ∧ history_ok (mhistory v) (retiredIDs v) ∧
  ∃ v' c' p' es, verify_transitions decodeControl decodeSchedule sha256 (newVerifier initial) initial 0 (Transitions h) = Ok (v', c', p') ∧
    mhistory v = mhistory v' ∧ retiredIDs v = retiredIDs v' ∧
    mhistory v = mkEpoch 1 initial :: es ∧ chain initial 0 (Transitions h) es c' p'.
Proof.
  unfold validateMembershipHistory. destruct (_ || _) eqn:E1; [done|]. bool_hyps. destruct (negb (Nat.eqb _ _)) eqn:E2; [done|].
  destruct (existsb _ _); [done|]. bool_hyps. apply Nat.eqb_eq in E2.
  assert (wf_cluster initial) as Hwf by (split; [by apply MemberSet_size_NoDup|assumption]).
  intros ([[v' c'] p'] & Ht & Hv)%rbind_Ok.
  destruct (transitions_chain _ _ _ _ _ _ _ (newVerifier_verified _ Hwf) Ht) as ([Hh _ _] & es & Hes & Hch).
  simpl in Hv. assert (mhistory v = mhistory v' ∧ retiredIDs v = retiredIDs v') as [Em Er].
  { destruct (baseAbort h); [by apply verify_abort_history in Hv|by injection Hv as <-]. }
  split_and!; [done|symmetry; by apply sameCluster_spec|by rewrite Em, Er|].
  exists v', c', p', es. split_and!; try done. by rewrite Em.
Qed.

Lemma chain_lookup c p trs es c' p' i tr :
  chain c p trs es c' p' → trs !! i = Some tr →
  ∃ e e', (mkEpoch (p + 1) c :: es) !! i = Some e ∧ (mkEpoch (p + 1) c :: es) !! S i = Some e' ∧
    start e + 17 <= start e' ∧ voter_change (cluster e) (cluster e') ∧
    certified_transition (cluster e) (cluster e') (start e' - 1) tr.
Proof.
  intros H. revert i. induction H as [|c p tr0 c1 p1 trs es c' p' Hp Hc Hct Hch IH]; intros i; [done|].
  destruct i as [|i]; simpl; [|apply IH]. intros [= <-].
  eexists _, _. split_and!; [done|done|simpl; lia|done|]. simpl. by replace (p1 + 1 - 1) with p1 by lia.
Qed.

Lemma chain_length c p trs es c' p' : chain c p trs es c' p' → length es = length trs.
Proof. induction 1; simpl; congruence. Qed.

(** C17: an accepted history is a certified chain.  The verifier holds one
    configuration more than the record has transitions, starting from the
    bootstrap; the configurations of each transition are at least 17 slots
    apart, every quorum of one shares a voter with every quorum of the next,
    quorums of the old one recorded both controls, and every recorder of the
    terminal had recorded the freeze and was bound to it; no removed voter
    returns. *)
Theorem validated_history_chain initial h v :
  validate_history initial h = Ok v →
  head (mhistory v) = Some (mkEpoch 1 initial) ∧ length (mhistory v) = S (length (Transitions h)) ∧
  (∀ i tr, Transitions h !! i = Some tr → ∃ e e', mhistory v !! i = Some e ∧ mhistory v !! S i = Some e' ∧
    start e + 17 <= start e' ∧ certified_transition (cluster e) (cluster e') (start e' - 1) tr ∧
    (∀ l k, NoDup l → NoDup k → l ⊆ member_ids (cluster e) → k ⊆ member_ids (cluster e') →
      QuorumSize (cluster e) <= Z.of_nat (length l) → QuorumSize (cluster e') <= Z.of_nat (length k) → ∃ r, r ∈ l ∧ r ∈ k)) ∧
  (∀ i j k e e' e'' id, (i < j)%nat → (j < k)%nat → mhistory v !! i = Some e → mhistory v !! j = Some e' →
    mhistory v !! k = Some e'' → id ∈ member_ids (cluster e) → id ∉ member_ids (cluster e') → id ∉ member_ids (cluster e'')).
Proof.
  intros (Hwf & _ & Hok & v' & c' & p' & es & _ & _ & _ & Hh & Hch)%validated. split_and!.
  - by rewrite Hh.
  - rewrite Hh. simpl. by rewrite (chain_length _ _ _ _ _ _ Hch).
  - intros i tr Htr. destruct (chain_lookup _ _ _ _ _ _ _ _ Hch Htr) as (e & e' & He & He' & Hs & Hc & Hct).
    simpl in He, He'. exists e, e'. rewrite Hh. split_and!; [done..|]. intros l k. apply adjacent_quorum_intersect; [|done].
    apply (ho_wf _ _ Hok i). by rewrite Hh.
  - intros i j k e e' e'' id. rewrite <-!elem_of_voters. apply (ho_return _ _ Hok).
Qed.

(** ** A replica's own record *)

Lemma epoch_transition_Ok through m e tr :
  epoch_transition decodeControl sha256 through m e = Ok tr →
  ∃ control, control_of decodeControl (dvValue (tTerminal tr)) = Some control ∧
    TerminalSlot control = start e - 1 ∧ Target control = cluster e.
Proof.
  unfold epoch_transition. intros (u1 & _ & H)%rbind_Ok. apply rbind_Ok in H as (u2 & _ & H).
  apply rbind_Ok in H as (f & _ & H). apply rbind_Ok in H as (u3 & _ & H). apply rbind_Ok in H as (t & _ & H).
  apply rbind_Ok in H as (u4 & _ & H). apply rbind_Ok in H as (control & Hc & H). apply rbind_Ok in H as (u5 & _ & H).
  apply rbind_Ok in H as (u6 & Hs & H). apply rbind_Ok in H as (u7 & _ & H). apply rbind_Ok in H as (u8 & Ht & H).
  apply Ok_inj in H as <-. apply demand_Ok in Hc. apply guard_Ok in Hs, Ht. bool_hyps. exists control.
  split_and!; [done|done|by apply sameCluster_spec].
Qed.

(** The IDs retired along a chain. *)
Fixpoint retired_along (r : gset NodeID) (c : Cluster) (es : list configEpoch) : gset NodeID :=
  match es with
  | [] => r
  | e :: es' => retired_along (r ∪ leaving c (cluster e)) (cluster e) es'
  end.

Lemma retired_along_snoc r c es e :
  retired_along r c (es ++ [e]) = retired_along r c es ∪ leaving (default c (cluster <$> last es)) (cluster e).
Proof.
  revert r c. induction es as [|x es IH]; intros r c; simpl; [done|]. rewrite IH. destruct es as [|y es]; [done|].
  change (last (x :: y :: es)) with (last (y :: es)). destruct (last (y :: es)) eqn:E; [done|]. by apply last_None in E.
Qed.

Lemma epoch_transitions_rebuild through m es trs v c p v' c' p' :
  verified v c p → epoch_transitions decodeControl sha256 through m es = Ok trs →
  verify_transitions decodeControl decodeSchedule sha256 v c p trs = Ok (v', c', p') →
  mhistory v' = mhistory v ++ es ∧ retiredIDs v' = retired_along (retiredIDs v) c es.
Proof.
  revert trs v c p. induction es as [|e es IH]; intros trs v c p Hv; simpl.
  { intros <-%Ok_inj. simpl. intros [= <- <- <-]. by rewrite app_nil_r. }
  intros (tr & He & H)%rbind_Ok. apply rbind_Ok in H as (trs' & Hes & H). apply Ok_inj in H as <-. simpl.
  intros ([[v1 c1] p1] & Ht & H)%rbind_Ok.
  apply (transition_Ok _ _ _ _ _ _ _ Hv) in Ht as (Hv1 & Hh & Hr & _ & _ & _ & term & Hterm & Htar & Hts).
  apply epoch_transition_Ok in He as (control & Hc & Hs & Hcl). rewrite Hterm in Hc. injection Hc as <-.
  assert (e = mkEpoch (p1 + 1) c1) as -> by (destruct e; simpl in *; f_equal; [lia|congruence]).
  destruct (IH _ _ _ _ Hv1 Hes H) as [Eh Er]. simpl in *. by rewrite Eh, Er, Hh, Hr, <-app_assoc.
Qed.

(** The replica's retired IDs are those its own chain retires. *)
Definition own_chain (m : membership) : Prop :=
  ∃ es, mhistory m = mkEpoch 1 (mconfig m) :: es ∧ retiredIDs m = retired_along ∅ (mconfig m) es.

Lemma applied_own_chain m m' :
  memb_ok m → own_chain m → applied m m' → own_chain m'.
Proof.
  intros Hok (es & Hh & Hr) Ha. destruct Ha as [m' (C1 & C2 & _ & C4 & _)|m' st _ _ _ _ (C1 & C2 & _ & C4 & _)|
    m' st _ _ (C1 & C2 & _ & C4 & _)|m' st Hst Ht (C1 & C2 & _ & C4 & _)]; simpl in *.
  1-3: exists es; split; congruence.
  destruct (mo_last _ Hok) as (e & Hl). destruct (mo_pending _ Hok _ Hst) as [_ _ Hpend].
  destruct (Hpend e Hl) as [Hse _].
  exists (es ++ [mkEpoch (terminal st + 1) (target st)]). rewrite C1. split; [by rewrite C2, Hh|].
  rewrite C4, retired_along_snoc, <-Hr. simpl. do 2 f_equal.
  rewrite (cluster_tip m e) by (try done; destruct (mo_pending _ Hok _ Hst); lia).
  destruct Hl as [Hl _]. rewrite Hh in Hl. destruct es as [|x es]; [by injection Hl as <-|].
  change (last (mkEpoch 1 (mconfig m) :: x :: es)) with (last (x :: es)) in Hl. by rewrite Hl.
Qed.

Lemma step_own_chain m m' :
  memb_ok m → own_chain m → membership_step decodeControl decodeSchedule sha256 m m' → own_chain m'.
Proof.
  intros Hok Hown [now v m2 _ Ha|m2 Hc].
  - apply advance_once_applied in Ha as (m1 & Ha & E1 & E2 & E3 & _). apply (applied_own_chain _ _ Hok Hown) in Ha as (es & ? & ?).
    exists es. split; congruence.
  - destruct Hown as (es & ? & ?), Hc as (? & ? & _ & ? & _). exists es. split; congruence.
Qed.

Lemma steps_own_chain m0 m :
  initial_membership m0 → rtc (membership_step decodeControl decodeSchedule sha256) m0 m → own_chain m.
Proof.
  intros Hi H. assert (own_chain m0) as Hown.
  { destruct Hi as (Eh & _ & _ & Er & _). exists []. by rewrite Eh, Er. }
  pose proof (initial_ok _ Hi) as Hok. clear Hi. induction H as [|x y z Hxy _ IH]; [done|].
  apply IH; [by eapply step_own_chain|]. by eapply membership_step_ok.
Qed.

(** A checkpoint's history rebuilds the replica that wrote it.  When a
    replica that was not itself started from a checkpoint extracts its history,
    and a reader accepts it against the same bootstrap configuration, the
    reader ends up with exactly the replica's configurations, their first slots
    and the retired IDs. *)
Theorem history_reconstructs m0 m h v :
  initial_membership m0 → rtc (membership_step decodeControl decodeSchedule sha256) m0 m →
  baseMembership m = None → MembershipHistory decodeControl sha256 m = Ok h →
  validate_history (mconfig m) h = Ok v → mhistory v = mhistory m ∧ retiredIDs v = retiredIDs m.
Proof.
  intros Hi Hst Hb Hm Hv. destruct (steps_own_chain _ _ Hi Hst) as (es & Hh & Hr).
  unfold MembershipHistory, membershipHistoryLocked in Hm. rewrite Hh, Hb in Hm. simpl in Hm.
  apply rbind_Ok in Hm as (trs & Hes & Hm). apply Ok_inj in Hm as <-.
  apply validated in Hv as (Hwf & _ & _ & v' & c' & p' & _ & Hts & -> & -> & _). simpl in Hts.
  destruct (epoch_transitions_rebuild _ _ _ _ _ _ _ _ _ _ (newVerifier_verified _ Hwf) Hes Hts) as [-> ->].
  split; [|done]. by rewrite Hh.
Qed.
End history.

(** ** A concrete change: the second of three voters leaves *)

Definition tag_hash (v : bytes) : ValueHash := if HasPrefix v prefixDomain then zeroHash else v.
Definition leave_freeze : bytes := reconfigurationMagic ++ [x00].
Definition leave_terminal : bytes := reconfigurationMagic ++ [x01].

(** A phase-2 certificate: the recorders all report the proposal as the
    maximum of the previous step, bound to a freeze. *)
Definition leave_decided (slot : Slot) (value : bytes) (freezeID : ValueHash) (by_ : list NodeID) : DecidedValue :=
  let p := mkProposal [x07] [x01] (tag_hash value) [] in
  mkDecided slot (tag_hash value) value
    (mkDecision 1 slot 6 p ((λ id, mkSummary id freezeID 6 None (Some p)) <$> by_)).

(** The log of a replica that holds the given certificates of the change. *)
Definition leave_log (freezeBy terminalBy : list NodeID) : gmap Slot DecidedValue :=
  <[1 := leave_decided 1 leave_freeze leave_freeze freezeBy]>
  (<[17 := leave_decided 17 leave_terminal leave_freeze terminalBy]>
  (list_to_map ((λ i, (Z.of_nat i, leave_decided (Z.of_nat i) [x2a] zeroHash [[x01]; [x02]])) <$> seq 2 15))).

Definition leave_start (freezeBy terminalBy : list NodeID) : membership :=
  mkMembershipState three true [mkEpoch 1 three] 0 (mkLeaderBase 0 [] 0 []) 0 (leave_log freezeBy terminalBy) ∅
    (list_to_set (Z.of_nat <$> seq 1 17)) ∅ ∅ ∅ None 0 None None ∅ ∅.
Definition leave_end (freezeBy terminalBy : list NodeID) : membership :=
  (advanceReconfigurationTip demo_control one_byte_ids tag_hash 0 (leave_start freezeBy terminalBy)).2.
Definition leave_record (freezeBy terminalBy : list NodeID) : MembershipRecord :=
  mkMembership three [mkTransition (leave_decided 1 leave_freeze leave_freeze freezeBy)
                                   (leave_decided 17 leave_terminal leave_freeze terminalBy)] None.

Abbreviation first_two := [[x01]; [x02]].
Abbreviation last_two := [[x02]; [x03]].
Abbreviation leave_steps := (rtc (membership_step demo_control one_byte_ids tag_hash)).
Abbreviation leave_validate := (validateMembershipHistory demo_control one_byte_ids tag_hash three).
Abbreviation leave_verify := (verify_decision demo_control one_byte_ids tag_hash).

Lemma leave_initial f t : initial_membership (leave_start f t).
Proof. split_and!; try done. apply three_wf. Qed.

Lemma leave_run f t : leave_steps (leave_start f t) (leave_end f t).
Proof.
  apply (advance_tip_steps _ _ _ (size (mdecided (leave_start f t))) 0 _
    (advanceReconfigurationTip demo_control one_byte_ids tag_hash 0 (leave_start f t)).1).
  unfold leave_end, advanceReconfigurationTip. by destruct (advance_tip _ _ _ _ _ _).
Qed.

Definition leave_verified : membership :=
  match leave_validate (leave_record first_two first_two) with Ok v => v | Err _ => newVerifier three end.

(** C34: a replica's own history can be unacceptable.  Two quorums certify the
    same freeze, both certificates are valid, and a replica keeps the one it
    learned; the terminal is then recorded by a quorum inside the other one.
    The replica that keeps the second certificate accepts both controls, moves
    to the new configuration and extracts a history that
    [validateMembershipHistory] rejects, while the same history with the first
    certificate is accepted. *)
Theorem own_history_rejected :
  let replica := leave_end last_two first_two in
  let freeze_with := λ by_, certificate_decision (leave_decided 1 leave_freeze leave_freeze by_) in
  leave_verify (leave_start last_two first_two) false (freeze_with first_two) = None ∧
  leave_verify (leave_start last_two first_two) false (freeze_with last_two) = None ∧
  leave_verify (leave_start last_two first_two) false (certificate_decision (leave_decided 17 leave_terminal leave_freeze first_two)) = None ∧
  mtip replica = 17 ∧ mhistory replica = [mkEpoch 1 three; mkEpoch 18 demo_two] ∧
  MembershipHistory demo_control tag_hash replica = Ok (leave_record last_two first_two) ∧
  leave_validate (leave_record last_two first_two) = Err HErrOutsideFreezeQuorum ∧
  is_Some (match leave_validate (leave_record first_two first_two) with Ok v => Some v | Err _ => None end).
Proof. vm_compute. split_and!; by try eexists. Qed.

Lemma validated_history_chain_witness :
  head (mhistory leave_verified) = Some (mkEpoch 1 three) ∧ length (mhistory leave_verified) = 2%nat.
Proof.
  destruct (validated_history_chain demo_control one_byte_ids tag_hash three (leave_record first_two first_two) leave_verified)
    as (H1 & H2 & _); [vm_compute; reflexivity|]. by split.
Defined.

Lemma history_reconstructs_witness :
  mhistory leave_verified = mhistory (leave_end first_two first_two) ∧
  retiredIDs leave_verified = retiredIDs (leave_end first_two first_two).
Proof.
  apply (history_reconstructs demo_control one_byte_ids tag_hash (leave_start first_two first_two)
    (leave_end first_two first_two) (leave_record first_two first_two)).
  - apply leave_initial.
  - apply leave_run.
  - vm_compute. reflexivity.
  - vm_compute. reflexivity.
  - vm_compute. reflexivity.
Defined.
