(* ===== verification/SqlResult.v ===== *)
(** * Retained SQL results (pkg/materializer/materializer.go, encodeSQLResult
      and decodeSQLResult)

    The result of a replicated SQL command is stored with its receipt so that
    a retry can return it.  The encoder writes to a buffer with a size limit,
    the decoder reads with a working-memory budget.  A float64 is its bits, an
    int64 is a [Z]; a value of any other Go type is [VOther], which the
    encoder refuses.  A write takes the length of the buffer so far and gives
    the bytes it appends; a premature end of the
    input is [ErrEOF] in every check that reports it. *)

From stdpp Require Import gmap list.
From S2P Require Import Prelude Bytes.

(** ** Data *)

Inductive sqlValue :=
| VNil
| VInt (z : Z)
| VFloat (bits : Z)
| VText (s : bytes)
| VBlob (b : bytes)
| VOther.

Record SQLStatementResult := mkStatement {
  RowsAffected : Z;
  LastInsertID : Z;
  Columns : list bytes;
  Rows : list (list sqlValue);
}.

Record SQLCommandResult := mkSQLResult { Statements : list SQLStatementResult; ResultError : bytes }.

Definition MaxSQLStatements : Z := 64.
Definition MaxSQLResultColumns : Z := 2000.
Definition MaxReturningRows : Z := 10000.
Definition MaxResultBytes : Z := Z.shiftl 16 20.
Definition MaxMutationResultBytes : Z := Z.shiftl 1 20.
Definition MaxCellBytes : Z := Z.shiftl 1 20.
Definition maxSQLColumnCharge : Z := 32.
Definition maxSQLStatementCharge : Z := 256.
Definition maxSQLRowCharge : Z := 64.
Definition maxSQLCellCharge : Z := 64.

Inductive sqlError :=
| ErrNoStatements
| ErrStatementCount
| ErrColumnCount
| ErrRowCount
| ErrCellCount
| ErrResultSize
| ErrUnsupported
| ErrEncoding
| ErrEOF
| ErrBudget
| ErrTag
| ErrTrailing
| ErrPrecondition
| ErrReturnedRows
| ErrCellSize.

Abbreviation lenZ l := (Z.of_nat (length l)).

(** ** Encoding *)

Definition writeUint32 (value : Z) : bytes := be_encode 4 value.
Definition writeInt64 (value : Z) : bytes := be_encode 8 (u64 value).

Definition writeBytes (len : Z) (value : bytes) : result sqlError bytes :=
  if (MaxMutationResultBytes - 4 <? lenZ value) || (MaxMutationResultBytes - 4 - lenZ value <? len)
  then Err ErrResultSize
  else Ok (writeUint32 (lenZ value) ++ value).

Definition within_size (len : Z) (b : bytes) : result sqlError bytes :=
  if MaxMutationResultBytes <? len + lenZ b then Err ErrResultSize else Ok b.

Definition writeSQLValue (len : Z) (value : sqlValue) : result sqlError bytes :=
  match value with
  | VNil => within_size len [x00]
  | VInt z => within_size len (x01 :: writeInt64 z)
  | VFloat bits => within_size len (x02 :: writeInt64 bits)
  | VText s => let! b := writeBytes (len + 1) s in Ok (x03 :: b)
  | VBlob s => let! b := writeBytes (len + 1) s in Ok (x04 :: b)
  | VOther => Err ErrUnsupported
  end.

(** A loop that writes the elements of a slice one after the other. *)
Fixpoint write_all {A} (write : Z → A → result sqlError bytes) (len : Z) (l : list A) : result sqlError bytes :=
  match l with
  | [] => Ok []
  | x :: l' =>
      let! a := write len x in
      let! b := write_all write (len + lenZ a) l' in
      Ok (a ++ b)
  end.

Definition write_row (columns : nat) (len : Z) (row : list sqlValue) : result sqlError bytes :=
  if negb (Nat.eqb (length row) columns) then Err ErrCellCount
  else
    let header := writeUint32 (lenZ row) in
    let! cells := write_all writeSQLValue (len + lenZ header) row in
    Ok (header ++ cells).

Definition write_statement (len : Z) (s : SQLStatementResult) : result sqlError bytes :=
  if MaxSQLResultColumns <? lenZ (Columns s) then Err ErrColumnCount
  else if MaxReturningRows <? lenZ (Rows s) then Err ErrRowCount
  else
    let header := writeInt64 (RowsAffected s) ++ writeInt64 (LastInsertID s) ++ writeUint32 (lenZ (Columns s)) in
    let! columns := write_all writeBytes (len + lenZ header) (Columns s) in
    let count := writeUint32 (lenZ (Rows s)) in
    let! rows := write_all (write_row (length (Columns s))) (len + lenZ header + lenZ columns + lenZ count) (Rows s) in
    Ok (header ++ columns ++ count ++ rows).

Definition sqlMagic : bytes := [x52; x53; x51; x4c].

Definition encodeSQLResult (r : SQLCommandResult) : result sqlError bytes :=
  match Statements r with
  | [] => if bool_decide (ResultError r = []) then Ok [] else Err ErrNoStatements
  | _ =>
      if MaxSQLStatements <? lenZ (Statements r) then Err ErrStatementCount
      else
        let header := sqlMagic ++ writeUint32 (lenZ (Statements r)) in
        let! statements := write_all write_statement (lenZ header) (Statements r) in
        let! error := writeBytes (lenZ header + lenZ statements) (ResultError r) in
        Ok (header ++ statements ++ error)
  end.

(** ** Decoding *)

(** The unread bytes and the budget that is left. *)
Definition reader (A : Type) : Type := bytes * Z → result sqlError (A * (bytes * Z)).

Definition ret {A} (x : A) : reader A := λ s, Ok (x, s).
Definition bind {A B} (r : reader A) (k : A → reader B) : reader B := λ s, let! p := r s in k p.1 p.2.
Definition fail {A} (e : sqlError) : reader A := λ _, Err e.

Notation "x ← r ; k" := (bind r (λ x, k)) (at level 20, r at level 100, k at level 200, right associativity) : rhiza_scope.

Definition read_exact (n : nat) : reader bytes := λ '(b, budget),
  if Nat.ltb (length b) n then Err ErrEOF else Ok (take n b, (drop n b, budget)).

(** [binary.Read] looks at a bounded prefix only. *)
Definition read_word (n : nat) : reader Z := λ '(b, budget),
  if Nat.ltb (length (take n b)) n then Err ErrEOF else Ok (be_decode (take n b), (drop n b, budget)).

Definition readUint32 : reader Z := read_word 4.
Definition signed64 (z : Z) : Z := if z <? 2 ^ 63 then z else z - 2 ^ 64.
Definition readInt64 : reader Z := z ← read_word 8; ret (signed64 z).

(** [*budget -= n], after a check that there is that much. *)
Definition spend (n : Z) (e : sqlError) : reader unit := λ '(b, budget),
  if budget <? n then Err e else Ok (tt, (b, budget - n)).

Definition readBudgetBytes (overhead maximum : Z) : reader bytes :=
  size ← readUint32;
  λ '(b, budget),
    if (maximum <? size) || (lenZ b <? size) || (budget <? size + overhead) then Err ErrBudget
    else read_exact (Z.to_nat size) (b, budget - (size + overhead)).

Definition readByte : reader byte := λ '(b, budget),
  match b with [] => Err ErrEOF | x :: b' => Ok (x, (b', budget)) end.

Definition readSQLValueBudget : reader sqlValue :=
  tag ← readByte;
  match byteZ tag with
  | 0 => _ ← spend 65 ErrBudget; ret VNil
  | 1 => _ ← spend 80 ErrBudget; z ← readInt64; ret (VInt z)
  | 2 => _ ← spend 80 ErrBudget; z ← readInt64; ret (VFloat (u64 z))
  | 3 => b ← readBudgetBytes 0 MaxCellBytes; ret (VText b)
  | 4 => b ← readBudgetBytes 0 MaxCellBytes; ret (VBlob b)
  | _ => fail ErrTag
  end.

Fixpoint read_n {A} (n : nat) (r : reader A) : reader (list A) :=
  match n with
  | O => ret []
  | S n' => x ← r; l ← read_n n' r; ret (x :: l)
  end.

Definition check (b : bool) (e : sqlError) : reader unit := if b then ret tt else fail e.

Definition read_row (columns : Z) : reader (list sqlValue) :=
  cellCount ← readUint32;
  _ ← check (cellCount =? columns) ErrCellCount;
  _ ← (λ s, if Z.quot s.2 maxSQLCellCharge <? cellCount then Err ErrBudget else Ok (tt, s));
  _ ← (λ s, Ok (tt, (s.1, s.2 - cellCount * maxSQLCellCharge)));
  read_n (Z.to_nat cellCount) readSQLValueBudget.

Definition read_statement : reader SQLStatementResult :=
  rowsAffected ← readInt64;
  lastInsertID ← readInt64;
  columns ← readUint32;
  _ ← check (columns <=? MaxSQLResultColumns) ErrColumnCount;
  names ← read_n (Z.to_nat columns) (readBudgetBytes maxSQLColumnCharge MaxMutationResultBytes);
  rowCount ← readUint32;
  _ ← (λ s, if (MaxReturningRows <? rowCount) || (Z.quot s.2 maxSQLRowCharge <? rowCount) then Err ErrRowCount
            else Ok (tt, (s.1, s.2 - rowCount * maxSQLRowCharge)));
  rows ← read_n (Z.to_nat rowCount) (read_row columns);
  ret (mkStatement rowsAffected lastInsertID names rows).

Definition readMagic : reader unit := λ '(b, budget),
  if bool_decide (take 4 b = sqlMagic) then Ok (tt, (drop 4 b, budget)) else Err ErrEncoding.

Definition read_result : reader SQLCommandResult :=
  _ ← readMagic;
  count ← readUint32;
  _ ← check (count <=? MaxSQLStatements) ErrStatementCount;
  _ ← (λ s, Ok (tt, (s.1, s.2 - count * maxSQLStatementCharge)));
  statements ← read_n (Z.to_nat count) read_statement;
  error ← readBudgetBytes 0 MaxMutationResultBytes;
  ret (mkSQLResult statements error).

Definition decodeSQLResult (encoded : bytes) : result sqlError SQLCommandResult :=
  if MaxMutationResultBytes <? lenZ encoded then Err ErrResultSize
  else
    match read_result (encoded, MaxResultBytes) with
    | Err e => Err e
    | Ok (r, (rest, _)) => if bool_decide (rest = []) then Ok r else Err ErrTrailing
    end.

(** ** Working memory *)

Definition sqlValueSize (v : sqlValue) : Z :=
  match v with
  | VText s => lenZ s
  | VBlob b => lenZ b
  | VNil => 1
  | _ => 16
  end.

(** [add] saturates just above the limit. *)
Definition saturating_add (size n : Z) : Z := if MaxResultBytes - size <? n then MaxResultBytes + 1 else size + n.

Definition sqlResultWorkingBytes (r : SQLCommandResult) : Z :=
  fold_left (λ size s,
    let size := saturating_add size maxSQLStatementCharge in
    let size := fold_left (λ size c, saturating_add size (maxSQLColumnCharge + lenZ c)) (Columns s) size in
    fold_left (λ size row,
      let size := saturating_add size (maxSQLRowCharge + lenZ row * maxSQLCellCharge) in
      fold_left (λ size v, saturating_add size (sqlValueSize v)) row size) (Rows s) size)
    (Statements r) 0.

(** ** Collecting the rows of a statement *)

Record resultBudget := mkBudget { budgetRows : Z; budgetBytes : Z }.

(** The values of a row are charged one by one. *)
Fixpoint charge_values (values : list sqlValue) (bytes_ : Z) : result sqlError Z :=
  match values with
  | [] => Ok bytes_
  | v :: rest =>
      if MaxCellBytes <? sqlValueSize v then Err ErrCellSize
      else if bytes_ - sqlValueSize v <? 0 then Err ErrResultSize
      else charge_values rest (bytes_ - sqlValueSize v)
  end.

(** The loop over the rows the driver returns. *)
Fixpoint collect_rows (columns : Z) (expectedRows : option Z) (collected : Z) (rows : list (list sqlValue)) (b : resultBudget)
    : result sqlError resultBudget :=
  match rows with
  | [] => Ok b
  | row :: rest =>
      if bool_decide (expectedRows = Some collected) then Err ErrPrecondition
      else if budgetRows b =? 0 then Err ErrReturnedRows
      else if budgetBytes b <? maxSQLRowCharge + columns * maxSQLCellCharge then Err ErrResultSize
      else
        let! remaining := charge_values row (budgetBytes b - (maxSQLRowCharge + columns * maxSQLCellCharge)) in
        collect_rows columns expectedRows (collected + 1) rest (mkBudget (budgetRows b - 1) remaining)
  end.

Definition collectRowsWithBudget (columns : list bytes) (rows : list (list sqlValue)) (expectedRows : option Z) (b : resultBudget)
    : result sqlError (SQLStatementResult * resultBudget) :=
  if MaxSQLResultColumns <? lenZ columns then Err ErrColumnCount
  else
    let remaining := fold_left (λ n c, n - (maxSQLColumnCharge + lenZ c)) columns (budgetBytes b) in
    if remaining <? 0 then Err ErrResultSize
    else
      let! b' := collect_rows (lenZ columns) expectedRows 0 rows (mkBudget (budgetRows b) remaining) in
      Ok (mkStatement 0 0 columns rows, b').
