(* ===== verification/SqlResultProofs.v ===== *)
(** * When a stored SQL result can be read back

    The decoder returns what was encoded exactly when the budget it charges
    covers the result; that charge counts every cell twice, so a result the
    executor accepted and stored can be unreadable. *)

From stdpp Require Import gmap list.
From S2P Require Import Prelude Bytes SqlResult.

(** ** Reading what was written

    [consumes r enc x c]: from an input that starts with [enc] the reader [r]
    returns [x] and spends [c] of the budget, or fails when there is less. *)
Definition consumes {A} (r : reader A) (enc : bytes) (x : A) (c : Z) : Prop :=
  ∀ rest b, 0 <= b →
    (c <= b → r (enc ++ rest, b) = Ok (x, (rest, b - c))) ∧
    (b < c → ∃ e, r (enc ++ rest, b) = Err e).

Lemma consumes_ret {A} (x : A) : consumes (ret x) [] x 0.
Proof. intros rest b Hb. split; [|lia]. intros _. unfold ret. by rewrite Z.sub_0_r. Qed.

Lemma consumes_bind {A B} (r : reader A) (k : A → reader B) e1 e2 x y c1 c2 c :
  consumes r e1 x c1 → consumes (k x) e2 y c2 → 0 <= c1 → 0 <= c2 → c = c1 + c2 → consumes (bind r k) (e1 ++ e2) y c.
Proof.
  intros H1 H2 Hc1 Hc2 -> rest b Hb. unfold bind. rewrite <-app_assoc. destruct (H1 (e2 ++ rest) b Hb) as [Hok Herr].
  split; intros H.
  - rewrite Hok by lia. simpl. destruct (H2 rest (b - c1)) as [Hok2 _]; [lia|].
    rewrite Hok2 by lia. do 3 f_equal. lia.
  - destruct (decide (b < c1)) as [Hlt|Hge]; [destruct (Herr Hlt) as [e ->]; by exists e|].
    rewrite Hok by lia. simpl. destruct (H2 rest (b - c1)) as [_ Herr2]; [lia|]. apply Herr2. lia.
Qed.

(** The last step of a reader. *)
Lemma consumes_map {A B} (r : reader A) (f : A → B) e x c y :
  consumes r e x c → 0 <= c → y = f x → consumes (bind r (λ z, ret (f z))) e y c.
Proof.
  intros H Hc ->. rewrite <-(app_nil_r e). eapply consumes_bind; [done|apply consumes_ret|done|lia|lia].
Qed.

Lemma consumes_check (b : bool) e : b = true → consumes (check b e) [] tt 0.
Proof. intros ->. apply consumes_ret. Qed.

Lemma consumes_spend n e : 0 <= n → consumes (spend n e) [] tt n.
Proof.
  intros Hn rest b Hb. unfold spend. simpl. split; intros H.
  - destruct (Z.ltb_spec b n); [lia|done].
  - destruct (Z.ltb_spec b n); [by eexists|lia].
Qed.

Lemma consumes_word n z : 0 <= z < 2 ^ (8 * Z.of_nat n) → consumes (read_word n) (be_encode n z) z 0.
Proof.
  intros Hz rest b Hb. unfold read_word. split; [|lia]. intros _.
  rewrite take_app_length' by (by rewrite be_encode_length). rewrite drop_app_length' by (by rewrite be_encode_length).
  rewrite be_encode_length, Nat.ltb_irrefl, be_decode_encode by done. by rewrite Z.sub_0_r.
Qed.

Lemma consumes_uint32 z : 0 <= z < 2 ^ 32 → consumes readUint32 (writeUint32 z) z 0.
Proof. intros Hz. apply consumes_word. done. Qed.

Lemma signed64_u64 z : - 2 ^ 63 <= z < 2 ^ 63 → signed64 (u64 z) = z.
Proof.
  intros Hz. unfold signed64, u64. destruct (decide (0 <= z)) as [Hp|Hn].
  - rewrite Z.mod_small by lia. destruct (Z.ltb_spec z (2 ^ 63)); lia.
  - assert (z mod 2 ^ 64 = z + 2 ^ 64) as ->.
    { symmetry. apply Z.mod_unique with (-1); lia. }
    destruct (Z.ltb_spec (z + 2 ^ 64) (2 ^ 63)); lia.
Qed.

Lemma u64_signed64 z : 0 <= z < 2 ^ 64 → u64 (signed64 z) = z.
Proof.
  intros Hz. unfold signed64, u64. destruct (Z.ltb_spec z (2 ^ 63)); [apply Z.mod_small; lia|].
  symmetry. apply Z.mod_unique with (-1); lia.
Qed.

Lemma consumes_int64_bits z : consumes readInt64 (writeInt64 z) (signed64 (u64 z)) 0.
Proof.
  unfold readInt64, writeInt64. eapply consumes_map; [apply consumes_word|lia|done].
  change (8 * Z.of_nat 8) with 64. unfold u64. apply Z.mod_pos_bound. lia.
Qed.

Lemma consumes_int64 z : - 2 ^ 63 <= z < 2 ^ 63 → consumes readInt64 (writeInt64 z) z 0.
Proof. intros Hz. rewrite <-(signed64_u64 z Hz) at 2. apply consumes_int64_bits. Qed.

Lemma consumes_bytes overhead maximum (v : bytes) :
  0 <= overhead → lenZ v <= maximum → lenZ v < 2 ^ 32 →
  consumes (readBudgetBytes overhead maximum) (writeUint32 (lenZ v) ++ v) v (lenZ v + overhead).
Proof.
  intros Ho Hm Hlen. unfold readBudgetBytes.
  apply (consumes_bind _ _ _ _ (lenZ v) _ 0 (lenZ v + overhead)); [apply consumes_uint32; lia| |lia|lia|lia].
  intros rest b Hb. destruct (Z.ltb_spec maximum (lenZ v)); [lia|]. rewrite length_app.
  destruct (Z.ltb_spec (Z.of_nat (length v + length rest)) (lenZ v)); [lia|]. simpl. split; intros H'.
  - destruct (Z.ltb_spec b (lenZ v + overhead)); [lia|]. rewrite Nat2Z.id. unfold read_exact. rewrite length_app.
    destruct (Nat.ltb_spec (length v + length rest) (length v)); [lia|]. by rewrite take_app_length, drop_app_length.
  - destruct (Z.ltb_spec b (lenZ v + overhead)); [by eexists|lia].
Qed.

(** A loop over the elements of a slice. *)
Lemma consumes_all {A} (write : Z → A → result sqlError bytes) (r : reader A) (charge : A → Z) l len enc :
  (∀ x len e, x ∈ l → write len x = Ok e → 0 <= charge x ∧ consumes r e x (charge x)) →
  write_all write len l = Ok enc → consumes (read_n (length l) r) enc l (total charge l) ∧ 0 <= total charge l.
Proof.
  revert len enc. induction l as [|x l IH]; intros len enc H; simpl.
  { intros <-%Ok_inj. split; [apply consumes_ret|lia]. }
  intros (a & Ha & Hb)%rbind_Ok. apply rbind_Ok in Hb as (b & Hb & Hab). apply Ok_inj in Hab as <-.
  destruct (H x len a ltac:(left) Ha) as [Hpos Hx].
  destruct (IH _ _ (λ y len e Hy, H y len e (list_elem_of_further _ _ _ Hy)) Hb) as [Hl Hpos'].
  split; [|lia]. eapply consumes_bind; [done|by eapply consumes_map|done|done|done].
Qed.

(** ** What the decoder charges *)

Definition value_charge (v : sqlValue) : Z :=
  match v with
  | VNil => 65
  | VInt _ | VFloat _ => 80
  | VText s => lenZ s
  | VBlob b => lenZ b
  | VOther => 0
  end.
Definition row_charge (row : list sqlValue) : Z := lenZ row * maxSQLCellCharge + total value_charge row.
Definition column_charge (c : bytes) : Z := lenZ c + maxSQLColumnCharge.
Definition statement_charge (s : SQLStatementResult) : Z :=
  total column_charge (Columns s) + (lenZ (Rows s) * maxSQLRowCharge + total row_charge (Rows s)).
Definition decode_charge (r : SQLCommandResult) : Z :=
  lenZ (Statements r) * maxSQLStatementCharge + total statement_charge (Statements r) + lenZ (ResultError r).

(** Values of their Go types. *)
Definition wf_value (v : sqlValue) : Prop :=
  match v with
  | VInt z => - 2 ^ 63 <= z < 2 ^ 63
  | VFloat bits => 0 <= bits < 2 ^ 64
  | _ => True
  end.
Definition wf_statement (s : SQLStatementResult) : Prop :=
  - 2 ^ 63 <= RowsAffected s < 2 ^ 63 ∧ - 2 ^ 63 <= LastInsertID s < 2 ^ 63 ∧
  Forall (Forall wf_value) (Rows s).
Definition wf_result (r : SQLCommandResult) : Prop := Forall wf_statement (Statements r).

Lemma value_charge_nonneg v : 0 <= value_charge v.
Proof. destruct v; simpl; lia. Qed.
Lemma row_charge_nonneg row : 0 <= row_charge row.
Proof.
  pose proof (total_nonneg value_charge row value_charge_nonneg). unfold row_charge, maxSQLCellCharge. lia.
Qed.

Lemma writeBytes_Ok len v e :
  writeBytes len v = Ok e → e = writeUint32 (lenZ v) ++ v ∧ lenZ v <= MaxMutationResultBytes - 4 ∧ len + lenZ e <= MaxMutationResultBytes.
Proof.
  unfold writeBytes. destruct (_ || _) eqn:E; [done|]. intros <-%Ok_inj. bool_hyps. split_and!; [done|done|].
  unfold writeUint32. rewrite length_app, be_encode_length. lia.
Qed.

Lemma small_length (v : bytes) : lenZ v <= MaxMutationResultBytes - 4 → lenZ v < 2 ^ 32.
Proof. change MaxMutationResultBytes with 1048576. lia. Qed.

Lemma consumes_column len v e :
  writeBytes len v = Ok e → 0 <= column_charge v ∧ consumes (readBudgetBytes maxSQLColumnCharge MaxMutationResultBytes) e v (column_charge v).
Proof.
  intros (-> & Hv & _)%writeBytes_Ok. unfold column_charge, maxSQLColumnCharge. split; [lia|].
  apply consumes_bytes; [lia|lia|by apply small_length].
Qed.

Lemma consumes_cell_bytes len v e :
  writeBytes len v = Ok e → consumes (readBudgetBytes 0 MaxCellBytes) e v (lenZ v).
Proof.
  intros (-> & Hv & _)%writeBytes_Ok. replace (lenZ v) with (lenZ v + 0) at 2 by lia.
  apply consumes_bytes; [lia| |by apply small_length]. change MaxCellBytes with MaxMutationResultBytes. lia.
Qed.

Lemma within_size_Ok len b e : within_size len b = Ok e → e = b.
Proof. unfold within_size. case_match; [done|]. by intros <-%Ok_inj. Qed.

Lemma consumes_tag {A} (t : byte) (k : byte → reader A) e x c :
  consumes (k t) e x c → 0 <= c → consumes (bind readByte k) (t :: e) x c.
Proof.
  intros H Hc. change (t :: e) with ([t] ++ e). eapply consumes_bind; [|done|reflexivity|done|lia].
  intros rest b Hb. split; [|lia]. intros _. simpl. by rewrite Z.sub_0_r.
Qed.

Lemma consumes_value len v e :
  wf_value v → writeSQLValue len v = Ok e → consumes readSQLValueBudget e v (value_charge v).
Proof.
  intros Hwf. unfold readSQLValueBudget. destruct v as [|z|z|s|s|]; simpl.
  - intros ->%within_size_Ok. apply consumes_tag; [|lia]. simpl.
    eapply (consumes_map _ (λ _, VNil)); [by apply consumes_spend|lia|done].
  - intros ->%within_size_Ok. apply consumes_tag; [|lia]. simpl.
    apply (consumes_bind _ _ [] _ tt _ 80 0); [by apply consumes_spend| |lia..].
    eapply consumes_map; [by apply consumes_int64|lia|done].
  - intros ->%within_size_Ok. apply consumes_tag; [|lia]. simpl.
    apply (consumes_bind _ _ [] _ tt _ 80 0); [by apply consumes_spend| |lia..].
    eapply consumes_map; [apply consumes_int64_bits|lia|]. rewrite u64_signed64; [|unfold u64; apply Z.mod_pos_bound; lia].
    f_equal. symmetry. by apply Z.mod_small.
  - intros (b & Hb & <-%Ok_inj)%rbind_Ok. apply consumes_tag; [|lia]. simpl.
    eapply consumes_map; [by eapply consumes_cell_bytes|lia|done].
  - intros (b & Hb & <-%Ok_inj)%rbind_Ok. apply consumes_tag; [|lia]. simpl.
    eapply consumes_map; [by eapply consumes_cell_bytes|lia|done].
  - done.
Qed.

(** The two checks that divide the budget by a charge. *)
Lemma quot_charge b n k : 0 <= b → 0 < k → Z.quot b k < n ↔ b < n * k.
Proof.
  intros Hb Hk. rewrite Z.quot_div_nonneg by lia. split; intros H.
  - pose proof (Z.mul_succ_div_gt b k Hk). nia.
  - apply Z.div_lt_upper_bound; lia.
Qed.

Lemma consumes_row columns len row e :
  Forall wf_value row → Z.of_nat columns <= MaxSQLResultColumns → write_row columns len row = Ok e →
  consumes (read_row (Z.of_nat columns)) e row (row_charge row).
Proof.
  intros Hwf Hcol. unfold write_row. destruct (Nat.eqb_spec (length row) columns) as [<-|]; simpl negb; cbv iota; [|done].
  intros (cells & Hc & <-%Ok_inj)%rbind_Ok. unfold read_row.
  destruct (consumes_all writeSQLValue readSQLValueBudget value_charge row _ _ (λ x len e Hx Hw,
    conj (value_charge_nonneg x) (consumes_value len x e (proj1 (Forall_forall _ _) Hwf x Hx) Hw)) Hc) as [Hall Hpos].
  pose proof (row_charge_nonneg row) as Hrow.
  apply (consumes_bind _ _ _ _ (lenZ row) _ 0 (row_charge row)); [apply consumes_uint32| |lia..].
  { change MaxSQLResultColumns with 2000 in Hcol. lia. }
  apply (consumes_bind _ _ [] _ tt _ 0 (row_charge row)); [apply consumes_check, Z.eqb_refl| |lia..].
  intros rest b Hb. unfold bind. cbn [rbind fst snd].
  destruct (Z.ltb_spec (Z.quot b maxSQLCellCharge) (lenZ row)) as [Hlt|Hge].
  - apply quot_charge in Hlt; [|done|done]. unfold row_charge. split; [lia|]. by eexists.
  - assert (lenZ row * maxSQLCellCharge <= b) as Hle.
    { apply Z.nlt_ge. rewrite <-quot_charge by done. lia. }
    cbn [rbind fst snd]. rewrite Nat2Z.id. destruct (Hall rest (b - lenZ row * maxSQLCellCharge)) as [H1 H2]; [lia|].
    unfold row_charge. split; intros H; [rewrite H1 by lia; do 3 f_equal; lia|apply H2; lia].
Qed.

Lemma column_charge_nonneg c : 0 <= column_charge c.
Proof. unfold column_charge, maxSQLColumnCharge. lia. Qed.

Lemma statement_charge_nonneg s : 0 <= statement_charge s.
Proof.
  pose proof (total_nonneg column_charge (Columns s) column_charge_nonneg).
  pose proof (total_nonneg row_charge (Rows s) row_charge_nonneg).
  unfold statement_charge, maxSQLRowCharge. lia.
Qed.

(** The rows of a statement, from their count on. *)
Lemma consumes_rows columns len rows e :
  Forall (Forall wf_value) rows → Z.of_nat columns <= MaxSQLResultColumns → lenZ rows <= MaxReturningRows →
  write_all (write_row columns) len rows = Ok e →
  consumes (_ ← (λ s, if (MaxReturningRows <? lenZ rows) || (Z.quot s.2 maxSQLRowCharge <? lenZ rows) then Err ErrRowCount
                      else Ok (tt, (s.1, s.2 - lenZ rows * maxSQLRowCharge)));
            read_n (Z.to_nat (lenZ rows)) (read_row (Z.of_nat columns))) e rows (lenZ rows * maxSQLRowCharge + total row_charge rows).
Proof.
  intros Hwf Hcol Hmax Hw.
  destruct (consumes_all (write_row columns) (read_row (Z.of_nat columns)) row_charge rows _ _ (λ x len e Hx Hw,
    conj (row_charge_nonneg x) (consumes_row columns len x e (proj1 (Forall_forall _ _) Hwf x Hx) Hcol Hw)) Hw) as [Hall Hpos].
  intros rest b Hb. unfold bind. cbn [fst snd]. destruct (Z.ltb_spec MaxReturningRows (lenZ rows)); [lia|]. simpl orb.
  destruct (Z.ltb_spec (Z.quot b maxSQLRowCharge) (lenZ rows)) as [Hlt|Hge].
  - apply quot_charge in Hlt; [|done|done]. split; [lia|]. by eexists.
  - assert (lenZ rows * maxSQLRowCharge <= b) as Hle.
    { apply Z.nlt_ge. rewrite <-quot_charge by done. lia. }
    cbn [rbind fst snd]. rewrite Nat2Z.id. destruct (Hall rest (b - lenZ rows * maxSQLRowCharge)) as [H1 H2]; [lia|].
    split; intros H'; [rewrite H1 by lia; do 3 f_equal; lia|apply H2; lia].
Qed.

Lemma bind_assoc {A B C} (r : reader A) (k : A → reader B) (k' : B → reader C) s :
  bind (bind r k) k' s = bind r (λ x, bind (k x) k') s.
Proof. unfold bind. by destruct (r s). Qed.

Lemma consumes_ext {A} (r r' : reader A) e x c : (∀ s, r s = r' s) → consumes r e x c → consumes r' e x c.
Proof. intros H Hc rest b Hb. rewrite <-H. by apply Hc. Qed.

Lemma consumes_statement len s e :
  wf_statement s → write_statement len s = Ok e → consumes read_statement e s (statement_charge s).
Proof.
  intros (Hra & Hli & Hrows). unfold write_statement.
  destruct (Z.ltb_spec MaxSQLResultColumns (lenZ (Columns s))) as [|Hcols]; [done|].
  destruct (Z.ltb_spec MaxReturningRows (lenZ (Rows s))) as [|Hmax]; [done|].
  intros (cols & Hcw & H)%rbind_Ok. apply rbind_Ok in H as (rows & Hrw & <-%Ok_inj).
  destruct (consumes_all writeBytes (readBudgetBytes maxSQLColumnCharge MaxMutationResultBytes) column_charge (Columns s) _ _
    (λ x len e _ Hw, consumes_column len x e Hw) Hcw) as [Hcall Hcpos].
  pose proof (consumes_rows _ _ _ _ Hrows Hcols Hmax Hrw) as Hr.
  pose proof (total_nonneg row_charge (Rows s) row_charge_nonneg) as Hrpos.
  assert (0 <= lenZ (Rows s) * maxSQLRowCharge + total row_charge (Rows s)) as Hrpos' by (unfold maxSQLRowCharge; lia).
  rewrite <-!app_assoc. unfold read_statement, statement_charge.
  set (cr := lenZ (Rows s) * maxSQLRowCharge + total row_charge (Rows s)) in *.
  set (cc := total column_charge (Columns s)) in *.
  apply (consumes_bind _ _ _ _ (RowsAffected s) _ 0 (cc + cr)); [by apply consumes_int64| |lia..].
  apply (consumes_bind _ _ _ _ (LastInsertID s) _ 0 (cc + cr)); [by apply consumes_int64| |lia..].
  apply (consumes_bind _ _ _ _ (lenZ (Columns s)) _ 0 (cc + cr)); [apply consumes_uint32| |lia..].
  { change MaxSQLResultColumns with 2000 in Hcols. lia. }
  apply (consumes_bind _ _ [] _ tt _ 0 (cc + cr)); [by apply consumes_check, Z.leb_le| |lia..].
  rewrite Nat2Z.id. apply (consumes_bind _ _ _ _ (Columns s) _ cc cr); [done| |lia..].
  apply (consumes_bind _ _ _ _ (lenZ (Rows s)) _ 0 cr); [apply consumes_uint32| |lia..].
  { change MaxReturningRows with 10000 in Hmax. lia. }
  eapply consumes_ext; [intros st; apply bind_assoc|].
  eapply consumes_map; [exact Hr|done|by destruct s].
Qed.

(** ** The stored form of a result *)

Lemma encode_size r e : encodeSQLResult r = Ok e → Statements r ≠ [] → lenZ e <= MaxMutationResultBytes.
Proof.
  unfold encodeSQLResult. intros H Hne. destruct (Statements r) as [|s ss]; [done|].
  destruct (_ <? _); [done|]. apply rbind_Ok in H as (st & _ & H). apply rbind_Ok in H as (er & He & H).
  apply Ok_inj in H as <-. apply writeBytes_Ok in He as (_ & _ & He). revert He.
  rewrite !length_app, !Nat2Z.inj_add. lia.
Qed.

(** The magic, the count and the statement charges. *)
Lemma read_result_start n rest : 0 <= n <= MaxSQLStatements →
  read_result (sqlMagic ++ writeUint32 n ++ rest, MaxResultBytes) =
  (statements ← read_n (Z.to_nat n) read_statement;
   error ← readBudgetBytes 0 MaxMutationResultBytes; ret (mkSQLResult statements error))
    (rest, MaxResultBytes - n * maxSQLStatementCharge).
Proof.
  intros Hn. change MaxSQLStatements with 64 in Hn.
  destruct (consumes_uint32 n ltac:(lia) rest MaxResultBytes ltac:(done)) as [Hword _].
  unfold read_result. unfold bind at 1. unfold readMagic.
  change (take 4 (sqlMagic ++ ?x)) with sqlMagic. change (drop 4 (sqlMagic ++ ?x)) with x.
  rewrite bool_decide_eq_true_2 by done. cbn [rbind fst snd]. unfold bind at 1. rewrite Hword by done.
  cbn [rbind fst snd]. unfold bind at 1. change MaxSQLStatements with 64. rewrite (proj2 (Z.leb_le n 64)) by lia.
  cbn [check ret rbind fst snd]. unfold bind at 1. cbn [rbind fst snd]. by rewrite Z.sub_0_r.
Qed.

(** A stored result is read back exactly when the decoder's charge covers
    it: the charge of [decode_charge] against the 16 MiB of working memory. *)
Theorem stored_result_readable r e :
  wf_result r → Statements r ≠ [] → encodeSQLResult r = Ok e →
  (decode_charge r <= MaxResultBytes → decodeSQLResult e = Ok r) ∧
  (MaxResultBytes < decode_charge r → ∃ err, decodeSQLResult e = Err err).
Proof.
  intros Hwf Hne He. pose proof (encode_size _ _ He Hne) as Hsz. unfold decodeSQLResult.
  destruct (Z.ltb_spec MaxMutationResultBytes (lenZ e)); [lia|].
  unfold encodeSQLResult in He. destruct (Statements r) as [|s0 ss] eqn:Est; [done|]. rewrite <-Est in *. clear Hne.
  destruct (Z.ltb_spec MaxSQLStatements (lenZ (Statements r))) as [|Hcount]; [done|].
  apply rbind_Ok in He as (st & Hst & He). apply rbind_Ok in He as (er & Her & He). apply Ok_inj in He as <-.
  destruct (consumes_all write_statement read_statement statement_charge (Statements r) _ _ (λ x len e Hx Hw,
    conj (statement_charge_nonneg x) (consumes_statement len x e (proj1 (Forall_forall _ _) Hwf x Hx) Hw)) Hst) as [Hall Hpos].
  apply writeBytes_Ok in Her as (-> & Hel & _).
  assert (consumes (statements ← read_n (Z.to_nat (lenZ (Statements r))) read_statement;
    error ← readBudgetBytes 0 MaxMutationResultBytes; ret (mkSQLResult statements error))
    (st ++ (writeUint32 (lenZ (ResultError r)) ++ ResultError r)) r
    (total statement_charge (Statements r) + lenZ (ResultError r))) as Hrd.
  { rewrite Nat2Z.id. eapply consumes_bind; [exact Hall| |done|apply Nat2Z.is_nonneg|done].
    eapply (consumes_map _ (mkSQLResult (Statements r)) _ (ResultError r)); [|lia|by destruct r].
    replace (lenZ (ResultError r)) with (lenZ (ResultError r) + 0) at 2 by lia.
    apply consumes_bytes; [lia|lia|by apply small_length]. }
  destruct (Hrd [] (MaxResultBytes - lenZ (Statements r) * maxSQLStatementCharge)) as [Hok Herr].
  { change MaxSQLStatements with 64 in Hcount. change MaxResultBytes with 16777216. unfold maxSQLStatementCharge. lia. }
  rewrite app_nil_r in Hok, Herr.
  rewrite <-!app_assoc, read_result_start by (split; [lia|exact Hcount]).
  unfold decode_charge. split; intros H'.
  - by rewrite Hok by lia.
  - destruct Herr as [err ->]; [lia|]. by exists err.
Qed.

(** ** Results the executor accepts *)

(** A statement that returned ten thousand rows of fourteen NULLs. *)
Definition null_rows : SQLCommandResult :=
  mkSQLResult [mkStatement 0 0 (repeat [x61] 14) (repeat (repeat VNil 14) (Z.to_nat 10000))] [].

Lemma collect_shape columns rows expected b s b' :
  collectRowsWithBudget columns rows expected b = Ok (s, b') → s = mkStatement 0 0 columns rows.
Proof.
  unfold collectRowsWithBudget. destruct (_ <? _); [done|]. cbv zeta. destruct (_ <? _); [done|].
  destruct (collect_rows _ _ _ _ _); cbn [rbind]; [|done]. by intros [= <- _].
Qed.

(** The budget a statement of a command starts with. *)
Definition statementBudget : resultBudget := mkBudget MaxReturningRows (MaxResultBytes - maxSQLStatementCharge).

(** A result that [collectRowsWithBudget] accepts is encoded and stored, and
    the stored bytes cannot be decoded: the decoder charges each NULL 64 for its
    cell and then 65 for its value, which already contains the 64. *)
Theorem stored_result_unreadable :
  match Statements null_rows with
  | [s] => ∃ b, collectRowsWithBudget (Columns s) (Rows s) None statementBudget = Ok (s, b)
  | _ => False
  end ∧
  match encodeSQLResult null_rows with
  | Ok e => lenZ e <= MaxMutationResultBytes ∧ decodeSQLResult e = Err ErrBudget
  | Err _ => False
  end.
Proof.
  split.
  { assert (match Statements null_rows with
      | [s] => match collectRowsWithBudget (Columns s) (Rows s) None statementBudget with Ok _ => true | Err _ => false end
      | _ => false end = true) as H by (vm_compute; reflexivity).
    unfold null_rows in *. cbn [Statements] in *. destruct (collectRowsWithBudget _ _ _ _) as [[s b]|] eqn:E; [|done].
    exists b. by rewrite (collect_shape _ _ _ _ _ _ E). }
  assert ((match encodeSQLResult null_rows with
    | Ok e => (lenZ e <=? MaxMutationResultBytes) &&
        match decodeSQLResult e with Err ErrBudget => true | _ => false end
    | Err _ => false end) = true) as H by (vm_compute; reflexivity).
  destruct (encodeSQLResult null_rows) as [e|]; [|done]. apply andb_true_iff in H as [H1 H2].
  split; [by apply Z.leb_le|]. by destruct (decodeSQLResult e) as [|[]].
Qed.

Definition demo_result : SQLCommandResult :=
  mkSQLResult [mkStatement 1 (-1) [[x61]; [x62]] [[VNil; VInt (-7)]; [VFloat 3; VText [x01]]]] [].
Definition demo_result_bytes : bytes := match encodeSQLResult demo_result with Ok e => e | Err _ => [] end.

Lemma stored_result_readable_witness : decodeSQLResult demo_result_bytes = Ok demo_result.
Proof.
  destruct (stored_result_readable demo_result demo_result_bytes) as [H _].
  - repeat constructor; simpl; lia.
  - discriminate.
  - vm_compute. reflexivity.
  - apply H. vm_compute. discriminate.
Defined.
