(* ===== verification/Materializer.v ===== *)
(** * Applying decided values (pkg/materializer/materializer.go,
      result_retention.go)

    The materializer applies the decided log to SQLite tables, a page of
    decisions per transaction, and makes every mutation idempotent: a receipt
    per request ID is kept for a window of slots, found through a Bloom filter,
    and charged to a retention budget.  The file models the plain protocol
    (not the managed ones) with the SQL, key-value and notification commands.

    SQLite is a library: user tables are an abstract type, a SQL command is
    executed by a parameter, the rows a [LIMIT] without order picks are a
    parameter of the rows in rowid order, and the receipts are a map.  The
    decoding of a value (JSON behind a magic), request fingerprints and the
    static validation of a command are parameters.  Slots and counters are
    unbounded integers; the window times the commands per value is far below
    2^64.  The bits of a Bloom filter are the set of their positions. *)

From stdpp Require Import gmap list.
From S2P Require Import Prelude Bytes SqlResult.

(** ** Data *)

Inductive MutationKind := KSQL | KKV | KNotify.
#[global] Instance MutationKind_eq_dec : EqDecision MutationKind.
Proof. solve_decision. Defined.
#[global] Instance MutationKind_countable : Countable MutationKind.
Proof.
  apply (inj_countable' (λ k : MutationKind, match k with KSQL => 0 | KKV => 1 | KNotify => 2 end%nat)
    (λ n : nat, match n with 0 => KSQL | 1 => KKV | _ => KNotify end%nat)). by intros [].
Defined.

Inductive MutationStatus := MutationCommitted | MutationRejected.
Inductive errorCode := NoError | ExecutionFailed | PreconditionFailed | ResultRetentionFull.

(** A row of [_rhiza_idempotency]; its key is the kind and the request ID. *)
Record receiptRow := mkRow {
  fingerprint : bytes;
  commitSlot : Z;
  status : MutationStatus;
  code : errorCode;
  rowsAffected : Z;
  lastInsertID : Z;
  applied : bool;
  sqlResult : bytes;
}.

Record SQLStatement := mkSQLStatement { stText : bytes; stWantRows : bool }.
Record SQLCommand := mkSQLCommand {
  RequestID : bytes;
  SQL : bytes;
  WantRows : bool;
  CStatements : list SQLStatement;
}.

Inductive kvOperation := KPut | KDelete | KCas | KUnknown.
Record KVCommand := mkKVCommand {
  kvRequestID : bytes;
  kvOp : kvOperation;
  kvKey : bytes;
  kvValue : bytes;
  kvExpected : bytes;
  kvExpectedExists : bool;
  kvExpiresAt : Z;
  kvObservedAt : Z;
}.

Record NotifyCommand := mkNotifyCommand { nRequestID : bytes; nTopic : bytes; nPayload : bytes }.

(** What a decided value decodes to.  [DControl] are read barriers, leader
    schedules, checkpoint seals and reconfigurations. *)
Inductive decodedValue :=
| DNotify (c : NotifyCommand)
| DKV (cs : list KVCommand)
| DSQL (cs : list SQLCommand)
| DGraph
| DControl
| DUnknown.

Inductive applyError :=
| ErrPolicy
| ErrCommitUnknown
| ErrHashConflict
| ErrSlotGap
| ErrDecode
| ErrGraph
| ErrIncompatible
| ErrNotification
| ErrKVCommand
| ErrValidate
| ErrFingerprint
| ErrScan (e : sqlError)
| ErrPolicyState
| ErrExecute
| ErrEncode (e : sqlError)
| ErrUnderflow
| ErrRetention
| ErrAppeared
| ErrCancelled
| ErrReopen.

(** ** Key-value rows *)

(** The table [_rhiza_kv] in the order of its rowids: key, value, expiry. *)
Abbreviation kvTable := (list (bytes * (bytes * Z))).

Fixpoint kv_lookup (key : bytes) (table : kvTable) : option (bytes * Z) :=
  match table with
  | [] => None
  | (k, x) :: rest => if bool_decide (k = key) then Some x else kv_lookup key rest
  end.

(** [INSERT ... ON CONFLICT(key) DO UPDATE]: an updated row keeps its rowid. *)
Fixpoint kv_upsert (key : bytes) (x : bytes * Z) (table : kvTable) : kvTable :=
  match table with
  | [] => [(key, x)]
  | (k, y) :: rest => if bool_decide (k = key) then (k, x) :: rest else (k, y) :: kv_upsert key x rest
  end.

Definition kv_delete (key : bytes) (table : kvTable) : kvTable := filter (λ p, p.1 ≠ key) table.

(** ** Retention *)

Record usage := mkUsage { resultBytes : Z; receiptCount : Z }.

Definition maxRetainedSQLResultBytes : Z := Z.shiftl 256 20.
Definition MaxSQLCommandsPerDecidedValue : Z := 64.

Definition valid (window : Z) (u : usage) : bool :=
  (resultBytes u <=? maxRetainedSQLResultBytes) && (receiptCount u <=? MaxSQLCommandsPerDecidedValue * window).

Definition admits (window : Z) (u : usage) (n : Z) : bool :=
  valid window u && (receiptCount u <? MaxSQLCommandsPerDecidedValue * window) &&
  (n <=? maxRetainedSQLResultBytes - resultBytes u).

Definition add_usage (u : usage) (n : Z) : usage := mkUsage (resultBytes u + n) (receiptCount u + 1).

Definition remove_usage (u : usage) (n receipts : Z) : result applyError usage :=
  if (resultBytes u <? n) || (receiptCount u <? receipts) then Err ErrUnderflow
  else Ok (mkUsage (resultBytes u - n) (receiptCount u - receipts)).

(** [SELECT SUM(length(sql_result)), COUNT( * )] over some SQL receipts. *)
Definition retained (rows : gmap (MutationKind * bytes) receiptRow) : usage :=
  map_fold (λ k row u, if decide (k.1 = KSQL) then add_usage u (lenZ (sqlResult row)) else u) (mkUsage 0 0) rows.

(** ** The Bloom filter *)

Record bloomEpoch := mkBloomEpoch { bepoch : Z; bvalid : bool; bits : gset Z }.
Definition bloom : Type := bloomEpoch * bloomEpoch.

Definition sqlReceiptBloomBytes : Z := Z.shiftl 4 20.

Definition bloomBit (hash : bytes) (index : nat) : Z :=
  Z.land (le_decode (take 4 (drop (index * 4) hash))) (sqlReceiptBloomBytes * 8 - 1).

Definition epoch_at (b : bloom) (i : Z) : bloomEpoch := if i =? 0 then b.1 else b.2.
Definition set_epoch (b : bloom) (i : Z) (f : bloomEpoch) : bloom := if i =? 0 then (f, b.2) else (b.1, f).

Section materializer.
Context {D : Type}.

(** What SQLite makes of a command: it ran, it failed (on a precondition or
    otherwise), or its policy state is broken. *)
Inductive execOutcome :=
| Executed (d : D) (r : SQLCommandResult)
| Failed (precondition : bool)
| PolicyState.

Context (execute : D → SQLCommand → execOutcome) (sha256 : bytes → bytes).
Context (decodeValue : bytes → option decodedValue) (policyOk : bytes → bool).
Context (validateSQL : SQLCommand → bool).
Context (sqlFingerprint : SQLCommand → option bytes) (kvFingerprint : KVCommand → option bytes).
Context (notifyFingerprint : NotifyCommand → option bytes).
(** Which of the expired rows [LIMIT 256] selects. *)
Context (expiredPage : kvTable → Z → gset bytes).
Context (window : Z).

Definition bloom_add (b : bloom) (requestID : bytes) (slot : Z) : bloom :=
  let epoch := slot / window in
  let filter := epoch_at b (epoch mod 2) in
  let base := if negb (bvalid filter) || negb (bepoch filter =? epoch) then ∅ else bits filter in
  let hash := sha256 requestID in
  set_epoch b (epoch mod 2)
    (mkBloomEpoch epoch true (list_to_set (bloomBit hash <$> seq 0 3) ∪ base)).

Definition filter_contains (requestID : bytes) (epoch : Z) (f : bloomEpoch) : bool :=
  if negb (bvalid f) || (epoch <? bepoch f) || (1 <? epoch - bepoch f) then false
  else forallb (λ i, bool_decide (bloomBit (sha256 requestID) i ∈ bits f)) (seq 0 3).

Definition mightContain (b : bloom) (requestID : bytes) (tip : Z) : bool :=
  filter_contains requestID (tip / window) b.1 || filter_contains requestID (tip / window) b.2.

(** ** Tables and memory *)

Record tables := mkTables {
  kv : kvTable;
  receipts : gmap (MutationKind * bytes) receiptRow;
  user : D;
  appliedSlot : Z;
  appliedHash : bytes;
  stateSlot : Z;
  counters : usage;
}.

Definition set_kv (t : tables) (x : kvTable) : tables :=
  mkTables x (receipts t) (user t) (appliedSlot t) (appliedHash t) (stateSlot t) (counters t).
Definition set_receipts (t : tables) (x : gmap (MutationKind * bytes) receiptRow) : tables :=
  mkTables (kv t) x (user t) (appliedSlot t) (appliedHash t) (stateSlot t) (counters t).
Definition set_user (t : tables) (x : D) : tables :=
  mkTables (kv t) (receipts t) x (appliedSlot t) (appliedHash t) (stateSlot t) (counters t).
Definition set_position (t : tables) (slot : Z) (hash : bytes) (mutates : bool) : tables :=
  mkTables (kv t) (receipts t) (user t) slot hash (if mutates then slot else stateSlot t) (counters t).
Definition set_counters (t : tables) (u : usage) : tables :=
  mkTables (kv t) (receipts t) (user t) (appliedSlot t) (appliedHash t) (stateSlot t) u.

(** The process' own view: its position, retention and filter. *)
Record memory := mkMemory {
  tip : Z;
  tipHash : bytes;
  retention : usage;
  filters : bloom;
  commitUnknown : bool;
}.

Record pendingReceipt := mkPending { pRequestID : bytes; pRow : receiptRow; persisted : bool }.

(** The transaction in progress. *)
Record work := mkWork {
  tab : tables;
  used : usage;
  pend : list pendingReceipt;
  pendBytes : Z;
  notes : list (bytes * bytes);
}.

Definition set_tab (w : work) (t : tables) : work := mkWork t (used w) (pend w) (pendBytes w) (notes w).

(** ** Receipts *)

Definition scanReceipt (row : receiptRow) : result applyError receiptRow :=
  if bool_decide (sqlResult row = []) then Ok row
  else match decodeSQLResult (sqlResult row) with Ok _ => Ok row | Err e => Err (ErrScan e) end.

Definition receiptInTx (t : tables) (kind : MutationKind) (requestID : bytes) : result applyError (option receiptRow) :=
  match receipts t !! (kind, requestID) with
  | None => Ok None
  | Some row => let! r := scanReceipt row in Ok (Some r)
  end.

(** [INSERT ... ON CONFLICT DO NOTHING], and an error unless all were new. *)
Fixpoint insertReceiptsIfAbsent (ps : list pendingReceipt) (rows : gmap (MutationKind * bytes) receiptRow)
    : result applyError (gmap (MutationKind * bytes) receiptRow) :=
  match ps with
  | [] => Ok rows
  | p :: ps' =>
      match rows !! (KSQL, pRequestID p) with
      | Some _ => Err ErrAppeared
      | None => insertReceiptsIfAbsent ps' (<[(KSQL, pRequestID p) := pRow p]> rows)
      end
  end.

Fixpoint drop_persisted (ps : list pendingReceipt) : list pendingReceipt :=
  match ps with
  | p :: ps' => if persisted p then drop_persisted ps' else ps
  | [] => []
  end.

Definition mark_persisted (p : pendingReceipt) : pendingReceipt := mkPending (pRequestID p) (pRow p) true.

Definition flushPendingSQLReceipts (w : work) : result applyError work :=
  match drop_persisted (pend w) with
  | [] => Ok w
  | ps =>
      let! rows := insertReceiptsIfAbsent ps (receipts (tab w)) in
      Ok (mkWork (set_receipts (tab w) rows) (used w) (mark_persisted <$> pend w) 0 (notes w))
  end.

Definition pruneReceipts (slot : Z) (w : work) : result applyError work :=
  if slot <=? window then Ok w
  else
    let floor := slot - window + 1 in
    let rows := receipts (tab w) in
    let expired := retained (filter (λ p, commitSlot p.2 < floor) rows) in
    let! u := remove_usage (used w) (resultBytes expired) (receiptCount expired) in
    Ok (mkWork (set_receipts (tab w) (filter (λ p, ¬ commitSlot p.2 < floor) rows)) u (pend w) (pendBytes w) (notes w)).

(** ** Commands *)

Definition MaxRequestIDBytes : Z := 64.

Definition applyNotify (slot : Z) (c : NotifyCommand) (w : work) : result applyError work :=
  if bool_decide (nRequestID c = []) || (MaxRequestIDBytes <? lenZ (nRequestID c)) || bool_decide (nTopic c = []) ||
     (256 <? lenZ (nTopic c)) || (Z.shiftl 1 20 <? lenZ (nPayload c))
  then Err ErrNotification
  else
    match notifyFingerprint c with
    | None => Err ErrFingerprint
    | Some fp =>
        let! found := receiptInTx (tab w) KNotify (nRequestID c) in
        match found with
        | Some _ => Ok w
        | None =>
            let row := mkRow fp slot MutationCommitted NoError 0 0 true [] in
            Ok (mkWork (set_receipts (tab w) (<[(KNotify, nRequestID c) := row]> (receipts (tab w)))) (used w) (pend w)
                  (pendBytes w) (notes w ++ [(nTopic c, nPayload c)]))
        end
    end.

(** The effect of a key-value command on the table, and whether it applied. *)
Definition kv_effect (c : KVCommand) (table : kvTable) : kvTable * bool :=
  match kvOp c with
  | KPut => (kv_upsert (kvKey c) (kvValue c, kvExpiresAt c) table, true)
  | KDelete => (kv_delete (kvKey c) table, bool_decide (is_Some (kv_lookup (kvKey c) table)))
  | KCas =>
      let exists_ := match kv_lookup (kvKey c) table with
                     | Some (_, expires) => (expires =? 0) || (kvObservedAt c <? expires)
                     | None => false
                     end in
      let same := match kv_lookup (kvKey c) table with Some (v, _) => bool_decide (v = kvExpected c) | None => false end in
      let ok := Bool.eqb exists_ (kvExpectedExists c) && (negb exists_ || same) in
      (if ok then kv_upsert (kvKey c) (kvValue c, kvExpiresAt c) table else table, ok)
  | KUnknown => (table, false)
  end.

Definition prune_expired (now : Z) (table : kvTable) : kvTable :=
  filter (λ p, ¬ (0 < p.2.2 <= now ∧ p.1 ∈ expiredPage table now)) table.

Definition applyKV (slot : Z) (c : KVCommand) (w : work) : result applyError work :=
  if bool_decide (kvRequestID c = []) || (MaxRequestIDBytes <? lenZ (kvRequestID c)) || bool_decide (kvKey c = []) ||
     (1024 <? lenZ (kvKey c)) || (Z.shiftl 16 20 <? lenZ (kvValue c)) ||
     match kvOp c with KUnknown => true | _ => false end
  then Err ErrKVCommand
  else
    match kvFingerprint c with
    | None => Err ErrFingerprint
    | Some fp =>
        let! found := receiptInTx (tab w) KKV (kvRequestID c) in
        match found with
        | Some _ => Ok w
        | None =>
            let '(table, ok) := kv_effect c (prune_expired (kvObservedAt c) (kv (tab w))) in
            let row := mkRow fp slot MutationCommitted NoError 0 0 ok [] in
            Ok (set_tab w (set_receipts (set_kv (tab w) table) (<[(KKV, kvRequestID c) := row]> (receipts (tab w)))))
        end
    end.

Fixpoint applyKVs (slot : Z) (cs : list KVCommand) (w : work) : result applyError work :=
  match cs with
  | [] => Ok w
  | c :: cs' => let! w1 := applyKV slot c w in applyKVs slot cs' w1
  end.

Definition wants (c : SQLCommand) : bool :=
  existsb stWantRows (CStatements c) || (bool_decide (CStatements c = []) && WantRows c).

Definition int64 (z : Z) : Z := signed64 (u64 z).

(** The receipt and the result of a command before retention is considered. *)
Definition outcome_row (slot : Z) (c : SQLCommand) (fp : bytes) (o : execOutcome)
    : result applyError (option D * receiptRow * SQLCommandResult) :=
  match o with
  | PolicyState => Err ErrPolicyState
  | Failed precondition =>
      if bool_decide (RequestID c = []) then Err ErrExecute
      else Ok (None, mkRow fp slot MutationRejected (if precondition then PreconditionFailed else ExecutionFailed) 0 0 false [],
               mkSQLResult [] [])
  | Executed d r =>
      Ok (Some d, mkRow fp slot MutationCommitted NoError
            (fold_left (λ n s, int64 (n + SqlResult.RowsAffected s)) (Statements r) 0)
            (fold_left (λ _ s, SqlResult.LastInsertID s) (Statements r) 0) false [], r)
  end.

Definition with_result (row : receiptRow) (encoded : bytes) : receiptRow :=
  mkRow (fingerprint row) (commitSlot row) (status row) (code row) (rowsAffected row) (lastInsertID row) (applied row) encoded.

(** The command ran in its savepoint: keep its effect and its receipt, or roll
    it back when its result does not fit the retention budget. *)
Definition retain_command (slot : Z) (c : SQLCommand) (fp : bytes) (ran : option D) (row : receiptRow) (r : SQLCommandResult)
    (w : work) : result applyError work :=
  let stored := if wants c then r else mkSQLResult [] [] in
  match encodeSQLResult stored with
  | Err e => Err (ErrEncode e)
  | Ok encoded =>
      if negb (admits window (used w) 0) then Err ErrRetention
      else
        let fits := admits window (used w) (lenZ encoded) in
        let encoded' := if fits then encoded else [] in
        let row' := if fits then with_result row encoded
                    else mkRow fp slot MutationRejected ResultRetentionFull 0 0 false [] in
        let d := match ran with Some d => if fits then d else user (tab w) | None => user (tab w) end in
        let size := if fits then sqlResultWorkingBytes stored else 0 in
        let w1 := mkWork (set_user (tab w) d) (add_usage (used w) (lenZ encoded'))
                    (pend w ++ [mkPending (RequestID c) row' false]) (pendBytes w + size) (notes w) in
        if MaxMutationResultBytes <=? pendBytes w1 then flushPendingSQLReceipts w1 else Ok w1
  end.

Definition run_command (slot : Z) (c : SQLCommand) (fp : bytes) (w : work) : result applyError work :=
  let! out := outcome_row slot c fp (execute (user (tab w)) c) in
  let '(ran, row, r) := out in
  if bool_decide (RequestID c = []) then
    Ok (set_tab w (set_user (tab w) (default (user (tab w)) ran)))
  else retain_command slot c fp ran row r w.

Definition applySQL (filters_ : bloom) (slot : Z) (c : SQLCommand) (w : work) : result applyError work :=
  if negb (validateSQL c) then Err ErrValidate
  else
    match sqlFingerprint c with
    | None => Err ErrFingerprint
    | Some fp =>
        if bool_decide (RequestID c = []) then run_command slot c fp w
        else if existsb (λ p, bool_decide (pRequestID p = RequestID c)) (pend w) then Ok w
        else if mightContain filters_ (RequestID c) (slot - 1) then
          let! found := receiptInTx (tab w) KSQL (RequestID c) in
          match found with
          | Some _ => Ok w
          | None => run_command slot c fp w
          end
        else run_command slot c fp w
    end.

Fixpoint applySQLs (filters_ : bloom) (slot : Z) (cs : list SQLCommand) (w : work) : result applyError work :=
  match cs with
  | [] => Ok w
  | c :: cs' => let! w1 := applySQL filters_ slot c w in applySQLs filters_ slot cs' w1
  end.

(** ** Values and pages *)

Record applyIO := mkApplyIO { ioGraph : Z → bool; ioCancelled : bool; ioCommit : bool; ioAcknowledged : bool }.

Definition mutatesState (v : decodedValue) : bool :=
  match v with
  | DSQL cs => negb (bool_decide (length cs = 0%nat))
  | DControl => false
  | _ => true
  end.

Definition applyValueLocked (io : applyIO) (filters_ : bloom) (slot : Z) (value : bytes) (w : work) : result applyError work :=
  let! w1 := pruneReceipts slot w in
  match decodeValue value with
  | None => Err ErrDecode
  | Some v =>
      if negb (ioGraph io slot) then Err ErrGraph
      else
        let! w2 :=
          match v with
          | DNotify c => applyNotify slot c w1
          | DKV cs => applyKVs slot cs w1
          | DSQL cs => applySQLs filters_ slot cs w1
          | DGraph | DControl => Ok w1
          | DUnknown => Err ErrIncompatible
          end in
        Ok (set_tab w2 (set_position (tab w2) slot (sha256 value) (mutatesState v)))
  end.

(** The loop over a page; the position advances with it. *)
Fixpoint apply_page (io : applyIO) (filters_ : bloom) (page : list (Z * bytes)) (pos : Z * bytes) (w : work)
    : result applyError ((Z * bytes) * work) :=
  match page with
  | [] => Ok (pos, w)
  | (slot, value) :: rest =>
      if slot <=? pos.1 then
        if (slot =? pos.1) && negb (bool_decide (sha256 value = pos.2)) then Err ErrHashConflict
        else apply_page io filters_ rest pos w
      else if negb (slot =? pos.1 + 1) then Err ErrSlotGap
      else
        let! w1 := applyValueLocked io filters_ slot value w in
        apply_page io filters_ rest (slot, sha256 value) w1
  end.

Definition finish_page (io : applyIO) (m : memory) (t : tables) (pos : Z * bytes) (w : work)
    : result applyError (list (bytes * bytes)) * memory * tables :=
  match flushPendingSQLReceipts w with
  | Err e => (Err e, m, t)
  | Ok w1 =>
      if negb (valid window (used w1)) then (Err ErrRetention, m, t)
      else if ioCancelled io then (Err ErrCancelled, m, t)
      else
        let t1 := set_counters (tab w1) (used w1) in
        if negb (ioCommit io) then (Err ErrCommitUnknown, mkMemory (tip m) (tipHash m) (retention m) (filters m) true, t)
        else if negb (ioAcknowledged io) then (Err ErrCommitUnknown, mkMemory (tip m) (tipHash m) (retention m) (filters m) true, t1)
        else
          let filters' := fold_left (λ b p, bloom_add b (pRequestID p) (commitSlot (pRow p))) (pend w1) (filters m) in
          (Ok (notes w1), mkMemory pos.1 pos.2 (used w1) filters' false, t1)
  end.

Definition ApplyBatch (io : applyIO) (page : list (Z * bytes)) (m : memory) (t : tables)
    : result applyError (list (bytes * bytes)) * memory * tables :=
  if negb (forallb (λ d, policyOk d.2) page) then (Err ErrPolicy, m, t)
  else if bool_decide (page = []) then (Ok [], m, t)
  else if commitUnknown m then (Err ErrCommitUnknown, m, t)
  else
    match apply_page io (filters m) page (tip m, tipHash m) (mkWork t (retention m) [] 0 []) with
    | Err e => (Err e, m, t)
    | Ok (pos, w) => finish_page io m t pos w
    end.

(** ** Opening the tables *)

Definition emptyFilters : bloom := (mkBloomEpoch 0 false ∅, mkBloomEpoch 0 false ∅).

(** The rows of a query without an order: any list of them. *)
Definition loadSQLReceiptBloom (rows : list ((MutationKind * bytes) * receiptRow)) (tip_ : Z) : bloom :=
  let floor := if window <=? tip_ then tip_ - window + 1 else 0 in
  fold_left (λ b p, if decide (p.1.1 = KSQL ∧ floor <= commitSlot p.2) then bloom_add b p.1.2 (commitSlot p.2) else b)
    rows emptyFilters.

(** The envelope of a SQL receipt, as the query over stored receipts checks it.
    SQLite's [length] of a text counts characters up to the first NUL; request
    IDs are stored as text. *)
Context (textLength : bytes → Z).

Definition envelope_ok (p : (MutationKind * bytes) * receiptRow) : bool :=
  negb (bool_decide (p.1.1 = KSQL)) ||
  (negb (textLength p.1.2 =? 0) && (textLength p.1.2 <=? MaxRequestIDBytes) && (lenZ (fingerprint p.2) =? 32) &&
   match status p.2, code p.2 with
   | MutationCommitted, NoError => true
   | MutationRejected, (ExecutionFailed | PreconditionFailed | ResultRetentionFull) => bool_decide (sqlResult p.2 = [])
   | _, _ => false
   end && (lenZ (sqlResult p.2) <=? MaxMutationResultBytes)).

Definition loadSQLReceiptRetention (t : tables) : result applyError usage :=
  if negb (valid window (counters t)) then Err ErrRetention
  else if negb (forallb envelope_ok (map_to_list (receipts t))) then Err ErrReopen
  else
    let actual := retained (receipts t) in
    if (resultBytes actual =? resultBytes (counters t)) && (receiptCount actual =? receiptCount (counters t))
    then Ok (counters t) else Err ErrReopen.

Definition reopen (rows : list ((MutationKind * bytes) * receiptRow)) (t : tables) : result applyError memory :=
  if appliedSlot t <? stateSlot t then Err ErrReopen
  else
    let! u := loadSQLReceiptRetention t in
    Ok (mkMemory (appliedSlot t) (appliedHash t) u (loadSQLReceiptBloom rows (appliedSlot t)) false).

(** A fresh database: the rows [loadTip] inserts. *)
Definition newTables (d : D) : tables := mkTables [] ∅ d 0 (repeat x00 32) 0 (mkUsage 0 0).

(** ** Reads *)

(** A receipt is served while the window of its slot is open. *)
Definition MutationReceipt (kind : MutationKind) (requestID : bytes) (m : memory) (t : tables)
    : result applyError (option receiptRow) :=
  if commitUnknown m && bool_decide (kind = KSQL) then Err ErrCommitUnknown
  else
    let! found := receiptInTx t kind requestID in
    match found with
    | Some row => Ok (if commitSlot row + window - 1 <? tip m then None else Some row)
    | None => Ok None
    end.

(** [true, found]: whether a request ID is unused or names the same request. *)
Definition requestMatches (kind : MutationKind) (requestID fp : bytes) (m : memory) (t : tables)
    : result applyError (bool * bool) :=
  let! found := MutationReceipt kind requestID m t in
  match found with
  | Some row => Ok (bool_decide (fingerprint row = fp), true)
  | None => Ok (true, false)
  end.

Definition KVGet (key : bytes) (now : Z) (t : tables) : option bytes :=
  match kv_lookup key (kv t) with
  | Some (v, expires) => if (expires =? 0) || (now <? expires) then Some v else None
  | None => None
  end.
End materializer.
