(* ===== verification/MaterializerKV.v ===== *)
(** * Key-value commands against the values a reader sees

    The table holds expired rows until they are pruned, at most 256 at a time.
    Readers never see them, so a command is specified by what is visible at a
    time no earlier than the one it observed. *)

From stdpp Require Import gmap list.
From S2P Require Import Prelude Bytes SqlResult Materializer.

Definition visible (table : kvTable) (now : Z) (key : bytes) : option bytes :=
  match kv_lookup key table with
  | Some (v, expires) => if (expires =? 0) || (now <? expires) then Some v else None
  | None => None
  end.

(** What a command writes, as a reader sees it. *)
Definition written (c : KVCommand) (now : Z) : option bytes :=
  if (kvExpiresAt c =? 0) || (now <? kvExpiresAt c) then Some (kvValue c) else None.

Lemma kv_lookup_None (key : bytes) (table : kvTable) : key ∉ table.*1 → kv_lookup key table = None.
Proof.
  induction table as [|[k x] table IH]; intros Hni; cbn; [done|]. rewrite bool_decide_eq_false_2 by set_solver. apply IH. set_solver.
Qed.

Lemma kv_lookup_filter (P : bytes * (bytes * Z) → Prop) `{!∀ p, Decision (P p)} (key : bytes) (table : kvTable) :
  NoDup table.*1 →
  kv_lookup key (filter P table) =
  match kv_lookup key table with Some x => if decide (P (key, x)) then Some x else None | None => None end.
Proof.
  induction table as [|[k x] table IH]; intros Hnd; cbn [kv_lookup]; [done|].
  cbn [fmap list_fmap fst] in Hnd. apply NoDup_cons in Hnd as [Hni Hnd]. rewrite filter_cons.
  destruct (decide (k = key)) as [->|Hne].
  - rewrite (bool_decide_eq_true_2 (key = key)) by done. destruct (decide (P (key, x))) as [Hp|Hp]; cbn [kv_lookup].
    + by rewrite bool_decide_eq_true_2.
    + rewrite IH by done. by rewrite kv_lookup_None.
  - rewrite (bool_decide_eq_false_2 (k = key)) by done. destruct (decide (P (k, x))); cbn [kv_lookup]; [|by apply IH].
    rewrite bool_decide_eq_false_2 by done. by apply IH.
Qed.

Lemma kv_lookup_upsert (key key' : bytes) x (table : kvTable) :
  kv_lookup key (kv_upsert key' x table) = if decide (key = key') then Some x else kv_lookup key table.
Proof.
  induction table as [|[k y] table IH]; cbn.
  - case_decide; [by rewrite bool_decide_eq_true_2|by rewrite bool_decide_eq_false_2].
  - repeat (case_bool_decide || case_decide); cbn; repeat case_bool_decide; congruence.
Qed.

Lemma keys_filter (P : bytes * (bytes * Z) → Prop) `{!∀ p, Decision (P p)} (table : kvTable) :
  NoDup table.*1 → NoDup (filter P table).*1.
Proof.
  induction table as [|p table IH]; [done|]. intros [Hni Hnd]%NoDup_cons. rewrite filter_cons. case_decide; [|by apply IH].
  cbn. apply NoDup_cons. split; [|by apply IH]. intros (q & E & [_ Hq]%list_elem_of_filter)%list_elem_of_fmap.
  apply Hni. rewrite E. by apply list_elem_of_fmap_2.
Qed.

Lemma keys_upsert (key : bytes) x (table : kvTable) : NoDup table.*1 → NoDup (kv_upsert key x table).*1 ∧ ∀ k, k ∈ (kv_upsert key x table).*1 → k = key ∨ k ∈ table.*1.
Proof.
  induction table as [|[k y] table IH]; cbn [kv_upsert]; intros Hnd.
  - split; [apply NoDup_singleton|]. set_solver.
  - cbn [fmap list_fmap fst] in Hnd. apply NoDup_cons in Hnd as [Hni Hnd]. destruct (IH Hnd) as [IH1 IH2].
    case_bool_decide; cbn [fmap list_fmap fst].
    + split; [by apply NoDup_cons|set_solver].
    + split; [|set_solver]. apply NoDup_cons. split; [|done]. intros Hin. destruct (IH2 _ Hin); [congruence|done].
Qed.

Section kv.
Context (expiredPage : kvTable → Z → gset bytes).
Abbreviation prune := (prune_expired expiredPage).

Lemma visible_prune (table : kvTable) obs now key :
  NoDup table.*1 → obs <= now → visible (prune obs table) now key = visible table now key.
Proof.
  intros Hnd Hle. unfold visible, prune_expired. rewrite kv_lookup_filter by done.
  destruct (kv_lookup key table) as [[v e]|]; [|done]. case_decide as Hp; [done|].
  destruct (decide (0 < e <= obs)) as [He|He]; [|exfalso; apply Hp; cbn; tauto].
  destruct (Z.eqb_spec e 0); [lia|]. destruct (Z.ltb_spec now e); [lia|]. done.
Qed.

Lemma visible_upsert (table : kvTable) now key key' x :
  visible (kv_upsert key' x table) now key =
    if decide (key = key') then (if (x.2 =? 0) || (now <? x.2) then Some x.1 else None) else visible table now key.
Proof. unfold visible. rewrite kv_lookup_upsert. case_decide; [by destruct x|done]. Qed.

Lemma visible_delete (table : kvTable) now key key' : NoDup table.*1 →
  visible (kv_delete key' table) now key = if decide (key = key') then None else visible table now key.
Proof.
  intros Hnd. unfold visible, kv_delete. rewrite kv_lookup_filter by done. destruct (kv_lookup key table) as [[v e]|].
  - repeat case_decide; cbn in *; try done; congruence.
  - by case_decide.
Qed.

Lemma cas_condition c (table : kvTable) : kvOp c = KCas →
  (kv_effect c table).2 = bool_decide (visible table (kvObservedAt c) (kvKey c) = if kvExpectedExists c then Some (kvExpected c) else None).
Proof.
  intros Hop. unfold kv_effect, visible. rewrite Hop. cbn [snd].
  destruct (kv_lookup (kvKey c) table) as [[v e]|]; [destruct (_ || _)|]; destruct (kvExpectedExists c); cbn;
    rewrite ?andb_true_r, ?andb_false_r; try done.
  repeat case_bool_decide; congruence.
Qed.

(** A key-value command, seen by a reader at any time from the one it
    observed: a put and a successful compare-and-set write their key, a delete
    removes it, a compare-and-set succeeds exactly when the visible value is the
    expected one, and no other key changes, whatever expired rows were pruned.
    Keys stay unique. *)
Theorem kv_command_visible c (table table' : kvTable) ok now key :
  NoDup table.*1 → kvObservedAt c <= now →
  kv_effect c (prune (kvObservedAt c) table) = (table', ok) →
  NoDup table'.*1 ∧
  visible table' now key =
    (if decide (key = kvKey c) then
       match kvOp c with
       | KPut => written c now
       | KDelete => None
       | KCas =>
           if decide (visible table (kvObservedAt c) key = if kvExpectedExists c then Some (kvExpected c) else None)
           then written c now else visible table now key
       | KUnknown => visible table now key
       end
     else visible table now key).
Proof.
  intros Hnd Hle E. assert (NoDup (prune (kvObservedAt c) table).*1) as Hnd' by (by apply keys_filter).
  pose proof (visible_prune table (kvObservedAt c) now key Hnd Hle) as Hv. pose proof (cas_condition c (prune (kvObservedAt c) table)) as Hcas.
  rewrite visible_prune in Hcas by (done || lia). rewrite E in Hcas. cbn [snd] in Hcas. unfold kv_effect in E.
  destruct (kvOp c); injection E as <- Eok.
  - split; [by apply keys_upsert|]. by rewrite visible_upsert, Hv.
  - split; [by apply keys_filter|]. by rewrite visible_delete, Hv.
  - specialize (Hcas eq_refl). rewrite Eok. rewrite Hcas. case_bool_decide as Hc.
    + split; [by apply keys_upsert|]. rewrite visible_upsert, Hv. destruct (decide (key = kvKey c)) as [->|]; [|done]. by rewrite decide_True.
    + split; [done|]. rewrite Hv. destruct (decide (key = kvKey c)) as [->|]; [|done]. by rewrite decide_False.
  - split; [done|]. rewrite Hv. by destruct (decide (key = kvKey c)).
Qed.
End kv.

Definition cas_demo : KVCommand := mkKVCommand [x01] KCas [x6b] [x02] [] false 0 5.

(** The row has expired at 5: the compare-and-set that expects no value wins. *)
Lemma kv_command_visible_witness :
  visible (kv_effect cas_demo (prune_expired (λ _ _, ∅) 5 [([x6b], ([x01], 4))])).1 7 [x6b] = Some [x02].
Proof.
  destruct (kv_effect cas_demo (prune_expired (λ _ _, ∅) 5 [([x6b], ([x01], 4))])) as [table' ok] eqn:E.
  destruct (kv_command_visible (λ _ _, ∅) cas_demo [([x6b], ([x01], 4))] table' ok 7 [x6b]) as [_ H].
  - apply NoDup_singleton.
  - vm_compute. discriminate.
  - exact E.
  - cbn [fst]. rewrite H. vm_compute. reflexivity.
Defined.
