(* ===== verification/MaterializerProofs.v ===== *)
(** * The materialized state is a function of the decided log

    A reference definition applies one value at a time and keeps no state but
    the tables.  Pages, pending receipts, the Bloom filter, the retention
    counters, restarts and lost commit acknowledgements do not show: the tables
    of a replica are always the reference result of a prefix of the log. *)

From stdpp Require Import gmap list.
From S2P Require Import Prelude Bytes SqlResult SqlResultProofs Materializer.

(** ** Sums over receipts *)

Definition usage_plus (a b : usage) : usage := mkUsage (resultBytes a + resultBytes b) (receiptCount a + receiptCount b).

Definition row_usage (k : MutationKind * bytes) (row : receiptRow) : usage :=
  if decide (k.1 = KSQL) then mkUsage (lenZ (sqlResult row)) 1 else mkUsage 0 0.

Lemma usage_eq a b : resultBytes a = resultBytes b → receiptCount a = receiptCount b → a = b.
Proof. destruct a, b; simpl; congruence. Qed.

Abbreviation rows := (gmap (MutationKind * bytes) receiptRow).

Lemma retained_insert (m : rows) k row :
  m !! k = None → retained (<[k := row]> m) = usage_plus (row_usage k row) (retained m).
Proof.
  intros Hk. unfold retained. rewrite map_fold_insert_L; [| |done].
  - unfold row_usage. case_decide; apply usage_eq; simpl; lia.
  - intros j1 j2 z1 z2 y _ _ _. repeat case_decide; try done. apply usage_eq; simpl; lia.
Qed.

Lemma retained_empty : retained ∅ = mkUsage 0 0.
Proof. unfold retained. by rewrite map_fold_empty. Qed.

Lemma retained_split (P : (MutationKind * bytes) * receiptRow → Prop) `{!∀ x, Decision (P x)} (m : rows) :
  retained m = usage_plus (retained (filter P m)) (retained (filter (λ x, ¬ P x) m)).
Proof.
  induction m as [|k row m Hk IH] using map_ind.
  - rewrite !map_filter_empty, retained_empty. done.
  - rewrite retained_insert, IH by done. destruct (decide (P (k, row))) as [Hp|Hp].
    + rewrite (map_filter_insert_True P), (map_filter_insert_False (λ x, ¬ P x)) by naive_solver.
      rewrite delete_id by done. rewrite retained_insert by (by apply map_lookup_filter_None_2; left).
      apply usage_eq; simpl; lia.
    + rewrite (map_filter_insert_False P), (map_filter_insert_True (λ x, ¬ P x)) by naive_solver.
      rewrite delete_id by done. rewrite retained_insert by (by apply map_lookup_filter_None_2; left).
      apply usage_eq; simpl; lia.
Qed.

Lemma retained_nonneg (m : rows) : 0 <= resultBytes (retained m) ∧ 0 <= receiptCount (retained m).
Proof.
  induction m as [|k row m Hk IH] using map_ind; [rewrite retained_empty; simpl; lia|].
  rewrite retained_insert by done. unfold row_usage. case_decide; simpl; lia.
Qed.

(** ** The Bloom filter has no false negatives *)

Section bloom.
Context (sha256 : bytes → bytes) (window : Z).
Context (Hw : 0 < window).

Definition bloom_holds (b : bloom) (id : bytes) (slot : Z) : Prop :=
  let f := epoch_at b ((slot / window) mod 2) in
  bvalid f = true ∧ bepoch f = slot / window ∧ ∀ i, (i < 3)%nat → bloomBit (sha256 id) i ∈ bits f.

Lemma mod2_cases x : x mod 2 = 0 ∨ x mod 2 = 1.
Proof. pose proof (Z.mod_pos_bound x 2). lia. Qed.

Lemma epoch_set_eq b i f : epoch_at (set_epoch b i f) i = f.
Proof. unfold epoch_at, set_epoch. by destruct (i =? 0). Qed.

Lemma epoch_set_ne b x y f : x mod 2 ≠ y mod 2 → epoch_at (set_epoch b (x mod 2) f) (y mod 2) = epoch_at b (y mod 2).
Proof. intros H. unfold epoch_at, set_epoch. destruct (mod2_cases x) as [E|E], (mod2_cases y) as [E'|E']; rewrite E, E' in *; done. Qed.

Lemma bloom_add_holds b id slot : bloom_holds (bloom_add sha256 window b id slot) id slot.
Proof.
  unfold bloom_holds, bloom_add. rewrite epoch_set_eq. simpl. split_and!; [done|done|].
  intros i Hi. apply elem_of_union_l. destruct i as [|[|[|]]]; [set_solver..|lia].
Qed.

(** Two slots whose epochs differ by at most one do not clobber each other. *)
Lemma bloom_add_keeps b id slot id' slot' :
  -1 <= slot / window - slot' / window <= 1 → bloom_holds b id' slot' →
  bloom_holds (bloom_add sha256 window b id slot) id' slot'.
Proof.
  intros Hd (H1 & H2 & H3). unfold bloom_holds, bloom_add.
  destruct (decide (slot / window = slot' / window)) as [E|Hne].
  - rewrite E, epoch_set_eq. simpl. rewrite H1, H2, Z.eqb_refl. simpl. split_and!; [done|done|].
    intros i Hi. apply elem_of_union_r. auto.
  - rewrite epoch_set_ne; [done|]. intros E. apply Hne.
    pose proof (Z.div_mod (slot / window) 2). pose proof (Z.div_mod (slot' / window) 2). lia.
Qed.

Lemma div_close a b : 0 <= b - a <= window - 1 → 0 <= b / window - a / window <= 1.
Proof.
  intros H. pose proof (Z.div_mod a window). pose proof (Z.div_mod b window).
  pose proof (Z.mod_pos_bound a window). pose proof (Z.mod_pos_bound b window). nia.
Qed.

Lemma bloom_holds_contains b id slot tip :
  bloom_holds b id slot → slot <= tip → tip - slot <= window - 1 → mightContain sha256 window b id tip = true.
Proof.
  intros (H1 & H2 & H3) Hle Hwin. pose proof (div_close slot tip) as Hd.
  assert (filter_contains sha256 id (tip / window) (epoch_at b ((slot / window) mod 2)) = true) as Hf.
  { unfold filter_contains. rewrite H1, H2. destruct (Z.ltb_spec (tip / window) (slot / window)); [lia|].
    destruct (Z.ltb_spec 1 (tip / window - slot / window)); [lia|]. simpl.
    rewrite !bool_decide_eq_true_2 by (apply H3; lia). done. }
  unfold mightContain. unfold epoch_at in Hf. destruct (_ =? 0); rewrite Hf; [done|apply orb_true_r].
Qed.

(** Adding receipts of slots within the window of a slot keeps its receipts. *)
Lemma bloom_add_all b (ps : list (bytes * Z)) id slot :
  (∀ p, p ∈ ps → -(window - 1) <= p.2 - slot <= window - 1) → bloom_holds b id slot ∨ (id, slot) ∈ ps →
  bloom_holds (fold_left (λ b p, bloom_add sha256 window b p.1 p.2) ps b) id slot.
Proof.
  revert b. induction ps as [|p ps IH]; intros b Hps Hb; simpl.
  { destruct Hb as [?|[]%elem_of_nil]. done. }
  apply IH; [intros q Hq; apply Hps; by right|].
  destruct Hb as [Hb|[<-|?]%elem_of_cons]; [|left; apply bloom_add_holds|by right].
  left. apply bloom_add_keeps; [|done]. destruct (Hps p ltac:(left)) as [H1 H2].
  pose proof (div_close slot p.2). pose proof (div_close p.2 slot). lia.
Qed.
End bloom.

Section materializer.
Context {D : Type}.
Context (execute : D → SQLCommand → @execOutcome D) (sha256 : bytes → bytes).
Context (decodeValue : bytes → option decodedValue) (policyOk : bytes → bool).
Context (validateSQL : SQLCommand → bool).
Context (sqlFingerprint : SQLCommand → option bytes) (kvFingerprint : KVCommand → option bytes).
Context (notifyFingerprint : NotifyCommand → option bytes).
Context (expiredPage : kvTable → Z → gset bytes).
Context (window : Z) (textLength : bytes → Z).

Abbreviation tables := (@tables D).
Abbreviation work := (@work D).
Abbreviation might := (mightContain sha256 window).
Abbreviation prune := (pruneReceipts window).
Abbreviation kv_step := (applyKV kvFingerprint expiredPage).
Abbreviation notify_step := (applyNotify notifyFingerprint).
Abbreviation run_sql := (run_command execute window).
Abbreviation sql_step := (applySQL execute sha256 validateSQL sqlFingerprint window).
Abbreviation value_step := (applyValueLocked execute sha256 decodeValue validateSQL sqlFingerprint kvFingerprint notifyFingerprint expiredPage window).
Abbreviation page_step := (apply_page execute sha256 decodeValue validateSQL sqlFingerprint kvFingerprint notifyFingerprint expiredPage window).
Abbreviation batch := (ApplyBatch execute sha256 decodeValue policyOk validateSQL sqlFingerprint kvFingerprint notifyFingerprint expiredPage window).

(** ** The reference: one value at a time, tables only *)

(** The retained usage a table implies. *)
Definition usage_of (t : tables) : usage := retained (receipts t).

(** The stored counters follow the receipts. *)
Definition exact (t : tables) : tables := set_counters t (usage_of t).

Definition ref_insert (t : tables) (kind : MutationKind) (id : bytes) (row : receiptRow) : tables :=
  set_receipts t (<[(kind, id) := row]> (receipts t)).

Definition ref_prune (slot : Z) (t : tables) : tables :=
  if slot <=? window then t
  else set_receipts t (filter (λ p, ¬ commitSlot p.2 < slot - window + 1) (receipts t)).

Definition ref_notify (slot : Z) (c : NotifyCommand) (t : tables) : result applyError (tables * list (bytes * bytes)) :=
  if bool_decide (nRequestID c = []) || (MaxRequestIDBytes <? lenZ (nRequestID c)) || bool_decide (nTopic c = []) ||
     (256 <? lenZ (nTopic c)) || (Z.shiftl 1 20 <? lenZ (nPayload c))
  then Err ErrNotification
  else
    match notifyFingerprint c with
    | None => Err ErrFingerprint
    | Some fp =>
        match receipts t !! (KNotify, nRequestID c) with
        | Some _ => Ok (t, [])
        | None => Ok (ref_insert t KNotify (nRequestID c) (mkRow fp slot MutationCommitted NoError 0 0 true []),
                      [(nTopic c, nPayload c)])
        end
    end.

Definition ref_kv (slot : Z) (c : KVCommand) (t : tables) : result applyError tables :=
  if bool_decide (kvRequestID c = []) || (MaxRequestIDBytes <? lenZ (kvRequestID c)) || bool_decide (kvKey c = []) ||
     (1024 <? lenZ (kvKey c)) || (Z.shiftl 16 20 <? lenZ (kvValue c)) ||
     match kvOp c with KUnknown => true | _ => false end
  then Err ErrKVCommand
  else
    match kvFingerprint c with
    | None => Err ErrFingerprint
    | Some fp =>
        match receipts t !! (KKV, kvRequestID c) with
        | Some _ => Ok t
        | None =>
            let '(table, ok) := kv_effect c (prune_expired expiredPage (kvObservedAt c) (kv t)) in
            Ok (ref_insert (set_kv t table) KKV (kvRequestID c) (mkRow fp slot MutationCommitted NoError 0 0 ok []))
        end
    end.

(** A fresh request runs, and its result is retained if the budget allows. *)
Definition ref_run (slot : Z) (c : SQLCommand) (fp : bytes) (t : tables) : result applyError tables :=
  let! out := outcome_row slot c fp (execute (user t) c) in
  let '(ran, row, r) := out in
  if bool_decide (RequestID c = []) then Ok (set_user t (default (user t) ran))
  else
    match encodeSQLResult (if wants c then r else mkSQLResult [] []) with
    | Err e => Err (ErrEncode e)
    | Ok encoded =>
        if negb (admits window (usage_of t) 0) then Err ErrRetention
        else if admits window (usage_of t) (lenZ encoded)
        then Ok (ref_insert (set_user t (default (user t) ran)) KSQL (RequestID c) (with_result row encoded))
        else Ok (ref_insert t KSQL (RequestID c) (mkRow fp slot MutationRejected ResultRetentionFull 0 0 false []))
    end.

Definition ref_sql (slot : Z) (c : SQLCommand) (t : tables) : result applyError tables :=
  if negb (validateSQL c) then Err ErrValidate
  else
    match sqlFingerprint c with
    | None => Err ErrFingerprint
    | Some fp =>
        if negb (bool_decide (RequestID c = [])) && bool_decide (is_Some (receipts t !! (KSQL, RequestID c))) then Ok t
        else ref_run slot c fp t
    end.

Fixpoint ref_list {A} (f : A → tables → result applyError tables) (l : list A) (t : tables) : result applyError tables :=
  match l with [] => Ok t | x :: l' => let! t1 := f x t in ref_list f l' t1 end.

Definition ref_value (graphOk : bool) (slot : Z) (value : bytes) (t : tables) : result applyError (tables * list (bytes * bytes)) :=
  let t1 := ref_prune slot t in
  match decodeValue value with
  | None => Err ErrDecode
  | Some v =>
      if negb graphOk then Err ErrGraph
      else
        let! out :=
          match v with
          | DNotify c => ref_notify slot c t1
          | DKV cs => let! t2 := ref_list (ref_kv slot) cs t1 in Ok (t2, [])
          | DSQL cs => let! t2 := ref_list (ref_sql slot) cs t1 in Ok (t2, [])
          | DGraph | DControl => Ok (t1, [])
          | DUnknown => Err ErrIncompatible
          end in
        Ok (exact (set_position out.1 slot (sha256 value) (mutatesState v)), out.2)
  end.

Fixpoint ref_page (graphOk : Z → bool) (page : list (Z * bytes)) (pos : Z * bytes) (t : tables)
    : result applyError ((Z * bytes) * tables * list (bytes * bytes)) :=
  match page with
  | [] => Ok (pos, t, [])
  | (slot, value) :: rest =>
      if slot <=? pos.1 then
        if (slot =? pos.1) && negb (bool_decide (sha256 value = pos.2)) then Err ErrHashConflict
        else ref_page graphOk rest pos t
      else if negb (slot =? pos.1 + 1) then Err ErrSlotGap
      else
        let! out := ref_value (graphOk slot) slot value t in
        let! more := ref_page graphOk rest (slot, sha256 value) out.1 in
        Ok (more.1, out.2 ++ more.2)
  end.

(** ** Rows a transaction holds back *)

Definition with_held (ps : list pendingReceipt) (m : rows) : rows :=
  fold_left (λ m p, <[(KSQL, pRequestID p) := pRow p]> m) ps m.

Definition held (w : work) : list pendingReceipt := drop_persisted (pend w).

Record sim (base : rows) (lo : Z) (w : work) (t : tables) : Prop := {
  si_kv : kv (tab w) = kv t;
  si_user : user (tab w) = user t;
  si_position : appliedSlot (tab w) = appliedSlot t ∧ appliedHash (tab w) = appliedHash t ∧ stateSlot (tab w) = stateSlot t;
  si_rows : receipts t = with_held (held w) (receipts (tab w));
  si_used : used w = usage_of t;
  si_valid : valid window (used w) = true;
  si_held : NoDup (pRequestID <$> held w) ∧ ∀ p, p ∈ held w → receipts (tab w) !! (KSQL, pRequestID p) = None;
  si_flags : ∃ ps, pend w = ps ++ held w ∧ Forall (λ p, persisted p = true) ps ∧ Forall (λ p, persisted p = false) (held w);
  si_pend p : p ∈ pend w → receipts t !! (KSQL, pRequestID p) = Some (pRow p) ∧ lo < commitSlot (pRow p) ;
  si_base id row : receipts (tab w) !! (KSQL, id) = Some row → id ∈ pRequestID <$> pend w ∨ base !! (KSQL, id) = Some row;
}.

Lemma with_held_lookup (ps : list pendingReceipt) (m : rows) (k : MutationKind * bytes) : k.1 ≠ KSQL ∨ k.2 ∉ pRequestID <$> ps → with_held ps m !! k = m !! k.
Proof.
  revert m. induction ps as [|p ps IH]; intros m Hk; simpl; [done|]. rewrite IH.
  - rewrite lookup_insert_ne; [done|]. intros <-. simpl in Hk. set_solver.
  - set_solver.
Qed.

Lemma with_held_insert (ps : list pendingReceipt) (m : rows) (k : MutationKind * bytes) row :
  k.1 ≠ KSQL ∨ k.2 ∉ pRequestID <$> ps → with_held ps (<[k := row]> m) = <[k := row]> (with_held ps m).
Proof.
  revert m. induction ps as [|p ps IH]; intros m Hk; simpl; [done|]. rewrite insert_insert_ne, IH.
  - done.
  - set_solver.
  - intros <-. simpl in Hk. set_solver.
Qed.

Lemma with_held_snoc (ps : list pendingReceipt) (p : pendingReceipt) (m : rows) : with_held (ps ++ [p]) m = <[(KSQL, pRequestID p) := pRow p]> (with_held ps m).
Proof. unfold with_held. by rewrite fold_left_app. Qed.

Lemma insertReceipts_held (ps : list pendingReceipt) (m : rows) :
  NoDup (pRequestID <$> ps) → (∀ p, p ∈ ps → m !! (KSQL, pRequestID p) = None) →
  insertReceiptsIfAbsent ps m = Ok (with_held ps m).
Proof.
  revert m. induction ps as [|p ps IH]; intros m Hnd Hfresh; simpl; [done|].
  rewrite (Hfresh p) by left. apply NoDup_cons in Hnd as [Hni Hnd]. apply IH; [done|].
  intros q Hq. rewrite lookup_insert_ne; [apply Hfresh; by right|]. intros [= E]. apply Hni. rewrite E.
  by apply list_elem_of_fmap_2.
Qed.

Lemma drop_persisted_app (ps qs : list pendingReceipt) :
  Forall (λ p, persisted p = true) ps → drop_persisted (ps ++ qs) = drop_persisted qs.
Proof. induction 1 as [|p ps Hp _ IH]; simpl; [done|]. by rewrite Hp. Qed.

Lemma drop_persisted_none (qs : list pendingReceipt) : Forall (λ p, persisted p = false) qs → drop_persisted qs = qs.
Proof. destruct 1 as [|p qs Hp]; simpl; [done|]. by rewrite Hp. Qed.

(** Flushing changes nothing the reference sees. *)
Lemma sim_flush base lo w t : sim base lo w t → ∃ w', flushPendingSQLReceipts w = Ok w' ∧ sim base lo w' t ∧ held w' = [] ∧ notes w' = notes w ∧
  pRequestID <$> pend w' = pRequestID <$> pend w ∧ pRow <$> pend w' = pRow <$> pend w.
Proof.
  intros Hs. pose proof Hs as [H1 H2 H3 H4 H5 H6 [H7 H7'] (ps & H8 & H9 & H10) H11 H12]. unfold flushPendingSQLReceipts.
  fold (held w). destruct (held w) as [|p0 qs] eqn:Hh; [by exists w|]. rewrite <-Hh in *.
  rewrite insertReceipts_held by done. cbn [rbind].
  assert (drop_persisted (mark_persisted <$> pend w) = []) as Hnil.
  { rewrite <-(app_nil_r (mark_persisted <$> pend w)). apply (drop_persisted_app _ []).
    apply Forall_fmap, Forall_true. done. }
  eexists. split; [done|]. split; [|split_and!; [exact Hnil|done|cbn [pend]; by rewrite <-list_fmap_compose|cbn [pend]; by rewrite <-list_fmap_compose]].
  split; simpl; unfold held; simpl; rewrite ?Hnil; try done.
  - split; [constructor|]. by intros p ?%elem_of_nil.
  - exists (mark_persisted <$> pend w). rewrite app_nil_r. split_and!; [done| |constructor]. apply Forall_fmap, Forall_true. done.
  - intros p (q & -> & Hq)%list_elem_of_fmap. by apply (H11 q).
  - intros id row. rewrite <-list_fmap_compose. destruct (decide (id ∈ pRequestID <$> held w)) as [Hin|Hni].
    + intros _. left. rewrite H8, fmap_app. apply elem_of_app. by right.
    + rewrite with_held_lookup by (by right). apply H12.
Qed.

(** What a step of the transaction owes the reference. *)
Definition agree (base : rows) (lo : Z) (w : work) (r : result applyError (tables * list (bytes * bytes)))
    (r' : result applyError work) : Prop :=
  match r with
  | Ok (t', ns) => ∃ w', r' = Ok w' ∧ sim base lo w' t' ∧ notes w' = notes w ++ ns
  | Err e => r' = Err e
  end.

Definition quiet (r : result applyError tables) : result applyError (tables * list (bytes * bytes)) :=
  let! t := r in Ok (t, []).

Lemma agree_refl base lo w t : sim base lo w t → agree base lo w (Ok (t, [])) (Ok w).
Proof. intros Hs. exists w. by rewrite app_nil_r. Qed.

(** ** Pruning *)

Definition row_of (p : pendingReceipt) : (MutationKind * bytes) * receiptRow := ((KSQL, pRequestID p), pRow p).

Lemma filter_held_out (P : (MutationKind * bytes) * receiptRow → Prop) `{!∀ x, Decision (P x)} (ps : list pendingReceipt) (m : rows) :
  NoDup (pRequestID <$> ps) → (∀ p, p ∈ ps → m !! (KSQL, pRequestID p) = None) → (∀ p, p ∈ ps → ¬ P (row_of p)) →
  filter P (with_held ps m) = filter P m.
Proof.
  revert m. induction ps as [|p ps IH]; intros m Hnd Hfresh Hp; simpl; [done|].
  apply NoDup_cons in Hnd as [Hni Hnd]. rewrite IH; [|done| |intros q Hq; apply Hp; by right].
  - rewrite map_filter_insert_False by (apply (Hp p); left). rewrite delete_id; [done|]. apply Hfresh. left.
  - intros q Hq. rewrite lookup_insert_ne; [apply Hfresh; by right|]. intros [= E]. apply Hni. rewrite E.
    by apply list_elem_of_fmap_2.
Qed.

Lemma filter_held_in (P : (MutationKind * bytes) * receiptRow → Prop) `{!∀ x, Decision (P x)} (ps : list pendingReceipt) (m : rows) :
  (∀ p, p ∈ ps → P (row_of p)) → filter P (with_held ps m) = with_held ps (filter P m).
Proof.
  revert m. induction ps as [|p ps IH]; intros m Hp; simpl; [done|].
  rewrite IH by (intros q Hq; apply Hp; by right). by rewrite map_filter_insert_True by (apply (Hp p); left).
Qed.

Lemma valid_mono u u' : resultBytes u' <= resultBytes u → receiptCount u' <= receiptCount u →
  valid window u = true → valid window u' = true.
Proof. unfold valid. rewrite !andb_true_iff, !Z.leb_le. lia. Qed.

Lemma held_pend (w : work) p : p ∈ held w → p ∈ pend w.
Proof.
  unfold held. induction (pend w) as [|q ps IH]; simpl; [done|]. destruct (persisted q); [|done].
  intros ?. right. auto.
Qed.

Lemma held_not_expired base lo w t slot p :
  sim base lo w t → slot <= lo + window → p ∈ pend w → ¬ commitSlot (pRow p) < slot - window + 1.
Proof. intros Hs Hslot Hp. destruct (si_pend _ _ _ _ Hs p Hp) as [_ ?]. lia. Qed.

Lemma sim_prune base lo w t slot :
  sim base lo w t → slot <= lo + window →
  ∃ w', prune slot w = Ok w' ∧ sim base lo w' (ref_prune slot t) ∧ notes w' = notes w ∧ pend w' = pend w ∧
    (∀ k row, receipts (tab w') !! k = Some row → receipts (tab w) !! k = Some row).
Proof.
  intros Hs Hslot. unfold pruneReceipts, ref_prune. destruct (Z.leb_spec slot window); [by exists w|].
  pose proof Hs as [H1 H2 H3 H4 H5 H6 [H7 H7'] H8 H11 H12].
  set (P := λ p : (MutationKind * bytes) * receiptRow, commitSlot p.2 < slot - window + 1).
  assert (filter P (receipts t) = filter P (receipts (tab w))) as EP.
  { rewrite H4. apply filter_held_out; [done|done|]. intros p Hp. apply (held_not_expired _ _ _ _ _ _ Hs Hslot). by apply held_pend. }
  assert (filter (λ x, ¬ P x) (receipts t) = with_held (held w) (filter (λ x, ¬ P x) (receipts (tab w)))) as EQ.
  { rewrite H4. apply filter_held_in. intros p Hp. apply (held_not_expired _ _ _ _ _ _ Hs Hslot). by apply held_pend. }
  pose proof (retained_split P (receipts t)) as Hsplit. fold (usage_of t) in Hsplit. rewrite <-H5, EP in Hsplit.
  pose proof (retained_nonneg (filter P (receipts (tab w)))) as Hn1.
  pose proof (retained_nonneg (filter (λ x, ¬ P x) (receipts t))) as Hn2.
  unfold remove_usage. rewrite Hsplit. cbn [usage_plus resultBytes receiptCount].
  destruct (Z.ltb_spec (resultBytes (retained (filter P (receipts (tab w)))) + resultBytes (retained (filter (λ x, ¬ P x) (receipts t))))
    (resultBytes (retained (filter P (receipts (tab w)))))); [lia|].
  destruct (Z.ltb_spec (receiptCount (retained (filter P (receipts (tab w)))) + receiptCount (retained (filter (λ x, ¬ P x) (receipts t))))
    (receiptCount (retained (filter P (receipts (tab w)))))); [lia|]. cbn [orb rbind].
  eexists. split; [done|]. split; [|split_and!; [done|done|]].
  2:{ intros k row [Hk _]%map_lookup_filter_Some. done. }
  split; cbn [tab used pend set_receipts kv user appliedSlot appliedHash stateSlot counters receipts held]; try done.
  - unfold usage_of. apply usage_eq; cbn [resultBytes receiptCount receipts]; rewrite Z.add_simpl_l; reflexivity.
  - eapply valid_mono; [| |exact H6]; rewrite Hsplit; cbn [usage_plus resultBytes receiptCount]; lia.
  - split; [done|]. intros p Hp. apply map_lookup_filter_None_2. left. by apply H7'.
  - intros p Hp. destruct (H11 p Hp) as [Hl Hlo]. split; [|done]. apply map_lookup_filter_Some_2; [done|].
    by apply (held_not_expired _ _ _ _ _ _ Hs Hslot).
  - intros id row [Hk _]%map_lookup_filter_Some. by apply H12.
Qed.

(** ** Notifications and keys *)

Lemma held_other (w : work) k row : k.1 ≠ KSQL → with_held (held w) (<[k := row]> (receipts (tab w))) = <[k := row]> (with_held (held w) (receipts (tab w))).
Proof. intros Hk. apply with_held_insert. by left. Qed.

Lemma sim_lookup base lo w t k : sim base lo w t → k.1 ≠ KSQL ∨ k.2 ∉ pRequestID <$> held w → receipts (tab w) !! k = receipts t !! k.
Proof. intros Hs Hk. rewrite (si_rows _ _ _ _ Hs). by rewrite with_held_lookup. Qed.

(** Inserting a receipt of another kind, with any change of the keys. *)
Lemma sim_insert_other base lo w t kind id row kv' ns :
  sim base lo w t → kind ≠ KSQL → receipts t !! (kind, id) = None →
  sim base lo (mkWork (set_receipts (set_kv (tab w) kv') (<[(kind, id) := row]> (receipts (tab w)))) (used w) (pend w) (pendBytes w) ns)
    (ref_insert (set_kv t kv') kind id row).
Proof.
  intros [H1 H2 H3 H4 H5 H6 [H7 H7'] H8 H11 H12] Hk Hnone.
  split; cbn [tab used pend set_receipts set_kv ref_insert kv user appliedSlot appliedHash stateSlot receipts]; try done.
  - unfold held; cbn [pend]; fold (held w). by rewrite held_other, <-H4.
  - change (used w = retained (<[(kind, id) := row]> (receipts t))).
    rewrite retained_insert by done. unfold row_usage; cbn [fst].
    rewrite decide_False by done. rewrite H5. by apply usage_eq.
  - split; [done|]. intros p Hp. rewrite lookup_insert_ne by congruence. by apply H7'.
  - intros p Hp. rewrite lookup_insert_ne by congruence. by apply H11.
  - intros id' row'. rewrite lookup_insert_ne by congruence. apply H12.
Qed.

Definition readable (t : tables) : Prop := ∀ k row, receipts t !! k = Some row → scanReceipt row = Ok row.

Lemma receiptInTx_other base lo w t kind id :
  sim base lo w t → readable t → kind ≠ KSQL → receiptInTx (tab w) kind id = Ok (receipts t !! (kind, id)).
Proof.
  intros Hs Hr Hk. unfold receiptInTx. rewrite (sim_lookup _ _ _ _ (kind, id) Hs) by (by left).
  destruct (receipts t !! (kind, id)) eqn:E; [|done]. by rewrite (Hr _ _ E).
Qed.

Lemma sim_notify base lo w t slot c :
  sim base lo w t → readable t → agree base lo w (ref_notify slot c t) (notify_step slot c w).
Proof.
  intros Hs Hr. unfold applyNotify, ref_notify. destruct (_ || _); [done|].
  destruct (notifyFingerprint c); [|done]. rewrite (receiptInTx_other _ _ _ _ _ _ Hs Hr) by done. cbn [rbind].
  destruct (receipts t !! _) eqn:E; [by apply agree_refl|]. eexists. split; [done|]. split; [|done].
  set (row := mkRow _ _ _ _ _ _ _ _).
  replace (ref_insert t KNotify (nRequestID c) row) with (ref_insert (set_kv t (kv (tab w))) KNotify (nRequestID c) row)
    by (by rewrite (si_kv _ _ _ _ Hs)).
  by apply (sim_insert_other base lo w t KNotify (nRequestID c) row (kv (tab w)) (notes w ++ [(nTopic c, nPayload c)]) Hs).
Qed.

Lemma sim_kv base lo w t slot c :
  sim base lo w t → readable t → agree base lo w (quiet (ref_kv slot c t)) (kv_step slot c w).
Proof.
  intros Hs Hr. unfold applyKV, ref_kv. destruct (_ || _); [done|].
  destruct (kvFingerprint c); [|done]. rewrite (receiptInTx_other _ _ _ _ _ _ Hs Hr) by done. cbn [rbind].
  destruct (receipts t !! _) eqn:E; [by apply agree_refl|]. rewrite (si_kv _ _ _ _ Hs).
  destruct (kv_effect _ _) as [table ok]. eexists. split; [done|]. split; [|symmetry; apply app_nil_r].
  by apply (sim_insert_other base lo w t KKV (kvRequestID c) _ table (notes w) Hs).
Qed.

(** ** SQL commands *)

Lemma admits_add u n : admits window u n = true → valid window (add_usage u n) = true.
Proof. unfold admits, valid, add_usage. rewrite !andb_true_iff, !Z.leb_le, Z.ltb_lt. cbn [resultBytes receiptCount]. lia. Qed.

Lemma held_snoc base lo w t t' used' p bytes' ns : sim base lo w t → persisted p = false →
  held (mkWork t' used' (pend w ++ [p]) bytes' ns) = held w ++ [p].
Proof.
  intros Hs Hp. destruct (si_flags _ _ _ _ Hs) as (ps & E & Hps & Hh). unfold held at 1. cbn [pend].
  rewrite E, <-app_assoc, drop_persisted_app by done. apply drop_persisted_none.
  apply Forall_app. by split; [|apply Forall_singleton].
Qed.

Lemma sim_user base lo w t d : sim base lo w t → sim base lo (set_tab w (set_user (tab w) d)) (set_user t d).
Proof. by intros [H1 H2 H3 H4 H5 H6 H7 H8 H11 H12]. Qed.

(** A receipt joins the pending ones. *)
Lemma sim_pending base lo w t id row d bytes' :
  sim base lo w t → id ∉ pRequestID <$> pend w → receipts t !! (KSQL, id) = None → lo < commitSlot row →
  admits window (used w) (lenZ (sqlResult row)) = true →
  sim base lo (mkWork (set_user (tab w) d) (add_usage (used w) (lenZ (sqlResult row))) (pend w ++ [mkPending id row false]) bytes' (notes w))
    (ref_insert (set_user t d) KSQL id row).
Proof.
  intros Hs Hni Hnone Hlo Hadm. pose proof Hs as [H1 H2 H3 H4 H5 H6 [H7 H7'] (ps & H8 & H9 & H10) H11 H12].
  assert (id ∉ pRequestID <$> held w) as Hnh.
  { intros (p & -> & Hp)%list_elem_of_fmap. apply Hni. apply list_elem_of_fmap_2. by apply held_pend. }
  pose proof (held_snoc base lo w t (set_user (tab w) d) (add_usage (used w) (lenZ (sqlResult row))) (mkPending id row false) bytes' (notes w) Hs eq_refl) as Hh.
  split; rewrite ?Hh; cbn [tab used pend set_user ref_insert set_receipts kv user appliedSlot appliedHash stateSlot receipts]; try done.
  - by rewrite with_held_snoc, <-H4.
  - change (add_usage (used w) (lenZ (sqlResult row)) = retained (<[(KSQL, id) := row]> (receipts t))).
    rewrite retained_insert by done. rewrite H5. unfold row_usage; cbn [fst]. rewrite decide_True by done.
    apply usage_eq; unfold usage_of; cbn [add_usage usage_plus resultBytes receiptCount]; lia.
  - by apply admits_add.
  - rewrite fmap_app. split.
    + apply NoDup_app. split; [done|]. split; [|apply NoDup_singleton]. intros x Hx ->%list_elem_of_singleton. done.
    + intros p [Hp| ->%list_elem_of_singleton]%elem_of_app; [by apply H7'|]. cbn [pRequestID].
      rewrite (sim_lookup _ _ _ _ _ Hs); [done|by right].
  - exists ps. rewrite H8 at 1. split_and!; [by rewrite app_assoc|done|]. apply Forall_app. by split; [|apply Forall_singleton].
  - intros p [Hp| ->%list_elem_of_singleton]%elem_of_app; [|by rewrite lookup_insert_eq].
    rewrite lookup_insert_ne; [by apply H11|]. intros [= ->]. apply Hni. by apply list_elem_of_fmap_2.
  - intros id' row' Hl. destruct (H12 _ _ Hl); [left; rewrite fmap_app; apply elem_of_app; by left|by right].
Qed.

Lemma outcome_row_slot slot c fp (o : @execOutcome D) ran row r : outcome_row slot c fp o = Ok (ran, row, r) → commitSlot row = slot.
Proof. destruct o as [d r'|[]|]; simpl; try done; [intros [= _ <- _]; done| |]; case_bool_decide; try done; by intros [= _ <- _]. Qed.

(** The pending receipt is written out when too many bytes are held back. *)
Lemma agree_flush base lo w w1 t1 :
  sim base lo w1 t1 → notes w1 = notes w →
  agree base lo w (Ok (t1, [])) (if MaxMutationResultBytes <=? pendBytes w1 then flushPendingSQLReceipts w1 else Ok w1).
Proof.
  intros Hs Hn. destruct (_ <=? _).
  - destruct (sim_flush _ _ _ _ Hs) as (w2 & -> & Hs2 & _ & Hn2 & _). exists w2. by rewrite app_nil_r, Hn2.
  - exists w1. by rewrite app_nil_r.
Qed.

Lemma sim_run base lo w t slot c fp :
  sim base lo w t → lo < slot →
  RequestID c = [] ∨ (RequestID c ∉ pRequestID <$> pend w) ∧ receipts t !! (KSQL, RequestID c) = None →
  agree base lo w (quiet (ref_run slot c fp t)) (run_sql slot c fp w).
Proof.
  intros Hs Hslot Hfresh. unfold run_command, ref_run. rewrite (si_user _ _ _ _ Hs).
  destruct (outcome_row slot c fp _) as [[[ran row] r]|e] eqn:Eo; cbn [rbind]; [|done].
  case_bool_decide as Hid.
  { eexists. split; [done|]. split; [by apply sim_user|symmetry; apply app_nil_r]. }
  destruct Hfresh as [?|[Hni Hnone]]; [done|]. unfold retain_command.
  destruct (encodeSQLResult _) as [encoded|e]; [|done]. rewrite (si_used _ _ _ _ Hs).
  destruct (admits window (usage_of t) 0) eqn:E0; cbn [negb]; [|done].
  pose proof (outcome_row_slot _ _ _ _ _ _ _ Eo) as Hr. destruct (admits window (usage_of t) (lenZ encoded)) eqn:E1; cbn [quiet rbind].
  - apply agree_flush; [|done].
    replace (match ran with Some d => d | None => user (tab w) end) with (default (user t) ran)
      by (rewrite (si_user _ _ _ _ Hs); by destruct ran).
    rewrite <-(si_used _ _ _ _ Hs) in *. apply (sim_pending base lo w t (RequestID c) (with_result row encoded)); try done.
    cbn. lia.
  - apply agree_flush; [|done]. rewrite <-(si_used _ _ _ _ Hs) in *.
    replace (match ran with Some _ => user (tab w) | None => user (tab w) end) with (user t)
      by (rewrite (si_user _ _ _ _ Hs); by destruct ran).
    by apply (sim_pending base lo w t (RequestID c) (mkRow fp slot MutationRejected ResultRetentionFull 0 0 false []) (user t)).
Qed.

(** The rows a page starts from, as its filter covers them. *)
Definition covered (b : bloom) (base : rows) (lo : Z) : Prop :=
  ∀ id row, base !! (KSQL, id) = Some row → commitSlot row <= lo ∧
    (lo + 1 - window < commitSlot row → bloom_holds sha256 window b id (commitSlot row)).

(** The receipts of a table at a slot: within the window, readable, and as the
    check on reopening wants them. *)
Definition live (slot : Z) (t : tables) : Prop :=
  ∀ k row, receipts t !! k = Some row → slot - window < commitSlot row <= slot ∧ 0 < commitSlot row ∧
    scanReceipt row = Ok row ∧ envelope_ok textLength (k, row) = true.

Lemma existsb_pend (w : work) id :
  existsb (λ p, bool_decide (pRequestID p = id)) (pend w) = bool_decide (id ∈ pRequestID <$> pend w).
Proof.
  apply eq_true_iff_eq. rewrite existsb_exists, bool_decide_eq_true, list_elem_of_fmap. split.
  - intros (p & Hp & <-%bool_decide_eq_true). exists p. by rewrite list_elem_of_In.
  - intros (p & -> & Hp). exists p. rewrite <-list_elem_of_In, bool_decide_eq_true. done.
Qed.

Lemma sim_sql b base lo w t slot c :
  0 < window → covered b base lo → sim base lo w t → live slot t → lo < slot →
  agree base lo w (quiet (ref_sql slot c t)) (sql_step b slot c w).
Proof.
  intros Hw Hcov Hs Hlive Hslot. unfold applySQL, ref_sql. destruct (validateSQL c); cbn [negb]; [|done].
  destruct (sqlFingerprint c) as [fp|]; [|done]. destruct (decide (RequestID c = [])) as [Hid|Hid].
  { rewrite bool_decide_eq_true_2 by done. cbn [negb andb]. apply sim_run; auto. }
  rewrite bool_decide_eq_false_2 by done. cbn [negb andb]. rewrite existsb_pend.
  destruct (decide (RequestID c ∈ pRequestID <$> pend w)) as [Hin|Hni].
  { rewrite (bool_decide_eq_true_2 (_ ∈ _)) by done. apply list_elem_of_fmap in Hin as (p & -> & Hp).
    rewrite (bool_decide_eq_true_2 (is_Some _)) by (destruct (si_pend _ _ _ _ Hs p Hp) as [-> _]; eauto). by apply agree_refl. }
  rewrite (bool_decide_eq_false_2 (_ ∈ _)) by done.
  assert (receipts (tab w) !! (KSQL, RequestID c) = receipts t !! (KSQL, RequestID c)) as Hl.
  { apply (sim_lookup _ _ _ _ _ Hs). right. intros (p & E & Hp)%list_elem_of_fmap. simpl in E. apply Hni. rewrite E.
    apply list_elem_of_fmap_2. by apply held_pend. }
  destruct (receipts t !! (KSQL, RequestID c)) as [row|] eqn:Et.
  - rewrite bool_decide_eq_true_2 by eauto. destruct (si_base _ _ _ _ Hs _ _ Hl) as [?|Hb]; [done|].
    destruct (Hcov _ _ Hb) as [Hle Hholds]. destruct (Hlive _ _ Et) as (Hwin & Hpos & Hscan & _).
    rewrite (bloom_holds_contains sha256 window Hw b _ _ (slot - 1) (Hholds ltac:(lia))) by lia.
    unfold receiptInTx. rewrite Hl, Hscan. by apply agree_refl.
  - rewrite bool_decide_eq_false_2 by (by intros [? ?]).
    assert (agree base lo w (quiet (ref_run slot c fp t)) (run_sql slot c fp w)) by (apply sim_run; auto).
    destruct (mightContain _ _ _ _ _); [|done]. unfold receiptInTx. by rewrite Hl.
Qed.

(** ** The reference keeps its receipts live *)

(** Whether the receipt that a command leaves where it runs can be read back
    and passes the check on reopening: SQLite counts 1 to 64 characters in its
    request ID, its fingerprint is a hash, and the result that is stored, if one
    is, decodes.  A command without an ID, or of a request the tables hold
    already, leaves none. *)
Definition decodable (b : bytes) : bool := bool_decide (b = []) || match decodeSQLResult b with Ok _ => true | Err _ => false end.

Definition storable (c : SQLCommand) (t : tables) : bool :=
  bool_decide (RequestID c = []) || bool_decide (is_Some (receipts t !! (KSQL, RequestID c))) ||
  ((0 <? textLength (RequestID c)) && (textLength (RequestID c) <=? MaxRequestIDBytes) &&
   match sqlFingerprint c with Some fp => lenZ fp =? 32 | None => true end &&
   match execute (user t) c with
   | Executed _ r => negb (wants c) || match encodeSQLResult r with Ok b => decodable b | Err _ => true end
   | _ => true
   end).

(** The same of the commands of a value, and of the values of a page, each
    where the reference runs it. *)
Fixpoint along {A} (f : A → tables → result applyError tables) (ok : A → tables → bool) (l : list A) (t : tables) : bool :=
  match l with
  | [] => true
  | x :: l' => ok x t && match f x t with Ok t1 => along f ok l' t1 | Err _ => true end
  end.

Definition storable_value (slot : Z) (value : bytes) (t : tables) : bool :=
  match decodeValue value with Some (DSQL cs) => along (ref_sql slot) storable cs (ref_prune slot t) | _ => true end.

Fixpoint storable_page (graphOk : Z → bool) (page : list (Z * bytes)) (pos : Z * bytes) (t : tables) : bool :=
  match page with
  | [] => true
  | (slot, value) :: rest =>
      if slot <=? pos.1 then storable_page graphOk rest pos t
      else if negb (slot =? pos.1 + 1) then true
      else storable_value slot value t &&
        match ref_value (graphOk slot) slot value t with Ok out => storable_page graphOk rest (slot, sha256 value) out.1 | Err _ => true end
  end.

Lemma along_all {A} (f : A → tables → result applyError tables) l t : along f (λ _ _, true) l t = true.
Proof. revert t. induction l as [|x l IH]; intros t; cbn [along andb]; [done|]. by destruct (f x t). Qed.

Lemma scan_payload row row' : sqlResult row = sqlResult row' → scanReceipt row = Ok row → scanReceipt row' = Ok row'.
Proof. unfold scanReceipt. intros <-. case_bool_decide; [done|]. by destruct (decodeSQLResult _). Qed.

Lemma receipts_live_insert slot t kind id row :
  live slot t → 0 < window → 0 < slot → commitSlot row = slot → scanReceipt row = Ok row → envelope_ok textLength ((kind, id), row) = true →
  live slot (ref_insert t kind id row).
Proof.
  intros Hl Hw Hpos Hslot Hscan Henv k row'. unfold ref_insert; cbn [set_receipts receipts].
  intros [[<- <-]|[_ ?]]%lookup_insert_Some; [split_and!; [lia..|done|done]|by eapply Hl].
Qed.

Lemma live_prune slot t : live (slot - 1) t → live slot (ref_prune slot t).
Proof.
  intros Hl k row. unfold ref_prune. destruct (Z.leb_spec slot window) as [Hle|Hgt].
  - intros Hk. destruct (Hl _ _ Hk) as ([? ?] & ? & ? & ?). split_and!; [lia..|done|done].
  - cbn [set_receipts receipts]. intros [Hk Hp]%map_lookup_filter_Some. simpl in Hp.
    destruct (Hl _ _ Hk) as ([? ?] & ? & ? & ?). split_and!; [lia..|done|done].
Qed.

Lemma live_notify slot c t t' ns : 0 < window → 0 < slot → ref_notify slot c t = Ok (t', ns) → live slot t → live slot t'.
Proof.
  intros Hw Hpos. unfold ref_notify. destruct (_ || _); [done|]. destruct (notifyFingerprint c); [|done].
  destruct (receipts t !! _); intros [= <- _] Hl; [done|]. by apply receipts_live_insert.
Qed.

Lemma live_kv slot c t t' : 0 < window → 0 < slot → ref_kv slot c t = Ok t' → live slot t → live slot t'.
Proof.
  intros Hw Hpos. unfold ref_kv. destruct (_ || _); [done|]. destruct (kvFingerprint c); [|done].
  destruct (receipts t !! _); [by intros [= <-]|]. destruct (kv_effect _ _). intros [= <-] Hl. by apply receipts_live_insert.
Qed.

Lemma decodable_scan row b : decodable b = true → scanReceipt (with_result row b) = Ok (with_result row b).
Proof. unfold decodable, scanReceipt. cbn [with_result sqlResult]. case_bool_decide; [done|]. by destruct (decodeSQLResult b). Qed.

(** What a command that runs and has an ID needs. *)
Lemma storable_runs c t fp :
  storable c t = true → RequestID c ≠ [] → receipts t !! (KSQL, RequestID c) = None → sqlFingerprint c = Some fp →
  0 < textLength (RequestID c) <= MaxRequestIDBytes ∧ lenZ fp = 32 ∧
  ∀ d' r b, execute (user t) c = Executed d' r → wants c = true → encodeSQLResult r = Ok b → decodable b = true.
Proof.
  unfold storable. intros H Hid Hnew Hfp. rewrite bool_decide_eq_false_2, bool_decide_eq_false_2, Hfp in H; [|by rewrite Hnew; intros [? ?]|done].
  cbn [orb] in H. apply andb_true_iff in H as [[[H1%Z.ltb_lt H2%Z.leb_le]%andb_true_iff H3%Z.eqb_eq]%andb_true_iff H4].
  split_and!; [done..|]. intros d' r b Ex Hwant Eb. by rewrite Ex, Hwant, Eb in H4.
Qed.

Lemma outcome_row_readable slot c fp d ran row r b :
  (∀ d' r b, execute d c = Executed d' r → wants c = true → encodeSQLResult r = Ok b → decodable b = true) →
  outcome_row slot c fp (execute d c) = Ok (ran, row, r) →
  encodeSQLResult (if wants c then r else mkSQLResult [] []) = Ok b → scanReceipt (with_result row b) = Ok (with_result row b).
Proof.
  intros Hread Ho Hb. apply decodable_scan. destruct (wants c) eqn:Hwant; [|by injection Hb as <-].
  destruct (execute d c) as [d' r'|?|] eqn:Ex; simpl in Ho; [|case_bool_decide; [done|]|done].
  - injection Ho as _ _ <-. by eapply Hread.
  - injection Ho as _ _ <-. by injection Hb as <-.
Qed.

Lemma encode_bound r b : encodeSQLResult r = Ok b → lenZ b <= MaxMutationResultBytes.
Proof.
  intros H. destruct (decide (Statements r = [])) as [E|E]; [|by eapply encode_size].
  unfold encodeSQLResult in H. rewrite E in H. case_bool_decide; [|done]. by injection H as <-.
Qed.

(** The row a fresh request leaves passes the check on reopening. *)
Lemma envelope_intro c fp row :
  0 < textLength (RequestID c) <= MaxRequestIDBytes → lenZ fp = 32 → fingerprint row = fp →
  match status row, code row with
  | MutationCommitted, NoError => true
  | MutationRejected, (ExecutionFailed | PreconditionFailed | ResultRetentionFull) => bool_decide (sqlResult row = [])
  | _, _ => false
  end = true → lenZ (sqlResult row) <= MaxMutationResultBytes → envelope_ok textLength ((KSQL, RequestID c), row) = true.
Proof.
  intros [H1 H2] Hfp Hrow Hst Hlen. unfold envelope_ok. cbn [fst snd]. rewrite Hst, Hrow, Hfp.
  rewrite (proj2 (Z.leb_le _ _) Hlen), (proj2 (Z.leb_le _ _) H2).
  destruct (Z.eqb_spec (textLength (RequestID c)) 0); [lia|]. by rewrite orb_true_r.
Qed.

Lemma outcome_row_envelope slot c fp d ran row r b :
  outcome_row slot c fp (execute d c) = Ok (ran, row, r) → encodeSQLResult (if wants c then r else mkSQLResult [] []) = Ok b →
  fingerprint (with_result row b) = fp ∧
  match status (with_result row b), code (with_result row b) with
  | MutationCommitted, NoError => true
  | MutationRejected, (ExecutionFailed | PreconditionFailed | ResultRetentionFull) => bool_decide (sqlResult (with_result row b) = [])
  | _, _ => false
  end = true.
Proof.
  intros Ho Hb. destruct (execute d c) as [d' r'|pre|]; simpl in Ho; [|case_bool_decide; [done|]|done].
  - by injection Ho as _ <- _.
  - injection Ho as _ <- <-. assert (b = []) as -> by (destruct (wants c); by injection Hb as <-). by destruct pre.
Qed.

Lemma live_sql slot c t t' : storable c t = true → 0 < window → 0 < slot → ref_sql slot c t = Ok t' → live slot t → live slot t'.
Proof.
  intros Hst Hw Hpos. unfold ref_sql. destruct (validateSQL c); cbn [negb]; [|done].
  destruct (sqlFingerprint c) as [fp|] eqn:Hfp; [|done]. destruct (_ && _) eqn:Hnew; [by intros [= <-]|]. unfold ref_run.
  destruct (outcome_row slot c fp _) as [[[ran row] r]|] eqn:Eo; cbn [rbind]; [|done].
  case_bool_decide as Hid; [by intros [= <-]|]. destruct (encodeSQLResult _) as [b|] eqn:Eb; [|done].
  destruct (admits _ _ 0); cbn [negb]; [|done]. pose proof (outcome_row_slot _ _ _ _ _ _ _ Eo).
  destruct (outcome_row_envelope _ _ _ _ _ _ _ _ Eo Eb) as [Hf Hstat].
  apply andb_false_iff in Hnew as [Hx|Hnew%bool_decide_eq_false]; [done|]. apply eq_None_not_Some in Hnew.
  destruct (storable_runs _ _ _ Hst Hid Hnew Hfp) as (Htext & Hlen & Hread).
  destruct (admits _ _ _); intros [= <-] Hl; apply receipts_live_insert; try done.
  - by eapply outcome_row_readable.
  - eapply envelope_intro; try done. by eapply encode_bound.
  - by eapply envelope_intro.
Qed.

Lemma live_list {A} (f : A → tables → result applyError tables) ok slot (l : list A) t t' :
  (∀ x t t', ok x t = true → f x t = Ok t' → live slot t → live slot t') → along f ok l t = true → ref_list f l t = Ok t' → live slot t → live slot t'.
Proof.
  intros Hf. revert t. induction l as [|x l IH]; intros t; cbn [ref_list along]; [by intros _ [= <-]|].
  intros [Hx Hl]%andb_true_iff. destruct (f x t) as [t1|] eqn:E; cbn [rbind]; [|done]. eauto.
Qed.

Lemma live_value g slot value t t' ns :
  storable_value slot value t = true → 0 < window → 0 < slot → ref_value g slot value t = Ok (t', ns) → live (slot - 1) t → live slot t'.
Proof.
  intros Hst Hw Hpos Hv Hl%live_prune. unfold ref_value in Hv. unfold storable_value in Hst. destruct (decodeValue value) as [v|]; [|done].
  destruct g; [|done]. cbn [negb] in Hv.
  enough (∀ out, match v with
    | DNotify c => ref_notify slot c (ref_prune slot t)
    | DKV cs => let! t2 := ref_list (ref_kv slot) cs (ref_prune slot t) in Ok (t2, [])
    | DSQL cs => let! t2 := ref_list (ref_sql slot) cs (ref_prune slot t) in Ok (t2, [])
    | DGraph | DControl => Ok (ref_prune slot t, [])
    | DUnknown => Err ErrIncompatible end = Ok out → live slot out.1) as Hout.
  { clear Hst. destruct (match v with DNotify _ => _ | _ => _ end) as [out|]; [|done]. injection Hv as <- _. by apply (Hout out). }
  intros [t1 ns1]. destruct v; cbn [fst].
  - intros E. by eapply live_notify.
  - destruct (ref_list _ _ _) eqn:E; [|done]. intros [= -> _]. eapply live_list, Hl; [|apply along_all|exact E]. intros; by eapply live_kv.
  - destruct (ref_list _ _ _) eqn:E; [|done]. intros [= -> _]. eapply live_list, Hl; [|exact Hst|exact E]. intros; by eapply live_sql.
  - by intros [= <- _].
  - by intros [= <- _].
  - done.
Qed.

(** ** Values and pages *)

Lemma live_readable slot t : live slot t → readable t.
Proof. intros Hl k row Hk. by destruct (Hl _ _ Hk) as (_ & _ & ? & _). Qed.

Lemma agree_list {A} (f : A → tables → result applyError tables) (g : A → work → result applyError work)
    (loop : list A → work → result applyError work) ok base lo slot (l : list A) w t :
  (∀ w, loop [] w = Ok w) → (∀ x l w, loop (x :: l) w = let! w1 := g x w in loop l w1) →
  (∀ x t t', ok x t = true → f x t = Ok t' → live slot t → live slot t') →
  (∀ x w t, sim base lo w t → live slot t → agree base lo w (quiet (f x t)) (g x w)) →
  along f ok l t = true → sim base lo w t → live slot t → agree base lo w (quiet (ref_list f l t)) (loop l w).
Proof.
  intros Hnil Hcons Hlive Hstep. revert w t. induction l as [|x l IH]; intros w t Hok Hs Hl; cbn [ref_list along] in *.
  { rewrite Hnil. by apply agree_refl. }
  apply andb_true_iff in Hok as [Hx Hok].
  rewrite Hcons. specialize (Hstep x w t Hs Hl). destruct (f x t) as [t1|e] eqn:E; cbn [quiet rbind agree] in *; [|by rewrite Hstep].
  destruct Hstep as (w1 & -> & Hs1 & Hn). rewrite app_nil_r in Hn. cbn [rbind].
  specialize (IH w1 t1 Hok Hs1 (Hlive _ _ _ Hx E Hl)). unfold agree in *. by rewrite Hn in IH.
Qed.

Lemma sim_position base lo w t slot h b : sim base lo w t → sim base lo (set_tab w (set_position (tab w) slot h b)) (exact (set_position t slot h b)).
Proof. intros [H1 H2 (H3 & H3' & H3'') H4 H5 H6 H7 H8 H11 H12]. split; try done. cbn. by rewrite H3''. Qed.

Lemma sim_value io b base lo w t slot value :
  0 < window → storable_value slot value t = true → covered b base lo → sim base lo w t → live (slot - 1) t → 0 <= lo < slot → slot <= lo + window →
  agree base lo w (ref_value (ioGraph io slot) slot value t) (value_step io b slot value w).
Proof.
  intros Hw Hst Hcov Hs Hl Hlo Hhi. unfold applyValueLocked, ref_value. unfold storable_value in Hst.
  destruct (sim_prune _ _ _ _ _ Hs Hhi) as (w1 & -> & Hs1 & Hn1 & _). cbn [rbind]. apply live_prune in Hl.
  destruct (decodeValue value) as [v|]; [|done]. destruct (ioGraph io slot); cbn [negb]; [|done].
  assert (agree base lo w1 (match v with
    | DNotify c => ref_notify slot c (ref_prune slot t)
    | DKV cs => quiet (ref_list (ref_kv slot) cs (ref_prune slot t))
    | DSQL cs => quiet (ref_list (ref_sql slot) cs (ref_prune slot t))
    | DGraph | DControl => Ok (ref_prune slot t, [])
    | DUnknown => Err ErrIncompatible end)
    (match v with
    | DNotify c => notify_step slot c w1
    | DKV cs => applyKVs kvFingerprint expiredPage slot cs w1
    | DSQL cs => applySQLs execute sha256 validateSQL sqlFingerprint window b slot cs w1
    | DGraph | DControl => Ok w1
    | DUnknown => Err ErrIncompatible end)) as Ha.
  { destruct v; [|eapply (agree_list _ (kv_step slot)) with (slot := slot) (ok := λ _ _, true)|eapply (agree_list _ (sql_step b slot)) with (slot := slot) (ok := storable)|..];
      try done; intros; try apply along_all.
    - apply sim_notify; [done|by eapply live_readable].
    - eapply live_kv; eauto; lia.
    - apply sim_kv; [done|by eapply live_readable].
    - eapply live_sql; eauto; lia.
    - apply sim_sql; auto; lia.
    - by apply agree_refl.
    - by apply agree_refl. }
  unfold quiet in Ha. destruct (match v with DNotify _ => ref_notify _ _ _ | _ => _ end) as [[t2 ns]|e]; cbn [rbind agree] in *.
  - destruct Ha as (w2 & -> & Hs2 & Hn2). eexists. split; [done|]. split; [by apply sim_position|]. cbn. by rewrite Hn2, Hn1.
  - by rewrite Ha.
Qed.

Lemma sim_page io b base lo page pos w t :
  0 < window → storable_page (ioGraph io) page pos t = true → covered b base lo → 0 <= lo <= pos.1 → Forall (λ d : Z * bytes, d.1 <= lo + window) page →
  sim base lo w t → live pos.1 t →
  match ref_page (ioGraph io) page pos t with
  | Ok (pos', t', ns) => ∃ w', page_step io b page pos w = Ok (pos', w') ∧ sim base lo w' t' ∧ notes w' = notes w ++ ns ∧ live pos'.1 t' ∧ pos.1 <= pos'.1 <= Z.max pos.1 (lo + window)
  | Err e => page_step io b page pos w = Err e
  end.
Proof.
  intros Hw Hst Hcov. revert pos w t Hst. induction page as [|[slot value] page IH]; intros pos w t Hst Hpos Hpage Hs Hl.
  { exists w. rewrite app_nil_r. split_and!; try done; lia. }
  apply Forall_cons in Hpage as [Hslot Hpage]. cbn [fst] in Hslot. cbn [ref_page apply_page storable_page] in *.
  destruct (Z.leb_spec slot pos.1); [destruct (_ && _); [done|by apply IH]|].
  destruct (Z.eqb_spec slot (pos.1 + 1)) as [E|]; cbn [negb]; [|done].
  apply andb_true_iff in Hst as [Hsv Hst].
  assert (live (slot - 1) t) as Hl' by (by replace (slot - 1) with pos.1 by lia).
  pose proof (sim_value io b base lo w t slot value Hw Hsv Hcov Hs Hl' ltac:(lia) Hslot) as Hv.
  destruct (ref_value _ _ _ _) as [[t1 ns]|e] eqn:Ev; cbn [agree rbind fst snd] in *; [|by rewrite Hv].
  destruct Hv as (w1 & -> & Hs1 & Hn1). cbn [rbind].
  assert (live slot t1) as Hl1 by (eapply live_value; eauto; lia).
  specialize (IH (slot, sha256 value) w1 t1 Hst). cbn [fst] in IH. specialize (IH ltac:(lia) Hpage Hs1 Hl1).
  destruct (ref_page _ page _ t1) as [[[pos' t'] more]|e]; cbn [rbind fst snd]; [|done].
  destruct IH as (w' & -> & Hs' & Hn' & Hl2 & Hp). exists w'. rewrite Hn', Hn1, <-app_assoc. split_and!; try done; lia.
Qed.
End materializer.
