(* ===== verification/MaterializerRun.v ===== *)
(** * Pages, restarts and lost commits against the reference

    A page applied to tables that hold their invariant has the reference's
    result, and a run of pages, failures, lost commit acknowledgements and
    restarts leaves the tables at the reference result of a prefix of the log.
    Two replicas that applied the same slots therefore agree. *)

From stdpp Require Import gmap list relations.
From S2P Require Import Prelude Bytes SqlResult Materializer MaterializerProofs.

Section materializer.
Context {D : Type}.
Context (execute : D → SQLCommand → @execOutcome D) (sha256 : bytes → bytes).
Context (decodeValue : bytes → option decodedValue) (policyOk : bytes → bool).
Context (validateSQL : SQLCommand → bool).
Context (sqlFingerprint : SQLCommand → option bytes) (kvFingerprint : KVCommand → option bytes).
Context (notifyFingerprint : NotifyCommand → option bytes).
Context (expiredPage : kvTable → Z → gset bytes).
Context (window : Z) (textLength : bytes → Z).

Abbreviation tables := (@tables D).
Abbreviation work := (@work D).
Abbreviation reference_kv := (ref_kv kvFingerprint expiredPage).
Abbreviation reference_notify := (ref_notify notifyFingerprint).
Abbreviation reference_sql := (ref_sql execute validateSQL sqlFingerprint window).
Abbreviation reference_value := (ref_value execute sha256 decodeValue validateSQL sqlFingerprint kvFingerprint notifyFingerprint expiredPage window).
Abbreviation reference_page := (ref_page execute sha256 decodeValue validateSQL sqlFingerprint kvFingerprint notifyFingerprint expiredPage window).
Abbreviation value_storable := (storable_value execute decodeValue validateSQL sqlFingerprint window textLength).
Abbreviation page_storable := (storable_page execute sha256 decodeValue validateSQL sqlFingerprint kvFingerprint notifyFingerprint expiredPage window textLength).
Abbreviation batch := (ApplyBatch execute sha256 decodeValue policyOk validateSQL sqlFingerprint kvFingerprint notifyFingerprint expiredPage window).

(** ** Invariants *)

(** Of the tables. *)
Record stored (t : tables) : Prop := {
  st_live : live window textLength (appliedSlot t) t;
  st_exact : counters t = usage_of t;
  st_valid : valid window (counters t) = true;
  st_slot : 0 <= stateSlot t <= appliedSlot t;
}.

(** Of a process that knows what its tables hold. *)
Record known (m : memory) (t : tables) : Prop := {
  kn_tip : tip m = appliedSlot t;
  kn_hash : tipHash m = appliedHash t;
  kn_used : retention m = counters t;
  kn_bloom : covered sha256 window (filters m) (receipts t) (appliedSlot t);
  kn_commit : commitUnknown m = false;
}.

(** ** The position of the reference *)

Lemma ref_notify_state slot c (t t' : tables) ns : reference_notify slot c t = Ok (t', ns) → stateSlot t' = stateSlot t.
Proof. unfold ref_notify. repeat case_match; try done; by intros [= <- _]. Qed.

Lemma ref_kv_state slot c (t t' : tables) : reference_kv slot c t = Ok t' → stateSlot t' = stateSlot t.
Proof. unfold ref_kv. repeat case_match; try done; by intros [= <-]. Qed.

Lemma ref_sql_state slot c (t t' : tables) : reference_sql slot c t = Ok t' → stateSlot t' = stateSlot t.
Proof.
  unfold ref_sql. destruct (negb _); [done|]. destruct (sqlFingerprint c); [|done]. destruct (_ && _); [by intros [= <-]|].
  unfold ref_run. destruct (outcome_row _ _ _ _) as [[[ran row] r]|]; cbn [rbind]; [|done].
  repeat case_match; try done; by intros [= <-].
Qed.

Lemma ref_list_state {A} (f : A → tables → result applyError tables) (l : list A) (t t' : tables) :
  (∀ x t t', f x t = Ok t' → stateSlot t' = stateSlot t) → ref_list f l t = Ok t' → stateSlot t' = stateSlot t.
Proof.
  intros Hf. revert t. induction l as [|x l IH]; intros t; cbn [ref_list]; [by intros [= <-]|].
  destruct (f x t) as [t1|] eqn:E; cbn [rbind]; [|done]. intros H. by rewrite (IH _ H), (Hf _ _ _ E).
Qed.

Lemma ref_prune_state slot (t : tables) : stateSlot (ref_prune window slot t) = stateSlot t.
Proof. unfold ref_prune. by case_match. Qed.

Lemma ref_value_position g slot value (t t' : tables) ns :
  reference_value g slot value t = Ok (t', ns) →
  appliedSlot t' = slot ∧ appliedHash t' = sha256 value ∧ counters t' = usage_of t' ∧ (stateSlot t' = slot ∨ stateSlot t' = stateSlot t).
Proof.
  unfold ref_value. destruct (decodeValue value) as [v|]; [|done]. destruct g; [|done]. cbn [negb]. intros Hv.
  destruct (match v with DNotify _ => _ | _ => _ end) as [[t1 ns1]|] eqn:E; [|done]. injection Hv as <- _.
  split_and!; [done..|]. cbn [exact set_counters set_position stateSlot fst]. destruct (mutatesState v); [by left|right].
  rewrite <-(ref_prune_state slot t). destruct v; cbn [rbind] in E.
  - by eapply ref_notify_state.
  - destruct (ref_list _ _ _) as [t2|] eqn:El; [|done]. injection E as -> _. eapply ref_list_state, El. apply ref_kv_state.
  - destruct (ref_list _ _ _) as [t2|] eqn:El; [|done]. injection E as -> _. eapply ref_list_state, El. apply ref_sql_state.
  - by injection E as -> _.
  - by injection E as -> _.
  - done.
Qed.

Lemma ref_page_position g page pos (t : tables) pos' (t' : tables) ns :
  reference_page g page pos t = Ok (pos', t', ns) → pos = (appliedSlot t, appliedHash t) → counters t = usage_of t →
  0 <= stateSlot t <= appliedSlot t →
  pos' = (appliedSlot t', appliedHash t') ∧ counters t' = usage_of t' ∧ 0 <= stateSlot t' <= appliedSlot t'.
Proof.
  revert pos t ns. induction page as [|[slot value] page IH]; intros pos t ns; cbn [ref_page]; [by intros [= <- <- _]|].
  destruct (Z.leb_spec slot pos.1); [destruct (_ && _); [done|apply IH]|].
  destruct (Z.eqb_spec slot (pos.1 + 1)) as [E|]; cbn [negb]; [|done].
  destruct (ref_value _ _ _ _ _ _ _ _ _ _ _ _ _) as [[t1 ns1]|] eqn:Ev; cbn [rbind fst snd]; [|done].
  destruct (ref_page _ _ _ _ _ _ _ _ _ _ page _ t1) as [[[pos2 t2] ns2]|] eqn:Ep; cbn [rbind fst snd]; [|done].
  intros [= -> -> _] -> Hc Hst. cbn [fst] in *. destruct (ref_value_position _ _ _ _ _ _ Ev) as (H1 & H2 & H3 & H4).
  eapply IH; [exact Ep|by rewrite H1, H2|done|]. rewrite H1. destruct H4 as [-> | ->]; lia.
Qed.

(** ** A page *)

Lemma sim_start m t : stored t → known m t → sim window (receipts t) (appliedSlot t) (mkWork t (retention m) [] 0 []) t.
Proof.
  intros [H1 H2 H3 H4] [K1 K2 K3 K4 K5]. split; try done; cbn [used pend tab].
  - by rewrite K3.
  - by rewrite K3.
  - split; [constructor|]. by intros p ?%elem_of_nil.
  - exists []. by split_and!.
  - by intros p ?%elem_of_nil.
  - intros id row Hr. by right.
Qed.

Lemma fold_pending (ps : list pendingReceipt) b :
  fold_left (λ b p, bloom_add sha256 window b (pRequestID p) (commitSlot (pRow p))) ps b =
  fold_left (λ b p, bloom_add sha256 window b p.1 p.2) ((λ p, (pRequestID p, commitSlot (pRow p))) <$> ps) b.
Proof. revert b. induction ps as [|p ps IH]; intros b; [done|]. cbn. apply IH. Qed.

Lemma covered_after b (t : tables) (w : work) (t' : tables) :
  0 < window → covered sha256 window b (receipts t) (appliedSlot t) → sim window (receipts t) (appliedSlot t) w t' →
  held w = [] → live window textLength (appliedSlot t') t' → appliedSlot t <= appliedSlot t' <= appliedSlot t + window →
  covered sha256 window (fold_left (λ b p, bloom_add sha256 window b (pRequestID p) (commitSlot (pRow p))) (pend w) b)
    (receipts t') (appliedSlot t').
Proof.
  intros Hw Hcov Hs Hh Hl Hle id row Hrow. destruct (Hl _ _ Hrow) as (Hwin & _ & _). split; [lia|]. intros Hfresh.
  rewrite fold_pending. apply bloom_add_all; [done| |].
  - intros q (p & -> & Hp)%list_elem_of_fmap. cbn [snd]. destruct (si_pend _ _ _ _ _ Hs p Hp) as [Hlk Hlo].
    destruct (Hl _ _ Hlk) as (? & _ & _). lia.
  - rewrite (si_rows _ _ _ _ _ Hs), Hh in Hrow. cbn in Hrow.
    destruct (si_base _ _ _ _ _ Hs _ _ Hrow) as [(p & -> & Hp)%list_elem_of_fmap|Hb].
    + right. apply list_elem_of_fmap. exists p. split; [|done]. destruct (si_pend _ _ _ _ _ Hs p Hp) as [Hlk _].
      rewrite (si_rows _ _ _ _ _ Hs), Hh in Hlk. cbn in Hlk. by simplify_eq.
    + left. destruct (Hcov _ _ Hb) as [_ Hx]. apply Hx. lia.
Qed.

(** The end of a page: what the transaction commits is the reference's table. *)
Lemma finish_exact io m t pos w t' ns :
  0 < window → known m t → sim window (receipts t) (appliedSlot t) w t' → notes w = ns →
  stored t' → pos = (appliedSlot t', appliedHash t') → appliedSlot t <= appliedSlot t' <= appliedSlot t + window →
  ∃ m', known m' t' ∧
    finish_page sha256 window io m t pos w =
      (if ioCancelled io then (Err ErrCancelled, m, t)
       else if negb (ioCommit io) then (Err ErrCommitUnknown, mkMemory (tip m) (tipHash m) (retention m) (filters m) true, t)
       else if negb (ioAcknowledged io) then (Err ErrCommitUnknown, mkMemory (tip m) (tipHash m) (retention m) (filters m) true, t')
       else (Ok ns, m', t')).
Proof.
  intros Hw Hk Hs Hn Hst -> Hle. unfold finish_page.
  destruct (sim_flush _ _ _ _ _ Hs) as (w1 & -> & Hs1 & Hh & Hn1 & _).
  rewrite (si_valid _ _ _ _ _ Hs1). cbn [negb].
  assert (set_counters (tab w1) (used w1) = t') as ->.
  { pose proof (si_rows _ _ _ _ _ Hs1) as Hr. rewrite Hh in Hr. cbn in Hr. destruct (si_position _ _ _ _ _ Hs1) as (E1 & E2 & E3).
    pose proof (si_kv _ _ _ _ _ Hs1) as E4. pose proof (si_user _ _ _ _ _ Hs1) as E5. pose proof (si_used _ _ _ _ _ Hs1) as E6.
    rewrite <-(st_exact _ Hst) in E6. unfold set_counters. rewrite <-Hr, E1, E2, E3, E4, E5, E6. by destruct t'. }
  eexists (mkMemory _ _ _ _ _). split; [|by rewrite Hn1, Hn].
  split; cbn [tip tipHash retention filters commitUnknown fst snd]; try done.
  - by rewrite (si_used _ _ _ _ _ Hs1), (st_exact _ Hst).
  - apply (covered_after _ t); try done; [by apply (kn_bloom _ _ Hk)|by apply st_live].
Qed.

(** Every outcome of a page, in terms of the reference. *)
Lemma ApplyBatch_outcome io page m t :
  0 < window → stored t → known m t → Forall (λ d : Z * bytes, d.1 <= appliedSlot t + window) page →
  page_storable (ioGraph io) page (appliedSlot t, appliedHash t) t = true → forallb (λ d, policyOk d.2) page = true → page ≠ [] →
  match reference_page (ioGraph io) page (appliedSlot t, appliedHash t) t with
  | Err e => batch io page m t = (Err e, m, t)
  | Ok (pos, t', ns) =>
      stored t' ∧ ∃ m', known m' t' ∧
      batch io page m t =
        (if ioCancelled io then (Err ErrCancelled, m, t)
         else if negb (ioCommit io) then (Err ErrCommitUnknown, mkMemory (tip m) (tipHash m) (retention m) (filters m) true, t)
         else if negb (ioAcknowledged io) then (Err ErrCommitUnknown, mkMemory (tip m) (tipHash m) (retention m) (filters m) true, t')
         else (Ok ns, m', t'))
  end.
Proof.
  intros Hw Hst Hk Hpage Hpst Hpol Hne. unfold ApplyBatch. rewrite Hpol, bool_decide_eq_false_2 by done.
  rewrite (kn_commit _ _ Hk). replace (tip m, tipHash m) with (appliedSlot t, appliedHash t)
    by (by rewrite (kn_tip _ _ Hk), (kn_hash _ _ Hk)). cbn [negb].
  pose proof (sim_page execute sha256 decodeValue validateSQL sqlFingerprint kvFingerprint notifyFingerprint expiredPage window textLength io (filters m)
    (receipts t) (appliedSlot t) page (appliedSlot t, appliedHash t) (mkWork t (retention m) [] 0 []) t Hw Hpst (kn_bloom _ _ Hk)) as Hp.
  cbn [fst] in Hp. specialize (Hp ltac:(pose proof (st_slot _ Hst); lia) Hpage (sim_start _ _ Hst Hk) (st_live _ Hst)).
  destruct (ref_page _ _ _ _ _ _ _ _ _ _ _ _ _) as [[[pos t'] ns]|e] eqn:Er; [|by rewrite Hp].
  destruct Hp as (w & -> & Hs & Hn & Hl & Hle).
  destruct (ref_page_position _ _ _ _ _ _ _ Er eq_refl (st_exact _ Hst) (st_slot _ Hst)) as (-> & Hc & Hss). cbn [fst] in *.
  assert (stored t') as Hst'.
  { split; try done. rewrite Hc, <-(si_used _ _ _ _ _ Hs). apply (si_valid _ _ _ _ _ Hs). }
  split; [done|]. apply finish_exact; try done. lia.
Qed.

(** ** Reopening *)

Lemma fold_left_filter (l : list ((MutationKind * bytes) * receiptRow)) floor b :
  fold_left (λ b p, if decide (p.1.1 = KSQL ∧ floor <= commitSlot p.2) then bloom_add sha256 window b p.1.2 (commitSlot p.2) else b) l b =
  fold_left (λ b p, bloom_add sha256 window b p.1 p.2)
    ((λ p, (p.1.2, commitSlot p.2)) <$> filter (λ p, p.1.1 = KSQL ∧ floor <= commitSlot p.2) l) b.
Proof.
  revert b. induction l as [|p l IH]; intros b; [done|]. cbn [fold_left]. rewrite filter_cons. case_decide; apply IH.
Qed.

Lemma reopen_known l t : 0 < window → stored t → l ≡ₚ map_to_list (receipts t) →
  ∃ m, reopen sha256 window textLength l t = Ok m ∧ known m t.
Proof.
  intros Hw Hst Hl. pose proof (st_slot _ Hst). unfold reopen. destruct (Z.ltb_spec (appliedSlot t) (stateSlot t)); [lia|].
  unfold loadSQLReceiptRetention. rewrite (st_valid _ Hst). cbn [negb].
  assert (forallb (envelope_ok textLength) (map_to_list (receipts t)) = true) as ->.
  { apply forallb_forall. intros [k row] Hin%list_elem_of_In. apply elem_of_map_to_list in Hin. by destruct (st_live _ Hst _ _ Hin) as (_ & _ & _ & ?). }
  cbn [negb]. fold (usage_of t). rewrite <-(st_exact _ Hst), !Z.eqb_refl.
  cbn [andb rbind]. eexists. split; [done|]. split; try done. cbn [filters].
  intros id row Hrow. destruct (st_live _ Hst _ _ Hrow) as (Hwin & Hpos & _). split; [lia|]. intros _.
  unfold loadSQLReceiptBloom. rewrite fold_left_filter. apply bloom_add_all; [done| |].
  - intros q (p & -> & [[_ Hf] Hp]%list_elem_of_filter)%list_elem_of_fmap. cbn [snd]. rewrite Hl in Hp. destruct p as [k row'].
    apply elem_of_map_to_list in Hp. destruct (st_live _ Hst _ _ Hp) as (? & _ & _). cbn [snd] in *. lia.
  - right. apply list_elem_of_fmap. exists ((KSQL, id), row). split; [done|]. apply list_elem_of_filter. split.
    + cbn [fst snd]. split; [done|]. case_match; lia.
    + rewrite Hl. by apply elem_of_map_to_list.
Qed.

Lemma new_stored d : 0 < window → stored (newTables d).
Proof.
  intros Hw. assert (usage_of (newTables d) = mkUsage 0 0) as E by apply retained_empty. split; rewrite ?E; cbn; try done; try lia.
  unfold valid. cbn. change maxRetainedSQLResultBytes with 268435456. apply andb_true_iff. rewrite !Z.leb_le. unfold MaxSQLCommandsPerDecidedValue. lia.
Qed.

(** ** The log, replayed one value at a time *)

Fixpoint replay (log : Z → bytes) (d : D) (n : nat) : result applyError tables :=
  match n with
  | O => Ok (newTables d)
  | S n' => let! t := replay log d n' in let! out := reference_value true (Z.of_nat n) (log (Z.of_nat n)) t in Ok out.1
  end.

Lemma replay_position log d n t : replay log d n = Ok t → appliedSlot t = Z.of_nat n.
Proof.
  destruct n as [|n]; cbn [replay]; [by intros [= <-]|]. destruct (replay log d n) as [t0|]; cbn [rbind]; [|done].
  destruct (ref_value _ _ _ _ _ _ _ _ _ _ _ _ _) as [[t1 ns]|] eqn:E; cbn [rbind]; [|done]. intros [= <-].
  by destruct (ref_value_position _ _ _ _ _ _ E) as (? & _).
Qed.

Lemma ref_value_graph g slot value t out : reference_value g slot value t = Ok out → reference_value true slot value t = Ok out.
Proof. unfold ref_value. destruct (decodeValue value); [|done]. by destruct g. Qed.

Lemma ref_page_replay log d g page t n pos t' ns :
  replay log d n = Ok t → Forall (λ p : Z * bytes, p.2 = log p.1) page →
  reference_page g page (appliedSlot t, appliedHash t) t = Ok (pos, t', ns) → ∃ n', (n <= n')%nat ∧ replay log d n' = Ok t'.
Proof.
  revert n t ns. induction page as [|[slot value] page IH]; intros n t ns Hr Hpage; cbn [ref_page fst snd].
  { intros [= _ <- _]. by exists n. }
  apply Forall_cons in Hpage as [Hval Hpage]. cbn [fst snd] in Hval. subst value.
  destruct (Z.leb_spec slot (appliedSlot t)); [destruct (_ && _); [done|by apply IH]|].
  destruct (Z.eqb_spec slot (appliedSlot t + 1)) as [E|]; cbn [negb]; [|done].
  destruct (ref_value _ _ _ _ _ _ _ _ _ _ _ _ _) as [[t1 ns1]|] eqn:Ev; cbn [rbind fst snd]; [|done].
  destruct (ref_page _ _ _ _ _ _ _ _ _ _ page _ t1) as [[[pos2 t2] ns2]|] eqn:Ep; cbn [rbind fst snd]; [|done].
  intros [= -> -> _]. destruct (ref_value_position _ _ _ _ _ _ Ev) as (H1 & H2 & _). rewrite <-H2, <-H1 in Ep.
  apply (IH (S n)) in Ep as (n' & Hle & Hn'); [exists n'; split; [lia|done]| |done].
  cbn [replay]. rewrite Hr. cbn [rbind]. rewrite (replay_position _ _ _ _ Hr) in E.
  replace (Z.of_nat (S n)) with slot by lia. by rewrite (ref_value_graph _ _ _ _ _ Ev).
Qed.

(** Every SQL command of the log leaves a storable receipt where the replay
    runs it. *)
Definition storable_log (log : Z → bytes) (d : D) : Prop :=
  ∀ n t, replay log d n = Ok t → value_storable (Z.of_nat (S n)) (log (Z.of_nat (S n))) t = true.

Lemma storable_log_page log d g page n t :
  storable_log log d → replay log d n = Ok t → Forall (λ p : Z * bytes, p.2 = log p.1) page →
  page_storable g page (appliedSlot t, appliedHash t) t = true.
Proof.
  intros Hlog. generalize (appliedHash t) as h. revert n t. induction page as [|[slot value] page IH]; intros n t h Hr Hpage; cbn [storable_page fst]; [done|].
  apply Forall_cons in Hpage as [Hval Hpage]. cbn [fst snd] in Hval. subst value.
  destruct (Z.leb_spec slot (appliedSlot t)); [by apply (IH n)|].
  destruct (Z.eqb_spec slot (appliedSlot t + 1)) as [E|]; cbn [negb]; [|done].
  pose proof (replay_position _ _ _ _ Hr) as Hp. pose proof (Hlog n t Hr) as Hv. replace (Z.of_nat (S n)) with slot in Hv by lia. rewrite Hv. cbn [andb].
  destruct (ref_value _ _ _ _ _ _ _ _ _ _ _ _ _) as [[t1 ns]|] eqn:Ev; cbn [fst]; [|done]. destruct (ref_value_position _ _ _ _ _ _ Ev) as (Hslot & _).
  rewrite <-Hslot. apply (IH (S n)); [|done]. cbn [replay]. rewrite Hr. cbn [rbind]. replace (Z.of_nat (S n)) with slot by lia. by rewrite (ref_value_graph _ _ _ _ _ Ev).
Qed.

(** ** Runs *)

(** A replica applies pages of the decided log, with any failure of its I/O,
    and reopens its tables at any time. *)
Inductive mstep (log : Z → bytes) : (memory * tables) → (memory * tables) → Prop :=
| mstep_apply io page m t r m' t' :
    Forall (λ d : Z * bytes, d.2 = log d.1 ∧ d.1 <= appliedSlot t + window) page →
    batch io page m t = (r, m', t') → mstep log (m, t) (m', t')
| mstep_reopen l m t m' :
    l ≡ₚ map_to_list (receipts t) → reopen sha256 window textLength l t = Ok m' → mstep log (m, t) (m', t).

Definition on_log (log : Z → bytes) (d : D) (s : memory * tables) : Prop :=
  stored s.2 ∧ (known s.1 s.2 ∨ commitUnknown s.1 = true) ∧ ∃ n, replay log d n = Ok s.2.

Lemma mstep_on_log log d s s' : 0 < window → storable_log log d → on_log log d s → mstep log s s' → on_log log d s'.
Proof.
  intros Hw Hlog Hsame Hstep. destruct Hstep as [io page m t r m' t' Hpage Hb|l m t m' Hl Hr];
    pose proof Hsame as (Hst & Hk & n & Hn); cbn [fst snd] in *.
  2:{ destruct (reopen_known _ _ Hw Hst Hl) as (m2 & E & Hk2). rewrite Hr in E. injection E as <-. split; [done|]. split; [by left|eauto]. }
  unfold ApplyBatch in Hb. destruct (forallb (λ d, policyOk d.2) page) eqn:Hpol; cbn [negb] in Hb; [|by simplify_eq].
  case_bool_decide as Hne; [by simplify_eq|]. destruct Hk as [Hk|Hunknown]; [|rewrite Hunknown in Hb; by simplify_eq].
  assert (page_storable (ioGraph io) page (appliedSlot t, appliedHash t) t = true) as Hpst.
  { eapply storable_log_page; [done|exact Hn|]. eapply Forall_impl; [exact Hpage|by intros ? [? _]]. }
  pose proof (ApplyBatch_outcome io page m t Hw Hst Hk ltac:(eapply Forall_impl; [exact Hpage|by intros ? [_ ?]]) Hpst Hpol Hne) as Ho.
  unfold ApplyBatch in Ho. rewrite Hpol, bool_decide_eq_false_2 in Ho by done. cbn [negb] in Ho. rewrite Hb in Ho. clear Hb.
  destruct (ref_page _ _ _ _ _ _ _ _ _ _ _ _ _) as [[[pos t2] ns]|e] eqn:Er; [|by simplify_eq].
  destruct Ho as (Hst2 & m2 & Hk2 & Ho).
  assert (∃ n', (n <= n')%nat ∧ replay log d n' = Ok t2) as (n' & _ & Hn').
  { eapply ref_page_replay; [exact Hn| |exact Er]. eapply Forall_impl; [exact Hpage|by intros ? [? _]]. }
  unfold on_log in *. repeat case_match; simplify_eq/=; (split; [done|]); split; eauto.
Qed.

Lemma run_on_log log d m0 s :
  0 < window → storable_log log d → reopen sha256 window textLength [] (newTables d) = Ok m0 →
  rtc (mstep log) (m0, newTables d) s → on_log log d s.
Proof.
  intros Hw Hlog H0. assert (on_log log d (m0, newTables d)) as Hstart.
  { split; [by apply new_stored|]. split; [left|by exists 0%nat]. cbn [fst snd].
    destruct (reopen_known [] (newTables d) Hw (new_stored d Hw)) as (m & E & Hk); [cbn [newTables receipts]; by rewrite map_to_list_empty|]. congruence. }
  intros Hrun. revert Hstart. induction Hrun as [s|s1 s2 s3 Hs _ IH]; [done|]. intros H1. apply IH. by eapply mstep_on_log.
Qed.

(** C16: applying a page is exactly the reference, which applies one value at a
    time and keeps nothing but the tables.  For a non-empty page that the policy
    admits, of slots at most a window behind the applied one, on well-formed
    tables whose process knows them: when the reference refuses the page,
    [ApplyBatch] returns its error and changes nothing; otherwise, if the
    transaction commits and is acknowledged, the tables, the counters and the
    notifications are the reference's, and if it is cancelled, not committed or
    not acknowledged, the error says so and the tables are the old ones, the old
    ones and the reference's.  Batching, pending receipts, the filter and
    incremental retention do not show.  The receipts the page leaves must be
    storable where the reference runs the commands: the result decodes, SQLite
    counts 1 to 64 characters in the request ID. *)
Theorem ApplyBatch_exact io page m t :
  0 < window → stored t → known m t → page ≠ [] → Forall (λ d : Z * bytes, d.1 <= appliedSlot t + window) page →
  page_storable (ioGraph io) page (appliedSlot t, appliedHash t) t = true → forallb (λ d, policyOk d.2) page = true →
  match reference_page (ioGraph io) page (appliedSlot t, appliedHash t) t with
  | Err e => batch io page m t = (Err e, m, t)
  | Ok (_, t', ns) =>
      stored t' ∧ ∃ m', known m' t' ∧
      let unknown := mkMemory (tip m) (tipHash m) (retention m) (filters m) true in
      batch io page m t =
        (if ioCancelled io then (Err ErrCancelled, m, t)
         else if negb (ioCommit io) then (Err ErrCommitUnknown, unknown, t)
         else if negb (ioAcknowledged io) then (Err ErrCommitUnknown, unknown, t')
         else (Ok ns, m', t'))
  end.
Proof. intros Hw Hst Hk Hne Hpage Hpst Hpol. by apply (ApplyBatch_outcome io page m t). Qed.

(** C18: in every run of pages no longer than the window, failed or cancelled
    transactions, commits whose acknowledgement is lost, and restarts, the
    tables are the replay of a prefix of the decided log, and reopening them
    succeeds, whatever order the receipts are listed in.  The window is positive
    and the SQL commands of the log leave receipts that are storable where the
    replay runs them: the result decodes, SQLite counts 1 to 64 characters in
    the request ID. *)
Theorem materialized_prefix log d m0 m t :
  0 < window → storable_log log d → reopen sha256 window textLength [] (newTables d) = Ok m0 →
  rtc (mstep log) (m0, newTables d) (m, t) →
  (∃ n, replay log d n = Ok t ∧ appliedSlot t = Z.of_nat n) ∧
  ∀ l, l ≡ₚ map_to_list (receipts t) → ∃ m', reopen sha256 window textLength l t = Ok m'.
Proof.
  intros Hw Hlog H0 Hrun. destruct (run_on_log _ _ _ _ Hw Hlog H0 Hrun) as (Hst & _ & n & Hn). split.
  - exists n. split; [done|]. by eapply replay_position.
  - intros l Hl. destruct (reopen_known _ _ Hw Hst Hl) as (m' & E & _). eauto.
Qed.

(** Two replicas at the same slot hold the same tables, whatever pages,
    failures and restarts brought them there. *)
Theorem replicas_agree log d m0 m1 t1 m2 t2 :
  0 < window → storable_log log d → reopen sha256 window textLength [] (newTables d) = Ok m0 →
  rtc (mstep log) (m0, newTables d) (m1, t1) → rtc (mstep log) (m0, newTables d) (m2, t2) →
  appliedSlot t1 = appliedSlot t2 → t1 = t2.
Proof.
  intros Hw Hlog H0 Hr1 Hr2 E. destruct (run_on_log _ _ _ _ Hw Hlog H0 Hr1) as (_ & _ & n1 & H1).
  destruct (run_on_log _ _ _ _ Hw Hlog H0 Hr2) as (_ & _ & n2 & H2). cbn [snd] in *.
  pose proof (replay_position _ _ _ _ H1). pose proof (replay_position _ _ _ _ H2).
  assert (n1 = n2) as -> by lia. congruence.
Qed.

(** ** Receipts last for their window *)

Lemma insert_keeps (m : gmap (MutationKind * bytes) receiptRow) k row k' row' :
  m !! k = Some row → m !! k' = None → <[k' := row']> m !! k = Some row.
Proof. intros H1 H2. rewrite lookup_insert_ne; [done|]. congruence. Qed.

Lemma ref_kv_keeps slot c (t t' : tables) k row :
  receipts t !! k = Some row → reference_kv slot c t = Ok t' → receipts t' !! k = Some row.
Proof.
  intros Hk. unfold ref_kv. destruct (_ || _); [done|]. destruct (kvFingerprint c); [|done].
  destruct (receipts t !! (KKV, _)) eqn:E; [by intros [= <-]|]. destruct (kv_effect _ _). intros [= <-]. by apply insert_keeps.
Qed.

Lemma ref_sql_keeps slot c (t t' : tables) k row :
  receipts t !! k = Some row → reference_sql slot c t = Ok t' → receipts t' !! k = Some row.
Proof.
  intros Hk. unfold ref_sql. destruct (negb _); [done|]. destruct (sqlFingerprint c) as [fp|]; [|done].
  destruct (decide (RequestID c = [])) as [Hid|Hid].
  { rewrite bool_decide_eq_true_2 by done. cbn [negb andb]. unfold ref_run.
    destruct (outcome_row _ _ _ _) as [[[ran row'] r]|]; cbn [rbind]; [|done]. rewrite bool_decide_eq_true_2 by done. by intros [= <-]. }
  rewrite bool_decide_eq_false_2 by done. cbn [negb andb]. destruct (receipts t !! (KSQL, RequestID c)) eqn:E.
  { rewrite bool_decide_eq_true_2 by (by eexists). by intros [= <-]. }
  rewrite bool_decide_eq_false_2 by (by intros [? ?]). unfold ref_run.
  destruct (outcome_row _ _ _ _) as [[[ran row'] r]|]; cbn [rbind]; [|done]. rewrite bool_decide_eq_false_2 by done.
  destruct (encodeSQLResult _); [|done]. destruct (negb _); [done|].
  destruct (admits _ _ _); intros [= <-]; by apply insert_keeps.
Qed.

Lemma ref_list_keeps {A} (f : A → tables → result applyError tables) (l : list A) (t t' : tables) k row :
  (∀ x t t', receipts t !! k = Some row → f x t = Ok t' → receipts t' !! k = Some row) →
  receipts t !! k = Some row → ref_list f l t = Ok t' → receipts t' !! k = Some row.
Proof.
  intros Hf. revert t. induction l as [|x l IH]; intros t Hk; cbn [ref_list]; [by intros [= <-]|].
  destruct (f x t) as [t1|] eqn:E; cbn [rbind]; [|done]. eauto.
Qed.

Lemma ref_value_keeps g slot value (t t' : tables) ns k row :
  receipts t !! k = Some row → slot < commitSlot row + window → reference_value g slot value t = Ok (t', ns) →
  receipts t' !! k = Some row.
Proof.
  intros Hk Hwin. assert (receipts (ref_prune window slot t) !! k = Some row) as Hp.
  { unfold ref_prune. case_match; [done|]. apply map_lookup_filter_Some_2; [done|]. cbn. lia. }
  unfold ref_value. destruct (decodeValue value) as [v|]; [|done]. destruct g; [|done]. cbn [negb].
  destruct v as [c|cs|cs| | |]; cbn [rbind]; try done; try by intros [= <- _].
  - unfold ref_notify. destruct (_ || _); [done|]. destruct (notifyFingerprint c); [|done].
    destruct (receipts _ !! (KNotify, _)) eqn:E; intros [= <- _]; [done|]. by apply insert_keeps.
  - destruct (ref_list _ _ _) as [t2|] eqn:El; [|done]. intros [= <- _]. change (receipts t2 !! k = Some row). eapply ref_list_keeps, El; [|done].
    intros x ? ?; apply ref_kv_keeps.
  - destruct (ref_list _ _ _) as [t2|] eqn:El; [|done]. intros [= <- _]. change (receipts t2 !! k = Some row). eapply ref_list_keeps, El; [|done].
    intros x ? ?; apply ref_sql_keeps.
Qed.

Lemma replay_keeps log d n k t t' key row :
  replay log d n = Ok t → replay log d (k + n) = Ok t' → receipts t !! key = Some row → Z.of_nat (k + n) < commitSlot row + window →
  receipts t' !! key = Some row.
Proof.
  intros Hn. revert t'. induction k as [|k IH]; intros t' Hk Hr Hwin; cbn [plus] in *; [congruence|].
  cbn [replay] in Hk. destruct (replay log d (k + n)) as [t1|]; cbn [rbind] in Hk; [|done].
  destruct (ref_value _ _ _ _ _ _ _ _ _ _ _ _ _) as [[t2 ns]|] eqn:E; cbn [rbind] in Hk; [|done]. injection Hk as <-.
  eapply ref_value_keeps, E; [|done]. apply IH; [done|done|lia].
Qed.

(** A receipt is served unchanged for exactly its window: once a request
    is recorded at a slot, every later state of a replica (after any pages,
    failures and restarts) answers it with that receipt until [window] slots
    have passed, and with none afterwards. *)
Theorem receipt_served log d m0 m1 t1 m2 t2 kind id row :
  0 < window → storable_log log d → reopen sha256 window textLength [] (newTables d) = Ok m0 →
  rtc (mstep log) (m0, newTables d) (m1, t1) → rtc (mstep log) (m0, newTables d) (m2, t2) →
  receipts t1 !! (kind, id) = Some row → appliedSlot t1 <= appliedSlot t2 → commitUnknown m2 = false →
  MutationReceipt window kind id m2 t2 = Ok (Some row) ↔ appliedSlot t2 < commitSlot row + window.
Proof.
  intros Hw Hlog H0 Hr1 Hr2 Hrow Hle Hc. destruct (run_on_log _ _ _ _ Hw Hlog H0 Hr1) as (_ & _ & n1 & H1).
  destruct (run_on_log _ _ _ _ Hw Hlog H0 Hr2) as (Hst & Hk & n2 & H2). cbn [fst snd] in *.
  pose proof (replay_position _ _ _ _ H1) as P1. pose proof (replay_position _ _ _ _ H2) as P2.
  destruct Hk as [Hk|?]; [|congruence]. unfold MutationReceipt, receiptInTx. rewrite Hc, (kn_tip _ _ Hk). cbn [andb].
  destruct (decide (appliedSlot t2 < commitSlot row + window)) as [Hlt|Hge].
  - replace n2 with ((n2 - n1) + n1)%nat in H2 by lia.
    assert (receipts t2 !! (kind, id) = Some row) as E.
    { eapply replay_keeps; [exact H1|exact H2|done|]. replace ((n2 - n1) + n1)%nat with n2 by lia. lia. }
    rewrite E. destruct (st_live _ Hst _ _ E) as (_ & _ & -> & _). cbn [rbind].
    destruct (Z.ltb_spec (commitSlot row + window - 1) (appliedSlot t2)); [lia|]. done.
  - destruct (receipts t2 !! (kind, id)) as [row2|] eqn:E; [|done].
    destruct (st_live _ Hst _ _ E) as ([? ?] & _ & -> & _). cbn [rbind]. case_match; [done|]. split; [intros [= ->]; lia|lia].
Qed.
End materializer.
