(* ===== verification/MaterializerDemo.v ===== *)
(** * A concrete materializer

    User tables are a counter, every value is one SQL command whose request ID
    is the value, and the command adds one.  The instances discharge the
    hypotheses of the theorems of [MaterializerRun]; the last one returns a
    result that the store accepts and cannot read back.  With the request whose
    ID starts with NUL it shows that the theorems need storable receipts. *)

From stdpp Require Import gmap list relations.
From S2P Require Import Prelude Bytes SqlResult SqlResultProofs Materializer MaterializerProofs MaterializerRun.

Definition demo_command (v : bytes) : SQLCommand := mkSQLCommand v v true [].
Definition demo_decode (v : bytes) : option decodedValue :=
  match v with [] => None | _ => Some (DSQL [demo_command v]) end.
Definition demo_hash (v : bytes) : bytes := v ++ v ++ v ++ v.
Definition demo_execute (d : Z) (c : SQLCommand) : @execOutcome Z := Executed (d + 1) (mkSQLResult [mkStatement 1 0 [] []] []).
Definition all {A} (_ : A) : bool := true.
Definition demo_fp (c : SQLCommand) : option bytes := Some (repeat x00 32).
Definition demo_kvfp (c : KVCommand) : option bytes := Some (kvValue c).
Definition demo_notifyfp (c : NotifyCommand) : option bytes := Some (nPayload c).
Definition demo_expired (m : kvTable) (now : Z) : gset bytes := ∅.
Definition demo_io (commit ack : bool) : applyIO := mkApplyIO (λ _, true) false commit ack.
Definition demo_log (slot : Z) : bytes := if slot =? 1 then [x01] else if slot =? 2 then [x01] else [x02].

(** Characters up to the first NUL, for texts of one-byte characters. *)
Fixpoint text_length (s : bytes) : Z :=
  match s with
  | [] => 0
  | c :: s' => if bool_decide (c = x00) then 0 else 1 + text_length s'
  end.

(** The check of [ValidateSQLCommand] on a request ID. *)
Definition demo_valid (c : SQLCommand) : bool := lenZ (RequestID c) <=? MaxRequestIDBytes.

Definition demo_batch (execute : Z → SQLCommand → @execOutcome Z) :=
  ApplyBatch execute demo_hash demo_decode all demo_valid demo_fp demo_kvfp demo_notifyfp demo_expired 4.
Definition demo_step := mstep demo_execute demo_hash demo_decode all demo_valid demo_fp demo_kvfp demo_notifyfp demo_expired 4 text_length demo_log.

Definition demo_tables : @tables Z := newTables 0.
Definition demo_memory : memory := mkMemory 0 (repeat x00 32) (mkUsage 0 0) emptyFilters false.

Lemma demo_storable c t : RequestID c = [x01] ∨ RequestID c = [x02] → storable demo_execute demo_fp text_length c t = true.
Proof.
  intros H. unfold storable, demo_execute. apply orb_true_iff. right. apply andb_true_iff. split; [destruct H as [-> | ->]; reflexivity|].
  destruct (wants c); reflexivity.
Qed.

Lemma demo_log_storable : storable_log demo_execute demo_hash demo_decode demo_valid demo_fp demo_kvfp demo_notifyfp demo_expired 4 text_length demo_log 0.
Proof.
  intros n t _. unfold storable_value, demo_decode, demo_log. repeat case_match; simplify_eq/=; rewrite demo_storable by auto; by destruct (ref_sql _ _ _ _ _ _ _).
Qed.

Lemma demo_known : known demo_hash 4 demo_memory demo_tables.
Proof. split; try reflexivity. intros id row H. discriminate. Qed.

(** The outcome of a page against the reference's, for each end of its transaction. *)
Lemma ApplyBatch_exact_witness :
  ∃ t' ns m', stored 4 text_length t' ∧ known demo_hash 4 m' t' ∧ user t' = 1 ∧
    demo_batch demo_execute (demo_io true true) [(1, [x01]); (2, [x01])] demo_memory demo_tables = (Ok ns, m', t').
Proof.
  pose proof (ApplyBatch_exact demo_execute demo_hash demo_decode all demo_valid demo_fp demo_kvfp demo_notifyfp demo_expired 4 text_length (demo_io true true)
    [(1, [x01]); (2, [x01])] demo_memory demo_tables eq_refl (new_stored 4 text_length 0 eq_refl) demo_known ltac:(discriminate) ltac:(repeat constructor; cbn; lia)
    ltac:(vm_compute; reflexivity) eq_refl) as H.
  destruct (ref_page _ _ _ _ _ _ _ _ _ _ _ _ _) as [[[pos t'] ns]|e] eqn:E; [|vm_compute in E; discriminate].
  destruct H as (Hst & m' & Hk & H). cbv zeta in H. cbn [demo_io ioCancelled ioCommit ioAcknowledged negb] in H.
  exists t', ns, m'. split; [exact Hst|]. split; [exact Hk|]. split; [|exact H]. vm_compute in E. injection E as _ <- _. reflexivity.
Defined.

(** The replica pages slots 1 and 2 together, losing the acknowledgement. *)
Definition demo_lost := demo_batch demo_execute (demo_io true false) [(1, [x01]); (2, [x01])] demo_memory demo_tables.
(** It reopens and applies slot 3. *)
Definition demo_reopened : memory :=
  match reopen demo_hash 4 text_length (map_to_list (receipts demo_lost.2)) demo_lost.2 with Ok m => m | Err _ => demo_memory end.
Definition demo_third := demo_batch demo_execute (demo_io true true) [(2, [x01]); (3, [x02])] demo_reopened demo_lost.2.
(** Another replica applies the slots one by one. *)
Definition demo_one := demo_batch demo_execute (demo_io true true) [(1, [x01])] demo_memory demo_tables.
Definition demo_two := demo_batch demo_execute (demo_io true true) [(2, [x01])] demo_one.1.2 demo_one.2.
Definition demo_three := demo_batch demo_execute (demo_io true true) [(3, [x02])] demo_two.1.2 demo_two.2.

Lemma demo_page io page m t :
  Forall (λ d : Z * bytes, d.2 = demo_log d.1 ∧ d.1 <= appliedSlot t + 4) page →
  demo_step (m, t) ((demo_batch demo_execute io page m t).1.2, (demo_batch demo_execute io page m t).2).
Proof.
  intros H. destruct (demo_batch demo_execute io page m t) as [[r m'] t'] eqn:E. cbn [fst snd]. by eapply mstep_apply.
Qed.

Lemma demo_run_lost : demo_step (demo_memory, demo_tables) (demo_lost.1.2, demo_lost.2).
Proof. apply demo_page. repeat constructor; vm_compute; congruence. Qed.

Lemma demo_run_reopen : demo_step (demo_lost.1.2, demo_lost.2) (demo_reopened, demo_lost.2).
Proof. apply (mstep_reopen _ _ _ _ _ _ _ _ _ _ _ _ (map_to_list (receipts demo_lost.2))); [reflexivity|vm_compute; reflexivity]. Qed.

Lemma demo_run_third : demo_step (demo_reopened, demo_lost.2) (demo_third.1.2, demo_third.2).
Proof. apply demo_page. repeat constructor; vm_compute; congruence. Qed.

Lemma demo_run_paged : rtc demo_step (demo_memory, demo_tables) (demo_third.1.2, demo_third.2).
Proof. eapply rtc_l, rtc_l, rtc_once; [exact demo_run_lost|exact demo_run_reopen|exact demo_run_third]. Qed.

Lemma demo_run_one : demo_step (demo_memory, demo_tables) (demo_one.1.2, demo_one.2).
Proof. apply demo_page. repeat constructor; vm_compute; congruence. Qed.

Lemma demo_run_two : demo_step (demo_one.1.2, demo_one.2) (demo_two.1.2, demo_two.2).
Proof. apply demo_page. repeat constructor; vm_compute; congruence. Qed.

Lemma demo_run_three : demo_step (demo_two.1.2, demo_two.2) (demo_three.1.2, demo_three.2).
Proof. apply demo_page. repeat constructor; vm_compute; congruence. Qed.

Lemma demo_run_single : rtc demo_step (demo_memory, demo_tables) (demo_three.1.2, demo_three.2).
Proof. eapply rtc_l, rtc_l, rtc_once; [exact demo_run_one|exact demo_run_two|exact demo_run_three]. Qed.

Lemma materialized_prefix_witness :
  user demo_third.2 = 2 ∧
  (∃ n, replay demo_execute demo_hash demo_decode demo_valid demo_fp demo_kvfp demo_notifyfp demo_expired 4 demo_log 0 n = Ok demo_third.2 ∧
    appliedSlot demo_third.2 = Z.of_nat n).
Proof.
  split; [vm_compute; reflexivity|].
  apply (materialized_prefix demo_execute demo_hash demo_decode all demo_valid demo_fp demo_kvfp demo_notifyfp demo_expired 4 text_length demo_log 0
    demo_memory demo_third.1.2 demo_third.2); [reflexivity|exact demo_log_storable|reflexivity|exact demo_run_paged].
Defined.

Lemma replicas_agree_witness : demo_third.2 = demo_three.2.
Proof.
  apply (replicas_agree demo_execute demo_hash demo_decode all demo_valid demo_fp demo_kvfp demo_notifyfp demo_expired 4 text_length demo_log 0
    demo_memory demo_third.1.2 demo_third.2 demo_three.1.2 demo_three.2);
    [reflexivity|exact demo_log_storable|reflexivity|exact demo_run_paged|exact demo_run_single|vm_compute; reflexivity].
Defined.

Definition demo_row : receiptRow := match receipts demo_lost.2 !! (KSQL, [x01]) with Some row => row | None => mkRow [] 0 MutationRejected NoError 0 0 false [] end.

Lemma receipt_served_witness :
  MutationReceipt 4 KSQL [x01] demo_third.1.2 demo_third.2 = Ok (Some demo_row) ↔ appliedSlot demo_third.2 < commitSlot demo_row + 4.
Proof.
  apply (receipt_served demo_execute demo_hash demo_decode all demo_valid demo_fp demo_kvfp demo_notifyfp demo_expired 4 text_length demo_log 0
    demo_memory demo_lost.1.2 demo_lost.2 demo_third.1.2 demo_third.2);
    [reflexivity|exact demo_log_storable|reflexivity|apply rtc_once; exact demo_run_lost|exact demo_run_paged|vm_compute; reflexivity|
     vm_compute; congruence|vm_compute; reflexivity].
Defined.

(** ** A result that cannot be read back *)

Definition null_execute (d : Z) (c : SQLCommand) : @execOutcome Z := Executed (d + 1) null_rows.

Definition both_pages := demo_batch null_execute (demo_io true true) [(1, [x01]); (2, [x01])] demo_memory demo_tables.
Definition first_page := demo_batch null_execute (demo_io true true) [(1, [x01])] demo_memory demo_tables.
Definition second_page (first : result applyError (list (bytes * bytes)) * memory * @tables Z) :=
  demo_batch null_execute (demo_io true true) [(2, [x01])] first.1.2 first.2.

Lemma unreadable_pages :
  (let first := first_page in
   match both_pages.1.1, first.1.1, (second_page first).1.1 with
   | Ok _, Ok _, Err (ErrScan ErrBudget) => true
   | _, _, _ => false
   end) = true.
Proof. vm_compute. reflexivity. Qed.

(** C36: with a result that is stored and cannot be decoded, a repeated request
    is skipped by a replica that applies both slots in one page and stops a
    replica that applies them in two: how the decided log is paged shows. *)
Theorem unreadable_result_stops_replica :
  (∃ ns, both_pages.1.1 = Ok ns) ∧ (∃ ns, first_page.1.1 = Ok ns) ∧ (second_page first_page).1.1 = Err (ErrScan ErrBudget).
Proof.
  pose proof unreadable_pages as H. cbv zeta in H. destruct both_pages.1.1; [|done]. destruct first_page.1.1; [|done].
  destruct (second_page first_page).1.1 as [|[]]; try done. match goal with e : sqlError |- _ => destruct e end; eauto; done.
Qed.

(** ** A request ID that starts with NUL *)

Definition nul_page :=
  demo_batch demo_execute (demo_io true true) [(1, [x00; x61])] demo_memory demo_tables.

(** C37: a request whose ID starts with a NUL byte is admitted, executed and its
    receipt stored; SQLite counts the ID as empty, so the check of the stored
    envelopes fails and the database cannot be opened again. *)
Theorem nul_request_blocks_reopen :
  (∃ ns, nul_page.1.1 = Ok ns) ∧ user nul_page.2 = 1 ∧ ∀ l, reopen demo_hash 4 text_length l nul_page.2 = Err ErrReopen.
Proof. split; [eexists; vm_compute; reflexivity|]. split; [vm_compute; reflexivity|]. intros l. vm_compute. reflexivity. Qed.

(** ** Pages longer than the window *)

Definition long_log : list (Z * bytes) := [(1, [x01]); (2, [x02]); (3, [x03]); (4, [x04]); (5, [x05]); (6, [x01])].

Fixpoint one_by_one (page : list (Z * bytes)) (m : memory) (t : @tables Z) : @tables Z :=
  match page with
  | [] => t
  | d :: rest => let out := demo_batch demo_execute (demo_io true true) [d] m t in one_by_one rest out.1.2 out.2
  end.

(** The bound of [ApplyBatch_exact] on a page is needed: a page of six slots
    under a window of four skips a request whose receipt has expired, which a
    replica that applies the slots one by one executes again. *)
Lemma oversized_page_differs :
  user (demo_batch demo_execute (demo_io true true) long_log demo_memory demo_tables).2 = 5 ∧
  user (one_by_one long_log demo_memory demo_tables) = 6.
Proof. split; vm_compute; reflexivity. Qed.
