(* ===== verification/Restore.v ===== *)
(** * Installing a checkpoint (pkg/materializer/materializer.go)

    [RestoreCheckpoint] replaces the SQLite file and the graph directory of a
    materializer through a journal of phases, and [recoverRestore] finishes or
    undoes an interrupted replacement when the database is next opened.

    A directory operation can fail before or after its effect, and the process
    or the machine can stop at any of them: a power failure leaves the
    directory as it was after some operation since the last directory sync.
    The outcome of every operation is an answer of a script; when the script
    ends the process is killed.  Removing a directory tree can stop half way.
    The local and managed variants of restore are not modelled.

    SQLite runs in WAL mode without automatic checkpoints: a database is its
    file and the transactions in its log next to it, and frames that another
    database left there make it unreadable.  Closing the last connection folds
    the log into the file and removes it, if it can; the code ignores whether it
    could.  Opening can commit: a snapshot of an older schema is upgraded.  Both
    are parameters.  Transactions that SQLite had not synced when the power
    failed are not part of a database. *)

From stdpp Require Import list.
From S2P Require Import Prelude.

(** ** The directory *)

Inductive tree := Whole (content : Z) | Torn.

Inductive phase := Prepared | SqliteBackedUp | GraphInstalled | SqliteInstalled | CommittedPhase.

Record restoreState := mkRestore { Phase : phase; InstallGraph : bool; GraphHadOriginal : bool }.

(** ** SQLite *)

(** Which database a file is: the one in place, the checkpoint's, or one that
    was created because there was none. *)
Inductive source := Former | Snapshot | Fresh.

#[global] Instance source_eq_dec : EqDecision source.
Proof. solve_decision. Defined.

(** A database file; its pages are no database by themselves while they are
    being overwritten from the log. *)
Record sqliteFile := mkFile { fsource : source; pages : option Z }.

(** The -wal file: the database it belongs to, and what its frames make of it,
    if it has any. *)
Record sqliteLog := mkLog { lsource : source; frames : option Z }.

Record dir := mkDir {
  db : option sqliteFile;
  backup : option sqliteFile;
  graph : option tree;
  graphBackup : option tree;
  journal : option restoreState;
  temp : option sqliteFile;
  staged : option tree;
  wal : option sqliteLog;
  shm : bool;
}.

(** What a connection reads. *)
Definition read_db (file : option sqliteFile) (log : option sqliteLog) : option Z :=
  match file with
  | None => None
  | Some f =>
      match log with
      | Some (mkLog s (Some c)) => if bool_decide (s = fsource f) then Some c else None
      | _ => pages f
      end
  end.
Definition database (d : dir) : option Z := read_db (db d) (wal d).

Definition set_db (d : dir) x := mkDir x (backup d) (graph d) (graphBackup d) (journal d) (temp d) (staged d) (wal d) (shm d).
Definition set_backup (d : dir) x := mkDir (db d) x (graph d) (graphBackup d) (journal d) (temp d) (staged d) (wal d) (shm d).
Definition set_graph (d : dir) x := mkDir (db d) (backup d) x (graphBackup d) (journal d) (temp d) (staged d) (wal d) (shm d).
Definition set_graphBackup (d : dir) x := mkDir (db d) (backup d) (graph d) x (journal d) (temp d) (staged d) (wal d) (shm d).
Definition set_journal (d : dir) x := mkDir (db d) (backup d) (graph d) (graphBackup d) x (temp d) (staged d) (wal d) (shm d).
Definition set_temp (d : dir) x := mkDir (db d) (backup d) (graph d) (graphBackup d) (journal d) x (staged d) (wal d) (shm d).
Definition set_staged (d : dir) x := mkDir (db d) (backup d) (graph d) (graphBackup d) (journal d) (temp d) x (wal d) (shm d).
Definition set_wal (d : dir) x := mkDir (db d) (backup d) (graph d) (graphBackup d) (journal d) (temp d) (staged d) x (shm d).
Definition set_shm (d : dir) x := mkDir (db d) (backup d) (graph d) (graphBackup d) (journal d) (temp d) (staged d) (wal d) x.

(** The log folded into the file, and the same stopped half way. *)
Definition folded (d : dir) : dir :=
  match db d, wal d with
  | Some f, Some _ => set_shm (set_wal (set_db d (Some (mkFile (fsource f) (database d)))) None) false
  | _, _ => d
  end.
Definition half_folded (d : dir) : dir :=
  match db d, wal d with
  | Some f, Some (mkLog _ (Some _)) => set_db d (Some (mkFile (fsource f) None))
  | _, _ => d
  end.

(** ** Operations that can fail and stop *)

Inductive answer :=
| Done
| Fail                  (* an error, and nothing happened *)
| FailAfter             (* an error, and it happened *)
| Stop (n : nat)        (* the machine stops before it; [n] operations are lost *)
| Cut (n : nat).        (* the machine stops within it *)

Inductive sys := SOk | SNotExist | SErr.

(** The directory, and what it was after each operation since its last sync. *)
Record machine := mkMachine { cur : dir; since : list dir; script : list answer }.

Inductive outcome (A : Type) :=
| Returned (x : A) (s : machine)
| Stopped (d : dir).
Arguments Returned {A}.
Arguments Stopped {A}.

Definition io (A : Type) : Type := machine → outcome A.

Definition iret {A} (x : A) : io A := λ s, Returned x s.
Definition ibind {A B} (f : io A) (k : A → io B) : io B := λ s,
  match f s with Returned x s' => k x s' | Stopped d => Stopped d end.

Declare Scope io_scope.
Delimit Scope io_scope with io.
Notation "x ← f ; k" := (ibind f (λ x, k)) (at level 20, f at level 100, k at level 200) : io_scope.
Notation "f ;; k" := (ibind f (λ _, k)) (at level 100, k at level 200, right associativity) : io_scope.
Local Open Scope io_scope.

Definition lost (n : nat) (d : dir) (before : list dir) : dir := default d ((d :: before) !! n).

(** One call: its effect, and what is left when it is cut. *)
Definition call (effect : dir → sys * dir) (half : dir → dir) : io sys := λ s,
  let moved d := mkMachine d (cur s :: since s) in
  match script s with
  | Done :: rest => let '(r, d) := effect (cur s) in Returned r (moved d rest)
  | Fail :: rest => Returned SErr (mkMachine (cur s) (since s) rest)
  | FailAfter :: rest => Returned SErr (moved (effect (cur s)).2 rest)
  | Stop n :: _ => Stopped (lost n (cur s) (since s))
  | Cut n :: _ => Stopped (lost n (half (cur s)) (cur s :: since s))
  | [] => Stopped (cur s)
  end.

Definition rename {A} (get : dir → option A) (clear : dir → option A → dir) (put : dir → option A → dir) (free : option A → bool)
    (dst : dir → option A) : io sys :=
  call (λ d, match get d with
             | None => (SNotExist, d)
             | Some x => if free (dst d) then (SOk, put (clear d None) (Some x)) else (SErr, d)
             end) id.

(** A file replaces its target; a directory replaces only an empty one. *)
Definition any_file (_ : option sqliteFile) : bool := true.
Definition empty_tree (t : option tree) : bool := match t with Some (Whole _) => false | _ => true end.

Definition remove {A} (get : dir → option A) (put : dir → option A → dir) : io sys :=
  call (λ d, match get d with None => (SNotExist, d) | Some _ => (SOk, put d None) end) id.

Definition removeAll (get : dir → option tree) (put : dir → option tree → dir) : io sys :=
  call (λ d, (SOk, put d None)) (λ d, match get d with None => d | Some _ => put d (Some Torn) end).

Definition stat {A} (get : dir → option A) : io sys :=
  call (λ d, match get d with None => (SNotExist, d) | Some _ => (SOk, d) end) id.

(** Renames and removals before a directory sync survive a power failure. *)
Definition syncDirectory : io sys := λ s,
  match script s with
  | Done :: rest => Returned SOk (mkMachine (cur s) [] rest)
  | (Fail | FailAfter) :: rest => Returned SErr (mkMachine (cur s) (since s) rest)
  | (Stop n | Cut n) :: _ => Stopped (lost n (cur s) (since s))
  | [] => Stopped (cur s)
  end.

(** A check without effect on the directory. *)
Definition probe : io bool := r ← call (λ d, (SOk, d)) id; iret (match r with SOk => true | _ => false end).

Inductive restoreError := ErrIO | ErrStale | ErrSnapshot | ErrRollback | ErrFileSet.

(** ** The journal *)

Definition writeRestoreState (state : restoreState) : io (result restoreError unit) :=
  written ← probe;
  if negb written then iret (Err ErrIO)
  else
    r ← call (λ d, (SOk, set_journal d (Some state))) id;
    match r with
    | SOk => r' ← syncDirectory; iret (match r' with SOk => Ok tt | _ => Err ErrIO end)
    | _ => iret (Err ErrIO)
    end.

Definition phase_committed (p : phase) : bool := match p with CommittedPhase => true | _ => false end.

(** Put the original database back. *)
Definition undo_sqlite : io (result restoreError unit) :=
  r ← stat backup;
  match r with
  | SOk =>
      remove db set_db;;
      r' ← rename backup set_backup set_db any_file db;
      iret (match r' with SOk => Ok tt | _ => Err ErrRollback end)
  | SNotExist => iret (Ok tt)
  | SErr => iret (Err ErrIO)
  end.

Definition undo_graph (state : restoreState) : io (result restoreError unit) :=
  if negb (InstallGraph state) then iret (Ok tt)
  else if GraphHadOriginal state then
    r ← stat graphBackup;
    match r with
    | SOk =>
        removeAll graph set_graph;;
        r' ← rename graphBackup set_graphBackup set_graph empty_tree graph;
        iret (match r' with SOk => Ok tt | _ => Err ErrRollback end)
    | SNotExist => iret (Ok tt)
    | SErr => iret (Err ErrIO)
    end
  else removeAll graph set_graph;; iret (Ok tt).

(** Drop what is left of the replacement, and the journal last. *)
Definition finish_recovery : io (result restoreError unit) :=
  remove backup set_backup;;
  removeAll graphBackup set_graphBackup;;
  r ← syncDirectory;
  match r with
  | SOk =>
      r' ← remove journal set_journal;
      match r' with
      | SErr => iret (Err ErrIO)
      | _ => r'' ← syncDirectory; iret (match r'' with SOk => Ok tt | _ => Err ErrIO end)
      end
  | _ => iret (Err ErrIO)
  end.

Definition and_then (f : io (result restoreError unit)) (k : io (result restoreError unit)) : io (result restoreError unit) :=
  r ← f; match r with Ok _ => k | Err e => iret (Err e) end.

Definition recoverRestore : io (result restoreError unit) :=
  r ← stat journal;
  match r with
  | SNotExist => iret (Ok tt)
  | SErr => iret (Err ErrIO)
  | SOk => λ s,
      match journal (cur s) with
      | None => Returned (Ok tt) s
      | Some state =>
          (if phase_committed (Phase state) then finish_recovery
           else and_then undo_sqlite (and_then (undo_graph state) finish_recovery)) s
      end
  end.

(** ** Replacing the files *)

Section restore.
Context (newDb : Z) (newGraph : Z).
(** Whether the last close folds the log, and what opening commits, if
    anything. *)
Context (folds : bool) (upgrade : option Z).

(** Errors of the closes are ignored. *)
Definition closeConnections : io unit :=
  (λ s, match script s with
        | (Done | Fail | FailAfter) :: rest =>
            Returned tt (if folds then mkMachine (folded (cur s)) (cur s :: since s) rest else mkMachine (cur s) (since s) rest)
        | Stop n :: _ => Stopped (lost n (cur s) (since s))
        | Cut n :: _ => Stopped (lost n (half_folded (cur s)) (cur s :: since s))
        | [] => Stopped (cur s)
        end).

(** A database that is not there is created. *)
Definition newDatabase : sqliteFile := mkFile Fresh (Some 0).

(** [openMaterializerPolicy]: the connections create the log. *)
Definition openDatabase : io sys :=
  call (λ d,
    let f := default newDatabase (db d) in
    let l := default (mkLog (fsource f) None) (wal d) in
    (SOk, set_shm (set_wal (set_db d (Some f)) (Some (match upgrade with Some c => mkLog (lsource l) (Some c) | None => l end))) true)) id.

(** [recoverRestore], and [reopen], which checks the file, recovers again and
    opens. *)
Definition rollback (e : restoreError) : io (result restoreError unit) :=
  recoverRestore;;
  checked ← probe;
  (if checked : bool then
     and_then recoverRestore (r ← openDatabase; iret (match r with SOk => Ok tt | _ => Err ErrIO end))
   else iret (Err ErrIO));;
  iret (Err e).

(** Continue, or roll back with the error. *)
Definition must (f : io sys) (k : io (result restoreError unit)) : io (result restoreError unit) :=
  r ← f; match r with SOk => k | _ => rollback ErrIO end.
(** The same where a missing file is no error. *)
Definition must_or_missing (f : io sys) (k : io (result restoreError unit)) : io (result restoreError unit) :=
  r ← f; match r with SErr => rollback ErrIO | _ => k end.
Definition must_write (state : restoreState) (k : io (result restoreError unit)) : io (result restoreError unit) :=
  r ← writeRestoreState state; match r with Ok _ => k | Err _ => rollback ErrIO end.

Definition restore_db : io sys := rename backup set_backup set_db any_file db.
Definition restore_graph : io sys := rename graphBackup set_graphBackup set_graph empty_tree graph.

Definition when (b : bool) (f : io sys) : io unit := if b then f;; iret tt else iret tt.

(** The snapshot is open and valid: commit, and clean up. *)
Definition commit_restore (hadOriginal : bool) : io (result restoreError unit) :=
  w ← writeRestoreState (mkRestore CommittedPhase true hadOriginal);
  match w with
  | Ok _ =>
      r ← recoverRestore;
      match r with Ok _ => iret (Ok tt) | Err _ => closeConnections;; rollback ErrIO end
  | Err _ => closeConnections;; rollback ErrIO
  end.

Definition install_sqlite (hadOriginal backedUp : bool) : io (result restoreError unit) :=
  r ← rename temp set_temp set_db any_file db;
  match r with
  | SOk =>
      must syncDirectory
      (must_write (mkRestore SqliteInstalled true hadOriginal)
      (r' ← openDatabase;
       valid ← (match r' with SOk => probe | _ => iret false end);
       if negb valid then
         closeConnections;;
         remove db set_db;;
         removeAll graph set_graph;;
         when backedUp restore_graph;;
         restore_db;;
         rollback ErrSnapshot
       else commit_restore hadOriginal))
  | _ =>
      removeAll graph set_graph;;
      when backedUp restore_graph;;
      restore_db;;
      rollback ErrIO
  end.

Definition install_graph (hadOriginal : bool) : io (result restoreError unit) :=
  r ← rename graph set_graph set_graphBackup empty_tree graphBackup;
  match r with
  | SErr => restore_db;; rollback ErrIO
  | SOk | SNotExist =>
      let backedUp := match r with SOk => true | _ => false end in
      r' ← rename staged set_staged set_graph empty_tree graph;
      match r' with
      | SOk =>
          must syncDirectory
          (must_write (mkRestore GraphInstalled true hadOriginal) (install_sqlite hadOriginal backedUp))
      | _ =>
          when backedUp restore_graph;;
          restore_db;;
          rollback ErrIO
      end
  end.

Definition replace_files (hadOriginal : bool) : io (result restoreError unit) :=
  closeConnections;;
  must_or_missing (remove wal set_wal)
  (must_or_missing (call (λ d, if shm d then (SOk, set_shm d false) else (SNotExist, d)) id)
  (must_or_missing (rename db set_db set_backup any_file backup)
  (must syncDirectory
  (must_write (mkRestore SqliteBackedUp true hadOriginal)
  (install_graph hadOriginal))))).

(** Write the temporary copy of the snapshot and check it. *)
Definition prepare_snapshot : io (result restoreError unit) :=
  r ← call (λ d, (SOk, set_temp d (Some (mkFile Snapshot (Some newDb))))) id;
  match r with
  | SOk => checked ← probe; iret (if checked : bool then Ok tt else Err ErrSnapshot)
  | _ => iret (Err ErrIO)
  end.

(** The deferred removals: the temporary copy and the staged graph. *)
Definition cleanup (f : io (result restoreError unit)) : io (result restoreError unit) :=
  r ← f; remove temp set_temp;; removeAll staged set_staged;; iret r.

Definition restoreParts : io (result restoreError unit) :=
  cleanup
    (and_then prepare_snapshot
    (b ← stat backup;
     match b with
     | SNotExist =>
         gb ← stat graphBackup;
         match gb with
         | SNotExist =>
             g ← stat graph;
             match g with
             | SErr => iret (Err ErrIO)
             | _ =>
                 let hadOriginal := match g with SOk => true | _ => false end in
                 and_then (writeRestoreState (mkRestore Prepared true hadOriginal)) (replace_files hadOriginal)
             end
         | _ => iret (Err ErrStale)
         end
     | _ => iret (Err ErrStale)
     end)).

(** ** The checkpoint's files *)

Inductive CheckpointRole := CheckpointSQLite | CheckpointGraphData | CheckpointOther.

(** One file of each role, and nothing else. *)
Fixpoint check_roles (files : list (CheckpointRole * bool)) (seenSQLite seenGraph : bool) : bool :=
  match files with
  | [] => seenSQLite && seenGraph
  | (role, hasPath) :: rest =>
      hasPath &&
      match role with
      | CheckpointSQLite => negb seenSQLite && check_roles rest true seenGraph
      | CheckpointGraphData => negb seenGraph && check_roles rest seenSQLite true
      | CheckpointOther => false
      end
  end.

Definition RestoreCheckpoint (files : list (CheckpointRole * bool)) : io (result restoreError unit) :=
  if negb (check_roles files false false) then iret (Err ErrFileSet)
  else
    valid ← probe;
    if negb valid then iret (Err ErrSnapshot)
    else
      r ← call (λ d, (SOk, set_staged d (Some (Whole newGraph)))) (λ d, set_staged d (Some Torn));
      match r with
      | SOk => restoreParts
      | _ => removeAll staged set_staged;; iret (Err ErrIO)
      end.
End restore.

(** A machine that starts with a directory. *)
Definition boot (d : dir) (answers : list answer) : machine := mkMachine d [] answers.
