(* ===== verification/RestoreProofs.v ===== *)
(** * A restore is atomic and durable

    Whatever operations fail and wherever the process or the machine stops, the
    directory is at all times either undoable to the original database and
    graph or already the new pair, and recovery ends in one of the two.  This
    needs the close to fold SQLite's log into the file and the opened snapshot
    to commit nothing; concrete runs show what happens without. *)

From stdpp Require Import list.
From S2P Require Import Prelude Restore.
Local Open Scope io_scope.

(** ** Triples *)

(** Before and after a program, and where it can stop. *)
Definition triple {A} (pre : machine → Prop) (f : io A) (post : A → machine → Prop) (stop : dir → Prop) : Prop :=
  ∀ s, pre s → match f s with Returned x s' => post x s' | Stopped d => stop d end.

(** The directory satisfies [P], and [I] since its last sync. *)
Definition now (I P : dir → Prop) (s : machine) : Prop := Forall I (since s) ∧ P (cur s) ∧ I (cur s).

Lemma triple_ret {A} (x : A) (post : A → machine → Prop) stop : triple (post x) (iret x) post stop.
Proof. by intros s H. Qed.

Lemma now_weaken (I P Q : dir → Prop) s : (∀ d, P d → Q d) → now I P s → now I Q s.
Proof. intros H (H1 & H2 & H3). split_and!; auto. Qed.

Lemma triple_give {A} (x : A) (I P : dir → Prop) (Q : A → dir → Prop) :
  (∀ d, P d → Q x d) → triple (now I P) (iret x) (λ r, now I (Q r)) I.
Proof. intros H s Hs. by eapply now_weaken. Qed.

Lemma triple_bind {A B} pre (f : io A) (k : A → io B) mid post stop :
  triple pre f mid stop → (∀ x, triple (mid x) (k x) post stop) → triple pre (ibind f k) post stop.
Proof. intros Hf Hk s Hs. unfold ibind. specialize (Hf s Hs). destruct (f s) as [x s'|d]; [by apply Hk|done]. Qed.

Lemma triple_conseq {A} (pre pre' : machine → Prop) (f : io A) (post post' : A → machine → Prop) (stop stop' : dir → Prop) :
  triple pre f post stop → (∀ s, pre' s → pre s) → (∀ x s, post x s → post' x s) → (∀ d, stop d → stop' d) →
  triple pre' f post' stop'.
Proof. intros Hf H1 H2 H3 s Hs. specialize (Hf s (H1 s Hs)). destruct (f s); auto. Qed.

Lemma triple_pre {A} (pre pre' : machine → Prop) (f : io A) (post : A → machine → Prop) (stop : dir → Prop) :
  triple pre f post stop → (∀ s, pre' s → pre s) → triple pre' f post stop.
Proof. intros Hf H. by eapply triple_conseq. Qed.

Lemma lost_in (I : dir → Prop) n d before : I d → Forall I before → I (lost n d before).
Proof.
  intros Hd Hb. unfold lost. destruct ((d :: before) !! n) as [d'|] eqn:E; cbn; [|done].
  assert (Forall I (d :: before)) as Hall by (by constructor). by eapply Forall_lookup_1 in Hall.
Qed.

(** One call: the assertion after it, for its own result and for an error. *)
Lemma triple_call (I P : dir → Prop) effect half (Q : sys → dir → Prop) :
  (∀ d, P d → I d → Q (effect d).1 (effect d).2 ∧ Q SErr d ∧ Q SErr (effect d).2 ∧ I (effect d).2 ∧ I (half d)) →
  triple (now I P) (call effect half) (λ r, now I (Q r)) I.
Proof.
  intros H s (Hs & Hp & Hi). destruct (H _ Hp Hi) as (H1 & H2 & H3 & H4 & H5). unfold call.
  destruct (script s) as [|[| | |n|n] rest].
  - done.
  - destruct (effect (cur s)) as [r d]. by repeat split; try constructor.
  - done.
  - by repeat split; try constructor.
  - by apply lost_in.
  - apply lost_in; [done|by constructor].
Qed.

(** The same with an assertion [R] that implies the invariant. *)
Lemma triple_step (I R P : dir → Prop) effect half (Q : sys → dir → Prop) :
  (∀ d, R d → I d) →
  (∀ d, P d → (R d ∧ Q SErr d) ∧ (R (effect d).2 ∧ Q (effect d).1 (effect d).2 ∧ Q SErr (effect d).2) ∧ R (half d)) →
  triple (now I P) (call effect half) (λ r, now I (λ d, R d ∧ Q r d)) I.
Proof.
  intros HR H. apply (triple_call I P _ _ (λ r d, R d ∧ Q r d)). intros d Hp _.
  destruct (H d Hp) as ((? & ?) & (? & ? & ?) & ?). auto 10.
Qed.

Lemma triple_attempt (I P : dir → Prop) : triple (now I P) probe (λ _, now I P) I.
Proof.
  unfold probe. eapply triple_bind; [apply (triple_call I P _ _ (λ _, P)); auto|]. by intros r s H.
Qed.

(** A sync forgets what the directory was. *)
Lemma triple_sync (I I' P : dir → Prop) :
  (∀ d, I' d → I d) → (∀ d, P d → I' d) →
  triple (now I P) syncDirectory (λ r, match r with SOk => now I' P | _ => now I P end) I.
Proof.
  intros H1 H2 s (Hs & Hp & Hi). unfold syncDirectory. destruct (script s) as [|[| | |n|n] rest]; [done| |done..| |].
  - repeat split; cbn; [constructor|done|auto].
  - by apply lost_in.
  - by apply lost_in.
Qed.

Lemma triple_sync_same (I P : dir → Prop) : triple (now I P) syncDirectory (λ _, now I P) I.
Proof.
  intros s (Hs & Hp & Hi). unfold syncDirectory. destruct (script s) as [|[| | |n|n] rest]; try by apply lost_in.
  all: by repeat split; try constructor.
Qed.

(** The end of recovery, for a directory [P] that is [S] without its journal. *)
Lemma finish_triple (I P S : dir → Prop) :
  (∀ d, P d → I d) → (∀ d, S d → I d) →
  (∀ d, P d → P (set_backup d None) ∧ P (set_graphBackup d None)) →
  (∀ d t, P d → graphBackup d = Some t → P (set_graphBackup d (Some Torn))) →
  (∀ d, P d → S (set_journal d None)) → (∀ d, P d → journal d = None → S d) →
  triple (now I P) finish_recovery (λ r, now I (λ d, (P d ∨ S d) ∧ (r = Ok tt → S d))) I.
Proof.
  intros HP HS Hb Hg Hj Hn. unfold finish_recovery, remove, removeAll. eapply triple_bind.
  { apply (triple_step I P P _ _ (λ _ _, True) HP). intros d Hd. destruct (Hb d Hd). case_match; cbn; auto. }
  intros r1. eapply triple_bind.
  { apply (triple_step I P _ _ _ (λ _ _, True) HP). intros d [Hd _]. destruct (Hb d Hd). cbn. destruct (graphBackup d) eqn:E; eauto 10. }
  intros r2. eapply triple_bind; [apply triple_sync_same|]. intros r3. destruct r3; [|apply triple_give; naive_solver..].
  eapply triple_bind.
  { apply (triple_step I (λ d, P d ∨ S d) _ _ _ (λ r d, r ≠ SErr → S d)); [naive_solver|]. intros d [Hd _].
    destruct (journal d) eqn:E; cbn; naive_solver. }
  intros r4. destruct r4.
  3:{ apply triple_give; naive_solver. }
  all: eapply triple_bind; [apply triple_sync_same|]; intros r5; apply triple_give; destruct r5; naive_solver.
Qed.

(** ** SQLite files *)

(** No transactions in the log. *)
Definition quiet (l : option sqliteLog) : bool := match l with Some (mkLog _ (Some _)) => false | _ => true end.

Arguments read_db : simpl never.

Lemma read_quiet f l : quiet l = true → read_db (Some f) l = pages f.
Proof. by destruct l as [[s [c|]]|]. Qed.

Lemma read_opened f s l : read_db f (Some (default (mkLog s None) l)) = read_db f l.
Proof. by destruct l as [[? [?|]]|]. Qed.

Lemma read_half s p p' l : quiet l = false → read_db (Some (mkFile s p)) l = read_db (Some (mkFile s p')) l.
Proof. by destruct l as [[? [?|]]|]. Qed.

Section restore.
(** The original database and graph, the new ones, and whether a close folds
    the log; opening commits nothing. *)
Context (o g n h : Z) (folds : bool).

Abbreviation closes := (closeConnections folds).
Abbreviation opens := (openDatabase None).

(** ** What the directory may be *)

Definition old_file : sqliteFile := mkFile Former (Some o).
Definition new_file : sqliteFile := mkFile Snapshot (Some n).

Definition uncommitted (d : dir) : Prop :=
  ∃ st, journal d = Some st ∧ phase_committed (Phase st) = false ∧ InstallGraph st = true ∧ GraphHadOriginal st = true.

(** The original database is in place, folded or with its log. *)
Definition in_place (d : dir) : Prop :=
  (db d = Some old_file ∧ quiet (wal d) = true) ∨ ((∃ p, db d = Some (mkFile Former p)) ∧ read_db (db d) (wal d) = Some o).
Definition kept_db (d : dir) : Prop := (backup d = Some old_file ∧ quiet (wal d) = true) ∨ (backup d = None ∧ in_place d).
Definition kept_graph (d : dir) : Prop := graphBackup d = Some (Whole g) ∨ graphBackup d = None ∧ graph d = Some (Whole g).

Definition original (d : dir) : Prop := in_place d ∧ graph d = Some (Whole g).
Definition replaced (d : dir) : Prop := db d = Some new_file ∧ quiet (wal d) = true ∧ graph d = Some (Whole h).

(** A pair of databases as connections see it. *)
Definition shows (d : dir) (content tree : Z) : Prop := database d = Some content ∧ graph d = Some (Whole tree).

Lemma in_place_reads d : in_place d → database d = Some o.
Proof. unfold database. intros [[-> H]|[_ H]]; [by rewrite read_quiet|done]. Qed.

Lemma original_shows d : original d → shows d o g.
Proof. intros [? ?]. split; [by apply in_place_reads|done]. Qed.

Lemma replaced_shows d : replaced d → shows d n h.
Proof. intros (H1 & H2 & H3). split; [|done]. unfold database. by rewrite H1, read_quiet. Qed.

Definition undoable (d : dir) : Prop := uncommitted d ∧ kept_db d ∧ kept_graph d.
Definition old_side (d : dir) : Prop := (journal d = None ∧ original d) ∨ undoable d.
Definition new_side (d : dir) : Prop :=
  replaced d ∧ (journal d = None ∨ ∃ st, journal d = Some st ∧ phase_committed (Phase st) = true).
Definition safe (d : dir) : Prop := old_side d ∨ new_side d.

Definition settled (r : result restoreError unit) (d : dir) : Prop := r = Ok tt → journal d = None.

(** ** Recovery *)

Ltac dir_solve :=
  intros [??? ? ? ? ???]; intros;
  unfold safe, old_side, new_side, undoable, original, replaced, uncommitted, kept_db, in_place, kept_graph, settled in *; cbn in *;
  repeat case_match; naive_solver.

Section recover.
Context (I : dir → Prop).
Context (HI : ∀ d, old_side d → I d).

Lemma HU d : undoable d → I d.
Proof using HI. intros H. apply HI. by right. Qed.

Lemma undo_sqlite_triple :
  triple (now I undoable) undo_sqlite (λ r, now I (λ d, undoable d ∧ (r = Ok tt → backup d = None ∧ in_place d))) I.
Proof using HI.
  unfold undo_sqlite, stat, remove, rename. eapply triple_bind.
  { apply (triple_step I undoable undoable _ _ (λ r d, (r = SOk → backup d = Some old_file ∧ quiet (wal d) = true) ∧ (r = SNotExist → backup d = None ∧ in_place d)) HU).
    dir_solve. }
  intros [].
  - eapply triple_bind.
    { apply (triple_step I undoable _ _ _ (λ r d, backup d = Some old_file ∧ quiet (wal d) = true) HU). dir_solve. }
    intros r. eapply triple_bind.
    { apply (triple_step I undoable _ _ _ (λ r d, r = SOk → backup d = None ∧ in_place d) HU). dir_solve. }
    intros []; apply triple_give; naive_solver.
  - apply triple_give; naive_solver.
  - apply triple_give; naive_solver.
Qed.

Lemma undo_graph_triple st :
  InstallGraph st = true → GraphHadOriginal st = true →
  triple (now I (λ d, undoable d ∧ backup d = None ∧ in_place d)) (undo_graph st)
    (λ r, now I (λ d, undoable d ∧ backup d = None ∧ in_place d ∧ (r = Ok tt → graphBackup d = None ∧ graph d = Some (Whole g)))) I.
Proof using HI.
  intros E1 E2. unfold undo_graph. rewrite E1, E2. cbn [negb]. unfold stat, removeAll, rename.
  set (R := λ d : dir, undoable d ∧ backup d = None ∧ in_place d).
  assert (∀ d, R d → I d) as HR by (intros d [? _]; by apply HU).
  eapply triple_bind.
  { apply (triple_step I R R _ _ (λ r d, (r = SOk → graphBackup d = Some (Whole g)) ∧ (r = SNotExist → graphBackup d = None ∧ graph d = Some (Whole g))) HR).
    unfold R. dir_solve. }
  intros [].
  - eapply triple_bind.
    { apply (triple_step I R _ _ _ (λ r d, graphBackup d = Some (Whole g)) HR). unfold R. dir_solve. }
    intros r. eapply triple_bind.
    { apply (triple_step I R _ _ _ (λ r d, r = SOk → graphBackup d = None ∧ graph d = Some (Whole g)) HR). unfold R, empty_tree. dir_solve. }
    intros []; apply triple_give; unfold R; naive_solver.
  - apply triple_give; unfold R; naive_solver.
  - apply triple_give; unfold R; naive_solver.
Qed.

Lemma recover_old : triple (now I old_side) recoverRestore (λ r, now I (λ d, old_side d ∧ settled r d)) I.
Proof using HI.
  unfold recoverRestore, stat. eapply triple_bind.
  { apply (triple_step I old_side old_side _ _ (λ r d, r = SNotExist → journal d = None) HI). dir_solve. }
  intros [].
  - intros s Hs. destruct (journal (cur s)) as [st|] eqn:Ej.
    2:{ destruct Hs as (H1 & [H2 _] & H3). unfold settled. split_and!; done. }
    destruct Hs as (H1 & [[[E _]|Hu] _] & H3); [congruence|]. pose proof Hu as ((st' & Est & Hc & Hi & Ho) & _).
    rewrite Ej in Est. injection Est as <-. rewrite Hc.
    revert s Ej H1 H3 Hu. 
    assert (triple (now I undoable) (and_then undo_sqlite (and_then (undo_graph st) finish_recovery)) (λ r, now I (λ d, old_side d ∧ settled r d)) I) as Ht.
    { unfold and_then. eapply triple_bind; [apply undo_sqlite_triple|]. intros [[]|e].
      2:{ apply triple_give. intros d [? _]. split; [by right|done]. }
      eapply triple_bind; [eapply triple_pre; [by apply undo_graph_triple|]|].
      { intros s. apply now_weaken. naive_solver. }
      intros [[]|e].
      2:{ apply triple_give. intros d [? _]. split; [by right|done]. }
      eapply triple_conseq; [apply (finish_triple I (λ d, undoable d ∧ backup d = None ∧ in_place d ∧ graphBackup d = None ∧ graph d = Some (Whole g))
        (λ d, journal d = None ∧ original d))| | |].
      - intros d [? _]. by apply HU.
      - intros d ?. apply HI. by left.
      - dir_solve.
      - dir_solve.
      - dir_solve.
      - dir_solve.
      - intros s. apply now_weaken. naive_solver.
      - intros r s. apply now_weaken. unfold old_side, settled. naive_solver.
      - done. }
    intros s Ej H1 H3 Hu. by apply Ht.
  - apply triple_give. intros d [H1 H2]. split; [done|]. intros _. auto.
  - apply triple_give. intros d [H1 _]. by split.
Qed.
End recover.

Lemma recover_new I : (∀ d, new_side d → I d) →
  triple (now I new_side) recoverRestore (λ r, now I (λ d, new_side d ∧ settled r d)) I.
Proof.
  intros HI. unfold recoverRestore, stat. eapply triple_bind.
  { apply (triple_step I new_side new_side _ _ (λ r d, r = SNotExist → journal d = None) HI). dir_solve. }
  intros [].
  - intros s (H1 & [H2 _] & H3). destruct (journal (cur s)) as [st|] eqn:Ej; [|unfold settled; by split_and!].
    pose proof H2 as [_ [?|(st' & Est & Hc)]]; [congruence|]. rewrite Ej in Est. injection Est as <-. rewrite Hc.
    assert (triple (now I new_side) finish_recovery (λ r, now I (λ d, new_side d ∧ settled r d)) I) as Ht; [|by apply Ht].
    eapply triple_conseq; [apply (finish_triple I new_side (λ d, journal d = None ∧ replaced d) HI)| | |].
    + intros d ?. apply HI. unfold new_side. naive_solver.
    + dir_solve.
    + dir_solve.
    + dir_solve.
    + dir_solve.
    + done.
    + intros r s'. apply now_weaken. unfold new_side, settled. naive_solver.
    + done.
  - apply triple_give. intros d [H4 H5]. split; [done|]. intros _. auto.
  - apply triple_give. intros d [H4 _]. by split.
Qed.

(** Recovery from any safe directory. *)
Lemma recover_safe I : (∀ d, safe d → I d) →
  triple (now I safe) recoverRestore (λ r, now I (λ d, safe d ∧ settled r d)) I.
Proof.
  intros HI s (H1 & [H2|H2] & H3).
  - assert (∀ d, old_side d → I d) as HI' by (intros d ?; apply HI; by left).
    eapply (triple_conseq _ (λ s', s' = s) _ _ _ _ _ (recover_old I HI')); [by intros s' ->| |done|done].
    intros r s'. apply now_weaken. intros d [? ?]. split; [by left|done].
  - assert (∀ d, new_side d → I d) as HI' by (intros d ?; apply HI; by right).
    eapply (triple_conseq _ (λ s', s' = s) _ _ _ _ _ (recover_new I HI')); [by intros s' ->| |done|done].
    intros r s'. apply now_weaken. intros d [? ?]. split; [by right|done].
Qed.

(** ** Closing and opening *)

Lemma close_triple (I P Q : dir → Prop) :
  (∀ d, P d → I (half_folded d)) → (∀ d, P d → if folds then I (folded d) ∧ Q (folded d) else Q d) →
  triple (now I P) closes (λ _, now I Q) I.
Proof.
  intros H1 H2 s (Hs & Hp & Hi). specialize (H1 _ Hp). specialize (H2 _ Hp). unfold closeConnections.
  destruct (script s) as [|[| | |k|k] rest]; [done| | | |by apply lost_in|apply lost_in; [done|by constructor]].
  all: destruct folds; [destruct H2; split; [by constructor|done]|by split_and!].
Qed.

Lemma folded_in_place d : in_place d → in_place (folded d).
Proof.
  intros H. pose proof (in_place_reads d H) as Hr. unfold folded. destruct (wal d) as [l|] eqn:El; [|by destruct (db d)].
  assert (∃ p, db d = Some (mkFile Former p)) as [p Ep] by (destruct H as [[E _]|[? _]]; [by eexists|done]).
  rewrite Ep. left. simpl. by rewrite Hr.
Qed.

Lemma half_in_place d : in_place d → in_place (half_folded d).
Proof.
  intros H. unfold half_folded. destruct (db d) as [f|] eqn:Ef; [|done]. destruct (wal d) as [[s [c|]]|] eqn:El; [|done..].
  destruct H as [[_ H]|[(p & Hp) H]]; [by rewrite El in H|]. rewrite Ef in Hp. apply (inj Some) in Hp as ->. right. simpl.
  split; [by eexists|]. rewrite El. rewrite Ef, El in H. by rewrite (read_half _ _ p).
Qed.

Lemma fold_frame d :
  let fr x := backup x = backup d ∧ graph x = graph d ∧ graphBackup x = graphBackup d ∧ journal x = journal d ∧
    temp x = temp d ∧ staged x = staged d ∧ (quiet (wal d) = true → quiet (wal x) = true) in
  fr (folded d) ∧ fr (half_folded d).
Proof. unfold folded, half_folded. destruct (db d), (wal d) as [[? [?|]]|] eqn:E; simpl; rewrite ?E; by repeat split. Qed.

Lemma folded_new d : db d = Some new_file → quiet (wal d) = true → db (folded d) = Some new_file ∧ db (half_folded d) = Some new_file.
Proof.
  intros E H. unfold folded, half_folded, database. rewrite E.
  by destruct (wal d) as [[s [c|]]|]; simpl in *; rewrite ?E.
Qed.

Lemma fold_safe d : safe d → safe (folded d) ∧ safe (half_folded d).
Proof.
  intros H. destruct (fold_frame d) as [(B1 & G1 & GB1 & J1 & _ & _ & Q1) (B2 & G2 & GB2 & J2 & _ & _ & Q2)].
  assert (in_place d → in_place (folded d) ∧ in_place (half_folded d)) as Hin by (split; [by apply folded_in_place|by apply half_in_place]).
  unfold safe, old_side, new_side, undoable, uncommitted, kept_db, kept_graph, original, replaced.
  rewrite B1, G1, GB1, J1, B2, G2, GB2, J2.
  destruct H as [[[Hj [Hi Hg]]|(Hu & [[Hb Hq]|[Hb Hi]] & Hg)]|[(Hd & Hq & Hg) Hj]].
  - split; left; left; naive_solver.
  - split; left; right; (split; [done|]); (split; [left; auto|done]).
  - split; left; right; (split; [done|]); (split; [right; naive_solver|done]).
  - destruct (folded_new d Hd Hq). split; right; (split; [auto|done]).
Qed.

Lemma close_safe : triple (now safe safe) closes (λ _, now safe safe) safe.
Proof. apply close_triple; intros d Hd; destruct (fold_safe d Hd); [done|]. by destruct folds. Qed.

(** Opening a directory that has a database. *)
Lemma open_frame d d' f :
  db d = Some f → d' = set_shm (set_wal (set_db d (Some f)) (Some (default (mkLog (fsource f) None) (wal d)))) true →
  db d' = db d ∧ read_db (db d') (wal d') = read_db (db d) (wal d) ∧ (quiet (wal d) = true → quiet (wal d') = true) ∧
  backup d' = backup d ∧ graph d' = graph d ∧ graphBackup d' = graphBackup d ∧ journal d' = journal d.
Proof. intros E ->. simpl. rewrite E, read_opened. split_and!; try done. by destruct (wal d). Qed.

(** ** Replacement *)

(** A finished restore; a successful one is the new pair, also after a power
    failure. *)
Definition finished (r : result restoreError unit) (s : machine) : Prop :=
  now safe safe s ∧ (r = Ok tt → Forall new_side (cur s :: since s) ∧ journal (cur s) = None).

Lemma now_safe P s : now safe P s → now safe safe s.
Proof. intros (H1 & _ & H3). by split_and!. Qed.

(** What a finished recovery leaves can be opened. *)
Lemma open_safe : triple (now safe (λ d, safe d ∧ settled (Ok tt) d)) opens (λ _, now safe safe) safe.
Proof.
  unfold openDatabase. apply (triple_call safe _ _ _ (λ _, safe)). intros d [Hs Hj] _. specialize (Hj eq_refl).
  enough (∀ d', d' = set_shm (set_wal (set_db d (Some (default newDatabase (db d)))) (Some (default (mkLog (fsource (default newDatabase (db d))) None) (wal d)))) true → safe d')
    as H by (simpl; auto 10).
  intros d' Ed'. destruct Hs as [[[_ [Hi Hg]]|((st & E & _) & _)]|[(Hd & Hq & Hg) _]]; [|congruence|].
  - assert (∃ p, db d = Some (mkFile Former p)) as [p Ep] by (destruct Hi as [[E _]|[? _]]; [by eexists|done]).
    rewrite Ep in Ed'. destruct (open_frame d d' _ Ep Ed') as (E1 & E2 & E3 & E4 & E5 & E6 & E7). left. left.
    rewrite E7. split; [done|]. split; [|by rewrite E5]. unfold in_place. rewrite E2, E1. destruct Hi as [[? ?]|[? ?]]; [left|right]; auto.
  - rewrite Hd in Ed'. destruct (open_frame d d' _ Hd Ed') as (E1 & E2 & E3 & E4 & E5 & E6 & E7). right.
    split; [|left; by rewrite E7]. split_and!; [by rewrite E1|auto|by rewrite E5].
Qed.

Lemma rollback_triple P e : triple (now safe P) (rollback None e) finished safe.
Proof.
  unfold rollback. eapply triple_bind; [eapply triple_pre; [by apply recover_safe|apply now_safe]|]. intros r.
  eapply triple_bind; [apply triple_attempt|]. intros checked. eapply (triple_bind _ _ _ (λ _, now safe safe)).
  - destruct checked; [|intros s Hs; by eapply now_safe]. unfold and_then. eapply triple_bind.
    { eapply triple_pre; [by apply recover_safe|apply now_safe]. }
    intros [[]|e']; [|intros s Hs; by eapply now_safe]. eapply triple_bind; [apply open_safe|]. intros r' s Hs. by eapply now_safe.
  - intros _ s Hs. by split.
Qed.

Lemma must_triple P f (Q : sys → dir → Prop) k :
  triple (now safe P) f (λ r, now safe (Q r)) safe → triple (now safe (Q SOk)) k finished safe →
  triple (now safe P) (must None f k) finished safe.
Proof. intros Hf Hk. unfold must. eapply triple_bind; [exact Hf|]. intros []; [done|apply rollback_triple..]. Qed.

Lemma must_sync_triple (P Q : dir → Prop) k :
  (∀ d, P d → Q d) → triple (now safe Q) k finished safe → triple (now safe P) (must None syncDirectory k) finished safe.
Proof.
  intros HPQ Hk. apply (must_triple _ _ (λ _, P)); [apply triple_sync_same|]. eapply triple_pre; [exact Hk|].
  intros s. by apply now_weaken.
Qed.

Lemma must_or_missing_triple P f (Q : sys → dir → Prop) k :
  triple (now safe P) f (λ r, now safe (Q r)) safe → (∀ r, r ≠ SErr → triple (now safe (Q r)) k finished safe) →
  triple (now safe P) (must_or_missing None f k) finished safe.
Proof. intros Hf Hk. unfold must_or_missing. eapply triple_bind; [exact Hf|]. intros []; [by apply Hk..|apply rollback_triple]. Qed.

Lemma write_triple (I I' P Q : dir → Prop) st :
  (∀ d, P d → Q (set_journal d (Some st))) → (∀ d, Q d → I' d) → (∀ d, I' d → I d) →
  triple (now I P) (writeRestoreState st) (λ r, match r with Ok _ => now I' Q | Err _ => now I (λ _, True) end) I.
Proof.
  intros HQ H1 H2. unfold writeRestoreState. eapply triple_bind; [apply triple_attempt|]. intros []; cbn [negb].
  2:{ intros s. apply now_weaken. done. }
  eapply triple_bind.
  { apply (triple_call I P _ _ (λ r d, r = SOk → Q d)). intros d Hp Hi. cbn. split_and!; try done; auto. }
  intros []; [|intros s; by apply now_weaken..].
  eapply triple_bind; [eapply triple_pre; [apply (triple_sync I I' Q); done|intros s; apply now_weaken; auto]|].
  intros []; intros s; cbn; [done|intros Hs; eapply now_weaken, Hs; done..].
Qed.

Lemma must_write_triple P Q st k :
  (∀ d, P d → Q (set_journal d (Some st))) → (∀ d, Q d → safe d) → triple (now safe Q) k finished safe →
  triple (now safe P) (must_write None st k) finished safe.
Proof.
  intros HQ HS Hk. unfold must_write. eapply triple_bind; [by apply (write_triple safe safe P Q)|].
  intros [|]; [done|apply rollback_triple].
Qed.

(** Both originals are set aside. *)
Definition aside (d : dir) : Prop := uncommitted d ∧ (backup d = Some old_file ∧ quiet (wal d) = true) ∧ graphBackup d = Some (Whole g).
Definition ready (d : dir) : Prop := temp d = Some new_file ∧ staged d = Some (Whole h).

Lemma aside_undoable d : aside d → undoable d.
Proof. intros (? & ? & ?). split_and!; [done|by left|by left]. Qed.
Lemma undoable_safe d : undoable d → safe d.
Proof. intros ?. left. by right. Qed.
Hint Resolve aside_undoable undoable_safe : core.

Lemma put_back_triple k :
  triple (now safe undoable) k finished safe → triple (now safe undoable) (restore_db;; k) finished safe.
Proof.
  intros Hk. unfold restore_db, rename. eapply triple_bind; [apply (triple_step safe undoable undoable _ _ (λ _ _, True) undoable_safe); dir_solve|].
  intros r. eapply triple_pre; [exact Hk|]. intros s. apply now_weaken. naive_solver.
Qed.

Lemma give_up_triple e : triple (now safe undoable) (when true restore_graph;; restore_db;; rollback None e) finished safe.
Proof.
  unfold when, restore_graph, rename. eapply (triple_bind _ _ _ (λ _, now safe undoable)).
  - eapply triple_bind; [apply (triple_step safe undoable undoable _ _ (λ _ _, True) undoable_safe); unfold empty_tree; dir_solve|].
    intros r. apply triple_give. naive_solver.
  - intros _. apply put_back_triple, rollback_triple.
Qed.

Lemma abandon_triple e : triple (now safe aside) (removeAll graph set_graph;; when true restore_graph;; restore_db;; rollback None e) finished safe.
Proof.
  unfold removeAll. eapply triple_bind; [apply (triple_step safe aside aside _ _ (λ _ _, True)); [eauto|unfold aside; dir_solve]|].
  intros r. eapply triple_pre; [apply give_up_triple|]. intros s. apply now_weaken. intros d [? _]. eauto.
Qed.

(** Closing before the rollback. *)
Lemma close_rollback e : triple (now safe safe) (closes;; rollback None e) finished safe.
Proof. eapply triple_bind; [apply close_safe|]. intros ?. apply rollback_triple. Qed.

Lemma now_new P s : now new_side P s → now safe safe s.
Proof. intros (H1 & _ & H3). split_and!; try (by right). eapply Forall_impl; [exact H1|]. intros d ?. by right. Qed.

Lemma commit_triple : triple (now safe (λ d, aside d ∧ replaced d)) (commit_restore folds None true) finished safe.
Proof.
  unfold commit_restore. eapply triple_bind.
  { apply (write_triple safe new_side _ new_side); [|done|intros d ?; by right]. intros d (_ & H1 & H2 & H3).
    split; [by split|]. right. eexists. split; [done|done]. }
  intros [|]; [|eapply triple_pre; [apply close_rollback|]; intros s; apply now_safe]. eapply triple_bind.
  { eapply triple_conseq; [by apply (recover_new new_side)|done|done|intros d ?; by right]. }
  intros [[]|].
  - intros s Hs. split; [by eapply now_new|]. intros _. destruct Hs as (H1 & [H2 H3] & H4). split; [by constructor|by apply H3].
  - eapply triple_pre; [apply close_rollback|]. intros s. apply now_new.
Qed.

Lemma aside_folds d : aside d ∧ replaced d → safe (half_folded d) ∧ if folds then safe (folded d) ∧ aside (folded d) else aside d.
Proof.
  intros [Ha Hr]. assert (safe d) as Hs by auto. destruct (fold_safe d Hs). destruct (fold_frame d) as [(B1 & G1 & GB1 & J1 & _ & _ & Q1) _].
  split; [done|]. destruct folds; [|done]. split; [done|]. destruct Ha as (Hu & [Hb Hq] & Hg).
  unfold aside, uncommitted. rewrite B1, GB1, J1. split_and!; auto.
Qed.

(** Opening the installed snapshot. *)
Lemma open_installed : triple (now safe (λ d, aside d ∧ replaced d)) opens (λ _, now safe (λ d, aside d ∧ replaced d)) safe.
Proof.
  unfold openDatabase. apply (triple_call safe _ _ _ (λ _ d, aside d ∧ replaced d)). intros d [Ha Hr] Hs.
  pose proof Hr as (Hd & Hq & Hg). rewrite Hd. cbn [default from_option fst snd].
  enough (∀ d', d' = set_shm (set_wal (set_db d (Some new_file)) (Some (default (mkLog (fsource new_file) None) (wal d)))) true → aside d' ∧ replaced d')
    as H by (destruct (H _ eq_refl); auto 10).
  intros d' Ed'. destruct (open_frame d d' _ Hd Ed') as (E1 & _ & E3 & E4 & E5 & E6 & E7). destruct Ha as (Hu & [Hb Hq'] & Hgb).
  split; [unfold aside, uncommitted; rewrite E4, E6, E7; split_and!; auto|]. split_and!; [by rewrite E1|auto|by rewrite E5].
Qed.

Lemma install_sqlite_triple :
  triple (now safe (λ d, aside d ∧ graph d = Some (Whole h) ∧ temp d = Some new_file)) (install_sqlite folds None true true) finished safe.
Proof.
  unfold install_sqlite, rename. eapply triple_bind.
  { apply (triple_step safe aside _ _ _ (λ r d, r = SOk → replaced d)); [eauto|unfold aside; dir_solve]. }
  intros [].
  2-3: eapply triple_pre; [apply abandon_triple|]; intros s; apply now_weaken; naive_solver.
  apply (must_sync_triple _ (λ d, aside d ∧ replaced d)); [naive_solver|].
  apply (must_write_triple _ (λ d, aside d ∧ replaced d)).
  { unfold aside; dir_solve. }
  { naive_solver. }
  eapply triple_bind; [apply open_installed|]. intros r'.
  eapply (triple_bind _ _ _ (λ _, now safe (λ d, aside d ∧ replaced d))).
  { destruct r'; [apply triple_attempt|apply triple_give; naive_solver..]. }
  intros []; cbn [negb]; [apply commit_triple|].
  eapply triple_bind; [apply (close_triple safe _ aside); intros d Hd; apply (aside_folds d Hd)|]. intros ?.
  unfold remove. eapply triple_bind; [apply (triple_step safe aside _ _ _ (λ _ _, True)); [eauto|unfold aside; dir_solve]|].
  intros r. eapply triple_pre; [apply abandon_triple|]. intros s; apply now_weaken; naive_solver.
Qed.

Lemma install_graph_triple :
  triple (now safe (λ d, undoable d ∧ (backup d = Some old_file ∧ quiet (wal d) = true) ∧ graphBackup d = None ∧ ready d)) (install_graph folds None true) finished safe.
Proof.
  unfold install_graph, rename. eapply triple_bind.
  { apply (triple_step safe undoable _ _ _ (λ r d, r ≠ SErr → r = SOk ∧ aside d ∧ ready d)); [eauto|].
    unfold aside, ready, empty_tree. dir_solve. }
  intros [].
  2:{ intros s (_ & [_ H] & _). exfalso. destruct (H ltac:(done)) as [? _]. done. }
  2:{ eapply triple_pre; [apply put_back_triple, rollback_triple|]. intros s; apply now_weaken; naive_solver. }
  eapply triple_bind.
  { eapply triple_pre; [apply (triple_step safe aside (λ d, aside d ∧ ready d) _ _ (λ r d, r = SOk → graph d = Some (Whole h) ∧ temp d = Some new_file)); [eauto|]|].
    - unfold aside, ready, empty_tree. dir_solve.
    - intros s; apply now_weaken; naive_solver. }
  intros [].
  2-3: eapply triple_pre; [apply give_up_triple|]; intros s; apply now_weaken; naive_solver.
  apply (must_sync_triple _ (λ d, aside d ∧ graph d = Some (Whole h) ∧ temp d = Some new_file)); [naive_solver|].
  apply (must_write_triple _ (λ d, aside d ∧ graph d = Some (Whole h) ∧ temp d = Some new_file)).
  { unfold aside; dir_solve. }
  { naive_solver. }
  apply install_sqlite_triple.
Qed.

(** The close can fold what the log holds, if it holds anything. *)
Definition closable (d : dir) : Prop := folds = true ∨ quiet (wal d) = true.

Definition untouched (d : dir) : Prop := undoable d ∧ backup d = None ∧ graphBackup d = None ∧ ready d.
Definition folded_up (d : dir) : Prop := untouched d ∧ db d = Some old_file ∧ quiet (wal d) = true.

Lemma untouched_folds d : untouched d ∧ closable d → safe (half_folded d) ∧ if folds then safe (folded d) ∧ folded_up (folded d) else folded_up d.
Proof.
  intros [(Hu & Hb & Hgb & Hr) Hcl]. assert (safe d) as Hs by auto. destruct (fold_safe d Hs). split; [done|].
  destruct (fold_frame d) as [(B1 & G1 & GB1 & J1 & T1 & S1 & Q1) _]. destruct Hu as (Hun & [[? _]|[_ Hi]] & Hg); [congruence|].
  pose proof (in_place_reads d Hi) as Hrd. assert (∃ p, db d = Some (mkFile Former p)) as [p Ep] by (destruct Hi as [[E _]|[? _]]; [by eexists|done]).
  destruct folds eqn:Ef.
  - split; [done|]. split.
    + split_and!; [|by rewrite B1|by rewrite GB1|unfold ready; by rewrite T1, S1].
      split_and!; [unfold uncommitted; by rewrite J1|right; rewrite B1; split; [done|by apply folded_in_place]|].
      unfold kept_graph. by rewrite GB1, G1.
    + unfold folded. rewrite Ep. destruct (wal d) as [l|] eqn:El; simpl; [by rewrite Hrd|]. rewrite Ep, El.
      unfold database in Hrd. rewrite Ep, El in Hrd. split; [|done]. change (p = Some o) in Hrd. by rewrite Hrd.
  - destruct Hcl as [?|Hq]; [congruence|]. split; [by split_and!; [split_and!; [|right|]|..]|]. split; [|done].
    unfold database in Hrd. rewrite Ep, read_quiet in Hrd by done. simpl in Hrd. by rewrite Ep, Hrd.
Qed.

Lemma replace_files_triple : triple (now safe (λ d, untouched d ∧ closable d)) (replace_files folds None true) finished safe.
Proof.
  assert (∀ d, folded_up d → safe d) as Hun by (unfold folded_up, untouched; naive_solver).
  unfold replace_files. eapply triple_bind; [apply (close_triple safe _ folded_up); intros d Hd; apply (untouched_folds d Hd)|]. intros ?.
  assert (∀ f, (∀ d, folded_up d → folded_up (f d).2) → triple (now safe folded_up) (call f id) (λ _, now safe folded_up) safe) as Hside.
  { intros f Hf. apply (triple_call safe folded_up _ _ (λ _, folded_up)). intros d Hd _. specialize (Hf d Hd). auto 10. }
  apply (must_or_missing_triple _ _ (λ _, folded_up)); [apply Hside; unfold folded_up, untouched, ready; dir_solve|intros _ _].
  apply (must_or_missing_triple _ _ (λ _, folded_up)); [apply Hside; unfold folded_up, untouched, ready; dir_solve|intros _ _].
  unfold rename. eapply must_or_missing_triple.
  { apply (triple_step safe undoable folded_up _ _ (λ r d, r ≠ SErr → (backup d = Some old_file ∧ quiet (wal d) = true) ∧ graphBackup d = None ∧ ready d)); [eauto|].
    unfold folded_up, untouched, ready. dir_solve. }
  intros r Hr. apply (must_sync_triple _ (λ d, undoable d ∧ (backup d = Some old_file ∧ quiet (wal d) = true) ∧ graphBackup d = None ∧ ready d)); [naive_solver|].
  apply (must_write_triple _ (λ d, undoable d ∧ (backup d = Some old_file ∧ quiet (wal d) = true) ∧ graphBackup d = None ∧ ready d)).
  { unfold ready; dir_solve. }
  { naive_solver. }
  apply install_graph_triple.
Qed.

Lemma tidy_triple (I P : dir → Prop) (r : result restoreError unit) :
  (∀ d, P d → I d) → (∀ d t u, P d → P (set_temp d t) ∧ P (set_staged d u)) →
  triple (now I P) (remove temp set_temp;; removeAll staged set_staged;; iret r) (λ x s, now I P s ∧ x = r) I.
Proof.
  intros HI HP. unfold remove, removeAll. eapply triple_bind.
  { apply (triple_step I P P _ _ (λ _ _, True) HI). intros d Hd. destruct (HP d None None Hd). destruct (temp d); cbn; auto 10. }
  intros r1. eapply triple_bind.
  { apply (triple_step I P _ _ _ (λ _ _, True) HI). intros d [Hd _]. destruct (HP d None None Hd). destruct (HP d None (Some Torn) Hd).
    cbn. destruct (staged d); auto 10. }
  intros r2 s Hs. split; [|done]. eapply now_weaken, Hs. naive_solver.
Qed.

Lemma cleanup_triple pre f : triple pre f finished safe → triple pre (cleanup f) finished safe.
Proof.
  intros Hf. unfold cleanup. eapply triple_bind; [exact Hf|]. intros [[]|e].
  - set (P := λ d, new_side d ∧ journal d = None).
    eapply triple_conseq; [apply (tidy_triple new_side P)| | |].
    + by intros d [? _].
    + unfold P. dir_solve.
    + intros s [_ H]. destruct (H eq_refl) as [H1 H2]. apply Forall_cons in H1 as [H1 H3]. by split_and!.
    + intros x s [(H1 & [H2 H3] & _) ->]. split; [|intros _; split; [by constructor|done]].
      split_and!; [|by right|by right]. eapply Forall_impl; [exact H1|]. intros d ?. by right.
    + intros d ?. by right.
  - eapply triple_conseq; [apply (tidy_triple safe safe)| | |done].
    + done.
    + dir_solve.
    + intros s [H _]. done.
    + intros x s [H ->]. by split.
Qed.

Definition started (d : dir) : Prop := journal d = None ∧ original d ∧ closable d.

Lemma started_safe d : started d → safe d.
Proof. intros (? & ? & _). left. by left. Qed.
Hint Resolve started_safe : core.

(** A return with an error leaves a safe directory finished. *)
Lemma fail_triple P e : triple (now safe P) (iret (Err e)) finished safe.
Proof. intros s Hs. split; [by eapply now_safe|done]. Qed.

Lemma restoreParts_triple :
  triple (now safe (λ d, started d ∧ staged d = Some (Whole h))) (restoreParts n folds None) finished safe.
Proof.
  unfold restoreParts. apply cleanup_triple. unfold and_then, prepare_snapshot.
  eapply (triple_bind _ _ _ (λ r, now safe (λ d, started d ∧ staged d = Some (Whole h) ∧ (r = Ok tt → temp d = Some new_file)))).
  { eapply triple_bind.
    - apply (triple_step safe started _ _ _ (λ r d, staged d = Some (Whole h) ∧ (r = SOk → temp d = Some new_file)) started_safe). unfold started. dir_solve.
    - intros []; [|apply triple_give; naive_solver..]. eapply triple_bind; [apply triple_attempt|]. intros []; apply triple_give; naive_solver. }
  intros [[]|e]; [|apply fail_triple]. unfold stat.
  set (P1 := λ d, started d ∧ ready d).
  assert (∀ d, P1 d → safe d) as HP1 by (unfold P1; naive_solver).
  eapply triple_bind.
  { apply (triple_step safe P1 _ _ _ (λ r d, r = SNotExist → backup d = None) HP1). unfold P1, started, ready. dir_solve. }
  intros []; [apply fail_triple| |apply fail_triple]. eapply triple_bind.
  { apply (triple_step safe P1 _ _ _ (λ r d, backup d = None ∧ (r = SNotExist → graphBackup d = None)) HP1). unfold P1, started, ready. dir_solve. }
  intros []; [apply fail_triple| |apply fail_triple]. eapply triple_bind.
  { apply (triple_step safe P1 _ _ _ (λ r d, backup d = None ∧ graphBackup d = None ∧ r ≠ SNotExist) HP1). unfold P1, started, ready. dir_solve. }
  intros []; [| |apply fail_triple].
  2:{ intros s (_ & (_ & _ & _ & H) & _). done. }
  eapply triple_bind.
  { apply (write_triple safe safe _ (λ d, untouched d ∧ closable d)); [| |done].
    - intros d (((Hj & [H1 H2] & Hc) & H3 & H4) & H5 & H6 & _). split; [|exact Hc].
      split_and!; [split_and!; [by eexists|by right|by right]|done..].
    - unfold untouched. naive_solver. }
  intros [[]|]; [apply replace_files_triple|apply fail_triple].
Qed.

Lemma RestoreCheckpoint_triple files : triple (now safe started) (RestoreCheckpoint n h folds None files) finished safe.
Proof.
  unfold RestoreCheckpoint. destruct (check_roles files false false); cbn [negb]; [|apply fail_triple].
  eapply triple_bind; [apply triple_attempt|]. intros []; cbn [negb]; [|apply fail_triple].
  eapply triple_bind.
  { apply (triple_step safe started _ _ _ (λ r d, r = SOk → staged d = Some (Whole h)) started_safe). unfold started. dir_solve. }
  intros [].
  { eapply triple_pre; [apply restoreParts_triple|]. intros s. apply now_weaken. naive_solver. }
  all: unfold removeAll; eapply triple_bind;
    [apply (triple_step safe started _ _ _ (λ _ _, True) started_safe); unfold started; dir_solve|intros r; apply fail_triple].
Qed.

(** ** Directories a process finds *)

(** After a restart, and after any number of recoveries that stopped, failed or
    were followed by a power failure. *)
Inductive later (start : dir → Prop) : dir → Prop :=
| later_start d : start d → later start d
| later_stopped d answers d' : later start d → recoverRestore (boot d answers) = Stopped d' → later start d'
| later_returned d answers r s k :
    later start d → recoverRestore (boot d answers) = Returned r s → later start (lost k (cur s) (since s)).

(** What a call leaves: where it stopped, or a power failure after it. *)
Inductive leaves (f : io (result restoreError unit)) (d0 : dir) : dir → Prop :=
| leaves_stopped answers d : f (boot d0 answers) = Stopped d → leaves f d0 d
| leaves_returned answers r s k : f (boot d0 answers) = Returned r s → leaves f d0 (lost k (cur s) (since s)).

Lemma boot_now I d answers : I d → now I I (boot d answers).
Proof. intros H. split_and!; [constructor|done|done]. Qed.

Lemma later_in (I : dir → Prop) (start : dir → Prop) d :
  triple (now I I) recoverRestore (λ r, now I (λ d, I d ∧ settled r d)) I → (∀ d, start d → I d) → later start d → I d.
Proof.
  intros Ht Hs. induction 1 as [d H|d answers d' _ IH E|d answers r s k _ IH E]; [by apply Hs| |].
  - specialize (Ht _ (boot_now I d answers IH)). by rewrite E in Ht.
  - specialize (Ht _ (boot_now I d answers IH)). rewrite E in Ht. destruct Ht as (H1 & _ & H3). by apply lost_in.
Qed.

Lemma restore_leaves_safe files d0 d : started d0 → leaves (RestoreCheckpoint n h folds None files) d0 d → safe d.
Proof.
  intros H0 H. assert (now safe started (boot d0 [])) as Hb by (split_and!; [constructor|done|by apply started_safe]).
  destruct H as [answers d E|answers r s k E].
  - pose proof (RestoreCheckpoint_triple files (boot d0 answers) Hb) as Ht. by rewrite E in Ht.
  - pose proof (RestoreCheckpoint_triple files (boot d0 answers) Hb) as Ht. rewrite E in Ht. destruct Ht as [(H1 & _ & H3) _]. by apply lost_in.
Qed.

(** The directory before the call: no journal, the original pair, and a close
    that folds the log unless there is nothing in it. *)
Definition starts (d : dir) : Prop :=
  journal d = None ∧ (∃ p, db d = Some (mkFile Former p)) ∧ shows d o g ∧ closable d.

Lemma starts_started d : starts d → started d.
Proof. intros (H1 & H2 & [H3 H4] & H5). split; [done|]. split; [split; [by right|done]|done]. Qed.

(** C19: installing a checkpoint is atomic.  Let the close fold SQLite's log into
    the database file, or the log be empty, and let opening the snapshot commit
    nothing to it.  Wherever the call or any number of recoveries after it fail,
    stop or lose power, the first recovery that succeeds leaves the original
    database, with every transaction of its log, and the original graph, or the
    new database with the new graph, and no journal. *)
Theorem restore_atomic files d0 d answers s :
  starts d0 → later (leaves (RestoreCheckpoint n h folds None files) d0) d → recoverRestore (boot d answers) = Returned (Ok tt) s →
  journal (cur s) = None ∧ (shows (cur s) o g ∨ shows (cur s) n h).
Proof.
  intros H0%starts_started Hd E.
  assert (safe d) as Hs by (eapply later_in, Hd; [by apply recover_safe|intros d'; by apply restore_leaves_safe]).
  pose proof (recover_safe safe (λ _ H, H) _ (boot_now safe d answers Hs)) as Ht. rewrite E in Ht.
  destruct Ht as (_ & [Hsafe Hset] & _). specialize (Hset eq_refl). split; [done|].
  destruct Hsafe as [[[_ ?]|((st & ? & _) & _)]|[? _]]; [left; by apply original_shows|congruence|right; by apply replaced_shows].
Qed.

(** A restore that reported success is durable.  The new pair is in place
    without a journal, and stays through power failures and recoveries. *)
Theorem restore_durable files d0 answers s d answers' s' :
  starts d0 → RestoreCheckpoint n h folds None files (boot d0 answers) = Returned (Ok tt) s →
  later (λ d, ∃ k, d = lost k (cur s) (since s)) d → recoverRestore (boot d answers') = Returned (Ok tt) s' →
  shows (cur s) n h ∧ journal (cur s) = None ∧ shows (cur s') n h ∧ journal (cur s') = None.
Proof.
  intros H0%starts_started E Hd E'. assert (now safe started (boot d0 answers)) as Hb.
  { split_and!; [constructor|done|by apply started_safe]. }
  pose proof (RestoreCheckpoint_triple files _ Hb) as Ht. rewrite E in Ht. destruct Ht as [_ Hok].
  destruct (Hok eq_refl) as [Hall Hj]. apply Forall_cons in Hall as [Hc Hsince].
  assert (new_side d) as Hn.
  { eapply later_in, Hd; [by apply recover_new|]. intros d' [k ->]. by apply lost_in. }
  pose proof (recover_new new_side (λ _ H, H) _ (boot_now new_side d answers' Hn)) as Ht. rewrite E' in Ht.
  destruct Ht as (_ & [[Hr _] Hset] & _). destruct Hc as [Hc _].
  split; [by apply replaced_shows|]. split; [done|]. split; [by apply replaced_shows|auto].
Qed.

Lemma recover_done d rest : safe d → ∃ s, recoverRestore (boot d (repeat Done 12 ++ rest)) = Returned (Ok tt) s.
Proof.
  intros Hd. destruct d as [db_ b_ g_ gb_ j_ t_ st_ w_ sh_]. destruct j_ as [[ph ig go]|]; [|by eexists].
  destruct Hd as [[[? _]|((st & E & Hc & Hi & Ho) & Hb & Hg)]|[(Hdb & _ & Hgr) [?|(st & E & Hc)]]]; cbn in *; try done;
    simplify_eq/=.
  - unfold kept_db, kept_graph in *. cbn in *. unfold recoverRestore, ibind. cbn. rewrite Hc. cbn.
    destruct Hb as [[-> _]|[-> _]], Hg as [->|[-> ->]]; try destruct db_; by eexists.
  - unfold recoverRestore, ibind. cbn. rewrite Hc. cbn. destruct b_; by eexists.
Qed.

(** Recovery completes.  From every directory a restore and any interrupted
    recoveries leave, twelve operations that succeed finish it. *)
Theorem recovery_completes files d0 d rest :
  starts d0 → later (leaves (RestoreCheckpoint n h folds None files) d0) d →
  ∃ s, recoverRestore (boot d (repeat Done 12 ++ rest)) = Returned (Ok tt) s.
Proof.
  intros H0%starts_started Hd. apply recover_done. eapply later_in, Hd; [by apply recover_safe|]. intros d'. by apply restore_leaves_safe.
Qed.
End restore.

(** ** A concrete restore *)

(** The database is at 1, its last transactions in the log. *)
Definition demo_dir : dir := mkDir (Some (mkFile Former (Some 0))) None (Some (Whole 10)) None None None None (Some (mkLog Former (Some 1))) true.
Definition demo_files : list (CheckpointRole * bool) := [(CheckpointGraphData, true); (CheckpointSQLite, true)].
Definition demo_restore (folds : bool) (upgrade : option Z) (answers : list answer) :=
  RestoreCheckpoint 2 20 folds upgrade demo_files (boot demo_dir answers).

(** The machine stops once both originals are set aside, losing the last rename. *)
Definition demo_answers : list answer := repeat Done 25 ++ [Stop 1].
Definition dir_of {A} (x : outcome A) : dir := match x with Stopped d => d | Returned _ s => cur s end.
Definition machine_of {A} (x : outcome A) : machine := match x with Returned _ s => s | Stopped d => boot d [] end.
Definition demo_stopped : dir := dir_of (demo_restore true None demo_answers).
Definition demo_recovered : machine := machine_of (recoverRestore (boot demo_stopped (repeat Done 12))).
Definition demo_restored : machine := machine_of (demo_restore true None (repeat Done 60)).

Lemma demo_stopped_late : db demo_stopped = None ∧ graph demo_stopped = Some (Whole 20) ∧ backup demo_stopped = Some (old_file 1).
Proof. vm_compute. auto. Qed.

Lemma demo_starts : starts 1 10 true demo_dir.
Proof. split; [done|]. split; [by eexists|]. split; [by split; vm_compute|by left]. Qed.

Lemma demo_later : later (leaves (RestoreCheckpoint 2 20 true None demo_files) demo_dir) demo_stopped.
Proof. apply later_start, (leaves_stopped _ _ demo_answers). vm_compute. reflexivity. Qed.

Lemma restore_atomic_witness : journal (cur demo_recovered) = None ∧ (shows (cur demo_recovered) 1 10 ∨ shows (cur demo_recovered) 2 20).
Proof.
  apply (restore_atomic 1 10 2 20 true demo_files demo_dir demo_stopped (repeat Done 12) demo_recovered demo_starts demo_later).
  vm_compute. reflexivity.
Defined.

Lemma restore_durable_witness : shows (cur demo_restored) 2 20 ∧ journal (cur demo_restored) = None.
Proof.
  destruct (restore_durable 1 10 2 20 true demo_files demo_dir (repeat Done 60) demo_restored (cur demo_restored) [Done]
    (machine_of (recoverRestore (boot (cur demo_restored) [Done]))) demo_starts) as (H1 & H2 & _).
  - vm_compute. reflexivity.
  - apply later_start. exists 0%nat. vm_compute. reflexivity.
  - vm_compute. reflexivity.
  - split; assumption.
Defined.

Lemma recovery_completes_witness : ∃ s, recoverRestore (boot demo_stopped (repeat Done 12 ++ [])) = Returned (Ok tt) s.
Proof. exact (recovery_completes 1 10 2 20 true demo_files demo_dir demo_stopped [] demo_starts demo_later). Defined.

(** ** Why the conditions are needed *)

(** The log is not folded, and the rename that sets the graph aside fails. *)
Definition unfolded_answers : list answer := repeat Done 18 ++ [Fail] ++ repeat Done 40.
Definition unfolded_outcome : outcome (result restoreError unit) := demo_restore false None unfolded_answers.

(** A close that could not fold the log loses transactions.  Its error is
    ignored and the log is removed; when the restore then fails and rolls back,
    it reports the failure and leaves the original file without the
    transactions the log had. *)
Theorem unfolded_log_lost :
  database demo_dir = Some 1 ∧
  match unfolded_outcome with
  | Returned (Err _) s => journal (cur s) = None ∧ database (cur s) = Some 0 ∧ graph (cur s) = Some (Whole 10)
  | _ => False
  end.
Proof. vm_compute. auto. Qed.

(** Opening the snapshot upgrades its schema; the process stops before the
    journal is marked committed. *)
Definition upgraded_stopped : dir := dir_of (demo_restore true (Some 3) (repeat Done 32)).
Definition upgraded_recovered : machine := machine_of (recoverRestore (boot upgraded_stopped (repeat Done 12))).

(** A log left by the snapshot spoils the original.  Recovery puts the original
    file back and leaves the log of the upgraded snapshot next to it, so the
    database cannot be read. *)
Theorem stale_log_left :
  backup upgraded_stopped = Some (old_file 1) ∧ wal upgraded_stopped = Some (mkLog Snapshot (Some 3)) ∧
  recoverRestore (boot upgraded_stopped (repeat Done 12)) = Returned (Ok tt) upgraded_recovered ∧
  journal (cur upgraded_recovered) = None ∧ db (cur upgraded_recovered) = Some (old_file 1) ∧ database (cur upgraded_recovered) = None.
Proof. vm_compute. auto 10. Qed.
