(* ===== verification/Admission.v ===== *)
(** * Mutation admission (pkg/network/mutation_admission.go)

    The charge of a request, computed by a saturating walk over its values,
    and the server's admission counters with their leases.  The values are the
    built-in ones the walk distinguishes; fields it does not read are left
    out.  A Go map is its list of entries in the order of iteration. *)

From stdpp Require Import gmap list.
From S2P Require Import Prelude.

Definition maxAdmittedMutations : Z := 128.
Definition maxAdmittedBytes : Z := Z.shiftl 32 20.
Definition maxMutationCharge : Z := Z.shiftl 1 20.
Definition maxMutationDepth : Z := 32.
Definition maxMutationNodes : Z := 65536.

(** ** Request values *)

(** [GScalar] is nil, a bool or a number; [GOther] any type the walk rejects. *)
Inductive gvalue :=
| GScalar
| GString (s : bytes)
| GNumber (s : bytes)
| GBytes (b : bytes)
| GList (items : list gvalue)
| GMap (entries : list (bytes * gvalue))
| GSQL (requestID sql : bytes) (args : list gvalue) (statements : list (bytes * list gvalue * list bytes))
    (migration : option (bytes * bytes))
| GGraph (requestID cypher : bytes) (args : list (bytes * gvalue)) (events : list (bytes * bytes * gvalue))
    (streamOffset : option (bytes * bytes)) (streamTrim : option bytes)
| GKV (requestID operation key : bytes) (value expected : bytes)
| GNotify (requestID topic : bytes) (payload : bytes)
| GOther.

(** ** The walk *)

Record chargeState := mkCharge { cbytes : Z; cnodes : Z }.

Definition addAmount (n : Z) (s : chargeState) : chargeState :=
  if (n <? 0) || (maxMutationCharge - cbytes s <? n) then mkCharge (maxMutationCharge + 1) (cnodes s)
  else mkCharge (cbytes s + n) (cnodes s).

Definition addString (v : bytes) (s : chargeState) : chargeState :=
  if maxMutationCharge / 13 <? len v then mkCharge (maxMutationCharge + 1) (cnodes s) else addAmount (32 + 13 * len v) s.

Definition addBlob (v : bytes) (s : chargeState) : chargeState :=
  if maxMutationCharge / 5 <? len v then mkCharge (maxMutationCharge + 1) (cnodes s) else addAmount (32 + 5 * len v) s.

Definition addStrings (vs : list bytes) (s : chargeState) : chargeState := foldl (λ s v, addString v s) s vs.

(** The body of a case after its lengths are checked and its own amount added:
    the items one after another, each with what is added before it. *)
Definition addItems {A} (one : A → chargeState → option chargeState) : list A → chargeState → option chargeState :=
  fix go l s := match l with [] => Some s | x :: rest => one x s ≫= go rest end.

Definition checkCharge (s : chargeState) : option chargeState :=
  if (cbytes s <? 0) || (maxMutationCharge <? cbytes s) then None else Some s.

Definition tooMany {A} (l : list A) : bool := maxMutationNodes <? Z.of_nat (length l).

(** What every case does first, and the final check. *)
Definition addNode (depth : Z) (body : chargeState → option chargeState) (s : chargeState) : option chargeState :=
  let s1 := mkCharge (cbytes s) (cnodes s + 1) in
  if (maxMutationNodes <? cnodes s1) || (maxMutationDepth <? depth) then None
  else body (addAmount 32 s1) ≫= checkCharge.

Definition addList (one : gvalue → chargeState → option chargeState) (items : list gvalue) (s : chargeState)
    : option chargeState :=
  if tooMany items then None else addItems one items (addAmount (64 + 16 * Z.of_nat (length items)) s).

Definition addMap (one : gvalue → chargeState → option chargeState) (entries : list (bytes * gvalue)) (s : chargeState)
    : option chargeState :=
  if tooMany entries then None
  else addItems (λ '(key, item) s, one item (addString key s)) entries (addAmount (64 + 32 * Z.of_nat (length entries)) s).

(** One statement of a SQL command; [one] adds an argument. *)
Definition addStatement (depth : Z) (one : gvalue → chargeState → option chargeState)
    (statement : bytes * list gvalue * list bytes) (s : chargeState) : option chargeState :=
  let '(text, args, refs) := statement in
  addNode depth (addList one args) (addString text s) ≫= λ s1,
  if tooMany refs then None else Some (addStrings refs (addAmount (32 * Z.of_nat (length refs)) s1)).

(** One stream event of a graph command; [one] adds its payload. *)
Definition addEvent (one : gvalue → chargeState → option chargeState) (event : bytes * bytes * gvalue) (s : chargeState)
    : option chargeState :=
  let '(stream, kind, payload) := event in one payload (addStrings [stream; kind] s).

Fixpoint add (value : gvalue) (depth : Z) (s : chargeState) : option chargeState :=
  addNode depth (λ s,
    match value with
    | GScalar => Some s
    | GString v | GNumber v => Some (addString v s)
    | GBytes v => Some (addBlob v s)
    | GList items => addList (λ v, add v (depth + 1)) items s
    | GMap entries => addMap (λ v, add v (depth + 1)) entries s
    | GSQL requestID sql args statements migration =>
        addNode (depth + 1) (addList (λ v, add v (depth + 1 + 1)) args) (addStrings [requestID; sql] s) ≫= λ s1,
        if tooMany statements then None
        else
          addItems (addStatement (depth + 1) (λ v, add v (depth + 1 + 1))) statements
            (addAmount (64 + 64 * Z.of_nat (length statements)) s1) ≫= λ s2,
          Some (match migration with Some (name, checksum) => addStrings [name; checksum] s2 | None => s2 end)
    | GGraph requestID cypher args events offset trim =>
        addNode (depth + 1) (addMap (λ v, add v (depth + 1 + 1)) args) (addStrings [requestID; cypher] s) ≫= λ s1,
        if tooMany events then None
        else
          addItems (addEvent (λ v, add v (depth + 1))) events (addAmount (64 + 64 * Z.of_nat (length events)) s1) ≫= λ s2,
          let s3 := match offset with Some (stream, consumer) => addStrings [stream; consumer] s2 | None => s2 end in
          Some (match trim with Some stream => addString stream s3 | None => s3 end)
    | GKV requestID operation key v expected =>
        Some (addBlob expected (addBlob v (addStrings [requestID; operation; key] s)))
    | GNotify requestID topic payload => Some (addBlob payload (addStrings [requestID; topic] s))
    | GOther => None
    end) s.

Definition mutationCharge (value : gvalue) : option Z :=
  match add value 0 (mkCharge 0 0) with
  | None => None
  | Some s => if (maxMutationNodes <? cnodes s) || (maxMutationCharge <? cbytes s) then None else Some (cbytes s)
  end.

(** ** Admission *)

(** The lease's owner: 0 the caller, 1 the worker, 2 released. *)
Record lease := mkLease { owner : Z; charge : Z }.

(** The server's counters and every lease it handed out. *)
Record admissionState := mkAdmission { count : Z; abytes : Z; leases : list lease }.

Inductive admissionError := ErrInvalidRequest | ErrOverloaded.

Definition admitMutation (charge : Z) (s : admissionState) : result admissionError admissionState :=
  if maxMutationCharge <? charge then Err ErrInvalidRequest
  else if (maxAdmittedMutations <=? count s) || (maxAdmittedBytes - abytes s <? charge) then Err ErrOverloaded
  else Ok (mkAdmission (count s + 1) (abytes s + charge) (leases s ++ [mkLease 0 charge])).

(** [CompareAndSwap] of the owner of lease [i]; whether it swapped. *)
Definition compareAndSwap (i : nat) (from to : Z) (s : admissionState) : bool * admissionState :=
  match leases s !! i with
  | Some l => if owner l =? from then (true, mkAdmission (count s) (abytes s) (<[i := mkLease to (charge l)]> (leases s)))
              else (false, s)
  | None => (false, s)
  end.

(** The lease's [release] closure. *)
Definition release (i : nat) (s : admissionState) : admissionState :=
  match leases s !! i with
  | Some l => mkAdmission (count s - 1) (abytes s - charge l) (leases s)
  | None => s
  end.

Definition transfer (i : nat) (s : admissionState) : bool * admissionState := compareAndSwap i 0 1 s.
Definition releaseCaller (i : nat) (s : admissionState) : admissionState :=
  let '(swapped, s1) := compareAndSwap i 0 2 s in if swapped then release i s1 else s1.
Definition releaseWorker (i : nat) (s : admissionState) : admissionState :=
  let '(swapped, s1) := compareAndSwap i 1 2 s in if swapped then release i s1 else s1.
