(* ===== verification/AdmissionProofs.v ===== *)
(** * The charge of a request is exact, and admission is balanced *)

From stdpp Require Import gmap list relations.
From S2P Require Import Prelude Admission.

(** ** What a value demands *)

(** Bytes and nodes without bounds, and whether it is accepted at all. *)
Record demand := mkDemand { dbytes : Z; dnodes : Z; dok : bool }.

Definition nothing : demand := mkDemand 0 0 true.
Definition both (d e : demand) : demand := mkDemand (dbytes d + dbytes e) (dnodes d + dnodes e) (dok d && dok e).
Definition amount (n : Z) : demand := mkDemand n 0 true.
Definition all {A} (f : A → demand) (l : list A) : demand := foldr (λ x acc, both (f x) acc) nothing l.

Definition text (v : bytes) : demand := amount (32 + 13 * len v).
Definition blob (v : bytes) : demand := amount (32 + 5 * len v).
Definition texts (vs : list bytes) : demand := all text vs.
Definition node_demand (depth : Z) (body : demand) : demand :=
  both (mkDemand 32 1 (depth <=? maxMutationDepth)) body.

Definition list_demand (f : gvalue → demand) (items : list gvalue) : demand :=
  both (amount (64 + 16 * Z.of_nat (length items))) (all f items).
Definition map_demand (f : gvalue → demand) (entries : list (bytes * gvalue)) : demand :=
  both (amount (64 + 32 * Z.of_nat (length entries))) (all (λ '(k, v), both (text k) (f v)) entries).

Definition statement_demand (depth : Z) (f : gvalue → demand) (statement : bytes * list gvalue * list bytes) : demand :=
  let '(t, args, refs) := statement in
  both (both (text t) (node_demand depth (list_demand f args))) (both (amount (32 * Z.of_nat (length refs))) (texts refs)).
Definition event_demand (f : gvalue → demand) (event : bytes * bytes * gvalue) : demand :=
  let '(stream, kind, payload) := event in both (texts [stream; kind]) (f payload).

(** The reference: the sum over the whole value. *)
Fixpoint demand_of (value : gvalue) (depth : Z) : demand :=
  node_demand depth
    match value with
    | GScalar => nothing
    | GString v | GNumber v => text v
    | GBytes v => blob v
    | GList items => list_demand (λ v, demand_of v (depth + 1)) items
    | GMap entries => map_demand (λ v, demand_of v (depth + 1)) entries
    | GSQL requestID sql args statements migration =>
        both (both (texts [requestID; sql]) (node_demand (depth + 1) (list_demand (λ v, demand_of v (depth + 1 + 1)) args)))
        (both (both (amount (64 + 64 * Z.of_nat (length statements)))
                 (all (statement_demand (depth + 1) (λ v, demand_of v (depth + 1 + 1))) statements))
              (match migration with Some (n, c) => texts [n; c] | None => nothing end))
    | GGraph requestID cypher args events offset trim =>
        both (both (texts [requestID; cypher]) (node_demand (depth + 1) (map_demand (λ v, demand_of v (depth + 1 + 1)) args)))
        (both (both (amount (64 + 64 * Z.of_nat (length events)))
                 (all (event_demand (λ v, demand_of v (depth + 1))) events))
              (both (match offset with Some (st, c) => texts [st; c] | None => nothing end)
                    (match trim with Some st => text st | None => nothing end)))
    | GKV requestID operation key v expected => both (texts [requestID; operation; key]) (both (blob v) (blob expected))
    | GNotify requestID topic payload => both (texts [requestID; topic]) (blob payload)
    | GOther => mkDemand 0 0 false
    end.

(** ** Meeting a demand *)

Definition in_range (s : chargeState) : Prop :=
  0 <= cbytes s <= maxMutationCharge + 1 ∧ 0 <= cnodes s <= maxMutationNodes.

Definition fits (s : chargeState) (d : demand) : Prop :=
  dok d = true ∧ cnodes s + dnodes d <= maxMutationNodes ∧ cbytes s + dbytes d <= maxMutationCharge.

Definition positive (d : demand) : Prop := 0 <= dbytes d ∧ 0 <= dnodes d.

(** The step adds the demand, saturating the bytes, and refuses only what does
    not fit. *)
Definition meets (f : chargeState → option chargeState) (d : demand) : Prop :=
  positive d ∧ ∀ s, in_range s →
  match f s with
  | Some s' => dok d = true ∧ cnodes s' = cnodes s + dnodes d ∧ cnodes s' <= maxMutationNodes ∧
               cbytes s' = Z.min (maxMutationCharge + 1) (cbytes s + dbytes d)
  | None => ¬ fits s d
  end.

Lemma meets_range f d s s' : meets f d → in_range s → f s = Some s' → in_range s'.
Proof.
  intros [Hp Hf] Hs E. specialize (Hf s Hs). rewrite E in Hf. unfold in_range, positive in *. lia.
Qed.

Lemma meets_seq f g d e : meets f d → meets g e → meets (λ s, f s ≫= g) (both d e).
Proof.
  intros Hf Hg. split; [destruct Hf as [[] _], Hg as [[] _]; split; simpl; lia|]. intros s Hs. pose proof (proj2 Hf s Hs) as Hfs.
  destruct (f s) as [s1|] eqn:E; simpl.
  - pose proof (meets_range _ _ _ _ Hf Hs E) as Hs1. pose proof (proj2 Hg s1 Hs1) as Hgs.
    destruct Hg as [[] _], Hf as [[] _]. destruct (g s1) as [s2|]; simpl.
    + destruct Hfs as (-> & ?), Hgs as (-> & ?). split; [done|]. unfold in_range in *. lia.
    + intros (?%andb_true_iff & Hn & Hb). apply Hgs. simpl in *. unfold fits. split; [tauto|]. lia.
  - intros (?%andb_true_iff & Hn & Hb). apply Hfs. destruct Hg as [[] _]. simpl in *. unfold fits. split; [tauto|]. lia.
Qed.

Lemma meets_pure (f : chargeState → chargeState) d :
  positive d → dok d = true → dnodes d = 0 →
  (∀ s, in_range s → f s = mkCharge (Z.min (maxMutationCharge + 1) (cbytes s + dbytes d)) (cnodes s)) →
  meets (λ s, Some (f s)) d.
Proof. intros Hp Ho Hn H. split; [done|]. intros s Hs. simpl. rewrite (H s Hs). simpl. unfold in_range in Hs. split_and!; [done|lia..]. Qed.

Lemma meets_ext f g d : (∀ s, f s = g s) → meets f d → meets g d.
Proof. intros E [Hp H]. split; [done|]. intros s Hs. rewrite <-E. by apply H. Qed.

Lemma meets_nothing : meets Some nothing.
Proof. apply (meets_pure (λ s, s)); [split; simpl; lia|done|done|]. intros [b n] Hs. unfold in_range in Hs. simpl in *. f_equal. lia. Qed.

Lemma addAmount_min n s :
  0 <= n → in_range s → addAmount n s = mkCharge (Z.min (maxMutationCharge + 1) (cbytes s + n)) (cnodes s).
Proof.
  intros Hn [Hb _]. unfold addAmount. destruct (_ || _) eqn:E.
  - f_equal. apply orb_true_iff in E as [?%Z.ltb_lt|?%Z.ltb_lt]; lia.
  - apply orb_false_iff in E as [_ ?%Z.ltb_ge]. f_equal. lia.
Qed.

Lemma meets_amount n : 0 <= n → meets (λ s, Some (addAmount n s)) (amount n).
Proof. intros Hn. apply meets_pure; [split; simpl; lia|done|done|]. intros s Hs. by apply addAmount_min. Qed.

(** The early tests of long strings and blobs saturate what would anyway. *)
Lemma addString_min v s :
  in_range s → addString v s = mkCharge (Z.min (maxMutationCharge + 1) (cbytes s + (32 + 13 * len v))) (cnodes s).
Proof.
  intros Hs. pose proof (len_nonneg v). unfold addString. destruct (Z.ltb_spec (maxMutationCharge / 13) (len v)) as [H1|H1].
  - destruct Hs as [Hb _]. change (maxMutationCharge / 13) with 80659 in H1. change maxMutationCharge with 1048576 in *. f_equal. lia.
  - apply addAmount_min; [lia|done].
Qed.

Lemma addBlob_min v s :
  in_range s → addBlob v s = mkCharge (Z.min (maxMutationCharge + 1) (cbytes s + (32 + 5 * len v))) (cnodes s).
Proof.
  intros Hs. pose proof (len_nonneg v). unfold addBlob. destruct (Z.ltb_spec (maxMutationCharge / 5) (len v)) as [H1|H1].
  - destruct Hs as [Hb _]. change (maxMutationCharge / 5) with 209715 in H1. change maxMutationCharge with 1048576 in *. f_equal. lia.
  - apply addAmount_min; [lia|done].
Qed.

Lemma meets_text v : meets (λ s, Some (addString v s)) (text v).
Proof. pose proof (len_nonneg v). apply meets_pure; [split; simpl; lia|done|done|]. intros s Hs. by apply addString_min. Qed.

Lemma meets_blob v : meets (λ s, Some (addBlob v s)) (blob v).
Proof. pose proof (len_nonneg v). apply meets_pure; [split; simpl; lia|done|done|]. intros s Hs. by apply addBlob_min. Qed.

Lemma meets_then (f : chargeState → chargeState) g d e :
  meets (λ s, Some (f s)) d → meets g e → meets (λ s, g (f s)) (both d e).
Proof. intros Hf Hg. exact (meets_seq _ _ _ _ Hf Hg). Qed.

Lemma meets_items {A} (one : A → chargeState → option chargeState) (f : A → demand) (l : list A) :
  Forall (λ x, meets (one x) (f x)) l → meets (addItems one l) (all f l).
Proof.
  induction 1 as [|x l Hx Hl IH]; [apply meets_nothing|]. apply (meets_seq (one x) (addItems one l)); done.
Qed.

Lemma meets_texts (vs : list bytes) : meets (λ s, Some (addStrings vs s)) (texts vs).
Proof.
  unfold addStrings, texts. induction vs as [|v vs IH]; simpl; [apply meets_nothing|].
  exact (meets_then (addString v) _ _ _ (meets_text v) IH).
Qed.

(** A length limit refuses nothing that would fit. *)
Lemma meets_guard {A} (l : list A) f d :
  meets f d → (Z.of_nat (length l) <= dnodes d ∨ 32 * Z.of_nat (length l) <= dbytes d) →
  meets (λ s, if tooMany l then None else f s) d.
Proof.
  intros [Hp Hf] Hl. split; [done|]. intros s Hs. unfold tooMany. destruct (Z.ltb_spec maxMutationNodes (Z.of_nat (length l))) as [Ht|Ht].
  - intros (_ & Hn & Hb). unfold in_range in *. change maxMutationCharge with 1048576 in *. change maxMutationNodes with 65536 in *. lia.
  - by apply Hf.
Qed.

Lemma all_nodes {A} (f : A → demand) (l : list A) :
  (∀ x, x ∈ l → 1 <= dnodes (f x)) → Z.of_nat (length l) <= dnodes (all f l).
Proof.
  induction l as [|x l IH]; intros H; simpl; [lia|]. assert (1 <= dnodes (f x)) by (apply H; by left).
  specialize (IH (λ y Hy, H y ltac:(by right))). lia.
Qed.

Lemma all_bytes {A} (f : A → demand) (l : list A) :
  (∀ x, x ∈ l → 0 <= dbytes (f x)) → 0 <= dbytes (all f l).
Proof.
  induction l as [|x l IH]; intros H; simpl; [lia|]. assert (0 <= dbytes (f x)) by (apply H; by left).
  specialize (IH (λ y Hy, H y ltac:(by right))). lia.
Qed.

Lemma meets_node depth body d : meets body d → meets (addNode depth body) (node_demand depth d).
Proof.
  intros [[Hp1 Hp2] Hb]. split; [split; simpl; lia|]. intros s Hs. unfold addNode. simpl.
  destruct (Z.ltb_spec maxMutationNodes (cnodes s + 1)) as [|Hn]; simpl; [intros (_ & H1 & _); simpl in *; lia|].
  destruct (Z.ltb_spec maxMutationDepth depth) as [|Hd]; simpl.
  { intros (H1 & _). simpl in H1. apply andb_true_iff in H1 as [?%Z.leb_le _]. lia. }
  assert (in_range (mkCharge (cbytes s) (cnodes s + 1))) as Hs1 by (unfold in_range in *; simpl; lia).
  rewrite (addAmount_min 32 _ ltac:(lia) Hs1). simpl.
  set (s2 := mkCharge _ _). assert (in_range s2) as Hs2 by (subst s2; unfold in_range in *; simpl; lia).
  specialize (Hb s2 Hs2). apply Z.leb_le in Hd. destruct (body s2) as [s3|]; simpl.
  - destruct Hb as (Ho & Hn3 & Hm & Hb3). unfold checkCharge. destruct (_ || _) eqn:E.
    + intros (_ & _ & H1). simpl in *. unfold in_range in Hs. apply orb_true_iff in E as [?%Z.ltb_lt|?%Z.ltb_lt]; lia.
    + simpl in *. rewrite Hd, Ho. split; [done|]. unfold in_range in Hs. lia.
  - intros (H1 & H2 & H3). apply Hb. simpl in *. apply andb_true_iff in H1 as [_ H1]. unfold fits. simpl.
    split; [done|]. unfold in_range in Hs. lia.
Qed.

(** A value is at least one node. *)
Definition meets1 (f : chargeState → option chargeState) (d : demand) : Prop := meets f d ∧ 1 <= dnodes d.

Lemma meets1_node depth body d : meets body d → meets1 (addNode depth body) (node_demand depth d).
Proof. intros H. split; [by apply meets_node|]. destruct H as [[_ ?] _]. simpl. lia. Qed.

Lemma Forall_meets {A} (one : A → chargeState → option chargeState) f (l : list A) :
  Forall (λ x, meets1 (one x) (f x)) l → Forall (λ x, meets (one x) (f x)) l.
Proof. intros H. eapply Forall_impl; [exact H|]. by intros x [? _]. Qed.

Lemma Forall_nodes {A} (one : A → chargeState → option chargeState) f (l : list A) :
  Forall (λ x, meets1 (one x) (f x)) l → Z.of_nat (length l) <= dnodes (all f l).
Proof. intros H. apply all_nodes. intros x Hx. by apply (proj2 (proj1 (Forall_forall _ _) H x Hx)). Qed.

(** A bounded sequence of items after its own amount. *)
Lemma meets_sequence {A} (one : A → chargeState → option chargeState) f (l : list A) n :
  0 <= n → Forall (λ x, meets1 (one x) (f x)) l →
  meets (λ s, if tooMany l then None else addItems one l (addAmount n s)) (both (amount n) (all f l)).
Proof.
  intros Hn Hl. apply (meets_guard l (λ s, addItems one l (addAmount n s))).
  - apply (meets_then (addAmount n)); [by apply meets_amount|]. by apply meets_items, Forall_meets.
  - left. simpl. by apply (Forall_nodes one).
Qed.

Lemma meets_list f g items :
  Forall (λ v, meets1 (f v) (g v)) items → meets (addList f items) (list_demand g items).
Proof. intros H. apply meets_sequence; [lia|done]. Qed.

Lemma meets1_before (f : chargeState → chargeState) g d e :
  meets (λ s, Some (f s)) d → meets1 g e → meets1 (λ s, g (f s)) (both d e).
Proof. intros Hf [Hg H1]. split; [by apply meets_then|]. destruct Hf as [[_ ?] _]. simpl. lia. Qed.

Lemma meets_map f g entries :
  Forall (λ p, meets1 (f p.2) (g p.2)) entries → meets (addMap f entries) (map_demand g entries).
Proof.
  intros H. unfold addMap, map_demand. apply (meets_sequence (λ '(key, item) s, f item (addString key s))); [lia|].
  eapply Forall_impl; [exact H|]. intros [k v] Hv. simpl in *. by apply (meets1_before (addString k)); [apply meets_text|].
Qed.

Lemma meets1_after f (g : chargeState → option chargeState) d e :
  meets1 f d → meets g e → meets1 (λ s, f s ≫= g) (both d e).
Proof. intros [Hf H1] Hg. split; [by apply meets_seq|]. destruct Hg as [[_ ?] _]. simpl. lia. Qed.

Lemma meets_refs (refs : list bytes) :
  meets (λ s, if tooMany refs then None else Some (addStrings refs (addAmount (32 * Z.of_nat (length refs)) s)))
    (both (amount (32 * Z.of_nat (length refs))) (texts refs)).
Proof.
  apply (meets_guard refs (λ s, Some (addStrings refs (addAmount (32 * Z.of_nat (length refs)) s)))).
  - apply (meets_then (addAmount (32 * Z.of_nat (length refs))) (λ s, Some (addStrings refs s))); [apply meets_amount; lia|apply meets_texts].
  - right. simpl. assert (0 <= dbytes (texts refs)); [|lia]. apply all_bytes. intros x _. simpl. pose proof (len_nonneg x). lia.
Qed.

(** ** The walk meets the demand *)

Lemma meets_if {A} (l : list A) f g d e :
  meets (λ s, if tooMany l then None else f s) d → meets g e →
  meets (λ s, if tooMany l then None else f s ≫= g) (both d e).
Proof.
  intros Hf Hg. apply (meets_ext (λ s, (if tooMany l then None else f s) ≫= g)); [|by apply meets_seq].
  intros s. by destruct (tooMany l).
Qed.

Lemma meets_statement depth f g statement :
  Forall (λ v, meets1 (f v) (g v)) statement.1.2 → meets1 (addStatement depth f statement) (statement_demand depth g statement).
Proof.
  destruct statement as [[t args] refs]. simpl. intros H.
  apply (meets1_after (λ s, addNode depth (addList f args) (addString t s))); [|apply meets_refs].
  apply (meets1_before (addString t)); [apply meets_text|]. by apply meets1_node, meets_list.
Qed.

Lemma meets_event f g event : meets1 (f event.2) (g event.2) → meets1 (addEvent f event) (event_demand g event).
Proof.
  destruct event as [[stream kind] payload]. simpl. intros H.
  apply (meets1_before (addStrings [stream; kind])); [apply meets_texts|done].
Qed.

Lemma meets_pair (o : option (bytes * bytes)) :
  meets (λ s, Some (match o with Some (a, b) => addStrings [a; b] s | None => s end))
    (match o with Some (a, b) => texts [a; b] | None => nothing end).
Proof. destruct o as [[a b]|]; [apply meets_texts|apply meets_nothing]. Qed.

(** The walk over any value meets its demand. *)
Lemma add_meets : ∀ value depth, meets1 (add value depth) (demand_of value depth).
Proof.
  fix IH 1. intros value depth.
  destruct value as [|v|v|v|items|entries|rid sql args statements migration|rid cypher args events offset trim|
    rid op key v ex|rid topic payload|]; simpl; apply meets1_node.
  - apply meets_nothing.
  - apply meets_text.
  - apply meets_text.
  - apply meets_blob.
  - apply (meets_list (λ v, add v (depth + 1)) (λ v, demand_of v (depth + 1))).
    induction items as [|x l IHl]; constructor; [apply IH|apply IHl].
  - apply (meets_map (λ v, add v (depth + 1)) (λ v, demand_of v (depth + 1))).
    induction entries as [|[k x] l IHl]; constructor; [apply IH|apply IHl].
  - apply (meets_seq (λ s, addNode (depth + 1) (addList (λ v, add v (depth + 1 + 1)) args) (addStrings [rid; sql] s))).
    + apply (meets_then (addStrings [rid; sql])); [apply meets_texts|]. apply meets1_node, meets_list.
      induction args as [|x l IHl]; constructor; [apply IH|apply IHl].
    + apply meets_if; [|apply meets_pair]. apply meets_sequence; [lia|].
      induction statements as [|[[t sargs] refs] l IHl]; constructor; [|apply IHl].
      apply meets_statement. simpl. induction sargs as [|x k IHk]; constructor; [apply IH|apply IHk].
  - apply (meets_seq (λ s, addNode (depth + 1) (addMap (λ v, add v (depth + 1 + 1)) args) (addStrings [rid; cypher] s))).
    + apply (meets_then (addStrings [rid; cypher])); [apply meets_texts|]. apply meets1_node, meets_map.
      induction args as [|[k x] l IHl]; constructor; [apply IH|apply IHl].
    + apply meets_if; [apply meets_sequence; [lia|]|].
      * induction events as [|[[st k] x] l IHl]; constructor; [apply meets_event, IH|apply IHl].
      * apply (meets_then (λ s, match offset with Some (st, c) => addStrings [st; c] s | None => s end)
          (λ s, Some (match trim with Some st => addString st s | None => s end))); [apply meets_pair|].
        destruct trim; [apply meets_text|apply meets_nothing].
  - apply (meets_then (addStrings [rid; op; key]) (λ s, Some (addBlob ex (addBlob v s)))); [apply meets_texts|].
    apply (meets_then (addBlob v) (λ s, Some (addBlob ex s))); apply meets_blob.
  - apply (meets_then (addStrings [rid; topic]) (λ s, Some (addBlob payload s))); [apply meets_texts|apply meets_blob].
  - split; [split; simpl; lia|]. intros s _ (H & _). done.
Qed.

Lemma start_in_range : in_range (mkCharge 0 0).
Proof. by vm_compute. Qed.

(** The incremental, saturating charge of a request equals the sum over
    the whole value: a request is refused exactly when it holds a value of
    another type, nests deeper than 32, has more than 65536 nodes or costs
    more than 1 MiB, and otherwise the charge is that cost; no intermediate
    bound refuses anything else. *)
Theorem mutationCharge_exact value :
  let d := demand_of value 0 in
  mutationCharge value =
  if dok d && (dnodes d <=? maxMutationNodes) && (dbytes d <=? maxMutationCharge) then Some (dbytes d) else None.
Proof.
  cbv zeta. destruct (add_meets value 0) as [[[Hb Hn] Hm] _]. generalize dependent (demand_of value 0).
  intros d Hb Hn Hm. unfold mutationCharge.
  specialize (Hm _ start_in_range). unfold fits in Hm. cbn [cbytes cnodes] in Hm. rewrite !Z.add_0_l in Hm.
  destruct (add value 0 (mkCharge 0 0)) as [s|].
  - destruct Hm as (-> & E1 & E2 & E3). rewrite E1, E3. rewrite E1 in E2.
    apply Z.leb_le in E2 as E4. rewrite E4. apply Z.ltb_ge in E2. rewrite E2. cbn [andb orb].
    destruct (Z.leb_spec (dbytes d) maxMutationCharge) as [H|H].
    + rewrite Z.min_r by lia. apply Z.ltb_ge in H. by rewrite H.
    + rewrite Z.min_l by lia. by rewrite (proj2 (Z.ltb_lt _ _)) by lia.
  - destruct (dok d); [|done]. destruct (Z.leb_spec (dnodes d) maxMutationNodes); [|done].
    destruct (Z.leb_spec (dbytes d) maxMutationCharge); [|done]. by destruct Hm.
Qed.

(** ** Leases *)

(** Live leases: not yet in state 2. *)
Definition live (leases : list lease) : list lease := filter (λ l, owner l ≠ 2) leases.

Definition held_bytes (leases : list lease) : Z := foldr (λ l acc, charge l + acc) 0 (live leases).

Record admission_ok (s : admissionState) : Prop := {
  ao_count : count s = Z.of_nat (length (live (leases s)));
  ao_bytes : abytes s = held_bytes (leases s);
  ao_limit : count s <= maxAdmittedMutations ∧ abytes s <= maxAdmittedBytes;
  ao_owner l : l ∈ leases s → owner l = 0 ∨ owner l = 1 ∨ owner l = 2;
  ao_charge l : l ∈ leases s → 0 <= charge l;
}.

Lemma live_insert (ls : list lease) i l l' :
  ls !! i = Some l → owner l ≠ 2 → owner l' = 2 → charge l' = charge l →
  Z.of_nat (length (live (<[i := l']> ls))) = Z.of_nat (length (live ls)) - 1 ∧
  held_bytes (<[i := l']> ls) = held_bytes ls - charge l.
Proof.
  unfold held_bytes, live. intros Hi H1 H2 Hc. revert i Hi. induction ls as [|x ls IH]; intros [|i]; simpl; try done.
  - intros [= ->]. rewrite !filter_cons. rewrite decide_False by (intros ?; congruence). rewrite decide_True by done. simpl. lia.
  - intros Hi. destruct (IH i Hi) as [E1 E2]. rewrite !filter_cons. case_decide; simpl; lia.
Qed.

Lemma live_keep (ls : list lease) i l l' :
  ls !! i = Some l → owner l ≠ 2 → owner l' ≠ 2 → charge l' = charge l →
  length (live (<[i := l']> ls)) = length (live ls) ∧ held_bytes (<[i := l']> ls) = held_bytes ls.
Proof.
  unfold held_bytes, live. intros Hi H1 H2 Hc. revert i Hi. induction ls as [|x ls IH]; intros [|i]; simpl; try done.
  - intros [= ->]. rewrite !filter_cons, !decide_True by done. simpl. lia.
  - intros Hi. destruct (IH i Hi) as [E1 E2]. rewrite !filter_cons. case_decide; simpl; lia.
Qed.

Lemma live_snoc (ls : list lease) l :
  owner l ≠ 2 → Z.of_nat (length (live (ls ++ [l]))) = Z.of_nat (length (live ls)) + 1 ∧
  held_bytes (ls ++ [l]) = held_bytes ls + charge l.
Proof.
  unfold held_bytes, live. intros Hl. induction ls as [|x ls [E1 E2]].
  - simpl app. rewrite filter_cons_True, filter_nil by done. simpl. lia.
  - simpl app. rewrite !filter_cons. case_decide; simpl; lia.
Qed.

(** ** The transition system of admission *)

(** Concurrent callers and workers interleave these atomic operations. *)
Inductive admission_step (s : admissionState) : admissionState → Prop :=
| admission_admit c s' : 0 <= c → admitMutation c s = Ok s' → admission_step s s'
| admission_transfer i : admission_step s (transfer i s).2
| admission_caller i : admission_step s (releaseCaller i s)
| admission_worker i : admission_step s (releaseWorker i s).

Lemma cas_spec i from to s :
  (compareAndSwap i from to s = (false, s)) ∨
  ∃ l, leases s !! i = Some l ∧ owner l = from ∧
    compareAndSwap i from to s = (true, mkAdmission (count s) (abytes s) (<[i := mkLease to (charge l)]> (leases s))).
Proof.
  unfold compareAndSwap. destruct (leases s !! i) as [l|]; [|by left].
  destruct (Z.eqb_spec (owner l) from); [right; by exists l|by left].
Qed.

Lemma insert_lease_ok (ls : list lease) i l o :
  ls !! i = Some l → (o = 1 ∨ o = 2) → (∀ x, x ∈ ls → (owner x = 0 ∨ owner x = 1 ∨ owner x = 2) ∧ 0 <= charge x) →
  ∀ x, x ∈ <[i := mkLease o (charge l)]> ls → (owner x = 0 ∨ owner x = 1 ∨ owner x = 2) ∧ 0 <= charge x.
Proof.
  intros Hi Ho Hall x [j Hj]%list_elem_of_lookup. destruct (decide (i = j)) as [->|Hne].
  - rewrite list_lookup_insert_eq in Hj by (by eapply lookup_lt_Some). injection Hj as <-. simpl.
    split; [tauto|]. by apply (Hall l), list_elem_of_lookup_2 with j.
  - rewrite list_lookup_insert_ne in Hj by done. by apply Hall, list_elem_of_lookup_2 with j.
Qed.

Lemma release_ok from i s :
  admission_ok s → from = 0 ∨ from = 1 →
  admission_ok (let '(swapped, s1) := compareAndSwap i from 2 s in if swapped then release i s1 else s1).
Proof.
  intros Hok Hf. destruct (cas_spec i from 2 s) as [->|(l & Hl & Ho & ->)]; [done|].
  unfold release. cbn [leases]. rewrite list_lookup_insert_eq by (by eapply lookup_lt_Some). cbn [count abytes leases charge].
  destruct (live_insert (leases s) i l (mkLease 2 (charge l)) Hl ltac:(lia) eq_refl eq_refl) as [E1 E2].
  destruct Hok as [H1 H2 H3 H4 H5]. assert (0 <= charge l) as Hc by (by apply H5, list_elem_of_lookup_2 with i).
  pose proof (insert_lease_ok (leases s) i l 2 Hl ltac:(lia) (λ x Hx, conj (H4 x Hx) (H5 x Hx))) as Hins.
  split; simpl; [lia|lia|lia|intros x Hx; by apply Hins..].
Qed.

Lemma admission_step_ok s s' : admission_ok s → admission_step s s' → admission_ok s'.
Proof.
  intros Hok [c s1 Hc Ha|i|i|i].
  - unfold admitMutation in Ha. destruct (_ <? _); [done|]. destruct (_ || _) eqn:E; [done|]. apply Ok_inj in Ha as <-. bool_hyps.
    destruct Hok as [H1 H2 H3 H4 H5]. destruct (live_snoc (leases s) (mkLease 0 c)) as [E1 E2]; [done|].
    split; cbn [count abytes leases]; [lia|simpl in E2; lia|lia| |].
    + intros l [Hl| ->%list_elem_of_singleton]%elem_of_app; [by apply H4|by left].
    + intros l [Hl| ->%list_elem_of_singleton]%elem_of_app; [by apply H5|done].
  - unfold transfer. destruct (cas_spec i 0 1 s) as [->|(l & Hl & Ho & ->)]; [done|]. simpl.
    destruct (live_keep (leases s) i l (mkLease 1 (charge l)) Hl ltac:(lia) ltac:(done) eq_refl) as [E1 E2].
    destruct Hok as [H1 H2 H3 H4 H5].
    pose proof (insert_lease_ok (leases s) i l 1 Hl ltac:(lia) (λ x Hx, conj (H4 x Hx) (H5 x Hx))) as Hins.
    split; simpl; [lia|lia|lia|intros x Hx; by apply Hins..].
  - apply (release_ok 0); [done|by left].
  - apply (release_ok 1); [done|by right].
Qed.

(** Admission is balanced under every interleaving of admissions,
    transfers and releases by callers and workers: the counters are exactly
    the number and the total charge of the unreleased leases (each lease is
    released once at most), and stay within 128 mutations and 32 MiB. *)
Theorem admission_balanced s :
  rtc admission_step (mkAdmission 0 0 []) s →
  count s = Z.of_nat (length (live (leases s))) ∧ abytes s = held_bytes (leases s) ∧
  0 <= count s <= maxAdmittedMutations ∧ 0 <= abytes s <= maxAdmittedBytes.
Proof.
  intros Hsteps. assert (admission_ok s) as [H1 H2 H3 H4 H5].
  { assert (admission_ok (mkAdmission 0 0 [])) as Hok.
    { split; simpl; [done|done|split; [done|]|by intros l ?%elem_of_nil|by intros l ?%elem_of_nil]. by vm_compute. }
    revert Hok. induction Hsteps as [|x y z Hxy _ IH]; [done|]. intros Hok. apply IH. by apply (admission_step_ok x). }
  assert (0 <= held_bytes (leases s)); [|lia].
  unfold held_bytes, live. clear -H5. revert H5. generalize (leases s). intros ls.
  induction ls as [|x ls IH]; intros H5; simpl; [lia|]. rewrite filter_cons.
  assert (0 <= charge x) by (apply H5; by left). specialize (IH (λ l Hl, H5 l ltac:(by right))). case_decide; simpl; lia.
Qed.

Lemma admission_balanced_witness :
  count (mkAdmission 1 5 [mkLease 2 7; mkLease 1 5]) =
    Z.of_nat (length (live (leases (mkAdmission 1 5 [mkLease 2 7; mkLease 1 5])))) ∧
  abytes (mkAdmission 1 5 [mkLease 2 7; mkLease 1 5]) = held_bytes (leases (mkAdmission 1 5 [mkLease 2 7; mkLease 1 5])) ∧
  0 <= count (mkAdmission 1 5 [mkLease 2 7; mkLease 1 5]) <= maxAdmittedMutations ∧
  0 <= abytes (mkAdmission 1 5 [mkLease 2 7; mkLease 1 5]) <= maxAdmittedBytes.
Proof.
  apply (admission_balanced (mkAdmission 1 5 [mkLease 2 7; mkLease 1 5])).
  apply rtc_l with (mkAdmission 1 7 [mkLease 0 7]).
  { apply (admission_admit _ 7); [lia|]. vm_compute. reflexivity. }
  apply rtc_l with (mkAdmission 2 12 [mkLease 0 7; mkLease 0 5]).
  { apply (admission_admit _ 5); [lia|]. vm_compute. reflexivity. }
  apply rtc_l with (mkAdmission 2 12 [mkLease 0 7; mkLease 1 5]); [exact (admission_transfer _ 1)|].
  apply rtc_once. exact (admission_caller (mkAdmission 2 12 [mkLease 0 7; mkLease 1 5]) 0).
Defined.
