(* ===== verification/Batcher.v ===== *)
(** * Write batching (pkg/network/batcher.go)

    Requests are encoded, queued, collected into batches and proposed as one
    value each.  The callers of [submitEncoded], the collector goroutine [run]
    and the workers are steps that interleave freely: each step is one critical
    section of [budgetMu], one channel operation, or work on memory no other
    goroutine sees; [releaseInflight], which never blocks, gives the bytes and
    the slot back in one step.  Cancellation, time and the result of [propose] are chosen
    by the environment; the arrival rate and the linger it computes only decide
    when the collector stops waiting.  Every request brings a lease that it can
    hand over.  [apply] is nil in every batcher the
    server makes. *)

From stdpp Require Import gmap list.
From S2P Require Import Prelude Protocol Node.

Definition targetBatchBytes : Z := Z.shiftl 64 10.
Definition maxQueuedRequests : Z := 4096.
Definition maxQueuedEncodedBytes : Z := Z.shiftl 8 20.
Definition maxInflightBatches : Z := 8.
Definition maxInflightEncodedByte : Z := Z.shiftl 1 20.
Definition batchItemOverhead : Z := 128.
Definition maxMutationBatch : Z := 64.

(** ** Values of a batch (internal/types/value.go) *)

Fixpoint join_items (items : list bytes) : bytes :=
  match items with
  | [] => []
  | [item] => item
  | item :: rest => item ++ x2c :: join_items rest
  end.

Definition assembleBatch (magic : bytes) (items : list bytes) : bytes := magic ++ x5b :: join_items items ++ [x5d].

Definition BatchEncodedSize (magicBytes : Z) (items : list bytes) : Z :=
  magicBytes + 2 + foldr (λ item n, len item + n) 0 items + Z.max 0 (Z.of_nat (length items) - 1).

Definition sqlBatchMagic : bytes := [x51; x42; x41; x54; x07].
Definition graphBatchMagic : bytes := [x51; x47; x52; x42; x07].
Definition kvBatchMagic : bytes := [x51; x4b; x56; x42; x00].

(** The limits and the encoder of a batcher. *)
Record batcherConfig := mkBatcherConfig {
  baseSize : Z;
  valueLimit : Z;
  batchLimit : Z;
  assemble : list bytes → option bytes;
}.

Definition newMutationBatcher (assemble_ : list bytes → bytes) : batcherConfig :=
  mkBatcherConfig (len (assemble_ [])) MaxReplicatedValueBytes maxMutationBatch (λ items, Some (assemble_ items)).

Definition newSQLBatcher : batcherConfig := newMutationBatcher (assembleBatch sqlBatchMagic).
Definition newGraphBatcher : batcherConfig := newMutationBatcher (assembleBatch graphBatchMagic).
Definition newKVBatcher : batcherConfig := newMutationBatcher (assembleBatch kvBatchMagic).

Definition MaxManagedGraphExecutionBytes : Z := Z.shiftl 256 10.
Definition newManagedGraphBatcher : batcherConfig :=
  mkBatcherConfig 0 MaxManagedGraphExecutionBytes 1 (λ items, match items with [item] => Some item | _ => None end).

(** ** State *)

(** Submissions are numbered. *)
Record item := mkItem { itemID : nat; encoded : bytes }.

#[global] Instance item_eq_dec : EqDecision item.
Proof. solve_decision. Defined.

Definition reserved (it : item) : Z := len (encoded it) + batchItemOverhead.

Inductive batchError :=
| BInvalid
| BOverloaded
| BNotReady
| BCancelled
| BRefused
| BUnknown.

Inductive answer := BSlot (slot : Slot) | BFailed (e : batchError).

(** What [propose] returned: a slot, zero for none, and an error, [true] when
    it says that the value may still be decided. *)
Definition proposeResult : Type := Slot * option bool.

Record attempt := mkAttempt { attItems : list item; attValue : bytes; attResult : option proposeResult }.

(** Where [dispatch] is: filtering the batch, waiting for a slot of [inflight],
    reserving bytes, handing the job to a worker. *)
Inductive dispatching :=
| DCheck (items : list item)
| DToken (items : list item) (value : bytes)
| DBudget (items : list item) (value : bytes)
| DSend (items : list item) (value : bytes).

(** Where [run] is.  An item just received still has its queue reservation. *)
Inductive collector :=
| CNext (carry : option item)
| CFirst (it : item)
| CCollect (items : list item) (size : Z)
| CMore (items : list item) (size : Z) (it : item)
| CDispatch (carry : option item) (d : dispatching)
| CReject
| CRejecting (it : item)
| CDone.

(** A worker has received a job, is in [propose] for an attempt, has its
    result, has answered. *)
Inductive worker :=
| WIdle
| WJob (items : list item) (value : bytes)
| WPropose (k : nat) (items : list item) (value : bytes)
| WAnswer (items : list item) (value : bytes) (r : proposeResult)
| WRelease (value : bytes)
| WGone.

(** [sending]: callers between the reservation and the channel send;
    [answers]: what was sent to the result channels; [returned]: what callers
    returned; [held]: items whose lease the batcher owns. *)
Record batcher := mkBatcher {
  sending : list item;
  input : list item;
  queuedN : Z;
  queuedByte : Z;
  inflight : Z;
  inflightB : Z;
  collecting : collector;
  workers : list worker;
  answers : gmap nat answer;
  returned : gmap nat answer;
  held : gset nat;
  attempts : list attempt;
  nextID : nat;
  closed : bool;
}.

Definition newBatcher : batcher :=
  mkBatcher [] [] 0 0 0 0 (CNext None) (replicate 8 WIdle) ∅ ∅ ∅ [] 0 false.

(** ** Field updates *)

Definition set_sending (b : batcher) (s : list item) : batcher :=
  mkBatcher s (input b) (queuedN b) (queuedByte b) (inflight b) (inflightB b) (collecting b) (workers b) (answers b) (returned b)
    (held b) (attempts b) (nextID b) (closed b).
Definition set_input (b : batcher) (q : list item) : batcher :=
  mkBatcher (sending b) q (queuedN b) (queuedByte b) (inflight b) (inflightB b) (collecting b) (workers b) (answers b) (returned b)
    (held b) (attempts b) (nextID b) (closed b).
Definition set_queue (b : batcher) (n bytes_ : Z) : batcher :=
  mkBatcher (sending b) (input b) n bytes_ (inflight b) (inflightB b) (collecting b) (workers b) (answers b) (returned b)
    (held b) (attempts b) (nextID b) (closed b).
Definition set_inflight (b : batcher) (n bytes_ : Z) : batcher :=
  mkBatcher (sending b) (input b) (queuedN b) (queuedByte b) n bytes_ (collecting b) (workers b) (answers b) (returned b)
    (held b) (attempts b) (nextID b) (closed b).
Definition set_collecting (b : batcher) (c : collector) : batcher :=
  mkBatcher (sending b) (input b) (queuedN b) (queuedByte b) (inflight b) (inflightB b) c (workers b) (answers b) (returned b)
    (held b) (attempts b) (nextID b) (closed b).
Definition set_worker (b : batcher) (i : nat) (w : worker) : batcher :=
  mkBatcher (sending b) (input b) (queuedN b) (queuedByte b) (inflight b) (inflightB b) (collecting b) (<[i := w]> (workers b))
    (answers b) (returned b) (held b) (attempts b) (nextID b) (closed b).
Definition set_answers (b : batcher) (a : gmap nat answer) (h : gset nat) : batcher :=
  mkBatcher (sending b) (input b) (queuedN b) (queuedByte b) (inflight b) (inflightB b) (collecting b) (workers b) a (returned b)
    h (attempts b) (nextID b) (closed b).
Definition set_returned (b : batcher) (id : nat) (a : answer) : batcher :=
  mkBatcher (sending b) (input b) (queuedN b) (queuedByte b) (inflight b) (inflightB b) (collecting b) (workers b) (answers b)
    (<[id := a]> (returned b)) (held b) (attempts b) (nextID b) (closed b).
Definition set_attempts (b : batcher) (l : list attempt) : batcher :=
  mkBatcher (sending b) (input b) (queuedN b) (queuedByte b) (inflight b) (inflightB b) (collecting b) (workers b) (answers b) (returned b)
    (held b) l (nextID b) (closed b).
Definition close (b : batcher) : batcher :=
  mkBatcher (sending b) (input b) (queuedN b) (queuedByte b) (inflight b) (inflightB b) (collecting b) (workers b) (answers b) (returned b)
    (held b) (attempts b) (nextID b) true.

(** ** Budgets *)

Definition reserveQueue (size : Z) (b : batcher) : option batcher :=
  if (maxQueuedRequests <=? queuedN b) || (maxQueuedEncodedBytes - queuedByte b <? size) then None
  else Some (set_queue b (queuedN b + 1) (queuedByte b + size)).

Definition releaseQueue (size : Z) (b : batcher) : batcher := set_queue b (queuedN b - 1) (queuedByte b - size).

Definition releaseInflight (size : Z) (b : batcher) : batcher := set_inflight b (inflight b - 1) (inflightB b - size).

(** ** Answers *)

Definition releaseLease (id : nat) (b : batcher) : batcher := set_answers b (answers b) (held b ∖ {[id]}).

Definition finish (a : answer) (b : batcher) (it : item) : batcher :=
  set_answers b (<[itemID it := a]> (answers b)) (held b ∖ {[itemID it]}).

Definition fail (items : list item) (e : batchError) (b : batcher) : batcher := foldl (finish (BFailed e)) b items.

(** [commitUnknown] of the result of [propose]. *)
Definition commitUnknown (r : proposeResult) : answer :=
  match r with
  | (slot, None) => BSlot slot
  | (slot, Some unknown) => BFailed (if negb (slot =? 0) || unknown then BUnknown else BRefused)
  end.

(** ** Callers *)

Section batcher.
Context (c : batcherConfig).

(** [submitEncoded] up to the channel send. *)
Definition submitEncoded (enc : bytes) (b : batcher) : batcher :=
  let id := nextID b in
  let it := mkItem id enc in
  let b1 := mkBatcher (sending b) (input b) (queuedN b) (queuedByte b) (inflight b) (inflightB b) (collecting b) (workers b)
              (answers b) (returned b) (held b) (attempts b) (S id) (closed b) in
  if valueLimit c <? baseSize c + len enc then set_returned b1 id (BFailed BInvalid)
  else
    match reserveQueue (reserved it) b1 with
    | None => set_returned b1 id (BFailed BOverloaded)
    | Some b2 => set_answers (set_sending b2 (it :: sending b2)) (answers b2) ({[id]} ∪ held b2)
    end.

(** A caller that cannot send gives its reservation and its lease back. *)
Definition withdraw (it : item) (rest : list item) (e : batchError) (b : batcher) : batcher :=
  set_returned (releaseLease (itemID it) (releaseQueue (reserved it) (set_sending b rest))) (itemID it) (BFailed e).

(** ** The collector *)

(** Whether the loop looks for another item. *)
Definition wants_more (items : list item) (size : Z) : bool :=
  (Z.of_nat (length items) <? batchLimit c) && (size <? targetBatchBytes).

(** Adding the received item, or keeping it for the next batch. *)
Definition collect_item (items : list item) (size : Z) (it : item) : collector :=
  if valueLimit c <? size + 1 + len (encoded it) then CDispatch (Some it) (DCheck items)
  else CCollect (items ++ [it]) (size + 1 + len (encoded it)).

(** [dispatch] up to the wait for [inflight]. *)
Definition dispatch (cancelled : item → bool) (carry : option item) (items : list item) (b : batcher) : batcher :=
  let b1 := fail (filter (λ it, cancelled it = true) items) BCancelled b in
  let active := filter (λ it, cancelled it = false) items in
  if bool_decide (active = []) then set_collecting b1 (CNext carry)
  else
    match assemble c (encoded <$> active) with
    | None => set_collecting (fail active BInvalid b1) (CNext carry)
    | Some value =>
        if bool_decide (value = []) || (valueLimit c <? len value) then set_collecting (fail active BInvalid b1) (CNext carry)
        else set_collecting b1 (CDispatch carry (DToken active value))
    end.

(** With a slot of [inflight] in hand. *)
Definition dispatch_budget (carry : option item) (items : list item) (value : bytes) (b : batcher) : batcher :=
  if maxInflightEncodedByte - inflightB b <? len value
  then set_collecting (fail items BOverloaded (set_inflight b (inflight b - 1) (inflightB b))) (CNext carry)
  else set_collecting (set_inflight b (inflight b) (inflightB b + len value)) (CDispatch carry (DSend items value)).

(** ** Workers *)

Definition answer_all (items : list item) (r : proposeResult) (b : batcher) : batcher := foldl (finish (commitUnknown r)) b items.

(** ** Steps *)

(** What callers and [Close] do. *)
Inductive caller_step : batcher → batcher → Prop :=
| submit_step enc b : caller_step b (submitEncoded enc b)
| send_step pre it post b :
    sending b = pre ++ it :: post → Z.of_nat (length (input b)) < maxQueuedRequests →
    caller_step b (set_input (set_sending b (pre ++ post)) (input b ++ [it]))
| send_cancelled_step pre it post b : sending b = pre ++ it :: post → caller_step b (withdraw it (pre ++ post) BCancelled b)
| send_closed_step pre it post b : sending b = pre ++ it :: post → closed b = true → caller_step b (withdraw it (pre ++ post) BNotReady b)
| send_full_step pre it post b :
    sending b = pre ++ it :: post → maxQueuedRequests <= Z.of_nat (length (input b)) → caller_step b (withdraw it (pre ++ post) BOverloaded b)
| return_step id a b : answers b !! id = Some a → returned b !! id = None → caller_step b (set_returned b id a)
| return_unknown_step id b :
    returned b !! id = None → (id < nextID b)%nat → id ∉ (itemID <$> sending b) → caller_step b (set_returned b id (BFailed BUnknown))
| close_step b : caller_step b (close b).

(** What the collector and the workers do. *)
Inductive server_step : batcher → batcher → Prop :=
| carry_step it b : collecting b = CNext (Some it) → server_step b (set_collecting b (CCollect [it] (baseSize c + len (encoded it))))
| next_step it rest b : collecting b = CNext None → input b = it :: rest → server_step b (set_collecting (set_input b rest) (CFirst it))
| next_closed_step b : collecting b = CNext None → closed b = true → server_step b (set_collecting b CReject)
| first_step it b :
    collecting b = CFirst it → server_step b (set_collecting (releaseQueue (reserved it) b) (CCollect [it] (baseSize c + len (encoded it))))
| collect_step items size it rest b :
    collecting b = CCollect items size → wants_more items size = true → input b = it :: rest →
    server_step b (set_collecting (set_input b rest) (CMore items size it))
| more_step items size it b :
    collecting b = CMore items size it → server_step b (set_collecting (releaseQueue (reserved it) b) (collect_item items size it))
| stop_step items size b : collecting b = CCollect items size → server_step b (set_collecting b (CDispatch None (DCheck items)))
| collect_closed_step items size b :
    collecting b = CCollect items size → wants_more items size = true → closed b = true →
    server_step b (set_collecting (fail items BNotReady b) CReject)
| dispatch_step cancelled carry items b :
    collecting b = CDispatch carry (DCheck items) → server_step b (dispatch cancelled carry items b)
| token_step carry items value b :
    collecting b = CDispatch carry (DToken items value) → inflight b < maxInflightBatches →
    server_step b (set_collecting (set_inflight b (inflight b + 1) (inflightB b)) (CDispatch carry (DBudget items value)))
| budget_step carry items value b :
    collecting b = CDispatch carry (DBudget items value) → server_step b (dispatch_budget carry items value b)
| job_step carry items value i b :
    collecting b = CDispatch carry (DSend items value) → workers b !! i = Some WIdle →
    server_step b (set_worker (set_collecting b (CNext carry)) i (WJob items value))
| job_closed_step carry items value b :
    collecting b = CDispatch carry (DSend items value) → closed b = true →
    server_step b (set_collecting (fail items BNotReady (releaseInflight (len value) b)) (CNext carry))
| reject_step it rest b : collecting b = CReject → input b = it :: rest → server_step b (set_collecting (set_input b rest) (CRejecting it))
| rejected_step it b :
    collecting b = CRejecting it → server_step b (set_collecting (finish (BFailed BNotReady) (releaseQueue (reserved it) b) it) CReject)
| exit_step b : collecting b = CReject → input b = [] → server_step b (set_collecting b CDone)
| propose_step i items value b :
    workers b !! i = Some (WJob items value) →
    server_step b (set_worker (set_attempts b (attempts b ++ [mkAttempt items value None])) i (WPropose (length (attempts b)) items value))
| result_step i k items value r b :
    workers b !! i = Some (WPropose k items value) →
    server_step b (set_worker (set_attempts b (<[k := mkAttempt items value (Some r)]> (attempts b))) i (WAnswer items value r))
| answer_step i items value r b :
    workers b !! i = Some (WAnswer items value r) → server_step b (set_worker (answer_all items r b) i (WRelease value))
| release_step i value b :
    workers b !! i = Some (WRelease value) → server_step b (set_worker (releaseInflight (len value) b) i WIdle)
| worker_exit_step i b : workers b !! i = Some WIdle → collecting b = CDone → server_step b (set_worker b i WGone).

Definition step (b b' : batcher) : Prop := caller_step b b' ∨ server_step b b'.

Definition reachable : batcher → Prop := rtc step newBatcher.
End batcher.
