(* ===== verification/BatcherProofs.v ===== *)
(** * What the batcher promises its callers

    Every accepted request is answered at most once; an answer with a slot
    means its bytes were in the value decided there, and a plain error means
    they are in no value that may be decided.  Queue and in-flight budgets are
    exact, and every value a worker proposes is within the limits. *)

From stdpp Require Import gmap list relations.
From S2P Require Import Prelude Protocol Node Batcher.

(** ** Where an item is *)

Abbreviation ids l := (itemID <$> l).

Definition dispatch_items (d : dispatching) : list item :=
  match d with DCheck items | DToken items _ | DBudget items _ | DSend items _ => items end.

Definition collector_items (col : collector) : list item :=
  match col with
  | CNext carry => option_list carry
  | CFirst it | CRejecting it => [it]
  | CCollect items _ => items
  | CMore items _ it => items ++ [it]
  | CDispatch carry d => option_list carry ++ dispatch_items d
  | CReject | CDone => []
  end.

Definition job_items (w : worker) : list item := match w with WJob items _ => items | _ => [] end.
Definition started_items (w : worker) : list item :=
  match w with WPropose _ items _ | WAnswer items _ _ => items | _ => [] end.

(** Accepted and not handed to [propose] yet; handed to it and not answered. *)
Definition waiting (b : batcher) : list item :=
  sending b ++ input b ++ collector_items (collecting b) ++ mjoin (job_items <$> workers b).
Definition started (b : batcher) : list item := mjoin (started_items <$> workers b).

Lemma workers_split {A} (f : worker → list A) (l : list worker) i w0 :
  l !! i = Some w0 → ∃ rest, mjoin (f <$> l) ≡ₚ f w0 ++ rest ∧ ∀ w, mjoin (f <$> <[i := w]> l) ≡ₚ f w ++ rest.
Proof.
  intros Hi. exists (mjoin (f <$> take i l) ++ mjoin (f <$> drop (S i) l)).
  assert (∀ w, mjoin (f <$> <[i := w]> l) ≡ₚ f w ++ mjoin (f <$> take i l) ++ mjoin (f <$> drop (S i) l)) as H.
  { intros w. rewrite insert_take_drop by (by eapply lookup_lt_Some). rewrite fmap_app, fmap_cons, join_app. cbn.
    by rewrite Permutation_app_swap_app. }
  split; [|done]. rewrite <-(list_insert_id l i w0 Hi) at 1. apply H.
Qed.

(** ** The books *)

Definition in_attempts (atts : list attempt) (id : nat) : Prop := ∃ att, att ∈ atts ∧ id ∈ ids (attItems att).

(** What an answer says about the attempts. *)
Definition settled (atts : list attempt) (id : nat) (a : answer) : Prop :=
  match a with
  | BSlot slot => ∃ att, att ∈ atts ∧ id ∈ ids (attItems att) ∧ attResult att = Some (slot, None)
  | BFailed BUnknown => True
  | BFailed e => ∀ att, att ∈ atts → id ∈ ids (attItems att) → e = BRefused ∧ attResult att = Some (0, Some false)
  end.

Record books (W S : list item) (ans ret : gmap nat answer) (hd : gset nat) (atts : list attempt) (next : nat) : Prop := {
  bk_nodup : NoDup (ids (W ++ S));
  bk_open it : it ∈ W ++ S → (itemID it < next)%nat ∧ ans !! itemID it = None;
  bk_held id : id ∈ hd ↔ id ∈ ids (W ++ S);
  bk_answered id a : ans !! id = Some a → (id < next)%nat ∧ settled atts id a;
  bk_started att it : att ∈ atts → it ∈ attItems att → is_Some (ans !! itemID it) ∨ it ∈ S;
  bk_once k k' att att' id : atts !! k = Some att → atts !! k' = Some att' → id ∈ ids (attItems att) → id ∈ ids (attItems att') → k = k';
  bk_returned id a : ret !! id = Some a → (id < next)%nat ∧
    (a = BFailed BUnknown ∨ ans !! id = Some a ∨ ((∃ e, a = BFailed e) ∧ (id ∉ ids (W ++ S)) ∧ ans !! id = None ∧ (¬ in_attempts atts id)));
  bk_all id : (id < next)%nat → id ∈ ids (W ++ S) ∨ is_Some (ans !! id) ∨ is_Some (ret !! id);
}.

Lemma books_perm W W' S S' ans ret hd atts next :
  W ≡ₚ W' → S ≡ₚ S' → books W S ans ret hd atts next → books W' S' ans ret hd atts next.
Proof.
  intros HW HS [H1 H2 H3 H4 H5 H6 H7 H8].
  assert (∀ it, it ∈ W' ++ S' ↔ it ∈ W ++ S) as Hin by (intros it; by rewrite HW, HS).
  assert (∀ id, id ∈ ids (W' ++ S') ↔ id ∈ ids (W ++ S)) as Hid by (intros id; by rewrite HW, HS).
  split; try done.
  - by rewrite <-HW, <-HS.
  - intros it Hit%Hin. by apply H2.
  - intros id. by rewrite Hid.
  - intros att it Ha Hit. rewrite <-HS. by eapply H5.
  - intros id a Ha. destruct (H7 id a Ha) as [? Hc]. split; [done|]. by rewrite Hid.
  - intros id Hlt. rewrite Hid. by apply H8.
Qed.

(** Items that wait are in no attempt. *)
Lemma waiting_unstarted W S ans ret hd atts next it :
  books W S ans ret hd atts next → it ∈ W → ¬ in_attempts atts (itemID it).
Proof.
  intros [H1 H2 _ _ H5 _ _ _] Hit (att & Ha & (it' & Eid & Hit')%list_elem_of_fmap).
  destruct (H2 it) as [_ Hno]; [set_solver|]. destruct (H5 att it' Ha Hit') as [Hs|Hs]; [rewrite <-Eid, Hno in Hs; by destruct Hs|].
  rewrite fmap_app in H1. apply NoDup_app in H1 as (_ & Hd & _). apply (Hd (itemID it)).
  - by apply list_elem_of_fmap_2.
  - rewrite Eid. by apply list_elem_of_fmap_2.
Qed.

Lemma ids_app_not W S it : NoDup (ids ((it :: W) ++ S)) → itemID it ∉ ids (W ++ S).
Proof. cbn. by intros [? _]%NoDup_cons. Qed.

(** Acceptance, refusal, withdrawal, and the callers' returns. *)
Lemma books_accept W S ans ret hd atts next enc :
  books W S ans ret hd atts next → books (mkItem next enc :: W) S ans ret ({[next]} ∪ hd) atts (Datatypes.S next).
Proof.
  intros [H1 H2 H3 H4 H5 H6 H7 H8].
  assert (next ∉ ids (W ++ S)) as Hfresh by (intros (it & E & Hit)%list_elem_of_fmap; destruct (H2 it Hit); lia).
  split.
  - by constructor.
  - cbn [app]. intros it [->|Hit]%elem_of_cons; [|destruct (H2 it Hit); split; [lia|done]]. cbn. split; [lia|].
    apply eq_None_not_Some. intros [a Ha]. destruct (H4 _ _ Ha). lia.
  - intros id. change (ids ((mkItem next enc :: W) ++ S)) with (next :: ids (W ++ S)).
    by rewrite elem_of_union, elem_of_singleton, H3, elem_of_cons.
  - intros id a Ha. destruct (H4 id a Ha). split; [lia|done].
  - done.
  - done.
  - intros id a Ha. destruct (H7 id a Ha) as [? Hc]. split; [lia|]. destruct Hc as [?|[?|(? & Hn & ? & ?)]]; [by left|by right; left|].
    right; right. split_and!; [done| |done..]. change (id ∉ next :: ids (W ++ S)). rewrite elem_of_cons. intros [->|?]; [lia|done].
  - intros id Hid. change (ids ((mkItem next enc :: W) ++ S)) with (next :: ids (W ++ S)). rewrite elem_of_cons.
    destruct (decide (id = next)) as [->|]; [by left; left|]. destruct (H8 id) as [?|[?|?]]; [lia|auto..].
Qed.

Lemma books_refuse W S ans ret hd atts next e :
  books W S ans ret hd atts next → books W S ans (<[next := BFailed e]> ret) hd atts (Datatypes.S next).
Proof.
  intros [H1 H2 H3 H4 H5 H6 H7 H8].
  assert (next ∉ ids (W ++ S)) as Hfresh by (intros (it & E & Hit)%list_elem_of_fmap; destruct (H2 it Hit); lia).
  assert (ans !! next = None) as Hno by (apply eq_None_not_Some; intros [a Ha]; destruct (H4 _ _ Ha); lia).
  split; try done.
  - intros it Hit. destruct (H2 it Hit). split; [lia|done].
  - intros id a Ha. destruct (H4 id a Ha). split; [lia|done].
  - intros id a [[<- <-]|[_ Ha]]%lookup_insert_Some; [|destruct (H7 id a Ha) as [? Hc]; split; [lia|done]].
    split; [lia|]. right; right. split_and!; [by exists e|done|done|]. intros (att & Ha & (it & E & Hit)%list_elem_of_fmap).
    destruct (H5 att it Ha Hit) as [Hs|Hs]; [rewrite <-E, Hno in Hs; by destruct Hs|]. destruct (H2 it) as [? _]; [set_solver|]. lia.
  - intros id Hid. rewrite lookup_insert_is_Some'. destruct (decide (next = id)); [auto|]. destruct (H8 id) as [?|[?|?]]; [lia|auto..].
Qed.

Lemma books_withdraw W S ans ret hd atts next it e :
  books (it :: W) S ans ret hd atts next → books W S ans (<[itemID it := BFailed e]> ret) (hd ∖ {[itemID it]}) atts next.
Proof.
  intros Hb. pose proof (waiting_unstarted _ _ _ _ _ _ _ it Hb ltac:(by left)) as Hun. destruct Hb as [H1 H2 H3 H4 H5 H6 H7 H8].
  pose proof (ids_app_not _ _ _ H1) as Hni. destruct (H2 it) as [Hlt Hno]; [by left|]. split; try done.
  - cbn in H1. by apply NoDup_cons in H1 as [_ ?].
  - intros it' Hit'. apply H2. by right.
  - intros id. rewrite elem_of_difference, not_elem_of_singleton, H3. cbn. rewrite elem_of_cons. split; [intros [[?|?] ?]; done|].
    intros Hid. split; [by right|]. by intros ->.
  - intros id a [[<- <-]|[_ Ha]]%lookup_insert_Some; [split; [done|]; right; right; split_and!; [by exists e|done|done|done]|].
    destruct (H7 id a Ha) as [? Hc]. split; [done|]. destruct Hc as [?|[?|(? & Hn & ? & ?)]]; [by left|by right; left|right; right].
    split_and!; [done| |done..]. cbn in Hn. by apply not_elem_of_cons in Hn as [_ ?].
  - intros id Hid. rewrite lookup_insert_is_Some'. destruct (H8 id Hid) as [Hx|[?|?]]; [|auto..].
    change (ids ((it :: W) ++ S)) with (itemID it :: ids (W ++ S)) in Hx. apply elem_of_cons in Hx as [->|?]; auto.
Qed.

Lemma books_return W S ans ret hd atts next id a :
  books W S ans ret hd atts next → (id < next)%nat → a = BFailed BUnknown ∨ ans !! id = Some a →
  books W S ans (<[id := a]> ret) hd atts next.
Proof.
  intros [H1 H2 H3 H4 H5 H6 H7 H8] Hlt Ha. split; try done.
  2:{ intros id' Hid'. rewrite lookup_insert_is_Some'. destruct (H8 id' Hid') as [?|[?|?]]; auto. }
  intros id' a' [[<- <-]|[_ Hr]]%lookup_insert_Some; [|by apply H7]. split; [done|]. destruct Ha; auto.
Qed.

(** Answering a list of items. *)
Lemma books_settle W1 S1 W S xs a ans ans' ret hd hd' atts next :
  books W1 S1 ans ret hd atts next → W1 ++ S1 ≡ₚ xs ++ W ++ S → (∀ it, it ∈ S1 → it ∈ xs ∨ it ∈ S) →
  (∀ id, id ∈ ids xs → settled atts id a) →
  (∀ id, ans' !! id = if decide (id ∈ ids xs) then Some a else ans !! id) → (∀ id, id ∈ hd' ↔ id ∈ hd ∧ id ∉ ids xs) →
  books W S ans' ret hd' atts next.
Proof.
  intros [H1 H2 H3 H4 H5 H6 H7 H8] HP HS Ha Hans Hhd.
  assert (NoDup (ids (xs ++ W ++ S))) as Hnd by (by rewrite <-HP). rewrite fmap_app in Hnd. apply NoDup_app in Hnd as (_ & Hdis & Hnd).
  assert (∀ it, it ∈ W ++ S → it ∈ W1 ++ S1) as Hsub by (intros it Hit; rewrite HP; apply elem_of_app; by right).
  assert (∀ id, ans !! id ≠ None → ans' !! id = ans !! id) as Hold.
  { intros id Hid. rewrite Hans. destruct (decide (id ∈ ids xs)) as [(it & -> & Hit)%list_elem_of_fmap|]; [|done].
    destruct (H2 it) as [_ Hno]; [rewrite HP; apply elem_of_app; by left|done]. }
  split.
  - done.
  - intros it Hit. destruct (H2 it (Hsub it Hit)) as [? Hno]. split; [done|]. rewrite Hans. rewrite decide_False; [done|].
    intros Hx. apply (Hdis _ Hx). by apply list_elem_of_fmap_2.
  - intros id. rewrite Hhd, H3, HP, fmap_app, elem_of_app. split; [intros [[?|?] ?]; done|]. intros Hid. split; [by right|]. intros Hx. by apply (Hdis id Hx).
  - intros id a'. rewrite Hans. case_decide as Hx; [|by apply H4]. intros [= <-]. split; [|by apply Ha].
    apply list_elem_of_fmap in Hx as (it & -> & Hit). apply H2. rewrite HP. apply elem_of_app. by left.
  - intros att it Hatt Hit. destruct (H5 att it Hatt Hit) as [Hs|[Hs|Hs]%HS]; [left|left|by right].
    + rewrite Hold; [done|]. by intros E; rewrite E in Hs; destruct Hs.
    + rewrite Hans, decide_True by (by apply list_elem_of_fmap_2). by eexists.
  - done.
  - intros id a' Hr. destruct (H7 id a' Hr) as [? [?|[E|(? & Hn & E & ?)]]]; (split; [done|]); [by left|right; left; by rewrite Hold by (by rewrite E)|right; right].
    rewrite HP, fmap_app, not_elem_of_app in Hn. destruct Hn as [Hn1 Hn2]. split_and!; [done|done|by rewrite Hans, decide_False|done].
  - intros id Hid. destruct (H8 id Hid) as [Hx|[Hx|?]]; [|right; left; rewrite Hold; [done|by intros E; rewrite E in Hx; destruct Hx]|auto].
    rewrite HP, fmap_app, elem_of_app in Hx. destruct Hx as [Hx|?]; [|auto]. right; left. rewrite Hans, decide_True by done. by eexists.
Qed.

(** A job reaches [propose]. *)
Lemma books_start W S items value ans ret hd atts next :
  books (items ++ W) S ans ret hd atts next → books W (items ++ S) ans ret hd (atts ++ [mkAttempt items value None]) next.
Proof.
  intros Hb. assert (∀ it, it ∈ items → ¬ in_attempts atts (itemID it)) as Hun
    by (intros it Hit; apply (waiting_unstarted _ _ _ _ _ _ _ it Hb); apply elem_of_app; by left).
  destruct Hb as [H1 H2 H3 H4 H5 H6 H7 H8]. assert ((items ++ W) ++ S ≡ₚ W ++ items ++ S) as HP by (by rewrite <-!app_assoc, Permutation_app_swap_app).
  assert (∀ id, ans !! id ≠ None → id ∉ ids items) as Hans.
  { intros id Hid (it & -> & Hit)%list_elem_of_fmap. destruct (H2 it) as [_ ?]; [|done]. rewrite !elem_of_app. auto. }
  split.
  - by rewrite <-HP.
  - intros it. rewrite <-HP. apply H2.
  - intros id. by rewrite H3, HP.
  - intros id a Ha. destruct (H4 id a Ha) as [? Hs]. split; [done|]. assert (id ∉ ids items) as Hni by (apply Hans; by rewrite Ha).
    destruct a as [slot|e]; cbn in *.
    + destruct Hs as (att & Hatt & ?). exists att. split; [|done]. apply elem_of_app. by left.
    + destruct e; try done; intros att [Hatt| ->%list_elem_of_singleton]%elem_of_app Hid; try (by apply Hs); done.
  - intros att it [Hatt| ->%list_elem_of_singleton]%elem_of_app Hit.
    + destruct (H5 att it Hatt Hit); [by left|right]. apply elem_of_app. by right.
    + right. apply elem_of_app. by left.
  - intros k k' att att' id Hk Hk' Hid Hid'.
    assert (∀ k1 k2 a2, atts !! k1 = Some a2 → (atts ++ [mkAttempt items value None]) !! k2 = Some (mkAttempt items value None) →
      id ∈ ids (attItems a2) → id ∈ ids items → False) as Hclash.
    { intros k1 k2 a2 Hk1 _ Hi2 (it & -> & Hit)%list_elem_of_fmap. apply (Hun it Hit). exists a2. split; [by eapply list_elem_of_lookup_2|done]. }
    apply lookup_app_Some in Hk as Hk0. apply lookup_app_Some in Hk' as Hk0'.
    destruct Hk0 as [Hk0|[Hl E]], Hk0' as [Hk0'|[Hl' E']].
    + by eapply (H6 k k').
    + apply list_lookup_singleton_Some in E' as [E' <-]. exfalso. by eapply (Hclash k k').
    + apply list_lookup_singleton_Some in E as [E <-]. exfalso. by eapply (Hclash k' k).
    + apply list_lookup_singleton_Some in E as [E _], E' as [E' _]. lia.
  - intros id a Hr. destruct (H7 id a Hr) as [? [?|[?|(? & Hn & ? & Hni)]]]; (split; [done|]); [by left|by right; left|right; right].
    split_and!; [done|by rewrite <-HP|done|]. intros (att & [Hatt| ->%list_elem_of_singleton]%elem_of_app & Hid); [apply Hni; by exists att|].
    apply Hn. cbn in Hid. rewrite !fmap_app, !elem_of_app. auto.
  - intros id Hid. rewrite <-HP. by apply H8.
Qed.

(** [propose] returns. *)
Lemma books_result W S items value r k ans ret hd atts next :
  books W S ans ret hd atts next → atts !! k = Some (mkAttempt items value None) → (∀ it, it ∈ items → it ∈ S) →
  books W S ans ret hd (<[k := mkAttempt items value (Some r)]> atts) next.
Proof.
  intros [H1 H2 H3 H4 H5 H6 H7 H8] Hk HS. pose proof (lookup_lt_Some _ _ _ Hk) as Hlt.
  assert (∀ att, att ∈ <[k := mkAttempt items value (Some r)]> atts → att = mkAttempt items value (Some r) ∨ att ∈ atts) as Hin.
  { intros att [j Hj]%list_elem_of_lookup. apply list_lookup_insert_Some in Hj as [(_ & <- & _)|[_ Hj]]; [by left|right]. by eapply list_elem_of_lookup_2. }
  assert (∀ id a, ans !! id = Some a → id ∉ ids items) as Hans.
  { intros id a Ha (it & -> & Hit)%list_elem_of_fmap. destruct (H2 it) as [_ ?]; [apply elem_of_app; right; by apply HS|congruence]. }
  split; try done.
  - intros id a Ha. destruct (H4 id a Ha) as [? Hs]. split; [done|]. specialize (Hans id a Ha). destruct a as [slot|e]; cbn in *.
    + destruct Hs as (att & [j Hj]%list_elem_of_lookup & Hid & Hr). exists att. split; [|done]. apply list_elem_of_lookup_2 with j.
      rewrite list_lookup_insert_ne; [done|]. intros ->. by simplify_eq.
    + destruct e; try done; intros att [->|Hatt]%Hin Hid; try (by apply Hs); done.
  - intros att it [->|Hatt]%Hin Hit; [right; by apply HS|by eapply H5].
  - assert (∀ j att, <[k := mkAttempt items value (Some r)]> atts !! j = Some att → ∃ att0, atts !! j = Some att0 ∧ attItems att0 = attItems att) as Hlook.
    { intros j att [(<- & <- & _)|[_ Hj]]%list_lookup_insert_Some; [by eexists|by exists att]. }
    intros j j' att att' id (a0 & Hj & E)%Hlook (a0' & Hj' & E')%Hlook Hid Hid'. rewrite <-E in Hid. rewrite <-E' in Hid'. by eapply H6.
  - intros id a Hr. destruct (H7 id a Hr) as [? [?|[?|(? & Hn & ? & Hni)]]]; (split; [done|]); [by left|by right; left|right; right].
    split_and!; [done..|]. intros (att & [->|Hatt]%Hin & Hid); apply Hni; [|by exists att]. exists (mkAttempt items value None).
    split; [by eapply list_elem_of_lookup_2|done].
Qed.

(** ** Answering on the state *)

Lemma finish_all a xs b :
  ∃ ans hd, foldl (finish a) b xs = set_answers b ans hd ∧
    (∀ id, ans !! id = if decide (id ∈ ids xs) then Some a else answers b !! id) ∧ (∀ id, id ∈ hd ↔ id ∈ held b ∧ id ∉ ids xs).
Proof.
  revert b. induction xs as [|x xs IH]; intros b; cbn [foldl].
  - exists (answers b), (held b). split_and!; [by destruct b|done|]. intros id. set_solver.
  - destruct (IH (finish a b x)) as (ans & hd & -> & H1 & H2). exists ans, hd. split_and!; [done| |].
    + intros id. rewrite H1. cbn [answers finish set_answers]. cbn [fmap list_fmap]. destruct (decide (id ∈ ids xs)).
      * rewrite decide_True; [done|by right].
      * destruct (decide (id = itemID x)) as [->|Hne]; [rewrite lookup_insert_eq, decide_True; [done|by left]|].
        rewrite lookup_insert_ne, decide_False by (done || rewrite elem_of_cons; tauto). done.
    + intros id. rewrite H2. cbn [held finish set_answers]. cbn [fmap list_fmap]. rewrite elem_of_difference, elem_of_cons, elem_of_singleton. tauto.
Qed.

(** ** Budgets *)

Definition received (col : collector) : list item := match col with CFirst it | CMore _ _ it | CRejecting it => [it] | _ => [] end.

(** Items with a queue reservation; values with one of the in-flight bytes. *)
Definition queued (b : batcher) : list item := sending b ++ input b ++ received (collecting b).

Definition busy (w : worker) : list bytes :=
  match w with WJob _ value | WPropose _ _ value | WAnswer _ value _ | WRelease value => [value] | WIdle | WGone => [] end.
Definition dispatched (col : collector) : list bytes := match col with CDispatch _ (DSend _ value) => [value] | _ => [] end.
Definition flying (b : batcher) : list bytes := dispatched (collecting b) ++ mjoin (busy <$> workers b).
Definition token (col : collector) : Z := match col with CDispatch _ (DBudget _ _) => 1 | _ => 0 end.

Record budgets (b : batcher) : Prop := {
  bu_queuedN : queuedN b = Z.of_nat (length (queued b));
  bu_queuedByte : queuedByte b = total reserved (queued b);
  bu_inflight : inflight b = token (collecting b) + Z.of_nat (length (flying b));
  bu_inflightB : inflightB b = total len (flying b);
  bu_queue : queuedN b <= maxQueuedRequests ∧ queuedByte b <= maxQueuedEncodedBytes;
  bu_flight : inflight b <= maxInflightBatches ∧ inflightB b <= maxInflightEncodedByte;
}.

(** Steps that keep the reserved items and values, up to order. *)
Lemma budgets_same b b' :
  budgets b → queued b' ≡ₚ queued b → flying b' ≡ₚ flying b → token (collecting b') = token (collecting b) →
  queuedN b' = queuedN b → queuedByte b' = queuedByte b → inflight b' = inflight b → inflightB b' = inflightB b → budgets b'.
Proof.
  intros [H1 H2 H3 H4 H5 H6] HQ HF HT E1 E2 E3 E4. split; rewrite ?E1, ?E2, ?E3, ?E4; try done.
  - by rewrite HQ.
  - by rewrite HQ.
  - by rewrite HF, HT.
  - by rewrite HF.
Qed.

Lemma reserved_pos it : 0 < reserved it.
Proof. unfold reserved, len, batchItemOverhead. lia. Qed.

(** Steps that give one queue reservation back. *)
Lemma budgets_dequeue b b' it :
  budgets b → queued b ≡ₚ it :: queued b' → flying b' ≡ₚ flying b → token (collecting b') = token (collecting b) →
  queuedN b' = queuedN b - 1 → queuedByte b' = queuedByte b - reserved it → inflight b' = inflight b → inflightB b' = inflightB b → budgets b'.
Proof.
  intros [H1 H2 H3 H4 H5 H6] HQ HF HT E1 E2 E3 E4. rewrite HQ in H1, H2. pose proof (reserved_pos it).
  change (queuedByte b = reserved it + total reserved (queued b')) in H2. cbn [length] in H1.
  split; rewrite ?E1, ?E2, ?E3, ?E4; [lia|lia|by rewrite HF, HT|by rewrite HF|lia|done].
Qed.

Lemma withdraw_budgets it pre post e b : budgets b → sending b = pre ++ it :: post → budgets (withdraw it (pre ++ post) e b).
Proof.
  intros H Hs. apply (budgets_dequeue b _ it H); try done. unfold queued. simpl. rewrite Hs. by rewrite <-Permutation_middle.
Qed.

(** ** The invariant *)

Section batcher.
Context (c : batcherConfig).

(** A value that may be proposed. *)
Definition value_ok (items : list item) (value : bytes) : Prop :=
  assemble c (encoded <$> items) = Some value ∧ value ≠ [] ∧ len value <= valueLimit c ∧ Z.of_nat (length items) <= batchLimit c.

Definition collector_ok (col : collector) : Prop :=
  match col with
  | CCollect items _ | CMore items _ _ | CDispatch _ (DCheck items) => Z.of_nat (length items) <= batchLimit c
  | CDispatch _ (DToken items value) | CDispatch _ (DBudget items value) | CDispatch _ (DSend items value) => value_ok items value
  | _ => True
  end ∧ match col with CMore items _ _ => Z.of_nat (length items) < batchLimit c | _ => True end.

Definition worker_ok (atts : list attempt) (w : worker) : Prop :=
  match w with
  | WJob items value => value_ok items value
  | WPropose k items value => atts !! k = Some (mkAttempt items value None)
  | WAnswer items value r => mkAttempt items value (Some r) ∈ atts
  | _ => True
  end.

Record binv (b : batcher) : Prop := {
  bi_books : books (waiting b) (started b) (answers b) (returned b) (held b) (attempts b) (nextID b);
  bi_budgets : budgets b;
  bi_collector : collector_ok (collecting b);
  bi_workers i w : workers b !! i = Some w → worker_ok (attempts b) w;
  bi_distinct i j k items items' value value' :
    workers b !! i = Some (WPropose k items value) → workers b !! j = Some (WPropose k items' value') → i = j;
  bi_attempts att : att ∈ attempts b → value_ok (attItems att) (attValue att);
}.

(** Steps of the collector and the callers leave the workers alone. *)
Lemma binv_collector b b' :
  binv b → books (waiting b') (started b') (answers b') (returned b') (held b') (attempts b') (nextID b') → budgets b' →
  collector_ok (collecting b') → workers b' = workers b → attempts b' = attempts b → binv b'.
Proof.
  intros [H1 H2 H3 H4 H5 H6] Hb Hbu Hc Ew Ea.
  split; [done..|intros i w; rewrite Ew, Ea; apply H4|intros i j k items items' value value'; rewrite Ew; apply H5|intros att; rewrite Ea; apply H6].
Qed.

(** Moves that only permute the waiting items. *)
Lemma binv_move b b' :
  binv b → waiting b' ≡ₚ waiting b → budgets b' → collector_ok (collecting b') → workers b' = workers b →
  answers b' = answers b → returned b' = returned b → held b' = held b → attempts b' = attempts b → nextID b' = nextID b → binv b'.
Proof.
  intros H HW Hbu Hc Ew E1 E2 E3 E4 E5. apply (binv_collector b b' H); try done. unfold started. rewrite Ew, E1, E2, E3, E4, E5.
  eapply books_perm; [symmetry; exact HW|done|apply (bi_books _ H)].
Qed.

(** Waiting items that are answered with an error. *)
Lemma books_fail b xs W e :
  books (waiting b) (started b) (answers b) (returned b) (held b) (attempts b) (nextID b) → waiting b ≡ₚ xs ++ W →
  ∃ ans hd, fail xs e b = set_answers b ans hd ∧ books W (started b) ans (returned b) hd (attempts b) (nextID b).
Proof.
  intros Hb HW. destruct (finish_all (BFailed e) xs b) as (ans & hd & E & H1 & H2). exists ans, hd. split; [done|].
  apply (books_settle (waiting b) (started b) W (started b) xs (BFailed e) (answers b) ans (returned b) (held b) hd); try done.
  - by rewrite HW, app_assoc.
  - by right.
  - intros id (it & -> & Hit)%list_elem_of_fmap. assert (¬ in_attempts (attempts b) (itemID it)) as Hn.
    { apply (waiting_unstarted _ _ _ _ _ _ _ it Hb). rewrite HW. apply elem_of_app. by left. }
    destruct e; try done; intros att Hatt Hid; exfalso; apply Hn; by exists att.
Qed.

(** ** Callers *)

Lemma submit_inv enc b : binv b → binv (submitEncoded c enc b).
Proof.
  intros H. pose proof (bi_books _ H) as Hb. pose proof (bi_budgets _ H) as Hbu. unfold submitEncoded.
  destruct (_ <? _); [|unfold reserveQueue; simpl; destruct (_ || _) eqn:E]; apply (binv_collector b _ H); try done; simpl.
  - by apply books_refuse.
  - by apply (budgets_same b).
  - apply (bi_collector _ H).
  - by apply books_refuse.
  - by apply (budgets_same b).
  - apply (bi_collector _ H).
  - unfold waiting. simpl. by apply (books_accept _ _ _ _ _ _ _ enc).
  - apply orb_false_iff in E as [E1 E2]. apply Z.leb_gt in E1. apply Z.ltb_ge in E2. destruct Hbu as [B1 B2 B3 B4 B5 B6].
    split; simpl; [| |done|done|lia|done].
    + change (queuedN b + 1 = Z.of_nat (S (length (queued b)))). lia.
    + change (queuedByte b + reserved (mkItem (nextID b) enc) = reserved (mkItem (nextID b) enc) + total reserved (queued b)). lia.
  - apply (bi_collector _ H).
Qed.

Lemma send_inv pre it post b :
  binv b → sending b = pre ++ it :: post → binv (set_input (set_sending b (pre ++ post)) (input b ++ [it])).
Proof.
  intros H Hs. apply (binv_move b _ H); try done; simpl.
  - unfold waiting. simpl. rewrite Hs. solve_Permutation.
  - apply (budgets_same b); try done; [apply (bi_budgets _ H)|]. unfold queued. simpl. rewrite Hs. solve_Permutation.
  - apply (bi_collector _ H).
Qed.

Lemma withdraw_inv pre it post e b : binv b → sending b = pre ++ it :: post → binv (withdraw it (pre ++ post) e b).
Proof.
  intros H Hs. apply (binv_collector b _ H); try done; [|by apply withdraw_budgets, Hs; apply bi_budgets|apply (bi_collector _ H)].
  apply books_withdraw. eapply books_perm; [|done|apply (bi_books _ H)]. unfold waiting. simpl. rewrite Hs. solve_Permutation.
Qed.

Lemma return_inv id a b :
  binv b → (id < nextID b)%nat → a = BFailed BUnknown ∨ answers b !! id = Some a → binv (set_returned b id a).
Proof.
  intros H Hid Ha. apply (binv_collector b _ H); try done.
  - simpl. apply books_return; [apply (bi_books _ H)|done|done].
  - by apply (budgets_same b); [apply (bi_budgets _ H)|..].
  - apply (bi_collector _ H).
Qed.

(** ** The collector *)

Hypothesis Hlimit : 1 <= batchLimit c.

(** A received item gives its reservation back. *)
Lemma dequeue_inv b col it :
  binv b → received (collecting b) = [it] → received col = [] → collector_items col ≡ₚ collector_items (collecting b) →
  dispatched col = [] → dispatched (collecting b) = [] → token col = 0 → token (collecting b) = 0 → collector_ok col →
  binv (set_collecting (releaseQueue (reserved it) b) col).
Proof.
  intros H Hr Hr' Hi Hd Hd' Ht Ht' Hc. apply (binv_move b _ H); try done; simpl.
  - unfold waiting. simpl. by rewrite Hi.
  - apply (budgets_dequeue b _ it); try done; [apply (bi_budgets _ H)|..].
    + unfold queued. simpl. rewrite Hr, Hr'. solve_Permutation.
    + unfold flying. simpl. by rewrite Hd, Hd'.
    + simpl. congruence.
Qed.

(** Moves between stages that neither receive nor reserve. *)
Lemma collector_stage_inv b col :
  binv b → received col = received (collecting b) → collector_items col ≡ₚ collector_items (collecting b) →
  dispatched col = dispatched (collecting b) → token col = token (collecting b) → collector_ok col → binv (set_collecting b col).
Proof.
  intros H Hr Hi Hd Ht Hc. apply (binv_move b _ H); try done; simpl.
  - unfold waiting. simpl. by rewrite Hi.
  - apply (budgets_same b); try done; [apply (bi_budgets _ H)|..]; [unfold queued; simpl; by rewrite Hr|unfold flying; simpl; by rewrite Hd].
Qed.

(** Receiving from the queue. *)
Lemma receive_inv b col it rest :
  binv b → input b = it :: rest → received col = [it] → received (collecting b) = [] →
  collector_items col ≡ₚ collector_items (collecting b) ++ [it] → dispatched col = dispatched (collecting b) →
  token col = token (collecting b) → collector_ok col → binv (set_collecting (set_input b rest) col).
Proof.
  intros H Hin Hr Hr' Hi Hd Ht Hc. apply (binv_move b _ H); try done; simpl.
  - unfold waiting. simpl. rewrite Hi, Hin. solve_Permutation.
  - apply (budgets_same b); try done; [apply (bi_budgets _ H)|..]; [|unfold flying; simpl; by rewrite Hd].
    unfold queued. simpl. rewrite Hr, Hr', Hin. solve_Permutation.
Qed.

(** Failing items the collector holds. *)
Lemma fail_inv b xs e col :
  binv b → collector_items (collecting b) ≡ₚ xs ++ collector_items col → received col = received (collecting b) →
  dispatched col = dispatched (collecting b) → token col = token (collecting b) → collector_ok col →
  binv (set_collecting (fail xs e b) col).
Proof.
  intros H Hi Hr Hd Ht Hc.
  destruct (books_fail b xs (sending b ++ input b ++ collector_items col ++ mjoin (job_items <$> workers b)) e (bi_books _ H)) as (ans & hd & -> & Hb).
  { unfold waiting. rewrite Hi. solve_Permutation. }
  apply (binv_collector b _ H); try done; simpl.
  apply (budgets_same b); try done; [apply (bi_budgets _ H)|..]; [unfold queued; simpl; by rewrite Hr|unfold flying; simpl; by rewrite Hd].
Qed.

Lemma filter_split {A} (f : A → bool) (l : list A) : l ≡ₚ filter (λ x, f x = true) l ++ filter (λ x, f x = false) l.
Proof.
  induction l as [|x l IH]; [done|]. rewrite !filter_cons. destruct (f x) eqn:E.
  - rewrite decide_True, decide_False by done. cbn. by rewrite <-IH.
  - rewrite decide_False, decide_True by done. by rewrite <-Permutation_middle, <-IH.
Qed.

Lemma fail_collecting xs e b col : fail xs e (set_collecting b col) = set_collecting (fail xs e b) col.
Proof. unfold fail. revert b. induction xs as [|x xs IH]; intros b; [done|]. cbn [foldl]. by rewrite <-IH. Qed.

Lemma fail_inflight xs e b n m : fail xs e (set_inflight b n m) = set_inflight (fail xs e b) n m.
Proof. unfold fail. revert b. induction xs as [|x xs IH]; intros b; [done|]. cbn [foldl]. by rewrite <-IH. Qed.

Lemma dispatch_inv cancelled carry items b :
  binv b → collecting b = CDispatch carry (DCheck items) → binv (dispatch c cancelled carry items b).
Proof.
  intros H Hc. set (gone := filter (λ it, cancelled it = true) items). set (active := filter (λ it, cancelled it = false) items).
  assert (items ≡ₚ gone ++ active) as Hsplit by apply filter_split.
  pose proof (bi_collector _ H) as Hok. rewrite Hc in Hok. destruct Hok as [Hlen _]. cbn in Hlen.
  assert (Z.of_nat (length active) <= batchLimit c) as Hlen'.
  { assert (length active <= length items)%nat as Hle; [|lia]. rewrite Hsplit, length_app. lia. }
  assert (∀ col, collector_items col ≡ₚ option_list carry ++ active → received col = [] → dispatched col = [] → token col = 0 →
    collector_ok col → binv (set_collecting (fail gone BCancelled b) col)) as H1.
  { intros col E1 E2 E3 E4 E5. apply fail_inv; rewrite ?Hc; try done. cbn. rewrite E1, Hsplit. solve_Permutation. }
  assert (∀ e, binv (set_collecting (fail active e (fail gone BCancelled b)) (CNext carry))) as H2.
  { intros e. pose proof (H1 (CDispatch carry (DCheck active)) ltac:(done) eq_refl eq_refl eq_refl (conj Hlen' I)) as Hi.
    pose proof (fail_inv _ active e (CNext carry) Hi) as Hf. rewrite fail_collecting in Hf. apply Hf; try done; simpl. solve_Permutation. }
  unfold dispatch. fold gone active. case_bool_decide as Ha; [apply H1; try done; rewrite Ha; by rewrite app_nil_r|].
  destruct (assemble c (encoded <$> active)) as [value|] eqn:Ea; [|apply H2].
  case_bool_decide as Hv; [apply H2|]. destruct (Z.ltb_spec (valueLimit c) (len value)); [apply H2|].
  by apply H1.
Qed.

Lemma budget_inv carry items value b :
  binv b → collecting b = CDispatch carry (DBudget items value) → binv (dispatch_budget carry items value b).
Proof.
  intros H Hc. pose proof (bi_collector _ H) as [Hok _]. rewrite Hc in Hok. pose proof (bi_budgets _ H) as [B1 B2 B3 B4 B5 B6].
  rewrite Hc in B3. cbn in B3. unfold flying in B3, B4. rewrite Hc in B3, B4. cbn [dispatched app] in B3, B4.
  unfold dispatch_budget. destruct (Z.ltb_spec (maxInflightEncodedByte - inflightB b) (len value)) as [Hlt|Hle].
  - destruct (books_fail b items (sending b ++ input b ++ option_list carry ++ mjoin (job_items <$> workers b)) BOverloaded (bi_books _ H))
      as (ans & hd & E & Hb); [unfold waiting; rewrite Hc; simpl; solve_Permutation|].
    rewrite fail_inflight, E. apply (binv_collector b _ H); try done; simpl. split; simpl; try done.
    + unfold queued. simpl. unfold queued in B1. by rewrite Hc in B1.
    + unfold queued. simpl. unfold queued in B2. by rewrite Hc in B2.
    + unfold flying. simpl. lia.
    + lia.
  - apply (binv_move b _ H); try done; simpl.
    + unfold waiting. simpl. by rewrite Hc.
    + split; simpl; try done.
      * unfold queued. simpl. unfold queued in B1. by rewrite Hc in B1.
      * unfold queued. simpl. unfold queued in B2. by rewrite Hc in B2.
      * unfold flying. simpl. lia.
      * unfold flying. simpl. fold (total (@len byte)). lia.
      * lia.
Qed.

Lemma token_inv carry items value b :
  binv b → collecting b = CDispatch carry (DToken items value) → inflight b < maxInflightBatches →
  binv (set_collecting (set_inflight b (inflight b + 1) (inflightB b)) (CDispatch carry (DBudget items value))).
Proof.
  intros H Hc Hlt. pose proof (bi_collector _ H) as [Hok _]. rewrite Hc in Hok. pose proof (bi_budgets _ H) as [B1 B2 B3 B4 B5 B6].
  apply (binv_move b _ H); try done; simpl.
  - unfold waiting. simpl. by rewrite Hc.
  - unfold queued, flying in B1, B2, B3, B4. rewrite Hc in B1, B2, B3, B4. cbn [received token dispatched app] in B1, B2, B3, B4.
    split; unfold queued, flying; cbn [queuedN queuedByte inflight inflightB collecting set_collecting set_inflight sending input workers
      received token dispatched app]; try done; lia.
Qed.

(** ** Workers *)

(** A worker changes stage: what it holds and what it has in flight. *)
Lemma worker_inv b i w w' b' :
  binv b → workers b !! i = Some w → workers b' = <[i := w']> (workers b) → collecting b' = collecting b →
  books (waiting b') (started b') (answers b') (returned b') (held b') (attempts b') (nextID b') → budgets b' →
  worker_ok (attempts b') w' → (∀ j x, j ≠ i → workers b !! j = Some x → worker_ok (attempts b') x) →
  (∀ k items value, w' = WPropose k items value → ∀ j items' value', j ≠ i → workers b !! j ≠ Some (WPropose k items' value')) →
  (∀ att, att ∈ attempts b' → value_ok (attItems att) (attValue att)) → binv b'.
Proof.
  intros [H1 H2 H3 H4 H5 H6] Hw Ew Ec Hb Hbu Hok Hother Hd Hatt. split; try done.
  - by rewrite Ec.
  - intros j x. rewrite Ew. intros [(<- & <- & _)|[Hne Hx]]%list_lookup_insert_Some; [done|]. by apply (Hother j).
  - intros j j' k items items' value value'. rewrite Ew.
    intros [(<- & E & _)|[Hne Hx]]%list_lookup_insert_Some [(<- & E' & _)|[Hne' Hx']]%list_lookup_insert_Some.
    + done.
    + exfalso. by eapply (Hd k items value E j').
    + exfalso. by eapply (Hd k items' value' E' j).
    + by eapply H5.
Qed.

(** Moves that keep what a worker has in flight. *)
Lemma worker_budgets b b' i w w' :
  budgets b → workers b !! i = Some w → workers b' = <[i := w']> (workers b) → busy w' = busy w → collecting b' = collecting b →
  sending b' = sending b → input b' = input b → queuedN b' = queuedN b → queuedByte b' = queuedByte b → inflight b' = inflight b →
  inflightB b' = inflightB b → budgets b'.
Proof.
  intros H Hw Ew Eb Ec E1 E2 E3 E4 E5 E6. destruct (workers_split busy _ i w Hw) as (rest & P1 & P2).
  apply (budgets_same b); try done; [unfold queued; by rewrite E1, E2, Ec|unfold flying; by rewrite Ew, Ec, P1, P2, Eb|by rewrite Ec].
Qed.

Lemma job_inv carry items value i b :
  binv b → collecting b = CDispatch carry (DSend items value) → workers b !! i = Some WIdle →
  binv (set_worker (set_collecting b (CNext carry)) i (WJob items value)).
Proof.
  intros H Hc Hw. pose proof (bi_collector _ H) as [Hok _]. rewrite Hc in Hok. pose proof (bi_budgets _ H) as Hbu.
  destruct (workers_split job_items _ i WIdle Hw) as (r1 & P1 & P2), (workers_split started_items _ i WIdle Hw) as (r2 & P3 & P4),
    (workers_split busy _ i WIdle Hw) as (r3 & P5 & P6). destruct H as [H1 H2 H3 H4 H5 H6]. split; simpl; try done.
  - eapply books_perm; [| |exact H1].
    + unfold waiting. simpl. rewrite Hc, P1, P2. simpl. solve_Permutation.
    + unfold started. simpl. by rewrite P3, P4.
  - apply (budgets_same b); try done; [unfold queued; simpl; by rewrite Hc| |simpl; by rewrite Hc].
    unfold flying. simpl. rewrite Hc, P5, P6. simpl. solve_Permutation.
  - intros j x [(<- & <- & _)|[Hne Hx]]%list_lookup_insert_Some; [done|by apply (H4 j)].
  - intros j j' k it it' v v' [(_ & ? & _)|[_ Hx]]%list_lookup_insert_Some [(_ & ? & _)|[_ Hx']]%list_lookup_insert_Some; try done. by eapply H5.
Qed.

Lemma job_closed_inv carry items value b :
  binv b → collecting b = CDispatch carry (DSend items value) →
  binv (set_collecting (fail items BNotReady (releaseInflight (len value) b)) (CNext carry)).
Proof.
  intros H Hc. pose proof (bi_budgets _ H) as [B1 B2 B3 B4 B5 B6].
  destruct (books_fail b items (sending b ++ input b ++ option_list carry ++ mjoin (job_items <$> workers b)) BNotReady (bi_books _ H))
    as (ans & hd & E & Hb); [unfold waiting; rewrite Hc; simpl; solve_Permutation|].
  unfold releaseInflight. rewrite fail_inflight, E. unfold queued, flying in B1, B2, B3, B4. rewrite Hc in B1, B2, B3, B4.
  cbn [received token dispatched app] in B1, B2, B3, B4. change (inflightB b = len value + total len (mjoin (busy <$> workers b))) in B4. cbn [length] in B3.
  apply (binv_collector b _ H); try done; simpl. unfold len in B4.
  split; unfold queued, flying; cbn [queuedN queuedByte inflight inflightB collecting set_collecting set_inflight set_answers sending input workers
    received token dispatched app]; try done; unfold len; lia.
Qed.

Lemma propose_inv i items value b :
  binv b → workers b !! i = Some (WJob items value) →
  binv (set_worker (set_attempts b (attempts b ++ [mkAttempt items value None])) i (WPropose (length (attempts b)) items value)).
Proof.
  intros H Hw. pose proof (bi_workers _ H i _ Hw) as Hv. cbn in Hv.
  destruct (workers_split job_items _ i _ Hw) as (r1 & P1 & P2), (workers_split started_items _ i _ Hw) as (r2 & P3 & P4).
  apply (worker_inv b i (WJob items value) (WPropose (length (attempts b)) items value)); try done; simpl.
  - eapply books_perm; [| |apply (books_start (sending b ++ input b ++ collector_items (collecting b) ++ r1) r2 items value)].
    + unfold waiting. simpl. by rewrite P2.
    + unfold started. simpl. by rewrite P4.
    + eapply books_perm; [| |apply (bi_books _ H)]; [unfold waiting; rewrite P1; simpl; solve_Permutation|unfold started; by rewrite P3].
  - by apply (worker_budgets b _ i (WJob items value) (WPropose (length (attempts b)) items value)); [apply (bi_budgets _ H)|..].
  - by rewrite lookup_app_r, Nat.sub_diag.
  - intros j x Hne Hx. pose proof (bi_workers _ H j x Hx) as Hok. destruct x; cbn in *; try done.
    + by apply lookup_app_l_Some.
    + apply elem_of_app. by left.
  - intros k it v [= <- <- <-] j it' v' Hne Hx. pose proof (bi_workers _ H j _ Hx) as Hk. cbn in Hk. apply lookup_lt_Some in Hk. lia.
  - intros att [Hatt| ->%list_elem_of_singleton]%elem_of_app; [by apply (bi_attempts _ H)|done].
Qed.

Lemma result_inv i k items value r b :
  binv b → workers b !! i = Some (WPropose k items value) →
  binv (set_worker (set_attempts b (<[k := mkAttempt items value (Some r)]> (attempts b))) i (WAnswer items value r)).
Proof.
  intros H Hw. pose proof (bi_workers _ H i _ Hw) as Hk. cbn in Hk. pose proof (lookup_lt_Some _ _ _ Hk) as Hlt.
  destruct (workers_split job_items _ i _ Hw) as (r1 & P1 & P2), (workers_split started_items _ i _ Hw) as (r2 & P3 & P4).
  apply (worker_inv b i (WPropose k items value) (WAnswer items value r)); try done; simpl.
  - apply books_result; [|done|].
    + eapply books_perm; [| |apply (bi_books _ H)]; [unfold waiting; simpl; by rewrite P1, P2|unfold started; simpl; by rewrite P3, P4].
    + intros it Hit. unfold started. simpl. rewrite P4. apply elem_of_app. by left.
  - by apply (worker_budgets b _ i (WPropose k items value) (WAnswer items value r)); [apply (bi_budgets _ H)|..].
  - apply list_elem_of_lookup. exists k. by rewrite list_lookup_insert_eq.
  - intros j x Hne Hx. pose proof (bi_workers _ H j x Hx) as Hok. destruct x as [|? ?|k' it' v'|it' v' r'|?|]; cbn in *; try done.
    + rewrite list_lookup_insert_ne; [done|]. intros <-. apply Hne. by eapply (bi_distinct _ H).
    + apply list_elem_of_lookup in Hok as [k' Hk']. apply list_elem_of_lookup. exists k'. rewrite list_lookup_insert_ne; [done|].
      intros <-. by simplify_eq.
  - intros att [j Hj]%list_elem_of_lookup. apply list_lookup_insert_Some in Hj as [(_ & <- & _)|[_ Hj]].
    + by apply (bi_attempts _ H (mkAttempt items value None)), (list_elem_of_lookup_2 _ k).
    + by apply (bi_attempts _ H), (list_elem_of_lookup_2 _ j).
Qed.

Lemma answer_inv i items value r b :
  binv b → workers b !! i = Some (WAnswer items value r) → binv (set_worker (answer_all items r b) i (WRelease value)).
Proof.
  intros H Hw. pose proof (bi_workers _ H i _ Hw) as Hatt. cbn in Hatt. pose proof (bi_books _ H) as Hb.
  destruct (workers_split job_items _ i _ Hw) as (r1 & P1 & P2), (workers_split started_items _ i _ Hw) as (r2 & P3 & P4).
  unfold answer_all. destruct (finish_all (commitUnknown r) items b) as (ans & hd & -> & E1 & E2).
  apply (worker_inv b i (WAnswer items value r) (WRelease value)); try done; simpl.
  - apply (books_settle (waiting b) (started b) _ _ items (commitUnknown r) (answers b) ans (returned b) (held b) hd); try done.
    + unfold waiting, started. simpl. rewrite P1, P2, P3, P4. simpl. solve_Permutation.
    + intros it. unfold started. simpl. rewrite P3, P4. simpl. by intros [?|?]%elem_of_app; [left|right].
    + intros id Hid. apply list_elem_of_lookup in Hatt as [k Hk]. destruct r as [slot [unknown|]]; cbn.
      * destruct (Z.eqb_spec slot 0) as [->|]; cbn; [|done]. destruct unknown; [done|].
        intros att' [k' Hk']%list_elem_of_lookup Hid'. assert (k = k') as <- by (by eapply (bk_once _ _ _ _ _ _ _ Hb)). by simplify_eq.
      * exists (mkAttempt items value (Some (slot, None))). split; [by eapply list_elem_of_lookup_2|done].
  - by apply (worker_budgets b _ i (WAnswer items value r) (WRelease value)); [apply (bi_budgets _ H)|..].
  - intros j x _ Hx. by apply (bi_workers _ H j).
  - apply (bi_attempts _ H).
Qed.

Lemma release_inv i value b :
  binv b → workers b !! i = Some (WRelease value) → binv (set_worker (releaseInflight (len value) b) i WIdle).
Proof.
  intros H Hw. pose proof (bi_budgets _ H) as [B1 B2 B3 B4 B5 B6].
  destruct (workers_split job_items _ i _ Hw) as (r1 & P1 & P2), (workers_split started_items _ i _ Hw) as (r2 & P3 & P4),
    (workers_split busy _ i _ Hw) as (r3 & P5 & P6).
  apply (worker_inv b i (WRelease value) WIdle); try done; simpl.
  - eapply books_perm; [| |apply (bi_books _ H)]; [unfold waiting; simpl; by rewrite P1, P2|unfold started; simpl; by rewrite P3, P4].
  - unfold flying in B3, B4. rewrite P5, length_app in B3. rewrite P5, !total_app in B4. cbn [busy length] in B3. rewrite length_app in B3. cbn [length] in B3.
    change (total len (busy (WRelease value))) with (len value + 0) in B4. assert (0 <= len value) by (unfold len; lia).
    split; unfold queued, flying; cbn [queuedN queuedByte inflight inflightB collecting set_worker releaseInflight set_inflight sending input workers]; try done.
    + rewrite P6, length_app. cbn [busy app]. lia.
    + rewrite P6, total_app. cbn [busy app]. lia.
    + lia.
  - intros j x _ Hx. by apply (bi_workers _ H j).
  - apply (bi_attempts _ H).
Qed.

Lemma rejected_inv it b :
  binv b → collecting b = CRejecting it → binv (set_collecting (finish (BFailed BNotReady) (releaseQueue (reserved it) b) it) CReject).
Proof.
  intros H Hc. pose proof (dequeue_inv b (CNext (Some it)) it H) as H1. rewrite Hc in H1.
  specialize (H1 eq_refl eq_refl ltac:(done) eq_refl eq_refl eq_refl eq_refl (conj I I)).
  pose proof (fail_inv _ [it] BNotReady CReject H1) as H2. rewrite fail_collecting in H2. by apply H2.
Qed.

Lemma exit_inv i b : binv b → workers b !! i = Some WIdle → binv (set_worker b i WGone).
Proof.
  intros H Hw. destruct (workers_split job_items _ i _ Hw) as (r1 & P1 & P2), (workers_split started_items _ i _ Hw) as (r2 & P3 & P4).
  apply (worker_inv b i WIdle WGone); try done; simpl.
  - eapply books_perm; [| |apply (bi_books _ H)]; [unfold waiting; simpl; by rewrite P1, P2|unfold started; simpl; by rewrite P3, P4].
  - by apply (worker_budgets b _ i WIdle WGone); [apply (bi_budgets _ H)|..].
  - intros j x _ Hx. by apply (bi_workers _ H j).
  - apply (bi_attempts _ H).
Qed.

(** ** Runs *)

Lemma server_step_inv b b' : binv b → server_step c b b' → binv b'.
Proof.
  intros H Hs. revert H. destruct Hs as [it b Hc|it rest b Hc Hin|b Hc Hcl|it b Hc|items size it rest b Hc Hm Hin|items size it b Hc|items size b Hc|
    items size b Hc Hm Hcl|cancelled carry items b Hc|carry items value b Hc Hlt|carry items value b Hc|carry items value i b Hc Hw|
    carry items value b Hc Hcl|it rest b Hc Hin|it b Hc|b Hc Hin|i items value b Hw|i k items value r b Hw|i items value r b Hw|i value b Hw|i b Hw Hc];
    intros H; pose proof (bi_collector _ H) as Hok; try rewrite Hc in Hok.
  - apply collector_stage_inv; rewrite ?Hc; done.
  - apply (receive_inv b (CFirst it) it); rewrite ?Hc; done.
  - apply collector_stage_inv; rewrite ?Hc; done.
  - apply dequeue_inv; rewrite ?Hc; done.
  - apply (receive_inv b (CMore items size it) it); rewrite ?Hc; try done.
    unfold wants_more in Hm. apply andb_true_iff in Hm as [Hm _]. apply Z.ltb_lt in Hm. split; simpl; lia.
  - destruct Hok as [Hok Hok']. cbn in Hok, Hok'. unfold collect_item. destruct (_ <? _); apply dequeue_inv; rewrite ?Hc; try done; simpl.
    + solve_Permutation.
    + split; simpl; [|done]. rewrite length_app. simpl. lia.
  - destruct Hok as [Hok _]. apply collector_stage_inv; rewrite ?Hc; done.
  - apply fail_inv; rewrite ?Hc; try done. simpl. by rewrite app_nil_r.
  - by apply dispatch_inv.
  - by apply token_inv.
  - by apply budget_inv.
  - by apply job_inv.
  - by apply job_closed_inv.
  - apply (receive_inv b (CRejecting it) it); rewrite ?Hc; done.
  - by apply rejected_inv.
  - apply collector_stage_inv; rewrite ?Hc; done.
  - by apply propose_inv.
  - by apply result_inv.
  - by apply answer_inv.
  - by apply release_inv.
  - by apply exit_inv.
Qed.

Lemma caller_step_inv b b' : binv b → caller_step c b b' → binv b'.
Proof.
  intros H Hs. revert H. destruct Hs as [enc b|pre it post b Hs Hlt|pre it post b Hs|pre it post b Hs Hcl|pre it post b Hs Hlt|id a b Ha Hr|id b Hr Hlt Hni|b]; intros H.
  - by apply submit_inv.
  - by apply send_inv.
  - by apply withdraw_inv.
  - by apply withdraw_inv.
  - by apply withdraw_inv.
  - apply return_inv; [done| |by right]. by destruct (bk_answered _ _ _ _ _ _ _ (bi_books _ H) id a Ha).
  - apply return_inv; auto.
  - apply (binv_collector b _ H); try done; [apply (bi_books _ H)|by apply (budgets_same b); [apply (bi_budgets _ H)|..]|apply (bi_collector _ H)].
Qed.

Lemma books_new : books [] [] ∅ ∅ ∅ [] 0.
Proof.
  split.
  - apply NoDup_nil_2.
  - intros it []%elem_of_nil.
  - intros id. split; [intros []%elem_of_empty|intros []%elem_of_nil].
  - intros id a. by rewrite lookup_empty.
  - intros att it []%elem_of_nil.
  - done.
  - intros id a. by rewrite lookup_empty.
  - lia.
Qed.

Lemma newBatcher_inv : binv newBatcher.
Proof.
  split.
  - apply books_new.
  - by split.
  - done.
  - intros i w [-> _]%lookup_replicate. done.
  - intros i j k items items' value value' [E _]%lookup_replicate. done.
  - intros att []%elem_of_nil.
Qed.

Lemma batcher_inv b : reachable c b → binv b.
Proof.
  intros H. assert (∀ x y, rtc (step c) x y → binv x → binv y) as Hrun; [|by eapply Hrun, newBatcher_inv].
  induction 1 as [|x y z [Hs|Hs] _ IH]; [done|..]; intros Hx; apply IH; [by eapply caller_step_inv|by eapply server_step_inv].
Qed.

(** C15: what a caller of [submitEncoded] is told is true.  A slot means that
    its bytes were in a value that was proposed and decided there.  An error
    that does not say the outcome is unknown means that no value with its bytes
    was proposed, or that the only proposal was refused for good, and that none
    will be proposed later. *)
Theorem batch_answers_sound b id a :
  reachable c b → returned b !! id = Some a →
  match a with
  | BSlot slot => ∃ att it, att ∈ attempts b ∧ it ∈ attItems att ∧ itemID it = id ∧
      attResult att = Some (slot, None) ∧ assemble c (encoded <$> attItems att) = Some (attValue att)
  | BFailed BUnknown => True
  | BFailed _ => id ∉ ids (waiting b ++ started b) ∧
      ∀ att it, att ∈ attempts b → it ∈ attItems att → itemID it = id → attResult att = Some (0, Some false)
  end.
Proof.
  intros H%batcher_inv Hr. pose proof (bi_books _ H) as Hb.
  destruct (bk_returned _ _ _ _ _ _ _ Hb id a Hr) as [_ [->|[Ha|([e ->] & Hn & _ & Hno)]]]; [done|..].
  - destruct (bk_answered _ _ _ _ _ _ _ Hb id a Ha) as [_ Hs].
    assert (id ∉ ids (waiting b ++ started b)) as Hn.
    { intros (it & -> & Hit)%list_elem_of_fmap. destruct (bk_open _ _ _ _ _ _ _ Hb it Hit). congruence. }
    destruct a as [slot|e]; cbn in Hs.
    + destruct Hs as (att & Hatt & (it & -> & Hit)%list_elem_of_fmap & Hres). exists att, it. split_and!; try done.
      by destruct (bi_attempts _ H att Hatt).
    + destruct e; try done; (split; [done|]); intros att it Hatt Hit <-;
        by destruct (Hs att Hatt (list_elem_of_fmap_2 _ _ _ Hit)).
  - destruct e; try done; (split; [done|]); intros att it Hatt Hit <-; exfalso; apply Hno; exists att;
      (split; [done|by apply list_elem_of_fmap_2]).
Qed.

(** C39: the batcher stays within its budgets.  The counters are the exact
    number and bytes of the queued requests and of the values in flight and
    never exceed their limits; a caller that holds a reservation never finds the
    input channel full; every proposed value is the encoding of at most
    [batchLimit] requests and fits the value limit. *)
Theorem batcher_bounded b :
  reachable c b →
  queuedN b = Z.of_nat (length (queued b)) ∧ queuedByte b = total reserved (queued b) ∧
  queuedN b <= maxQueuedRequests ∧ queuedByte b <= maxQueuedEncodedBytes ∧
  inflight b <= maxInflightBatches ∧ inflightB b = total len (flying b) ∧ inflightB b <= maxInflightEncodedByte ∧
  (sending b ≠ [] → Z.of_nat (length (input b)) < maxQueuedRequests) ∧
  ∀ att, att ∈ attempts b → value_ok (attItems att) (attValue att).
Proof.
  intros H%batcher_inv. destruct (bi_budgets _ H) as [B1 B2 B3 B4 [B5 B5'] [B6 B6']]. split_and!; try done; [|apply (bi_attempts _ H)].
  intros Hs. unfold queued in B1. rewrite !length_app in B1. destruct (sending b); [done|]. simpl in B1. lia.
Qed.
End batcher.
