(* ===== verification/BatcherLiveness.v ===== *)
(** * Progress of the batcher, and the values its encoders produce

    However callers behave, what the collector and the workers do on their own
    ends, and at its end every request that was queued has its answer.  The
    size the collector keeps is the size of the value, so no request is refused
    after it was accepted because the batch came out too long. *)

From stdpp Require Import gmap list relations.
From S2P Require Import Prelude Protocol Node Batcher BatcherProofs.

(** ** The work that is left *)

Definition collector_work (col : collector) : nat :=
  let carried (carry : option item) : nat := match carry with Some _ => 55 | None => 3 end%nat in
  (match col with
  | CNext carry => carried carry
  | CFirst _ => 60
  | CCollect _ _ => 50
  | CMore _ _ _ => 140
  | CDispatch carry (DCheck _) => carried carry + 20
  | CDispatch carry (DToken _ _) => carried carry + 15
  | CDispatch carry (DBudget _ _) => carried carry + 12
  | CDispatch carry (DSend _ _) => carried carry + 8
  | CReject => 2
  | CRejecting _ => 50
  | CDone => 0
  end)%nat.

Definition worker_work (w : worker) : nat :=
  match w with WJob _ _ => 5 | WPropose _ _ _ => 4 | WAnswer _ _ _ => 3 | WRelease _ => 2 | WIdle => 1 | WGone => 0 end%nat.

Definition work (b : batcher) : nat :=
  (100 * length (input b) + collector_work (collecting b) + sum_list_with worker_work (workers b))%nat.

Lemma sum_list_with_insert {A} (f : A → nat) (l : list A) i x y :
  l !! i = Some x → (sum_list_with f (<[i := y]> l) + f x = sum_list_with f l + f y)%nat.
Proof.
  revert i. induction l as [|z l IH]; intros [|i] Hi; simplify_eq/=; [lia|]. specialize (IH i Hi). lia.
Qed.

Lemma finish_all_work a xs b : work (foldl (finish a) b xs) = work b.
Proof. by destruct (finish_all a xs b) as (ans & hd & -> & _). Qed.

Section batcher.
Context (c : batcherConfig).

Lemma dispatch_work cancelled carry items b :
  collecting b = CDispatch carry (DCheck items) → (work (dispatch c cancelled carry items b) < work b)%nat.
Proof.
  intros Hc. assert (∀ xs ys e e' col, (collector_work col < collector_work (collecting b))%nat →
    (work (set_collecting (fail xs e (fail ys e' b)) col) < work b)%nat) as H.
  { intros xs ys e e' col Hlt. unfold fail. destruct (finish_all (BFailed e') ys b) as (a1 & h1 & -> & _).
    destruct (finish_all (BFailed e) xs (set_answers b a1 h1)) as (a2 & h2 & -> & _). unfold work. simpl. lia. }
  assert (∀ ys e' col, (collector_work col < collector_work (collecting b))%nat →
    (work (set_collecting (fail ys e' b) col) < work b)%nat) as H1 by (intros; by apply (H [] ys BInvalid)).
  unfold dispatch. case_bool_decide; [apply H1; rewrite Hc; simpl; lia|].
  destruct (assemble _ _); [|apply H; rewrite Hc; simpl; lia].
  destruct (_ || _); [apply H|apply H1]; rewrite Hc; simpl; lia.
Qed.

Lemma server_step_work b b' : server_step c b b' → (work b' < work b)%nat.
Proof.
  destruct 1 as [it b Hc|it rest b Hc Hin|b Hc Hcl|it b Hc|items size it rest b Hc Hm Hin|items size it b Hc|items size b Hc|
    items size b Hc Hm Hcl|cancelled carry items b Hc|carry items value b Hc Hlt|carry items value b Hc|carry items value i b Hc Hw|
    carry items value b Hc Hcl|it rest b Hc Hin|it b Hc|b Hc Hin|i items value b Hw|i k items value r b Hw|i items value r b Hw|i value b Hw|i b Hw Hc].
  all: try (unfold work; simpl; rewrite ?Hc, ?Hin; simpl; lia).
  - unfold collect_item. destruct (_ <? _); unfold work; simpl; rewrite Hc; simpl; lia.
  - unfold fail. destruct (finish_all (BFailed BNotReady) items b) as (a1 & h1 & -> & _). unfold work. simpl. rewrite Hc. simpl. lia.
  - by apply dispatch_work.
  - unfold dispatch_budget. destruct (_ <? _); [unfold fail; destruct (finish_all (BFailed BOverloaded) items (set_inflight b (inflight b - 1) (inflightB b))) as (a1 & h1 & -> & _)|];
      unfold work; simpl; rewrite Hc; simpl; lia.
  - unfold work. simpl. rewrite Hc. pose proof (sum_list_with_insert worker_work _ _ _ (WJob items value) Hw). simpl in *. lia.
  - unfold fail. destruct (finish_all (BFailed BNotReady) items (releaseInflight (len value) b)) as (a1 & h1 & -> & _). unfold work. simpl. rewrite Hc. simpl. lia.
  - unfold work. simpl. pose proof (sum_list_with_insert worker_work _ _ _ (WPropose (length (attempts b)) items value) Hw). simpl in *. lia.
  - unfold work. simpl. pose proof (sum_list_with_insert worker_work _ _ _ (WAnswer items value r) Hw). simpl in *. lia.
  - unfold answer_all. destruct (finish_all (commitUnknown r) items b) as (a1 & h1 & -> & _).
    unfold work. simpl. pose proof (sum_list_with_insert worker_work _ _ _ (WRelease value) Hw). simpl in *. lia.
  - unfold work. simpl. pose proof (sum_list_with_insert worker_work _ _ _ WIdle Hw). simpl in *. lia.
  - unfold work. simpl. pose proof (sum_list_with_insert worker_work _ _ _ WGone Hw). simpl in *. lia.
Qed.

Lemma server_steps_bounded n b b' : nsteps (server_step c) n b b' → (n <= work b)%nat.
Proof. induction 1 as [|n x y z Hs%server_step_work _ IH]; lia. Qed.

(** ** Workers and the end of the collector *)

Definition over (col : collector) : bool := match col with CReject | CRejecting _ | CDone => true | _ => false end.

Record lifecycle (b : batcher) : Prop := {
  lc_workers : length (workers b) = 8%nat;
  lc_gone i : workers b !! i = Some WGone → collecting b = CDone;
  lc_closed : over (collecting b) = true → closed b = true;
}.

(** Steps that leave the workers alone before the collector is done. *)
Lemma lifecycle_collector b b' :
  lifecycle b → workers b' = workers b → closed b' = closed b → collecting b ≠ CDone →
  (over (collecting b') = true → over (collecting b) = true ∨ closed b = true) → lifecycle b'.
Proof.
  intros [H1 H2 H3] Ew Ec Hn Ho. split; rewrite ?Ew, ?Ec; [done| |].
  - intros i Hi%H2. done.
  - intros [?|?]%Ho; auto.
Qed.

(** Steps of a worker that goes on. *)
Lemma lifecycle_worker b b' i w :
  lifecycle b → workers b' = <[i := w]> (workers b) → closed b' = closed b → collecting b' = collecting b →
  (w = WGone → collecting b = CDone) → lifecycle b'.
Proof.
  intros [H1 H2 H3] Ew Ecl Ec Hw. split; rewrite ?Ew, ?Ec, ?Ecl; [by rewrite length_insert| |done].
  intros j [(_ & E & _)|[_ Hj%H2]]%list_lookup_insert_Some; auto.
Qed.

Lemma server_step_lifecycle b b' : lifecycle b → server_step c b b' → lifecycle b'.
Proof.
  intros H Hs. revert H. destruct Hs as [it b Hc|it rest b Hc Hin|b Hc Hcl|it b Hc|items size it rest b Hc Hm Hin|items size it b Hc|items size b Hc|
    items size b Hc Hm Hcl|cancelled carry items b Hc|carry items value b Hc Hlt|carry items value b Hc|carry items value i b Hc Hw|
    carry items value b Hc Hcl|it rest b Hc Hin|it b Hc|b Hc Hin|i items value b Hw|i k items value r b Hw|i items value r b Hw|i value b Hw|i b Hw Hc];
    intros H.
  all: try (apply (lifecycle_collector b); rewrite ?Hc; by auto).
  - apply (lifecycle_collector b); rewrite ?Hc; try done. simpl. unfold collect_item. by destruct (_ <? _).
  - unfold fail. destruct (finish_all (BFailed BNotReady) items b) as (a1 & h1 & -> & _). apply (lifecycle_collector b); rewrite ?Hc; by auto.
  - unfold dispatch, fail. destruct (finish_all (BFailed BCancelled) (filter (λ it, cancelled it = true) items) b) as (a1 & h1 & -> & _).
    set (active := filter (λ it, cancelled it = false) items).
    destruct (finish_all (BFailed BInvalid) active (set_answers b a1 h1)) as (a2 & h2 & -> & _).
    repeat case_match; apply (lifecycle_collector b); rewrite ?Hc; by auto.
  - unfold dispatch_budget, fail. destruct (finish_all (BFailed BOverloaded) items (set_inflight b (inflight b - 1) (inflightB b))) as (a1 & h1 & -> & _).
    case_match; apply (lifecycle_collector b); rewrite ?Hc; by auto.
  - apply (lifecycle_worker (set_collecting b (CNext carry)) _ i (WJob items value)); try done.
    apply (lifecycle_collector b); rewrite ?Hc; by auto.
  - unfold fail. destruct (finish_all (BFailed BNotReady) items (releaseInflight (len value) b)) as (a1 & h1 & -> & _).
    apply (lifecycle_collector b); rewrite ?Hc; by auto.
  - by apply (lifecycle_worker b _ i (WPropose (length (attempts b)) items value)).
  - by apply (lifecycle_worker b _ i (WAnswer items value r)).
  - unfold answer_all. destruct (finish_all (commitUnknown r) items b) as (a1 & h1 & -> & _). by apply (lifecycle_worker b _ i (WRelease value)).
  - by apply (lifecycle_worker b _ i WIdle).
  - by apply (lifecycle_worker b _ i WGone).
Qed.

Lemma caller_step_lifecycle b b' : lifecycle b → caller_step c b b' → lifecycle b'.
Proof.
  intros [H1 H2 H3] Hs. assert (workers b' = workers b ∧ collecting b' = collecting b ∧ (closed b = true → closed b' = true)) as (Ew & Ec & Ecl).
  { destruct Hs; try done. unfold submitEncoded, reserveQueue. by repeat case_match; simplify_eq/=. }
  split; rewrite ?Ew, ?Ec; [done|done|]. intros ?%H3. auto.
Qed.

Lemma batcher_lifecycle b : reachable c b → lifecycle b.
Proof.
  intros H. assert (∀ x y, rtc (step c) x y → lifecycle x → lifecycle y) as Hrun.
  { induction 1 as [|x y z [Hs|Hs] _ IH]; [done|..]; intros Hx; apply IH; [by eapply caller_step_lifecycle|by eapply server_step_lifecycle]. }
  eapply Hrun; [exact H|]. split; [done| |done]. by intros i [? _]%lookup_replicate.
Qed.

Definition quiet (b : batcher) : Prop := ∀ b', ¬ server_step c b b'.

Lemma quiet_worker b i w : quiet b → workers b !! i = Some w → w = WIdle ∨ w = WGone.
Proof.
  intros Hq Hw. destruct w as [|items value|k items value|items value r|value|]; auto; exfalso.
  - eapply Hq. by eapply propose_step.
  - eapply Hq. by apply (result_step c i k items value (0, None)).
  - eapply Hq. by eapply answer_step.
  - eapply Hq. by eapply release_step.
Qed.

Lemma quiet_workers {A} b (f : worker → list A) : quiet b → f WIdle = [] → f WGone = [] → mjoin (f <$> workers b) = [].
Proof.
  intros Hq Hi Hg. assert (∀ w, w ∈ workers b → f w = []) as H.
  { intros w (i & Hw)%list_elem_of_lookup. by destruct (quiet_worker b i w Hq Hw) as [->| ->]. }
  induction (workers b) as [|w ws IH]; [done|].
  change (f w ++ mjoin (f <$> ws) = []). rewrite (H w), IH; [done| |by left]. intros w' Hw'. apply H. by right.
Qed.

(** A quiet batcher is idle with an empty queue, or closed and done. *)
Lemma quiet_collector b :
  binv c b → lifecycle b → quiet b → (collecting b = CNext None ∧ input b = [] ∧ closed b = false) ∨ (collecting b = CDone ∧ closed b = true).
Proof.
  intros Hb [H1 H2 H3] Hq. destruct (collecting b) as [[it|]|it|items size|items size it|carry d| |it|] eqn:Hc.
  - exfalso. eapply Hq. by eapply carry_step.
  - left. destruct (input b) as [|it rest] eqn:Hin; [|exfalso; eapply Hq; by eapply next_step].
    destruct (closed b) eqn:Hcl; [exfalso; eapply Hq; by eapply next_closed_step|done].
  - exfalso. eapply Hq. by eapply first_step.
  - exfalso. eapply Hq. by eapply stop_step.
  - exfalso. eapply Hq. by eapply more_step.
  - exfalso. destruct d as [items|items value|items value|items value].
    + eapply Hq. by apply (dispatch_step c (λ _, false) carry items).
    + eapply Hq. eapply token_step; [done|]. pose proof (bu_inflight _ (bi_budgets _ _ Hb)) as ->. unfold flying. rewrite Hc.
      by rewrite (quiet_workers b busy Hq).
    + eapply Hq. by eapply budget_step.
    + destruct (lookup_lt_is_Some_2 (workers b) 0) as [w Hw]; [lia|].
      destruct (quiet_worker b 0 w Hq Hw) as [->| ->]; [|by discriminate (H2 0%nat Hw)]. eapply Hq. by eapply job_step.
  - exfalso. destruct (input b) as [|it rest] eqn:Hin; eapply Hq; [by eapply exit_step|by eapply reject_step].
  - exfalso. eapply Hq. by eapply rejected_step.
  - right. auto.
Qed.

(** Where the open requests of a quiet batcher are. *)
Lemma quiet_open b id :
  binv c b → lifecycle b → quiet b → id ∈ ids (waiting b ++ started b) →
  id ∈ ids (sending b) ∨ (closed b = true ∧ collecting b = CDone ∧ id ∈ ids (input b)).
Proof.
  intros Hb Hl Hq. unfold waiting, started. rewrite !(quiet_workers b) by done. rewrite !app_nil_r.
  destruct (quiet_collector b Hb Hl Hq) as [(-> & -> & _)|[-> ->]]; simpl; rewrite !app_nil_r; [by left|].
  rewrite fmap_app, elem_of_app. naive_solver.
Qed.

(** C38: the batcher settles.  What the collector and the workers can do
    without callers is bounded by the work that is left, and once they can do
    nothing every request was answered or has returned, except one whose caller
    has not sent it yet, and one that was sent into the queue of a closed
    batcher, whose caller sees the batcher closed. *)
Theorem batcher_settles b :
  1 <= batchLimit c → reachable c b →
  (∀ n b', nsteps (server_step c) n b b' → (n <= work b)%nat) ∧
  ∀ b', rtc (server_step c) b b' → quiet b' → ∀ id, (id < nextID b')%nat →
    is_Some (answers b' !! id) ∨ is_Some (returned b' !! id) ∨ id ∈ ids (sending b') ∨
    (closed b' = true ∧ collecting b' = CDone ∧ id ∈ ids (input b')).
Proof.
  intros Hlimit Hr. split; [intros n b'; apply server_steps_bounded|]. intros b' Hs Hq id Hid.
  assert (reachable c b') as Hr'.
  { unfold reachable. transitivity b; [exact Hr|]. eapply rtc_subrel; [|exact Hs]. intros x y Hxy. by right. }
  pose proof (batcher_inv c Hlimit b' Hr') as Hb. destruct (bk_all _ _ _ _ _ _ _ (bi_books _ _ Hb) id Hid) as [Ho|[?|?]]; [|auto..].
  right; right. apply quiet_open; auto using batcher_lifecycle.
Qed.
End batcher.

(** ** The size of a batch *)

Lemma join_items_snoc items item :
  items ≠ [] → len (join_items (items ++ [item])) = len (join_items items) + 1 + len item.
Proof.
  induction items as [|x [|y items] IH]; intros Hn; [done|cbn [join_items app]; rewrite len_app; unfold len; simpl; lia|].
  change (len (x ++ x2c :: join_items ((y :: items) ++ [item])) = len (x ++ x2c :: join_items (y :: items)) + 1 + len item).
  rewrite !len_app. specialize (IH ltac:(done)). unfold len in *. cbn [length]. lia.
Qed.

Lemma join_items_sublist items items' : items `sublist_of` items' → len (join_items items) <= len (join_items items').
Proof.
  assert (∀ x l, len x <= len (join_items (x :: l))) as Hx.
  { intros x [|y l]; [done|]. change (len x <= len (x ++ x2c :: join_items (y :: l))). rewrite len_app. unfold len. lia. }
  assert (∀ x l, len (join_items l) <= len (join_items (x :: l))) as Hl.
  { intros x [|y l]; [simpl; unfold len; simpl; lia|]. change (len (join_items (y :: l)) <= len (x ++ x2c :: join_items (y :: l))).
    rewrite len_app. unfold len. cbn [length]. lia. }
  induction 1 as [|x l k Hs IH|x l k Hs IH]; [done| |etransitivity; [exact IH|apply Hl]].
  destruct l as [|y l]; [apply Hx|]. destruct k as [|z k].
  - by apply sublist_nil_r in Hs.
  - change (len (x ++ x2c :: join_items (y :: l)) <= len (x ++ x2c :: join_items (z :: k))). rewrite !len_app. unfold len in *. cbn [length]. lia.
Qed.

(** [BatchEncodedSize] is the length of the assembled batch. *)
Lemma assembleBatch_size magic items : len (assembleBatch magic items) = BatchEncodedSize (len magic) items.
Proof.
  unfold assembleBatch, BatchEncodedSize. rewrite len_app. change (x5b :: ?l) with ([x5b] ++ l). rewrite !len_app.
  assert (len (join_items items) = foldr (λ item n, len item + n) 0 items + Z.max 0 (Z.of_nat (length items) - 1)) as ->.
  { induction items as [|x [|y items] IH]; [done|simpl; lia|].
    change (len (x ++ x2c :: join_items (y :: items)) =
      len x + foldr (λ item n, len item + n) 0 (y :: items) + Z.max 0 (Z.of_nat (length (x :: y :: items)) - 1)).
    change (x2c :: ?l) with ([x2c] ++ l). rewrite !len_app, IH. change (len [x2c]) with 1. cbn [length]. lia. }
  unfold len. simpl. lia.
Qed.

Section sized.
Context (magic : bytes).
Abbreviation c := (newMutationBatcher (assembleBatch magic)).

Definition batch_size (items : list item) : Z := len (assembleBatch magic (encoded <$> items)).
Definition fits (it : item) : Prop := baseSize c + len (encoded it) <= valueLimit c.

Lemma batch_size_one it : batch_size [it] = baseSize c + len (encoded it).
Proof. unfold batch_size, newMutationBatcher, assembleBatch. simpl. rewrite !len_app. unfold len. simpl. rewrite !length_app. simpl. lia. Qed.

Lemma batch_size_snoc items it : items ≠ [] → batch_size (items ++ [it]) = batch_size items + 1 + len (encoded it).
Proof.
  intros Hn. unfold batch_size, assembleBatch. rewrite fmap_app, !len_app. cbn [fmap list_fmap].
  change (x5b :: ?l) with ([x5b] ++ l). rewrite !len_app. rewrite join_items_snoc by (by destruct items). lia.
Qed.

Lemma batch_size_sublist items items' : items `sublist_of` items' → batch_size items <= batch_size items'.
Proof.
  intros Hs. unfold batch_size, assembleBatch. rewrite !len_app. change (x5b :: ?l) with ([x5b] ++ l). rewrite !len_app.
  enough (len (join_items (encoded <$> items)) <= len (join_items (encoded <$> items'))) by lia.
  apply join_items_sublist. by apply fmap_sublist.
Qed.

Definition collector_sized (col : collector) : Prop :=
  match col with
  | CNext carry => ∀ it, carry = Some it → fits it
  | CFirst it | CRejecting it => fits it
  | CCollect items size => items ≠ [] ∧ size = batch_size items ∧ size <= valueLimit c
  | CMore items size it => (items ≠ [] ∧ size = batch_size items ∧ size <= valueLimit c) ∧ fits it
  | CDispatch carry d =>
      (∀ it, carry = Some it → fits it) ∧ match d with DCheck items => batch_size items <= valueLimit c | _ => True end
  | CReject | CDone => True
  end.

Record sized (b : batcher) : Prop := {
  sz_queued it : it ∈ sending b ++ input b → fits it;
  sz_collector : collector_sized (collecting b);
  sz_valid id : answers b !! id ≠ Some (BFailed BInvalid);
}.

(** Answering changes neither the queue nor the collector. *)
Lemma sized_finish a xs b : sized b → a ≠ BFailed BInvalid → sized (foldl (finish a) b xs).
Proof.
  intros [H1 H2 H3] Ha. destruct (finish_all a xs b) as (ans & hd & -> & Hans & _). split; [done|done|].
  intros id. simpl. rewrite Hans. destruct (decide _); [congruence|done].
Qed.

Lemma sized_collector b b' :
  sized b → (∀ it, it ∈ sending b' ++ input b' → it ∈ sending b ++ input b) → answers b' = answers b → collector_sized (collecting b') → sized b'.
Proof. intros [H1 H2 H3] Hq Ea Hc. split; [auto|done|by rewrite Ea]. Qed.

Lemma dispatch_sized cancelled carry items b :
  sized b → collecting b = CDispatch carry (DCheck items) → sized (dispatch c cancelled carry items b).
Proof.
  intros H Hc. pose proof (sz_collector _ H) as Hok. rewrite Hc in Hok. destruct Hok as [Hcarry Hsize]. unfold dispatch, fail.
  pose proof (sized_finish (BFailed BCancelled) (filter (λ it, cancelled it = true) items) b H ltac:(done)) as Hf.
  destruct (finish_all (BFailed BCancelled) (filter (λ it, cancelled it = true) items) b) as (ans & hd & E & _). rewrite E in Hf |- *.
  set (active := filter (λ it, cancelled it = false) items).
  assert (batch_size active <= valueLimit c) as Hle by (etransitivity; [apply batch_size_sublist, sublist_filter|done]).
  case_bool_decide; [by apply (sized_collector (set_answers b ans hd))|]. cbn [assemble newMutationBatcher].
  rewrite bool_decide_false by (unfold assembleBatch; by destruct magic).
  rewrite (proj2 (Z.ltb_ge _ _)) by exact Hle. by apply (sized_collector (set_answers b ans hd)).
Qed.

Lemma collect_item_sized items size it :
  (items ≠ [] ∧ size = batch_size items ∧ size <= valueLimit c) → fits it → collector_sized (collect_item c items size it).
Proof.
  intros (Hn & -> & Hle) Hit. unfold collect_item. destruct (Z.ltb_spec (valueLimit c) (batch_size items + 1 + len (encoded it))) as [Hlt|Hge].
  - split; [by intros ? [= <-]|done].
  - split_and!; [by destruct items|by rewrite batch_size_snoc|done].
Qed.

Lemma commitUnknown_valid r : commitUnknown r ≠ BFailed BInvalid.
Proof. destruct r as [slot [u|]]; simpl; [|done]. by destruct (_ || _). Qed.

Lemma server_step_sized b b' : sized b → server_step c b b' → sized b'.
Proof.
  intros H Hs. revert H. destruct Hs as [it b Hc|it rest b Hc Hin|b Hc Hcl|it b Hc|items size it rest b Hc Hm Hin|items size it b Hc|items size b Hc|
    items size b Hc Hm Hcl|cancelled carry items b Hc|carry items value b Hc Hlt|carry items value b Hc|carry items value i b Hc Hw|
    carry items value b Hc Hcl|it rest b Hc Hin|it b Hc|b Hc Hin|i items value b Hw|i k items value r b Hw|i items value r b Hw|i value b Hw|i b Hw Hc];
    intros H; pose proof (sz_collector _ H) as Hok; pose proof (sz_queued _ H) as Hfit; try rewrite Hc in Hok; try rewrite Hin in Hfit; cbn [collector_sized] in Hok.
  all: try assert (fits it) as Hit by (apply Hfit; set_solver).
  all: try (apply (sized_collector b); [done|simpl; rewrite ?Hin; set_solver|done|simpl; rewrite ?Hc; done]).
  - apply (sized_collector b); try done. split_and!; [done|by rewrite batch_size_one|]. by apply (Hok it).
  - apply (sized_collector b); try done. split_and!; [done|by rewrite batch_size_one|done].
  - apply (sized_collector b); try done. destruct Hok. by apply collect_item_sized.
  - apply (sized_collector b); try done. split; [done|]. by destruct Hok as (_ & -> & ?).
  - apply (sized_collector (fail items BNotReady b)); try done. by apply sized_finish.
  - by apply dispatch_sized.
  - unfold dispatch_budget. case_match; [|by apply (sized_collector b)].
    apply (sized_collector (fail items BOverloaded (set_inflight b (inflight b - 1) (inflightB b)))); try done.
    + apply sized_finish; [|done]. by apply (sized_collector b _ H); [..|exact (sz_collector _ H)].
    + by destruct Hok.
  - by apply (sized_collector b); try done; destruct Hok.
  - apply (sized_collector (fail items BNotReady (releaseInflight (len value) b))); try done; [|by destruct Hok].
    apply sized_finish; [|done]. by apply (sized_collector b _ H); [..|exact (sz_collector _ H)].
  - apply (sized_collector (foldl (finish (BFailed BNotReady)) (releaseQueue (reserved it) b) [it])); try done.
    apply sized_finish; [|done]. by apply (sized_collector b _ H); [..|exact (sz_collector _ H)].
  - pose proof (sized_finish _ items b H (commitUnknown_valid r)) as Hf. by apply (sized_collector _ _ Hf); [..|exact (sz_collector _ Hf)].
Qed.

Lemma caller_step_sized b b' : sized b → caller_step c b b' → sized b'.
Proof.
  intros H Hs. revert H. destruct Hs as [enc b|pre it post b Hs Hlt|pre it post b Hs|pre it post b Hs Hcl|pre it post b Hs Hlt|id a b Ha Hr|id b Hr Hlt Hni|b]; intros H;
    pose proof (sz_collector _ H) as Hc.
  2-8: apply (sized_collector b _ H); [simpl; rewrite ?Hs; set_solver|done|exact Hc].
  unfold submitEncoded, reserveQueue. simpl.
  destruct (Z.ltb_spec MaxReplicatedValueBytes (len (assembleBatch magic []) + len enc)) as [Hf|Hf]; [by apply (sized_collector b _ H)|].
  destruct (_ || _); [by apply (sized_collector b _ H)|]. split; simpl; [|done|apply (sz_valid _ H)].
  intros it [->|Hit]%elem_of_cons; [done|by apply (sz_queued _ H)].
Qed.

(** The collector's running size is the length of the value, so a
    request that [submitEncoded] accepted is never answered that it is invalid:
    neither joining others nor the removal of cancelled requests makes a batch
    too long or empty. *)
Theorem accepted_never_invalid b id : reachable c b → answers b !! id ≠ Some (BFailed BInvalid).
Proof.
  intros H. assert (∀ x y, rtc (step c) x y → sized x → sized y) as Hrun.
  { induction 1 as [|x y z [Hs|Hs] _ IH]; [done|..]; intros Hx; apply IH; [by eapply caller_step_sized|by eapply server_step_sized]. }
  apply (sz_valid b). eapply Hrun; [exact H|]. split; [by intros it Hit%elem_of_nil|by intros it|done].
Qed.
End sized.
