(* ===== verification/BatcherExamples.v ===== *)
(** * A run of the batcher

    Two requests are submitted to the SQL batcher, batched, proposed as one
    value, decided at slot 7 and answered. *)

From stdpp Require Import gmap list relations.
From S2P Require Import Prelude Protocol Node Batcher BatcherProofs BatcherLiveness.

Definition first_request : item := mkItem 0 [x61].
Definition second_request : item := mkItem 1 [x62; x62].
Definition both_requests : list item := [first_request; second_request].
Definition both_value : bytes := assembleBatch sqlBatchMagic (encoded <$> both_requests).

(** The states of the run. *)
Definition submitted_state : batcher :=
  submitEncoded newSQLBatcher (encoded second_request) (submitEncoded newSQLBatcher (encoded first_request) newBatcher).
Definition sent_state : batcher := set_input (set_sending submitted_state []) both_requests.
Definition first_state : batcher := set_collecting (set_input sent_state [second_request]) (CFirst first_request).
Definition collect_state : batcher := set_collecting (releaseQueue (reserved first_request) first_state) (CCollect [first_request] 8).
Definition more_state : batcher := set_collecting (set_input collect_state []) (CMore [first_request] 8 second_request).
Definition batch_state : batcher := set_collecting (releaseQueue (reserved second_request) more_state) (CCollect both_requests 11).
Definition stopped_state : batcher := set_collecting batch_state (CDispatch None (DCheck both_requests)).
Definition checked_state : batcher := set_collecting stopped_state (CDispatch None (DToken both_requests both_value)).
Definition token_state : batcher := set_collecting (set_inflight checked_state 1 0) (CDispatch None (DBudget both_requests both_value)).
Definition flying_state : batcher := set_collecting (set_inflight token_state 1 (len both_value)) (CDispatch None (DSend both_requests both_value)).
Definition job_state : batcher := set_worker (set_collecting flying_state (CNext None)) 0 (WJob both_requests both_value).
Definition proposed_state : batcher :=
  set_worker (set_attempts job_state [mkAttempt both_requests both_value None]) 0 (WPropose 0 both_requests both_value).
Definition decided_state : batcher :=
  set_worker (set_attempts proposed_state [mkAttempt both_requests both_value (Some (7, None))]) 0 (WAnswer both_requests both_value (7, None)).
Definition answered_state : batcher := set_worker (answer_all both_requests (7, None) decided_state) 0 (WRelease both_value).
Definition returned_state : batcher := set_returned answered_state 0 (BSlot 7).

Abbreviation runs := (rtc (step newSQLBatcher)).

Lemma sent_reachable : runs newBatcher sent_state.
Proof.
  eapply rtc_l; [left; apply (submit_step _ (encoded first_request))|]. eapply rtc_l; [left; apply (submit_step _ (encoded second_request))|].
  eapply rtc_l; [left; apply (send_step _ [second_request] first_request []); [reflexivity|by vm_compute]|].
  apply rtc_once. left. apply (send_step _ [] second_request []); [reflexivity|by vm_compute].
Qed.

Lemma batch_reachable : runs sent_state stopped_state.
Proof.
  transitivity first_state; [apply rtc_once; right; by apply next_step|].
  transitivity collect_state; [apply rtc_once; right; by apply (first_step newSQLBatcher first_request first_state)|].
  transitivity more_state; [apply rtc_once; right; by apply collect_step|].
  transitivity batch_state; [apply rtc_once; right; by apply (more_step newSQLBatcher [first_request] 8 second_request more_state)|].
  apply rtc_once. right. by apply (stop_step newSQLBatcher both_requests 11).
Qed.

Lemma flying_reachable : runs stopped_state job_state.
Proof.
  transitivity checked_state; [apply rtc_once; right; by apply (dispatch_step newSQLBatcher (λ _, false) None both_requests stopped_state)|].
  transitivity token_state; [apply rtc_once; right; by apply token_step|].
  transitivity flying_state; [apply rtc_once; right; by apply (budget_step newSQLBatcher None both_requests both_value token_state)|].
  apply rtc_once. right. by apply (job_step newSQLBatcher None both_requests both_value 0).
Qed.

Lemma answered_reachable : runs job_state returned_state.
Proof.
  transitivity proposed_state; [apply rtc_once; right; by apply (propose_step newSQLBatcher 0 both_requests both_value job_state)|].
  transitivity decided_state; [apply rtc_once; right; by apply (result_step newSQLBatcher 0 0 both_requests both_value (7, None) proposed_state)|].
  transitivity answered_state; [apply rtc_once; right; by apply (answer_step newSQLBatcher 0 both_requests both_value (7, None) decided_state)|].
  apply rtc_once. left. by apply return_step.
Qed.

Lemma returned_reachable : reachable newSQLBatcher returned_state.
Proof.
  unfold reachable. transitivity sent_state; [apply sent_reachable|]. transitivity stopped_state; [apply batch_reachable|].
  transitivity job_state; [apply flying_reachable|apply answered_reachable].
Qed.

Lemma batch_answers_sound_witness :
  reachable newSQLBatcher returned_state ∧ returned returned_state !! 0%nat = Some (BSlot 7) ∧
  ∃ att it, att ∈ attempts returned_state ∧ it ∈ attItems att ∧ itemID it = 0%nat ∧ attResult att = Some (7, None) ∧
    assemble newSQLBatcher (encoded <$> attItems att) = Some (attValue att).
Proof.
  split; [apply returned_reachable|]. split; [reflexivity|].
  exact (batch_answers_sound newSQLBatcher ltac:(by vm_compute) returned_state 0 (BSlot 7) returned_reachable eq_refl).
Defined.

Lemma batcher_bounded_witness :
  1 <= batchLimit newSQLBatcher ∧ reachable newSQLBatcher returned_state ∧ inflightB returned_state = total len (flying returned_state).
Proof.
  split; [by vm_compute|]. split; [apply returned_reachable|].
  by destruct (batcher_bounded newSQLBatcher ltac:(by vm_compute) returned_state returned_reachable) as (_ & _ & _ & _ & _ & ? & _).
Defined.

Lemma batcher_settles_witness :
  1 <= batchLimit newSQLBatcher ∧ reachable newSQLBatcher returned_state ∧
  ∀ n b', nsteps (server_step newSQLBatcher) n returned_state b' → (n <= 12)%nat.
Proof.
  split; [by vm_compute|]. split; [apply returned_reachable|].
  exact (proj1 (batcher_settles newSQLBatcher returned_state ltac:(by vm_compute) returned_reachable)).
Defined.

Lemma accepted_never_invalid_witness :
  reachable newSQLBatcher returned_state ∧ answers returned_state !! 1%nat ≠ Some (BFailed BInvalid).
Proof. split; [apply returned_reachable|]. exact (accepted_never_invalid sqlBatchMagic returned_state 1 returned_reachable). Defined.
