(* ===== verification/Proposals.v ===== *)
(** * Proposal admission of the server (pkg/network/server.go)

    [proposeWithAdmission] admits values under permits and byte budgets, joins
    callers that offer the same value, and lets callers with a budget wait.
    [runProposal] runs the attempt and, in Local mode, one retry after
    maintenance.  [Quiesce], [Close], the local lifecycle operations and
    membership changes share the same lock and wait groups.

    A step is a critical section of [proposeMu], a channel operation or the end
    of a wait.  Channel [admissionChanged] is its number: a signal closes the
    current one and makes the next.  Cancellation, deadlines, the outcome of an
    attempt and of the maintenance are chosen by the environment.  [applyMu] is
    held by a quiescer that has returned and by nobody else here. *)

From stdpp Require Import gmap list.
From S2P Require Import Prelude Protocol Batcher.

Definition maxProposalOperations : Z := 12.
Definition maxLocalProposals : Z := 8.
Definition maxProposalEncodedByte : Z := Z.shiftl 2 20.

Inductive proposalError :=
| PNotReady
| POverloaded
| PInvalid
| PCancelled
| PCore (unknown : bool)
| PCommitUnknown.

#[global] Instance proposalError_eq_dec : EqDecision proposalError.
Proof. solve_decision. Defined.

Definition callResult : Type := Slot * option proposalError.

(** Where [runProposal] is.  [RAttempt]: in [runProposalAttempt]; [RDone]: the
    attempt ended; [RDenied]: refused before a write, in Local mode;
    [RMaintain]: permits returned, the maintenance runs; [RRetry],
    [RRetryLocal], [RRetryBoth]: in [beginLocalRetry] with no, one, both
    permits; [RAbort]: it gave them up and has not signalled yet; [RFinish]:
    permits returned; [RGone]: finished. *)
Inductive callPhase :=
| RAttempt (retry : bool)
| RDone (retry : bool) (r : callResult)
| RDenied (r : callResult)
| RMaintain (r : callResult)
| RRetry (r : callResult)
| RRetryLocal (r : callResult)
| RRetryBoth (r : callResult)
| RAbort (r : callResult)
| RFinish (r : callResult)
| RGone (r : callResult).

Record call := mkCall { cHash : ValueHash; cValue : bytes; cPhase : callPhase; cLeases : list nat }.

Inductive callerPhase :=
| KTry
| KWait (chan : nat)
| KJoined (c : nat)
| KReturned (r : callResult).

Record caller := mkCaller { kValue : bytes; kLease : option nat; kEpoch : Z; kPhase : callerPhase }.

(** A Quiesce that waits for the attempts, gave up and waits in the background,
    holds the server, ended. *)
Inductive quiescer := QWait | QBackground | QHeld | QEnded.

(** A local lifecycle operation, with permits, or a membership change. *)
Inductive task := TLifecycle | TMembership | TEnded.

#[global] Instance task_eq_dec : EqDecision task.
Proof. solve_decision. Defined.

Record pserver := mkServer {
  closing : bool;
  quiescing : bool;
  failed : bool;
  epoch : Z;
  changed : nat;
  waiters : Z;
  inflightCalls : gmap ValueHash nat;
  localUsed : Z;
  operationUsed : Z;
  localB : Z;
  operationB : Z;
  proposalWG : Z;
  calls : list call;
  callers : list caller;
  quiescers : list quiescer;
  tasks : list task;
  transferred : gset nat;
}.

Definition newServer : pserver := mkServer false false false 0 0 0 ∅ 0 0 0 0 0 [] [] [] [] ∅.

(** ** Field updates *)

Definition set_flags (s : pserver) (c q f : bool) : pserver :=
  mkServer c q f (epoch s) (changed s) (waiters s) (inflightCalls s) (localUsed s) (operationUsed s) (localB s) (operationB s) (proposalWG s)
    (calls s) (callers s) (quiescers s) (tasks s) (transferred s).
Definition set_signal (s : pserver) (e : Z) (c : nat) (w : Z) : pserver :=
  mkServer (closing s) (quiescing s) (failed s) e c w (inflightCalls s) (localUsed s) (operationUsed s) (localB s) (operationB s) (proposalWG s)
    (calls s) (callers s) (quiescers s) (tasks s) (transferred s).
Definition set_inflightCalls (s : pserver) (m : gmap ValueHash nat) (b o : Z) : pserver :=
  mkServer (closing s) (quiescing s) (failed s) (epoch s) (changed s) (waiters s) m (localUsed s) (operationUsed s) b o (proposalWG s)
    (calls s) (callers s) (quiescers s) (tasks s) (transferred s).
Definition set_permits (s : pserver) (l o wg : Z) : pserver :=
  mkServer (closing s) (quiescing s) (failed s) (epoch s) (changed s) (waiters s) (inflightCalls s) l o (localB s) (operationB s) wg
    (calls s) (callers s) (quiescers s) (tasks s) (transferred s).
Definition set_calls (s : pserver) (c : list call) (t : gset nat) : pserver :=
  mkServer (closing s) (quiescing s) (failed s) (epoch s) (changed s) (waiters s) (inflightCalls s) (localUsed s) (operationUsed s) (localB s)
    (operationB s) (proposalWG s) c (callers s) (quiescers s) (tasks s) t.
Definition set_callers (s : pserver) (k : list caller) : pserver :=
  mkServer (closing s) (quiescing s) (failed s) (epoch s) (changed s) (waiters s) (inflightCalls s) (localUsed s) (operationUsed s) (localB s)
    (operationB s) (proposalWG s) (calls s) k (quiescers s) (tasks s) (transferred s).
Definition set_others (s : pserver) (q : list quiescer) (t : list task) : pserver :=
  mkServer (closing s) (quiescing s) (failed s) (epoch s) (changed s) (waiters s) (inflightCalls s) (localUsed s) (operationUsed s) (localB s)
    (operationB s) (proposalWG s) (calls s) (callers s) q t (transferred s).

Definition put_call (c : nat) (x : call) (s : pserver) : pserver := set_calls s (<[c := x]> (calls s)) (transferred s).
Definition with_cphase (x : call) (p : callPhase) : call := mkCall (cHash x) (cValue x) p (cLeases x).
Definition put_caller (i : nat) (k : caller) (p : callerPhase) (s : pserver) : pserver :=
  set_callers s (<[i := mkCaller (kValue k) (kLease k) (kEpoch k) p]> (callers s)).

(** ** Admission *)

Definition signalAdmissionLocked (invalidate : bool) (s : pserver) : pserver :=
  let e := if invalidate then epoch s + 1 else epoch s in
  if waiters s =? 0 then set_signal s e (changed s) (waiters s) else set_signal s e (S (changed s)) (waiters s).

Definition open (s : pserver) : bool := negb (closing s || quiescing s || failed s).

Section server.
Context (localMode : bool) (sha256 : bytes → ValueHash).

Definition localLimit : Z := if localMode then 1 else maxLocalProposals.

(** The budgets or permits refuse the value now. *)
Definition blocked (value : bytes) (s : pserver) : bool :=
  (maxInflightEncodedByte - localB s <? len value) || (maxProposalEncodedByte - operationB s <? len value) ||
  (localLimit <=? localUsed s) || (maxProposalOperations <=? operationUsed s).

(** [retainProposalLease]: a lease is handed over once. *)
Definition retain (lease : option nat) (s : pserver) : option (list nat * gset nat) :=
  match lease with
  | None => Some ([], transferred s)
  | Some l => if bool_decide (l ∈ transferred s) then None else Some ([l], {[l]} ∪ transferred s)
  end.

Record admissionTimes := mkTimes { cancelled1 : bool; cancelled2 : bool; hasBudget : bool; late1 : bool; late2 : bool; late3 : bool }.

(** A round of the loop of [proposeWithAdmission], under the lock. *)
Definition admission_round (t : admissionTimes) (i : nat) (k : caller) (s : pserver) : pserver :=
  let answer_ e := put_caller i k (KReturned (0, Some e)) s in
  let hash := sha256 (kValue k) in
  if cancelled1 t then answer_ PCancelled
  else if negb (kEpoch k =? epoch s) || negb (open s) then answer_ PNotReady
  else
    match inflightCalls s !! hash with
    | Some c =>
        match retain (kLease k) s, calls s !! c with
        | Some (ls, owned), Some x => put_caller i k (KJoined c) (set_calls s (<[c := mkCall (cHash x) (cValue x) (cPhase x) (cLeases x ++ ls)]> (calls s)) owned)
        | _, _ => answer_ PInvalid
        end
    | None =>
        if (maxInflightEncodedByte <? len (kValue k)) || (maxProposalEncodedByte <? len (kValue k)) then answer_ POverloaded
        else if hasBudget t && late1 t then answer_ POverloaded
        else if blocked (kValue k) s then
          if negb (hasBudget t) || late2 t then answer_ POverloaded
          else put_caller i k (KWait (changed s)) (set_signal s (epoch s) (changed s) (waiters s + 1))
        else if cancelled2 t then answer_ PCancelled
        else if hasBudget t && late3 t then answer_ POverloaded
        else
          match retain (kLease k) s with
          | None => answer_ PInvalid
          | Some (ls, owned) =>
              let c := length (calls s) in
              put_caller i k (KJoined c)
                (set_permits
                  (set_inflightCalls (set_calls s (calls s ++ [mkCall hash (kValue k) (RAttempt false) ls]) owned) (<[hash := c]> (inflightCalls s))
                    (localB s + len (kValue k)) (operationB s + len (kValue k)))
                  (localUsed s + 1) (operationUsed s + 1) (proposalWG s + 1))
          end
    end.

(** ** Running a proposal *)

Definition releaseProposalAttempt (s : pserver) : pserver :=
  signalAdmissionLocked false (set_permits s (localUsed s - 1) (operationUsed s - 1) (proposalWG s - 1)).

Definition FailLocalLifecycle (s : pserver) : pserver :=
  if negb localMode || failed s then s else signalAdmissionLocked true (set_flags s (closing s) (quiescing s) true).

(** What [runProposal] makes of the end of an attempt: in Local mode a failure
    after the core started is an unknown outcome. *)
Definition attempt_result (r : callResult) (coreStarted : bool) : callResult :=
  match r.2 with
  | Some _ => if localMode && coreStarted then (r.1, Some PCommitUnknown) else r
  | None => r
  end.

Definition finishProposalLogical (c : nat) (x : call) (r : callResult) (s : pserver) : pserver :=
  let m := if bool_decide (inflightCalls s !! cHash x = Some c) then delete (cHash x) (inflightCalls s) else inflightCalls s in
  signalAdmissionLocked false
    (set_inflightCalls (put_call c (mkCall (cHash x) (cValue x) (RGone r) []) s) m (localB s - len (cValue x)) (operationB s - len (cValue x))).

(** The end of [beginLocalRetry], with both permits. *)
Definition beginLocalRetry (c : nat) (x : call) (r : callResult) (s : pserver) : pserver :=
  if open s then put_call c (with_cphase x (RAttempt true)) (set_permits s (localUsed s) (operationUsed s) (proposalWG s + 1))
  else put_call c (with_cphase x (RAbort (r.1, Some PNotReady))) (set_permits s (localUsed s - 1) (operationUsed s - 1) (proposalWG s)).

(** ** Quiescence, maintenance and the end *)

(** [Quiesce] up to its wait for the attempts; the wait and what follows are
    steps. *)
Definition Quiesce (s : pserver) : proposalError + pserver :=
  if open s then inr (signalAdmissionLocked true (set_others (set_flags s (closing s) true (failed s)) (quiescers s ++ [QWait]) (tasks s)))
  else inl PNotReady.

(** The function [Quiesce] returns, also run after a wait nobody waits for. *)
Definition resume (i : nat) (s : pserver) : pserver :=
  let s1 := set_others s (<[i := QEnded]> (quiescers s)) (tasks s) in
  if closing s then s1 else signalAdmissionLocked true (set_flags s1 (closing s) false (failed s)).

Definition beginLocalLifecycle (s : pserver) : proposalError + pserver :=
  if negb (open s) then inl PNotReady
  else if localLimit <=? localUsed s then inl POverloaded
  else if maxProposalOperations <=? operationUsed s then inl POverloaded
  else inr (set_permits (set_others s (quiescers s) (tasks s ++ [TLifecycle])) (localUsed s + 1) (operationUsed s + 1) (proposalWG s + 1)).

Definition finishLocalLifecycle (i : nat) (err : bool) (s : pserver) : pserver :=
  signalAdmissionLocked err
    (set_permits (set_flags (set_others s (quiescers s) (<[i := TEnded]> (tasks s))) (closing s) (quiescing s) (failed s || err))
       (localUsed s - 1) (operationUsed s - 1) (proposalWG s - 1)).

(** [runMembershipChange] before and after its callback. *)
Definition runMembershipChange (callback : bool) (s : pserver) : proposalError + pserver :=
  if closing s || quiescing s || negb callback then inl PNotReady
  else inr (set_permits (set_others s (quiescers s) (tasks s ++ [TMembership])) (localUsed s) (operationUsed s) (proposalWG s + 1)).
Definition membershipDone (i : nat) (s : pserver) : pserver :=
  set_permits (set_others s (quiescers s) (<[i := TEnded]> (tasks s))) (localUsed s) (operationUsed s) (proposalWG s - 1).

Definition Close (s : pserver) : pserver := signalAdmissionLocked true (set_flags s true (quiescing s) (failed s)).

(** ** Steps *)

Inductive pstep (s : pserver) : pserver → Prop :=
| p_enter value lease : pstep s (set_callers s (callers s ++ [mkCaller value lease (epoch s) KTry]))
| p_round t i k : callers s !! i = Some k → kPhase k = KTry → pstep s (admission_round t i k s)
| p_wake i k chan :
    callers s !! i = Some k → kPhase k = KWait chan →
    pstep s (put_caller i k KTry (set_signal s (epoch s) (changed s) (waiters s - 1)))
| p_result i k c x r :
    callers s !! i = Some k → kPhase k = KJoined c → calls s !! c = Some x → cPhase x = RGone r → pstep s (put_caller i k (KReturned r) s)
| p_abandon i k c : callers s !! i = Some k → kPhase k = KJoined c → pstep s (put_caller i k (KReturned (0, Some PCommitUnknown)) s)
| p_attempted c x retry r coreStarted :
    calls s !! c = Some x → cPhase x = RAttempt retry →
    pstep s (put_call c (with_cphase x (RDone retry (attempt_result r coreStarted)))
               (if bool_decide (is_Some r.2) && coreStarted then FailLocalLifecycle s else s))
| p_denied c x r :
    localMode = true → calls s !! c = Some x → cPhase x = RAttempt false → is_Some r.2 → pstep s (put_call c (with_cphase x (RDenied r)) s)
| p_release c x retry r : calls s !! c = Some x → cPhase x = RDone retry r → pstep s (put_call c (with_cphase x (RFinish r)) (releaseProposalAttempt s))
| p_release_denied c x r : calls s !! c = Some x → cPhase x = RDenied r → pstep s (put_call c (with_cphase x (RMaintain r)) (releaseProposalAttempt s))
| p_refused c x r : calls s !! c = Some x → cPhase x = RMaintain r → pstep s (put_call c (with_cphase x (RFinish r)) s)
| p_maintenance_not_ready c x r :
    calls s !! c = Some x → cPhase x = RMaintain r → pstep s (put_call c (with_cphase x (RFinish (r.1, Some PNotReady))) s)
| p_maintenance_failed c x r :
    calls s !! c = Some x → cPhase x = RMaintain r →
    pstep s (put_call c (with_cphase x (RFinish (r.1, Some PCommitUnknown))) (FailLocalLifecycle s))
| p_maintained c x r : calls s !! c = Some x → cPhase x = RMaintain r → pstep s (put_call c (with_cphase x (RRetry r)) s)
| p_retry_local c x r :
    calls s !! c = Some x → cPhase x = RRetry r → localUsed s < localLimit →
    pstep s (put_call c (with_cphase x (RRetryLocal r)) (set_permits s (localUsed s + 1) (operationUsed s) (proposalWG s)))
| p_retry_stopped c x r e : calls s !! c = Some x → cPhase x = RRetry r → pstep s (put_call c (with_cphase x (RFinish (r.1, Some e))) s)
| p_retry_operation c x r :
    calls s !! c = Some x → cPhase x = RRetryLocal r → operationUsed s < maxProposalOperations →
    pstep s (put_call c (with_cphase x (RRetryBoth r)) (set_permits s (localUsed s) (operationUsed s + 1) (proposalWG s)))
| p_retry_local_stopped c x r e :
    calls s !! c = Some x → cPhase x = RRetryLocal r →
    pstep s (put_call c (with_cphase x (RAbort (r.1, Some e))) (set_permits s (localUsed s - 1) (operationUsed s) (proposalWG s)))
| p_retry_enter c x r : calls s !! c = Some x → cPhase x = RRetryBoth r → pstep s (beginLocalRetry c x r s)
| p_abort_signal c x r : calls s !! c = Some x → cPhase x = RAbort r → pstep s (put_call c (with_cphase x (RFinish r)) (signalAdmissionLocked false s))
| p_finish c x r : calls s !! c = Some x → cPhase x = RFinish r → pstep s (finishProposalLogical c x r s)
| p_quiesce s' : Quiesce s = inr s' → pstep s s'
| p_quiesce_cancelled i : quiescers s !! i = Some QWait → pstep s (set_others s (<[i := QBackground]> (quiescers s)) (tasks s))
| p_quiesced i : quiescers s !! i = Some QWait → proposalWG s = 0 → failed s = false → pstep s (set_others s (<[i := QHeld]> (quiescers s)) (tasks s))
| p_quiesce_failed i : quiescers s !! i = Some QWait → proposalWG s = 0 → failed s = true → pstep s (set_others s (<[i := QEnded]> (quiescers s)) (tasks s))
| p_unquiesce i q : quiescers s !! i = Some q → (q = QHeld ∨ (q = QBackground ∧ proposalWG s = 0)) → pstep s (resume i s)
| p_lifecycle s' : beginLocalLifecycle s = inr s' → pstep s s'
| p_lifecycle_done i err : tasks s !! i = Some TLifecycle → pstep s (finishLocalLifecycle i err s)
| p_membership callback s' : runMembershipChange callback s = inr s' → pstep s s'
| p_membership_done i : tasks s !! i = Some TMembership → pstep s (membershipDone i s)
| p_close : pstep s (Close s).

Definition preachable : pserver → Prop := rtc pstep newServer.
End server.
