(* ===== verification/ProposalsProofs.v ===== *)
(** * What proposal admission guarantees

    Permits, byte budgets and the wait group count exactly what runs; a value is
    in flight at most once and its callers get its result; a held Quiesce
    excludes every attempt; no waiting caller misses a wake-up. *)

From stdpp Require Import gmap list relations.
From S2P Require Import Prelude Protocol Batcher Proposals.

(** ** What a call and a task hold *)

Definition one (b : bool) : Z := if b then 1 else 0.

Definition has_local (p : callPhase) : bool :=
  match p with RAttempt _ | RDone _ _ | RDenied _ | RRetryLocal _ | RRetryBoth _ => true | _ => false end.
Definition has_operation (p : callPhase) : bool :=
  match p with RAttempt _ | RDone _ _ | RDenied _ | RRetryBoth _ => true | _ => false end.
Definition running (p : callPhase) : bool := match p with RAttempt _ | RDone _ _ | RDenied _ => true | _ => false end.
Definition live (p : callPhase) : bool := match p with RGone _ => false | _ => true end.

Definition local_of (x : call) : Z := one (has_local (cPhase x)).
Definition operation_of (x : call) : Z := one (has_operation (cPhase x)).
Definition running_of (x : call) : Z := one (running (cPhase x)).
Definition bytes_of (x : call) : Z := if live (cPhase x) then len (cValue x) else 0.

Definition task_permit (t : task) : Z := match t with TLifecycle => 1 | _ => 0 end.
Definition task_running (t : task) : Z := match t with TEnded => 0 | _ => 1 end.
Definition waiting_of (k : caller) : Z := match kPhase k with KWait _ => 1 | _ => 0 end.

Section server.
Context (localMode : bool) (sha256 : bytes → ValueHash).

Abbreviation pstep := (Proposals.pstep localMode sha256).
Abbreviation localLimit := (Proposals.localLimit localMode).

Record counted (s : pserver) : Prop := {
  ct_local : localUsed s = total local_of (calls s) + total task_permit (tasks s);
  ct_operation : operationUsed s = total operation_of (calls s) + total task_permit (tasks s);
  ct_running : proposalWG s = total running_of (calls s) + total task_running (tasks s);
  ct_localB : localB s = total bytes_of (calls s);
  ct_operationB : operationB s = total bytes_of (calls s);
  ct_waiters : waiters s = total waiting_of (callers s);
  ct_limits : localUsed s <= localLimit ∧ operationUsed s <= maxProposalOperations ∧
    localB s <= maxInflightEncodedByte ∧ operationB s <= maxProposalEncodedByte;
}.

(** ** The operations, opened *)

Lemma Quiesce_inr s s' :
  Quiesce s = inr s' → open s = true ∧ s' = signalAdmissionLocked true (set_others (set_flags s (closing s) true (failed s)) (quiescers s ++ [QWait]) (tasks s)).
Proof. unfold Quiesce. destruct (open s); [|done]. by intros [= <-]. Qed.

Lemma beginLocalLifecycle_inr s s' :
  beginLocalLifecycle localMode s = inr s' → open s = true ∧ localUsed s < localLimit ∧ operationUsed s < maxProposalOperations ∧
    s' = set_permits (set_others s (quiescers s) (tasks s ++ [TLifecycle])) (localUsed s + 1) (operationUsed s + 1) (proposalWG s + 1).
Proof.
  unfold beginLocalLifecycle. destruct (open s); [|done]. cbn [negb].
  destruct (Z.leb_spec localLimit (localUsed s)); [done|]. destruct (Z.leb_spec maxProposalOperations (operationUsed s)); [done|]. by intros [= <-].
Qed.

Lemma runMembershipChange_inr b s s' :
  runMembershipChange b s = inr s' → closing s = false ∧ quiescing s = false ∧
    s' = set_permits (set_others s (quiescers s) (tasks s ++ [TMembership])) (localUsed s) (operationUsed s) (proposalWG s + 1).
Proof. unfold runMembershipChange. destruct (closing s), (quiescing s); try done. destruct b; [|done]. by intros [= <-]. Qed.

(** After the analysis of a step: what the operation found and did. *)
Ltac open_ops :=
  match goal with
  | H : Quiesce _ = inr _ |- _ => apply Quiesce_inr in H as [Ho ->]
  | H : beginLocalLifecycle _ _ = inr _ |- _ => apply beginLocalLifecycle_inr in H as (Ho & Hl1 & Hl2 & ->)
  | H : runMembershipChange _ _ = inr _ |- _ => apply runMembershipChange_inr in H as (Hcl & Hqu & ->)
  | |- context [beginLocalRetry ?c ?x ?r ?s] => unfold beginLocalRetry; destruct (open s) eqn:Ho
  | _ => unfold resume, finishLocalLifecycle, membershipDone, Close
  end.

(** ** Signals and failures *)

Lemma signal_frame b s :
  ∃ e c, signalAdmissionLocked b s = set_signal s e c (waiters s) ∧ (changed s <= c)%nat ∧ (waiters s ≠ 0 → (changed s < c)%nat) ∧ (waiters s = 0 → c = changed s).
Proof.
  unfold signalAdmissionLocked. destruct (Z.eqb_spec (waiters s) 0) as [E|E].
  - exists (if b then epoch s + 1 else epoch s), (changed s). split_and!; [done|lia|done|done].
  - exists (if b then epoch s + 1 else epoch s), (S (changed s)). split_and!; [done|lia|lia|done].
Qed.

Lemma failure_frame s :
  FailLocalLifecycle localMode s = s ∨ FailLocalLifecycle localMode s = signalAdmissionLocked true (set_flags s (closing s) (quiescing s) true).
Proof. unfold FailLocalLifecycle. destruct (_ || _); auto. Qed.

Lemma counted_signal s e c : counted s → counted (set_signal s e c (waiters s)).
Proof. intros []. by split. Qed.

Lemma counted_flags s c q f : counted s → counted (set_flags s c q f).
Proof. intros []. by split. Qed.

Lemma counted_signalled b s : counted s → counted (signalAdmissionLocked b s).
Proof. destruct (signal_frame b s) as (e & c & -> & _). apply counted_signal. Qed.

Lemma counted_failure s : counted s → counted (FailLocalLifecycle localMode s).
Proof. intros H. destruct (failure_frame s) as [-> | ->]; [done|]. by apply counted_signalled, counted_flags. Qed.

(** A call changes its phase and what it holds. *)
Lemma counted_call c x p s l o wg :
  counted s → calls s !! c = Some x →
  l = localUsed s - local_of x + one (has_local p) → o = operationUsed s - operation_of x + one (has_operation p) →
  wg = proposalWG s - running_of x + one (running p) → live p = live (cPhase x) →
  l <= localLimit → o <= maxProposalOperations →
  counted (put_call c (with_cphase x p) (set_permits s l o wg)).
Proof.
  intros [H1 H2 H3 H4 H5 H6 (H7 & H8 & H9)] Hc El Eo Ew Hl Hll Hol.
  split; simpl; rewrite ?(total_insert _ _ _ _ _ Hc); try done.
  - unfold local_of at 3. simpl. lia.
  - unfold operation_of at 3. simpl. lia.
  - unfold running_of at 3. simpl. lia.
  - unfold bytes_of at 2 3. simpl. rewrite Hl. lia.
  - unfold bytes_of at 2 3. simpl. rewrite Hl. lia.
Qed.

(** A caller changes its phase. *)
Lemma counted_caller i k p s w :
  counted s → callers s !! i = Some k → w = waiters s - waiting_of k + waiting_of (mkCaller (kValue k) (kLease k) (kEpoch k) p) →
  counted (put_caller i k p (set_signal s (epoch s) (changed s) w)).
Proof.
  intros [H1 H2 H3 H4 H5 H6 H7] Hi Ew. split; simpl; try done. rewrite (total_insert _ _ _ _ _ Hi). lia.
Qed.

Lemma counted_call_same c x p s :
  counted s → calls s !! c = Some x → has_local p = has_local (cPhase x) → has_operation p = has_operation (cPhase x) →
  running p = running (cPhase x) → live p = live (cPhase x) → counted (put_call c (with_cphase x p) s).
Proof.
  intros H Hc E1 E2 E3 E4. replace s with (set_permits s (localUsed s) (operationUsed s) (proposalWG s)) at 1 by (by destruct s).
  pose proof (ct_limits _ H) as (? & ? & ?). apply counted_call; try done; unfold local_of, operation_of, running_of; rewrite ?E1, ?E2, ?E3; lia.
Qed.

Lemma counted_returned i k p s : counted s → callers s !! i = Some k → waiting_of k = 0 → (∀ c, p ≠ KWait c) → counted (put_caller i k p s).
Proof.
  intros H Hi Hw Hp. replace s with (set_signal s (epoch s) (changed s) (waiters s)) at 1 by (by destruct s).
  apply counted_caller; [done|done|]. rewrite Hw. unfold waiting_of. simpl. destruct p; try lia. by destruct (Hp chan).
Qed.

(** The round keeps the accounts: it admits only what fits. *)
Lemma counted_round t i k s : counted s → callers s !! i = Some k → kPhase k = KTry → counted (admission_round localMode sha256 t i k s).
Proof.
  intros H Hi Hk. assert (waiting_of k = 0) as Hw by (unfold waiting_of; by rewrite Hk).
  assert (∀ e, counted (put_caller i k (KReturned (0, Some e)) s)) as Hret by (intros e; by apply counted_returned).
  unfold admission_round. destruct (cancelled1 t); [apply Hret|]. destruct (_ || _); [apply Hret|].
  destruct (inflightCalls s !! _) as [c|].
  { destruct (retain _ _) as [[ls owned]|]; [|apply Hret]. destruct (calls s !! c) as [x|] eqn:Hc; [|apply Hret].
    apply counted_returned; [|done|done|done]. destruct H as [H1 H2 H3 H4 H5 H6 H7].
    split; simpl; rewrite ?(total_insert _ _ _ _ _ Hc); try done.
    - unfold local_of at 2 3. simpl. lia.
    - unfold operation_of at 2 3. simpl. lia.
    - unfold running_of at 2 3. simpl. lia.
    - unfold bytes_of at 2 3. simpl. lia.
    - unfold bytes_of at 2 3. simpl. lia. }
  destruct (_ || _); [apply Hret|]. destruct (_ && _); [apply Hret|]. destruct (blocked _ _ _) eqn:Hb.
  { destruct (_ || _); [apply Hret|]. apply counted_caller; [done|done|]. rewrite Hw. unfold waiting_of. simpl. lia. }
  destruct (cancelled2 t); [apply Hret|]. destruct (_ && _); [apply Hret|]. destruct (retain _ _) as [[ls owned]|]; [|apply Hret].
  apply counted_returned; [|done|done|done]. destruct H as [H1 H2 H3 H4 H5 H6 H7]. unfold blocked in Hb. bool_hyps.
  split; simpl; rewrite ?total_snoc; try done; unfold local_of, operation_of, running_of, bytes_of in *; simpl; lia.
Qed.

Ltac call_phase Hph := unfold local_of, operation_of, running_of; rewrite ?Hph; simpl; try lia; try reflexivity.

Lemma pstep_counted s s' : counted s → pstep s s' → counted s'.
Proof.
  intros H Hstep. pose proof (ct_limits _ H) as (HL & HO & HB & HB').
  assert (∀ t, 0 <= task_permit t) as Htp by (by intros []). 
  assert (∀ t, 0 <= task_running t) as Htr by (by intros []).
  destruct Hstep as [value lease|t i k Hi Hk|i k chan Hi Hk|i k c x r Hi Hk Hc Hx|i k c Hi Hk|c x retry r cs Hc Hx|c x r Hlm Hc Hx Hr|
    c x retry r Hc Hx|c x r Hc Hx|c x r Hc Hx|c x r Hc Hx|c x r Hc Hx|c x r Hc Hx|c x r Hc Hx Hlt|c x r e Hc Hx|c x r Hc Hx Hlt|c x r e Hc Hx|
    c x r Hc Hx|c x r Hc Hx|c x r Hc Hx|s' Hop|i Hq|i Hq Hwg Hf|i Hq Hwg Hf|i q Hq Hqq|s' Hop|i err Ht|callback s' Hop|i Ht|].
  all: open_ops.
  - destruct H as [H1 H2 H3 H4 H5 H6 H7]. split; simpl; try done. rewrite total_snoc. unfold waiting_of at 2. simpl. lia.
  - by apply counted_round.
  - apply counted_caller; [done|done|]. unfold waiting_of. rewrite Hk. simpl. lia.
  - apply counted_returned; [done|done| |done]. unfold waiting_of. by rewrite Hk.
  - apply counted_returned; [done|done| |done]. unfold waiting_of. by rewrite Hk.
  - apply counted_call_same; rewrite ?Hx; try done; [|case_match; [|done]; destruct (failure_frame s) as [-> | ->]; [done|];
      destruct (signal_frame true (set_flags s (closing s) (quiescing s) true)) as (e & ch & -> & _); done].
    case_match; [by apply counted_failure|done].
  - apply counted_call_same; rewrite ?Hx; done.
  - unfold releaseProposalAttempt. destruct (signal_frame false (set_permits s (localUsed s - 1) (operationUsed s - 1) (proposalWG s - 1))) as (e & ch & -> & _).
    apply (counted_signal (put_call c (with_cphase x (RFinish r)) (set_permits s (localUsed s - 1) (operationUsed s - 1) (proposalWG s - 1)))).
    apply counted_call; call_phase Hx; done.
  - unfold releaseProposalAttempt. destruct (signal_frame false (set_permits s (localUsed s - 1) (operationUsed s - 1) (proposalWG s - 1))) as (e & ch & -> & _).
    apply (counted_signal (put_call c (with_cphase x (RMaintain r)) (set_permits s (localUsed s - 1) (operationUsed s - 1) (proposalWG s - 1)))).
    apply counted_call; call_phase Hx; done.
  - apply counted_call_same; rewrite ?Hx; done.
  - apply counted_call_same; rewrite ?Hx; done.
  - apply counted_call_same; rewrite ?Hx; try done; [by apply counted_failure|]. destruct (failure_frame s) as [-> | ->]; [done|].
    destruct (signal_frame true (set_flags s (closing s) (quiescing s) true)) as (e & ch & -> & _). done.
  - apply counted_call_same; rewrite ?Hx; done.
  - apply counted_call; call_phase Hx; done.
  - apply counted_call_same; rewrite ?Hx; done.
  - apply counted_call; call_phase Hx; done.
  - apply counted_call; call_phase Hx; done.
  - apply counted_call; call_phase Hx; done.
  - apply counted_call; call_phase Hx; done.
  - destruct (signal_frame false s) as (e & ch & -> & _). apply (counted_signal (put_call c (with_cphase x (RFinish r)) s)). apply counted_call_same; rewrite ?Hx; done.
  - unfold finishProposalLogical. apply counted_signalled. destruct H as [H1 H2 H3 H4 H5 H6 H7].
    pose proof (Nat2Z.is_nonneg (length (cValue x))) as Hlen. fold (len (cValue x)) in Hlen.
    split; simpl; rewrite ?(total_insert _ _ _ _ _ Hc); try done;
      unfold local_of at 2 3 || unfold operation_of at 2 3 || unfold running_of at 2 3 || unfold bytes_of at 2 3 || idtac; simpl; rewrite ?Hx; simpl; try lia.
  - by apply counted_signalled, (counted_flags (set_others s (quiescers s ++ [QWait]) (tasks s))); destruct H; split.
  - by destruct H; split.
  - by destruct H; split.
  - by destruct H; split.
  - assert (counted (set_others s (<[i := QEnded]> (quiescers s)) (tasks s))) by (by destruct H; split).
    simpl. destruct (closing s); [done|]. by apply counted_signalled, counted_flags.
  - destruct H as [H1 H2 H3 H4 H5 H6 H7]. split; simpl; rewrite ?total_snoc; try done; simpl; lia.
  - apply counted_signalled. destruct H as [H1 H2 H3 H4 H5 H6 H7]. split; simpl; rewrite ?(total_insert _ _ _ _ _ Ht); try done; simpl; lia.
  - destruct H as [H1 H2 H3 H4 H5 H6 H7]. split; simpl; rewrite ?total_snoc; try done; simpl; lia.
  - destruct H as [H1 H2 H3 H4 H5 H6 H7]. split; simpl; rewrite ?(total_insert _ _ _ _ _ Ht); try done; simpl; lia.
  - by apply counted_signalled, counted_flags.
Qed.

(** ** Values in flight and their callers *)

Record flights (s : pserver) : Prop := {
  fl_map h c : inflightCalls s !! h = Some c ↔ ∃ x, calls s !! c = Some x ∧ live (cPhase x) = true ∧ cHash x = h;
  fl_hash c x : calls s !! c = Some x → cHash x = sha256 (cValue x);
  fl_joined i k c : callers s !! i = Some k → kPhase k = KJoined c → ∃ x, calls s !! c = Some x ∧ cHash x = sha256 (kValue k);
  fl_returned i k slot : callers s !! i = Some k → kPhase k = KReturned (slot, None) →
    ∃ c x, calls s !! c = Some x ∧ cPhase x = RGone (slot, None) ∧ cHash x = sha256 (kValue k);
}.

(** A call goes on, with the same value. *)
Lemma flights_call s s' c x p :
  flights s → calls s !! c = Some x → live (cPhase x) = true → live p = true →
  calls s' = <[c := with_cphase x p]> (calls s) → callers s' = callers s → inflightCalls s' = inflightCalls s → flights s'.
Proof.
  intros [H1 H2 H3 H4] Hc Hl Hp Ec Ek Ei.
  assert (∀ c' y, calls s !! c' = Some y → ∃ y', calls s' !! c' = Some y' ∧ cHash y' = cHash y ∧ (live (cPhase y) = false → y' = y)) as Hgrow.
  { intros c' y Hy. rewrite Ec. destruct (decide (c = c')) as [->|Hne]; [|rewrite list_lookup_insert_ne by done; eauto].
    rewrite list_lookup_insert_eq by (by eapply lookup_lt_Some). simplify_eq. eexists. split_and!; [done|done|congruence]. }
  split; rewrite ?Ek, ?Ei.
  - intros h c'. rewrite H1, Ec. split.
    + intros (y & Hy & Hly & <-). destruct (decide (c = c')) as [->|Hne]; [|exists y; by rewrite list_lookup_insert_ne].
      rewrite list_lookup_insert_eq by (by eapply lookup_lt_Some). simplify_eq. by eexists.
    + intros (y & [(-> & <- & _)|[Hne Hy]]%list_lookup_insert_Some & Hly & <-); [by exists x|by exists y].
  - intros c' y. rewrite Ec. intros [(-> & <- & _)|[Hne Hy]]%list_lookup_insert_Some; [|by eapply H2]. simpl. by eapply H2.
  - intros i k c' Hi Hk. destruct (H3 i k c' Hi Hk) as (y & Hy & E). destruct (Hgrow _ _ Hy) as (y' & Hy' & E' & _). exists y'. split; [done|congruence].
  - intros i k slot Hi Hk. destruct (H4 i k slot Hi Hk) as (c' & y & Hy & Hg & E). destruct (Hgrow _ _ Hy) as (y' & Hy' & E' & Hsame).
    exists c', y'. rewrite (Hsame ltac:(by rewrite Hg)) in *. done.
Qed.

(** Nothing about calls and callers changes. *)
Lemma flights_same s s' : flights s → calls s' = calls s → callers s' = callers s → inflightCalls s' = inflightCalls s → flights s'.
Proof. intros [H1 H2 H3 H4] Ec Ek Ei. split; rewrite ?Ec, ?Ek, ?Ei; done. Qed.

Lemma flights_caller s s' i k p :
  flights s → callers s !! i = Some k → calls s' = calls s → inflightCalls s' = inflightCalls s →
  callers s' = <[i := mkCaller (kValue k) (kLease k) (kEpoch k) p]> (callers s) →
  (∀ c, p = KJoined c → ∃ x, calls s !! c = Some x ∧ cHash x = sha256 (kValue k)) →
  (∀ slot, p = KReturned (slot, None) → ∃ c x, calls s !! c = Some x ∧ cPhase x = RGone (slot, None) ∧ cHash x = sha256 (kValue k)) →
  flights s'.
Proof.
  intros [H1 H2 H3 H4] Hi Ec Ei Ek Hj Hr. split; rewrite ?Ec, ?Ei, ?Ek; try done.
  - intros j k' c [(-> & <- & _)|[_ Hk']]%list_lookup_insert_Some; [|by eapply H3]. simpl. apply Hj.
  - intros j k' slot [(-> & <- & _)|[_ Hk']]%list_lookup_insert_Some; [|by eapply H4]. simpl. apply Hr.
Qed.

Lemma flights_returned s i k e : flights s → callers s !! i = Some k → flights (put_caller i k (KReturned (0, Some e)) s).
Proof. intros H Hi. by apply (flights_caller s _ i k (KReturned (0, Some e))). Qed.

Lemma flights_round t i k s : flights s → callers s !! i = Some k → flights (admission_round localMode sha256 t i k s).
Proof.
  intros H Hi. unfold admission_round. assert (∀ e, flights (put_caller i k (KReturned (0, Some e)) s)) as Hret by (intros e; by apply flights_returned).
  destruct (cancelled1 t); [apply Hret|]. destruct (_ || _); [apply Hret|]. destruct (inflightCalls s !! sha256 (kValue k)) as [c|] eqn:Hf.
  { destruct (retain _ _) as [[ls owned]|]; [|apply Hret]. destruct (calls s !! c) as [x|] eqn:Hc; [|apply Hret].
    destruct (proj1 (fl_map _ H _ _) Hf) as (x' & Hx' & Hl & Hh). simplify_eq.
    set (s1 := set_calls s (<[c := mkCall (cHash x) (cValue x) (cPhase x) (cLeases x ++ ls)]> (calls s)) owned).
    assert (flights s1) as H1.
    { destruct H as [H1 H2 H3 H4]. assert (∀ c' y, calls s !! c' = Some y → ∃ y', calls s1 !! c' = Some y' ∧ cHash y' = cHash y ∧ cPhase y' = cPhase y) as Hgrow.
      { intros c' y Hy. simpl. destruct (decide (c = c')) as [->|Hne]; [|rewrite list_lookup_insert_ne by done; eauto].
        rewrite list_lookup_insert_eq by (by eapply lookup_lt_Some). simplify_eq. by eexists. }
      split; simpl.
      - intros h c'. rewrite H1. split; [intros (y & Hy & ? & ?); destruct (Hgrow _ _ Hy) as (y' & ? & E1 & E2); exists y'; rewrite E1, E2; done|].
        intros (y & [(-> & <- & _)|[_ Hy]]%list_lookup_insert_Some & ? & ?); [by exists x|by exists y].
      - intros c' y [(-> & <- & _)|[_ Hy]]%list_lookup_insert_Some; [simpl; by eapply H2|by eapply H2].
      - intros j k' c' Hj Hk'. destruct (H3 j k' c' Hj Hk') as (y & Hy & E). destruct (Hgrow _ _ Hy) as (y' & ? & E1 & _). exists y'. by rewrite E1.
      - intros j k' slot Hj Hk'. destruct (H4 j k' slot Hj Hk') as (c' & y & Hy & Hg & E). destruct (Hgrow _ _ Hy) as (y' & ? & E1 & E2).
        exists c', y'. by rewrite E1, E2. }
    apply (flights_caller s1 _ i k (KJoined c)); try done. intros c' [= <-]. simpl. rewrite list_lookup_insert_eq by (by eapply lookup_lt_Some). by eexists. }
  destruct (_ || _); [apply Hret|]. destruct (_ && _); [apply Hret|]. destruct (blocked _ _ _).
  { destruct (_ || _); [apply Hret|]. by apply (flights_caller s _ i k (KWait (changed s))). }
  destruct (cancelled2 t); [apply Hret|]. destruct (_ && _); [apply Hret|]. destruct (retain _ _) as [[ls owned]|]; [|apply Hret].
  set (new := mkCall (sha256 (kValue k)) (kValue k) (RAttempt false) ls).
  set (s1 := set_inflightCalls (set_calls s (calls s ++ [new]) owned) (<[sha256 (kValue k) := length (calls s)]> (inflightCalls s)) 0 0).
  assert (flights s1) as H1.
  { destruct H as [H1 H2 H3 H4]. assert (∀ c' y, calls s !! c' = Some y → calls s1 !! c' = Some y) as Hgrow.
    { intros c' y Hy. simpl. by apply lookup_app_l_Some. }
    split; simpl.
    - intros h c'. rewrite lookup_insert_Some. split.
      + intros [[<- <-]|[Hne (y & Hy & ? & ?)%H1]]; [|exists y; eauto]. exists new. rewrite list_lookup_middle by done. done.
      + intros (y & Hy & Hly & <-). apply lookup_app_Some in Hy as [Hy|[Hge Hy]].
        * destruct (decide (sha256 (kValue k) = cHash y)) as [E|Hne]; [|right; split; [done|]; apply H1; by exists y].
          assert (inflightCalls s !! cHash y = Some c') as Hin by (apply H1; by exists y). rewrite <-E, Hf in Hin. done.
        * destruct (c' - length (calls s))%nat as [|m] eqn:Em; [|done]. simpl in Hy. injection Hy as <-. left. split; [done|lia].
    - intros c' y [Hy|[Hge Hy]]%lookup_app_Some; [by eapply H2|]. destruct (c' - length (calls s))%nat as [|m]; [|done]. by injection Hy as <-.
    - intros j k' c' Hj Hk'. destruct (H3 j k' c' Hj Hk') as (y & Hy & E). exists y. auto.
    - intros j k' slot Hj Hk'. destruct (H4 j k' slot Hj Hk') as (c' & y & Hy & Hg & E). exists c', y. auto. }
  apply (flights_caller s1 _ i k (KJoined (length (calls s)))); try done. intros c' [= <-]. exists new. simpl. by rewrite list_lookup_middle.
Qed.

Lemma signal_calls b s :
  calls (signalAdmissionLocked b s) = calls s ∧ callers (signalAdmissionLocked b s) = callers s ∧ inflightCalls (signalAdmissionLocked b s) = inflightCalls s.
Proof. destruct (signal_frame b s) as (e & c & -> & _). done. Qed.

Lemma failure_calls s :
  calls (FailLocalLifecycle localMode s) = calls s ∧ callers (FailLocalLifecycle localMode s) = callers s ∧
  inflightCalls (FailLocalLifecycle localMode s) = inflightCalls s.
Proof. destruct (failure_frame s) as [-> | ->]; [done|]. apply (signal_calls true (set_flags s (closing s) (quiescing s) true)). Qed.

Lemma flights_signal b s : flights s → flights (signalAdmissionLocked b s).
Proof. intros H. destruct (signal_calls b s) as (? & ? & ?). by apply (flights_same s). Qed.

Lemma flights_put c x p s s0 :
  flights s → calls s !! c = Some x → live (cPhase x) = true → live p = true →
  calls s0 = calls s → callers s0 = callers s → inflightCalls s0 = inflightCalls s → flights (put_call c (with_cphase x p) s0).
Proof. intros H Hc Hl Hp Ec Ek Ei. apply (flights_call s _ c x p); try done; simpl; by rewrite Ec. Qed.

Lemma flights_finish c x r s : flights s → calls s !! c = Some x → live (cPhase x) = true → flights (finishProposalLogical c x r s).
Proof.
  intros H Hc Hl. unfold finishProposalLogical. apply flights_signal. destruct H as [H1 H2 H3 H4].
  assert (inflightCalls s !! cHash x = Some c) as Hin by (apply H1; by exists x). rewrite bool_decide_true by done.
  assert (∀ c' y, calls s !! c' = Some y → ∃ y', <[c := mkCall (cHash x) (cValue x) (RGone r) []]> (calls s) !! c' = Some y' ∧ cHash y' = cHash y ∧
    (live (cPhase y) = false → y' = y)) as Hgrow.
  { intros c' y Hy. destruct (decide (c = c')) as [->|Hne]; [|rewrite list_lookup_insert_ne by done; eauto].
    rewrite list_lookup_insert_eq by (by eapply lookup_lt_Some). simplify_eq. eexists. split_and!; [done|done|congruence]. }
  split; simpl.
  - intros h c'. rewrite lookup_delete_Some. split.
    + intros [Hne (y & Hy & Hly & Hh)%H1]. exists y. destruct (decide (c = c')) as [->|]; [congruence|]. by rewrite list_lookup_insert_ne.
    + intros (y & [(-> & <- & _)|[Hne Hy]]%list_lookup_insert_Some & Hly & Hh); [done|].
      assert (inflightCalls s !! h = Some c') as Hin' by (apply H1; by exists y). split; [|done]. intros E. congruence.
  - intros c' y [(-> & <- & _)|[Hne Hy]]%list_lookup_insert_Some; [simpl|]; by eapply H2.
  - intros i k c' Hi Hk. destruct (H3 i k c' Hi Hk) as (y & Hy & E). destruct (Hgrow _ _ Hy) as (y' & Hy' & E' & _). exists y'. split; [done|congruence].
  - intros i k slot Hi Hk. destruct (H4 i k slot Hi Hk) as (c' & y & Hy & Hg & E). destruct (Hgrow _ _ Hy) as (y' & Hy' & E' & Hsame).
    exists c', y'. rewrite (Hsame ltac:(by rewrite Hg)) in *. done.
Qed.

Lemma pstep_flights s s' : flights s → pstep s s' → flights s'.
Proof.
  intros H Hstep. destruct (failure_calls s) as (F1 & F2 & F3).
  destruct (signal_calls false (set_permits s (localUsed s - 1) (operationUsed s - 1) (proposalWG s - 1))) as (R1 & R2 & R3). simpl in R1, R2, R3.
  destruct (signal_calls false s) as (G1 & G2 & G3).
  destruct Hstep as [value lease|t i k Hi Hk|i k chan Hi Hk|i k c x r Hi Hk Hc Hx|i k c Hi Hk|c x retry r cs Hc Hx|c x r Hlm Hc Hx Hr|
    c x retry r Hc Hx|c x r Hc Hx|c x r Hc Hx|c x r Hc Hx|c x r Hc Hx|c x r Hc Hx|c x r Hc Hx Hlt|c x r e Hc Hx|c x r Hc Hx Hlt|c x r e Hc Hx|
    c x r Hc Hx|c x r Hc Hx|c x r Hc Hx|s' Hop|i Hq|i Hq Hwg Hf|i Hq Hwg Hf|i q Hq Hqq|s' Hop|i err Ht|callback s' Hop|i Ht|].
  all: open_ops.
  6-20: try (eapply (flights_put c x _ s); [done|exact Hc|by rewrite Hx|done|done|done|done]).
  - destruct H as [H1 H2 H3 H4]. split; simpl; try done.
    + intros j k c [Hj|[_ Hj]]%lookup_app_Some; [by eapply H3|]. destruct (j - length (callers s))%nat; [|done]. by injection Hj as <-.
    + intros j k slot [Hj|[_ Hj]]%lookup_app_Some; [by eapply H4|]. destruct (j - length (callers s))%nat; [|done]. by injection Hj as <-.
  - by apply flights_round.
  - by apply (flights_caller s _ i k KTry).
  - apply (flights_caller s _ i k (KReturned r)); try done. intros slot [= ->]. exists c, x. split_and!; [done|done|].
    destruct (fl_joined _ H i k c Hi Hk) as (x' & ? & ?). by simplify_eq.
  - by apply (flights_caller s _ i k (KReturned (0, Some PCommitUnknown))).
  - eapply (flights_put c x _ s); [done|exact Hc|by rewrite Hx|done|case_match; done..].
  - apply flights_finish; [done|done|by rewrite Hx].
  - by apply flights_signal, (flights_same s).
  - by apply (flights_same s).
  - by apply (flights_same s).
  - by apply (flights_same s).
  - simpl. destruct (closing s); [by apply (flights_same s)|by apply flights_signal, (flights_same s)].
  - by apply (flights_same s).
  - by apply flights_signal, (flights_same s).
  - by apply (flights_same s).
  - by apply (flights_same s).
  - by apply flights_signal, (flights_same s).
Qed.

(** ** Quiescence *)

Definition active (q : quiescer) : bool := match q with QEnded => false | _ => true end.

Record quiet (s : pserver) : Prop := {
  qt_flag i q : quiescers s !! i = Some q → active q = true → quiescing s = true;
  qt_one i j q q' : quiescers s !! i = Some q → quiescers s !! j = Some q' → active q = true → active q' = true → i = j;
  qt_held i : quiescers s !! i = Some QHeld → proposalWG s = 0;
}.

(** Quiescers stay; attempts start only outside a quiescence. *)
Lemma quiet_running s s' :
  quiet s → quiescers s' = quiescers s → quiescing s' = quiescing s →
  (quiescing s = true → proposalWG s = 0 → proposalWG s' = 0) → quiet s'.
Proof.
  intros [H1 H2 H3] Eq Ef Hwg. split; rewrite ?Eq, ?Ef; [done|done|]. intros i Hi. apply Hwg; [by eapply H1|by eapply H3].
Qed.

Lemma open_spec s : open s = true → closing s = false ∧ quiescing s = false ∧ failed s = false.
Proof. unfold open. intros H. bool_hyps. done. Qed.

Lemma running_positive c x s : counted s → calls s !! c = Some x → running (cPhase x) = true → 0 < proposalWG s.
Proof.
  intros H Hc Hr. rewrite (ct_running _ H). pose proof (total_member running_of (calls s) c x) as Hm.
  assert (∀ y, 0 <= running_of y) as Hpos by (intros y; unfold running_of, one; by case_match).
  assert (0 <= total task_running (tasks s)) by (apply total_nonneg; by intros []). specialize (Hm Hpos Hc). unfold running_of in Hm at 1. rewrite Hr in Hm. simpl in Hm. lia.
Qed.

Lemma task_positive i t s : counted s → tasks s !! i = Some t → t ≠ TEnded → 0 < proposalWG s.
Proof.
  intros H Hi Ht. rewrite (ct_running _ H). pose proof (total_member task_running (tasks s) i t ltac:(by intros []) Hi).
  assert (0 <= total running_of (calls s)) by (apply total_nonneg; intros y; unfold running_of, one; by case_match). destruct t; simpl in *; [lia|lia|done].
Qed.

Lemma signal_others b s :
  quiescers (signalAdmissionLocked b s) = quiescers s ∧ quiescing (signalAdmissionLocked b s) = quiescing s ∧ proposalWG (signalAdmissionLocked b s) = proposalWG s.
Proof. destruct (signal_frame b s) as (e & c & -> & _). done. Qed.

Lemma failure_others s :
  quiescers (FailLocalLifecycle localMode s) = quiescers s ∧ quiescing (FailLocalLifecycle localMode s) = quiescing s ∧
  proposalWG (FailLocalLifecycle localMode s) = proposalWG s.
Proof. destruct (failure_frame s) as [-> | ->]; [done|]. apply (signal_others true (set_flags s (closing s) (quiescing s) true)). Qed.

Lemma round_others t i k s s' :
  admission_round localMode sha256 t i k s = s' → quiescers s' = quiescers s ∧ quiescing s' = quiescing s ∧ (quiescing s = true → proposalWG s' = proposalWG s).
Proof.
  intros <-. unfold admission_round. destruct (cancelled1 t); [done|]. destruct (_ || _) eqn:E; [done|].
  apply orb_false_iff in E as [_ Ho]. apply negb_false_iff in Ho. apply open_spec in Ho as (_ & Hq & _). rewrite Hq.
  repeat case_match; split_and!; try done.
Qed.

Lemma quiet_signal b s : quiet s → quiet (signalAdmissionLocked b s).
Proof. intros H. destruct (signal_others b s) as (? & ? & ?). apply (quiet_running s); [done|done|done|congruence]. Qed.

(** A quiescer moves on. *)
Lemma quiet_quiescer i q q' s f ts :
  quiet s → quiescers s !! i = Some q → active q = true → (q' = QHeld → proposalWG s = 0) → (active q' = true → f = true) →
  quiet (set_others (set_flags s (closing s) f (failed s)) (<[i := q']> (quiescers s)) ts).
Proof.
  intros [H1 H2 H3] Hi Ha Hh Hf. split; simpl.
  - intros j y [(-> & <- & _)|[Hne Hj]]%list_lookup_insert_Some Hy; [auto|]. destruct (Hne (H2 _ _ _ _ Hi Hj Ha Hy)).
  - intros j j' y y' [(-> & <- & _)|[Hne Hj]]%list_lookup_insert_Some [(-> & <- & _)|[Hne' Hj']]%list_lookup_insert_Some Hy Hy'; [done| | |by eapply H2].
    + by eapply H2.
    + symmetry. by eapply H2.
  - intros j [(-> & -> & _)|[_ Hj]]%list_lookup_insert_Some; [auto|by eapply H3].
Qed.

Lemma pstep_quiet s s' : counted s → quiet s → pstep s s' → quiet s'.
Proof.
  intros Hct H Hstep. destruct (failure_others s) as (F1 & F2 & F3).
  destruct (signal_others false (set_permits s (localUsed s - 1) (operationUsed s - 1) (proposalWG s - 1))) as (R1 & R2 & R3). simpl in R1, R2, R3.
  destruct (signal_others false s) as (G1 & G2 & G3).
  destruct Hstep as [value lease|t i k Hi Hk|i k chan Hi Hk|i k c x r Hi Hk Hc Hx|i k c Hi Hk|c x retry r cs Hc Hx|c x r Hlm Hc Hx Hr|
    c x retry r Hc Hx|c x r Hc Hx|c x r Hc Hx|c x r Hc Hx|c x r Hc Hx|c x r Hc Hx|c x r Hc Hx Hlt|c x r e Hc Hx|c x r Hc Hx Hlt|c x r e Hc Hx|
    c x r Hc Hx|c x r Hc Hx|c x r Hc Hx|s' Hop|i Hq|i Hq Hwg Hf|i Hq Hwg Hf|i q Hq Hqq|s' Hop|i err Ht|callback s' Hop|i Ht|].
  all: open_ops.
  all: try (apply (quiet_running s); [done|done|done|simpl; congruence]).
  - destruct (round_others t i k s _ eq_refl) as (E1 & E2 & E3). apply (quiet_running s); [done|done|done|]. intros Hq. by rewrite (E3 Hq).
  - apply (quiet_running s); [done|case_match; done|case_match; done|case_match; simpl; congruence].
  - apply (quiet_running s); [done|done|done|]. intros _ Hz. pose proof (running_positive c x s Hct Hc ltac:(by rewrite Hx)). lia.
  - apply (quiet_running s); [done|done|done|]. intros _ Hz. pose proof (running_positive c x s Hct Hc ltac:(by rewrite Hx)). lia.
  - apply open_spec in Ho as (_ & Hq & _). apply (quiet_running s); [done|done|done|]. congruence.
  - unfold finishProposalLogical. apply quiet_signal, (quiet_running s); done.
  - apply quiet_signal. apply open_spec in Ho as (_ & Hq & _). destruct H as [H1 H2 H3].
    assert (∀ i q, quiescers s !! i = Some q → active q = false) as Hnone.
    { intros i q Hi. destruct (active q) eqn:Ea; [|done]. by rewrite (H1 i q Hi Ea) in Hq. }
    split; simpl; [done| |].
    + intros j j' y y' [Hj|[Hj Hy]]%lookup_app_Some [Hj'|[Hj' Hy']]%lookup_app_Some Ha Ha'; [by rewrite (Hnone _ _ Hj) in Ha|by rewrite (Hnone _ _ Hj) in Ha|by rewrite (Hnone _ _ Hj') in Ha'|].
      destruct (j - length (quiescers s))%nat eqn:E; [|done]. destruct (j' - length (quiescers s))%nat eqn:E'; [|done]. lia.
    + intros j [Hj|[_ Hj]]%lookup_app_Some; [by apply Hnone in Hj|]. destruct (j - length (quiescers s))%nat; done.
  - pose proof (quiet_quiescer i QWait QBackground s (quiescing s) (tasks s) H Hq eq_refl ltac:(done) (λ _, qt_flag _ H i _ Hq eq_refl)) as Hn.
    by apply (quiet_running _ _ Hn).
  - pose proof (quiet_quiescer i QWait QHeld s (quiescing s) (tasks s) H Hq eq_refl (λ _, Hwg) (λ _, qt_flag _ H i _ Hq eq_refl)) as Hn.
    by apply (quiet_running _ _ Hn).
  - pose proof (quiet_quiescer i QWait QEnded s (quiescing s) (tasks s) H Hq eq_refl ltac:(done) ltac:(done)) as Hn. by apply (quiet_running _ _ Hn).
  - assert (active q = true) as Ha by (by destruct Hqq as [->|[-> _]]). simpl.
    assert (∀ f, quiet (set_others (set_flags s (closing s) f (failed s)) (<[i := QEnded]> (quiescers s)) (tasks s))) as Hn by (intros f; by apply (quiet_quiescer i q QEnded)).
    destruct (closing s) eqn:Ec; [by apply (quiet_running _ _ (Hn (quiescing s)))|]. apply quiet_signal. by apply (quiet_running _ _ (Hn false)).
  - apply open_spec in Ho as (_ & Hq & _). apply (quiet_running s); [done|done|done|]. congruence.
  - apply quiet_signal, (quiet_running s); [done|done|done|]. intros _ Hz. pose proof (task_positive i _ s Hct Ht ltac:(done)). lia.
  - apply (quiet_running s); [done|done|done|]. intros _ Hz. pose proof (task_positive i _ s Hct Ht ltac:(done)). lia.
  - apply quiet_signal, (quiet_running s); done.
Qed.

(** ** Wake-ups *)

(** A thread that returned permits and has the signal still to give. *)
Definition aborting (s : pserver) : Prop := ∃ c x r, calls s !! c = Some x ∧ cPhase x = RAbort r.

(** A waiter whose channel is open waits for something that has not happened. *)
Definition waits (s : pserver) : Prop :=
  ∀ i k ch, callers s !! i = Some k → kPhase k = KWait ch →
    (ch <= changed s)%nat ∧
    (ch = changed s → kEpoch k = epoch s ∧ open s = true ∧ (blocked localMode (kValue k) s = true ∨ aborting s)).

Definition signalled (s : pserver) : Prop := ∀ i k ch, callers s !! i = Some k → kPhase k = KWait ch → (ch < changed s)%nat.

Lemma signalled_waits s : signalled s → waits s.
Proof. intros H i k ch Hi Hk. specialize (H i k ch Hi Hk). split; [lia|]. intros ->. lia. Qed.

Lemma signal_all b s s0 :
  waits s → counted s → waiters s0 = waiters s → callers s0 = callers s → changed s0 = changed s → signalled (signalAdmissionLocked b s0).
Proof.
  intros Hw Hct Ew Ek Ec i k ch. destruct (signal_frame b s0) as (e & c & -> & _ & Hlt & _). simpl. rewrite Ek. intros Hi Hk.
  destruct (Hw i k ch Hi Hk) as [Hle _].
  enough (waiters s0 ≠ 0) by (specialize (Hlt ltac:(done)); lia). rewrite Ew, (ct_waiters _ Hct).
  pose proof (total_member waiting_of (callers s) i k ltac:(intros y; unfold waiting_of; by case_match) Hi) as Hm.
  unfold waiting_of in Hm at 1. rewrite Hk in Hm. lia.
Qed.

(** Steps that neither signal nor free anything. *)
Lemma waits_keep s s' :
  waits s → callers s' = callers s → changed s' = changed s → epoch s' = epoch s → open s' = open s →
  (∀ v, blocked localMode v s = true → blocked localMode v s' = true ∨ aborting s') → (aborting s → aborting s') → waits s'.
Proof.
  intros H Ek Ec Ee Eo Hb Ha i k ch. rewrite Ek, Ec, Ee, Eo. intros Hi Hk. destruct (H i k ch Hi Hk) as [Hle Hw].
  split; [done|]. intros Hch. destruct (Hw Hch) as (? & ? & [?|?]); split_and!; auto.
Qed.

Lemma blocked_mono v s s' :
  localB s <= localB s' → operationB s <= operationB s' → localUsed s <= localUsed s' → operationUsed s <= operationUsed s' →
  blocked localMode v s = true → blocked localMode v s' = true.
Proof. unfold blocked. rewrite !orb_true_iff, !Z.ltb_lt, !Z.leb_le. lia. Qed.

Lemma aborting_put c x p s s0 :
  calls s !! c = Some x → calls s0 = calls s → (∀ r, cPhase x ≠ RAbort r) ∨ (∃ r, p = RAbort r) → aborting s → aborting (put_call c (with_cphase x p) s0).
Proof.
  intros Hc E Hx (c' & y & r & Hy & Hr). unfold aborting. simpl. rewrite E. destruct (decide (c = c')) as [->|Hne].
  - destruct Hx as [Hx|[r' ->]]; [simplify_eq; by destruct (Hx r)|]. exists c', (with_cphase x (RAbort r')), r'.
    rewrite list_lookup_insert_eq by (by eapply lookup_lt_Some). done.
  - exists c', y, r. by rewrite list_lookup_insert_ne.
Qed.

(** A call goes on without signal, keeping or taking permits, or giving them up before its signal. *)
Lemma waits_put c x p s l o wg :
  waits s → calls s !! c = Some x → (∀ r, cPhase x ≠ RAbort r) → (localUsed s <= l ∧ operationUsed s <= o) ∨ (∃ r, p = RAbort r) →
  waits (put_call c (with_cphase x p) (set_permits s l o wg)).
Proof.
  intros H Hc Hx Hp. apply (waits_keep s); try done; [|apply (aborting_put c x p s); auto].
  intros v Hb. destruct Hp as [[? ?]|[r ->]]; [left; revert Hb; apply blocked_mono; simpl; lia|right].
  exists c, (with_cphase x (RAbort r)), r. simpl. rewrite list_lookup_insert_eq by (by eapply lookup_lt_Some). done.
Qed.

Lemma waits_put_same c x p s : waits s → calls s !! c = Some x → (∀ r, cPhase x ≠ RAbort r) → waits (put_call c (with_cphase x p) s).
Proof.
  intros H Hc Hx. replace s with (set_permits s (localUsed s) (operationUsed s) (proposalWG s)) at 1 by (by destruct s).
  apply waits_put; [done|done|done|left; lia].
Qed.

Lemma waits_caller i k p s : waits s → callers s !! i = Some k → (∀ c, p ≠ KWait c) → waits (put_caller i k p s).
Proof.
  intros H Hi Hp j k' ch. simpl. intros [(-> & <- & _)|[_ Hj]]%list_lookup_insert_Some Hk; [by destruct (Hp ch)|]. by apply (H j k' ch).
Qed.


Lemma waits_failure s : counted s → waits s → waits (FailLocalLifecycle localMode s) ∧ (FailLocalLifecycle localMode s = s ∨ signalled (FailLocalLifecycle localMode s)).
Proof.
  intros Hct H. destruct (failure_frame s) as [-> | ->]; [auto|].
  assert (signalled (signalAdmissionLocked true (set_flags s (closing s) (quiescing s) true))) as Hs by (by apply (signal_all true s)).
  auto using signalled_waits.
Qed.

Lemma signalled_put c x s : signalled s → waits (put_call c x s).
Proof. intros H. apply signalled_waits. intros i k ch. apply H. Qed.

Lemma waits_round t i k s : waits s → callers s !! i = Some k → kPhase k = KTry → waits (admission_round localMode sha256 t i k s).
Proof.
  intros H Hi Hk. assert (∀ e, waits (put_caller i k (KReturned (0, Some e)) s)) as Hret by (intros e; by apply waits_caller).
  unfold admission_round. destruct (cancelled1 t); [apply Hret|]. destruct (_ || _) eqn:E; [apply Hret|].
  apply orb_false_iff in E as [He Ho]. apply negb_false_iff in He, Ho. apply Z.eqb_eq in He.
  destruct (inflightCalls s !! _) as [c|].
  { destruct (retain _ _) as [[ls owned]|]; [|apply Hret]. destruct (calls s !! c) as [x|] eqn:Hc; [|apply Hret]. apply waits_caller; [|done|done].
    apply (waits_keep s); try done; [by auto|]. intros (c' & y & r & Hy & Hr). unfold aborting. simpl. destruct (decide (c = c')) as [->|Hne].
    - simplify_eq. eexists c', _, r. rewrite list_lookup_insert_eq by (by eapply lookup_lt_Some). split; [done|]. done.
    - exists c', y, r. by rewrite list_lookup_insert_ne. }
  destruct (_ || _); [apply Hret|]. destruct (_ && _); [apply Hret|]. destruct (blocked _ _ _) eqn:Hb.
  { destruct (_ || _); [apply Hret|]. intros j k' ch. simpl. intros [(-> & <- & _)|[_ Hj]]%list_lookup_insert_Some Hk'; [|by apply (H j k' ch)].
    simpl in Hk'. injection Hk' as <-. split; [done|]. intros _. split_and!; [done|done|by left]. }
  destruct (cancelled2 t); [apply Hret|]. destruct (_ && _); [apply Hret|]. destruct (retain _ _) as [[ls owned]|]; [|apply Hret].
  apply waits_caller; [|done|done]. apply (waits_keep s); try done.
  - intros v Hv. left. revert Hv. pose proof (Nat2Z.is_nonneg (length (kValue k))). apply blocked_mono; simpl; unfold len; lia.
  - intros (c' & y & r & Hy & Hr). exists c', y, r. simpl. split; [|done]. by apply lookup_app_l_Some.
Qed.

Lemma pstep_waits s s' : counted s → waits s → pstep s s' → waits s'.
Proof.
  intros Hct H Hstep.
  destruct Hstep as [value lease|t i k Hi Hk|i k chan Hi Hk|i k c x r Hi Hk Hc Hx|i k c Hi Hk|c x retry r cs Hc Hx|c x r Hlm Hc Hx Hr|
    c x retry r Hc Hx|c x r Hc Hx|c x r Hc Hx|c x r Hc Hx|c x r Hc Hx|c x r Hc Hx|c x r Hc Hx Hlt|c x r e Hc Hx|c x r Hc Hx Hlt|c x r e Hc Hx|
    c x r Hc Hx|c x r Hc Hx|c x r Hc Hx|s' Hop|i Hq|i Hq Hwg Hf|i Hq Hwg Hf|i q Hq Hqq|s' Hop|i err Ht|callback s' Hop|i Ht|].
  all: open_ops.
  all: try (apply waits_put_same; [done|done|by rewrite Hx]).
  all: try (apply signalled_put; by apply (signal_all false s)).
  all: try (apply signalled_waits; by apply (signal_all _ s)).
  - intros j k' ch. simpl. intros [Hj|[_ Hj]]%lookup_app_Some Hk'; [by apply (H j k' ch)|]. destruct (j - length (callers s))%nat; [|done]. by injection Hj as <-.
  - by apply waits_round.
  - intros j k' ch. simpl. intros [(-> & <- & _)|[_ Hj]]%list_lookup_insert_Some Hk'; [done|]. by apply (H j k' ch).
  - by apply waits_caller.
  - by apply waits_caller.
  - case_match; [|apply waits_put_same; [done|done|by rewrite Hx]].
    destruct (waits_failure s Hct H) as [Hw [->|Hs]]; [apply waits_put_same; [done|done|by rewrite Hx]|by apply signalled_put].
  - destruct (waits_failure s Hct H) as [Hw [->|Hs]]; [apply waits_put_same; [done|done|by rewrite Hx]|by apply signalled_put].
  - apply waits_put; [done|done|by rewrite Hx|left; lia].
  - apply waits_put; [done|done|by rewrite Hx|left; lia].
  - apply waits_put; [done|done|by rewrite Hx|right; by eexists].
  - apply waits_put; [done|done|by rewrite Hx|right; by eexists].
  - by apply (waits_keep s); auto.
  - by apply (waits_keep s); auto.
  - by apply (waits_keep s); auto.
  - simpl. destruct (closing s) eqn:Ec; [by apply (waits_keep s); auto|]. apply signalled_waits. by apply (signal_all true s).
  - apply (waits_keep s); try done. intros v Hv. left. revert Hv. apply blocked_mono; simpl; lia.
  - by apply (waits_keep s); auto.
  - by apply (waits_keep s); auto.
Qed.

(** ** Theorems *)

Record pinv (s : pserver) : Prop := { pv_counted : counted s; pv_flights : flights s; pv_quiet : quiet s; pv_waits : waits s }.

Lemma pstep_inv s s' : pinv s → pstep s s' → pinv s'.
Proof. intros [H1 H2 H3 H4] Hs. split; [by eapply pstep_counted|by eapply pstep_flights|by eapply pstep_quiet|by eapply pstep_waits]. Qed.

Lemma newServer_inv : pinv newServer.
Proof.
  split.
  - split; simpl; try done. unfold Proposals.localLimit. by destruct localMode.
  - split; simpl; try done. intros h c. rewrite lookup_empty. split; [done|]. by intros (x & ? & _).
  - by split.
  - by intros i k ch.
Qed.

Lemma preachable_inv s : preachable localMode sha256 s → pinv s.
Proof.
  intros H. assert (∀ x y, rtc pstep x y → pinv x → pinv y) as Hrun.
  { induction 1 as [|x y z Hs _ IH]; [done|]. intros Hx. by eapply IH, pstep_inv. }
  eapply Hrun; [exact H|apply newServer_inv].
Qed.

(** The permits, the byte budgets and the wait group count what runs. *)
Theorem proposals_bounded s :
  preachable localMode sha256 s →
  localUsed s = total local_of (calls s) + total task_permit (tasks s) ∧ localUsed s <= localLimit ∧
  operationUsed s = total operation_of (calls s) + total task_permit (tasks s) ∧ operationUsed s <= maxProposalOperations ∧
  localB s = total bytes_of (calls s) ∧ localB s <= maxInflightEncodedByte ∧ operationB s <= maxProposalEncodedByte ∧
  proposalWG s = total running_of (calls s) + total task_running (tasks s).
Proof. intros [[H1 H2 H3 H4 H5 H6 (H7 & H8 & H9 & H10)] _ _ _]%preachable_inv. done. Qed.

(** A value is proposed once at a time.  No two unfinished calls have
    values with one hash, and a caller that got a slot got it from a call for a
    value with the hash of its own, that ended with this slot. *)
Theorem single_flight s :
  preachable localMode sha256 s →
  (∀ c c' x x', calls s !! c = Some x → calls s !! c' = Some x' → live (cPhase x) = true → live (cPhase x') = true →
     sha256 (cValue x) = sha256 (cValue x') → c = c') ∧
  ∀ i k slot, callers s !! i = Some k → kPhase k = KReturned (slot, None) →
    ∃ c x, calls s !! c = Some x ∧ cPhase x = RGone (slot, None) ∧ sha256 (cValue x) = sha256 (kValue k).
Proof.
  intros H%preachable_inv. destruct (pv_flights _ H) as [F1 F2 F3 F4]. split.
  - intros c c' x x' Hc Hc' Hl Hl' E. rewrite <-(F2 _ _ Hc), <-(F2 _ _ Hc') in E.
    assert (inflightCalls s !! cHash x = Some c) as H1 by (apply F1; by exists x).
    assert (inflightCalls s !! cHash x = Some c') as H2 by (apply F1; by exists x'). congruence.
  - intros i k slot Hi Hk. destruct (F4 i k slot Hi Hk) as (c & x & Hc & Hg & E). exists c, x. by rewrite <-(F2 _ _ Hc).
Qed.

(** C40: while [Quiesce] holds the server nothing touches it: no proposal
    attempt is in the core, not even the retry of an admitted proposal, no local
    lifecycle operation and no membership change runs. *)
Theorem quiesce_excludes s i :
  preachable localMode sha256 s → quiescers s !! i = Some QHeld →
  (∀ c x, calls s !! c = Some x → running (cPhase x) = false) ∧ (∀ j t, tasks s !! j = Some t → t = TEnded) ∧ open s = false.
Proof.
  intros H%preachable_inv Hi. pose proof (qt_held _ (pv_quiet _ H) i Hi) as Hz. pose proof (pv_counted _ H) as Hct. split_and!.
  - intros c x Hc. destruct (running (cPhase x)) eqn:E; [|done]. pose proof (running_positive c x s Hct Hc E). lia.
  - intros j t Hj. destruct (decide (t = TEnded)) as [|Hne]; [done|]. pose proof (task_positive j t s Hct Hj Hne). lia.
  - unfold open. rewrite (qt_flag _ (pv_quiet _ H) i _ Hi eq_refl). by rewrite orb_true_r.
Qed.

(** No caller sleeps through its turn.  A caller whose wake-up channel is
    still open entered in the current epoch of an open server, and the permits
    or budgets refuse its value now, or the thread that returned them is about
    to signal. *)
Theorem no_lost_wakeup s i k ch :
  preachable localMode sha256 s → callers s !! i = Some k → kPhase k = KWait ch → ch = changed s →
  kEpoch k = epoch s ∧ open s = true ∧ (blocked localMode (kValue k) s = true ∨ ∃ c x r, calls s !! c = Some x ∧ cPhase x = RAbort r).
Proof. intros H%preachable_inv Hi Hk Hch. by apply (pv_waits _ H i k ch). Qed.
End server.

(** ** Runs *)

Definition plain_hash (value : bytes) : ValueHash := value.
Definition no_wait : admissionTimes := mkTimes false false false false false false.
Definition may_wait : admissionTimes := mkTimes false false true false false false.

Definition held_server : pserver :=
  let s := signalAdmissionLocked true (set_others (set_flags newServer false true false) [QWait] []) in
  set_others s [QHeld] [].

Lemma held_reachable : preachable false plain_hash held_server.
Proof.
  eapply rtc_l; [by apply (p_quiesce _ _ newServer)|]. apply rtc_once.
  apply (p_quiesced false plain_hash (signalAdmissionLocked true (set_others (set_flags newServer false true false) [QWait] [])) 0); done.
Qed.

Lemma quiesce_excludes_witness :
  quiescers held_server !! 0%nat = Some QHeld ∧ (∀ c x, calls held_server !! c = Some x → running (cPhase x) = false) ∧
  (∀ j t, tasks held_server !! j = Some t → t = TEnded) ∧ open held_server = false.
Proof. split; [reflexivity|]. exact (quiesce_excludes false plain_hash held_server 0 held_reachable eq_refl). Defined.

(** In Local mode the second caller waits for the only permit. *)
Definition entered (value : bytes) (s : pserver) : pserver := set_callers s (callers s ++ [mkCaller value None (epoch s) KTry]).
Definition first_admitted : pserver := admission_round true plain_hash no_wait 0 (mkCaller [x61] None 0 KTry) (entered [x61] newServer).
Definition second_waiting : pserver := admission_round true plain_hash may_wait 1 (mkCaller [x62] None 0 KTry) (entered [x62] first_admitted).

Lemma second_waiting_reachable : preachable true plain_hash second_waiting.
Proof.
  eapply rtc_l; [apply (p_enter _ _ _ [x61] None)|]. eapply rtc_l; [apply (p_round _ _ _ no_wait 0 (mkCaller [x61] None 0 KTry)); reflexivity|].
  eapply rtc_l; [apply (p_enter _ _ _ [x62] None)|]. apply rtc_once. by apply (p_round _ _ _ may_wait 1 (mkCaller [x62] None 0 KTry)).
Qed.

Lemma no_lost_wakeup_witness :
  callers second_waiting !! 1%nat = Some (mkCaller [x62] None 0 (KWait 0)) ∧ 0 = epoch second_waiting ∧ open second_waiting = true ∧
  (blocked true [x62] second_waiting = true ∨ ∃ c x r, calls second_waiting !! c = Some x ∧ cPhase x = RAbort r).
Proof.
  assert (callers second_waiting !! 1%nat = Some (mkCaller [x62] None 0 (KWait 0))) as Hk by (by vm_compute).
  split; [exact Hk|].
  exact (no_lost_wakeup true plain_hash second_waiting 1 (mkCaller [x62] None 0 (KWait 0)) 0 second_waiting_reachable Hk eq_refl ltac:(by vm_compute)).
Defined.

Lemma single_flight_witness :
  inflightCalls second_waiting !! plain_hash [x61] = Some 0%nat ∧
  ∀ c c' x x', calls second_waiting !! c = Some x → calls second_waiting !! c' = Some x' → live (cPhase x) = true → live (cPhase x') = true →
    plain_hash (cValue x) = plain_hash (cValue x') → c = c'.
Proof. split; [by vm_compute|]. exact (proj1 (single_flight true plain_hash second_waiting second_waiting_reachable)). Defined.
