(* ===== verification/Programs.v ===== *)
(** * Programs that ask requests

    A program is a tree: it returns, or asks a request and goes on with the
    answer.  The operations on the object store are written this way, so that a
    run can interleave processes at their requests.  [R X] are the requests
    answered by an [X]. *)

From stdpp Require Import base tactics.
From S2P Require Import Prelude.

Inductive prog (R : Type → Type) (A : Type) : Type :=
| Ret (a : A)
| Do {X : Type} (r : R X) (k : X → prog R A).
Arguments Ret {R A}.
Arguments Do {R A X}.

Definition call {R : Type → Type} {X} (r : R X) : prog R X := Do r Ret.

Fixpoint pbind {R A B} (p : prog R A) (f : A → prog R B) : prog R B :=
  match p with
  | Ret a => f a
  | Do r k => Do r (λ x, pbind (k x) f)
  end.

(** Sequencing of programs that can fail: the first error is the result. *)
Definition tbind {R E A B} (p : prog R (result E A)) (f : A → prog R (result E B)) : prog R (result E B) :=
  pbind p (λ r, match r with Ok a => f a | Err e => Ret (Err e) end).

Declare Scope program_scope.
Delimit Scope program_scope with program.
Notation "x ← p ; k" := (pbind p (λ x, k)) (at level 20, p at level 100, k at level 200) : program_scope.
Notation "x ⇐ p ; k" := (tbind p (λ x, k)) (at level 20, p at level 100, k at level 200) : program_scope.
Notation "p ;; k" := (tbind p (λ _, k)) (at level 100, k at level 200, right associativity) : program_scope.

Section interpreter.
Context {R : Type → Type} {S : Type} (exec : ∀ X, R X → S → S * X).

(** A program that runs alone. *)
Fixpoint alone {A} (p : prog R A) (s : S) : S * A :=
  match p with
  | Ret a => (s, a)
  | Do r k => let '(s', x) := exec _ r s in alone (k x) s'
  end.

Lemma alone_bind {A B} (p : prog R A) (f : A → prog R B) s : alone (pbind p f) s = let '(s', a) := alone p s in alone (f a) s'.
Proof. revert s. induction p as [a|X r k IH]; intros s; simpl; [done|]. destruct (exec X r s) as [s' x]. apply IH. Qed.
End interpreter.

Section requests.
Context {R : Type → Type}.

(** For all answers, the requests are in [Q] and the result in [Φ]. *)
Fixpoint asks {A} (Q : ∀ X, R X → Prop) (Φ : A → Prop) (p : prog R A) : Prop :=
  match p with
  | Ret a => Φ a
  | Do r k => Q _ r ∧ ∀ x, asks Q Φ (k x)
  end.

Lemma asks_bind {A B} Q (p : prog R A) (f : A → prog R B) Φ Ψ : asks Q Φ p → (∀ a, Φ a → asks Q Ψ (f a)) → asks Q Ψ (pbind p f).
Proof. intros H Hf. induction p as [a|X r k IH]; simpl in *; [by apply Hf|]. destruct H. split; [done|]. intros x. by apply IH. Qed.

Lemma asks_weaken {A} Q (p : prog R A) (Φ Ψ : A → Prop) : (∀ a, Φ a → Ψ a) → asks Q Φ p → asks Q Ψ p.
Proof. intros H. induction p as [a|X r k IH]; simpl; [apply H|]. intros [? Hk]. split; [done|]. intros x. by apply IH. Qed.
End requests.
