(* ===== verification/Publish.v ===== *)
(** * Checkpoint publication, pins and collection (pkg/checkpoint/checkpoint.go, auto.go)

    Nodes share a namespace of an object store.  A publisher takes the claim
    object, uploads blocks and a root, binds the claim and moves CURRENT; a
    restore pins a root; garbage collection deletes old roots and blocks nobody
    refers to.  Claims and pins are leases, written with conditional uploads.

    An operation is a program that asks the store one request at a time, in the
    order of the code; [exec] answers a request.  A request can fail with or
    without its effect, the processes interleave at requests and can stop at
    any of them, listings may show objects that come later, and the clock is
    shared.  [Holding] marks that the code has just seen its own unexpired
    lease.  JSON is a parameter; a stored root is its descriptor.  The local
    cache of verified blocks, the append-only and managed profiles, the size
    limits of claims and pins and the parallel uploads of blocks are left out. *)

From stdpp Require Import gmap list sorting pretty.
From Stdlib Require String.
From S2P Require Import Prelude Programs.

(** ** Data *)

Definition blockSize : Z := Z.shiftl 64 20.
Definition maxCheckpointSize : Z := Z.shiftl 32 30.
Definition maxBlocks : Z := 512.
Definition maxRootSize : Z := Z.shiftl 64 10.
Definition maintenanceLease : Z := 120000.
Definition publisherLease : Z := 120000.
Definition forkLease : Z := 600000.

Inductive role := RoleSQLite | RoleGraphData | OtherRole (name : bytes).
#[global] Instance role_eq_dec : EqDecision role.
Proof. solve_decision. Defined.

(** Hashes are bytes; the code keeps those of blocks in hexadecimal. *)
Record Block := mkBlock { bHash : bytes; bGeneration : Z; bSize : Z }.
Record File := mkFile { fRole : role; fHash : bytes; fSize : Z; fBlocks : list Block }.
Record Source := mkSource { sRole : role; sContent : bytes }.
Record Checkpoint := mkCheckpoint {
  SQLExecutionPolicy : Z;
  cpConfigID : Z;
  cpGeneration : Z;
  cpIndex : Z;
  cpHash : bytes;
  cpSize : Z;
  cpFiles : list File;
}.

#[global] Instance Block_eq_dec : EqDecision Block.
Proof. solve_decision. Defined.
#[global] Instance File_eq_dec : EqDecision File.
Proof. solve_decision. Defined.
#[global] Instance Checkpoint_eq_dec : EqDecision Checkpoint.
Proof. solve_decision. Defined.

Inductive purpose := Publisher | Maintenance | Generation.
#[global] Instance purpose_eq_dec : EqDecision purpose.
Proof. solve_decision. Defined.

Record PublisherClaim := mkClaim {
  clConfigID : Z;
  clGeneration : Z;
  OwnerID : bytes;
  Purpose : purpose;
  LeaseUntilMS : Z;
  ReservedIndex : Z;
  BoundIndex : Z;
  clRootHash : bytes;
}.
#[global] Instance PublisherClaim_eq_dec : EqDecision PublisherClaim.
Proof. solve_decision. Defined.

Record currentPointer := mkPointer { ptrIndex : Z; ptrRoot : bytes }.

Record recoveryPinRecord := mkPin {
  pinConfigID : Z;
  pinOwner : bytes;
  pinToken : bytes;
  pinIndex : Z;
  pinRootHash : bytes;
  pinRoot : Checkpoint;
  pinLease : Z;
}.
#[global] Instance recoveryPinRecord_eq_dec : EqDecision recoveryPinRecord.
Proof. solve_decision. Defined.

(** [blockKey] or [blockGenerationKey]. *)
Definition blockName : Type := bytes * Z.
Definition blockObjectKey (b : Block) : blockName := (bHash b, bGeneration b).
Definition root_blocks (cp : Checkpoint) : list blockName := cpFiles cp ≫= λ f, map blockObjectKey (fBlocks f).

(** ** The store *)

(** [holders] and [promoted] are histories: the process that first stored a
    generation, with its purpose, and the roots CURRENT has named. *)
Record store := mkStore {
  clock : Z;
  versions : nat;
  claimObject : option (PublisherClaim * nat);
  current : option (currentPointer * nat);
  pins : gmap bytes (recoveryPinRecord * nat * Z);
  roots : gmap (Z * bytes) (Checkpoint * Z);
  blocks : gmap blockName Z;
  holders : gmap Z (nat * purpose);
  promoted : list Checkpoint;
}.

Definition empty_store : store := mkStore 0 0 None None ∅ ∅ ∅ ∅ [].

Inductive storeError := NotFound | ConditionNotMet | Failed.
Inductive condition := IfNotExists | IfMatch (version : nat).

Inductive rpc : Type → Type :=
| Now : rpc Z
| Choice : rpc bool
| Holding (lease : option (Z * Z)) : rpc unit
| AttrClaim : rpc (result storeError nat)
| GetClaim : rpc (result storeError PublisherClaim)
| WriteClaim (c : PublisherClaim) (cond : condition) : rpc (result storeError unit)
| AttrCurrent : rpc (result storeError nat)
| GetCurrent : rpc (result storeError currentPointer)
| WriteCurrent (p : currentPointer) (cond : condition) : rpc (result storeError unit)
| GetRoot (index : Z) (hash : bytes) : rpc (result storeError Checkpoint)
| AttrRoot (index : Z) (hash : bytes) : rpc (result storeError Z)
| PutRoot (index : Z) (hash : bytes) (cp : Checkpoint) : rpc (result storeError unit)
| DeleteRoot (index : Z) (hash : bytes) : rpc (result storeError unit)
| ListRoots : rpc (result storeError (list (Z * bytes)))
| PutBlock (b : blockName) (ifNotExists : bool) : rpc (result storeError unit)
| AttrBlock (b : blockName) : rpc (result storeError Z)
| DeleteBlock (b : blockName) : rpc (result storeError unit)
| ListBlocks : rpc (result storeError (list (blockName * option Z)))
| ListPins : rpc (result storeError (list bytes))
| AttrPin (key : bytes) : rpc (result storeError nat)
| GetPin (key : bytes) : rpc (result storeError recoveryPinRecord)
| WritePin (key : bytes) (r : recoveryPinRecord) (cond : condition) : rpc (result storeError unit).

(** What the environment decides of a request: its fault, before or after the
    effect, a choice, and what a listing shows beside the objects there are. *)
Record oracle := mkOracle {
  fault : option bool;
  choice : bool;
  laterRoots : list (Z * bytes);
  laterBlocks : list (blockName * option Z);
  laterPins : list bytes;
}.
Definition fine : oracle := mkOracle None true [] [] [].

Definition met (cond : condition) (version : option nat) : bool :=
  match cond with
  | IfNotExists => bool_decide (version = None)
  | IfMatch v => bool_decide (version = Some v)
  end.

Definition answered {X} (x : option X) : result storeError X := match x with Some y => Ok y | None => Err NotFound end.

Definition faulty {X} (o : oracle) (s : store) (r : store * result storeError X) : store * result storeError X :=
  match fault o with
  | None => r
  | Some false => (s, Err Failed)
  | Some true => (r.1, Err Failed)
  end.

Definition put_claim (i : nat) (c : PublisherClaim) (s : store) : store :=
  mkStore (clock s) (S (versions s)) (Some (c, versions s)) (current s) (pins s) (roots s) (blocks s)
    (if bool_decide (is_Some (holders s !! clGeneration c)) then holders s else <[clGeneration c := (i, Purpose c)]> (holders s)) (promoted s).
Definition put_current (p : currentPointer) (s : store) : store :=
  mkStore (clock s) (S (versions s)) (claimObject s) (Some (p, versions s)) (pins s) (roots s) (blocks s) (holders s)
    (match roots s !! (ptrIndex p, ptrRoot p) with Some (cp, _) => cp :: promoted s | None => promoted s end).
Definition put_pin (key : bytes) (r : recoveryPinRecord) (s : store) : store :=
  mkStore (clock s) (S (versions s)) (claimObject s) (current s) (<[key := (r, versions s, clock s)]> (pins s)) (roots s) (blocks s) (holders s) (promoted s).
Definition set_roots (s : store) (m : gmap (Z * bytes) (Checkpoint * Z)) : store :=
  mkStore (clock s) (versions s) (claimObject s) (current s) (pins s) m (blocks s) (holders s) (promoted s).
Definition set_blocks (s : store) (m : gmap blockName Z) : store :=
  mkStore (clock s) (versions s) (claimObject s) (current s) (pins s) (roots s) m (holders s) (promoted s).
Definition set_clock (s : store) (t : Z) : store :=
  mkStore t (versions s) (claimObject s) (current s) (pins s) (roots s) (blocks s) (holders s) (promoted s).

Definition exec (i : nat) {X} (r : rpc X) (o : oracle) (s : store) : store * X :=
  match r in rpc X return store * X with
  | Now => (s, clock s)
  | Choice => (s, choice o)
  | Holding _ => (s, tt)
  | AttrClaim => faulty o s (s, answered (snd <$> claimObject s))
  | GetClaim => faulty o s (s, answered (fst <$> claimObject s))
  | WriteClaim c cond => faulty o s (if met cond (snd <$> claimObject s) then (put_claim i c s, Ok tt) else (s, Err ConditionNotMet))
  | AttrCurrent => faulty o s (s, answered (snd <$> current s))
  | GetCurrent => faulty o s (s, answered (fst <$> current s))
  | WriteCurrent p cond => faulty o s (if met cond (snd <$> current s) then (put_current p s, Ok tt) else (s, Err ConditionNotMet))
  | GetRoot index hash => faulty o s (s, answered (fst <$> roots s !! (index, hash)))
  | AttrRoot index hash => faulty o s (s, answered (snd <$> roots s !! (index, hash)))
  | PutRoot index hash cp =>
      faulty o s (if bool_decide (is_Some (roots s !! (index, hash))) then (s, Err ConditionNotMet)
                  else (set_roots s (<[(index, hash) := (cp, clock s)]> (roots s)), Ok tt))
  | DeleteRoot index hash =>
      faulty o s (set_roots s (delete (index, hash) (roots s)), if bool_decide (is_Some (roots s !! (index, hash))) then Ok tt else Err NotFound)
  | ListRoots => faulty o s (s, Ok (map fst (map_to_list (roots s)) ++ laterRoots o))
  | PutBlock b ifNotExists =>
      faulty o s (if ifNotExists && bool_decide (is_Some (blocks s !! b)) then (s, Err ConditionNotMet)
                  else (set_blocks s (<[b := clock s]> (blocks s)), Ok tt))
  | AttrBlock b => faulty o s (s, answered (blocks s !! b))
  | DeleteBlock b => faulty o s (set_blocks s (delete b (blocks s)), if bool_decide (is_Some (blocks s !! b)) then Ok tt else Err NotFound)
  | ListBlocks => faulty o s (s, Ok (map (λ e, (e.1, Some e.2)) (map_to_list (blocks s)) ++ laterBlocks o))
  | ListPins => faulty o s (s, Ok (map fst (map_to_list (pins s)) ++ laterPins o))
  | AttrPin key => faulty o s (s, answered ((λ e, e.1.2) <$> pins s !! key))
  | GetPin key => faulty o s (s, answered ((λ e, e.1.1) <$> pins s !! key))
  | WritePin key r cond => faulty o s (if met cond ((λ e, e.1.2) <$> pins s !! key) then (put_pin key r s, Ok tt) else (s, Err ConditionNotMet))
  end.

(** ** Programs *)

Abbreviation prog := (Programs.prog rpc).

Inductive publishError :=
| EStore (e : storeError)
| EInvalid
| ErrPublisherBusy
| ErrRecoveryAdmissionBusy
| ErrPublisherFenced
| ErrStaleCheckpoint
| ErrAuthoritativeRecoveryBaseRequired.

Definition presult (A : Type) : Type := prog (result publishError A).

Definition ask {X} (r : rpc (result storeError X)) : presult X :=
  pbind (call r) (λ x, Ret (match x with Ok a => Ok a | Err e => Err (EStore e) end)).

#[local] Open Scope program_scope.

Definition fenced {A} : presult A := Ret (Err ErrPublisherFenced).
Definition invalid {A} : presult A := Ret (Err EInvalid).

(** The version of the object must be the same before and after its data is
    read, within four rounds. *)
Fixpoint readStableLeaseObject {A} (attr : rpc (result storeError nat)) (get : rpc (result storeError A)) (rounds : nat) : presult (A * nat) :=
  match rounds with
  | O => Ret (Err EInvalid)
  | S n =>
      before ⇐ ask attr;
      data ⇐ ask get;
      after ⇐ ask attr;
      if bool_decide (before = after) then Ret (Ok (data, after)) else readStableLeaseObject attr get n
  end.

Definition maxUint64 : Z := 2 ^ 64 - 1.

Section manager.
Context (configID : Z) (expectedPolicy : Z) (sha256 : bytes → bytes) (marshal : Checkpoint → bytes).

(** ** Claims *)

Definition needs_index (p : purpose) : bool := match p with Maintenance => false | _ => true end.

Definition readPublisherClaim : presult (PublisherClaim * nat) :=
  x ⇐ readStableLeaseObject AttrClaim GetClaim 4;
  let c := x.1 in
  if negb (clConfigID c =? configID) || (clGeneration c =? 0) || bool_decide (OwnerID c = []) || (needs_index (Purpose c) && (ReservedIndex c =? 0))
  then invalid else Ret (Ok x).

Definition with_lease (c : PublisherClaim) (t : Z) : PublisherClaim :=
  mkClaim (clConfigID c) (clGeneration c) (OwnerID c) (Purpose c) t (ReservedIndex c) (BoundIndex c) (clRootHash c).

Definition confirmPublisherClaim (expected : PublisherClaim) : presult PublisherClaim :=
  x ← readPublisherClaim;
  match x with
  | Err (EStore NotFound) => fenced
  | Err e => Ret (Err e)
  | Ok (stored, _) =>
      now ← call Now;
      if negb (bool_decide (stored = expected)) || (LeaseUntilMS stored <=? now) then fenced else Ret (Ok stored)
  end.

(** The caller goes on under the lease it has just seen. *)
Definition under {A} (c : PublisherClaim) (x : A) : presult A :=
  _ ← call (Holding (Some (clGeneration c, LeaseUntilMS c))); Ret (Ok x).

Fixpoint acquire_attempts (attempts : nat) (first : bool) (owner : bytes) (minExclusive lease : Z) (p : purpose) : presult PublisherClaim :=
  match attempts with
  | O => Ret (Err ErrPublisherBusy)
  | S n =>
      let attempt (generation floor : Z) (cond : condition) (now : Z) : presult PublisherClaim :=
        let claim := mkClaim configID generation owner p (now + lease) (if bool_decide (p = Publisher) then floor + 1 else 0) 0 [] in
        if bool_decide (p = Publisher) && (floor =? maxUint64) then invalid
        else
          x ← call (WriteClaim claim cond);
          match x with
          | Err ConditionNotMet => acquire_attempts n false owner minExclusive lease p
          | Err e => Ret (Err (EStore e))
          | Ok _ => c ⇐ confirmPublisherClaim claim; under c c
          end in
      x ← readPublisherClaim;
      match x with
      | Err (EStore NotFound) => now ← call Now; attempt 1 minExclusive IfNotExists now
      | Err e => Ret (Err e)
      | Ok (c, v) =>
          now ← call Now;
          if now <? LeaseUntilMS c then Ret (Err (if bool_decide (p = Maintenance) && first then ErrRecoveryAdmissionBusy else ErrPublisherBusy))
          else if clGeneration c =? maxUint64 then invalid
          else attempt (clGeneration c + 1) (Z.max minExclusive (Z.max (ReservedIndex c) (BoundIndex c))) (IfMatch v) now
      end
  end.

Definition acquireClaim (owner : bytes) (minExclusive lease : Z) (p : purpose) : presult PublisherClaim :=
  acquire_attempts 4 true owner minExclusive lease p.

Definition AcquirePublisherClaim (owner : bytes) (minExclusive lease : Z) : presult PublisherClaim :=
  if bool_decide (owner = []) || (lease <=? 0) then invalid else acquireClaim owner minExclusive lease Publisher.

Definition acquireMaintenanceClaim (owner : bytes) (lease : Z) : presult PublisherClaim :=
  if bool_decide (owner = []) || (lease <=? 0) then invalid else acquireClaim owner 0 lease Maintenance.

(** The claim in the store is still the one given and unexpired; the marked
    lease is what the code has seen. *)
Definition same_claim (c claim : PublisherClaim) : bool :=
  bool_decide (Purpose c = Purpose claim) && (clGeneration c =? clGeneration claim) && bool_decide (OwnerID c = OwnerID claim).

Definition validatePublisherLease (claim : PublisherClaim) : presult unit :=
  x ← readPublisherClaim;
  match x with
  | Err (EStore NotFound) => fenced
  | Err e => Ret (Err e)
  | Ok (c, _) =>
      now ← call Now;
      if bool_decide (Purpose c = Maintenance) || negb (same_claim c claim) || (LeaseUntilMS c <=? now) then fenced
      else under c tt
  end.

Definition validateMaintenanceClaim (claim : PublisherClaim) : presult unit :=
  x ⇐ readPublisherClaim;
  let c := x.1 in
  now ← call Now;
  if negb (bool_decide (Purpose c = Maintenance)) || negb (clGeneration c =? clGeneration claim) || negb (bool_decide (OwnerID c = OwnerID claim)) ||
     (LeaseUntilMS c <=? now) then fenced
  else under c tt.

Definition upload_claim (c : PublisherClaim) (v : nat) : presult unit :=
  x ← call (WriteClaim c (IfMatch v));
  match x with
  | Err ConditionNotMet => fenced
  | Err e => Ret (Err (EStore e))
  | Ok _ => Ret (Ok tt)
  end.

Definition BindPublisherClaim (claim : PublisherClaim) (index : Z) (root : bytes) (lease : Z) : presult PublisherClaim :=
  if lease <=? 0 then fenced
  else
    x ⇐ readPublisherClaim;
    let '(c, v) := x in
    now ← call Now;
    if negb (clConfigID c =? clConfigID claim) || negb (ReservedIndex c =? ReservedIndex claim) || bool_decide (Purpose c = Maintenance) ||
       negb (same_claim c claim) || (LeaseUntilMS c <=? now) || (index <? ReservedIndex c) ||
       (bool_decide (Purpose c = Generation) && negb (index =? ReservedIndex c)) then fenced
    else
      now' ← call Now;
      let c' := mkClaim (clConfigID c) (clGeneration c) (OwnerID c) (Purpose c) (now' + lease) (ReservedIndex c) index root in
      upload_claim c' v;;
      stored ⇐ confirmPublisherClaim c';
      under stored stored.

Definition RenewPublisherClaim (claim : PublisherClaim) (lease : Z) : presult PublisherClaim :=
  if lease <=? 0 then fenced
  else
    x ⇐ readPublisherClaim;
    let '(c, v) := x in
    now ← call Now;
    if negb (clConfigID c =? clConfigID claim) || negb (ReservedIndex c =? ReservedIndex claim) || negb (same_claim c claim) ||
       negb (BoundIndex c =? BoundIndex claim) || negb (bool_decide (clRootHash c = clRootHash claim)) || (LeaseUntilMS c <=? now) then fenced
    else
      now' ← call Now;
      upload_claim (with_lease c (now' + lease)) v;;
      confirmPublisherClaim (with_lease c (now' + lease)).

Definition ReleasePublisherClaim (claim : PublisherClaim) : presult unit :=
  _ ← call (Holding None);
  x ⇐ readPublisherClaim;
  let '(c, v) := x in
  if negb (same_claim c claim) then fenced
  else now ← call Now; upload_claim (with_lease c now) v.

(** ** Roots *)

Definition hex_digit (n : Z) : byte := Zbyte (if n <? 10 then 48 + n else 87 + n).
Definition hex (l : bytes) : bytes := l ≫= λ b, [hex_digit (byteZ b / 16); hex_digit (byteZ b mod 16)].
Definition text (t : String.string) : bytes := String.list_byte_of_string t.
Definition decimal (n : Z) : bytes := text (pretty n).
Definition role_name (r : role) : bytes := match r with RoleSQLite => text "sqlite"%string | RoleGraphData => text "graph-data"%string | OtherRole n => n end.

Definition fileDescriptorHash (l : list Block) : bytes :=
  sha256 (l ≫= λ b, hex (bHash b) ++ text ":"%string ++ decimal (bGeneration b) ++ text ":"%string ++ decimal (bSize b) ++ [x0a]).
Definition stateHash (l : list File) : bytes :=
  sha256 (l ≫= λ f, role_name (fRole f) ++ text ":"%string ++ hex (fHash f) ++ text ":"%string ++ decimal (fSize f) ++ [x0a]).

(** Every block but the last is full. *)
Fixpoint block_layout (l : list Block) : bool :=
  match l with
  | [] => true
  | b :: l' => (len (bHash b) =? 32) && (0 <? bSize b) && (bSize b <=? blockSize) && (bool_decide (l' = []) || (bSize b =? blockSize)) && block_layout l'
  end.

Definition file_valid (f : File) : bool :=
  match fRole f with OtherRole _ => false | _ => true end && (0 <? fSize f) && negb (bool_decide (fBlocks f = [])) && block_layout (fBlocks f) &&
  (total bSize (fBlocks f) =? fSize f) && bool_decide (fHash f = fileDescriptorHash (fBlocks f)).

Definition file_roles (l : list File) : list role := map fRole l.

(** sqlpolicy: 7 is the plain profile, 8 and 9 the mixed ones, 10 the graph one. *)
Definition policy_known : bool := bool_decide (expectedPolicy ∈ [7; 8; 9; 10]).
Definition profile (roles : list role) : bool :=
  (negb (expectedPolicy =? 10) || bool_decide (roles = [RoleSQLite; RoleGraphData])) &&
  (negb ((expectedPolicy =? 8) || (expectedPolicy =? 9)) || bool_decide (roles = [RoleSQLite])).

Definition validateRoot (cp : Checkpoint) : bool :=
  policy_known && (SQLExecutionPolicy cp =? expectedPolicy) && profile (file_roles (cpFiles cp)) &&
  (cpConfigID cp =? configID) && negb (cpGeneration cp =? 0) && negb (cpIndex cp =? 0) && (0 <? cpSize cp) && (cpSize cp <=? maxCheckpointSize) &&
  (1 <=? len (cpFiles cp)) && (len (cpFiles cp) <=? 2) &&
  bool_decide (NoDup (file_roles (cpFiles cp))) && forallb file_valid (cpFiles cp) &&
  bool_decide (RoleSQLite ∈ file_roles (cpFiles cp)) && (len (root_blocks cp) <=? maxBlocks) &&
  (total fSize (cpFiles cp) =? cpSize cp) && bool_decide (cpHash cp = stateHash (cpFiles cp)).

Definition RootHash (cp : Checkpoint) : bytes := sha256 (marshal cp).

Definition readRoot (index : Z) (hash : bytes) : presult Checkpoint :=
  cp ⇐ ask (GetRoot index hash);
  if (maxRootSize <? len (marshal cp)) || negb (bool_decide (RootHash cp = hash)) then invalid
  else if validateRoot cp then Ret (Ok cp) else invalid.

Definition OpenRoot (index : Z) (hash : bytes) : presult Checkpoint :=
  cp ⇐ readRoot index hash;
  if cpIndex cp =? index then Ret (Ok cp) else invalid.

Fixpoint read_roots (l : list (Z * bytes)) : presult (list Checkpoint) :=
  match l with
  | [] => Ret (Ok [])
  | (index, hash) :: l' =>
      cp ⇐ readRoot index hash;
      if negb (cpIndex cp =? index) then invalid
      else rest ⇐ read_roots l'; Ret (Ok (cp :: rest))
  end.

Definition root_before (x y : Checkpoint) : Prop :=
  lex_cmp (cpIndex x ?= cpIndex y) (bytes_compare (RootHash x) (RootHash y)) ≠ Gt.
#[local] Instance root_before_dec : RelDecision root_before.
Proof. intros x y. unfold root_before. solve_decision. Defined.

Definition sortRoots (l : list Checkpoint) : list Checkpoint := merge_sort root_before l.

Definition loadAll : presult (list Checkpoint) :=
  l ⇐ ask ListRoots;
  cps ⇐ read_roots l;
  Ret (Ok (sortRoots cps)).

(** [Load] of the plain profile: what CURRENT names. *)
Definition Load : presult (option Checkpoint) :=
  x ← call GetCurrent;
  match x with
  | Err NotFound => Ret (Ok None)
  | Err e => Ret (Err (EStore e))
  | Ok p =>
      cp ⇐ readRoot (ptrIndex p) (ptrRoot p);
      if negb (cpIndex cp =? ptrIndex p) then invalid else Ret (Ok (Some cp))
  end.

(** [refreshCertifiedCurrent]: a cached root is kept when CURRENT names it. *)
Definition refreshCertifiedCurrent (certified : option Checkpoint) : presult (option Checkpoint) :=
  x ← call GetCurrent;
  match x with
  | Err NotFound => Ret (Ok None)
  | Err e => Ret (Err (EStore e))
  | Ok p =>
      match certified with
      | Some cp => if (cpIndex cp =? ptrIndex p) && bool_decide (RootHash cp = ptrRoot p) then Ret (Ok certified)
                   else cp' ⇐ OpenRoot (ptrIndex p) (ptrRoot p); Ret (Ok (Some cp'))
      | None => cp' ⇐ OpenRoot (ptrIndex p) (ptrRoot p); Ret (Ok (Some cp'))
      end
  end.

(** ** Publication *)

Fixpoint split_at (n : Z) (l : bytes) : bytes * bytes :=
  match l with
  | [] => ([], [])
  | b :: l' => if n <=? 0 then ([], l) else let '(x, y) := split_at (n - 1) l' in (b :: x, y)
  end.

Fixpoint chunks (fuel : nat) (l : bytes) : list bytes :=
  match fuel, l with
  | O, _ | _, [] => []
  | S n, _ => let '(x, y) := split_at blockSize l in x :: chunks n y
  end.

(** [knownBlocks]: the blocks of the certified root, by hash. *)
Definition knownBlocks (certified : option Checkpoint) : gmap bytes Block :=
  match certified with
  | None => ∅
  | Some cp => foldl (λ m b, <[bHash b := b]> m) ∅ (cpFiles cp ≫= fBlocks)
  end.

(** A block the certified root has is reused; else the plain key is written if
    it is free, and if it is taken the key of the claim's generation. *)
Definition upload_block (generation : Z) (known : gmap bytes Block) (content : bytes) : presult Block :=
  let hash := sha256 content in
  let fresh : presult Block :=
    x ← call (PutBlock (hash, 0) true);
    match x with
    | Ok _ => Ret (Ok (mkBlock hash 0 (len content)))
    | Err ConditionNotMet => ask (PutBlock (hash, generation) false);; Ret (Ok (mkBlock hash generation (len content)))
    | Err e => Ret (Err (EStore e))
    end in
  match known !! hash with
  | Some b => if bSize b =? len content then Ret (Ok (mkBlock hash (bGeneration b) (len content))) else fresh
  | None => fresh
  end.

Fixpoint upload_blocks (generation : Z) (known : gmap bytes Block) (l : list bytes) : presult (list Block) :=
  match l with
  | [] => Ret (Ok [])
  | content :: l' => b ⇐ upload_block generation known content; rest ⇐ upload_blocks generation known l'; Ret (Ok (b :: rest))
  end.

Definition uploadFile (source : Source) (generation : Z) (known : gmap bytes Block) : presult File :=
  let size := len (sContent source) in
  if (size <=? 0) || (maxCheckpointSize <? size) then invalid
  else
    bs ⇐ upload_blocks generation known (chunks (length (sContent source)) (sContent source));
    Ret (Ok (mkFile (sRole source) (fileDescriptorHash bs) size bs)).

Fixpoint upload_files (sources : list Source) (generation count : Z) (known : gmap bytes Block) : presult (list File) :=
  match sources with
  | [] => Ret (Ok [])
  | source :: l =>
      f ⇐ uploadFile source generation known;
      if maxBlocks <? count + len (fBlocks f) then invalid
      else rest ⇐ upload_files l generation (count + len (fBlocks f)) known; Ret (Ok (f :: rest))
  end.

Definition uploadCandidate (certified : option Checkpoint) (sources : list Source) (index generation : Z) : presult Checkpoint :=
  files ⇐ upload_files sources generation 0 (knownBlocks certified);
  let size := total fSize files in
  if maxCheckpointSize <? size then invalid
  else
    let cp := mkCheckpoint expectedPolicy configID generation index (stateHash files) size files in
    if maxRootSize <? len (marshal cp) then invalid
    else
      x ← call (PutRoot index (RootHash cp) cp);
      match x with
      | Ok _ | Err ConditionNotMet => Ret (Ok cp)
      | Err e => Ret (Err (EStore e))
      end.

Definition validateSources (sources : list Source) : bool :=
  bool_decide (map sRole sources = [RoleSQLite]) || bool_decide (map sRole sources = [RoleSQLite; RoleGraphData]).

(** The check of the SQLite file against the policy is a choice. *)
Definition CreateFiles (certified : option Checkpoint) (claim : PublisherClaim) (sources : list Source) (index : Z) : presult Checkpoint :=
  if negb (policy_known && validateSources sources && profile (map sRole sources)) then invalid
  else
    checked ← call Choice;
    if negb checked || (index =? 0) then invalid
    else
      validatePublisherLease claim;;
      certified' ⇐ refreshCertifiedCurrent certified;
      uploadCandidate certified' sources index (clGeneration claim).

Fixpoint promote_attempts (attempts : nat) (cp : Checkpoint) : presult unit :=
  match attempts with
  | O => Ret (Err EInvalid)
  | S n =>
      let upload (cond : condition) : presult unit :=
        x ← call (WriteCurrent (mkPointer (cpIndex cp) (RootHash cp)) cond);
        match x with
        | Ok _ => Ret (Ok tt)
        | Err ConditionNotMet => promote_attempts n cp
        | Err e => Ret (Err (EStore e))
        end in
      a ← call AttrCurrent;
      match a with
      | Err NotFound => upload IfNotExists
      | Err e => Ret (Err (EStore e))
      | Ok v =>
          p ⇐ ask GetCurrent;
          if cpIndex cp <? ptrIndex p then OpenRoot (ptrIndex p) (ptrRoot p);; Ret (Err ErrStaleCheckpoint)
          else if (ptrIndex p =? cpIndex cp) && negb (bool_decide (ptrRoot p = RootHash cp)) then invalid
          else if ptrIndex p =? cpIndex cp then Ret (Ok tt)
          else upload (IfMatch v)
      end
  end.

Definition PromoteCertifiedCurrent (claim : option PublisherClaim) (cp : Checkpoint) : presult unit :=
  match claim with Some c => validatePublisherLease c | None => Ret (Ok tt) end;;
  OpenRoot (cpIndex cp) (RootHash cp);;
  promote_attempts 4 cp.

(** ** Generation claims *)

Fixpoint generation_attempts (attempts : nat) (owner : bytes) (index lease : Z) (currentRoot : option Checkpoint) : presult PublisherClaim :=
  match attempts with
  | O => Ret (Err ErrPublisherBusy)
  | S n =>
      let attempt (generation : Z) (cond : condition) (now : Z) : presult PublisherClaim :=
        let claim := mkClaim configID generation owner Generation (now + lease) index 0 [] in
        x ← call (WriteClaim claim cond);
        match x with
        | Err ConditionNotMet => generation_attempts n owner index lease currentRoot
        | Err e => Ret (Err (EStore e))
        | Ok _ => c ⇐ confirmPublisherClaim claim; under c c
        end in
      x ← readPublisherClaim;
      match x with
      | Err (EStore NotFound) =>
          now ← call Now;
          match currentRoot with Some _ => fenced | None => attempt 1 IfNotExists now end
      | Err e => Ret (Err e)
      | Ok (c, v) =>
          now ← call Now;
          if negb (bool_decide (Purpose c = Generation)) || negb (bool_decide (OwnerID c = owner)) || (index <? BoundIndex c) || negb (ReservedIndex c =? index)
          then fenced
          else if match currentRoot with Some cp => negb (cpIndex cp =? index) || negb (BoundIndex c =? index) | None => false end then fenced
          else if now <? LeaseUntilMS c then Ret (Err ErrPublisherBusy)
          else if clGeneration c =? maxUint64 then invalid
          else attempt (clGeneration c + 1) (IfMatch v) now
      end
  end.

Definition AcquireGenerationClaim (certified : option Checkpoint) (owner : bytes) (index lease : Z) : presult PublisherClaim :=
  if bool_decide (owner = []) || (index =? 0) || (lease <=? 0) then invalid
  else
    currentRoot ⇐ refreshCertifiedCurrent certified;
    generation_attempts 4 owner index lease currentRoot.

(** ** Maintenance and pins *)

Definition checkpoint_gc : bytes := text "checkpoint-gc"%string.

(** The renewals of the claim are the work of another goroutine, whose failure
    can be the result. *)
Definition withMaintenanceClaim {A} (work : PublisherClaim → presult A) : presult A :=
  claim ⇐ acquireMaintenanceClaim checkpoint_gc maintenanceLease;
  r ← work claim;
  released ← ReleasePublisherClaim claim;
  match r, released with
  | Err e, _ => Ret (Err e)
  | Ok x, (Ok _ | Err ErrPublisherFenced) => renewed ← call Choice; if renewed : bool then Ret (Ok x) else fenced
  | Ok _, Err e => Ret (Err e)
  end.

Definition recoveryPinRoot (r : recoveryPinRecord) : option Checkpoint :=
  let cp := pinRoot r in
  if (cpIndex cp =? pinIndex r) && (cpConfigID cp =? pinConfigID r) && validateRoot cp && bool_decide (RootHash cp = pinRootHash r) then Some cp else None.

Definition readRecoveryPin (key : bytes) : presult (recoveryPinRecord * nat) :=
  x ⇐ readStableLeaseObject (AttrPin key) (GetPin key) 4;
  let r := x.1 in
  if negb (pinConfigID r =? configID) || bool_decide (pinOwner r = []) || bool_decide (pinToken r = []) || (pinIndex r =? 0) then invalid
  else match recoveryPinRoot r with None => invalid | Some _ => Ret (Ok x) end.

Definition pin_lease (r : recoveryPinRecord) (t : Z) : recoveryPinRecord :=
  mkPin (pinConfigID r) (pinOwner r) (pinToken r) (pinIndex r) (pinRootHash r) (pinRoot r) t.

Definition confirmRecoveryPin (key : bytes) (expected : recoveryPinRecord) : presult recoveryPinRecord :=
  x ← readRecoveryPin key;
  match x with
  | Err (EStore NotFound) => fenced
  | Err e => Ret (Err e)
  | Ok (stored, _) =>
      now ← call Now;
      if negb (bool_decide (stored = expected)) || (pinLease stored <=? now) then fenced else Ret (Ok stored)
  end.

Fixpoint pin_attempts (attempts : nat) (key : bytes) (record : recoveryPinRecord) : presult recoveryPinRecord :=
  match attempts with
  | O => Ret (Err ErrPublisherBusy)
  | S n =>
      let upload (cond : condition) : presult recoveryPinRecord :=
        w ← call (WritePin key record cond);
        match w with
        | Err ConditionNotMet => pin_attempts n key record
        | Err e => Ret (Err (EStore e))
        | Ok _ => confirmRecoveryPin key record
        end in
      x ← readRecoveryPin key;
      match x with
      | Err (EStore NotFound) => upload IfNotExists
      | Err e => Ret (Err e)
      | Ok (existing, v) =>
          now ← call Now;
          if now <? pinLease existing then Ret (Err ErrPublisherBusy) else upload (IfMatch v)
      end
  end.

Definition pin_key (owner : bytes) : bytes := sha256 owner.

Definition PinRecoveryRoot (cp : Checkpoint) (owner token : bytes) (lease : Z) : presult recoveryPinRecord :=
  if bool_decide (owner = []) || (lease <=? 0) || negb (validateRoot cp) then invalid
  else
    pin ⇐ withMaintenanceClaim (λ _,
      ask (AttrRoot (cpIndex cp) (RootHash cp));;
      now ← call Now;
      pin_attempts 4 (pin_key owner) (mkPin configID owner token (cpIndex cp) (RootHash cp) cp (now + lease)));
    now ← call Now;
    if pinLease pin <=? now then fenced else Ret (Ok pin).

Definition same_pin (r p : recoveryPinRecord) : bool :=
  (pinConfigID r =? pinConfigID p) && bool_decide (pinOwner r = pinOwner p) && bool_decide (pinToken r = pinToken p) &&
  (pinIndex r =? pinIndex p) && bool_decide (pinRootHash r = pinRootHash p).

Definition upload_pin (key : bytes) (r : recoveryPinRecord) (v : nat) : presult unit :=
  x ← call (WritePin key r (IfMatch v));
  match x with
  | Err ConditionNotMet => fenced
  | Err e => Ret (Err (EStore e))
  | Ok _ => Ret (Ok tt)
  end.

(** [RecoveryPin.Renew] and [RecoveryPin.Close]. *)
Definition Renew (key : bytes) (pin : recoveryPinRecord) (lease : Z) : presult unit :=
  if lease <=? 0 then fenced
  else
    x ⇐ readRecoveryPin key;
    let '(r, v) := x in
    now ← call Now;
    if negb (same_pin r pin) || (pinLease r <=? now) then fenced
    else
      now' ← call Now;
      upload_pin key (pin_lease r (now' + lease)) v;;
      now'' ← call Now;
      if now' + lease <=? now'' then fenced else Ret (Ok tt).

Definition ClosePin (key : bytes) (pin : recoveryPinRecord) : presult unit :=
  x ← readRecoveryPin key;
  match x with
  | Err (EStore NotFound) => Ret (Ok tt)
  | Err e => Ret (Err e)
  | Ok (r, v) => if negb (same_pin r pin) then fenced else now ← call Now; upload_pin key (pin_lease r now) v
  end.

(** ** Garbage collection *)

(** The roots of the pins that are active; an expired pin is ended for good. *)
Fixpoint active_pins (now : Z) (keys : list bytes) : presult (list Checkpoint) :=
  match keys with
  | [] => Ret (Ok [])
  | key :: l =>
      x ← readRecoveryPin key;
      match x with
      | Err (EStore NotFound) => active_pins now l
      | Err e => Ret (Err e)
      | Ok (r, v) =>
          if pinLease r =? 0 then active_pins now l
          else if pinLease r <=? now then
            w ← call (WritePin key (pin_lease r 0) (IfMatch v));
            match w with
            | Err ConditionNotMet => Ret (Err ErrPublisherBusy)
            | Err e => Ret (Err (EStore e))
            | Ok _ => active_pins now l
            end
          else
            match recoveryPinRoot r with
            | None => invalid
            | Some cp => rest ⇐ active_pins now l; Ret (Ok (cp :: rest))
            end
      end
  end.

Definition activeRecoveryRoots : presult (list Checkpoint) :=
  now ← call Now;
  keys ⇐ ask ListPins;
  active_pins now keys.

(** An answer of the store that the object is gone is no error. *)
Definition deleted (r : rpc (result storeError unit)) : presult unit :=
  x ← call r;
  match x with
  | Err NotFound | Ok _ => Ret (Ok tt)
  | Err e => Ret (Err (EStore e))
  end.

Fixpoint sweep_roots (claim : PublisherClaim) (keepRoots : gset bytes) (floor cutoff : Z) (l : list Checkpoint) : presult (list Checkpoint * list Checkpoint) :=
  match l with
  | [] => Ret (Ok ([], []))
  | cp :: l' =>
      modified ⇐ ask (AttrRoot (cpIndex cp) (RootHash cp));
      if bool_decide (RootHash cp ∈ keepRoots) || ((floor <=? cpIndex cp) && negb (floor =? 0)) || (cutoff <? modified) then
        rest ⇐ sweep_roots claim keepRoots floor cutoff l'; Ret (Ok (cp :: rest.1, rest.2))
      else
        validateMaintenanceClaim claim;;
        deleted (DeleteRoot (cpIndex cp) (RootHash cp));;
        rest ⇐ sweep_roots claim keepRoots floor cutoff l'; Ret (Ok (rest.1, cp :: rest.2))
  end.

Fixpoint sweep_blocks (claim : PublisherClaim) (live : gset blockName) (cutoff : Z) (l : list (blockName * option Z)) : presult unit :=
  match l with
  | [] => Ret (Ok tt)
  | (b, t) :: l' =>
      if bool_decide (b ∈ live) then sweep_blocks claim live cutoff l'
      else
        modified ⇐ match t with Some z => Ret (Ok z) | None => ask (AttrBlock b) end;
        if cutoff <? modified then sweep_blocks claim live cutoff l'
        else
          validateMaintenanceClaim claim;;
          deleted (DeleteBlock b);;
          sweep_blocks claim live cutoff l'
  end.

Definition live_blocks (l : list Checkpoint) : gset blockName := list_to_set (l ≫= root_blocks).

(** The last [keep] roots of a sorted list. *)
Definition newest (keep : nat) (l : list Checkpoint) : list Checkpoint := drop (length l - keep) l.

Definition garbageCollect (claim : PublisherClaim) (retain : gset bytes) (keep : nat) (floor grace : Z) : presult unit :=
  pinned ⇐ activeRecoveryRoots;
  certified ⇐ Load;
  checkpoints ⇐ loadAll;
  let keepRoots : gset bytes :=
    retain ∪ list_to_set (map RootHash pinned) ∪ list_to_set (map RootHash (option_list certified)) ∪ list_to_set (map RootHash (newest keep checkpoints)) in
  now ← call Now;
  let cutoff := now - grace in
  swept ⇐ sweep_roots claim keepRoots floor cutoff checkpoints;
  pruned ← call Choice;
  if negb pruned then invalid
  else
    l ⇐ ask ListBlocks;
    sweep_blocks claim (live_blocks (swept.1 ++ swept.2 ++ pinned)) cutoff l.

Definition GarbageCollectFrom (retain : gset bytes) (keep : nat) (floor grace : Z) : presult unit :=
  if floor =? 0 then Ret (Err ErrAuthoritativeRecoveryBaseRequired)
  else if (keep <? 1)%nat || (grace <? 0) then invalid
  else withMaintenanceClaim (λ claim, garbageCollect claim retain keep floor grace).

(** ** Clients *)

(** [AutoCheckpointer.create] with a candidate: the callback has peers prepare
    the checkpoint, proposes its seal and archives the log, and moves CURRENT. *)
Fixpoint publish_candidate (attempts : nat) (claim : PublisherClaim) (cp : Checkpoint) : presult unit :=
  match attempts with
  | O => invalid
  | S n =>
      sealed ← call Choice;
      r ← if sealed : bool then PromoteCertifiedCurrent (Some claim) cp else invalid;
      match r with
      | Ok _ => ReleasePublisherClaim claim
      | Err ErrPublisherFenced => fenced
      | Err ErrStaleCheckpoint => Ret (Err ErrStaleCheckpoint)
      | Err _ => publish_candidate n claim cp
      end
  end.

(** [AutoCheckpointer.create] without a candidate; the files of the snapshot
    are [sources]. *)
Definition create (certified : option Checkpoint) (owner : bytes) (claimFloor : Z) (sources : list Source) (index : Z) (attempts : nat) : presult unit :=
  claim ⇐ AcquirePublisherClaim owner claimFloor publisherLease;
  advanced ← call Choice;
  r ← if advanced : bool then CreateFiles certified claim sources index else invalid;
  match r with
  | Err e => _ ← ReleasePublisherClaim claim; Ret (Err e)
  | Ok cp =>
      if index <? ReservedIndex claim then _ ← ReleasePublisherClaim claim; invalid
      else
        claim' ⇐ BindPublisherClaim claim index (RootHash cp) publisherLease;
        publish_candidate attempts claim' cp
  end.

(** The checkpoint of a new generation in its own namespace
    (MaterializeGeneration of pkg/recovery/anchor.go); the comparison of the
    files of an earlier run is a choice. *)
Definition materialize_checkpoint (owner : bytes) (sources : list Source) (index : Z) : presult unit :=
  target ⇐ Load;
  match target with
  | Some cp => same ← call Choice; if (cpIndex cp =? index) && same then Ret (Ok tt) else invalid
  | None =>
      claim ⇐ AcquireGenerationClaim None owner index forkLease;
      r ← (cp ⇐ CreateFiles None claim sources index;
           BindPublisherClaim claim index (RootHash cp) forkLease;;
           PromoteCertifiedCurrent (Some claim) cp);
      _ ← ReleasePublisherClaim claim;
      Ret r
  end.

Fixpoint renew_pin (renewals : nat) (key : bytes) (pin : recoveryPinRecord) (lease : Z) : presult unit :=
  match renewals with
  | O => ClosePin key pin
  | S n => r ← Renew key pin lease; match r with Ok _ => renew_pin n key pin lease | Err _ => ClosePin key pin end
  end.

Definition restore (cp : Checkpoint) (owner token : bytes) (lease : Z) (renewals : nat) : presult unit :=
  pin ⇐ PinRecoveryRoot cp owner token lease;
  renew_pin renewals (pin_key owner) pin lease.

Definition lease_of (p : purpose) : Z := match p with Publisher => publisherLease | Maintenance => maintenanceLease | Generation => forkLease end.

Inductive client :=
| CPublish (certified : option Checkpoint) (owner : bytes) (claimFloor : Z) (sources : list Source) (index : Z) (attempts : nat)
| CGeneration (owner : bytes) (sources : list Source) (index : Z)
| CCollect (retain : gset bytes) (keep : nat) (floor grace : Z)
| CRestore (cp : Checkpoint) (owner token : bytes) (lease : Z) (renewals : nat)
| CRenewClaim (claim : PublisherClaim).

Definition ended {A} (p : presult A) : prog unit := pbind p (λ _, Ret tt).

Definition client_prog (c : client) : prog unit :=
  match c with
  | CPublish certified owner claimFloor sources index attempts => ended (create certified owner claimFloor sources index attempts)
  | CGeneration owner sources index => ended (materialize_checkpoint owner sources index)
  | CCollect retain keep floor grace => ended (GarbageCollectFrom retain keep floor grace)
  | CRestore cp owner token lease renewals => ended (restore cp owner token lease renewals)
  | CRenewClaim claim => ended (RenewPublisherClaim claim (lease_of (Purpose claim)))
  end.

(** ** Runs *)

Record process := mkProcess { pRest : prog unit; pHolding : option (Z * Z) }.

Record world := mkWorld { shared : store; processes : list process }.

Inductive event :=
| ETick (delay : Z)
| ESpawn (c : client)
| ERun (i : nat) (o : oracle).

(** What a stale process must not do: move CURRENT, delete, pin. *)
Definition leased {X} (r : rpc X) : bool :=
  match r with WriteCurrent _ _ | DeleteRoot _ _ | DeleteBlock _ | WritePin _ _ _ => true | _ => false end.

Definition next_holding {X} (r : rpc X) (h : option (Z * Z)) : option (Z * Z) :=
  match r with Holding l => l | _ => h end.

(** In a timely run such a request takes effect before the lease the process
    last saw has expired. *)
Definition may_run (timely : bool) (h : option (Z * Z)) {X} (r : rpc X) (s : store) : bool :=
  match h with Some (_, until) => negb (timely && leased r) || (clock s <? until) | None => true end.

Definition happen (timely : bool) (e : event) (w : world) : option world :=
  match e with
  | ETick d => if 0 <=? d then Some (mkWorld (set_clock (shared w) (clock (shared w) + d)) (processes w)) else None
  | ESpawn c => Some (mkWorld (shared w) (processes w ++ [mkProcess (client_prog c) None]))
  | ERun i o =>
      match processes w !! i with
      | Some (mkProcess (Do r k) h) =>
          if may_run timely h r (shared w) then
            let '(s, x) := exec i r o (shared w) in Some (mkWorld s (<[i := mkProcess (k x) (next_holding r h)]> (processes w)))
          else None
      | _ => None
      end
  end.

Fixpoint history (timely : bool) (es : list event) (w : world) : option world :=
  match es with
  | [] => Some w
  | e :: es' => match happen timely e w with Some w' => history timely es' w' | None => None end
  end.

Definition start_world : world := mkWorld empty_store [].
End manager.
