(* ===== verification/PublishLogic.v ===== *)
(** * Reasoning about interleaved store programs

    A process keeps an assertion that the other processes and the clock
    preserve; each of its requests keeps the invariant of the store, does what
    [guar] lets a process do, and leads to the next assertion.  [ok_world] says
    that this is enough for every run. *)

From stdpp Require Import gmap list.
From S2P Require Import Prelude Programs Publish.

Section logic.
Context (configID expectedPolicy : Z) (sha256 : bytes → bytes) (marshal : Checkpoint → bytes) (timely : bool).

Abbreviation RootHash := (Publish.RootHash sha256 marshal).

Definition root_key (cp : Checkpoint) : Z * bytes := (cpIndex cp, RootHash cp).

(** The process whose generation the claim object has. *)
Definition held_by (i : nat) (maintenance : bool) (s : store) : Prop :=
  ∃ c v p, claimObject s = Some (c, v) ∧ holders s !! clGeneration c = Some (i, p) ∧ bool_decide (p = Maintenance) = maintenance.

Definition has_blocks (cp : Checkpoint) (s : store) : Prop := ∀ b, b ∈ root_blocks cp → is_Some (blocks s !! b).
Definition stored (cp : Checkpoint) (s : store) : Prop := is_Some (roots s !! root_key cp).

(** A pin that was unexpired when it was written. *)
Definition alive (s : store) (k : bytes) (r : recoveryPinRecord) : Prop := ∃ v t, pins s !! k = Some (r, v, t) ∧ t < pinLease r.

Record intact (s : store) : Prop := {
  in_current : ∀ p v, current s = Some (p, v) → ∃ cp, cp ∈ promoted s ∧ root_key cp = (ptrIndex p, ptrRoot p) ∧ stored cp s;
  in_blocks : ∀ cp, cp ∈ promoted s → stored cp s → has_blocks cp s;
  in_pins : ∀ k r, alive s k r → pinRoot r ∈ promoted s → stored (pinRoot r) s;
}.

Record inv (s : store) : Prop := {
  iv_clock : 0 <= clock s;
  iv_claim : ∀ c v, claimObject s = Some (c, v) →
    (v < versions s)%nat ∧ (∃ j, holders s !! clGeneration c = Some (j, Purpose c)) ∧
    (∀ g x, holders s !! g = Some x → g <= clGeneration c) ∧ LeaseUntilMS c <= clock s + lease_of (Purpose c);
  iv_none : claimObject s = None → holders s = ∅;
  iv_current : ∀ p v, current s = Some (p, v) → (v < versions s)%nat;
  iv_pins : ∀ k r v t, pins s !! k = Some (r, v, t) → (v < versions s)%nat ∧ 0 <= t <= clock s;
  iv_roots : ∀ k cp t, roots s !! k = Some (cp, t) → k = root_key cp;
  iv_promoted : ∀ cp, cp ∈ promoted s → is_Some (holders s !! cpGeneration cp);
  iv_intact : timely = true → intact s;
}.

(** ** What a process may do *)

Inductive claim_change (i : nat) (s s' : store) : Prop :=
| cc_same : claimObject s' = claimObject s → holders s' = holders s → claim_change i s s'
| cc_kept c v c' v' :
    claimObject s = Some (c, v) → claimObject s' = Some (c', v') → (versions s <= v')%nat → clGeneration c' = clGeneration c → holders s' = holders s →
    ((LeaseUntilMS c <= LeaseUntilMS c') ∨ (∃ p, holders s !! clGeneration c = Some (i, p))) → claim_change i s s'
| cc_new c' v' :
    claimObject s' = Some (c', v') → (versions s <= v')%nat → holders s !! clGeneration c' = None →
    holders s' = <[clGeneration c' := (i, Purpose c')]> (holders s) →
    (∀ c v, claimObject s = Some (c, v) → LeaseUntilMS c <= clock s) → claim_change i s s'.

Record guar (i : nat) (s s' : store) : Prop := {
  gu_clock : clock s' = clock s;
  gu_versions : (versions s <= versions s')%nat;
  gu_claim : claim_change i s s';
  gu_current : current s' = current s ∨
    ∃ p' v', current s' = Some (p', v') ∧ (versions s <= v')%nat ∧ (∀ p v, current s = Some (p, v) → ptrIndex p < ptrIndex p') ∧
      (timely = true → held_by i false s);
  gu_promoted : promoted s' = promoted s ∨
    ∃ cp p, promoted s' = cp :: promoted s ∧ holders s !! cpGeneration cp = Some (i, p) ∧ (timely = true → held_by i false s);
  gu_blocks : ∀ b, is_Some (blocks s !! b) → (is_Some (blocks s' !! b)) ∨ (timely = true → held_by i true s);
  gu_roots : ∀ k, is_Some (roots s !! k) → is_Some (roots s' !! k) ∨ (timely = true → held_by i true s);
  gu_new : ∀ k cp t, roots s' !! k = Some (cp, t) → is_Some (roots s !! k) ∨ ((cp ∉ promoted s) ∧ ∃ p, holders s !! cpGeneration cp = Some (i, p));
  gu_pins : ∀ k, pins s' !! k = pins s !! k ∨
    ∃ r' v' t', pins s' !! k = Some (r', v', t') ∧ (versions s <= v')%nat ∧
      (t' < pinLease r' → (∃ r, alive s k r ∧ pinRoot r = pinRoot r') ∨ (timely = true → held_by i true s));
}.

Definition rely (i : nat) (s s' : store) : Prop :=
  (∃ d, 0 <= d ∧ s' = set_clock s (clock s + d)) ∨ ∃ j, j ≠ i ∧ guar j s s'.

Definition stable (i : nat) (P : store → Prop) : Prop := ∀ s s', inv s → inv s' → rely i s s' → P s → P s'.

(** The lease a process has seen is its own and not over. *)
Definition holding_ok (i : nat) (h : option (Z * Z)) (s : store) : Prop :=
  match h with
  | None => True
  | Some (g, until) =>
      (∃ p, holders s !! g = Some (i, p)) ∧
      (clock s < until → ∃ c v, claimObject s = Some (c, v) ∧ clGeneration c = g ∧ until <= LeaseUntilMS c)
  end.

(** ** Programs that keep the rules *)

Fixpoint ok (i : nat) {A} (p : prog A) (h : option (Z * Z)) (P : store → Prop) (Q : A → option (Z * Z) → store → Prop) : Prop :=
  match p with
  | Ret a => ∀ s, inv s → P s → Q a h s
  | Do r k => ∀ s o, inv s → holding_ok i h s → P s → may_run timely h r s = true →
      let s' := (exec i r o s).1 in
      let x := (exec i r o s).2 in
      let h' := next_holding r h in
      inv s' ∧ guar i s s' ∧ holding_ok i h' s' ∧ ∃ P', stable i P' ∧ P' s' ∧ ok i (k x) h' P' Q
  end.

Lemma ok_weaken i {A} (p : prog A) h (P P' : store → Prop) Q :
  (∀ s, inv s → P' s → P s) → ok i p h P Q → ok i p h P' Q.
Proof. destruct p as [a|X r k]; simpl; eauto. Qed.

(** A pure part of the assertion. *)
Lemma ok_pure i {A} (p : prog A) h (φ : Prop) (P : store → Prop) Q : (φ → ok i p h P Q) → ok i p h (λ s, φ ∧ P s) Q.
Proof. intros H. destruct p as [a|X r k]; simpl in *; [intros s ? []; by apply H|]. intros s o Hi Hh [Hφ HP] Hr. by apply H. Qed.

Lemma ok_consequence i {A} (p : prog A) h P (Q Q' : A → option (Z * Z) → store → Prop) :
  (∀ a h s, inv s → Q a h s → Q' a h s) → ok i p h P Q → ok i p h P Q'.
Proof.
  intros HQ. revert h P. induction p as [a|X r k IH]; intros h P; simpl; [by eauto|].
  intros H s o Hi Hh HP Hr. destruct (H s o Hi Hh HP Hr) as (? & ? & ? & P' & ? & ? & ?). eauto 10.
Qed.

Lemma ok_bind i {A B} (p : prog A) (f : A → prog B) h P Q R :
  ok i p h P Q → (∀ a h', ok i (f a) h' (Q a h') R) → ok i (pbind p f) h P R.
Proof.
  revert h P. induction p as [a|X r k IH]; intros h P; simpl.
  - intros H Hf. eapply ok_weaken; [|apply Hf]. simpl. eauto.
  - intros H Hf s o Hi Hh HP Hr. destruct (H s o Hi Hh HP Hr) as (? & ? & ? & P' & ? & ? & ?). split_and!; [done..|]. exists P'. eauto.
Qed.

(** For fallible programs: what follows an error is the error. *)
Lemma ok_tbind i {A B} (p : presult A) (f : A → presult B) h P Q R :
  ok i p h P Q → (∀ a h', ok i (f a) h' (Q (Ok a) h') R) → (∀ e h' s, inv s → Q (Err e) h' s → R (Err e) h' s) → ok i (tbind p f) h P R.
Proof. intros H Hf He. eapply ok_bind; [exact H|]. intros [a|e] h'; [apply Hf|]. simpl. eauto. Qed.

(** A request that reads. *)
Definition reads {X} (r : rpc X) : bool :=
  match r with
  | Now | Choice | AttrClaim | GetClaim | AttrCurrent | GetCurrent | GetRoot _ _ | AttrRoot _ _ | ListRoots | AttrBlock _ | ListBlocks | ListPins
  | AttrPin _ | GetPin _ => true
  | _ => false
  end.

Lemma exec_reads i {X} (r : rpc X) o s : reads r = true → (exec i r o s).1 = s ∧ ∀ h, next_holding r h = h.
Proof. destruct r; simpl; try done; unfold faulty; by destruct (fault o) as [[]|]. Qed.

Lemma guar_refl i s : guar i s s.
Proof. split; eauto using cc_same. Qed.

Lemma ok_read i {X A} (r : rpc X) (k : X → prog A) h P Q :
  reads r = true →
  (∀ s o, inv s → P s → ∃ P', stable i P' ∧ P' s ∧ ok i (k (exec i r o s).2) h P' Q) → ok i (Do r k) h P Q.
Proof.
  intros Hr H s o Hi Hh HP _. destruct (exec_reads i r o s Hr) as [E1 E2]. rewrite E1, E2.
  split_and!; [done|apply guar_refl|done|by apply H].
Qed.

Lemma stable_and i P Q : stable i P → stable i Q → stable i (λ s, P s ∧ Q s).
Proof. intros HP HQ s s' Hi Hi' Hr [H1 H2]. split; [by apply (HP s s')|by apply (HQ s s')]. Qed.

Lemma stable_const i (P : Prop) : stable i (λ _, P).
Proof. intros s s' _ _ _ H. exact H. Qed.

Lemma stable_impl i (P : Prop) (Q : store → Prop) : (P → stable i Q) → stable i (λ s, P → Q s).
Proof. intros H s s' Hi Hi' Hr HQ HP. apply (H HP s s' Hi Hi' Hr), HQ, HP. Qed.

Lemma stable_all i {A} (P : A → store → Prop) : (∀ x, stable i (P x)) → stable i (λ s, ∀ x, P x s).
Proof. intros H s s' Hi Hi' Hr HP x. apply (H x s s' Hi Hi' Hr), HP. Qed.

Lemma stable_ex i {A} (P : A → store → Prop) : (∀ x, stable i (P x)) → stable i (λ s, ∃ x, P x s).
Proof. intros H s s' Hi Hi' Hr [x HP]. exists x. by apply (H x s s'). Qed.

(** ** Worlds *)

Definition process_ok (s : store) (i : nat) (p : process) : Prop :=
  holding_ok i (pHolding p) s ∧ ∃ P, stable i P ∧ P s ∧ ok i (pRest p) (pHolding p) P (λ _ _ _, True).

Record world_ok (w : world) : Prop := {
  wo_inv : inv (shared w);
  wo_processes : ∀ i p, processes w !! i = Some p → process_ok (shared w) i p;
}.

Lemma holding_stable i h : stable i (holding_ok i h).
Proof.
  intros s s' Hi Hi' Hr. destruct h as [[g until]|]; [|done]. cbn [holding_ok]. intros [[p Hp] H]. destruct Hr as [(d & Hd & ->)|(j & Hj & G)].
  - split; [by exists p|]. simpl. intros Hlt. apply H. lia.
  - destruct G as [G1 G2 G3 _ _ _ _ _ _]. rewrite G1. destruct G3 as [E1 E2|c v c' v' E1 E2 Hv Eg Eh Hl|c' v' E1 Hv Hn Eh Hx].
    + rewrite E2. split; [by exists p|]. by rewrite E1.
    + rewrite Eh. split; [by exists p|]. intros Hlt. destruct (H Hlt) as (c0 & v0 & E & Hg & Hu). simplify_eq. exists c', v'. split_and!; [done|done|].
      destruct Hl as [?|[p' Hp']]; [lia|]. simplify_eq.
    + split; [exists p; rewrite Eh, lookup_insert_ne; [done|congruence]|]. intros Hlt. destruct (H Hlt) as (c0 & v0 & E & _ & Hu). pose proof (Hx _ _ E). lia.
Qed.

Lemma inv_tick s d : 0 <= d → inv s → inv (set_clock s (clock s + d)).
Proof.
  intros Hd [H1 H2 H3 H4 H5 H6 H7 H8]. split; simpl; try done; [lia| | |].
  - intros c v E. destruct (H2 c v E) as (? & ? & ? & ?). split_and!; [done..|lia].
  - intros k r v t E. destruct (H5 k r v t E). lia.
  - intros Ht. destruct (H8 Ht) as [I1 I2 I3]. by split.
Qed.

Lemma process_rely s s' i p : inv s → inv s' → rely i s s' → process_ok s i p → process_ok s' i p.
Proof.
  intros Hi Hi' Hr (Hh & P & Hs & HP & Hok). split; [by apply (holding_stable i (pHolding p) s s')|].
  exists P. split_and!; [done|by apply (Hs s s')|done].
Qed.

Lemma inv_start : inv empty_store.
Proof.
  split; simpl; try done; try set_solver.
  intros _. split; [done|set_solver|]. intros k r (v & t & E & _). done.
Qed.

Context (clients_ok : ∀ i c, ok i (client_prog configID expectedPolicy sha256 marshal c) None (λ _, True) (λ _ _ _, True)).

Abbreviation happen := (Publish.happen configID expectedPolicy sha256 marshal timely).
Abbreviation history := (Publish.history configID expectedPolicy sha256 marshal timely).

(** A step of a world, and what the store went through. *)
Definition store_step (s s' : store) : Prop := (∃ d, 0 <= d ∧ s' = set_clock s (clock s + d)) ∨ s' = s ∨ ∃ i, guar i s s'.

Lemma happen_ok e w w' : world_ok w → happen e w = Some w' → world_ok w' ∧ store_step (shared w) (shared w').
Proof.
  intros [Hi Hp]. destruct e as [d|c|i o]; simpl.
  - destruct (Z.leb_spec 0 d); [|done]. intros [= <-]. pose proof (inv_tick _ _ H Hi) as Hi'. split; [|left; eauto]. split; simpl; [done|].
    intros j p Hj. apply (process_rely (shared w)); [done|done| |by apply Hp]. left. eauto.
  - intros [= <-]. split; [|right; by left]. split; simpl; [done|]. intros j p [Hj|[_ Hj]]%lookup_app_Some; [by apply Hp|].
    destruct (j - length (processes w))%nat; [|done]. injection Hj as <-. split; [done|]. exists (λ _, True). split_and!; [apply stable_const|done|apply clients_ok].
  - destruct (processes w !! i) as [[[a|X r k] h]|] eqn:Ei; [done| |done].
    destruct (may_run timely h r (shared w)) eqn:Er; [|done]. destruct (exec i r o (shared w)) as [s' x] eqn:Ex. intros [= <-].
    destruct (Hp _ _ Ei) as (Hh & P & Hs & HP & Hok). destruct (Hok (shared w) o Hi Hh HP Er) as (Hi' & Hg & Hh' & P' & Hs' & HP' & Hok').
    rewrite Ex in Hi', Hg, Hh', HP', Hok'. simpl in *. split; [|right; right; by exists i]. split; simpl; [done|].
    intros j p [(<- & <- & _)|[Hne Hj]]%list_lookup_insert_Some; [split; [done|]; by exists P'|].
    apply (process_rely (shared w)); [done|done| |by apply Hp]. right. by exists i.
Qed.

Lemma history_ok es w w' : world_ok w → history es w = Some w' → world_ok w' ∧ rtc store_step (shared w) (shared w').
Proof.
  revert w. induction es as [|e es IH]; intros w Hw; simpl.
  - intros [= <-]. split; [done|apply rtc_refl].
  - destruct (happen e w) as [w1|] eqn:E; [|done]. intros H. destruct (happen_ok _ _ _ Hw E) as [Hw1 Hs]. destruct (IH _ Hw1 H) as [? ?].
    split; [done|]. by eapply rtc_l.
Qed.

Lemma start_ok : world_ok start_world.
Proof. split; [apply inv_start|done]. Qed.

Lemma reachable_ok es w : history es start_world = Some w → world_ok w.
Proof. intros H. exact (proj1 (history_ok _ _ _ start_ok H)). Qed.
End logic.
