(* ===== verification/PublishClaims.v ===== *)
(** * Claims of the checkpoint namespace

    What reading, taking, binding, renewing and releasing the claim object
    establishes for the process that does it, while the others go on. *)

From stdpp Require Import gmap list.
From S2P Require Import Prelude Programs Publish PublishLogic.

#[local] Open Scope program_scope.

#[global] Arguments PublishLogic.ok : simpl never.
#[global] Arguments tbind : simpl never.
#[global] Arguments pbind : simpl never.
#[global] Arguments ask : simpl never.
#[global] Arguments exec : simpl never.

(** Stability of a conjunction, by the hints of its parts. *)
Create HintDb stable.
#[global] Hint Resolve stable_const : stable.
Ltac stab :=
  lazymatch goal with
  | |- PublishLogic.stable _ _ _ _ (λ s, @?P s ∧ @?Q s) => apply (stable_and _ _ _ _ P Q); [stab|stab]
  | _ => solve [eauto with stable]
  end.

Section claims.
Context (configID expectedPolicy : Z) (sha256 : bytes → bytes) (marshal : Checkpoint → bytes) (timely : bool).
Context (root_inj : ∀ x y : Checkpoint, RootHash sha256 marshal x = RootHash sha256 marshal y → x = y).

Abbreviation RootHash := (Publish.RootHash sha256 marshal).
Abbreviation root_key := (PublishLogic.root_key sha256 marshal).
Abbreviation stored := (PublishLogic.stored sha256 marshal).
Abbreviation inv := (PublishLogic.inv sha256 marshal timely).
Abbreviation guar := (PublishLogic.guar timely).
Abbreviation rely := (PublishLogic.rely timely).
Abbreviation stable := (PublishLogic.stable sha256 marshal timely).
Abbreviation ok := (PublishLogic.ok sha256 marshal timely).

(** ** Facts that the others keep *)

Definition held (g : Z) (s : store) : Prop := ∃ c v, claimObject s = Some (c, v) ∧ clGeneration c = g.
Definition own (i : nat) (g : Z) (p : purpose) (s : store) : Prop := holders s !! g = Some (i, p).

(** What does not change while a process holds the claim. *)
Record calm (s s' : store) : Prop := {
  cm_current : current s' = current s;
  cm_promoted : promoted s' = promoted s;
  cm_blocks : ∀ b, is_Some (blocks s !! b) → is_Some (blocks s' !! b);
  cm_roots : ∀ cp, stored cp s → stored cp s';
  cm_new : ∀ cp, cp ∈ promoted s → stored cp s' → stored cp s;
  cm_pins : ∀ k r', alive s' k r' → ∃ r, alive s k r ∧ pinRoot r = pinRoot r';
}.

Lemma rely_holders i s s' g x : rely i s s' → holders s !! g = Some x → holders s' !! g = Some x.
Proof.
  intros [(d & _ & ->)|(j & _ & G)] H; [done|]. destruct (gu_claim _ _ _ _ G) as [_ ->|c v c' v' _ _ _ _ -> _|c' v' _ _ Hn -> _]; [done|done|].
  rewrite lookup_insert_ne; [done|congruence].
Qed.

Lemma rely_clock i s s' : rely i s s' → clock s <= clock s'.
Proof. intros [(d & ? & ->)|(j & _ & G)]; [simpl; lia|]. rewrite (gu_clock _ _ _ _ G). lia. Qed.

Lemma rely_versions i s s' : rely i s s' → (versions s <= versions s')%nat.
Proof. intros [(d & ? & ->)|(j & _ & G)]; [simpl; lia|]. apply (gu_versions _ _ _ _ G). Qed.

Lemma rely_held i s s' g p : rely i s s' → own i g p s → held g s' → held g s.
Proof.
  unfold own. intros [(d & _ & ->)|(j & Hj & G)] Ho Hh; [done|]. destruct Hh as (c0 & v0 & E0 & Eg).
  destruct (gu_claim _ _ _ _ G) as [E _|c v c' v' E E' _ Eg' _ _|c' v' E' _ Hn _ _].
  - rewrite E in E0. by exists c0, v0.
  - exists c, v. split; [done|]. congruence.
  - simplify_eq.
Qed.

Lemma held_by_self i j g p m s : own i g p s → held g s → held_by j m s → j = i ∧ bool_decide (p = Maintenance) = m.
Proof. intros Ho (c & v & E & <-) (c' & v' & p' & E' & Ho' & Hm). unfold own in *. by simplify_eq. Qed.

Lemma calm_refl s s' :
  current s' = current s → promoted s' = promoted s → blocks s' = blocks s → roots s' = roots s → pins s' = pins s → calm s s'.
Proof.
  intros E1 E2 E3 E4 E5. split; unfold PublishLogic.stored, alive; rewrite ?E1, ?E2, ?E3, ?E4, ?E5; eauto.
Qed.

Lemma rely_calm i s s' g p : timely = true → inv s → inv s' → rely i s s' → own i g p s → held g s → calm s s'.
Proof.
  intros Ht Hi Hi' [(d & _ & ->)|(j & Hj & G)] Ho Hh; [by apply calm_refl|].
  assert (∀ m, held_by j m s → False) as Hno by (intros m Hm; by destruct (held_by_self i j g p m s Ho Hh Hm)).
  destruct G as [_ _ _ G4 G5 G6 G7 G8 G9]. split.
  - destruct G4 as [->|(p' & v' & _ & _ & _ & H)]; [done|]. by destruct (Hno _ (H Ht)).
  - destruct G5 as [->|(cp & p' & _ & _ & H)]; [done|]. by destruct (Hno _ (H Ht)).
  - intros b Hb. destruct (G6 b Hb) as [?|H]; [done|]. by destruct (Hno _ (H Ht)).
  - intros cp Hcp. destruct (G7 _ Hcp) as [?|H]; [done|]. by destruct (Hno _ (H Ht)).
  - intros cp Hp [[cp' t] E]. destruct (G8 _ _ _ E) as [?|[Hn _]]; [done|]. pose proof (iv_roots _ _ _ _ Hi' _ _ _ E) as Ek.
    destruct Hn. injection Ek as _ Eh. apply root_inj in Eh. by subst.
  - intros k r' (v' & t' & E & Hlt). destruct (G9 k) as [Es|(r2 & v2 & t2 & E2 & _ & H)].
    + rewrite Es in E. exists r'. split; [by exists v', t'|done].
    + rewrite E in E2. injection E2 as <- <- <-. destruct (H Hlt) as [?|H']; [done|]. by destruct (Hno _ (H' Ht)).
Qed.

(** A fact of the time a generation is held. *)
Definition during (i : nat) (g : Z) (p : purpose) (F : store → Prop) (s : store) : Prop := own i g p s ∧ (timely = true → held g s → F s).

Lemma stable_own i g p : stable i (own i g p).
Proof. intros s s' _ _ Hr H. by eapply rely_holders. Qed.

Lemma stable_during i g p F : (∀ s s', inv s → inv s' → calm s s' → F s → F s') → stable i (during i g p F).
Proof.
  intros HF s s' Hi Hi' Hr [Ho H]. split; [by eapply rely_holders|]. intros Ht Hh. pose proof (rely_held _ _ _ _ _ Hr Ho Hh) as Hh0.
  eapply HF; [exact Hi|exact Hi'| |by apply H]. by eapply rely_calm.
Qed.

Definition unpromoted (i : nat) (g : Z) (p : purpose) (s : store) : Prop := own i g p s ∧ ∀ cp, cp ∈ promoted s → cpGeneration cp ≠ g.

Lemma stable_unpromoted i g p : stable i (unpromoted i g p).
Proof.
  intros s s' Hi Hi' Hr [Ho H]. split; [by eapply rely_holders|]. destruct Hr as [(d & _ & ->)|(j & Hj & G)]; [done|].
  destruct (gu_promoted _ _ _ _ G) as [->|(cp & q & -> & Hh & _)]; [done|]. unfold own in Ho.
  intros cp' [->|Hin]%elem_of_cons; [congruence|by apply H].
Qed.

Lemma stable_clock i t : stable i (λ s, t <= clock s).
Proof. intros s s' _ _ Hr H. pose proof (rely_clock _ _ _ Hr). lia. Qed.

(** ** Stable reads *)

Section reading.
Context {A B : Type} (i : nat) (obj : store → option (B * nat)) (data : B → A).
Context (obj_fresh : ∀ s s', rely i s s' → obj s' = obj s ∨ ∃ a v, obj s' = Some (a, v) ∧ (versions s <= v)%nat).
Context (obj_version : ∀ s a v, inv s → obj s = Some (a, v) → (v < versions s)%nat).

(** If the object still has version [v], it is [b]. *)
Definition saw (v : nat) (b : B) (s : store) : Prop := (v < versions s)%nat ∧ ∀ b', obj s = Some (b', v) → b' = b.

Lemma stable_saw v b : stable i (saw v b).
Proof.
  intros s s' _ _ Hr [Hv H]. pose proof (rely_versions _ _ _ Hr). split; [lia|]. intros b' E.
  destruct (obj_fresh _ _ Hr) as [E'|(a0 & v0 & E' & Hle)]; [apply H; congruence|]. simplify_eq. lia.
Qed.

#[local] Hint Resolve stable_saw : stable.

Lemma ok_ask {X} (r : rpc (result storeError X)) h P Q :
  reads r = true →
  (∀ s o, inv s → P s → ∃ P', stable i P' ∧ P' s ∧
     ∀ s', inv s' → P' s' → Q (match (exec i r o s).2 with Ok a => Ok a | Err e => Err (EStore e) end) h s') →
  ok i (ask r) h P Q.
Proof. intros Hr H. apply ok_read; [done|]. intros s o Hi HP. destruct (H s o Hi HP) as (P' & ? & ? & ?). by exists P'. Qed.

Context (attr : rpc (result storeError nat)) (get : rpc (result storeError A)).
Context (attr_reads : reads attr = true) (get_reads : reads get = true).
Context (attr_exec : ∀ o s, match (exec i attr o s).2 with Ok v => ∃ b, obj s = Some (b, v) | Err NotFound => obj s = None | _ => True end).
Context (get_exec : ∀ o s, match (exec i get o s).2 with Ok a => ∃ b v, obj s = Some (b, v) ∧ data b = a | Err NotFound => obj s = None | _ => True end).

(** What a stable read gives: facts [G] of the object, or [N] of its absence,
    that hold when it is looked at and that the others keep. *)
Definition read_gives (F : store → Prop) (G : B → store → Prop) (N : store → Prop) (r : result publishError (A * nat)) (s : store) : Prop :=
  F s ∧ match r with Ok (a, v) => ∃ b, data b = a ∧ saw v b s ∧ G b s | Err (EStore NotFound) => N s | Err _ => True end.

Lemma readStable_ok n h F G N :
  stable i F → (∀ a, stable i (G a)) → stable i N →
  (∀ s a v, inv s → F s → obj s = Some (a, v) → G a s) → (∀ s, inv s → F s → obj s = None → N s) →
  ok i (readStableLeaseObject attr get n) h F (λ r h' s, h' = h ∧ read_gives F G N r s).
Proof.
  intros HF HG HN Hest Hnone. induction n as [|n IH]; [by intros s _ ?|]. cbn [readStableLeaseObject].
  eapply (ok_tbind _ _ _ _ _ _ _ _ (λ r h' s, h' = h ∧ F s ∧ match r with Ok v => (v < versions s)%nat | Err (EStore NotFound) => N s | Err _ => True end)).
  { apply ok_ask; [done|]. intros s o Hi HFs. pose proof (attr_exec o s) as Hx. destruct (exec i attr o s).2 as [v|[]] eqn:E.
    - exists (λ s, F s ∧ (v < versions s)%nat). split_and!; [|done| |by intros s' _ [? ?]].
      + apply stable_and; [done|]. intros s1 s2 _ _ Hr ?. pose proof (rely_versions _ _ _ Hr). lia.
      + destruct Hx as [a Ea]. by eapply obj_version.
    - exists (λ s, F s ∧ N s). split_and!; [stab|done|by apply Hnone|by intros s' _ [? ?]].
    - exists F. by split_and!.
    - exists F. by split_and!. }
  2: { intros e h' s _ (-> & ? & H). split; [done|]. by split. }
  intros before h'.
  eapply (ok_tbind _ _ _ _ _ _ _ _ (λ r h'' s, h'' = h ∧ F s ∧
    match r with Ok a => ∃ b, data b = a ∧ saw before b s ∧ G b s | Err (EStore NotFound) => N s | Err _ => True end)).
  { apply ok_ask; [done|]. intros s o Hi (-> & HFs & Hv). pose proof (get_exec o s) as Hx. destruct (exec i get o s).2 as [a|[]] eqn:E.
    - destruct Hx as (b & v & Eb & Ed). exists (λ s, F s ∧ saw before b s ∧ G b s). split_and!; [stab|done| |by eapply Hest|].
      + split; [done|]. intros b' Eb'. congruence.
      + intros s' _ (? & ? & ?). split_and!; [done|done|by exists b].
    - exists (λ s, F s ∧ N s). split_and!; [stab|done|by apply Hnone|by intros s' _ [? ?]].
    - exists F. by split_and!.
    - exists F. by split_and!. }
  2: { intros e h'' s _ (-> & ? & H). split; [done|]. by split. }
  intros a h''.
  eapply (ok_tbind _ _ _ _ _ _ _ _ (λ r h'' s, h'' = h ∧ F s ∧
    (∃ b, data b = a ∧ saw before b s ∧ G b s) ∧ match r with Err (EStore NotFound) => N s | _ => True end)).
  { apply ok_ask; [done|]. intros s o Hi (-> & HFs & b & Ed & Hs & Hg). pose proof (attr_exec o s) as Hx.
    destruct (exec i attr o s).2 as [v|[]] eqn:E.
    2: { exists (λ s, F s ∧ saw before b s ∧ G b s ∧ N s). split_and!; [stab|done..|by apply Hnone|]. intros s' _ (? & ? & ? & ?). eauto 10. }
    all: exists (λ s, F s ∧ saw before b s ∧ G b s); split_and!; [stab|done..|]; intros s' _ (? & ? & ?); eauto 10. }
  2: { intros e h3 s _ (-> & ? & _ & H). split; [done|]. by split. }
  intros after h3. apply ok_pure. intros ->. case_bool_decide as Eb; [subst; intros s _ (? & ? & _); split; [done|]; by split|].
  eapply ok_weaken; [|apply IH]. by intros s _ [? _].
Qed.
End reading.

#[local] Hint Resolve stable_own stable_unpromoted stable_clock : stable.

(** ** The claim object *)

Abbreviation saw_claim := (saw claimObject).

Lemma claim_fresh i s s' : rely i s s' → claimObject s' = claimObject s ∨ ∃ a v, claimObject s' = Some (a, v) ∧ (versions s <= v)%nat.
Proof.
  intros [(d & _ & ->)|(j & _ & G)]; [by left|].
  destruct (gu_claim _ _ _ _ G) as [E _|c v c' v' _ E' Hv _ _ _|c' v' E' Hv _ _ _]; [by left|right; by exists c', v'..].
Qed.

Lemma stable_saw_claim i v c : stable i (saw_claim v c).
Proof. apply stable_saw, claim_fresh. Qed.
#[local] Hint Resolve stable_saw_claim : stable.

(** If the process owns the generation of a claim it read and the lease is not
    over, the claim object still has this generation. *)
Definition seen (i : nat) (c : PublisherClaim) (s : store) : Prop :=
  (∃ j, holders s !! clGeneration c = Some (j, Purpose c)) ∧
  (own i (clGeneration c) (Purpose c) s → clock s < LeaseUntilMS c →
    ∃ c' v', claimObject s = Some (c', v') ∧ clGeneration c' = clGeneration c ∧ LeaseUntilMS c <= LeaseUntilMS c').

Definition bounded (c : PublisherClaim) (s : store) : Prop := LeaseUntilMS c <= clock s + lease_of (Purpose c).

Lemma stable_seen i c : stable i (seen i c).
Proof.
  intros s s' Hi Hi' Hr [[j Hj] H]. split; [exists j; by eapply rely_holders|]. intros Ho Hlt.
  assert (own i (clGeneration c) (Purpose c) s) as Ho'.
  { unfold own in *. pose proof (rely_holders _ _ _ _ _ Hr Hj). congruence. }
  pose proof (holding_stable sha256 marshal timely i (Some (clGeneration c, LeaseUntilMS c)) s s' Hi Hi' Hr) as Hs. cbn [holding_ok] in Hs.
  destruct Hs as [_ Hs]; [split; [by exists (Purpose c)|by apply H]|by apply Hs].
Qed.

Lemma stable_bounded i c : stable i (bounded c).
Proof. intros s s' _ _ Hr H. pose proof (rely_clock _ _ _ Hr). unfold bounded in *. lia. Qed.
#[local] Hint Resolve stable_seen stable_bounded : stable.

Definition read_claim (i : nat) (c : PublisherClaim) (s : store) : Prop := seen i c s ∧ bounded c s.

Lemma stable_read_claim i c : stable i (read_claim i c).
Proof. apply stable_and; auto with stable. Qed.
#[local] Hint Resolve stable_read_claim : stable.

Abbreviation readPublisherClaim := (Publish.readPublisherClaim configID).
Abbreviation confirmPublisherClaim := (Publish.confirmPublisherClaim configID).

Lemma readPublisherClaim_ok i h F :
  stable i F →
  ok i readPublisherClaim h F (λ r h' s, h' = h ∧ F s ∧ match r with Ok (c, v) => saw_claim v c s ∧ read_claim i c s | Err _ => True end).
Proof.
  intros HF. eapply ok_tbind.
  - apply (readStable_ok i claimObject id (claim_fresh i)) with (G := read_claim i) (N := λ _, True); try done.
    + intros s c v Hi. apply (iv_claim _ _ _ _ Hi).
    + intros o s. unfold exec, faulty. destruct (fault o) as [[]|]; simpl; try done. destruct (claimObject s) as [[c v']|]; [|done]. by exists c.
    + intros o s. unfold exec, faulty. destruct (fault o) as [[]|]; simpl; try done. destruct (claimObject s) as [[c' v']|]; [|done]. by exists c', v'.
    + apply stable_read_claim.
    + intros s c v Hi _ E. destruct (iv_claim _ _ _ _ Hi _ _ E) as (_ & Hh & _ & Hb). split; [|done]. split; [done|]. intros _ _. exists c, v. split_and!; [done|done|lia].
  - intros [c v] h'. cbn [fst]. destruct (_ || _); [by intros s _ (-> & ? & _)|]. intros s _ (-> & ? & c' & <- & ?). done.
  - by intros e h' s _ (-> & ? & _).
Qed.

Lemma confirmPublisherClaim_ok i h F expected :
  stable i F →
  ok i (confirmPublisherClaim expected) h F (λ r h' s, h' = h ∧ F s ∧ match r with Ok c => c = expected ∧ seen i c s | Err _ => True end).
Proof.
  intros HF. eapply ok_bind; [by apply readPublisherClaim_ok|]. intros [[c v]|e] h'.
  - apply ok_pure. intros ->. apply ok_read; [done|]. intros s o Hi (HFs & _ & Hs & _). exists (λ s, F s ∧ seen i c s). split_and!; [stab|done..|].
    case_bool_decide; [|by intros s' _ [? _]]. cbn [negb orb]. destruct (_ <=? _); by intros s' _ [? ?].
  - destruct e as [[]| | | | | |]; by intros s _ (-> & ? & _).
Qed.

(** Going on under the lease just seen. *)
Lemma under_ok i {A} (c : PublisherClaim) (x : A) h F :
  stable i F →
  ok i (under c x) h (λ s, F s ∧ own i (clGeneration c) (Purpose c) s ∧ seen i c s)
    (λ r h' s, r = Ok x ∧ h' = Some (clGeneration c, LeaseUntilMS c) ∧ F s).
Proof.
  intros HF s o Hi Hh (HFs & Ho & Hs) _. simpl. change (exec i (Holding (Some (clGeneration c, LeaseUntilMS c))) o s) with (s, tt). simpl.
  split_and!; [done|apply guar_refl|by exists (Purpose c)|by apply Hs|]. exists F. split_and!; [done|done|]. by intros s' _ ?.
Qed.

(** ** Writing the claim *)

Lemma intact_same s s' :
  current s' = current s → promoted s' = promoted s → blocks s' = blocks s → roots s' = roots s → pins s' = pins s →
  intact sha256 marshal s → intact sha256 marshal s'.
Proof.
  intros E1 E2 E3 E4 E5 [I1 I2 I3]. split; unfold PublishLogic.stored, has_blocks, alive in *; rewrite ?E1, ?E2, ?E3, ?E4, ?E5; assumption.
Qed.

(** The parts of [guar] that are about other objects. *)
Lemma guar_claim i s s' :
  clock s' = clock s → (versions s <= versions s')%nat → claim_change i s s' →
  current s' = current s → promoted s' = promoted s → blocks s' = blocks s → roots s' = roots s → pins s' = pins s → guar i s s'.
Proof.
  intros E0 Ev Hc E1 E2 E3 E4 E5. split; try done; rewrite ?E1, ?E2, ?E3, ?E4, ?E5; eauto.
Qed.

Lemma put_claim_new i c s :
  inv s → (∀ c0 v0, claimObject s = Some (c0, v0) → LeaseUntilMS c0 <= clock s ∧ clGeneration c = clGeneration c0 + 1) → bounded c s →
  inv (put_claim i c s) ∧ guar i s (put_claim i c s) ∧ unpromoted i (clGeneration c) (Purpose c) (put_claim i c s).
Proof.
  intros Hi H0 Hb. assert (holders s !! clGeneration c = None) as Hn.
  { destruct (claimObject s) as [[c0 v0]|] eqn:E.
    - destruct (H0 _ _ eq_refl) as [_ Eg]. destruct (iv_claim _ _ _ _ Hi _ _ E) as (_ & _ & Hle & _).
      destruct (holders s !! clGeneration c) eqn:Eh; [|done]. pose proof (Hle _ _ Eh). lia.
    - by rewrite (iv_none _ _ _ _ Hi E). }
  assert (holders (put_claim i c s) = <[clGeneration c := (i, Purpose c)]> (holders s)) as Eh.
  { simpl. rewrite bool_decide_false; [done|]. rewrite Hn. by intros [? ?]. }
  destruct Hi as [I1 I2 I3 I4 I5 I6 I7 I8]. split_and!.
  - split; try done; rewrite ?Eh.
    + intros c1 v1 [= <- <-]. split_and!; [simpl; lia|exists i; by rewrite lookup_insert_eq| |done]. intros g x.
      destruct (decide (g = clGeneration c)) as [->|Hne]; [lia|]. rewrite lookup_insert_ne by done. intros Hg.
      destruct (claimObject s) as [[c0 v0]|] eqn:E; [|by rewrite (I3 eq_refl) in Hg]. destruct (I2 _ _ eq_refl) as (_ & _ & Hle & _).
      destruct (H0 _ _ eq_refl). pose proof (Hle _ _ Hg). lia.
    + intros p v E. simpl. pose proof (I4 p v E). lia.
    + intros k r v t E. destruct (I5 k r v t E). simpl. lia.
    + intros cp Hcp. destruct (I7 cp Hcp) as [x Hx]. exists x. rewrite lookup_insert_ne; [done|]. congruence.
    + intros Ht. by apply (intact_same s); [..|apply I8].
  - apply guar_claim; try done; [simpl; lia|]. eapply (cc_new _ _ _ c (versions s)); [done|lia|done|done|]. intros c0 v0 E. by apply (H0 c0 v0).
  - split; [unfold own; by rewrite Eh, lookup_insert_eq|]. intros cp Hcp E. destruct (I7 cp Hcp) as [x Hx]. congruence.
Qed.

Lemma put_claim_kept i c0 v0 c s :
  inv s → claimObject s = Some (c0, v0) → clGeneration c = clGeneration c0 → Purpose c = Purpose c0 → bounded c s →
  (LeaseUntilMS c0 <= LeaseUntilMS c) ∨ own i (clGeneration c0) (Purpose c0) s →
  inv (put_claim i c s) ∧ guar i s (put_claim i c s) ∧ holders (put_claim i c s) = holders s.
Proof.
  intros Hi E Eg Ep Hb Hl. destruct (iv_claim _ _ _ _ Hi _ _ E) as (_ & [j Hj] & Hle & _).
  assert (holders (put_claim i c s) = holders s) as Eh.
  { simpl. rewrite bool_decide_true; [done|]. rewrite Eg. by eexists. }
  destruct Hi as [I1 I2 I3 I4 I5 I6 I7 I8]. split_and!; [| |done].
  - split; try done; rewrite ?Eh; try done.
    + intros c1 v1 [= <- <-]. rewrite Eg, Ep. split_and!; [simpl; lia|by exists j|done|]. unfold bounded in Hb. by rewrite Ep in Hb.
    + intros p v Ec. simpl. pose proof (I4 p v Ec). lia.
    + intros k r v t Ek. destruct (I5 k r v t Ek). simpl. lia.
    + intros Ht. by apply (intact_same s); [..|apply I8].
  - apply guar_claim; try done; [simpl; lia|]. eapply (cc_kept _ _ _ c0 v0 c (versions s)); [done|done|lia|done|done|].
    destruct Hl as [?|Ho]; [by left|right; by exists (Purpose c0)].
Qed.

(** What [WriteClaim] does, whatever its answer. *)
Lemma write_claim_cases i c cond o s :
  let r := exec i (WriteClaim c cond) o s in
  (r.1 = s ∧ r.2 ≠ Ok tt) ∨ (r.1 = put_claim i c s ∧ met cond (snd <$> claimObject s) = true ∧ r.2 ≠ Err ConditionNotMet).
Proof.
  unfold exec, faulty. destruct (fault o) as [[]|]; destruct (met cond _) eqn:E; simpl; auto.
Qed.

Definition acquired (i : nat) (p : purpose) (r : result publishError PublisherClaim) (h : option (Z * Z)) (s : store) : Prop :=
  match r with
  | Ok c => Purpose c = p ∧ unpromoted i (clGeneration c) p s ∧ h = Some (clGeneration c, LeaseUntilMS c)
  | Err _ => True
  end.

(** An attempt to store a new claim. *)
Lemma attempt_ok i claim cond (again : presult PublisherClaim) P :
  ok i again None (λ _, True) (acquired i (Purpose claim)) →
  (∀ s, inv s → P s → met cond (snd <$> claimObject s) = true →
     ∀ c0 v0, claimObject s = Some (c0, v0) → LeaseUntilMS c0 <= clock s ∧ clGeneration claim = clGeneration c0 + 1) →
  (∀ s, P s → bounded claim s) →
  ok i (x ← call (WriteClaim claim cond);
        match x with
        | Err ConditionNotMet => again
        | Err e => Ret (Err (EStore e))
        | Ok _ => c ⇐ confirmPublisherClaim claim; under c c
        end) None P (acquired i (Purpose claim)).
Proof.
  intros Hagain Hmet Hbound s o Hi _ HP _. cbn zeta. destruct (write_claim_cases i claim cond o s) as [[E En]|(E & Hm & En)]; rewrite E.
  - split_and!; [done|apply guar_refl|done|]. exists (λ _, True). split_and!; [apply stable_const|done|].
    destruct (exec i (WriteClaim claim cond) o s).2 as [[]|[]]; [done|by intros s' _ _|exact Hagain|by intros s' _ _].
  - destruct (put_claim_new i claim s Hi (Hmet s Hi HP Hm) (Hbound s HP)) as (Hi' & Hg & Hu). split_and!; [done|done|done|].
    exists (unpromoted i (clGeneration claim) (Purpose claim)). split_and!; [apply stable_unpromoted|done|].
    destruct (exec i (WriteClaim claim cond) o s).2 as [[]|[]]; [|by intros s' _ _|done|by intros s' _ _].
    change (ok i (c ⇐ confirmPublisherClaim claim; under c c) None (unpromoted i (clGeneration claim) (Purpose claim)) (acquired i (Purpose claim))).
    eapply ok_tbind; [apply confirmPublisherClaim_ok, stable_unpromoted| |done]. intros c h. apply ok_pure. intros ->.
    eapply ok_consequence; [|eapply ok_weaken; [|apply (under_ok i c c None (λ s, c = claim ∧ unpromoted i (clGeneration claim) (Purpose claim) s)); stab]].
    + intros r h' s' _ (-> & -> & -> & ?). done.
    + intros s' _ (Hu' & -> & Hs). split_and!; [done|done|apply Hu'|done].
Qed.

Lemma met_match v c s : saw_claim v c s → met (IfMatch v) (snd <$> claimObject s) = true → claimObject s = Some (c, v).
Proof.
  intros [_ H]. unfold met. case_bool_decide as E; [|done]. intros _. destruct (claimObject s) as [[c' v']|]; [|done].
  injection E as ->. by rewrite (H c' eq_refl).
Qed.

Lemma met_none s : met IfNotExists (snd <$> claimObject s) = true → claimObject s = None.
Proof. unfold met. case_bool_decide as E; [|done]. intros _. by destruct (claimObject s). Qed.

Lemma acquire_attempts_ok i n first owner minExclusive p :
  ok i (acquire_attempts configID n first owner minExclusive (lease_of p) p) None (λ _, True) (acquired i p).
Proof.
  revert first. induction n as [|n IH]; intros first; cbn [acquire_attempts]; [by intros s _ _|].
  eapply ok_bind; [apply readPublisherClaim_ok, stable_const|]. intros [[c v]|e] h.
  - apply ok_pure. intros ->. apply ok_read; [done|]. intros s o Hi (_ & Hsaw & _). exists (λ s', saw_claim v c s' ∧ clock s <= clock s').
    change (exec i Now o s).2 with (clock s). split_and!; [stab|done|lia|]. destruct (Z.ltb_spec (clock s) (LeaseUntilMS c)) as [|Hexp]; [by intros s' _ _|].
    destruct (_ =? _); [by intros s' _ _|]. destruct (_ && _); [by intros s' _ _|]. refine (attempt_ok _ (mkClaim _ _ _ p _ _ _ _) _ _ _ (IH false) _ _).
    + intros s' _ [Hs Hc] Hm c0 v0 E0. rewrite (met_match _ _ _ Hs Hm) in E0. injection E0 as <- <-. cbn [clGeneration]. lia.
    + intros s' [_ Hc]. unfold bounded. simpl. lia.
  - assert (∀ e', ok i (Ret (Err e')) h (λ s, h = None ∧ True ∧ True) (acquired i p)) as Hend by (by intros e' s _ _).
    destruct e as [[]| | | | | |]; try apply Hend. apply ok_pure. intros ->. apply ok_read; [done|]. intros s o Hi _. exists (λ s', clock s <= clock s').
    change (exec i Now o s).2 with (clock s). split_and!; [stab|lia|]. destruct (_ && _); [by intros s' _ _|].
    refine (attempt_ok _ (mkClaim _ _ _ p _ _ _ _) _ _ _ (IH false) _ _).
    + intros s' _ _ Hm c0 v0 E0. rewrite (met_none _ Hm) in E0. done.
    + intros s' Hc. unfold bounded. simpl. lia.
Qed.

Lemma generation_attempts_ok i n owner index currentRoot :
  ok i (generation_attempts configID n owner index forkLease currentRoot) None (λ _, True) (acquired i Generation).
Proof.
  induction n as [|n IH]; cbn [generation_attempts]; [by intros s _ _|].
  eapply ok_bind; [apply readPublisherClaim_ok, stable_const|]. intros [[c v]|e] h.
  - apply ok_pure. intros ->. apply ok_read; [done|]. intros s o Hi (_ & Hsaw & _). exists (λ s', saw_claim v c s' ∧ clock s <= clock s').
    change (exec i Now o s).2 with (clock s). split_and!; [stab|done|lia|]. destruct (_ || _); [by intros s' _ _|].
    destruct (match currentRoot with Some _ => _ | None => _ end); [by intros s' _ _|].
    destruct (Z.ltb_spec (clock s) (LeaseUntilMS c)) as [|Hexp]; [by intros s' _ _|]. destruct (_ =? _); [by intros s' _ _|].
    refine (attempt_ok _ (mkClaim _ _ _ Generation _ _ _ _) _ _ _ IH _ _).
    + intros s' _ [Hs Hc] Hm c0 v0 E0. rewrite (met_match _ _ _ Hs Hm) in E0. injection E0 as <- <-. cbn [clGeneration]. lia.
    + intros s' [_ Hc]. unfold bounded. simpl. lia.
  - assert (∀ e', ok i (Ret (Err e')) h (λ s, h = None ∧ True ∧ True) (acquired i Generation)) as Hend by (by intros e' s _ _).
    destruct e as [[]| | | | | |]; try apply Hend. apply ok_pure. intros ->. apply ok_read; [done|]. intros s o Hi _. exists (λ s', clock s <= clock s').
    change (exec i Now o s).2 with (clock s). split_and!; [stab|lia|]. destruct currentRoot; [by intros s' _ _|].
    refine (attempt_ok _ (mkClaim _ _ _ Generation _ _ _ _) _ _ _ IH _ _).
    + intros s' _ _ Hm c0 v0 E0. rewrite (met_none _ Hm) in E0. done.
    + intros s' Hc. unfold bounded. simpl. lia.
Qed.

(** ** Seeing one's own claim *)

Lemma same_claim_true c claim : same_claim c claim = true → Purpose c = Purpose claim ∧ clGeneration c = clGeneration claim.
Proof. unfold same_claim. intros H. bool_hyps. done. Qed.

Definition validated (i : nat) (claim : PublisherClaim) (F : store → Prop) (h : option (Z * Z)) (r : result publishError unit) (h' : option (Z * Z))
    (s : store) : Prop :=
  F s ∧ match r with Ok _ => ∃ until, h' = Some (clGeneration claim, until) | Err _ => True end.

Lemma validatePublisherLease_ok i claim h F :
  stable i F → (∀ s, F s → own i (clGeneration claim) (Purpose claim) s) →
  ok i (validatePublisherLease configID claim) h F (validated i claim F h).
Proof.
  intros HF Hown. eapply ok_bind; [by apply readPublisherClaim_ok|]. intros [[c v]|e] h'.
  - apply ok_pure. intros ->. apply ok_read; [done|]. intros s o Hi (HFs & _ & Hs & _). exists (λ s, F s ∧ seen i c s). split_and!; [stab|done..|].
    destruct (_ || negb _) eqn:E; [by intros s' _ [? _]|]. destruct (_ <=? _); [by intros s' _ [? _]|]. cbn [orb].
    apply orb_false_iff in E as [_ [Ep Eg]%negb_false_iff%same_claim_true].
    eapply ok_consequence; [|eapply ok_weaken; [|by apply (under_ok i c tt h F)]].
    + intros r h' s' _ (-> & -> & ?). split; [done|]. rewrite Eg. by eexists.
    + intros s' _ [? ?]. split_and!; [done|rewrite Ep, Eg; by apply Hown|done].
  - destruct e as [[]| | | | | |]; by intros s _ (-> & ? & _).
Qed.

Lemma validateMaintenanceClaim_ok i claim h F :
  stable i F → Purpose claim = Maintenance → (∀ s, F s → own i (clGeneration claim) Maintenance s) →
  ok i (validateMaintenanceClaim configID claim) h F (validated i claim F h).
Proof.
  intros HF Hp Hown. eapply ok_tbind; [by apply readPublisherClaim_ok| |by intros e h' s _ (-> & ? & _)]. intros [c v] h'. cbn [fst].
  apply ok_pure. intros ->. apply ok_read; [done|]. intros s o Hi (HFs & _ & Hs & _). exists (λ s, F s ∧ seen i c s). split_and!; [stab|done..|].
  destruct (negb _ || negb _ || negb _) eqn:E; [by intros s' _ [? _]|]. destruct (_ <=? _); [by intros s' _ [? _]|]. cbn [orb].
  apply orb_false_iff in E as [[E1%negb_false_iff%bool_decide_eq_true E2%negb_false_iff%Z.eqb_eq]%orb_false_iff _].
  eapply ok_consequence; [|eapply ok_weaken; [|by apply (under_ok i c tt h F)]].
  + intros r h' s' _ (-> & -> & ?). split; [done|]. rewrite <-E2. by eexists.
  + intros s' _ [? ?]. split_and!; [done|rewrite E1, E2; by apply Hown|done].
Qed.

(** ** Changing a claim *)

(** Facts that survive a new claim object of the same generation. *)
Definition same_generation (i : nat) (F : store → Prop) : Prop :=
  ∀ s c0 v0 c, claimObject s = Some (c0, v0) → clGeneration c = clGeneration c0 → holders (put_claim i c s) = holders s → F s → F (put_claim i c s).

Lemma lease_of_pos p : 0 < lease_of p.
Proof. by destruct p. Qed.

(** Storing a claim read before with a longer lease, or with any lease by its
    owner. *)
Lemma upload_claim_ok i c v c' h F :
  stable i F → same_generation i F → clGeneration c' = clGeneration c → Purpose c' = Purpose c →
  (LeaseUntilMS c <= LeaseUntilMS c') ∨ (h = None ∧ ∀ s, F s → own i (clGeneration c) (Purpose c) s) →
  ok i (upload_claim c' v) h (λ s, F s ∧ saw_claim v c s ∧ bounded c' s) (λ r h' s, h' = h ∧ F s).
Proof.
  intros HF Hsame Eg Ep Hl s o Hi Hh (HFs & Hsaw & Hb) _. cbn zeta.
  destruct (write_claim_cases i c' (IfMatch v) o s) as [[E _]|(E & Hm & _)]; rewrite E; cbn [next_holding].
  - split_and!; [done|apply guar_refl|done|]. exists F. split_and!; [done|done|].
    destruct (exec i (WriteClaim c' (IfMatch v)) o s).2 as [[]|[]]; by intros s' _ ?.
  - pose proof (met_match _ _ _ Hsaw Hm) as Ec.
    destruct (put_claim_kept i c v c' s Hi Ec Eg Ep Hb) as (Hi' & Hg & Eh); [destruct Hl as [?|[_ Ho]]; [by left|right; by apply Ho]|].
    split_and!; [done|done| |].
    + destruct h as [[g until]|]; [|done]. destruct Hl as [Hl|[[=] _]]. destruct Hh as [[p Hp] Hh]. cbn [holding_ok]. rewrite Eh. split; [by exists p|].
      intros Hlt. destruct (Hh Hlt) as (c0 & v0 & E0 & E1 & E2). rewrite Ec in E0. injection E0 as <- <-. exists c', (versions s). split_and!; [done|congruence|lia].
    + exists F. split_and!; [done|by eapply Hsame|]. destruct (exec i (WriteClaim c' (IfMatch v)) o s).2 as [[]|[]]; by intros s' _ ?.
Qed.

Lemma BindPublisherClaim_ok i claim index root h F :
  stable i F → same_generation i F → (∀ s, F s → own i (clGeneration claim) (Purpose claim) s) →
  ok i (BindPublisherClaim configID claim index root (lease_of (Purpose claim))) h F
    (λ r h' s, F s ∧ match r with Ok c => Purpose c = Purpose claim ∧ clGeneration c = clGeneration claim | Err _ => True end).
Proof.
  intros HF Hsame Hown. unfold BindPublisherClaim. rewrite (proj2 (Z.leb_gt _ _)) by apply lease_of_pos.
  eapply ok_tbind; [by apply readPublisherClaim_ok| |by intros e h' s _ (_ & ? & _)]. intros [c v] h'. apply ok_pure. intros ->.
  apply ok_read; [done|]. intros s o Hi (HFs & Hsaw & Hs & Hb). exists (λ s, F s ∧ saw_claim v c s ∧ bounded c s). split_and!; [stab|done..|].
  destruct (_ || _) eqn:E; [by intros s' _ [? _]|].
  assert (Purpose c = Purpose claim ∧ clGeneration c = clGeneration claim) as [Ep Eg].
  { apply orb_false_iff in E as [[[[_ E%negb_false_iff]%orb_false_iff _]%orb_false_iff _]%orb_false_iff _]. by apply same_claim_true. }
  apply ok_read; [done|]. intros s1 o1 Hi1 (HF1 & Hsaw1 & Hb1). change (exec i Now o1 s1).2 with (clock s1).
  set (c' := mkClaim _ _ _ _ (clock s1 + _) _ _ _). exists (λ s, F s ∧ saw_claim v c s ∧ bounded c' s).
  assert (bounded c' s1) as Hb' by (unfold bounded, c'; simpl; rewrite Ep; lia). split_and!; [stab|done..|].
  eapply ok_tbind; [apply (upload_claim_ok i c v c' h F); [done|done|done|done|left; unfold bounded in Hb1; rewrite Ep in Hb1; simpl; lia]| |by intros e h' s' _ (_ & ?)].
  intros [] h'. apply ok_pure. intros ->. eapply ok_tbind; [by apply confirmPublisherClaim_ok| |by intros e h' s' _ (_ & ? & _)].
  intros c1 h1. apply ok_pure. intros ->.
  eapply ok_consequence; [|eapply ok_weaken; [|apply (under_ok i c1 c1 h (λ s, c1 = c' ∧ F s)); stab]].
  + intros r h' s' _ (-> & -> & -> & ?). by split_and!.
  + intros s' _ (? & -> & ?). split_and!; [done|done| |done]. simpl. rewrite Ep, Eg. by apply Hown.
Qed.

Lemma RenewPublisherClaim_ok i claim :
  ok i (RenewPublisherClaim configID claim (lease_of (Purpose claim))) None (λ _, True) (λ _ _ _, True).
Proof.
  unfold RenewPublisherClaim. rewrite (proj2 (Z.leb_gt _ _)) by apply lease_of_pos.
  eapply ok_tbind; [apply readPublisherClaim_ok, stable_const| |done]. intros [c v] h'. apply ok_pure. intros ->.
  apply ok_read; [done|]. intros s o Hi (_ & Hsaw & Hs & Hb). exists (λ s, saw_claim v c s ∧ bounded c s). split_and!; [stab|done..|].
  destruct (_ || _) eqn:E; [by intros s' _ _|].
  assert (Purpose c = Purpose claim) as Ep.
  { apply orb_false_iff in E as [[[[_ E%negb_false_iff]%orb_false_iff _]%orb_false_iff _]%orb_false_iff _]. by apply same_claim_true. }
  apply ok_read; [done|]. intros s1 o1 Hi1 (Hsaw1 & Hb1). change (exec i Now o1 s1).2 with (clock s1).
  set (c' := with_lease c _). exists (λ s, saw_claim v c s ∧ bounded c' s).
  assert (bounded c' s1) as Hb' by (unfold bounded, c', with_lease; simpl; rewrite Ep; lia). split_and!; [stab|done..|].
  eapply ok_tbind; [eapply ok_weaken; [|apply (upload_claim_ok i c v c' None (λ _, True)); [stab|done|done|done|left; unfold bounded in Hb1; rewrite Ep in Hb1; simpl; lia]]; by intros s' _ ?| |done].
  intros [] h'. apply ok_pure. intros ->. eapply ok_consequence; [|apply confirmPublisherClaim_ok, stable_const]. done.
Qed.

Lemma ReleasePublisherClaim_ok i claim h F :
  stable i F → same_generation i F → (∀ s, F s → own i (clGeneration claim) (Purpose claim) s) →
  ok i (ReleasePublisherClaim configID claim) h F (λ r h' s, h' = None ∧ F s).
Proof.
  intros HF Hsame Hown s o Hi Hh HFs _. change (exec i (Holding None) o s) with (s, tt). cbn zeta. cbn [fst snd next_holding].
  split_and!; [done|apply guar_refl|done|]. exists F. split_and!; [done|done|].
  match goal with |- PublishLogic.ok _ _ _ _ ?p _ _ _ => change p with
    (x ⇐ readPublisherClaim; let '(c, v) := x in if negb (same_claim c claim) then fenced else now ← call Now; upload_claim (with_lease c now) v) end.
  eapply ok_tbind; [by apply readPublisherClaim_ok| |by intros e h' s' _ (? & ? & _)]. intros [c v] h'. apply ok_pure. intros ->.
  destruct (same_claim c claim) eqn:E; [|by intros s' _ [? _]]. apply same_claim_true in E as [Ep Eg]. cbn [negb].
  apply ok_read; [done|]. intros s1 o1 Hi1 (HF1 & Hsaw1 & _). change (exec i Now o1 s1).2 with (clock s1).
  exists (λ s, F s ∧ saw_claim v c s ∧ bounded (with_lease c (clock s1)) s).
  assert (bounded (with_lease c (clock s1)) s1) as Hb by (unfold bounded, with_lease; simpl; pose proof (lease_of_pos (Purpose c)); lia).
  split_and!; [stab|done..|]. apply upload_claim_ok; [done|done|done|done|]. right. split; [done|]. intros s' Hs'. rewrite Ep, Eg. by apply Hown.
Qed.
End claims.

#[global] Hint Resolve stable_own stable_unpromoted stable_clock stable_saw_claim stable_seen stable_bounded stable_read_claim : stable.
