(* ===== verification/PublishSteps.v ===== *)
(** * Roots, blocks, pins and collection of the checkpoint namespace

    The operations of a process under its claim: what it uploads stays while
    it holds the claim, CURRENT moves to a root that is complete, a pin is on a
    root that is there, and a collection deletes nothing that CURRENT, a pin or
    a root it has listed needs. *)

From stdpp Require Import gmap list sorting.
From S2P Require Import Prelude Programs Publish PublishLogic PublishClaims.

#[local] Open Scope program_scope.

Section steps.
Context (configID expectedPolicy : Z) (sha256 : bytes → bytes) (marshal : Checkpoint → bytes) (timely : bool).
Context (root_inj : ∀ x y : Checkpoint, RootHash sha256 marshal x = RootHash sha256 marshal y → x = y).

Abbreviation RootHash := (Publish.RootHash sha256 marshal).
Abbreviation root_key := (PublishLogic.root_key sha256 marshal).
Abbreviation stored := (PublishLogic.stored sha256 marshal).
Abbreviation inv := (PublishLogic.inv sha256 marshal timely).
Abbreviation guar := (PublishLogic.guar timely).
Abbreviation rely := (PublishLogic.rely timely).
Abbreviation stable := (PublishLogic.stable sha256 marshal timely).
Abbreviation ok := (PublishLogic.ok sha256 marshal timely).
Abbreviation calm := (PublishClaims.calm sha256 marshal).
Abbreviation during := (PublishClaims.during timely).
Abbreviation readRoot := (Publish.readRoot configID expectedPolicy sha256 marshal).
Abbreviation OpenRoot := (Publish.OpenRoot configID expectedPolicy sha256 marshal).

Lemma root_key_inj x y : root_key x = root_key y → x = y.
Proof. intros [= _ E]. by apply root_inj. Qed.

Lemma stored_root cp s : inv s → stored cp s → ∃ t, roots s !! root_key cp = Some (cp, t).
Proof. intros Hi [[cp' t] E]. pose proof (iv_roots _ _ _ _ Hi _ _ _ E) as Ek. apply root_key_inj in Ek as <-. by exists t. Qed.

(** ** Reading roots *)

Lemma readRoot_ok i index hash h F :
  stable i F → ok i (readRoot index hash) h F (λ r h' s, h' = h ∧ F s ∧ match r with Ok cp => RootHash cp = hash | Err _ => True end).
Proof.
  intros HF. eapply (ok_tbind _ _ _ _ _ _ _ _ (λ r h' s, h' = h ∧ F s)).
  - apply ok_ask; [done|]. intros s o Hi HFs. exists F. by split_and!.
  - intros cp h'. destruct (_ <? _); [by intros s _ []|]. case_bool_decide; [|by intros s _ []]. cbn [negb orb]. destruct (validateRoot _ _ _ _); by intros s _ [].
  - by intros e h' s _ [].
Qed.

Lemma OpenRoot_ok i index hash h F :
  stable i F → ok i (OpenRoot index hash) h F (λ r h' s, h' = h ∧ F s ∧ match r with Ok cp => root_key cp = (index, hash) | Err _ => True end).
Proof.
  intros HF. eapply ok_tbind; [by apply readRoot_ok| |by intros e h' s _ (? & ? & _)]. intros cp h'.
  destruct (Z.eqb_spec (cpIndex cp) index) as [E|E]; intros s _ (? & ? & ?); [|done]. split_and!; [done|done|]. unfold PublishLogic.root_key. by subst.
Qed.

(** ** Publication *)

Definition present (cp : Checkpoint) (s : store) : Prop := stored cp s ∧ has_blocks cp s.

Definition all_blocks (l : list blockName) (s : store) : Prop := ∀ b, b ∈ l → is_Some (blocks s !! b).

Lemma calm_present cp s s' : calm s s' → present cp s → present cp s'.
Proof. intros [_ _ H1 H2 _ _] [? H]. split; [by apply H2|]. intros b Hb. by apply H1, H. Qed.

Lemma calm_all_blocks l s s' : calm s s' → all_blocks l s → all_blocks l s'.
Proof. intros [_ _ H1 _ _ _] H b Hb. by apply H1, H. Qed.

(** The publisher of generation [g] has these blocks while it holds the claim,
    and CURRENT has never named a root of its generation. *)
Definition publishing (i : nat) (g : Z) (p : purpose) (l : list blockName) (s : store) : Prop :=
  unpromoted i g p s ∧ during i g p (all_blocks l) s.

Lemma stable_publishing i g p l : stable i (publishing i g p l).
Proof. apply stable_and; [apply stable_unpromoted|]. apply stable_during; [done|]. intros s s' _ _. apply calm_all_blocks. Qed.

Definition published (i : nat) (g : Z) (p : purpose) (cp : Checkpoint) (s : store) : Prop := cpGeneration cp = g ∧ during i g p (present cp) s.

Lemma stable_published i g p cp : stable i (published i g p cp).
Proof. apply stable_and; [apply stable_const|]. apply stable_during; [done|]. intros s s' _ _. apply calm_present. Qed.
#[local] Hint Resolve stable_publishing stable_published : stable.

Lemma refreshCertifiedCurrent_ok i g p certified h :
  ok i (refreshCertifiedCurrent configID expectedPolicy sha256 marshal certified) h (unpromoted i g p)
    (λ r h' s, h' = h ∧ match r with Ok (Some cp) => publishing i g p (root_blocks cp) s | Ok None => publishing i g p [] s | Err _ => own i g p s end).
Proof.
  apply ok_read; [done|]. intros s o Hi Hu.
  assert (∀ x : result publishError (option Checkpoint), x = Ok None ∨ (∃ e, x = Err e) → ∃ P', stable i P' ∧ P' s ∧ ok i (Ret x) h P'
    (λ r h' s, h' = h ∧ match r with Ok (Some cp) => publishing i g p (root_blocks cp) s | Ok None => publishing i g p [] s | Err _ => own i g p s end)) as Hend.
  { intros x Hx. exists (publishing i g p []). split_and!; [stab|split; [done|split; [apply Hu|intros _ _ b Hb; by apply not_elem_of_nil in Hb]]|].
    destruct Hx as [->|[e ->]]; intros s' _ Hs'; split; [done|exact Hs'|done|exact (proj1 (proj1 Hs'))]. }
  unfold exec, faulty. destruct (fault o) as [[]|]; simpl; [apply Hend; eauto..|]. destruct (current s) as [[ptr v]|] eqn:Ec; simpl; [|apply Hend; eauto].
  set (K := λ s, unpromoted i g p s ∧ during i g p (λ s, ∃ cp, root_key cp = (ptrIndex ptr, ptrRoot ptr) ∧ present cp s) s).
  assert (stable i K) as HK.
  { apply stable_and; [apply stable_unpromoted|]. apply stable_during; [done|]. intros s1 s2 _ _ Hc (cp & ? & ?). exists cp. split; [done|]. by eapply calm_present. }
  exists K. split_and!; [done|split; [done|]|].
  { split; [apply Hu|]. intros Ht _. destruct (iv_intact _ _ _ _ Hi Ht) as [I1 I2 _]. destruct (I1 _ _ Ec) as (cp & Hp & Ek & Hs). exists cp. split; [done|]. split; [done|by apply I2]. }
  assert (∀ cp s', root_key cp = (ptrIndex ptr, ptrRoot ptr) → K s' → publishing i g p (root_blocks cp) s') as Hgot.
  { intros cp s' Ek [Hu' [Ho Hd]]. split; [done|]. split; [done|]. intros Ht Hh. destruct (Hd Ht Hh) as (cp' & Ek' & _ & Hb). rewrite <-Ek in Ek'.
    apply root_key_inj in Ek' as ->. exact Hb. }
  assert (ok i (cp' ⇐ OpenRoot (ptrIndex ptr) (ptrRoot ptr); Ret (Ok (Some cp'))) h K
    (λ r h' s, h' = h ∧ match r with Ok (Some cp) => publishing i g p (root_blocks cp) s | Ok None => publishing i g p [] s | Err _ => own i g p s end)) as Hopen.
  { eapply ok_tbind; [by apply OpenRoot_ok| |intros e h' s' _ (-> & Hk & _); split; [done|]; apply Hk].
    intros cp h' s' _ (-> & Hk & Ek). split; [done|]. by apply Hgot. }
  destruct certified as [cp|]; [|exact Hopen]. destruct (Z.eqb_spec (cpIndex cp) (ptrIndex ptr)) as [E1|]; [|exact Hopen].
  case_bool_decide as E2; [|exact Hopen]. intros s' _ Hk. split; [done|]. apply Hgot; [|done]. unfold PublishLogic.root_key. congruence.
Qed.

(** *** Blocks *)

Lemma blocks_grow i s m :
  inv s → (∀ b, is_Some (blocks s !! b) → is_Some (m !! b)) → inv (set_blocks s m) ∧ guar i s (set_blocks s m).
Proof.
  intros [I1 I2 I3 I4 I5 I6 I7 I8] Hm. split.
  - split; try done. intros Ht. destruct (I8 Ht) as [J1 J2 J3]. split; [done| |done]. intros cp Hp Hs b Hb. by apply Hm, (J2 cp Hp Hs).
  - split; simpl; eauto using cc_same.
Qed.

(** A write of a block, answered that the block is there. *)
Lemma put_block_ok i g p l b cond {A} (k : result storeError unit → prog A) h Q :
  (∀ e, ok i (k (Err e)) h (publishing i g p l) Q) →
  ok i (k (Ok tt)) h (publishing i g p (b :: l)) Q → ok i (Do (PutBlock b cond) k) h (publishing i g p l) Q.
Proof.
  intros He Hok s o Hi Hh [Hu [Ho Hd]] _. cbn zeta. cbn [next_holding].
  set (s1 := set_blocks s (<[b := clock s]> (blocks s))).
  assert (∀ x, is_Some (blocks s !! x) → is_Some (blocks s1 !! x)) as Hgrow.
  { intros x Hx. simpl. destruct (decide (x = b)) as [->|]; [by rewrite lookup_insert_eq|by rewrite lookup_insert_ne]. }
  destruct (blocks_grow i s (blocks s1) Hi Hgrow) as [Hi1 Hg1]. change (set_blocks s (blocks s1)) with s1 in Hi1, Hg1.
  assert (∀ e, inv s ∧ guar i s s ∧ holding_ok i h s ∧ ∃ P', stable i P' ∧ P' s ∧ ok i (k (Err e)) h P' Q) as Hstay.
  { intros e. split_and!; [done|apply guar_refl|done|]. exists (publishing i g p l). split_and!; [stab|done|apply He]. }
  assert (publishing i g p (b :: l) s1) as Hnew.
  { split; [done|]. split; [done|]. intros Ht Hh1 x [->|Hx]%elem_of_cons; [simpl; by rewrite lookup_insert_eq|]. by apply Hgrow, (Hd Ht Hh1). }
  unfold exec, faulty. destruct (fault o) as [[]|]; cbn [fst snd]; [destruct (cond && _)|apply Hstay|destruct (cond && _)]; cbn [fst snd]; try apply Hstay.
  - split_and!; [done|done|done|]. exists (publishing i g p l). split_and!; [stab| |apply He]. destruct Hnew as [? [? H2]]. split; [done|]. split; [done|].
    intros Ht Hh1 x Hx. apply (H2 Ht Hh1). by right.
  - split_and!; [done|done|done|]. exists (publishing i g p (b :: l)). split_and!; [stab|done|done].
Qed.

Lemma publishing_sub i g p l l' s : (∀ b, b ∈ l' → b ∈ l) → publishing i g p l s → publishing i g p l' s.
Proof. intros Hl [? [? H]]. split; [done|]. split; [done|]. intros Ht Hh b Hb. by apply (H Ht Hh), Hl. Qed.

(** The certified root's blocks, under their hashes. *)
Definition known_in (known : gmap bytes Block) (l : list blockName) : Prop := ∀ hash b, known !! hash = Some b → (hash, bGeneration b) ∈ l.

Lemma upload_block_ok i g p l known content h :
  known_in known l →
  ok i (upload_block sha256 g known content) h (publishing i g p l)
    (λ r h' s, h' = h ∧ match r with Ok b => publishing i g p (blockObjectKey b :: l) s | Err _ => publishing i g p l s end).
Proof.
  intros Hk. unfold upload_block. set (hash := sha256 content).
  match goal with |- context [match known !! hash with Some _ => _ | None => ?p end] => set (fresh := p) end.
  assert (ok i fresh h (publishing i g p l)
    (λ r h' s, h' = h ∧ match r with Ok b => publishing i g p (blockObjectKey b :: l) s | Err _ => publishing i g p l s end)) as Hfresh.
  { apply (put_block_ok i g p l (hash, 0)); [|by intros s _ ?]. intros [| |]; [by intros s _ ?| |by intros s _ ?].
    apply (put_block_ok i g p l (hash, g)); [|by intros s _ ?]. intros e. by intros s _ ?. }
  destruct (known !! hash) as [b|] eqn:E; [|done]. destruct (_ =? _); [|done]. intros s _ H. split; [done|].
  eapply publishing_sub; [|exact H]. intros x [->|Hx]%elem_of_cons; [|done]. unfold blockObjectKey. simpl. by apply Hk.
Qed.

Lemma upload_blocks_ok i g p l known contents h :
  known_in known l →
  ok i (upload_blocks sha256 g known contents) h (publishing i g p l)
    (λ r h' s, h' = h ∧ match r with Ok bs => publishing i g p (map blockObjectKey bs ++ l) s | Err _ => publishing i g p l s end).
Proof.
  revert l. induction contents as [|content contents IH]; intros l Hk; cbn [upload_blocks]; [by intros s _ ?|].
  eapply ok_tbind; [by apply upload_block_ok| |by intros e h' s _ ?]. intros b h'. apply ok_pure. intros ->.
  eapply ok_tbind; [apply (IH (blockObjectKey b :: l)); intros hash b' Hb; right; by apply Hk| |].
  - intros bs h' s _ [-> H]. split; [done|]. eapply publishing_sub; [|exact H]. intros x. cbn [map]. rewrite !elem_of_app, !elem_of_cons. tauto.
  - intros e h' s _ [-> H]. split; [done|]. eapply publishing_sub; [|exact H]. intros x. by right.
Qed.

Lemma uploadFile_ok i g p l known source h :
  known_in known l →
  ok i (uploadFile sha256 source g known) h (publishing i g p l)
    (λ r h' s, h' = h ∧ match r with Ok f => publishing i g p (map blockObjectKey (fBlocks f) ++ l) s | Err _ => publishing i g p l s end).
Proof.
  intros Hk. unfold uploadFile. destruct (_ || _); [by intros s _ ?|]. eapply ok_tbind; [by apply upload_blocks_ok| |by intros e h' s _ ?].
  intros bs h'. by intros s _ ?.
Qed.

Definition file_blocks (fs : list File) : list blockName := fs ≫= λ f, map blockObjectKey (fBlocks f).

Lemma upload_files_ok i g p l known sources count h :
  known_in known l →
  ok i (upload_files sha256 sources g count known) h (publishing i g p l)
    (λ r h' s, h' = h ∧ match r with Ok fs => publishing i g p (file_blocks fs ++ l) s | Err _ => publishing i g p l s end).
Proof.
  revert l count. induction sources as [|source sources IH]; intros l count Hk; cbn [upload_files]; [by intros s _ ?|].
  eapply ok_tbind; [by apply uploadFile_ok| |by intros e h' s _ ?]. intros f h'. apply ok_pure. intros ->.
  destruct (_ <? _); [intros s _ H; split; [done|]; eapply publishing_sub; [|exact H]; intros x; rewrite elem_of_app; tauto|].
  eapply ok_tbind; [apply (IH (map blockObjectKey (fBlocks f) ++ l)); intros hash b Hb; apply elem_of_app; right; by apply Hk| |].
  - intros fs h' s _ [-> H]. split; [done|]. eapply publishing_sub; [|exact H]. intros x. change (file_blocks (f :: fs)) with (map blockObjectKey (fBlocks f) ++ file_blocks fs).
    rewrite !elem_of_app. tauto.
  - intros e h' s _ [-> H]. split; [done|]. eapply publishing_sub; [|exact H]. intros x. rewrite elem_of_app. tauto.
Qed.

(** *** The root *)

Lemma put_root_inv i cp s p :
  inv s → roots s !! root_key cp = None → cp ∉ promoted s → own i (cpGeneration cp) p s →
  let s' := set_roots s (<[root_key cp := (cp, clock s)]> (roots s)) in inv s' ∧ guar i s s' ∧ stored cp s'.
Proof.
  intros [I1 I2 I3 I4 I5 I6 I7 I8] Hn Hp Ho s'. assert (stored cp s') as Hst by (unfold PublishLogic.stored, s'; simpl; by rewrite lookup_insert_eq).
  assert (∀ x, stored x s → stored x s') as Hgrow.
  { intros x [y Hx]. unfold PublishLogic.stored, s'. simpl. rewrite lookup_insert_ne; [by eexists|]. congruence. }
  split_and!; [| |done].
  - split; try done.
    + intros k x t. unfold s'. simpl. intros [[<- [= <- <-]]|[_ ?]]%lookup_insert_Some; [done|by eapply I6].
    + intros Ht. destruct (I8 Ht) as [J1 J2 J3]. split.
      * intros q v E. destruct (J1 q v E) as (x & ? & ? & ?). exists x. split_and!; [done|done|by apply Hgrow].
      * intros x Hx Hs. apply J2; [done|]. destruct Hs as [y Hy]. unfold s' in Hy. simpl in Hy. rewrite lookup_insert_ne in Hy; [by exists y|].
        intros Ek%root_key_inj. by subst.
      * intros k r Ha Hr. by apply Hgrow, (J3 k r).
  - split; simpl; eauto using cc_same.
    + intros k Hk. left. rewrite lookup_insert_is_Some'. by right.
    + intros k x t [[<- [= <- <-]]|[_ ?]]%lookup_insert_Some; [right; eauto|left; by eexists].
Qed.

Lemma knownBlocks_in certified : known_in (knownBlocks certified) (match certified with Some cp => root_blocks cp | None => [] end).
Proof.
  destruct certified as [cp|]; [|intros hash b; unfold knownBlocks; by rewrite lookup_empty]. unfold knownBlocks.
  assert (∀ (l : list Block) (m : gmap bytes Block), (∀ hash b, m !! hash = Some b → bHash b = hash ∧ b ∈ l) →
    ∀ k : list Block, (∀ b, b ∈ k → b ∈ l) → ∀ hash b, foldl (λ m b, <[bHash b := b]> m) m k !! hash = Some b → bHash b = hash ∧ b ∈ l) as H.
  { intros l m Hm k. revert m Hm. induction k as [|x k IH]; intros m Hm Hk hash b; simpl; [apply Hm|]. apply IH; [|intros y Hy; apply Hk; by right].
    intros hash' b' [[<- <-]|[_ ?]]%lookup_insert_Some; [split; [done|apply Hk; by left]|by apply Hm]. }
  intros hash b Hb. destruct (H (cpFiles cp ≫= fBlocks) ∅ ltac:(intros ? ?; by rewrite lookup_empty) _ ltac:(done) _ _ Hb) as [<- Hin].
  apply list_elem_of_bind in Hin as (f & Hb' & Hf). apply list_elem_of_bind. exists f. split; [|done]. change (bHash b, bGeneration b) with (blockObjectKey b).
  by apply list_elem_of_fmap_2.
Qed.

Abbreviation uploadCandidate := (Publish.uploadCandidate configID expectedPolicy sha256 marshal).

Lemma uploadCandidate_ok i g p certified sources index h :
  ok i (uploadCandidate certified sources index g) h (publishing i g p (match certified with Some cp => root_blocks cp | None => [] end))
    (λ r h' s, h' = h ∧ own i g p s ∧ match r with Ok cp => published i g p cp s | Err _ => True end).
Proof.
  assert (∀ l (e : publishError) h0, ok i (Ret (Err e) : presult Checkpoint) h0 (publishing i g p l)
    (λ r h' s, h' = h0 ∧ own i g p s ∧ match r with Ok cp => published i g p cp s | Err _ => True end)) as Hend.
  { intros l e h0 s _ H. split_and!; [done|apply H|done]. }
  eapply ok_tbind; [apply upload_files_ok, knownBlocks_in| |intros e h' s _ [-> H]; split_and!; [done|apply H|done]].
  intros fs h'. apply ok_pure. intros ->. cbn zeta. destruct (_ <? _); [apply Hend|]. set (cp := mkCheckpoint _ _ _ _ _ _ _). destruct (_ <? _); [apply Hend|].
  intros s o Hi Hh Hp _. cbn zeta. cbn [next_holding].
  assert (∀ s', publishing i g p (file_blocks fs ++ match certified with Some cp => root_blocks cp | None => [] end) s' → stored cp s' → published i g p cp s') as Hdone.
  { intros s' [Hu [Ho Hd]] Hs. split; [done|]. split; [done|]. intros Ht Hh'. split; [done|]. intros b Hb. apply (Hd Ht Hh'), elem_of_app. by left. }
  assert (cp ∉ promoted s) as Hnp by (intros Hin; by apply (proj2 (proj1 Hp) cp Hin)).
  assert (∀ s', inv s' → guar i s s' → holding_ok i h s' → own i g p s' → ∀ e : publishError,
     inv s' ∧ guar i s s' ∧ holding_ok i h s' ∧ ∃ P', stable i P' ∧ P' s' ∧ ok i (Ret (Err e) : presult Checkpoint) h P'
       (λ r h' s, h' = h ∧ own i g p s ∧ match r with Ok cp => published i g p cp s | Err _ => True end)) as Herr.
  { intros s' Hi' Hg' Hh' Ho e. split_and!; [done..|]. exists (own i g p). split_and!; [stab|done|]. by intros s2 _ ?. }
  assert (∀ s', inv s' → guar i s s' → holding_ok i h s' → published i g p cp s' →
     inv s' ∧ guar i s s' ∧ holding_ok i h s' ∧ ∃ P', stable i P' ∧ P' s' ∧ ok i (Ret (Ok cp) : presult Checkpoint) h P'
       (λ r h' s, h' = h ∧ own i g p s ∧ match r with Ok cp => published i g p cp s | Err _ => True end)) as Hgood.
  { intros s' Hi' Hg' Hh' Hpub. split_and!; [done..|]. exists (published i g p cp). split_and!; [stab|done|]. intros s2 _ H2. split_and!; [done|apply H2|done]. }
  assert (own i g p s) as Ho by apply Hp. change (index, RootHash cp) with (root_key cp).
  unfold exec, faulty. case_bool_decide as Es; [|assert (roots s !! root_key cp = None) as En by (by apply eq_None_not_Some);
    destruct (put_root_inv i cp s p Hi En Hnp Ho) as (Hi' & Hg' & Hst)]; destruct (fault o) as [[]|]; cbn [fst snd].
  - apply Herr; auto using guar_refl.
  - apply Herr; auto using guar_refl.
  - apply Hgood; auto using guar_refl.
  - by apply Herr.
  - apply Herr; auto using guar_refl.
  - apply Hgood; [done|done|done|]. by apply Hdone.
Qed.

Lemma CreateFiles_ok i claim certified sources index h :
  let g := clGeneration claim in let p := Purpose claim in
  ok i (CreateFiles configID expectedPolicy sha256 marshal certified claim sources index) h (unpromoted i g p)
    (λ r h' s, own i g p s ∧ match r with Ok cp => published i g p cp s | Err _ => True end).
Proof.
  intros g p. unfold CreateFiles. destruct (negb _); [intros s _ H; split; [apply H|done]|].
  apply ok_read; [done|]. intros s o _ Hu. exists (unpromoted i g p). split; [stab|]. split; [done|]. destruct (_ || _); [intros s' _ H; split; [apply H|done]|].
  clear s o Hu.
  eapply ok_tbind; [apply validatePublisherLease_ok; [stab|by intros s []]| |intros e h' s _ [H _]; split; [apply H|done]].
  intros [] h'. eapply ok_weaken; [by intros s _ [H _]|]. eapply ok_tbind; [apply refreshCertifiedCurrent_ok| |by intros e h1 s _ [_ H]].
  intros certified' h1. eapply ok_consequence; [|eapply ok_weaken; [|apply uploadCandidate_ok]].
  - intros r h2 s _ (_ & H1 & H2). by split.
  - intros s _ [_ H]. by destruct certified'.
Qed.

(** ** CURRENT *)

Abbreviation saw_current := (saw current).

Lemma current_fresh i s s' : rely i s s' → current s' = current s ∨ ∃ a v, current s' = Some (a, v) ∧ (versions s <= v)%nat.
Proof. intros [(d & _ & ->)|(j & _ & G)]; [by left|]. destruct (gu_current _ _ _ _ G) as [?|(q & v & ? & ? & _)]; [by left|right; by exists q, v]. Qed.

Lemma stable_saw_current i v q : stable i (saw_current v q).
Proof. apply stable_saw, current_fresh. Qed.
#[local] Hint Resolve stable_saw_current : stable.

Lemma stable_version i v : stable i (λ s, (v < versions s)%nat).
Proof. intros s s' _ _ Hr H. pose proof (rely_versions _ _ _ _ Hr). lia. Qed.
#[local] Hint Resolve stable_version : stable.

(** A leased request of a process that sees its lease runs while it holds. *)
Lemma leased_held i g p until {X} (r : rpc X) s :
  holding_ok i (Some (g, until)) s → may_run timely (Some (g, until)) r s = true → leased r = true → own i g p s → timely = true →
  held g s ∧ held_by i (bool_decide (p = Maintenance)) s.
Proof.
  intros [_ H] Hm Hl Ho Ht. unfold may_run in Hm. rewrite Ht, Hl in Hm. apply Z.ltb_lt in Hm. destruct (H Hm) as (c & v & E & <- & _).
  split; [by exists c, v|]. by exists c, v, p.
Qed.

Lemma put_current_inv i g p cp s :
  inv s → published i g p cp s → p ≠ Maintenance → (timely = true → held g s ∧ held_by i (bool_decide (p = Maintenance)) s) →
  (∀ q v, current s = Some (q, v) → ptrIndex q < cpIndex cp) →
  let s' := put_current (mkPointer (cpIndex cp) (RootHash cp)) s in inv s' ∧ guar i s s'.
Proof.
  intros Hi [Eg [Ho Hd]] Hp Hheld Hidx s'. rewrite (bool_decide_false _ Hp) in Hheld.
  assert (promoted s' = promoted s ∧ ¬ stored cp s ∨ promoted s' = cp :: promoted s ∧ stored cp s) as Hpr.
  { unfold s'. simpl. destruct (roots s !! (cpIndex cp, RootHash cp)) as [[x t]|] eqn:E.
    - right. assert (stored cp s) as Hs by (by eexists). destruct (stored_root cp s Hi Hs) as [t' E']. unfold PublishLogic.root_key in E'. rewrite E in E'. by injection E' as -> ->.
    - left. split; [done|]. intros [y Hy]. unfold PublishLogic.root_key in Hy. congruence. }
  destruct Hi as [I1 I2 I3 I4 I5 I6 I7 I8]. split.
  - split; try done.
    + intros c v E. destruct (I2 c v E) as (? & ? & ? & ?). split_and!; [unfold s'; simpl; lia|done..].
    + intros q v [= <- <-]. unfold s'. simpl. lia.
    + intros k r v t E. destruct (I5 k r v t E). unfold s'. simpl. lia.
    + intros x. destruct Hpr as [[-> _]|[-> _]]; [apply I7|]. intros [->|Hx]%elem_of_cons; [|by apply I7]. rewrite Eg. by eexists.
    + intros Ht. destruct (I8 Ht) as [J1 J2 J3]. destruct (Hheld Ht) as [Hh _]. destruct (Hd Ht Hh) as [Hs Hb]. destruct Hpr as [[_ Hn]|[Epr _]]; [done|]. split.
      * intros q v [= <- <-]. exists cp. rewrite Epr. split_and!; [by left|done|done].
      * intros x. rewrite Epr. intros [->|Hx]%elem_of_cons; [done|by apply J2].
      * intros k r Ha. rewrite Epr. intros [->|Hx]%elem_of_cons; [done|by apply (J3 k r)].
  - split; try done.
    + unfold s'. simpl. lia.
    + by apply cc_same.
    + right. exists (mkPointer (cpIndex cp) (RootHash cp)), (versions s). split_and!; [done|lia|exact Hidx|]. intros Ht. apply (Hheld Ht).
    + destruct Hpr as [[-> _]|[-> _]]; [by left|right]. exists cp, p. rewrite Eg. split_and!; [done|done|]. intros Ht. apply (Hheld Ht).
    + eauto.
    + eauto.
    + intros k x t E. left. by eexists.
    + eauto.
Qed.

(** CURRENT has a smaller index, if the condition is met. *)
Definition behind (cond : condition) (cp : Checkpoint) (s : store) : Prop :=
  match cond with IfNotExists => True | IfMatch v => ∃ q, saw_current v q s ∧ ptrIndex q < cpIndex cp end.

Lemma stable_behind i cond cp : stable i (behind cond cp).
Proof. destruct cond as [|v]; [apply stable_const|]. apply stable_ex. intros q. stab. Qed.
#[local] Hint Resolve stable_behind : stable.

Lemma behind_met cond cp s q v :
  behind cond cp s → met cond (snd <$> current s) = true → current s = Some (q, v) → ptrIndex q < cpIndex cp.
Proof.
  intros Hb Hm E. rewrite E in Hm. unfold met in Hm. destruct cond as [|v']; case_bool_decide as E'; try done. simpl in E'. injection E' as ->.
  destruct Hb as (q' & [_ H] & Hlt). by rewrite (H q E).
Qed.

Lemma write_current_ok i g p cp cond until (again : presult unit) :
  let h := Some (g, until) in
  p ≠ Maintenance →
  ok i again h (published i g p cp) (λ r h' s, published i g p cp s) →
  ok i (x ← call (WriteCurrent (mkPointer (cpIndex cp) (RootHash cp)) cond);
        match x with Ok _ => Ret (Ok tt) | Err ConditionNotMet => again | Err e => Ret (Err (EStore e)) end)
    h (λ s, published i g p cp s ∧ behind cond cp s) (λ r h' s, published i g p cp s).
Proof.
  intros h Hp Hagain s o Hi Hh [Hpub Hb] Hm. cbn zeta. cbn [next_holding].
  assert (∀ x : result storeError unit, ok i (match x with Ok _ => Ret (Ok tt) | Err ConditionNotMet => again | Err e => Ret (Err (EStore e)) end) h (published i g p cp)
    (λ r h' s, published i g p cp s)) as Hnext by (intros [?|[]]; by first [exact Hagain|intros s' _ ?]).
  assert (∀ s' (x : result storeError unit), inv s' → guar i s s' → holding_ok i h s' → published i g p cp s' →
    inv s' ∧ guar i s s' ∧ holding_ok i h s' ∧ ∃ P', stable i P' ∧ P' s' ∧
      ok i (match x with Ok _ => Ret (Ok tt) | Err ConditionNotMet => again | Err e => Ret (Err (EStore e)) end) h P' (λ r h' s, published i g p cp s)) as Hgo.
  { intros s' x ? ? ? ?. split_and!; [done..|]. exists (published i g p cp). split_and!; [stab|done|apply Hnext]. }
  destruct (met cond (snd <$> current s)) eqn:Emet.
  - destruct (put_current_inv i g p cp s Hi Hpub Hp) as [Hi' Hg'].
    { intros Ht. by eapply (leased_held i g p until _ s Hh Hm); [|apply Hpub|]. }
    { intros q v E. by eapply behind_met. }
    unfold exec, faulty. rewrite Emet. destruct (fault o) as [[]|]; cbn [fst snd];
      [apply (Hgo _ (Err Failed))|apply (Hgo _ (Err Failed))|apply (Hgo _ (Ok tt))]; auto using guar_refl.
  - unfold exec, faulty. rewrite Emet. destruct (fault o) as [[]|]; cbn [fst snd];
      [apply (Hgo _ (Err Failed))|apply (Hgo _ (Err Failed))|apply (Hgo _ (Err ConditionNotMet))]; auto using guar_refl.
Qed.

Lemma promote_attempts_ok i g p cp until n :
  p ≠ Maintenance →
  ok i (promote_attempts configID expectedPolicy sha256 marshal n cp) (Some (g, until)) (published i g p cp) (λ r h' s, published i g p cp s).
Proof.
  intros Hp. induction n as [|n IH]; cbn [promote_attempts]; [by intros s _ ?|].
  apply ok_read; [done|]. intros s o Hi Hpub.
  assert (∀ e, ∃ P', stable i P' ∧ P' s ∧ ok i (Ret (Err (EStore e)) : presult unit) (Some (g, until)) P' (λ r h' s, published i g p cp s)) as Hend.
  { intros e. exists (published i g p cp). split_and!; [stab|done|]. by intros s' _ ?. }
  unfold exec, faulty. destruct (fault o) as [[]|]; cbn [fst snd]; [apply Hend..|]. destruct (current s) as [[q v]|] eqn:Ec; cbn [fmap option_fmap option_map answered snd].
  2: { exists (λ s, published i g p cp s ∧ behind IfNotExists cp s). split_and!; [stab|done|done|]. by apply write_current_ok. }
  exists (λ s, published i g p cp s ∧ (v < versions s)%nat). split_and!; [stab|done|by apply (iv_current _ _ _ _ Hi q)|].
  eapply (ok_tbind _ _ _ _ _ _ _ _ (λ r h' s, h' = Some (g, until) ∧ published i g p cp s ∧ match r with Ok ptr => saw_current v ptr s | Err _ => True end)).
  - apply ok_ask; [done|]. intros s1 o1 Hi1 [Hp1 Hv1]. destruct (exec i GetCurrent o1 s1).2 as [ptr|e] eqn:E1.
    + exists (λ s, published i g p cp s ∧ saw_current v ptr s). split_and!; [stab|done| |by intros s' _ []]. split; [done|]. intros q' E'.
      revert E1. unfold exec, faulty. destruct (fault o1) as [[]|]; try done. rewrite E'. by intros [= ->].
    + exists (published i g p cp). by split_and!; [stab|..].
  - intros ptr h'. apply ok_pure. intros ->. destruct (Z.ltb_spec (cpIndex cp) (ptrIndex ptr)) as [|Hle]; [|destruct (_ && _); [by intros s' _ []|]; destruct (Z.eqb_spec (ptrIndex ptr) (cpIndex cp)) as [|Hne]; [by intros s' _ []|]].
    + eapply ok_tbind; [eapply ok_weaken; [|apply (OpenRoot_ok i _ _ _ (published i g p cp)); stab]; by intros s' _ []| |by intros e h' s' _ (_ & ? & _)].
      intros cp' h'. by intros s' _ (_ & ? & _).
    + eapply ok_weaken; [|by apply (write_current_ok i g p cp (IfMatch v))]. intros s' _ [? ?]. split; [done|]. exists ptr. split; [done|]. lia.
  - by intros e h' s' _ (_ & ? & _).
Qed.

Lemma PromoteCertifiedCurrent_ok i claim cp h :
  let g := clGeneration claim in let p := Purpose claim in
  p ≠ Maintenance →
  ok i (PromoteCertifiedCurrent configID expectedPolicy sha256 marshal (Some claim) cp) h (published i g p cp) (λ r h' s, published i g p cp s).
Proof.
  intros g p Hp. eapply ok_tbind; [apply validatePublisherLease_ok; [stab|by intros s [_ []]]| |by intros e h' s _ [H _]].
  intros [] h'. eapply (ok_weaken _ _ _ _ _ _ (λ s, (∃ until, h' = Some (g, until)) ∧ published i g p cp s)); [by intros s _ [? ?]|].
  apply ok_pure. intros [until ->]. eapply ok_tbind; [apply OpenRoot_ok; stab| |by intros e h' s _ (_ & ? & _)].
  intros cp' h'. apply ok_pure. intros ->. eapply ok_weaken; [|by apply promote_attempts_ok]. by intros s _ [? _].
Qed.

(** ** Pins *)

(** The object of a pin, with the time it was written. *)
Definition pin_object (key : bytes) (s : store) : option ((recoveryPinRecord * Z) * nat) := (λ e, ((e.1.1, e.2), e.1.2)) <$> pins s !! key.

Abbreviation saw_pin := (λ key, saw (pin_object key)).

Lemma pin_fresh i key s s' : rely i s s' → pin_object key s' = pin_object key s ∨ ∃ a v, pin_object key s' = Some (a, v) ∧ (versions s <= v)%nat.
Proof.
  unfold pin_object. intros [(d & _ & ->)|(j & _ & G)]; [by left|]. destruct (gu_pins _ _ _ _ G key) as [->|(r & v & t & -> & ? & _)]; [by left|right].
  by exists (r, t), v.
Qed.

Lemma stable_saw_pin i key v b : stable i (saw_pin key v b).
Proof. apply stable_saw, pin_fresh. Qed.
#[local] Hint Resolve stable_saw_pin : stable.

Lemma saw_pin_met key v r t s :
  saw_pin key v (r, t) s → met (IfMatch v) ((λ e, e.1.2) <$> pins s !! key) = true → pins s !! key = Some (r, v, t).
Proof.
  unfold saw, pin_object, met. intros [_ H]. case_bool_decide as E; [|done]. intros _. destruct (pins s !! key) as [[[r' v'] t']|]; [|done].
  injection E as ->. by injection (H (r', t') eq_refl) as -> ->.
Qed.

(** Reading a pin: facts [G] of the record and of the time it was written. *)
Lemma readRecoveryPin_ok i key h F (G : recoveryPinRecord * Z → store → Prop) N :
  stable i F → (∀ a, stable i (G a)) → stable i N →
  (∀ s r v t, inv s → F s → pins s !! key = Some (r, v, t) → G (r, t) s) → (∀ s, inv s → F s → pins s !! key = None → N s) →
  ok i (readRecoveryPin configID expectedPolicy sha256 marshal key) h F
    (λ r h' s, h' = h ∧ F s ∧ match r with
       | Ok (r, v) => ∃ t, saw_pin key v (r, t) s ∧ G (r, t) s ∧ recoveryPinRoot configID expectedPolicy sha256 marshal r = Some (pinRoot r)
       | Err (EStore NotFound) => N s
       | Err _ => True end).
Proof.
  intros HF HG HN Hest Hnone. eapply ok_tbind.
  - apply (readStable_ok sha256 marshal timely i (pin_object key) fst (pin_fresh i key)) with (G := G) (N := N); try done.
    + intros s [r t] v Hi. unfold pin_object. destruct (pins s !! key) as [[[r' v'] t']|] eqn:E; [|done]. intros [= <- <- <-]. apply (iv_pins _ _ _ _ Hi _ _ _ _ E).
    + intros o s. unfold exec, faulty, pin_object. destruct (fault o) as [[]|]; simpl; try done. destruct (pins s !! key) as [[[r' v'] t']|]; [|done]. by exists (r', t').
    + intros o s. unfold exec, faulty, pin_object. destruct (fault o) as [[]|]; simpl; try done. destruct (pins s !! key) as [[[r' v'] t']|]; [|done]. by exists (r', t'), v'.
    + intros s [r t] v Hi HFs. unfold pin_object. destruct (pins s !! key) as [[[r' v'] t']|] eqn:E; [|done]. intros [= <- <- <-]. by eapply Hest.
    + intros s Hi HFs. unfold pin_object. destruct (pins s !! key) as [[[r' v'] t']|] eqn:E; [done|]. intros _. by apply Hnone.
  - intros [r v] h'. cbn [fst]. destruct (_ || _); [by intros s _ (-> & ? & _)|].
    destruct (recoveryPinRoot _ _ _ _ r) as [cp|] eqn:E; [|by intros s _ (-> & ? & _)].
    assert (cp = pinRoot r) as -> by (revert E; unfold recoveryPinRoot; destruct (_ && _); [by intros [= ->]|done]).
    intros s _ (-> & ? & [r' t] & Er & ? & ?). cbn [fst] in Er. subst. split_and!; [done|done|by exists t].
  - by intros e h' s _ (-> & ? & ?).
Qed.

(** A pin may be written if it is ended, if it was alive on the same root, or
    under a maintenance claim if its root is there. *)
Lemma put_pin_inv i key r' s :
  inv s →
  (clock s < pinLease r' → (∃ r, alive s key r ∧ pinRoot r = pinRoot r') ∨ (timely = true → held_by i true s ∧ stored (pinRoot r') s)) →
  inv (put_pin key r' s) ∧ guar i s (put_pin key r' s).
Proof.
  intros [I1 I2 I3 I4 I5 I6 I7 I8] Hr. split.
  - split; try done.
    + intros c v E. destruct (I2 c v E) as (? & ? & ? & ?). split_and!; [simpl; lia|done..].
    + intros q v E. pose proof (I4 q v E). simpl. lia.
    + intros k r v t. simpl. intros [[<- [= <- <- <-]]|[_ E]]%lookup_insert_Some; [lia|]. destruct (I5 k r v t E). lia.
    + intros Ht. destruct (I8 Ht) as [J1 J2 J3]. split; [done|done|]. intros k r (v & t & E & Hlt) Hp. simpl in E.
      apply lookup_insert_Some in E as [[<- [= <- <- <-]]|[_ E]]; [|by apply (J3 k r); [exists v, t|]].
      destruct (Hr Hlt) as [(r & Ha & Er)|H]; [|by apply (H Ht)]. rewrite <-Er. change (stored (pinRoot r) s). apply (J3 key r Ha). by rewrite Er.
  - split; simpl; eauto using cc_same. intros k. destruct (decide (k = key)) as [->|Hne]; [|left; by rewrite lookup_insert_ne].
    right. exists r', (versions s), (clock s). rewrite lookup_insert_eq. split_and!; [done|lia|]. intros Hlt.
    destruct (Hr Hlt) as [?|H]; [by left|right; intros Ht; apply (H Ht)].
Qed.

(** A write of a pin in a program; [E] holds whatever the answer. *)
Lemma write_pin_ok i key r cond h {A} (k : result storeError unit → prog A) P P' E Q :
  (∀ s, inv s → holding_ok i h s → P s → may_run timely h (WritePin key r cond) s = true → met cond ((λ e, e.1.2) <$> pins s !! key) = true →
     (clock s < pinLease r → (∃ r0, alive s key r0 ∧ pinRoot r0 = pinRoot r) ∨ (timely = true → held_by i true s ∧ stored (pinRoot r) s)) ∧
     P' (put_pin key r s) ∧ E (put_pin key r s)) →
  (∀ s, P s → E s) → stable i P' → stable i E →
  (∀ e, ok i (k (Err e)) h E Q) → ok i (k (Ok tt)) h P' Q → ok i (Do (WritePin key r cond) k) h P Q.
Proof.
  intros Hstep HPE HP' HE He Hok s o Hi Hh HP Hm. cbn zeta. cbn [next_holding].
  assert (∀ s' e, inv s' → guar i s s' → holding_ok i h s' → E s' →
    inv s' ∧ guar i s s' ∧ holding_ok i h s' ∧ ∃ P', stable i P' ∧ P' s' ∧ ok i (k (Err e)) h P' Q) as Herr.
  { intros s' e ? ? ? ?. split_and!; [done..|]. by exists E. }
  unfold exec, faulty. destruct (met cond _) eqn:Emet.
  - destruct (Hstep s Hi Hh HP Hm Emet) as (Hr & Hnew & HnewE). destruct (put_pin_inv i key r s Hi Hr) as [Hi' Hg'].
    destruct (fault o) as [[]|]; cbn [fst snd]; [by apply Herr|apply Herr; auto using guar_refl|]. split_and!; [done|done|done|]. by exists P'.
  - destruct (fault o) as [[]|]; cbn [fst snd]; apply Herr; auto using guar_refl.
Qed.

Lemma read_pin_plain i key h F :
  stable i F →
  ok i (readRecoveryPin configID expectedPolicy sha256 marshal key) h F
    (λ r h' s, h' = h ∧ F s ∧ match r with Ok (r, v) => ∃ t, saw_pin key v (r, t) s ∧ t <= clock s | Err _ => True end).
Proof.
  intros HF. eapply ok_consequence; [|apply (readRecoveryPin_ok i key h F (λ a s, a.2 <= clock s) (λ _, True)); [done|intros a; stab|stab| |done]].
  - intros [[r v]|e] h' s _ (-> & ? & H); [|by split_and!]. destruct H as (t & ? & ? & _). split_and!; [done|done|by exists t].
  - intros s r v t Hi _ E. apply (iv_pins _ _ _ _ Hi _ _ _ _ E).
Qed.

Lemma confirmRecoveryPin_ok i key expected h F :
  stable i F → ok i (confirmRecoveryPin configID expectedPolicy sha256 marshal key expected) h F (λ r h' s, F s).
Proof.
  intros HF. eapply ok_bind; [by apply read_pin_plain|]. intros [[r v]|e] h'.
  - apply ok_read; [done|]. intros s o Hi (_ & HFs & _). exists F. split_and!; [done|done|]. destruct (_ || _); by intros s' _ ?.
  - destruct e as [[]| | | | | |]; by intros s _ (_ & ? & _).
Qed.

(** A pin is put on a root that is there, under the maintenance claim. *)
Lemma pin_attempts_ok i g until key record n :
  ok i (pin_attempts configID expectedPolicy sha256 marshal n key record) (Some (g, until)) (during i g Maintenance (stored (pinRoot record)))
    (λ r h' s, during i g Maintenance (stored (pinRoot record)) s).
Proof.
  set (F := during i g Maintenance (stored (pinRoot record))).
  assert (stable i F) as HF by (apply stable_during; [done|]; intros s s' _ _ Hc; apply (cm_roots _ _ _ _ Hc)).
  induction n as [|n IH]; cbn [pin_attempts]; [by intros s _ ?|].
  assert (∀ cond, ok i (w ← call (WritePin key record cond);
      match w with
      | Err ConditionNotMet => pin_attempts configID expectedPolicy sha256 marshal n key record
      | Err e => Ret (Err (EStore e))
      | Ok _ => confirmRecoveryPin configID expectedPolicy sha256 marshal key record
      end) (Some (g, until)) F (λ r h' s, F s)) as Hup.
  { intros cond. apply (write_pin_ok i key record cond (Some (g, until)) _ F F F); [|done|done|done| |].
    - intros s Hi Hh [Ho Hd] Hm _. split; [|done]. intros _. right. intros Ht.
      destruct (leased_held i g Maintenance until _ s Hh Hm eq_refl Ho Ht) as [Hheld Hby]. split; [done|by apply Hd].
    - intros [| |]; [by intros s _ ?|exact IH|by intros s _ ?].
    - by apply confirmRecoveryPin_ok. }
  eapply ok_bind; [by apply read_pin_plain|]. intros [[r v]|e] h'.
  - apply ok_pure. intros ->. apply ok_read; [done|]. intros s o Hi (HFs & _). exists F. split_and!; [done|done|]. destruct (_ <? _); [by intros s' _ ?|apply Hup].
  - destruct e as [[]| | | | | |]; try (by intros s _ (_ & ? & _)). apply ok_pure. intros ->. eapply ok_weaken; [|apply Hup]. by intros s _ [? _].
Qed.

Lemma during_claim i g p F s c0 v0 c :
  claimObject s = Some (c0, v0) → clGeneration c = clGeneration c0 → holders (put_claim i c s) = holders s →
  (F s → F (put_claim i c s)) → during i g p F s → during i g p F (put_claim i c s).
Proof.
  intros E Eg Eh HF [Ho H]. split; [unfold own in *; by rewrite Eh|]. intros Ht (c1 & v1 & E1 & E2). simpl in E1. injection E1 as <- <-.
  apply HF, (H Ht). exists c0, v0. split; [done|]. congruence.
Qed.

Lemma own_same_generation i g p : same_generation i (own i g p).
Proof. intros s c0 v0 c E Eg Eh. unfold own. by rewrite Eh. Qed.

Lemma withMaintenanceClaim_ok i {A} (work : PublisherClaim → presult A) :
  (∀ claim, Purpose claim = Maintenance →
     ok i (work claim) (Some (clGeneration claim, LeaseUntilMS claim)) (own i (clGeneration claim) Maintenance) (λ r h' s, own i (clGeneration claim) Maintenance s)) →
  ok i (withMaintenanceClaim configID work) None (λ _, True) (λ _ _ _, True).
Proof.
  intros Hw. eapply (ok_tbind _ _ _ _ _ _ _ _ (acquired i Maintenance)); [apply (acquire_attempts_ok _ _ _ _ i 4 true checkpoint_gc 0 Maintenance)| |done].
  intros claim h. eapply (ok_weaken _ _ _ _ _ _ (λ s, (Purpose claim = Maintenance ∧ h = Some (clGeneration claim, LeaseUntilMS claim)) ∧ own i (clGeneration claim) Maintenance s)).
  { by intros s _ (? & [? _] & ?). }
  apply ok_pure. intros [Ep ->]. eapply ok_bind; [by apply Hw|]. intros r h'.
  eapply ok_bind; [apply ReleasePublisherClaim_ok; [stab|apply own_same_generation|intros s; by rewrite Ep]|]. intros rel h''.
  destruct r as [x|e], rel as [[]|[| | | | | |]]; try (by intros s _ _);
    (apply ok_read; [done|]; intros s o _ _; exists (λ _, True); split_and!; [apply stable_const|done|]; destruct (exec i Choice o s).2; by intros s' _ _).
Qed.

Lemma PinRecoveryRoot_ok i cp owner token lease :
  ok i (PinRecoveryRoot configID expectedPolicy sha256 marshal cp owner token lease) None (λ _, True) (λ _ _ _, True).
Proof.
  unfold PinRecoveryRoot. destruct (_ || _); [by intros s _ _|]. eapply ok_tbind; [apply withMaintenanceClaim_ok| |done].
  - intros claim Ep. set (g := clGeneration claim).
    assert (∀ r, stable i (λ s, own i g Maintenance s ∧ match r : result publishError Z with Ok _ => during i g Maintenance (stored cp) s | Err _ => True end)) as Hst.
    { intros []; [|stab]. apply stable_and; [stab|]. apply stable_during; [done|]. intros s s' _ _ Hc. apply (cm_roots _ _ _ _ Hc). }
    eapply (ok_tbind _ _ _ _ _ _ _ _ (λ r h' s, h' = Some (g, LeaseUntilMS claim) ∧ own i g Maintenance s ∧
      match r with Ok _ => during i g Maintenance (stored cp) s | Err _ => True end)).
    + apply ok_ask; [done|]. intros s o Hi Ho. destruct (exec i (AttrRoot (cpIndex cp) (RootHash cp)) o s).2 as [t|e] eqn:E.
      * exists (λ s, own i g Maintenance s ∧ during i g Maintenance (stored cp) s). split; [apply (Hst (Ok 0))|]. split; [|by intros s' _ []].
        split; [done|]. split; [done|]. intros _ _. revert E. unfold exec, faulty. destruct (fault o) as [[]|]; try done. simpl. unfold PublishLogic.stored, PublishLogic.root_key.
        destruct (roots s !! (cpIndex cp, RootHash cp)); [|done]. by eexists.
      * exists (own i g Maintenance). by split_and!; [stab|..].
    + intros t h'. apply ok_pure. intros ->. apply ok_read; [done|]. intros s o Hi [_ Hd]. exists (during i g Maintenance (stored cp)). split_and!; [|done|].
      * intros s1 s2 Hi1 Hi2 Hr Hd1. apply (Hst (Ok 0) s1 s2 Hi1 Hi2 Hr). split; [apply Hd1|done].
      * eapply ok_consequence; [|apply (pin_attempts_ok i g (LeaseUntilMS claim) _ (mkPin _ _ _ _ _ cp _))]. by intros r h' s' _ [? _].
    + by intros e h' s _ (_ & ? & _).
  - intros pin h'. apply ok_read; [done|]. intros s o _ _. exists (λ _, True). split_and!; [apply stable_const|done|]. destruct (_ <=? _); by intros s' _ _.
Qed.

Lemma upload_pin_ok i key r v t r' h :
  pinRoot r' = pinRoot r →
  ok i (upload_pin key r' v) h (λ s, saw_pin key v (r, t) s ∧ (t < pinLease r ∨ pinLease r' <= clock s)) (λ _ _ _, True).
Proof.
  intros Er. apply (write_pin_ok i key r' (IfMatch v) h _ _ (λ _, True) (λ _, True)); [|done|apply stable_const|apply stable_const| |].
  - intros s Hi Hh [Hsaw Hor] Hm Hmet. split; [|done]. intros Hlt. left. exists r. split; [|done]. exists v, t. split; [by apply saw_pin_met|].
    destruct Hor; [done|lia].
  - intros [| |]; by intros s _ _.
  - by intros s _ _.
Qed.
End steps.
