(* ===== verification/PublishProofs.v ===== *)
(** * Safety of the checkpoint namespace

    Garbage collection, the clients and the theorems: who holds the claim,
    how CURRENT moves, and that CURRENT and pinned roots stay complete. *)

From stdpp Require Import gmap list sorting.
From S2P Require Import Prelude Programs Publish PublishLogic PublishClaims PublishSteps.

#[local] Open Scope program_scope.

Section proofs.
Context (configID expectedPolicy : Z) (sha256 : bytes → bytes) (marshal : Checkpoint → bytes) (timely : bool).
Context (root_inj : ∀ x y : Checkpoint, RootHash sha256 marshal x = RootHash sha256 marshal y → x = y).

Abbreviation RootHash := (Publish.RootHash sha256 marshal).
Abbreviation root_key := (PublishLogic.root_key sha256 marshal).
Abbreviation stored := (PublishLogic.stored sha256 marshal).
Abbreviation inv := (PublishLogic.inv sha256 marshal timely).
Abbreviation guar := (PublishLogic.guar timely).
Abbreviation rely := (PublishLogic.rely timely).
Abbreviation stable := (PublishLogic.stable sha256 marshal timely).
Abbreviation ok := (PublishLogic.ok sha256 marshal timely).
Abbreviation calm := (PublishClaims.calm sha256 marshal).
Abbreviation during := (PublishClaims.during timely).
Abbreviation published := (PublishSteps.published sha256 marshal timely).

(** ** Pins of a restore *)

Lemma Renew_ok i key pin lease h : ok i (Renew configID expectedPolicy sha256 marshal key pin lease) h (λ _, True) (λ _ _ _, True).
Proof.
  unfold Renew. destruct (_ <=? _); [by intros s _ _|]. eapply ok_tbind; [apply read_pin_plain; stab| |done].
  intros [r v] h'. apply ok_read; [done|]. intros s o Hi (_ & _ & t & Hsaw & Ht). exists (λ s, saw (pin_object key) v (r, t) s).
  split_and!; [apply stable_saw_pin|done|]. change (exec i Now o s).2 with (clock s).
  destruct (_ || (_ <=? _)) eqn:E; [by intros s' _ _|]. apply orb_false_iff in E as [_ E%Z.leb_gt].
  apply ok_read; [done|]. intros s1 o1 Hi1 Hsaw1. exists (λ s, saw (pin_object key) v (r, t) s). split_and!; [apply stable_saw_pin|done|].
  eapply ok_tbind; [eapply ok_weaken; [|apply (upload_pin_ok _ _ _ i key r v t); done]; intros s' _ ?; split; [done|left; lia]| |done].
  intros [] h''. apply ok_read; [done|]. intros s2 o2 _ _. exists (λ _, True). split_and!; [stab|done|]. destruct (_ <=? _); by intros s' _ _.
Qed.

Lemma ClosePin_ok i key pin h : ok i (ClosePin configID expectedPolicy sha256 marshal key pin) h (λ _, True) (λ _ _ _, True).
Proof.
  eapply ok_bind; [apply read_pin_plain; stab|]. intros [[r v]|e] h'; [|destruct e as [[]| | | | | |]; by intros s _ _].
  destruct (negb _); [by intros s _ _|]. apply ok_read; [done|]. intros s o Hi (_ & _ & t & Hsaw & _). change (exec i Now o s).2 with (clock s).
  exists (λ s', saw (pin_object key) v (r, t) s' ∧ clock s <= clock s'). split_and!; [apply stable_and; [apply stable_saw_pin|stab]|done|lia|].
  eapply ok_weaken; [|apply (upload_pin_ok _ _ _ i key r v t); done]. intros s' _ [? ?]. split; [done|]. right. simpl. lia.
Qed.

Lemma restore_ok i cp owner token lease renewals :
  ok i (restore configID expectedPolicy sha256 marshal cp owner token lease renewals) None (λ _, True) (λ _ _ _, True).
Proof.
  eapply ok_tbind; [by apply PinRecoveryRoot_ok| |done]. intros pin. induction renewals as [|n IH]; intros h'; cbn [renew_pin]; [apply ClosePin_ok|].
  eapply ok_bind; [apply Renew_ok|]. intros [[]|e] h''; [apply IH|apply ClosePin_ok].
Qed.

(** ** Garbage collection *)

(** Every pin that counts is still to be read or its root is known. *)
Definition pins_known (keys : list bytes) (found : list Checkpoint) (s : store) : Prop := ∀ k r, alive s k r → k ∈ keys ∨ pinRoot r ∈ found.

Lemma calm_pins_known keys found s s' : calm s s' → pins_known keys found s → pins_known keys found s'.
Proof. intros Hc H k r' Ha. destruct (cm_pins _ _ _ _ Hc k r' Ha) as (r & Hr & <-). by apply H. Qed.

Abbreviation collecting_pins := (λ i g keys found, during i g Maintenance (pins_known keys found)).

Lemma stable_collecting i g keys found : stable i (collecting_pins i g keys found).
Proof. apply stable_during; [done|]. intros s s' _ _. apply calm_pins_known. Qed.

(** What reading the pin of [key] shows of it while the claim is held. *)
Definition pin_seen (i : nat) (g : Z) (key : bytes) (a : recoveryPinRecord * Z) (s : store) : Prop :=
  0 <= a.2 ∧ during i g Maintenance (λ s, ∀ r, alive s key r → a.2 < pinLease a.1 ∧ pinRoot r = pinRoot a.1) s.

Lemma stable_pin_seen i g key a : stable i (pin_seen i g key a).
Proof.
  apply stable_and; [apply stable_const|]. apply stable_during; [done|]. intros s s' _ _ Hc H r' Ha.
  destruct (cm_pins _ _ _ _ Hc key r' Ha) as (r & Hr & <-). by apply H.
Qed.

Definition no_pin (i : nat) (g : Z) (key : bytes) : store → Prop := during i g Maintenance (λ s, ∀ r, ¬ alive s key r).

Lemma stable_no_pin i g key : stable i (no_pin i g key).
Proof. apply stable_during; [done|]. intros s s' _ _ Hc H r' Ha. destruct (cm_pins _ _ _ _ Hc key r' Ha) as (r & Hr & _). by apply (H r). Qed.

Lemma collecting_drop i g key keys found s : no_pin i g key s → collecting_pins i g (key :: keys) found s → collecting_pins i g keys found s.
Proof.
  intros [_ H1] [Ho H2]. split; [done|]. intros Ht Hh k r Ha. destruct (H2 Ht Hh k r Ha) as [[->|?]%elem_of_cons|?]; [|by left|by right].
  by destruct (H1 Ht Hh r).
Qed.

Lemma active_pins_ok i g now keys found h :
  ok i (active_pins configID expectedPolicy sha256 marshal now keys) h (λ s, now <= clock s ∧ collecting_pins i g keys found s)
    (λ r h' s, own i g Maintenance s ∧ match r with Ok cps => collecting_pins i g [] (cps ++ found) s | Err _ => True end).
Proof.
  revert found h. induction keys as [|key keys IH]; intros found h; cbn [active_pins].
  { intros s _ [_ H]. split; [apply H|done]. }
  set (F := λ s, now <= clock s ∧ collecting_pins i g (key :: keys) found s).
  assert (stable i F) as HF by (apply stable_and; [stab|apply stable_collecting]).
  assert (∀ s, F s → own i g Maintenance s) as HFo by (by intros s [_ []]).
  eapply ok_bind; [apply (readRecoveryPin_ok _ _ _ _ _ i key h F (pin_seen i g key) (no_pin i g key)); [done|apply stable_pin_seen|apply stable_no_pin| |]|].
  { intros s r v t Hi [_ [Ho _]] E. split; [apply (iv_pins _ _ _ _ Hi _ _ _ _ E)|]. split; [done|]. intros _ _ r' (v' & t' & E' & Hlt). rewrite E in E'. by injection E' as <- <- <-. }
  { intros s Hi [_ [Ho _]] E. split; [done|]. intros _ _ r (v & t & E' & _). congruence. }
  intros [[r v]|e] h'.
  - apply ok_pure. intros ->. eapply (ok_weaken _ _ _ _ _ _ (λ s, recoveryPinRoot configID expectedPolicy sha256 marshal r = Some (pinRoot r) ∧ F s ∧
      ∃ t, saw (pin_object key) v (r, t) s ∧ pin_seen i g key (r, t) s)); [intros s _ (? & t & ? & ? & ?); split_and!; eauto|].
    apply ok_pure. intros Er. rewrite Er. destruct (Z.eqb_spec (pinLease r) 0) as [E0|E0]; [|destruct (Z.leb_spec (pinLease r) now) as [Hle|Hgt]].
    + eapply ok_weaken; [|apply (IH found)]. intros s _ ([? ?] & t & _ & [? [Ho Hs]]). split; [done|]. eapply collecting_drop; [|done]. split; [done|].
      intros Ht Hh r' Ha. destruct (Hs Ht Hh r' Ha) as [Hlt _]. simpl in *. lia.
    + apply (write_pin_ok _ _ _ i key (pin_lease r 0) (IfMatch v) h _ _ (λ s, now <= clock s ∧ collecting_pins i g keys found s) F).
      * intros s Hi Hh ([Hn [Ho Hd]] & t & _ & _) _ _. pose proof (iv_clock _ _ _ _ Hi). split; [simpl; lia|].
        assert (∀ k r', alive (put_pin key (pin_lease r 0) s) k r' → k ≠ key ∧ alive s k r') as Hal.
        { intros k r' (v' & t' & E' & Hlt). simpl in E'. apply lookup_insert_Some in E' as [[<- [= <- <- <-]]|[? E']]; [simpl in Hlt; lia|]. split; [done|]. by exists v', t'. }
        split; (split; [done|]; split; [done|]); intros Ht Hh' k r' Ha; destruct (Hal _ _ Ha) as [Hne Ha']; destruct (Hd Ht Hh' k r' Ha') as [[->|?]%elem_of_cons|?];
          try done; [by left|by right|left; by right|by right].
      * by intros s [? _].
      * apply stable_and; [stab|apply stable_collecting].
      * done.
      * intros [| |]; intros s _ ?; (split; [by apply HFo|done]).
      * apply IH.
    + eapply ok_tbind; [eapply ok_weaken; [|apply (IH (pinRoot r :: found))]| |].
      * intros s _ ([? [Ho Hd]] & t & _ & [_ [_ Hs]]). split; [done|]. split; [done|]. intros Ht Hh k r' Ha.
        destruct (Hd Ht Hh k r' Ha) as [[->|?]%elem_of_cons|?]; [|by left|right; by right]. destruct (Hs Ht Hh r' Ha) as [_ ->]. right. by left.
      * intros cps h' s _ [? [? Hd]]. split; [done|]. split; [done|]. intros Ht Hh k r' Ha. destruct (Hd Ht Hh k r' Ha) as [?|Hin]; [by left|right].
        apply elem_of_app in Hin as [?|[->|?]%elem_of_cons]; simpl; rewrite ?elem_of_cons, ?elem_of_app; auto.
      * by intros e h' s _ [? _].
  - destruct e as [[]| | | | | |]; try (intros s _ (_ & ? & _); split; [by apply HFo|done]). apply ok_pure. intros ->.
    eapply ok_weaken; [|apply (IH found)]. intros s _ ([? ?] & ?). split; [done|]. by eapply collecting_drop.
Qed.

(** CURRENT is what [Load] found, and every root CURRENT ever named is listed if
    it is there. *)
Definition current_known (certified : option Checkpoint) (s : store) : Prop :=
  ∀ p v, current s = Some (p, v) → ptrRoot p ∈ map RootHash (option_list certified).
Definition roots_known (keys : list (Z * bytes)) (s : store) : Prop := ∀ cp, cp ∈ promoted s → stored cp s → root_key cp ∈ keys.

Lemma calm_current_known certified s s' : calm s s' → current_known certified s → current_known certified s'.
Proof. intros Hc H p v. rewrite (cm_current _ _ _ _ Hc). apply H. Qed.

Lemma calm_roots_known keys s s' : calm s s' → roots_known keys s → roots_known keys s'.
Proof. intros Hc H cp. rewrite (cm_promoted _ _ _ _ Hc). intros Hp Hs. apply H; [done|]. by apply (cm_new _ _ _ _ Hc). Qed.

Lemma Load_ok i g h F :
  stable i F → (∀ s, F s → own i g Maintenance s) →
  ok i (Load configID expectedPolicy sha256 marshal) h F
    (λ r h' s, F s ∧ match r with Ok certified => during i g Maintenance (current_known certified) s | Err _ => True end).
Proof.
  intros HF Ho. apply ok_read; [done|]. intros s o Hi HFs.
  assert (∀ e : publishError, ∃ P', stable i P' ∧ P' s ∧ ok i (Ret (Err e) : presult (option Checkpoint)) h P'
    (λ r h' s, F s ∧ match r with Ok certified => during i g Maintenance (current_known certified) s | Err _ => True end)) as Hend.
  { intros e. exists F. split_and!; [done|done|]. by intros s' _ ?. }
  unfold exec, faulty. destruct (fault o) as [[]|]; cbn [fst snd]; [apply Hend..|]. destruct (current s) as [[q v]|] eqn:Ec; cbn [fmap option_fmap option_map answered fst].
  - set (K := λ s, F s ∧ during i g Maintenance (λ s, ∀ p v, current s = Some (p, v) → p = q) s).
    assert (stable i K) as HK.
    { apply stable_and; [done|]. apply stable_during; [done|]. intros s1 s2 _ _ Hc H p v'. rewrite (cm_current _ _ _ _ Hc). apply H. }
    exists K. split; [done|]. split; [split; [done|]; split; [by apply Ho|]; intros _ _ p v' E; congruence|].
    eapply ok_tbind; [by apply readRoot_ok| |by intros e h' s' _ (_ & [? _] & _)]. intros cp h'. destruct (negb _); [by intros s' _ (_ & [? _] & _)|].
    intros s' _ (_ & [HFs' [Ho' Hd]] & Eh). split; [done|]. split; [done|]. intros Ht Hh p v' E. rewrite (Hd Ht Hh p v' E). simpl. rewrite Eh. by left.
  - set (K := λ s, F s ∧ during i g Maintenance (λ s, current s = None) s). exists K. split; [|split].
    + apply stable_and; [done|]. apply stable_during; [done|]. intros s1 s2 _ _ Hc H. by rewrite (cm_current _ _ _ _ Hc).
    + split; [done|]. split; [by apply Ho|done].
    + intros s' _ [HFs' [Ho' Hd]]. split; [done|]. split; [done|]. intros Ht Hh p v E. by rewrite (Hd Ht Hh) in E.
Qed.

Lemma read_roots_ok i l h F :
  stable i F → ok i (read_roots configID expectedPolicy sha256 marshal l) h F (λ r h' s, F s ∧ match r with Ok cps => map root_key cps = l | Err _ => True end).
Proof.
  intros HF. revert h. induction l as [|[index hash] l IH]; intros h; cbn [read_roots]; [by intros s _ ?|].
  eapply ok_tbind; [by apply readRoot_ok| |by intros e h' s _ (_ & ? & _)]. intros cp h'. apply ok_pure. intros ->.
  destruct (Z.eqb_spec (cpIndex cp) index) as [Ei|]; cbn [negb]; [|by intros s _ [? _]].
  eapply (ok_weaken _ _ _ _ _ _ (λ s, RootHash cp = hash ∧ F s)); [by intros s _ []|]. apply ok_pure. intros Eh.
  eapply ok_tbind; [apply IH| |by intros e h' s _ [? _]]. intros cps h'. intros s _ [? E]. split; [done|]. cbn [map]. rewrite E. unfold PublishLogic.root_key. by subst.
Qed.

Lemma loadAll_ok i g h F :
  stable i F → (∀ s, F s → own i g Maintenance s) →
  ok i (loadAll configID expectedPolicy sha256 marshal) h F
    (λ r h' s, F s ∧ match r with Ok cps => during i g Maintenance (λ s, ∀ cp, cp ∈ promoted s → stored cp s → cp ∈ cps) s | Err _ => True end).
Proof.
  intros HF Ho. eapply (ok_tbind _ _ _ _ _ _ _ _ (λ r h' s, h' = h ∧ F s ∧ match r with Ok l => during i g Maintenance (roots_known l) s | Err _ => True end)).
  - apply ok_ask; [done|]. intros s o Hi HFs. unfold exec, faulty. destruct (fault o) as [[]|]; cbn [fst snd]; [exists F; by split_and!..|].
    set (l := map fst (map_to_list (roots s)) ++ laterRoots o). exists (λ s, F s ∧ during i g Maintenance (roots_known l) s). split; [|split; [|by intros s' _ []]].
    + apply stable_and; [done|]. apply stable_during; [done|]. intros s1 s2 _ _. apply calm_roots_known.
    + split; [done|]. split; [by apply Ho|]. intros _ _ cp _ [x Hx]. unfold l. apply elem_of_app. left. apply list_elem_of_fmap. exists (root_key cp, x).
      split; [done|]. by apply elem_of_map_to_list.
  - intros l h'. apply ok_pure. intros ->. eapply ok_tbind; [apply (read_roots_ok i l h (λ s, F s ∧ during i g Maintenance (roots_known l) s))| |by intros e h' s _ [[? _] _]].
    + apply stable_and; [done|]. apply stable_during; [done|]. intros s1 s2 _ _. apply calm_roots_known.
    + intros cps h' s _ [[? [Ho' Hd]] E]. split; [done|]. split; [done|]. intros Ht Hh cp Hp Hs. unfold sortRoots. rewrite merge_sort_Permutation.
      pose proof (Hd Ht Hh cp Hp Hs) as Hin. rewrite <-E in Hin. apply list_elem_of_fmap in Hin as (cp' & Ek & Hin). by apply root_key_inj in Ek as ->.
  - by intros e h' s _ (_ & ? & _).
Qed.

(** ** Deleting *)

(** What a collection knows: the roots of pins and of CURRENT are kept, and the
    roots that were listed are all that matter. *)
Record spared (keep : gset bytes) (listed : list Checkpoint) (s : store) : Prop := {
  sp_pins : ∀ k r, alive s k r → RootHash (pinRoot r) ∈ keep;
  sp_current : ∀ p v, current s = Some (p, v) → ptrRoot p ∈ keep;
  sp_listed : ∀ cp, cp ∈ promoted s → stored cp s → cp ∈ listed;
}.

Lemma calm_spared keep listed s s' : calm s s' → spared keep listed s → spared keep listed s'.
Proof.
  intros Hc [H1 H2 H3]. split.
  - intros k r' Ha. destruct (cm_pins _ _ _ _ Hc k r' Ha) as (r & Hr & <-). by apply (H1 k).
  - intros p v. rewrite (cm_current _ _ _ _ Hc). apply H2.
  - intros cp. rewrite (cm_promoted _ _ _ _ Hc). intros Hp Hs. apply H3; [done|]. by apply (cm_new _ _ _ _ Hc).
Qed.

Abbreviation collecting := (λ i g keep listed, during i g Maintenance (spared keep listed)).

Lemma stable_spared i g keep listed : stable i (collecting i g keep listed).
Proof. apply stable_during; [done|]. intros s s' _ _. apply calm_spared. Qed.
#[local] Hint Resolve stable_spared : stable.

Lemma stored_delete cp k s : stored cp (set_roots s (delete k (roots s))) ↔ stored cp s ∧ root_key cp ≠ k.
Proof.
  unfold PublishLogic.stored. simpl. split.
  - intros [x [? Hx]%lookup_delete_Some]. split; [by eexists|done].
  - intros [[x Hx] Hne]. exists x. by apply lookup_delete_Some.
Qed.

Lemma delete_root_inv i g keep listed k s :
  inv s → (timely = true → held_by i true s ∧ spared keep listed s) → k.2 ∉ keep →
  let s' := set_roots s (delete k (roots s)) in inv s' ∧ guar i s s' ∧ (during i g Maintenance (spared keep listed) s → during i g Maintenance (spared keep listed) s').
Proof.
  intros [I1 I2 I3 I4 I5 I6 I7 I8] Hs Hk s'. split_and!.
  - split; try done.
    + intros k' cp t. unfold s'. simpl. intros [_ ?]%lookup_delete_Some. by eapply I6.
    + intros Ht. destruct (I8 Ht) as [J1 J2 J3]. destruct (Hs Ht) as [_ [S1 S2 S3]]. split.
      * intros p v E. destruct (J1 p v E) as (cp & ? & Ek & ?). exists cp. split_and!; [done|done|]. apply stored_delete. split; [done|].
        intros Ek'. rewrite <-Ek', Ek in Hk. by apply Hk, (S2 p v).
      * intros cp Hp [? _]%stored_delete. by apply J2.
      * intros k' r Ha Hp. apply stored_delete. split; [by apply (J3 k' r)|]. intros Ek'. rewrite <-Ek' in Hk. by apply Hk, (S1 k' r).
  - split; simpl; eauto using cc_same.
    + intros k' Hk'. destruct (decide (k' = k)) as [->|]; [right; intros Ht; apply (Hs Ht)|left; by rewrite lookup_delete_ne].
    + intros k' cp t [_ ?]%lookup_delete_Some. left. by eexists.
  - intros [Ho Hd]. split; [done|]. intros Ht Hh. destruct (Hd Ht Hh) as [S1 S2 S3]. split; [done|done|]. intros cp Hp [? _]%stored_delete. by apply S3.
Qed.

Lemma delete_block_inv i listed b keep s :
  inv s → (timely = true → held_by i true s ∧ spared keep listed s) → (∀ cp, cp ∈ listed → b ∉ root_blocks cp) →
  let s' := set_blocks s (delete b (blocks s)) in inv s' ∧ guar i s s'.
Proof.
  intros [I1 I2 I3 I4 I5 I6 I7 I8] Hs Hb s'. split.
  - split; try done. intros Ht. destruct (I8 Ht) as [J1 J2 J3]. destruct (Hs Ht) as [_ [S1 S2 S3]]. split; [done| |done].
    intros cp Hp Hst x Hx. unfold s'. simpl. rewrite lookup_delete_ne; [by apply (J2 cp)|]. intros ->. by apply (Hb cp); [apply S3|].
  - split; simpl; eauto using cc_same. intros x Hx. destruct (decide (x = b)) as [->|]; [right; intros Ht; apply (Hs Ht)|left; by rewrite lookup_delete_ne].
Qed.

(** A deletion in a program, under the lease the process has seen. *)
Lemma deleted_ok i g until (r : rpc (result storeError unit)) F :
  let h := Some (g, until) in
  stable i F → (∀ s, F s → own i g Maintenance s) → leased r = true → (∀ h, next_holding r h = h) →
  (∀ s o, inv s → F s → holding_ok i h s → (timely = true → held g s ∧ held_by i true s) →
     let s' := (exec i r o s).1 in inv s' ∧ guar i s s' ∧ holding_ok i h s' ∧ F s') →
  ok i (deleted r) h F (λ r h' s, h' = h ∧ F s).
Proof.
  intros h HF Ho Hl Hn Hstep s o Hi Hh HFs Hm. cbn zeta. rewrite Hn. destruct (Hstep s o Hi HFs Hh) as (Hi' & Hg' & Hh' & HF').
  { intros Ht. apply (leased_held timely i g Maintenance until r s Hh Hm Hl (Ho s HFs) Ht). }
  split_and!; [done|done|done|]. exists F. split_and!; [done|done|]. destruct (exec i r o s).2 as [[]|[]]; by intros s' _ ?.
Qed.

Lemma delete_root_exec i index hash o s :
  (exec i (DeleteRoot index hash) o s).1 = s ∨ (exec i (DeleteRoot index hash) o s).1 = set_roots s (delete (index, hash) (roots s)).
Proof. unfold exec, faulty. destruct (fault o) as [[]|]; auto. Qed.

Lemma delete_block_exec i b o s : (exec i (DeleteBlock b) o s).1 = s ∨ (exec i (DeleteBlock b) o s).1 = set_blocks s (delete b (blocks s)).
Proof. unfold exec, faulty. destruct (fault o) as [[]|]; auto. Qed.

Lemma sweep_roots_ok i claim keep listed floor cutoff l h :
  let g := clGeneration claim in
  Purpose claim = Maintenance →
  ok i (sweep_roots configID sha256 marshal claim keep floor cutoff l) h (collecting i g keep listed)
    (λ r h' s, collecting i g keep listed s ∧ match r with Ok (kept, removed) => ∀ cp, cp ∈ l → cp ∈ kept ++ removed | Err _ => True end).
Proof.
  intros g Hp. revert h. induction l as [|cp l IH]; intros h; cbn [sweep_roots]; [intros s _ ?; split; [done|]; by intros cp ?%not_elem_of_nil|].
  eapply (ok_tbind _ _ _ _ _ _ _ _ (λ r h' s, collecting i g keep listed s)).
  { apply ok_ask; [done|]. intros s o Hi Hc. exists (collecting i g keep listed). by split_and!; [stab|..]. }
  2: { by intros e h' s _ ?. }
  intros modified h'. destruct (bool_decide (RootHash cp ∈ keep) || _ || _) eqn:Ek.
  - eapply ok_tbind; [apply IH| |by intros e h'' s _ [? _]]. intros [kept removed] h'' s _ [? H]. split; [done|]. intros x [->|Hx]%elem_of_cons; [by left|right; by apply H].
  - apply orb_false_iff in Ek as [[Ek%bool_decide_eq_false _]%orb_false_iff _].
    eapply ok_tbind; [apply validateMaintenanceClaim_ok; [stab|done|by intros s []]| |by intros e h'' s _ [? _]].
    intros [] h''. eapply (ok_weaken _ _ _ _ _ _ (λ s, (∃ until, h'' = Some (g, until)) ∧ collecting i g keep listed s)); [by intros s _ [? ?]|].
    apply ok_pure. intros [until ->]. eapply ok_tbind; [apply (deleted_ok i g until _ (collecting i g keep listed)); [stab|by intros s []|done|done|]| |by intros e h'' s _ [_ ?]].
    + intros s o Hi [Ho Hd] Hh Hheld. destruct (delete_root_exec i (cpIndex cp) (RootHash cp) o s) as [-> | ->]; [split; [done|]; split; [apply guar_refl|]; by split|].
      destruct (delete_root_inv i g keep listed (cpIndex cp, RootHash cp) s Hi) as (Hi' & Hg' & Hc'); [|done|].
      { intros Ht. destruct (Hheld Ht) as [H1 H2]. split; [done|by apply Hd]. }
      split; [done|]. split; [done|]. split; [done|by apply Hc'].
    + intros [] h''. eapply ok_weaken; [by intros s _ [_ ?]|]. eapply ok_tbind; [apply IH| |by intros e h3 s _ [? _]].
      intros [kept removed] h3 s _ [? H]. split; [done|]. intros x [->|Hx]%elem_of_cons; cbn [fst snd]; rewrite elem_of_app, elem_of_cons; [auto|].
      specialize (H x Hx). rewrite elem_of_app in H. tauto.
Qed.

Lemma sweep_blocks_ok i claim keep listed live cutoff l h :
  let g := clGeneration claim in
  Purpose claim = Maintenance → (∀ cp b, cp ∈ listed → b ∈ root_blocks cp → b ∈ live) →
  ok i (sweep_blocks configID claim live cutoff l) h (collecting i g keep listed) (λ r h' s, own i g Maintenance s).
Proof.
  intros g Hp Hlive. revert h. induction l as [|[b t] l IH]; intros h; cbn [sweep_blocks]; [by intros s _ []|].
  case_bool_decide as Eb; [apply IH|].
  eapply (ok_tbind _ _ _ _ _ _ _ _ (λ r h' s, collecting i g keep listed s)).
  { destruct t as [z|]; [by intros s _ ?|]. apply ok_ask; [done|]. intros s o Hi Hc. exists (collecting i g keep listed). by split_and!; [stab|..]. }
  2: { by intros e h' s _ []. }
  intros modified h'. destruct (_ <? _); [apply IH|].
  eapply ok_tbind; [apply validateMaintenanceClaim_ok; [stab|done|by intros s []]| |by intros e h'' s _ [[] _]].
  intros [] h''. eapply (ok_weaken _ _ _ _ _ _ (λ s, (∃ until, h'' = Some (g, until)) ∧ collecting i g keep listed s)); [by intros s _ [? ?]|].
  apply ok_pure. intros [until ->]. eapply ok_tbind; [apply (deleted_ok i g until _ (collecting i g keep listed)); [stab|by intros s []|done|done|]| |by intros e h'' s _ [_ []]].
  - intros s o Hi [Ho Hd] Hh Hheld. destruct (delete_block_exec i b o s) as [-> | ->]; [split; [done|]; split; [apply guar_refl|]; by split|].
    destruct (delete_block_inv i listed b keep s Hi) as (Hi' & Hg'); [|intros cp Hcp Hin; by apply Eb, (Hlive cp)|].
    { intros Ht. destruct (Hheld Ht) as [H1 H2]. split; [done|by apply Hd]. }
    split; [done|]. split; [done|]. split; [done|]. split; [done|]. intros Ht Hh'. by destruct (Hd Ht Hh') as [S1 S2 S3].
  - intros [] h''. eapply ok_weaken; [by intros s _ [_ ?]|]. apply IH.
Qed.

Lemma activeRecoveryRoots_ok i g h :
  ok i (activeRecoveryRoots configID expectedPolicy sha256 marshal) h (own i g Maintenance)
    (λ r h' s, own i g Maintenance s ∧ match r with Ok cps => collecting_pins i g [] cps s | Err _ => True end).
Proof.
  apply ok_read; [done|]. intros s o Hi Ho. change (exec i Now o s).2 with (clock s). exists (λ s', own i g Maintenance s' ∧ clock s <= clock s').
  split; [stab|]. split; [split; [done|lia]|].
  eapply (ok_tbind _ _ _ _ _ _ _ _ (λ r h' s', own i g Maintenance s' ∧ match r with Ok keys => clock s <= clock s' ∧ collecting_pins i g keys [] s' | Err _ => True end)).
  - apply ok_ask; [done|]. intros s1 o1 Hi1 [Ho1 Hc1]. unfold exec, faulty. destruct (fault o1) as [[]|]; cbn [fst snd].
    1-2: exists (own i g Maintenance); by split_and!; [stab|..].
    set (l := map fst (map_to_list (pins s1)) ++ laterPins o1). exists (λ s', clock s <= clock s' ∧ collecting_pins i g l [] s').
    split; [apply stable_and; [stab|apply stable_collecting]|]. split; [|intros s' _ [? H']; split; [apply H'|done]]. split; [done|]. split; [done|].
    intros _ _ k r (v & t & E & _). left. unfold l. apply elem_of_app. left. apply list_elem_of_fmap. exists (k, (r, v, t)). split; [done|]. by apply elem_of_map_to_list.
  - intros keys h'. eapply ok_consequence; [|eapply ok_weaken; [|apply (active_pins_ok i g (clock s) keys [])]].
    + intros [cps|e] h'' s' _ [? H]; [|done]. by rewrite app_nil_r in H.
    + by intros s' _ [_ ?].
  - by intros e h' s' _ [? _].
Qed.

Lemma garbageCollect_ok i claim retain keep floor grace h :
  Purpose claim = Maintenance →
  ok i (garbageCollect configID expectedPolicy sha256 marshal claim retain keep floor grace) h (own i (clGeneration claim) Maintenance)
    (λ r h' s, own i (clGeneration claim) Maintenance s).
Proof.
  intros Hp. set (g := clGeneration claim). eapply ok_tbind; [apply activeRecoveryRoots_ok| |by intros e h' s _ [? _]]. intros pinned h1.
  set (F1 := λ s, own i g Maintenance s ∧ collecting_pins i g [] pinned s). assert (stable i F1) as HF1 by (apply stable_and; [stab|apply stable_collecting]).
  eapply ok_tbind; [apply (Load_ok i g h1 F1 HF1); by intros s []| |by intros e h' s _ [[? _] _]]. intros certified h2.
  set (F2 := λ s, F1 s ∧ during i g Maintenance (current_known certified) s).
  assert (stable i F2) as HF2 by (apply stable_and; [done|]; apply stable_during; [done|]; intros s s' _ _; apply calm_current_known).
  eapply ok_tbind; [apply (loadAll_ok i g h2 F2 HF2); by intros s [[]]| |by intros e h' s _ [[[? _] _] _]]. intros checkpoints h3. cbn zeta.
  match goal with |- context [sweep_roots _ _ _ _ ?k _ _ _] => set (keepRoots := k) end.
  eapply (ok_weaken _ _ _ _ _ _ (collecting i g keepRoots checkpoints)).
  { intros s _ [[[Ho [_ H1]] [_ H2]] [_ H3]]. split; [done|]. intros Ht Hh. split.
    - intros k r Ha. destruct (H1 Ht Hh k r Ha) as [[]%not_elem_of_nil|Hin]. unfold keepRoots. rewrite !elem_of_union, !elem_of_list_to_set. do 2 left. right.
      by apply list_elem_of_fmap_2.
    - intros p v E. unfold keepRoots. rewrite !elem_of_union, !elem_of_list_to_set. left. right. by apply (H2 Ht Hh p v).
    - intros cp Hcp Hs. by apply (H3 Ht Hh). }
  apply ok_read; [done|]. intros s o Hi Hc. exists (collecting i g keepRoots checkpoints). split; [stab|]. split; [done|].
  eapply ok_tbind; [by apply sweep_roots_ok| |by intros e h' s' _ [[] _]]. intros [kept removed] h4.
  eapply (ok_weaken _ _ _ _ _ _ (λ s, (∀ cp, cp ∈ checkpoints → cp ∈ kept ++ removed) ∧ collecting i g keepRoots checkpoints s)); [by intros s' _ []|].
  apply ok_pure. intros Hall. apply ok_read; [done|]. intros s1 o1 Hi1 Hc1. exists (collecting i g keepRoots checkpoints). split; [stab|]. split; [done|].
  destruct (negb _); [by intros s' _ []|]. eapply (ok_tbind _ _ _ _ _ _ _ _ (λ r h' s, collecting i g keepRoots checkpoints s)).
  - apply ok_ask; [done|]. intros s2 o2 Hi2 Hc2. exists (collecting i g keepRoots checkpoints). by split_and!; [stab|..].
  - intros l h5. apply (sweep_blocks_ok i claim keepRoots checkpoints); [done|]. intros cp b Hcp Hb. unfold live_blocks. cbn [fst snd]. apply elem_of_list_to_set, list_elem_of_bind.
    exists cp. split; [done|]. rewrite app_assoc. apply elem_of_app. left. by apply Hall.
  - by intros e h' s' _ [].
Qed.

(** ** Clients *)

Lemma published_same_generation i g p cp : same_generation i (published i g p cp).
Proof. intros s c0 v0 c E Eg Eh [? Hd]. split; [done|]. by eapply (during_claim timely i g p _ s c0 v0 c). Qed.

Lemma release_end_ok i claim {A} (x : A) h F :
  (∀ s, F s → own i (clGeneration claim) (Purpose claim) s) → ok i (_ ← ReleasePublisherClaim configID claim; Ret x) h F (λ _ _ _, True).
Proof.
  intros HF. eapply ok_weaken; [by intros s _ ?%HF|]. eapply ok_bind; [apply ReleasePublisherClaim_ok; [stab|apply own_same_generation|done]|]. intros r h'. by intros s _ _.
Qed.

Lemma publish_candidate_ok i claim cp n h :
  Purpose claim ≠ Maintenance →
  ok i (publish_candidate configID expectedPolicy sha256 marshal n claim cp) h (published i (clGeneration claim) (Purpose claim) cp) (λ _ _ _, True).
Proof.
  intros Hp. revert h. induction n as [|n IH]; intros h; cbn [publish_candidate]; [by intros s _ _|].
  apply ok_read; [done|]. intros s o Hi Hpub. exists (published i (clGeneration claim) (Purpose claim) cp). split; [by apply stable_published|]. split; [done|].
  eapply (ok_bind _ _ _ _ _ _ _ _ (λ r h' s, published i (clGeneration claim) (Purpose claim) cp s)).
  - destruct (exec i Choice o s).2; [by apply PromoteCertifiedCurrent_ok|by intros s' _ ?].
  - intros [[]|e] h'.
    + eapply ok_consequence; [done|]. apply ReleasePublisherClaim_ok; [by apply stable_published|apply published_same_generation|by intros s' [_ []]].
    + destruct e; first [apply IH|by intros s' _ _].
Qed.

Lemma create_ok i certified owner claimFloor sources index attempts :
  ok i (create configID expectedPolicy sha256 marshal certified owner claimFloor sources index attempts) None (λ _, True) (λ _ _ _, True).
Proof.
  eapply (ok_tbind _ _ _ _ _ _ _ _ (acquired i Publisher)); [|intros claim h|done].
  { unfold AcquirePublisherClaim. destruct (_ || _); [by intros s _ _|]. apply (acquire_attempts_ok _ _ _ _ i 4 true owner claimFloor Publisher). }
  eapply (ok_weaken _ _ _ _ _ _ (λ s, Purpose claim = Publisher ∧ unpromoted i (clGeneration claim) Publisher s)); [by intros s _ (? & ? & _)|].
  apply ok_pure. intros Ep. rewrite <-Ep. apply ok_read; [done|]. intros s o Hi Hu. exists (unpromoted i (clGeneration claim) (Purpose claim)). split; [stab|]. split; [done|].
  eapply (ok_bind _ _ _ _ _ _ _ _ (λ r h' s, own i (clGeneration claim) (Purpose claim) s ∧
    match r with Ok cp => published i (clGeneration claim) (Purpose claim) cp s | Err _ => True end)).
  { destruct (exec i Choice o s).2; [by apply CreateFiles_ok|]. intros s' _ [? _]. by split. }
  intros [cp|e] h'; [|by apply release_end_ok; intros s' []]. destruct (_ <? _); [by apply release_end_ok; intros s' []|].
  replace publisherLease with (lease_of (Purpose claim)) by (by rewrite Ep).
  eapply ok_tbind; [eapply ok_weaken; [|apply (BindPublisherClaim_ok _ _ _ _ i claim index _ h' (published i (clGeneration claim) (Purpose claim) cp))]| |done].
  { by intros s' _ []. } { by apply stable_published. } { apply published_same_generation. } { by intros s' [_ []]. }
  intros claim' h2. eapply (ok_weaken _ _ _ _ _ _ (λ s, (Purpose claim' = Purpose claim ∧ clGeneration claim' = clGeneration claim) ∧ published i (clGeneration claim) (Purpose claim) cp s)); [by intros s' _ [? []]|].
  apply ok_pure. intros [Ep' Eg']. rewrite <-Ep', <-Eg'. apply publish_candidate_ok. by rewrite Ep', Ep.
Qed.

Lemma materialize_checkpoint_ok i owner sources index :
  ok i (materialize_checkpoint configID expectedPolicy sha256 marshal owner sources index) None (λ _, True) (λ _ _ _, True).
Proof.
  assert (∀ h, ok i (Load configID expectedPolicy sha256 marshal) h (λ _, True) (λ _ h' _, h' = h)) as Hload.
  { intros h. apply ok_read; [done|]. intros s o Hi _. exists (λ _, True). split_and!; [stab|done|]. destruct (exec i GetCurrent o s).2 as [q|[]]; try (by intros s' _ _).
    eapply ok_tbind; [apply readRoot_ok; stab| |by intros e h' s' _ (? & _)]. intros cp h'. destruct (negb _); by intros s' _ (? & _). }
  eapply ok_tbind; [apply Hload| |done]. intros target h. eapply (ok_weaken _ _ _ _ _ _ (λ s, h = None ∧ True)); [done|]. apply ok_pure. intros ->.
  destruct target as [cp|].
  { apply ok_read; [done|]. intros s o _ _. exists (λ _, True). split_and!; [stab|done|]. destruct (_ && _); by intros s' _ _. }
  eapply (ok_tbind _ _ _ _ _ _ _ _ (acquired i Generation)); [|intros claim h|done].
  { unfold AcquireGenerationClaim. destruct (_ || _); [by intros s _ _|].
    eapply (ok_tbind _ _ _ _ _ _ _ _ (λ _ h' _, h' = None)); [|intros cp h'|done].
    - apply ok_read; [done|]. intros s o Hi _. exists (λ _, True). split_and!; [stab|done|]. destruct (exec i GetCurrent o s).2 as [q|[]]; try (by intros s' _ _).
      eapply ok_tbind; [apply OpenRoot_ok; stab| |by intros e h' s' _ (? & _)]. intros cp h'. by intros s' _ (? & _).
    - eapply (ok_weaken _ _ _ _ _ _ (λ s, h' = None ∧ True)); [done|]. apply ok_pure. intros ->. apply generation_attempts_ok. }
  eapply (ok_weaken _ _ _ _ _ _ (λ s, Purpose claim = Generation ∧ unpromoted i (clGeneration claim) Generation s)); [by intros s _ (? & ? & _)|].
  apply ok_pure. intros Ep. rewrite <-Ep. eapply (ok_bind _ _ _ _ _ _ _ _ (λ r h' s, own i (clGeneration claim) (Purpose claim) s)); [|intros r h'; by apply release_end_ok].
  eapply ok_tbind; [by apply CreateFiles_ok| |by intros e h' s _ []]. intros cp h1.
  replace forkLease with (lease_of (Purpose claim)) by (by rewrite Ep).
  eapply ok_tbind; [eapply ok_weaken; [|apply (BindPublisherClaim_ok _ _ _ _ i claim index _ h1 (published i (clGeneration claim) (Purpose claim) cp))]| |].
  { by intros s' _ []. } { by apply stable_published. } { apply published_same_generation. } { by intros s' [_ []]. } 2: { by intros e h' s' _ [[_ []] _]. }
  intros claim' h2. eapply ok_weaken; [by intros s' _ [? _]|]. eapply ok_consequence; [|apply PromoteCertifiedCurrent_ok; [done|by rewrite Ep]]. by intros r h' s' _ [_ []].
Qed.

Lemma ended_ok i {A} (p : presult A) h : ok i p h (λ _, True) (λ _ _ _, True) → ok i (ended p) h (λ _, True) (λ _ _ _, True).
Proof. intros H. eapply ok_bind; [exact H|]. intros r h'. by intros s _ _. Qed.

Lemma client_ok i c : ok i (client_prog configID expectedPolicy sha256 marshal c) None (λ _, True) (λ _ _ _, True).
Proof.
  destruct c as [certified owner claimFloor sources index attempts|owner sources index|retain keep floor grace|cp owner token lease renewals|claim]; apply ended_ok.
  - apply create_ok.
  - apply materialize_checkpoint_ok.
  - unfold GarbageCollectFrom. destruct (_ =? _); [by intros s _ _|]. destruct (_ || _); [by intros s _ _|]. apply withMaintenanceClaim_ok.
    intros claim Hp. by apply garbageCollect_ok.
  - apply restore_ok.
  - apply RenewPublisherClaim_ok.
Qed.

(** ** Theorems *)

Abbreviation history := (Publish.history configID expectedPolicy sha256 marshal timely).

Lemma reachable_world es w : history es start_world = Some w → world_ok sha256 marshal timely w.
Proof. apply (reachable_ok configID expectedPolicy sha256 marshal timely), client_ok. Qed.

(** What a restore needs of a root: its object with this content and its
    blocks. *)
Definition restorable (cp : Checkpoint) (s : store) : Prop := (∃ t, roots s !! root_key cp = Some (cp, t)) ∧ has_blocks cp s.

Lemma restorable_stored cp s : inv s → timely = true → cp ∈ promoted s → stored cp s → restorable cp s.
Proof. intros Hi Ht Hp Hs. split; [by apply (stored_root _ _ timely root_inj)|]. by apply (in_blocks _ _ _ (iv_intact _ _ _ _ Hi Ht)). Qed.

(** At most one process goes on under a lease that is not over: two processes
    that have both seen their unexpired claim are one. *)
Theorem claim_exclusive es w i j p q g g' t t' :
  history es start_world = Some w → processes w !! i = Some p → processes w !! j = Some q →
  pHolding p = Some (g, t) → pHolding q = Some (g', t') → clock (shared w) < t → clock (shared w) < t' → i = j.
Proof.
  intros H Hi Hj Ep Eq Ht Ht'. destruct (reachable_world es w H) as [_ Hw]. destruct (Hw _ _ Hi) as [H1 _], (Hw _ _ Hj) as [H2 _].
  rewrite Ep in H1. rewrite Eq in H2. destruct H1 as [[p1 Ho1] H1], H2 as [[p2 Ho2] H2].
  destruct (H1 Ht) as (c & v & E & Eg & _), (H2 Ht') as (c' & v' & E' & Eg' & _). rewrite E in E'. injection E' as <- <-. congruence.
Qed.

Lemma current_step s s' p v p' v' :
  store_step timely s s' → current s = Some (p, v) → current s' = Some (p', v') → p' = p ∨ ptrIndex p < ptrIndex p'.
Proof.
  intros [(d & _ & ->)|[->|[i G]]] E E'; [left; simpl in E'; congruence|left; congruence|]. destruct (gu_current _ _ _ _ G) as [Es|(q & u & Es & _ & Hlt & _)].
  - left. congruence.
  - right. rewrite Es in E'. injection E' as <- <-. by apply (Hlt p v).
Qed.

(** C21: cURRENT never goes back: it keeps naming what it named, or a root of a higher
    index, whatever processes and requests do late. *)
Theorem current_monotone es es' w w' p v :
  history es start_world = Some w → history es' w = Some w' → current (shared w) = Some (p, v) →
  ∃ p' v', current (shared w') = Some (p', v') ∧ (p' = p ∨ ptrIndex p < ptrIndex p').
Proof.
  intros H H' E. pose proof (proj2 (history_ok configID expectedPolicy sha256 marshal timely client_ok _ _ _ (reachable_world _ _ H) H')) as Hrun.
  clear H H'. revert p v E. induction Hrun as [s|s s1 s2 Hs _ IH]; intros p v E; [exists p, v; auto|].
  assert (∃ p1 v1, current s1 = Some (p1, v1)) as (p1 & v1 & E1).
  { destruct Hs as [(d & _ & ->)|[->|[i G]]]; [by exists p, v..|]. destruct (gu_current _ _ _ _ G) as [->|(q & u & ? & _)]; [by exists p, v|by exists q, u]. }
  destruct (IH _ _ E1) as (p2 & v2 & E2 & H2). exists p2, v2. split; [done|]. destruct (current_step _ _ _ _ _ _ Hs E E1) as [->|?]; [done|]. right. destruct H2 as [->|?]; lia.
Qed.
End proofs.

(** C20: what CURRENT names can be restored at every time of a timely run, and so can
    a pinned root that CURRENT has named, as long as its pin is not over. *)
Theorem checkpoints_restorable configID expectedPolicy sha256 marshal es w :
  (∀ x y, RootHash sha256 marshal x = RootHash sha256 marshal y → x = y) →
  history configID expectedPolicy sha256 marshal true es start_world = Some w →
  (∀ p v, current (shared w) = Some (p, v) → ∃ cp, root_key sha256 marshal cp = (ptrIndex p, ptrRoot p) ∧ restorable sha256 marshal cp (shared w)) ∧
  (∀ k r v t, pins (shared w) !! k = Some (r, v, t) → clock (shared w) < pinLease r → pinRoot r ∈ promoted (shared w) → restorable sha256 marshal (pinRoot r) (shared w)).
Proof.
  intros Hinj H. destruct (reachable_world configID expectedPolicy sha256 marshal true Hinj es w H) as [Hi _].
  destruct (iv_intact _ _ _ _ Hi eq_refl) as [I1 I2 I3]. split.
  - intros p v E. destruct (I1 p v E) as (cp & Hp & Ek & Hs). exists cp. split; [done|]. by apply (restorable_stored _ _ true Hinj).
  - intros k r v t E Hlt Hp. apply (restorable_stored _ _ true Hinj); [done|done|done|]. apply (I3 k r); [|done]. exists v, t. split; [done|].
    destruct (iv_pins _ _ _ _ Hi _ _ _ _ E). lia.
Qed.
