(* ===== verification/PublishRoots.v ===== *)
(** * Every root of the namespace can be opened

    Whatever the store answers, a program uploads only roots that the checks of
    a reader accept; so no run, timely or not, leaves a root object that the
    readers reject. *)

From stdpp Require Import gmap list.
From S2P Require Import Prelude Programs Publish.
#[local] Open Scope program_scope.

(** ** Requests and results of a program *)

Definition on_ok {A} (Φ : A → Prop) (r : result publishError A) : Prop := match r with Ok a => Φ a | Err _ => True end.

Section roots.
Context (configID expectedPolicy : Z) (sha256 : bytes → bytes) (marshal : Checkpoint → bytes).

Abbreviation RootHash := (Publish.RootHash sha256 marshal).
Abbreviation validateRoot := (Publish.validateRoot configID expectedPolicy sha256).

(** A root object as its readers want it. *)
Definition readable (index : Z) (hash : bytes) (cp : Checkpoint) : Prop :=
  index = cpIndex cp ∧ hash = RootHash cp ∧ len (marshal cp) <= maxRootSize ∧ validateRoot cp = true.

Definition uploads {X} (r : rpc X) : Prop := match r with PutRoot index hash cp => readable index hash cp | _ => True end.

Abbreviation sound := (asks (@uploads)).
Abbreviation quiet := (asks (@uploads) (λ _, True)).

Lemma sound_bind {A B} (p : prog A) (f : A → prog B) Φ Ψ : sound Φ p → (∀ a, Φ a → sound Ψ (f a)) → sound Ψ (pbind p f).
Proof. apply asks_bind. Qed.

Lemma sound_tbind {A B} (p : presult A) (f : A → presult B) Φ Ψ : sound (on_ok Φ) p → (∀ a, Φ a → sound (on_ok Ψ) (f a)) → sound (on_ok Ψ) (tbind p f).
Proof. intros H Hf. eapply sound_bind; [exact H|]. intros [a|e] Ha; [by apply Hf|done]. Qed.

Lemma sound_weaken {A} (p : prog A) (Φ Ψ : A → Prop) : (∀ a, Φ a → Ψ a) → sound Φ p → sound Ψ p.
Proof. apply asks_weaken. Qed.

Lemma quiet_sound {A} (p : presult A) : quiet p → sound (on_ok (λ _, True)) p.
Proof. apply sound_weaken. by intros []. Qed.

Lemma sound_quiet {A} (p : prog A) Φ : sound Φ p → quiet p.
Proof. by apply sound_weaken. Qed.

Lemma quiet_bind {A B} (p : prog A) (f : A → prog B) : quiet p → (∀ a, quiet (f a)) → quiet (pbind p f).
Proof. intros H Hf. by eapply sound_bind. Qed.

Lemma quiet_tbind {A B} (p : presult A) (f : A → presult B) : quiet p → (∀ a, quiet (f a)) → quiet (tbind p f).
Proof. intros H Hf. apply quiet_bind; [done|]. by intros []. Qed.

Lemma quiet_call {X} (r : rpc X) : uploads r → quiet (call r).
Proof. done. Qed.

Lemma quiet_ask {X} (r : rpc (result storeError X)) : uploads r → quiet (ask r).
Proof. done. Qed.

Create HintDb quiet.

(** Walks through a program, using what is known of the ones it calls. *)
Ltac quiet := repeat first
  [ exact I | assumption | solve [auto with quiet nocore]
  | simple apply quiet_call; exact I | simple apply quiet_ask; exact I
  | simple apply quiet_tbind | simple apply quiet_bind
  | progress cbv beta zeta
  | match goal with |- quiet (match ?x with _ => _ end) => destruct x end
  | progress intros ].

(** ** Programs that upload no root *)

Lemma quiet_readStable {A} attr (get : rpc (result storeError A)) n : uploads attr → uploads get → quiet (readStableLeaseObject attr get n).
Proof. intros H H'. induction n as [|n IH]; cbn [readStableLeaseObject]; [quiet|]. repeat (apply quiet_tbind; [by apply quiet_ask|]; intros ?). quiet. Qed.

Lemma quiet_readClaim : quiet (readPublisherClaim configID).
Proof. unfold readPublisherClaim. apply quiet_tbind; [by apply quiet_readStable|]. quiet. Qed.
#[local] Hint Resolve quiet_readClaim : quiet.

Lemma quiet_confirm c : quiet (confirmPublisherClaim configID c).
Proof. unfold confirmPublisherClaim. quiet. Qed.
Lemma quiet_under {A} c (x : A) : quiet (under c x).
Proof. unfold under. quiet. Qed.
#[local] Hint Resolve quiet_confirm quiet_under : quiet.

Lemma quiet_acquire n first owner floor lease p : quiet (acquire_attempts configID n first owner floor lease p).
Proof. revert first. induction n as [|n IH]; intros first; cbn [acquire_attempts]; quiet. Qed.
Lemma quiet_validateMaintenance c : quiet (validateMaintenanceClaim configID c).
Proof. unfold validateMaintenanceClaim. quiet. Qed.
Lemma quiet_upload_claim c v : quiet (upload_claim c v).
Proof. unfold upload_claim. quiet. Qed.
#[local] Hint Resolve quiet_acquire quiet_validateMaintenance quiet_upload_claim : quiet.

Lemma quiet_Bind c index root lease : quiet (BindPublisherClaim configID c index root lease).
Proof. unfold BindPublisherClaim. quiet. Qed.
Lemma quiet_RenewClaim c lease : quiet (RenewPublisherClaim configID c lease).
Proof. unfold RenewPublisherClaim. quiet. Qed.
Lemma quiet_Release c : quiet (ReleasePublisherClaim configID c).
Proof. unfold ReleasePublisherClaim. quiet. Qed.
#[local] Hint Resolve quiet_Bind quiet_RenewClaim quiet_Release : quiet.

Lemma quiet_readRoot index hash : quiet (readRoot configID expectedPolicy sha256 marshal index hash).
Proof. unfold readRoot. quiet. Qed.
#[local] Hint Resolve quiet_readRoot : quiet.
Lemma quiet_OpenRoot index hash : quiet (OpenRoot configID expectedPolicy sha256 marshal index hash).
Proof. unfold OpenRoot. quiet. Qed.
Lemma quiet_read_roots l : quiet (read_roots configID expectedPolicy sha256 marshal l).
Proof. induction l as [|[index hash] l IH]; cbn [read_roots]; quiet. Qed.
#[local] Hint Resolve quiet_OpenRoot quiet_read_roots : quiet.
Lemma quiet_loadAll : quiet (loadAll configID expectedPolicy sha256 marshal).
Proof. unfold loadAll. quiet. Qed.
Lemma quiet_Load : quiet (Load configID expectedPolicy sha256 marshal).
Proof. unfold Load. quiet. Qed.
Lemma quiet_refresh certified : quiet (refreshCertifiedCurrent configID expectedPolicy sha256 marshal certified).
Proof. unfold refreshCertifiedCurrent. quiet. Qed.
#[local] Hint Resolve quiet_loadAll quiet_Load quiet_refresh : quiet.

Lemma quiet_promote n cp : quiet (promote_attempts configID expectedPolicy sha256 marshal n cp).
Proof. induction n as [|n IH]; cbn [promote_attempts]; quiet. Qed.
Lemma quiet_generation n owner index lease root : quiet (generation_attempts configID n owner index lease root).
Proof. induction n as [|n IH]; cbn [generation_attempts]; quiet. Qed.
#[local] Hint Resolve quiet_promote quiet_generation : quiet.

Lemma quiet_maintenance {A} (work : PublisherClaim → presult A) : (∀ c, quiet (work c)) → quiet (withMaintenanceClaim configID work).
Proof. intros H. unfold withMaintenanceClaim, acquireMaintenanceClaim, acquireClaim. quiet. Qed.

Lemma quiet_readPin key : quiet (readRecoveryPin configID expectedPolicy sha256 marshal key).
Proof. unfold readRecoveryPin. apply quiet_tbind; [by apply quiet_readStable|]. quiet. Qed.
#[local] Hint Resolve quiet_readPin : quiet.
Lemma quiet_confirmPin key r : quiet (confirmRecoveryPin configID expectedPolicy sha256 marshal key r).
Proof. unfold confirmRecoveryPin. quiet. Qed.
#[local] Hint Resolve quiet_confirmPin : quiet.
Lemma quiet_pin n key r : quiet (pin_attempts configID expectedPolicy sha256 marshal n key r).
Proof. induction n as [|n IH]; cbn [pin_attempts]; quiet. Qed.
Lemma quiet_upload_pin key r v : quiet (upload_pin key r v).
Proof. unfold upload_pin. quiet. Qed.
#[local] Hint Resolve quiet_pin quiet_upload_pin : quiet.
Lemma quiet_Renew key r lease : quiet (Renew configID expectedPolicy sha256 marshal key r lease).
Proof. unfold Renew. quiet. Qed.
Lemma quiet_ClosePin key r : quiet (ClosePin configID expectedPolicy sha256 marshal key r).
Proof. unfold ClosePin. quiet. Qed.
#[local] Hint Resolve quiet_Renew quiet_ClosePin : quiet.
Lemma quiet_renew_pin n key r lease : quiet (renew_pin configID expectedPolicy sha256 marshal n key r lease).
Proof. induction n as [|n IH]; cbn [renew_pin]; quiet. Qed.
#[local] Hint Resolve quiet_renew_pin : quiet.
Lemma quiet_restore cp owner token lease n : quiet (restore configID expectedPolicy sha256 marshal cp owner token lease n).
Proof.
  unfold restore, PinRecoveryRoot. apply quiet_tbind; [|quiet]. destruct (_ || _); [quiet|]. apply quiet_tbind; [|quiet]. apply quiet_maintenance. quiet.
Qed.

Lemma quiet_active_pins now keys : quiet (active_pins configID expectedPolicy sha256 marshal now keys).
Proof. induction keys as [|key l IH]; cbn [active_pins]; quiet. Qed.
Lemma quiet_deleted r : uploads r → quiet (deleted r).
Proof. intros H. unfold deleted. apply quiet_bind; [done|]. quiet. Qed.
#[local] Hint Resolve quiet_active_pins : quiet.
#[local] Hint Extern 1 (asks _ _ (deleted _)) => simple apply quiet_deleted; exact I : quiet.
Lemma quiet_sweep_roots c keep floor cutoff l : quiet (sweep_roots configID sha256 marshal c keep floor cutoff l).
Proof. induction l as [|cp l IH]; cbn [sweep_roots]; quiet. Qed.
Lemma quiet_sweep_blocks c live cutoff l : quiet (sweep_blocks configID c live cutoff l).
Proof. induction l as [|[b t] l IH]; cbn [sweep_blocks]; quiet. Qed.
#[local] Hint Resolve quiet_sweep_roots quiet_sweep_blocks : quiet.
Lemma quiet_collect retain keep floor grace : quiet (GarbageCollectFrom configID expectedPolicy sha256 marshal retain keep floor grace).
Proof. unfold GarbageCollectFrom. do 2 (case_match; [quiet|]). apply quiet_maintenance. intros c. unfold garbageCollect, activeRecoveryRoots. quiet. Qed.
#[local] Hint Resolve quiet_restore quiet_collect : quiet.

(** ** The roots a publisher uploads *)

Lemma readClaim_generation : sound (on_ok (λ x, clGeneration x.1 ≠ 0)) (readPublisherClaim configID).
Proof.
  unfold readPublisherClaim. eapply sound_tbind; [by apply quiet_sound, quiet_readStable|]. intros x _. cbv zeta. destruct (_ || _) eqn:E; [done|].
  apply orb_false_iff in E as [[[_ E]%orb_false_iff _]%orb_false_iff _]. by apply Z.eqb_neq in E.
Qed.

Lemma validateLease_generation claim : sound (on_ok (λ _, clGeneration claim ≠ 0)) (validatePublisherLease configID claim).
Proof.
  unfold validatePublisherLease. eapply sound_bind; [apply readClaim_generation|]. intros [[c v]|[[]| | | | | |]] H; try done.
  split; [done|]. intros now. simpl. destruct (_ || _) eqn:E; [done|]. split; [done|]. intros []. simpl in *.
  apply orb_false_iff in E as [[_ E]%orb_false_iff _]. apply negb_false_iff in E. unfold same_claim in E. apply andb_true_iff in E as [[_ E]%andb_true_iff _]. apply Z.eqb_eq in E. congruence.
Qed.

Lemma split_at_spec n l : 0 <= n → (split_at n l).1 ++ (split_at n l).2 = l ∧ len (split_at n l).1 = Z.min n (len l).
Proof.
  revert n. induction l as [|b l IH]; intros n Hn; [split; [done|]; unfold len; simpl; lia|]. simpl. destruct (Z.leb_spec n 0).
  - split; [done|]. unfold len. simpl. lia.
  - destruct (IH (n - 1) ltac:(lia)) as [E1 E2]. destruct (split_at (n - 1) l) as [x y]. simpl in *. split; [by rewrite E1|]. unfold len in *. simpl. lia.
Qed.

Section hash.
Context (hash_size : ∀ l, len (sha256 l) = 32).

Definition describes (b : Block) (content : bytes) : Prop := len (bHash b) = 32 ∧ bSize b = len content.

(** The blocks of a file have the layout a reader demands and cover the file. *)
Lemma blocks_layout n l bs : (length l <= n)%nat → Forall2 describes bs (chunks n l) → block_layout bs = true ∧ total bSize bs = len l.
Proof.
  revert l bs. induction n as [|n IH]; intros [|a l] bs Hn H; try (apply Forall2_nil_inv_r in H as ->; done); [simpl in Hn; lia|].
  cbn [chunks] in H. assert (0 < blockSize) as Hb by done. destruct (split_at_spec blockSize (a :: l) ltac:(lia)) as [Ea El].
  destruct (split_at blockSize (a :: l)) as [x y]. cbn [fst snd] in Ea, El. apply Forall2_cons_inv_r in H as (b & bs' & [H32 Hs] & H & ->).
  assert (len (a :: l) = len x + len y) as E by (by rewrite <-Ea, len_app). pose proof (len_nonneg y). assert (0 < len (a :: l)) by (unfold len; simpl; lia).
  destruct (IH y bs') as [L T]; [|done|]. { unfold len in *. simpl in *. lia. }
  split; [|change (bSize b + total bSize bs' = len (a :: l)); lia]. cbn [block_layout]. rewrite L, H32, Hs, Z.eqb_refl.
  rewrite (proj2 (Z.ltb_lt _ _)), (proj2 (Z.leb_le _ _)) by lia. destruct (decide (bs' = [])) as [->|Hne]; [done|]. rewrite bool_decide_false by done. simpl.
  rewrite (proj2 (Z.eqb_eq _ _)); [done|]. destruct y as [|c y]; [|unfold len in *; simpl in *; lia]. exfalso. apply Hne. destruct n; by apply Forall2_nil_inv_r in H.
Qed.

Lemma upload_block_sound generation known content : sound (on_ok (λ b, describes b content)) (upload_block sha256 generation known content).
Proof.
  assert (∀ g, describes (mkBlock (sha256 content) g (len content)) content) as Hg by (intros g; split; [apply hash_size|done]).
  unfold upload_block. cbv zeta. destruct (known !! _) as [b|]; [destruct (_ =? _); [apply Hg|]|].
  all: split; [done|]; intros [[]|[]]; try done; [apply Hg|]; split; [done|]; intros [[]|[]]; try done; apply Hg.
Qed.

Lemma upload_blocks_sound generation known l : sound (on_ok (λ bs, Forall2 describes bs l)) (upload_blocks sha256 generation known l).
Proof.
  induction l as [|content l IH]; cbn [upload_blocks]; [by constructor|]. eapply sound_tbind; [apply upload_block_sound|]. intros b Hb.
  eapply sound_tbind; [apply IH|]. intros bs Hbs. by constructor.
Qed.

Definition known_role (r : role) : Prop := match r with OtherRole _ => False | _ => True end.

Lemma uploadFile_sound source generation known :
  known_role (sRole source) → sound (on_ok (λ f, fRole f = sRole source ∧ file_valid sha256 f = true)) (uploadFile sha256 source generation known).
Proof.
  intros Hr. unfold uploadFile. cbv zeta. destruct (_ || _) eqn:E; [done|]. apply orb_false_iff in E as [E%Z.leb_gt _].
  eapply sound_tbind; [apply upload_blocks_sound|]. intros bs H. destruct (blocks_layout _ _ _ (Nat.le_refl _) H) as [L T]. split; [done|].
  unfold file_valid. cbn [fRole fSize fBlocks fHash]. rewrite L, T, Z.eqb_refl, (proj2 (Z.ltb_lt _ _)) by done.
  rewrite (bool_decide_false (bs = [])); [|intros ->; change (0 = len (sContent source)) in T; lia]. rewrite bool_decide_true by done. by destruct (sRole source).
Qed.

Definition known_sources (l : list Source) : Prop := Forall (λ s, known_role (sRole s)) l.

Lemma upload_files_sound sources generation count known :
  known_sources sources → count <= maxBlocks →
  sound (on_ok (λ fs, map fRole fs = map sRole sources ∧ Forall (λ f, file_valid sha256 f = true) fs ∧ count + len (fs ≫= fBlocks) <= maxBlocks))
    (upload_files sha256 sources generation count known).
Proof.
  revert count. induction sources as [|source l IH]; intros count Hr Hc; cbn [upload_files]; [split_and!; [done|constructor|unfold len; simpl; lia]|].
  apply Forall_cons in Hr as [H1 H2]. eapply sound_tbind; [by apply uploadFile_sound|]. intros f [Er Hf]. destruct (Z.ltb_spec maxBlocks (count + len (fBlocks f))); [done|].
  eapply sound_tbind; [by apply IH|]. intros fs (E & Hfs & Hn). cbn [asks on_ok map]. split_and!; [by rewrite Er, E|by constructor|].
  rewrite bind_cons, len_app. lia.
Qed.

Lemma profile_roles (fs : list File) sources : map fRole fs = map sRole sources → validateSources sources = true →
  known_sources sources ∧ NoDup (file_roles fs) ∧ RoleSQLite ∈ file_roles fs ∧ (1 <= length fs <= 2)%nat.
Proof.
  intros E H. unfold file_roles. assert (length fs = length (map sRole sources)) as -> by (by rewrite <-E, length_map). rewrite E. unfold known_sources.
  rewrite <-(Forall_map sRole). apply orb_true_iff in H as [->%bool_decide_eq_true| ->%bool_decide_eq_true]; split_and!; simpl; try lia; repeat constructor; set_solver.
Qed.

Lemma files_size (fs : list File) : (1 <= length fs)%nat → Forall (λ f, file_valid sha256 f = true) fs → 0 < total fSize fs.
Proof.
  assert (∀ f, file_valid sha256 f = true → 0 < fSize f) as H. { intros f Hf. unfold file_valid in Hf. do 4 (apply andb_true_iff in Hf as [Hf _]). apply andb_true_iff in Hf as [_ Hf]. lia. }
  destruct 2 as [|f fs Hf Hfs]; [simpl in *; lia|]. change (0 < fSize f + total fSize fs). apply H in Hf. enough (0 <= total fSize fs) by lia.
  clear -H Hfs. induction Hfs as [|g gs Hg _ IH]; [done|]. change (0 <= fSize g + total fSize gs). apply H in Hg. lia.
Qed.

Lemma uploadCandidate_sound certified sources index generation :
  policy_known expectedPolicy = true → validateSources sources = true → profile expectedPolicy (map sRole sources) = true → index ≠ 0 → generation ≠ 0 →
  quiet (uploadCandidate configID expectedPolicy sha256 marshal certified sources index generation).
Proof.
  intros Hp Hs Hpr Hi Hg. unfold uploadCandidate. apply (sound_quiet _ (on_ok (λ _, True))). eapply sound_tbind.
  { apply (upload_files_sound sources generation 0); [apply (profile_roles (map (λ s, mkFile (sRole s) [] 0 []) sources)); [by rewrite map_map|done]|done]. }
  intros fs (E & Hf & Hn). cbv zeta. destruct (Z.ltb_spec maxCheckpointSize (total fSize fs)); [done|]. set (cp := mkCheckpoint _ _ _ _ _ _ _).
  destruct (Z.ltb_spec maxRootSize (len (marshal cp))); [done|]. split; [|by intros [[]|[]]]. split_and!; [done|done|done|].
  destruct (profile_roles _ _ E Hs) as (_ & Hnd & Hsql & Hlen). assert (0 < total fSize fs) as Hsize by (by apply files_size; [lia|]).
  assert (len (root_blocks cp) = len (fs ≫= fBlocks)) as Hblocks. { unfold root_blocks. simpl. unfold len. f_equal. clear. induction fs as [|f fs IH]; [done|]. rewrite !bind_cons, !length_app, IH. by rewrite length_map. }
  unfold Publish.validateRoot. cbn [cp SQLExecutionPolicy cpConfigID cpGeneration cpIndex cpSize cpFiles cpHash].
  unfold file_roles at 1. rewrite E, Hp, Hpr, !Z.eqb_refl, Hblocks. unfold len at 1 2.
  rewrite (proj2 (Z.eqb_neq _ _) Hi), (proj2 (Z.eqb_neq _ _) Hg). rewrite !(proj2 (Z.ltb_lt _ _)), !(proj2 (Z.leb_le _ _)) by lia. rewrite !bool_decide_true by done.
  rewrite (proj2 (forallb_forall _ _)); [done|]. intros f Hin. apply list_elem_of_In in Hin. by apply (proj1 (Forall_forall _ _) Hf).
Qed.

Lemma CreateFiles_sound certified claim sources index : quiet (CreateFiles configID expectedPolicy sha256 marshal certified claim sources index).
Proof.
  unfold CreateFiles. destruct (negb _) eqn:E; [done|]. apply negb_false_iff in E as [[? ?]%andb_true_iff ?]%andb_true_iff. apply quiet_bind; [done|].
  intros checked. destruct (_ || _) eqn:Ei; [done|]. apply orb_false_iff in Ei as [_ Ei%Z.eqb_neq].
  apply (sound_quiet _ (on_ok (λ _, True))). eapply sound_tbind; [apply validateLease_generation|]. intros [] Hg. simpl in Hg.
  apply quiet_sound, quiet_tbind; [apply quiet_refresh|]. intros certified'. by apply uploadCandidate_sound.
Qed.
#[local] Hint Resolve CreateFiles_sound : quiet.

Lemma quiet_publish n claim cp : quiet (publish_candidate configID expectedPolicy sha256 marshal n claim cp).
Proof. induction n as [|n IH]; cbn [publish_candidate]; unfold PromoteCertifiedCurrent, validatePublisherLease; quiet. Qed.
#[local] Hint Resolve quiet_publish : quiet.

Lemma client_sound c : quiet (client_prog configID expectedPolicy sha256 marshal c).
Proof.
  destruct c; unfold client_prog, ended; apply quiet_bind; try (by quiet); unfold create, materialize_checkpoint, AcquirePublisherClaim, acquireClaim, AcquireGenerationClaim,
    PromoteCertifiedCurrent, validatePublisherLease; quiet.
Qed.

(** ** Runs *)

Definition roots_readable (s : store) : Prop := ∀ index hash cp t, roots s !! (index, hash) = Some (cp, t) → readable index hash cp.

Lemma exec_readable i {X} (r : rpc X) o s : uploads r → roots_readable s → roots_readable (exec i r o s).1.
Proof.
  intros Hr Hs. destruct r; simpl; unfold faulty; destruct (fault o) as [[]|]; simpl; try case_match; try done; intros index' hash' cp' t E; simpl in E.
  all: first [rewrite lookup_insert_Some in E; destruct E as [[E1 E2]|[_ E]]; [by simplify_eq|] | rewrite lookup_delete_Some in E; destruct E as [_ E]]; by eapply Hs.
Qed.

Definition world_readable (w : world) : Prop := roots_readable (shared w) ∧ ∀ i p, processes w !! i = Some p → quiet (pRest p).

Lemma happen_readable timely e w w' :
  world_readable w → happen configID expectedPolicy sha256 marshal timely e w = Some w' → world_readable w'.
Proof.
  intros [Hs Hp] H. destruct e as [d|c|i o]; simpl in H.
  - case_match; by simplify_eq.
  - simplify_eq. split; [done|]. intros i p E. simpl in E. apply lookup_app_Some in E as [E|[_ E]]; [by apply (Hp i)|].
    apply list_lookup_singleton_Some in E as [_ <-]. apply client_sound.
  - destruct (processes w !! i) as [[[|X r k] h]|] eqn:Ei; try done. destruct (may_run _ _ _ _); [|done].
    destruct (Hp _ _ Ei) as [Hr Hk]. pose proof (exec_readable i r o (shared w) Hr Hs) as Hs'. destruct (exec i r o (shared w)) as [s x]. simplify_eq.
    split; [done|]. intros j p E. simpl in E. apply list_lookup_insert_Some in E as [(<- & <- & _)|[_ E]]; [apply Hk|by apply (Hp j)].
Qed.

Lemma history_readable timely es w w' :
  world_readable w → history configID expectedPolicy sha256 marshal timely es w = Some w' → world_readable w'.
Proof.
  revert w. induction es as [|e es IH]; intros w Hw H; simpl in H; [by simplify_eq|]. destruct (happen _ _ _ _ _ e w) as [w1|] eqn:E; [|done].
  by eapply IH, H; eapply happen_readable.
Qed.
End hash.
End roots.

(** The store answers without a fault. *)
Definition faultless (i : nat) X (r : rpc X) (s : store) : store * X := exec i r fine s.

(** C22: in every run, timely or not, a root object that is in the store can be
    opened under its name: [OpenRoot] passes all its checks and returns it. *)
Theorem stored_roots_open configID expectedPolicy sha256 marshal timely es w i index hash cp t :
  (∀ l, len (sha256 l) = 32) → history configID expectedPolicy sha256 marshal timely es start_world = Some w →
  roots (shared w) !! (index, hash) = Some (cp, t) →
  alone (faultless i) (OpenRoot configID expectedPolicy sha256 marshal index hash) (shared w) = (shared w, Ok cp).
Proof.
  intros Hh H E. destruct (history_readable configID expectedPolicy sha256 marshal Hh timely es start_world w) as [Hs _]; [by split|done|].
  destruct (Hs _ _ _ _ E) as (-> & -> & Hm & Hv). unfold OpenRoot, readRoot. simpl. rewrite E. simpl.
  rewrite (proj2 (Z.ltb_ge _ _) Hm), bool_decide_true by done. simpl. rewrite Hv. simpl. by rewrite Z.eqb_refl.
Qed.
