(* ===== verification/PublishRuns.v ===== *)
(** * Runs of the checkpoint namespace

    A toy hash and encoding, runs that satisfy the hypotheses of the theorems,
    and a run in which a stale collection deletes a block of CURRENT. *)

From stdpp Require Import gmap list countable.
From S2P Require Import Prelude Programs Publish PublishLogic PublishClaims PublishProofs PublishRoots.

(** ** A hash and an encoding without collisions *)

(** Codes of which none is a prefix of another. *)
Definition prefix_free {A} (code : A → bytes) : Prop := ∀ x y r s, code x ++ r = code y ++ s → x = y ∧ r = s.

Fixpoint list_code {A} (code : A → bytes) (l : list A) : bytes := match l with [] => [x00] | x :: l' => x01 :: code x ++ list_code code l' end.

Lemma list_code_free {A} (code : A → bytes) : prefix_free code → prefix_free (list_code code).
Proof.
  intros H x. induction x as [|a x IH]; intros [|b y] r s E; simpl in E; simplify_eq; [done|]. rewrite <-!(assoc_L (++)) in E.
  apply H in E as [-> E]. by apply IH in E as [-> ->].
Qed.

Definition byte_code (b : byte) : bytes := [b].
Definition bytes_code : bytes → bytes := list_code byte_code.
Definition bool_code (b : bool) : bytes := [if b then x01 else x00].
Fixpoint bits (p : positive) : list bool := match p with xH => [] | xO q => false :: bits q | xI q => true :: bits q end.
Definition Z_code (z : Z) : bytes := list_code bool_code (bits (encode z)).
Definition role_code (r : role) : bytes := match r with RoleSQLite => [x00] | RoleGraphData => [x01] | OtherRole n => x02 :: bytes_code n end.
Definition block_code (b : Block) : bytes := bytes_code (bHash b) ++ Z_code (bGeneration b) ++ Z_code (bSize b).
Definition file_code (f : File) : bytes := role_code (fRole f) ++ bytes_code (fHash f) ++ Z_code (fSize f) ++ list_code block_code (fBlocks f).
Definition toy_marshal (c : Checkpoint) : bytes :=
  replicate 32 x00 ++ Z_code (SQLExecutionPolicy c) ++ Z_code (cpConfigID c) ++ Z_code (cpGeneration c) ++ Z_code (cpIndex c) ++ bytes_code (cpHash c) ++
  Z_code (cpSize c) ++ list_code file_code (cpFiles c).

Lemma bits_inj p q : bits p = bits q → p = q.
Proof. revert q. induction p as [p IH|p IH|]; intros [q|q|] E; simpl in E; try done; injection E as E; f_equal; by apply IH. Qed.

Lemma bytes_code_free : prefix_free bytes_code.
Proof. apply list_code_free. intros x y r s E. by simplify_eq/=. Qed.

Lemma Z_code_free : prefix_free Z_code.
Proof.
  intros x y r s E. apply list_code_free in E as [E ->]; [|by intros [] [] ? ? ?; simplify_eq/=]. split; [|done]. by apply encode_inj, bits_inj.
Qed.

Ltac split_code := repeat match goal with
  | E : Z_code _ ++ _ = Z_code _ ++ _ |- _ => apply Z_code_free in E as [? E]
  | E : bytes_code _ ++ _ = bytes_code _ ++ _ |- _ => apply bytes_code_free in E as [? E]
  end.

Lemma block_code_free : prefix_free block_code.
Proof. intros [] [] r s E. unfold block_code in E. rewrite <-!(assoc_L (++)) in E. simpl in E. split_code. by subst. Qed.

Lemma role_code_free : prefix_free role_code.
Proof. intros [] [] r s E; simpl in E; simplify_eq; try done. apply bytes_code_free in E as [-> ->]. done. Qed.

Lemma file_code_free : prefix_free file_code.
Proof.
  intros [] [] r s E. unfold file_code in E. rewrite <-!(assoc_L (++)) in E. simpl in E. apply role_code_free in E as [-> E]. split_code.
  apply (list_code_free block_code block_code_free) in E as [-> ->]. by subst.
Qed.

Lemma toy_marshal_inj x y : toy_marshal x = toy_marshal y → x = y.
Proof.
  intros E. unfold toy_marshal in E. apply app_inv_head in E. destruct x, y. simpl in E. split_code.
  rewrite <-(app_nil_r (list_code file_code cpFiles)), <-(app_nil_r (list_code file_code cpFiles0)) in E.
  apply (list_code_free file_code file_code_free) in E as [-> _]. by subst.
Qed.

Definition toy_sha256 (l : bytes) : bytes := if (length l <=? 31)%nat then take 31 (l ++ replicate 31 x00) ++ [Zbyte (len l)] else l.

Lemma toy_inj x y : RootHash toy_sha256 toy_marshal x = RootHash toy_sha256 toy_marshal y → x = y.
Proof.
  assert (∀ cp, RootHash toy_sha256 toy_marshal cp = toy_marshal cp) as E.
  { intros cp. unfold RootHash, toy_sha256. rewrite (proj2 (Nat.leb_gt _ _)); [done|]. unfold toy_marshal. rewrite length_app, length_replicate. lia. }
  rewrite !E. apply toy_marshal_inj.
Qed.

Definition snapshot : list Source := [mkSource RoleSQLite [x41; x42]].
Definition publisher (index : Z) : event := ESpawn (CPublish None [x50] 0 snapshot index 1).
Definition collection (floor : Z) : event := ESpawn (CCollect ∅ 1 floor 0).
Definition steps (n i : nat) : list event := replicate n (ERun i fine).

Abbreviation toy_history := (history 1 7 toy_sha256 toy_marshal).

Definition some {A} (x : option A) : bool := match x with Some _ => true | None => false end.

Definition after (timely : bool) (es : list event) : world := default start_world (toy_history timely es start_world).

Lemma after_run timely es : some (toy_history timely es start_world) = true → toy_history timely es start_world = Some (after timely es).
Proof. unfold after. by destruct (toy_history timely es start_world). Qed.

Definition pointer (w : world) : option (Z * bytes) := (λ x, (ptrIndex x.1, ptrRoot x.1)) <$> current (shared w).

Lemma pointer_current w : some (pointer w) = true → ∃ p v, current (shared w) = Some (p, v).
Proof. unfold pointer. destruct (current (shared w)) as [[p v]|]; [|done]. by exists p, v. Qed.

(** ** Timely runs *)

(** A checkpoint is published, then its successor, and a collection deletes the
    first root. *)
Definition published_once : list event := publisher 1 :: steps 44 0.
Definition published_twice : list event := publisher 2 :: steps 47 1.
Definition collected : list event := ETick 10 :: collection 5 :: steps 35 2.
Definition whole_run : list event := published_once ++ published_twice ++ collected.

Lemma whole_run_ends : toy_history true whole_run start_world = Some (after true whole_run).
Proof. apply after_run. by vm_compute. Qed.

Lemma published_once_ends : toy_history true published_once start_world = Some (after true published_once).
Proof. apply after_run. by vm_compute. Qed.

Lemma checkpoints_restorable_witness :
  (∃ p v, current (shared (after true whole_run)) = Some (p, v)) ∧
  ∀ p v, current (shared (after true whole_run)) = Some (p, v) →
    ∃ cp, root_key toy_sha256 toy_marshal cp = (ptrIndex p, ptrRoot p) ∧ restorable toy_sha256 toy_marshal cp (shared (after true whole_run)).
Proof.
  split; [apply pointer_current; by vm_compute|].
  exact (proj1 (checkpoints_restorable 1 7 toy_sha256 toy_marshal whole_run (after true whole_run) toy_inj whole_run_ends)).
Defined.

(** Two leases seen by running processes. *)
Definition holding_of (w : world) (i : nat) : option (Z * Z) := p ← processes w !! i; pHolding p.

Definition publishing_run : list event := publisher 1 :: steps 21 0.

Lemma publishing_run_ends : toy_history true publishing_run start_world = Some (after true publishing_run).
Proof. apply after_run. by vm_compute. Qed.

Lemma holding_process w i h : holding_of w i = Some h → ∃ p, processes w !! i = Some p ∧ pHolding p = Some h.
Proof. unfold holding_of. intros (p & ? & ?)%bind_Some. by exists p. Qed.

Lemma claim_exclusive_witness :
  ∃ p, processes (after true publishing_run) !! 0%nat = Some p ∧ pHolding p = Some (1, 120000) ∧ 0%nat = 0%nat.
Proof.
  destruct (holding_process (after true publishing_run) 0 (1, 120000) ltac:(by vm_compute)) as (p & Ep & Hh). exists p.
  split; [exact Ep|]. split; [exact Hh|].
  assert (clock (shared (after true publishing_run)) < 120000) as Hc by (by vm_compute).
  exact (claim_exclusive 1 7 toy_sha256 toy_marshal true toy_inj publishing_run (after true publishing_run) 0 0 p p 1 1 120000 120000
    publishing_run_ends Ep Ep Hh Hh Hc Hc).
Defined.

Lemma current_monotone_witness :
  ∃ p v w p' v', current (shared (after true published_once)) = Some (p, v) ∧ toy_history true published_twice (after true published_once) = Some w ∧
    current (shared w) = Some (p', v') ∧ (p' = p ∨ ptrIndex p < ptrIndex p').
Proof.
  destruct (pointer_current (after true published_once) ltac:(by vm_compute)) as (p & v & E).
  destruct (toy_history true published_twice (after true published_once)) as [w|] eqn:Ew.
  - destruct (current_monotone 1 7 toy_sha256 toy_marshal true toy_inj published_once published_twice (after true published_once) w p v
      published_once_ends Ew E) as (p' & v' & E' & H). exists p, v, w, p', v'. exact (conj E (conj eq_refl (conj E' H))).
  - exfalso. assert (some (toy_history true published_twice (after true published_once)) = true) as Hs by (by vm_compute).
    rewrite Ew in Hs. discriminate Hs.
Defined.

(** The same run with a hash of the right size. *)
Definition flat_sha256 (l : bytes) : bytes := replicate 32 x00.
Definition flat_world : world := default start_world (history 1 7 flat_sha256 toy_marshal true published_once start_world).

Lemma flat_run : history 1 7 flat_sha256 toy_marshal true published_once start_world = Some flat_world.
Proof.
  assert (some (history 1 7 flat_sha256 toy_marshal true published_once start_world) = true) as H by (by vm_compute). unfold flat_world.
  destruct (history 1 7 flat_sha256 toy_marshal true published_once start_world); [done|discriminate H].
Qed.

Lemma stored_roots_open_witness :
  ∃ cp t, roots (shared flat_world) !! (1, replicate 32 x00) = Some (cp, t) ∧
    alone (faultless 5) (OpenRoot 1 7 flat_sha256 toy_marshal 1 (replicate 32 x00)) (shared flat_world) = (shared flat_world, Ok cp).
Proof.
  destruct (roots (shared flat_world) !! (1, replicate 32 x00)) as [[cp t]|] eqn:E.
  - exists cp, t. split; [reflexivity|].
    exact (stored_roots_open 1 7 flat_sha256 toy_marshal true published_once flat_world 5 1 (replicate 32 x00) cp t (λ l, eq_refl) flat_run E).
  - exfalso. assert (some (roots (shared flat_world) !! (1, replicate 32 x00)) = true) as H by (by vm_compute). rewrite E in H. discriminate H.
Defined.

(** ** A stale collection *)

(** A first publisher stops after it has uploaded a block.  A collection finds
    the block unused, sees its claim, and is delayed.  Another collection
    deletes the block; a second publisher uploads it again under the same key
    and moves CURRENT.  Then the deletion of the first collection arrives. *)
Definition stale_deletion : list event :=
  publisher 1 :: steps 17 0 ++
  [ETick 120001; collection 1] ++ steps 22 1 ++
  [ETick 120001; collection 1] ++ steps 30 2 ++
  [publisher 1] ++ steps 46 3 ++
  [ERun 1 fine].

(** CURRENT names a root one of whose blocks is gone. *)
Definition lost (w : world) : bool :=
  match current (shared w) with
  | None => false
  | Some (p, _) =>
      match roots (shared w) !! (ptrIndex p, ptrRoot p) with
      | Some (cp, _) => existsb (λ b, bool_decide (blocks (shared w) !! b = None)) (root_blocks cp)
      | None => true
      end
  end.

Lemma lost_spec w :
  lost w = true →
  ∃ p v, current (shared w) = Some (p, v) ∧ ¬ ∃ cp, root_key toy_sha256 toy_marshal cp = (ptrIndex p, ptrRoot p) ∧ restorable toy_sha256 toy_marshal cp (shared w).
Proof.
  unfold lost. destruct (current (shared w)) as [[p v]|] eqn:Ec; [|done]. intros H. exists p, v. split; [done|]. intros (cp & Ek & [t Er] & Hb).
  rewrite Ek in Er. rewrite Er in H. apply existsb_exists in H as (b & Hin & Hn%bool_decide_eq_true).
  destruct (Hb b) as [x Hx]; [by apply list_elem_of_In|]. congruence.
Qed.

(** C35: a deletion that takes effect after the lease it was checked against has
    expired can remove a block of CURRENT: the checkpoint cannot be restored. *)
Theorem stale_deletion_loses_current :
  ∃ es w p v, toy_history false es start_world = Some w ∧ current (shared w) = Some (p, v) ∧
    ¬ ∃ cp, root_key toy_sha256 toy_marshal cp = (ptrIndex p, ptrRoot p) ∧ restorable toy_sha256 toy_marshal cp (shared w).
Proof.
  exists stale_deletion, (after false stale_deletion). destruct (lost_spec (after false stale_deletion) ltac:(by vm_compute)) as (p & v & E & H).
  exists p, v. exact (conj (after_run false stale_deletion ltac:(by vm_compute)) (conj E H)).
Qed.
