(* ===== verification/ArchiveCodec.v ===== *)
(** * Formats of the archived log (pkg/recovery/archive_codec.go)

    Extents of decisions and the archive head: encoders, decoders and their
    round trips.  JSON of checkpoint seals and SHA-256 are parameters. *)

From stdpp Require Import gmap list.
From S2P Require Import Prelude Bytes Protocol Schedule Node.

(** ** Data *)

(** A [quepaxa.DecidedValue] with the bytes of its certificate. *)
Record archived := mkArchived { aSlot : Z; aHash : bytes; aValue : bytes; aCertificate : bytes }.

Record Extent := mkExtent {
  xConfigID : Z;
  xStart : Z;
  xEnd : Z;
  StartPrefix : bytes;
  EndPrefix : bytes;
  PreviousHash : bytes;
  PreviousObject : Z;
  Decisions : list archived;
}.

(** The membership record of a seal is kept as its JSON. *)
Record CheckpointSeal := mkSeal {
  sealConfigID : Z;
  sealIndex : Z;
  sealRootHash : bytes;
  sealStateHash : bytes;
  sealPrefixHash : bytes;
  NextLeaderOrder : list bytes;
  FollowingLeaderOrder : list bytes;
  sealMembership : option bytes;
  GenerationAnchorHash : bytes;
}.

Record archiveHead := mkHead {
  hConfigID : Z;
  hGeneration : Z;
  hBase : Z;
  BasePrefix : bytes;
  BaseSeal : option CheckpointSeal;
  BaseDecision : option archived;
  BaseAnchor : option bytes;
  LineageAnchor : option bytes;
  hTip : Z;
  TailHash : bytes;
  TailObject : Z;
  hSealed : bool;
}.

#[global] Instance archived_eq_dec : EqDecision archived.
Proof. solve_decision. Defined.
#[global] Instance Extent_eq_dec : EqDecision Extent.
Proof. solve_decision. Defined.
#[global] Instance CheckpointSeal_eq_dec : EqDecision CheckpointSeal.
Proof. solve_decision. Defined.
#[global] Instance archiveHead_eq_dec : EqDecision archiveHead.
Proof. solve_decision. Defined.

(** ** Constants *)

(** "RHZAEXT!" and "RHZAHD2!" *)
Definition extentMagic : bytes := [x52; x48; x5a; x41; x45; x58; x54; x21].
Definition headMagic : bytes := [x52; x48; x5a; x41; x48; x44; x32; x21].
(** "QCKP" and a zero byte *)
Definition checkpointSealMagic : bytes := [x51; x43; x4b; x50; x00].

Definition extentHeaderSize : nat := 144.
Definition headHeaderSize : nat := 128.
Definition archiveCRCSize : nat := 4.
Definition maxExtentSize : Z := Z.shiftl 8 20.
Definition maxExtentItems : Z := 1024.
Definition maxExtentPayload : Z := maxExtentSize - Z.of_nat extentHeaderSize - Z.of_nat archiveCRCSize - 8.
Definition maxArchiveHeadSize : Z := Z.of_nat headHeaderSize + 16 + maxExtentPayload + 32 + Z.of_nat archiveCRCSize.
Definition maxSlot : Z := 2 ^ 64 - 1.

Section codec.
Context (sha256 : bytes → bytes) (validateValue : option (bytes → bool)) (unmarshal : bytes → option CheckpointSeal).

Abbreviation AdvancePrefixHash := (Node.AdvancePrefixHash sha256).

(** ** Extents *)

Definition archiveDecisionSize (d : archived) : Z := 8 + len (aValue d) + len (aCertificate d).

(** [validateArchivePayloadWithValueValidator] *)
Definition payload_valid (validate : option (bytes → bool)) (value certificate : bytes) : bool :=
  let limit := match validate with Some _ => Z.shiftl 256 10 | None => MaxReplicatedValueBytes end in
  negb (len value =? 0) && (len value <=? limit) && negb (len certificate =? 0) && (len value <=? maxExtentPayload) &&
  (len certificate <=? maxExtentPayload - len value) && match validate with Some f => f value | None => true end.

(** The loop of the encoder over the decisions: their size and the prefix hash
    behind them. *)
Fixpoint encode_checks (slot size : Z) (prefix : bytes) (l : list archived) : option (Z * bytes) :=
  match l with
  | [] => Some (size, prefix)
  | d :: l' =>
      if negb (aSlot d =? slot) || negb (payload_valid validateValue (aValue d) (aCertificate d)) || negb (bool_decide (sha256 (aValue d) = aHash d)) then None
      else if maxExtentSize - size <? archiveDecisionSize d then None
      else encode_checks (slot + 1) (size + archiveDecisionSize d) (AdvancePrefixHash prefix (aSlot d) (aHash d)) l'
  end.

Definition extent_header (e : Extent) (size : Z) : list bytes :=
  [extentMagic; be_encode 4 size; be_encode 4 0; be_encode 8 (xConfigID e); be_encode 8 (xStart e); be_encode 4 (len (Decisions e)); be_encode 4 0;
   StartPrefix e; EndPrefix e; PreviousHash e; be_encode 8 (PreviousObject e)].

Definition encode_decision (d : archived) : bytes :=
  be_encode 4 (len (aValue d)) ++ be_encode 4 (len (aCertificate d)) ++ aValue d ++ aCertificate d.

Definition checksummed (body : bytes) : bytes := body ++ be_encode 4 (crc_checksum body).

Definition encodeExtent (e : Extent) : option bytes :=
  let count := len (Decisions e) in
  if (xStart e =? 0) || (count =? 0) || (maxSlot - (count - 1) <? xStart e) || negb (xEnd e =? xStart e + count - 1) then None
  else
    match encode_checks (xStart e) (Z.of_nat extentHeaderSize + Z.of_nat archiveCRCSize) (StartPrefix e) (Decisions e) with
    | Some (size, prefix) =>
        if (maxExtentSize <? size) || (maxExtentItems <? count) || negb (bool_decide (prefix = EndPrefix e)) then None
        else Some (checksummed (concat (extent_header e size) ++ concat (map encode_decision (Decisions e))))
    | None => None
    end.

Fixpoint decode_decisions (count : nat) (slot : Z) (data : bytes) : option (list archived * bytes) :=
  match count with
  | O => Some ([], data)
  | S n =>
      if len data <? 8 then None
      else
        let valueLen := be_decode (slice 0 4 data) in
        let certificateLen := be_decode (slice 4 8 data) in
        let rest := drop 8 data in
        if (valueLen =? 0) || (certificateLen =? 0) || (maxExtentPayload <? valueLen) || (maxExtentPayload - valueLen <? certificateLen) ||
           (len rest <? valueLen) || (len rest - valueLen <? certificateLen) then None
        else
          let value := take (Z.to_nat valueLen) rest in
          let rest' := drop (Z.to_nat valueLen) rest in
          let certificate := take (Z.to_nat certificateLen) rest' in
          if negb (payload_valid validateValue value certificate) then None
          else
            match decode_decisions n (slot + 1) (drop (Z.to_nat certificateLen) rest') with
            | Some (l, rest'') => Some (mkArchived slot (sha256 value) value certificate :: l, rest'')
            | None => None
            end
  end.

(** All bytes but the checksum, which must match. *)
Definition unchecksummed (data : bytes) : option bytes :=
  let body := take (length data - archiveCRCSize) data in
  if crc_checksum body =? be_decode (drop (length data - archiveCRCSize) data) then Some body else None.

Definition decodeExtent (data : bytes) : option Extent :=
  if (len data <? Z.of_nat (extentHeaderSize + archiveCRCSize)) || (maxExtentSize <? len data) || negb (bool_decide (slice 0 8 data = extentMagic)) ||
     negb (be_decode (slice 8 12 data) =? len data) || negb (be_decode (slice 12 16 data) =? 0) || negb (be_decode (slice 36 40 data) =? 0) then None
  else
    match unchecksummed data with
    | None => None
    | Some body =>
        let start := be_decode (slice 24 32 data) in
        let count := be_decode (slice 32 36 data) in
        if (start =? 0) || (count =? 0) || (maxExtentItems <? count) || (maxSlot - (count - 1) <? start) then None
        else
          match decode_decisions (Z.to_nat count) start (drop extentHeaderSize body) with
          | Some (l, []) =>
              Some (mkExtent (be_decode (slice 16 24 data)) start (start + count - 1) (slice 40 72 data) (slice 72 104 data) (slice 104 136 data)
                (be_decode (slice 136 144 data)) l)
          | _ => None
          end
    end.

(** ** Checkpoint seals (pkg/quepaxa/types.go) *)

Definition DecodeCheckpointSeal (value : bytes) : option CheckpointSeal :=
  if HasPrefix value checkpointSealMagic then
    match unmarshal (drop (length checkpointSealMagic) value) with
    | Some seal =>
        if (MaxReplicatedValueBytes <? len value) || (sealIndex seal =? 0) || bool_decide (sealRootHash seal = zeroHash) ||
           bool_decide (sealStateHash seal = zeroHash) || bool_decide (sealPrefixHash seal = zeroHash) || bool_decide (NextLeaderOrder seal = []) then None
        else Some seal
    | None => None
    end
  else None.

(** ** The head *)

Definition encodeBaseDecision (d : archived) : option bytes :=
  if payload_valid None (aValue d) (aCertificate d) && bool_decide (sha256 (aValue d) = aHash d) then
    Some (be_encode 8 (aSlot d) ++ be_encode 4 (len (aValue d)) ++ be_encode 4 (len (aCertificate d)) ++ aValue d ++ aCertificate d)
  else None.

Definition decodeBaseDecision (data : bytes) : option archived :=
  if len data <? 16 then None
  else
    let valueLen := be_decode (slice 8 12 data) in
    let certificateLen := be_decode (slice 12 16 data) in
    if (valueLen =? 0) || (certificateLen =? 0) || (MaxReplicatedValueBytes <? valueLen) || (maxExtentPayload <? valueLen) ||
       (maxExtentPayload - valueLen <? certificateLen) || (len data - 16 <? valueLen) || negb (certificateLen =? len data - 16 - valueLen) then None
    else
      let value := take (Z.to_nat valueLen) (drop 16 data) in
      Some (mkArchived (be_decode (slice 0 8 data)) (sha256 value) value (drop (Z.to_nat valueLen) (drop 16 data))).

Definition headHasBase : Z := 1.
Definition headSealed : Z := 2.
Definition headHasAnchor : Z := 4.

Definition head_range (h : archiveHead) : bool :=
  (hBase h <=? hTip h) && Bool.eqb (hBase h <? hTip h) (negb (bool_decide (TailHash h = zeroHash))) &&
  Bool.eqb (bool_decide (TailHash h = zeroHash)) (TailObject h =? 0) && (TailObject h <=? hGeneration h).

(** The payload of the base and its flag. *)
Definition encode_base (h : archiveHead) : option (bytes * Z) :=
  if hBase h =? 0 then
    match BaseSeal h, BaseDecision h, BaseAnchor h with
    | None, None, None => if bool_decide (BasePrefix h = zeroHash) then Some ([], 0) else None
    | _, _, _ => None
    end
  else
    match BaseAnchor h with
    | Some anchor =>
        match BaseSeal h, BaseDecision h with
        | None, None => if bool_decide (anchor = zeroHash) then None else Some (anchor, headHasAnchor)
        | _, _ => None
        end
    | None =>
        match BaseSeal h, BaseDecision h with
        | Some seal, Some d =>
            if negb (sealIndex seal =? hBase h) || negb (bool_decide (sealPrefixHash seal = BasePrefix h)) then None
            else
              match encodeBaseDecision d with
              | Some data => if bool_decide (DecodeCheckpointSeal (aValue d) = Some seal) then Some (data, headHasBase) else None
              | None => None
              end
        | _, _ => None
        end
    end.

Definition encode_lineage (h : archiveHead) : option (bytes * Z) :=
  match LineageAnchor h with
  | None => Some ([], 0)
  | Some lineage =>
      match BaseAnchor h with
      | Some anchor => if bool_decide (lineage = zeroHash) || negb (bool_decide (lineage = anchor)) then None else Some ([], 0)
      | None => if bool_decide (lineage = zeroHash) then None else Some (lineage, headHasAnchor)
      end
  end.

Definition head_header (h : archiveHead) (size flags payload : Z) : list bytes :=
  [headMagic; be_encode 4 size; be_encode 4 flags; be_encode 8 (hConfigID h); be_encode 8 (hGeneration h); be_encode 8 (hBase h); BasePrefix h;
   be_encode 8 (hTip h); TailHash h; be_encode 8 (TailObject h); be_encode 4 0; be_encode 4 payload].

Definition encodeHead (h : archiveHead) : option bytes :=
  if negb (head_range h) || ((hTip h =? hBase h) && negb (hBase h =? 0) && bool_decide (BasePrefix h = zeroHash)) then None
  else
    match encode_base h, encode_lineage h with
    | Some (base, baseFlag), Some (lineage, lineageFlag) =>
        let flags := Z.lor (Z.lor (if hSealed h then headSealed else 0) baseFlag) lineageFlag in
        let payload := base ++ lineage in
        let size := Z.of_nat headHeaderSize + len payload + Z.of_nat archiveCRCSize in
        if maxArchiveHeadSize <? size then None
        else Some (checksummed (concat (head_header h size flags (len payload)) ++ payload))
    | _, _ => None
    end.

(** The base of a decoded head: seal, decision, anchor and lineage. *)
Definition decode_base (flags base : Z) (prefix payload : bytes) : option (option CheckpointSeal * option archived * option bytes * option bytes) :=
  let hasBase := Z.testbit flags 0 in
  let hasAnchor := Z.testbit flags 2 in
  if negb hasBase && negb hasAnchor then
    if negb (base =? 0) || negb (len payload =? 0) || negb (bool_decide (prefix = zeroHash)) then None else Some (None, None, None, None)
  else if hasAnchor && negb hasBase then
    if (base =? 0) || bool_decide (prefix = zeroHash) || negb (len payload =? 32) then None else Some (None, None, Some payload, Some payload)
  else if (base =? 0) || bool_decide (prefix = zeroHash) || (len payload =? 0) then None
  else if hasAnchor && (len payload <=? 32) then None
  else
    let n := if hasAnchor then (length payload - 32)%nat else length payload in
    match decodeBaseDecision (take n payload) with
    | None => None
    | Some d =>
        match DecodeCheckpointSeal (aValue d) with
        | None => None
        | Some seal =>
            if negb (sealIndex seal =? base) || negb (bool_decide (sealPrefixHash seal = prefix)) then None
            else Some (Some seal, Some d, None, if hasAnchor then Some (drop n payload) else None)
        end
    end.

Definition decodeHead (data : bytes) : option archiveHead :=
  if (len data <? Z.of_nat (headHeaderSize + archiveCRCSize)) || (maxArchiveHeadSize <? len data) || negb (bool_decide (slice 0 8 data = headMagic)) ||
     negb (be_decode (slice 8 12 data) =? len data) then None
  else
    let flags := be_decode (slice 12 16 data) in
    if negb (Z.ldiff flags 7 =? 0) then None
    else
      match unchecksummed data with
      | None => None
      | Some body =>
          let payload := drop headHeaderSize body in
          if negb (be_decode (slice 120 124 data) =? 0) || negb (be_decode (slice 124 128 data) =? len payload) then None
          else
            let base := be_decode (slice 32 40 data) in
            match decode_base flags base (slice 40 72 data) payload with
            | None => None
            | Some (seal, decision, anchor, lineage) =>
                let h := mkHead (be_decode (slice 16 24 data)) (be_decode (slice 24 32 data)) base (slice 40 72 data) seal decision anchor lineage
                  (be_decode (slice 72 80 data)) (slice 80 112 data) (be_decode (slice 112 120 data)) (Z.testbit flags 1) in
                if head_range h then Some h else None
            end
      end.
End codec.
