(* ===== verification/ArchiveCodecProofs.v ===== *)
(** * The archive formats round-trip

    Decoding what was encoded returns it; an extent that decodes and whose
    prefix hashes agree is encoded by exactly the bytes read. *)

From stdpp Require Import gmap list.
From S2P Require Import Prelude Bytes Protocol Schedule Node ArchiveCodec.

(** ** Fields *)

Lemma slice_field (fs : list bytes) (rest : bytes) i x a b :
  fs !! i = Some x → length (concat (take i fs)) = a → b = (a + length x)%nat → slice a b (concat fs ++ rest) = x.
Proof.
  intros Hi Ha ->. rewrite <-(take_drop_middle fs i x Hi), concat_app. cbn [concat]. rewrite <-!app_assoc.
  apply slice_app_at; [done|lia].
Qed.

Lemma slice_front b (y z : bytes) : length y = b → slice 0 b (y ++ z) = y.
Proof. intros H. apply (slice_app_at 0 b []); [done|lia]. Qed.

Lemma be_len n z : len (be_encode n z) = Z.of_nat n.
Proof. unfold len. by rewrite be_encode_length. Qed.

Lemma take_len (x y : bytes) : take (Z.to_nat (len x)) (x ++ y) = x.
Proof. unfold len. rewrite Nat2Z.id. apply take_app_length. Qed.

Lemma drop_len (x y : bytes) : drop (Z.to_nat (len x)) (x ++ y) = y.
Proof. unfold len. rewrite Nat2Z.id. apply drop_app_length. Qed.

Lemma unchecksummed_checksummed body : unchecksummed (checksummed body) = Some body.
Proof.
  unfold unchecksummed, checksummed. rewrite length_app, be_encode_length.
  replace (length body + 4 - archiveCRCSize)%nat with (length body) by (unfold archiveCRCSize; lia).
  rewrite take_app_length, drop_app_length, be_decode_encode, Z.eqb_refl by apply crc_checksum_range. done.
Qed.

Lemma checksummed_unchecksummed data body :
  (archiveCRCSize <= length data)%nat → unchecksummed data = Some body → data = checksummed body ∧ length data = (length body + 4)%nat.
Proof.
  unfold unchecksummed, checksummed, archiveCRCSize. intros Hl. destruct (Z.eqb_spec (crc_checksum (take (length data - 4) data)) (be_decode (drop (length data - 4) data))) as [E|]; [|done].
  intros [= <-]. rewrite length_take. split; [|lia]. rewrite E. rewrite <-(take_drop (length data - 4) data) at 1. f_equal.
  rewrite <-(be_encode_decode (drop _ data)) at 1. f_equal. rewrite length_drop. lia.
Qed.

Lemma be_slice a b n data : (b <= length data)%nat → n = (b - a)%nat → be_encode n (be_decode (slice a b data)) = slice a b data.
Proof. intros H ->. rewrite <-(slice_length a b data) by lia. apply be_encode_decode. Qed.

Lemma be_slice_range a b data : (a <= b <= length data)%nat → 0 <= be_decode (slice a b data) < 2 ^ (8 * Z.of_nat (b - a)).
Proof. intros H. rewrite <-(slice_length a b data) by lia. apply be_decode_range. Qed.

Section proofs.
Context (sha256 : bytes → bytes) (validateValue : option (bytes → bool)) (unmarshal : bytes → option CheckpointSeal).

Abbreviation encodeExtent := (ArchiveCodec.encodeExtent sha256 validateValue).
Abbreviation decodeExtent := (ArchiveCodec.decodeExtent sha256 validateValue).
Abbreviation encode_checks := (ArchiveCodec.encode_checks sha256 validateValue).
Abbreviation decode_decisions := (ArchiveCodec.decode_decisions sha256 validateValue).

(** The prefix hash behind a list of decisions. *)
Definition prefix_after (prefix : bytes) (l : list archived) : bytes := foldl (λ p d, AdvancePrefixHash sha256 p (aSlot d) (aHash d)) prefix l.

(** What fits the fixed-width fields. *)
Definition wf_extent (e : Extent) : Prop :=
  0 <= xConfigID e < 2 ^ 64 ∧ 0 <= xStart e ∧ length (StartPrefix e) = 32%nat ∧ length (EndPrefix e) = 32%nat ∧ length (PreviousHash e) = 32%nat ∧
  0 <= PreviousObject e < 2 ^ 64.

(** A decision the encoder accepts at a slot. *)
Definition decision_valid (slot : Z) (d : archived) : Prop :=
  aSlot d = slot ∧ payload_valid validateValue (aValue d) (aCertificate d) = true ∧ sha256 (aValue d) = aHash d.

Fixpoint decisions_valid (slot : Z) (l : list archived) : Prop :=
  match l with [] => True | d :: l' => decision_valid slot d ∧ decisions_valid (slot + 1) l' end.

Lemma payload_lengths validate value certificate :
  payload_valid validate value certificate = true →
  0 < len value <= maxExtentPayload ∧ 0 < len certificate <= maxExtentPayload - len value.
Proof.
  unfold payload_valid. intros H. repeat (apply andb_true_iff in H as [H ?]). pose proof (len_nonneg value). pose proof (len_nonneg certificate).
  rewrite !negb_true_iff, !Z.eqb_neq, !Z.leb_le in *. lia.
Qed.

Lemma encode_checks_Some slot size prefix l r :
  encode_checks slot size prefix l = Some r →
  decisions_valid slot l ∧ r = (size + total archiveDecisionSize l, prefix_after prefix l) ∧ (size <= maxExtentSize → size + total archiveDecisionSize l <= maxExtentSize).
Proof.
  revert slot size prefix. induction l as [|d l IH]; intros slot size prefix; cbn [ArchiveCodec.encode_checks].
  - intros [= <-]. split_and!; [done| |]; cbn; [f_equal; lia|lia].
  - destruct (_ || _) eqn:E; [done|]. destruct (Z.ltb_spec (maxExtentSize - size) (archiveDecisionSize d)); [done|]. intros (Hl & -> & Hs)%IH.
    apply orb_false_iff in E as [[E1 E2]%orb_false_iff E3]. rewrite negb_false_iff in *. apply Z.eqb_eq in E1. apply bool_decide_eq_true in E3.
    change (total archiveDecisionSize (d :: l)) with (archiveDecisionSize d + total archiveDecisionSize l). split_and!; [by split| |lia].
    f_equal. lia.
Qed.

Lemma encode_checks_valid slot size prefix l :
  decisions_valid slot l → size + total archiveDecisionSize l <= maxExtentSize →
  encode_checks slot size prefix l = Some (size + total archiveDecisionSize l, prefix_after prefix l).
Proof.
  revert slot size prefix. induction l as [|d l IH]; intros slot size prefix; cbn [ArchiveCodec.encode_checks decisions_valid]; [intros _ _; cbn; do 2 f_equal; lia|].
  change (total archiveDecisionSize (d :: l)) with (archiveDecisionSize d + total archiveDecisionSize l). intros [(E1 & E2 & E3) Hl] Hs.
  assert (0 <= total archiveDecisionSize l).
  { apply total_nonneg. intros x. unfold archiveDecisionSize. pose proof (len_nonneg (aValue x)). pose proof (len_nonneg (aCertificate x)). lia. }
  rewrite E1, Z.eqb_refl, E2, bool_decide_true by done. cbn [negb orb]. destruct (Z.ltb_spec (maxExtentSize - size) (archiveDecisionSize d)); [lia|].
  rewrite IH by (done || lia). cbn [prefix_after foldl]. rewrite <-E1. f_equal. f_equal. lia.
Qed.

Lemma encode_decision_length d : len (encode_decision d) = archiveDecisionSize d.
Proof. unfold encode_decision, archiveDecisionSize. rewrite !len_app. unfold len. rewrite !be_encode_length. lia. Qed.

Lemma encode_decisions_length l : len (concat (map encode_decision l)) = total archiveDecisionSize l.
Proof.
  induction l as [|d l IH]; [done|]. cbn [map concat]. rewrite len_app, IH, encode_decision_length. done.
Qed.

Lemma decode_decisions_encode slot l rest :
  decisions_valid slot l → decode_decisions (length l) slot (concat (map encode_decision l) ++ rest) = Some (l, rest).
Proof.
  revert slot. induction l as [|d l IH]; intros slot; cbn [decisions_valid ArchiveCodec.decode_decisions length map concat]; [done|].
  intros [(E1 & E2 & E3) Hl]. destruct (payload_lengths _ _ _ E2) as [Hv Hc]. assert (maxExtentPayload < 2 ^ 32) as Hm by done.
  rewrite <-(app_assoc (encode_decision d)). generalize (IH _ Hl). generalize (concat (map encode_decision l) ++ rest). clear IH. intros body IH.
  unfold encode_decision. rewrite <-!app_assoc.
  rewrite (slice_front 4) by (by rewrite be_encode_length). rewrite be_decode_encode by lia.
  rewrite (slice_app_at 4 8) by (by rewrite be_encode_length). rewrite be_decode_encode by lia.
  assert (drop 8 (be_encode 4 (len (aValue d)) ++ be_encode 4 (len (aCertificate d)) ++ aValue d ++ aCertificate d ++ body) = aValue d ++ aCertificate d ++ body) as ->.
  { rewrite app_assoc. apply drop_app_length'. by rewrite length_app, !be_encode_length. }
  rewrite !len_app, !be_len. pose proof (len_nonneg body).
  repeat match goal with |- context [?a <? ?b] => destruct (Z.ltb_spec a b); [lia|] end.
  repeat match goal with |- context [?a =? ?b] => destruct (Z.eqb_spec a b); [lia|] end. cbn [orb].
  rewrite (take_len (aValue d)), (drop_len (aValue d)), (take_len (aCertificate d)), (drop_len (aCertificate d)), E2. cbn [negb].
  rewrite IH, E3. subst slot. by destruct d.
Qed.

Lemma encode_decision_parts data v c :
  8 <= len data → v = be_decode (slice 0 4 data) → c = be_decode (slice 4 8 data) → v <= len (drop 8 data) → c <= len (drop 8 data) - v →
  let value := take (Z.to_nat v) (drop 8 data) in
  let rest := drop (Z.to_nat v) (drop 8 data) in
  let certificate := take (Z.to_nat c) rest in
  len value = v ∧ len certificate = c ∧
  data = (be_encode 4 (len value) ++ be_encode 4 (len certificate) ++ value ++ certificate) ++ drop (Z.to_nat c) rest.
Proof.
  intros H8 -> -> Hv Hc value rest certificate. unfold len in H8. pose proof (be_slice_range 0 4 data ltac:(lia)). pose proof (be_slice_range 4 8 data ltac:(lia)).
  assert (len value = be_decode (slice 0 4 data)) as Ev. { unfold value, len in *. rewrite length_take. lia. }
  assert (len certificate = be_decode (slice 4 8 data)) as Ec. { unfold certificate, rest, len in *. rewrite length_take, length_drop. lia. }
  split_and!; [done|done|]. rewrite Ev, Ec, (be_slice 0 4), (be_slice 4 8) by lia. rewrite <-!app_assoc. unfold certificate. rewrite take_drop. unfold value, rest. rewrite take_drop.
  rewrite app_assoc. replace (slice 0 4 data ++ slice 4 8 data) with (take 8 data); [by rewrite take_drop|]. rewrite (take_slice 4 8), (take_slice 0 4) by lia. done.
Qed.

Lemma decode_decisions_Some n slot data l rest :
  decode_decisions n slot data = Some (l, rest) → data = concat (map encode_decision l) ++ rest ∧ length l = n ∧ decisions_valid slot l.
Proof.
  revert slot data l. induction n as [|n IH]; intros slot data l; cbn [ArchiveCodec.decode_decisions]; [by intros [= <- <-]|].
  destruct (Z.ltb_spec (len data) 8); [done|]. destruct (_ || _) eqn:E; [done|]. repeat (apply orb_false_iff in E as [E ?]). rewrite !Z.ltb_ge in *.
  destruct (payload_valid _ _ _) eqn:Ep; [|done]. cbn [negb]. destruct (ArchiveCodec.decode_decisions _ _ n _ _) as [[l' r]|] eqn:Er; [|done]. intros [= <- <-].
  destruct (encode_decision_parts data _ _ ltac:(done) eq_refl eq_refl ltac:(lia) ltac:(lia)) as (Ev & Ec & Ed). destruct (IH _ _ _ Er) as (E1 & E2 & E3).
  split_and!; [|by rewrite <-E2|by split]. rewrite Ed at 1. cbn [map concat]. unfold encode_decision at 1. cbn [aValue aCertificate]. rewrite <-!app_assoc. do 4 f_equal. exact E1.
Qed.

(** ** Extents *)

Lemma extent_header_length e size : wf_extent e → length (concat (extent_header e size)) = extentHeaderSize.
Proof.
  intros (_ & _ & H1 & H2 & H3 & _). unfold extent_header. cbn [concat]. rewrite !length_app, !be_encode_length, H1, H2, H3. done.
Qed.

(** Reads a field of an encoded header. *)
Ltac field_size := first [reflexivity | unfold extent_header, head_header; cbn [take concat]; rewrite ?length_app, ?be_encode_length; cbn [extentMagic headMagic length]; lia].
Ltac field i a b := erewrite (slice_field _ _ i _ a b); [|reflexivity|field_size|field_size].

Lemma extent_roundtrip e data : wf_extent e → encodeExtent e = Some data → decodeExtent data = Some e.
Proof.
  intros Hwf. pose proof Hwf as (Hc & Hs & H1 & H2 & H3 & Ho). unfold ArchiveCodec.encodeExtent. cbv zeta. destruct (_ || _) eqn:E; [done|]. bool_hyps.
  destruct (ArchiveCodec.encode_checks _ _ _ _ _ _) as [[size prefix]|] eqn:Ec; [|done]. apply encode_checks_Some in Ec as (Hd & E' & _). apply (inj2 pair) in E' as [Es ->].
  destruct (_ || _) eqn:E'; [done|]. bool_hyps. intros Ed. apply (inj Some) in Ed as <-. pose proof (extent_header_length e size Hwf) as Hh.
  assert (maxExtentSize < 2 ^ 32 ∧ maxSlot < 2 ^ 64 ∧ maxExtentItems < 2 ^ 32) as (? & ? & ?) by done.
  set (header := concat (extent_header e size)) in *. set (decisions := concat (map encode_decision (Decisions e))).
  assert (len (checksummed (header ++ decisions)) = size) as Hl.
  { unfold checksummed. rewrite !len_app, be_len. unfold decisions. rewrite encode_decisions_length. unfold len. rewrite Hh, Es. unfold archiveCRCSize. lia. }
  unfold ArchiveCodec.decodeExtent. rewrite unchecksummed_checksummed, Hl. assert (0 <= total archiveDecisionSize (Decisions e)).
  { unfold decisions. rewrite <-encode_decisions_length. apply len_nonneg. }
  unfold checksummed. rewrite <-app_assoc. unfold header. field 0%nat 0%nat 8%nat. field 1%nat 8%nat 12%nat. field 2%nat 12%nat 16%nat. field 6%nat 36%nat 40%nat. field 4%nat 24%nat 32%nat. field 5%nat 32%nat 36%nat. field 3%nat 16%nat 24%nat. field 7%nat 40%nat 72%nat. field 8%nat 72%nat 104%nat. field 9%nat 104%nat 136%nat. field 10%nat 136%nat 144%nat.
  pose proof (len_nonneg (Decisions e)). rewrite !be_decode_encode by lia. rewrite bool_decide_true by done.
  destruct (Z.ltb_spec size (Z.of_nat (extentHeaderSize + archiveCRCSize))); [lia|]. destruct (Z.ltb_spec maxExtentSize size); [lia|]. rewrite !Z.eqb_refl. cbn [negb orb].
  destruct (Z.eqb_spec (xStart e) 0); [lia|]. destruct (Z.eqb_spec (len (Decisions e)) 0); [lia|]. destruct (Z.ltb_spec maxExtentItems (len (Decisions e))); [lia|].
  destruct (Z.ltb_spec (maxSlot - (len (Decisions e) - 1)) (xStart e)); [lia|]. cbn [orb]. rewrite drop_app_length' by done. unfold len at 1. rewrite Nat2Z.id.
  unfold decisions. rewrite <-(app_nil_r (concat _)), decode_decisions_encode by done. destruct e. cbn in *. by subst.
Qed.

(** What a decoded extent is. *)
Lemma decodeExtent_Some data e :
  decodeExtent data = Some e →
  wf_extent e ∧ decisions_valid (xStart e) (Decisions e) ∧ xEnd e = xStart e + len (Decisions e) - 1 ∧ 1 <= len (Decisions e) <= maxExtentItems ∧
  1 <= xStart e ∧ xEnd e <= maxSlot ∧ len data = Z.of_nat extentHeaderSize + Z.of_nat archiveCRCSize + total archiveDecisionSize (Decisions e) ∧ len data <= maxExtentSize ∧
  data = checksummed (concat (extent_header e (len data)) ++ concat (map encode_decision (Decisions e))).
Proof.
  unfold ArchiveCodec.decodeExtent. destruct (_ || _) eqn:E; [done|]. bool_hyps. destruct (unchecksummed data) as [body|] eqn:Eb; [|done].
  assert (148 <= len data) as Hlen by (unfold extentHeaderSize, archiveCRCSize in *; lia). unfold len in Hlen.
  destruct (_ || _) eqn:E'; [done|]. bool_hyps. destruct (ArchiveCodec.decode_decisions _ _ _ _ _) as [[l [|? ?]]|] eqn:Ed; try done. intros Ee. apply (inj Some) in Ee as <-.
  apply checksummed_unchecksummed in Eb as [Eb Hb]; [|unfold archiveCRCSize; lia]. apply decode_decisions_Some in Ed as (Ed & El & Hv). rewrite app_nil_r in Ed.
  assert (0 <= be_decode (slice 16 24 data) < 2 ^ 64) by (apply (be_slice_range 16 24); lia).
  assert (0 <= be_decode (slice 24 32 data) < 2 ^ 64) by (apply (be_slice_range 24 32); lia).
  assert (0 <= be_decode (slice 32 36 data) < 2 ^ 32) by (apply (be_slice_range 32 36); lia).
  assert (0 <= be_decode (slice 136 144 data) < 2 ^ 64) by (apply (be_slice_range 136 144); lia). assert (len l = be_decode (slice 32 36 data)) as Hl by (unfold len; lia).
  assert (extentHeaderSize <= length body)%nat as Hbody by (unfold extentHeaderSize; lia).
  assert (len data = Z.of_nat extentHeaderSize + Z.of_nat archiveCRCSize + total archiveDecisionSize l) as Hsize.
  { rewrite <-encode_decisions_length, <-Ed. unfold len. rewrite Hb, length_drop. unfold archiveCRCSize. lia. }
  unfold wf_extent. cbn [xConfigID xStart xEnd StartPrefix EndPrefix PreviousHash PreviousObject Decisions]. rewrite !slice_length, Hl by lia.
  split; [split_and!; lia|]. split_and!; try done; try lia. rewrite Eb at 1. f_equal. rewrite <-Ed, <-(take_drop extentHeaderSize body) at 1. f_equal.
  assert (take extentHeaderSize body = take extentHeaderSize data) as ->.
  { rewrite Eb. unfold checksummed. by rewrite take_app_le. }
  unfold extent_header. cbn [concat xConfigID xStart xEnd StartPrefix EndPrefix PreviousHash PreviousObject Decisions].
  assert (slice 0 8 data = extentMagic) as <- by done. assert (be_decode (slice 8 12 data) = len data) as <- by done.
  assert (be_decode (slice 12 16 data) = 0) as E1 by done. assert (be_decode (slice 36 40 data) = 0) as E2 by done.
  rewrite <-E1 at 1. rewrite <-E2, Hl, (be_slice 8 12), (be_slice 12 16), (be_slice 16 24), (be_slice 24 32), (be_slice 32 36), (be_slice 36 40), (be_slice 136 144), app_nil_r by lia.
  unfold extentHeaderSize. rewrite (take_slice 136 144 data), (take_slice 104 136 data), (take_slice 72 104 data), (take_slice 40 72 data), (take_slice 36 40 data), (take_slice 32 36 data), (take_slice 24 32 data), (take_slice 16 24 data), (take_slice 12 16 data), (take_slice 8 12 data), (take_slice 0 8 data) by lia.
  rewrite take_0. by rewrite <-!app_assoc.
Qed.

(** ** The head *)

(** What fits the fields of a head, and what the writers of heads keep: a plain
    head has no lineage, an anchored one is its own lineage. *)
Definition wf_head (h : archiveHead) : Prop :=
  0 <= hConfigID h < 2 ^ 64 ∧ 0 <= hGeneration h < 2 ^ 64 ∧ 0 <= hBase h ∧ hTip h < 2 ^ 64 ∧ length (BasePrefix h) = 32%nat ∧ length (TailHash h) = 32%nat ∧
  0 <= TailObject h ∧ (hBase h = 0 → LineageAnchor h = None) ∧ (hBase h ≠ 0 → BasePrefix h ≠ zeroHash) ∧
  (∀ a, BaseAnchor h = Some a → LineageAnchor h = Some a ∧ length a = 32%nat) ∧ (∀ a, LineageAnchor h = Some a → length a = 32%nat) ∧
  (∀ d, BaseDecision h = Some d → 0 <= aSlot d < 2 ^ 64).

Lemma base_decision_roundtrip d data : 0 <= aSlot d < 2 ^ 64 → encodeBaseDecision sha256 d = Some data → decodeBaseDecision sha256 data = Some d ∧ 16 < len data.
Proof.
  intros Hs. unfold encodeBaseDecision. destruct (_ && _) eqn:E; [|done]. apply andb_true_iff in E as [Hp Eh%bool_decide_eq_true]. intros Ed. apply (inj Some) in Ed as <-.
  pose proof (payload_lengths _ _ _ Hp) as [Hv Hc]. assert (len (aValue d) <= MaxReplicatedValueBytes) as Hr by (unfold payload_valid in Hp; bool_hyps; lia).
  assert (maxExtentPayload < 2 ^ 32) by done. unfold decodeBaseDecision. rewrite !len_app, !be_len.
  rewrite (slice_app_at 8 12) by (by rewrite be_encode_length). rewrite (slice_front 8) by (by rewrite be_encode_length).
  assert (slice 12 16 (be_encode 8 (aSlot d) ++ be_encode 4 (len (aValue d)) ++ be_encode 4 (len (aCertificate d)) ++ aValue d ++ aCertificate d) = be_encode 4 (len (aCertificate d))) as ->.
  { rewrite app_assoc. apply slice_app_at; [by rewrite length_app, !be_encode_length|by rewrite be_encode_length]. }
  assert (drop 16 (be_encode 8 (aSlot d) ++ be_encode 4 (len (aValue d)) ++ be_encode 4 (len (aCertificate d)) ++ aValue d ++ aCertificate d) = aValue d ++ aCertificate d) as ->.
  { rewrite !app_assoc, <-(app_assoc _ (aValue d)). apply drop_app_length'. by rewrite !length_app, !be_encode_length. }
  rewrite !be_decode_encode by lia. split; [|lia].
  repeat match goal with |- context [?a <? ?b] => destruct (Z.ltb_spec a b); [lia|] end.
  repeat match goal with |- context [?a =? 0] => destruct (Z.eqb_spec a 0); [lia|] end. rewrite (proj2 (Z.eqb_eq (len (aCertificate d)) _)) by lia. cbn [orb negb]. rewrite take_len, drop_len, Eh. by destruct d.
Qed.

Definition head_flags (h : archiveHead) (baseFlag lineageFlag : Z) : Z := Z.lor (Z.lor (if hSealed h then headSealed else 0) baseFlag) lineageFlag.

Lemma base_roundtrip h base bf lineage lf :
  wf_head h → encode_base sha256 unmarshal h = Some (base, bf) → encode_lineage h = Some (lineage, lf) →
  decode_base sha256 unmarshal (head_flags h bf lf) (hBase h) (BasePrefix h) (base ++ lineage) = Some (BaseSeal h, BaseDecision h, BaseAnchor h, LineageAnchor h) ∧
  Z.testbit (head_flags h bf lf) 1 = hSealed h ∧ Z.ldiff (head_flags h bf lf) 7 = 0 ∧ 0 <= head_flags h bf lf < 8.
Proof.
  intros (_ & _ & _ & _ & _ & _ & _ & H0 & Hp & Ha & Hl & Hd). unfold encode_base, encode_lineage, head_flags. destruct (Z.eqb_spec (hBase h) 0) as [E0|E0].
  - rewrite (H0 E0), E0. destruct (BaseSeal h), (BaseDecision h), (BaseAnchor h); try done. case_bool_decide as Ez; [|done]. intros [= <- <-] [= <- <-].
    unfold decode_base. rewrite Ez. destruct (hSealed h); vm_compute; done.
  - specialize (Hp E0). destruct (BaseAnchor h) as [a|] eqn:Ea.
    + destruct (Ha a eq_refl) as [-> H32]. destruct (BaseSeal h), (BaseDecision h); try done. case_bool_decide; [done|]. intros [= <- <-].
      rewrite (bool_decide_true (a = a)) by done. cbn [orb negb]. intros [= <- <-]. rewrite app_nil_r. unfold decode_base. unfold len. rewrite H32, (bool_decide_false (_ = _)) by done.
      destruct (Z.eqb_spec (hBase h) 0); [done|]. destruct (hSealed h); cbn; done.
    + destruct (BaseSeal h) as [seal|], (BaseDecision h) as [d|] eqn:Ed; try done. destruct (_ || _) eqn:E; [done|]. bool_hyps.
      destruct (encodeBaseDecision sha256 d) as [data|] eqn:Edata; [|done]. case_bool_decide as Es; [|done]. intros [= -> <-].
      destruct (base_decision_roundtrip _ _ (Hd d eq_refl) Edata) as [Hdec H16]. intros El.
      destruct (LineageAnchor h) as [a|].
      * case_bool_decide; [done|]. injection El as <- <-. pose proof (Hl a eq_refl) as H32. unfold decode_base. set (flags := Z.lor (Z.lor _ _) _).
        assert (Z.testbit flags 0 = true ∧ Z.testbit flags 2 = true ∧ Z.testbit flags 1 = hSealed h ∧ Z.ldiff flags 7 = 0 ∧ 0 <= flags < 8) as (F0 & F2 & ?) by (unfold flags; by destruct (hSealed h)).
        split; [|done]. rewrite F0, F2. cbn [negb andb].
        rewrite (bool_decide_false (BasePrefix h = _)) by done. destruct (Z.eqb_spec (hBase h) 0); [done|]. rewrite len_app. unfold len at 1 2 3 4. rewrite H32. unfold len in H16.
        destruct (Z.eqb_spec (Z.of_nat (length base) + Z.of_nat 32) 0); [lia|]. destruct (Z.leb_spec (Z.of_nat (length base) + Z.of_nat 32) 32); [lia|].
        rewrite length_app, H32. replace (length base + 32 - 32)%nat with (length base) by lia. rewrite take_app_length, drop_app_length, Hdec, Es.
        rewrite (proj2 (Z.eqb_eq (sealIndex seal) _)), bool_decide_true by done. done.
      * injection El as <- <-. rewrite app_nil_r. unfold decode_base. set (flags := Z.lor (Z.lor _ _) _).
        assert (Z.testbit flags 0 = true ∧ Z.testbit flags 2 = false ∧ Z.testbit flags 1 = hSealed h ∧ Z.ldiff flags 7 = 0 ∧ 0 <= flags < 8) as (F0 & F2 & ?) by (unfold flags; by destruct (hSealed h)).
        split; [|done]. rewrite F0, F2. cbn [negb andb].
        rewrite (bool_decide_false (BasePrefix h = _)) by done. destruct (Z.eqb_spec (hBase h) 0); [done|]. destruct (Z.eqb_spec (len base) 0); [lia|].
        cbn [orb]. rewrite firstn_all, Hdec, Es, (proj2 (Z.eqb_eq (sealIndex seal) _)), bool_decide_true by done. done.
Qed.

Lemma head_header_length h size flags payload : length (BasePrefix h) = 32%nat → length (TailHash h) = 32%nat → length (concat (head_header h size flags payload)) = headHeaderSize.
Proof. intros H1 H2. unfold head_header. cbn [concat]. rewrite !length_app, !be_encode_length, H1, H2. done. Qed.

Lemma head_roundtrip h data : wf_head h → encodeHead sha256 unmarshal h = Some data → decodeHead sha256 unmarshal data = Some h.
Proof.
  intros Hwf. pose proof Hwf as (Hc & Hg & Hb & Ht & H1 & H2 & Ho & _). unfold encodeHead. destruct (negb (head_range h) || _) eqn:E; [done|]. apply orb_false_iff in E as [Er _].
  apply negb_false_iff in Er. destruct (encode_base sha256 unmarshal h) as [[base bf]|] eqn:Eb; [|done]. destruct (encode_lineage h) as [[lineage lf]|] eqn:El; [|done]. cbv zeta.
  fold (head_flags h bf lf). destruct (base_roundtrip h base bf lineage lf Hwf Eb El) as (Hbase & Hsealed & Hdiff & Hflags).
  revert Hbase Hsealed Hdiff Hflags. generalize (head_flags h bf lf). intros flags Hbase Hsealed Hdiff Hflags. revert Hbase. generalize (base ++ lineage). clear Eb El. intros payload Hbase.
  set (size := Z.of_nat headHeaderSize + len payload + Z.of_nat archiveCRCSize). destruct (Z.ltb_spec maxArchiveHeadSize size); [done|]. intros Ed. apply (inj Some) in Ed as <-.
  assert (maxArchiveHeadSize < 2 ^ 32) by done. pose proof (len_nonneg payload). pose proof Er as Er'. unfold head_range in Er. bool_hyps. assert (128 <= size) by (unfold size, headHeaderSize; lia).
  assert (len (checksummed (concat (head_header h size flags (len payload)) ++ payload)) = size) as Hl.
  { unfold checksummed. rewrite !len_app, be_len. unfold len at 1. rewrite head_header_length by done. unfold size, archiveCRCSize. lia. }
  unfold decodeHead. rewrite unchecksummed_checksummed, Hl. unfold checksummed. rewrite <-app_assoc.
  field 0%nat 0%nat 8%nat. field 1%nat 8%nat 12%nat. field 2%nat 12%nat 16%nat. field 10%nat 120%nat 124%nat. field 11%nat 124%nat 128%nat. field 5%nat 32%nat 40%nat. field 6%nat 40%nat 72%nat.
  field 3%nat 16%nat 24%nat. field 4%nat 24%nat 32%nat. field 7%nat 72%nat 80%nat. field 8%nat 80%nat 112%nat. field 9%nat 112%nat 120%nat.
  rewrite drop_app_length' by (by rewrite head_header_length). assert (2 ^ 32 < 2 ^ 64) by done. rewrite !be_decode_encode by (unfold size in *; lia). rewrite bool_decide_true by done.
  rewrite !Z.eqb_refl, Hdiff. destruct (Z.ltb_spec size (Z.of_nat (headHeaderSize + archiveCRCSize))); [unfold size in *; lia|]. destruct (Z.ltb_spec maxArchiveHeadSize size); [lia|].
  cbn [negb orb]. rewrite Z.eqb_refl. cbn [negb]. rewrite Hbase, Hsealed. by replace (mkHead _ _ _ _ _ _ _ _ _ _ _ _) with h by (by destruct h); rewrite Er'.
Qed.

Lemma extent_canonical e data :
  decodeExtent data = Some e → prefix_after (StartPrefix e) (Decisions e) = EndPrefix e → encodeExtent e = Some data.
Proof.
  intros (Hwf & Hd & He & Hn & Hs & Hmax & Hl & Hsize & Edata)%decodeExtent_Some Hp. unfold ArchiveCodec.encodeExtent. cbv zeta.
  rewrite encode_checks_valid by (done || lia). rewrite Hp, bool_decide_true by done. rewrite <-Hl, <-Edata.
  repeat match goal with |- context [?a <? ?b] => destruct (Z.ltb_spec a b); [lia|] end. rewrite (proj2 (Z.eqb_eq (xEnd e) _)) by done.
  destruct (Z.eqb_spec (xStart e) 0); [lia|]. destruct (Z.eqb_spec (len (Decisions e)) 0); [lia|]. done.
Qed.

(** C26: the bytes of an extent and the extent determine each other: the encoder
    gives exactly the bytes that decode to the extent, for an extent whose last
    prefix hash follows from its decisions. *)
Theorem extent_codec_exact e data :
  wf_extent e → (encodeExtent e = Some data ↔ decodeExtent data = Some e ∧ prefix_after (StartPrefix e) (Decisions e) = EndPrefix e).
Proof.
  intros Hwf. split; [|intros []; by apply extent_canonical]. intros E. split; [by apply extent_roundtrip|]. unfold ArchiveCodec.encodeExtent in E. cbv zeta in E.
  destruct (_ || _); [done|]. destruct (ArchiveCodec.encode_checks _ _ _ _ _ _) as [[size prefix]|] eqn:Ec; [|done]. apply encode_checks_Some in Ec as (_ & [= _ ->] & _).
  destruct (_ || _) eqn:E'; [done|]. by bool_hyps.
Qed.

(** A head that was encoded decodes to itself: base, seal, anchors, tail, tip and
    flags. *)
Theorem head_codec_roundtrip h data : wf_head h → encodeHead sha256 unmarshal h = Some data → decodeHead sha256 unmarshal data = Some h.
Proof. apply head_roundtrip. Qed.
End proofs.

(** ** Examples *)

Definition sum_hash (l : bytes) : bytes := repeat x00 31 ++ [Zbyte (1 + le_decode l)].
Definition one_decision : archived := mkArchived 5 (sum_hash [x07]) [x07] [x01; x02].
Definition one_extent : Extent :=
  mkExtent 1 5 5 zeroHash (AdvancePrefixHash sum_hash zeroHash 5 (sum_hash [x07])) zeroHash 0 [one_decision].

Definition one_extent_data : bytes := default [] (encodeExtent sum_hash None one_extent).

Lemma extent_codec_exact_witness : encodeExtent sum_hash None one_extent = Some one_extent_data ∧ decodeExtent sum_hash None one_extent_data = Some one_extent.
Proof.
  assert (encodeExtent sum_hash None one_extent = Some one_extent_data) as E by (vm_compute; reflexivity). split; [exact E|].
  assert (wf_extent one_extent) as Hwf by (vm_compute; repeat split; discriminate).
  exact (proj1 (proj1 (extent_codec_exact sum_hash None one_extent one_extent_data Hwf) E)).
Defined.

Definition one_head : archiveHead := mkHead 1 3 4 (repeat x05 32) None None (Some (repeat x06 32)) (Some (repeat x06 32)) 5 (repeat x09 32) 2 true.
Definition one_head_data : bytes := default [] (encodeHead sum_hash (λ _, None) one_head).

Lemma one_head_wf : wf_head one_head.
Proof. unfold wf_head. cbn. split_and!; try done; try lia; intros ? [= <-]; done. Qed.

Lemma head_codec_roundtrip_witness : decodeHead sum_hash (λ _, None) one_head_data = Some one_head.
Proof.
  assert (encodeHead sum_hash (λ _, None) one_head = Some one_head_data) as E by (vm_compute; reflexivity).
  exact (head_codec_roundtrip sum_hash (λ _, None) one_head one_head_data one_head_wf E).
Defined.
