(* ===== verification/Archive.v ===== *)
(** * The archived log on the object store (pkg/recovery/archive.go, seal.go)

    Nodes of a cluster publish decided values as extents, immutable objects
    named by their hash and the generation of the head that first used them.
    A mutable head names the last extent; each extent names its predecessor.
    Heads are replaced by conditional writes.  Trimming moves the base of the
    head behind a certified checkpoint, collection packs small extents and
    deletes objects the head does not reach, sealing ends publication.

    An operation is a program over requests to the store, in the order of the
    code, threading the local state of its manager.  A request can fail with or
    without its effect, processes interleave at requests and can stop for good
    at any of them.  The leases of PUBLISH_LOCK and recovery pins are choices of
    the environment; of GC_LOCK the model keeps the holder.  A manager is used
    by one goroutine, the bucket supports conditional writes, and SyncThrough
    has one caller. *)

From stdpp Require Import gmap list.
From S2P Require Import Prelude Bytes Protocol Schedule Node Programs ArchiveCodec.

(** ** Store *)

Abbreviation objectKey := (bytes * Z)%type.

(** [written] has the data of all uploads of extents so far, [reported] the
    slots for which SyncThrough returned without an error. *)
Record archiveStore := mkArchiveStore {
  clock : Z;
  versions : nat;
  headObject : option (bytes * nat);
  objects : gmap objectKey bytes;
  markers : gmap objectKey Z;
  sealIntent : option bytes;
  gcHolder : option nat;
  written : list bytes;
  reported : list Z;
}.

Definition empty_archive : archiveStore := mkArchiveStore 0 0 None ∅ ∅ None None [] [].

Inductive storeError := NotFound | ConditionNotMet | BrokenPipe | Failed.
Inductive condition := IfNotExists | IfMatch (version : nat).

Inductive request : Type → Type :=
| Now : request Z
| Choice : request bool
| Page (from limit : Z) : request (option (list archived * Z))
| PrefixHash (slot : Z) : request (option bytes)
| SourceTip : request Z
| AttrHead : request (result storeError nat)
| GetHead : request (result storeError bytes)
| WriteHead (data : bytes) (cond : condition) (collecting : bool) : request (result storeError unit)
| GetObject (k : objectKey) : request (result storeError bytes)
| PutObject (k : objectKey) (data : bytes) : request (result storeError unit)
| DeleteObject (k : objectKey) : request (result storeError unit)
| ListObjects : request (result storeError (list objectKey))
| ListMarkers : request (result storeError (list (objectKey * Z)))
| PutMarker (k : objectKey) : request (result storeError unit)
| DeleteMarker (k : objectKey) : request (result storeError unit)
| PutIntent (operationID : bytes) : request (result storeError unit)
| GetIntent : request (result storeError bytes)
| PinnedGeneration : request (result storeError Z)
| LockGC : request bool
| UnlockGC : request unit
| Synced (through : Z) : request unit.

(** What the environment decides of a request. *)
Record oracle := mkOracle {
  fault : option (bool * storeError);
  choice : bool;
  certificates : list bytes;
  amount : Z;
  laterObjects : list objectKey;
}.

Definition met (cond : condition) (version : option nat) : bool :=
  match cond with
  | IfNotExists => bool_decide (version = None)
  | IfMatch v => bool_decide (version = Some v)
  end.

Definition answered {X} (x : option X) : result storeError X := match x with Some y => Ok y | None => Err NotFound end.

Definition faulty {X} (o : oracle) (s : archiveStore) (r : archiveStore * result storeError X) : archiveStore * result storeError X :=
  match fault o with
  | None => r
  | Some (false, e) => (s, Err e)
  | Some (true, e) => (r.1, Err e)
  end.

Definition put_head (data : bytes) (s : archiveStore) : archiveStore :=
  mkArchiveStore (clock s) (S (versions s)) (Some (data, versions s)) (objects s) (markers s) (sealIntent s) (gcHolder s) (written s) (reported s).
Definition set_objects (s : archiveStore) (m : gmap objectKey bytes) : archiveStore :=
  mkArchiveStore (clock s) (versions s) (headObject s) m (markers s) (sealIntent s) (gcHolder s) (written s) (reported s).
Definition set_markers (s : archiveStore) (m : gmap objectKey Z) : archiveStore :=
  mkArchiveStore (clock s) (versions s) (headObject s) (objects s) m (sealIntent s) (gcHolder s) (written s) (reported s).
Definition set_intent (s : archiveStore) (x : option bytes) : archiveStore :=
  mkArchiveStore (clock s) (versions s) (headObject s) (objects s) (markers s) x (gcHolder s) (written s) (reported s).
Definition set_holder (s : archiveStore) (x : option nat) : archiveStore :=
  mkArchiveStore (clock s) (versions s) (headObject s) (objects s) (markers s) (sealIntent s) x (written s) (reported s).
Definition set_written (s : archiveStore) (l : list bytes) : archiveStore :=
  mkArchiveStore (clock s) (versions s) (headObject s) (objects s) (markers s) (sealIntent s) (gcHolder s) l (reported s).
Definition set_reported (s : archiveStore) (l : list Z) : archiveStore :=
  mkArchiveStore (clock s) (versions s) (headObject s) (objects s) (markers s) (sealIntent s) (gcHolder s) (written s) l.
Definition set_time (s : archiveStore) (t : Z) : archiveStore :=
  mkArchiveStore t (versions s) (headObject s) (objects s) (markers s) (sealIntent s) (gcHolder s) (written s) (reported s).

(** ** Managers *)

(** An [Extent] without its decisions, with the name of its object. *)
Record ref := mkRef {
  rConfigID : Z;
  rStart : Z;
  rEnd : Z;
  rStartPrefix : bytes;
  rEndPrefix : bytes;
  rPreviousHash : bytes;
  rPreviousObject : Z;
  rHash : bytes;
  rObject : Z;
}.
#[global] Instance ref_eq_dec : EqDecision ref.
Proof. solve_decision. Defined.

Definition ref_key (r : ref) : objectKey := (rHash r, rObject r).

Definition extentRef (e : Extent) (k : objectKey) : ref :=
  mkRef (xConfigID e) (xStart e) (xEnd e) (StartPrefix e) (EndPrefix e) (PreviousHash e) (PreviousObject e) k.1 k.2.

(** [tip] is the tip of the head. *)
Record manager := mkManager {
  mConfigID : Z;
  mExtents : list ref;
  mHead : archiveHead;
  mHeadCAS : option nat;
  mCache : list (objectKey * Extent);
}.

Definition empty_head (configID : Z) : archiveHead := mkHead configID 0 0 zeroHash None None None None 0 zeroHash 0 false.

Definition NewManager (configID : Z) : manager := mkManager configID [] (empty_head 0) None [].

Inductive archiveError :=
| AStore (e : storeError)
| AInvalid
| ErrArchiveBusy
| ErrActiveRecoveryPin
| ErrArchiveSealed
| ErrArchiveCompacted.

(** An operation of a manager: the manager stays when it fails. *)
Definition action (A : Type) : Type := manager → prog request (manager * result archiveError A).

Definition pure {A} (a : A) : action A := λ m, Ret (m, Ok a).
Definition fail {A} (e : archiveError) : action A := λ m, Ret (m, Err e).
Definition abind {A B} (p : action A) (f : A → action B) : action B :=
  λ m, pbind (p m) (λ x, match x.2 with Ok a => f a x.1 | Err e => Ret (x.1, Err e) end).
Definition attempt {A} (p : action A) : action (result archiveError A) := λ m, pbind (p m) (λ x, Ret (x.1, Ok x.2)).
Definition self : action manager := λ m, Ret (m, Ok m).
Definition become (m' : manager) : action unit := λ _, Ret (m', Ok tt).
Definition ask {X} (r : request X) : action X := λ m, Do r (λ x, Ret (m, Ok x)).
Definition need {X} (r : request (result storeError X)) : action X :=
  λ m, Do r (λ x, Ret (m, match x with Ok a => Ok a | Err e => Err (AStore e) end)).
(** The operation of another manager. *)
Definition with_manager {A} (m' : manager) (p : action A) : action (manager * A) :=
  λ m, pbind (p m') (λ x, Ret (m, match x.2 with Ok a => Ok (x.1, a) | Err e => Err e end)).

Declare Scope archive_scope.
Delimit Scope archive_scope with archive.
Notation "x ⇐ p ; k" := (abind p (λ x, k)) (at level 20, p at level 100, k at level 200) : archive_scope.
Notation "p ;; k" := (abind p (λ _, k)) (at level 100, k at level 200, right associativity) : archive_scope.
#[local] Open Scope archive_scope.

Definition maxPublishRetries : nat := 8.
Definition maxCachedExtents : nat := 2.

Section archive.
Context (sha256 : bytes → bytes) (validateValue : option (bytes → bool)) (unmarshal : bytes → option CheckpointSeal) (marshal : CheckpointSeal → option bytes).

Abbreviation AdvancePrefixHash := (Node.AdvancePrefixHash sha256).
Abbreviation encodeExtent := (ArchiveCodec.encodeExtent sha256 validateValue).
Abbreviation decodeExtent := (ArchiveCodec.decodeExtent sha256 validateValue).
Abbreviation encodeHead := (ArchiveCodec.encodeHead sha256 unmarshal).
Abbreviation decodeHead := (ArchiveCodec.decodeHead sha256 unmarshal).

(** ** Reading *)

(** [readStableObject] of the head: the version and, unless it is the known
    one, the data. *)
Fixpoint readStableObject (rounds : nat) (known : option nat) : action (nat * option bytes) :=
  match rounds with
  | O => fail AInvalid
  | S n =>
      before ⇐ need AttrHead;
      if bool_decide (known = Some before) then pure (before, None)
      else
        data ⇐ need GetHead;
        after ⇐ need AttrHead;
        if bool_decide (before = after) then pure (after, Some data) else readStableObject n known
  end.

Fixpoint validate_decisions (slot : Z) (prefix : bytes) (l : list archived) : option bytes :=
  match l with
  | [] => Some prefix
  | d :: l' =>
      if negb (aSlot d =? slot) || negb (bool_decide (sha256 (aValue d) = aHash d)) || (len (aCertificate d) =? 0) then None
      else validate_decisions (slot + 1) (AdvancePrefixHash prefix (aSlot d) (aHash d)) l'
  end.

Definition validateExtent (configID : Z) (e : Extent) : bool :=
  (xConfigID e =? configID) && negb (xStart e =? 0) && (xStart e <=? xEnd e) &&
  Bool.eqb (bool_decide (PreviousHash e = zeroHash)) (PreviousObject e =? 0) &&
  negb (len (Decisions e) =? 0) && (len (Decisions e) <=? maxExtentItems) && (xEnd e - xStart e + 1 =? len (Decisions e)) &&
  bool_decide (validate_decisions (xStart e) (StartPrefix e) (Decisions e) = Some (EndPrefix e)).

Definition readExtent (k : objectKey) : action Extent :=
  if k.2 =? 0 then fail AInvalid
  else
    m ⇐ self;
    data ⇐ need (GetObject k);
    if negb (bool_decide (sha256 data = k.1)) then fail AInvalid
    else
      match decodeExtent data with
      | Some e => if validateExtent (mConfigID m) e && (PreviousObject e <=? k.2) then pure e else fail AInvalid
      | None => fail AInvalid
      end.

(** The position of a known extent, by the name of its object. *)
Definition known_index (old : list ref) (k : objectKey) : option nat :=
  (λ x, length old - 1 - x.1)%nat <$> list_find (λ r, ref_key r = k) (reverse old).

(** The loop of [loadHead] from the tail to the base.  References are kept
    across its retries in [verified]; when it meets an extent it knows, the
    extents before it are known too. *)
Fixpoint walk (fuel : nat) (base : Z) (old : list ref) (verified : gmap objectKey ref) (k : objectKey) (end_ : Z) (acc : list ref)
    : action (list ref * gmap objectKey ref) :=
  if end_ <=? base then pure (acc, verified)
  else
    match fuel with
    | O => fail AInvalid
    | S n =>
        if bool_decide (k.1 = zeroHash) then fail AInvalid
        else
          let next : action (list ref * gmap objectKey ref) :=
            r ⇐ match verified !! k with Some r => pure r | None => e ⇐ readExtent k; pure (extentRef e k) end;
            if negb (rEnd r =? end_) then fail AInvalid
            else walk n base old (<[k := r]> verified) (rPreviousHash r, rPreviousObject r) (rStart r - 1) (r :: acc) in
          match known_index old k with
          | Some i =>
              match old !! i with
              | Some r => if rEnd r =? end_ then pure (filter (λ r, base < rEnd r) (take (S i) old) ++ acc, verified) else next
              | None => next
              end
          | None => next
          end
    end.

Definition cut_ref (base : Z) (prefix : bytes) (r : ref) : ref :=
  mkRef (rConfigID r) (base + 1) (rEnd r) prefix (rEndPrefix r) (rPreviousHash r) (rPreviousObject r) (rHash r) (rObject r).

(** The first extent may begin before the base. *)
Definition cut_boundary (h : archiveHead) (refs : list ref) : action (list ref) :=
  match refs with
  | r :: rest =>
      if rStart r <=? hBase h then
        m ⇐ self;
        e ⇐ readExtent (ref_key r);
        let e' := mkExtent (xConfigID e) (hBase h + 1) (xEnd e) (BasePrefix h) (EndPrefix e) (PreviousHash e) (PreviousObject e)
          (drop (Z.to_nat (hBase h - xStart e + 1)) (Decisions e)) in
        if validateExtent (mConfigID m) e' then pure (cut_ref (hBase h) (BasePrefix h) r :: rest) else fail AInvalid
      else pure refs
  | [] => pure []
  end.

(** The end of a chain of extents that follows a prefix. *)
Fixpoint chain_end (next : Z) (prefix : bytes) (refs : list ref) : option Z :=
  match refs with
  | [] => Some (next - 1)
  | r :: l => if (rStart r =? next) && bool_decide (rStartPrefix r = prefix) then chain_end (rEnd r + 1) (rEndPrefix r) l else None
  end.

Definition archiveBaseEqual (a b : archiveHead) : bool :=
  (hBase a =? hBase b) && bool_decide (BasePrefix a = BasePrefix b) && (hConfigID a =? hConfigID b) && bool_decide (BaseSeal a = BaseSeal b) &&
  bool_decide (BaseDecision a = BaseDecision b) && bool_decide (BaseAnchor a = BaseAnchor b) && bool_decide (LineageAnchor a = LineageAnchor b).

(** The checks of [loadHead] on a head by itself. *)
Definition head_valid (configID : Z) (h : archiveHead) : bool :=
  (hConfigID h =? configID) && negb (hGeneration h =? 0) && (hBase h <=? hTip h) && Bool.eqb (hBase h <? hTip h) (negb (bool_decide (TailHash h = zeroHash))) &&
  match BaseAnchor h with Some _ => bool_decide (BaseSeal h = None) && bool_decide (BaseDecision h = None) | None => true end &&
  (negb (0 <? hBase h) ||
   match BaseSeal h, BaseDecision h with
   | Some seal, Some _ => (sealIndex seal =? hBase h) && bool_decide (sealPrefixHash seal = BasePrefix h)
   | _, _ => false
   end ||
   match BaseAnchor h with Some anchor => negb (bool_decide (anchor = zeroHash)) | None => false end).

Definition head_regressed (h old : archiveHead) : bool :=
  (hSealed old && negb (hSealed h)) || (hGeneration h <? hGeneration old) || (hBase h <? hBase old) || (hTip h <? hTip old) ||
  (negb (hConfigID old =? 0) && (hBase h =? hBase old) && negb (archiveBaseEqual h old)).

(** The result says whether the head was stable; if not, [Load] tries again. *)
Definition loadHead (verified : gmap objectKey ref) : action (gmap objectKey ref * bool) :=
  m ⇐ self;
  r ⇐ attempt (readStableObject maxPublishRetries (mHeadCAS m));
  match r with
  | Err (AStore NotFound) =>
      legacy ⇐ ask Choice;
      if legacy then fail AInvalid
      else if negb (hTip (mHead m) =? 0) then fail AInvalid
      else become (mkManager (mConfigID m) [] (empty_head (mConfigID m)) None (mCache m));; pure (verified, true)
  | Err e => fail e
  | Ok (_, None) => pure (verified, true)
  | Ok (version, Some data) =>
      match decodeHead data with
      | None => fail AInvalid
      | Some h =>
          if negb (head_valid (mConfigID m) h) || head_regressed h (mHead m) then fail AInvalid
          else
            w ⇐ walk (Z.to_nat (hTip h - hBase h)) (hBase h) (mExtents m) verified (TailHash h, TailObject h) (hTip h) [];
            refs ⇐ cut_boundary h w.1;
            if negb (bool_decide (chain_end (hBase h + 1) (BasePrefix h) refs = Some (hTip h))) then fail AInvalid
            else
              final ⇐ need AttrHead;
              if negb (bool_decide (final = version)) then pure (w.2, false)
              else m ⇐ self; become (mkManager (mConfigID m) refs h (Some version) (mCache m));; pure (w.2, true)
      end
  end.

Fixpoint load_attempts (attempts : nat) (verified : gmap objectKey ref) : action unit :=
  match attempts with
  | O => fail AInvalid
  | S n => x ⇐ loadHead verified; if x.2 : bool then pure tt else load_attempts n x.1
  end.

Definition Load : action unit := load_attempts maxPublishRetries ∅.

(** The cache, least recently used first. *)
Definition rememberExtent (k : objectKey) (e : Extent) (cache : list (objectKey * Extent)) : list (objectKey * Extent) :=
  let kept := if bool_decide (k ∈ cache.*1) then filter (λ x, x.1 ≠ k) cache
    else if (length cache =? maxCachedExtents)%nat then tail cache else cache in
  kept ++ [(k, e)].

Definition remember (k : objectKey) (e : Extent) : action unit :=
  m ⇐ self; become (mkManager (mConfigID m) (mExtents m) (mHead m) (mHeadCAS m) (rememberExtent k e (mCache m))).

Fixpoint prefixes_of (prefix : bytes) (l : list archived) : list bytes :=
  match l with [] => [prefix] | d :: l' => prefix :: prefixes_of (AdvancePrefixHash prefix (aSlot d) (aHash d)) l' end.

Definition extentForRef (r : ref) : action Extent :=
  m ⇐ self;
  e ⇐ match list_find (λ x, x.1 = ref_key r) (mCache m) with
      | Some (_, (_, e)) => remember (ref_key r) e;; pure e
      | None => e ⇐ readExtent (ref_key r); remember (ref_key r) e;; pure e
      end;
  if (rStart r <? xStart e) || negb (rEnd r =? xEnd e) || negb (bool_decide (rEndPrefix r = EndPrefix e)) ||
     negb (bool_decide (rPreviousHash r = PreviousHash e)) || negb (rPreviousObject r =? PreviousObject e) then fail AInvalid
  else if xStart e <? rStart r then
    let offset := Z.to_nat (rStart r - xStart e) in
    if (length (Decisions e) <=? offset)%nat || negb (bool_decide (prefixes_of (StartPrefix e) (Decisions e) !! offset = Some (rStartPrefix r))) then fail AInvalid
    else pure (mkExtent (xConfigID e) (rStart r) (xEnd e) (rStartPrefix r) (EndPrefix e) (PreviousHash e) (PreviousObject e) (drop offset (Decisions e)))
  else if negb (bool_decide (rStartPrefix r = StartPrefix e)) then fail AInvalid
  else pure e.

(** One extent of [DecisionsFrom]; the flag says that the page is full. *)
Fixpoint collect (from : Z) (limit : nat) (values l : list archived) : option (list archived * bool) :=
  match l with
  | [] => Some (values, false)
  | d :: l' =>
      if aSlot d <? from then collect from limit values l'
      else if negb (aSlot d =? from + len values) then None
      else if (length (values ++ [d]) =? limit)%nat then Some (values ++ [d], true)
      else collect from limit (values ++ [d]) l'
  end.

Fixpoint collect_refs (from : Z) (limit : nat) (values : list archived) (refs : list ref) : action (list archived) :=
  match refs with
  | [] => pure values
  | r :: l =>
      if rEnd r <? from then collect_refs from limit values l
      else
        e ⇐ extentForRef r;
        match collect from limit values (Decisions e) with
        | None => fail AInvalid
        | Some (values', true) => pure values'
        | Some (values', false) => collect_refs from limit values' l
        end
  end.

Definition DecisionsFrom (from limit : Z) : action (list archived * Z) :=
  m ⇐ self;
  if from <=? hBase (mHead m) then fail ErrArchiveCompacted
  else
    values ⇐ collect_refs from (if limit <=? 0 then 256%nat else Z.to_nat limit) [] (mExtents m);
    pure (values, hTip (mHead m)).

(** ** Locks *)

(** The lease of GC_LOCK is confirmed when it is granted; a failed release is
    an error of the lock and not of its work. *)
Definition withGCLock {A} (work : action A) : action A :=
  granted ⇐ ask LockGC;
  if negb granted then fail ErrArchiveBusy
  else
    r ⇐ attempt work;
    ask UnlockGC;;
    lost ⇐ ask Choice;
    match r with
    | Ok a => if lost : bool then fail ErrArchiveBusy else pure a
    | Err e => fail e
    end.

Definition publicationLock {A} (work busy : action A) : action A :=
  granted ⇐ ask Choice;
  if negb granted then busy
  else
    r ⇐ attempt work;
    lost ⇐ ask Choice;
    match r with
    | Ok a => if lost : bool then fail ErrArchiveBusy else pure a
    | Err e => fail e
    end.

Definition withPublicationLock {A} (work : action A) : action A := publicationLock work (fail ErrArchiveBusy).

(** A busy lock is tried again until the deadline, unless the work has become
    unnecessary in the meantime. *)
Fixpoint withPublicationLockRecheck (patience : nat) (recheck : action bool) (work : action unit) : action unit :=
  publicationLock work
    match patience with
    | O => fail ErrArchiveBusy
    | S n => covered ⇐ recheck; if covered : bool then pure tt else withPublicationLockRecheck n recheck work
    end.

(** ** Publication *)

Definition publishHead (h : archiveHead) (cas : option nat) (collecting : bool) : action unit :=
  confirmed ⇐ ask Choice;
  if negb confirmed then fail ErrArchiveBusy
  else
    match encodeHead h with
    | None => fail AInvalid
    | Some data => need (WriteHead data (match cas with None => IfNotExists | Some v => IfMatch v end) collecting)
    end.

Fixpoint remember_all (l : list (objectKey * Extent)) : action unit :=
  match l with [] => pure tt | (k, e) :: l' => remember k e;; remember_all l' end.

Definition refreshPublishedHead (expected : archiveHead) (refs : list ref) (candidates : list (objectKey * Extent)) : action unit :=
  x ⇐ readStableObject maxPublishRetries None;
  match x.2 ≫= decodeHead with
  | None => fail AInvalid
  | Some h =>
      if negb (bool_decide (h = expected)) then
        Load;;
        m ⇐ self;
        if (hBase (mHead m) <? hBase expected) || (hTip (mHead m) <? hTip expected) then fail AInvalid else pure tt
      else
        m ⇐ self;
        become (mkManager (mConfigID m) refs h (Some x.1) (mCache m));;
        remember_all candidates
  end.

Fixpoint select (encoded : Z) (l : list archived) : list archived :=
  match l with
  | [] => []
  | d :: l' => if maxExtentSize - encoded <? archiveDecisionSize d then [] else d :: select (encoded + archiveDecisionSize d) l'
  end.

Definition buildExtent (from through : Z) (previous : objectKey) : action (Extent * bytes * Z) :=
  if (from =? 0) || (through <? from) then fail AInvalid
  else
    page ⇐ ask (Page from (Z.min maxExtentItems (through - from + 1)));
    match page with
    | None => fail AInvalid
    | Some (decisions, sourceTip) =>
        if match decisions with [] => true | d :: _ => negb (aSlot d =? from) end then fail AInvalid
        else
          start ⇐ if 1 <? from then ask (PrefixHash (from - 1)) else pure (Some zeroHash);
          match start, last (select (Z.of_nat extentHeaderSize + Z.of_nat archiveCRCSize) (take (Z.to_nat maxExtentItems) decisions)) with
          | Some startPrefix, Some d =>
              endPrefix ⇐ ask (PrefixHash (aSlot d));
              m ⇐ self;
              match endPrefix with
              | None => fail AInvalid
              | Some endPrefix =>
                  let e := mkExtent (mConfigID m) from (aSlot d) startPrefix endPrefix previous.1 previous.2
                    (select (Z.of_nat extentHeaderSize + Z.of_nat archiveCRCSize) (take (Z.to_nat maxExtentItems) decisions)) in
                  match encodeExtent e with
                  | None => fail AInvalid
                  | Some data => pure (e, data, sourceTip)
                  end
              end
          | _, _ => fail AInvalid
          end
    end.

Definition uploadExtent (data : bytes) (generation : Z) : action unit :=
  r ⇐ ask (PutObject (sha256 data, generation) data);
  match r with
  | Ok _ => pure tt
  | Err ((ConditionNotMet | BrokenPipe) as e) =>
      x ⇐ attempt (readExtent (sha256 data, generation));
      match x with Ok _ => pure tt | Err _ => fail (AStore e) end
  | Err e => fail (AStore e)
  end.

Definition set_tail (h : archiveHead) (tip : Z) (k : objectKey) : archiveHead :=
  mkHead (hConfigID h) (hGeneration h) (hBase h) (BasePrefix h) (BaseSeal h) (BaseDecision h) (BaseAnchor h) (LineageAnchor h) tip k.1 k.2 (hSealed h).
Definition set_generation (h : archiveHead) (configID generation : Z) : archiveHead :=
  mkHead configID generation (hBase h) (BasePrefix h) (BaseSeal h) (BaseDecision h) (BaseAnchor h) (LineageAnchor h) (hTip h) (TailHash h) (TailObject h) (hSealed h).

Definition last_two {A} (l : list A) : list A := drop (length l - 2) l.

(** The extents from a slot through another, appended to the head. *)
Fixpoint add_extents (fuel : nat) (from through next : Z) (h : archiveHead) (added : list ref) (tail : list (objectKey * Extent))
    : action (archiveHead * list ref * list (objectKey * Extent)) :=
  match fuel with
  | O => fail AInvalid
  | S n =>
      x ⇐ buildExtent from through (TailHash h, TailObject h);
      let '(e, data, sourceTip) := x in
      uploadExtent data next;;
      let k := (sha256 data, next) in
      let h' := set_tail h (xEnd e) k in
      let added' := added ++ [extentRef e k] in
      let tail' := last_two (tail ++ [(k, e)]) in
      if (sourceTip <? through) && (xEnd e =? sourceTip) then fail AInvalid
      else if through <=? xEnd e then pure (h', added', tail')
      else add_extents n (xEnd e + 1) through next h' added' tail'
  end.

Fixpoint sync_attempts (attempts : nat) (through : Z) : action unit :=
  match attempts with
  | O => fail AInvalid
  | S n =>
      m ⇐ self;
      let h := mHead m in
      if hSealed h then fail ErrArchiveSealed
      else if through <=? hTip h then pure tt
      else if hGeneration h =? maxSlot then fail AInvalid
      else
        x ⇐ add_extents (Z.to_nat (through - hTip h)) (hTip h + 1) through (hGeneration h + 1) h [] [];
        let '(h', added, tail) := x in
        let h'' := set_generation h' (mConfigID m) (hGeneration h + 1) in
        r ⇐ attempt (publishHead h'' (mHeadCAS m) false);
        match r with
        | Ok _ => refreshPublishedHead h'' (mExtents m ++ added) tail
        | Err _ => Load;; sync_attempts n through
        end
  end.

(** A loaded head that is not sealed may cover the target already. *)
Definition head_covers (through : Z) : action bool :=
  m ⇐ self;
  if hSealed (mHead m) then fail ErrArchiveSealed else pure (through <=? hTip (mHead m)).

(** [syncNowBatch] with the target of its batch; the tip of the source is
    asked again under the lock. *)
Definition syncNowBatch (patience : nat) (through : Z) : action unit :=
  m ⇐ self;
  if through <=? hTip (mHead m) then pure tt
  else if hGeneration (mHead m) =? maxSlot then fail AInvalid
  else
    let covered : action bool := loaded ⇐ attempt Load; match loaded with Ok _ => head_covers through | Err _ => pure false end in
    done ⇐ covered;
    if done : bool then pure tt
    else
      withPublicationLockRecheck patience covered (
        Load;;
        tip ⇐ ask SourceTip;
        sync_attempts maxPublishRetries (Z.max through tip)).

Definition SyncThrough (patience : nat) (through : Z) : action unit :=
  m ⇐ self;
  if (through =? 0) || (through <=? hTip (mHead m)) then pure tt
  else
    tip ⇐ ask SourceTip;
    syncNowBatch patience (Z.max through tip).

(** ** Trimming, initialisation, sealing *)

Definition EncodeCheckpointSeal (seal : CheckpointSeal) : option bytes :=
  payload ← marshal seal;
  if MaxReplicatedValueBytes <? len (checkpointSealMagic ++ payload) then None else Some (checkpointSealMagic ++ payload).

Definition trim_refs (through : Z) (prefix : bytes) (refs : list ref) : list ref :=
  map (λ r, if rStart r <=? through then cut_ref through prefix r else r) (filter (λ r, through < rEnd r) refs).

Definition trimmed (h : archiveHead) (seal : CheckpointSeal) (d : archived) : archiveHead :=
  mkHead (hConfigID h) (hGeneration h + 1) (sealIndex seal) (sealPrefixHash seal) (Some seal) (Some d) None (LineageAnchor h) (hTip h)
    (if sealIndex seal =? hTip h then zeroHash else TailHash h) (if sealIndex seal =? hTip h then 0 else TailObject h) (hSealed h).

Fixpoint trim_attempts (attempts : nat) (seal : CheckpointSeal) (d : archived) : action unit :=
  match attempts with
  | O => fail AInvalid
  | S n =>
      m ⇐ self;
      let h := mHead m in
      if hSealed h then fail ErrArchiveSealed
      else if sealIndex seal <=? hBase h then pure tt
      else if hTip h <? sealIndex seal then fail AInvalid
      else if hGeneration h =? maxSlot then fail AInvalid
      else
        let h' := trimmed h seal d in
        r ⇐ attempt (publishHead h' (mHeadCAS m) false);
        match r with
        | Ok _ => refreshPublishedHead h' (trim_refs (sealIndex seal) (sealPrefixHash seal) (mExtents m)) []
        | Err _ => Load;; trim_attempts n seal d
        end
  end.

Definition trimThrough (seal : CheckpointSeal) (decisionSlot : Z) (d : archived) : action unit :=
  if negb (payload_valid validateValue (aValue d) (aCertificate d)) then fail AInvalid
  else if negb (bool_decide (EncodeCheckpointSeal seal = Some (aValue d))) || negb (aSlot d =? decisionSlot) then fail AInvalid
  else trim_attempts maxPublishRetries seal d.

Definition TrimThrough (seal : CheckpointSeal) (decisionSlot : Z) (d : archived) : action unit :=
  withGCLock (
    pinned ⇐ need PinnedGeneration;
    if negb (pinned =? 0) then fail ErrActiveRecoveryPin
    else withPublicationLock (Load;; trimThrough seal decisionSlot d)).

Definition fenced_head (configID tip : Z) (prefix anchor : bytes) : archiveHead :=
  mkHead configID 1 tip prefix None None (Some anchor) (Some anchor) tip zeroHash 0 false.

Definition InitializeFencedGeneration (tip : Z) (prefix anchor : bytes) : action unit :=
  if (tip =? 0) || bool_decide (prefix = zeroHash) || bool_decide (anchor = zeroHash) then fail AInvalid
  else
    withPublicationLock (
      Load;;
      m ⇐ self;
      if bool_decide (mHead m = fenced_head (mConfigID m) tip prefix anchor) then pure tt
      else if negb (hTip (mHead m) =? 0) || negb (hBase (mHead m) =? 0) then fail AInvalid
      else publishHead (fenced_head (mConfigID m) tip prefix anchor) (mHeadCAS m) false;; Load).

Definition verifySealIntent (operationID : bytes) : action unit :=
  x ⇐ need GetIntent;
  if negb (bool_decide (x = operationID)) || bool_decide (x = []) then fail AInvalid else pure tt.

Definition acquireSealIntent (operationID : bytes) : action unit :=
  r ⇐ ask (PutIntent operationID);
  match r with
  | Ok _ => pure tt
  | Err ConditionNotMet => verifySealIntent operationID
  | Err e => fail (AStore e)
  end.

Definition sealed_head (h : archiveHead) : archiveHead :=
  mkHead (hConfigID h) (hGeneration h) (hBase h) (BasePrefix h) (BaseSeal h) (BaseDecision h) (BaseAnchor h) (LineageAnchor h) (hTip h) (TailHash h) (TailObject h) true.

Definition unauthoritative (m : manager) : bool := bool_decide (mHeadCAS m = None) || (hGeneration (mHead m) =? 0).

Fixpoint seal_attempts (attempts : nat) (operationID : bytes) : action unit :=
  match attempts with
  | O => fail AInvalid
  | S n =>
      Load;;
      m ⇐ self;
      if hSealed (mHead m) then verifySealIntent operationID
      else if unauthoritative m then fail AInvalid
      else
        r ⇐ attempt (publishHead (sealed_head (mHead m)) (mHeadCAS m) false);
        match r with
        | Ok _ => refreshPublishedHead (sealed_head (mHead m)) (mExtents m) []
        | Err (AStore ConditionNotMet) => seal_attempts n operationID
        | Err e => fail e
        end
  end.

(** [Seal] makes a manager of configuration 1. *)
Definition Seal (operationID : bytes) : action unit :=
  if bool_decide (operationID = []) then fail AInvalid
  else
    Load;;
    m ⇐ self;
    if hSealed (mHead m) then verifySealIntent operationID
    else if unauthoritative m then fail AInvalid
    else acquireSealIntent operationID;; withPublicationLock (seal_attempts maxPublishRetries operationID).

(** ** Collection *)

(** [compactExtentsFrom]: complete groups, the group in progress with the size
    of its decisions, and the prefix hash behind it. *)
Record packing := mkPacking { pkDone : list Extent; pkCurrent : option (Extent * Z); pkPrefix : bytes }.

Definition flush (p : packing) : list Extent := pkDone p ++ option_list (fst <$> pkCurrent p).

(** A group that is full, or that the decision does not fit into, is complete. *)
Definition pack_room (p : packing) (d : archived) : packing :=
  match pkCurrent p with
  | Some (e, encoded) =>
      if (len (Decisions e) =? maxExtentItems) ||
         (maxExtentSize <? Z.of_nat extentHeaderSize + (encoded + archiveDecisionSize d) + Z.of_nat archiveCRCSize)
      then mkPacking (pkDone p ++ [e]) None (pkPrefix p) else p
  | None => p
  end.

Definition pack_decision (configID : Z) (p : packing) (d : archived) : packing :=
  let p' := pack_room p d in
  let prefix := AdvancePrefixHash (pkPrefix p') (aSlot d) (aHash d) in
  let '(e, encoded) := default (mkExtent configID (aSlot d) (aSlot d) (pkPrefix p') (pkPrefix p') zeroHash 0 [], 0) (pkCurrent p') in
  mkPacking (pkDone p')
    (Some (mkExtent (xConfigID e) (xStart e) (aSlot d) (StartPrefix e) prefix (PreviousHash e) (PreviousObject e) (Decisions e ++ [d]),
           encoded + archiveDecisionSize d)) prefix.

Fixpoint pack_refs (p : packing) (refs : list ref) : action packing :=
  match refs with
  | [] => pure p
  | r :: l => e ⇐ extentForRef r; m ⇐ self; pack_refs (foldl (pack_decision (mConfigID m)) p (Decisions e)) l
  end.

(** An earlier packing is resumed at its last group. *)
Definition resume_packing (prefix : bytes) (packed : list Extent) : packing :=
  match last packed with
  | Some e => mkPacking (removelast packed) (Some (e, total archiveDecisionSize (Decisions e))) (EndPrefix e)
  | None => mkPacking [] None prefix
  end.

Definition compactExtentsFrom (refs : list ref) (prefix : bytes) (packed : list Extent) : action (list Extent) :=
  p ⇐ pack_refs (resume_packing prefix packed) refs; pure (flush p).

(** Nothing is packed when there are fewer than two extents. *)
Definition compactExtents (refs : list ref) (prefix : bytes) : action (option (list Extent)) :=
  if (length refs <? 2)%nat then pure None else l ⇐ compactExtentsFrom refs prefix []; pure (Some l).

Definition packs (packed : option (list Extent)) (refs : list ref) : option (list Extent) :=
  match packed with Some l => if (length refs <=? length l)%nat then None else Some l | None => None end.

Definition canReuseCleanupCompaction (configID : Z) (h previous : archiveHead) (refs previousRefs : list ref) (packed : list Extent) : bool :=
  negb (hSealed h) && (hConfigID h =? configID) && negb (bool_decide (packed = [])) && archiveBaseEqual h previous &&
  negb (bool_decide (previousRefs = [])) && bool_decide (take (length previousRefs) refs = previousRefs).

Definition canReuseCleanupUpload (hash : bytes) (saved : objectKey) (currentGeneration : Z) : bool :=
  bool_decide (saved.1 = hash) && negb (saved.2 =? 0) && (saved.2 <=? currentGeneration).

(** Uploads the groups, each naming its predecessor.  Complete groups that an
    earlier attempt has uploaded are used again. *)
Fixpoint upload_packed (l : list Extent) (saved : list objectKey) (current next : Z) (previous : objectKey) : action (list (objectKey * Extent)) :=
  match l with
  | [] => pure []
  | e :: l' =>
      let e' := mkExtent (xConfigID e) (xStart e) (xEnd e) (StartPrefix e) (EndPrefix e) previous.1 previous.2 (Decisions e) in
      match encodeExtent e' with
      | None => fail AInvalid
      | Some data =>
          let reused := match saved with k :: _ => if negb (bool_decide (l' = [])) && canReuseCleanupUpload (sha256 data) k current then Some k else None | [] => None end in
          match reused with
          | Some k => rest ⇐ upload_packed l' (tail saved) current next k; pure ((k, e') :: rest)
          | None =>
              uploadExtent data next;;
              rest ⇐ upload_packed l' [] current next (sha256 data, next);
              pure (((sha256 data, next), e') :: rest)
          end
      end
  end.

Definition packed_head (h : archiveHead) (l : list (objectKey * Extent)) : archiveHead :=
  set_generation (set_tail h (hTip h) (default (zeroHash, 0) (fst <$> last l))) (hConfigID h) (hGeneration h + 1).

Fixpoint cleanupPublication (attempts : nat) (priorHead : archiveHead) (priorRefs : list ref) (priorPacked : list Extent) (priorUploaded : list objectKey) : action unit :=
  match attempts with
  | O => fail AInvalid
  | S n =>
      Load;;
      m ⇐ self;
      let h := mHead m in
      let refs := mExtents m in
      if hSealed h then fail ErrArchiveSealed
      else
        let reuse := canReuseCleanupCompaction (mConfigID m) h priorHead refs priorRefs priorPacked in
        compacted ⇐ if reuse then l ⇐ compactExtentsFrom (drop (length priorRefs) refs) (BasePrefix h) priorPacked; pure (Some l) else compactExtents refs (BasePrefix h);
        match packs compacted refs with
        | None => pure tt
        | Some packed =>
            if hGeneration h =? maxSlot then fail AInvalid
            else
              uploaded ⇐ upload_packed packed (if reuse then priorUploaded else []) (hGeneration h) (hGeneration h + 1) (zeroHash, 0);
              let h' := packed_head h uploaded in
              m ⇐ self;
              r ⇐ attempt (publishHead h' (mHeadCAS m) true);
              match r with
              | Err _ => cleanupPublication n h refs packed (removelast (uploaded.*1))
              | Ok _ =>
                  refreshPublishedHead h' (map (λ x, extentRef x.2 x.1) uploaded) uploaded;;
                  verifier ⇐ with_manager (NewManager (mConfigID m)) Load;
                  if (hBase (mHead verifier.1) <? hBase h') || (hTip (mHead verifier.1) <? hTip h') then fail AInvalid else pure tt
              end
        end
  end.

(** One object of the listing of [cleanupDeletes]: objects of later heads, of
    pinned heads and of this one are kept, the others are marked first. *)
Definition sweep_object (k : objectKey) (marked : option Z) (cutoff pinned : Z) (keep : list objectKey) (gcGeneration : Z) : action unit :=
  let unmark : action unit := match marked with Some _ => need (DeleteMarker k) | None => pure tt end in
  let gone (r : request (result storeError unit)) : action unit :=
    x ⇐ ask r; match x with Ok _ | Err NotFound => pure tt | Err e => fail (AStore e) end in
  if gcGeneration <? k.2 then unmark
  else if negb (pinned =? 0) && (k.2 <=? pinned) then unmark
  else if bool_decide (k ∈ keep) then match marked with Some _ => gone (DeleteMarker k) | None => pure tt end
  else
    match marked with
    | None => x ⇐ ask (PutMarker k); match x with Ok _ | Err ConditionNotMet => pure tt | Err e => fail (AStore e) end
    | Some t => if cutoff <? t then pure tt else gone (DeleteObject k);; gone (DeleteMarker k)
    end.

Fixpoint sweep (l : list objectKey) (marks : list (objectKey * Z)) (cutoff pinned : Z) (keep : list objectKey) (gcGeneration : Z) : action (list (objectKey * Z)) :=
  match l with
  | [] => pure marks
  | k :: l' =>
      sweep_object k (snd <$> (snd <$> list_find (λ x, x.1 = k) marks)) cutoff pinned keep gcGeneration;;
      sweep l' (filter (λ x, x.1 ≠ k) marks) cutoff pinned keep gcGeneration
  end.

Fixpoint unmark_all (l : list (objectKey * Z)) : action unit :=
  match l with
  | [] => pure tt
  | (k, _) :: l' => x ⇐ ask (DeleteMarker k); match x with Ok _ | Err NotFound => unmark_all l' | Err e => fail (AStore e) end
  end.

Definition cleanupDeletes (grace : Z) (keep : list objectKey) (gcGeneration : Z) : action unit :=
  now ⇐ ask Now;
  pinned ⇐ need PinnedGeneration;
  marks ⇐ need ListMarkers;
  l ⇐ need ListObjects;
  rest ⇐ sweep l marks (now - grace) pinned keep gcGeneration;
  unmark_all rest.

Definition live_keys (m : manager) : list objectKey := map ref_key (mExtents m).

Definition cleanup (grace : Z) : action unit :=
  Load;;
  m ⇐ self;
  if hSealed (mHead m) then fail ErrArchiveSealed
  else
    packed ⇐ compactExtents (mExtents m) (BasePrefix (mHead m));
    match packs packed (mExtents m) with
    | None => cleanupDeletes grace (live_keys m) (hGeneration (mHead m))
    | Some l =>
        m' ⇐ withPublicationLock (cleanupPublication maxPublishRetries (mHead m) (mExtents m) l [];; self);
        cleanupDeletes grace (live_keys m') (hGeneration (mHead m'))
    end.

Definition Cleanup (grace : Z) : action unit := if grace <? 0 then fail AInvalid else withGCLock (cleanup grace).

(** ** Runs *)

(** The log the archive is for: the value decided at each slot after [genesis],
    and the prefix hash at [genesis]. *)
Context (configID genesis : Z) (genesisPrefix : bytes) (decided : Z → bytes).

Fixpoint log_prefix (n : nat) : bytes :=
  match n with
  | O => genesisPrefix
  | S n' => AdvancePrefixHash (log_prefix n') (genesis + Z.of_nat n) (sha256 (decided (genesis + Z.of_nat n)))
  end.
Definition prefix_at (slot : Z) : bytes := log_prefix (Z.to_nat (slot - genesis)).

(** [core.DecisionsFromBounded]: consecutive decisions with certificates. *)
Definition source_page (from : Z) (certs : list bytes) : list archived :=
  imap (λ i c, let slot := from + Z.of_nat i in mkArchived slot (sha256 (decided slot)) (decided slot) c) certs.

Definition exec (i : nat) {X} (r : request X) (o : oracle) (s : archiveStore) : archiveStore * X :=
  match r in request X return archiveStore * X with
  | Now => (s, clock s)
  | Choice => (s, choice o)
  | Page from limit => (s, if choice o && (genesis <? from) then Some (source_page from (take (Z.to_nat limit) (certificates o)), amount o) else None)
  | PrefixHash slot => (s, if choice o && (genesis <=? slot) then Some (prefix_at slot) else None)
  | SourceTip => (s, amount o)
  | AttrHead => faulty o s (s, answered (snd <$> headObject s))
  | GetHead => faulty o s (s, answered (fst <$> headObject s))
  | WriteHead data cond _ => faulty o s (if met cond (snd <$> headObject s) then (put_head data s, Ok tt) else (s, Err ConditionNotMet))
  | GetObject k => faulty o s (s, answered (objects s !! k))
  | PutObject k data =>
      let s' := set_written s (data :: written s) in
      faulty o s' (if bool_decide (is_Some (objects s !! k)) then (s', Err ConditionNotMet) else (set_objects s' (<[k := data]> (objects s)), Ok tt))
  | DeleteObject k => faulty o s (set_objects s (delete k (objects s)), if bool_decide (is_Some (objects s !! k)) then Ok tt else Err NotFound)
  | ListObjects => faulty o s (s, Ok (map fst (map_to_list (objects s)) ++ laterObjects o))
  | ListMarkers => faulty o s (s, Ok (map_to_list (markers s)))
  | PutMarker k =>
      faulty o s (if bool_decide (is_Some (markers s !! k)) then (s, Err ConditionNotMet) else (set_markers s (<[k := clock s]> (markers s)), Ok tt))
  | DeleteMarker k => faulty o s (set_markers s (delete k (markers s)), if bool_decide (is_Some (markers s !! k)) then Ok tt else Err NotFound)
  | PutIntent x => faulty o s (match sealIntent s with Some _ => (s, Err ConditionNotMet) | None => (set_intent s (Some x), Ok tt) end)
  | GetIntent => faulty o s (s, answered (sealIntent s))
  | PinnedGeneration => faulty o s (s, Ok (amount o))
  | LockGC => if choice o then (set_holder s (Some i), true) else (s, false)
  | UnlockGC => (if bool_decide (gcHolder s = Some i) then set_holder s None else s, tt)
  | Synced through => (set_reported s (through :: reported s), tt)
  end.

(** No two extents of the run have the same hash, none has the zero hash. *)
Definition distinct_hash {X} (r : request X) (s : archiveStore) : bool :=
  match r with
  | PutObject _ data => negb (bool_decide (sha256 data = zeroHash)) && forallb (λ x, negb (bool_decide (sha256 x = sha256 data)) || bool_decide (x = data)) (written s)
  | _ => true
  end.

(** A head published or an object deleted by a collection takes effect while
    the collection holds GC_LOCK.  The code takes the lock before it collects
    and checks it neither at the write nor at the delete, so nothing but timing
    makes a run one in which this holds throughout. *)
Definition in_tenure (i : nat) {X} (r : request X) (s : archiveStore) : bool :=
  match r with
  | WriteHead _ _ true | DeleteObject _ => bool_decide (gcHolder s = Some i)
  | _ => true
  end.

(** In a [tenured] run the collections keep to their tenure of GC_LOCK. *)
Context (tenured : bool).

Definition may_run (i : nat) {X} (r : request X) (s : archiveStore) : bool :=
  distinct_hash r s && (negb tenured || in_tenure i r s).

Inductive operation :=
| OLoad
| ORead (from limit : Z)
| OSync (patience : nat) (through : Z)
| OTrim (seal : CheckpointSeal) (decisionSlot : Z) (d : archived)
| OInitialize (tip : Z) (prefix anchor : bytes)
| OSeal (operationID : bytes)
| OCleanup (grace : Z).

(** Checkpoints and anchors are certified by the cluster. *)
Definition certified (op : operation) : bool :=
  match op with
  | OTrim seal _ d => (0 <=? sealIndex seal) && bool_decide (sealPrefixHash seal = prefix_at (sealIndex seal)) && (0 <=? aSlot d) && (aSlot d <=? maxSlot)
  | OInitialize tip prefix anchor => (tip =? genesis) && bool_decide (prefix = prefix_at genesis) && (len anchor =? 32)
  | OSync _ through => (0 <=? through) && (through <=? maxSlot)
  | _ => true
  end.

Definition discard {A} (p : action A) : action unit := p;; pure tt.

Definition perform (op : operation) : action unit :=
  match op with
  | OLoad => Load
  | ORead from limit => discard (DecisionsFrom from limit)
  | OSync patience through => SyncThrough patience through;; ask (Synced through)
  | OTrim seal decisionSlot d => TrimThrough seal decisionSlot d
  | OInitialize tip prefix anchor => InitializeFencedGeneration tip prefix anchor
  | OSeal operationID => discard (with_manager (NewManager 1) (Seal operationID))
  | OCleanup grace => Cleanup grace
  end.

(** A manager that performs operations one after the other, whatever their
    results. *)
Fixpoint session (ops : list operation) : action unit :=
  match ops with [] => pure tt | op :: l => attempt (perform op);; session l end.

Record archiveWorld := mkArchiveWorld { archive : archiveStore; sessions : list (prog request unit) }.

Inductive archiveEvent :=
| ATick (delay : Z)
| ASpawn (ops : list operation)
| ARun (i : nat) (o : oracle).

Definition archive_step (e : archiveEvent) (w : archiveWorld) : option archiveWorld :=
  match e with
  | ATick d => if 0 <=? d then Some (mkArchiveWorld (set_time (archive w) (clock (archive w) + d)) (sessions w)) else None
  | ASpawn ops =>
      if forallb certified ops then Some (mkArchiveWorld (archive w) (sessions w ++ [pbind (session ops (NewManager configID)) (λ _, Ret tt)])) else None
  | ARun i o =>
      match sessions w !! i with
      | Some (Do r k) =>
          if may_run i r (archive w) then let '(s, x) := exec i r o (archive w) in Some (mkArchiveWorld s (<[i := k x]> (sessions w))) else None
      | _ => None
      end
  end.

Fixpoint archive_run (es : list archiveEvent) (w : archiveWorld) : option archiveWorld :=
  match es with
  | [] => Some w
  | e :: es' => match archive_step e w with Some w' => archive_run es' w' | None => None end
  end.

Definition archive_start : archiveWorld := mkArchiveWorld empty_archive [].
End archive.
