(* ===== verification/ArchiveChains.v ===== *)
(** * Chains of extents of the decided log

    The parameters of the archive with what it relies on, extents that hold
    decided values, and the references from the tail of a head back to its
    base: they name determined objects, can be cut at a later base and extended
    at the tip. *)

From stdpp Require Import gmap list.
From S2P Require Import Prelude Bytes Protocol Schedule Node Programs ArchiveCodec ArchiveCodecProofs Archive.

(** SHA-256, JSON of seals, the validator of values, and the decided log: its
    values after the slot it begins at, and the prefix hash there. *)
Class archiveSetting := {
  sha256 : bytes → bytes;
  validateValue : option (bytes → bool);
  unmarshalSeal : bytes → option CheckpointSeal;
  marshalSeal : CheckpointSeal → option bytes;
  cluster : Z;
  genesisSlot : Z;
  genesisPrefix : bytes;
  valueAt : Z → bytes;
  sha256_length : ∀ l, length (sha256 l) = 32%nat;
  cluster_range : 0 <= cluster < 2 ^ 64;
  genesis_range : 0 <= genesisSlot < 2 ^ 64;
  genesisPrefix_length : length genesisPrefix = 32%nat;
  genesis_zero : genesisSlot = 0 → genesisPrefix = zeroHash;
}.

Abbreviation encodeExtent := (ArchiveCodec.encodeExtent sha256 validateValue).
Abbreviation decodeExtent := (ArchiveCodec.decodeExtent sha256 validateValue).
Abbreviation encodeHead := (ArchiveCodec.encodeHead sha256 unmarshalSeal).
Abbreviation decodeHead := (ArchiveCodec.decodeHead sha256 unmarshalSeal).
Abbreviation AdvancePrefixHash := (Node.AdvancePrefixHash sha256).
Abbreviation prefix_at := (Archive.prefix_at sha256 genesisSlot genesisPrefix valueAt).
Abbreviation prefix_after := (ArchiveCodecProofs.prefix_after sha256).
Abbreviation decisions_valid := (ArchiveCodecProofs.decisions_valid sha256 validateValue).
Abbreviation validate_decisions := (Archive.validate_decisions sha256).
Abbreviation validateExtent := (Archive.validateExtent sha256).

Section decided.
Context `{archiveSetting}.

(** ** Prefix hashes *)

Lemma prefix_genesis : prefix_at genesisSlot = genesisPrefix.
Proof. unfold Archive.prefix_at. by rewrite Z.sub_diag. Qed.

Lemma prefix_zero : genesisSlot = 0 → prefix_at 0 = zeroHash.
Proof. intros E. rewrite <-E, prefix_genesis. by apply genesis_zero. Qed.

Lemma prefix_next slot : genesisSlot <= slot → prefix_at (slot + 1) = AdvancePrefixHash (prefix_at slot) (slot + 1) (sha256 (valueAt (slot + 1))).
Proof.
  intros Hs. unfold Archive.prefix_at. replace (Z.to_nat (slot + 1 - genesisSlot)) with (S (Z.to_nat (slot - genesisSlot))) by lia.
  cbn [log_prefix]. by replace (genesisSlot + Z.of_nat (S (Z.to_nat (slot - genesisSlot)))) with (slot + 1) by lia.
Qed.

Lemma prefix_length slot : length (prefix_at slot) = 32%nat.
Proof.
  unfold Archive.prefix_at. destruct (Z.to_nat (slot - genesisSlot)) as [|n]; cbn [log_prefix]; [apply genesisPrefix_length|].
  apply sha256_length.
Qed.

(** Decisions of the log from a slot on. *)
Fixpoint decided_from (slot : Z) (l : list archived) : Prop :=
  match l with
  | [] => True
  | d :: l' => (aSlot d = slot ∧ aHash d = sha256 (aValue d) ∧ aValue d = valueAt slot) ∧ decided_from (slot + 1) l'
  end.

Lemma decided_app slot l k : decided_from slot (l ++ k) ↔ decided_from slot l ∧ decided_from (slot + len l) k.
Proof.
  revert slot. induction l as [|d l IH]; intros slot; cbn [app decided_from].
  - unfold len. simpl. rewrite Z.add_0_r. tauto.
  - rewrite IH. unfold len. rewrite length_cons. replace (slot + 1 + Z.of_nat (length l)) with (slot + Z.of_nat (S (length l))) by lia. tauto.
Qed.

Lemma decided_take slot l n : decided_from slot l → decided_from slot (take n l).
Proof. intros Hl. rewrite <-(take_drop n l), decided_app in Hl. tauto. Qed.

Lemma decided_drop slot l n : (n <= length l)%nat → decided_from slot l → decided_from (slot + Z.of_nat n) (drop n l).
Proof.
  intros Hn Hl. rewrite <-(take_drop n l), decided_app in Hl. unfold len in Hl. rewrite length_take in Hl.
  replace (Z.of_nat (n `min` length l)) with (Z.of_nat n) in Hl by lia. tauto.
Qed.

Lemma decided_prefix slot l : genesisSlot < slot → decided_from slot l → prefix_after (prefix_at (slot - 1)) l = prefix_at (slot - 1 + len l).
Proof.
  revert slot. induction l as [|d l IH]; intros slot Hs; cbn [decided_from].
  - intros _. unfold len, prefix_after. simpl. by rewrite Z.add_0_r.
  - intros [(E1 & E2 & E3) Hl]. change (prefix_after ?p (d :: l)) with (prefix_after (AdvancePrefixHash p (aSlot d) (aHash d)) l). rewrite E2, E3, E1.
    pose proof (prefix_next (slot - 1) ltac:(lia)) as E. replace (slot - 1 + 1) with slot in E by lia. rewrite <-E.
    pose proof (IH (slot + 1) ltac:(lia) Hl) as E'. replace (slot + 1 - 1) with slot in E' by lia. rewrite E'. f_equal. unfold len. rewrite length_cons. lia.
Qed.

Lemma decided_slots slot l : decided_from slot l → map (λ d, (aSlot d, aValue d)) l = map (λ x, (x, valueAt x)) (seqZ slot (len l)).
Proof.
  revert slot. induction l as [|d l IH]; intros slot; cbn [decided_from]; [done|]. intros [(E1 & E2 & E3) Hl].
  unfold len. rewrite length_cons, Nat2Z.inj_succ, seqZ_cons by lia. cbn [map]. rewrite Z.pred_succ, E1, E3. f_equal. by apply IH.
Qed.

(** ** Extents of the log *)

Record good (e : Extent) : Prop := {
  go_valid : validateExtent cluster e = true;
  go_genesis : genesisSlot < xStart e;
  go_prefix : StartPrefix e = prefix_at (xStart e - 1);
  go_decisions : decided_from (xStart e) (Decisions e);
}.

Lemma validate_prefix slot prefix l p : validate_decisions slot prefix l = Some p → p = prefix_after prefix l.
Proof.
  revert slot prefix. induction l as [|d l IH]; intros slot prefix; cbn [Archive.validate_decisions]; [by intros [= ->]|].
  destruct (_ || _); [done|]. intros E%IH. done.
Qed.

Lemma decisions_validate slot prefix l : decisions_valid slot l → validate_decisions slot prefix l = Some (prefix_after prefix l).
Proof.
  revert slot prefix. induction l as [|d l IH]; intros slot prefix; cbn [Archive.validate_decisions ArchiveCodecProofs.decisions_valid]; [done|].
  intros [(E1 & E2 & E3) Hl]. destruct (payload_lengths _ _ _ E2) as [_ Hc]. rewrite E1, Z.eqb_refl, bool_decide_true by done.
  destruct (Z.eqb_spec (len (aCertificate d)) 0); [lia|]. cbn [negb orb]. rewrite (IH (slot + 1)) by done. cbn. by rewrite E1.
Qed.

Lemma good_length e : good e → len (Decisions e) = xEnd e - xStart e + 1.
Proof. intros [Hv _ _ _]. unfold Archive.validateExtent in Hv. bool_hyps. lia. Qed.

Lemma good_order e : good e → xStart e <= xEnd e.
Proof. intros [Hv _ _ _]. unfold Archive.validateExtent in Hv. bool_hyps. lia. Qed.

Lemma good_end e : good e → EndPrefix e = prefix_at (xEnd e).
Proof.
  intros Hg. pose proof (good_length e Hg). destruct Hg as [Hv Hs Hp Hd]. unfold Archive.validateExtent in Hv. bool_hyps.
  match goal with E : validate_decisions _ _ _ = _ |- _ => apply validate_prefix in E as -> end. rewrite Hp, decided_prefix by done. f_equal. lia.
Qed.

(** What an encoder accepts of the log is read back. *)
Lemma encode_good e data :
  encodeExtent e = Some data → xConfigID e = cluster → genesisSlot < xStart e → StartPrefix e = prefix_at (xStart e - 1) → decided_from (xStart e) (Decisions e) →
  (PreviousHash e = zeroHash ↔ PreviousObject e = 0) → length (PreviousHash e) = 32%nat → 0 <= PreviousObject e < 2 ^ 64 →
  decodeExtent data = Some e ∧ good e ∧ xEnd e <= maxSlot.
Proof.
  intros Ee Hc Hs Hp Hd Hprev Hl Ho. pose proof Ee as Ee'. unfold ArchiveCodec.encodeExtent in Ee'. cbv zeta in Ee'.
  destruct (_ || _) eqn:Eb; [done|]. bool_hyps. destruct (encode_checks _ _ _ _ _ _) as [[size prefix]|] eqn:Ec; [|done].
  apply encode_checks_Some in Ec as (Hv & E & _). apply (inj2 pair) in E as [_ ->]. destruct (_ || _) eqn:Eb'; [done|]. bool_hyps.
  pose proof genesis_range. pose proof cluster_range. pose proof (len_nonneg (Decisions e)).
  match goal with E : ArchiveCodecProofs.prefix_after _ _ _ = EndPrefix e |- _ => rename E into Eend end.
  assert (decodeExtent data = Some e) as Hdec.
  { apply extent_roundtrip; [|done]. unfold wf_extent. rewrite <-Eend, Hp, decided_prefix by done. rewrite !prefix_length. split_and!; (done || lia). }
  split_and!; [done| |lia]. split; [|done..]. unfold Archive.validateExtent. rewrite (decisions_validate _ _ _ Hv), Eend, Hc, Z.eqb_refl.
  rewrite !(bool_decide_true (Some _ = Some _)) by done. rewrite !andb_true_iff, negb_true_iff, negb_true_iff, Z.eqb_neq, Z.eqb_neq, !Z.leb_le, Z.eqb_eq, eqb_true_iff.
  split_and!; try (done || lia). destruct (Z.eqb_spec (PreviousObject e) 0); case_bool_decide; (done || tauto).
Qed.
End decided.

(** ** References *)

Section chains.
Context `{archiveSetting}.

(** No two uploads of a run have the same hash. *)
Definition collision_free (W : list bytes) : Prop := ∀ x y, x ∈ W → y ∈ W → sha256 x = sha256 y → x = y.

(** The extent of a hash, among the uploads [W] of a run. *)
Definition content (W : list bytes) (hash : bytes) (e : Extent) : Prop := ∃ data, data ∈ W ∧ sha256 data = hash ∧ decodeExtent data = Some e.

(** A reference to an extent, perhaps without its first decisions. *)
Record describes (e : Extent) (k : objectKey) (r : ref) : Prop := {
  de_key : ref_key r = k;
  de_end : rEnd r = xEnd e;
  de_endPrefix : rEndPrefix r = EndPrefix e;
  de_previous : (rPreviousHash r, rPreviousObject r) = (PreviousHash e, PreviousObject e);
  de_start : xStart e <= rStart r <= xEnd e;
  de_startPrefix : rStartPrefix r = prefix_at (rStart r - 1);
}.

(** The object of an extent: it names an object of no later generation. *)
Record named (W : list bytes) (k : objectKey) (e : Extent) : Prop := {
  na_content : content W k.1 e;
  na_previous : PreviousObject e <= k.2;
  na_object : 1 <= k.2;
}.

(** References to the extents from the one named [k], which ends at [end_],
    back to the base. *)
Inductive links (W : list bytes) (base : Z) : objectKey → Z → list ref → Prop :=
| links_base k end_ : end_ <= base → links W base k end_ []
| links_cons k e r refs :
    base < xEnd e → named W k e → describes e k r →
    links W base (PreviousHash e, PreviousObject e) (xStart e - 1) refs → links W base k (xEnd e) (refs ++ [r]).

(** The last slot of references that follow each other. *)
Fixpoint spans (next : Z) (refs : list ref) : option Z :=
  match refs with
  | [] => Some (next - 1)
  | r :: l => if rStart r =? next then spans (rEnd r + 1) l else None
  end.

Record head_ok (W : list bytes) (h : archiveHead) (refs : list ref) : Prop := {
  ho_config : hConfigID h = cluster;
  ho_base : genesisSlot <= hBase h;
  ho_prefix : BasePrefix h = prefix_at (hBase h);
  ho_range : head_range h = true;
  ho_valid : head_valid cluster h = true;
  ho_wf : wf_head h;
  ho_links : links W (hBase h) (TailHash h, TailObject h) (hTip h) refs;
  ho_spans : spans (hBase h + 1) refs = Some (hTip h);
}.

Lemma content_mono W W' hash e : W ⊆ W' → content W hash e → content W' hash e.
Proof. intros Hs (data & Hd & E). exists data. split; [by apply Hs|done]. Qed.

Lemma named_mono W W' k e : W ⊆ W' → named W k e → named W' k e.
Proof. intros Hs [H1 H2 H3]. split; [by apply (content_mono W)|done..]. Qed.

Lemma links_mono W W' base k end_ refs : W ⊆ W' → links W base k end_ refs → links W' base k end_ refs.
Proof. intros Hs Hl. induction Hl as [k end_ He|k e r refs Hb Hn Hd Hl IH]; [by constructor|]. constructor; [done|by apply (named_mono W)|done|done]. Qed.

Lemma head_ok_mono W W' h refs : W ⊆ W' → head_ok W h refs → head_ok W' h refs.
Proof. intros Hs [H1 H2 H3 H4 H5 H6 H7 H8]. split; [done..|by apply (links_mono W)|done]. Qed.

Lemma content_fun W hash e e' : collision_free W → content W hash e → content W hash e' → e = e'.
Proof. intros Hf (x & Hx & Ex & Dx) (y & Hy & Ey & Dy). rewrite (Hf x y) in Dx by congruence. congruence. Qed.

Lemma links_nil W base k end_ refs : links W base k end_ refs → end_ <= base → refs = [].
Proof. intros Hl He. inversion Hl; subst; [done|lia]. Qed.

Lemma links_keys W base k end_ refs refs' :
  collision_free W → links W base k end_ refs → links W base k end_ refs' → map ref_key refs = map ref_key refs'.
Proof.
  intros Hf Hl. revert refs'. induction Hl as [k end_ He|k e r refs Hb Hn Hd Hl IH]; intros refs' Hl'.
  - by rewrite (links_nil _ _ _ _ _ Hl' He).
  - remember (xEnd e) as end_ eqn:Ee. destruct Hl' as [k end_ He|k e' r' refs' Hb' Hn' Hd' Hl']; [lia|].
    pose proof (content_fun W k.1 e' e Hf (na_content _ _ _ Hn') (na_content _ _ _ Hn)) as ->.
    rewrite !map_app. cbn [map]. rewrite (de_key _ _ _ Hd), (de_key _ _ _ Hd'). f_equal. by apply IH.
Qed.

Lemma links_take W base k end_ refs i r : links W base k end_ refs → refs !! i = Some r → links W base (ref_key r) (rEnd r) (take (S i) refs).
Proof.
  intros Hl. revert i r. induction Hl as [k end_ He|k e r0 refs Hb Hn Hd Hl IH]; intros i r; [done|].
  intros Hi. destruct (decide (i < length refs)%nat) as [Hlt|Hge].
  - rewrite lookup_app_l in Hi by done. rewrite take_app_le by lia. by apply IH.
  - pose proof (lookup_lt_Some _ _ _ Hi) as Hlen. rewrite length_app in Hlen. cbn [length] in Hlen. assert (i = length refs) as -> by lia.
    rewrite lookup_app_r, Nat.sub_diag in Hi by lia. injection Hi as ->. rewrite take_ge by (rewrite length_app; cbn [length]; lia).
    rewrite (de_key _ _ _ Hd), (de_end _ _ _ Hd). by constructor.
Qed.

Lemma links_ends W base k end_ refs r : links W base k end_ refs → r ∈ refs → base < rEnd r <= end_ ∧ rStart r <= rEnd r.
Proof.
  intros Hl. revert r. induction Hl as [k end_ He|k e r0 refs Hb Hn Hd Hl IH]; intros r; [by rewrite elem_of_nil|].
  rewrite elem_of_app, list_elem_of_singleton. pose proof (de_start _ _ _ Hd). pose proof (de_end _ _ _ Hd).
  intros [Hr| ->]; [|lia]. specialize (IH r Hr). lia.
Qed.

Lemma links_filter W base base' k end_ refs :
  base <= base' → links W base k end_ refs → links W base' k end_ (filter (λ r, base' < rEnd r) refs).
Proof.
  intros Hb Hl. induction Hl as [k end_ He|k e r refs Hb' Hn Hd Hl IH]; [constructor; lia|]. rewrite filter_app.
  destruct (decide (base' < xEnd e)) as [Hlt|Hge].
  - rewrite filter_cons_True, filter_nil by (rewrite (de_end _ _ _ Hd); done). by constructor.
  - rewrite (links_nil _ _ _ _ _ IH); [|pose proof (de_start _ _ _ Hd); lia]. rewrite filter_cons_False, filter_nil by (rewrite (de_end _ _ _ Hd); done).
    constructor. lia.
Qed.

(** References can be replaced by others to the same extents. *)
Lemma links_update W base k end_ refs refs' :
  links W base k end_ refs → Forall2 (λ r r', ∀ e k, base < xEnd e → describes e k r → describes e k r') refs refs' → links W base k end_ refs'.
Proof.
  intros Hl. revert refs'. induction Hl as [k end_ He|k e r refs Hb Hn Hd Hl IH]; intros refs' Hf.
  - apply Forall2_nil_inv_l in Hf as ->. by constructor.
  - apply Forall2_app_inv_l in Hf as (l1 & l2 & Hf1 & Hf2 & ->). apply Forall2_cons_inv_l in Hf2 as (r' & l3 & Hr & Hf3 & ->).
    apply Forall2_nil_inv_l in Hf3 as ->. constructor; [done|done|by apply Hr|by apply IH].
Qed.

Lemma cut_describes base e k r : base < xEnd e → xStart e <= base + 1 → describes e k r → describes e k (cut_ref base (prefix_at base) r).
Proof.
  intros Hb Hs [H1 H2 H3 H4 H5 H6]. split; cbn [cut_ref ref_key rHash rObject rEnd rEndPrefix rPreviousHash rPreviousObject rStart rStartPrefix];
    [by rewrite <-H1|done|done|done|lia|]. f_equal. lia.
Qed.

Lemma links_cut_first W base k end_ r refs : links W base k end_ (r :: refs) → rStart r <= base → links W base k end_ (cut_ref base (prefix_at base) r :: refs).
Proof.
  intros Hl Hr. apply (links_update _ _ _ _ _ _ Hl). constructor; [|by apply Forall_Forall2_diag, Forall_forall].
  intros e k' Hb Hd. apply cut_describes; [done| |done]. pose proof (de_start _ _ _ Hd). lia.
Qed.

Lemma links_trim W base base' k end_ refs : base <= base' → links W base k end_ refs → links W base' k end_ (trim_refs base' (prefix_at base') refs).
Proof.
  intros Hb Hl. apply (links_filter _ _ base') in Hl; [|done]. unfold trim_refs. apply (links_update _ _ _ _ _ _ Hl).
  apply Forall2_fmap_r, Forall_Forall2_diag, Forall_forall. intros r _ e k' Hb' Hd. destruct (Z.leb_spec (rStart r) base'); [|done].
  apply cut_describes; [done| |done]. pose proof (de_start _ _ _ Hd). lia.
Qed.

(** ** Spans *)

Lemma spans_app next l l' : spans next (l ++ l') = match spans next l with Some e => spans (e + 1) l' | None => None end.
Proof.
  revert next. induction l as [|r l IH]; intros next; cbn [app spans]; [f_equal; lia|]. destruct (_ =? _); [apply IH|done].
Qed.

Lemma spans_after next refs end_ : spans next refs = Some end_ → (∀ r, r ∈ refs → rStart r <= rEnd r) → next - 1 <= end_.
Proof.
  revert next. induction refs as [|r l IH]; intros next; cbn [spans]; [intros [= <-]; lia|]. destruct (Z.eqb_spec (rStart r) next); [|done]. intros Hs Hr.
  pose proof (Hr r ltac:(left)). apply IH in Hs; [lia|]. intros r' ?. apply Hr. by right.
Qed.

Lemma chain_spans next prefix refs end_ : chain_end next prefix refs = Some end_ → spans next refs = Some end_.
Proof.
  revert next prefix. induction refs as [|r l IH]; intros next prefix; cbn [chain_end spans]; [done|].
  destruct (_ =? _); cbn [andb]; [|done]. case_bool_decide; [|done]. apply IH.
Qed.

Lemma spans_chain next refs end_ :
  (∀ r, r ∈ refs → rStartPrefix r = prefix_at (rStart r - 1) ∧ rEndPrefix r = prefix_at (rEnd r)) →
  spans next refs = Some end_ → chain_end next (prefix_at (next - 1)) refs = Some end_.
Proof.
  revert next. induction refs as [|r l IH]; intros next Hr; cbn [chain_end spans]; [done|].
  destruct (Z.eqb_spec (rStart r) next) as [E|]; [|done]. intros Hs. destruct (Hr r ltac:(left)) as [H1 H2].
  rewrite H1, E, bool_decide_true by done. cbn [andb]. rewrite H2. apply (IH (rEnd r + 1)) in Hs; [|intros r' Hr'; apply Hr; by right].
  by replace (rEnd r + 1 - 1) with (rEnd r) in Hs by lia.
Qed.

Lemma trim_id base next refs end_ prefix :
  (∀ r, r ∈ refs → rStart r <= rEnd r) → spans next refs = Some end_ → base < next → trim_refs base prefix refs = refs.
Proof.
  revert next. induction refs as [|r l IH]; intros next Hr; cbn [spans]; [done|]. destruct (Z.eqb_spec (rStart r) next) as [E|]; [|done].
  pose proof (Hr r ltac:(left)). intros Hs Hb. unfold trim_refs in *. rewrite filter_cons_True by lia. cbn [map].
  destruct (Z.leb_spec (rStart r) base); [lia|]. f_equal. apply (IH (rEnd r + 1)); [|done|lia]. intros r' ?. apply Hr. by right.
Qed.

Lemma spans_trim base next refs end_ prefix :
  (∀ r, r ∈ refs → rStart r <= rEnd r) → spans next refs = Some end_ → next <= base + 1 → base <= end_ → spans (base + 1) (trim_refs base prefix refs) = Some end_.
Proof.
  revert next. induction refs as [|r l IH]; intros next Hr; cbn [spans].
  - intros [= <-] ? ?. cbn. f_equal. lia.
  - destruct (Z.eqb_spec (rStart r) next) as [E|]; [|done]. pose proof (Hr r ltac:(left)). assert (∀ r', r' ∈ l → rStart r' <= rEnd r') as Hl by (intros r' ?; apply Hr; by right).
    intros Hs Hn Hb. unfold trim_refs in *. destruct (decide (base < rEnd r)) as [Hlt|Hge].
    + rewrite filter_cons_True by done. cbn [map]. pose proof (trim_id base (rEnd r + 1) l end_ prefix Hl Hs ltac:(lia)) as E'. unfold trim_refs in E'.
      rewrite E'. cbn [spans]. destruct (Z.leb_spec (rStart r) base); cbn [cut_ref rStart rEnd]; rewrite (proj2 (Z.eqb_eq _ _)) by lia; done.
    + rewrite filter_cons_False by done. apply (IH (rEnd r + 1)); [done|done|lia|done].
Qed.
End chains.
