(* ===== verification/ArchiveLogic.v ===== *)
(** * Reasoning about processes of the archive

    The invariant of the store, what a process may do to it, and programs that
    keep these rules: an assertion of a process is kept by the steps of the
    others, and [world_rules] says that this is enough.  Triples of actions
    thread the manager; the error postcondition is shared by all errors.

    Then what a process knows: the head a manager has read, extents uploaded
    for the next head, objects under the collection lock, and the fence of a
    collection, and what these give when a head is replaced. *)

From stdpp Require Import gmap list.
From S2P Require Import Prelude Bytes Protocol Schedule Node Programs ArchiveCodec ArchiveCodecProofs Archive ArchiveChains.

Abbreviation exec := (Archive.exec sha256 genesisSlot genesisPrefix valueAt).
(** Runs in which collections keep to their tenure of GC_LOCK. *)
Abbreviation may_run := (Archive.may_run sha256 true).
Abbreviation tenured_step := (Archive.archive_step sha256 validateValue unmarshalSeal marshalSeal cluster genesisSlot genesisPrefix valueAt true).
Abbreviation tenured_run := (Archive.archive_run sha256 validateValue unmarshalSeal marshalSeal cluster genesisSlot genesisPrefix valueAt true).

(** A head and a later one. *)
Record advance (h h' : archiveHead) : Prop := {
  ad_generation : hGeneration h <= hGeneration h';
  ad_base : hBase h <= hBase h';
  ad_tip : hTip h <= hTip h';
  ad_sealed : hSealed h = true → h' = h;
}.

Lemma advance_refl h : advance h h.
Proof. by split. Qed.

Lemma advance_trans h1 h2 h3 : advance h1 h2 → advance h2 h3 → advance h1 h3.
Proof.
  intros [A1 A2 A3 A4] [B1 B2 B3 B4]. split; [lia..|]. intros H. pose proof (A4 H) as E. subst h2. auto.
Qed.

Section logic.
Context `{archiveSetting}.

(** ** Invariant *)

Definition head_at (s : archiveStore) (h : archiveHead) (v : nat) : Prop := ∃ data, headObject s = Some (data, v) ∧ decodeHead data = Some h.

(** The head reaches its base through extents of the decided log, which are
    there; slots reported as archived are behind its tip. *)
Record inv (s : archiveStore) : Prop := {
  iv_objects : ∀ k data, objects s !! k = Some data → data ∈ written s ∧ sha256 data = k.1 ∧ 1 <= k.2;
  iv_written : ∀ data, data ∈ written s → sha256 data ≠ zeroHash ∧ ∃ e, decodeExtent data = Some e ∧ good e;
  iv_free : collision_free (written s);
  iv_head : ∀ data v, headObject s = Some (data, v) →
    (v < versions s)%nat ∧ ∃ h refs, decodeHead data = Some h ∧ head_ok (written s) h refs ∧ ∀ r, r ∈ refs → is_Some (objects s !! ref_key r);
  iv_reported : ∀ t, t ∈ reported s → t = 0 ∨ ∃ h v, head_at s h v ∧ t <= hTip h;
}.

(** ** What a process may do *)

(** Steps that leave the head and the lock, and remove no object. *)
Record grows (s s' : archiveStore) : Prop := {
  gr_head : headObject s' = headObject s;
  gr_versions : versions s' = versions s;
  gr_holder : gcHolder s' = gcHolder s;
  gr_objects : ∀ k, is_Some (objects s !! k) → is_Some (objects s' !! k);
  gr_written : written s ⊆ written s';
  gr_reported : reported s ⊆ reported s';
}.

(** A new head is later than the one it replaces, and its extents were those of
    the old head or are of a later generation, unless the process collects.
    Only a collection deletes objects. *)
Record guar (i : nat) (s s' : archiveStore) : Prop := {
  gu_versions : (versions s <= versions s')%nat;
  gu_written : written s ⊆ written s';
  gu_reported : reported s ⊆ reported s';
  gu_head : headObject s' = headObject s ∨
    ∃ h' v', head_at s' h' v' ∧ (versions s <= v')%nat ∧
      ∀ h v, head_at s h v → advance h h' ∧
        ∀ refs refs', head_ok (written s) h refs → head_ok (written s') h' refs' →
          ∀ r, r ∈ refs' → ref_key r ∈ map ref_key refs ∨ hGeneration h < rObject r ∨ gcHolder s = Some i;
  gu_objects : ∀ k, is_Some (objects s !! k) → is_Some (objects s' !! k) ∨ (gcHolder s = Some i ∧ ∃ h v, head_at s h v ∧ k.2 <= hGeneration h);
  gu_holder : gcHolder s' = gcHolder s ∨ gcHolder s' = Some i ∨ gcHolder s = Some i ∧ gcHolder s' = None;
}.

Definition rely (i : nat) (s s' : archiveStore) : Prop := grows s s' ∨ ∃ j, j ≠ i ∧ guar j s s'.

Definition lasting (i : nat) (P : archiveStore → Prop) : Prop := ∀ s s', inv s → inv s' → rely i s s' → P s → P s'.

Lemma store_grows_refl s : grows s s.
Proof. by split. Qed.

Lemma grows_guar i s s' : grows s s' → guar i s s'.
Proof. intros [H1 H2 H3 H4 H5 H6]. split; [lia|done|done|by left|auto|by left]. Qed.

Lemma grows_time s t : grows s (set_time s t).
Proof. by split. Qed.

Lemma lasting_and i P Q : lasting i P → lasting i Q → lasting i (λ s, P s ∧ Q s).
Proof. intros HP HQ s s' Hi Hi' Hr [H1 H2]. split; [by apply (HP s s')|by apply (HQ s s')]. Qed.

Lemma lasting_const i (P : Prop) : lasting i (λ _, P).
Proof. intros s s' _ _ _ HP. exact HP. Qed.

Lemma lasting_all i {A} (P : A → archiveStore → Prop) : (∀ x, lasting i (P x)) → lasting i (λ s, ∀ x, P x s).
Proof. intros HP s s' Hi Hi' Hr H0 x. apply (HP x s s' Hi Hi' Hr), H0. Qed.

Lemma lasting_ex i {A} (P : A → archiveStore → Prop) : (∀ x, lasting i (P x)) → lasting i (λ s, ∃ x, P x s).
Proof. intros HP s s' Hi Hi' Hr [x Hx]. exists x. by apply (HP x s s'). Qed.

Lemma lasting_impl i (P : Prop) (Q : archiveStore → Prop) : (P → lasting i Q) → lasting i (λ s, P → Q s).
Proof. intros HQ s s' Hi Hi' Hr H0 HP. apply (HQ HP s s' Hi Hi' Hr), H0, HP. Qed.

Lemma rely_written i s s' : rely i s s' → written s ⊆ written s'.
Proof. intros [G|(j & _ & G)]; [apply (gr_written _ _ G)|apply (gu_written _ _ _ G)]. Qed.

(** Facts about uploads. *)
Lemma lasting_written i (F : list bytes → Prop) : (∀ W W', W ⊆ W' → F W → F W') → lasting i (λ s, F (written s)).
Proof. intros HF s s' _ _ Hr. apply HF. by eapply rely_written. Qed.

(** ** Programs that keep the rules *)

Fixpoint keeps (i : nat) {A} (p : prog request A) (P : archiveStore → Prop) (Q : A → archiveStore → Prop) : Prop :=
  match p with
  | Ret a => ∀ s, inv s → P s → Q a s
  | Do r k => ∀ s o, inv s → P s → may_run i r s = true →
      let s' := (exec i r o s).1 in
      inv s' ∧ guar i s s' ∧ ∃ P', lasting i P' ∧ P' s' ∧ keeps i (k (exec i r o s).2) P' Q
  end.

Lemma keeps_weaken i {A} (p : prog request A) (P P' : archiveStore → Prop) Q : (∀ s, inv s → P' s → P s) → keeps i p P Q → keeps i p P' Q.
Proof. destruct p as [a|X r k]; simpl; eauto. Qed.

Lemma keeps_given i {A} (p : prog request A) (φ : Prop) (P : archiveStore → Prop) Q : (∀ s, inv s → P s → φ) → (φ → keeps i p P Q) → keeps i p P Q.
Proof.
  intros Hφ Hp. destruct p as [a|X r k]; simpl in *; [intros s ? ?; by apply Hp; eauto|]. intros s o Hi HP Hr. apply Hp; eauto.
Qed.

Lemma keeps_post i {A} (p : prog request A) P (Q Q' : A → archiveStore → Prop) : (∀ a s, inv s → Q a s → Q' a s) → keeps i p P Q → keeps i p P Q'.
Proof.
  intros HQ. revert P. induction p as [a|X r k IH]; intros P; simpl; [by eauto|].
  intros Hp s o Hi HP Hr. destruct (Hp s o Hi HP Hr) as (? & ? & P' & ? & ? & ?). eauto 10.
Qed.

Lemma keeps_bind i {A B} (p : prog request A) (f : A → prog request B) P Q R : keeps i p P Q → (∀ a, keeps i (f a) (Q a) R) → keeps i (pbind p f) P R.
Proof.
  revert P. induction p as [a|X r k IH]; intros P; simpl.
  - intros Hp Hf. eapply keeps_weaken; [|apply Hf]. simpl. eauto.
  - intros Hp Hf s o Hi HP Hr. destruct (Hp s o Hi HP Hr) as (? & ? & P' & ? & ? & ?). split_and!; [done..|]. exists P'. eauto.
Qed.

(** Requests that only make the store grow. *)
Definition growing {X} (r : request X) : bool :=
  match r with WriteHead _ _ _ | DeleteObject _ | LockGC | UnlockGC => false | _ => true end.

Lemma exec_grows i {X} (r : request X) o s : growing r = true → grows s (exec i r o s).1.
Proof.
  destruct r; simpl; try done; unfold faulty; intros _; repeat case_match; subst; simpl; try done; split; simpl; try done; try set_solver.
  all: intros k' Hk'; destruct (decide (k' = k)) as [->|]; [rewrite lookup_insert_eq; eauto|rewrite lookup_insert_ne by done; done].
Qed.

Definition quiet {A} (p : prog request A) : Prop := asks (λ X (r : request X), growing r = true) (λ _, True) p.

(** What the others keep is kept by a program that makes the store grow. *)
Lemma keeps_frame i {A} (p : prog request A) P Q R : quiet p → lasting i R → keeps i p P Q → keeps i p (λ s, P s ∧ R s) (λ a s, Q a s ∧ R s).
Proof.
  intros Hq HR. revert P. induction p as [a|X r k IH]; intros P; simpl.
  - intros Hp s Hi []. auto.
  - destruct Hq as [Hg Hq]. intros Hp s o Hi [HP HRs] Hr. destruct (Hp s o Hi HP Hr) as (Hi' & HG & P' & HP' & HPs' & Hk).
    split_and!; [done|done|]. exists (λ s, P' s ∧ R s). split; [by apply lasting_and|]. split; [split; [done|]|apply IH; [apply Hq|done]].
    apply (HR s); [done|done| |done]. left. by apply exec_grows.
Qed.

(** An assertion that holds against every process is kept by all programs. *)
Lemma keeps_frame_any i {A} (p : prog request A) P Q R : (∀ j, lasting j R) → keeps i p P Q → keeps i p (λ s, P s ∧ R s) (λ a s, Q a s ∧ R s).
Proof.
  intros HR. revert P. induction p as [a|X r k IH]; intros P; simpl.
  - intros Hp s Hi []. auto.
  - intros Hp s o Hi [HP HRs] Hr. destruct (Hp s o Hi HP Hr) as (Hi' & HG & P' & HP' & HPs' & Hk).
    split_and!; [done|done|]. exists (λ s, P' s ∧ R s). split; [by apply lasting_and|]. split; [split; [done|]|by apply IH].
    apply (HR (S i) s); [done|done| |done]. right. exists i. split; [lia|done].
Qed.

(** ** Triples of actions *)

Definition outcome_of {A} (Q : A → manager → archiveStore → Prop) (E : manager → archiveStore → Prop) (x : manager * result archiveError A) (s : archiveStore) : Prop :=
  match x.2 with Ok a => Q a x.1 s | Err _ => E x.1 s end.

Definition triple (i : nat) {A} (P : manager → archiveStore → Prop) (p : action A) (Q : A → manager → archiveStore → Prop) (E : manager → archiveStore → Prop) : Prop :=
  ∀ m, keeps i (p m) (P m) (outcome_of Q E).

Lemma t_conseq i {A} (p : action A) (P P' : manager → archiveStore → Prop) (Q Q' : A → manager → archiveStore → Prop) (E E' : manager → archiveStore → Prop) :
  (∀ m s, inv s → P' m s → P m s) → (∀ a m s, inv s → Q a m s → Q' a m s) → (∀ m s, inv s → E m s → E' m s) → triple i P p Q E → triple i P' p Q' E'.
Proof.
  intros HP HQ HE Hp m. eapply keeps_weaken; [intros s Hi; apply HP, Hi|]. eapply keeps_post; [|apply Hp]. intros [m' [a|e]]; simpl; unfold outcome_of; simpl; eauto.
Qed.

Lemma t_pre i {A} (p : action A) (P P' : manager → archiveStore → Prop) (Q : A → manager → archiveStore → Prop) E :
  (∀ m s, inv s → P' m s → P m s) → triple i P p Q E → triple i P' p Q E.
Proof. intros HP. by apply t_conseq. Qed.

Lemma t_post i {A} (p : action A) (P : manager → archiveStore → Prop) (Q Q' : A → manager → archiveStore → Prop) E :
  (∀ a m s, inv s → Q a m s → Q' a m s) → triple i P p Q E → triple i P p Q' E.
Proof. intros HQ. by apply t_conseq. Qed.

Lemma t_given i {A} (p : action A) (φ : Prop) (P : manager → archiveStore → Prop) (Q : A → manager → archiveStore → Prop) E :
  (∀ m s, inv s → P m s → φ) → (φ → triple i P p Q E) → triple i P p Q E.
Proof. intros Hφ Hp m. apply (keeps_given _ _ φ); [intros s; apply Hφ|]. intros H0. by apply Hp. Qed.

Lemma t_ex i {A B} (p : action A) (P : B → manager → archiveStore → Prop) (Q : A → manager → archiveStore → Prop) E :
  (∀ b, triple i (P b) p Q E) → triple i (λ m s, ∃ b, P b m s) p Q E.
Proof.
  intros Hp m. specialize (λ b, Hp b m). destruct (p m) as [x|X r k]; simpl in *; [intros s Hi [b Hb]; eauto|].
  intros s o Hi [b Hb] Hr. apply (Hp b s o Hi Hb Hr).
Qed.

Lemma t_bind i {A B} (p : action A) (f : A → action B) P Q R E : triple i P p Q E → (∀ a, triple i (Q a) (f a) R E) → triple i P (abind p f) R E.
Proof. intros Hp Hf m. eapply keeps_bind; [apply Hp|]. intros [m' [a|e]]; [apply (Hf a m')|]. simpl. intros s _ HE. exact HE. Qed.

Lemma t_pure i {A} (a : A) P (Q : A → manager → archiveStore → Prop) E : (∀ m s, inv s → P m s → Q a m s) → triple i P (pure a) Q E.
Proof. intros HP m s. apply HP. Qed.

Lemma t_fail i {A} e P (Q : A → manager → archiveStore → Prop) E : (∀ m s, inv s → P m s → E m s) → triple i P (fail e) Q E.
Proof. intros HP m s. apply HP. Qed.

Lemma t_self i P (Q : manager → manager → archiveStore → Prop) E : (∀ m s, inv s → P m s → Q m m s) → triple i P self Q E.
Proof. intros HP m s. apply HP. Qed.

Lemma t_become i m' P (Q : unit → manager → archiveStore → Prop) E : (∀ m s, inv s → P m s → Q tt m' s) → triple i P (become m') Q E.
Proof. intros HP m s. apply HP. Qed.

Lemma t_attempt i {A} (p : action A) P (Q : A → manager → archiveStore → Prop) E :
  triple i P p Q E → ∀ E', triple i P (attempt p) (λ r m s, match r with Ok a => Q a m s | Err _ => E m s end) E'.
Proof. intros Hp E' m. eapply keeps_bind; [apply Hp|]. intros [m' [a|e]]; simpl; intros s _ HQ; exact HQ. Qed.

Lemma t_ask i {X} (r : request X) P (Q : X → manager → archiveStore → Prop) E :
  growing r = true → (∀ x m, lasting i (Q x m)) →
  (∀ m s o, inv s → P m s → may_run i r s = true → inv (exec i r o s).1 ∧ Q (exec i r o s).2 m (exec i r o s).1) → triple i P (ask r) Q E.
Proof.
  intros Hg HQ Hp m s o Hi HP Hr. destruct (Hp m s o Hi HP Hr) as [Hi' HQ']. split_and!; [done|by apply grows_guar, exec_grows|].
  exists (Q (exec i r o s).2 m). split_and!; [apply HQ|done|]. simpl. auto.
Qed.

(** A request whose answer and effect do not matter. *)
Lemma t_ask_any i {X} (r : request X) P E :
  growing r = true → (∀ m, lasting i (P m)) → (∀ o s, inv s → may_run i r s = true → inv (exec i r o s).1) → triple i P (ask r) (λ _, P) E.
Proof.
  intros Hg HP Hr. apply t_ask; [done|done|]. intros m s o Hi HPs Hm. assert (inv (exec i r o s).1) as Hi' by auto. split; [done|].
  apply (HP m s); [done|done| |done]. left. by apply exec_grows.
Qed.

Lemma t_need i {X} (r : request (result storeError X)) P (Q : X → manager → archiveStore → Prop) E :
  triple i P (ask r) (λ x m s, match x with Ok a => Q a m s | Err _ => E m s end) E → triple i P (need r) Q E.
Proof.
  intros Hp m s o Hi HP Hr. destruct (Hp m s o Hi HP Hr) as (Hi' & HG & P' & HP' & HPs & Hk). split_and!; [done|done|]. exists P'. split_and!; [done|done|].
  simpl in *. intros s' Hs' HP0. specialize (Hk s' Hs' HP0). unfold outcome_of in *. simpl in *. by destruct (exec i r o s).2.
Qed.

(** Another manager for the time of an action. *)
Lemma t_with_manager i {A} m' (p : action A) P P0 (Q : A → manager → archiveStore → Prop) E (R : manager * A → manager → archiveStore → Prop) E' :
  (∀ m, lasting i (P m)) → quiet (p m') ∨ (∀ m j, lasting j (P m)) → (∀ m s, inv s → P m s → P0 s) →
  triple i (λ m s, m = m' ∧ P0 s) p Q E →
  (∀ m m'' a s, inv s → P m s → Q a m'' s → R (m'', a) m s) → (∀ m m'' s, inv s → P m s → E m'' s → E' m s) → triple i P (with_manager m' p) R E'.
Proof.
  intros HP Hq H0 Hp HR HE m. eapply keeps_bind.
  - eapply keeps_weaken; [|destruct Hq as [Hq|Hq]; [exact (keeps_frame i _ _ _ (P m) Hq (HP m) (Hp m'))|exact (keeps_frame_any i _ _ _ (P m) (Hq m) (Hp m'))]].
    simpl. intros s Hi HPs. split; [|done]. split; [done|]. eauto.
  - intros [m'' [a|e]]; simpl; intros s Hi [HQ HPs]; unfold outcome_of in *; simpl in *; eauto.
Qed.

(** The frame rule for quiet actions. *)
Lemma t_frame i {A} (p : action A) P (Q : A → manager → archiveStore → Prop) E R :
  (∀ m, quiet (p m)) → lasting i R → triple i P p Q E → triple i (λ m s, P m s ∧ R s) p (λ a m s, Q a m s ∧ R s) (λ m s, E m s ∧ R s).
Proof.
  intros Hq HR Hp m. eapply keeps_post; [|by apply keeps_frame, Hp]. intros [m' [a|e]] s _; simpl; unfold outcome_of; simpl; tauto.
Qed.

(** ** Worlds *)

Definition session_ok (s : archiveStore) (i : nat) (p : prog request unit) : Prop := ∃ P, lasting i P ∧ P s ∧ keeps i p P (λ _ _, True).

Record world_ok (w : archiveWorld) : Prop := {
  wo_inv : inv (archive w);
  wo_sessions : ∀ i p, sessions w !! i = Some p → session_ok (archive w) i p;
}.

Lemma inv_time s t : inv s → inv (set_time s t).
Proof. intros [H1 H2 H3 H4 H5]. by split. Qed.

Lemma session_rely s s' i p : inv s → inv s' → rely i s s' → session_ok s i p → session_ok s' i p.
Proof. intros Hi Hi' Hr (P & Hs & HP & Hok). exists P. split_and!; [done|by apply (Hs s s')|done]. Qed.

Lemma empty_archive_inv : inv empty_archive.
Proof. split; simpl; try set_solver. intros x y Hx. set_solver. Qed.

Definition sessions_keep : Prop := ∀ i ops,
  forallb (certified sha256 genesisSlot genesisPrefix valueAt) ops = true →
  keeps i (pbind (session sha256 validateValue unmarshalSeal marshalSeal ops (NewManager cluster)) (λ _, Ret tt)) (λ _, True) (λ _ _, True).

Definition store_step (s s' : archiveStore) : Prop := ∃ i, guar i s s'.

Lemma step_rules e w w' : sessions_keep → world_ok w → tenured_step e w = Some w' → world_ok w' ∧ store_step (archive w) (archive w').
Proof.
  intros Hkeep [Hi Hp]. destruct e as [d|ops|i o]; simpl.
  - destruct (Z.leb_spec 0 d); [|done]. intros [= <-]. split; [|exists 0%nat; apply grows_guar, grows_time]. split; simpl; [by apply inv_time|].
    intros j p Hj. apply (session_rely (archive w)); [done|by apply inv_time| |by apply Hp]. left. apply grows_time.
  - destruct (forallb _ ops) eqn:Ec; [|done]. intros [= <-]. split; [|exists 0%nat; apply grows_guar, store_grows_refl]. split; simpl; [done|].
    intros j p [Hj|[_ Hj]]%lookup_app_Some; [by apply Hp|].
    apply list_lookup_singleton_Some in Hj as [_ <-]. exists (λ _, True). split_and!; [apply lasting_const|done|by apply Hkeep].
  - destruct (sessions w !! i) as [[a|X r k]|] eqn:Ei; [done| |done]. destruct (may_run i r (archive w)) eqn:Er; [|done].
    destruct (exec i r o (archive w)) as [s' x] eqn:Ex. intros [= <-]. destruct (Hp _ _ Ei) as (P & Hs & HP & Hok).
    destruct (Hok (archive w) o Hi HP Er) as (Hi' & Hg & P' & Hs' & HP' & Hok'). rewrite Ex in Hi', Hg, HP', Hok'. simpl in *.
    split; [|by exists i]. split; simpl; [done|]. intros j p [(<- & <- & _)|[Hne Hj]]%list_lookup_insert_Some; [by exists P'|].
    apply (session_rely (archive w)); [done|done| |by apply Hp]. right. by exists i.
Qed.

Lemma run_rules es w w' : sessions_keep → world_ok w → tenured_run es w = Some w' → world_ok w' ∧ rtc store_step (archive w) (archive w').
Proof.
  intros Hkeep. revert w. induction es as [|e es IH]; intros w Hw; simpl.
  - intros [= <-]. split; [done|apply rtc_refl].
  - destruct (tenured_step e w) as [w1|] eqn:E; [|done]. intros Hrun. destruct (step_rules _ _ _ Hkeep Hw E) as [Hw1 Hs]. destruct (IH _ Hw1 Hrun) as [? ?].
    split; [done|]. by eapply rtc_l.
Qed.

Lemma world_rules es w : sessions_keep → tenured_run es archive_start = Some w → world_ok w.
Proof. intros Hkeep Hrun. refine (proj1 (run_rules _ _ _ Hkeep _ Hrun)). split; [apply empty_archive_inv|done]. Qed.
End logic.

Create HintDb lasting.
#[global] Hint Resolve lasting_const : lasting.

(** Assertions that last, by the hints of their parts. *)
Ltac lasts :=
  lazymatch goal with
  | |- lasting _ (λ s, @?P s ∧ @?Q s) => apply (lasting_and _ P Q); [lasts|lasts]
  | |- lasting _ (λ s, ?P → @?Q s) => apply (lasting_impl _ P Q); intros ?; lasts
  | |- lasting _ (λ s, ∀ x, @?P x s) => apply (lasting_all _ P); intros ?; lasts
  | |- lasting _ (λ s, ∃ x, @?P x s) => apply (lasting_ex _ P); intros ?; lasts
  | _ => solve [eauto with lasting]
  end.

Section views.
Context `{archiveSetting}.

(** ** The head *)

(** A head the process has read, with its version. *)
Definition seen (v : nat) (h : archiveHead) (s : archiveStore) : Prop :=
  (v < versions s)%nat ∧ ∃ h' v', head_at s h' v' ∧ (v <= v')%nat ∧ (v' = v → h' = h) ∧ advance h h'.

(** The local state of a manager: its cache, and its head with the references
    of its extents. *)
Record mgr (c : Z) (m : manager) (s : archiveStore) : Prop := {
  mg_config : mConfigID m = c;
  mg_cache : ∀ k e, (k, e) ∈ mCache m → content (written s) k.1 e;
  mg_head :
    match mHeadCAS m with
    | None => mExtents m = [] ∧ ∃ c', mHead m = empty_head c'
    | Some v => c = cluster ∧ head_ok (written s) (mHead m) (mExtents m) ∧ seen v (mHead m) s
    end;
}.

(** An extent for the next head: it stays while the head does. *)
Definition prepared (cas : option nat) (k : objectKey) (s : archiveStore) : Prop := snd <$> headObject s = cas → is_Some (objects s !! k).

(** An object that stays while the process holds GC_LOCK. *)
Definition held (i : nat) (k : objectKey) (s : archiveStore) : Prop := gcHolder s = Some i → is_Some (objects s !! k).

(** While the process holds GC_LOCK, the head uses no extent up to the
    generation [g] that is not in [keep]. *)
Definition fenced (i : nat) (keep : list objectKey) (g : Z) (s : archiveStore) : Prop :=
  gcHolder s = Some i → g = 0 ∨
    ∃ h v, head_at s h v ∧ g <= hGeneration h ∧ ∀ refs, head_ok (written s) h refs → ∀ r, r ∈ refs → rObject r <= g → ref_key r ∈ keep.

(** The manager has read the head while the process holds GC_LOCK. *)
Definition current (i : nat) (c : Z) (m : manager) (s : archiveStore) : Prop :=
  mgr c m s ∧ fenced i (live_keys m) (hGeneration (mHead m)) s.

(** Some head covers a slot. *)
Definition covered (t : Z) (s : archiveStore) : Prop := t = 0 ∨ ∃ h v, head_at s h v ∧ t <= hTip h.

Lemma head_at_fun s h v h' v' : head_at s h v → head_at s h' v' → h' = h ∧ v' = v.
Proof. intros (d & E & D) (d' & E' & D'). by simplify_eq. Qed.

Lemma head_at_version s h v : head_at s h v → snd <$> headObject s = Some v.
Proof. intros (d & E & _). by rewrite E. Qed.

Lemma inv_head_at s h v : inv s → head_at s h v →
  (v < versions s)%nat ∧ ∃ refs, head_ok (written s) h refs ∧ ∀ r, r ∈ refs → is_Some (objects s !! ref_key r).
Proof. intros Hi (d & E & D). destruct (iv_head _ Hi _ _ E) as (? & h' & refs & D' & ?). simplify_eq. eauto. Qed.

Lemma head_ok_keys s h refs refs' : inv s → head_ok (written s) h refs → head_ok (written s) h refs' → map ref_key refs = map ref_key refs'.
Proof. intros Hi H1 H2. apply (links_keys _ _ _ _ _ _ (iv_free _ Hi) (ho_links _ _ _ H1) (ho_links _ _ _ H2)). Qed.

Lemma key_of refs refs' r : map ref_key refs = map ref_key refs' → r ∈ refs' → ∃ r', r' ∈ refs ∧ ref_key r = ref_key r'.
Proof.
  intros E Hr. assert (ref_key r ∈ map ref_key refs) as Hk by (rewrite E; by apply list_elem_of_fmap_2). apply list_elem_of_fmap in Hk as (r' & ? & ?). eauto.
Qed.

(** ** What the others keep *)

Lemma rely_version_le i s s' : rely i s s' → (versions s <= versions s')%nat.
Proof. intros [G|(j & _ & G)]; [rewrite (gr_versions _ _ G); done|apply (gu_versions _ _ _ G)]. Qed.

Lemma rely_head i s s' : rely i s s' →
  headObject s' = headObject s ∨ ∃ h' v', head_at s' h' v' ∧ (versions s <= v')%nat ∧ ∀ h v, head_at s h v → advance h h'.
Proof.
  intros [G|(j & _ & G)]; [left; apply (gr_head _ _ G)|]. destruct (gu_head _ _ _ G) as [E|(h' & v' & Hh & Hv & Ha)]; [by left|right].
  exists h', v'. split_and!; [done|done|]. intros h v Hhv. apply (Ha h v Hhv).
Qed.

Lemma rely_holder i s s' : rely i s s' → gcHolder s' = Some i → gcHolder s = Some i.
Proof. intros [G|(j & Hj & G)] E; [by rewrite <-(gr_holder _ _ G)|]. destruct (gu_holder _ _ _ G) as [?|[?|[? ?]]]; congruence. Qed.

Lemma rely_objects i s s' k : rely i s s' → is_Some (objects s !! k) →
  is_Some (objects s' !! k) ∨ gcHolder s ≠ Some i ∧ ∃ h v, head_at s h v ∧ k.2 <= hGeneration h.
Proof.
  intros [G|(j & Hj & G)] Hk; [left; by apply (gr_objects _ _ G)|]. destruct (gu_objects _ _ _ G k Hk) as [?|[E ?]]; [by left|right].
  split; [congruence|done].
Qed.

Lemma rely_at i s s' h v : rely i s s' → head_at s h v → ∃ h' v', head_at s' h' v' ∧ advance h h'.
Proof.
  intros Hr Hh. destruct (rely_head _ _ _ Hr) as [E|(h' & v' & Hh' & _ & Ha)]; [|by eauto]. exists h, v. split; [|apply advance_refl].
  destruct Hh as (d & Ed & D). exists d. by rewrite E.
Qed.

Lemma lasting_seen i v h : lasting i (seen v h).
Proof.
  intros s s' Hi Hi' Hr (Hv & h1 & v1 & H1 & Hle & Heq & Ha). split; [pose proof (rely_version_le _ _ _ Hr); lia|].
  destruct (rely_head _ _ _ Hr) as [E|(h' & v' & Hh' & Hv' & Ha')].
  - exists h1, v1. split_and!; [|done..]. destruct H1 as (d & Ed & D). exists d. by rewrite E.
  - exists h', v'. split_and!; [done|lia|lia|]. by eapply advance_trans; [|eapply Ha'].
Qed.

Lemma lasting_mgr i c m : lasting i (mgr c m).
Proof.
  intros s s' Hi Hi' Hr [H1 H2 H3]. pose proof (rely_written _ _ _ Hr) as Hw. split; [done|intros k e He; by eapply content_mono, H2|].
  destruct (mHeadCAS m) as [v|]; [|done]. destruct H3 as (E & Hh & Hs). split_and!; [done|by eapply head_ok_mono|by apply (lasting_seen i v _ s)].
Qed.

Lemma lasting_held i k : lasting i (held i k).
Proof.
  intros s s' Hi Hi' Hr Hk Eh. apply (rely_holder _ _ _ Hr) in Eh. destruct (rely_objects _ _ _ k Hr (Hk Eh)) as [?|[? _]]; [done|congruence].
Qed.

Lemma lasting_covered i t : lasting i (covered t).
Proof.
  intros s s' Hi Hi' Hr [?|(h & v & Hh & Ht)]; [by left|right]. destruct (rely_at _ _ _ _ _ Hr Hh) as (h' & v' & ? & Ha). exists h', v'. split; [done|].
  pose proof (ad_tip _ _ Ha). lia.
Qed.

(** The version of the head of a manager. *)
Lemma mgr_version c m s : mgr c m s → snd <$> headObject s = mHeadCAS m → match mHeadCAS m with None => headObject s = None | Some v => head_at s (mHead m) v end.
Proof.
  intros [_ _ Hm] E. destruct (mHeadCAS m) as [v|]; [|by destruct (headObject s)]. destruct Hm as (_ & _ & _ & h' & v' & Hh & _ & Heq & _).
  pose proof (head_at_version _ _ _ Hh). assert (v' = v) as Ev by congruence. rewrite <-(Heq Ev). by subst.
Qed.

Lemma mgr_new_head c m s v' : mgr c m s → (versions s <= v')%nat → mHeadCAS m ≠ Some v'.
Proof. intros [_ _ Hm] Hv E. rewrite E in Hm. destruct Hm as (_ & _ & ? & _). lia. Qed.

Lemma lasting_prepared i c m k : hGeneration (mHead m) < k.2 → lasting i (λ s, mgr c m s ∧ prepared (mHeadCAS m) k s).
Proof.
  intros Hk s s' Hi Hi' Hr [Hm Hp]. split; [by apply (lasting_mgr i c m s)|]. intros Ev. destruct (rely_head _ _ _ Hr) as [E|(h' & v' & Hh' & Hv' & _)].
  - rewrite E in Ev. destruct (rely_objects _ _ _ k Hr (Hp Ev)) as [?|(_ & h & v & Hh & Hg)]; [done|].
    pose proof (mgr_version _ _ _ Hm Ev) as Hc. destruct (mHeadCAS m) as [v0|].
    + destruct (head_at_fun _ _ _ _ _ Hc Hh) as [-> _]. lia.
    + destruct Hh as (d & Ed & _). congruence.
  - pose proof (head_at_version _ _ _ Hh'). destruct (mgr_new_head c m s v' Hm Hv'). congruence.
Qed.

Lemma lasting_fenced i keep g : lasting i (fenced i keep g).
Proof.
  intros s s' Hi Hi' Hr Hf Eh. pose proof (rely_holder _ _ _ Hr Eh) as Eh0. destruct (Hf Eh0) as [?|(h & v & Hh & Hg & Hk)]; [by left|right].
  destruct (inv_head_at _ _ _ Hi Hh) as (_ & refs & Hok & _).
  assert (headObject s' = headObject s → ∃ h v, head_at s' h v ∧ g <= hGeneration h ∧ ∀ refs, head_ok (written s') h refs → ∀ r, r ∈ refs → rObject r <= g → ref_key r ∈ keep) as Hsame.
  { intros E. exists h, v. split_and!; [|done|].
    - destruct Hh as (d & Ed & D). exists d. by rewrite E.
    - intros refs' Hok' r Hrr Hle. apply (head_ok_mono _ (written s')) in Hok as Hok2; [|by eapply rely_written].
      destruct (key_of refs refs' r) as (r0 & Hr0 & E0); [by eapply head_ok_keys|done|]. rewrite E0. apply (Hk refs Hok); [done|]. unfold ref_key in E0. congruence. }
  destruct Hr as [G|(j & Hj & G)]; [apply Hsame, (gr_head _ _ G)|]. destruct (gu_head _ _ _ G) as [E|(h' & v' & Hh' & _ & Ha)]; [by apply Hsame|].
  destruct (Ha h v Hh) as [Had Hrefs]. exists h', v'. split_and!; [done|pose proof (ad_generation _ _ Had); lia|].
  intros refs' Hok' r Hrr Hle. destruct (Hrefs refs refs' Hok Hok' r Hrr) as [Hkey|[?|?]]; [|lia|congruence].
  apply list_elem_of_fmap in Hkey as (r0 & E0 & Hr0). rewrite E0. apply (Hk refs Hok); [done|]. unfold ref_key in E0. congruence.
Qed.

Lemma lasting_current i c m : lasting i (current i c m).
Proof. unfold current. apply lasting_and; [apply lasting_mgr|apply lasting_fenced]. Qed.
#[local] Hint Resolve lasting_seen lasting_mgr lasting_held lasting_covered lasting_fenced lasting_current : lasting.

(** The fence of the head that is there. *)
Lemma fenced_at i s h v refs : inv s → head_at s h v → head_ok (written s) h refs → fenced i (map ref_key refs) (hGeneration h) s.
Proof.
  intros Hi Hh Hok _. right. exists h, v. split_and!; [done|done|]. intros refs' Hok' r Hr _. rewrite (head_ok_keys s h refs refs') by done. by apply list_elem_of_fmap_2.
Qed.

(** ** Replacing the head *)

(** A head [h'] that can replace the one of the manager. *)
Record next_ok (i : nat) (m : manager) (h' : archiveHead) (refs' : list ref) (collecting : bool) (s : archiveStore) : Prop := {
  nx_head : head_ok (written s) h' refs';
  nx_advance : mHeadCAS m ≠ None → advance (mHead m) h';
  nx_extents : ∀ r, r ∈ refs' → ref_key r ∈ live_keys m ∨
    (hGeneration (mHead m) < rObject r ∧ prepared (mHeadCAS m) (ref_key r) s) ∨ (collecting = true ∧ held i (ref_key r) s);
}.

Lemma lasting_next i c m h' refs' collecting : lasting i (λ s, mgr c m s ∧ next_ok i m h' refs' collecting s).
Proof.
  intros s s' Hi Hi' Hr [Hm [H1 H2 H3]]. split; [by apply (lasting_mgr i c m s)|]. split; [eapply head_ok_mono; [by eapply rely_written|done]|done|].
  intros r Hrr. destruct (H3 r Hrr) as [?|[[Hg Hp]|[? Hh]]]; [by left|right; left|right; right].
  - split; [done|]. by apply (lasting_prepared i c m (ref_key r) Hg s s').
  - split; [done|]. by apply (lasting_held i (ref_key r) s s').
Qed.

(** The keys of the head the manager has read are there while it is. *)
Lemma live_present c m s k : inv s → mgr c m s → snd <$> headObject s = mHeadCAS m → k ∈ live_keys m → is_Some (objects s !! k).
Proof.
  intros Hi Hm Ev Hk. pose proof (mgr_version _ _ _ Hm Ev) as Hc. destruct Hm as [_ _ Hm]. destruct (mHeadCAS m) as [v|].
  - destruct Hm as (_ & Hok & _). destruct (inv_head_at _ _ _ Hi Hc) as (_ & refs & Hok' & Hp). unfold live_keys in Hk.
    rewrite <-(head_ok_keys s _ _ _ Hi Hok' Hok) in Hk. apply list_elem_of_fmap in Hk as (r & -> & Hr). by apply Hp.
  - destruct Hm as [E _]. unfold live_keys in Hk. rewrite E in Hk. by apply elem_of_nil in Hk.
Qed.

Definition cas_condition (cas : option nat) : condition := match cas with None => IfNotExists | Some v => IfMatch v end.

Lemma met_cas cas version : met (cas_condition cas) version = true → version = cas.
Proof. destruct cas; simpl; intros E%bool_decide_eq_true; done. Qed.

Section replace.
Context (i : nat) (c : Z) (m : manager) (h' : archiveHead) (refs' : list ref) (collecting : bool) (data : bytes) (s : archiveStore).
Context (Hi : inv s) (Hm : mgr c m s) (Hn : next_ok i m h' refs' collecting s) (Hd : decodeHead data = Some h') (Ev : snd <$> headObject s = mHeadCAS m)
  (Hrun : collecting = true → gcHolder s = Some i).

Lemma next_present r : r ∈ refs' → is_Some (objects s !! ref_key r).
Proof.
  intros Hr. destruct (nx_extents _ _ _ _ _ _ Hn r Hr) as [Hk|[[_ Hp]|[Hc Hk]]]; [by eapply live_present|by apply Hp|by apply Hk, Hrun].
Qed.

Lemma put_head_at : head_at (put_head data s) h' (versions s).
Proof. exists data. done. Qed.

Lemma old_advance h v : head_at s h v → h = mHead m ∧ advance h h'.
Proof.
  intros Hh. pose proof (mgr_version _ _ _ Hm Ev) as Hc. pose proof (nx_advance _ _ _ _ _ _ Hn) as Ha. destruct (mHeadCAS m) as [v0|].
  - destruct (head_at_fun _ _ _ _ _ Hc Hh) as [-> _]. auto.
  - destruct Hh as (d & Ed & _). congruence.
Qed.

Lemma put_head_inv : inv (put_head data s).
Proof.
  pose proof Hi as [H1 H2 H3 H4 H5]. split; cbn [put_head objects written headObject versions reported]; [done..| |].
  - intros data' v' E. apply (inj Some), (inj2 pair) in E as [<- <-]. split; [lia|]. exists h', refs'. split_and!; [done|apply (nx_head _ _ _ _ _ _ Hn)|apply next_present].
  - intros t Ht. destruct (H5 t Ht) as [?|(h & v & Hh & Hle)]; [by left|right]. destruct (old_advance h v Hh) as [_ Ha].
    exists h', (versions s). split; [apply put_head_at|pose proof (ad_tip _ _ Ha); lia].
Qed.

Lemma put_head_guar : guar i s (put_head data s).
Proof.
  split; cbn [put_head objects written headObject versions reported gcHolder]; [lia|done|done| |by left|by left]. right. exists h', (versions s).
  split_and!; [apply put_head_at|done|]. intros h v Hh. destruct (old_advance h v Hh) as [E Ha]. split; [done|]. intros refs1 refs2 Hok1 Hok2 r Hr.
  destruct (key_of refs' refs2 r) as (r' & Hr' & Er); [apply (head_ok_keys s h'); [done|apply (nx_head _ _ _ _ _ _ Hn)|done]|done|]. rewrite Er.
  destruct (nx_extents _ _ _ _ _ _ Hn r' Hr') as [Hk|[[Hg _]|[Hc _]]].
  - left. pose proof (mgr_version _ _ _ Hm Ev) as Hcur. pose proof (mg_head _ _ _ Hm) as Hmh. destruct (mHeadCAS m) as [v0|].
    + destruct Hmh as (_ & Hok & _). unfold live_keys in Hk. by rewrite (head_ok_keys s h refs1 (mExtents m)) by (rewrite ?E in *; done).
    + destruct Hh as (d & Ed & _). congruence.
  - right. left. subst h. unfold ref_key in Er. by replace (rObject r) with (rObject r') by congruence.
  - right. right. by apply Hrun.
Qed.

Lemma put_head_mgr : mgr c m (put_head data s).
Proof.
  destruct Hm as [H1 H2 H3]. split; [done|done|]. destruct (mHeadCAS m) as [v|] eqn:Ec; [|done]. destruct H3 as (E & Hok & Hs & h1 & v1 & Hh1 & Hle & Heq & Ha).
  split_and!; [done|done|]. split; cbn [put_head versions]; [lia|]. exists h', (versions s). split_and!; [apply put_head_at|lia|lia|].
  apply (nx_advance _ _ _ _ _ _ Hn). congruence.
Qed.
End replace.
End views.

#[export] Hint Resolve lasting_seen lasting_mgr lasting_held lasting_covered lasting_fenced lasting_current : lasting.
