(* ===== verification/ArchiveReads.v ===== *)
(** * Reading the archive

    What a process knows after it has read an extent, the head, and the chain
    behind it: [Load] establishes the manager's view of the head. *)

From stdpp Require Import gmap list.
From S2P Require Import Prelude Bytes Protocol Schedule Node Programs ArchiveCodec ArchiveCodecProofs Archive ArchiveChains ArchiveLogic.

#[global] Arguments abind : simpl never.
#[global] Arguments attempt : simpl never.
#[global] Arguments triple : simpl never.
#[global] Arguments Archive.exec : simpl never.

Abbreviation readExtent := (Archive.readExtent sha256 validateValue).
Abbreviation readStableObject := Archive.readStableObject.
Abbreviation walk := (Archive.walk sha256 validateValue).
Abbreviation cut_boundary := (Archive.cut_boundary sha256 validateValue).
Abbreviation loadHead := (Archive.loadHead sha256 validateValue unmarshalSeal).
Abbreviation load_attempts := (Archive.load_attempts sha256 validateValue unmarshalSeal).
Abbreviation Load := (Archive.Load sha256 validateValue unmarshalSeal).
Abbreviation extentForRef := (Archive.extentForRef sha256 validateValue).
Abbreviation collect_refs := (Archive.collect_refs sha256 validateValue).
Abbreviation DecisionsFrom := (Archive.DecisionsFrom sha256 validateValue).

(** ** Quiet actions *)

Section quiet.
Definition quiet_action {A} (p : action A) : Prop := ∀ m, quiet (p m).

Lemma q_bind {A B} (p : action A) (f : A → action B) : quiet_action p → (∀ a, quiet_action (f a)) → quiet_action (abind p f).
Proof. intros Hp Hf m. eapply asks_bind; [apply Hp|]. intros [m' [a|e]] _; [apply Hf|done]. Qed.

Lemma q_attempt {A} (p : action A) : quiet_action p → quiet_action (attempt p).
Proof. intros Hp m. eapply asks_bind; [apply Hp|]. by intros [m' r] _. Qed.

Lemma q_pure {A} (a : A) : quiet_action (pure a).
Proof. by intros m. Qed.

Lemma q_fail {A} e : quiet_action (@fail A e).
Proof. by intros m. Qed.

Lemma q_self : quiet_action self.
Proof. by intros m. Qed.

Lemma q_become m' : quiet_action (become m').
Proof. by intros m. Qed.

Lemma q_ask {X} (r : request X) : growing r = true → quiet_action (ask r).
Proof. intros Hr m. by split. Qed.

Lemma q_need {X} (r : request (result storeError X)) : growing r = true → quiet_action (need r).
Proof. intros Hr m. by split. Qed.
End quiet.

Create HintDb quiet.
#[global] Hint Resolve q_pure q_fail q_self q_become : quiet.

Ltac quietly :=
  repeat first
    [ solve [eauto with quiet] | apply q_bind | apply q_attempt | apply q_ask; reflexivity | apply q_need; reflexivity
    | progress intros | case_match ].

Section reads.
Context `{archiveSetting} (i : nat).

(** Requests that change nothing. *)
Definition reading {X} (r : request X) : bool :=
  match r with
  | Now | Choice | Page _ _ | PrefixHash _ | SourceTip | AttrHead | GetHead | GetObject _ | ListObjects | ListMarkers | GetIntent | PinnedGeneration => true
  | _ => false
  end.

Lemma exec_reading {X} (r : request X) o s : reading r = true → (exec i r o s).1 = s.
Proof. destruct r; simpl; try done; unfold Archive.exec, faulty; by destruct (fault o) as [[[] ?]|]. Qed.

Lemma reading_growing {X} (r : request X) : reading r = true → growing r = true.
Proof. by destruct r. Qed.

(** A request that changes nothing: the assertion stays, and the answer may add
    to it. *)
Lemma t_read {X} (r : request X) (P : manager → archiveStore → Prop) (Q : X → manager → archiveStore → Prop) E :
  reading r = true → (∀ x m, lasting i (Q x m)) → (∀ m s o, inv s → P m s → Q (exec i r o s).2 m s) → triple i P (ask r) Q E.
Proof.
  intros Hr HQ Hp. apply t_ask; [by apply reading_growing|done|]. intros m s o Hi HP _. rewrite (exec_reading r o s Hr). split; [done|by apply Hp].
Qed.

Lemma t_read_any {X} (r : request X) (P : manager → archiveStore → Prop) E : reading r = true → (∀ m, lasting i (P m)) → triple i P (ask r) (λ _, P) E.
Proof. intros Hr HP. apply t_read; [done|done|]. auto. Qed.

(** Answers of the store. *)
Lemma answer_object k o s data : (exec i (GetObject k) o s).2 = Ok data → objects s !! k = Some data.
Proof. unfold Archive.exec, faulty. destruct (fault o) as [[[] ?]|]; [done..|]. simpl. destruct (objects s !! k); simpl; congruence. Qed.

Lemma answer_version o s v : (exec i AttrHead o s).2 = Ok v → snd <$> headObject s = Some v.
Proof. unfold Archive.exec, faulty. destruct (fault o) as [[[] ?]|]; [done..|]. simpl. destruct (headObject s); simpl; congruence. Qed.

Lemma answer_head o s data : (exec i GetHead o s).2 = Ok data → ∃ v, headObject s = Some (data, v).
Proof. unfold Archive.exec, faulty. destruct (fault o) as [[[] ?]|]; [done..|]. simpl. destruct (headObject s) as [[d v]|]; simpl; [|done]. intros [= ->]. eauto. Qed.

Lemma version_at s v : inv s → snd <$> headObject s = Some v → ∃ h, head_at s h v.
Proof.
  intros Hi E. destruct (headObject s) as [[d v']|] eqn:Eh; [|done]. simpl in E. injection E as ->. destruct (iv_head _ Hi _ _ Eh) as (_ & h & refs & D & _).
  exists h, d. done.
Qed.

Lemma seen_now s h v : inv s → head_at s h v → seen v h s.
Proof. intros Hi Hh. split; [by apply (inv_head_at _ _ _ Hi Hh)|]. exists h, v. split_and!; [done|done|done|apply advance_refl]. Qed.

Lemma seen_at s h v h' : seen v h s → head_at s h' v → h' = h.
Proof. intros (_ & h1 & v1 & H1 & _ & Heq & _) Hh. destruct (head_at_fun _ _ _ _ _ H1 Hh) as [-> Ev]. by apply Heq. Qed.

Lemma content_good s hash e : inv s → content (written s) hash e → good e ∧ hash ≠ zeroHash.
Proof. intros Hi (d & Hd & <- & D). destruct (iv_written _ Hi d Hd) as (? & e' & D' & ?). split; [|done]. congruence. Qed.

(** ** Extents *)

Lemma quiet_readExtent k : quiet_action (readExtent k).
Proof. unfold Archive.readExtent. quietly. Qed.

Lemma readExtent_ok k m0 (P0 : archiveStore → Prop) (R : Extent → archiveStore → Prop) :
  lasting i P0 → (∀ e, lasting i (R e)) → (∀ s e, inv s → P0 s → named (written s) k e → is_Some (objects s !! k) → R e s) →
  triple i (λ m s, m = m0 ∧ P0 s) (readExtent k) (λ e m s, m = m0 ∧ R e s) (λ m s, m = m0 ∧ P0 s).
Proof.
  intros HP HR HPR. unfold Archive.readExtent. destruct (k.2 =? 0); [apply t_fail; tauto|].
  apply (t_bind _ _ _ _ (λ _ m s, m = m0 ∧ P0 s)); [by apply t_self|]. intros m1.
  apply (t_bind _ _ _ _ (λ data m s, m = m0 ∧ P0 s ∧ (sha256 data = k.1 → ∀ e, decodeExtent data = Some e → PreviousObject e <= k.2 → R e s))).
  - apply t_need, t_read; [done|intros [data|e] m; lasts|]. intros m s o Hi [-> HPs]. destruct (exec i (GetObject k) o s).2 as [data|e] eqn:Ex; [|done].
    split_and!; [done|done|]. intros Eh e De Hprev. apply answer_object in Ex. destruct (iv_objects _ Hi _ _ Ex) as (Hw & _ & Hk).
    apply HPR; [done|done| |by eexists]. split; [by exists data|done|done].
  - intros data. case_bool_decide as Eh; cbn [negb]; [|apply t_fail; tauto]. destruct (decodeExtent data) as [e|] eqn:De; [|apply t_fail; tauto].
    destruct (_ && _) eqn:Ev; [|apply t_fail; tauto]. apply andb_true_iff in Ev as [_ Hprev%Z.leb_le]. apply t_pure. intros m s _ (-> & _ & HRe). split; [done|]. by apply HRe.
Qed.

Lemma extentRef_describes e k : good e → describes e k (extentRef e k).
Proof.
  intros Hg. pose proof (good_order e Hg). split; cbn [extentRef ref_key rHash rObject rEnd rEndPrefix rPreviousHash rPreviousObject rStart rStartPrefix]; [by destruct k|done..|lia|].
  apply (go_prefix _ Hg).
Qed.

(** ** The head *)

Lemma quiet_readStableObject n known : quiet_action (readStableObject n known).
Proof. induction n as [|n IH]; cbn [Archive.readStableObject]; quietly. Qed.

Lemma readStableObject_ok n known m0 (P0 : archiveStore → Prop) (R1 : nat → archiveStore → Prop) (R2 : nat → archiveHead → archiveStore → Prop) :
  lasting i P0 → (∀ v, lasting i (R1 v)) → (∀ v h, lasting i (R2 v h)) →
  (∀ s v h, inv s → P0 s → known = Some v → head_at s h v → R1 v s) → (∀ s v h, inv s → P0 s → head_at s h v → R2 v h s) →
  triple i (λ m s, m = m0 ∧ P0 s) (readStableObject n known)
    (λ x m s, m = m0 ∧ match x.2 with None => known = Some x.1 ∧ R1 x.1 s | Some data => ∃ h, decodeHead data = Some h ∧ R2 x.1 h s end) (λ m s, m = m0 ∧ P0 s).
Proof.
  intros HP HR1 HR2 HP1 HP2. induction n as [|n IH]; cbn [Archive.readStableObject]; [apply t_fail; tauto|].
  apply (t_bind _ _ _ _ (λ v m s, m = m0 ∧ P0 s ∧ (known = Some v → R1 v s) ∧ ∃ h, seen v h s)).
  - apply t_need, t_read; [done|intros [v|e] m; lasts|]. intros m s o Hi [-> HPs]. destruct (exec i AttrHead o s).2 as [v|e] eqn:Ex; [|done].
    apply answer_version in Ex. destruct (version_at s v Hi Ex) as [h Hh]. split_and!; [done|done|by eauto|]. exists h. by apply seen_now.
  - intros before. case_bool_decide as Ek; [apply t_pure; intros m s _ (-> & _ & Hk & _); simpl; auto|].
    apply (t_bind _ _ _ _ (λ data m s, m = m0 ∧ P0 s ∧ ∃ h v, ((before <= v)%nat ∧ decodeHead data = Some h) ∧ seen v h s)).
    { apply t_need, t_read; [done|intros [data|e] m; lasts|]. intros m s o Hi (-> & HPs & _ & h1 & _ & h2 & v2 & H2 & Hle & _).
      destruct (exec i GetHead o s).2 as [data|e] eqn:Ex; [|done]. apply answer_head in Ex as [v Ev]. destruct (iv_head _ Hi _ _ Ev) as (_ & h & refs & D & _).
      split_and!; [done|done|]. exists h, v. assert (head_at s h v) as Hh by (by exists data). destruct (head_at_fun _ _ _ _ _ H2 Hh) as [-> ->].
      split_and!; [done|done|by apply seen_now]. }
    intros data. apply (t_bind _ _ _ _ (λ after m s, m = m0 ∧ P0 s ∧ (before = after → ∃ h, decodeHead data = Some h ∧ R2 after h s))).
    { apply t_need, t_read; [done|intros [v|e] m; lasts|]. intros m s o Hi (-> & HPs & h & v & [Hle D] & Hs). destruct (exec i AttrHead o s).2 as [after|e] eqn:Ex; [|done].
      apply answer_version in Ex. split_and!; [done|done|]. intros <-. destruct (version_at s before Hi Ex) as [h3 H3].
      assert (v = before) as ->. { destruct Hs as (_ & h4 & v4 & H4 & Hle4 & _). destruct (head_at_fun _ _ _ _ _ H3 H4) as [_ ->]. lia. }
      rewrite <-(seen_at _ _ _ _ Hs H3) in D. eauto. }
    intros after. case_bool_decide as Ea; [apply t_pure; intros m s _ (-> & _ & Hk); split; [done|]; by apply Hk|].
    eapply t_pre; [|exact IH]. tauto.
Qed.
End reads.
#[export] Hint Resolve quiet_readExtent quiet_readStableObject : quiet.

Section load.
Context `{archiveSetting} (i : nat).

(** ** The chain behind a head *)

(** References the walk from [kt], [tip] has passed when it is at [k], [end_]. *)
Inductive trail (W : list bytes) (base : Z) (kt : objectKey) (tip : Z) : objectKey → Z → list ref → Prop :=
| trail_start : trail W base kt tip kt tip []
| trail_step k e r acc :
    trail W base kt tip k (xEnd e) acc → base < xEnd e → named W k e → describes e k r →
    trail W base kt tip (PreviousHash e, PreviousObject e) (xStart e - 1) (r :: acc).

Lemma trail_mono W W' base kt tip k end_ acc : W ⊆ W' → trail W base kt tip k end_ acc → trail W' base kt tip k end_ acc.
Proof. intros Hs Ht. induction Ht as [|k e r acc Ht IH Hb Hn Hd]; [constructor|]. econstructor; [done|done|by eapply named_mono|done]. Qed.

Lemma trail_links W base kt tip k end_ acc pre : trail W base kt tip k end_ acc → links W base k end_ pre → links W base kt tip (pre ++ acc).
Proof.
  intros Ht. revert pre. induction Ht as [|k e r acc Ht IH Hb Hn Hd]; intros pre Hl; [by rewrite app_nil_r|].
  replace (pre ++ r :: acc) with ((pre ++ [r]) ++ acc) by (by rewrite <-app_assoc). apply IH. by constructor.
Qed.

Definition verified_ok (W : list bytes) (ver : gmap objectKey ref) : Prop := ∀ k r, ver !! k = Some r → ∃ e, named W k e ∧ r = extentRef e k.

Lemma verified_mono W W' ver : W ⊆ W' → verified_ok W ver → verified_ok W' ver.
Proof. intros Hs Hv k r E. destruct (Hv k r E) as (e & ? & ?). exists e. split; [by eapply named_mono|done]. Qed.

Lemma known_index_key old k n r : known_index old k = Some n → old !! n = Some r → ref_key r = k.
Proof.
  unfold known_index. intros E. apply fmap_Some in E as ([j r'] & Ef & ->). apply list_find_Some in Ef as (Ej & Ek & _). simpl.
  apply reverse_lookup_Some in Ej as [Ej _]. intros E. replace (length old - 1 - j)%nat with (length old - S j)%nat in E by lia. congruence.
Qed.

(** The walk with what it has passed. *)
Record walking (W : list bytes) (base : Z) (old : list ref) (ver : gmap objectKey ref) (kt : objectKey) (tip : Z) (k : objectKey) (end_ : Z) (acc : list ref) : Prop := {
  wk_old : ∃ base0 k0 tip0, base0 <= base ∧ links W base0 k0 tip0 old;
  wk_verified : verified_ok W ver;
  wk_trail : trail W base kt tip k end_ acc;
}.

Lemma walking_mono W W' base old ver kt tip k end_ acc : W ⊆ W' → walking W base old ver kt tip k end_ acc → walking W' base old ver kt tip k end_ acc.
Proof.
  intros Hs [(b0 & k0 & t0 & Hb & Hl) Hv Ht]. split; [|by eapply verified_mono|by eapply trail_mono]. exists b0, k0, t0. split; [done|by eapply links_mono].
Qed.

Lemma lasting_walking base old ver kt tip k end_ acc : lasting i (λ s, walking (written s) base old ver kt tip k end_ acc).
Proof. apply (lasting_written i (λ W, walking W base old ver kt tip k end_ acc)). intros W W'. apply walking_mono. Qed.

Lemma lasting_links base k end_ refs : lasting i (λ s, links (written s) base k end_ refs).
Proof. apply (lasting_written i (λ W, links W base k end_ refs)). intros W W'. apply links_mono. Qed.

Lemma lasting_verified ver : lasting i (λ s, verified_ok (written s) ver).
Proof. apply (lasting_written i (λ W, verified_ok W ver)). intros W W'. apply verified_mono. Qed.

Lemma lasting_named k e : lasting i (λ s, named (written s) k e).
Proof. apply (lasting_written i (λ W, named W k e)). intros W W'. apply named_mono. Qed.

Lemma lasting_head_ok h refs : lasting i (λ s, head_ok (written s) h refs).
Proof. apply (lasting_written i (λ W, head_ok W h refs)). intros W W'. apply head_ok_mono. Qed.
#[local] Hint Resolve lasting_walking lasting_links lasting_verified lasting_named lasting_head_ok : lasting.

Lemma quiet_walk fuel base old ver k end_ acc : quiet_action (walk fuel base old ver k end_ acc).
Proof. revert ver k end_ acc. induction fuel as [|n IH]; intros ver k end_ acc; cbn [Archive.walk]; cbv zeta; quietly. Qed.

#[local] Hint Resolve quiet_walk : quiet.

(** A reference the walk takes from [verified] or reads. *)
Lemma walk_ref_ok c m0 base old ver kt tip k end_ acc :
  triple i (λ m s, m = m0 ∧ mgr c m0 s ∧ walking (written s) base old ver kt tip k end_ acc)
    (match ver !! k with Some r => pure r | None => abind (readExtent k) (λ e, pure (extentRef e k)) end)
    (λ r m s, m = m0 ∧ mgr c m0 s ∧ walking (written s) base old ver kt tip k end_ acc ∧ ∃ e, named (written s) k e ∧ r = extentRef e k)
    (λ m s, m = m0 ∧ mgr c m0 s).
Proof.
  destruct (ver !! k) as [r|] eqn:Ev.
  - apply t_pure. intros m s Hi (-> & Hm & Hw). split_and!; [done|done|done|]. apply (wk_verified _ _ _ _ _ _ _ _ _ Hw k r Ev).
  - eapply t_bind; [eapply t_conseq; [| | |apply (readExtent_ok i k m0 (λ s, mgr c m0 s ∧ walking (written s) base old ver kt tip k end_ acc)
      (λ e s, mgr c m0 s ∧ walking (written s) base old ver kt tip k end_ acc ∧ named (written s) k e)); [lasts|intros; lasts|]]; cbn beta|]; [tauto| |tauto|tauto|].
    + intros e m s _ HQ. exact HQ.
    + intros e. apply t_pure. intros m s Hi (-> & Hm & Hw & Hn). split_and!; [done|done|done|]. by exists e.
Qed.

Lemma walk_ok c m0 base old kt tip fuel ver k end_ acc :
  triple i (λ m s, m = m0 ∧ mgr c m0 s ∧ walking (written s) base old ver kt tip k end_ acc) (walk fuel base old ver k end_ acc)
    (λ x m s, m = m0 ∧ mgr c m0 s ∧ links (written s) base kt tip x.1 ∧ verified_ok (written s) x.2) (λ m s, m = m0 ∧ mgr c m0 s).
Proof.
  revert ver k end_ acc. induction fuel as [|n IH]; intros ver k end_ acc; cbn [Archive.walk]; cbv zeta.
  all: destruct (Z.leb_spec end_ base) as [He|He];
    [apply t_pure; intros m s Hi (-> & Hm & Hw); split_and!; [done|done| |apply (wk_verified _ _ _ _ _ _ _ _ _ Hw)];
     apply (trail_links _ _ _ _ _ _ _ [] (wk_trail _ _ _ _ _ _ _ _ _ Hw)); by constructor|].
  { apply t_fail. tauto. }
  case_bool_decide as Ez; [apply t_fail; tauto|].
  match goal with |- triple _ ?P (match known_index _ _ with Some _ => _ | None => ?next end) ?Q ?E => assert (triple i P next Q E) as Hnext end.
  { eapply t_bind; [apply walk_ref_ok|]. intros r. destruct (Z.eqb_spec (rEnd r) end_) as [Ee|]; cbn [negb]; [|apply t_fail; tauto].
    eapply t_pre; [|apply IH]. intros m s Hi (-> & Hm & Hw & e & Hn & ->). split_and!; [done|done|]. destruct Hw as [Ho Hv Ht]. split; [done| |].
    - intros k' r'. destruct (decide (k' = k)) as [->|]; [rewrite lookup_insert_eq; intros [= <-]; eauto|rewrite lookup_insert_ne by done; apply Hv].
    - simpl in Ee. subst end_. econstructor; [done|done|done|]. apply extentRef_describes. apply (content_good s k.1 e Hi), (na_content _ _ _ Hn). }
  destruct (known_index old k) as [j|] eqn:Ej; [|done]. destruct (old !! j) as [r|] eqn:Er; [|done]. destruct (Z.eqb_spec (rEnd r) end_) as [Ee|]; [|done].
  apply t_pure. intros m s Hi (-> & Hm & Hw). split_and!; [done|done| |apply (wk_verified _ _ _ _ _ _ _ _ _ Hw)]. destruct Hw as [(b0 & k0 & t0 & Hb & Hl) _ Ht].
  apply (trail_links _ _ _ _ _ _ _ _ Ht). rewrite <-(known_index_key _ _ _ _ Ej Er), <-Ee. apply (links_filter _ b0); [done|]. by eapply links_take.
Qed.

Lemma quiet_cut_boundary h refs : quiet_action (cut_boundary h refs).
Proof. unfold Archive.cut_boundary. quietly. Qed.
#[local] Hint Resolve quiet_cut_boundary : quiet.

Lemma cut_boundary_ok m0 (P0 : archiveStore → Prop) h kt tip refs :
  lasting i P0 → BasePrefix h = prefix_at (hBase h) →
  triple i (λ m s, m = m0 ∧ P0 s ∧ links (written s) (hBase h) kt tip refs) (cut_boundary h refs)
    (λ refs' m s, m = m0 ∧ P0 s ∧ links (written s) (hBase h) kt tip refs') (λ m s, m = m0 ∧ P0 s).
Proof.
  intros HP Hb. unfold Archive.cut_boundary. destruct refs as [|r refs]; [by apply t_pure|]. destruct (Z.leb_spec (rStart r) (hBase h)) as [Hr|]; [|by apply t_pure].
  apply (t_bind _ _ _ _ (λ _ m s, m = m0 ∧ P0 s ∧ links (written s) (hBase h) kt tip (r :: refs))); [by apply t_self|]. intros m1.
  eapply t_bind; [eapply t_conseq; [| | |apply (readExtent_ok i (ref_key r) m0 (λ s, P0 s ∧ links (written s) (hBase h) kt tip (r :: refs))
    (λ _ s, P0 s ∧ links (written s) (hBase h) kt tip (r :: refs))); [lasts|intros; lasts|tauto]]|]; cbn beta; [tauto|intros e m s _ HQ; exact HQ|tauto|].
  intros e. cbv zeta. destruct (Archive.validateExtent _ _ _); [|apply t_fail; tauto]. apply t_pure. intros m s Hi (-> & HPs & Hl). split_and!; [done|done|].
  rewrite Hb. by apply links_cut_first.
Qed.

(** ** Load *)

Lemma quiet_loadHead ver : quiet_action (loadHead ver).
Proof. unfold Archive.loadHead. quietly. Qed.
#[local] Hint Resolve quiet_loadHead : quiet.

(** The head and chain a manager takes over when the head has not changed. *)
Lemma loaded_current c m0 h refs v s :
  inv s → mgr c m0 s → c = cluster → head_ok (written s) h refs → head_at s h v →
  current i c (mkManager (mConfigID m0) refs h (Some v) (mCache m0)) s.
Proof.
  intros Hi [H1 H2 _] Hc Hok Hh. split; [|by eapply fenced_at]. split; [done|done|]. split_and!; [done|done|by apply seen_now].
Qed.

Lemma mgr_current c m s h v : inv s → mgr c m s → mHeadCAS m = Some v → head_at s h v → current i c m s.
Proof.
  intros Hi Hm Ev Hh. split; [done|]. pose proof (mgr_version _ _ _ Hm) as Hv. rewrite Ev, (head_at_version _ _ _ Hh) in Hv. specialize (Hv eq_refl).
  destruct Hm as [_ _ Hm]. rewrite Ev in Hm. destruct Hm as (_ & Hok & _). by eapply fenced_at.
Qed.

(** What the walk begins with. *)
Lemma walking_start c m ver h s : mgr c m s → verified_ok (written s) ver → head_regressed h (mHead m) = false → 0 <= hBase h →
  walking (written s) (hBase h) (mExtents m) ver (TailHash h, TailObject h) (hTip h) (TailHash h, TailObject h) (hTip h) [].
Proof.
  intros [_ _ Hm] Hv Hr Hb. split; [|done|constructor]. unfold head_regressed in Hr. bool_hyps. destruct (mHeadCAS m) as [v|].
  - destruct Hm as (_ & Hok & _). exists (hBase (mHead m)), (TailHash (mHead m), TailObject (mHead m)), (hTip (mHead m)). split; [lia|apply (ho_links _ _ _ Hok)].
  - destruct Hm as [-> (c' & E)]. exists (hBase h), (zeroHash, 0), (hBase h). split; [lia|]. by constructor.
Qed.

Definition loading (c : Z) (m0 : manager) (ver : gmap objectKey ref) (s : archiveStore) : Prop := mgr c m0 s ∧ verified_ok (written s) ver.

(** A decoded head: what its reader has seen and what the store holds. *)
Definition head_read (v : nat) (h : archiveHead) (s : archiveStore) : Prop := seen v h s ∧ ∃ refs, head_ok (written s) h refs.

Lemma lasting_loading c m0 ver : lasting i (loading c m0 ver).
Proof. unfold loading. lasts. Qed.
Lemma lasting_head_read v h : lasting i (head_read v h).
Proof. unfold head_read. lasts. Qed.
#[local] Hint Resolve lasting_loading lasting_head_read : lasting.

(** The check of the head after the walk. *)
Lemma load_final_ok (c : Z) (m0 : manager) (ver : gmap objectKey ref) (h : archiveHead) (v : nat) (refs : list ref) (w : gmap objectKey ref) :
  c = cluster →
  triple i (λ m s, m = m0 ∧ mgr c m0 s ∧ verified_ok (written s) ver ∧ seen v h s ∧ head_ok (written s) h refs)
    (abind (need AttrHead) (λ final, if negb (bool_decide (final = v)) then pure (w, false)
      else abind self (λ m, abind (become (mkManager (mConfigID m) refs h (Some v) (mCache m))) (λ _, pure (w, true)))))
    (λ x m s, x.1 = w ∧ verified_ok (written s) ver ∧ if x.2 : bool then current i c m s else mgr c m s) (λ m s, mgr c m s).
Proof.
  intros Hc. eapply (t_bind _ _ _ _ (λ final m s, m = m0 ∧ mgr c m0 s ∧ verified_ok (written s) ver ∧
    (final = v → current i c (mkManager (mConfigID m0) refs h (Some v) (mCache m0)) s))).
  - apply t_need, t_read; [done|intros [x|e] m; lasts|]. intros m s o Hi (-> & Hm & Hv & Hs & Hok). destruct (exec i AttrHead o s).2 as [final|e] eqn:Ex; [|done].
    apply answer_version in Ex. split_and!; [done|done|done|]. intros ->. destruct (version_at s v Hi Ex) as [h' Hh'].
    rewrite (seen_at _ _ _ _ Hs Hh') in Hh'. by apply loaded_current.
  - intros final. case_bool_decide as Ef; cbn [negb]; [|apply t_pure; intros m s _ (-> & ? & ? & _); done].
    apply (t_bind _ _ _ _ (λ m1 m s, m1 = m0 ∧ verified_ok (written s) ver ∧ current i c (mkManager (mConfigID m0) refs h (Some v) (mCache m0)) s));
      [apply t_self; intros m s _ (-> & _ & ? & Hk); auto|]. intros m1.
    apply (t_given _ _ (m1 = m0)); [tauto|]. intros ->.
    apply (t_bind _ _ _ _ (λ _ m s, verified_ok (written s) ver ∧ current i c m s)); [apply t_become; tauto|]. intros []. apply t_pure. intros m s _ [? ?]. done.
Qed.

Lemma loadHead_ok c ver :
  triple i (λ m s, mgr c m s ∧ verified_ok (written s) ver) (loadHead ver)
    (λ x m s, verified_ok (written s) x.1 ∧ if x.2 : bool then current i c m s else mgr c m s) (λ m s, mgr c m s).
Proof.
  unfold Archive.loadHead. apply (t_bind _ _ _ _ (λ m0 m s, m = m0 ∧ loading c m0 ver s)); [apply t_self; done|]. intros m0.
  eapply t_bind; [eapply t_attempt, (readStableObject_ok i _ _ m0 (loading c m0 ver) (λ _ s, loading c m0 ver s ∧ current i c m0 s)
      (λ v h s, loading c m0 ver s ∧ head_read v h s)); [lasts|intros; lasts|intros; lasts| |]|].
  { intros s v h Hi [Hm Hv] Ek Hh. split; [done|]. by eapply mgr_current. }
  { intros s v h Hi HP Hh. split; [done|]. split; [by apply seen_now|]. destruct (inv_head_at _ _ _ Hi Hh) as (_ & refs & ? & _). eauto. }
  intros [[v [data|]]|e]; cbn [fst snd]; cycle 1.
  - apply t_pure. intros m s _ (-> & _ & [_ Hv] & Hcur). done.
  - destruct e as [[]| | | | |]; try (apply t_fail; by intros m s _ (-> & [? _])).
    apply (t_bind _ _ _ _ (λ _ m s, m = m0 ∧ loading c m0 ver s)); [apply t_read_any; [done|intros; lasts]|]. intros [].
    { apply t_fail. intros m s _ (-> & ? & _). done. }
    destruct (_ =? _) eqn:E0; cbn [negb]; [|apply t_fail; intros m s _ (-> & ? & _); done].
    apply (t_bind _ _ _ _ (λ _ m s, verified_ok (written s) ver ∧ current i c m s)); [|intros []; apply t_pure; intros m s _ [? ?]; done].
    apply t_become. intros m s _ (-> & [H1 H2 H3] & Hv). split; [done|]. split; [|by left]. split; [done|done|]. split; [done|]. by eexists.
  - destruct (decodeHead data) as [h|] eqn:Ed; [|apply t_fail; intros m s _ (-> & h & E & _); done].
    apply (t_pre _ _ (λ m s, m = m0 ∧ loading c m0 ver s ∧ head_read v h s)); [intros m s _ (-> & h' & E & ? & ?); simplify_eq; done|].
    destruct (negb _ || _) eqn:Ev; [apply t_fail; intros m s _ (-> & [? _] & _); done|]. apply orb_false_iff in Ev as [Hvalid%negb_false_iff Hreg].
    apply t_given with (mConfigID m0 = c ∧ c = cluster ∧ ∃ W refs, head_ok W h refs).
    { intros m s _ (-> & [[H1 _ _] _] & _ & refs & Hok). split_and!; [done| |by eauto]. unfold head_valid in Hvalid. bool_hyps. pose proof (ho_config _ _ _ Hok). lia. }
    intros (Hm0 & Hc & W & refs0 & Hok0). rewrite Hm0 in Hvalid.
    apply (t_bind _ _ _ _ (λ x m s, m = m0 ∧ (mgr c m0 s ∧ verified_ok (written s) x.2 ∧ head_read v h s) ∧ links (written s) (hBase h) (TailHash h, TailObject h) (hTip h) x.1)).
    { eapply t_conseq; [| | |eapply (t_frame i _ _ _ _ (head_read v h)); [apply quiet_walk|lasts|apply (walk_ok c m0)]]; cbn beta; [| |].
      - intros m s _ (-> & [Hm Hv] & Hr). split; [|done]. split_and!; [done|done|]. eapply walking_start; [done|done|done|]. destruct (ho_wf _ _ _ Hok0) as (_ & _ & ? & _). done.
      - intros x m s _ ((-> & ? & ? & ?) & ?). done.
      - intros m s _ ((-> & ?) & _). done. }
    intros [refs1 ver1]. cbn [fst snd].
    eapply t_bind; [eapply t_conseq; [| | |apply (cut_boundary_ok m0 (λ s, mgr c m0 s ∧ verified_ok (written s) ver1 ∧ head_read v h s)); [lasts|apply (ho_prefix _ _ _ Hok0)]];
      cbn beta; [intros m s _ HP; exact HP|intros refs m s _ HQ; exact HQ|intros m s _ (-> & ? & _); done]|].
    intros refs. cbv beta. destruct (bool_decide _) eqn:Ech; cbn [negb]; [|apply t_fail; intros m s _ (-> & (? & _) & _); done]. apply bool_decide_eq_true in Ech.
    eapply t_conseq; [| | |apply (load_final_ok c m0 ver1 h v refs ver1 Hc)]; cbn beta; [|intros [] m s _ (-> & ? & ?); done|done].
    intros m s _ (-> & (Hm & Hv & Hs & refs2 & Hok2) & Hl). split_and!; [done..|]. destruct Hok2. split; [done..|]. by eapply chain_spans.
Qed.

Lemma load_attempts_ok c n ver :
  triple i (λ m s, mgr c m s ∧ verified_ok (written s) ver) (load_attempts n ver) (λ _ m s, current i c m s) (λ m s, mgr c m s).
Proof.
  revert ver. induction n as [|n IH]; intros ver; cbn [Archive.load_attempts]; [apply t_fail; tauto|].
  eapply t_bind; [apply loadHead_ok|]. intros [ver' []]; cbn [fst snd]; [by apply t_pure; intros m s _ [? ?]|]. eapply t_pre; [|apply IH]. intros m s _ [? ?]. done.
Qed.

Lemma archive_Load_ok c : triple i (λ m s, mgr c m s) Load (λ _ m s, current i c m s) (λ m s, mgr c m s).
Proof. unfold Archive.Load. eapply t_pre; [|apply load_attempts_ok]. intros m s _ ?. split; [done|]. by intros k r. Qed.

Lemma quiet_archive_Load : quiet_action Load.
Proof.
  unfold Archive.Load. generalize maxPublishRetries, (∅ : gmap objectKey ref). intros n. induction n as [|n IH]; intros ver; cbn [Archive.load_attempts]; quietly.
Qed.
End load.
#[export] Hint Resolve quiet_archive_Load : quiet.
#[export] Hint Resolve lasting_links lasting_named lasting_head_ok : lasting.

(** ** Extents of a loaded chain *)

Section values.
Context `{archiveSetting} (i : nat).

(** A manager with another cache. *)
Record like (m0 m : manager) : Prop := {
  lk_config : mConfigID m = mConfigID m0;
  lk_extents : mExtents m = mExtents m0;
  lk_head : mHead m = mHead m0;
  lk_cas : mHeadCAS m = mHeadCAS m0;
}.

Lemma like_refl m : like m m.
Proof. done. Qed.

Lemma like_trans m1 m2 m3 : like m1 m2 → like m2 m3 → like m1 m3.
Proof. intros [] []. split; congruence. Qed.

Lemma like_current c m0 m s : like m0 m → mgr c m s → current i c m0 s → current i c m s.
Proof. intros [_ E1 E2 _] Hm [_ Hf]. split; [done|]. unfold live_keys in *. by rewrite E1, E2. Qed.

(** A reference whose extent has been uploaded. *)
Definition referenced (W : list bytes) (r : ref) : Prop := ∃ e, named W (ref_key r) e ∧ describes e (ref_key r) r.

Lemma links_referenced W base k end_ refs r : links W base k end_ refs → r ∈ refs → referenced W r.
Proof.
  intros Hl. induction Hl as [k end_ He|k e r0 refs Hb Hn Hd Hl IH]; [by rewrite elem_of_nil|]. rewrite elem_of_app, list_elem_of_singleton.
  intros [Hr| ->]; [by apply IH|]. exists e. by rewrite (de_key _ _ _ Hd).
Qed.

Lemma mgr_referenced c m s r : mgr c m s → r ∈ mExtents m → referenced (written s) r.
Proof.
  intros [_ _ Hm] Hr. destruct (mHeadCAS m) as [v|]; [|destruct Hm as [E _]; rewrite E in Hr; by apply elem_of_nil in Hr].
  destruct Hm as (_ & Hok & _). apply (links_referenced _ _ _ _ _ _ (ho_links _ _ _ Hok) Hr).
Qed.

Lemma lasting_referenced r : lasting i (λ s, referenced (written s) r).
Proof. unfold referenced. lasts. Qed.
#[local] Hint Resolve lasting_referenced : lasting.

(** The decisions of a reference. *)
Record part (r : ref) (e : Extent) : Prop := {
  pt_start : xStart e = rStart r;
  pt_end : xEnd e = rEnd r;
  pt_decisions : decided_from (rStart r) (Decisions e);
  pt_length : len (Decisions e) = rEnd r - rStart r + 1;
}.

Lemma rememberExtent_member k e cache x : x ∈ rememberExtent k e cache → x ∈ cache ∨ x = (k, e).
Proof.
  unfold rememberExtent. rewrite elem_of_app, list_elem_of_singleton. intros [Hx| ->]; [left|by right]. repeat case_match; [|destruct cache; [done|by right]|done].
  by apply list_elem_of_filter in Hx as [_ ?].
Qed.

Lemma quiet_remember k e : quiet_action (remember k e).
Proof. unfold remember. quietly. Qed.
#[local] Hint Resolve quiet_remember : quiet.

Lemma remember_ok c m0 k e P0 :
  triple i (λ m s, like m0 m ∧ mgr c m s ∧ content (written s) k.1 e ∧ P0 s) (remember k e) (λ _ m s, like m0 m ∧ mgr c m s ∧ P0 s) (λ m s, like m0 m ∧ mgr c m s).
Proof.
  apply (t_bind _ _ _ _ (λ m1 m s, m1 = m ∧ like m0 m ∧ mgr c m s ∧ content (written s) k.1 e ∧ P0 s)); [apply t_self; done|]. intros m1. apply t_become.
  intros m s _ (-> & [L1 L2 L3 L4] & [H1 H2 H3] & Hc & ?). split_and!; [by split| |done]. split; [done| |done]. cbn [mCache]. intros k' e' [?|E]%rememberExtent_member; [by apply H2|].
  by simplify_eq.
Qed.

Lemma quiet_extentForRef r : quiet_action (extentForRef r).
Proof. unfold Archive.extentForRef. quietly. Qed.

(** The part of an extent behind a cut. *)
Lemma part_of s r e :
  inv s → content (written s) (ref_key r).1 e → referenced (written s) r → describes e (ref_key r) r ∧ good e.
Proof.
  intros Hi Hc (e' & Hn & Hd). rewrite (content_fun _ _ _ _ (iv_free _ Hi) Hc (na_content _ _ _ Hn)). split; [done|].
  apply (content_good s (ref_key r).1 e' Hi), (na_content _ _ _ Hn).
Qed.

Lemma part_drop r e : describes e (ref_key r) r → good e →
  let offset := Z.to_nat (rStart r - xStart e) in
  decided_from (rStart r) (drop offset (Decisions e)) ∧ len (drop offset (Decisions e)) = rEnd r - rStart r + 1.
Proof.
  intros Hd Hg. cbv zeta. pose proof (good_length e Hg) as Hl. pose proof (de_start _ _ _ Hd). pose proof (de_end _ _ _ Hd). unfold len in *. rewrite length_drop.
  split; [|lia]. replace (rStart r) with (xStart e + Z.of_nat (Z.to_nat (rStart r - xStart e))) at 1 by lia. apply decided_drop; [lia|apply (go_decisions _ Hg)].
Qed.

Lemma extentForRef_ok c m0 r :
  triple i (λ m s, like m0 m ∧ mgr c m s ∧ referenced (written s) r) (extentForRef r) (λ e m s, like m0 m ∧ mgr c m s ∧ part r e) (λ m s, like m0 m ∧ mgr c m s).
Proof.
  unfold Archive.extentForRef. apply (t_bind _ _ _ _ (λ m1 m s, m = m1 ∧ like m0 m1 ∧ mgr c m1 s ∧ referenced (written s) r)); [apply t_self; done|]. intros m1.
  apply (t_bind _ _ _ _ (λ e m s, like m0 m ∧ mgr c m s ∧ (describes e (ref_key r) r ∧ good e))).
  - set (P1 := λ e m s, like m0 m ∧ mgr c m s ∧ content (written s) (ref_key r).1 e ∧ describes e (ref_key r) r ∧ good e).
    assert (∀ e, triple i (P1 e) (abind (remember (ref_key r) e) (λ _, pure e)) (λ e m s, like m0 m ∧ mgr c m s ∧ describes e (ref_key r) r ∧ good e) (λ m s, like m0 m ∧ mgr c m s)) as Hrem.
    { intros e. eapply t_bind; [apply (remember_ok c m0 _ _ (λ _, describes e (ref_key r) r ∧ good e))|]. intros []. apply t_pure. done. }
    destruct (list_find _ (mCache m1)) as [[n [k e]]|] eqn:Ef.
    + apply list_find_Some in Ef as (Ek & E & _). simpl in E. subst k. eapply t_pre; [|apply Hrem]. intros m s Hi (-> & Hl & Hm & Hr).
      assert (content (written s) (ref_key r).1 e) as Hc by (by apply (mg_cache _ _ _ Hm), list_elem_of_lookup; eauto). split_and!; [done|done|done|by eapply part_of|by eapply part_of].
    + eapply t_bind; [eapply t_conseq; [| | |apply (readExtent_ok i (ref_key r) m1 (λ s, like m0 m1 ∧ mgr c m1 s ∧ referenced (written s) r)
        (λ e s, like m0 m1 ∧ mgr c m1 s ∧ referenced (written s) r ∧ named (written s) (ref_key r) e)); [lasts|intros; lasts|tauto]]; cbn beta|]; [done| | |].
      * intros e m s _ HQ. exact HQ.
      * intros m s _ (-> & ? & ? & _). done.
      * intros e. eapply t_pre; [|apply Hrem]. intros m s Hi (-> & Hl & Hm & Hr & Hn). pose proof (na_content _ _ _ Hn).
        split_and!; [done|done|done|by eapply part_of|by eapply part_of].
  - intros e. destruct (_ || _); [apply t_fail; tauto|]. destruct (Z.ltb_spec (xStart e) (rStart r)) as [Hlt|Hge]; cbv zeta.
    + destruct (_ || _); [apply t_fail; tauto|]. apply t_pure. intros m s _ (? & ? & Hd & Hg). destruct (part_drop r e Hd Hg) as [? ?].
      split_and!; [done|done|]. split; [done|symmetry; apply (de_end _ _ _ Hd)|done|done].
    + destruct (negb _); [apply t_fail; tauto|]. apply t_pure. intros m s _ (? & ? & Hd & Hg). split_and!; [done|done|].
      pose proof (de_start _ _ _ Hd). pose proof (de_end _ _ _ Hd). pose proof (good_length e Hg). assert (xStart e = rStart r) as E by lia.
      split; [done|done|rewrite <-E; apply (go_decisions _ Hg)|lia].
Qed.

Lemma collect_refs_ok c m0 from limit values refs :
  triple i (λ m s, like m0 m ∧ mgr c m s ∧ ∀ r, r ∈ refs → referenced (written s) r) (collect_refs from limit values refs) (λ _ m s, like m0 m ∧ mgr c m s) (λ m s, like m0 m ∧ mgr c m s).
Proof.
  revert values. induction refs as [|r refs IH]; intros values; cbn [Archive.collect_refs]; [apply t_pure; tauto|].
  assert (∀ m s, inv s → like m0 m ∧ mgr c m s ∧ (∀ r', r' ∈ r :: refs → referenced (written s) r') → like m0 m ∧ mgr c m s ∧ (∀ r', r' ∈ refs → referenced (written s) r')) as Htail.
  { intros m s _ (? & ? & Hr). split_and!; [done|done|]. intros r' ?. apply Hr. by right. }
  destruct (_ <? _); [eapply t_pre; [apply Htail|apply IH]|].
  eapply t_bind; [eapply t_conseq; [| | |eapply (t_frame i _ _ _ _ (λ s, ∀ r', r' ∈ refs → referenced (written s) r')); [apply quiet_extentForRef|lasts|apply (extentForRef_ok c m0 r)]]|];
    cbn beta; [| |intros m s _ [? _]; done|].
  { intros m s Hi HP. split; [|apply (Htail _ _ Hi HP)]. destruct HP as (? & ? & Hr). split_and!; [done|done|]. apply Hr. left. }
  { intros e m s _ HQ. exact HQ. }
  intros e. cbv beta. destruct (collect _ _ _ _) as [[values' []]|]; [apply t_pure; tauto| |apply t_fail; tauto]. eapply t_pre; [|apply IH]. intros m s _ ((? & ? & _) & ?). done.
Qed.

Lemma DecisionsFrom_ok c from limit : triple i (λ m s, mgr c m s) (DecisionsFrom from limit) (λ _ m s, mgr c m s) (λ m s, mgr c m s).
Proof.
  unfold Archive.DecisionsFrom. apply (t_bind _ _ _ _ (λ m0 m s, like m0 m ∧ mgr c m s ∧ ∀ r, r ∈ mExtents m0 → referenced (written s) r)).
  { apply t_self. intros m s _ Hm. split_and!; [apply like_refl|done|]. intros r. by eapply mgr_referenced. }
  intros m0. destruct (_ <=? _); [apply t_fail; tauto|].
  eapply t_bind; [eapply t_conseq; [| | |apply (collect_refs_ok c m0)]|]; cbn beta; [done|intros v m s _ HQ; exact HQ|tauto|]. intros values. apply t_pure. tauto.
Qed.
End values.
#[export] Hint Resolve lasting_referenced : lasting.
#[export] Hint Resolve quiet_extentForRef quiet_remember : quiet.
