(* ===== verification/ArchiveWrites.v ===== *)
(** * Publishing heads and extents

    Replacing the head, reading it back, uploading an extent and taking the
    locks: the steps the operations of the archive share. *)

From stdpp Require Import gmap list.
From S2P Require Import Prelude Bytes Protocol Schedule Node Programs ArchiveCodec ArchiveCodecProofs Archive ArchiveChains ArchiveLogic ArchiveReads.

Abbreviation publishHead := (Archive.publishHead sha256 unmarshalSeal).
Abbreviation refreshPublishedHead := (Archive.refreshPublishedHead sha256 validateValue unmarshalSeal).
Abbreviation uploadExtent := (Archive.uploadExtent sha256 validateValue).

Section writes.
Context `{archiveSetting} (i : nat).

(** ** The head *)

Lemma exec_write data cond collecting o s :
  (exec i (WriteHead data cond collecting) o s).1 = s ∨ (exec i (WriteHead data cond collecting) o s).1 = put_head data s ∧ met cond (snd <$> headObject s) = true.
Proof. unfold Archive.exec, faulty. destruct (met _ _) eqn:Em; destruct (fault o) as [[[] ?]|]; simpl; auto. Qed.

(** [J] holds before the write, [J'] after it, whether or not it succeeds. *)
Lemma publishHead_ok c m0 h' refs' collecting (J J' : archiveStore → Prop) :
  lasting i J → lasting i J' → (∀ s, inv s → J s → mgr c m0 s ∧ J' s) →
  (∀ s data, inv s → J s → encodeHead h' = Some data → next_ok i m0 h' refs' collecting s) →
  (∀ s data, inv s → J s → mgr c m0 (put_head data s) → J' (put_head data s)) →
  triple i (λ m s, m = m0 ∧ J s) (publishHead h' (mHeadCAS m0) collecting) (λ _ m s, m = m0 ∧ J' s ∧ head_ok (written s) h' refs') (λ m s, m = m0 ∧ J' s).
Proof.
  intros HJ HJ' Hm Hn Hput. apply (t_bind _ _ _ _ (λ _ m s, m = m0 ∧ J s)); [apply t_read_any; [done|intros; lasts]|].
  assert (∀ m s, inv s → m = m0 ∧ J s → m = m0 ∧ J' s) as Hfail by (intros m s Hi [-> HJs]; split; [done|by apply (Hm s Hi HJs)]).
  intros []; cbn [negb]; [|by apply t_fail]. destruct (encodeHead h') as [data|] eqn:Ee; [|by apply t_fail].
  intros m s o Hi [-> HJs] Hrun. fold (cas_condition (mHeadCAS m0)) in *. destruct (Hm s Hi HJs) as [Hms HJs']. pose proof (Hn s data Hi HJs eq_refl) as Hns.
  pose proof (nx_head _ _ _ _ _ _ Hns) as Hok. assert (lasting i (λ s, J' s ∧ head_ok (written s) h' refs')) as Hlast by lasts.
  assert (∀ s' x, inv s' → guar i s s' → J' s' ∧ head_ok (written s') h' refs' → inv s' ∧ guar i s s' ∧ ∃ P', lasting i P' ∧ P' s' ∧
    keeps i (Ret (m0, match x : result storeError unit with Ok a => Ok a | Err e => Err (AStore e) end)) P'
      (outcome_of (λ _ m s, m = m0 ∧ J' s ∧ head_ok (written s) h' refs') (λ m s, m = m0 ∧ J' s))) as Hfin.
  { intros s' x Hi' Hg HP. split_and!; [done|done|]. exists (λ s, J' s ∧ head_ok (written s) h' refs'). split_and!; [done|apply HP|apply HP|].
    intros s2 _ [? ?]. unfold outcome_of. destruct x; simpl; done. }
  assert (decodeHead data = Some h') as Hdec by (apply head_roundtrip; [apply (ho_wf _ _ _ Hok)|done]).
  assert (collecting = true → gcHolder s = Some i) as Hcol by (intros ->; by apply bool_decide_eq_true in Hrun).
  simpl. destruct (exec_write data (cas_condition (mHeadCAS m0)) collecting o s) as [E|[E Hmet%met_cas]]; rewrite E; apply Hfin.
  - done.
  - apply grows_guar, store_grows_refl.
  - done.
  - by eapply put_head_inv.
  - by eapply put_head_guar.
  - split; [|done]. apply Hput; [done|done|]. by eapply put_head_mgr.
Qed.

Lemma remember_all_ok c m0 l :
  triple i (λ m s, like m0 m ∧ mgr c m s ∧ ∀ k e, (k, e) ∈ l → content (written s) k.1 e) (remember_all l) (λ _ m s, like m0 m ∧ mgr c m s) (λ m s, like m0 m ∧ mgr c m s).
Proof.
  induction l as [|[k e] l IH]; cbn [remember_all]; [apply t_pure; tauto|].
  eapply t_bind; [eapply t_pre; [|apply (remember_ok i c m0 k e (λ s, ∀ k' e', (k', e') ∈ l → content (written s) k'.1 e'))]|intros []; apply IH].
  intros m s _ (? & ? & Hl). split_and!; [done|done|apply Hl; left|]. intros k' e' ?. apply Hl. by right.
Qed.

Lemma lasting_content hash e : lasting i (λ s, content (written s) hash e).
Proof. apply (lasting_written i (λ W, content W hash e)). intros W W'. apply content_mono. Qed.
#[local] Hint Resolve lasting_content : lasting.

Lemma quiet_remember_all l : quiet_action (remember_all l).
Proof. induction l as [|[k e] l IH]; cbn [remember_all]; quietly. Qed.
#[local] Hint Resolve quiet_remember_all : quiet.

Lemma quiet_refreshPublishedHead h refs l : quiet_action (refreshPublishedHead h refs l).
Proof. unfold Archive.refreshPublishedHead. quietly. Qed.

Lemma refreshPublishedHead_ok c h' refs l :
  triple i (λ m s, mgr c m s ∧ c = cluster ∧ head_ok (written s) h' refs ∧ ∀ k e, (k, e) ∈ l → content (written s) k.1 e) (refreshPublishedHead h' refs l)
    (λ _ m s, current i c m s ∧ hBase h' <= hBase (mHead m) ∧ hTip h' <= hTip (mHead m)) (λ m s, mgr c m s).
Proof.
  set (P0 := λ m s, mgr c m s ∧ c = cluster ∧ head_ok (written s) h' refs ∧ ∀ k e, (k, e) ∈ l → content (written s) k.1 e).
  assert (∀ m, lasting i (P0 m)) as HP by (intros m; unfold P0; lasts). set (m' := λ m v, mkManager (mConfigID m) refs h' (Some v) (mCache m)).
  assert (triple i (λ m s, ∃ m0, m = m0 ∧ P0 m0 s) (refreshPublishedHead h' refs l)
    (λ _ m s, current i c m s ∧ hBase h' <= hBase (mHead m) ∧ hTip h' <= hTip (mHead m)) (λ m s, mgr c m s)) as Hall; [|eapply t_pre; [|exact Hall]; intros m s _ ?; by exists m].
  apply t_ex. intros m0. unfold Archive.refreshPublishedHead.
  eapply t_bind; [eapply t_conseq; [| | |apply (readStableObject_ok i maxPublishRetries None m0 (P0 m0) (λ _, P0 m0) (λ v h s, P0 m0 s ∧ (h = h' → current i c (m' m0 v) s)));
    [lasts|intros; lasts|intros; lasts|done|]]|]; cbn beta; [done|intros x m s _ HQ; exact HQ|intros m s _ (-> & ? & _); done| |].
  { intros s v h Hi (Hm & Hc & Hok & Hl) Hh. split; [done|]. intros ->. by apply loaded_current. }
  intros [v [data|]]; cbn [fst snd mbind option_bind]; [|apply t_fail; intros m s _ (-> & _ & ? & _); done].
  destruct (decodeHead data) as [h|] eqn:Ed; [|apply t_fail; intros m s _ (-> & h & E & _); done].
  apply (t_pre _ _ (λ m s, m = m0 ∧ P0 m0 s ∧ (h = h' → current i c (m' m0 v) s))); [intros m s _ (-> & h1 & E & ? & ?); by simplify_eq|].
  case_bool_decide as Eh; cbn [negb].
  - apply (t_bind _ _ _ _ (λ m1 m s, m1 = m0 ∧ P0 m0 s ∧ current i c (m' m0 v) s)); [apply t_self; intros m s _ (-> & ? & Hk); auto|]. intros m1.
    apply (t_given _ _ (m1 = m0)); [tauto|]. intros ->. subst h.
    apply (t_bind _ _ _ _ (λ _ m s, (like (m' m0 v) m ∧ mgr c m s ∧ ∀ k e, (k, e) ∈ l → content (written s) k.1 e) ∧ current i c (m' m0 v) s)).
    { apply t_become. intros m s _ (_ & (_ & _ & _ & Hl) & Hcur). split_and!; [apply like_refl|apply Hcur|done|done]. }
    intros []. eapply t_conseq; [| | |eapply (t_frame i _ _ _ _ (current i c (m' m0 v))); [apply quiet_remember_all|lasts|apply (remember_all_ok c (m' m0 v))]]; cbn beta; [done| |tauto].
    intros [] m s _ ((Hl & Hm) & Hcur). split; [by eapply like_current|]. rewrite (lk_head _ _ Hl). done.
  - apply (t_bind _ _ _ _ (λ _ m s, current i c m s)); [eapply t_pre; [|apply archive_Load_ok]; intros m s _ (-> & (? & _) & _); done|]. intros [].
    apply (t_bind _ _ _ _ (λ m1 m s, m1 = m ∧ current i c m s)); [by apply t_self|]. intros m1. destruct (_ || _) eqn:Eb.
    { apply t_fail. intros m s _ (_ & ? & _). done. }
    bool_hyps. apply t_pure. intros m s _ (-> & ?). split_and!; (done || lia).
Qed.

(** ** Extents *)

Lemma exec_put k data o s : written (exec i (PutObject k data) o s).1 = data :: written s ∧
  ((exec i (PutObject k data) o s).2 = Ok tt → is_Some (objects (exec i (PutObject k data) o s).1 !! k)) ∧
  (objects (exec i (PutObject k data) o s).1 = objects s ∨ objects (exec i (PutObject k data) o s).1 = <[k := data]> (objects s)).
Proof.
  unfold Archive.exec, faulty. case_bool_decide; destruct (fault o) as [[[] ?]|]; simpl; split_and!; auto; try done.
  intros _. rewrite lookup_insert_eq. by eexists.
Qed.

Lemma put_inv k data e o s :
  inv s → may_run i (PutObject k data) s = true → k.1 = sha256 data → 1 <= k.2 → decodeExtent data = Some e → good e → inv (exec i (PutObject k data) o s).1.
Proof.
  intros Hi Hr Hk1 Hk2 Hd Hg. pose proof (exec_grows i (PutObject k data) o s eq_refl) as G. destruct (exec_put k data o s) as (Ew & _ & Eo).
  apply andb_true_iff in Hr as [Hr _]. simpl in Hr. apply andb_true_iff in Hr as [Hz%negb_true_iff%bool_decide_eq_false Hfree]. rewrite forallb_forall in Hfree.
  assert (∀ x, x ∈ written s → sha256 x = sha256 data → x = data) as Hf.
  { intros x Hx E. apply list_elem_of_In in Hx. specialize (Hfree x Hx). rewrite bool_decide_true in Hfree by done. by apply bool_decide_eq_true in Hfree. }
  destruct Hi as [H1 H2 H3 H4 H5]. split.
  - intros k' d'. rewrite Ew. intros Hl. assert (objects s !! k' = Some d' ∨ k' = k ∧ d' = data) as [Hl'|[-> ->]].
    { destruct Eo as [E|E]; rewrite E in Hl; [by left|]. apply lookup_insert_Some in Hl as [[<- <-]|[_ ?]]; [by right|by left]. }
    + destruct (H1 _ _ Hl') as (? & ? & ?). split_and!; [by right|done|done].
    + split_and!; [left|done|done].
  - rewrite Ew. intros d' [->|Hd']%elem_of_cons; [split; [done|by exists e]|by apply H2].
  - rewrite Ew. intros x y [->|Hx]%elem_of_cons [->|Hy]%elem_of_cons E; [done|symmetry; by apply Hf|by apply Hf|by apply H3].
  - rewrite (gr_head _ _ G), (gr_versions _ _ G). intros d' v Hh. destruct (H4 d' v Hh) as (? & h & refs & ? & Hok & Hp). split; [done|]. exists h, refs.
    split_and!; [done|by eapply head_ok_mono, Hok; apply (gr_written _ _ G)|]. intros r Hr. by apply (gr_objects _ _ G), Hp.
  - assert (reported (exec i (PutObject k data) o s).1 = reported s) as ->.
    { unfold Archive.exec, faulty. case_bool_decide; destruct (fault o) as [[[] ?]|]; done. }
    intros t Ht. destruct (H5 t Ht) as [?|(h & v & (d & Ed & D) & ?)]; [by left|right]. exists h, v. split; [|done]. exists d. by rewrite (gr_head _ _ G).
Qed.

Lemma lasting_uploaded data : lasting i (λ s, data ∈ written s).
Proof. apply (lasting_written i (λ W, data ∈ W)). intros W W' Hs. apply Hs. Qed.
#[local] Hint Resolve lasting_uploaded : lasting.

Lemma quiet_uploadExtent data g : quiet_action (uploadExtent data g).
Proof. unfold Archive.uploadExtent. quietly. Qed.

Lemma uploadExtent_ok m0 data g e (P0 R : archiveStore → Prop) :
  lasting i P0 → lasting i R → decodeExtent data = Some e → good e → 1 <= g → PreviousObject e <= g →
  (∀ s, inv s → P0 s → named (written s) (sha256 data, g) e → data ∈ written s → is_Some (objects s !! (sha256 data, g)) → R s) →
  triple i (λ m s, m = m0 ∧ P0 s) (uploadExtent data g) (λ _ m s, m = m0 ∧ R s) (λ m s, m = m0 ∧ P0 s).
Proof.
  intros HP HR Hd Hg H1 Hprev HPR. unfold Archive.uploadExtent. set (k := (sha256 data, g)).
  assert (∀ s, inv s → P0 s → data ∈ written s → is_Some (objects s !! k) → R s) as HPR'.
  { intros s Hi HPs Hw Hk. apply HPR; [done|done| |done|done]. split; [|done|done]. by exists data. }
  apply (t_bind _ _ _ _ (λ x m s, m = m0 ∧ P0 s ∧ data ∈ written s ∧ (x = Ok tt → R s))).
  - apply t_ask; [done|intros x m; lasts|]. intros m s o Hi [-> HPs] Hr. pose proof (put_inv k data e o s Hi Hr eq_refl H1 Hd Hg) as Hi'. split; [done|].
    destruct (exec_put k data o s) as (Ew & Hk & _). assert (P0 (exec i (PutObject k data) o s).1) as HPs'.
    { apply (HP s); [done|done| |done]. left. by apply exec_grows. }
    assert (data ∈ written (exec i (PutObject k data) o s).1) as Hw by (rewrite Ew; left). split_and!; [done|done|done|]. intros Ex. apply HPR'; auto.
  - intros [[]|e']; [apply t_pure; intros m s _ (-> & _ & _ & HRs); auto|].
    assert (∀ err, triple i (λ m s, m = m0 ∧ P0 s ∧ data ∈ written s ∧ (Err e' = Ok tt → R s)) (abind (attempt (readExtent k)) (λ x, match x with Ok _ => pure tt | Err _ => fail err end))
      (λ _ m s, m = m0 ∧ R s) (λ m s, m = m0 ∧ P0 s)) as Hread.
    { intros err. eapply t_bind; [apply t_attempt; eapply t_conseq; [| | |apply (readExtent_ok i k m0 (λ s, P0 s ∧ data ∈ written s) (λ _, R)); [lasts|intros; lasts|]]|]; cbn beta.
      - tauto.
      - intros x m s _ HQ. exact HQ.
      - intros m s _ HQ. exact HQ.
      - intros s e'' Hi [? ?] _ Hk. by apply HPR'.
      - intros [x|x]; [apply t_pure; tauto|apply t_fail; tauto]. }
    destruct e'; try apply Hread; apply t_fail; tauto.
Qed.

(** ** Locks *)

Lemma inv_holder s x : inv s → inv (set_holder s x).
Proof. intros [H1 H2 H3 H4 H5]. by split. Qed.

Lemma t_lock (P : manager → archiveStore → Prop) E : (∀ m, lasting i (P m)) → (∀ m s x, P m s → P m (set_holder s x)) → triple i P (ask LockGC) (λ _, P) E.
Proof.
  intros HP Hh m s o Hi HPs _. assert ((exec i LockGC o s).1 = s ∨ (exec i LockGC o s).1 = set_holder s (Some i)) as [->| ->] by (unfold Archive.exec; destruct (choice o); auto).
  - split_and!; [done|apply grows_guar, store_grows_refl|]. exists (P m). split_and!; [done|done|]. by intros s' _ ?.
  - split_and!; [by apply inv_holder| |]. { split; simpl; auto. } exists (P m). split_and!; [done|by apply Hh|]. by intros s' _ ?.
Qed.

Lemma t_unlock (P : manager → archiveStore → Prop) E : (∀ m, lasting i (P m)) → (∀ m s x, P m s → P m (set_holder s x)) → triple i P (ask UnlockGC) (λ _, P) E.
Proof.
  intros HP Hh m s o Hi HPs _. unfold Archive.exec. simpl. case_bool_decide as Eh.
  - split_and!; [by apply inv_holder| |]. { split; simpl; auto. } exists (P m). split_and!; [done|by apply Hh|]. by intros s' _ ?.
  - split_and!; [done|apply grows_guar, store_grows_refl|]. exists (P m). split_and!; [done|done|]. by intros s' _ ?.
Qed.

Lemma withGCLock_ok {A} (p : action A) c :
  triple i (λ m s, mgr c m s) p (λ _ m s, mgr c m s) (λ m s, mgr c m s) → triple i (λ m s, mgr c m s) (withGCLock p) (λ _ m s, mgr c m s) (λ m s, mgr c m s).
Proof.
  intros Hp. assert (∀ m, lasting i (λ s, mgr c m s)) as Hl by (intros; lasts). assert (∀ m s x, mgr c m s → mgr c m (set_holder s x)) as Hh by (intros m s x []; by split).
  apply (t_bind _ _ _ _ (λ _ m s, mgr c m s)); [by apply t_lock|]. intros []; cbn [negb]; [|by apply t_fail].
  eapply t_bind; [eapply t_attempt, Hp|]. intros r. apply (t_bind _ _ _ _ (λ _ m s, mgr c m s)); [eapply t_pre; [|by apply t_unlock]; by destruct r|]. intros [].
  apply (t_bind _ _ _ _ (λ _ m s, mgr c m s)); [by apply t_read_any|]. intros lost. destruct r; [|by apply t_fail]. destruct lost; [by apply t_fail|by apply t_pure].
Qed.

(** Work under PUBLISH_LOCK: it may run or not, and its result may be lost. *)
Lemma publicationLock_ok {A} (work busy : action A) (P : manager → archiveStore → Prop) (Q : A → manager → archiveStore → Prop) E :
  (∀ m, lasting i (P m)) → (∀ m a, lasting i (Q a m)) → (∀ m, lasting i (E m)) → (∀ a m s, inv s → Q a m s → E m s) → triple i P work Q E → triple i P busy Q E →
  triple i P (publicationLock work busy) Q E.
Proof.
  intros HP HQ HE HQE Hw Hb. apply (t_bind _ _ _ _ (λ _, P)); [by apply t_read_any|]. intros []; cbn [negb]; [|done].
  eapply t_bind; [eapply t_attempt, Hw|]. intros r. apply (t_bind _ _ _ _ (λ _ m s, match r with Ok a => Q a m s | Err _ => E m s end)); [apply t_read_any; [done|by destruct r]|].
  intros lost. destruct r; [|by apply t_fail]. destruct lost; [by apply t_fail, HQE|by apply t_pure].
Qed.
End writes.
#[export] Hint Resolve lasting_content lasting_uploaded : lasting.
#[export] Hint Resolve quiet_uploadExtent quiet_refreshPublishedHead quiet_remember_all : quiet.
