(* ===== verification/ArchiveSync.v ===== *)
(** * Operations that publish: sync, trim, initialise, seal

    Each keeps the rules of the store; a sync that returns leaves a head that
    covers its slot. *)

From stdpp Require Import gmap list.
From S2P Require Import Prelude Bytes Protocol Schedule Node Programs ArchiveCodec ArchiveCodecProofs Archive ArchiveChains ArchiveLogic ArchiveReads ArchiveWrites.

Abbreviation buildExtent := (Archive.buildExtent sha256 validateValue).
Abbreviation add_extents := (Archive.add_extents sha256 validateValue).
Abbreviation sync_attempts := (Archive.sync_attempts sha256 validateValue unmarshalSeal).
Abbreviation syncNowBatch := (Archive.syncNowBatch sha256 validateValue unmarshalSeal).
Abbreviation SyncThrough := (Archive.SyncThrough sha256 validateValue unmarshalSeal).
Abbreviation trim_attempts := (Archive.trim_attempts sha256 validateValue unmarshalSeal).
Abbreviation trimThrough := (Archive.trimThrough sha256 validateValue unmarshalSeal marshalSeal).
Abbreviation TrimThrough := (Archive.TrimThrough sha256 validateValue unmarshalSeal marshalSeal).
Abbreviation InitializeFencedGeneration := (Archive.InitializeFencedGeneration sha256 validateValue unmarshalSeal).
Abbreviation seal_attempts := (Archive.seal_attempts sha256 validateValue unmarshalSeal).
Abbreviation Seal := (Archive.Seal sha256 validateValue unmarshalSeal).

Section heads.
Context `{archiveSetting}.

(** ** Heads with another tail *)

(** What a head says about its base. *)
Record base_ok (h : archiveHead) : Prop := {
  bo_genesis : genesisSlot <= hBase h;
  bo_prefix : BasePrefix h = prefix_at (hBase h);
  bo_wf : (hBase h = 0 → LineageAnchor h = None) ∧ (hBase h ≠ 0 → BasePrefix h ≠ zeroHash) ∧
    (∀ a, BaseAnchor h = Some a → LineageAnchor h = Some a ∧ length a = 32%nat) ∧ (∀ a, LineageAnchor h = Some a → length a = 32%nat) ∧
    (∀ d, BaseDecision h = Some d → 0 <= aSlot d < 2 ^ 64);
  bo_anchor : match BaseAnchor h with Some _ => bool_decide (BaseSeal h = None) && bool_decide (BaseDecision h = None) | None => true end = true;
  bo_certified : (negb (0 <? hBase h) ||
    match BaseSeal h, BaseDecision h with
    | Some seal, Some _ => (sealIndex seal =? hBase h) && bool_decide (sealPrefixHash seal = BasePrefix h)
    | _, _ => false
    end || match BaseAnchor h with Some anchor => negb (bool_decide (anchor = zeroHash)) | None => false end) = true;
}.

Lemma head_ok_base W h refs : head_ok W h refs → base_ok h.
Proof.
  intros [H1 H2 H3 H4 H5 (_ & _ & _ & _ & _ & _ & _ & ? & ? & ? & ? & ?) _ _]. unfold head_valid in H5. rewrite !andb_true_iff in H5.
  destruct H5 as [[[[[_ _] _] _] ?] ?]. by split.
Qed.

Lemma empty_base c : genesisSlot = 0 → base_ok (empty_head c).
Proof. intros E. split; cbn; [lia|by rewrite prefix_zero|split_and!; done|done|done]. Qed.

(** The name of a tail, or no name. *)
Record tail_ok (g : Z) (k : objectKey) : Prop := {
  to_zero : k.1 = zeroHash ↔ k.2 = 0;
  to_length : length k.1 = 32%nat;
  to_object : 0 <= k.2 <= g;
}.

Lemma retail_ok W h tip k g refs :
  base_ok h → hBase h <= tip <= maxSlot → (hBase h < tip ↔ k.1 ≠ zeroHash) → tail_ok g k → 1 <= g < 2 ^ 64 →
  links W (hBase h) k tip refs → spans (hBase h + 1) refs = Some tip → head_ok W (set_generation (set_tail h tip k) cluster g) refs.
Proof.
  intros [B1 B2 B3 B4 B5] Htip Hiff [T1 T2 T3] Hg Hl Hs. pose proof genesis_range. pose proof cluster_range. unfold maxSlot in Htip.
  assert (Bool.eqb (hBase h <? tip) (negb (bool_decide (k.1 = zeroHash))) = true) as E1.
  { apply eqb_true_iff. destruct (Z.ltb_spec (hBase h) tip) as [Hlt|Hge]; destruct (bool_decide_reflect (k.1 = zeroHash)) as [Ek|Ek]; [by destruct (proj1 Hiff Hlt)|done|done|]. pose proof (proj2 Hiff Ek). lia. }
  assert (Bool.eqb (bool_decide (k.1 = zeroHash)) (k.2 =? 0) = true) as E2.
  { apply eqb_true_iff. destruct (Z.eqb_spec k.2 0); destruct (bool_decide_reflect (k.1 = zeroHash)); try done; exfalso; tauto. }
  split; cbn [set_generation set_tail hConfigID hBase BasePrefix hTip TailHash TailObject hGeneration BaseAnchor BaseSeal BaseDecision LineageAnchor]; [done|done|done|..|by destruct k|done].
  - unfold head_range. cbn [set_generation set_tail hConfigID hBase BasePrefix hTip TailHash TailObject hGeneration]. rewrite E1, E2, !andb_true_iff, !Z.leb_le. lia.
  - unfold head_valid. cbn [set_generation set_tail hConfigID hBase BasePrefix hTip TailHash TailObject hGeneration BaseAnchor BaseSeal BaseDecision LineageAnchor].
    rewrite E1, B4, B5, Z.eqb_refl, !andb_true_iff, negb_true_iff, Z.leb_le, Z.eqb_neq. lia.
  - unfold wf_head. cbn [set_generation set_tail hConfigID hBase BasePrefix hTip TailHash TailObject hGeneration BaseAnchor BaseSeal BaseDecision LineageAnchor].
    destruct B3 as (? & ? & ? & ? & ?). rewrite B2, prefix_length. split_and!; (done || lia || by rewrite <-B2).
Qed.

(** The head of a manager, also when it has read none. *)
Lemma mgr_chain c m s : mgr c m s →
  links (written s) (hBase (mHead m)) (TailHash (mHead m), TailObject (mHead m)) (hTip (mHead m)) (mExtents m) ∧
  spans (hBase (mHead m) + 1) (mExtents m) = Some (hTip (mHead m)) ∧ tail_ok (hGeneration (mHead m)) (TailHash (mHead m), TailObject (mHead m)) ∧
  0 <= hGeneration (mHead m) <= maxSlot ∧ 0 <= hBase (mHead m) <= hTip (mHead m) ∧ hTip (mHead m) <= maxSlot.
Proof.
  intros [_ _ Hm]. unfold maxSlot. destruct (mHeadCAS m) as [v|].
  - destruct Hm as (_ & [H1 H2 H3 H4 H5 H6 H7 H8] & _). destruct H6 as (? & ? & ? & ? & ? & ? & ? & _). unfold head_range in H4. rewrite !andb_true_iff, !eqb_true_iff, !Z.leb_le in H4.
    destruct H4 as [[[Hbt _] Hz] Hle]. split_and!; try (done || lia). split; cbn [fst snd]; [|done|lia]. destruct (Z.eqb_spec (TailObject (mHead m)) 0), (bool_decide_reflect (TailHash (mHead m) = zeroHash)); (done || tauto).
  - destruct Hm as [-> (c' & ->)]. cbn. split_and!; try done. { by constructor. }
Qed.
End heads.

Section sync.
Context `{archiveSetting} (i : nat).

(** ** Building extents *)

Lemma source_decided from certs : decided_from from (source_page sha256 valueAt from certs).
Proof.
  revert from. induction certs as [|x certs IH]; intros from; [done|]. unfold source_page. rewrite imap_cons. cbn [decided_from aSlot aHash aValue].
  rewrite Z.add_0_r. split; [done|]. erewrite imap_ext; [apply IH|]. intros j y _. cbv zeta beta. simpl. by replace (from + 1 + Z.of_nat j) with (from + Z.pos (Pos.of_succ_nat j)) by lia.
Qed.

Lemma answer_page from limit o s l t : (exec i (Page from limit) o s).2 = Some (l, t) → genesisSlot < from ∧ decided_from from l.
Proof.
  unfold Archive.exec. simpl. destruct (choice o); [|done]. destruct (Z.ltb_spec genesisSlot from); [|done]. simpl. intros [= <- _]. split; [done|apply source_decided].
Qed.

Lemma answer_prefix slot o s p : (exec i (PrefixHash slot) o s).2 = Some p → p = prefix_at slot.
Proof. unfold Archive.exec. simpl. destruct (choice o && _); [|done]. by intros [= <-]. Qed.

Lemma select_prefix size l : ∃ l', l = select size l ++ l'.
Proof. revert size. induction l as [|d l IH]; intros size; cbn [select]; [by exists []|]. destruct (_ <? _); [by exists (d :: l)|]. destruct (IH (size + archiveDecisionSize d)) as [l' E]. exists l'. cbn [app]. by rewrite <-E. Qed.

Lemma select_decided from size n l : decided_from from l → decided_from from (select size (take n l)).
Proof. intros Hl. apply (decided_take _ _ n) in Hl. destruct (select_prefix size (take n l)) as [l' E]. rewrite E, decided_app in Hl. tauto. Qed.

(** An extent of the log from a slot, behind the object [previous]. *)
Record built (c from : Z) (previous : objectKey) (e : Extent) (data : bytes) : Prop := {
  bu_genesis : genesisSlot < from;
  bu_config : xConfigID e = c;
  bu_start : xStart e = from;
  bu_prefix : StartPrefix e = prefix_at (from - 1);
  bu_decisions : decided_from from (Decisions e);
  bu_previous : (PreviousHash e, PreviousObject e) = previous;
  bu_encoded : encodeExtent e = Some data;
}.

Lemma quiet_buildExtent from through previous : quiet_action (buildExtent from through previous).
Proof. unfold Archive.buildExtent. quietly. Qed.

Lemma buildExtent_ok m0 (P0 : archiveStore → Prop) from through previous :
  lasting i P0 → 
  triple i (λ m s, m = m0 ∧ P0 s) (buildExtent from through previous) (λ x m s, m = m0 ∧ P0 s ∧ built (mConfigID m0) from previous x.1.1 x.1.2) (λ m s, m = m0 ∧ P0 s).
Proof.
  intros HP. unfold Archive.buildExtent. destruct (Z.eqb_spec from 0) as [|Hz]; cbn [orb]; [by apply t_fail|]. destruct (_ <? _); [by apply t_fail|].
  apply (t_bind _ _ _ _ (λ x m s, m = m0 ∧ P0 s ∧ ∀ l t, x = Some (l, t) → genesisSlot < from ∧ decided_from from l)).
  { apply t_read; [done|intros; lasts|]. intros m s o _ [-> ?]. split_and!; [done|done|]. intros l t. apply answer_page. }
  intros [[l t]|]; [|apply t_fail; tauto]. apply (t_given _ _ (genesisSlot < from ∧ decided_from from l)); [intros m s _ (_ & _ & Hl); by eapply Hl|].
  intros [Hgen Hdec]. apply (t_pre _ _ (λ m s, m = m0 ∧ P0 s)); [tauto|]. pose proof genesis_range. destruct (match l with [] => _ | _ => _ end); [by apply t_fail|].
  apply (t_bind _ _ _ _ (λ x m s, m = m0 ∧ P0 s ∧ ∀ p, x = Some p → p = prefix_at (from - 1))).
  { destruct (Z.ltb_spec 1 from).
    - apply t_read; [done|intros; lasts|]. intros m s o _ [-> ?]. split_and!; [done|done|]. intros p. apply answer_prefix.
    - apply t_pure. intros m s _ [-> ?]. split_and!; [done|done|]. intros p [= <-]. replace (from - 1) with 0 by lia. rewrite prefix_zero by lia. done. }
  intros [start|]; [|apply t_fail; tauto]. apply (t_given _ _ (start = prefix_at (from - 1))); [intros m s _ (_ & _ & Hp); by apply Hp|]. intros ->.
  apply (t_pre _ _ (λ m s, m = m0 ∧ P0 s)); [tauto|]. set (sel := select _ (take _ l)). assert (decided_from from sel) as Hsel by (by apply select_decided).
  destruct (last sel) as [d|]; [|by apply t_fail].
  apply (t_bind _ _ _ _ (λ _ m s, m = m0 ∧ P0 s)); [apply t_read_any; [done|intros; lasts]|]. intros endPrefix.
  apply (t_bind _ _ _ _ (λ m1 m s, m1 = m0 ∧ m = m0 ∧ P0 s)); [apply t_self; intros m s _ [-> ?]; done|]. intros m1. apply (t_given _ _ (m1 = m0)); [tauto|]. intros ->.
  apply (t_pre _ _ (λ m s, m = m0 ∧ P0 s)); [tauto|]. destruct endPrefix as [p|]; [|by apply t_fail]. destruct (encodeExtent _) as [data|] eqn:Ee; [|by apply t_fail].
  apply t_pure. intros m s _ [-> ?]. split_and!; [done|done|]. cbn [fst snd]. split; try done. by destruct previous.
Qed.

(** ** The loop of a sync *)

(** A head of [m0] with extents [added] behind it, not published yet. *)
Record adding (c : Z) (m0 : manager) (h : archiveHead) (added : list ref) (tail : list (objectKey * Extent)) (s : archiveStore) : Prop := {
  ag_mgr : mgr c m0 s;
  ag_links : links (written s) (hBase (mHead m0)) (TailHash h, TailObject h) (hTip h) (mExtents m0 ++ added);
  ag_spans : spans (hBase (mHead m0) + 1) (mExtents m0 ++ added) = Some (hTip h);
  ag_added : ∀ r, r ∈ added → rObject r = hGeneration (mHead m0) + 1 ∧ prepared (mHeadCAS m0) (ref_key r) s;
  ag_tail : ∀ k e, (k, e) ∈ tail → content (written s) k.1 e;
  ag_head : h = set_tail (mHead m0) (hTip h) (TailHash h, TailObject h);
  ag_key : tail_ok (hGeneration (mHead m0) + 1) (TailHash h, TailObject h);
  ag_tip : hTip (mHead m0) <= hTip h <= maxSlot;
  ag_first : added = [] ∧ h = mHead m0 ∨ (mHeadCAS m0 = None → genesisSlot = 0) ∧ TailHash h ≠ zeroHash ∧ hBase (mHead m0) < hTip h;
}.

Lemma lasting_adding c m0 h added tail : lasting i (adding c m0 h added tail).
Proof.
  intros s s' Hi Hi' Hr [H1 H2 H3 H4 H5 H6 H7 H8 H9]. split; [by apply (lasting_mgr i c m0 s)|by apply (lasting_links i _ _ _ _ s)|done| | |done..].
  - intros r Hin. destruct (H4 r Hin) as [E Hp]. split; [done|]. refine (proj2 (lasting_prepared i c m0 (ref_key r) _ s s' Hi Hi' Hr (conj H1 Hp))). simpl. lia.
  - intros k e Hin. by apply (lasting_content i k.1 e s s'), H5.
Qed.
#[local] Hint Resolve lasting_adding : lasting.

Lemma adding_start c m0 s : mgr c m0 s → adding c m0 (mHead m0) [] [] s.
Proof.
  intros Hm. destruct (mgr_chain c m0 s Hm) as (Hl & Hs & [T1 T2 T3] & Hg & Hb & Ht). split; [done|by rewrite app_nil_r|by rewrite app_nil_r|by intros r ?%elem_of_nil|by intros k e ?%elem_of_nil|..].
  - by destruct (mHead m0).
  - split; [done|done|]. cbn in *. lia.
  - lia.
  - by left.
Qed.

(** An extent behind the last one, when it has been uploaded. *)
Lemma adding_step c m0 h added tail s e data :
  inv s → c = cluster → adding c m0 h added tail s → built c (hTip h + 1) (TailHash h, TailObject h) e data → good e → xEnd e <= maxSlot →
  named (written s) (sha256 data, hGeneration (mHead m0) + 1) e → is_Some (objects s !! (sha256 data, hGeneration (mHead m0) + 1)) →
  let k := (sha256 data, hGeneration (mHead m0) + 1) in adding c m0 (set_tail h (xEnd e) k) (added ++ [extentRef e k]) (last_two (tail ++ [(k, e)])) s.
Proof.
  intros Hi Hc [H1 H2 H3 H4 H5 H6 [K1 K2 K3] H8 H9] Hb Hg Hmax Hn Hk. cbv zeta. set (k := (sha256 data, hGeneration (mHead m0) + 1)).
  pose proof (good_order e Hg) as Ho. pose proof (bu_start _ _ _ _ _ Hb) as Est. destruct (mgr_chain c m0 s H1) as (_ & _ & _ & Hgen & Hbase & _).
  destruct (content_good s _ e Hi (na_content _ _ _ Hn)) as [_ Hnz]. cbn [fst] in Hnz. split.
  - done.
  - rewrite app_assoc. cbn [set_tail TailHash TailObject hTip]. apply links_cons; [lia|done|by apply extentRef_describes|].
    rewrite (bu_previous _ _ _ _ _ Hb), Est. by replace (hTip h + 1 - 1) with (hTip h) by lia.
  - rewrite app_assoc, spans_app, H3. cbn [spans extentRef rStart rEnd set_tail hTip]. rewrite Est, Z.eqb_refl. f_equal. lia.
  - intros r [Hr| ->%list_elem_of_singleton]%elem_of_app; [by apply H4|]. split; [done|]. by intros _.
  - intros k' e' Hin. unfold last_two in Hin. apply list_elem_of_lookup in Hin as [n Hin]. rewrite lookup_drop in Hin. apply list_elem_of_lookup_2 in Hin.
    apply elem_of_app in Hin as [?|E%list_elem_of_singleton]; [by apply H5|]. apply (inj2 pair) in E as [-> ->]. apply (na_content _ _ _ Hn).
  - rewrite H6. by destruct (mHead m0).
  - subst k. split; cbn [set_tail TailHash TailObject fst snd]; [|apply sha256_length|lia]. split; [done|]. lia.
  - cbn [set_tail hTip]. lia.
  - right. cbn [set_tail TailHash hTip]. split_and!; [|done|lia]. intros Ecas. destruct H9 as [[-> ->]|[Hz _]]; [|by apply Hz].
    pose proof (bu_genesis _ _ _ _ _ Hb) as Hgs. pose proof genesis_range. pose proof (mg_head _ _ _ H1) as Hh. rewrite Ecas in Hh. destruct Hh as [_ [c' E]]. rewrite E in Hgs. simpl in Hgs. lia.
Qed.

Lemma quiet_add_extents fuel from through next h added tail : quiet_action (add_extents fuel from through next h added tail).
Proof.
  revert from h added tail. induction fuel as [|n IH]; intros from h added tail; cbn [Archive.add_extents]; [apply q_fail|].
  apply q_bind; [apply quiet_buildExtent|]. intros [[e data] t]. cbv zeta. quietly.
Qed.

Lemma add_extents_ok c m0 fuel through h added tail :
  c = cluster → hGeneration (mHead m0) < maxSlot →
  triple i (λ m s, m = m0 ∧ adding c m0 h added tail s) (add_extents fuel (hTip h + 1) through (hGeneration (mHead m0) + 1) h added tail)
    (λ x m s, m = m0 ∧ adding c m0 x.1.1 x.1.2 x.2 s ∧ through <= hTip x.1.1 ∧ x.1.2 ≠ []) (λ m s, m = m0 ∧ mgr c m0 s).
Proof.
  intros Hc Hgm. revert h added tail. induction fuel as [|n IH]; intros h added tail; cbn [Archive.add_extents]; [apply t_fail; intros m s _ [-> []]; done|].
  apply (t_bind _ _ _ _ (λ x m s, m = m0 ∧ adding c m0 h added tail s ∧ built c (hTip h + 1) (TailHash h, TailObject h) x.1.1 x.1.2)).
  { eapply t_conseq; [| | |apply (buildExtent_ok m0 (adding c m0 h added tail)); lasts]; cbn beta; [done| |intros m s _ [-> []]; done].
    intros x m s _ (-> & Ha & Hb). pose proof (mg_config _ _ _ (ag_mgr _ _ _ _ _ _ Ha)) as E. by rewrite E in Hb. }
  intros [[e data] t]. cbn [fst snd]. set (k := (sha256 data, hGeneration (mHead m0) + 1)). set (h1 := set_tail h (xEnd e) k).
  apply (t_given _ _ (built c (hTip h + 1) (TailHash h, TailObject h) e data ∧ tail_ok (hGeneration (mHead m0) + 1) (TailHash h, TailObject h) ∧ 0 <= hGeneration (mHead m0))).
  { intros m s _ (-> & Ha & Hb). split_and!; [done|apply (ag_key _ _ _ _ _ _ Ha)|]. destruct (mgr_chain c m0 s (ag_mgr _ _ _ _ _ _ Ha)) as (_ & _ & _ & ? & _). lia. }
  intros (Hb & [K1 K2 K3] & Hgen). cbn [fst snd] in *. unfold maxSlot in Hgm.
  pose proof (bu_previous _ _ _ _ _ Hb) as Eprev. apply (inj2 pair) in Eprev as [Ep1 Ep2]. pose proof (bu_start _ _ _ _ _ Hb) as Est.
  destruct (encode_good e data) as (Hdec & Hg & Hmax); [apply Hb|rewrite (bu_config _ _ _ _ _ Hb); done|rewrite Est; apply Hb|rewrite Est; apply Hb|rewrite Est; apply Hb|by rewrite Ep1, Ep2|by rewrite Ep1|rewrite Ep2; lia|].
  apply (t_bind _ _ _ _ (λ _ m s, m = m0 ∧ adding c m0 h1 (added ++ [extentRef e k]) (last_two (tail ++ [(k, e)])) s)).
  { eapply t_conseq; [| | |apply (uploadExtent_ok i m0 data (hGeneration (mHead m0) + 1) e (adding c m0 h added tail)); [lasts| |done|done|lia|lia|]]; cbn beta.
    - tauto.
    - intros x m s _ HQ. exact HQ.
    - intros m s _ [-> []]. done.
    - lasts.
    - intros s Hi Ha Hn _ Hk. by apply adding_step. }
  intros _. destruct (_ && _); [apply t_fail; intros m s _ [-> []]; done|]. change (xEnd e) with (hTip h1). destruct (Z.leb_spec through (hTip h1)); [|apply IH].
  apply t_pure. intros m s _ [-> ?]. split_and!; [done|done|done|]. cbn [fst snd]. by destruct added.
Qed.

(** The head after the loop. *)
Lemma adding_next c m0 h added tail s :
  c = cluster → adding c m0 h added tail s → added ≠ [] → hSealed (mHead m0) = false → hGeneration (mHead m0) < maxSlot →
  next_ok i m0 (set_generation h cluster (hGeneration (mHead m0) + 1)) (mExtents m0 ++ added) false s.
Proof.
  intros Hc [H1 H2 H3 H4 H5 H6 H7 H8 H9] Hne Hsealed Hgm. destruct H9 as [[? _]|(Hzero & Hnz & Hlt)]; [done|]. destruct (mgr_chain c m0 s H1) as (_ & _ & _ & Hgen & Hbase & _).
  assert (base_ok (mHead m0)) as Hbo.
  { pose proof (mg_head _ _ _ H1) as Hh. destruct (mHeadCAS m0) as [v|]; [destruct Hh as (_ & Hok & _); by eapply head_ok_base|]. destruct Hh as [_ [c' ->]]. by apply empty_base, Hzero. }
  unfold maxSlot in *. split.
  - rewrite H6. apply retail_ok; [done|cbn; unfold maxSlot; lia|cbn; tauto|done|lia|done|done].
  - intros _. split; cbn [set_generation hGeneration hBase hTip]; [lia|rewrite H6; cbn; lia|lia|congruence].
  - intros r [Hr|Hr]%elem_of_app; [left; unfold live_keys; by apply list_elem_of_fmap_2|right; left]. destruct (H4 r Hr) as [-> ?]. split; [lia|done].
Qed.

(** ** Sync *)

Lemma sync_attempts_ok c through n :
  c = cluster →
  triple i (λ m s, mgr c m s) (sync_attempts n through) (λ _ m s, mgr c m s ∧ through <= hTip (mHead m)) (λ m s, mgr c m s).
Proof.
  intros Hc. induction n as [|n IH]; cbn [Archive.sync_attempts]; [by apply t_fail|].
  apply (t_bind _ _ _ _ (λ m0 m s, m = m0 ∧ mgr c m0 s)); [by apply t_self|]. intros m0. cbv zeta.
  assert (∀ m s, inv s → m = m0 ∧ mgr c m0 s → mgr c m s) as Hfail by (by intros m s _ [-> ?]).
  destruct (hSealed (mHead m0)) eqn:Es; [by apply t_fail|]. destruct (Z.leb_spec through (hTip (mHead m0))); [apply t_pure; intros m s _ [-> ?]; done|].
  destruct (Z.eqb_spec (hGeneration (mHead m0)) maxSlot) as [|Hne]; [by apply t_fail|].
  apply (t_given _ _ (mConfigID m0 = c ∧ hGeneration (mHead m0) < maxSlot)).
  { intros m s _ [-> Hm]. split; [apply (mg_config _ _ _ Hm)|]. destruct (mgr_chain c m0 s Hm) as (_ & _ & _ & ? & _). lia. }
  intros [Ecfg Hgm]. eapply t_bind.
  { eapply t_conseq; [| | |apply (add_extents_ok c m0 _ through (mHead m0) [] []); done]; cbn beta; [intros m s _ [-> ?]; split; [done|by apply adding_start]|intros x m s _ HQ; exact HQ|done]. }
  intros [[h1 added] tail]. cbn [fst snd]. apply (t_given _ _ (added ≠ [] ∧ through <= hTip h1)); [tauto|]. intros [Hadded Hthr].
  set (h2 := set_generation h1 (mConfigID m0) (hGeneration (mHead m0) + 1)).
  eapply t_bind; [apply t_attempt, (t_pre _ _ (λ m s, m = m0 ∧ adding c m0 h1 added tail s)); [tauto|];
    apply (publishHead_ok i c m0 h2 (mExtents m0 ++ added) false (adding c m0 h1 added tail) (λ s, mgr c m0 s ∧ ∀ k e, (k, e) ∈ tail → content (written s) k.1 e))|].
  - lasts.
  - lasts.
  - intros s _ []. done.
  - intros s data _ Ha _. unfold h2. rewrite Ecfg, Hc. by eapply adding_next.
  - intros s data _ Ha Hm. split; [done|]. apply (ag_tail _ _ _ _ _ _ Ha).
  - intros [[]|err].
    + eapply t_conseq; [| | |apply (refreshPublishedHead_ok i c)]; cbn beta; [intros m s _ (-> & [? ?] & ?); done| |done].
      intros [] m s _ ([? _] & _ & Ht). split; [done|]. cbn [h2 set_generation hTip] in Ht. lia.
    + apply (t_bind _ _ _ _ (λ _ m s, current i c m s)); [eapply t_pre; [|apply archive_Load_ok]; intros m s _ (-> & ? & _); done|]. intros []. eapply t_pre; [|apply IH]. by intros m s _ [? _].
Qed.

Lemma mgr_covered c m s t : mgr c m s → 0 <= t → t <= hTip (mHead m) → covered t s.
Proof.
  intros [_ _ Hm] H0 Ht. destruct (mHeadCAS m) as [v|].
  - destruct Hm as (_ & _ & _ & h & v' & Hh & _ & _ & Ha). right. exists h, v'. split; [done|]. pose proof (ad_tip _ _ Ha). lia.
  - destruct Hm as [_ [c' E]]. left. rewrite E in Ht. simpl in Ht. lia.
Qed.

Lemma withPublicationLockRecheck_ok n recheck work (P : manager → archiveStore → Prop) (Q : unit → manager → archiveStore → Prop) :
  (∀ m, lasting i (P m)) → (∀ x m, lasting i (Q x m)) → (∀ x m s, inv s → Q x m s → P m s) →
  triple i P recheck (λ b m s, if b : bool then Q tt m s else P m s) P → triple i P work Q P → triple i P (withPublicationLockRecheck n recheck work) Q P.
Proof.
  intros HP HQ HQP Hr Hw. induction n as [|n IH]; cbn [withPublicationLockRecheck]; (apply publicationLock_ok; [done|by intros; apply HQ|done|done|done|]); [by apply t_fail|].
  eapply t_bind; [apply Hr|]. intros []; [by apply t_pure|apply IH].
Qed.

Lemma covered_check_ok c t :
  triple i (λ m s, mgr c m s) (abind (attempt Load) (λ x, match x with Ok _ => head_covers t | Err _ => pure false end))
    (λ b m s, mgr c m s ∧ (b = true → t <= hTip (mHead m))) (λ m s, mgr c m s).
Proof.
  eapply t_bind; [apply t_attempt, archive_Load_ok|]. intros [[]|e]; [|apply t_pure; done]. unfold head_covers.
  apply (t_bind _ _ _ _ (λ m1 m s, m1 = m ∧ mgr c m s)); [apply t_self; by intros m s _ [? _]|]. intros m1. destruct (hSealed (mHead m1)); [apply t_fail; tauto|].
  apply t_pure. intros m s _ [-> ?]. split; [done|]. by intros ?%Z.leb_le.
Qed.

Lemma SyncThrough_ok c patience through :
  c = cluster → 0 <= through →
  triple i (λ m s, mgr c m s) (SyncThrough patience through) (λ _ m s, mgr c m s ∧ covered through s) (λ m s, mgr c m s).
Proof.
  intros Hc H0. apply (t_post _ _ _ (λ _ m s, mgr c m s ∧ (through = 0 ∨ through <= hTip (mHead m)))).
  { intros [] m s _ [Hm [->|Ht]]; (split; [done|]); [by left|by eapply mgr_covered]. }
  unfold Archive.SyncThrough. apply (t_bind _ _ _ _ (λ m0 m s, m = m0 ∧ mgr c m0 s)); [by apply t_self|]. intros m0.
  destruct (_ || _) eqn:Eb. { apply t_pure. intros m s _ [-> ?]. split; [done|]. apply orb_true_iff in Eb as [?%Z.eqb_eq|?%Z.leb_le]; auto. }
  clear Eb.
  apply (t_bind _ _ _ _ (λ _ m s, mgr c m s)); [eapply t_pre; [|apply t_read_any; [done|intros; lasts]]; by intros m s _ [-> ?]|]. intros tip.
  apply (t_post _ _ _ (λ _ m s, mgr c m s ∧ Z.max through tip <= hTip (mHead m))); [intros [] m s _ [? ?]; split; [done|right; lia]|]. generalize (Z.max through tip). intros t.
  unfold Archive.syncNowBatch. apply (t_bind _ _ _ _ (λ m1 m s, m1 = m ∧ mgr c m s)); [by apply t_self|]. intros m1.
  destruct (Z.leb_spec t (hTip (mHead m1))); [apply t_pure; by intros m s _ [-> ?]|]. destruct (_ =? _); [apply t_fail; tauto|]. cbv zeta.
  apply (t_pre _ _ (λ m s, mgr c m s)); [tauto|]. eapply t_bind; [apply covered_check_ok|]. intros []; [apply t_pure; intros m s _ [? ?]; auto|].
  apply (t_pre _ _ (λ m s, mgr c m s)); [tauto|]. apply withPublicationLockRecheck_ok; [intros; lasts|intros; lasts|tauto| |].
  - eapply t_post; [|apply covered_check_ok]. intros [] m s _ [? ?]; auto.
  - apply (t_bind _ _ _ _ (λ _ m s, mgr c m s)); [eapply t_post; [|apply archive_Load_ok]; by intros [] m s _ [? _]|]. intros [].
    apply (t_bind _ _ _ _ (λ _ m s, mgr c m s)); [apply t_read_any; [done|intros; lasts]|]. intros src. eapply t_post; [|by apply sync_attempts_ok]. intros [] m s _ [? ?]. split; [done|lia].
Qed.
End sync.

(** ** Trim *)

Section trim.
Context `{archiveSetting} (i : nat).

Lemma encodeHead_range h data : encodeHead h = Some data → head_range h = true ∧ is_Some (encode_base sha256 unmarshalSeal h).
Proof.
  unfold ArchiveCodec.encodeHead. destruct (head_range h); cbn [negb orb]; [|done]. destruct (_ && _); [done|]. destruct (encode_base _ _ _) as [[]|]; [|done]. by split; [|eexists].
Qed.

Lemma encode_base_seal h seal d : is_Some (encode_base sha256 unmarshalSeal h) → hBase h ≠ 0 → BaseAnchor h = None → BaseSeal h = Some seal → BaseDecision h = Some d → sealPrefixHash seal ≠ zeroHash.
Proof.
  intros [x E] Hb Ea Es Ed. unfold encode_base in E. rewrite (proj2 (Z.eqb_neq _ _) Hb), Ea, Es, Ed in E. destruct (_ || _); [done|]. destruct (encodeBaseDecision _ _); [|done].
  destruct (bool_decide _) eqn:Edec; [|done]. apply bool_decide_eq_true in Edec. unfold DecodeCheckpointSeal in Edec. destruct (HasPrefix _ _); [|done].
  destruct (unmarshalSeal _) as [seal'|]; [|done]. destruct (_ || _) eqn:Eb; [done|]. apply (inj Some) in Edec as ->. bool_hyps. done.
Qed.

Lemma tip_cluster c m s : mgr c m s → 0 < hTip (mHead m) → c = cluster.
Proof. intros [_ _ Hm] Ht. destruct (mHeadCAS m); [tauto|]. destruct Hm as [_ [c' E]]. rewrite E in Ht. done. Qed.

Lemma trim_next c m0 seal d s data :
  mgr c m0 s → hSealed (mHead m0) = false → hBase (mHead m0) < sealIndex seal <= hTip (mHead m0) → hGeneration (mHead m0) ≠ maxSlot →
  sealPrefixHash seal = prefix_at (sealIndex seal) → 0 <= aSlot d <= maxSlot → encodeHead (trimmed (mHead m0) seal d) = Some data →
  next_ok i m0 (trimmed (mHead m0) seal d) (trim_refs (sealIndex seal) (sealPrefixHash seal) (mExtents m0)) false s.
Proof.
  intros Hm Hs Hi Hg Hp Hd Ee. destruct (mgr_chain c m0 s Hm) as (Hl & Hsp & [T1 T2 T3] & Hgen & Hbase & Hmax). pose proof (mg_head _ _ _ Hm) as Hh.
  destruct (mHeadCAS m0) as [v|] eqn:Ecas; [|destruct Hh as [_ [c' E]]; rewrite E in Hi; simpl in Hi; lia]. destruct Hh as (_ & Hok & _).
  destruct (encodeHead_range _ _ Ee) as [Hr Hb]. pose proof (encode_base_seal _ seal d Hb) as Hz. cbn [trimmed hBase BaseAnchor BaseSeal BaseDecision] in Hz.
  specialize (Hz ltac:(lia) eq_refl eq_refl eq_refl). pose proof (head_ok_base _ _ _ Hok) as [B1 _ (_ & _ & B3 & B4 & _) _ _]. pose proof (ho_wf _ _ _ Hok) as (W1 & W2 & _). unfold maxSlot in *.
  set (h := mHead m0) in *. assert (∀ r, r ∈ mExtents m0 → rStart r <= rEnd r) as Hord by (intros r Hin; apply (links_ends _ _ _ _ _ r Hl Hin)).
  assert (links (written s) (sealIndex seal) (TailHash h, TailObject h) (hTip h) (trim_refs (sealIndex seal) (sealPrefixHash seal) (mExtents m0))) as Hl'.
  { rewrite Hp. apply (links_trim _ (hBase h)); [lia|done]. }
  split.
  - split; cbn [trimmed hConfigID hBase BasePrefix hTip TailHash TailObject]; [apply (ho_config _ _ _ Hok)|lia|done|done| | | |].
    + unfold head_valid. unfold head_range in Hr. cbn [trimmed hConfigID hBase BasePrefix hTip TailHash TailObject hGeneration BaseAnchor BaseSeal BaseDecision] in *.
      rewrite !andb_true_iff in *. rewrite (ho_config _ _ _ Hok), !Z.eqb_refl, (bool_decide_true (sealPrefixHash seal = sealPrefixHash seal)), orb_true_r by done.
      destruct Hr as [[[? ?] ?] ?]. rewrite negb_true_iff, Z.eqb_neq. split_and!; (done || lia).
    + unfold wf_head. cbn [trimmed hConfigID hBase BasePrefix hTip TailHash TailObject hGeneration BaseAnchor BaseSeal BaseDecision LineageAnchor]. rewrite Hp at 1. rewrite prefix_length.
      cbn [fst snd] in *. split_and!; try (done || lia); [by destruct (_ =? _)|by destruct (_ =? _); lia|]. intros d' [= <-]. lia.
    + destruct (Z.eqb_spec (sealIndex seal) (hTip h)) as [E|]; [|done]. rewrite (links_nil _ _ _ _ _ Hl') by lia. constructor. lia.
    + by eapply spans_trim; [done|apply Hsp|lia|lia].
  - intros _. fold h. split; cbn [trimmed hGeneration hBase hTip]; [lia..|congruence].
  - intros r Hin. left. unfold trim_refs in Hin. apply list_elem_of_fmap in Hin as (r' & -> & Hin). apply list_elem_of_filter in Hin as [_ Hin].
    unfold live_keys. replace (ref_key _) with (ref_key r') by (by destruct (_ <=? _)). by apply list_elem_of_fmap_2.
Qed.

Lemma trim_attempts_ok c seal d n :
  sealPrefixHash seal = prefix_at (sealIndex seal) → 0 <= aSlot d <= maxSlot →
  triple i (λ m s, mgr c m s) (trim_attempts n seal d) (λ _ m s, mgr c m s) (λ m s, mgr c m s).
Proof.
  intros Hp Hd. induction n as [|n IH]; cbn [Archive.trim_attempts]; [by apply t_fail|].
  apply (t_bind _ _ _ _ (λ m0 m s, m = m0 ∧ mgr c m0 s)); [by apply t_self|]. intros m0. cbv zeta.
  assert (∀ m s, inv s → m = m0 ∧ mgr c m0 s → mgr c m s) as Hfail by (by intros m s _ [-> ?]).
  destruct (hSealed (mHead m0)) eqn:Es; [by apply t_fail|]. destruct (Z.leb_spec (sealIndex seal) (hBase (mHead m0))); [apply t_pure; by intros m s _ [-> ?]|].
  destruct (Z.ltb_spec (hTip (mHead m0)) (sealIndex seal)); [by apply t_fail|]. destruct (Z.eqb_spec (hGeneration (mHead m0)) maxSlot); [by apply t_fail|].
  apply (t_given _ _ (c = cluster)); [intros m s _ [_ Hm]; eapply tip_cluster; [done|]; destruct (mgr_chain c m0 s Hm) as (_ & _ & _ & _ & ? & _); lia|]. intros Hc.
  eapply t_bind; [apply t_attempt, (publishHead_ok i c m0 _ (trim_refs (sealIndex seal) (sealPrefixHash seal) (mExtents m0)) false (mgr c m0) (mgr c m0)); [lasts|lasts|done| |done]|].
  { intros s data _ Hm Ee. by eapply trim_next. }
  intros [[]|err].
  - eapply t_conseq; [| | |apply (refreshPublishedHead_ok i c)]; cbn beta; [|by intros [] m s _ ([? _] & _)|done]. intros m s _ (-> & ? & ?). split_and!; [done..|]. by intros k e ?%elem_of_nil.
  - apply (t_bind _ _ _ _ (λ _ m s, current i c m s)); [eapply t_pre; [|apply archive_Load_ok]; intros m s _ (-> & ?); done|]. intros []. eapply t_pre; [|apply IH]. by intros m s _ [? _].
Qed.

Lemma TrimThrough_ok c seal slot d :
  sealPrefixHash seal = prefix_at (sealIndex seal) → 0 <= aSlot d <= maxSlot →
  triple i (λ m s, mgr c m s) (TrimThrough seal slot d) (λ _ m s, mgr c m s) (λ m s, mgr c m s).
Proof.
  intros Hp Hd. apply withGCLock_ok. apply (t_bind _ _ _ _ (λ _ m s, mgr c m s)); [apply t_need, (t_post _ _ _ (λ _ m s, mgr c m s)); [by intros [] m s _ ?|apply t_read_any; [done|intros; lasts]]|].
  intros pinned. destruct (negb _); [by apply t_fail|]. apply publicationLock_ok; [intros; lasts|intros; lasts|intros; lasts|done| |by apply t_fail].
  apply (t_bind _ _ _ _ (λ _ m s, mgr c m s)); [eapply t_post; [|apply archive_Load_ok]; by intros [] m s _ [? _]|]. intros [].
  unfold Archive.trimThrough. destruct (negb _); [by apply t_fail|]. destruct (_ || _); [by apply t_fail|]. by apply trim_attempts_ok.
Qed.

(** ** Initialisation *)

Lemma fenced_next c m0 prefix anchor s :
  mgr c m0 s → c = cluster → genesisSlot ≠ 0 → hBase (mHead m0) = 0 → prefix = prefix_at genesisSlot → prefix ≠ zeroHash → anchor ≠ zeroHash → length anchor = 32%nat →
  genesisSlot <= maxSlot → next_ok i m0 (fenced_head c genesisSlot prefix anchor) [] false s.
Proof.
  intros Hm -> Hg Hb Hp Hz Ha Hl Hmax. pose proof genesis_range. pose proof cluster_range. unfold maxSlot in *. split.
  - split; cbn [fenced_head hConfigID hBase BasePrefix hTip TailHash TailObject]; [done|done|done| | | |by constructor|cbn; f_equal; lia].
    + unfold head_range. cbn [fenced_head hConfigID hBase BasePrefix hTip TailHash TailObject hGeneration BaseAnchor BaseSeal BaseDecision LineageAnchor]. by rewrite Z.leb_refl, Z.ltb_irrefl, bool_decide_true.
    + unfold head_valid. cbn [fenced_head hConfigID hBase BasePrefix hTip TailHash TailObject hGeneration BaseAnchor BaseSeal BaseDecision LineageAnchor]. by rewrite Z.leb_refl, Z.ltb_irrefl, Z.eqb_refl, (bool_decide_true (zeroHash = _)), (bool_decide_false (anchor = _)), !bool_decide_true, orb_true_r.
    + unfold wf_head. cbn [fenced_head hConfigID hBase BasePrefix hTip TailHash TailObject hGeneration BaseAnchor BaseSeal BaseDecision LineageAnchor]. rewrite Hp at 1. rewrite prefix_length. split_and!; try (done || lia). all: by intros a [= <-].
  - intros Hcas. pose proof (mg_head _ _ _ Hm) as Hh. destruct (mHeadCAS m0); [|done]. destruct Hh as (_ & Hok & _). pose proof (ho_base _ _ _ Hok). lia.
  - by intros r ?%elem_of_nil.
Qed.

Lemma InitializeFencedGeneration_ok c tip prefix anchor :
  c = cluster → tip = genesisSlot → prefix = prefix_at genesisSlot → length anchor = 32%nat → tip <= maxSlot →
  triple i (λ m s, mgr c m s) (InitializeFencedGeneration tip prefix anchor) (λ _ m s, mgr c m s) (λ m s, mgr c m s).
Proof.
  intros Hc -> Hp Hl Hmax. unfold Archive.InitializeFencedGeneration. destruct (_ || _) eqn:Eb; [by apply t_fail|]. bool_hyps.
  assert (triple i (λ m s, mgr c m s) Load (λ _ m s, mgr c m s) (λ m s, mgr c m s)) as Hload by (eapply t_post; [|apply archive_Load_ok]; by intros [] m s _ [? _]).
  apply publicationLock_ok; [intros; lasts|intros; lasts|intros; lasts|done| |by apply t_fail]. eapply t_bind; [apply Hload|]. intros [].
  apply (t_bind _ _ _ _ (λ m0 m s, m = m0 ∧ mgr c m0 s)); [by apply t_self|]. intros m0. case_bool_decide as Eh; [apply t_pure; by intros m s _ [-> ?]|].
  destruct (_ || _) eqn:Eb; [apply t_fail; by intros m s _ [-> ?]|]. bool_hyps.
  apply (t_given _ _ (mConfigID m0 = c)); [intros m s _ [_ Hm]; apply (mg_config _ _ _ Hm)|]. intros ->.
  apply (t_bind _ _ _ _ (λ _ m s, mgr c m s)); [eapply t_conseq; [| | |apply (publishHead_ok i c m0 _ [] false (mgr c m0) (mgr c m0)); [lasts|lasts|done| |done]]|intros []; apply Hload]; cbn beta; [done|by intros [] m s _ (-> & ? & _)|by intros m s _ [-> ?]|].
  intros s data _ Hm _. by apply fenced_next.
Qed.

(** ** Seal *)

Lemma sealed_next c m0 s v : mgr c m0 s → mHeadCAS m0 = Some v → hSealed (mHead m0) = false → next_ok i m0 (sealed_head (mHead m0)) (mExtents m0) false s.
Proof.
  intros Hm Ecas Hs. pose proof (mg_head _ _ _ Hm) as Hh. rewrite Ecas in Hh. destruct Hh as (_ & Hok & _). split.
  - by destruct Hok.
  - intros _. split; cbn; [lia..|congruence].
  - intros r Hr. left. by apply list_elem_of_fmap_2.
Qed.

Lemma intent_inv {X} (r : request X) o s : inv s → match r with PutIntent _ | PutMarker _ | DeleteMarker _ => True | _ => False end → inv (exec i r o s).1.
Proof.
  intros [H1 H2 H3 H4 H5] Hr. destruct r; try done; unfold Archive.exec, faulty; simpl; repeat case_match; subst; simpl; done || by split.
Qed.

Lemma verifySealIntent_ok c op : triple i (λ m s, mgr c m s) (verifySealIntent op) (λ _ m s, mgr c m s) (λ m s, mgr c m s).
Proof.
  apply (t_bind _ _ _ _ (λ _ m s, mgr c m s)); [apply t_need, (t_post _ _ _ (λ _ m s, mgr c m s)); [by intros [] m s _ ?|apply t_read_any; [done|intros; lasts]]|].
  intros x. destruct (_ || _); [by apply t_fail|by apply t_pure].
Qed.

Lemma seal_attempts_ok c n op : triple i (λ m s, mgr c m s) (seal_attempts n op) (λ _ m s, mgr c m s) (λ m s, mgr c m s).
Proof.
  induction n as [|n IH]; cbn [Archive.seal_attempts]; [by apply t_fail|].
  apply (t_bind _ _ _ _ (λ _ m s, mgr c m s)); [eapply t_post; [|apply archive_Load_ok]; by intros [] m s _ [? _]|]. intros [].
  apply (t_bind _ _ _ _ (λ m0 m s, m = m0 ∧ mgr c m0 s)); [by apply t_self|]. intros m0.
  destruct (hSealed (mHead m0)) eqn:Es; [eapply t_pre; [|apply verifySealIntent_ok]; by intros m s _ [-> ?]|]. unfold unauthoritative.
  destruct (mHeadCAS m0) as [v|] eqn:Ecas; [|rewrite bool_decide_true by done; apply t_fail; by intros m s _ [-> ?]]. rewrite bool_decide_false by done. cbn [orb].
  destruct (_ =? _); [apply t_fail; by intros m s _ [-> ?]|]. rewrite <-Ecas.
  eapply t_bind; [apply t_attempt, (publishHead_ok i c m0 _ (mExtents m0) false (mgr c m0) (mgr c m0)); [lasts|lasts|done| |done]|].
  { intros s data _ Hm _. by eapply sealed_next. }
  intros [[]|err].
  - eapply t_conseq; [| | |apply (refreshPublishedHead_ok i c)]; cbn beta; [|by intros [] m s _ ([? _] & _)|done]. intros m s _ (-> & Hm & ?). split_and!; [done| |done|by intros k e ?%elem_of_nil].
    pose proof (mg_head _ _ _ Hm) as Hh. rewrite Ecas in Hh. tauto.
  - apply (t_pre _ _ (λ m s, mgr c m s)); [by intros m s _ [-> ?]|]. destruct err as [[]| | | | |]; (apply IH || by apply t_fail).
Qed.

Lemma Seal_ok c op : triple i (λ m s, mgr c m s) (Seal op) (λ _ m s, mgr c m s) (λ m s, mgr c m s).
Proof.
  unfold Archive.Seal. destruct (bool_decide _); [by apply t_fail|].
  apply (t_bind _ _ _ _ (λ _ m s, mgr c m s)); [eapply t_post; [|apply archive_Load_ok]; by intros [] m s _ [? _]|]. intros [].
  apply (t_bind _ _ _ _ (λ _ m s, mgr c m s)); [by apply t_self|]. intros m0. destruct (hSealed _); [apply verifySealIntent_ok|]. destruct (unauthoritative m0); [by apply t_fail|].
  apply (t_bind _ _ _ _ (λ _ m s, mgr c m s)).
  - unfold acquireSealIntent. apply (t_bind _ _ _ _ (λ _ m s, mgr c m s)); [apply t_ask_any; [done|intros; lasts|intros o s ? _; by apply intent_inv]|].
    intros [[]|[]]; (by apply t_pure) || (by apply t_fail) || apply verifySealIntent_ok.
  - intros []. apply publicationLock_ok; [intros; lasts|intros; lasts|intros; lasts|done|apply seal_attempts_ok|by apply t_fail].
Qed.
End trim.
