(* ===== verification/ArchiveCollect.v ===== *)
(** * Collection

    The groups a collection packs the extents of a head into are consecutive
    extents of the same decisions; uploaded one after the other they are a
    chain, also when an earlier attempt has uploaded the first of them.  A
    collection deletes nothing the head uses, also while others publish
    heads. *)

From stdpp Require Import gmap list.
From S2P Require Import Prelude Bytes Protocol Schedule Node Programs ArchiveCodec ArchiveCodecProofs Archive ArchiveChains ArchiveLogic ArchiveReads ArchiveWrites ArchiveSync.

Abbreviation pack_decision := (Archive.pack_decision sha256 cluster).
Abbreviation pack_refs := (Archive.pack_refs sha256 validateValue).
Abbreviation compactExtentsFrom := (Archive.compactExtentsFrom sha256 validateValue).
Abbreviation compactExtents := (Archive.compactExtents sha256 validateValue).
Abbreviation upload_packed := (Archive.upload_packed sha256 validateValue).

Section groups.
Context `{archiveSetting}.

(** ** Groups *)

Record group (e : Extent) : Prop := {
  gp_config : xConfigID e = cluster;
  gp_genesis : genesisSlot < xStart e;
  gp_prefix : StartPrefix e = prefix_at (xStart e - 1);
  gp_decisions : decided_from (xStart e) (Decisions e);
  gp_end : xEnd e = xStart e + len (Decisions e) - 1;
  gp_endPrefix : EndPrefix e = prefix_at (xEnd e);
}.

(** Consecutive groups from [next] through [last_]. *)
Fixpoint groups (next : Z) (l : list Extent) (last_ : Z) : Prop :=
  match l with
  | [] => last_ = next - 1
  | e :: l' => group e ∧ xStart e = next ∧ groups (xEnd e + 1) l' last_
  end.

Lemma groups_app next l l' last_ : groups next (l ++ l') last_ ↔ ∃ mid, groups next l mid ∧ groups (mid + 1) l' last_.
Proof.
  revert next. induction l as [|e l IH]; intros next; cbn [app groups].
  - split; [intros ?; exists (next - 1); split; [done|by replace (next - 1 + 1) with next by lia]|]. intros (mid & -> & Hl). by replace (next - 1 + 1) with next in Hl by lia.
  - rewrite IH. naive_solver.
Qed.

Lemma groups_one next e last_ : groups next [e] last_ ↔ group e ∧ xStart e = next ∧ last_ = xEnd e.
Proof. change (groups next [e] last_) with (group e ∧ xStart e = next ∧ last_ = xEnd e + 1 - 1). by replace (xEnd e + 1 - 1) with (xEnd e) by lia. Qed.

Lemma groups_genesis next l last_ : groups next l last_ → genesisSlot < next → genesisSlot <= last_.
Proof.
  revert next. induction l as [|e l IH]; intros next; cbn [groups]; [lia|]. intros (Ge & Es & Hl) Hn. pose proof (gp_end _ Ge). pose proof (len_nonneg (Decisions e)).
  apply (IH _ Hl). lia.
Qed.

(** A packing of the decisions from [next] through [last_]. *)
Record packing_ok (next : Z) (p : packing) (last_ : Z) : Prop := {
  po_groups : groups next (flush p) last_;
  po_prefix : pkPrefix p = prefix_at last_;
  po_genesis : genesisSlot <= last_;
}.

Lemma pack_room_flush p d : flush (pack_room p d) = flush p ∧ pkPrefix (pack_room p d) = pkPrefix p ∧ pkDone p `prefix_of` pkDone (pack_room p d).
Proof.
  unfold pack_room, flush. destruct p as [l [[e n]|] prefix]; cbn [pkDone pkCurrent pkPrefix]; [|done]. destruct (_ || _); cbn [pkDone pkCurrent pkPrefix option_list fmap option_fmap option_map fst].
  - rewrite app_nil_r. split_and!; [done|done|by eexists].
  - done.
Qed.

Lemma group_snoc e d prefix :
  group e → aSlot d = xEnd e + 1 → aHash d = sha256 (aValue d) → aValue d = valueAt (xEnd e + 1) → prefix = prefix_at (xEnd e + 1) → genesisSlot <= xEnd e →
  group (mkExtent (xConfigID e) (xStart e) (aSlot d) (StartPrefix e) prefix (PreviousHash e) (PreviousObject e) (Decisions e ++ [d])).
Proof.
  intros [G1 G2 G3 G4 G5 G6] Hs Hh Hv Hp Hg. split; cbn [xConfigID xStart xEnd StartPrefix EndPrefix Decisions]; [done|done|done| | |by rewrite Hs].
  - rewrite decided_app. split; [done|]. cbn [decided_from]. replace (xStart e + len (Decisions e)) with (xEnd e + 1) by lia. done.
  - rewrite len_app, Hs, G5. change (len [d]) with 1. lia.
Qed.

Lemma pack_decision_ok next p last_ d :
  packing_ok next p last_ → aSlot d = last_ + 1 → aHash d = sha256 (aValue d) → aValue d = valueAt (last_ + 1) →
  packing_ok next (pack_decision p d) (last_ + 1) ∧ pkDone p `prefix_of` pkDone (pack_decision p d).
Proof.
  intros [Hg Hp Hgen] Hs Hh Hv. unfold Archive.pack_decision. destruct (pack_room_flush p d) as (Ef & Ep & Hpre). rewrite <-Ef in Hg. rewrite <-Ep in Hp.
  assert (AdvancePrefixHash (pkPrefix (pack_room p d)) (aSlot d) (aHash d) = prefix_at (last_ + 1)) as Eadv by (by rewrite Hp, Hs, Hh, Hv, prefix_next).
  cbv zeta. rewrite Eadv. unfold flush in Hg. apply groups_app in Hg as (mid & Hdone & Hcur). destruct (pkCurrent (pack_room p d)) as [[e n]|] eqn:Ec; cbn [option_list fmap option_fmap option_map fst] in Hcur; cbn [default id].
  - apply groups_one in Hcur as (Ge & Es & Ee). symmetry in Ee. split; [|done]. split; [|done|lia]. unfold flush. cbn [pkDone pkCurrent option_list fmap option_fmap option_map fst].
    apply groups_app. exists mid. split; [done|]. apply groups_one. cbn [xStart xEnd]. split_and!; [|done|lia]. apply group_snoc; rewrite ?Ee; done.
  - change (last_ = mid + 1 - 1) in Hcur. assert (mid = last_) as -> by lia. split; [|done]. split; [|done|lia]. unfold flush. cbn [pkDone pkCurrent option_list fmap option_fmap option_map fst].
    apply groups_app. exists last_. split; [done|]. apply groups_one. cbn [xStart xEnd xConfigID StartPrefix PreviousHash PreviousObject Decisions app]. split_and!; [|done|lia].
    split; cbn [xConfigID xStart xEnd StartPrefix EndPrefix Decisions decided_from]; [done|lia|rewrite Hp; f_equal; lia| |change (len [d]) with 1; lia|by rewrite Hs].
    rewrite Hs. done.
Qed.

Lemma pack_decisions_ok next p last_ l :
  packing_ok next p last_ → decided_from (last_ + 1) l →
  packing_ok next (foldl pack_decision p l) (last_ + len l) ∧ pkDone p `prefix_of` pkDone (foldl pack_decision p l).
Proof.
  revert p last_. induction l as [|d l IH]; intros p last_ Hp; cbn [decided_from foldl].
  - intros _. unfold len. simpl. by rewrite Z.add_0_r.
  - intros [(E1 & E2 & E3) Hl]. destruct (pack_decision_ok next p last_ d Hp E1 E2 E3) as [Hp1 Hpre1]. destruct (IH _ _ Hp1 Hl) as [Hp2 Hpre2].
    split; [|by etrans]. replace (last_ + len (d :: l)) with (last_ + 1 + len l) by (unfold len; rewrite length_cons; lia). done.
Qed.

Lemma resume_ok next prefix packed last_ :
  groups next packed last_ → genesisSlot <= last_ → (packed = [] → prefix = prefix_at last_) →
  packing_ok next (resume_packing prefix packed) last_ ∧ removelast packed `prefix_of` pkDone (resume_packing prefix packed).
Proof.
  intros Hg Hgen Hnil. unfold resume_packing. destruct packed as [|e l _] using rev_ind; [cbn; split; [|done]; split; cbn; auto|]. rewrite last_snoc, removelast_last. split; [|done].
  split; [done| |done]. cbn [pkPrefix]. apply groups_app in Hg as (mid & _ & (Ge & _ & ->)%groups_one). apply (gp_endPrefix _ Ge).
Qed.
End groups.

Section packs.
Context `{archiveSetting} (i : nat).

(** ** Compaction *)

Lemma quiet_compactExtentsFrom refs prefix packed : quiet_action (compactExtentsFrom refs prefix packed).
Proof.
  unfold Archive.compactExtentsFrom. apply q_bind; [|intros; apply q_pure]. generalize (resume_packing prefix packed). induction refs as [|r refs IH]; intros p; cbn [Archive.pack_refs]; quietly.
Qed.

Lemma quiet_compactExtents refs prefix : quiet_action (compactExtents refs prefix).
Proof. unfold Archive.compactExtents. destruct (_ <? _)%nat; [apply q_pure|]. apply q_bind; [apply quiet_compactExtentsFrom|intros; apply q_pure]. Qed.

Lemma pack_refs_ok m0 next refs p last_ fin :
  packing_ok next p last_ → spans (last_ + 1) refs = Some fin →
  triple i (λ m s, like m0 m ∧ mgr cluster m s ∧ ∀ r, r ∈ refs → referenced (written s) r) (pack_refs p refs)
    (λ p' m s, like m0 m ∧ mgr cluster m s ∧ packing_ok next p' fin ∧ pkDone p `prefix_of` pkDone p') (λ m s, like m0 m ∧ mgr cluster m s).
Proof.
  revert p last_. induction refs as [|r refs IH]; intros p last_ Hp; cbn [Archive.pack_refs spans].
  - intros [= <-]. apply t_pure. intros m s _ (? & ? & _). split_and!; [done|done| |done]. by replace (last_ + 1 - 1) with last_ by lia.
  - destruct (Z.eqb_spec (rStart r) (last_ + 1)) as [Er|]; [|done]. intros Hs.
    eapply t_bind; [eapply t_conseq; [| | |eapply (t_frame i _ _ _ _ (λ s, ∀ r', r' ∈ refs → referenced (written s) r')); [apply quiet_extentForRef|lasts|apply (extentForRef_ok i cluster m0 r)]]|];
      cbn beta; [| |intros m s _ [? _]; done|].
    { intros m s _ (? & ? & Hr). split; [split_and!; [done|done|apply Hr; left]|]. intros r' ?. apply Hr. by right. }
    { intros e m s _ HQ. exact HQ. }
    intros e. cbv beta. apply (t_bind _ _ _ _ (λ m1 m s, m1 = m ∧ like m0 m ∧ mgr cluster m s ∧ part r e ∧ ∀ r', r' ∈ refs → referenced (written s) r')); [apply t_self; intros m s _ ((? & ? & ?) & ?); done|].
    intros m1. apply (t_given _ _ (mConfigID m1 = cluster ∧ part r e)); [intros m s _ (-> & _ & Hm & ? & _); split; [apply (mg_config _ _ _ Hm)|done]|]. intros [-> [P1 P2 P3 P4]].
    rewrite Er in P3. destruct (pack_decisions_ok next p last_ (Decisions e) Hp P3) as [Hp' Hpre]. assert (last_ + len (Decisions e) = rEnd r) as El by lia. rewrite El in Hp'.
    eapply t_conseq; [| | |apply (IH _ _ Hp' Hs)]; cbn beta; [intros m s _ (_ & ? & ? & _ & ?); done| |done]. intros p' m s _ (? & ? & ? & ?). split_and!; [done|done|done|by etrans].
Qed.

Lemma prefix_of_app_l {A} (l k k' : list A) : l `prefix_of` k → l `prefix_of` k ++ k'.
Proof. intros [x ->]. exists (x ++ k'). by rewrite app_assoc. Qed.

Lemma compactExtentsFrom_ok m0 next refs prefix packed last_ fin :
  groups next packed last_ → genesisSlot <= last_ → (packed = [] → prefix = prefix_at last_) → spans (last_ + 1) refs = Some fin →
  triple i (λ m s, like m0 m ∧ mgr cluster m s ∧ ∀ r, r ∈ refs → referenced (written s) r) (compactExtentsFrom refs prefix packed)
    (λ l m s, like m0 m ∧ mgr cluster m s ∧ groups next l fin ∧ removelast packed `prefix_of` l) (λ m s, like m0 m ∧ mgr cluster m s).
Proof.
  intros Hg Hgen Hnil Hs. destruct (resume_ok next prefix packed last_ Hg Hgen Hnil) as [Hp Hpre]. unfold Archive.compactExtentsFrom.
  eapply t_bind; [apply (pack_refs_ok m0 next refs _ last_ fin Hp Hs)|]. intros p. apply t_pure. intros m s _ (? & ? & [Hp' _ _] & Hpre'). split_and!; [done|done|done|].
  unfold flush. apply prefix_of_app_l. by etrans.
Qed.

Lemma compactExtents_ok m0 refs base fin :
  genesisSlot <= base → spans (base + 1) refs = Some fin →
  triple i (λ m s, like m0 m ∧ mgr cluster m s ∧ ∀ r, r ∈ refs → referenced (written s) r) (compactExtents refs (prefix_at base))
    (λ x m s, like m0 m ∧ mgr cluster m s ∧ ∀ l, x = Some l → groups (base + 1) l fin) (λ m s, like m0 m ∧ mgr cluster m s).
Proof.
  intros Hgen Hs. unfold Archive.compactExtents. destruct (_ <? _)%nat; [apply t_pure; intros m s _ (? & ? & _); done|].
  eapply t_bind; [apply (compactExtentsFrom_ok m0 (base + 1) refs (prefix_at base) [] base fin); [cbn; lia|done|done|done]|]. intros l. apply t_pure.
  intros m s _ (? & ? & Hg & _). split_and!; [done|done|]. by intros l' [= <-].
Qed.

(** ** Uploads *)

Definition behind (previous : objectKey) (e : Extent) : Extent :=
  mkExtent (xConfigID e) (xStart e) (xEnd e) (StartPrefix e) (EndPrefix e) previous.1 previous.2 (Decisions e).

(** Names under which the first groups have been uploaded. *)
Fixpoint saved_ok (W : list bytes) (previous : objectKey) (l : list Extent) (saved : list objectKey) {struct saved} : Prop :=
  match saved, l with
  | [], _ => True
  | k :: saved', e :: l' =>
      (∃ data, encodeExtent (behind previous e) = Some data ∧ sha256 data = k.1 ∧ data ∈ W ∧ previous.2 <= k.2 ∧ 1 <= k.2) ∧ saved_ok W k l' saved'
  | _ :: _, [] => False
  end.

Lemma saved_mono W W' previous l saved : W ⊆ W' → saved_ok W previous l saved → saved_ok W' previous l saved.
Proof.
  intros Hs. revert previous l. induction saved as [|k saved IH]; intros previous l; [done|]. destruct l as [|e l]; [done|]. cbn [saved_ok].
  intros [(data & ? & ? & ? & ? & ?) ?]. split; [|by apply IH]. exists data. split_and!; try done. by apply Hs.
Qed.

(** The same names serve another packing that begins with the same groups. *)
Lemma saved_take W previous l l' saved n : saved_ok W previous l saved → take n l = take n l' → (n <= length l)%nat → saved_ok W previous l' (take n saved).
Proof.
  revert previous l l' n. induction saved as [|k saved IH]; intros previous l l' n; [by destruct n|]. destruct l as [|e l]; [done|]. cbn [saved_ok]. intros [Hd Hs].
  destruct n as [|n]; [done|]. destruct l' as [|e' l']; [done|]. cbn [take saved_ok length]. intros E Hn. apply (inj2 cons) in E as [<- E]. split; [done|]. apply (IH k l); [done|done|lia].
Qed.

(** A chain of groups from [base] through [end_] and its last name. *)
Record chained (base : Z) (previous : objectKey) (end_ : Z) (acc : list ref) (s : archiveStore) : Prop := {
  ch_links : links (written s) base previous end_ acc;
  ch_spans : spans (base + 1) acc = Some end_;
  ch_held : ∀ r, r ∈ acc → held i (ref_key r) s;
}.

Lemma lasting_chained base previous end_ acc : lasting i (chained base previous end_ acc).
Proof.
  intros s s' Hi Hi' Hr [H1 H2 H3]. split; [by apply (lasting_links i _ _ _ _ s)|done|]. intros r Hin. by apply (lasting_held i (ref_key r) s s'), H3.
Qed.

Lemma lasting_saved previous l saved : lasting i (λ s, saved_ok (written s) previous l saved).
Proof. apply (lasting_written i (λ W, saved_ok W previous l saved)). intros W W'. apply saved_mono. Qed.
#[local] Hint Resolve lasting_chained lasting_saved : lasting.

Lemma behind_good e previous g data :
  group e → tail_ok g previous → g < 2 ^ 64 → encodeExtent (behind previous e) = Some data → decodeExtent data = Some (behind previous e) ∧ good (behind previous e).
Proof.
  intros [G1 G2 G3 G4 G5 G6] [T1 T2 T3] Hg Ee. destruct (encode_good (behind previous e) data) as (? & ? & _); cbn [behind xConfigID xStart StartPrefix Decisions PreviousHash PreviousObject]; (done || lia).
Qed.

Lemma chained_snoc base previous end_ acc s e k :
  inv s → base <= end_ → chained base previous end_ acc s → group e → xStart e = end_ + 1 → named (written s) k (behind previous e) → held i k s →
  chained base k (xEnd e) (acc ++ [extentRef (behind previous e) k]) s.
Proof.
  intros Hi Hb [H1 H2 H3] Ge Es Hn Hh. assert (good (behind previous e)) as Hg by apply (content_good s k.1 _ Hi), (na_content _ _ _ Hn). pose proof (good_order _ Hg) as Ho. cbn in Ho. split.
  - apply (links_cons (written s) base k (behind previous e)); [cbn; lia|done|by apply extentRef_describes|]. cbn. rewrite Es. replace (end_ + 1 - 1) with end_ by lia. by destruct previous.
  - rewrite spans_app, H2. cbn [spans extentRef rStart rEnd behind xStart xEnd]. rewrite Es, Z.eqb_refl. f_equal. lia.
  - intros r [Hr| ->%list_elem_of_singleton]%elem_of_app; [by apply H3|]. cbn. by destruct k.
Qed.

(** The result of [upload_packed]. *)
Record uploaded_ok (base : Z) (previous : objectKey) (acc : list ref) (g : Z) (l : list Extent) (fin : Z) (up : list (objectKey * Extent)) (s : archiveStore) : Prop := {
  up_chained : chained base (default previous (fst <$> last up)) fin (acc ++ map (λ x, extentRef x.2 x.1) up) s;
  up_tail : tail_ok g (default previous (fst <$> last up));
  up_saved : saved_ok (written s) previous l (up.*1);
  up_content : ∀ k e, (k, e) ∈ up → content (written s) k.1 e;
  up_length : length up = length l;
}.

Lemma lasting_uploaded_ok base previous acc g l fin up : lasting i (uploaded_ok base previous acc g l fin up).
Proof.
  intros s s' Hi Hi' Hr [H1 H2 H3 H4 H5]. split; [by apply (lasting_chained _ _ _ _ s)|done|by apply (lasting_saved _ _ _ s)| |done].
  intros k e Hin. by apply (lasting_content i k.1 e s s'), H4.
Qed.
#[local] Hint Resolve lasting_uploaded_ok : lasting.

Lemma last_cons_default {A B} (f : A → B) (x : A) (l : list A) d : default d (f <$> last (x :: l)) = default (f x) (f <$> last l).
Proof. destruct l as [|y l]; [done|]. change (last (x :: y :: l)) with (last (y :: l)). by destruct (last (y :: l)) eqn:E; [|apply last_None in E]. Qed.

(** One more group in front. *)
Lemma uploaded_cons base previous acc g e l fin up k s data :
  encodeExtent (behind previous e) = Some data → sha256 data = k.1 → named (written s) k (behind previous e) → data ∈ written s →
  uploaded_ok base k (acc ++ [extentRef (behind previous e) k]) g l fin up s → uploaded_ok base previous acc g (e :: l) fin ((k, behind previous e) :: up) s.
Proof.
  intros Ee Ek Hn Hw [H1 H2 H3 H4 H5]. split.
  - rewrite last_cons_default. cbn [map fst snd]. rewrite <-app_assoc in H1. exact H1.
  - by rewrite last_cons_default.
  - cbn [fmap list_fmap saved_ok fst]. split; [|done]. exists data. split_and!; [done|done|done|apply (na_previous _ _ _ Hn)|apply (na_object _ _ _ Hn)].
  - intros k' e' [E|Hin]%elem_of_cons; [|by apply H4]. apply (inj2 pair) in E as [-> ->]. apply (na_content _ _ _ Hn).
  - cbn [length]. by rewrite H5.
Qed.

Lemma quiet_upload_packed l saved g next previous : quiet_action (upload_packed l saved g next previous).
Proof.
  revert saved previous. induction l as [|e l IH]; intros saved previous; cbn [Archive.upload_packed]; [apply q_pure|]. cbv zeta. destruct (encodeExtent _); [|apply q_fail].
  match goal with |- quiet_action (match ?x with _ => _ end) => destruct x end; quietly.
Qed.

(** What [upload_packed] begins with. *)
Definition uploading (c : Z) (m0 : manager) (base : Z) (previous : objectKey) (end_ : Z) (acc : list ref) (l : list Extent) (saved : list objectKey) (s : archiveStore) : Prop :=
  mgr c m0 s ∧ chained base previous end_ acc s ∧ saved_ok (written s) previous l saved ∧ ∀ k, k ∈ saved → held i k s.

Lemma upload_rest_ok c m0 base previous end_ acc l saved g fin e data k :
  groups (xEnd e + 1) l fin → group e → xStart e = end_ + 1 → base <= end_ → encodeExtent (behind previous e) = Some data → sha256 data = k.1 → 1 <= k.2 <= g →
  (tail_ok g k → triple i (λ m s, m = m0 ∧ uploading c m0 base k (xEnd e) (acc ++ [extentRef (behind previous e) k]) l saved s) (upload_packed l saved (g - 1) g k)
    (λ up m s, m = m0 ∧ mgr c m0 s ∧ uploaded_ok base k (acc ++ [extentRef (behind previous e) k]) g l fin up s) (λ m s, m = m0 ∧ mgr c m0 s)) →
  triple i (λ m s, m = m0 ∧ uploading c m0 base previous end_ acc [] [] s ∧ named (written s) k (behind previous e) ∧ data ∈ written s ∧ held i k s ∧
      saved_ok (written s) k l saved ∧ ∀ k', k' ∈ saved → held i k' s)
    (abind (upload_packed l saved (g - 1) g k) (λ rest, pure ((k, behind previous e) :: rest)))
    (λ up m s, m = m0 ∧ mgr c m0 s ∧ uploaded_ok base previous acc g (e :: l) fin up s) (λ m s, m = m0 ∧ mgr c m0 s).
Proof.
  intros Hgs Ge Es Hb Ee Ek Hk IH. apply (t_given _ _ (tail_ok g k)).
  { intros m s Hi (_ & _ & Hn & _). destruct (content_good s _ _ Hi (na_content _ _ _ Hn)) as [_ Hz]. split; [split; [done|lia]|rewrite <-Ek; apply sha256_length|lia]. }
  intros Hto. eapply t_bind.
  - eapply t_conseq; [| | |eapply (t_frame i _ _ _ _ (λ s, named (written s) k (behind previous e) ∧ data ∈ written s)); [apply quiet_upload_packed|lasts|apply (IH Hto)]]; cbn beta.
    + intros m s Hi (-> & (Hm & Hc & _) & Hn & Hw & Hh & Hs & Hsh). split; [split; [done|]|done]. split; [done|]. split; [by eapply chained_snoc|done].
    + intros up m s _ HQ. exact HQ.
    + intros m s _ [? _]. done.
  - intros up. apply t_pure. cbn beta. intros m s _ ((-> & Hm & Hu) & Hn & Hw). split_and!; [done|done|]. by eapply uploaded_cons.
Qed.

Lemma upload_packed_ok c m0 base l saved g previous end_ acc fin :
  groups (end_ + 1) l fin → base <= end_ → 1 <= g < 2 ^ 64 → tail_ok g previous →
  triple i (λ m s, m = m0 ∧ uploading c m0 base previous end_ acc l saved s) (upload_packed l saved (g - 1) g previous)
    (λ up m s, m = m0 ∧ mgr c m0 s ∧ uploaded_ok base previous acc g l fin up s) (λ m s, m = m0 ∧ mgr c m0 s).
Proof.
  intros Hgs Hb Hg. revert saved previous end_ acc Hgs Hb. induction l as [|e l IH]; intros saved previous end_ acc Hgs Hb Ht; cbn [Archive.upload_packed].
  - cbn in Hgs. apply t_pure. intros m s _ (-> & Hm & Hc & _). split_and!; [done|done|]. split; [|done|done|by intros k e ?%elem_of_nil|done]. cbn [map last default fmap option_fmap option_map].
    rewrite app_nil_r. by replace fin with end_ by lia.
  - cbn [groups] in Hgs. destruct Hgs as (Ge & Es & Hgs). cbv zeta. fold (behind previous e). destruct (encodeExtent (behind previous e)) as [data|] eqn:Ee; [|apply t_fail; intros m s _ (-> & ? & _); done].
    destruct (behind_good e previous g data Ge Ht ltac:(lia) Ee) as [Hdec Hgood].
    assert (base <= xEnd e) as Hb' by (pose proof (good_order _ Hgood) as Ho; cbn in Ho; lia).
    destruct (match saved with [] => None | _ => _ end) as [k|] eqn:Er.
    + destruct saved as [|k' saved]; [done|]. destruct (_ && _) eqn:Er'; [|done]. injection Er as ->. apply andb_true_iff in Er' as [_ Er']. unfold canReuseCleanupUpload in Er'. bool_hyps.
      apply (t_given _ _ (1 <= k.2)). { intros m s _ (_ & _ & _ & [(? & _ & _ & _ & _ & ?) _] & _). done. }
      intros Hk1. eapply t_pre; [|apply (upload_rest_ok c m0 base previous end_ acc l saved g fin e data k); [done|done|done|done|done|congruence|lia|intros Hto; by apply IH]].
      intros m s _ (-> & Hm & Hc & Hs & Hsh). destruct Hs as [(data' & E' & Ek & Hw & Hp & _) Hs]. assert (data' = data) as -> by congruence.
      split; [done|]. split; [split; [done|split; [done|split; [done|by intros k' ?%elem_of_nil]]]|]. split; [split; [by exists data|done|done]|].
      split; [done|]. split; [apply Hsh; left|]. split; [done|]. intros k' ?. apply Hsh. by right.
    + apply (t_bind _ _ _ _ (λ _ m s, m = m0 ∧ uploading c m0 base previous end_ acc [] [] s ∧ named (written s) (sha256 data, g) (behind previous e) ∧ data ∈ written s ∧
        held i (sha256 data, g) s ∧ saved_ok (written s) (sha256 data, g) l [] ∧ ∀ k', k' ∈ [] → held i k' s)).
      { eapply t_conseq; [| | |apply (uploadExtent_ok i m0 data g (behind previous e) (uploading c m0 base previous end_ acc [] [])
          (λ s, uploading c m0 base previous end_ acc [] [] s ∧ named (written s) (sha256 data, g) (behind previous e) ∧ data ∈ written s ∧ held i (sha256 data, g) s ∧ saved_ok (written s) (sha256 data, g) l [] ∧ ∀ k', k' ∈ [] → held i k' s));
          [unfold uploading; lasts|unfold uploading; lasts|done|done|lia|apply (to_object _ _ Ht)|]]; cbn beta.
        - intros m s _ (-> & Hm & Hc & _). split; [done|split; [done|split; [done|split; [done|by intros k' ?%elem_of_nil]]]].
        - intros x m s _ HQ. exact HQ.
        - intros m s _ (-> & ? & _). done.
        - intros s Hi Hu Hn Hw Hk. split; [done|split; [done|split; [done|split; [by intros _|split; [done|by intros k' ?%elem_of_nil]]]]]. }
      intros _. eapply t_pre; [|apply (upload_rest_ok c m0 base previous end_ acc l [] g fin e data (sha256 data, g)); [done|done|done|done|done|done|cbn; lia|intros Hto; by apply IH]]. done.
Qed.
End packs.

Abbreviation cleanupPublication := (Archive.cleanupPublication sha256 validateValue unmarshalSeal).
Abbreviation cleanup := (Archive.cleanup sha256 validateValue unmarshalSeal).
Abbreviation Cleanup := (Archive.Cleanup sha256 validateValue unmarshalSeal).

Section publication.
Context `{archiveSetting} (i : nat).
#[local] Hint Resolve lasting_chained lasting_saved lasting_uploaded_ok : lasting.

(** ** Publishing packed extents *)

(** What an attempt knows of the one before it: its head and references, the
    groups packed from them, and the names of those it has uploaded. *)
Definition prior (h : archiveHead) (refs : list ref) (packed : list Extent) (saved : list objectKey) (s : archiveStore) : Prop :=
  ((∃ last_, groups (hBase h + 1) packed last_ ∧ spans (hBase h + 1) refs = Some last_) ∧ (length saved <= length packed - 1)%nat) ∧
  saved_ok (written s) (zeroHash, 0) packed saved ∧ ∀ k, k ∈ saved → held i k s.

Lemma lasting_prior h refs packed saved : lasting i (prior h refs packed saved).
Proof. unfold prior. lasts. Qed.
#[local] Hint Resolve lasting_prior : lasting.

(** The groups for the head of a manager. *)
Lemma repack_ok c m0 h refs packed saved :
  triple i (λ m s, m = m0 ∧ mgr c m0 s ∧ prior h refs packed saved s)
    (if canReuseCleanupCompaction (mConfigID m0) (mHead m0) h (mExtents m0) refs packed
     then abind (compactExtentsFrom (drop (length refs) (mExtents m0)) (BasePrefix (mHead m0)) packed) (λ l, pure (Some l))
     else compactExtents (mExtents m0) (BasePrefix (mHead m0)))
    (λ x m s, like m0 m ∧ mgr c m s ∧ prior h refs packed saved s ∧ ∀ l, x = Some l →
      (∃ v, mHeadCAS m0 = Some v) ∧ groups (hBase (mHead m0) + 1) l (hTip (mHead m0)) ∧
      (canReuseCleanupCompaction (mConfigID m0) (mHead m0) h (mExtents m0) refs packed = true → removelast packed `prefix_of` l))
    (λ m s, mgr c m s).
Proof.
  destruct (canReuseCleanupCompaction _ _ _ _ _ _) eqn:Er.
  - unfold canReuseCleanupCompaction in Er. bool_hyps. unfold archiveBaseEqual in *. bool_hyps.
    apply (t_given _ _ (c = cluster ∧ (∃ v, mHeadCAS m0 = Some v) ∧ genesisSlot <= hBase (mHead m0) ∧ spans (hBase (mHead m0) + 1) (mExtents m0) = Some (hTip (mHead m0)) ∧
      ∃ last_, groups (hBase h + 1) packed last_ ∧ spans (hBase h + 1) refs = Some last_)).
    { intros m s _ (-> & [_ _ Hm] & [[Hp _] _]). destruct (mHeadCAS m0) as [v|].
      - destruct Hm as (-> & Hok & _). split_and!; [done|by eexists|apply (ho_base _ _ _ Hok)|apply (ho_spans _ _ _ Hok)|done].
      - destruct Hm as [E _]. match goal with E' : take _ (mExtents m0) = _ |- _ => rewrite E in E'; rewrite take_nil in E' end. congruence. }
    intros (Hc & Hcas & Hgen & Hs & last_ & Hg & Hs'). subst c. match goal with E : hBase (mHead m0) = hBase h |- _ => rewrite E in * end.
    match goal with E : take _ (mExtents m0) = refs |- _ => rewrite <-(take_drop (length refs) (mExtents m0)), E, spans_app, Hs' in Hs end.
    apply (t_bind _ _ _ _ (λ l m s, (like m0 m ∧ mgr cluster m s ∧ groups (hBase h + 1) l (hTip (mHead m0)) ∧ removelast packed `prefix_of` l) ∧ prior h refs packed saved s)).
    + eapply t_conseq; [| | |eapply (t_frame i _ _ _ _ (prior h refs packed saved)); [apply quiet_compactExtentsFrom|lasts|
        apply (compactExtentsFrom_ok i m0 (hBase h + 1) _ _ packed last_ (hTip (mHead m0))); [done| |done|done]]]; cbn beta.
      * intros m s _ (-> & Hm & Hp). split; [|done]. split_and!; [apply like_refl|done|]. intros r Hr. eapply mgr_referenced; [done|]. apply list_elem_of_lookup in Hr as [n Hr].
        rewrite lookup_drop in Hr. by eapply list_elem_of_lookup_2.
      * intros l m s _ HQ. exact HQ.
      * intros m s _ [[? ?] _]. done.
      * eapply groups_genesis; [done|lia].
    + intros l. apply t_pure. intros m s _ ((? & ? & ? & ?) & ?). split_and!; [done|done|done|]. intros l' [= <-]. done.
  - destruct (mHeadCAS m0) as [v|] eqn:Ecas.
    + apply (t_given _ _ (c = cluster ∧ genesisSlot <= hBase (mHead m0) ∧ BasePrefix (mHead m0) = prefix_at (hBase (mHead m0)) ∧ spans (hBase (mHead m0) + 1) (mExtents m0) = Some (hTip (mHead m0)))).
      { intros m s _ (_ & [_ _ Hm] & _). rewrite Ecas in Hm. destruct Hm as (-> & [] & _). done. }
      intros (-> & Hgen & -> & Hs).
      eapply t_conseq; [| | |eapply (t_frame i _ _ _ _ (prior h refs packed saved)); [apply quiet_compactExtents|lasts|apply (compactExtents_ok i m0 _ _ _ Hgen Hs)]]; cbn beta.
      * intros m s _ (-> & Hm & Hp). split; [|done]. split_and!; [apply like_refl|done|]. intros r Hr. by eapply mgr_referenced.
      * intros x m s _ ((? & ? & Hl) & ?). split_and!; [done|done|done|]. intros l ->. split_and!; [by eexists|by apply Hl|done].
      * intros m s _ [[? ?] _]. done.
    + apply (t_given _ _ (mExtents m0 = [])). { intros m s _ (_ & [_ _ Hm] & _). rewrite Ecas in Hm. tauto. }
      intros ->. unfold Archive.compactExtents. apply t_pure. intros m s _ (-> & ? & ?). done.
Qed.

(** Names of an earlier attempt serve its continuation. *)
Lemma saved_resume W packed saved l :
  saved_ok W (zeroHash, 0) packed saved → (length saved <= length packed - 1)%nat → removelast packed `prefix_of` l → saved_ok W (zeroHash, 0) l saved.
Proof.
  intros Hs Hl [l' ->]. rewrite <-(take_ge saved (length packed - 1)) by done. apply (saved_take _ _ packed); [done| |lia].
  rewrite removelast_firstn_len. replace (Init.Nat.pred (length packed)) with (length packed - 1)%nat by lia. rewrite take_app_length'; [done|]. rewrite length_take. lia.
Qed.

Lemma uploaded_prior h refs l g up s :
  groups (hBase h + 1) l (hTip h) → spans (hBase h + 1) refs = Some (hTip h) → uploaded_ok i (hBase h) (zeroHash, 0) [] g l (hTip h) up s → prior h refs l (removelast up.*1) s.
Proof.
  intros Hg Hs [[_ _ Hh] _ Hsv _ Hlen]. rewrite removelast_firstn_len, length_fmap, Hlen. replace (Init.Nat.pred (length l)) with (length l - 1)%nat by lia. split_and!.
  - by eexists.
  - rewrite length_take. lia.
  - apply (saved_take _ _ l); [done|done|lia].
  - intros k Hk. apply elem_of_take in Hk as (n & Hk & _). apply list_elem_of_lookup_2 in Hk. apply list_elem_of_fmap in Hk as ([k' e] & -> & Hin). cbn [fst app] in *.
    specialize (Hh (extentRef e k')). cbn in Hh. replace k' with (k'.1, k'.2) by (by destruct k'). apply Hh. apply list_elem_of_fmap. by exists (k', e).
Qed.

Lemma packed_next c m v l up s :
  inv s → mgr c m s → mHeadCAS m = Some v → hSealed (mHead m) = false → hGeneration (mHead m) ≠ maxSlot →
  uploaded_ok i (hBase (mHead m)) (zeroHash, 0) [] (hGeneration (mHead m) + 1) l (hTip (mHead m)) up s →
  next_ok i m (packed_head (mHead m) up) (map (λ x, extentRef x.2 x.1) up) true s.
Proof.
  intros Hi Hm Ecas Hs Hg [[Hl Hsp Hh] Ht _ Hc _]. destruct (mgr_chain c m s Hm) as (_ & _ & _ & Hgen & Hb & Htip). pose proof (mg_head _ _ _ Hm) as Hok. rewrite Ecas in Hok. destruct Hok as (_ & Hok & _).
  unfold maxSlot in *. cbn [app] in *. split.
  - unfold packed_head. rewrite (ho_config _ _ _ Hok). apply retail_ok; [by eapply head_ok_base|unfold maxSlot; lia| |done|lia|done|done].
    destruct (last up) as [[k e]|] eqn:El; cbn [fmap option_fmap option_map default fst] in *.
    + apply last_Some in El as [up' ->]. assert ((k, e) ∈ up' ++ [(k, e)]) as Hin by set_solver. destruct (content_good s _ _ Hi (Hc k e Hin)) as [_ Hz]. split; [done|]. intros _.
      destruct (Z.lt_ge_cases (hBase (mHead m)) (hTip (mHead m))) as [|Hge]; [done|]. apply (links_nil _ _ _ _ _ Hl) in Hge. by destruct up'.
    + apply last_None in El as ->. cbn in Hsp. injection Hsp as Hsp. split; [lia|done].
  - intros _. split; cbn; [lia..|congruence].
  - intros r Hr. right. right. split; [done|]. by apply Hh.
Qed.

(** One attempt after packing. *)
Lemma publish_packed_ok c m1 v l saved (next : list objectKey → action unit) :
  mHeadCAS m1 = Some v → hSealed (mHead m1) = false → hGeneration (mHead m1) ≠ maxSlot → groups (hBase (mHead m1) + 1) l (hTip (mHead m1)) → mConfigID m1 = c →
  (∀ saved', triple i (λ m s, mgr c m s ∧ prior (mHead m1) (mExtents m1) l saved' s) (next saved') (λ _ m s, current i c m s) (λ m s, mgr c m s)) →
  triple i (λ m s, m = m1 ∧ mgr c m1 s ∧ saved_ok (written s) (zeroHash, 0) l saved ∧ ∀ k, k ∈ saved → held i k s)
    (abind (upload_packed l saved (hGeneration (mHead m1)) (hGeneration (mHead m1) + 1) (zeroHash, 0)) (λ up,
      abind self (λ m, abind (attempt (publishHead (packed_head (mHead m1) up) (mHeadCAS m) true)) (λ r,
        match r with
        | Err _ => next (removelast up.*1)
        | Ok _ =>
            abind (refreshPublishedHead (packed_head (mHead m1) up) (map (λ x, extentRef x.2 x.1) up) up) (λ _,
              abind (with_manager (NewManager (mConfigID m)) Load) (λ verifier,
                if (hBase (mHead verifier.1) <? hBase (packed_head (mHead m1) up)) || (hTip (mHead verifier.1) <? hTip (packed_head (mHead m1) up)) then fail AInvalid else pure tt))
        end))))
    (λ _ m s, current i c m s) (λ m s, mgr c m s).
Proof.
  intros Ecas Hs Hg Hgs Ecfg Hnext. set (up_ok := λ up s, uploaded_ok i (hBase (mHead m1)) (zeroHash, 0) [] (hGeneration (mHead m1) + 1) l (hTip (mHead m1)) up s).
  apply (t_given _ _ (c = cluster ∧ 0 <= hGeneration (mHead m1) < maxSlot ∧ spans (hBase (mHead m1) + 1) (mExtents m1) = Some (hTip (mHead m1)))).
  { intros m s _ (-> & Hm & _). destruct (mgr_chain c m1 s Hm) as (_ & ? & _ & ? & _). split_and!; [|lia|lia|done]. pose proof (mg_head _ _ _ Hm) as Hh. rewrite Ecas in Hh. tauto. }
  intros (Hc & Hgen & Hspans). unfold maxSlot in *. apply (t_bind _ _ _ _ (λ up m s, m = m1 ∧ mgr c m1 s ∧ up_ok up s)).
  { replace (hGeneration (mHead m1)) with (hGeneration (mHead m1) + 1 - 1) at 1 by lia.
    eapply t_conseq; [| | |apply (upload_packed_ok i c m1 (hBase (mHead m1)) l saved (hGeneration (mHead m1) + 1) (zeroHash, 0) (hBase (mHead m1)) [] (hTip (mHead m1))); [done|lia|lia|]]; cbn beta.
    - intros m s _ (-> & Hm & Hsv & Hh). split; [done|]. split; [done|]. split; [|done]. split; [by constructor|cbn; f_equal; lia|by intros r ?%elem_of_nil].
    - intros up m s _ HQ. exact HQ.
    - by intros m s _ [-> ?].
    - split; cbn [fst snd]; [done|done|lia]. }
  intros up. apply (t_bind _ _ _ _ (λ m0 m s, m0 = m1 ∧ m = m1 ∧ mgr c m1 s ∧ up_ok up s)); [apply t_self; intros m s _ (-> & ? & ?); done|].
  intros m0. apply (t_given _ _ (m0 = m1)); [tauto|]. intros ->. rewrite Ecfg.
  eapply t_bind; [apply t_attempt, (t_pre _ _ (λ m s, m = m1 ∧ mgr c m1 s ∧ up_ok up s)); [tauto|];
    apply (publishHead_ok i c m1 _ (map (λ x, extentRef x.2 x.1) up) true (λ s, mgr c m1 s ∧ up_ok up s) (λ s, mgr c m1 s ∧ up_ok up s))|].
  - unfold up_ok. lasts.
  - unfold up_ok. lasts.
  - intros s _ []. done.
  - intros s data Hi [Hm Hu] _. by eapply packed_next.
  - intros s data Hi [Hm Hu] Hm'. split; [done|]. unfold up_ok in *. destruct Hu as [[] ? ? ? ?]. split; done.
  - intros [[]|err].
    + apply (t_bind _ _ _ _ (λ _ m s, current i c m s)).
      { eapply t_conseq; [| | |apply (refreshPublishedHead_ok i c)]; cbn beta; [|by intros [] m s _ (? & _)|done]. intros m s _ (-> & [Hm Hu] & Hok). split_and!; [done..|apply (up_content _ _ _ _ _ _ _ _ _ Hu)]. }
      intros []. apply (t_bind _ _ _ _ (λ _ m s, current i c m s)); [|intros verifier; destruct (_ || _); [apply t_fail; by intros m s _ [? _]|by apply t_pure]].
      apply (t_with_manager i _ _ (λ m s, current i c m s) (λ _, True) (λ _ _ _, True) (λ _ _, True) (λ _ m s, current i c m s)); [intros; lasts|left; apply quiet_archive_Load|done| |done|by intros m m'' s _ [? _]].
      eapply t_conseq; [| | |apply (archive_Load_ok i c)]; cbn beta; [|done|done]. intros m s _ [-> _]. split; [done|by intros k e ?%elem_of_nil|]. split; [done|]. by eexists.
    + eapply t_pre; [|apply Hnext]. intros m s _ (-> & Hm & Hu). split; [done|]. by eapply uploaded_prior.
Qed.

Lemma cleanupPublication_ok c n h refs packed saved :
  triple i (λ m s, mgr c m s ∧ prior h refs packed saved s) (cleanupPublication n h refs packed saved) (λ _ m s, current i c m s) (λ m s, mgr c m s).
Proof.
  revert h refs packed saved. induction n as [|n IH]; intros h refs packed saved; cbn [Archive.cleanupPublication]; [apply t_fail; tauto|].
  apply (t_bind _ _ _ _ (λ _ m s, current i c m s ∧ prior h refs packed saved s)).
  { eapply t_conseq; [| | |eapply (t_frame i _ _ _ _ (prior h refs packed saved)); [apply quiet_archive_Load|lasts|apply (archive_Load_ok i c)]]; cbn beta; tauto. }
  intros []. apply (t_bind _ _ _ _ (λ m0 m s, m = m0 ∧ current i c m0 s ∧ prior h refs packed saved s)); [by apply t_self|]. intros m0. cbv zeta.
  destruct (hSealed (mHead m0)) eqn:Es; [apply t_fail; by intros m s _ (-> & [? _] & _)|].
  set (reuse := canReuseCleanupCompaction _ _ _ _ _ _).
  eapply t_bind; [eapply t_conseq; [| | |eapply (t_frame i _ _ _ _ (current i c m0)); [|lasts|apply (repack_ok c m0 h refs packed saved)]]|]; cbn beta.
  - intros m s _ (-> & [Hm ?] & ?). split; [|done]. split_and!; done.
  - intros x m s _ HQ. exact HQ.
  - by intros m s _ [? _].
  - fold reuse. destruct reuse; [apply q_bind; [apply quiet_compactExtentsFrom|intros; apply q_pure]|apply quiet_compactExtents].
  - intros compacted. cbv beta. fold reuse. destruct (packs compacted (mExtents m0)) as [l|] eqn:Ep; [|apply t_pure; intros m s _ ((? & ? & _) & ?); by eapply like_current].
    assert (compacted = Some l) as -> by (unfold packs in Ep; destruct compacted; [|done]; destruct (_ <=? _)%nat; congruence).
    destruct (Z.eqb_spec (hGeneration (mHead m0)) maxSlot) as [|Hg]; [apply t_fail; by intros m s _ ((_ & ? & _) & _)|].
    eapply t_pre; [|apply (t_ex i _ (λ m1 m s, m = m1 ∧ like m0 m1 ∧ mgr c m1 s ∧ prior h refs packed saved s ∧ (∃ v, mHeadCAS m0 = Some v) ∧ groups (hBase (mHead m0) + 1) l (hTip (mHead m0)) ∧ (reuse = true → removelast packed `prefix_of` l)))].
    { intros m s _ ((Hl & Hm & Hp & Hk) & _). destruct (Hk l eq_refl) as (? & ? & ?). by exists m. }
    intros m1. apply (t_given _ _ (like m0 m1 ∧ mConfigID m1 = c ∧ (∃ v, mHeadCAS m0 = Some v) ∧ groups (hBase (mHead m0) + 1) l (hTip (mHead m0)) ∧ (reuse = true → removelast packed `prefix_of` l))).
    { intros m s _ (-> & ? & Hm & ?). split_and!; [done|apply (mg_config _ _ _ Hm)|tauto..]. }
    intros ([L1 L2 L3 L4] & Ecfg & [v Ecas] & Hgs & Hpre). rewrite <-L2, <-L3 in *. rewrite <-L4 in *.
    eapply t_pre; [|eapply (publish_packed_ok c m1 v l (if reuse then saved else []) (λ saved', cleanupPublication n (mHead m1) (mExtents m1) l saved')); [done|done|done|done|done|intros saved'; apply IH]].
    intros m s _ (-> & _ & Hm & Hp & _). split_and!; [done|done|..]; destruct Hp as [[_ Hlen] [Hsv Hh]]; destruct reuse; try done.
    + by eapply saved_resume; [..|apply Hpre].
    + by intros k ?%elem_of_nil.
Qed.
End publication.

Section deletes.
Context `{archiveSetting} (i : nat) (c : Z).
#[local] Hint Resolve lasting_prior : lasting.

(** ** Deletes *)

(** What a sweep keeps: the view of the manager and its fence. *)
Definition sweeping (keep : list objectKey) (g : Z) (m : manager) (s : archiveStore) : Prop := mgr c m s ∧ fenced i keep g s.

Lemma lasting_sweeping keep g m : lasting i (sweeping keep g m).
Proof. unfold sweeping. lasts. Qed.
#[local] Hint Resolve lasting_sweeping : lasting.

(** The fence keeps the objects of the head. *)
Lemma fenced_live keep g k s h refs v r :
  inv s → fenced i keep g s → gcHolder s = Some i → k.2 <= g → k ∉ keep → head_at s h v → head_ok (written s) h refs → r ∈ refs → is_Some (objects s !! ref_key r) → ref_key r ≠ k.
Proof.
  intros Hi Hf Eh Hk Hn Hh Hok Hr [d Hd] E. destruct (Hf Eh) as [->|(h' & v' & Hh' & Hg & Hl)].
  - destruct (iv_objects _ Hi _ _ Hd) as (_ & _ & ?). rewrite E in *. lia.
  - destruct (head_at_fun _ _ _ _ _ Hh Hh') as [-> _]. apply Hn. rewrite <-E. apply (Hl refs Hok r Hr). rewrite <-E in Hk. done.
Qed.

Lemma delete_inv keep g k s : inv s → fenced i keep g s → gcHolder s = Some i → k.2 <= g → k ∉ keep → inv (set_objects s (delete k (objects s))).
Proof.
  intros Hi Hf Eh Hk Hn. pose proof Hi as [H1 H2 H3 H4 H5]. split; cbn [set_objects objects written headObject versions reported]; [|done|done| |done].
  - intros k' d [_ Hd]%lookup_delete_Some. by apply H1.
  - intros d v Ed. destruct (H4 d v Ed) as (? & h & refs & D & Hok & Hp). split; [done|]. exists h, refs. split_and!; [done|done|]. intros r Hr.
    rewrite lookup_delete_ne; [by apply Hp|]. apply not_eq_sym. eapply (fenced_live keep g k s h refs v r); try done; [by exists d|by apply Hp].
Qed.

Lemma delete_guar keep g k s : inv s → fenced i keep g s → gcHolder s = Some i → k.2 <= g → guar i s (set_objects s (delete k (objects s))).
Proof.
  intros Hi Hf Eh Hk. split; cbn [set_objects objects written headObject versions reported gcHolder]; [done|done|done|by left| |by left].
  intros k' Hk'. destruct (decide (k' = k)) as [->|]; [right|left; by rewrite lookup_delete_ne]. split; [done|]. destruct (Hf Eh) as [->|(h & v & Hh & Hg & _)].
  - destruct Hk' as [d Hd]. destruct (iv_objects _ Hi _ _ Hd) as (_ & _ & ?). lia.
  - exists h, v. split; [done|lia].
Qed.

Lemma delete_ok keep g k : k.2 <= g → k ∉ keep → triple i (sweeping keep g) (ask (DeleteObject k)) (λ _, sweeping keep g) (λ m s, mgr c m s).
Proof.
  intros Hk Hn m s o Hi [Hm Hf] Hrun. apply bool_decide_eq_true in Hrun.
  assert ((exec i (DeleteObject k) o s).1 = s ∨ (exec i (DeleteObject k) o s).1 = set_objects s (delete k (objects s))) as [->| ->] by (unfold Archive.exec, faulty; destruct (fault o) as [[[] ?]|]; auto).
  - split_and!; [done|apply grows_guar, store_grows_refl|]. exists (sweeping keep g m). split; [lasts|]. split; [done|]. by intros s' _ ?.
  - split_and!; [by eapply delete_inv|by eapply delete_guar|]. exists (sweeping keep g m). split; [lasts|]. split; [|by intros s' _ ?]. split; [by destruct Hm|done].
Qed.

Lemma marker_ok {X} (r : request X) keep g : match r with PutMarker _ | DeleteMarker _ => True | _ => False end →
  triple i (sweeping keep g) (ask r) (λ _, sweeping keep g) (λ m s, mgr c m s).
Proof. intros Hr. apply t_ask_any; [by destruct r|intros; lasts|]. intros o s Hi _. apply intent_inv; [done|by destruct r]. Qed.

Lemma sweep_object_ok k marked cutoff pinned keep g : triple i (sweeping keep g) (sweep_object k marked cutoff pinned keep g) (λ _, sweeping keep g) (λ m s, mgr c m s).
Proof.
  assert (triple i (sweeping keep g) (match marked with Some _ => need (DeleteMarker k) | None => pure tt end) (λ _, sweeping keep g) (λ m s, mgr c m s)) as Hun.
  { destruct marked; [|by apply t_pure]. apply t_need. eapply t_post; [|by apply (marker_ok (DeleteMarker k))]. intros [] m s _ HP; [done|apply HP]. }
  assert (∀ r : request (result storeError unit), triple i (sweeping keep g) (ask r) (λ _, sweeping keep g) (λ m s, mgr c m s) →
    triple i (sweeping keep g) (abind (ask r) (λ x, match x with Ok _ | Err NotFound => pure tt | Err e => fail (AStore e) end)) (λ _, sweeping keep g) (λ m s, mgr c m s)) as Hgone.
  { intros r Hr. eapply t_bind; [apply Hr|]. intros [[]|[]]; (by apply t_pure) || (apply t_fail; by intros m s _ [? _]). }
  unfold sweep_object. destruct (Z.ltb_spec g k.2); [done|]. destruct (negb _ && _); [done|]. case_bool_decide as Hkeep.
  - destruct marked; [by apply Hgone, (marker_ok (DeleteMarker k))|by apply t_pure].
  - destruct marked as [t|].
    + destruct (cutoff <? t); [by apply t_pure|]. eapply t_bind; [by apply Hgone, delete_ok|]. intros []. by apply Hgone, (marker_ok (DeleteMarker k)).
    + eapply t_bind; [by apply (marker_ok (PutMarker k))|]. intros [[]|[]]; (by apply t_pure) || (apply t_fail; by intros m s _ [? _]).
Qed.

Lemma sweep_ok l marks cutoff pinned keep g : triple i (sweeping keep g) (sweep l marks cutoff pinned keep g) (λ _, sweeping keep g) (λ m s, mgr c m s).
Proof. revert marks. induction l as [|k l IH]; intros marks; cbn [sweep]; [by apply t_pure|]. eapply t_bind; [apply sweep_object_ok|]. intros []. apply IH. Qed.

Lemma unmark_all_ok l keep g : triple i (sweeping keep g) (unmark_all l) (λ _, sweeping keep g) (λ m s, mgr c m s).
Proof.
  induction l as [|[k t] l IH]; cbn [unmark_all]; [by apply t_pure|]. eapply t_bind; [by apply (marker_ok (DeleteMarker k))|].
  intros [[]|[]]; apply IH || (apply t_fail; by intros m s _ [? _]).
Qed.

Lemma sweep_read_ok {X} (r : request (result storeError X)) keep g : reading r = true → triple i (sweeping keep g) (need r) (λ _, sweeping keep g) (λ m s, mgr c m s).
Proof.
  intros Hr. apply t_need. eapply (t_post _ _ _ (λ _, sweeping keep g)); [|apply t_read_any; [done|intros; lasts]]. intros [] m s _ HP; [done|apply HP].
Qed.

Lemma cleanupDeletes_ok grace keep g : triple i (sweeping keep g) (cleanupDeletes grace keep g) (λ _, sweeping keep g) (λ m s, mgr c m s).
Proof.
  apply (t_bind _ _ _ _ (λ _, sweeping keep g)); [apply t_read_any; [done|intros; lasts]|]. intros now.
  eapply t_bind; [by apply sweep_read_ok|]. intros pinned. eapply t_bind; [by apply sweep_read_ok|]. intros marks. eapply t_bind; [by apply sweep_read_ok|]. intros l.
  eapply t_bind; [apply sweep_ok|]. intros rest. apply unmark_all_ok.
Qed.

(** ** Cleanup *)

(** The first packing of a collection. *)
Lemma compact_loaded_ok m0 :
  triple i (λ m s, m = m0 ∧ mgr c m0 s) (compactExtents (mExtents m0) (BasePrefix (mHead m0)))
    (λ x m s, (like m0 m ∧ mgr c m s) ∧ ∀ l, x = Some l → prior i (mHead m0) (mExtents m0) l [] s) (λ m s, mgr c m s).
Proof.
  pose proof (repack_ok i c m0 (mHead m0) [] [] []) as Hp. replace (canReuseCleanupCompaction _ _ _ _ _ _) with false in Hp.
  2: { unfold canReuseCleanupCompaction. by rewrite (bool_decide_true ([] = ([] : list Extent))), !andb_false_r. }
  apply (t_given _ _ (spans (hBase (mHead m0) + 1) (mExtents m0) = Some (hTip (mHead m0)))). { intros m s _ [-> Hm]. by destruct (mgr_chain c m0 s Hm) as (_ & ? & _). }
  intros Hs. eapply t_conseq; [| | |exact Hp]; cbn beta; [| |done].
  - intros m s _ [-> Hm]. split; [done|]. split; [done|]. split; [split; [|done]|split; [done|by intros k ?%elem_of_nil]]. exists (hBase (mHead m0)). cbn. split; [lia|f_equal; lia].
  - intros x m s _ (? & ? & _ & Hl). split; [done|]. intros l ->. destruct (Hl l eq_refl) as (_ & Hg & _). split; [split; [|cbn; lia]|split; [done|by intros k ?%elem_of_nil]]. by eexists.
Qed.

Lemma cleanup_ok grace : triple i (λ m s, mgr c m s) (cleanup grace) (λ _ m s, mgr c m s) (λ m s, mgr c m s).
Proof.
  assert (∀ keep g, triple i (sweeping keep g) (cleanupDeletes grace keep g) (λ _ m s, mgr c m s) (λ m s, mgr c m s)) as Hdel by (intros; eapply t_post; [|apply cleanupDeletes_ok]; by intros [] m s _ [? _]).
  unfold Archive.cleanup. eapply t_bind; [apply archive_Load_ok|]. intros []. apply (t_bind _ _ _ _ (λ m0 m s, m = m0 ∧ current i c m0 s)); [by apply t_self|]. intros m0.
  destruct (hSealed (mHead m0)); [apply t_fail; by intros m s _ [-> [? _]]|].
  apply (t_bind _ _ _ _ (λ x m s, ((like m0 m ∧ mgr c m s) ∧ ∀ l, x = Some l → prior i (mHead m0) (mExtents m0) l [] s) ∧ current i c m0 s)).
  { eapply t_conseq; [| | |eapply (t_frame i _ _ _ _ (current i c m0)); [apply quiet_compactExtents|lasts|apply compact_loaded_ok]]; cbn beta; [|done|tauto]. intros m s _ [-> [? ?]]. done. }
  intros packed. destruct (packs packed (mExtents m0)) as [l|] eqn:Ep.
  - assert (packed = Some l) as -> by (unfold packs in Ep; destruct packed; [|done]; destruct (_ <=? _)%nat; congruence).
    apply (t_bind _ _ _ _ (λ m' m s, m' = m ∧ current i c m s)); [|intros m'; eapply t_pre; [|apply Hdel]; by intros m s _ [-> [? ?]]].
    eapply t_pre; [|apply (publicationLock_ok i _ _ (λ m s, mgr c m s ∧ prior i (mHead m0) (mExtents m0) l [] s)); [intros; lasts|intros; lasts|intros; lasts| | |apply t_fail; tauto]].
    + intros m s _ (([_ ?] & Hl) & _). split; [done|by apply Hl].
    + by intros m' m s _ [_ [? _]].
    + eapply t_bind; [apply cleanupPublication_ok|]. intros []. by apply t_self.
  - eapply t_pre; [|apply Hdel]. intros m s _ (([_ ?] & _) & [_ ?]). done.
Qed.

Lemma Cleanup_ok grace : triple i (λ m s, mgr c m s) (Cleanup grace) (λ _ m s, mgr c m s) (λ m s, mgr c m s).
Proof. unfold Archive.Cleanup. destruct (_ <? _); [by apply t_fail|]. apply withGCLock_ok, cleanup_ok. Qed.
End deletes.

(** ** Sessions *)

Section sessions.
Context `{archiveSetting} (i : nat).

Abbreviation perform := (Archive.perform sha256 validateValue unmarshalSeal marshalSeal).

Lemma new_manager c s : mgr c (NewManager c) s.
Proof. split; [done|by intros k e ?%elem_of_nil|]. split; [done|]. by eexists. Qed.

Lemma discard_ok {A} (p : action A) P E : triple i P p (λ _, P) E → triple i P (discard p) (λ _, P) E.
Proof. intros Hp. eapply t_bind; [apply Hp|]. intros a. by apply t_pure. Qed.

Lemma report_ok t : triple i (λ m s, mgr cluster m s ∧ covered t s) (ask (Synced t)) (λ _ m s, mgr cluster m s) (λ m s, mgr cluster m s).
Proof.
  apply t_ask; [done|intros; lasts|]. intros m s o Hi [Hm Hc] _. split; [|by destruct Hm]. destruct Hi as [H1 H2 H3 H4 H5]. split; [done..|].
  intros t' [->|Ht]%elem_of_cons; [done|by apply H5].
Qed.

Lemma perform_ok op :
  certified sha256 genesisSlot genesisPrefix valueAt op = true → triple i (λ m s, mgr cluster m s) (perform op) (λ _ m s, mgr cluster m s) (λ m s, mgr cluster m s).
Proof.
  intros Hc. destruct op as [|from limit|patience through|seal slot d|tip prefix anchor|operation|grace]; cbn [Archive.perform]; cbn [certified] in Hc; bool_hyps.
  - eapply t_post; [|apply archive_Load_ok]. by intros [] m s _ [? _].
  - apply discard_ok, DecisionsFrom_ok.
  - eapply t_bind; [by apply SyncThrough_ok|]. intros []. apply report_ok.
  - by apply TrimThrough_ok.
  - apply InitializeFencedGeneration_ok; try done. { unfold len in *. lia. } pose proof genesis_range. unfold maxSlot. lia.
  - apply discard_ok. apply (t_with_manager i _ _ (λ m s, mgr cluster m s) (λ _, True) (λ _ m s, mgr 1 m s) (λ m s, mgr 1 m s)); [intros; lasts|right; intros; lasts|done| |done|done].
    eapply t_pre; [|apply Seal_ok]. intros m s _ [-> _]. apply new_manager.
  - apply Cleanup_ok.
Qed.

Lemma session_keeps ops :
  forallb (certified sha256 genesisSlot genesisPrefix valueAt) ops = true →
  triple i (λ m s, mgr cluster m s) (session sha256 validateValue unmarshalSeal marshalSeal ops) (λ _ m s, mgr cluster m s) (λ m s, mgr cluster m s).
Proof.
  induction ops as [|op ops IH]; cbn [forallb session]; [by intros _; apply t_pure|]. intros [Hop Hops]%andb_true_iff.
  apply (t_bind _ _ _ _ (λ _ m s, mgr cluster m s)); [|intros _; by apply IH]. eapply t_post; [|by apply t_attempt, perform_ok]. by intros [].
Qed.
End sessions.

Lemma all_sessions_keep `{archiveSetting} : sessions_keep.
Proof.
  intros i ops Hops. eapply keeps_bind; [eapply keeps_weaken; [|by apply session_keeps]|].
  - intros s _ _. apply new_manager.
  - intros x s _ _. done.
Qed.
