(* ===== verification/ArchiveProofs.v ===== *)
(** * What the archive guarantees

    Heads only advance and a sealed head is final; slots reported as archived
    stay behind the tip of the head; and in every state a run can reach, a
    process that loads the head without disturbance reads from it exactly the
    decided values between base and tip. *)

From stdpp Require Import gmap list.
From S2P Require Import Prelude Bytes Protocol Schedule Node Programs ArchiveCodec ArchiveCodecProofs Archive ArchiveChains ArchiveLogic ArchiveReads ArchiveWrites ArchiveSync ArchiveCollect.

(** Answers without faults; there is no archive of the old format. *)
Definition undisturbed : oracle := mkOracle None false [] 0 [].
Definition answer (sha : bytes → bytes) (genesis : Z) (prefix : bytes) (values : Z → bytes) (X : Type) (r : request X) (s : archiveStore) : archiveStore * X :=
  Archive.exec sha genesis prefix values 0 r undisturbed s.
Abbreviation undisturbed_run p s := (alone (answer sha256 genesisSlot genesisPrefix valueAt) p s).

Section runs.
Context `{archiveSetting} (s : archiveStore) (Hi : inv s).

(** ** Undisturbed reads *)

(** The action returns and leaves the store. *)
Definition returns {A} (p : action A) (m m' : manager) (r : A) : Prop := undisturbed_run (p m) s = (s, (m', Ok r)).

Lemma returns_bind {A B} (p : action A) (f : A → action B) m m1 m2 a b : returns p m m1 a → returns (f a) m1 m2 b → returns (abind p f) m m2 b.
Proof. intros Hp Hf. unfold returns, abind in *. rewrite alone_bind, Hp. exact Hf. Qed.

Lemma returns_pure {A} (a : A) m : returns (pure a) m m a.
Proof. done. Qed.

Lemma returns_self m : returns self m m m.
Proof. done. Qed.

Lemma returns_attempt {A} (p : action A) m m' a : returns p m m' a → returns (attempt p) m m' (Ok a).
Proof. intros Hp. unfold returns, attempt in *. by rewrite alone_bind, Hp. Qed.

Lemma returns_version m data v : headObject s = Some (data, v) → returns (need AttrHead) m m v.
Proof. intros E. unfold returns. cbn. unfold answer, Archive.exec, faulty. cbn. by rewrite E. Qed.

Lemma returns_head m data v : headObject s = Some (data, v) → returns (need GetHead) m m data.
Proof. intros E. unfold returns. cbn. unfold answer, Archive.exec, faulty. cbn. by rewrite E. Qed.

Lemma returns_object m k data : objects s !! k = Some data → returns (need (GetObject k)) m m data.
Proof. intros E. unfold returns. cbn. unfold answer, Archive.exec, faulty. cbn. by rewrite E. Qed.

Lemma returns_readExtent m k e : mConfigID m = cluster → named (written s) k e → is_Some (objects s !! k) → returns (readExtent k) m m e.
Proof.
  intros Hm Hn [data Hd]. destruct (iv_objects _ Hi _ _ Hd) as (Hw & Hk & H1). destruct (iv_written _ Hi _ Hw) as (_ & e' & D & Hg).
  assert (e' = e) as ->. { apply (content_fun (written s) k.1); [apply (iv_free _ Hi)| |apply (na_content _ _ _ Hn)]. by exists data. }
  unfold Archive.readExtent. rewrite (proj2 (Z.eqb_neq _ _)) by lia. eapply returns_bind; [apply returns_self|]. eapply returns_bind; [by apply returns_object|].
  rewrite bool_decide_true, D, Hm, (go_valid _ Hg), (proj2 (Z.leb_le _ _)) by (done || apply (na_previous _ _ _ Hn)). apply returns_pure.
Qed.

Lemma returns_readStableObject m n data v : headObject s = Some (data, v) → returns (readStableObject (S n) None) m m (v, Some data).
Proof.
  intros E. cbn [Archive.readStableObject]. eapply returns_bind; [by eapply returns_version|]. rewrite bool_decide_false by done. eapply returns_bind; [by eapply returns_head|].
  eapply returns_bind; [by eapply returns_version|]. rewrite bool_decide_true by done. apply returns_pure.
Qed.

(** A reference as the walk makes it. *)
Definition whole (r : ref) : Prop := ∃ e, named (written s) (ref_key r) e ∧ r = extentRef e (ref_key r).

Lemma returns_walk m base k end_ refs fuel ver acc :
  mConfigID m = cluster → links (written s) base k end_ refs → (∀ r, r ∈ refs → is_Some (objects s !! ref_key r)) → end_ - base <= Z.of_nat fuel → verified_ok (written s) ver →
  ∃ refs' ver', returns (walk fuel base [] ver k end_ acc) m m (refs' ++ acc, ver') ∧ links (written s) base k end_ refs' ∧ ∀ r, r ∈ refs' → whole r.
Proof.
  intros Hm Hl. revert fuel ver acc. induction Hl as [k end_ He|k e r refs Hb Hn Hd Hl IH]; intros fuel ver acc Hp Hf Hv.
  - exists [], ver. split_and!; [|by constructor|by intros r ?%elem_of_nil]. destruct fuel; cbn [Archive.walk]; rewrite (proj2 (Z.leb_le _ _)) by done; apply returns_pure.
  - destruct (content_good s _ _ Hi (na_content _ _ _ Hn)) as [Hg Hz]. pose proof (good_order _ Hg) as Ho. destruct fuel as [|fuel]; [lia|]. cbn [Archive.walk].
    rewrite (proj2 (Z.leb_gt _ _)), bool_decide_false by done. change (known_index [] k) with (@None nat). cbv zeta.
    assert (verified_ok (written s) (<[k := extentRef e k]> ver)) as Hv'.
    { intros k' r'. destruct (decide (k' = k)) as [->|]; [rewrite lookup_insert_eq; intros [= <-]; eauto|rewrite lookup_insert_ne by done; apply Hv]. }
    destruct (IH fuel (<[k := extentRef e k]> ver) (extentRef e k :: acc)) as (refs' & ver' & Hr & Hl' & Hw); [intros r' ?; apply Hp; set_solver|lia|done|].
    exists (refs' ++ [extentRef e k]), ver'. split_and!; [|constructor; [done|done|by apply extentRef_describes|done]|].
    + eapply (returns_bind _ _ _ m _ (extentRef e k)).
      * destruct (ver !! k) as [r0|] eqn:Ev.
        { destruct (Hv k r0 Ev) as (e0 & Hn0 & ->). rewrite (content_fun _ _ _ _ (iv_free _ Hi) (na_content _ _ _ Hn0) (na_content _ _ _ Hn)). apply returns_pure. }
        eapply returns_bind; [apply returns_readExtent; [done|done|]|apply returns_pure]. rewrite <-(de_key _ _ _ Hd). apply Hp. set_solver.
      * cbn [extentRef rEnd rPreviousHash rPreviousObject rStart]. rewrite Z.eqb_refl. cbn [negb]. rewrite <-app_assoc. exact Hr.
    + intros r' [?| ->%list_elem_of_singleton]%elem_of_app; [by apply Hw|]. exists e. cbn. by destruct k.
Qed.

(** ** Loading the head *)

(** References of the walk follow each other; only the first can begin before
    the base. *)
Lemma whole_spans base k end_ refs : links (written s) base k end_ refs → (∀ r, r ∈ refs → whole r) →
  match refs with [] => end_ <= base | r :: _ => rStart r <= base + 1 ∧ spans (rStart r) refs = Some end_ end.
Proof.
  intros Hl. induction Hl as [k end_ He|k e r refs Hb Hn Hd Hl IH]; intros Hw; [done|].
  assert (rStart r = xStart e) as Er.
  { destruct (Hw r ltac:(set_solver)) as (e' & Hn' & Ew). rewrite (de_key _ _ _ Hd) in Hn', Ew. rewrite Ew. cbn.
    by rewrite (content_fun _ _ _ _ (iv_free _ Hi) (na_content _ _ _ Hn') (na_content _ _ _ Hn)). }
  pose proof (de_end _ _ _ Hd) as Ee. specialize (IH ltac:(set_solver)). destruct refs as [|r0 refs].
  - cbn [app spans]. rewrite Z.eqb_refl, Ee, Er. split; [lia|f_equal; lia].
  - destruct IH as [Hs IH]. cbn [app]. split; [done|]. change (spans (rStart r0) ((r0 :: refs) ++ [r]) = Some (xEnd e)). rewrite spans_app, IH. cbn [spans].
    rewrite (proj2 (Z.eqb_eq _ _)) by lia. f_equal. lia.
Qed.

Lemma validate_drop slot prefix l q n : validate_decisions slot prefix l = Some q → (n <= length l)%nat →
  validate_decisions (slot + Z.of_nat n) (prefix_after prefix (take n l)) (drop n l) = Some q.
Proof.
  revert slot prefix n. induction l as [|d l IH]; intros slot prefix n; cbn [Archive.validate_decisions length].
  - intros E Hn. replace n with 0%nat by lia. exact E.
  - destruct (_ || _) eqn:Eb; [done|]. intros E Hn. destruct n as [|n].
    + cbn [drop take]. rewrite Z.add_0_r. cbn [Archive.validate_decisions]. rewrite Eb. exact E.
    + cbn [drop take]. replace (slot + Z.of_nat (S n)) with (slot + 1 + Z.of_nat n) by lia. apply IH; [done|lia].
Qed.

(** The part of an extent behind a base inside it is valid. *)
Lemma cut_valid e base : good e → xStart e <= base < xEnd e → 0 <= base →
  validateExtent cluster (mkExtent (xConfigID e) (base + 1) (xEnd e) (prefix_at base) (EndPrefix e) (PreviousHash e) (PreviousObject e) (drop (Z.to_nat (base - xStart e + 1)) (Decisions e))) = true.
Proof.
  intros Hg Hb H0. pose proof (good_length _ Hg) as Hl. destruct Hg as [Hv Hgen Hp Hd]. unfold Archive.validateExtent in *. bool_hyps. set (n := Z.to_nat (base - xStart e + 1)).
  assert (n <= length (Decisions e))%nat as Hn by (unfold len in Hl; lia).
  match goal with E : validate_decisions _ _ _ = Some _ |- _ => apply (validate_drop _ _ _ _ n) in E as Ed; [|done] end.
  rewrite Hp, decided_prefix in Ed by (done || by apply decided_take).
  replace (xStart e - 1 + len (take n (Decisions e))) with base in Ed by (unfold len; rewrite length_take; lia). replace (xStart e + Z.of_nat n) with (base + 1) in Ed by lia.
  cbn [xConfigID xStart xEnd StartPrefix EndPrefix PreviousHash PreviousObject Decisions]. rewrite Ed, (bool_decide_true (Some _ = Some _)) by done. unfold len in *. rewrite length_drop.
  rewrite !andb_true_iff, !negb_true_iff, !Z.eqb_eq, !Z.eqb_neq, !Z.leb_le. split_and!; (done || lia).
Qed.

Lemma returns_cut_boundary m h k tip refs :
  mConfigID m = cluster → 0 <= hBase h → BasePrefix h = prefix_at (hBase h) → links (written s) (hBase h) k tip refs → (∀ r, r ∈ refs → whole r) → (∀ r, r ∈ refs → is_Some (objects s !! ref_key r)) →
  hBase h <= tip →
  ∃ refs', returns (cut_boundary h refs) m m refs' ∧ links (written s) (hBase h) k tip refs' ∧ spans (hBase h + 1) refs' = Some tip ∧ map ref_key refs' = map ref_key refs.
Proof.
  intros Hm H0 Hp Hl Hw Ho Htip. pose proof (whole_spans _ _ _ _ Hl Hw) as Hs. unfold Archive.cut_boundary. destruct refs as [|r refs].
  { exists []. split_and!; [apply returns_pure|done|cbn; f_equal; lia|done]. }
  destruct Hs as [Hle Hs]. destruct (Z.leb_spec (rStart r) (hBase h)) as [Hr|Hr].
  - destruct (Hw r ltac:(left)) as (e & Hn & Er). destruct (content_good s _ _ Hi (na_content _ _ _ Hn)) as [Hg _]. assert (rStart r = xStart e ∧ rEnd r = xEnd e) as [Es Ee] by (rewrite Er; done).
    destruct (links_ends _ _ _ _ _ r Hl ltac:(left)) as [? _]. exists (cut_ref (hBase h) (BasePrefix h) r :: refs). split_and!; [|rewrite Hp; by apply links_cut_first| |done].
    + eapply returns_bind; [apply returns_self|]. eapply returns_bind; [apply (returns_readExtent _ _ e); [done|done|apply Ho; left]|]. cbv zeta.
      rewrite Hm, Hp, cut_valid by (done || lia). apply returns_pure.
    + cbn [spans cut_ref rStart rEnd]. rewrite Z.eqb_refl. cbn [spans] in Hs. by rewrite Z.eqb_refl in Hs.
  - exists (r :: refs). split_and!; [apply returns_pure|done| |done]. by replace (hBase h + 1) with (rStart r) by lia.
Qed.

Lemma links_prefixes base k end_ refs r : links (written s) base k end_ refs → r ∈ refs → rStartPrefix r = prefix_at (rStart r - 1) ∧ rEndPrefix r = prefix_at (rEnd r).
Proof.
  intros Hl Hr. destruct (links_referenced _ _ _ _ _ _ Hl Hr) as (e & Hn & Hd). split; [apply (de_startPrefix _ _ _ Hd)|]. rewrite (de_endPrefix _ _ _ Hd), (de_end _ _ _ Hd).
  apply good_end, (content_good s _ _ Hi (na_content _ _ _ Hn)).
Qed.

Lemma returns_Load data v h : headObject s = Some (data, v) → decodeHead data = Some h →
  ∃ m, returns Load (NewManager cluster) m tt ∧ mHead m = h ∧ mgr cluster m s ∧ (∀ r, r ∈ mExtents m → is_Some (objects s !! ref_key r)).
Proof.
  intros Eh Ed. destruct (iv_head _ Hi _ _ Eh) as (_ & h' & refs & Ed' & Hok & Ho). assert (h' = h) as -> by congruence. set (m := NewManager cluster).
  pose proof (ho_wf _ _ _ Hok) as (_ & Hg & Hb0 & _). assert (hBase h <= hTip h) as Hbt. { pose proof (ho_range _ _ _ Hok) as Hr. unfold head_range in Hr. bool_hyps. lia. }
  destruct (returns_walk m (hBase h) _ _ refs (Z.to_nat (hTip h - hBase h)) ∅ [] eq_refl (ho_links _ _ _ Hok) Ho) as (refs1 & ver & Hwalk & Hl1 & Hw1); [lia|by intros k r|]. rewrite app_nil_r in Hwalk.
  pose proof (links_keys _ _ _ _ _ _ (iv_free _ Hi) (ho_links _ _ _ Hok) Hl1) as Hk1.
  assert (∀ l, map ref_key l = map ref_key refs → ∀ r, r ∈ l → is_Some (objects s !! ref_key r)) as Hpres.
  { intros l El r Hr. destruct (key_of refs l r (eq_sym El) Hr) as (r' & Hr' & ->). by apply Ho. }
  destruct (returns_cut_boundary m h _ _ refs1 eq_refl Hb0 (ho_prefix _ _ _ Hok) Hl1 Hw1) as (refs2 & Hcut & Hl2 & Hs2 & Hk2); [by apply Hpres|done|].
  assert (head_ok (written s) h refs2) as Hok2 by (destruct Hok; split; done). exists (mkManager cluster refs2 h (Some v) []). split_and!; [|done| |].
  - unfold Archive.Load. change maxPublishRetries with (S 7). cbn [Archive.load_attempts]. eapply (returns_bind _ _ _ (mkManager cluster refs2 h (Some v) []) _ (ver, true)); [|apply returns_pure].
    unfold Archive.loadHead. eapply returns_bind; [apply returns_self|]. eapply returns_bind; [apply returns_attempt, (returns_readStableObject _ 7); done|]. cbv beta iota. rewrite Ed.
    assert (negb (head_valid (mConfigID m) h) || head_regressed h (mHead m) = false) as ->.
    { cbn [m NewManager mConfigID mHead]. rewrite (ho_valid _ _ _ Hok). unfold head_regressed. cbn [empty_head hSealed hGeneration hBase hTip hConfigID negb orb andb].
      rewrite Z.eqb_refl. cbn [negb andb]. rewrite !orb_false_r, !orb_false_iff, !Z.ltb_ge. cbn. lia. }
    eapply returns_bind; [apply Hwalk|]. cbn [fst snd]. eapply returns_bind; [apply Hcut|].
    rewrite (ho_prefix _ _ _ Hok). replace (prefix_at (hBase h)) with (prefix_at (hBase h + 1 - 1)) by (f_equal; lia).
    rewrite (spans_chain _ _ (hTip h)) by (done || intros r Hr; by eapply links_prefixes). rewrite bool_decide_true by done. cbn [negb].
    eapply returns_bind; [by eapply returns_version|]. rewrite bool_decide_true by done. cbn [negb]. eapply returns_bind; [apply returns_self|]. done.
  - split; [done|by intros k e ?%elem_of_nil|]. split_and!; [done|done|]. apply seen_now; [done|]. by exists data.
  - apply (Hpres refs2). by rewrite Hk2, Hk1.
Qed.

(** ** Reading values *)

Lemma prefixes_lookup prefix l n : (n <= length l)%nat → prefixes_of sha256 prefix l !! n = Some (prefix_after prefix (take n l)).
Proof.
  revert prefix n. induction l as [|d l IH]; intros prefix n; cbn [prefixes_of length]; intros Hn; [by replace n with 0%nat by lia|].
  destruct n as [|n]; [done|]. cbn [lookup list_lookup take]. apply IH. lia.
Qed.

Lemma returns_remember m k e : mgr cluster m s → content (written s) k.1 e → ∃ m', returns (remember k e) m m' tt ∧ like m m' ∧ mgr cluster m' s.
Proof.
  intros [H1 H2 H3] Hc. eexists (mkManager _ _ _ _ _). split_and!; [done|done|]. split; [done| |done]. cbn [mCache].
  intros k' e' [?|E]%rememberExtent_member; [by apply H2|]. by apply (inj2 pair) in E as [-> ->].
Qed.

Lemma returns_extentForRef m r :
  mgr cluster m s → referenced (written s) r → is_Some (objects s !! ref_key r) → ∃ m' e, returns (extentForRef r) m m' e ∧ like m m' ∧ mgr cluster m' s ∧ part r e.
Proof.
  intros Hm Hr Ho. pose proof Hr as (e & Hn & Hd). pose proof (na_content _ _ _ Hn) as Hc. destruct (content_good s _ _ Hi Hc) as [Hg _].
  destruct (returns_remember m (ref_key r) e Hm Hc) as (m' & Hrem & Hlike & Hm').
  assert (∃ e', (∀ m0, returns (if (rStart r <? xStart e) || negb (rEnd r =? xEnd e) || negb (bool_decide (rEndPrefix r = EndPrefix e)) ||
      negb (bool_decide (rPreviousHash r = PreviousHash e)) || negb (rPreviousObject r =? PreviousObject e) then fail AInvalid
    else if xStart e <? rStart r then
      let offset := Z.to_nat (rStart r - xStart e) in
      if (length (Decisions e) <=? offset)%nat || negb (bool_decide (prefixes_of sha256 (StartPrefix e) (Decisions e) !! offset = Some (rStartPrefix r))) then fail AInvalid
      else pure (mkExtent (xConfigID e) (rStart r) (xEnd e) (rStartPrefix r) (EndPrefix e) (PreviousHash e) (PreviousObject e) (drop offset (Decisions e)))
    else if negb (bool_decide (rStartPrefix r = StartPrefix e)) then fail AInvalid else pure e) m0 m0 e') ∧ part r e') as (e' & Hcut & Hpart).
  { pose proof Hd as [D1 D2 D3 D4 D5 D6]. apply (inj2 pair) in D4 as [D4 D4']. pose proof (good_length _ Hg) as Hl. rewrite D2, D3, D4, D4', !Z.eqb_refl, !(bool_decide_true (_ = _)) by done.
    rewrite (proj2 (Z.ltb_ge _ _)) by lia. cbn [negb orb]. destruct (Z.ltb_spec (xStart e) (rStart r)) as [Hlt|Hge]; cbv zeta.
    - pose proof (part_drop r e Hd Hg) as [P1 P2]. set (n := Z.to_nat (rStart r - xStart e)) in *. unfold len in Hl.
      rewrite (proj2 (Nat.leb_gt _ _)), prefixes_lookup, (go_prefix _ Hg), decided_prefix by (lia || apply (go_genesis _ Hg) || apply decided_take, (go_decisions _ Hg)).
      replace (xStart e - 1 + len (take n (Decisions e))) with (rStart r - 1) by (unfold len; rewrite length_take; lia).
      rewrite D6, bool_decide_true by done. eexists. split; [intros m0; apply returns_pure|]. split; [done|by rewrite D2|done|done].
    - assert (rStart r = xStart e) as Es by lia. rewrite D6, Es, <-(go_prefix _ Hg), bool_decide_true by done. exists e. split; [intros m0; apply returns_pure|].
      split; [done|by rewrite D2|rewrite Es; apply (go_decisions _ Hg)|unfold len in *; lia]. }
  exists m', e'. split_and!; [|done..]. unfold Archive.extentForRef. eapply returns_bind; [apply returns_self|]. eapply (returns_bind _ _ _ m' _ e); [|apply Hcut].
  destruct (list_find _ (mCache m)) as [[n [k e0]]|] eqn:Ef.
  - apply list_find_Some in Ef as (Ek & E & _). cbn in E. subst k.
    assert (e0 = e) as -> by (apply (content_fun _ _ _ _ (iv_free _ Hi)) with (2 := Hc); by apply (mg_cache _ _ _ Hm), list_elem_of_lookup; eauto).
    eapply returns_bind; [apply Hrem|apply returns_pure].
  - eapply returns_bind; [apply (returns_readExtent _ _ e); [apply (mg_config _ _ _ Hm)|done|done]|]. eapply returns_bind; [apply Hrem|apply returns_pure].
Qed.

(** One page over the decisions of an extent. *)
Lemma collect_spec from limit values slot l :
  decided_from slot l → decided_from from values → from + len values = Z.max from slot → (length values < limit)%nat →
  ∃ values' full, collect from limit values l = Some (values', full) ∧ decided_from from values' ∧
    if full : bool then length values' = limit ∧ from + len values' <= slot + len l else (length values' < limit)%nat ∧ from + len values' = Z.max from (slot + len l).
Proof.
  revert values slot. induction l as [|d l IH]; intros values slot; cbn [decided_from collect].
  - intros _ Hv Hn Hlen. exists values, false. replace (slot + len (A := archived) []) with slot by (unfold len; simpl; lia). done.
  - intros [(E1 & E2 & E3) Hl] Hv Hn Hlen. 
    replace (slot + len (d :: l)) with (slot + 1 + len l) by (unfold len; rewrite length_cons; lia). pose proof (len_nonneg l). destruct (Z.ltb_spec (aSlot d) from).
    + apply IH; [done|done|lia|done].
    + rewrite (proj2 (Z.eqb_eq (aSlot d) _)) by lia. cbn [negb].
      assert (decided_from from (values ++ [d])) as Hv'. { rewrite decided_app. split; [done|]. cbn [decided_from]. split; [|done]. split_and!; [lia|done|]. rewrite E3. f_equal. lia. }
      assert (len (values ++ [d]) = len values + 1) as El by (rewrite len_app; done). destruct (Nat.eqb_spec (length (values ++ [d])) limit) as [Ef|Ef].
      * exists (values ++ [d]), true. split_and!; [done|done|done|lia].
      * apply IH; [done|done|lia|]. rewrite length_app in *. cbn [length] in *. lia.
Qed.

Lemma returns_collect_refs m from limit values refs next tip :
  mgr cluster m s → (∀ r, r ∈ refs → (referenced (written s) r ∧ is_Some (objects s !! ref_key r)) ∧ rStart r <= rEnd r) → spans next refs = Some tip →
  decided_from from values → from + len values = Z.max from next → (length values < limit)%nat →
  ∃ m' values', returns (collect_refs from limit values refs) m m' values' ∧ decided_from from values' ∧ len values' = Z.min (Z.of_nat limit) (Z.max 0 (tip - from + 1)).
Proof.
  revert m values next. induction refs as [|r refs IH]; intros m values next Hm Hr; cbn [spans Archive.collect_refs].
  - intros [= <-] Hv Hn Hlen. exists m, values. split_and!; [apply returns_pure|done|]. unfold len in *. lia.
  - destruct (Z.eqb_spec (rStart r) next) as [Es|]; [|done]. intros Hs Hv Hn Hlen. destruct (Hr r ltac:(left)) as [[Hrr Hro] Hord].
    assert (∀ r', r' ∈ refs → (referenced (written s) r' ∧ is_Some (objects s !! ref_key r')) ∧ rStart r' <= rEnd r') as Hr' by (intros r' ?; apply Hr; by right).
    destruct (Z.ltb_spec (rEnd r) from); [apply (IH m values (rEnd r + 1)); (done || lia)|].
    destruct (returns_extentForRef m r Hm Hrr Hro) as (m1 & e & Hret & _ & Hm1 & [P1 P2 P3 P4]). rewrite <-Es in Hn.
    destruct (collect_spec from limit values (rStart r) (Decisions e) P3 Hv Hn Hlen) as (values' & full & Hcol & Hv' & Hfull). replace (rStart r + len (Decisions e)) with (rEnd r + 1) in Hfull by lia.
    destruct full.
    + exists m1, values'. split_and!; [eapply returns_bind; [apply Hret|]; rewrite Hcol; apply returns_pure|done|]. destruct Hfull as [Hfl Hle].
      assert (rEnd r <= tip) as Htip by (apply (spans_after (rEnd r + 1) refs tip) in Hs; [lia|intros r' ?; by apply Hr']). unfold len in *. lia.
    + destruct Hfull as [Hlt Hn']. destruct (IH m1 values' (rEnd r + 1) Hm1 Hr' Hs Hv' Hn' Hlt) as (m2 & values2 & Hret2 & ? & ?).
      exists m2, values2. split_and!; [|done|done]. eapply returns_bind; [apply Hret|]. rewrite Hcol. exact Hret2.
Qed.

Lemma returns_DecisionsFrom m from limit :
  mgr cluster m s → (∀ r, r ∈ mExtents m → is_Some (objects s !! ref_key r)) → hBase (mHead m) < from →
  ∃ m' values, returns (DecisionsFrom from limit) m m' (values, hTip (mHead m)) ∧ decided_from from values ∧
    len values = Z.min (if limit <=? 0 then 256 else limit) (Z.max 0 (hTip (mHead m) - from + 1)).
Proof.
  intros Hm Ho Hb. destruct (mgr_chain _ _ _ Hm) as (Hl & Hs & _).
  destruct (returns_collect_refs m from (if limit <=? 0 then 256%nat else Z.to_nat limit) [] (mExtents m) (hBase (mHead m) + 1) (hTip (mHead m))) as (m' & values & Hret & Hv & Hlen); [done| |done|done| |destruct (Z.leb_spec limit 0); cbn; lia|].
  - intros r Hr. split_and!; [by eapply mgr_referenced|by apply Ho|]. by apply (links_ends _ _ _ _ _ r Hl Hr).
  - change (len []) with 0. lia.
  - exists m', values. split_and!; [|done|].
    + unfold Archive.DecisionsFrom. eapply returns_bind; [apply returns_self|]. rewrite (proj2 (Z.leb_gt _ _)) by lia. eapply returns_bind; [apply Hret|apply returns_pure].
    + rewrite Hlen. f_equal. destruct (Z.leb_spec limit 0); lia.
Qed.
End runs.

(** ** Theorems *)

Section theorems.
Context `{archiveSetting}.

Lemma reachable_archive es w : tenured_run es archive_start = Some w → world_ok w.
Proof. apply world_rules, all_sessions_keep. Qed.

Lemma continued_archive es w es' w' : tenured_run es archive_start = Some w → tenured_run es' w = Some w' → world_ok w' ∧ rtc store_step (archive w) (archive w').
Proof. intros Hw. apply run_rules; [apply all_sessions_keep|by eapply reachable_archive]. Qed.

Lemma steps_reported s s' : rtc store_step s s' → reported s ⊆ reported s'.
Proof. intros Hr. induction Hr as [s|s1 s2 s3 [i G] _ IH]; [done|]. etrans; [apply (gu_reported _ _ _ G)|done]. Qed.

Lemma steps_advance s s' h v : rtc store_step s s' → head_at s h v → ∃ h' v', head_at s' h' v' ∧ advance h h'.
Proof.
  intros Hr. revert h v. induction Hr as [s|s1 s2 s3 [i G] _ IH]; intros h v Hh; [exists h, v; split; [done|apply advance_refl]|].
  destruct (rely_at (S i) s1 s2 h v) as (h2 & v2 & Hh2 & Ha2); [right; exists i; split; [lia|done]|done|]. destruct (IH h2 v2 Hh2) as (h3 & v3 & Hh3 & Ha3).
  exists h3, v3. split; [done|by eapply advance_trans].
Qed.

(** C23: in every state of a run with publishers, trims, collections and
    seals, faults and crashes, a process that loads the archive undisturbed
    succeeds with the head that is there, and [DecisionsFrom] at any slot behind
    its base returns the decided values from there to the tip, up to its limit.
    The run is tenured: the heads a collection publishes and the objects it
    deletes change while it holds GC_LOCK; and no two uploads have the same
    hash. *)
Theorem archive_readable es w data v :
  tenured_run es archive_start = Some w → headObject (archive w) = Some (data, v) →
  ∃ h m, decodeHead data = Some h ∧ undisturbed_run (Load (NewManager cluster)) (archive w) = (archive w, (m, Ok tt)) ∧ mHead m = h ∧
    ∀ from limit, hBase h < from →
      ∃ m' values, undisturbed_run (DecisionsFrom from limit m) (archive w) = (archive w, (m', Ok (values, hTip h))) ∧
        map (λ d, (aSlot d, aValue d)) values =
          map (λ slot, (slot, valueAt slot)) (seqZ from (Z.min (if limit <=? 0 then 256 else limit) (Z.max 0 (hTip h - from + 1)))).
Proof.
  intros Hw Eh. pose proof (wo_inv _ (reachable_archive _ _ Hw)) as Hi. destruct (iv_head _ Hi _ _ Eh) as (_ & h & refs & Ed & _).
  destruct (returns_Load _ Hi data v h Eh Ed) as (m & Hload & Em & Hm & Ho). exists h, m. split_and!; [done|exact Hload|done|]. subst h. intros from limit Hf.
  destruct (returns_DecisionsFrom _ Hi m from limit Hm Ho Hf) as (m' & values & Hret & Hv & Hlen). exists m', values. split; [exact Hret|]. rewrite <-Hlen. by apply decided_slots.
Qed.

(** C24: in a tenured run, where a collection publishes and deletes only while
    it holds GC_LOCK and no two uploads have the same hash, a slot for which
    [SyncThrough] has returned without an error is archived for good: whatever
    happens later in such a run, a process that loads the archive undisturbed
    succeeds and its tip is not before that slot. *)
Theorem sync_durable es w es' w' t :
  tenured_run es archive_start = Some w → tenured_run es' w = Some w' → t ∈ reported (archive w) → 0 < t →
  ∃ m, undisturbed_run (Load (NewManager cluster)) (archive w') = (archive w', (m, Ok tt)) ∧ t <= hTip (mHead m).
Proof.
  intros Hw Hw' Ht H0. destruct (continued_archive _ _ _ _ Hw Hw') as [[Hi _] Hr]. apply (steps_reported _ _ Hr) in Ht.
  destruct (iv_reported _ Hi t Ht) as [->|(h & v & (data & Eh & Ed) & Hle)]; [lia|]. destruct (returns_Load _ Hi data v h Eh Ed) as (m & Hload & Em & _).
  exists m. split; [exact Hload|by rewrite Em].
Qed.

(** C25: along a tenured run heads only advance: generation, base and tip never
    go back, and a sealed head is never replaced. *)
Theorem archive_advances es w es' w' h v :
  tenured_run es archive_start = Some w → tenured_run es' w = Some w' → head_at (archive w) h v →
  ∃ h' v', head_at (archive w') h' v' ∧ hGeneration h <= hGeneration h' ∧ hBase h <= hBase h' ∧ hTip h <= hTip h' ∧ (hSealed h = true → h' = h).
Proof.
  intros Hw Hw' Hh. destruct (continued_archive _ _ _ _ Hw Hw') as [_ Hr]. destruct (steps_advance _ _ _ _ Hr Hh) as (h' & v' & Hh' & [? ? ? ?]). by exists h', v'.
Qed.
End theorems.
