(* ===== verification/ArchiveRuns.v ===== *)
(** * A run of the archive

    Three syncs, a collection that packs their extents, a trim, a sync beside
    it, a collection that deletes what is left over, and a seal. *)

From stdpp Require Import gmap list.
From S2P Require Import Prelude Bytes Protocol Schedule Node Programs ArchiveCodec ArchiveCodecProofs Archive ArchiveChains ArchiveLogic ArchiveReads ArchiveWrites ArchiveSync ArchiveCollect ArchiveProofs.

Section runs.
Context `{archiveSetting}.

Lemma tenured_run_cons e es w w1 : tenured_step e w = Some w1 → tenured_run (e :: es) w = tenured_run es w1.
Proof. intros E. cbn [Archive.archive_run]. by rewrite E. Qed.

Lemma tenured_run_app es es' w0 w w' : tenured_run es w0 = Some w → tenured_run es' w = Some w' → tenured_run (es ++ es') w0 = Some w'.
Proof. revert w0. induction es as [|e es IH]; intros w0; cbn [app Archive.archive_run]; [by intros [= ->]|]. destruct (tenured_step e w0); [apply IH|done]. Qed.
End runs.

Definition demo_hash (l : bytes) : bytes := be_encode 32 (foldl (λ a b, (a * 257 + byteZ b + 1) `mod` (2 ^ 61 - 1)) 7 l).
Definition demo_value (slot : Z) : bytes := [Zbyte (slot + 100)].
Definition demo_prefix (slot : Z) : bytes := Archive.prefix_at demo_hash 0 zeroHash demo_value slot.
Definition demo_seal (index : Z) : CheckpointSeal := mkSeal 1 index (repeat x01 32) (repeat x02 32) (demo_prefix index) [[x61]] [] None [].

Lemma demo_hash_length l : length (demo_hash l) = 32%nat.
Proof. apply be_encode_length. Qed.
Lemma demo_cluster_range : 0 <= 1 < 2 ^ 64.
Proof. lia. Qed.
Lemma demo_genesis_range : 0 <= 0 < 2 ^ 64.
Proof. lia. Qed.

#[local] Instance demo_setting : archiveSetting := {|
  sha256 := demo_hash;
  validateValue := None;
  unmarshalSeal := λ l, match l with [b] => Some (demo_seal (byteZ b)) | _ => None end;
  marshalSeal := λ seal, Some [Zbyte (sealIndex seal)];
  cluster := 1;
  genesisSlot := 0;
  genesisPrefix := zeroHash;
  valueAt := demo_value;
  sha256_length := demo_hash_length;
  cluster_range := demo_cluster_range;
  genesis_range := demo_genesis_range;
  genesisPrefix_length := eq_refl;
  genesis_zero := λ _, eq_refl;
|}.

(** Answers of the store; the choices of the environment are given in order. *)
Definition demo_oracle (b : bool) : oracle := mkOracle None b (repeat [x01] 8) 0 [].

Definition is_choice {X} (r : request X) : bool := match r with Choice => true | _ => false end.
Definition chooses (p : prog request unit) : bool := match p with Do r _ => is_choice r | Ret _ => false end.

Fixpoint drive (fuel : nat) (i : nat) (choices : list bool) (w : archiveWorld) : list archiveEvent * archiveWorld :=
  match fuel, sessions w !! i with
  | S n, Some p =>
      let '(b, rest) := if chooses p then (default false (head choices), tail choices) else (true, choices) in
      match tenured_step (ARun i (demo_oracle b)) w with
      | Some w' => let '(es, w'') := drive n i rest w' in (ARun i (demo_oracle b) :: es, w'')
      | None => ([], w)
      end
  | _, _ => ([], w)
  end.

Definition demo_trim : operation :=
  let value := checkpointSealMagic ++ [Zbyte 3] in OTrim (demo_seal 3) 9 (mkArchived 9 (demo_hash value) value [x05]).

(** A session to its end. *)
Definition play (ops : list operation) (choices : list bool) (x : list archiveEvent * archiveWorld) : list archiveEvent * archiveWorld :=
  let '(es, w) := x in
  match tenured_step (ASpawn ops) w with
  | Some w1 => let '(es', w2) := drive 400 (length (sessions w)) choices w1 in (es ++ ASpawn ops :: es', w2)
  | None => (es, w)
  end.

Lemma drive_run fuel i choices w : tenured_run (drive fuel i choices w).1 w = Some (drive fuel i choices w).2.
Proof.
  revert choices w. induction fuel as [|n IH]; intros choices w; cbn [drive]; [done|]. destruct (sessions w !! i) as [p|]; [|done].
  destruct (if chooses p then _ else _) as [b rest]. destruct (tenured_step _ w) as [w'|] eqn:Es; [|done].
  specialize (IH rest w'). destruct (drive n i rest w') as [es w'']. etrans; [apply (tenured_run_cons _ _ _ _ Es)|exact IH].
Qed.

Lemma play_run ops choices x w0 : tenured_run x.1 w0 = Some x.2 → tenured_run (play ops choices x).1 w0 = Some (play ops choices x).2.
Proof.
  destruct x as [es w]. intros Hx. unfold play. destruct (tenured_step (ASpawn ops) w) as [w1|] eqn:Es; [|done]. pose proof (drive_run 400 (length (sessions w)) choices w1) as Hd.
  destruct (drive 400 _ choices w1) as [es' w2]. cbn [fst snd] in *. apply (tenured_run_app _ _ _ w); [done|]. etrans; [apply (tenured_run_cons _ _ _ _ Es)|exact Hd].
Qed.

Lemma play_first ops choices w : tenured_run (play ops choices ([], w)).1 w = Some (play ops choices ([], w)).2.
Proof. by apply play_run. Qed.

(** Syncs and a collection; then a trim, a sync, a collection and a seal. *)
Definition demo_packing : list archiveEvent * archiveWorld :=
  play [OCleanup 0] [true; true; false; false]
    (play [OSync 0 2; OSync 0 4; OSync 0 5] [false; true; false; true; false; true; true; false; true; true; false] ([], archive_start)).
Definition demo_rest : list archiveEvent * archiveWorld :=
  play [OSeal [x01]] [true; true; false]
    (play [OCleanup 0] [true; true; false; false] (play [OLoad; OSync 0 7] [true; true; false] (play [demo_trim] [true; true; false; false] ([], demo_packing.2)))).
Definition demo_world : archiveWorld := demo_rest.2.

Lemma demo_packed : tenured_run demo_packing.1 archive_start = Some demo_packing.2.
Proof. unfold demo_packing. exact (play_run _ _ _ _ (play_first _ _ _)). Qed.

Lemma demo_continued : tenured_run demo_rest.1 demo_packing.2 = Some demo_world.
Proof. unfold demo_world, demo_rest. exact (play_run _ _ _ _ (play_run _ _ _ _ (play_run _ _ _ _ (play_first _ _ _)))). Qed.

Lemma demo_reached : tenured_run (demo_packing.1 ++ demo_rest.1) archive_start = Some demo_world.
Proof. exact (tenured_run_app _ _ _ _ _ demo_packed demo_continued). Qed.

(** The head of a state. *)
Definition stored_head (w : archiveWorld) : bytes * nat := default ([], 0%nat) (headObject (archive w)).
Definition parsed_head (w : archiveWorld) : archiveHead := default (empty_head 0) (decodeHead (stored_head w).1).

Lemma demo_head_stored : headObject (archive demo_world) = Some ((stored_head demo_world).1, (stored_head demo_world).2).
Proof. vm_compute. reflexivity. Qed.

Lemma demo_head_parsed : decodeHead (stored_head demo_world).1 = Some (parsed_head demo_world).
Proof. vm_compute. reflexivity. Qed.

Lemma demo_packed_head : head_at (archive demo_packing.2) (parsed_head demo_packing.2) (stored_head demo_packing.2).2.
Proof. exists (stored_head demo_packing.2).1. split; vm_compute; reflexivity. Qed.

(** The collections have deleted the extents of the first syncs. *)
Example demo_collected : size (objects (archive demo_packing.2)) = 4%nat ∧ size (objects (archive demo_world)) = 3%nat ∧ hSealed (parsed_head demo_world) = true.
Proof. vm_compute. done. Qed.

Lemma archive_readable_witness :
  ∃ m m' values, undisturbed_run (Load (NewManager 1)) (archive demo_world) = (archive demo_world, (m, Ok tt)) ∧
    undisturbed_run (DecisionsFrom 4 2 m) (archive demo_world) = (archive demo_world, (m', Ok (values, 7))) ∧
    map (λ d, (aSlot d, aValue d)) values = [(4, demo_value 4); (5, demo_value 5)].
Proof.
  destruct (archive_readable (demo_packing.1 ++ demo_rest.1) demo_world _ _ demo_reached demo_head_stored) as (h & m & Ed & Hl & Em & Hread).
  rewrite demo_head_parsed in Ed. apply (inj Some) in Ed as <-.
  assert (hBase (parsed_head demo_world) < 4) as Hb by (vm_compute; reflexivity).
  assert (hTip (parsed_head demo_world) = 7) as Ht by (vm_compute; reflexivity).
  destruct (Hread 4 2 Hb) as (m' & values & Hr & Hv). rewrite Ht in Hr, Hv. exists m, m', values. split; [exact Hl|]. split; [exact Hr|exact Hv].
Defined.

Lemma sync_durable_witness : ∃ m, undisturbed_run (Load (NewManager 1)) (archive demo_world) = (archive demo_world, (m, Ok tt)) ∧ 5 <= hTip (mHead m).
Proof.
  assert (5 ∈ reported (archive demo_packing.2)) as Ht by (apply (bool_decide_unpack _); vm_compute; exact I).
  exact (sync_durable demo_packing.1 demo_packing.2 demo_rest.1 demo_world 5 demo_packed demo_continued Ht ltac:(lia)).
Defined.

Lemma archive_advances_witness :
  ∃ h' v', head_at (archive demo_world) h' v' ∧ hGeneration (parsed_head demo_packing.2) <= hGeneration h' ∧ hBase (parsed_head demo_packing.2) <= hBase h' ∧ hTip (parsed_head demo_packing.2) <= hTip h' ∧
    (hSealed (parsed_head demo_packing.2) = true → h' = parsed_head demo_packing.2).
Proof. exact (archive_advances demo_packing.1 demo_packing.2 demo_rest.1 demo_world _ _ demo_packed demo_continued demo_packed_head). Defined.
