(* ===== verification/AutoPolicy.v ===== *)
(** * The automatic recovery policy (pkg/operator/automatic_policy.go)

    A [time.Time] is the number of nanoseconds since Go's zero time, so the
    zero value is 0; a [time.Duration] is an int64, [Sub] saturates and the
    product of seconds and [time.Second] wraps. *)

From stdpp Require Import list.
From S2P Require Import Prelude.

Definition minInt64 : Z := - 2 ^ 63.
Definition maxInt64 : Z := 2 ^ 63 - 1.
Definition i64 (z : Z) : Z := (z + 2 ^ 63) mod 2 ^ 64 - 2 ^ 63.

Definition Second : Z := 1000000000.
Definition day : Z := 24 * 3600 * Second.

(** [t.Sub(u)]. *)
Definition Sub (t u : Z) : Z := Z.max minInt64 (Z.min maxInt64 (t - u)).
(** [time.Duration(seconds) * time.Second]. *)
Definition seconds (n : Z) : Z := i64 (n * Second).

Inductive AutoDecision := AutoHealthy | AutoDegraded | AutoSuspect | AutoBlocked | AutoRecover.

#[global] Instance AutoDecision_eq_dec : EqDecision AutoDecision.
Proof. solve_decision. Defined.

Record AutoPolicy := mkPolicy {
  FailureGraceSeconds : Z;
  CooldownSeconds : Z;
  MaxRecoveriesPerDay : Z;
  AllowDataLoss : bool;
}.

(** The source accepts two durability modes and rejects other strings. *)
Inductive Durability := Async | BeforeAck | InvalidDurability.

#[global] Instance Durability_eq_dec : EqDecision Durability.
Proof. solve_decision. Defined.

Record AutoObservation := mkObservation {
  Known : bool;
  Voters : Z;
  Reachable : Z;
  QuorumVerified : bool;
  StoreAvailable : bool;
  Durability_ : Durability;
}.

(** Completions after the cutoff. *)
Definition recoveriesToday (now : Z) (completed : list Z) : Z :=
  foldl (λ n t, if now - day <? t then n + 1 else n) 0 completed.

Definition lastCompletion (completed : list Z) : Z := foldl (λ last t, if last <? t then t else last) 0 completed.

Definition DecideAutoRecovery (policy : AutoPolicy) (obs : AutoObservation) (now suspectedSince : Z) (completed : list Z)
    : AutoDecision :=
  if (FailureGraceSeconds policy <=? 0) || (CooldownSeconds policy <=? 0) || (MaxRecoveriesPerDay policy <=? 0) then AutoBlocked
  else if negb (Known obs) then AutoBlocked
  else if negb (StoreAvailable obs) then AutoBlocked
  else if negb (bool_decide (Durability_ obs = Async)) && negb (bool_decide (Durability_ obs = BeforeAck)) then AutoBlocked
  else if QuorumVerified obs && (Voters obs <=? Reachable obs) && (0 <? Voters obs) then AutoHealthy
  else if QuorumVerified obs then AutoDegraded
  else if suspectedSince =? 0 then AutoSuspect
  else if Sub now suspectedSince <? seconds (FailureGraceSeconds policy) then AutoSuspect
  else if bool_decide (Durability_ obs = Async) && negb (AllowDataLoss policy) then AutoBlocked
  else if MaxRecoveriesPerDay policy <=? recoveriesToday now completed then AutoBlocked
  else if negb (lastCompletion completed =? 0) && (Sub now (lastCompletion completed) <? seconds (CooldownSeconds policy))
  then AutoBlocked
  else AutoRecover.

(** ** What authorizes a recovery *)

(** Seconds whose duration does not wrap: up to about 292 years. *)
Definition maxSeconds : Z := 9223372036.

Lemma seconds_exact n : 0 <= n <= maxSeconds → seconds n = n * Second.
Proof. intros H. unfold seconds, i64, Second, maxSeconds in *. rewrite Z.mod_small; lia. Qed.

(** A wait that does not wrap is over exactly when that much time passed. *)
Lemma waited now since n : 0 <= n <= maxSeconds → (Sub now since <? seconds n) = false ↔ since + n * Second <= now.
Proof.
  intros H. rewrite seconds_exact, Z.ltb_ge by done. unfold Sub, minInt64, maxInt64, Second, maxSeconds in *. lia.
Qed.

Lemma recoveriesToday_filter now completed :
  recoveriesToday now completed = Z.of_nat (length (filter (λ t, now - day < t) completed)).
Proof.
  unfold recoveriesToday. assert (∀ n, foldl (λ n t, if now - day <? t then n + 1 else n) n completed =
    n + Z.of_nat (length (filter (λ t, now - day < t) completed))) as H; [|by rewrite H].
  induction completed as [|t l IH]; intros n; simpl; [lia|]. rewrite filter_cons, IH.
  destruct (Z.ltb_spec (now - day) t); case_decide; simpl; lia.
Qed.

Lemma lastCompletion_spec completed :
  (∀ t, t ∈ completed → 0 < t) → (∀ t, t ∈ completed → t <= lastCompletion completed) ∧
  (lastCompletion completed = 0 ↔ completed = []) ∧ (completed ≠ [] → lastCompletion completed ∈ completed).
Proof.
  unfold lastCompletion. intros Hpos.
  assert (∀ x, 0 <= x → let r := foldl (λ last t, if last <? t then t else last) x completed in
    x <= r ∧ (∀ t, t ∈ completed → t <= r) ∧ (r = x ∨ r ∈ completed)) as H.
  { induction completed as [|t l IH]; intros x Hx; simpl; [split_and!; [lia|by intros t ?%elem_of_nil|by left]|].
    assert (0 < t) by (apply Hpos; by left). specialize (IH (λ y Hy, Hpos y ltac:(by right))).
    destruct (Z.ltb_spec x t) as [E|E]; [destruct (IH t) as (H1 & H2 & H3)|destruct (IH x) as (H1 & H2 & H3)]; try lia.
    - split_and!; [lia|intros y [->|Hy]%elem_of_cons; [done|by apply H2]|right; destruct H3 as [->|H3]; [by left|by right]].
    - split_and!; [lia|intros y [->|Hy]%elem_of_cons; [lia|by apply H2]|destruct H3 as [->|H3]; [by left|right; by right]]. }
  destruct (H 0 ltac:(lia)) as (H1 & H2 & H3). split_and!; [done| |].
  - split; [|by intros ->]. intros E. destruct completed as [|t l]; [done|]. exfalso.
    specialize (H2 t ltac:(by left)). specialize (Hpos t ltac:(by left)). simpl in *. lia.
  - intros Hne. destruct H3 as [E|H3]; [|done]. destruct completed as [|t l]; [done|]. exfalso.
    specialize (H2 t ltac:(by left)). specialize (Hpos t ltac:(by left)). simpl in *. lia.
Qed.

(** With waits that do not wrap, an automatic recovery is authorized
    exactly when the policy is positive, the observation is known and the
    store is available in a valid mode, no quorum is verified, the outage was
    recorded and has lasted the grace period, an asynchronous source allows
    data loss, the limit per 24 hours is not reached, and every completed
    recovery is at least the cooldown ago. *)
Theorem recovery_authorized_exactly policy obs now suspectedSince completed :
  0 < FailureGraceSeconds policy <= maxSeconds → 0 < CooldownSeconds policy <= maxSeconds →
  (∀ t, t ∈ completed → 0 < t) →
  DecideAutoRecovery policy obs now suspectedSince completed = AutoRecover ↔
  0 < MaxRecoveriesPerDay policy ∧ Known obs = true ∧ StoreAvailable obs = true ∧
  Durability_ obs ≠ InvalidDurability ∧ QuorumVerified obs = false ∧
  suspectedSince ≠ 0 ∧ suspectedSince + FailureGraceSeconds policy * Second <= now ∧
  (Durability_ obs = Async → AllowDataLoss policy = true) ∧
  Z.of_nat (length (filter (λ t, now - day < t) completed)) < MaxRecoveriesPerDay policy ∧
  (∀ t, t ∈ completed → t + CooldownSeconds policy * Second <= now).
Proof.
  intros Hg Hc Hpos. destruct (lastCompletion_spec completed Hpos) as (Hmax & Hzero & Hin).
  pose proof (waited now suspectedSince (FailureGraceSeconds policy) ltac:(lia)) as Hw1.
  pose proof (waited now (lastCompletion completed) (CooldownSeconds policy) ltac:(lia)) as Hw2.
  assert (negb (lastCompletion completed =? 0) && (Sub now (lastCompletion completed) <? seconds (CooldownSeconds policy)) = false ↔
    (∀ t, t ∈ completed → t + CooldownSeconds policy * Second <= now)) as Hcool.
  { destruct (Z.eqb_spec (lastCompletion completed) 0) as [E|E]; simpl.
    - split; [|done]. intros _ t Ht. apply Hzero in E as ->. by apply elem_of_nil in Ht.
    - rewrite Hw2. split; [intros H t Ht; specialize (Hmax t Ht); lia|]. intros H. apply H, Hin. intros ->. apply E. by apply Hzero. }
  unfold DecideAutoRecovery. rewrite recoveriesToday_filter.
  destruct (Z.leb_spec (FailureGraceSeconds policy) 0); [lia|]. destruct (Z.leb_spec (CooldownSeconds policy) 0); [lia|]. cbn [orb].
  destruct (Z.leb_spec (MaxRecoveriesPerDay policy) 0); [naive_solver lia|].
  destruct (Known obs); [|naive_solver]. destruct (StoreAvailable obs); [|naive_solver]. cbn [negb].
  destruct (QuorumVerified obs); [destruct (Durability_ obs); repeat case_match; naive_solver|]. cbn [andb].
  destruct (Z.eqb_spec suspectedSince 0); [destruct (Durability_ obs); simpl; naive_solver|].
  destruct (Sub now suspectedSince <? _) eqn:E1.
  { assert (¬ suspectedSince + FailureGraceSeconds policy * Second <= now) by (rewrite <-Hw1; done).
    destruct (Durability_ obs); simpl; naive_solver. }
  pose proof (proj1 Hw1 eq_refl) as Hlasted.
  destruct (Z.leb_spec (MaxRecoveriesPerDay policy) (Z.of_nat (length (filter (λ t, now - day < t) completed)))).
  { destruct (Durability_ obs), (AllowDataLoss policy); simpl; naive_solver lia. }
  destruct (negb _ && _) eqn:E2.
  { assert (¬ (∀ t, t ∈ completed → t + CooldownSeconds policy * Second <= now)) by (rewrite <-Hcool; done).
    destruct (Durability_ obs), (AllowDataLoss policy); simpl; naive_solver. }
  pose proof (proj1 Hcool eq_refl) as Hcooled. destruct (Durability_ obs), (AllowDataLoss policy); simpl; naive_solver.
Qed.

Definition demo_policy (grace : Z) : AutoPolicy := mkPolicy grace 60 1 false.
Definition demo_outage : AutoObservation := mkObservation true 3 1 false true BeforeAck.

Lemma recovery_authorized_exactly_witness :
  DecideAutoRecovery (demo_policy 30) demo_outage (200 * day) (199 * day) [1] = AutoRecover ↔
  0 < 1 ∧ true = true ∧ true = true ∧ BeforeAck ≠ InvalidDurability ∧ false = false ∧
  199 * day ≠ 0 ∧ 199 * day + 30 * Second <= 200 * day ∧ (BeforeAck = Async → false = true) ∧
  Z.of_nat (length (filter (λ t, 200 * day - day < t) [1])) < 1 ∧ (∀ t, t ∈ [1] → t + 60 * Second <= 200 * day).
Proof.
  apply (recovery_authorized_exactly (demo_policy 30) demo_outage (200 * day) (199 * day) [1]).
  - simpl. unfold maxSeconds. lia.
  - simpl. unfold maxSeconds. lia.
  - intros t [->|[]%elem_of_nil]%elem_of_cons. lia.
Defined.

(** A grace period of 9223372037 seconds or more wraps to a negative
    duration, and the recovery it should hold back for centuries is
    authorized one nanosecond into the outage. *)
Theorem long_grace_wraps :
  DecideAutoRecovery (demo_policy 9223372037) demo_outage (200 * day + 1) (200 * day) [] = AutoRecover ∧
  200 * day + 1 < 200 * day + FailureGraceSeconds (demo_policy 9223372037) * Second.
Proof. split; by vm_compute. Qed.
